(* ===== verification/_CoqProject ===== *)
-Q . S2P
Prelude.v
FluxBin.v
Row.v
IndexKey.v
Ieee.v
Types.v
TxState.v
LogRecord.v
Crc32c.v
CommitLog.v
PageFormat.v
PageCodec.v
PageFile.v
ColdTier.v
ColdSample.v
BufferPool.v
BufferPoolProps.v
Pager.v
PagerSample.v
PagedTree.v
PagedTreeNode.v
PagedTreeRep.v
PagedTreeWrite.v
PagedTreeSpec.v
KvTree.v
TableState.v
TableSpec.v
Reclaim.v
MemStore.v
MergeSpec.v
IndexSpec.v
StoreSpec.v
CommitSpec.v
Replica.v
StoreBuild.v
TxSpec.v
RefSpec.v
WriteSpec.v
Transaction.v
Sample.v
StoreProps.v
History.v
Usage.v
StoreBounds.v
Checkpoint.v
Recovery.v
RecoveryProps.v
Pipeline.v
PipelineProps.v
PipelineSample.v
Idempotency.v
RowList.v
Crdt.v
CrdtProps.v
SqlText.v
SqlTextProps.v
FullText.v
Query.v
QueryPlan.v
Mask.v
MatView.v
Subscription.v
QueryEval.v
SubTiers.v
SendBuffer.v
SubManager.v
SubClient.v
MatViewProps.v
SubProps.v
SubSample.v
QuadTree.v
QuadTreeRep.v
QuadTreeSpec.v
QuadTreeProps.v
Spatial.v
SpatialProps.v
QuadSample.v
Migration.v
MigrationProps.v
MigrationSample.v
