(* ===== verification/Prelude.v ===== *)
(** Fluxum: a verification library of its storage engine.

    * The program

    Fluxum is a database whose application code (reducers) runs inside a shard.
    A shard has one writer. A reducer opens a transaction on the store
    ([store/memstore/tx.rs]); every write is validated against the schema, the
    unique constraints and the foreign keys and buffered. Commit
    ([store/memstore.rs]) merges the buffer into copy-on-write trees
    ([store/pager/tree.rs], rows through [store/committed.rs], secondary indexes
    through [index/btree.rs], unique constraints through [store/unique.rs]),
    publishes a new version that readers pick up without locks, hands the
    superseded pages to the version reclaimer ([store/pager/reclaim.rs]) and
    yields a diff. The diff becomes a record ([commitlog/record.rs]) that the
    commit log ([commitlog/]) makes durable and that replicas apply; the pipeline
    ([txn/mod.rs]) runs the reducers one after the other. Checkpoints of the
    tables ([checkpoint/]) bound the log that a recovery replays. Rows and
    keys cross these parts as bytes: FluxBIN ([fluxum-protocol/src/fluxbin.rs],
    [store/row.rs]) for rows and primary keys, memcomparable keys for indexes.
    Text columns can be collaborative documents ([crdt.rs]). Clients subscribe to
    queries of a SQL subset ([sql/]): the subscription manager ([subscription/])
    answers from a snapshot, shares one plan among the subscribers of a query and
    turns every diff into the deltas each of them may see, with columns masked
    ([transform/mask.rs]), materialized views kept up to date and slow connections
    dropped ([subscription/sendbuffer.rs]). Tables with coordinates keep a quadtree
    ([index/quadtree.rs]) over the same trees. At startup a stored catalog is
    compared with the compiled schema and brought up to date in a transaction
    ([migration/]). Paths are under
    [src/crates/fluxum-core/src/] unless they say otherwise.

    * Files

    This file holds the notions the others share: results and the state-and-error
    monad of fallible methods, machine integers with their wrap-around, bytes,
    the order class [OrdKey] for the keys of ordered maps, the hint databases.

    Bytes
    - [FluxBin] the wire codec's writer and reader, one definition per method;
    - [Row] column types, values, row and primary-key codecs;
    - [IndexKey] the memcomparable transform, entry keys, scan planning;
    - [Types] identities, blob references, decimals; [Ieee] floats as bit patterns.

    Commit log
    - [TxState] the transaction buffer and the diff; [LogRecord] the record;
    - [Crc32c] the checksum; [CommitLog] frames, segments, scan, quarantine,
      replay, recovery, the writer's commands and compaction.

    Pages and trees
    - [PageFormat] page images and superblocks;
    - [PageCodec] compression and sealing of images ([store/pager/codec.rs]),
      [PageFile] the extents of a page file ([store/pager/pagefile.rs]), [ColdTier]
      the spill and fault paths of a table, [ColdSample] a witness;
    - [BufferPool] frames, pins, clock and watermarks ([store/pager/pool.rs]) over an
      interface to the tier below, [BufferPoolProps] its lemmas and results; [Pager]
      the pool over the cold tiers ([store/pager/mod.rs]), [PagerSample] witnesses;
    - [PagedTree] the tree's operations; [PagedTreeNode], [PagedTreeRep],
      [PagedTreeWrite] their lemmas; [PagedTreeSpec] the refinement of finite maps;
    - [KvTree] the interface the store uses (class [KvTreeLaws]) and the paged
      tree as its instance.

    Store
    - [TableState] one table's trees and their operations, [TableSpec] and
      [IndexSpec] what they do; [Reclaim] the version reclaimer;
    - [MemStore] transactions, commit, publication, temporal window, snapshots;
      [StoreBuild] assembly and installation of a recovered state; [Replica]
      application of records and diffs;
    - [MergeSpec], [StoreSpec], [CommitSpec], [TxSpec], [RefSpec], [Transaction]
      the invariants and the refinement of tables as finite maps; [WriteSpec] which
      rows a write accepts and why it refuses one;
    - [Sample] a concrete store, and two with float keys; [StoreProps], [History],
      [Usage], [StoreBounds] the results.

    Durability
    - [Checkpoint] artifacts, manifests and the checkpoint repository
      ([checkpoint/repo.rs], [checkpoint/manifest.rs]); [Recovery] recovery from
      checkpoint and log ([checkpoint/recover.rs]);
    - [Pipeline] the queue and the writer of a shard ([txn/mod.rs]);
      [PipelineProps] what it logs, what survives a crash and what a replica that
      applies the log holds;
    - [RecoveryProps], [PipelineSample] their witnesses over the sample store.

    Around the store
    - [Idempotency] exactly-once submission of reducer calls
      ([reducer/idempotency.rs]) over the store's transactions;
    - [RowList] the row batches of the wire protocol
      ([fluxum-protocol/src/rowlist.rs]);
    - [Crdt] collaborative documents and their operations, [CrdtProps] the results;
    - [Migration] the catalog, its diff, plans and automatic changes
      ([migration/]), [MigrationProps] the results, [MigrationSample] an upgrade.

    Queries and subscriptions
    - [SqlText] lexer, parser and canonical text ([sql/lexer.rs], [sql/parse.rs]),
      [SqlTextProps] that the canonical text determines the query; [FullText] the
      analyzer and [MATCH] ([index/fulltext.rs]); [Query] compilation and the
      access path ([sql/mod.rs]), [QueryPlan] its lemmas;
    - [Mask] column masks; [MatView] materialized views ([subscription/matview.rs]),
      [MatViewProps] their maintenance; [SendBuffer] send buffers;
    - [Subscription] the manager ([subscription/manager.rs], [subscription/mod.rs]);
      [QueryEval] what a query reads, [SubTiers] the pruning indexes, [SubManager]
      the invariant of the manager, [SubClient] the cache of a client
      ([subscription/proptest.rs]), [SubProps] the results, [SubSample] witnesses.

    Spatial index
    - [QuadTree] the index, [QuadTreeRep] its keys and codec, [QuadTreeSpec] its
      operations on the canonical tree, [QuadTreeProps] histories and queries;
    - [Spatial] the slot of a table ([index/mod.rs]), an instance of the store's
      interface for such indexes, [SpatialProps] the results, [QuadSample] witnesses.

    * What the theorems show

    - Store: a reducer's transaction commits exactly the contents it saw, with
      consistent indexes ([transaction_commits], [indexes_verified],
      [index_scan_exact]); older snapshots and earlier states in the temporal
      window keep reading their own contents ([snapshots_isolated],
      [as_of_reads]); no committed reference dangles and cascades end
      ([references_kept], [delete_terminates], [foreign_keys_typed]); writes
      are refused for a true reason and report conflicts exactly when there are
      some ([write_outcomes]); a replica that applies the records holds the
      primary's durable contents ([replica_converges]); superseded pages are given back as soon as no
      reader needs them ([pages_reclaimed]); automatic ids are not used twice, across
      restarts too ([auto_inc_fresh]).
      These theorems are about stores whose tables have no spatial or full-text
      index ([parts_is] of MergeSpec) and which have no value transforms, and about rows that fit the
      trees, hold no floats in unique or reference columns and stay at their key
      when a reference is cleared ([good_env] of RefSpec). With floats there a
      commit can fail and a reference can dangle: [float_unique_commit_fails],
      [float_reference_dangles].
    - Durability: the records the pipeline logs rebuild the store's tables
      ([pipeline_logged]); checkpoints load back what they were written from and
      survive pruning ([checkpoint_round_trip], [prune_keeps]); recovery is exact
      with lower-bound stamps, failing newer checkpoints and compacted logs
      ([recovery_exact]), so that commits survive a crash
      ([commits_survive_crash]).
    - Trees: every operation refines a finite map from byte strings, page
      accounting is exact, older trees stay readable ([insert_cow_refines],
      [delete_cow_refines], [scan_refines], [get_refines], [history_refines]).
    - Pages on disk: an image is read back as it was stored, whatever codec and
      keyring ([image_round_trip]); the cold tier of a table is a map from page ids to
      images in extents that never overlap ([cold_tier_refines]); the pager, with its
      evictions, is a map from page keys to images within its capacity
      ([pager_refines]), and insertions return while pins stay below the high
      watermark ([install_returns]).
    - Log: replay visits exactly the written records, recovery removes exactly a
      torn tail, appends after a recovery are replayed ([replay_exact],
      [recover_repairs], [append_then_replay], [compact_keeps_needed]); changed
      bytes are noticed ([scan_stops_at_changed_byte], [page_byte_detected],
      [crc32c_detects_byte]).
    - Codecs: round trips and canonicity ([decode_encode_row],
      [encode_decode_row], [encode_pk_injective], [page_round_trip],
      [record_effects], [rowlist_round_trip]) and order ([entry_key_order],
      [value_cmp_spec]).
    - Submission: a recorded key is never applied again while its record is kept
      ([applied_once]), and the window keeps the newest records ([prune_window]).
    - Collaborative text: [crdt_converges], [delta_catches_up], [local_edits].
    - Queries: a query returns the rows that meet it, whichever index serves it
      ([query_reads], for values without NaN and negative zero, lists without
      repeats and no scan budget); plans are shared only among equal queries
      ([normalize_injective]); what is delivered does not depend on withheld
      columns ([mask_hides]).
    - Subscriptions: a client that applies its deltas holds the rows of its query
      ([cache_follows], on tables without policies, documents and membership
      rules); pruning leaves nothing out ([pruning_exact]), both for values
      without NaN and negative zero; a resume
      replays what was missed ([resume_replays]); caps, pruning indexes and
      retained deltas stay consistent ([bookkeeping_kept]); views equal a rebuild
      ([views_incremental]).
    - Spatial index: the stored nodes depend on the points only ([quad_refines]),
      and the slot of a table answers for its rows ([spatial_follows],
      [spatial_integrity]).
    - Migrations: the diff accepts exactly the layouts that extend the stored one
      ([safe_diff_extends]), and applying it reaches the compiled catalog with every
      row extended by the defaults ([auto_migration]).
    - Behaviour that departs from what the code documents:
      [get_misses_after_bulk_load], [epoch_regression_loses_append],
      [value_cmp_not_transitive], [restricted_delete_dangles],
      [window_budget_empties], [delta_loses_insert], [checkpoint_ahead_of_log],
      [second_handle_lost], [busy_buffer_dropped], [in_list_repeats],
      [negative_zero_key], [boundary_points_missed], [nan_row_diverges],
      [unfingerprinted_catalog_stuck], [watermark_spins],
      [float_unique_commit_fails], [float_reference_dangles].

    * Parameters, bounds and fuel

    Third-party code is a parameter with its documented behaviour as the
    hypothesis: the MessagePack codec ([rmp_serde]: what is packed unpacks), the
    CRC crates, SHA-256 (32 bytes, no collision among the objects of a
    repository and the chunks being written, [no_collision]), LZ4 and
    zstd and the keyring (what is packed or sealed opens; [BlockCodecsLaws],
    [keyring_ok]), the schema's registered functions, the blob store, the Unicode tables, the 64-bit hash of a query. Parts
    of the program that have no model are interfaces: the indexes next to the
    B-trees ([SideIndex], of which the quadtree slot is an instance; the theorems
    about the store are for tables without them), the R-tree
    ([RTreeOps]), the candidates of spatial and full-text clauses ([SideQuery]), the
    clock of the scan deadline.

    Integers are [Z] with their width written out where it matters. Theorems
    about the tree assume a page size from 256 bytes to 128 KiB and page ids
    below [2^64]; those about the store assume transaction ids, versions and
    counters below [2^64].

    Walks over pages have as many steps as there are pages, more than a walk over
    distinct pages takes. The work list of a delete has one round per visible
    row, which [delete_terminates] shows to be enough. The walk of a document has
    one round per character, which [crdt_converges] shows to be enough. A quadtree
    has 32 levels; its walks have 34 rounds, which [quad_refines] and
    [spatial_follows] show to be enough. An insertion into the buffer pool has two
    rounds more than there are resident frames, which [install_returns] shows to be
    enough; [watermark_spins] is the case where no number is. Lexer and parser have one round per byte
    or token.

    * Not modelled

    - Operating-system errors of page files and of the log, file names, metrics. The
      trees are over a map of pages, which the pager is shown to be. Cold tables
      ([store/pager/cold.rs]), which only tests and benchmarks use.
    - Locks and threads, the keys in flight of the buffer pool among them: a shard has one writer, and readers see only published
      states, so operations are sequences of steps; reference counts of published
      states are explicit.
    - The R-tree, the postings and the ranking of full-text indexes, shard
      hand-off, the store-wide rebuild of indexes, the rebuild of the trees from
      the recovered tables.
    - The reducer runtime and user migration functions, rate limits, the JSON read
      surface of subscriptions, framing and compression, authentication, the
      schema registry, the servers, macros and SDKs: glue over threads, sockets and
      third-party crates, or code generation. *)

From stdpp Require Import base list gmap sorting numbers strings.
From Stdlib Require Import ZArith Lia.

#[global] Open Scope Z_scope.
#[global] Set Default Proof Using "Type".

(** * Results and the two effect monads *)

(** [Result<A, E>] of the source. *)
Inductive result (E A : Type) : Type :=
  | Ok (a : A)
  | Err (e : E).
Arguments Ok {E A} _.
Arguments Err {E A} _.

#[global] Instance result_ret E : MRet (result E) := fun A a => Ok a.
#[global] Instance result_bind E : MBind (result E) := fun A B f r =>
  match r with Ok a => f a | Err e => Err e end.

#[global] Instance result_eq_dec E A `{EqDecision E, EqDecision A} : EqDecision (result E A).
Proof. solve_decision. Defined.

#[global] Instance Ok_inj E A : Inj (=) (=) (@Ok E A).
Proof. by intros a b [= ->]. Qed.

Definition is_ok {E A} (r : result E A) : bool :=
  match r with Ok _ => true | Err _ => false end.

Definition from_option {E A} (e : E) (o : option A) : result E A :=
  match o with Some a => Ok a | None => Err e end.

Lemma result_bind_Ok {E A B} (r : result E A) (f : A -> result E B) b :
  r ≫= f = Ok b <-> exists a, r = Ok a /\ f a = Ok b.
Proof. destruct r; simpl; split; [eauto | naive_solver | discriminate | naive_solver]. Qed.

(** A [&mut self] method that can fail: the state survives the error, as a
    mutable borrow does. *)
Definition SM (S E A : Type) : Type := S -> result E A * S.

#[global] Instance sm_ret S E : MRet (SM S E) := fun A a s => (Ok a, s).
#[global] Instance sm_bind S E : MBind (SM S E) := fun A B f m s =>
  match m s with
  | (Ok a, s') => f a s'
  | (Err e, s') => (Err e, s')
  end.

Definition sm_fail {S E A} (e : E) : SM S E A := fun s => (Err e, s).
Definition sm_lift {S E A} (r : result E A) : SM S E A := fun s => (r, s).
Definition sm_map_err {S E E' A} (g : E -> E') (m : SM S E A) : SM S E' A := fun s =>
  match m s with
  | (Ok a, s') => (Ok a, s')
  | (Err e, s') => (Err (g e), s')
  end.

(** * Machine integers

    An unsigned [w]-bit integer is a [Z] in [0, 2^w), a signed one a [Z] in
    [-2^(w-1), 2^(w-1)). *)

Definition u_ok (w z : Z) : Prop := 0 <= z < 2 ^ w.
Definition i_ok (w z : Z) : Prop := - 2 ^ (w - 1) <= z < 2 ^ (w - 1).
Definition cast_unsigned (w z : Z) : Z := z mod 2 ^ w.
Definition cast_signed (w z : Z) : Z :=
  if z mod 2 ^ w <? 2 ^ (w - 1) then z mod 2 ^ w else z mod 2 ^ w - 2 ^ w.
Definition u_max (w : Z) : Z := 2 ^ w - 1.
(** [saturating_add] on a [w]-bit unsigned integer. *)
Definition sat_add (w a b : Z) : Z := Z.min (a + b) (u_max w).
(** [saturating_sub] on an unsigned integer. *)
Definition sat_sub (a b : Z) : Z := Z.max (a - b) 0.

#[global] Instance u_ok_dec w z : Decision (u_ok w z).
Proof. unfold u_ok. apply _. Defined.
#[global] Instance i_ok_dec w z : Decision (i_ok w z).
Proof. unfold i_ok. apply _. Defined.

Lemma cast_signed_unsigned w z : 0 < w -> i_ok w z -> cast_signed w (cast_unsigned w z) = z.
Proof.
  intros Hw [H1 H2]. unfold cast_signed, cast_unsigned.
  assert (2 ^ w = 2 * 2 ^ (w - 1)) as Hp.
  { rewrite <- Z.pow_succ_r by lia. f_equal; lia. }
  assert (0 < 2 ^ (w - 1)) by (apply Z.pow_pos_nonneg; lia).
  rewrite Z.mod_mod by lia.
  destruct (Z.lt_ge_cases z 0).
  - replace (z mod 2 ^ w) with (z + 2 ^ w).
    + destruct (Z.ltb_spec (z + 2 ^ w) (2 ^ (w - 1))); lia.
    + apply Z.mod_unique with (-1); lia.
  - rewrite Z.mod_small by lia. destruct (Z.ltb_spec z (2 ^ (w - 1))); lia.
Qed.

Lemma cast_signed_ok w z : 0 < w -> i_ok w (cast_signed w z).
Proof.
  intros Hw. unfold cast_signed, i_ok.
  assert (2 ^ w = 2 * 2 ^ (w - 1)) as Hp.
  { rewrite <- Z.pow_succ_r by lia. f_equal; lia. }
  assert (0 < 2 ^ (w - 1)) by (apply Z.pow_pos_nonneg; lia).
  pose proof (Z.mod_pos_bound z (2 ^ w)).
  destruct (Z.ltb_spec (z mod 2 ^ w) (2 ^ (w - 1))); lia.
Qed.

Lemma cast_unsigned_signed w z : 0 < w -> u_ok w z -> cast_unsigned w (cast_signed w z) = z.
Proof.
  intros Hw [H1 H2]. unfold cast_signed, cast_unsigned.
  rewrite (Z.mod_small z) by lia.
  destruct (Z.ltb_spec z (2 ^ (w - 1))).
  - by rewrite Z.mod_small by lia.
  - replace (z - 2 ^ w) with (z + (-1) * 2 ^ w) by lia.
    rewrite Z.mod_add by lia. by rewrite Z.mod_small by lia.
Qed.

Lemma cast_unsigned_ok w z : 0 <= w -> u_ok w (cast_unsigned w z).
Proof. intros. apply Z.mod_pos_bound. by apply Z.pow_pos_nonneg. Qed.

(** * Bytes *)

Definition byte_ok (b : Z) : Prop := 0 <= b < 256.
Definition bytes_ok (bs : list Z) : Prop := Forall byte_ok bs.

#[global] Instance byte_ok_dec b : Decision (byte_ok b).
Proof. unfold byte_ok. apply _. Defined.
#[global] Instance bytes_ok_dec bs : Decision (bytes_ok bs).
Proof. unfold bytes_ok. apply _. Defined.

Definition blen (bs : list Z) : Z := Z.of_nat (length bs).

(** [to_le_bytes] of an [n]-byte integer; a negative [z] gives its two's
    complement. *)
Fixpoint le_bytes (n : nat) (z : Z) : list Z :=
  match n with
  | O => []
  | S n => z mod 256 :: le_bytes n (z / 256)
  end.

(** [from_le_bytes], unsigned reading. *)
Fixpoint le_val (bs : list Z) : Z :=
  match bs with
  | [] => 0
  | b :: bs => b + 256 * le_val bs
  end.

(** [to_be_bytes]. *)
Definition be_bytes (n : nat) (z : Z) : list Z := reverse (le_bytes n z).

Lemma length_le_bytes n z : length (le_bytes n z) = n.
Proof. revert z; induction n; intros; simpl; auto. Qed.

Lemma le_bytes_ok n z : bytes_ok (le_bytes n z).
Proof.
  revert z; induction n; intros z; simpl; [by constructor|].
  constructor; [apply Z.mod_pos_bound; lia | apply IHn].
Qed.

Lemma le_val_le_bytes n z : le_val (le_bytes n z) = z mod 256 ^ Z.of_nat n.
Proof.
  revert z; induction n as [|n IH]; intros z; simpl le_val.
  - by rewrite Z.mod_1_r.
  - rewrite IH, Nat2Z.inj_succ, Z.pow_succ_r by lia.
    rewrite Z.rem_mul_r by (try apply Z.pow_pos_nonneg; lia). lia.
Qed.

Lemma le_val_bound bs : bytes_ok bs -> 0 <= le_val bs < 256 ^ blen bs.
Proof.
  unfold blen. induction 1 as [|b bs Hb _ IH]; simpl le_val; [simpl; lia|].
  rewrite length_cons, Nat2Z.inj_succ, Z.pow_succ_r by lia.
  unfold byte_ok in Hb. nia.
Qed.

Lemma le_bytes_le_val bs : bytes_ok bs -> le_bytes (length bs) (le_val bs) = bs.
Proof.
  induction 1 as [|b bs Hb _ IH]; simpl; [done|].
  unfold byte_ok in Hb.
  replace (b + 256 * le_val bs) with (b + le_val bs * 256) by lia.
  rewrite Z.mod_add, Z.div_add by lia.
  rewrite Z.mod_small, Z.div_small by lia. by rewrite Z.add_0_l, IH.
Qed.

Lemma le_val_inj a b : bytes_ok a -> bytes_ok b -> length a = length b -> le_val a = le_val b -> a = b.
Proof.
  intros Ha Hb Hl E. rewrite <- (le_bytes_le_val a), <- (le_bytes_le_val b) by done. congruence.
Qed.

Lemma le_bytes_mod n z : le_bytes n (z mod 256 ^ Z.of_nat n) = le_bytes n z.
Proof.
  rewrite <- le_val_le_bytes.
  rewrite <- (length_le_bytes n z) at 1. apply le_bytes_le_val, le_bytes_ok.
Qed.

Lemma le_bytes_1 b : byte_ok b -> le_bytes 1 b = [b].
Proof. intros. simpl. by rewrite Z.mod_small. Qed.

Lemma pow256 n : 256 ^ n = 2 ^ (8 * n).
Proof.
  destruct (Z.le_gt_cases 0 n); [by rewrite Z.pow_mul_r by lia|].
  by rewrite !Z.pow_neg_r by lia.
Qed.

Lemma le_val_unsigned n z : u_ok (8 * Z.of_nat n) z -> le_val (le_bytes n z) = z.
Proof. intros H. rewrite le_val_le_bytes, pow256. by apply Z.mod_small. Qed.

Lemma le_val_signed n z :
  (0 < n)%nat -> i_ok (8 * Z.of_nat n) z -> cast_signed (8 * Z.of_nat n) (le_val (le_bytes n z)) = z.
Proof.
  intros Hn H. rewrite le_val_le_bytes, pow256. apply cast_signed_unsigned; [lia|done].
Qed.

Lemma bytes_ok_app a b : bytes_ok (a ++ b) <-> bytes_ok a /\ bytes_ok b.
Proof. apply Forall_app. Qed.
Lemma bytes_ok_cons a b : bytes_ok (a :: b) <-> byte_ok a /\ bytes_ok b.
Proof. apply Forall_cons. Qed.
Lemma bytes_ok_nil : bytes_ok [].
Proof. constructor. Qed.
Lemma bytes_ok_reverse a : bytes_ok (reverse a) <-> bytes_ok a.
Proof. apply Forall_reverse. Qed.
Lemma be_bytes_ok n z : bytes_ok (be_bytes n z).
Proof. apply bytes_ok_reverse, le_bytes_ok. Qed.
Lemma length_be_bytes n z : length (be_bytes n z) = n.
Proof. unfold be_bytes. by rewrite length_reverse, length_le_bytes. Qed.

(** * Total orders: [Ord] of the source *)

Class OrdKey (K : Type) := {
  kcmp : K -> K -> comparison;
  kcmp_eq : forall a b, kcmp a b = Eq <-> a = b;
  kcmp_opp : forall a b, kcmp b a = CompOpp (kcmp a b);
  kcmp_trans : forall a b c, kcmp a b = Lt -> kcmp b c = Lt -> kcmp a c = Lt;
}.

(** Lexicographic composition of two comparisons ([Ordering::then]). *)
Definition cmp_then (c d : comparison) : comparison :=
  match c with Eq => d | _ => c end.

Section ordkey.
Context {K : Type} `{OrdKey K}.

Definition key_le (a b : K) : Prop := kcmp a b <> Gt.
Definition key_lt (a b : K) : Prop := kcmp a b = Lt.

#[global] Instance key_le_dec a b : Decision (key_le a b).
Proof. unfold key_le. destruct (kcmp a b); [left|left|right]; congruence. Defined.
#[global] Instance key_lt_dec a b : Decision (key_lt a b).
Proof. unfold key_lt. destruct (kcmp a b); [right|left|right]; congruence. Defined.

Lemma kcmp_refl a : kcmp a a = Eq.
Proof. by apply kcmp_eq. Qed.
Lemma kcmp_Gt a b : kcmp a b = Gt <-> kcmp b a = Lt.
Proof. rewrite (kcmp_opp a b). by destruct (kcmp a b). Qed.
Lemma key_lt_irrefl a : ~ key_lt a a.
Proof. unfold key_lt. rewrite kcmp_refl. congruence. Qed.
Lemma key_lt_ne a b : key_lt a b -> a <> b.
Proof. intros Hl ->. by apply (key_lt_irrefl b). Qed.
Lemma key_le_lt_eq a b : key_le a b <-> key_lt a b \/ a = b.
Proof.
  unfold key_le, key_lt. rewrite <- kcmp_eq. destruct (kcmp a b); naive_solver.
Qed.
Lemma key_not_le a b : ~ key_le a b <-> key_lt b a.
Proof.
  unfold key_le, key_lt. rewrite (kcmp_opp a b). destruct (kcmp a b); simpl; naive_solver.
Qed.
Lemma key_not_lt a b : ~ key_lt a b <-> key_le b a.
Proof.
  unfold key_le, key_lt. rewrite (kcmp_opp a b). destruct (kcmp a b); simpl; naive_solver.
Qed.

#[global] Instance key_lt_trans : Transitive key_lt.
Proof. intros a b c. apply kcmp_trans. Qed.
#[global] Instance key_le_trans : Transitive key_le.
Proof.
  intros a b c. rewrite !key_le_lt_eq. intros [H1| ->] [H2| ->]; auto.
  left. by etrans.
Qed.
#[global] Instance key_le_refl : Reflexive key_le.
Proof. intros a. apply key_le_lt_eq. by right. Qed.
#[global] Instance key_le_total : Total key_le.
Proof.
  intros a b. destruct (decide (key_le a b)) as [|Hn]; [by left|right].
  apply key_not_le in Hn. apply key_le_lt_eq. by left.
Qed.
#[global] Instance key_le_antisymm : AntiSymm (=) key_le.
Proof.
  intros a b [H1| ->]%key_le_lt_eq [H2|H2]%key_le_lt_eq; auto.
  exfalso. apply (key_lt_irrefl a). by etrans.
Qed.
Lemma key_le_lt_trans a b c : key_le a b -> key_lt b c -> key_lt a c.
Proof. intros [Hl| ->]%key_le_lt_eq Hlt; [by etrans|done]. Qed.
Lemma key_lt_le_trans a b c : key_lt a b -> key_le b c -> key_lt a c.
Proof. intros Hlt [Hl| ->]%key_le_lt_eq; [by etrans|done]. Qed.
Lemma key_lt_le a b : key_lt a b -> key_le a b.
Proof. intros. apply key_le_lt_eq. by left. Qed.
End ordkey.

#[global] Program Instance Z_ord : OrdKey Z := {| kcmp := Z.compare |}.
Next Obligation. apply Z.compare_eq_iff. Qed.
Next Obligation. intros. apply Z.compare_antisym. Qed.
Next Obligation. intros a b c. rewrite !Z.compare_lt_iff. lia. Qed.

(** ** Byte strings: [Ord for [u8]] *)

Fixpoint lex_compare (a b : list Z) : comparison :=
  match a, b with
  | [], [] => Eq
  | [], _ :: _ => Lt
  | _ :: _, [] => Gt
  | x :: a, y :: b => cmp_then (Z.compare x y) (lex_compare a b)
  end.

#[global] Program Instance bytes_ord : OrdKey (list Z) := {| kcmp := lex_compare |}.
Next Obligation.
  induction a as [|x a IH]; intros [|y b]; simpl; try (split; congruence).
  destruct (Z.compare_spec x y); simpl; try (split; [congruence|intros [= ]; lia]).
  rewrite IH. naive_solver.
Qed.
Next Obligation.
  induction a as [|x a IH]; intros [|y b]; simpl; try done.
  rewrite (Z.compare_antisym x y), IH. by destruct (x ?= y).
Qed.
Next Obligation.
  induction a as [|x a IH]; intros [|y b] [|z c]; simpl; try done.
  destruct (Z.compare_spec x y); simpl; try done;
    destruct (Z.compare_spec y z); simpl; try done; subst; intros.
  - rewrite Z.compare_refl. simpl. eauto.
  - by rewrite (proj2 (Z.compare_lt_iff y z)).
  - by rewrite (proj2 (Z.compare_lt_iff x z)).
  - rewrite (proj2 (Z.compare_lt_iff x z)) by lia. done.
Qed.

Lemma lex_compare_app_same p a b : lex_compare (p ++ a) (p ++ b) = lex_compare a b.
Proof. induction p; simpl; [done|]. by rewrite Z.compare_refl. Qed.

Lemma lex_compare_prefix p a : p `prefix_of` a -> key_le p a.
Proof.
  intros [k ->]. unfold key_le. simpl.
  rewrite <- (app_nil_r p) at 1. rewrite lex_compare_app_same. by destruct k.
Qed.

Lemma be_bytes_S n z : be_bytes (S n) z = be_bytes n (z / 256) ++ [z mod 256].
Proof. unfold be_bytes. simpl. by rewrite reverse_cons. Qed.

(** Big-endian byte strings order like the integers they encode, whatever
    follows them. *)
Lemma lex_compare_be_bytes n a b s t :
  u_ok (8 * Z.of_nat n) a -> u_ok (8 * Z.of_nat n) b ->
  lex_compare (be_bytes n a ++ s) (be_bytes n b ++ t) = cmp_then (a ?= b) (lex_compare s t).
Proof.
  unfold u_ok. rewrite <- !pow256. revert a b s t.
  induction n as [|n IH]; intros a b s t Ha Hb.
  - simpl in *. replace a with b by lia. by rewrite Z.compare_refl.
  - rewrite Nat2Z.inj_succ, Z.pow_succ_r in Ha, Hb by lia.
    rewrite !be_bytes_S, <- !app_assoc. simpl app.
    rewrite IH by (split; [apply Z.div_pos; lia | apply Z.div_lt_upper_bound; lia]).
    simpl. pose proof (Z.div_mod a 256). pose proof (Z.div_mod b 256).
    pose proof (Z.mod_pos_bound a 256). pose proof (Z.mod_pos_bound b 256).
    destruct (Z.compare_spec (a / 256) (b / 256)); simpl.
    + destruct (Z.compare_spec (a mod 256) (b mod 256)); simpl;
        destruct (Z.compare_spec a b); simpl; try lia; done.
    + destruct (Z.compare_spec a b); simpl; try nia; done.
    + destruct (Z.compare_spec a b); simpl; try nia; done.
Qed.

(** ** Products: the derived [Ord] of a pair or tuple struct *)

#[global] Program Instance prod_ord K L `{OrdKey K, OrdKey L} : OrdKey (K * L) :=
  {| kcmp p q := cmp_then (kcmp p.1 q.1) (kcmp p.2 q.2) |}.
Next Obligation.
  intros K L ?? [a1 a2] [b1 b2]; simpl.
  pose proof (kcmp_eq a1 b1). pose proof (kcmp_eq a2 b2).
  destruct (kcmp a1 b1); simpl; naive_solver.
Qed.
Next Obligation.
  intros K L ?? [a1 a2] [b1 b2]; simpl.
  rewrite (kcmp_opp a1 b1), (kcmp_opp a2 b2). by destruct (kcmp a1 b1).
Qed.
Next Obligation.
  intros K L ?? [a1 a2] [b1 b2] [c1 c2]; simpl.
  destruct (kcmp a1 b1) eqn:E1; simpl; try done.
  - apply kcmp_eq in E1 as ->. destruct (kcmp b1 c1); simpl; try done. apply kcmp_trans.
  - intros _. destruct (kcmp b1 c1) eqn:E2; simpl; try done.
    + apply kcmp_eq in E2 as ->. by rewrite E1.
    + intros _. by rewrite (kcmp_trans _ _ _ E1 E2).
Qed.

(** * Ordered maps

    A [BTreeMap<K, V>] is a [gmap K V]; where the source iterates over it, the
    model uses [btree_entries], the entries in ascending key order. *)

Section btree.
Context {K : Type} `{Countable K, OrdKey K} {V : Type}.

Definition entry_le (p q : K * V) : Prop := key_le p.1 q.1.
Definition entry_lt (p q : K * V) : Prop := key_lt p.1 q.1.
#[global] Instance entry_le_dec p q : Decision (entry_le p q).
Proof. unfold entry_le. apply _. Defined.
#[global] Instance entry_le_trans : Transitive entry_le.
Proof. intros p q r. unfold entry_le. apply key_le_trans. Qed.
#[global] Instance entry_le_total : Total entry_le.
Proof. intros p q. apply (total key_le). Qed.
#[global] Instance entry_lt_trans : Transitive entry_lt.
Proof. intros p q r. unfold entry_lt. apply key_lt_trans. Qed.

Definition btree_entries (m : gmap K V) : list (K * V) := merge_sort entry_le (map_to_list m).
Definition btree_keys (m : gmap K V) : list K := (btree_entries m).*1.
Definition btree_values (m : gmap K V) : list V := (btree_entries m).*2.

Lemma btree_entries_perm m : btree_entries m ≡ₚ map_to_list m.
Proof. apply merge_sort_Permutation. Qed.

Lemma elem_of_btree_entries m k v : (k, v) ∈ btree_entries m <-> m !! k = Some v.
Proof. rewrite btree_entries_perm. apply elem_of_map_to_list. Qed.

Lemma elem_of_btree_keys m k : k ∈ btree_keys m <-> is_Some (m !! k).
Proof.
  unfold btree_keys. rewrite list_elem_of_fmap. split.
  - intros ([k' v] & -> & Hin%elem_of_btree_entries). eauto.
  - intros [v Hv]. exists (k, v). by rewrite elem_of_btree_entries.
Qed.

Lemma btree_keys_NoDup m : NoDup (btree_keys m).
Proof. unfold btree_keys. rewrite btree_entries_perm. apply NoDup_fst_map_to_list. Qed.

Lemma strictly_sorted l :
  NoDup l.*1 -> StronglySorted entry_le l -> StronglySorted entry_lt l.
Proof.
  induction l as [|[k v] l IH]; simpl; intros Hnd Hs; [constructor|].
  apply NoDup_cons in Hnd as [Hk Hnd]. apply StronglySorted_inv in Hs as [Hs Hf].
  constructor; [by apply IH|].
  apply Forall_forall. intros [k' v'] Hin.
  rewrite Forall_forall in Hf. specialize (Hf _ Hin).
  unfold entry_le, entry_lt in *; simpl in *.
  apply key_le_lt_eq in Hf as [?| ->]; [done|].
  exfalso. apply Hk. apply list_elem_of_fmap. by exists (k', v').
Qed.

Lemma btree_entries_sorted m : StronglySorted entry_lt (btree_entries m).
Proof.
  apply strictly_sorted; [apply btree_keys_NoDup|].
  apply StronglySorted_merge_sort; apply _.
Qed.

Lemma strictly_sorted_unique l1 l2 :
  StronglySorted entry_lt l1 -> StronglySorted entry_lt l2 ->
  (forall p, p ∈ l1 <-> p ∈ l2) -> l1 = l2.
Proof.
  revert l2. induction l1 as [|p l1 IH]; intros [|q l2] Hs1 Hs2 Hiff.
  - done.
  - exfalso. apply (not_elem_of_nil q), Hiff. left.
  - exfalso. apply (not_elem_of_nil p), Hiff. left.
  - apply StronglySorted_inv in Hs1 as [Hs1 Hf1]. apply StronglySorted_inv in Hs2 as [Hs2 Hf2].
    rewrite Forall_forall in Hf1, Hf2.
    assert (forall r : K * V, ~ entry_lt r r) as Hirr by (intros r; apply key_lt_irrefl).
    assert (p = q) as <-.
    { assert (p ∈ q :: l2) as [|Hp]%elem_of_cons by (apply Hiff; left); [done|].
      assert (q ∈ p :: l1) as [|Hq]%elem_of_cons by (apply Hiff; left); [done|].
      exfalso. apply (Hirr p). etrans; [by apply Hf1|by apply Hf2]. }
    f_equal. apply IH; [done..|]. intros r. split; intros Hr.
    + assert (r ∈ p :: l2) as [->|]%elem_of_cons by (apply Hiff; by right); [|done].
      exfalso. by apply (Hirr p), Hf1.
    + assert (r ∈ p :: l1) as [->|]%elem_of_cons by (apply Hiff; by right); [|done].
      exfalso. by apply (Hirr p), Hf2.
Qed.

Lemma btree_entries_unique m l :
  StronglySorted entry_lt l -> (forall k v, (k, v) ∈ l <-> m !! k = Some v) -> l = btree_entries m.
Proof.
  intros Hs Hl. apply strictly_sorted_unique; [done|apply btree_entries_sorted|].
  intros [k v]. by rewrite Hl, elem_of_btree_entries.
Qed.

Lemma sorted_fst (l : list (K * V)) : StronglySorted entry_lt l <-> StronglySorted key_lt l.*1.
Proof.
  induction l as [|[k v] l IH]; simpl; [split; constructor|]. split; intros Hs;
    apply StronglySorted_inv in Hs as [Hs Hf]; constructor; try by apply IH.
  - apply (proj2 (Forall_fmap _ _ _)). exact Hf.
  - exact (proj1 (Forall_fmap _ _ _) Hf).
Qed.

Lemma btree_keys_sorted m : StronglySorted key_lt (btree_keys m).
Proof. apply sorted_fst, btree_entries_sorted. Qed.

Lemma btree_entries_replace m a k v v' b : btree_entries m = a ++ (k, v) :: b ->
  btree_entries (<[k := v']> m) = a ++ (k, v') :: b.
Proof.
  intros E. symmetry. apply btree_entries_unique.
  - pose proof (btree_entries_sorted m) as Hs. rewrite E in Hs. rewrite sorted_fst in *.
    by rewrite fmap_app in *.
  - pose proof (btree_keys_NoDup m) as Hnd. unfold btree_keys in Hnd.
    rewrite E, fmap_app, fmap_cons in Hnd. apply NoDup_app in Hnd as (_ & Ha & Hb).
    apply NoDup_cons in Hb as [Hb _].
    assert (k ∉ a.*1) as Hka by (intros Hin; by apply (Ha _ Hin); left).
    intros k0 v0. rewrite elem_of_app, elem_of_cons. destruct (decide (k0 = k)) as [->|Hne].
    + rewrite lookup_insert_eq. split; [|intros [= ->]; by right; left].
      intros [Hin|[[= ->]|Hin]]; [|done|]; exfalso; [apply Hka|apply Hb];
        by apply (list_elem_of_fmap_2 fst) in Hin.
    + rewrite lookup_insert_ne, <- elem_of_btree_entries, E, elem_of_app, elem_of_cons by done.
      naive_solver.
Qed.

Lemma btree_entries_snoc m k v : Forall (fun k' => key_lt k' k) (btree_keys m) ->
  btree_entries (<[k := v]> m) = btree_entries m ++ [(k, v)].
Proof.
  intros Hlt. symmetry. apply btree_entries_unique.
  - apply sorted_fst. rewrite fmap_app. simpl. fold (btree_keys m).
    pose proof (btree_keys_sorted m) as Hs. revert Hlt Hs. generalize (btree_keys m) as l.
    induction l as [|x l IH]; intros Hf Hs; simpl; [by repeat constructor|].
    apply Forall_cons in Hf as [? Hf]. apply StronglySorted_inv in Hs as [Hs Hx].
    constructor; [by apply IH|]. apply Forall_app. by split; [|constructor].
  - intros k0 v0. rewrite elem_of_app, list_elem_of_singleton, elem_of_btree_entries.
    destruct (decide (k0 = k)) as [->|Hne].
    + rewrite lookup_insert_eq. split; [|intros [= ->]; by right].
      intros [Hin|[= ->]]; [|done]. exfalso.
      rewrite Forall_forall in Hlt. apply (key_lt_irrefl k), Hlt, elem_of_btree_keys. eauto.
    + rewrite lookup_insert_ne by done. naive_solver.
Qed.

Lemma btree_entries_lookup m a k v b : btree_entries m = a ++ (k, v) :: b -> m !! k = Some v.
Proof.
  intros E. apply elem_of_btree_entries. rewrite E. set_solver.
Qed.

Lemma btree_entries_empty : btree_entries (∅ : gmap K V) = [].
Proof. symmetry. apply btree_entries_unique; [constructor|]. intros; rewrite lookup_empty. set_solver. Qed.
End btree.

(** * Lists *)

Lemma Forall2_elem_of_l {A B} (P : A -> B -> Prop) l k x : Forall2 P l k -> x ∈ l -> exists y, y ∈ k /\ P x y.
Proof.
  intros HF Hx. apply list_elem_of_lookup in Hx as [i Hi]. destruct (Forall2_lookup_l P l k i x HF Hi) as (y & Hy & HP).
  exists y. split; [|done]. by eapply list_elem_of_lookup_2.
Qed.

Lemma NoDup_fst_filter {A B} (P : A * B -> Prop) `{forall x, Decision (P x)} l : NoDup l.*1 -> NoDup (filter P l).*1.
Proof.
  induction l as [|p l IH]; [done|]. rewrite fmap_cons. intros [Hn Hnd]%NoDup_cons. destruct (decide (P p)).
  - rewrite filter_cons_True by done. rewrite fmap_cons. apply NoDup_cons. split; [|by apply IH].
    intros (q & E & [_ Hq]%list_elem_of_filter)%list_elem_of_fmap. apply Hn. apply list_elem_of_fmap. by exists q.
  - rewrite filter_cons_False by done. by apply IH.
Qed.

Lemma omap_fmap {A B C} (f : B -> option C) (g : A -> B) (l : list A) : omap f (g <$> l) = omap (fun x => f (g x)) l.
Proof. induction l as [|x l IH]; [done|]. simpl. destruct (f (g x)); [f_equal|]; exact IH. Qed.

Lemma lookup_map {A B} (f : A -> B) l (i : nat) : map f l !! i = f <$> l !! i.
Proof. apply (list_lookup_fmap f). Qed.

(** A position of a concatenation is in one of its parts. *)
Lemma split_change {A} (p q a b : list A) x : p ++ x :: q = a ++ b ->
  (exists k, a = p ++ x :: k /\ q = k ++ b) \/ (exists k, p = a ++ k /\ b = k ++ x :: q).
Proof.
  intros E. apply app_eq_inv in E as [(k & -> & Eb)|(k & -> & Eb)]; [right; eauto|].
  destruct k as [|x' k]; [|left; injection Eb as <- ->; eauto].
  right. exists []. rewrite !app_nil_r. by split.
Qed.

(** ** Byte slices: [buf[a..b]] *)

Definition slice (bs : list Z) (a b : Z) : list Z :=
  firstn (Z.to_nat (b - a)) (skipn (Z.to_nat a) bs).

Lemma blen_nonneg bs : 0 <= blen bs.
Proof. unfold blen. lia. Qed.
Lemma blen_app a b : blen (a ++ b) = blen a + blen b.
Proof. unfold blen. rewrite length_app. lia. Qed.
Lemma blen_nil : blen [] = 0.
Proof. done. Qed.
Lemma blen_cons x a : blen (x :: a) = 1 + blen a.
Proof. unfold blen. rewrite length_cons. lia. Qed.
Lemma blen_le_bytes n z : blen (le_bytes n z) = Z.of_nat n.
Proof. unfold blen. by rewrite length_le_bytes. Qed.
Lemma blen_zero bs : blen bs = 0 -> bs = [].
Proof. destruct bs; [done|]. rewrite blen_cons. pose proof (blen_nonneg bs). lia. Qed.

Lemma slice_app_l x y b : b = blen x -> slice (x ++ y) 0 b = x.
Proof.
  intros ->. unfold slice, blen. rewrite Z.sub_0_r, Nat2Z.id.
  change (Z.to_nat 0) with 0%nat. rewrite drop_0. apply take_app_length.
Qed.

Lemma slice_app_r x y a b : blen x <= a -> slice (x ++ y) a b = slice y (a - blen x) (b - blen x).
Proof.
  intros Ha. unfold slice, blen in *.
  rewrite skipn_app, skipn_all2 by lia. simpl.
  f_equal; [|f_equal]; lia.
Qed.

Lemma slice_mid x y z a b : a = blen x -> b = blen x + blen y -> slice (x ++ y ++ z) a b = y.
Proof. intros -> ->. rewrite slice_app_r, Z.sub_diag by lia. apply slice_app_l. lia. Qed.

Lemma slice_app_le x y b : b <= blen x -> slice (x ++ y) 0 b = slice x 0 b.
Proof.
  intros Hb. unfold slice, blen in *. change (Z.to_nat 0) with 0%nat. rewrite !drop_0.
  apply take_app_le. lia.
Qed.

Lemma slice_all x b : b = blen x -> slice x 0 b = x.
Proof.
  intros ->. unfold slice, blen. rewrite Z.sub_0_r, Nat2Z.id.
  change (Z.to_nat 0) with 0%nat. rewrite drop_0. by apply take_ge.
Qed.

Lemma blen_slice bs a b : 0 <= a -> b <= blen bs -> blen (slice bs a b) = Z.max 0 (b - a).
Proof. intros. unfold slice, blen in *. rewrite length_firstn, length_skipn. lia. Qed.

(** * Automation *)

Create HintDb fluxum.
#[export] Hint Resolve le_bytes_ok be_bytes_ok bytes_ok_nil : fluxum.
#[export] Hint Rewrite length_le_bytes length_be_bytes blen_app blen_nil blen_cons blen_le_bytes : fluxum_len.

(** Lengths of concatenations, then arithmetic. *)
Ltac len_solve := autorewrite with fluxum_len in *; lia.

(** Split a successful run of the error monad or of a state-and-error monad
    into the successful runs of its parts. *)
Ltac inv_ok :=
  repeat match goal with
  | H : Ok _ = Ok _ |- _ => injection H as H; subst
  | H : Err _ = Ok _ |- _ => discriminate H
  | H : Ok _ = Err _ |- _ => discriminate H
  | H : Err _ = Err _ |- _ => injection H as H; subst
  | H : (?r ≫= ?f) = Ok _ |- _ =>
      let a := fresh "a" in let Ha := fresh "Ha" in
      apply result_bind_Ok in H as (a & Ha & H)
  end.
