(* ===== verification/FluxBin.v ===== *)
(** FluxBIN primitives: the append-only writer and the bounds-checked reader of
    [crates/fluxum-protocol/src/fluxbin.rs].

    The writer is a byte buffer, the reader a byte slice with an offset. Every
    method is a state transformer that keeps its state on an error. The file
    proves, for each pair of methods, that what is written is read back, that
    what is read is the canonical encoding, and that no method moves the
    offset past the end of the input. *)

From stdpp Require Import base list numbers.
From Stdlib Require Import ZArith Lia.
From S2P Require Import Prelude.

(** * UTF-8: [std::str::from_utf8] *)

Definition utf8_cont (b : Z) : bool := (128 <=? b) && (b <=? 191).
(** Second byte of a three-byte sequence: no overlong form, no surrogate. *)
Definition utf8_second3 (b0 b1 : Z) : bool :=
  ((b0 =? 224) && (160 <=? b1) && (b1 <=? 191))
  || ((225 <=? b0) && (b0 <=? 236) && utf8_cont b1)
  || ((b0 =? 237) && (128 <=? b1) && (b1 <=? 159))
  || ((238 <=? b0) && (b0 <=? 239) && utf8_cont b1).
(** Second byte of a four-byte sequence: no overlong form, at most U+10FFFF. *)
Definition utf8_second4 (b0 b1 : Z) : bool :=
  ((b0 =? 240) && (144 <=? b1) && (b1 <=? 191))
  || ((241 <=? b0) && (b0 <=? 243) && utf8_cont b1)
  || ((b0 =? 244) && (128 <=? b1) && (b1 <=? 143)).

Fixpoint utf8_valid (bs : list Z) : bool :=
  match bs with
  | [] => true
  | b0 :: r0 =>
      if b0 <? 128 then utf8_valid r0
      else match r0 with
      | [] => false
      | b1 :: r1 =>
          if (194 <=? b0) && (b0 <=? 223) then utf8_cont b1 && utf8_valid r1
          else match r1 with
          | [] => false
          | b2 :: r2 =>
              if utf8_second3 b0 b1 then utf8_cont b2 && utf8_valid r2
              else match r2 with
              | [] => false
              | b3 :: r3 =>
                  utf8_second4 b0 b1 && utf8_cont b2 && utf8_cont b3 && utf8_valid r3
              end
          end
      end
  end.

(** * Errors *)

Inductive FluxBinError : Type :=
  | UnexpectedEof (needed remaining : Z)
  | InvalidBool (b : Z)
  | InvalidOptionTag (b : Z)
  | InvalidUtf8
  | LengthOverflow (n : Z)
  | TrailingBytes (n : Z).

#[global] Instance FluxBinError_eq_dec : EqDecision FluxBinError.
Proof. solve_decision. Defined.

(** [codes::PROTO_MALFORMED]. *)
Definition PROTO_MALFORMED : Z := 400.
Definition fluxbin_code (e : FluxBinError) : Z := PROTO_MALFORMED.

(** * The writer *)

Record FluxBinWriter : Type := { buf : list Z }.

Definition writer_new : FluxBinWriter := {| buf := [] |}.
Definition into_bytes (w : FluxBinWriter) : list Z := buf w.

(** [Vec::extend_from_slice] on the writer's buffer. *)
Definition extend {E} (bs : list Z) : SM FluxBinWriter E unit :=
  fun w => (Ok tt, {| buf := buf w ++ bs |}).

Section writer.
Context {E : Type}.
Implicit Types v : Z.

Definition write_bool (v : bool) : SM FluxBinWriter E unit := extend [if v then 1 else 0].
Definition write_u8 v : SM FluxBinWriter E unit := extend [v].
Definition write_i8 v : SM FluxBinWriter E unit := extend (le_bytes 1 v).
Definition write_u16 v : SM FluxBinWriter E unit := extend (le_bytes 2 v).
Definition write_i16 v : SM FluxBinWriter E unit := extend (le_bytes 2 v).
Definition write_u32 v : SM FluxBinWriter E unit := extend (le_bytes 4 v).
Definition write_i32 v : SM FluxBinWriter E unit := extend (le_bytes 4 v).
Definition write_u64 v : SM FluxBinWriter E unit := extend (le_bytes 8 v).
Definition write_i64 v : SM FluxBinWriter E unit := extend (le_bytes 8 v).
(** Floats are their IEEE 754 bit patterns. *)
Definition write_f32 (bits : Z) : SM FluxBinWriter E unit := extend (le_bytes 4 bits).
Definition write_f64 (bits : Z) : SM FluxBinWriter E unit := extend (le_bytes 8 bits).
Definition write_seq_len (count : Z) : SM FluxBinWriter E unit := write_u32 count.
Definition write_option_tag (is_some : bool) : SM FluxBinWriter E unit :=
  extend [if is_some then 1 else 0].
Definition write_identity (v : list Z) : SM FluxBinWriter E unit := extend v.
Definition write_connection_id v : SM FluxBinWriter E unit := extend (le_bytes 16 v).
Definition write_entity_id v : SM FluxBinWriter E unit := write_u64 v.
Definition write_timestamp v : SM FluxBinWriter E unit := write_i64 v.
Definition write_decimal (unscaled scale : Z) : SM FluxBinWriter E unit :=
  extend (le_bytes 16 unscaled) ≫= fun _ => extend [scale].
Definition write_enum_tag (tag : Z) : SM FluxBinWriter E unit := extend [tag].
Definition write_raw (bs : list Z) : SM FluxBinWriter E unit := extend bs.
End writer.

(** [u32::try_from(len)]. *)
Definition u32_try_from (n : Z) : option Z := if (0 <=? n) && (n <? 2 ^ 32) then Some n else None.

Definition write_len_prefixed (bs : list Z) : SM FluxBinWriter FluxBinError unit :=
  sm_lift (from_option (LengthOverflow (blen bs)) (u32_try_from (blen bs))) ≫= fun len =>
  write_u32 len ≫= fun _ =>
  extend bs.

Definition write_str (v : list Z) : SM FluxBinWriter FluxBinError unit := write_len_prefixed v.
Definition write_bytes (v : list Z) : SM FluxBinWriter FluxBinError unit := write_len_prefixed v.

(** * The reader *)

Record FluxBinReader : Type := { input : list Z; pos : nat }.

Definition reader_new (bs : list Z) : FluxBinReader := {| input := bs; pos := 0 |}.
Definition remaining (r : FluxBinReader) : Z := Z.of_nat (length (input r) - pos r).
Definition is_empty (r : FluxBinReader) : bool := remaining r =? 0.
Definition expect_eof (r : FluxBinReader) : result FluxBinError unit :=
  if is_empty r then Ok tt else Err (TrailingBytes (remaining r)).

Notation Rd := (SM FluxBinReader FluxBinError).

Definition take (n : Z) : Rd (list Z) := fun r =>
  if remaining r <? n then (Err (UnexpectedEof n (remaining r)), r)
  else (Ok (firstn (Z.to_nat n) (skipn (pos r) (input r))),
        {| input := input r; pos := pos r + Z.to_nat n |}).

(** [take_array::<N>] followed by [from_le_bytes]. *)
Definition read_unsigned (n : nat) : Rd Z :=
  take (Z.of_nat n) ≫= fun bs => mret (le_val bs).
Definition read_signed (n : nat) : Rd Z :=
  take (Z.of_nat n) ≫= fun bs => mret (cast_signed (8 * Z.of_nat n) (le_val bs)).

Definition read_u8 : Rd Z := read_unsigned 1.
Definition read_i8 : Rd Z := read_signed 1.
Definition read_u16 : Rd Z := read_unsigned 2.
Definition read_i16 : Rd Z := read_signed 2.
Definition read_u32 : Rd Z := read_unsigned 4.
Definition read_i32 : Rd Z := read_signed 4.
Definition read_u64 : Rd Z := read_unsigned 8.
Definition read_i64 : Rd Z := read_signed 8.
Definition read_f32 : Rd Z := read_unsigned 4.
Definition read_f64 : Rd Z := read_unsigned 8.

Definition read_flag (bad : Z -> FluxBinError) : Rd bool :=
  read_u8 ≫= fun b =>
  if b =? 0 then mret false else if b =? 1 then mret true else sm_fail (bad b).
Definition read_bool : Rd bool := read_flag InvalidBool.
Definition read_option_tag : Rd bool := read_flag InvalidOptionTag.

Definition read_bytes : Rd (list Z) := read_u32 ≫= fun len => take len.
Definition read_str : Rd (list Z) :=
  read_bytes ≫= fun bs => if utf8_valid bs then mret bs else sm_fail InvalidUtf8.
Definition read_seq_len : Rd Z := read_u32.
Definition read_identity : Rd (list Z) := take 32.
Definition read_connection_id : Rd Z := read_unsigned 16.
Definition read_entity_id : Rd Z := read_u64.
Definition read_timestamp : Rd Z := read_i64.
Definition read_decimal : Rd (Z * Z) :=
  read_signed 16 ≫= fun unscaled => read_u8 ≫= fun scale => mret (unscaled, scale).
Definition read_enum_tag : Rd Z := read_u8.

(** * Specifications of writers and readers *)

(** [m] succeeds and appends exactly [bs]. *)
Definition writes {E} (m : SM FluxBinWriter E unit) (bs : list Z) : Prop :=
  forall w, m w = (Ok tt, {| buf := buf w ++ bs |}).

(** [m] reads [a] off [bs], wherever [bs] lies in the input, and stops there. *)
Definition reads {E A} (m : SM FluxBinReader E A) (bs : list Z) (a : A) : Prop :=
  forall pre post,
    m {| input := pre ++ bs ++ post; pos := length pre |} =
    (Ok a, {| input := pre ++ bs ++ post; pos := length pre + length bs |}).

(** The offset never passes the end: [remaining] does not underflow. *)
Definition reader_ok (r : FluxBinReader) : Prop := (pos r <= length (input r))%nat.

(** Whatever [m] returns, it keeps the input, only moves forward, stays in
    bounds, and relates the value it returns to the bytes it consumed. *)
Definition consumes {E A} (m : SM FluxBinReader E A) (R : list Z -> A -> Prop) : Prop :=
  forall r res r', reader_ok r -> m r = (res, r') ->
    input r' = input r /\ reader_ok r' /\ (pos r <= pos r')%nat /\
    forall a, res = Ok a ->
      exists bs, drop (pos r) (input r) = bs ++ drop (pos r') (input r') /\
        pos r' = (pos r + length bs)%nat /\ R bs a.

Section spec_lemmas.
Context {E : Type}.

Lemma writes_extend bs : writes (@extend E bs) bs.
Proof. done. Qed.

Lemma writes_bind (m1 : SM FluxBinWriter E unit) (f : unit -> SM FluxBinWriter E unit) b1 b2 :
  writes m1 b1 -> writes (f tt) b2 -> writes (m1 ≫= f) (b1 ++ b2).
Proof.
  intros H1 H2 w. unfold mbind, sm_bind. rewrite H1, H2. simpl. by rewrite app_assoc.
Qed.

Lemma writes_unique (m : SM FluxBinWriter E unit) b1 b2 : writes m b1 -> writes m b2 -> b1 = b2.
Proof. intros H1 H2. specialize (H1 writer_new). rewrite H2 in H1. by simplify_eq/=. Qed.

Lemma reads_ret {A} (a : A) : reads (mret a : SM FluxBinReader E A) [] a.
Proof. intros pre post. unfold mret, sm_ret. by rewrite Nat.add_0_r. Qed.

Lemma reads_bind {A B} (m : SM FluxBinReader E A) (f : A -> SM FluxBinReader E B) b1 b2 a b :
  reads m b1 a -> reads (f a) b2 b -> reads (m ≫= f) (b1 ++ b2) b.
Proof.
  intros H1 H2 pre post. unfold mbind, sm_bind.
  rewrite <- app_assoc, (H1 pre (b2 ++ post)).
  specialize (H2 (pre ++ b1) post).
  rewrite <- app_assoc, length_app in H2. rewrite H2. by rewrite length_app, Nat.add_assoc.
Qed.

Lemma reads_bind_ret {A B} (m : SM FluxBinReader E A) (f : A -> SM FluxBinReader E B) bs a b :
  reads m bs a -> f a = mret b -> reads (m ≫= f) bs b.
Proof.
  intros H1 H2. rewrite <- (app_nil_r bs). eapply reads_bind; [done|].
  rewrite H2. apply reads_ret.
Qed.

Lemma consumes_ret {A} (a : A) (R : list Z -> A -> Prop) :
  R [] a -> consumes (mret a : SM FluxBinReader E A) R.
Proof.
  intros HR r res r' Hok [= <- <-]. split_and!; auto. intros a' [= <-].
  exists []. split_and!; [done|simpl; lia|done].
Qed.

Lemma consumes_fail {A} (e : E) (R : list Z -> A -> Prop) : consumes (sm_fail e) R.
Proof. intros r res r' Hok [= <- <-]. split_and!; auto. intros ? [=]. Qed.

Lemma consumes_bind {A B} (m : SM FluxBinReader E A) (f : A -> SM FluxBinReader E B)
    (R1 : list Z -> A -> Prop) (R : list Z -> B -> Prop) :
  consumes m R1 ->
  (forall a b1, R1 b1 a -> consumes (f a) (fun b2 b => R (b1 ++ b2) b)) ->
  consumes (m ≫= f) R.
Proof.
  intros H1 H2 r res r' Hok. unfold mbind, sm_bind.
  destruct (m r) as [[a|e] r1] eqn:Em; intros Ef;
    destruct (H1 _ _ _ Hok Em) as (Hi1 & Hok1 & Hp1 & Hr1).
  - destruct (Hr1 a eq_refl) as (b1 & Hb1 & Hpos1 & HR1).
    destruct (H2 a b1 HR1 r1 res r' Hok1 Ef) as (Hi2 & Hok2 & Hp2 & Hr2).
    split_and!; [congruence|done|lia|]. intros b Hb.
    destruct (Hr2 b Hb) as (b2 & Hb2 & Hpos2 & HR2).
    exists (b1 ++ b2). split_and!; [|rewrite length_app; lia|done].
    by rewrite Hb1, Hb2, app_assoc.
  - simplify_eq. split_and!; auto. intros ? [=].
Qed.

Lemma consumes_impl {A} (m : SM FluxBinReader E A) (R R' : list Z -> A -> Prop) :
  consumes m R -> (forall bs a, R bs a -> R' bs a) -> consumes m R'.
Proof.
  intros H1 HR r res r' Hok Em. destruct (H1 _ _ _ Hok Em) as (?&?&?&Hr).
  split_and!; auto. intros a Ha. destruct (Hr a Ha) as (bs&?&?&?). eauto 10.
Qed.

Lemma reads_map_err {E' A} (g : E -> E') (m : SM FluxBinReader E A) bs a :
  reads m bs a -> reads (sm_map_err g m) bs a.
Proof. intros H pre post. unfold sm_map_err. by rewrite H. Qed.

Lemma consumes_map_err {E' A} (g : E -> E') (m : SM FluxBinReader E A) (R : list Z -> A -> Prop) :
  consumes m R -> consumes (sm_map_err g m) R.
Proof.
  intros H r res r' Hok. unfold sm_map_err.
  destruct (m r) as [[a|e] r1] eqn:Em; intros [= <- <-];
    destruct (H _ _ _ Hok Em) as (?&?&?&Hr); split_and!; auto; intros ? [=]; subst; eauto.
Qed.
End spec_lemmas.

(** ** The primitive [take] *)

Lemma reads_take bs n : n = blen bs -> reads (take n) bs bs.
Proof.
  intros -> pre post. unfold take, remaining; simpl.
  rewrite !length_app. unfold blen.
  rewrite (proj2 (Z.ltb_ge _ _)) by lia.
  rewrite Nat2Z.id, drop_app_length, take_app_length. done.
Qed.

Lemma consumes_take n : consumes (take n) (fun bs a => a = bs /\ blen bs = Z.max 0 n).
Proof.
  intros r res r' Hok. unfold take, remaining, reader_ok in *.
  case (Z.ltb_spec (Z.of_nat (length (input r) - pos r)) n); intros Hlt [= <- <-].
  - split_and!; auto. intros ? [=].
  - simpl. split_and!; [done|lia|lia|]. intros a [= <-].
    eexists; split_and!; [|shelve|done|shelve].
    + rewrite <- drop_drop. symmetry. apply take_drop.
    Unshelve.
    * rewrite length_take, length_drop. lia.
    * unfold blen. rewrite length_take, length_drop. lia.
Qed.

(** ** Integers and flags *)

Lemma reads_unsigned n v : u_ok (8 * Z.of_nat n) v -> reads (read_unsigned n) (le_bytes n v) v.
Proof.
  intros H. unfold read_unsigned. eapply reads_bind_ret.
  - apply reads_take. unfold blen. by rewrite length_le_bytes.
  - by rewrite le_val_unsigned.
Qed.

Lemma reads_signed n v :
  (0 < n)%nat -> i_ok (8 * Z.of_nat n) v -> reads (read_signed n) (le_bytes n v) v.
Proof.
  intros Hn H. unfold read_signed. eapply reads_bind_ret.
  - apply reads_take. unfold blen. by rewrite length_le_bytes.
  - by rewrite le_val_signed.
Qed.

(** What a fixed-width read returns is in range, and re-encodes to the bytes
    consumed. *)
Definition int_canon (ok : Z -> Z -> Prop) (n : nat) (bs : list Z) (v : Z) : Prop :=
  bytes_ok bs -> le_bytes n v = bs /\ ok (8 * Z.of_nat n) v.

Lemma consumes_unsigned n : consumes (read_unsigned n) (int_canon u_ok n).
Proof.
  eapply consumes_bind; [apply consumes_take|]. intros a b1 [-> Hlen].
  apply consumes_ret. rewrite app_nil_r. intros Hb.
  unfold blen in Hlen. assert (length b1 = n) as <- by lia. split.
  - by apply le_bytes_le_val.
  - unfold u_ok. rewrite <- pow256. by apply le_val_bound.
Qed.

Lemma consumes_signed n : (0 < n)%nat -> consumes (read_signed n) (int_canon i_ok n).
Proof.
  intros Hn. eapply consumes_bind; [apply consumes_take|]. intros a b1 [-> Hlen].
  apply consumes_ret. rewrite app_nil_r. intros Hb.
  unfold blen in Hlen. assert (length b1 = n) as <- by lia. split.
  - rewrite <- le_bytes_mod, pow256. fold (cast_unsigned (8 * Z.of_nat (length b1))
      (cast_signed (8 * Z.of_nat (length b1)) (le_val b1))).
    rewrite cast_unsigned_signed; [by apply le_bytes_le_val|lia|].
    unfold u_ok. rewrite <- pow256. by apply le_val_bound.
  - apply cast_signed_ok. lia.
Qed.

Lemma reads_flag bad v : reads (read_flag bad) [if v : bool then 1 else 0] v.
Proof.
  unfold read_flag, read_u8. destruct v.
  - eapply reads_bind_ret; [by apply (reads_unsigned 1 1)|done].
  - eapply reads_bind_ret; [by apply (reads_unsigned 1 0)|done].
Qed.

Lemma consumes_flag bad :
  consumes (read_flag bad) (fun bs v => bytes_ok bs -> bs = [if v : bool then 1 else 0]).
Proof.
  eapply consumes_bind; [apply consumes_unsigned|]. intros b b1 Hb.
  destruct (Z.eqb_spec b 0) as [->|]; [|destruct (Z.eqb_spec b 1) as [->|]].
  1,2: apply consumes_ret; rewrite app_nil_r; intros Hok; by destruct (Hb Hok) as [<- _].
  apply consumes_fail.
Qed.

(** ** Length-prefixed data *)

Lemma write_len_prefixed_ok bs : blen bs < 2 ^ 32 ->
  writes (write_len_prefixed bs) (le_bytes 4 (blen bs) ++ bs).
Proof.
  intros Hl w. unfold write_len_prefixed, u32_try_from.
  rewrite (proj2 (Z.leb_le _ _)) by (unfold blen; lia). rewrite (proj2 (Z.ltb_lt _ _)) by done.
  exact (writes_bind (write_u32 (blen bs)) (fun _ => extend bs) _ _
    (writes_extend _) (writes_extend _) w).
Qed.

Lemma write_len_prefixed_overflow bs w : 2 ^ 32 <= blen bs ->
  write_len_prefixed bs w = (Err (LengthOverflow (blen bs)), w).
Proof.
  intros Hl. unfold write_len_prefixed, sm_lift, mbind, sm_bind, u32_try_from.
  by rewrite (proj2 (Z.ltb_ge (blen bs) _)), andb_false_r by done.
Qed.

Lemma reads_bytes bs : blen bs < 2 ^ 32 -> reads read_bytes (le_bytes 4 (blen bs) ++ bs) bs.
Proof.
  intros Hl. unfold read_bytes, read_u32. eapply reads_bind.
  - apply reads_unsigned. split; [unfold blen; lia|done].
  - by apply reads_take.
Qed.

Lemma reads_str bs : blen bs < 2 ^ 32 -> utf8_valid bs = true ->
  reads read_str (le_bytes 4 (blen bs) ++ bs) bs.
Proof.
  intros Hl Hu. unfold read_str. eapply reads_bind_ret; [by apply reads_bytes|]. by rewrite Hu.
Qed.

Definition bytes_canon (bs v : list Z) : Prop :=
  bytes_ok bs -> bs = le_bytes 4 (blen v) ++ v /\ blen v < 2 ^ 32 /\ bytes_ok v.

Lemma consumes_bytes : consumes read_bytes bytes_canon.
Proof.
  eapply consumes_bind; [apply consumes_unsigned|]. intros len b1 Hb1.
  eapply consumes_impl; [apply consumes_take|]. intros b2 v [-> Hlen] Hok.
  apply bytes_ok_app in Hok as [H1 H2]. destruct (Hb1 H1) as [<- Hu].
  unfold u_ok in Hu. simpl Z.mul in Hu. rewrite Hlen, Z.max_r by lia. split_and!; [done|lia|done].
Qed.

Lemma consumes_str :
  consumes read_str (fun bs v => bytes_canon bs v /\ utf8_valid v = true).
Proof.
  eapply consumes_bind; [apply consumes_bytes|]. intros v b1 Hb1.
  destruct (utf8_valid v) eqn:Hu; [|apply consumes_fail].
  apply consumes_ret. by rewrite app_nil_r.
Qed.

Lemma consumes_identity : consumes read_identity (fun bs v => v = bs /\ length bs = 32%nat).
Proof.
  eapply consumes_impl; [apply consumes_take|]. intros bs v [-> Hl]. unfold blen in Hl. split; [done|lia].
Qed.

Lemma reads_decimal u s : i_ok 128 u -> byte_ok s ->
  reads read_decimal (le_bytes 16 u ++ [s]) (u, s).
Proof.
  intros Hu Hs. unfold read_decimal. eapply reads_bind; [apply reads_signed; [lia|exact Hu]|].
  eapply reads_bind_ret; [|done].
  replace [s] with (le_bytes 1 s); [apply (reads_unsigned 1); exact Hs|].
  simpl. by rewrite Z.mod_small.
Qed.

Lemma consumes_decimal :
  consumes read_decimal (fun bs '(u, s) =>
    bytes_ok bs -> bs = le_bytes 16 u ++ [s] /\ i_ok 128 u /\ byte_ok s).
Proof.
  eapply consumes_bind; [apply consumes_signed; lia|]. intros u b1 H1.
  eapply consumes_bind; [apply consumes_unsigned|]. intros s b2 H2.
  apply consumes_ret. rewrite app_nil_r. intros [Hb1 Hb2]%bytes_ok_app.
  destruct (H1 Hb1) as [<- ?]. destruct (H2 Hb2) as [<- Hs]. split_and!; [|done|done].
  simpl. by rewrite (Z.mod_small s).
Qed.
