(* ===== verification/Row.v ===== *)
(** Rows: the closed column-type universe, dynamic row values, and the
    schema-driven FluxBIN row and primary-key codecs of
    [crates/fluxum-core/src/store/row.rs] (types from [schema/mod.rs] and
    [types.rs]).

    Main results: encoding then decoding a row returns it; a byte string that
    decodes is the encoding of what it decodes to (the codec is canonical); and
    the encoded primary key identifies the primary-key values. *)

From stdpp Require Import base list numbers strings.
From Stdlib Require Import ZArith Lia.
From S2P Require Import Prelude FluxBin.

(** * Data *)

Module FluxType.
(** Enum and struct schemas keep the payload types; their names only reach
    error texts. *)
Inductive t : Type :=
  | Bool | I8 | I16 | I32 | I64 | U8 | U16 | U32 | U64 | F32 | F64
  | Str | Bytes | Identity | ConnectionId | EntityId | Timestamp | Decimal | Blob
  | Option (inner : t)
  | List (inner : t)
  | Enum (variants : list (list t))
  | Struct (fields : list t)
  | CrdtText.
End FluxType.

Module RowValue.
(** Integers are [Z], floats their bit patterns, strings and byte vectors
    lists of bytes, identities and blob references 32 bytes. *)
Inductive t : Type :=
  | Bool (v : bool)
  | I8 (v : Z) | I16 (v : Z) | I32 (v : Z) | I64 (v : Z)
  | U8 (v : Z) | U16 (v : Z) | U32 (v : Z) | U64 (v : Z)
  | F32 (bits : Z) | F64 (bits : Z)
  | Str (v : list Z)
  | Bytes (v : list Z)
  | Identity (v : list Z)
  | ConnectionId (v : Z)
  | EntityId (v : Z)
  | Timestamp (v : Z)
  | Decimal (unscaled scale : Z)
  | Blob (v : list Z)
  | Optional (v : option t)
  | List (items : list t)
  | Enum (tag : Z) (payload : list t)
  | Struct (fields : list t).
End RowValue.

Notation row := (list RowValue.t).

Section value_ind.
Variable P : RowValue.t -> Prop.
Hypotheses
  (HBool : forall v, P (RowValue.Bool v))
  (HI8 : forall v, P (RowValue.I8 v)) (HI16 : forall v, P (RowValue.I16 v))
  (HI32 : forall v, P (RowValue.I32 v)) (HI64 : forall v, P (RowValue.I64 v))
  (HU8 : forall v, P (RowValue.U8 v)) (HU16 : forall v, P (RowValue.U16 v))
  (HU32 : forall v, P (RowValue.U32 v)) (HU64 : forall v, P (RowValue.U64 v))
  (HF32 : forall v, P (RowValue.F32 v)) (HF64 : forall v, P (RowValue.F64 v))
  (HStr : forall v, P (RowValue.Str v)) (HBytes : forall v, P (RowValue.Bytes v))
  (HIdentity : forall v, P (RowValue.Identity v))
  (HConnectionId : forall v, P (RowValue.ConnectionId v))
  (HEntityId : forall v, P (RowValue.EntityId v))
  (HTimestamp : forall v, P (RowValue.Timestamp v))
  (HDecimal : forall u s, P (RowValue.Decimal u s))
  (HBlob : forall v, P (RowValue.Blob v))
  (HNone : P (RowValue.Optional None))
  (HSome : forall v, P v -> P (RowValue.Optional (Some v)))
  (HList : forall l, Forall P l -> P (RowValue.List l))
  (HEnum : forall tag l, Forall P l -> P (RowValue.Enum tag l))
  (HStruct : forall l, Forall P l -> P (RowValue.Struct l)).

Fixpoint RowValue_ind' (v : RowValue.t) : P v :=
  let all := fix all (l : list RowValue.t) : Forall P l :=
    match l with [] => Forall_nil_2 _ | x :: l => Forall_cons_2 _ _ _ (RowValue_ind' x) (all l) end in
  match v with
  | RowValue.Bool v => HBool v
  | RowValue.I8 v => HI8 v | RowValue.I16 v => HI16 v
  | RowValue.I32 v => HI32 v | RowValue.I64 v => HI64 v
  | RowValue.U8 v => HU8 v | RowValue.U16 v => HU16 v
  | RowValue.U32 v => HU32 v | RowValue.U64 v => HU64 v
  | RowValue.F32 v => HF32 v | RowValue.F64 v => HF64 v
  | RowValue.Str v => HStr v | RowValue.Bytes v => HBytes v
  | RowValue.Identity v => HIdentity v
  | RowValue.ConnectionId v => HConnectionId v
  | RowValue.EntityId v => HEntityId v
  | RowValue.Timestamp v => HTimestamp v
  | RowValue.Decimal u s => HDecimal u s
  | RowValue.Blob v => HBlob v
  | RowValue.Optional None => HNone
  | RowValue.Optional (Some v) => HSome v (RowValue_ind' v)
  | RowValue.List l => HList l (all l)
  | RowValue.Enum tag l => HEnum tag l (all l)
  | RowValue.Struct l => HStruct l (all l)
  end.
End value_ind.

Section type_ind.
Variable P : FluxType.t -> Prop.
Hypotheses
  (Hleaf : forall ty, match ty with
     | FluxType.Option _ | FluxType.List _ | FluxType.Enum _ | FluxType.Struct _ => True
     | _ => P ty end)
  (HOption : forall ty, P ty -> P (FluxType.Option ty))
  (HList : forall ty, P ty -> P (FluxType.List ty))
  (HEnum : forall vs, Forall (Forall P) vs -> P (FluxType.Enum vs))
  (HStruct : forall fs, Forall P fs -> P (FluxType.Struct fs)).

Fixpoint FluxType_ind' (ty : FluxType.t) : P ty :=
  let all := fix all (l : list FluxType.t) : Forall P l :=
    match l with [] => Forall_nil_2 _ | x :: l => Forall_cons_2 _ _ _ (FluxType_ind' x) (all l) end in
  let all2 := fix all2 (l : list (list FluxType.t)) : Forall (Forall P) l :=
    match l with [] => Forall_nil_2 _ | x :: l => Forall_cons_2 _ _ _ (all x) (all2 l) end in
  match ty return P ty with
  | FluxType.Option ty => HOption ty (FluxType_ind' ty)
  | FluxType.List ty => HList ty (FluxType_ind' ty)
  | FluxType.Enum vs => HEnum vs (all2 vs)
  | FluxType.Struct fs => HStruct fs (all fs)
  | ty => Hleaf ty
  end.
End type_ind.

#[global] Instance FluxType_eq_dec : EqDecision FluxType.t.
Proof.
  unfold EqDecision, Decision. fix go 1. intros a b.
  destruct a as [| | | | | | | | | | | | | | | | | | |a|a|vs|fs|], b as [| | | | | | | | | | | | | | | | | | |b|b|ws|gs|]; try (left; reflexivity); try (right; discriminate).
  - destruct (go a b) as [->|n]; [by left|right; by intros [= ->]].
  - destruct (go a b) as [->|n]; [by left|right; by intros [= ->]].
  - destruct (@list_eq_dec _ (@list_eq_dec _ go) vs ws) as [->|n]; [by left|right; by intros [= ->]].
  - destruct (@list_eq_dec _ go fs gs) as [->|n]; [by left|right; by intros [= ->]].
Defined.

(** * Errors

    The source carries formatted texts; the model keeps the cause. *)

Inductive StorageError : Type :=
  | CodecError (e : FluxBinError)
  | ListTooLong (len : Z)
  | EnumTagTooWide (tag : Z)
  | EnumVariantOutOfRange (tag : Z)
  | RowArity (got declared : Z)
  | ColumnTypeMismatch (ordinal : Z)
  | PkOrdinalOutOfRange (ordinal : Z)
  | PkArity (got declared : Z)
  | PkTypeMismatch (ordinal : Z)
  | TrailingRowBytes (e : FluxBinError)
  | OrdinalOutOfRange (ordinal : Z).

#[global] Instance StorageError_eq_dec : EqDecision StorageError.
Proof. solve_decision. Defined.

(** * Typing *)

Section forallb2.
Context {A B : Type} (f : A -> B -> bool).
(** Equal lengths and [zip(..).all(..)]. *)
Fixpoint forallb2 (l : list A) (k : list B) : bool :=
  match l, k with
  | [], [] => true
  | x :: l, y :: k => f x y && forallb2 l k
  | _, _ => false
  end.
Lemma forallb2_Forall2 l k : forallb2 l k = true <-> Forall2 (fun x y => f x y = true) l k.
Proof.
  revert k. induction l as [|x l IH]; intros [|y k]; simpl;
    try (split; [discriminate|inversion 1]); [split; auto|].
  rewrite andb_true_iff, IH. split; [intros []; by constructor|by inversion 1].
Qed.
End forallb2.

Fixpoint matches_type (v : RowValue.t) (ty : FluxType.t) {struct v} : bool :=
  match v, ty with
  | RowValue.Bool _, FluxType.Bool
  | RowValue.I8 _, FluxType.I8 | RowValue.I16 _, FluxType.I16
  | RowValue.I32 _, FluxType.I32 | RowValue.I64 _, FluxType.I64
  | RowValue.U8 _, FluxType.U8 | RowValue.U16 _, FluxType.U16
  | RowValue.U32 _, FluxType.U32 | RowValue.U64 _, FluxType.U64
  | RowValue.F32 _, FluxType.F32 | RowValue.F64 _, FluxType.F64
  | RowValue.Str _, FluxType.Str
  | RowValue.Bytes _, FluxType.Bytes | RowValue.Bytes _, FluxType.CrdtText
  | RowValue.Identity _, FluxType.Identity
  | RowValue.ConnectionId _, FluxType.ConnectionId
  | RowValue.EntityId _, FluxType.EntityId
  | RowValue.Timestamp _, FluxType.Timestamp
  | RowValue.Decimal _ _, FluxType.Decimal
  | RowValue.Blob _, FluxType.Blob
  | RowValue.Optional None, FluxType.Option _ => true
  | RowValue.Optional (Some inner), FluxType.Option inner_ty => matches_type inner inner_ty
  | RowValue.List items, FluxType.List inner_ty =>
      forallb (fun item => matches_type item inner_ty) items
  | RowValue.Enum tag payload, FluxType.Enum variants =>
      match variants !! Z.to_nat tag with
      | Some tys => forallb2 matches_type payload tys
      | None => false
      end
  | RowValue.Struct fields, FluxType.Struct tys => forallb2 matches_type fields tys
  | _, _ => false
  end.

(** Every component is in the range of its Rust type. *)
Definition in_u (w z : Z) : bool := (0 <=? z) && (z <? 2 ^ w).
Definition in_i (w z : Z) : bool := (- 2 ^ (w - 1) <=? z) && (z <? 2 ^ (w - 1)).
Definition bytesb (bs : list Z) : bool := forallb (in_u 8) bs.

Fixpoint value_ok (v : RowValue.t) : bool :=
  match v with
  | RowValue.Bool _ => true
  | RowValue.I8 v => in_i 8 v | RowValue.I16 v => in_i 16 v
  | RowValue.I32 v => in_i 32 v | RowValue.I64 v => in_i 64 v
  | RowValue.U8 v => in_u 8 v | RowValue.U16 v => in_u 16 v
  | RowValue.U32 v => in_u 32 v | RowValue.U64 v => in_u 64 v
  | RowValue.F32 v => in_u 32 v | RowValue.F64 v => in_u 64 v
  | RowValue.Str v => bytesb v && utf8_valid v
  | RowValue.Bytes v => bytesb v
  | RowValue.Identity v | RowValue.Blob v => bytesb v && (length v =? 32)%nat
  | RowValue.ConnectionId v => in_u 128 v
  | RowValue.EntityId v => in_u 64 v
  | RowValue.Timestamp v => in_i 64 v
  | RowValue.Decimal u s => in_i 128 u && in_u 8 s
  | RowValue.Optional None => true
  | RowValue.Optional (Some v) => value_ok v
  | RowValue.List l => forallb value_ok l
  | RowValue.Enum tag l => in_u 32 tag && forallb value_ok l
  | RowValue.Struct l => forallb value_ok l
  end.

(** * Encoding *)

Notation Wr := (SM FluxBinWriter StorageError).

Section each.
Context {A : Type} (f : A -> Wr unit).
(** [for x in l { f(x)?; }]. *)
Fixpoint each (l : list A) : Wr unit :=
  match l with
  | [] => mret tt
  | x :: l => f x ≫= fun _ => each l
  end.
End each.

Fixpoint encode (v : RowValue.t) : Wr unit :=
  match v with
  | RowValue.Bool v => write_bool v
  | RowValue.I8 v => write_i8 v
  | RowValue.I16 v => write_i16 v
  | RowValue.I32 v => write_i32 v
  | RowValue.I64 v => write_i64 v
  | RowValue.U8 v => write_u8 v
  | RowValue.U16 v => write_u16 v
  | RowValue.U32 v => write_u32 v
  | RowValue.U64 v => write_u64 v
  | RowValue.F32 v => write_f32 v
  | RowValue.F64 v => write_f64 v
  | RowValue.Str v => sm_map_err CodecError (write_str v)
  | RowValue.Bytes v => sm_map_err CodecError (write_bytes v)
  | RowValue.Identity v => write_identity v
  | RowValue.ConnectionId v => write_connection_id v
  | RowValue.EntityId v => write_entity_id v
  | RowValue.Timestamp v => write_timestamp v
  | RowValue.Decimal u s => write_decimal u s
  | RowValue.Blob v => write_identity v
  | RowValue.Optional None => write_option_tag false
  | RowValue.Optional (Some inner) => write_option_tag true ≫= fun _ => encode inner
  | RowValue.List items =>
      sm_lift (from_option (ListTooLong (Z.of_nat (length items)))
                 (u32_try_from (Z.of_nat (length items)))) ≫= fun count =>
      write_seq_len count ≫= fun _ => each encode items
  | RowValue.Enum tag payload =>
      sm_lift (if in_u 8 tag then Ok tag else Err (EnumTagTooWide tag)) ≫= fun tag =>
      write_u8 tag ≫= fun _ => each encode payload
  | RowValue.Struct fields => each encode fields
  end.

(** * Decoding *)

Notation Dec := (SM FluxBinReader StorageError).

Section decode_seq.
Context {A B : Type}.
Fixpoint decode_n (n : nat) (m : Dec A) : Dec (list A) :=
  match n with
  | O => mret []
  | S n => m ≫= fun x => decode_n n m ≫= fun xs => mret (x :: xs)
  end.
Context (f : B -> Dec A).
Fixpoint decode_each (l : list B) : Dec (list A) :=
  match l with
  | [] => mret []
  | t :: l => f t ≫= fun x => decode_each l ≫= fun xs => mret (x :: xs)
  end.
End decode_seq.

Notation rd m := (sm_map_err CodecError m).

Fixpoint decode_value (ty : FluxType.t) : Dec RowValue.t :=
  match ty with
  | FluxType.Bool => rd read_bool ≫= fun v => mret (RowValue.Bool v)
  | FluxType.I8 => rd read_i8 ≫= fun v => mret (RowValue.I8 v)
  | FluxType.I16 => rd read_i16 ≫= fun v => mret (RowValue.I16 v)
  | FluxType.I32 => rd read_i32 ≫= fun v => mret (RowValue.I32 v)
  | FluxType.I64 => rd read_i64 ≫= fun v => mret (RowValue.I64 v)
  | FluxType.U8 => rd read_u8 ≫= fun v => mret (RowValue.U8 v)
  | FluxType.U16 => rd read_u16 ≫= fun v => mret (RowValue.U16 v)
  | FluxType.U32 => rd read_u32 ≫= fun v => mret (RowValue.U32 v)
  | FluxType.U64 => rd read_u64 ≫= fun v => mret (RowValue.U64 v)
  | FluxType.F32 => rd read_f32 ≫= fun v => mret (RowValue.F32 v)
  | FluxType.F64 => rd read_f64 ≫= fun v => mret (RowValue.F64 v)
  | FluxType.Str => rd read_str ≫= fun v => mret (RowValue.Str v)
  | FluxType.Bytes => rd read_bytes ≫= fun v => mret (RowValue.Bytes v)
  | FluxType.CrdtText => rd read_bytes ≫= fun v => mret (RowValue.Bytes v)
  | FluxType.Identity => rd read_identity ≫= fun v => mret (RowValue.Identity v)
  | FluxType.ConnectionId => rd read_connection_id ≫= fun v => mret (RowValue.ConnectionId v)
  | FluxType.EntityId => rd read_entity_id ≫= fun v => mret (RowValue.EntityId v)
  | FluxType.Timestamp => rd read_timestamp ≫= fun v => mret (RowValue.Timestamp v)
  | FluxType.Decimal => rd read_decimal ≫= fun p => mret (RowValue.Decimal p.1 p.2)
  | FluxType.Blob => rd read_identity ≫= fun v => mret (RowValue.Blob v)
  | FluxType.Option inner =>
      rd read_option_tag ≫= fun some =>
      if some : bool then decode_value inner ≫= fun v => mret (RowValue.Optional (Some v))
      else mret (RowValue.Optional None)
  | FluxType.List inner =>
      rd read_seq_len ≫= fun count =>
      decode_n (Z.to_nat count) (decode_value inner) ≫= fun items =>
      mret (RowValue.List items)
  | FluxType.Enum variants =>
      rd read_u8 ≫= fun tag =>
      match map (decode_each decode_value) variants !! Z.to_nat tag with
      | Some payload_of => payload_of ≫= fun payload => mret (RowValue.Enum tag payload)
      | None => sm_fail (EnumVariantOutOfRange tag)
      end
  | FluxType.Struct tys =>
      decode_each decode_value tys ≫= fun fields => mret (RowValue.Struct fields)
  end.

(** * Rows and primary keys *)

(** The parts of [TableSchema] the codecs use. *)
Record TableSchema : Type := {
  columns : list FluxType.t;
  primary_key : list nat;
}.

Fixpoint check_columns (i : nat) (values : row) (tys : list FluxType.t) : result StorageError unit :=
  match values, tys with
  | v :: values, ty :: tys =>
      if matches_type v ty then check_columns (S i) values tys
      else Err (ColumnTypeMismatch (Z.of_nat i))
  | _, _ => Ok tt
  end.

Definition check_row (schema : TableSchema) (values : row) : result StorageError unit :=
  if (length values =? length (columns schema))%nat then check_columns 0 values (columns schema)
  else Err (RowArity (Z.of_nat (length values)) (Z.of_nat (length (columns schema)))).

(** Run an encoder on a fresh writer. *)
Definition run_writer (m : Wr unit) : result StorageError (list Z) :=
  match m writer_new with
  | (Ok _, w) => Ok (into_bytes w)
  | (Err e, _) => Err e
  end.

Definition encode_row (values : row) : result StorageError (list Z) :=
  run_writer (each encode values).

Definition encode_pk_of_row (schema : TableSchema) (values : row) : result StorageError (list Z) :=
  run_writer (each (fun ordinal =>
    match values !! ordinal with
    | Some value => encode value
    | None => sm_fail (PkOrdinalOutOfRange (Z.of_nat ordinal))
    end) (primary_key schema)).

Definition encode_pk_values (schema : TableSchema) (pk_values : row) : result StorageError (list Z) :=
  if (length pk_values =? length (primary_key schema))%nat then
    run_writer (each (fun '(ordinal, value) =>
      match columns schema !! ordinal with
      | Some ty =>
          if matches_type value ty then encode value
          else sm_fail (PkTypeMismatch (Z.of_nat ordinal))
      | None => sm_fail (PkOrdinalOutOfRange (Z.of_nat ordinal))
      end) (zip (primary_key schema) pk_values))
  else Err (PkArity (Z.of_nat (length pk_values)) (Z.of_nat (length (primary_key schema)))).

Definition decode_row (schema : TableSchema) (bs : list Z) : result StorageError row :=
  match decode_each decode_value (columns schema) (reader_new bs) with
  | (Ok values, r) =>
      match expect_eof r with
      | Ok _ => Ok values
      | Err e => Err (TrailingRowBytes e)
      end
  | (Err e, _) => Err e
  end.

Definition encode_value_bytes (value : RowValue.t) : result StorageError (list Z) :=
  run_writer (encode value).

Definition decode_value_bytes (bs : list Z) (ty : FluxType.t) : result StorageError RowValue.t :=
  match decode_value ty (reader_new bs) with
  | (Ok value, r) =>
      match expect_eof r with
      | Ok _ => Ok value
      | Err e => Err (TrailingRowBytes e)
      end
  | (Err e, _) => Err e
  end.

(** * Lemmas *)

Lemma in_u_spec w z : in_u w z = true <-> u_ok w z.
Proof. unfold in_u, u_ok. rewrite andb_true_iff, Z.leb_le, Z.ltb_lt. done. Qed.
Lemma in_i_spec w z : in_i w z = true <-> i_ok w z.
Proof. unfold in_i, i_ok. rewrite andb_true_iff, Z.leb_le, Z.ltb_lt. done. Qed.
Lemma bytesb_spec bs : bytesb bs = true <-> bytes_ok bs.
Proof.
  unfold bytesb, bytes_ok. induction bs as [|b bs IH]; simpl; [split; auto|].
  rewrite andb_true_iff, IH, in_u_spec, Forall_cons. done.
Qed.

Lemma sm_bind_ok {S E A B} (m : SM S E A) (f : A -> SM S E B) s b s' :
  (m ≫= f) s = (Ok b, s') -> exists a s1, m s = (Ok a, s1) /\ f a s1 = (Ok b, s').
Proof. unfold mbind, sm_bind. destruct (m s) as [[a|e] s1]; [eauto|discriminate]. Qed.

Lemma writes_map_err (m : SM FluxBinWriter FluxBinError unit) bs :
  writes m bs -> writes (sm_map_err CodecError m) bs.
Proof. intros H w. unfold sm_map_err. by rewrite H. Qed.

Lemma write_len_prefixed_inv bs w w' :
  sm_map_err CodecError (write_len_prefixed bs) w = (Ok tt, w') -> blen bs < 2 ^ 32.
Proof.
  intros H. destruct (Z.lt_ge_cases (blen bs) (2 ^ 32)); [done|].
  unfold sm_map_err in H. by rewrite write_len_prefixed_overflow in H.
Qed.

(** The value [v] of type [ty] survives encoding and decoding. *)
Definition round_trips (v : RowValue.t) : Prop := forall ty w w',
  value_ok v = true -> matches_type v ty = true -> encode v w = (Ok tt, w') ->
  exists bs, writes (encode v) bs /\ reads (decode_value ty) bs v.

Lemma each_round_trips l : Forall round_trips l -> forall tys w w',
  forallb value_ok l = true -> forallb2 matches_type l tys = true ->
  each encode l w = (Ok tt, w') ->
  exists bs, writes (each encode l) bs /\ reads (decode_each decode_value tys) bs l.
Proof.
  induction 1 as [|v l Hv _ IH]; intros [|ty tys] w w'; simpl; try discriminate.
  - intros _ _ _. exists []. split; [intros w0; unfold mret, sm_ret; rewrite app_nil_r; by destruct w0|].
    apply reads_ret.
  - intros [Hv1 Hl1]%andb_true_iff [Hv2 Hl2]%andb_true_iff ([] & w1 & He & Hl)%sm_bind_ok.
    destruct (Hv _ _ _ Hv1 Hv2 He) as (b1 & Hw1 & Hr1).
    destruct (IH _ _ _ Hl1 Hl2 Hl) as (b2 & Hw2 & Hr2).
    exists (b1 ++ b2). split; [by apply writes_bind|].
    eapply reads_bind; [done|]. by eapply reads_bind_ret.
Qed.

Lemma each_round_trips_n l : Forall round_trips l -> forall ty w w',
  forallb value_ok l = true -> forallb (fun v => matches_type v ty) l = true ->
  each encode l w = (Ok tt, w') ->
  exists bs, writes (each encode l) bs /\ reads (decode_n (length l) (decode_value ty)) bs l.
Proof.
  induction 1 as [|v l Hv _ IH]; intros ty w w'; simpl.
  - intros _ _ _. exists []. split; [intros w0; unfold mret, sm_ret; rewrite app_nil_r; by destruct w0|].
    apply reads_ret.
  - intros [Hv1 Hl1]%andb_true_iff [Hv2 Hl2]%andb_true_iff ([] & w1 & He & Hl)%sm_bind_ok.
    destruct (Hv _ _ _ Hv1 Hv2 He) as (b1 & Hw1 & Hr1).
    destruct (IH _ _ _ Hl1 Hl2 Hl) as (b2 & Hw2 & Hr2).
    exists (b1 ++ b2). split; [by apply writes_bind|].
    eapply reads_bind; [done|]. by eapply reads_bind_ret.
Qed.

Lemma reads_rd_ret {A} (m : Rd A) (k : A -> RowValue.t) bs a :
  reads m bs a -> reads (rd m ≫= fun x => mret (k x)) bs (k a).
Proof. intros H. eapply reads_bind_ret; [by apply reads_map_err|done]. Qed.

Ltac ok_hyps :=
  repeat match goal with
  | H : _ && _ = true |- _ => apply andb_true_iff in H as [? ?]
  | H : in_u _ _ = true |- _ => apply in_u_spec in H
  | H : in_i _ _ = true |- _ => apply in_i_spec in H
  | H : bytesb _ = true |- _ => apply bytesb_spec in H
  | H : (_ =? _)%nat = true |- _ => apply Nat.eqb_eq in H
  end.

(** A fixed-width column: the writer appends the encoding, the reader inverts it. *)
Ltac leaf lem := eexists; split; [apply writes_extend|apply reads_rd_ret, lem; (done || lia)].

Lemma len_prefixed_round_trips (k : list Z -> RowValue.t) (m : Rd (list Z)) v w w' :
  sm_map_err CodecError (write_len_prefixed v) w = (Ok tt, w') ->
  (blen v < 2 ^ 32 -> reads m (le_bytes 4 (blen v) ++ v) v) ->
  exists bs, writes (sm_map_err CodecError (write_len_prefixed v)) bs /\
    reads (rd m ≫= fun x => mret (k x)) bs (k v).
Proof.
  intros He%write_len_prefixed_inv Hr. eexists; split.
  - by apply writes_map_err, write_len_prefixed_ok.
  - by apply reads_rd_ret, Hr.
Qed.

Lemma list_round_trips l ty w w' : Forall round_trips l ->
  forallb value_ok l = true -> forallb (fun v => matches_type v ty) l = true ->
  encode (RowValue.List l) w = (Ok tt, w') ->
  exists bs, writes (encode (RowValue.List l)) bs /\
    reads (decode_value (FluxType.List ty)) bs (RowValue.List l).
Proof.
  intros H Hok Hm He.
  apply sm_bind_ok in He as (c & w1 & Hc & He). apply sm_bind_ok in He as ([] & w2 & _ & He).
  unfold sm_lift, u32_try_from in Hc. fold (in_u 32 (Z.of_nat (length l))) in Hc.
  destruct (in_u 32 (Z.of_nat (length l))) eqn:Hlen; simplify_eq/=.
  destruct (each_round_trips_n _ H _ _ _ Hok Hm He) as (bs & Hw & Hr).
  exists (le_bytes 4 (Z.of_nat (length l)) ++ bs). split.
  - intros w0. simpl. unfold mbind, sm_bind, sm_lift, u32_try_from.
    fold (in_u 32 (Z.of_nat (length l))). rewrite Hlen. simpl from_option.
    exact (writes_bind (write_u32 (Z.of_nat (length l))) (fun _ => each encode l) _ _
      (writes_extend _) Hw w0).
  - eapply reads_bind; [by apply reads_map_err, (reads_unsigned 4), in_u_spec|].
    rewrite Nat2Z.id. by eapply reads_bind_ret.
Qed.

Lemma enum_round_trips tag l vs w w' : Forall round_trips l ->
  forallb value_ok l = true -> matches_type (RowValue.Enum tag l) (FluxType.Enum vs) = true ->
  encode (RowValue.Enum tag l) w = (Ok tt, w') ->
  exists bs, writes (encode (RowValue.Enum tag l)) bs /\
    reads (decode_value (FluxType.Enum vs)) bs (RowValue.Enum tag l).
Proof.
  intros H Hok Hm He. simpl in Hm.
  destruct (vs !! Z.to_nat tag) as [tys|] eqn:Htys; [|discriminate Hm].
  apply sm_bind_ok in He as (c & w1 & Hc & He). apply sm_bind_ok in He as ([] & w2 & _ & He).
  unfold sm_lift in Hc. destruct (in_u 8 tag) eqn:Htag; simplify_eq/=.
  destruct (each_round_trips _ H _ _ _ Hok Hm He) as (bs & Hw & Hr).
  exists ([c] ++ bs). split.
  - intros w0. simpl. unfold mbind, sm_bind, sm_lift. rewrite Htag.
    exact (writes_bind (write_u8 c) (fun _ => each encode l) _ _ (writes_extend _) Hw w0).
  - apply in_u_spec in Htag. eapply reads_bind.
    + apply reads_map_err. rewrite <- (le_bytes_1 c) by done. by apply (reads_unsigned 1).
    + rewrite lookup_map, Htys. simpl. by eapply reads_bind_ret.
Qed.

Lemma encode_round_trips v : round_trips v.
Proof.
  induction v using RowValue_ind'; intros ty w w' Hok Hm He;
    destruct ty; simpl in Hm; try discriminate Hm; simpl in Hok; ok_hyps.
  - leaf reads_flag.
  - leaf (reads_signed 1).
  - leaf (reads_signed 2).
  - leaf (reads_signed 4).
  - leaf (reads_signed 8).
  - eexists; split; [apply writes_extend|].
    apply (reads_rd_ret read_u8). rewrite <- (le_bytes_1 v) by done. by apply (reads_unsigned 1).
  - leaf (reads_unsigned 2).
  - leaf (reads_unsigned 4).
  - leaf (reads_unsigned 8).
  - leaf (reads_unsigned 4).
  - leaf (reads_unsigned 8).
  - eapply len_prefixed_round_trips; [done|]. intros. by apply reads_str.
  - eapply (len_prefixed_round_trips RowValue.Bytes); [done|]. apply reads_bytes.
  - eapply (len_prefixed_round_trips RowValue.Bytes); [done|]. apply reads_bytes.
  - eexists; split; [apply writes_extend|]. apply reads_rd_ret, reads_take. unfold blen. lia.
  - leaf (reads_unsigned 16).
  - leaf (reads_unsigned 8).
  - leaf (reads_signed 8).
  - eexists; split; [apply writes_bind; apply writes_extend|].
    eapply reads_bind_ret; [by apply reads_map_err, reads_decimal|done].
  - eexists; split; [apply writes_extend|]. apply reads_rd_ret, reads_take. unfold blen. lia.
  - eexists; split; [apply writes_extend|].
    eapply reads_bind_ret; [by apply reads_map_err, (reads_flag _ false)|done].
  - apply sm_bind_ok in He as ([] & w1 & _ & He).
    destruct (IHv _ _ _ Hok Hm He) as (bs & Hw & Hr).
    eexists; split; [apply writes_bind; [apply writes_extend|done]|].
    eapply reads_bind; [by apply reads_map_err, (reads_flag _ true)|]. by eapply reads_bind_ret.
  - by eapply list_round_trips.
  - by eapply enum_round_trips.
  - destruct (each_round_trips _ H _ _ _ Hok Hm He) as (bs & Hw & Hr).
    exists bs. split; [done|]. by eapply reads_bind_ret.
Qed.

(** ** Canonicity: what decodes is what its decoding encodes to *)

Definition canonical (ty : FluxType.t) (bs : list Z) (v : RowValue.t) : Prop :=
  bytes_ok bs -> writes (encode v) bs /\ matches_type v ty = true /\ value_ok v = true.

Lemma consumes_rd_ret {A} (m : Rd A) (k : A -> RowValue.t) (R : list Z -> A -> Prop) ty :
  consumes m R -> (forall bs a, R bs a -> canonical ty bs (k a)) ->
  consumes (rd m ≫= fun x => mret (k x)) (canonical ty).
Proof.
  intros Hm HR. eapply consumes_bind; [by apply consumes_map_err|]. intros a b1 H1.
  apply consumes_ret. rewrite app_nil_r. by apply HR.
Qed.

Lemma decode_each_canonical tys :
  Forall (fun ty => consumes (decode_value ty) (canonical ty)) tys ->
  consumes (decode_each decode_value tys) (fun bs vs => bytes_ok bs ->
    writes (each encode vs) bs /\ forallb2 matches_type vs tys = true /\ forallb value_ok vs = true).
Proof.
  induction 1 as [|ty tys Hty _ IH]; simpl.
  - apply consumes_ret. intros _. split_and!; [|done|done].
    intros w. unfold mret, sm_ret. rewrite app_nil_r. by destruct w.
  - eapply consumes_bind; [apply Hty|]. intros v b1 H1.
    eapply consumes_bind; [apply IH|]. intros vs b2 H2.
    apply consumes_ret. rewrite app_nil_r. intros [Hb1 Hb2]%bytes_ok_app.
    destruct (H1 Hb1) as (?&?&?). destruct (H2 Hb2) as (?&?&?). simpl.
    split_and!; [by apply writes_bind|by apply andb_true_iff|by apply andb_true_iff].
Qed.

Lemma decode_n_canonical ty n : consumes (decode_value ty) (canonical ty) ->
  consumes (decode_n n (decode_value ty)) (fun bs vs => length vs = n /\ (bytes_ok bs ->
    writes (each encode vs) bs /\ forallb (fun v => matches_type v ty) vs = true /\
    forallb value_ok vs = true)).
Proof.
  intros Hty. induction n as [|n IH]; simpl.
  - apply consumes_ret. split; [done|]. intros _. split_and!; [|done|done].
    intros w. unfold mret, sm_ret. rewrite app_nil_r. by destruct w.
  - eapply consumes_bind; [apply Hty|]. intros v b1 H1.
    eapply consumes_bind; [apply IH|]. intros vs b2 [Hn H2].
    apply consumes_ret. rewrite app_nil_r. split; [simpl; lia|]. intros [Hb1 Hb2]%bytes_ok_app.
    destruct (H1 Hb1) as (?&?&?). destruct (H2 Hb2) as (?&?&?). simpl.
    split_and!; [by apply writes_bind|by apply andb_true_iff|by apply andb_true_iff].
Qed.

Lemma decode_leaf_canonical ty :
  match ty with
  | FluxType.Option _ | FluxType.List _ | FluxType.Enum _ | FluxType.Struct _ => True
  | _ => consumes (decode_value ty) (canonical ty)
  end.
Proof.
  destruct ty; simpl; try exact I.
  1: { eapply consumes_rd_ret; [apply consumes_flag|]. intros bs v H Hb. by rewrite (H Hb). }
  1-4: eapply consumes_rd_ret; [apply consumes_signed; lia|]; intros bs v H Hb;
    destruct (H Hb) as [<- Hr]; (split_and!; [apply writes_extend|done|by apply in_i_spec]).
  1: { eapply consumes_rd_ret; [apply consumes_unsigned|]. intros bs v H Hb.
       destruct (H Hb) as [<- Hr]. rewrite le_bytes_1 by done.
       split_and!; [apply writes_extend|done|by apply in_u_spec]. }
  1-5: eapply consumes_rd_ret; [apply consumes_unsigned|]; intros bs v H Hb;
    destruct (H Hb) as [<- Hr]; (split_and!; [apply writes_extend|done|by apply in_u_spec]).
  1: { eapply consumes_rd_ret; [apply consumes_str|]. intros bs v [H Hu] Hb.
       destruct (H Hb) as (-> & Hl & Hv). split_and!; [by apply writes_map_err, write_len_prefixed_ok|done|].
       simpl. by rewrite Hu, (proj2 (bytesb_spec v) Hv). }
  1,8: eapply consumes_rd_ret; [apply consumes_bytes|]; intros bs v H Hb;
    destruct (H Hb) as (-> & Hl & Hv);
    (split_and!; [by apply writes_map_err, write_len_prefixed_ok|done|by apply bytesb_spec]).
  1,6: eapply consumes_rd_ret; [apply consumes_identity|]; intros bs v [-> Hl] Hb;
    (split_and!; [apply writes_extend|done|simpl; by rewrite Hl, (proj2 (bytesb_spec bs) Hb)]).
  1-2: eapply consumes_rd_ret; [apply consumes_unsigned|]; intros bs v H Hb;
    destruct (H Hb) as [<- Hr]; (split_and!; [apply writes_extend|done|by apply in_u_spec]).
  1: { eapply consumes_rd_ret; [apply consumes_signed; lia|]. intros bs v H Hb.
       destruct (H Hb) as [<- Hr]. split_and!; [apply writes_extend|done|by apply in_i_spec]. }
  eapply consumes_rd_ret; [apply consumes_decimal|]. intros bs [u s] H Hb.
  destruct (H Hb) as (-> & Hu & Hs). split_and!; [apply writes_bind; apply writes_extend|done|].
  simpl. apply andb_true_iff. by rewrite in_i_spec, in_u_spec.
Qed.

Lemma decode_canonical ty : consumes (decode_value ty) (canonical ty).
Proof.
  revert ty. apply FluxType_ind';
    [exact decode_leaf_canonical|intros ty IHty|intros ty IHty|intros vs H|intros fs H].
  - simpl. eapply consumes_bind; [apply consumes_map_err, consumes_flag|]. intros [] b1 H1.
    + eapply consumes_bind; [apply IHty|]. intros v b2 H2. apply consumes_ret.
      rewrite app_nil_r. intros [Hb1 Hb2]%bytes_ok_app. rewrite (H1 Hb1).
      destruct (H2 Hb2) as (?&?&?). split_and!; [by apply writes_bind|done|done].
    + apply consumes_ret. rewrite app_nil_r. intros Hb. rewrite (H1 Hb). by split_and!.
  - simpl. eapply consumes_bind; [apply consumes_map_err, consumes_unsigned|]. intros c b1 H1.
    eapply consumes_bind; [by apply (decode_n_canonical ty)|]. intros vs b2 [Hn H2]. apply consumes_ret.
    rewrite app_nil_r. intros [Hb1 Hb2]%bytes_ok_app. destruct (H1 Hb1) as [<- Hc].
    destruct (H2 Hb2) as (Hw&?&?). split_and!; [|done|done]. unfold u_ok in Hc. simpl Z.mul in Hc.
    assert (Z.of_nat (length vs) = c) as Hlen by lia.
    intros w. simpl. unfold mbind, sm_bind, sm_lift, u32_try_from.
    fold (in_u 32 (Z.of_nat (length vs))). rewrite Hlen, (proj2 (in_u_spec 32 c) Hc).
    exact (writes_bind (write_u32 c) (fun _ => each encode vs) _ _ (writes_extend _) Hw w).
  - simpl. eapply consumes_bind; [apply consumes_map_err, consumes_unsigned|]. intros c b1 H1.
    rewrite lookup_map. destruct (vs !! Z.to_nat c) as [tys|] eqn:Htys; [|apply consumes_fail].
    simpl. rewrite Forall_lookup in H. specialize (H _ _ Htys).
    eapply consumes_bind; [by apply decode_each_canonical|]. intros l b2 H2. apply consumes_ret.
    rewrite app_nil_r. intros [Hb1 Hb2]%bytes_ok_app. destruct (H1 Hb1) as [<- Hc].
    destruct (H2 Hb2) as (Hw&Hm&Hok). rewrite le_bytes_1 by done. split_and!.
    + intros w. simpl. unfold mbind, sm_bind, sm_lift. rewrite (proj2 (in_u_spec 8 c) Hc).
      exact (writes_bind (write_u8 c) (fun _ => each encode l) _ _ (writes_extend _) Hw w).
    + simpl. by rewrite Htys.
    + simpl. apply andb_true_iff. split; [|done]. apply in_u_spec. unfold u_ok in *. simpl in Hc. lia.
  - simpl. eapply consumes_bind; [by apply decode_each_canonical|]. intros l b2 H2.
    apply consumes_ret. by rewrite app_nil_r.
Qed.

(** ** Rows *)

Lemma run_writer_writes m bs : writes m bs -> run_writer m = Ok bs.
Proof. intros H. unfold run_writer. rewrite H. done. Qed.

Lemma run_writer_inv m bs : run_writer m = Ok bs -> exists w', m writer_new = (Ok tt, w').
Proof. unfold run_writer. destruct (m writer_new) as [[[]|] w']; [eauto|discriminate]. Qed.

Lemma check_columns_spec i vs tys : length vs = length tys ->
  check_columns i vs tys = Ok tt <-> forallb2 matches_type vs tys = true.
Proof.
  revert i tys. induction vs as [|v vs IH]; intros i [|ty tys]; simpl; try done.
  intros [= Hl]. destruct (matches_type v ty); simpl; [by apply IH|split; discriminate].
Qed.

Lemma forallb2_length {A B} (f : A -> B -> bool) l k : forallb2 f l k = true -> length l = length k.
Proof. intros H%forallb2_Forall2. by eapply Forall2_length. Qed.

Lemma check_row_spec schema vs :
  check_row schema vs = Ok tt <-> forallb2 matches_type vs (columns schema) = true.
Proof.
  unfold check_row. destruct (Nat.eqb_spec (length vs) (length (columns schema))) as [Hl|Hl].
  - by apply check_columns_spec.
  - split; [discriminate|]. by intros ?%forallb2_length.
Qed.

Lemma Forall_round_trips vs : Forall round_trips vs.
Proof. apply Forall_forall. intros v _. apply encode_round_trips. Qed.

(** What the row encoder and the row decoder do with one well-typed row. *)
Lemma row_round_trip schema vs bs :
  check_row schema vs = Ok tt -> forallb value_ok vs = true -> encode_row vs = Ok bs ->
  writes (each encode vs) bs /\ reads (decode_each decode_value (columns schema)) bs vs.
Proof.
  intros Hc%check_row_spec Hok He. pose proof He as [w' Hw]%run_writer_inv.
  destruct (each_round_trips vs (Forall_round_trips vs) _ _ _ Hok Hc Hw) as (bs' & H1 & H2).
  pose proof (run_writer_writes _ _ H1) as He'. unfold encode_row in He. rewrite He' in He. by injection He as ->.
Qed.

Lemma reads_new {E A} (m : SM FluxBinReader E A) bs post a : reads m bs a ->
  m (reader_new (bs ++ post)) = (Ok a, {| input := bs ++ post; pos := length bs |}).
Proof. intros H. exact (H [] post). Qed.

Lemma expect_eof_at bs post :
  expect_eof {| input := bs ++ post; pos := length bs |} =
  match post with [] => Ok tt | _ => Err (TrailingBytes (blen post)) end.
Proof.
  unfold expect_eof, is_empty, remaining; simpl. rewrite length_app.
  replace (length bs + length post - length bs)%nat with (length post) by lia.
  unfold blen. by destruct post.
Qed.

(** a row that type-checks against the schema survives FluxBIN encoding and
    decoding. *)
Theorem decode_encode_row schema vs bs :
  check_row schema vs = Ok tt -> forallb value_ok vs = true -> encode_row vs = Ok bs ->
  decode_row schema bs = Ok vs.
Proof.
  intros Hc Hok He. destruct (row_round_trip _ _ _ Hc Hok He) as [_ Hr].
  unfold decode_row. rewrite <- (app_nil_r bs), (reads_new _ bs [] _ Hr), expect_eof_at. done.
Qed.

Lemma decode_row_canonical schema bs vs : bytes_ok bs -> decode_row schema bs = Ok vs ->
  writes (each encode vs) bs /\ check_row schema vs = Ok tt /\ forallb value_ok vs = true.
Proof.
  intros Hb. unfold decode_row.
  destruct (decode_each decode_value (columns schema) (reader_new bs)) as [[vs'|e] r] eqn:Ed;
    [|discriminate].
  destruct (expect_eof r) eqn:Ee; [|discriminate]. intros [= ->].
  assert (Forall (fun ty => consumes (decode_value ty) (canonical ty)) (columns schema)) as Hall
    by (apply Forall_forall; intros; apply decode_canonical).
  destruct (decode_each_canonical _ Hall (reader_new bs) _ _ (Nat.le_0_l _) Ed)
    as (Hi & Hok & _ & Hr).
  destruct (Hr _ eq_refl) as (b & Hb1 & Hp & Hc). simpl in *.
  assert (b = bs) as ->.
  { unfold expect_eof, is_empty, remaining in Ee. unfold reader_ok in Hok. rewrite Hi in *.
    destruct (Z.eqb_spec (Z.of_nat (length bs - pos r)) 0) as [Hz|]; [|discriminate].
    rewrite drop_0, drop_ge, app_nil_r in Hb1 by lia. done. }
  destruct (Hc Hb) as (?&?&?). split_and!; [done|by apply check_row_spec|done].
Qed.

(** a byte string that decodes as a row is exactly the encoding of that
    row, and the row type-checks: FluxBIN has one encoding per row. *)
Theorem encode_decode_row schema bs vs :
  bytes_ok bs -> decode_row schema bs = Ok vs ->
  encode_row vs = Ok bs /\ check_row schema vs = Ok tt /\ forallb value_ok vs = true.
Proof.
  intros Hb (?&?&?)%decode_row_canonical; [|done]. split_and!; [by apply run_writer_writes|done|done].
Qed.

(** A decoder accepts an encoded row only whole: any extra byte is reported
    as trailing, and no proper prefix decodes. *)
Theorem decode_row_exact schema vs bs :
  check_row schema vs = Ok tt -> forallb value_ok vs = true -> encode_row vs = Ok bs ->
  (forall x extra, decode_row schema (bs ++ x :: extra) =
     Err (TrailingRowBytes (TrailingBytes (blen (x :: extra))))) /\
  (forall p x s vs', bytes_ok bs -> bs = p ++ x :: s -> decode_row schema p <> Ok vs').
Proof.
  intros Hc Hok He. destruct (row_round_trip _ _ _ Hc Hok He) as [_ Hr]. split.
  - intros x extra. unfold decode_row. rewrite (reads_new _ _ _ _ Hr), expect_eof_at. done.
  - intros p x s vs' Hb Heq Hd. subst bs.
    destruct (decode_row_canonical schema p vs') as (Hw' & Hc' & Hok'); [|done|].
    { by apply bytes_ok_app in Hb as [? _]. }
    destruct (row_round_trip _ _ _ Hc' Hok' (run_writer_writes _ _ Hw')) as [_ Hr'].
    pose proof (reads_new _ _ (x :: s) _ Hr') as E1.
    pose proof (reads_new _ _ [] _ Hr) as E2. rewrite app_nil_r in E2. rewrite E1 in E2.
    injection E2 as _ Hl. rewrite length_app in Hl. simpl in Hl. lia.
Qed.

(** ** Primary keys *)

(** The primary-key column values of a row, in key order. *)
Definition pk_values_of (schema : TableSchema) (vs : row) : option row :=
  mapM (fun o => vs !! o) (primary_key schema).

Lemma each_ext {A B} (f : A -> Wr unit) (g : B -> Wr unit) l k :
  Forall2 (fun x y => f x = g y) l k -> each f l = each g k.
Proof. induction 1 as [|x y l k Hxy _ IH]; simpl; [done|]. by rewrite Hxy, IH. Qed.

Lemma encode_pk_of_row_values schema vs ks : pk_values_of schema vs = Some ks ->
  encode_pk_of_row schema vs = run_writer (each encode ks).
Proof.
  intros Hk. unfold encode_pk_of_row. f_equal. apply each_ext.
  apply mapM_Some in Hk. eapply Forall2_impl; [done|]. intros o v Hv. simpl in Hv. by rewrite Hv.
Qed.

Lemma pk_types schema vs ks : check_row schema vs = Ok tt -> pk_values_of schema vs = Some ks ->
  Forall2 (fun o v => exists ty, columns schema !! o = Some ty /\ matches_type v ty = true)
    (primary_key schema) ks.
Proof.
  intros Hc%check_row_spec%forallb2_Forall2 Hk%mapM_Some.
  eapply Forall2_impl; [exact Hk|]. intros o v Hv. simpl in Hv.
  destruct (Forall2_lookup_l _ _ _ _ _ Hc Hv) as (ty & Hty & Hm). eauto.
Qed.

(** The bytes of typed key values. *)
Lemma pk_typed_bytes schema ks : Forall2 (fun o v => exists ty, columns schema !! o = Some ty /\ matches_type v ty = true) (primary_key schema) ks ->
  encode_pk_values schema ks = run_writer (each encode ks).
Proof.
  intros Ht. unfold encode_pk_values. rewrite (proj2 (Nat.eqb_eq _ _)) by (symmetry; by eapply Forall2_length).
  f_equal. induction Ht as [|o v os ks (ty & Hty & Hm) _ IH]; simpl; [done|].
  by rewrite Hty, Hm, IH.
Qed.

Lemma pk_row_bytes schema vs ks : check_row schema vs = Ok tt -> pk_values_of schema vs = Some ks ->
  encode_pk_values schema ks = encode_pk_of_row schema vs.
Proof.
  intros Hc Hk. rewrite (encode_pk_of_row_values _ _ _ Hk). apply pk_typed_bytes. by eapply pk_types.
Qed.

(** Key values that encode have the types of the key columns. *)
Lemma encode_pk_typed schema ks k : encode_pk_values schema ks = Ok k ->
  Forall2 (fun o v => exists ty, columns schema !! o = Some ty /\ matches_type v ty = true) (primary_key schema) ks.
Proof.
  unfold encode_pk_values. destruct (_ =? _)%nat eqn:El; [|done]. apply Nat.eqb_eq in El. intros [w' E]%run_writer_inv.
  revert E El. generalize writer_new. generalize (primary_key schema) as os. induction ks as [|v ks IH]; intros [|o os] w0 E El; try done.
  simpl in E. apply sm_bind_ok in E as (u & w1 & E1 & E2). destruct (columns schema !! o) as [ty|] eqn:Ety; [|done].
  destruct (matches_type v ty) eqn:Em; [|done]. constructor; [by exists ty|]. eapply IH; [exact E2|]. simpl in El. lia.
Qed.

(** A row whose key encodes has its key columns. *)
Lemma encode_pk_columns schema vs k : encode_pk_of_row schema vs = Ok k -> is_Some (pk_values_of schema vs).
Proof.
  unfold encode_pk_of_row, pk_values_of. intros [w' E]%run_writer_inv. revert E. generalize writer_new.
  generalize (primary_key schema) as os. induction os as [|o os IH]; intros w0 E; [by eexists|].
  simpl in E. apply sm_bind_ok in E as (u & w1 & E1 & E2). destruct (vs !! o) as [v|] eqn:Ev; [|done].
  destruct (IH w1 E2) as [ks Hks]. exists (v :: ks). simpl. by rewrite Ev; simpl; rewrite Hks.
Qed.

Lemma typed_matches schema ks os : Forall2 (fun o v => exists ty, columns schema !! o = Some ty /\ matches_type v ty = true) os ks ->
  exists tys, mapM (fun o => columns schema !! o) os = Some tys /\ forallb2 matches_type ks tys = true.
Proof.
  induction 1 as [|o v os ks (ty & Hty & Hm) _ (tys & Htys & Hms)]; [by exists []|].
  exists (ty :: tys). simpl. by rewrite Hty, Hm; simpl; rewrite Htys.
Qed.

(** Equal bytes come from equal key values. *)
Lemma encode_pk_values_inj schema ks1 ks2 k : forallb value_ok ks1 = true -> forallb value_ok ks2 = true ->
  encode_pk_values schema ks1 = Ok k -> encode_pk_values schema ks2 = Ok k -> ks1 = ks2.
Proof.
  intros Hok1 Hok2 E1 E2. pose proof (encode_pk_typed _ _ _ E1) as T1. pose proof (encode_pk_typed _ _ _ E2) as T2.
  rewrite (pk_typed_bytes _ _ T1) in E1. rewrite (pk_typed_bytes _ _ T2) in E2.
  destruct (typed_matches _ _ _ T1) as (tys & Ht1 & Hm1). destruct (typed_matches _ _ _ T2) as (tys' & Ht2 & Hm2). simplify_eq.
  pose proof E1 as [w1 W1]%run_writer_inv. pose proof E2 as [w2 W2]%run_writer_inv.
  destruct (each_round_trips _ (Forall_round_trips _) _ _ _ Hok1 Hm1 W1) as (b1 & Hw1 & Hr1).
  destruct (each_round_trips _ (Forall_round_trips _) _ _ _ Hok2 Hm2 W2) as (b2 & Hw2 & Hr2).
  rewrite (run_writer_writes _ _ Hw1) in E1. rewrite (run_writer_writes _ _ Hw2) in E2.
  simplify_eq. pose proof (reads_new _ _ [] _ Hr1) as R1. rewrite (reads_new _ _ [] _ Hr2) in R1.
  by simplify_eq.
Qed.

(** Deriving the key from a full row and encoding the key values directly
    give the same bytes. *)
Theorem encode_pk_values_of_row schema vs ks :
  check_row schema vs = Ok tt -> pk_values_of schema vs = Some ks ->
  encode_pk_values schema ks = encode_pk_of_row schema vs.
Proof. apply pk_row_bytes. Qed.

Lemma pk_values_ok schema vs ks : forallb value_ok vs = true -> pk_values_of schema vs = Some ks ->
  forallb value_ok ks = true.
Proof.
  intros Hok Hk%mapM_Some. rewrite forallb_forall in *.
  intros v [i Hi]%list_elem_of_In%list_elem_of_lookup.
  destruct (Forall2_lookup_r _ _ _ _ _ Hk Hi) as (o & _ & Hv). simpl in Hv.
  apply Hok, list_elem_of_In. by eapply list_elem_of_lookup_2.
Qed.

(** byte equality of encoded primary keys is equality of the key values:
    two rows of one table collide in the row map only if their keys are equal. *)
Theorem encode_pk_injective schema vs1 vs2 ks1 ks2 k :
  check_row schema vs1 = Ok tt -> check_row schema vs2 = Ok tt ->
  forallb value_ok vs1 = true -> forallb value_ok vs2 = true ->
  pk_values_of schema vs1 = Some ks1 -> pk_values_of schema vs2 = Some ks2 ->
  encode_pk_of_row schema vs1 = Ok k -> encode_pk_of_row schema vs2 = Ok k ->
  ks1 = ks2.
Proof.
  intros Hc1 Hc2 Ho1 Ho2 Hk1 Hk2. rewrite <- (pk_row_bytes _ _ _ Hc1 Hk1), <- (pk_row_bytes _ _ _ Hc2 Hk2).
  apply encode_pk_values_inj; [exact (pk_values_ok _ _ _ Ho1 Hk1)|exact (pk_values_ok _ _ _ Ho2 Hk2)].
Qed.

(** * Witnesses: a user table with a compound key *)

Definition users : TableSchema := {|
  columns := [FluxType.EntityId; FluxType.Str; FluxType.Option FluxType.I32; FluxType.List FluxType.U16];
  primary_key := [0; 1]%nat |}.
Definition ada : row :=
  [RowValue.EntityId 7; RowValue.Str [97; 100; 97]; RowValue.Optional (Some (RowValue.I32 (-2)));
   RowValue.List [RowValue.U16 1; RowValue.U16 515]].
Definition ada_bytes : list Z :=
  [7;0;0;0;0;0;0;0; 3;0;0;0;97;100;97; 1;254;255;255;255; 2;0;0;0;1;0;3;2].

Lemma decode_encode_row_witness : decode_row users ada_bytes = Ok ada.
Proof. apply (decode_encode_row users ada ada_bytes); vm_compute; reflexivity. Defined.

Lemma encode_decode_row_witness :
  encode_row ada = Ok ada_bytes /\ check_row users ada = Ok tt /\ forallb value_ok ada = true.
Proof.
  apply (encode_decode_row users ada_bytes ada); [|vm_compute; reflexivity].
  apply (bool_decide_unpack _). vm_compute. exact I.
Defined.

Lemma decode_row_exact_witness :
  decode_row users (ada_bytes ++ [9]) = Err (TrailingRowBytes (TrailingBytes 1)).
Proof. apply (decode_row_exact users ada ada_bytes); vm_compute; reflexivity. Defined.

Lemma encode_pk_values_of_row_witness :
  encode_pk_values users (firstn 2 ada) = encode_pk_of_row users ada.
Proof. apply (encode_pk_values_of_row users ada (firstn 2 ada)); vm_compute; reflexivity. Defined.

Lemma encode_pk_injective_witness : firstn 2 ada = firstn 2 (firstn 2 ada ++ [RowValue.Optional None; RowValue.List []]).
Proof.
  apply (encode_pk_injective users ada (firstn 2 ada ++ [RowValue.Optional None; RowValue.List []])
    _ _ (firstn 15 ada_bytes)); vm_compute; reflexivity.
Defined.
