(* ===== verification/IndexKey.v ===== *)
(** Secondary-index keys: the memcomparable transform, the range planner and
    the key layout of [crates/fluxum-core/src/index/btree.rs].

    Main results: the byte order of the encodings is the natural order of the
    values whatever bytes follow (order preservation and prefix-freedom in one
    statement), and a planned scan range contains exactly the keys the scan
    shape asks for. *)

From stdpp Require Import base list numbers.
From Stdlib Require Import ZArith Lia.
From S2P Require Import Prelude FluxBin Row.

(** * The transform *)

(** Sign bit of a [w]-bit word. *)
Definition SIGN (w : Z) : Z := 2 ^ (w - 1).

(** Content escaped and terminated: [0x00] becomes [0x00 0xFF], the end is
    [0x00 0x00]. *)
Fixpoint encode_terminated (bs : list Z) : list Z :=
  match bs with
  | [] => [0; 0]
  | b :: bs => (if b =? 0 then [0; 255] else [b]) ++ encode_terminated bs
  end.

(** Signed integers: sign bit flipped, big-endian. *)
Definition signed_key (n : nat) (v : Z) : list Z :=
  be_bytes n (Z.lxor (cast_unsigned (8 * Z.of_nat n) v) (SIGN (8 * Z.of_nat n))).

(** Floats: all bits flipped when the sign bit is set, else the sign bit. *)
Definition float_key (n : nat) (bits : Z) : list Z :=
  let w := 8 * Z.of_nat n in
  be_bytes n (if Z.land bits (SIGN w) =? 0 then Z.lxor bits (SIGN w) else 2 ^ w - 1 - bits).

Fixpoint encode_value (v : RowValue.t) : list Z :=
  match v with
  | RowValue.Bool v => [if v then 1 else 0]
  | RowValue.I8 v => signed_key 1 v
  | RowValue.I16 v => signed_key 2 v
  | RowValue.I32 v => signed_key 4 v
  | RowValue.I64 v => signed_key 8 v
  | RowValue.U8 v => [v]
  | RowValue.U16 v => be_bytes 2 v
  | RowValue.U32 v => be_bytes 4 v
  | RowValue.U64 v => be_bytes 8 v
  | RowValue.F32 bits => float_key 4 bits
  | RowValue.F64 bits => float_key 8 bits
  | RowValue.Str v => encode_terminated v
  | RowValue.Bytes v => encode_terminated v
  | RowValue.Identity v => v
  | RowValue.Blob v => v
  | RowValue.ConnectionId v => be_bytes 16 v
  | RowValue.EntityId v => be_bytes 8 v
  | RowValue.Timestamp v => signed_key 8 v
  | RowValue.Decimal u s => signed_key 16 u ++ [s]
  | RowValue.Optional None => [0]
  | RowValue.Optional (Some inner) => 1 :: encode_value inner
  | RowValue.List items => flat_map (fun item => 1 :: encode_value item) items ++ [0]
  | RowValue.Enum tag payload => be_bytes 4 tag ++ flat_map encode_value payload
  | RowValue.Struct fields => flat_map encode_value fields
  end.

(** The key of the index columns [ordinals] of a row ([BTreeIndex::key_of],
    [UniqueIndex::key_of_values]). *)
Fixpoint key_of (ordinals : list nat) (values : row) : result StorageError (list Z) :=
  match ordinals with
  | [] => Ok []
  | o :: os =>
      match values !! o with
      | Some v => key_of os values ≫= fun k => Ok (encode_value v ++ k)
      | None => Err (OrdinalOutOfRange (Z.of_nat o))
      end
  end.

(** [BTreeIndex::entry_key]: the index key with the encoded primary key. *)
Definition entry_key (ordinals : list nat) (values : row) (pk : list Z) : result StorageError (list Z) :=
  key_of ordinals values ≫= fun k => Ok (k ++ pk).

(** * Range planning *)

Inductive Bound (A : Type) : Type :=
  | Unbounded
  | Included (a : A)
  | Excluded (a : A).
Arguments Unbounded {A}.
Arguments Included {A} _.
Arguments Excluded {A} _.

(** [while bytes.last() == Some(&0xFF) { bytes.pop() }], on the reversed list. *)
Fixpoint pop_ff (rev_bytes : list Z) : list Z :=
  match rev_bytes with
  | [] => []
  | b :: r => if b =? 255 then pop_ff r else b :: r
  end.

Definition prefix_successor (bytes : list Z) : option (list Z) :=
  match pop_ff (reverse bytes) with
  | [] => None
  | b :: r => Some (reverse (b + 1 :: r))
  end.

Definition plan_scan (prefix : list Z) (lower upper : Bound (list Z)) : list Z * option (list Z) :=
  let start := match lower with
    | Unbounded => Some prefix
    | Included v => Some (prefix ++ v)
    | Excluded v => prefix_successor (prefix ++ v)
    end in
  let end_ := match upper with
    | Unbounded => prefix_successor prefix
    | Included v => prefix_successor (prefix ++ v)
    | Excluded v => Some (prefix ++ v)
    end in
  match start with
  | None => ([], Some [])
  | Some start =>
      match end_ with
      | Some e => if decide (key_le e start) then ([], Some []) else (start, Some e)
      | None => (start, None)
      end
  end.

(** Membership in the planned [[start, end)]. *)
Definition in_range (r : list Z * option (list Z)) (k : list Z) : Prop :=
  key_le r.1 k /\ match r.2 with Some e => key_lt k e | None => True end.

#[global] Instance in_range_dec r k : Decision (in_range r k).
Proof. unfold in_range. destruct (r.2); apply _. Defined.

(** * The natural order of values *)

(** IEEE 754 totalOrder on bit patterns: sign and magnitude. *)
Definition total_order_key (w bits : Z) : Z :=
  if bits <? SIGN w then bits else SIGN w - 1 - bits.

Section lexico.
Context {A : Type} (cmp : A -> A -> comparison).
Fixpoint list_cmp (l k : list A) : comparison :=
  match l, k with
  | [], [] => Eq
  | [], _ => Lt
  | _, [] => Gt
  | x :: l, y :: k => cmp_then (cmp x y) (list_cmp l k)
  end.
End lexico.

(** [Eq] for two values of different shapes: never compared. *)
Fixpoint value_compare (a b : RowValue.t) : comparison :=
  match a, b with
  | RowValue.Bool x, RowValue.Bool y => Bool.compare x y
  | RowValue.I8 x, RowValue.I8 y | RowValue.I16 x, RowValue.I16 y
  | RowValue.I32 x, RowValue.I32 y | RowValue.I64 x, RowValue.I64 y
  | RowValue.U8 x, RowValue.U8 y | RowValue.U16 x, RowValue.U16 y
  | RowValue.U32 x, RowValue.U32 y | RowValue.U64 x, RowValue.U64 y
  | RowValue.ConnectionId x, RowValue.ConnectionId y
  | RowValue.EntityId x, RowValue.EntityId y
  | RowValue.Timestamp x, RowValue.Timestamp y => x ?= y
  | RowValue.F32 x, RowValue.F32 y => total_order_key 32 x ?= total_order_key 32 y
  | RowValue.F64 x, RowValue.F64 y => total_order_key 64 x ?= total_order_key 64 y
  | RowValue.Str x, RowValue.Str y | RowValue.Bytes x, RowValue.Bytes y
  | RowValue.Identity x, RowValue.Identity y | RowValue.Blob x, RowValue.Blob y => lex_compare x y
  | RowValue.Optional None, RowValue.Optional None => Eq
  | RowValue.Optional None, RowValue.Optional (Some _) => Lt
  | RowValue.Optional (Some _), RowValue.Optional None => Gt
  | RowValue.Optional (Some x), RowValue.Optional (Some y) => value_compare x y
  | RowValue.List l, RowValue.List k => list_cmp value_compare l k
  | _, _ => Eq
  end.

(** Column types the transform orders: all but decimals, enums and structs,
    which the schema macros reject as key columns. *)
Fixpoint ordered_type (ty : FluxType.t) : bool :=
  match ty with
  | FluxType.Decimal | FluxType.Enum _ | FluxType.Struct _ => false
  | FluxType.Option ty | FluxType.List ty => ordered_type ty
  | _ => true
  end.

(** * Word lemmas *)

Lemma lxor_pow2 x k : 0 <= k -> 0 <= x < 2 ^ k -> Z.lxor x (2 ^ k) = x + 2 ^ k.
Proof.
  intros Hk Hx. rewrite Z.add_nocarry_lxor; [done|].
  apply Z.bits_inj'. intros n Hn. rewrite Z.land_spec, Z.bits_0, Z.pow2_bits_eqb by done.
  destruct (Z.eqb_spec k n) as [<-|]; [|apply andb_false_r].
  destruct (Z.eq_dec x 0) as [->|]; [by rewrite Z.bits_0|].
  rewrite Z.bits_above_log2; [done|lia|]. apply Z.log2_lt_pow2; lia.
Qed.

Lemma pow2_double w : 0 < w -> 2 ^ w = 2 * SIGN w.
Proof. intros. unfold SIGN. rewrite <- Z.pow_succ_r by lia. f_equal. lia. Qed.

Lemma SIGN_pos w : 0 < w -> 0 < SIGN w.
Proof. intros. apply Z.pow_pos_nonneg; lia. Qed.

Lemma lxor_sign w x : 0 < w -> u_ok w x ->
  Z.lxor x (SIGN w) = if x <? SIGN w then x + SIGN w else x - SIGN w.
Proof.
  intros Hw [H1 H2]. rewrite pow2_double in H2 by done. pose proof (SIGN_pos w Hw).
  unfold SIGN in *. destruct (Z.ltb_spec x (2 ^ (w - 1))); [apply lxor_pow2; lia|].
  replace x with ((x - 2 ^ (w - 1)) + 2 ^ (w - 1)) at 1 by lia.
  rewrite <- lxor_pow2 by lia. by rewrite Z.lxor_assoc, Z.lxor_nilpotent, Z.lxor_0_r.
Qed.

Lemma signed_flip w v : 0 < w -> i_ok w v ->
  Z.lxor (cast_unsigned w v) (SIGN w) = v + SIGN w.
Proof.
  intros Hw [H1 H2]. fold (SIGN w) in H1, H2. pose proof (SIGN_pos w Hw).
  rewrite lxor_sign by (try apply cast_unsigned_ok; lia).
  unfold cast_unsigned. pose proof (pow2_double w Hw).
  destruct (Z.lt_ge_cases v 0).
  - replace (v mod 2 ^ w) with (v + 2 ^ w) by (apply Z.mod_unique with (-1); lia).
    rewrite (proj2 (Z.ltb_ge _ _)) by lia. lia.
  - rewrite Z.mod_small by lia. rewrite (proj2 (Z.ltb_lt _ _)) by lia. lia.
Qed.

Lemma land_sign w x : 0 < w -> u_ok w x -> (Z.land x (SIGN w) =? 0) = (x <? SIGN w).
Proof.
  intros Hw Hx. pose proof Hx as [H1 H2]. pose proof (SIGN_pos w Hw).
  assert (Z.lxor x (SIGN w) = x + SIGN w - 2 * Z.land x (SIGN w)) as E.
  { pose proof (Z.add_lor_land x (SIGN w)).
    assert (Z.land x (SIGN w) + Z.lxor x (SIGN w) = Z.lor x (SIGN w)).
    { rewrite Z.add_nocarry_lxor.
      - apply Z.bits_inj'. intros n _. rewrite !Z.lxor_spec, Z.land_spec, Z.lor_spec.
        by destruct (Z.testbit x n), (Z.testbit (SIGN w) n).
      - apply Z.bits_inj'. intros n _. rewrite !Z.land_spec, Z.lxor_spec, Z.bits_0.
        by destruct (Z.testbit x n), (Z.testbit (SIGN w) n). }
    lia. }
  rewrite lxor_sign in E by done.
  destruct (Z.ltb_spec x (SIGN w)); [apply Z.eqb_eq|apply Z.eqb_neq]; lia.
Qed.

(** * Order preservation and prefix-freedom *)

Lemma encode_terminated_cmp a b s t : bytes_ok a -> bytes_ok b ->
  lex_compare (encode_terminated a ++ s) (encode_terminated b ++ t) =
  cmp_then (lex_compare a b) (lex_compare s t).
Proof.
  intros Ha. revert b. induction Ha as [|x a Hx _ IH]; intros b [|y b' Hy Hb].
  - done.
  - unfold byte_ok in Hy. cbn. destruct (Z.eqb_spec y 0) as [->|]; [done|].
    destruct y; done || lia.
  - unfold byte_ok in Hx. cbn. destruct (Z.eqb_spec x 0) as [->|]; [done|].
    destruct x; done || lia.
  - simpl. unfold byte_ok in Hx, Hy. rewrite <- !app_assoc.
    destruct (Z.eqb_spec x 0) as [->|], (Z.eqb_spec y 0) as [->|]; simpl; rewrite ?IH by done.
    + done.
    + destruct y; done || lia.
    + destruct x; done || lia.
    + by destruct (x ?= y).
Qed.

Lemma cmp_shift a b k : (a + k ?= b + k) = (a ?= b).
Proof. destruct (Z.compare_spec a b), (Z.compare_spec (a + k) (b + k)); lia || done. Qed.

Lemma signed_key_cmp n a b s t : (0 < n)%nat ->
  i_ok (8 * Z.of_nat n) a -> i_ok (8 * Z.of_nat n) b ->
  lex_compare (signed_key n a ++ s) (signed_key n b ++ t) = cmp_then (a ?= b) (lex_compare s t).
Proof.
  intros Hn Ha Hb. unfold signed_key. rewrite !signed_flip by (done || lia).
  pose proof (pow2_double (8 * Z.of_nat n)).
  rewrite lex_compare_be_bytes, cmp_shift; [done| |];
    unfold u_ok, i_ok, SIGN in *; lia.
Qed.

Lemma float_key_cmp n a b s t : (0 < n)%nat ->
  u_ok (8 * Z.of_nat n) a -> u_ok (8 * Z.of_nat n) b ->
  lex_compare (float_key n a ++ s) (float_key n b ++ t) =
  cmp_then (total_order_key (8 * Z.of_nat n) a ?= total_order_key (8 * Z.of_nat n) b) (lex_compare s t).
Proof.
  intros Hn Ha Hb. unfold float_key. cbv zeta. set (w := 8 * Z.of_nat n) in *.
  assert (0 < w) as Hw by lia. pose proof (pow2_double w Hw). pose proof (SIGN_pos w Hw).
  rewrite !land_sign, !lxor_sign by done. pose proof Ha as [??]. pose proof Hb as [??].
  assert (forall x, u_ok w x ->
    (if x <? SIGN w then (if x <? SIGN w then x + SIGN w else x - SIGN w) else 2 ^ w - 1 - x)
    = total_order_key w x + SIGN w) as E.
  { intros x _. unfold total_order_key. destruct (Z.ltb_spec x (SIGN w)); lia. }
  rewrite !E by done. rewrite lex_compare_be_bytes, cmp_shift; [done| |]; fold w;
    unfold u_ok, total_order_key in *; case_match; lia.
Qed.

Lemma fixed_bytes_cmp a b s t : length a = length b ->
  lex_compare (a ++ s) (b ++ t) = cmp_then (lex_compare a b) (lex_compare s t).
Proof.
  revert b. induction a as [|x a IH]; intros [|y b]; simpl; try done.
  intros [= Hl]. rewrite IH by done. by destruct (x ?= y).
Qed.

Definition cmp_law (a : RowValue.t) : Prop := forall b ty s t,
  ordered_type ty = true -> matches_type a ty = true -> matches_type b ty = true ->
  value_ok a = true -> value_ok b = true ->
  lex_compare (encode_value a ++ s) (encode_value b ++ t) =
  cmp_then (value_compare a b) (lex_compare s t).

Lemma list_cmp_law l : Forall cmp_law l -> forall k ty s t,
  ordered_type ty = true -> forallb (fun v => matches_type v ty) l = true ->
  forallb (fun v => matches_type v ty) k = true ->
  forallb value_ok l = true -> forallb value_ok k = true ->
  lex_compare ((flat_map (fun v => 1 :: encode_value v) l ++ [0]) ++ s)
    ((flat_map (fun v => 1 :: encode_value v) k ++ [0]) ++ t) =
  cmp_then (list_cmp value_compare l k) (lex_compare s t).
Proof.
  induction 1 as [|a l Ha _ IH]; intros [|b k] ty s t Hty Hl Hk Hol Hok; simpl; try done.
  simpl in *. ok_hyps. rewrite <- !app_assoc.
  rewrite (Ha b ty) by done. rewrite !app_assoc. rewrite IH with (ty := ty) by done.
  by destruct (value_compare a b).
Qed.

(** Case analysis on the content of an optional value. *)
Ltac split_option :=
  repeat match goal with
  | H : match ?o with Some _ => _ | None => _ end = true |- _ => is_var o; destruct o
  end.

Lemma encode_value_cmp a : cmp_law a.
Proof.
  induction a using RowValue_ind'; intros b ty s1 s2 Hty Ha Hb Hoa Hob;
    destruct ty; simpl in Hty, Ha; try discriminate;
    destruct b; simpl in Hb; split_option; try discriminate; simpl in Hoa, Hob; ok_hyps; simpl.
  - by destruct v, v0.
  - by apply (signed_key_cmp 1); [lia| |].
  - by apply (signed_key_cmp 2); [lia| |].
  - by apply (signed_key_cmp 4); [lia| |].
  - by apply (signed_key_cmp 8); [lia| |].
  - done.
  - by apply (lex_compare_be_bytes 2).
  - by apply (lex_compare_be_bytes 4).
  - by apply (lex_compare_be_bytes 8).
  - by apply (float_key_cmp 4); [lia| |].
  - by apply (float_key_cmp 8); [lia| |].
  - by apply encode_terminated_cmp.
  - by apply encode_terminated_cmp.
  - by apply encode_terminated_cmp.
  - apply fixed_bytes_cmp. congruence.
  - by apply (lex_compare_be_bytes 16).
  - by apply (lex_compare_be_bytes 8).
  - by apply (signed_key_cmp 8); [lia| |].
  - apply fixed_bytes_cmp. congruence.
  - done.
  - done.
  - by apply (IHa _ ty).
  - done.
  - by apply (list_cmp_law _ H _ ty).
Qed.

(** ** The natural order is a total order on each column type *)

Lemma total_order_key_inj w a b : 0 < w -> u_ok w a -> u_ok w b ->
  total_order_key w a = total_order_key w b -> a = b.
Proof.
  intros Hw [??] [??]. unfold total_order_key. pose proof (SIGN_pos w Hw).
  destruct (Z.ltb_spec a (SIGN w)), (Z.ltb_spec b (SIGN w)); lia.
Qed.

Definition eq_law (a : RowValue.t) : Prop := forall b ty,
  ordered_type ty = true -> matches_type a ty = true -> matches_type b ty = true ->
  value_ok a = true -> value_ok b = true -> value_compare a b = Eq <-> a = b.

Lemma list_eq_law l : Forall eq_law l -> forall k ty,
  ordered_type ty = true -> forallb (fun v => matches_type v ty) l = true ->
  forallb (fun v => matches_type v ty) k = true ->
  forallb value_ok l = true -> forallb value_ok k = true ->
  list_cmp value_compare l k = Eq <-> l = k.
Proof.
  induction 1 as [|a l Ha _ IH]; intros [|b k] ty Hty Hl Hk Hol Hok; simpl;
    try (split; congruence).
  simpl in *. ok_hyps. assert (value_compare a b = Eq <-> a = b) as Hab by by apply (Ha b ty).
  assert (list_cmp value_compare l k = Eq <-> l = k) as Hlk by by apply (IH k ty).
  destruct (value_compare a b); simpl; naive_solver.
Qed.

Lemma value_compare_eq a : eq_law a.
Proof.
  assert (forall x y : Z, (x ?= y) = Eq <-> x = y) as HZ by (intros; apply Z.compare_eq_iff).
  assert (forall x y : list Z, lex_compare x y = Eq <-> x = y) as HL by (intros; exact (@kcmp_eq _ bytes_ord x y)).
  induction a using RowValue_ind'; intros b ty Hty Ha Hb Hoa Hob;
    destruct ty; simpl in Hty, Ha; try discriminate;
    destruct b; simpl in Hb; split_option; try discriminate; simpl in Hoa, Hob; ok_hyps; simpl;
    rewrite ?HZ, ?HL; try (split; congruence).
  - destruct v, v0; simpl; split; congruence.
  - split; [intros E|congruence]. f_equal. by apply (total_order_key_inj 32) in E.
  - split; [intros E|congruence]. f_equal. by apply (total_order_key_inj 64) in E.
  - rewrite (IHa _ ty) by done. split; congruence.
  - rewrite (list_eq_law _ H _ ty) by done. split; congruence.
Qed.

(** ** Composite keys *)

(** The values of the columns [tys] of an index. *)
Definition typed (tys : list FluxType.t) (vs : list RowValue.t) : Prop :=
  Forall2 (fun v ty => matches_type v ty = true /\ value_ok v = true) vs tys.

Definition encode_values (vs : list RowValue.t) : list Z := flat_map encode_value vs.

Lemma encode_values_cmp tys : forallb ordered_type tys = true -> forall a b s t,
  typed tys a -> typed tys b ->
  lex_compare (encode_values a ++ s) (encode_values b ++ t) =
  cmp_then (list_cmp value_compare a b) (lex_compare s t).
Proof.
  induction tys as [|ty tys IH]; simpl; intros Ho a b s t Ha Hb;
    inversion Ha as [|va ? a' ? [??] Ha']; inversion Hb as [|vb ? b' ? [??] Hb']; subst; [done|].
  apply andb_true_iff in Ho as [Hty Ho]. simpl. rewrite <- !app_assoc.
  rewrite (encode_value_cmp va vb ty) by done. rewrite (IH Ho a' b') by done.
  by destruct (value_compare va vb).
Qed.

Lemma list_cmp_eq tys : forallb ordered_type tys = true -> forall a b,
  typed tys a -> typed tys b -> list_cmp value_compare a b = Eq <-> a = b.
Proof.
  induction tys as [|ty tys IH]; simpl; intros Ho a b Ha Hb;
    inversion Ha as [|va ? a' ? [??] Ha']; inversion Hb as [|vb ? b' ? [??] Hb']; subst; [done|].
  apply andb_true_iff in Ho as [Hty Ho]. simpl.
  assert (value_compare va vb = Eq <-> va = vb) as Hv by by apply (value_compare_eq va vb ty).
  assert (list_cmp value_compare a' b' = Eq <-> a' = b') as Hl by by apply IH.
  destruct (value_compare va vb); simpl; naive_solver.
Qed.

Lemma key_of_encode os : forall vs ks, Forall2 (fun o v => vs !! o = Some v) os ks ->
  key_of os vs = Ok (encode_values ks).
Proof.
  induction os as [|o os IH]; intros vs ks Hk; inversion Hk as [|? v ? ks' Hv Hks]; subst; [done|].
  simpl. rewrite Hv, (IH _ _ Hks). done.
Qed.

(** * Exactness of the range planner *)

Lemma pop_ff_app r x : pop_ff (r ++ [x]) =
  match pop_ff r with [] => if x =? 255 then [] else [x] | b :: r' => (b :: r') ++ [x] end.
Proof. induction r as [|b r IH]; simpl; [done|]. by destruct (b =? 255). Qed.

Lemma prefix_successor_cons x p : prefix_successor (x :: p) =
  match prefix_successor p with
  | Some s => Some (x :: s)
  | None => if x =? 255 then None else Some [x + 1]
  end.
Proof.
  unfold prefix_successor. rewrite reverse_cons, pop_ff_app.
  destruct (pop_ff (reverse p)) as [|b r]; simpl.
  - destruct (x =? 255); done.
  - f_equal. by rewrite !reverse_cons, reverse_app.
Qed.

Lemma key_lt_cons (x y : Z) p q : key_lt (x :: p) (y :: q) <-> x < y \/ x = y /\ key_lt p q.
Proof.
  unfold key_lt. simpl. destruct (Z.compare_spec x y); simpl; split; naive_solver lia.
Qed.

Lemma prefix_cons_iff (x y : Z) p q : x :: p `prefix_of` y :: q <-> x = y /\ p `prefix_of` q.
Proof.
  split; [|intros [-> ?]; by apply prefix_cons].
  intros H. split; [by apply prefix_cons_inv_1 in H|by apply prefix_cons_inv_2 in H].
Qed.

Lemma key_lt_nil_r (p : list Z) : ~ key_lt p [].
Proof. by destruct p. Qed.
Lemma key_lt_nil_l (x : Z) p : key_lt [] (x :: p).
Proof. done. Qed.
Lemma prefix_cons_nil (x : Z) p : ~ x :: p `prefix_of` [].
Proof. by intros ?%prefix_nil_not. Qed.

Lemma prefix_successor_spec p k : bytes_ok k ->
  match prefix_successor p with
  | Some s => key_lt k s <-> key_lt k p \/ p `prefix_of` k
  | None => key_lt k p \/ p `prefix_of` k
  end.
Proof.
  intros Hk. revert p. induction Hk as [|z k Hz _ IH]; intros [|x p].
  - right. apply prefix_nil.
  - rewrite prefix_successor_cons.
    destruct (prefix_successor p); [|destruct (x =? 255)];
      pose proof (key_lt_nil_l x p); first [by left | split; [by left|done]].
  - right. apply prefix_nil.
  - rewrite prefix_successor_cons. specialize (IH p). unfold byte_ok in Hz.
    destruct (prefix_successor p) as [s|]; [|destruct (Z.eqb_spec x 255) as [->|]];
      rewrite ?key_lt_cons, ?prefix_cons_iff.
    + naive_solver.
    + destruct (Z.eq_dec z 255); naive_solver lia.
    + pose proof (key_lt_nil_r k). destruct (Z.eq_dec z x); naive_solver lia.
Qed.

Lemma between_prefix p : forall v k, key_le p k ->
  key_lt k (p ++ v) \/ p ++ v `prefix_of` k -> p `prefix_of` k.
Proof.
  induction p as [|x p IH]; intros v k; [intros; apply prefix_nil|].
  destruct k as [|z k]; [done|].
  rewrite <- key_not_lt. simpl. rewrite !key_lt_cons, !prefix_cons_iff.
  intros Hn H. assert (z = x) as -> by lia. split; [done|].
  apply (IH v k); [|naive_solver lia]. apply key_not_lt. naive_solver.
Qed.

(** What the scan shape asks of a key. *)
Definition lower_ok (p : list Z) (lower : Bound (list Z)) (k : list Z) : Prop :=
  match lower with
  | Unbounded => True
  | Included v => key_le (p ++ v) k
  | Excluded v => key_le (p ++ v) k /\ ~ p ++ v `prefix_of` k
  end.
Definition upper_ok (p : list Z) (upper : Bound (list Z)) (k : list Z) : Prop :=
  match upper with
  | Unbounded => True
  | Included v => key_lt k (p ++ v) \/ p ++ v `prefix_of` k
  | Excluded v => key_lt k (p ++ v)
  end.

Definition scan_start (p : list Z) (lower : Bound (list Z)) : option (list Z) :=
  match lower with
  | Unbounded => Some p
  | Included v => Some (p ++ v)
  | Excluded v => prefix_successor (p ++ v)
  end.
Definition scan_end (p : list Z) (upper : Bound (list Z)) : option (list Z) :=
  match upper with
  | Unbounded => prefix_successor p
  | Included v => prefix_successor (p ++ v)
  | Excluded v => Some (p ++ v)
  end.

Lemma key_le_app_l (p v k : list Z) : key_le (p ++ v) k -> key_le p k.
Proof. intros. etrans; [|done]. apply lex_compare_prefix. by apply prefix_app_r. Qed.

Lemma scan_start_spec p lower k : bytes_ok k ->
  match scan_start p lower with Some s => key_le s k | None => False end <->
  key_le p k /\ lower_ok p lower k.
Proof.
  intros Hk. destruct lower as [|v|v]; simpl.
  - naive_solver.
  - split; [|naive_solver]. intros H. split; [by apply key_le_app_l in H|done].
  - pose proof (prefix_successor_spec (p ++ v) k Hk) as Hs.
    pose proof (key_le_app_l p v k).
    destruct (prefix_successor (p ++ v)) as [s|].
    + rewrite <- (key_not_lt k s), Hs, <- (key_not_lt k (p ++ v)) in *. naive_solver.
    + rewrite <- (key_not_lt k (p ++ v)) in *. naive_solver.
Qed.

Lemma scan_end_spec p upper k : bytes_ok k -> key_le p k ->
  match scan_end p upper with Some e => key_lt k e | None => True end <->
  p `prefix_of` k /\ upper_ok p upper k.
Proof.
  intros Hk Hp. pose proof (proj2 (key_not_lt k p) Hp) as Hnp.
  destruct upper as [|v|v]; simpl.
  - pose proof (prefix_successor_spec p k Hk) as Hs.
    destruct (prefix_successor p); naive_solver.
  - pose proof (prefix_successor_spec (p ++ v) k Hk) as Hs.
    pose proof (between_prefix p v k Hp). destruct (prefix_successor (p ++ v)); naive_solver.
  - pose proof (between_prefix p v k Hp). naive_solver.
Qed.

Lemma plan_scan_spec p lower upper k : bytes_ok k ->
  in_range (plan_scan p lower upper) k <->
  p `prefix_of` k /\ lower_ok p lower k /\ upper_ok p upper k.
Proof.
  intros Hk. transitivity
    (match scan_start p lower with Some s => key_le s k | None => False end /\
     match scan_end p upper with Some e => key_lt k e | None => True end).
  - assert (~ in_range ([], Some []) k) as Hempty by (intros [_ []%key_lt_nil_r]).
    unfold plan_scan. fold (scan_start p lower) (scan_end p upper).
    destruct (scan_start p lower) as [st|]; [|naive_solver].
    destruct (scan_end p upper) as [e|]; [|done].
    case_decide as Hle; [|done]. split; [done|]. intros [H1 H2]. exfalso.
    apply (key_lt_irrefl k). eapply key_lt_le_trans; [done|]. by etrans.
  - rewrite scan_start_spec by done. pose proof (scan_end_spec p upper k Hk).
    pose proof (lex_compare_prefix p k). naive_solver.
Qed.

(** ** Scans over typed columns *)

Lemma encode_terminated_ok b : bytes_ok b -> bytes_ok (encode_terminated b).
Proof.
  assert (byte_ok 0 /\ byte_ok 255) as [? ?] by (unfold byte_ok; lia).
  pose proof bytes_ok_nil as Hnil.
  induction 1 as [|x b Hx _ IH]; simpl; [by rewrite !bytes_ok_cons|].
  destruct (x =? 0); simpl; by rewrite !bytes_ok_cons.
Qed.

Lemma flat_map_bytes_ok {A} (f : A -> list Z) l :
  Forall (fun x => bytes_ok (f x)) l -> bytes_ok (flat_map f l).
Proof. induction 1; simpl; [constructor|]. by apply bytes_ok_app. Qed.

Lemma Forall_forallb_ok (P : RowValue.t -> Prop) l :
  Forall (fun v => value_ok v = true -> P v) l -> forallb value_ok l = true -> Forall P l.
Proof. induction 1; simpl; [constructor|]. intros [??]%andb_true_iff. constructor; auto. Qed.

Lemma encode_value_bytes_ok v : value_ok v = true -> bytes_ok (encode_value v).
Proof.
  assert (byte_ok 0 /\ byte_ok 1) as [Hb0 Hb1] by (unfold byte_ok; lia).
  pose proof bytes_ok_nil as Hnil.
  induction v using RowValue_ind'; cbn [encode_value value_ok]; intros Hok; ok_hyps;
    try (apply be_bytes_ok || by apply encode_terminated_ok || done).
  - destruct v; by apply bytes_ok_cons.
  - by apply bytes_ok_cons.
  - rewrite bytes_ok_app; split; [apply be_bytes_ok|]. by apply bytes_ok_cons.
  - by apply bytes_ok_cons.
  - rewrite bytes_ok_cons. auto.
  - rewrite bytes_ok_app; split; [|by apply bytes_ok_cons].
    apply flat_map_bytes_ok. apply Forall_forallb_ok; [|done].
    apply (List.Forall_impl _ (P := fun v => value_ok v = true -> bytes_ok (encode_value v))); [|done].
    intros v Hv Hokv. apply bytes_ok_cons. auto.
  - rewrite bytes_ok_app; split; [apply be_bytes_ok|]. by apply flat_map_bytes_ok, Forall_forallb_ok.
  - by apply flat_map_bytes_ok, Forall_forallb_ok.
Qed.

Lemma encode_values_bytes_ok tys vs : typed tys vs -> bytes_ok (encode_values vs).
Proof.
  induction 1 as [|v ty vs tys [_ Hv] _ IH]; simpl; [constructor|].
  apply bytes_ok_app. by split; [apply encode_value_bytes_ok|].
Qed.

(** Prefix-freedom of composite keys. *)
Lemma encode_values_prefix tys a b s : forallb ordered_type tys = true ->
  typed tys a -> typed tys b -> encode_values a `prefix_of` encode_values b ++ s <-> a = b.
Proof.
  intros Ho Ha Hb. split; [|intros ->; by apply prefix_app_r].
  intros [k E]. apply (list_cmp_eq tys Ho a b Ha Hb).
  pose proof (encode_values_cmp tys Ho a b k s Ha Hb) as C. rewrite E in C.
  rewrite (proj2 (@kcmp_eq _ bytes_ord _ _) eq_refl) in C.
  by destruct (list_cmp value_compare a b).
Qed.

Definition bound_map {A B} (f : A -> B) (b : Bound A) : Bound B :=
  match b with Unbounded => Unbounded | Included a => Included (f a) | Excluded a => Excluded (f a) end.

Definition bound_typed (ty : FluxType.t) (b : Bound RowValue.t) : Prop :=
  match b with Unbounded => True | Included v | Excluded v => typed [ty] [v] end.

(** The bounds of the scan, on values. *)
Definition above (lower : Bound RowValue.t) (x : RowValue.t) : Prop :=
  match lower with
  | Unbounded => True
  | Included v => value_compare v x <> Gt
  | Excluded v => value_compare v x = Lt
  end.
Definition below (upper : Bound RowValue.t) (x : RowValue.t) : Prop :=
  match upper with
  | Unbounded => True
  | Included v => value_compare x v <> Gt
  | Excluded v => value_compare x v = Lt
  end.

Section scan_columns.
Context (ty : FluxType.t) (Hty : ordered_type ty = true).
Context (p rest : list Z) (x v : RowValue.t).
Context (Hx : typed [ty] [x]) (Hv : typed [ty] [v]).

Local Lemma scan_cmp : lex_compare (p ++ encode_value v) (p ++ encode_value x ++ rest) =
  cmp_then (value_compare v x) (lex_compare [] rest).
Proof using Hty Hv Hx.
  inversion Hx as [|???? [??]]; inversion Hv as [|???? [??]]; subst.
  rewrite lex_compare_app_same, <- (app_nil_r (encode_value v)).
  by apply (encode_value_cmp _ _ ty).
Qed.

Local Lemma scan_cmp_rev : lex_compare (p ++ encode_value x ++ rest) (p ++ encode_value v) =
  cmp_then (value_compare x v) (lex_compare rest []).
Proof using Hty Hv Hx.
  inversion Hx as [|???? [??]]; inversion Hv as [|???? [??]]; subst.
  rewrite lex_compare_app_same, <- (app_nil_r (encode_value v)).
  by apply (encode_value_cmp _ _ ty).
Qed.

Local Lemma scan_prefix : p ++ encode_value v `prefix_of` p ++ encode_value x ++ rest <->
  value_compare v x = Eq.
Proof using Hty Hv Hx.
  assert (forallb ordered_type [ty] = true) as Ho by (simpl; by rewrite Hty).
  pose proof (encode_values_prefix [ty] [v] [x] rest Ho Hv Hx) as E.
  inversion Hx as [|???? [??]]; inversion Hv as [|???? [??]]; subst.
  rewrite (value_compare_eq v x ty) by done.
  simpl in E. rewrite !app_nil_r in E.
  split; [intros Hp%prefix_app_inv|intros ->; apply prefix_app; by apply prefix_app_r].
  apply E in Hp. congruence.
Qed.
End scan_columns.

Lemma lower_ok_value ty p lower x rest : ordered_type ty = true -> typed [ty] [x] ->
  bound_typed ty lower ->
  lower_ok p (bound_map encode_value lower) (p ++ encode_value x ++ rest) <-> above lower x.
Proof.
  intros Hty Hx Hl. destruct lower as [|v|v]; simpl in *; [done| |]; unfold key_le; simpl kcmp;
    rewrite (scan_cmp ty), ?(scan_prefix ty) by done;
    destruct (value_compare v x), rest; simpl; naive_solver.
Qed.

Lemma upper_ok_value ty p upper x rest : ordered_type ty = true -> typed [ty] [x] ->
  bound_typed ty upper ->
  upper_ok p (bound_map encode_value upper) (p ++ encode_value x ++ rest) <-> below upper x.
Proof.
  intros Hty Hx Hl. destruct upper as [|v|v]; simpl in *; [done| |]; unfold key_lt; simpl kcmp.
  - assert (value_compare v x = Eq <-> value_compare x v = Eq) as Hsym.
    { inversion Hx as [|???? [??]]; inversion Hl as [|???? [??]]; subst.
      rewrite (value_compare_eq v x ty), (value_compare_eq x v ty) by done. naive_solver. }
    rewrite (scan_cmp_rev ty), (scan_prefix ty), Hsym by done.
    destruct (value_compare x v), rest; simpl; naive_solver.
  - rewrite (scan_cmp_rev ty) by done. destruct (value_compare x v), rest; simpl; naive_solver.
Qed.

(** The range of a planned scan, on values. *)
Lemma plan_scan_values tys ty ps qs x lower upper rest :
  forallb ordered_type tys = true -> ordered_type ty = true ->
  typed tys ps -> typed tys qs -> typed [ty] [x] ->
  bound_typed ty lower -> bound_typed ty upper -> bytes_ok rest ->
  in_range (plan_scan (encode_values ps) (bound_map encode_value lower) (bound_map encode_value upper))
    (encode_values qs ++ encode_value x ++ rest) <->
  qs = ps /\ above lower x /\ below upper x.
Proof.
  intros Ho Hty Hps Hqs Hx Hl Hu Hr. rewrite plan_scan_spec.
  - rewrite (encode_values_prefix tys) by done. split; intros (-> & H); (split; [done|]);
      rewrite (lower_ok_value ty), (upper_ok_value ty) in * by done; done.
  - pose proof (encode_values_bytes_ok [ty] [x] Hx) as Hxb. simpl in Hxb. rewrite app_nil_r in Hxb.
    pose proof (encode_values_bytes_ok tys qs Hqs). by rewrite !bytes_ok_app.
Qed.

(** * Properties *)

(** index entries sort by the column values in declared order and then by
    encoded primary key: the byte order of two entry keys is the
    lexicographic order of the indexed values, then of the primary keys. *)
Theorem entry_key_order os tys r1 r2 vs1 vs2 pk1 pk2 :
  forallb ordered_type tys = true ->
  Forall2 (fun o v => r1 !! o = Some v) os vs1 -> Forall2 (fun o v => r2 !! o = Some v) os vs2 ->
  typed tys vs1 -> typed tys vs2 ->
  exists e1 e2, entry_key os r1 pk1 = Ok e1 /\ entry_key os r2 pk2 = Ok e2 /\
    kcmp e1 e2 = cmp_then (list_cmp value_compare vs1 vs2) (kcmp pk1 pk2).
Proof.
  intros Ho H1 H2 Ht1 Ht2. unfold entry_key.
  rewrite (key_of_encode _ _ _ H1), (key_of_encode _ _ _ H2). simpl.
  eexists _, _. split_and!; [done..|]. by apply (encode_values_cmp tys).
Qed.

(** A planned scan is exact: over the entries of an index, the byte range
    [plan_scan] computes for an equality prefix [ps] and bounds on the next
    column contains exactly the entries whose prefix columns equal [ps] and
    whose next column satisfies both bounds, whatever follows. *)
Theorem plan_scan_exact tys ty ps qs x lower upper rest :
  forallb ordered_type tys = true -> ordered_type ty = true ->
  typed tys ps -> typed tys qs -> typed [ty] [x] ->
  bound_typed ty lower -> bound_typed ty upper -> bytes_ok rest ->
  in_range (plan_scan (encode_values ps) (bound_map encode_value lower) (bound_map encode_value upper))
    (encode_values qs ++ encode_value x ++ rest) <->
  qs = ps /\ above lower x /\ below upper x.
Proof. apply plan_scan_values. Qed.

(** * Witnesses: an index on (string, signed integer) *)

Definition tag_score : list FluxType.t := [FluxType.Str; FluxType.I32].
Definition entry_a : list RowValue.t := [RowValue.Str [97; 0]; RowValue.I32 (-5)].
Definition entry_b : list RowValue.t := [RowValue.Str [97; 0]; RowValue.I32 3].

Lemma entry_key_order_witness :
  exists e1 e2, entry_key [0; 1]%nat entry_a [1] = Ok e1 /\ entry_key [0; 1]%nat entry_b [0] = Ok e2 /\
    kcmp e1 e2 = cmp_then (list_cmp value_compare entry_a entry_b) (kcmp [1] [0]).
Proof.
  apply (entry_key_order [0; 1]%nat tag_score entry_a entry_b entry_a entry_b [1] [0]);
    [reflexivity| | | |]; repeat constructor.
Defined.

Lemma plan_scan_exact_witness :
  in_range (plan_scan (encode_values [RowValue.Str [97; 0]])
      (Included (encode_value (RowValue.I32 (-5)))) (Excluded (encode_value (RowValue.I32 3))))
    (encode_values [RowValue.Str [97; 0]] ++ encode_value (RowValue.I32 2) ++ [42]).
Proof.
  apply (plan_scan_exact [FluxType.Str] FluxType.I32 [RowValue.Str [97; 0]] [RowValue.Str [97; 0]]
    (RowValue.I32 2) (Included (RowValue.I32 (-5))) (Excluded (RowValue.I32 3)) [42]);
    try reflexivity; repeat constructor; discriminate.
Defined.
