(* ===== verification/Ieee.v ===== *)
(** IEEE 754 numbers as bit patterns: the comparisons and conversions of [f32]
    and [f64] that the query layer uses.

    A float is a [w]-bit word ([w] is 32 or 64). Rounding is the Standard
    Library's [SpecFloat]; a decimal literal is the correctly rounded quotient
    of two integers, and the text of a number is the shortest decimal that
    reads back. *)

From stdpp Require Import base list numbers.
From Stdlib Require Import ZArith Lia SpecFloat.
From S2P Require Import Prelude FluxBin Row IndexKey.

(** * Bit patterns *)

Definition mantissa_bits (w : Z) : Z := if w =? 32 then 23 else 52.
Definition exponent_bits (w : Z) : Z := w - 1 - mantissa_bits w.

(** Every bit but the sign. *)
Definition magnitude (w bits : Z) : Z := bits mod SIGN w.
Definition negative (w bits : Z) : bool := SIGN w <=? bits.
Definition infinity (w : Z) : Z := (2 ^ exponent_bits w - 1) * 2 ^ mantissa_bits w.

Definition is_nan (w bits : Z) : bool := infinity w <? magnitude w bits.
Definition is_finite (w bits : Z) : bool := magnitude w bits <? infinity w.
Definition is_zero (w bits : Z) : bool := magnitude w bits =? 0.

(** [f32::partial_cmp], [f64::partial_cmp]. *)
Definition partial_cmp (w x y : Z) : option comparison :=
  if is_nan w x || is_nan w y then None
  else if is_zero w x && is_zero w y then Some Eq
  else Some (total_order_key w x ?= total_order_key w y).

(** * Conversions *)

Definition prec (w : Z) : Z := mantissa_bits w + 1.
Definition emax (w : Z) : Z := 2 ^ (exponent_bits w - 1).
Definition emin_of (w : Z) : Z := emin (prec w) (emax w).

Definition sign_bit (w : Z) (s : bool) : Z := if s then SIGN w else 0.

Definition bits_of (w : Z) (f : spec_float) : Z :=
  match f with
  | S754_zero s => sign_bit w s
  | S754_infinity s => sign_bit w s + infinity w
  | S754_nan => infinity w + 2 ^ (mantissa_bits w - 1)
  | S754_finite s m e =>
      sign_bit w s +
      (if Zpos m <? 2 ^ mantissa_bits w then Zpos m
       else (e - emin_of w + 1) * 2 ^ mantissa_bits w + (Zpos m - 2 ^ mantissa_bits w))
  end.

Definition float_of (w bits : Z) : spec_float :=
  let s := negative w bits in
  let e := magnitude w bits / 2 ^ mantissa_bits w in
  let m := magnitude w bits mod 2 ^ mantissa_bits w in
  if e =? 2 ^ exponent_bits w - 1 then (if m =? 0 then S754_infinity s else S754_nan)
  else if e =? 0 then (match m with Zpos p => S754_finite s p (emin_of w) | _ => S754_zero s end)
  else match m + 2 ^ mantissa_bits w with
    | Zpos p => S754_finite s p (e + emin_of w - 1)
    | _ => S754_zero s
    end.

(** [n as f32], [n as f64] for an integer [n]. *)
Definition float_of_Z (w n : Z) : Z := bits_of w (binary_normalize (prec w) (emax w) n 0 false).

(** [x as f32] for an [f64]. *)
Definition f32_of_f64 (bits : Z) : Z :=
  bits_of 32 (match float_of 64 bits with
    | S754_finite s m e => binary_normalize (prec 32) (emax 32) (cond_Zopp s (Zpos m)) e s
    | f => f
    end).

(** [text.parse::<f64>()] of an optional minus sign and [digits / 10^scale]. *)
Definition parse_f64 (neg : bool) (digits scale : Z) : Z :=
  bits_of 64 (match digits, 10 ^ scale with
    | Zpos d, Zpos t => SFdiv (prec 64) (emax 64) (S754_finite neg d 0) (S754_finite false t 0)
    | _, _ => S754_zero neg
    end).

(** * Decimal text *)

(** The [n] low decimal digits of a number, most significant first. *)
Fixpoint digits_fixed (n : nat) (z : Z) (acc : list Z) : list Z :=
  match n with
  | O => acc
  | S n => digits_fixed n (z / 10) (48 + z mod 10 :: acc)
  end.

(** Decimal digits of a natural number; [fuel] bounds their count. *)
Fixpoint digits_upto (fuel : nat) (z : Z) (acc : list Z) : list Z :=
  match fuel with
  | O => acc
  | S fuel => let acc := 48 + z mod 10 :: acc in if z <? 10 then acc else digits_upto fuel (z / 10) acc
  end.

(** [Display] of an integer: a number [z] has at most [log2 z + 1] digits. *)
Definition show_Z (z : Z) : list Z :=
  if z <? 0 then 45 :: digits_upto (S (Z.to_nat (Z.log2 (- z)))) (- z) []
  else digits_upto (S (Z.to_nat (Z.log2 z))) z [].

(** The text of [d * 10^k], without an exponent. *)
Definition show_decimal (d k : Z) : list Z :=
  if 0 <=? k then show_Z (d * 10 ^ k)
  else show_Z (d / 10 ^ (- k)) ++ 46 :: digits_fixed (Z.to_nat (- k)) (d mod 10 ^ (- k)) [].

(** The value [num / den] scaled by a power of ten, rounded down and up. *)
Definition scaled (num den k : Z) : Z * Z :=
  let '(n, d) := if 0 <=? k then (num, den * 10 ^ k) else (num * 10 ^ (- k), den) in (n, d).

Definition read_decimal (d k : Z) : Z :=
  if 0 <=? k then parse_f64 false (d * 10 ^ k) 0 else parse_f64 false d (- k).

(** Shortest digits that read back to [mag]: the candidates with [n] digits are
    the two neighbours of the value at that precision, the nearer one first. *)
Fixpoint shortest (fuel : nat) (mag num den k : Z) : Z * Z :=
  let '(n, d) := scaled num den k in
  let lo := n / d in
  let near := if 2 * (n mod d) <=? d then lo else lo + 1 in
  let far := if 2 * (n mod d) <=? d then lo + 1 else lo in
  match fuel with
  | O => (near, k)
  | S fuel =>
      if read_decimal near k =? mag then (near, k)
      else if read_decimal far k =? mag then (far, k)
      else shortest fuel mag num den (k - 1)
  end.

(** Trailing zeros of the digits move into the exponent. *)
Fixpoint strip_zeros (fuel : nat) (d k : Z) : Z * Z :=
  match fuel with
  | O => (d, k)
  | S fuel => if (d mod 10 =? 0) && (0 <? d) then strip_zeros fuel (d / 10) (k + 1) else (d, k)
  end.

(** [Display] of an [f64]. Seventeen digits always read back. *)
Definition show_f64 (bits : Z) : list Z :=
  let mag := magnitude 64 bits in
  let body :=
    match float_of 64 mag with
    | S754_zero _ => [48]
    | S754_infinity _ => [105; 110; 102]
    | S754_nan => [78; 97; 78]
    | S754_finite _ m e =>
        let '(num, den) := if 0 <=? e then (Zpos m * 2 ^ e, 1) else (Zpos m, 2 ^ (- e)) in
        let k := (Z.log2 num - Z.log2 den) * 30103 / 100000 in
        let '(d, k) := shortest 19 mag num den (k + 1) in
        let '(d, k) := strip_zeros 20 d k in
        show_decimal d k
    end in
  if is_nan 64 bits then body else if negative 64 bits then 45 :: body else body.

(** * Values without surprises *)

(** A value the equality of row values and the byte order treat alike: no NaN
    and no negative zero inside. *)
Definition plain_float (w bits : Z) : bool := negb (is_nan w bits) && negb (bits =? SIGN w).

Fixpoint plain (v : RowValue.t) : bool :=
  match v with
  | RowValue.F32 x => plain_float 32 x
  | RowValue.F64 x => plain_float 64 x
  | RowValue.Optional (Some x) => plain x
  | RowValue.List l => forallb plain l
  | RowValue.Enum _ l => forallb plain l
  | RowValue.Struct l => forallb plain l
  | _ => true
  end.
