(* ===== verification/Types.v ===== *)
(** Identifier and number newtypes of [crates/fluxum-core/src/types.rs]: the hex
    form of identities and blob references, and the numeric comparison and the
    text form of [Decimal].

    Main results: the hex form parses back to the identity it prints;
    [value_cmp] is the exact numeric order except in one corner (a zero
    coefficient whose lift overflows), which is exhibited; and the text of a
    decimal determines it. *)

From stdpp Require Import base list numbers.
From Stdlib Require Import ZArith Lia.
From S2P Require Import Prelude FluxBin.

(** * Hex text *)

(** One lowercase hex digit, as its ASCII code. *)
Definition hex_digit (n : Z) : Z := if n <? 10 then 48 + n else 87 + n.

(** [char::to_digit(16)]. *)
Definition to_digit16 (c : Z) : option Z :=
  if (48 <=? c) && (c <=? 57) then Some (c - 48)
  else if (97 <=? c) && (c <=? 102) then Some (c - 87)
  else if (65 <=? c) && (c <=? 70) then Some (c - 55)
  else None.

(** [u8::from_str_radix(_, 16)] on two bytes: a leading [+] is a sign. *)
Definition from_str_radix16 (a b : Z) : option Z :=
  if a =? 43 then to_digit16 b
  else match to_digit16 a, to_digit16 b with
       | Some x, Some y => Some (16 * x + y)
       | _, _ => None
       end.

(** [write!(f, "{byte:02x}")] for every byte. *)
Definition hex_fmt (bytes : list Z) : list Z :=
  flat_map (fun byte => [hex_digit (byte / 16); hex_digit (byte mod 16)]) bytes.

Module Identity.
Inductive FromStrError : Type :=
  | BadLength (len : Z)
  | NotAsciiHex
  | InvalidHexByte.

Fixpoint parse_pairs (s : list Z) : result FromStrError (list Z) :=
  match s with
  | a :: b :: s =>
      if utf8_valid [a; b] then
        match from_str_radix16 a b with
        | Some v => parse_pairs s ≫= fun vs => Ok (v :: vs)
        | None => Err InvalidHexByte
        end
      else Err NotAsciiHex
  | _ => Ok []
  end.

Definition from_str (s : list Z) : result FromStrError (list Z) :=
  if blen s =? 64 then parse_pairs s else Err (BadLength (blen s)).

Definition fmt (id : list Z) : list Z := hex_fmt id.
End Identity.

Module BlobRef.
Fixpoint parse_chunks (text : list Z) : option (list Z) :=
  match text with
  | a :: b :: text =>
      if utf8_valid [a; b] then
        match from_str_radix16 a b with
        | Some v => parse_chunks text ≫= fun vs => Some (v :: vs)
        | None => None
        end
      else None
  | _ => Some []
  end.

Definition parse (text : list Z) : option (list Z) :=
  if negb (blen text =? 64) then None else parse_chunks text.

Definition fmt (blob : list Z) : list Z := hex_fmt blob.
End BlobRef.

(** * Decimals *)

Definition i128_checked (z : Z) : option Z :=
  if decide (i_ok 128 z) then Some z else None.

(** [10i128.checked_pow(n)]. *)
Definition pow10_i128 (n : Z) : option Z := i128_checked (10 ^ n).

Definition sign_ordering (v : Z) : comparison := v ?= 0.

Module Decimal.
Record t : Type := from_parts { unscaled : Z; scale : Z }.

Definition from_integer (value : Z) : t := from_parts value 0.

Definition lift (max_scale : Z) (v : t) : option Z :=
  pow10_i128 (max_scale - scale v) ≫= fun p => i128_checked (unscaled v * p).

Definition value_cmp (a b : t) : comparison :=
  if scale a =? scale b then unscaled a ?= unscaled b
  else
    let max_scale := Z.max (scale a) (scale b) in
    match lift max_scale a, lift max_scale b with
    | Some x, Some y => x ?= y
    | None, Some _ => sign_ordering (unscaled a)
    | Some _, None => CompOpp (sign_ordering (unscaled b))
    | None, None => unscaled a ?= unscaled b
    end.

(** [u128::to_string]: decimal digits, most significant first. [39] digits
    are enough for 128 bits. *)
Fixpoint digits_rev (fuel : nat) (n : Z) : list Z :=
  match fuel with
  | O => []
  | S fuel => 48 + n mod 10 :: (if n / 10 =? 0 then [] else digits_rev fuel (n / 10))
  end.
Definition to_string (n : Z) : list Z := reverse (digits_rev 39 n).

(** [Display]: 45 is the minus sign, 46 the point, 48 the digit zero. *)
Definition fmt (d : t) : list Z :=
  let sc := Z.to_nat (scale d) in
  let digits := to_string (Z.abs (unscaled d)) in
  let sign := if unscaled d <? 0 then [45] else [] in
  if scale d =? 0 then sign ++ digits
  else if (sc <? length digits)%nat then
    let point := (length digits - sc)%nat in
    sign ++ firstn point digits ++ [46] ++ skipn point digits
  else sign ++ [48; 46] ++ replicate (sc - length digits) 48 ++ digits.

Definition ok (d : t) : Prop := i_ok 128 (unscaled d) /\ u_ok 8 (scale d).

(** The value of [d] times [10^255]: an integer, since scales are bytes. *)
Definition value255 (d : t) : Z := unscaled d * 10 ^ (255 - scale d).
Definition numeric_cmp (a b : t) : comparison := value255 a ?= value255 b.

(** The corner the comparison misses: a zero whose scale is 39 or more below
    that of a nonzero number. *)
Definition zero_gap (a b : t) : Prop :=
  unscaled a = 0 /\ unscaled b <> 0 /\ 39 <= scale b - scale a.
End Decimal.

(** * Hex lemmas *)

Lemma to_digit16_hex_digit n : 0 <= n < 16 -> to_digit16 (hex_digit n) = Some n.
Proof.
  intros. unfold hex_digit, to_digit16.
  destruct (Z.ltb_spec n 10).
  - rewrite (proj2 (Z.leb_le 48 _)), (proj2 (Z.leb_le _ 57)) by lia. simpl. f_equal. lia.
  - rewrite (proj2 (Z.leb_gt (87 + n) 57)), andb_false_r by lia.
    rewrite (proj2 (Z.leb_le 97 _)), (proj2 (Z.leb_le _ 102)) by lia. simpl. f_equal. lia.
Qed.

Lemma hex_digit_bound n : 0 <= n < 16 -> 44 <= hex_digit n < 128.
Proof. intros. unfold hex_digit. destruct (Z.ltb_spec n 10); lia. Qed.

Lemma utf8_ascii2 a b : 44 <= a < 128 -> 44 <= b < 128 -> utf8_valid [a; b] = true.
Proof.
  intros. cbn. unfold utf8_valid. cbn.
  rewrite !(proj2 (Z.ltb_lt _ 128)) by lia. done.
Qed.

Lemma from_str_radix16_hex byte : byte_ok byte ->
  from_str_radix16 (hex_digit (byte / 16)) (hex_digit (byte mod 16)) = Some byte.
Proof.
  unfold byte_ok. intros H.
  assert (0 <= byte / 16 < 16) by (split; [apply Z.div_pos|apply Z.div_lt_upper_bound]; lia).
  pose proof (Z.mod_pos_bound byte 16). pose proof (hex_digit_bound (byte / 16)).
  unfold from_str_radix16. rewrite (proj2 (Z.eqb_neq _ 43)) by lia.
  rewrite !to_digit16_hex_digit by lia. f_equal. pose proof (Z.div_mod byte 16). lia.
Qed.

Lemma hex_fmt_cons b bs : hex_fmt (b :: bs) = hex_digit (b / 16) :: hex_digit (b mod 16) :: hex_fmt bs.
Proof. done. Qed.

Lemma hex_pair_valid b : byte_ok b -> utf8_valid [hex_digit (b / 16); hex_digit (b mod 16)] = true.
Proof.
  intros [H1 H2]. pose proof (Z.mod_pos_bound b 16). apply utf8_ascii2; apply hex_digit_bound; [|lia].
  split; [apply Z.div_pos|apply Z.div_lt_upper_bound]; lia.
Qed.

Lemma parse_pairs_hex_fmt bs : bytes_ok bs -> Identity.parse_pairs (hex_fmt bs) = Ok bs.
Proof.
  induction 1 as [|b bs Hb _ IH]; [done|]. rewrite hex_fmt_cons. cbn [Identity.parse_pairs].
  rewrite hex_pair_valid, from_str_radix16_hex, IH by done. done.
Qed.

Lemma parse_chunks_pairs s :
  BlobRef.parse_chunks s = match Identity.parse_pairs s with Ok v => Some v | Err _ => None end.
Proof.
  revert s. fix IH 1. intros [|a [|b s]]; [done|done|]. cbn [BlobRef.parse_chunks Identity.parse_pairs].
  destruct (utf8_valid [a; b]); [|done]. destruct (from_str_radix16 a b); [|done].
  rewrite IH. by destruct (Identity.parse_pairs s).
Qed.

Lemma length_hex_fmt bs : length (hex_fmt bs) = (2 * length bs)%nat.
Proof. induction bs as [|b bs IH]; [done|]. rewrite hex_fmt_cons. simpl. lia. Qed.

(** * Decimal lemmas *)

#[global] Instance zero_gap_dec a b : Decision (Decimal.zero_gap a b).
Proof. unfold Decimal.zero_gap. apply _. Defined.

Lemma i128_checked_Some z : i_ok 128 z -> i128_checked z = Some z.
Proof. intros. unfold i128_checked. by rewrite decide_True. Qed.

Lemma pow10_small d : 0 <= d <= 38 -> i_ok 128 (10 ^ d).
Proof.
  intros. split; [transitivity 0; [lia|apply Z.pow_nonneg; lia]|].
  apply Z.le_lt_trans with (10 ^ 38); [apply Z.pow_le_mono_r; lia|]. reflexivity.
Qed.

Lemma pow10_large d : 39 <= d -> 2 ^ 127 < 10 ^ d.
Proof.
  intros. apply Z.lt_le_trans with (10 ^ 39); [reflexivity|]. apply Z.pow_le_mono_r; lia.
Qed.

Lemma pow10_overflow d : 39 <= d -> pow10_i128 d = None.
Proof.
  intros H%pow10_large. unfold pow10_i128, i128_checked. apply decide_False.
  unfold i_ok. change (128 - 1) with 127. lia.
Qed.

(** Comparing across scales: the lifted coefficient, or its sign when the lift
    overflows. *)
Lemma lift_cmp ua ub d : 0 < d -> i_ok 128 ub -> ~ (ua = 0 /\ ub <> 0 /\ 39 <= d) ->
  match pow10_i128 d ≫= fun p => i128_checked (ua * p) with
  | Some x => x ?= ub
  | None => sign_ordering ua
  end = (ua * 10 ^ d ?= ub).
Proof.
  intros Hd Hb Hgap. unfold i_ok in Hb. change (128 - 1) with 127 in Hb.
  assert (0 < 10 ^ d) by (apply Z.pow_pos_nonneg; lia).
  unfold sign_ordering. destruct (Z.le_gt_cases d 38).
  - unfold pow10_i128. rewrite i128_checked_Some by (apply pow10_small; lia). simpl.
    unfold i128_checked. destruct (decide (i_ok 128 (ua * 10 ^ d))) as [|Hn]; [done|].
    unfold i_ok in Hn. change (128 - 1) with 127 in Hn.
    destruct (Z.compare_spec ua 0), (Z.compare_spec (ua * 10 ^ d) ub); (done || nia).
  - pose proof (pow10_large d ltac:(lia)).
    rewrite pow10_overflow by lia. simpl.
    destruct (Z.compare_spec ua 0), (Z.compare_spec (ua * 10 ^ d) ub); (done || nia).
Qed.

Lemma Zmult_compare_compat_r_pos n m p : 0 < p -> (n * p ?= m * p) = (n ?= m).
Proof. intros. destruct (Z.compare_spec n m), (Z.compare_spec (n * p) (m * p)); (done || nia). Qed.

Lemma numeric_cmp_lift a b : Decimal.ok b -> Decimal.scale a <= Decimal.scale b ->
  Decimal.numeric_cmp a b =
  (Decimal.unscaled a * 10 ^ (Decimal.scale b - Decimal.scale a) ?= Decimal.unscaled b).
Proof.
  intros [_ Hs] Hle. unfold u_ok in Hs. change (2 ^ 8) with 256 in Hs.
  unfold Decimal.numeric_cmp, Decimal.value255.
  replace (255 - Decimal.scale a) with ((Decimal.scale b - Decimal.scale a) + (255 - Decimal.scale b)) by lia.
  rewrite Z.pow_add_r, Z.mul_assoc by lia.
  apply Zmult_compare_compat_r_pos. apply Z.pow_pos_nonneg; lia.
Qed.

Lemma numeric_cmp_opp a b : Decimal.numeric_cmp b a = CompOpp (Decimal.numeric_cmp a b).
Proof. apply Z.compare_antisym. Qed.

Lemma lift_max b m : Decimal.ok b -> Decimal.scale b = m ->
  Decimal.lift m b = Some (Decimal.unscaled b).
Proof.
  intros [Hb _] <-. unfold Decimal.lift. rewrite Z.sub_diag. simpl. rewrite Z.mul_1_r.
  by apply i128_checked_Some.
Qed.

Lemma value_cmp_lt a b : Decimal.ok a -> Decimal.ok b -> Decimal.scale a < Decimal.scale b ->
  ~ Decimal.zero_gap a b -> Decimal.value_cmp a b = Decimal.numeric_cmp a b.
Proof.
  intros Ha Hb Hlt Hgap. unfold Decimal.value_cmp. rewrite (proj2 (Z.eqb_neq _ _)) by lia.
  rewrite Z.max_r, (lift_max b) by (done || lia). cbv zeta.
  rewrite numeric_cmp_lift by (done || lia). destruct Hb as [Hub _].
  rewrite <- lift_cmp by (done || lia). unfold Decimal.lift. by case_match.
Qed.

Lemma value_cmp_opp a b : Decimal.value_cmp b a = CompOpp (Decimal.value_cmp a b).
Proof.
  unfold Decimal.value_cmp. rewrite (Z.eqb_sym (Decimal.scale b)), (Z.max_comm (Decimal.scale b)).
  destruct (_ =? _); [apply Z.compare_antisym|]. cbv zeta.
  destruct (Decimal.lift _ a), (Decimal.lift _ b); try apply Z.compare_antisym; [|done].
  by rewrite CompOpp_involutive.
Qed.

Lemma value_cmp_gap a b : Decimal.ok a -> Decimal.ok b -> Decimal.zero_gap a b ->
  Decimal.value_cmp a b = Eq.
Proof.
  intros Ha Hb (Hz & _ & Hg). unfold Decimal.value_cmp. rewrite (proj2 (Z.eqb_neq _ _)) by lia.
  rewrite Z.max_r, (lift_max b) by (done || lia). cbv zeta. unfold Decimal.lift.
  rewrite pow10_overflow by lia. simpl. by rewrite Hz.
Qed.

(** ** The text form *)

Definition is_digit (c : Z) : Prop := 48 <= c <= 57.
Definition digit_val (cs : list Z) : Z := fold_left (fun acc c => 10 * acc + (c - 48)) cs 0.

Lemma digit_val_snoc cs c : digit_val (cs ++ [c]) = 10 * digit_val cs + (c - 48).
Proof. unfold digit_val. by rewrite fold_left_app. Qed.

Lemma digit_val_zeros k cs : digit_val (replicate k 48 ++ cs) = digit_val cs.
Proof. induction k as [|k IH]; [done|]. exact IH. Qed.

Lemma digits_rev_spec fuel : forall n, 0 <= n < 10 ^ Z.of_nat fuel ->
  Forall is_digit (Decimal.digits_rev fuel n) /\ digit_val (reverse (Decimal.digits_rev fuel n)) = n.
Proof.
  induction fuel as [|fuel IH]; intros n Hn; [simpl in *; split; [constructor|cbn; lia]|].
  rewrite Nat2Z.inj_succ, Z.pow_succ_r in Hn by lia.
  pose proof (Z.mod_pos_bound n 10). pose proof (Z.div_mod n 10).
  assert (0 <= n / 10 < 10 ^ Z.of_nat fuel) as Hq
    by (split; [apply Z.div_pos; lia|apply Z.div_lt_upper_bound; lia]).
  destruct (IH _ Hq) as [Hd Hv]. cbn [Decimal.digits_rev].
  rewrite reverse_cons, digit_val_snoc.
  destruct (Z.eqb_spec (n / 10) 0); (split; [constructor; [unfold is_digit; lia|by try constructor]|]).
  - cbn. lia.
  - rewrite Hv. lia.
Qed.

Lemma to_string_spec n : 0 <= n < 10 ^ 39 ->
  Forall is_digit (Decimal.to_string n) /\ digit_val (Decimal.to_string n) = n.
Proof.
  intros Hn. destruct (digits_rev_spec 39 n Hn) as [Hd Hv].
  split; [|done]. unfold Decimal.to_string. by apply Forall_reverse.
Qed.

(** The unsigned part of the text: integer digits, and the fraction digits after
    a point unless the scale is zero. *)
Lemma fmt_shape d : Decimal.ok d -> exists i f,
  Decimal.fmt d = (if Decimal.unscaled d <? 0 then [45] else []) ++ i ++
    (if Decimal.scale d =? 0 then [] else 46 :: f) /\
  Forall is_digit i /\ Forall is_digit f /\ Z.of_nat (length f) = Decimal.scale d /\
  digit_val (i ++ f) = Z.abs (Decimal.unscaled d).
Proof.
  intros [Hu Hs]. unfold Decimal.fmt. cbv zeta. unfold i_ok, u_ok in *.
  change (128 - 1) with 127 in Hu.
  assert (2 ^ 127 < 10 ^ 39) by reflexivity.
  destruct (to_string_spec (Z.abs (Decimal.unscaled d))) as [Hd Hv]; [lia|]. clear Hu H.
  set (ds := Decimal.to_string _) in *. clearbody ds.
  destruct (Z.eqb_spec (Decimal.scale d) 0) as [E|E].
  { exists ds, []. rewrite !app_nil_r. split_and!; [reflexivity|exact Hd|constructor|exact (eq_sym E)|exact Hv]. }
  destruct (Nat.ltb_spec (Z.to_nat (Decimal.scale d)) (length ds)) as [Hl|Hl].
  - set (point := (length ds - Z.to_nat (Decimal.scale d))%nat).
    exists (firstn point ds), (skipn point ds). split_and!; [reflexivity| | | |].
    + by apply Forall_take.
    + by apply Forall_drop.
    + rewrite length_skipn. lia.
    + rewrite firstn_skipn. exact Hv.
  - exists [48], (replicate (Z.to_nat (Decimal.scale d) - length ds) 48 ++ ds).
    split_and!; [reflexivity| | | |].
    + constructor; [|constructor]. unfold is_digit; lia.
    + apply Forall_app. split; [|done]. apply Forall_replicate. unfold is_digit; lia.
    + rewrite length_app, length_replicate. lia.
    + rewrite app_assoc. exact (eq_trans (digit_val_zeros (S _) ds) Hv).
Qed.

Lemma sign_not_digit i (s : bool) f r : Forall is_digit i ->
  45 :: r = i ++ (if s then [] else 46 :: f) -> False.
Proof.
  intros [|c i' Hc _] E; [by destruct s|]. injection E as <- _. unfold is_digit in Hc. lia.
Qed.

Lemma digits_point_inj i1 f1 i2 f2 (s1 s2 : bool) : Forall is_digit i1 -> Forall is_digit i2 ->
  i1 ++ (if s1 then [] else 46 :: f1) = i2 ++ (if s2 then [] else 46 :: f2) ->
  i1 = i2 /\ s1 = s2 /\ (s1 = false -> f1 = f2).
Proof.
  intros H1. revert i2. induction H1 as [|c i1 Hc _ IH]; intros i2 H2 E.
  - destruct H2 as [|c' i2 Hc']; [by destruct s1, s2; simplify_eq/=|].
    exfalso. unfold is_digit in Hc'. destruct s1; simplify_eq/=. lia.
  - destruct H2 as [|c' i2 Hc' H2]; simpl in E.
    + exfalso. unfold is_digit in Hc. destruct s2; simplify_eq/=. lia.
    + injection E as -> E. destruct (IH i2 H2 E) as (-> & ? & ?). done.
Qed.

(** * Properties *)

(** The hex form of a 32-byte identity parses back to it, and so does a blob
    reference's. *)
Theorem hex_form_round_trips id : bytes_ok id -> length id = 32%nat ->
  Identity.from_str (Identity.fmt id) = Ok id /\ BlobRef.parse (BlobRef.fmt id) = Some id.
Proof.
  intros Hb Hl. unfold Identity.from_str, BlobRef.parse, Identity.fmt, BlobRef.fmt, blen.
  rewrite length_hex_fmt, Hl. simpl. rewrite parse_chunks_pairs, parse_pairs_hex_fmt by done. done.
Qed.

(** [value_cmp] compares decimals by exact numeric value, at every scale,
    except that a zero compares equal to any nonzero number whose scale is 39 or
    more above its own. *)
Theorem value_cmp_spec a b : Decimal.ok a -> Decimal.ok b ->
  Decimal.value_cmp a b =
  if decide (Decimal.zero_gap a b \/ Decimal.zero_gap b a) then Eq else Decimal.numeric_cmp a b.
Proof.
  intros Ha Hb. case_decide as Hg.
  - destruct Hg as [Hg|Hg]; [by apply value_cmp_gap|]. rewrite value_cmp_opp. by rewrite value_cmp_gap.
  - destruct (Z.lt_trichotomy (Decimal.scale a) (Decimal.scale b)) as [Hlt|[Heq|Hlt]].
    + apply value_cmp_lt; tauto.
    + rewrite numeric_cmp_lift by (done || lia). unfold Decimal.value_cmp.
      by rewrite Heq, Z.eqb_refl, Z.sub_diag, Z.mul_1_r.
    + rewrite value_cmp_opp, numeric_cmp_opp. f_equal. apply value_cmp_lt; tauto.
Qed.

(** The text of a decimal determines it, sign, digits and scale: two
    decimals never print the same text. *)
Theorem fmt_injective a b : Decimal.ok a -> Decimal.ok b -> Decimal.fmt a = Decimal.fmt b -> a = b.
Proof.
  intros Ha Hb E. destruct (fmt_shape a Ha) as (i1 & f1 & E1 & Hi1 & Hf1 & Hl1 & Hv1).
  destruct (fmt_shape b Hb) as (i2 & f2 & E2 & Hi2 & Hf2 & Hl2 & Hv2).
  rewrite E1, E2 in E.
  assert ((Decimal.unscaled a <? 0) = (Decimal.unscaled b <? 0) /\
    i1 ++ (if Decimal.scale a =? 0 then [] else 46 :: f1) =
    i2 ++ (if Decimal.scale b =? 0 then [] else 46 :: f2)) as [Hsign Hbody].
  { clear - E Hi1 Hi2. destruct (_ <? 0), (_ <? 0); simpl in E.
    - injection E as E. by split.
    - exfalso. exact (sign_not_digit _ _ _ _ Hi2 E).
    - exfalso. exact (sign_not_digit _ _ _ _ Hi1 (eq_sym E)).
    - by split. }
  apply digits_point_inj in Hbody as (-> & Hs & Hf); [|done..].
  assert (f1 = f2) as ->.
  { destruct (Z.eqb_spec (Decimal.scale a) 0) as [Ea|Ea]; [|by apply Hf].
    symmetry in Hs. apply Z.eqb_eq in Hs. rewrite Ea in Hl1. rewrite Hs in Hl2.
    by destruct f1, f2. }
  destruct a as [ua sa], b as [ub sb]; simpl in *. f_equal; [|lia].
  destruct (Z.ltb_spec ua 0), (Z.ltb_spec ub 0); (done || lia).
Qed.

(** The overflow branch does not keep the order a total preorder: zero ties with
    [10^-39], which is above the zero of its own scale, to which zero also ties. *)
Theorem value_cmp_not_transitive :
  let zero := Decimal.from_parts 0 0 in
  let tiny := Decimal.from_parts 1 39 in
  let zero39 := Decimal.from_parts 0 39 in
  Decimal.value_cmp zero tiny = Eq /\ Decimal.value_cmp tiny zero39 = Gt /\
  Decimal.value_cmp zero zero39 = Eq /\ Decimal.numeric_cmp zero tiny = Lt.
Proof. vm_compute. done. Qed.

(** A text that is not hexadecimal is accepted as an identity: the sign [+] of
    [from_str_radix] passes for a digit. *)
Theorem identity_accepts_plus :
  Identity.from_str (flat_map (fun _ => [43; 102]) (seq 0 32)) = Ok (replicate 32 15).
Proof. vm_compute. done. Qed.

(** * Witnesses *)

Lemma hex_form_round_trips_witness :
  Identity.from_str (Identity.fmt (replicate 32 171)) = Ok (replicate 32 171) /\
  BlobRef.parse (BlobRef.fmt (replicate 32 171)) = Some (replicate 32 171).
Proof.
  apply (hex_form_round_trips (replicate 32 171)); [|reflexivity].
  apply (bool_decide_unpack _). vm_compute. exact I.
Defined.

(** 1.50 and 1.5 are equal in value. *)
Lemma value_cmp_spec_witness :
  Decimal.value_cmp (Decimal.from_parts 150 2) (Decimal.from_parts 15 1) = Eq.
Proof.
  rewrite (value_cmp_spec (Decimal.from_parts 150 2) (Decimal.from_parts 15 1));
    [vm_compute; reflexivity| |]; split; vm_compute; split; congruence.
Defined.

Lemma fmt_injective_witness : Decimal.from_parts (-5) 3 = Decimal.from_parts (-5) 3.
Proof.
  apply (fmt_injective (Decimal.from_parts (-5) 3) (Decimal.from_parts (-5) 3));
    [| |reflexivity]; split; vm_compute; split; congruence.
Defined.
