(* ===== verification/TxState.v ===== *)
(** Transaction data of [crates/fluxum-core/src/store/tx.rs]: the write buffer
    of the in-flight transaction, trigger events, and the diff a commit
    produces. Tables are named by their [u32] id, rows by their encoded primary
    key. *)

From stdpp Require Import base list gmap.
From Stdlib Require Import ZArith.
From S2P Require Import Prelude FluxBin Row.

Notation TableId := Z (only parsing).
Notation PkBytes := (list Z) (only parsing).

(** The pending effect of the transaction on one primary key. *)
Inductive PendingOp : Type :=
  | Insert (r : row)
  | Delete
  | Update (r : row).

Inductive TriggerKind : Type := TriggerInsert | TriggerUpdate | TriggerDelete.

Record TriggerEvent : Type := {
  te_table : TableId;
  te_kind : TriggerKind;
  te_old : option row;
  te_new : option row;
}.

(** [undo_log] is absent: [UndoRecord] has no constructor, so it is always
    empty. *)
Record TxState : Type := {
  tx_id : Z;
  tables : gmap TableId (gmap PkBytes PendingOp);
  trigger_events : list TriggerEvent;
}.

Definition TxState_new (id : Z) : TxState := {| tx_id := id; tables := ∅; trigger_events := [] |}.

Record TableDiff : Type := {
  td_table_id : TableId;
  td_inserts : list row;
  td_deletes : list (PkBytes * row);
}.

Record TxDiff : Type := {
  diff_tx_id : Z;
  diff_tables : list TableDiff;
  diff_auto_inc : list (TableId * Z);
}.

Definition TxDiff_is_empty (d : TxDiff) : bool :=
  match diff_tables d, diff_auto_inc d with [], [] => true | _, _ => false end.
