(* ===== verification/LogRecord.v ===== *)
(** Commit-log records: [TxRecord] and the self-describing [LogValue] of
    [crates/fluxum-core/src/commitlog/record.rs].

    Main result: the rows and keys of a commit survive the conversion to a log
    record and back, so replay sees exactly what the commit wrote. The
    MessagePack bytes of a record ([rmp_serde]) are a parameter of the commit
    log. *)

From stdpp Require Import base list gmap.
From Stdlib Require Import ZArith Lia.
From S2P Require Import Prelude FluxBin Row TxState.

Module LogValue.
Inductive t : Type :=
  | Bool (v : bool)
  | I8 (v : Z) | I16 (v : Z) | I32 (v : Z) | I64 (v : Z)
  | U8 (v : Z) | U16 (v : Z) | U32 (v : Z) | U64 (v : Z)
  | F32 (bits : Z) | F64 (bits : Z)
  | Str (v : list Z)
  | Bytes (v : list Z)
  | Identity (v : list Z)
  | ConnectionId (v : list Z)
  | EntityId (v : Z)
  | Timestamp (v : Z)
  | Decimal (unscaled : list Z) (scale : Z)
  | Blob (v : list Z)
  | Opt (v : option t)
  | List (items : list t)
  | Enum (tag : Z) (payload : list t)
  | Struct (fields : list t).
End LogValue.

(** A fixed-width payload of the wrong length. *)
Inductive LogValueError : Type := BadLen (want got : Z).

(** [From<&RowValue> for LogValue]. *)
Fixpoint log_of (v : RowValue.t) : LogValue.t :=
  match v with
  | RowValue.Bool v => LogValue.Bool v
  | RowValue.I8 v => LogValue.I8 v
  | RowValue.I16 v => LogValue.I16 v
  | RowValue.I32 v => LogValue.I32 v
  | RowValue.I64 v => LogValue.I64 v
  | RowValue.U8 v => LogValue.U8 v
  | RowValue.U16 v => LogValue.U16 v
  | RowValue.U32 v => LogValue.U32 v
  | RowValue.U64 v => LogValue.U64 v
  | RowValue.F32 v => LogValue.F32 v
  | RowValue.F64 v => LogValue.F64 v
  | RowValue.Str v => LogValue.Str v
  | RowValue.Bytes v => LogValue.Bytes v
  | RowValue.Identity v => LogValue.Identity v
  | RowValue.ConnectionId v => LogValue.ConnectionId (le_bytes 16 v)
  | RowValue.EntityId v => LogValue.EntityId v
  | RowValue.Timestamp v => LogValue.Timestamp v
  | RowValue.Decimal u s => LogValue.Decimal (le_bytes 16 u) s
  | RowValue.Blob v => LogValue.Blob v
  | RowValue.Optional v =>
      LogValue.Opt (match v with None => None | Some inner => Some (log_of inner) end)
  | RowValue.List items => LogValue.List (map log_of items)
  | RowValue.Enum tag payload => LogValue.Enum tag (map log_of payload)
  | RowValue.Struct fields => LogValue.Struct (map log_of fields)
  end.

(** [try_into::<[u8; n]>()]. *)
Definition fixed (n : Z) (v : list Z) : result LogValueError (list Z) :=
  if blen v =? n then Ok v else Err (BadLen n (blen v)).

Section collect.
Context {E A B : Type} (f : A -> result E B).
(** [iter().map(f).collect::<Result<Vec<_>>>()]. *)
Fixpoint collect (l : list A) : result E (list B) :=
  match l with
  | [] => Ok []
  | x :: l => f x ≫= fun y => collect l ≫= fun ys => Ok (y :: ys)
  end.
End collect.

Fixpoint to_row_value (v : LogValue.t) : result LogValueError RowValue.t :=
  match v with
  | LogValue.Bool v => Ok (RowValue.Bool v)
  | LogValue.I8 v => Ok (RowValue.I8 v)
  | LogValue.I16 v => Ok (RowValue.I16 v)
  | LogValue.I32 v => Ok (RowValue.I32 v)
  | LogValue.I64 v => Ok (RowValue.I64 v)
  | LogValue.U8 v => Ok (RowValue.U8 v)
  | LogValue.U16 v => Ok (RowValue.U16 v)
  | LogValue.U32 v => Ok (RowValue.U32 v)
  | LogValue.U64 v => Ok (RowValue.U64 v)
  | LogValue.F32 v => Ok (RowValue.F32 v)
  | LogValue.F64 v => Ok (RowValue.F64 v)
  | LogValue.Str v => Ok (RowValue.Str v)
  | LogValue.Bytes v => Ok (RowValue.Bytes v)
  | LogValue.Identity v => fixed 32 v ≫= fun bytes => Ok (RowValue.Identity bytes)
  | LogValue.ConnectionId v => fixed 16 v ≫= fun bytes => Ok (RowValue.ConnectionId (le_val bytes))
  | LogValue.EntityId v => Ok (RowValue.EntityId v)
  | LogValue.Timestamp v => Ok (RowValue.Timestamp v)
  | LogValue.Decimal unscaled scale =>
      fixed 16 unscaled ≫= fun bytes => Ok (RowValue.Decimal (cast_signed 128 (le_val bytes)) scale)
  | LogValue.Blob v => fixed 32 v ≫= fun bytes => Ok (RowValue.Blob bytes)
  | LogValue.Opt None => Ok (RowValue.Optional None)
  | LogValue.Opt (Some inner) => to_row_value inner ≫= fun i => Ok (RowValue.Optional (Some i))
  | LogValue.List items => collect to_row_value items ≫= fun l => Ok (RowValue.List l)
  | LogValue.Enum tag payload => collect to_row_value payload ≫= fun l => Ok (RowValue.Enum tag l)
  | LogValue.Struct fields => collect to_row_value fields ≫= fun l => Ok (RowValue.Struct l)
  end.

Definition row_to_log (r : row) : list LogValue.t := map log_of r.

Record TableMutation : Type := {
  tm_table_id : Z;
  tm_inserts : list (list LogValue.t);
  tm_deletes : list (list Z);
}.

Definition insert_rows (m : TableMutation) : result LogValueError (list row) :=
  collect (collect to_row_value) (tm_inserts m).
Definition delete_pks (m : TableMutation) : list (list Z) := tm_deletes m.

(** [tr_reducer_name] holds the UTF-8 bytes of the name. *)
Record TxRecord : Type := {
  tr_tx_id : Z;
  tr_timestamp : Z;
  tr_shard_id : Z;
  tr_mutations : list TableMutation;
  tr_auto_inc : list (Z * Z);
  tr_caller : list Z;
  tr_reducer_name : list Z;
}.

Definition from_diff (diff : TxDiff) (shard_id timestamp : Z) (caller reducer : list Z) : TxRecord := {|
  tr_tx_id := diff_tx_id diff;
  tr_timestamp := timestamp;
  tr_shard_id := shard_id;
  tr_mutations := map (fun t => {|
      tm_table_id := td_table_id t;
      tm_inserts := map row_to_log (td_inserts t);
      tm_deletes := map fst (td_deletes t) |}) (diff_tables diff);
  tr_auto_inc := diff_auto_inc diff;
  tr_caller := caller;
  tr_reducer_name := reducer |}.

Definition caller_identity (r : TxRecord) : list Z :=
  if blen (tr_caller r) =? 32 then tr_caller r else replicate 32 0.

(** * Lemmas *)

Lemma fixed_ok n v : blen v = n -> fixed n v = Ok v.
Proof. intros <-. unfold fixed. by rewrite Z.eqb_refl. Qed.

Lemma collect_map {E A B C} (f : B -> result E C) (g : A -> B) (h : A -> C) l :
  Forall (fun x => f (g x) = Ok (h x)) l -> collect f (map g l) = Ok (map h l).
Proof. induction 1 as [|x l Hx _ IH]; simpl; [done|]. by rewrite Hx, IH. Qed.

Lemma Forall_value_ok (P : RowValue.t -> Prop) l :
  Forall (fun v => value_ok v = true -> P v) l -> forallb value_ok l = true -> Forall P l.
Proof. induction 1; simpl; [constructor|]. intros [??]%andb_true_iff. constructor; auto. Qed.

Lemma collect_log_of l : Forall (fun v => value_ok v = true -> to_row_value (log_of v) = Ok v) l ->
  forallb value_ok l = true -> collect to_row_value (map log_of l) = Ok l.
Proof.
  intros Hl Hok. rewrite <- (map_id l) at 2. apply collect_map. by apply Forall_value_ok.
Qed.

Lemma to_row_value_log_of v : value_ok v = true -> to_row_value (log_of v) = Ok v.
Proof.
  induction v using RowValue_ind'; cbn [log_of to_row_value value_ok]; intros Hok; try done; ok_hyps.
  - rewrite fixed_ok; [done|]. unfold blen; lia.
  - rewrite fixed_ok by done. cbn [mbind result_bind]. by rewrite (le_val_unsigned 16).
  - rewrite fixed_ok by done. cbn [mbind result_bind]. by rewrite (le_val_signed 16) by (lia || done).
  - rewrite fixed_ok; [done|]. unfold blen; lia.
  - by rewrite IHv.
  - by rewrite collect_log_of.
  - by rewrite collect_log_of.
  - by rewrite collect_log_of.
Qed.

Lemma collect_row_to_log r : forallb value_ok r = true -> collect to_row_value (row_to_log r) = Ok r.
Proof.
  intros H. apply collect_log_of; [|done]. apply Forall_forall. intros. by apply to_row_value_log_of.
Qed.

(** Rows and deleted keys of a diff, table by table. *)
Definition diff_effects (d : TxDiff) : list (Z * list row * list (list Z)) :=
  map (fun t => (td_table_id t, td_inserts t, (td_deletes t).*1)) (diff_tables d).

Definition mutation_effect (m : TableMutation) : result LogValueError (Z * list row * list (list Z)) :=
  insert_rows m ≫= fun rows => Ok (tm_table_id m, rows, delete_pks m).

Definition diff_ok (d : TxDiff) : bool :=
  forallb (fun t => forallb (forallb value_ok) (td_inserts t)) (diff_tables d).

(** * Properties *)

(** The effects recorded in the log are those of the commit: converting a
    diff to a record and reading its mutations back gives the same tables,
    inserted rows and deleted keys, in order. *)
Theorem record_effects diff shard timestamp caller reducer : diff_ok diff = true ->
  collect mutation_effect (tr_mutations (from_diff diff shard timestamp caller reducer)) =
  Ok (diff_effects diff).
Proof.
  intros Hok. apply collect_map. apply Forall_forall. intros t Ht.
  assert (forallb (forallb value_ok) (td_inserts t) = true) as Hrows.
  { unfold diff_ok in Hok. rewrite forallb_forall in Hok. apply Hok. by apply list_elem_of_In. }
  unfold mutation_effect, insert_rows, delete_pks. simpl.
  rewrite <- (map_id (td_inserts t)) at 2. rewrite (collect_map _ row_to_log id); [done|].
  apply Forall_forall. intros r Hr. apply collect_row_to_log.
  rewrite forallb_forall in Hrows. apply Hrows. by apply list_elem_of_In.
Qed.

(** * Witness *)

Definition sample_diff : TxDiff := {|
  diff_tx_id := 9;
  diff_tables := [{| td_table_id := 4;
    td_inserts := [[RowValue.Decimal (-150) 2; RowValue.ConnectionId 77;
      RowValue.List [RowValue.Optional (Some (RowValue.Str [97]))]]];
    td_deletes := [([1; 2], [RowValue.U8 1])] |}];
  diff_auto_inc := [(4, 100)] |}.

Lemma record_effects_witness :
  collect mutation_effect (tr_mutations (from_diff sample_diff 0 5 [] [])) = Ok (diff_effects sample_diff).
Proof. apply (record_effects sample_diff 0 5 [] []). reflexivity. Defined.
