(* ===== verification/Crc32c.v ===== *)
(** CRC-32C: the scalar kernel of [crates/fluxum-core/src/simd/crc32c.rs] and
    the entry points of [simd/mod.rs].

    Main results: the checksum is a 32-bit word, streaming composes, and two
    messages that differ in a single byte have different checksums. *)

From stdpp Require Import base list numbers.
From Stdlib Require Import ZArith Lia.
From S2P Require Import Prelude.

(** * Definitions *)

Definition POLY : Z := 0x82F63B78.

(** One round of the bit loop of [build_table]. *)
Definition table_round (crc : Z) : Z :=
  let mask := cast_unsigned 32 (- Z.land crc 1) in
  Z.lxor (Z.shiftr crc 1) (Z.land POLY mask).

Definition build_table : list Z :=
  map (fun i => Nat.iter 8 table_round (Z.of_nat i)) (seq 0 256).

Definition TABLE : list Z := Eval vm_compute in build_table.

(** One byte of [scalar_update]; [TABLE[i]] is always in range. *)
Definition update_byte (crc byte : Z) : Z :=
  Z.lxor (Z.shiftr crc 8) (nth (Z.to_nat (Z.land (Z.lxor crc byte) 0xFF)) TABLE 0).

Definition scalar_update (crc : Z) (data : list Z) : Z := fold_left update_byte data crc.

(** [!x] on a [u32]. *)
Definition not32 (x : Z) : Z := 2 ^ 32 - 1 - x.

Definition crc32c_extend (crc : Z) (data : list Z) : Z := not32 (scalar_update (not32 crc) data).
Definition crc32c (data : list Z) : Z := crc32c_extend 0 data.

(** * Lemmas *)

(** The check values of RFC 3720: the ASCII digits, 32 zero bytes, 32 bytes of
    [0xFF]. *)
Example crc32c_vectors :
  crc32c [49;50;51;52;53;54;55;56;57] = 0xE3069283 /\
  crc32c (replicate 32 0) = 0x8A9136AA /\ crc32c (replicate 32 255) = 0x62A8AB43 /\ crc32c [] = 0.
Proof. vm_compute. done. Qed.

Lemma TABLE_ok : Forall (u_ok 32) TABLE /\ length TABLE = 256%nat.
Proof. split; [|reflexivity]. apply (bool_decide_unpack _). vm_compute. exact I. Qed.

(** The top bytes of the table are pairwise different: the table permutes them. *)
Lemma TABLE_tops : NoDup (map (fun t => Z.shiftr t 24) TABLE).
Proof. apply (bool_decide_unpack _). vm_compute. exact I. Qed.

Lemma lookup_TABLE i : 0 <= i < 256 -> TABLE !! Z.to_nat i = Some (nth (Z.to_nat i) TABLE 0).
Proof.
  intros Hi. destruct TABLE_ok as [_ Hl].
  destruct (lookup_lt_is_Some_2 TABLE (Z.to_nat i)) as [t Ht]; [rewrite Hl; lia|].
  rewrite Ht. symmetry. f_equal. by apply nth_lookup_Some.
Qed.

Lemma TABLE_nth_ok i : 0 <= i < 256 -> u_ok 32 (nth (Z.to_nat i) TABLE 0).
Proof.
  intros Hi%lookup_TABLE. destruct TABLE_ok as [Hf _]. by eapply Forall_lookup_1 in Hf.
Qed.

Lemma TABLE_top_inj i j : 0 <= i < 256 -> 0 <= j < 256 ->
  Z.shiftr (nth (Z.to_nat i) TABLE 0) 24 = Z.shiftr (nth (Z.to_nat j) TABLE 0) 24 -> i = j.
Proof.
  intros Hi Hj E. apply lookup_TABLE in Hi as Li. apply lookup_TABLE in Hj as Lj.
  assert (Z.to_nat i = Z.to_nat j); [|lia].
  eapply (NoDup_lookup _ _ _ _ TABLE_tops); rewrite list_lookup_fmap.
  - by rewrite Li.
  - by rewrite Lj, E.
Qed.

Lemma index_bound s b : 0 <= Z.land (Z.lxor s b) 0xFF < 256.
Proof. change 255 with (Z.ones 8). rewrite Z.land_ones by lia. apply Z.mod_pos_bound. lia. Qed.

Lemma u32_shiftr s k : 0 <= k -> u_ok 32 s -> 0 <= Z.shiftr s k <= s.
Proof.
  intros Hk [H1 H2]. rewrite Z.shiftr_div_pow2 by done.
  assert (0 < 2 ^ k) by (apply Z.pow_pos_nonneg; lia).
  split; [apply Z.div_pos; lia|]. apply Z.div_le_upper_bound; nia.
Qed.

Lemma lxor_bound w a b : 0 <= w -> u_ok w a -> u_ok w b -> u_ok w (Z.lxor a b).
Proof.
  unfold u_ok. intros Hw [Ha1 Ha2] [Hb1 Hb2]. assert (0 <= Z.lxor a b) by (apply Z.lxor_nonneg; lia).
  split; [done|]. destruct (Z.eq_dec (Z.lxor a b) 0) as [->|]; [by apply Z.pow_pos_nonneg|].
  apply Z.log2_lt_pow2; [lia|]. eapply Z.le_lt_trans; [by apply Z.log2_lxor|].
  apply Z.max_lub_lt.
  - destruct (Z.eq_dec a 0) as [->|]; [|apply Z.log2_lt_pow2; lia].
    destruct (Z.eq_dec w 0) as [->|]; [|simpl; lia].
    exfalso. assert (b = 0) as -> by (simpl in *; lia). done.
  - destruct (Z.eq_dec b 0) as [->|]; [|apply Z.log2_lt_pow2; lia].
    destruct (Z.eq_dec w 0) as [->|]; [|simpl; lia].
    exfalso. assert (a = 0) as -> by (simpl in *; lia). done.
Qed.

Lemma update_byte_ok s b : u_ok 32 s -> u_ok 32 (update_byte s b).
Proof.
  intros Hs. apply lxor_bound; [lia| |apply TABLE_nth_ok, index_bound].
  pose proof (u32_shiftr s 8 ltac:(lia) Hs). unfold u_ok in *. lia.
Qed.

Lemma update_byte_top s b : u_ok 32 s ->
  Z.shiftr (update_byte s b) 24 = Z.shiftr (nth (Z.to_nat (Z.land (Z.lxor s b) 0xFF)) TABLE 0) 24.
Proof.
  intros [H1 H2]. unfold update_byte. rewrite Z.shiftr_lxor, Z.shiftr_shiftr by lia.
  rewrite (Z.shiftr_div_pow2 s) by lia. rewrite (Z.div_small s) by (change (2 ^ (8 + 24)) with (2 ^ 32); lia).
  apply Z.lxor_0_l.
Qed.

Lemma lxor_cancel_r a b c : Z.lxor a c = Z.lxor b c -> a = b.
Proof.
  intros E. assert (Z.lxor (Z.lxor a c) c = Z.lxor (Z.lxor b c) c) as E' by by rewrite E.
  by rewrite !Z.lxor_assoc, Z.lxor_nilpotent, !Z.lxor_0_r in E'.
Qed.

Lemma land_lxor_ff a b : Z.land (Z.lxor a b) 255 = Z.lxor (Z.land a 255) (Z.land b 255).
Proof.
  apply Z.bits_inj'. intros n Hn. rewrite Z.land_spec, !Z.lxor_spec, !Z.land_spec.
  by destruct (Z.testbit a n), (Z.testbit b n), (Z.testbit 255 n).
Qed.

Lemma update_byte_index s1 s2 b1 b2 : u_ok 32 s1 -> u_ok 32 s2 ->
  update_byte s1 b1 = update_byte s2 b2 ->
  Z.land (Z.lxor s1 b1) 0xFF = Z.land (Z.lxor s2 b2) 0xFF /\ Z.shiftr s1 8 = Z.shiftr s2 8.
Proof.
  intros H1 H2 E. assert (Z.land (Z.lxor s1 b1) 0xFF = Z.land (Z.lxor s2 b2) 0xFF) as Ei.
  { apply TABLE_top_inj; try apply index_bound. by rewrite <- !update_byte_top, E. }
  split; [done|]. unfold update_byte in E. rewrite Ei in E. by apply lxor_cancel_r in E.
Qed.

Lemma update_byte_inj_state s1 s2 b : u_ok 32 s1 -> u_ok 32 s2 ->
  update_byte s1 b = update_byte s2 b -> s1 = s2.
Proof.
  intros H1 H2 [Ei Es]%update_byte_index; [|done..].
  rewrite !land_lxor_ff in Ei. apply lxor_cancel_r in Ei.
  change 255 with (Z.ones 8) in Ei. rewrite !Z.land_ones in Ei by lia.
  rewrite !Z.shiftr_div_pow2 in Es by lia.
  rewrite (Z.div_mod s1 (2 ^ 8)), (Z.div_mod s2 (2 ^ 8)) by lia. congruence.
Qed.

Lemma update_byte_inj_byte s b1 b2 : u_ok 32 s -> byte_ok b1 -> byte_ok b2 ->
  update_byte s b1 = update_byte s b2 -> b1 = b2.
Proof.
  intros Hs H1 H2 [Ei _]%update_byte_index; [|done..].
  rewrite !land_lxor_ff, !(Z.lxor_comm (Z.land s 255)) in Ei. apply lxor_cancel_r in Ei.
  change 255 with (Z.ones 8) in Ei. rewrite !Z.land_ones in Ei by lia.
  by rewrite !Z.mod_small in Ei.
Qed.

Lemma scalar_update_ok data s : u_ok 32 s -> u_ok 32 (scalar_update s data).
Proof.
  unfold scalar_update. revert s. induction data; simpl; intros; [done|]. by apply IHdata, update_byte_ok.
Qed.

Lemma scalar_update_app a b s : scalar_update s (a ++ b) = scalar_update (scalar_update s a) b.
Proof. apply fold_left_app. Qed.

Lemma scalar_update_inj data s1 s2 : u_ok 32 s1 -> u_ok 32 s2 ->
  scalar_update s1 data = scalar_update s2 data -> s1 = s2.
Proof.
  unfold scalar_update. revert s1 s2. induction data as [|b data IH]; simpl; intros s1 s2 H1 H2 E; [done|].
  apply IH in E; [|by apply update_byte_ok..]. by apply update_byte_inj_state in E.
Qed.

Lemma not32_ok x : u_ok 32 x -> u_ok 32 (not32 x).
Proof. unfold u_ok, not32. lia. Qed.
Lemma not32_inj x y : not32 x = not32 y -> x = y.
Proof. unfold not32. lia. Qed.
Lemma not32_not32 x : not32 (not32 x) = x.
Proof. unfold not32. lia. Qed.

Lemma crc32c_ok data : u_ok 32 (crc32c data).
Proof. unfold crc32c, crc32c_extend. apply not32_ok, scalar_update_ok, not32_ok. unfold u_ok; lia. Qed.

Lemma crc32c_extend_app crc a b : crc32c_extend (crc32c_extend crc a) b = crc32c_extend crc (a ++ b).
Proof. unfold crc32c_extend. by rewrite not32_not32, scalar_update_app. Qed.

Lemma crc32c_byte_differs p x y q : byte_ok x -> byte_ok y -> x <> y ->
  crc32c (p ++ x :: q) <> crc32c (p ++ y :: q).
Proof.
  intros Hx Hy Hne E. unfold crc32c, crc32c_extend in E. apply not32_inj in E.
  rewrite !scalar_update_app in E. change (scalar_update (scalar_update (not32 0) p) (x :: q) =
    scalar_update (scalar_update (not32 0) p) (y :: q)) in E.
  assert (u_ok 32 (scalar_update (not32 0) p)) as Hs by (apply scalar_update_ok; unfold u_ok, not32; lia).
  revert E. generalize (scalar_update (not32 0) p) Hs. intros s Hs' E. apply Hne.
  apply (update_byte_inj_byte s); [done..|].
  by apply (scalar_update_inj q); [apply update_byte_ok..|].
Qed.

(** * Properties *)

(** Streaming composes: extending the checksum of [a] with [b] gives the
    checksum of their concatenation. *)
Theorem crc32c_streams a b : crc32c_extend (crc32c a) b = crc32c (a ++ b).
Proof. apply crc32c_extend_app. Qed.

(** Replacing one byte of a message, whatever its position and value,
    changes the checksum. *)
Theorem crc32c_detects_byte p x y q : byte_ok x -> byte_ok y -> x <> y ->
  crc32c (p ++ x :: q) <> crc32c (p ++ y :: q).
Proof. apply crc32c_byte_differs. Qed.

Lemma crc32c_detects_byte_witness : crc32c ([1; 2] ++ 3 :: [4]) <> crc32c ([1; 2] ++ 7 :: [4]).
Proof. apply (crc32c_detects_byte [1; 2] 3 7 [4]); unfold byte_ok; lia. Defined.
