(* ===== verification/CommitLog.v ===== *)
(** The commit log: entry frames and segment headers ([commitlog/format.rs]),
    validating scans and quarantine ([segment.rs]), replay ([replay.rs]),
    recovery, the writer actor and compaction ([writer.rs]), all under
    [crates/fluxum-core/src/].

    Parameters: the CRC-32C of the third-party crate [crc32c] and the
    MessagePack codec [rmp_serde] of a record. Files are byte lists, a shard's
    directory a map from a segment's first transaction id to its bytes;
    operating-system errors are not modelled.

    Main results: a scan of a written segment with a torn tail visits exactly
    the written records; a changed byte in a frame stops the scan at that
    frame; recovery removes exactly the torn bytes and keeps them in a sidecar;
    appends after a recovery are replayed after the recovered records; and
    compaction keeps every needed segment. *)

From stdpp Require Import base list gmap.
From Stdlib Require Import ZArith Lia.
From S2P Require Import Prelude TxState LogRecord Crc32c.

(** * Formats *)

(** The bytes [FLXMLOG\0]. *)
Definition SEGMENT_MAGIC : list Z := [70; 76; 88; 77; 76; 79; 71; 0].
Definition LOG_FORMAT_VERSION : Z := 1.
Definition CHECKSUM_CRC32C : Z := 0.
Definition SEGMENT_HEADER_LEN : Z := 24.
Definition ENTRY_OVERHEAD : Z := 16.
Definition MAX_BODY_LEN : Z := 2 ^ 30.

Inductive HeaderError : Type :=
  | HeaderShort (len : Z)
  | HeaderCrcMismatch
  | BadMagic
  | UnsupportedVersion (v : Z)
  | UnsupportedChecksum (id : Z).

(** Why a scan stopped. *)
Inductive ScanReason : Type :=
  | TornEnvelope (remaining : Z)
  | TornFrame (frame_len remaining : Z)
  | LengthExceedsLimit (len : Z)
  | EntryCrcMismatch
  | EntryEpochRegresses (epoch below : Z)
  | BodyDecodeFailed
  | WrongShard (shard_id : Z)
  | TxIdNotIncreasing (tx_id : Z)
  | HeaderEpochRegresses (epoch below : Z).

Inductive ScannedEntry : Type :=
  | Entry (epoch : Z) (body : list Z) (end_ : Z)
  | CleanEof
  | Torn (why : ScanReason)
  | Corrupt (why : ScanReason).

Record ScanFault : Type := { fault_offset : Z; fault_reason : ScanReason }.

Record SegmentScan : Type := {
  entries : Z;
  last_tx : option Z;
  max_epoch : Z;
  valid_len : Z;
  fault : option ScanFault;
}.

Inductive ScanOutcome : Type :=
  | Scanned (scan : SegmentScan)
  | HeaderCorrupt (why : HeaderError).

(** [Option<u64>] comparison and combination used by the scans. *)
Definition opt_or (a b : option Z) : option Z := match a with Some _ => a | None => b end.

Inductive LogError : Type :=
  | BodyTooLarge (len : Z)
  | RecordEncoding
  | NonTailCorruption (first_tx_id : Z)
  | EpochRejected (epoch current : Z)
  | SegmentExists (first_tx_id : Z)
  | ShardMismatch (shard_id : Z)
  | TxIdRejected (tx_id last : Z)
  | NoActiveSegment.

(** A segment file name: [shard-<shard>-<first tx>.log], as its first
    transaction id. *)
Record LogDir : Type := {
  segs : gmap Z (list Z);
  sidecars : list (Z * list Z);
}.

(** [list_segments]: sorted by [first_tx_id]. *)
Definition list_segments (d : LogDir) : list Z := btree_keys (segs d).

Record Corruption : Type := { c_segment : Z; c_offset : Z; c_reason : ScanReason + HeaderError }.
Record ReplayReport : Type := { records : Z; rp_last_tx_id : option Z; corruption : option Corruption }.

Definition next_tx_id (r : ReplayReport) : Z :=
  match rp_last_tx_id r with None => 1 | Some tx => sat_add 64 tx 1 end.

Record QuarantineReport : Type := { q_segment : Z; q_from_offset : Z; q_bytes : Z }.
Record RecoveryReport : Type := {
  rc_last_tx_id : option Z;
  rc_epoch : Z;
  rc_segments : Z;
  rc_quarantine : option QuarantineReport;
}.

(** The writer actor: the state of [Actor] without the watches, which the
    [last_written] and [flushed] fields record. *)
Record Actor : Type := {
  a_shard_id : Z;
  segment_max_bytes : Z;
  a_epoch : Z;
  current : option (Z * Z);   (** first tx id of the active segment, tracked length *)
  wbuf : list Z;
  last_written : option Z;
  flushed : option Z;         (** the [written] watermark *)
  dir : LogDir;
}.

Section log.
Context (crc32c : list Z -> Z).
Context (encode_record : TxRecord -> option (list Z)).
Context (decode_record : list Z -> option TxRecord).

Definition header_prefix (epoch : Z) : list Z :=
  SEGMENT_MAGIC ++ le_bytes 2 LOG_FORMAT_VERSION ++ [CHECKSUM_CRC32C; 0] ++ le_bytes 8 epoch.

Definition encode_segment_header (epoch : Z) : list Z :=
  header_prefix epoch ++ le_bytes 4 (crc32c (header_prefix epoch)).

Definition decode_segment_header (buf : list Z) : result HeaderError Z :=
  if blen buf <? SEGMENT_HEADER_LEN then Err (HeaderShort (blen buf))
  else if negb (crc32c (slice buf 0 20) =? le_val (slice buf 20 24)) then Err HeaderCrcMismatch
  else if bool_decide (slice buf 0 8 <> SEGMENT_MAGIC) then Err BadMagic
  else let version := le_val (slice buf 8 10) in
  if negb (version =? LOG_FORMAT_VERSION) then Err (UnsupportedVersion version)
  else let id := le_val (slice buf 10 11) in
  if negb (id =? CHECKSUM_CRC32C) then Err (UnsupportedChecksum id)
  else Ok (le_val (slice buf 12 20)).

Definition encode_entry (epoch : Z) (body : list Z) : result LogError (list Z) :=
  if blen body <=? MAX_BODY_LEN then
    let buf := le_bytes 4 (blen body) ++ le_bytes 8 epoch ++ body in
    Ok (buf ++ le_bytes 4 (crc32c buf))
  else Err (BodyTooLarge (blen body)).

Definition scan_entry (buf : list Z) (offset : Z) : ScannedEntry :=
  let remaining := sat_sub (blen buf) offset in
  if remaining =? 0 then CleanEof
  else if remaining <? ENTRY_OVERHEAD then Torn (TornEnvelope remaining)
  else let len := le_val (slice buf offset (offset + 4)) in
  if MAX_BODY_LEN <? len then Corrupt (LengthExceedsLimit len)
  else let frame_len := ENTRY_OVERHEAD + len in
  if remaining <? frame_len then Torn (TornFrame frame_len remaining)
  else let end_ := offset + frame_len in
  if negb (crc32c (slice buf offset (end_ - 4)) =? le_val (slice buf (end_ - 4) end_))
  then Corrupt EntryCrcMismatch
  else Entry (le_val (slice buf (offset + 4) (offset + 12))) (slice buf (offset + 12) (end_ - 4)) end_.

Section visit.
Context {S E : Type} (visit : Z -> TxRecord -> SM S E unit) (shard_id : Z).

(** The scan loop; [fuel] bounds the number of frames, each of at least 16
    bytes. *)
Fixpoint scan_loop (fuel : nat) (buf : list Z) (prev_tx : option Z) (scan : SegmentScan) (offset : Z)
    : SM S E SegmentScan :=
  let stop why := mret {| entries := entries scan; last_tx := last_tx scan;
    max_epoch := max_epoch scan; valid_len := valid_len scan;
    fault := Some {| fault_offset := offset; fault_reason := why |} |} in
  match fuel with
  | O => mret scan
  | Datatypes.S fuel =>
      match scan_entry buf offset with
      | CleanEof => mret scan
      | Torn why | Corrupt why => stop why
      | Entry epoch body end_ =>
          if epoch <? max_epoch scan then stop (EntryEpochRegresses epoch (max_epoch scan))
          else match decode_record body with
          | None => stop BodyDecodeFailed
          | Some record =>
              if negb (tr_shard_id record =? shard_id) then stop (WrongShard (tr_shard_id record))
              else if match prev_tx with Some prev => tr_tx_id record <=? prev | None => false end
              then stop (TxIdNotIncreasing (tr_tx_id record))
              else
                visit epoch record ≫= fun _ =>
                scan_loop fuel buf (Some (tr_tx_id record))
                  {| entries := entries scan + 1; last_tx := Some (tr_tx_id record);
                     max_epoch := Z.max (max_epoch scan) epoch; valid_len := end_; fault := None |}
                  end_
          end
      end
  end.

Definition scan_segment_bytes (buf : list Z) (prev_tx : option Z) (min_epoch : Z)
    : SM S E ScanOutcome :=
  match decode_segment_header buf with
  | Err why => mret (HeaderCorrupt why)
  | Ok header_epoch =>
      let scan := {| entries := 0; last_tx := None; max_epoch := Z.max header_epoch min_epoch;
        valid_len := SEGMENT_HEADER_LEN; fault := None |} in
      if header_epoch <? min_epoch then
        mret (Scanned {| entries := 0; last_tx := None; max_epoch := Z.max header_epoch min_epoch;
          valid_len := SEGMENT_HEADER_LEN;
          fault := Some {| fault_offset := 0;
            fault_reason := HeaderEpochRegresses header_epoch min_epoch |} |})
      else
        scan_loop (Datatypes.S (length buf)) buf prev_tx scan SEGMENT_HEADER_LEN ≫= fun scan =>
        mret (Scanned scan)
  end.
End visit.

(** ** Replay *)

Section replay.
Context {S E : Type} (visit : Z -> TxRecord -> SM S E unit) (shard_id : Z).

(** The closure [replay] hands to the scan: count, remember the id, visit. *)
Definition replay_visit (epoch : Z) (record : TxRecord) : SM (ReplayReport * S) E unit :=
  fun '(report, s) =>
    let report := {| records := records report + 1; rp_last_tx_id := Some (tr_tx_id record);
      corruption := corruption report |} in
    let '(r, s) := visit epoch record s in (r, (report, s)).

Fixpoint replay_segments (d : LogDir) (segments : list Z) (prev_tx : option Z) (min_epoch : Z)
    : SM (ReplayReport * S) E unit :=
  match segments with
  | [] => mret tt
  | seg :: segments =>
      let corrupt offset why : SM (ReplayReport * S) E unit := fun '(report, s) =>
        (Ok tt, ({| records := records report; rp_last_tx_id := rp_last_tx_id report;
          corruption := Some {| c_segment := seg; c_offset := offset; c_reason := why |} |}, s)) in
      scan_segment_bytes replay_visit shard_id (default [] (segs d !! seg)) prev_tx min_epoch ≫=
      fun outcome => match outcome with
      | HeaderCorrupt why => corrupt 0 (inr why)
      | Scanned scan =>
          match fault scan with
          | Some f => corrupt (fault_offset f) (inl (fault_reason f))
          | None => replay_segments d segments (opt_or (last_tx scan) prev_tx)
                      (Z.max (max_epoch scan) min_epoch)
          end
      end
  end.

Definition replay (d : LogDir) : S -> result E ReplayReport * S := fun s =>
  match replay_segments d (list_segments d) None 0
          ({| records := 0; rp_last_tx_id := None; corruption := None |}, s) with
  | (Ok _, (report, s)) => (Ok report, s)
  | (Err e, (_, s)) => (Err e, s)
  end.
End replay.

(** ** Recovery *)

(** [quarantine_tail]: copy the bytes from [from] to a sidecar, then truncate. *)
Definition quarantine_tail (d : LogDir) (seg from : Z) : LogDir * QuarantineReport :=
  let buf := default [] (segs d !! seg) in
  let tail := skipn (Z.to_nat from) buf in
  ({| segs := <[seg := firstn (Z.to_nat from) buf]> (segs d); sidecars := sidecars d ++ [(seg, tail)] |},
   {| q_segment := seg; q_from_offset := from; q_bytes := blen tail |}).

Definition quarantine_whole_file (d : LogDir) (seg : Z) : LogDir * QuarantineReport :=
  let buf := default [] (segs d !! seg) in
  ({| segs := delete seg (segs d); sidecars := sidecars d ++ [(seg, buf)] |},
   {| q_segment := seg; q_from_offset := 0; q_bytes := blen buf |}).

(** [|_, _| Ok(())]. *)
Definition no_visit (epoch : Z) (record : TxRecord) : SM unit LogError unit := mret tt.

Fixpoint recover_segments (shard_id : Z) (segments : list Z) (prev_tx : option Z) (min_epoch : Z)
    (report : RecoveryReport) (tail : option (Z * Z)) (d : LogDir)
    : result LogError (RecoveryReport * option (Z * Z)) * LogDir :=
  match segments with
  | [] => (Ok (report, tail), d)
  | seg :: segments =>
      let is_tail := match segments with [] => true | _ => false end in
      match scan_segment_bytes no_visit shard_id (default [] (segs d !! seg)) prev_tx min_epoch tt with
      | (Err e, _) => (Err e, d)
      | (Ok (HeaderCorrupt why), _) =>
          if negb is_tail then (Err (NonTailCorruption seg), d)
          else
            let '(d, q) := quarantine_whole_file d seg in
            recover_segments shard_id segments prev_tx min_epoch
              {| rc_last_tx_id := rc_last_tx_id report; rc_epoch := rc_epoch report;
                 rc_segments := rc_segments report - 1; rc_quarantine := Some q |} tail d
      | (Ok (Scanned scan), _) =>
          let finish q d :=
            let prev_tx := opt_or (last_tx scan) prev_tx in
            recover_segments shard_id segments prev_tx (max_epoch scan)
              {| rc_last_tx_id := prev_tx; rc_epoch := Z.max (rc_epoch report) (max_epoch scan);
                 rc_segments := rc_segments report; rc_quarantine := match q with Some q => Some q | None => rc_quarantine report end |}
              (Some (seg, valid_len scan)) d in
          match fault scan with
          | None => finish None d
          | Some f =>
              if negb is_tail then (Err (NonTailCorruption seg), d)
              else let '(d, q) := quarantine_tail d seg (fault_offset f) in finish (Some q) d
          end
      end
  end.

Definition recover (shard_id : Z) (d : LogDir)
    : result LogError (RecoveryReport * option (Z * Z)) * LogDir :=
  recover_segments shard_id (list_segments d) None 0
    {| rc_last_tx_id := None; rc_epoch := 0; rc_segments := Z.of_nat (length (list_segments d));
       rc_quarantine := None |} None d.

(** ** The writer *)

(** [CommitLog::open]: recovery, the epoch check, and the actor's start. *)
Definition open (d : LogDir) (shard_id epoch max_bytes : Z) : result LogError Actor * LogDir :=
  match recover shard_id d with
  | (Err e, d) => (Err e, d)
  | (Ok (recovery, tail), d) =>
      if epoch <? rc_epoch recovery then (Err (EpochRejected epoch (rc_epoch recovery)), d)
      else (Ok {| a_shard_id := shard_id; segment_max_bytes := max_bytes; a_epoch := epoch;
                  current := tail; wbuf := []; last_written := rc_last_tx_id recovery;
                  flushed := rc_last_tx_id recovery; dir := d |}, d)
  end.

(** Append [bytes] to a segment file (the file is opened in append mode). *)
Definition file_append (d : LogDir) (seg : Z) (bytes : list Z) : LogDir :=
  {| segs := <[seg := default [] (segs d !! seg) ++ bytes]> (segs d); sidecars := sidecars d |}.

Definition flush_written (a : Actor) : Actor :=
  match current a with
  | None => a
  | Some (seg, _) =>
      match wbuf a with
      | [] => a
      | _ =>
          {| a_shard_id := a_shard_id a; segment_max_bytes := segment_max_bytes a; a_epoch := a_epoch a;
             current := current a; wbuf := []; last_written := last_written a;
             flushed := last_written a; dir := file_append (dir a) seg (wbuf a) |}
      end
  end.

(** [create_segment]: fails when the file exists ([create_new]). *)
Definition create_segment (d : LogDir) (first_tx_id epoch : Z) : result LogError LogDir :=
  match segs d !! first_tx_id with
  | Some _ => Err (SegmentExists first_tx_id)
  | None => Ok {| segs := <[first_tx_id := encode_segment_header epoch]> (segs d);
                  sidecars := sidecars d |}
  end.

(** The rotation part of [write_record]: seal the active segment, then create
    the next one. *)
Definition rotate (a : Actor) (first_tx_id : Z) : result LogError Actor :=
  let a := match current a with Some _ => flush_written a | None => a end in
  create_segment (dir a) first_tx_id (a_epoch a) ≫= fun d =>
  Ok {| a_shard_id := a_shard_id a; segment_max_bytes := segment_max_bytes a; a_epoch := a_epoch a;
        current := Some (first_tx_id, SEGMENT_HEADER_LEN); wbuf := wbuf a;
        last_written := last_written a; flushed := flushed a; dir := d |}.

Definition write_record (a : Actor) (record : TxRecord) : result LogError Actor :=
  from_option RecordEncoding (encode_record record) ≫= fun body =>
  encode_entry (a_epoch a) body ≫= fun frame =>
  let needs_rotation := match current a with
    | None => true
    | Some (_, len) => segment_max_bytes a <=? len
    end in
  (if needs_rotation then rotate a (tr_tx_id record) else Ok a) ≫= fun a =>
  match current a with
  | None => Err NoActiveSegment
  | Some (seg, len) =>
      Ok {| a_shard_id := a_shard_id a; segment_max_bytes := segment_max_bytes a; a_epoch := a_epoch a;
            current := Some (seg, len + blen frame); wbuf := wbuf a ++ frame;
            last_written := Some (tr_tx_id record); flushed := flushed a; dir := dir a |}
  end.

Inductive Cmd : Type :=
  | CmdAppend (record : TxRecord)
  | CmdSetEpoch (epoch : Z).

Definition set_epoch (a : Actor) (epoch : Z) : Actor :=
  if epoch <? a_epoch a then a
  else {| a_shard_id := a_shard_id a; segment_max_bytes := segment_max_bytes a; a_epoch := epoch;
          current := current a; wbuf := wbuf a; last_written := last_written a;
          flushed := flushed a; dir := dir a |}.

Fixpoint process_cmds (batch : list Cmd) (wrote : bool) (a : Actor) : result LogError (bool * Actor) :=
  match batch with
  | [] => Ok (wrote, a)
  | CmdAppend record :: batch => write_record a record ≫= fun a => process_cmds batch true a
  | CmdSetEpoch epoch :: batch =>
      let a := if wrote then flush_written a else a in
      process_cmds batch false (set_epoch a epoch)
  end.

Definition process (batch : list Cmd) (a : Actor) : result LogError Actor :=
  process_cmds batch false a ≫= fun r : bool * Actor =>
  Ok (if r.1 then flush_written r.2 else r.2).

(** The checks of [CommitLog::append], against the last accepted id. *)
Definition append_accepts (shard_id last_appended : Z) (record : TxRecord) : result LogError Z :=
  if negb (tr_shard_id record =? shard_id) then Err (ShardMismatch (tr_shard_id record))
  else if tr_tx_id record <=? last_appended then Err (TxIdRejected (tr_tx_id record) last_appended)
  else Ok (tr_tx_id record).
End log.

(** ** Compaction *)

(** [segments.windows(2)]. *)
Fixpoint windows2 (l : list Z) : list (Z * Z) :=
  match l with
  | a :: ((b :: _) as l') => (a, b) :: windows2 l'
  | _ => []
  end.

Definition compact_covers (hold : option Z) (covered_up_to_tx next_first : Z) : bool :=
  (next_first <=? sat_add 64 covered_up_to_tx 1) &&
  negb (match hold with Some h => h <? next_first | None => false end).

(** The deleted segments and the directory without them. *)
Definition compact (hold : option Z) (covered_up_to_tx : Z) (d : LogDir) : list Z * LogDir :=
  let deleted := map fst (filter (fun p : Z * Z => compact_covers hold covered_up_to_tx p.2 = true)
                            (windows2 (list_segments d))) in
  (deleted, {| segs := foldr (fun seg (m : gmap Z (list Z)) => delete seg m) (segs d) deleted; sidecars := sidecars d |}).

(** * Scanning what was written *)

Section written.
Context (crc32c : list Z -> Z) (Hcrc : forall d, u_ok 32 (crc32c d)).
Context (encode_record : TxRecord -> option (list Z)) (decode_record : list Z -> option TxRecord).
Context (Hcodec : forall r body, encode_record r = Some body -> decode_record body = Some r).

Notation encode_entry := (encode_entry crc32c).
Notation scan_entry := (scan_entry crc32c).

(** The bytes of a list of (epoch, record) entries. *)
Inductive log_bytes : list (Z * TxRecord) -> list Z -> Prop :=
  | log_nil : log_bytes [] []
  | log_cons e r body f es bs : u_ok 64 e -> encode_record r = Some body ->
      encode_entry e body = Ok f -> log_bytes es bs -> log_bytes ((e, r) :: es) (f ++ bs).

(** What a scan demands of consecutive entries: epochs never regress,
    transaction ids strictly increase, one shard. *)
Fixpoint chain (shard : Z) (prev_tx : option Z) (min_epoch : Z) (es : list (Z * TxRecord)) : Prop :=
  match es with
  | [] => True
  | (e, r) :: es =>
      min_epoch <= e /\ tr_shard_id r = shard /\
      match prev_tx with Some p => p < tr_tx_id r | None => True end /\
      chain shard (Some (tr_tx_id r)) e es
  end.

Lemma encode_entry_Ok e body f : encode_entry e body = Ok f ->
  blen body <= MAX_BODY_LEN /\
  f = le_bytes 4 (blen body) ++ le_bytes 8 e ++ body ++
      le_bytes 4 (crc32c (le_bytes 4 (blen body) ++ le_bytes 8 e ++ body)).
Proof.
  unfold CommitLog.encode_entry. cbv zeta. destruct (Z.leb_spec (blen body) MAX_BODY_LEN); [|done].
  intros <-%Ok_inj. split; [done|]. by rewrite <- !app_assoc.
Qed.

Lemma frame_blen e body f : encode_entry e body = Ok f -> blen f = ENTRY_OVERHEAD + blen body.
Proof. intros [_ ->]%encode_entry_Ok. unfold ENTRY_OVERHEAD. len_solve. Qed.

Lemma body_len_read body rest : blen body <= MAX_BODY_LEN ->
  le_val (slice (le_bytes 4 (blen body) ++ rest) 0 4) = blen body.
Proof.
  intros H. rewrite slice_app_l by len_solve. apply (le_val_unsigned 4).
  unfold u_ok, MAX_BODY_LEN in *. pose proof (blen_nonneg body).
  change (8 * Z.of_nat 4) with 32. lia.
Qed.

Lemma slice_shift pre suf a b : 0 <= a ->
  slice (pre ++ suf) (blen pre + a) (blen pre + b) = slice suf a b.
Proof. intros. rewrite slice_app_r by lia. f_equal; lia. Qed.

Lemma scan_entry_frame pre e body f post : u_ok 64 e -> encode_entry e body = Ok f ->
  scan_entry (pre ++ f ++ post) (blen pre) = Entry e body (blen (pre ++ f)).
Proof using Hcrc.
  intros He Hf. pose proof (frame_blen _ _ _ Hf) as Hl. apply encode_entry_Ok in Hf as [Hmax Ef].
  pose proof (blen_nonneg body). pose proof (blen_nonneg post).
  unfold CommitLog.scan_entry, sat_sub. rewrite !blen_app. unfold ENTRY_OVERHEAD in *.
  rewrite (proj2 (Z.eqb_neq _ 0)), (proj2 (Z.ltb_ge _ 16)) by lia.
  assert (slice (pre ++ f ++ post) (blen pre) (blen pre + 4) = le_bytes 4 (blen body)) as Elen.
  { replace (blen pre) with (blen pre + 0) at 1 by lia. rewrite slice_shift, Ef by lia.
    rewrite <- !app_assoc. by apply slice_app_l. }
  rewrite Elen, (le_val_unsigned 4)
    by (unfold u_ok, MAX_BODY_LEN in *; change (8 * Z.of_nat 4) with 32; lia).
  cbv zeta. rewrite (proj2 (Z.ltb_ge _ _)) by lia.
  rewrite (proj2 (Z.ltb_ge _ (16 + _))) by lia.
  set (head := le_bytes 4 (blen body) ++ le_bytes 8 e ++ body).
  assert (f = head ++ le_bytes 4 (crc32c head)) as Ef' by (by subst head f; rewrite <- !app_assoc).
  assert (blen head = 12 + blen body) as Hh by (subst head; len_solve).
  replace (slice (pre ++ f ++ post) (blen pre) (blen pre + (16 + blen body) - 4)) with head.
  2: { replace (blen pre) with (blen pre + 0) at 1 by lia.
       replace (blen pre + (16 + blen body) - 4) with (blen pre + blen head) by lia.
       rewrite slice_shift, Ef' by lia. rewrite <- !app_assoc. by rewrite slice_app_l. }
  replace (slice (pre ++ f ++ post) (blen pre + (16 + blen body) - 4) (blen pre + (16 + blen body)))
    with (le_bytes 4 (crc32c head)).
  2: { replace (blen pre + (16 + blen body) - 4) with (blen pre + blen head) by lia.
       rewrite slice_shift, Ef', <- !app_assoc by lia. rewrite slice_app_r by lia.
       replace (blen head - blen head) with 0 by lia. symmetry. apply slice_app_l. len_solve. }
  rewrite (le_val_unsigned 4) by apply Hcrc. rewrite Z.eqb_refl. simpl negb. cbv iota.
  f_equal.
  - replace (slice (pre ++ f ++ post) (blen pre + 4) (blen pre + 12)) with (le_bytes 8 e).
    + by apply (le_val_unsigned 8).
    + rewrite slice_shift, Ef, <- !app_assoc by lia. rewrite slice_app_r by len_solve.
      symmetry. rewrite blen_le_bytes. by apply slice_app_l.
  - rewrite slice_app_r by lia. rewrite Ef, <- !app_assoc.
    rewrite slice_app_r by len_solve. rewrite slice_app_r by len_solve.
    rewrite !blen_le_bytes. replace (blen pre + 12 - blen pre - Z.of_nat 4 - Z.of_nat 8) with 0 by lia.
    apply slice_app_l. lia.
  - lia.
Qed.

(** A proper, nonempty prefix of a frame. *)
Definition torn (t : list Z) : Prop :=
  t = [] \/ exists e body f x s, u_ok 64 e /\ encode_entry e body = Ok f /\ f = t ++ x :: s /\ t <> [].

Definition torn_reason (t : list Z) : ScanReason :=
  if blen t <? ENTRY_OVERHEAD then TornEnvelope (blen t)
  else TornFrame (ENTRY_OVERHEAD + le_val (slice t 0 4)) (blen t).

Lemma scan_entry_torn pre t : torn t ->
  scan_entry (pre ++ t) (blen pre) = if blen t =? 0 then CleanEof else Torn (torn_reason t).
Proof.
  unfold CommitLog.scan_entry, sat_sub, torn_reason. rewrite blen_app.
  replace (Z.max (blen pre + blen t - blen pre) 0) with (blen t) by (pose proof (blen_nonneg t); lia).
  intros [->|(e & body & f & x & s & He & Hf & Es & Hne)]; [done|].
  destruct (Z.eqb_spec (blen t) 0) as [E|_]; [by apply blen_zero in E|].
  destruct (Z.ltb_spec (blen t) ENTRY_OVERHEAD) as [|Hge]; [done|].
  assert (slice (pre ++ t) (blen pre) (blen pre + 4) = slice t 0 4) as ->.
  { replace (blen pre) with (blen pre + 0) at 1 by lia. by rewrite slice_shift. }
  pose proof (frame_blen _ _ _ Hf) as Hl. apply encode_entry_Ok in Hf as [Hmax Ef].
  assert (slice t 0 4 = le_bytes 4 (blen body)) as ->.
  { assert (slice (t ++ x :: s) 0 4 = le_bytes 4 (blen body)) as <-
      by (rewrite <- Es, Ef; by apply slice_app_l).
    unfold ENTRY_OVERHEAD in Hge. by rewrite slice_app_le by lia. }
  rewrite (le_val_unsigned 4)
    by (unfold u_ok, MAX_BODY_LEN in *; pose proof (blen_nonneg body); change (8 * Z.of_nat 4) with 32; lia).
  cbv zeta. rewrite (proj2 (Z.ltb_ge _ _)) by lia.
  rewrite (proj2 (Z.ltb_lt _ (ENTRY_OVERHEAD + _))); [done|].
  rewrite Es in Hl. pose proof (blen_nonneg s). autorewrite with fluxum_len in Hl. lia.
Qed.

Lemma header_prefix_blen e : blen (header_prefix e) = 20.
Proof. done. Qed.

Lemma decode_segment_header_encode e rest : u_ok 64 e ->
  decode_segment_header crc32c (encode_segment_header crc32c e ++ rest) = Ok e.
Proof using Hcrc.
  intros He. unfold decode_segment_header, encode_segment_header.
  rewrite (proj2 (Z.ltb_ge _ _)); cycle 1.
  { unfold SEGMENT_HEADER_LEN. rewrite !blen_app, header_prefix_blen, blen_le_bytes.
    pose proof (blen_nonneg rest). lia. }
  rewrite <- !app_assoc. rewrite slice_app_l by done.
  rewrite (slice_mid (header_prefix e)) by done.
  rewrite (le_val_unsigned 4) by apply Hcrc. rewrite Z.eqb_refl. simpl negb. cbv iota.
  rewrite slice_app_le by (rewrite header_prefix_blen; lia).
  change (slice (header_prefix e) 0 8) with SEGMENT_MAGIC.
  rewrite bool_decide_false by (intros H; by apply H).
  change (slice (header_prefix e ++ le_bytes 4 (crc32c (header_prefix e)) ++ rest) 8 10)
    with (le_bytes 2 LOG_FORMAT_VERSION).
  change (slice (header_prefix e ++ le_bytes 4 (crc32c (header_prefix e)) ++ rest) 10 11) with [0].
  change (slice (header_prefix e ++ le_bytes 4 (crc32c (header_prefix e)) ++ rest) 12 20) with (le_bytes 8 e).
  change (negb (le_val (le_bytes 2 LOG_FORMAT_VERSION) =? LOG_FORMAT_VERSION)) with false. cbv zeta iota.
  change (negb (le_val [0] =? CHECKSUM_CRC32C)) with false. cbv iota.
  f_equal. by apply (le_val_unsigned 8).
Qed.

(** ** The scan loop over written entries *)

Section visits.
Context {S E : Type} (visit : Z -> TxRecord -> SM S E unit) (shard : Z).
Notation scan_loop := (scan_loop crc32c decode_record visit shard).

(** Visit the entries in order. *)
Fixpoint visit_all (es : list (Z * TxRecord)) : SM S E unit :=
  match es with
  | [] => mret tt
  | (e, r) :: es => visit e r ≫= fun _ => visit_all es
  end.

(** The scan state after the entries [es], whose bytes end at [end_]. *)
Definition scan_after (scan : SegmentScan) (es : list (Z * TxRecord)) (end_ : Z) : SegmentScan := {|
  entries := entries scan + Z.of_nat (length es);
  last_tx := match last es with Some (_, r) => Some (tr_tx_id r) | None => last_tx scan end;
  max_epoch := match last es with Some (e, _) => e | None => max_epoch scan end;
  valid_len := match es with [] => valid_len scan | _ => end_ end;
  fault := match es with [] => fault scan | _ => None end |}.

Definition prev_after (prev : option Z) (es : list (Z * TxRecord)) : option Z :=
  match last es with Some (_, r) => Some (tr_tx_id r) | None => prev end.

Lemma chain_epoch es : forall prev m, chain shard prev m es ->
  match last es with Some (e, _) => m <= e | None => True end.
Proof.
  induction es as [|[e r] es IH]; intros prev m; simpl; [done|].
  intros (He & _ & _ & Hc). specialize (IH _ _ Hc). destruct es as [|p es]; [done|].
  rewrite last_cons_cons. destruct (last (p :: es)) as [[e' r']|]; [lia|done].
Qed.

Lemma scan_loop_entries es bs : log_bytes es bs -> forall fuel pre post prev scan s,
  chain shard prev (max_epoch scan) es -> fault scan = None ->
  scan_loop (length es + fuel) (pre ++ bs ++ post) prev scan (blen pre) s =
  (visit_all es ≫= fun _ => scan_loop fuel (pre ++ bs ++ post) (prev_after prev es)
    (scan_after scan es (blen (pre ++ bs))) (blen (pre ++ bs))) s.
Proof using Hcrc Hcodec.
  induction 1 as [|e r body f es bs He Hr Hf Hlog IH]; intros fuel pre post prev scan s Hc Hfault.
  - simpl. rewrite app_nil_r. unfold prev_after, scan_after; simpl.
    rewrite Z.add_0_r. destruct scan; simpl in *; by subst.
  - destruct Hc as (Hep & Hsh & Htx & Hc). cbn [length Nat.add CommitLog.scan_loop].
    rewrite <- !app_assoc. rewrite (scan_entry_frame pre e body f) by done.
    rewrite (proj2 (Z.ltb_ge _ _)) by done. rewrite (Hcodec _ _ Hr), Hsh, Z.eqb_refl.
    cbn [negb]. cbv iota.
    replace (match prev with Some p => tr_tx_id r <=? p | None => false end) with false
      by (destruct prev; [symmetry; apply Z.leb_gt; lia|done]).
    cbn [visit_all]. unfold mbind, sm_bind. destruct (visit e r s) as [[[]|err] s1] eqn:Ev; [|done].
    rewrite (app_assoc pre f). specialize (IH fuel (pre ++ f) post (Some (tr_tx_id r))).
    rewrite IH by (simpl; rewrite ?Z.max_r by done; done).
    unfold mbind, sm_bind. destruct (visit_all es s1) as [[[]|err] s2]; [|done].
    rewrite <- !app_assoc. f_equal.
    + unfold prev_after. destruct es as [|p es]; [done|]. rewrite last_cons_cons.
      destruct (last (p :: es)) as [[e' r']|] eqn:El; [done|by apply last_None in El].
    + unfold scan_after. cbn [entries last_tx max_epoch valid_len fault length].
      destruct es as [|p es]; [simpl; f_equal; try lia|].
      * inversion Hlog; subst. by rewrite app_nil_r.
      * rewrite last_cons_cons.
        destruct (last (p :: es)) as [[e' r']|] eqn:El; [|by apply last_None in El].
        f_equal. simpl. lia.
Qed.

Lemma scan_loop_torn fuel pre t prev scan s : torn t -> fault scan = None ->
  scan_loop (Datatypes.S fuel) (pre ++ t) prev scan (blen pre) s =
  (Ok {| entries := entries scan; last_tx := last_tx scan; max_epoch := max_epoch scan;
     valid_len := valid_len scan;
     fault := if blen t =? 0 then None
              else Some {| fault_offset := blen pre; fault_reason := torn_reason t |} |}, s).
Proof.
  intros Ht Hf. cbn [CommitLog.scan_loop]. rewrite scan_entry_torn by done.
  destruct (blen t =? 0); [|done]. unfold mret, sm_ret. destruct scan; simpl in *; by subst.
Qed.
End visits.

(** ** Segments and directories *)

(** A segment file: header epoch, entries with their bytes, and the bytes
    after the last whole entry. *)
Record segment : Type := {
  s_first : Z;
  s_epoch : Z;
  s_entries : list (Z * TxRecord);
  s_bytes : list Z;
  s_tail : list Z;
}.

Definition seg_file (x : segment) : Z * list Z :=
  (s_first x, encode_segment_header crc32c (s_epoch x) ++ s_bytes x ++ s_tail x).
Definition clean (x : segment) : segment := {| s_first := s_first x; s_epoch := s_epoch x;
  s_entries := s_entries x; s_bytes := s_bytes x; s_tail := [] |}.
Definition epoch_after (x : segment) : Z :=
  match last (s_entries x) with Some (e, _) => e | None => s_epoch x end.

Definition segment_ok (shard : Z) (prev : option Z) (min_epoch : Z) (x : segment) : Prop :=
  u_ok 64 (s_epoch x) /\ min_epoch <= s_epoch x /\ log_bytes (s_entries x) (s_bytes x) /\
  chain shard prev (s_epoch x) (s_entries x) /\ torn (s_tail x).

Definition written_scan (x : segment) : SegmentScan := {|
  entries := Z.of_nat (length (s_entries x));
  last_tx := prev_after None (s_entries x);
  max_epoch := epoch_after x;
  valid_len := SEGMENT_HEADER_LEN + blen (s_bytes x);
  fault := if blen (s_tail x) =? 0 then None
    else Some {| fault_offset := SEGMENT_HEADER_LEN + blen (s_bytes x);
                 fault_reason := torn_reason (s_tail x) |} |}.

Lemma log_bytes_length es bs : log_bytes es bs -> (length es <= length bs)%nat.
Proof.
  induction 1 as [|e r body f es bs He Hr Hf _ IH]; [done|].
  apply frame_blen in Hf. pose proof (blen_nonneg body).
  unfold blen, ENTRY_OVERHEAD in *. simpl. rewrite length_app. lia.
Qed.

Lemma blen_segment_header e : blen (encode_segment_header crc32c e) = SEGMENT_HEADER_LEN.
Proof. unfold encode_segment_header. by rewrite blen_app, header_prefix_blen, blen_le_bytes. Qed.

Lemma scan_segment_written {S E} (visit : Z -> TxRecord -> SM S E unit) shard prev me x s :
  segment_ok shard prev me x ->
  scan_segment_bytes crc32c decode_record visit shard (seg_file x).2 prev me s =
  (visit_all visit (s_entries x) ≫= fun _ => mret (Scanned (written_scan x))) s.
Proof using Hcrc Hcodec.
  intros (He & Hme & Hlog & Hc & Ht). unfold scan_segment_bytes, seg_file. cbn [snd].
  rewrite decode_segment_header_encode by done.
  rewrite (proj2 (Z.ltb_ge _ _)), Z.max_l by done. unfold mbind, sm_bind.
  set (buf := encode_segment_header crc32c (s_epoch x) ++ s_bytes x ++ s_tail x).
  assert (exists fuel, Datatypes.S (length buf) = length (s_entries x) + Datatypes.S fuel)%nat as [fuel ->].
  { exists (length buf - length (s_entries x))%nat. pose proof (log_bytes_length _ _ Hlog).
    subst buf. rewrite !length_app. lia. }
  rewrite <- (blen_segment_header (s_epoch x)) at 1 2. unfold buf.
  rewrite (scan_loop_entries visit shard _ _ Hlog) by done.
  unfold mbind, sm_bind. destruct (visit_all visit (s_entries x) s) as [[[]|e] s']; [|done].
  rewrite app_assoc, scan_loop_torn; [|done|by destruct (s_entries x)].
  rewrite blen_app, blen_segment_header. unfold mret, sm_ret. do 3 f_equal.
  unfold written_scan, scan_after, prev_after, epoch_after. simpl. f_equal.
  inversion Hlog; subst; [done|done].
Qed.

Definition prev_of (prev : option Z) (xs : list segment) : option Z :=
  fold_left (fun p x => prev_after p (s_entries x)) xs prev.
Definition epoch_of (me : Z) (xs : list segment) : Z := fold_left (fun _ x => epoch_after x) xs me.

Fixpoint linked (shard : Z) (prev : option Z) (me : Z) (xs : list segment) : Prop :=
  match xs with
  | [] => True
  | x :: xs => segment_ok shard prev me x /\
      linked shard (prev_after prev (s_entries x)) (epoch_after x) xs
  end.

Lemma linked_app shard a b : forall prev me, linked shard prev me (a ++ b) <->
  linked shard prev me a /\ linked shard (prev_of prev a) (epoch_of me a) b.
Proof. induction a as [|x a IH]; intros; simpl; [tauto|]. rewrite IH. tauto. Qed.

(** A segment is named after the first record that follows the previous one. *)
Fixpoint names_follow (xs : list segment) : Prop :=
  match xs with
  | x :: ((y :: _) as xs') => Forall (fun p => tr_tx_id p.2 < s_first y) (s_entries x) /\ names_follow xs'
  | _ => True
  end.

Lemma names_follow_last init x x' : s_first x' = s_first x ->
  names_follow (init ++ [x]) -> names_follow (init ++ [x']).
Proof.
  intros E. induction init as [|y [|z init] IH]; [done| |]; cbn [app names_follow]; rewrite ?E; [done|].
  intros [Hy H]. split; [done|]. by apply IH.
Qed.

Lemma names_follow_snoc init x z : names_follow (init ++ [x]) ->
  Forall (fun p => tr_tx_id p.2 < s_first z) (s_entries x) -> names_follow ((init ++ [x]) ++ [z]).
Proof.
  intros H Hz. induction init as [|y [|w init] IH]; cbn [app names_follow] in *; [done| |].
  - by destruct H.
  - destruct H as [Hy H]. split; [done|]. by apply IH.
Qed.

(** The log on disk: whole segments, then the last one with its tail. *)
Record on_disk (shard : Z) (init : list segment) (x : segment) (d : LogDir) : Prop := {
  disk_files : btree_entries (segs d) = map seg_file (init ++ [x]);
  disk_linked : linked shard None 0 (init ++ [x]);
  disk_clean : Forall (fun y => s_tail y = []) init;
  disk_names : names_follow (init ++ [x]);
}.

Definition all_entries (xs : list segment) : list (Z * TxRecord) := flat_map s_entries xs.

(** ** Recovery *)

Lemma opt_or_prev_after prev es : opt_or (prev_after None es) prev = prev_after prev es.
Proof. unfold prev_after. by destruct (last es) as [[]|]. Qed.

Lemma segment_epoch_le shard prev me x : segment_ok shard prev me x -> me <= epoch_after x.
Proof.
  intros (_ & Hme & _ & Hc & _). apply chain_epoch in Hc. unfold epoch_after.
  destruct (last (s_entries x)) as [[e r]|]; lia.
Qed.

Lemma visit_all_none es : visit_all no_visit es tt = (Ok tt, tt).
Proof. induction es as [|[e r] es IH]; [done|]. exact IH. Qed.

Lemma firstn_valid x : firstn (Z.to_nat (SEGMENT_HEADER_LEN + blen (s_bytes x))) (seg_file x).2 =
  (seg_file (clean x)).2 /\
  skipn (Z.to_nat (SEGMENT_HEADER_LEN + blen (s_bytes x))) (seg_file x).2 = s_tail x.
Proof.
  unfold seg_file, clean; cbn [snd s_epoch s_bytes s_tail]. rewrite <- (blen_segment_header (s_epoch x)).
  rewrite <- blen_app. unfold blen. rewrite Nat2Z.id, app_assoc, app_nil_r.
  split; [apply take_app_length|apply drop_app_length].
Qed.

(** The directory after recovery: the tail of the last segment moved to a
    sidecar. *)
Definition repaired (d : LogDir) (x : segment) : LogDir :=
  if blen (s_tail x) =? 0 then d
  else {| segs := <[s_first x := (seg_file (clean x)).2]> (segs d);
          sidecars := sidecars d ++ [(s_first x, s_tail x)] |}.

Definition recovered (report : RecoveryReport) prev me (xs : list segment) (x : segment) : RecoveryReport := {|
  rc_last_tx_id := prev_of prev xs;
  rc_epoch := Z.max (rc_epoch report) (epoch_of me xs);
  rc_segments := rc_segments report;
  rc_quarantine := if blen (s_tail x) =? 0 then rc_quarantine report
    else Some {| q_segment := s_first x; q_from_offset := SEGMENT_HEADER_LEN + blen (s_bytes x);
                 q_bytes := blen (s_tail x) |} |}.

Lemma epoch_of_ge shard xs : forall prev me, linked shard prev me xs -> me <= epoch_of me xs.
Proof.
  induction xs as [|x xs IH]; intros prev me; cbn [linked epoch_of fold_left]; [done|].
  intros [Hx Hl]. apply segment_epoch_le in Hx. apply IH in Hl. unfold epoch_of in Hl. lia.
Qed.

Lemma recover_segments_spec shard init x d : forall prev me report tail,
  linked shard prev me (init ++ [x]) -> Forall (fun y => s_tail y = []) init ->
  Forall (fun y => segs d !! s_first y = Some (seg_file y).2) (init ++ [x]) ->
  recover_segments crc32c decode_record shard (map s_first (init ++ [x])) prev me report tail d =
  (Ok (recovered report prev me (init ++ [x]) x, Some (s_first x, SEGMENT_HEADER_LEN + blen (s_bytes x))),
   repaired d x).
Proof using Hcrc Hcodec.
  induction init as [|y init IH]; intros prev me report tail Hl Hc Hf.
  - destruct Hl as [Hx _]. apply Forall_cons in Hf as [Hf _].
    cbn [app map recover_segments]. rewrite Hf. cbn [default from_option]. unfold id.
    rewrite (scan_segment_written no_visit shard prev me x) by done.
    unfold mbind, sm_bind. rewrite visit_all_none. cbn [mret sm_ret].
    unfold repaired, recovered. cbn [written_scan fault last_tx max_epoch valid_len].
    rewrite opt_or_prev_after. cbn [prev_of epoch_of fold_left].
    destruct (blen (s_tail x) =? 0); [done|]. cbn [negb fault_offset].
    unfold quarantine_tail. rewrite Hf. cbn [default from_option]. unfold id.
    destruct (firstn_valid x) as [-> ->]. done.
  - destruct Hl as [Hy Hl]. apply Forall_cons in Hc as [Hty Hc]. apply Forall_cons in Hf as [Hfy Hf].
    cbn [app map recover_segments]. rewrite Hfy. cbn [default from_option]. unfold id at 1.
    rewrite (scan_segment_written no_visit shard prev me y) by done.
    unfold mbind, sm_bind. rewrite visit_all_none. cbn [mret sm_ret].
    cbn [written_scan fault last_tx max_epoch valid_len]. rewrite Hty. cbn [blen length Z.of_nat Z.eqb].
    rewrite opt_or_prev_after, IH by done. unfold recovered.
    cbn [rc_epoch rc_segments rc_quarantine prev_of epoch_of fold_left app].
    fold (epoch_of (epoch_after y) (init ++ [x])).
    pose proof (epoch_of_ge _ _ _ _ Hl). by rewrite <- Z.max_assoc, (Z.max_r (epoch_after y)).
Qed.

Lemma on_disk_lookup shard init x d : on_disk shard init x d ->
  list_segments d = map s_first (init ++ [x]) /\
  Forall (fun y => segs d !! s_first y = Some (seg_file y).2) (init ++ [x]).
Proof.
  intros [Hfiles _ _ _]. split.
  - unfold list_segments, btree_keys. rewrite Hfiles, <- list_fmap_compose. apply list_fmap_ext. done.
  - apply Forall_forall. intros y Hy. apply elem_of_btree_entries. rewrite Hfiles.
    apply list_elem_of_fmap. by exists y.
Qed.

Lemma segment_ok_clean shard prev me x : segment_ok shard prev me x -> segment_ok shard prev me (clean x).
Proof. intros (H1 & H2 & H3 & H4 & _). exact (conj H1 (conj H2 (conj H3 (conj H4 (or_introl eq_refl))))). Qed.

Lemma on_disk_repaired shard init x d : on_disk shard init x d ->
  on_disk shard init (clean x) (repaired d x).
Proof.
  intros [Hfiles Hl Hc Hn]. split; [|apply linked_app in Hl as [Hi [Hx _]]; apply linked_app; split;
    [done|split; [by apply segment_ok_clean|done]]|done|exact (names_follow_last init x (clean x) eq_refl Hn)].
  unfold repaired. rewrite map_app in *. cbn [map] in *.
  destruct (Z.eqb_spec (blen (s_tail x)) 0) as [E%blen_zero|].
  - rewrite Hfiles. do 2 f_equal. unfold clean. rewrite <- E. by destruct x.
  - cbn [segs]. by apply (btree_entries_replace _ _ _ (seg_file x).2 _ []).
Qed.

(** ** Replay *)

Lemma visit_all_app {S E} (visit : Z -> TxRecord -> SM S E unit) a b s :
  visit_all visit (a ++ b) s = (visit_all visit a ≫= fun _ => visit_all visit b) s.
Proof.
  revert s. induction a as [|[e r] a IH]; intros s; cbn [app visit_all]; unfold mbind, sm_bind; [done|].
  destruct (visit e r s) as [[[]|err] s1]; [|done]. apply IH.
Qed.

Definition counted (report : ReplayReport) (es : list (Z * TxRecord)) : ReplayReport := {|
  records := records report + Z.of_nat (length es);
  rp_last_tx_id := prev_after (rp_last_tx_id report) es;
  corruption := corruption report |}.

Lemma visit_all_replay {S E} (visit : Z -> TxRecord -> SM S E unit) es : forall report s,
  (fun '(r, (_, s)) => (r, s)) (visit_all (replay_visit visit) es (report, s)) = visit_all visit es s /\
  (forall s', visit_all visit es s = (Ok tt, s') ->
     visit_all (replay_visit visit) es (report, s) = (Ok tt, (counted report es, s'))).
Proof.
  induction es as [|[e r] es IH]; intros report s.
  - split; [done|]. intros s' [= ->]. unfold counted. destruct report. cbn. by rewrite Z.add_0_r.
  - cbn [visit_all]. unfold mbind, sm_bind, replay_visit at 1 3.
    destruct (visit e r s) as [[[]|err] s1]; [|done].
    destruct (IH {| records := records report + 1; rp_last_tx_id := Some (tr_tx_id r);
      corruption := corruption report |} s1) as [IH1 IH2].
    split; [done|]. intros s' Hs. rewrite (IH2 _ Hs).
    match goal with |- (_, (?a, _)) = (_, (?b, _)) => assert (a = b) as ->; [|done] end.
    unfold counted. cbn [records rp_last_tx_id corruption].
    f_equal; [cbn [length]; lia|]. unfold prev_after. destruct es as [|p es]; [done|].
    rewrite last_cons_cons. destruct (last (p :: es)) as [[]|] eqn:El; [done|by apply last_None in El].
Qed.

Definition tail_corruption (x : segment) : option Corruption :=
  if blen (s_tail x) =? 0 then None
  else Some {| c_segment := s_first x; c_offset := SEGMENT_HEADER_LEN + blen (s_bytes x);
               c_reason := inl (torn_reason (s_tail x)) |}.

Definition with_corruption (report : ReplayReport) (c : option Corruption) : ReplayReport := {|
  records := records report; rp_last_tx_id := rp_last_tx_id report;
  corruption := match c with Some c => Some c | None => corruption report end |}.

Lemma replay_segments_spec {S E} (visit : Z -> TxRecord -> SM S E unit) shard init x d :
  forall prev me st, linked shard prev me (init ++ [x]) -> Forall (fun y => s_tail y = []) init ->
  Forall (fun y => segs d !! s_first y = Some (seg_file y).2) (init ++ [x]) ->
  replay_segments crc32c decode_record visit shard d (map s_first (init ++ [x])) prev me st =
  match visit_all (replay_visit visit) (all_entries (init ++ [x])) st with
  | (Ok _, (report, s)) => (Ok tt, (with_corruption report (tail_corruption x), s))
  | (Err e, st) => (Err e, st)
  end.
Proof using Hcrc Hcodec.
  induction init as [|y init IH]; intros prev me st Hl Hc Hf.
  - destruct Hl as [Hx _]. apply Forall_cons in Hf as [Hf _]. cbn [app map replay_segments].
    rewrite Hf. cbn [default from_option]. unfold id at 1. unfold mbind at 1, sm_bind at 1.
    rewrite (scan_segment_written (replay_visit visit) shard prev me x) by done.
    unfold mbind, sm_bind, all_entries. cbn [flat_map]. rewrite app_nil_r.
    destruct (visit_all (replay_visit visit) (s_entries x) st) as [[[]|e] [report s']]; [|done].
    unfold mret at 1, sm_ret at 1. cbn [written_scan fault]. unfold tail_corruption, with_corruption.
    destruct (blen (s_tail x) =? 0); cbn [fault_offset fault_reason]; [by destruct report|done].
  - destruct Hl as [Hy Hl]. apply Forall_cons in Hc as [Hty Hc]. apply Forall_cons in Hf as [Hfy Hf].
    cbn [app map replay_segments]. rewrite Hfy. cbn [default from_option]. unfold id at 1.
    unfold mbind at 1, sm_bind at 1.
    rewrite (scan_segment_written (replay_visit visit) shard prev me y) by done.
    unfold all_entries. cbn [flat_map]. rewrite visit_all_app. unfold mbind, sm_bind.
    destruct (visit_all (replay_visit visit) (s_entries y) st) as [[[]|e] st1]; [|done].
    unfold mret at 1, sm_ret at 1. cbn [written_scan fault last_tx max_epoch]. rewrite Hty.
    cbn [blen length Z.of_nat Z.eqb].
    rewrite opt_or_prev_after, Z.max_l by by eapply segment_epoch_le.
    by apply IH.
Qed.

Lemma replay_on_disk {S E} (visit : Z -> TxRecord -> SM S E unit) shard init x d s :
  on_disk shard init x d ->
  replay crc32c decode_record visit shard d s =
  match visit_all visit (all_entries (init ++ [x])) s with
  | (Ok _, s') => (Ok {| records := Z.of_nat (length (all_entries (init ++ [x])));
      rp_last_tx_id := prev_after None (all_entries (init ++ [x]));
      corruption := tail_corruption x |}, s')
  | (Err e, s') => (Err e, s')
  end.
Proof using Hcrc Hcodec.
  intros Hd. destruct (on_disk_lookup _ _ _ _ Hd) as [Hls Hf]. destruct Hd as [_ Hl Hc _].
  unfold replay. rewrite Hls, replay_segments_spec by done.
  set (report := {| records := 0; rp_last_tx_id := None; corruption := None |}).
  destruct (visit_all_replay visit (all_entries (init ++ [x])) report s) as [H1 H2].
  destruct (visit_all visit (all_entries (init ++ [x])) s) as [[[]|e] s'].
  - rewrite (H2 s' eq_refl). unfold with_corruption, counted. cbn. by destruct (tail_corruption x).
  - destruct (visit_all (replay_visit visit) _ _) as [r [report' s'']]. by injection H1 as -> ->.
Qed.

(** ** Corruption *)

Lemma scan_entry_mismatch pre lenb mid c post n :
  blen lenb = 4 -> le_val lenb = n -> 0 <= n <= MAX_BODY_LEN -> blen mid = 8 + n -> blen c = 4 ->
  crc32c (lenb ++ mid) <> le_val c ->
  scan_entry (pre ++ (lenb ++ mid ++ c) ++ post) (blen pre) = Corrupt EntryCrcMismatch.
Proof.
  intros Hl Hn Hmax Hmid Hc Hne. pose proof (blen_nonneg post).
  unfold CommitLog.scan_entry, sat_sub. rewrite !blen_app. unfold ENTRY_OVERHEAD.
  rewrite (proj2 (Z.eqb_neq _ 0)), (proj2 (Z.ltb_ge _ 16)) by lia.
  rewrite <- !app_assoc. rewrite (slice_mid pre lenb) by lia. rewrite Hn.
  cbv zeta. rewrite (proj2 (Z.ltb_ge _ _)) by lia. rewrite (proj2 (Z.ltb_ge _ (16 + _))) by lia.
  rewrite (app_assoc lenb mid). rewrite (slice_mid pre (lenb ++ mid)) by (rewrite ?blen_app; lia).
  rewrite (app_assoc pre). rewrite (slice_mid (pre ++ lenb ++ mid) c) by (rewrite ?blen_app; lia).
  by rewrite (proj2 (Z.eqb_neq _ _)).
Qed.

Context (Hdetect : forall p x y q, byte_ok x -> byte_ok y -> x <> y ->
  crc32c (p ++ x :: q) <> crc32c (p ++ y :: q)).

Lemma scan_entry_changed pre e body f post a x y b :
  encode_entry e body = Ok f -> f = a ++ x :: b -> 4 <= blen a -> byte_ok x -> byte_ok y -> x <> y ->
  scan_entry (pre ++ (a ++ y :: b) ++ post) (blen pre) = Corrupt EntryCrcMismatch.
Proof using Hcrc Hdetect.
  intros Hf Ef Ha Hx Hy Hne. pose proof (frame_blen _ _ _ Hf) as Hl.
  apply encode_entry_Ok in Hf as [Hmax Ef']. pose proof (blen_nonneg body). rewrite Ef' in Ef.
  set (lenb := le_bytes 4 (blen body)) in *.
  assert (le_val lenb = blen body) as Hlen.
  { apply (le_val_unsigned 4). unfold u_ok, MAX_BODY_LEN in *. change (8 * Z.of_nat 4) with 32. lia. }
  assert (exists a', a = lenb ++ a') as [a' ->].
  { symmetry in Ef. apply app_eq_inv in Ef as [(k & -> & _)|(k & E & _)]; [by eexists|].
    exists []. assert (k = []) as ->; [|by rewrite app_nil_r in *].
    apply blen_zero. apply (f_equal blen) in E. rewrite blen_app in E. pose proof (blen_nonneg k).
    unfold lenb in E. rewrite blen_le_bytes in E. lia. }
  rewrite <- app_assoc in Ef. apply app_inv_head in Ef. rewrite app_assoc in Ef.
  set (crc := crc32c (lenb ++ le_bytes 8 e ++ body)) in *.
  symmetry in Ef. apply split_change in Ef as [(k & Ek & ->)|(k & -> & Ec)].
  - replace ((lenb ++ a') ++ y :: k ++ le_bytes 4 crc) with (lenb ++ (a' ++ y :: k) ++ le_bytes 4 crc)
      by by rewrite <- !app_assoc.
    apply (scan_entry_mismatch _ _ _ _ _ (blen body)); [done|done|done| |done|].
    + apply (f_equal blen) in Ek. rewrite !blen_app, blen_le_bytes in *. rewrite !blen_cons in *. lia.
    + rewrite (le_val_unsigned 4) by apply Hcrc. unfold crc. rewrite Ek, !(app_assoc lenb). auto.
  - replace ((lenb ++ (le_bytes 8 e ++ body) ++ k) ++ y :: b)
      with (lenb ++ (le_bytes 8 e ++ body) ++ (k ++ y :: b)) by by rewrite <- !app_assoc.
    pose proof (le_bytes_ok 4 crc) as Hok. rewrite Ec in Hok. apply bytes_ok_app in Hok as [Hk [_ Hb]%bytes_ok_cons].
    apply (scan_entry_mismatch _ _ _ _ _ (blen body)); [done|done|done| | |].
    + rewrite blen_app, blen_le_bytes. done.
    + apply (f_equal blen) in Ec. rewrite blen_le_bytes in Ec. rewrite !blen_app, !blen_cons in *. lia.
    + fold crc. rewrite <- (le_val_unsigned 4 crc) by apply Hcrc. rewrite Ec. intros E.
      apply le_val_inj in E; [|by rewrite bytes_ok_app, bytes_ok_cons..|by rewrite !length_app].
      apply app_inv_head in E. congruence.
Qed.

(** A segment whose frame after [es] has a changed byte past the length field:
    the scan visits exactly [es] and stops at that frame. *)
Lemma scan_segment_changed {S E} (visit : Z -> TxRecord -> SM S E unit) shard prev me x e body f a c y b post s :
  segment_ok shard prev me x -> encode_entry e body = Ok f -> f = a ++ c :: b -> 4 <= blen a ->
  byte_ok c -> byte_ok y -> c <> y ->
  scan_segment_bytes crc32c decode_record visit shard
    (encode_segment_header crc32c (s_epoch x) ++ s_bytes x ++ (a ++ y :: b) ++ post) prev me s =
  (visit_all visit (s_entries x) ≫= fun _ => mret (Scanned {|
    entries := Z.of_nat (length (s_entries x)); last_tx := prev_after None (s_entries x);
    max_epoch := epoch_after x; valid_len := SEGMENT_HEADER_LEN + blen (s_bytes x);
    fault := Some {| fault_offset := SEGMENT_HEADER_LEN + blen (s_bytes x);
                     fault_reason := EntryCrcMismatch |} |})) s.
Proof using Hcrc Hcodec Hdetect.
  intros (He & Hme & Hlog & Hc & _) Hf Ef Ha Hcb Hy Hne. unfold scan_segment_bytes.
  rewrite decode_segment_header_encode by done.
  rewrite (proj2 (Z.ltb_ge _ _)), Z.max_l by done. unfold mbind, sm_bind.
  set (buf := encode_segment_header crc32c (s_epoch x) ++ s_bytes x ++ (a ++ y :: b) ++ post).
  assert (exists fuel, Datatypes.S (length buf) = length (s_entries x) + Datatypes.S fuel)%nat as [fuel ->].
  { exists (length buf - length (s_entries x))%nat. pose proof (log_bytes_length _ _ Hlog).
    subst buf. rewrite !length_app. lia. }
  rewrite <- (blen_segment_header (s_epoch x)) at 1 2. unfold buf.
  rewrite (scan_loop_entries visit shard _ _ Hlog) by done.
  unfold mbind, sm_bind. destruct (visit_all visit (s_entries x) s) as [[[]|err] s']; [|done].
  cbn [scan_loop]. rewrite (app_assoc (encode_segment_header crc32c (s_epoch x))).
  rewrite (scan_entry_changed _ e body f post a c y b) by done.
  rewrite blen_app, blen_segment_header. unfold mret, sm_ret. do 3 f_equal.
  unfold scan_after, prev_after, epoch_after. simpl. f_equal. inversion Hlog; subst; [done|done].
Qed.

(** ** The writer *)

Lemma prev_of_entries xs : forall prev, prev_of prev xs = prev_after prev (all_entries xs).
Proof.
  induction xs as [|x xs IH]; intros prev; [done|]. cbn [prev_of fold_left].
  fold (prev_of (prev_after prev (s_entries x)) xs). rewrite IH. unfold all_entries. cbn [flat_map].
  unfold prev_after. rewrite last_app. by destruct (last (flat_map s_entries xs)) as [[]|].
Qed.

Lemma prev_after_app prev a b : prev_after prev (a ++ b) = prev_after (prev_after prev a) b.
Proof. unfold prev_after. rewrite last_app. by destruct (last b) as [[]|]. Qed.

Lemma all_entries_app a b : all_entries (a ++ b) = all_entries a ++ all_entries b.
Proof. apply flat_map_app. Qed.

Lemma log_bytes_app es1 bs1 es2 bs2 : log_bytes es1 bs1 -> log_bytes es2 bs2 ->
  log_bytes (es1 ++ es2) (bs1 ++ bs2).
Proof. induction 1; intros; cbn [app]; [done|]. rewrite <- app_assoc. econstructor; eauto. Qed.

Definition last_epoch (me : Z) (es : list (Z * TxRecord)) : Z :=
  match last es with Some (e, _) => e | None => me end.

Lemma chain_app shard a b : forall prev me, chain shard prev me (a ++ b) <->
  chain shard prev me a /\ chain shard (prev_after prev a) (last_epoch me a) b.
Proof.
  induction a as [|[e r] a IH]; intros prev me; [cbn; tauto|]. cbn [app chain]. rewrite IH.
  replace (prev_after prev ((e, r) :: a)) with (prev_after (Some (tr_tx_id r)) a)
    by (unfold prev_after; destruct a as [|p a]; [done|]; rewrite last_cons_cons;
        destruct (last (p :: a)) as [[]|] eqn:El; [done|by apply last_None in El]).
  replace (last_epoch me ((e, r) :: a)) with (last_epoch e a); [tauto|].
  unfold last_epoch. destruct a as [|p a]; [done|]. rewrite last_cons_cons.
  destruct (last (p :: a)) as [[]|] eqn:El; [done|by apply last_None in El].
Qed.

(** The segment after appending entries [es] with bytes [bs]. *)
Definition extend (x : segment) (es : list (Z * TxRecord)) (bs : list Z) : segment := {|
  s_first := s_first x; s_epoch := s_epoch x; s_entries := s_entries x ++ es;
  s_bytes := s_bytes x ++ bs; s_tail := [] |}.

(** The actor between two commands: [init] and [x] are on disk, [pend] is in
    the write buffer. *)
Record writer_ok (shard : Z) (init : list segment) (x : segment) (pend : list (Z * TxRecord)) (a : Actor)
    : Prop := {
  w_disk : on_disk shard init x (dir a);
  w_tail : s_tail x = [];
  w_current : current a =
    Some (s_first x, SEGMENT_HEADER_LEN + blen (s_bytes x) + blen (wbuf a));
  w_buf : log_bytes pend (wbuf a);
  w_chain : chain shard (prev_of None init) (s_epoch x) (s_entries x ++ pend);
  w_epoch : last_epoch (s_epoch x) (s_entries x ++ pend) <= a_epoch a;
  w_u64 : u_ok 64 (a_epoch a);
  w_max : SEGMENT_HEADER_LEN < segment_max_bytes a;
  w_firsts : s_entries x ++ pend <> [] ->
    exists l, prev_after None (all_entries (init ++ [x]) ++ pend) = Some l /\
      Forall (fun y => s_first y <= l) (init ++ [x]);
}.

Lemma linked_last shard init x : linked shard None 0 (init ++ [x]) ->
  linked shard None 0 init /\ segment_ok shard (prev_of None init) (epoch_of 0 init) x.
Proof. intros [Hi [Hx _]]%linked_app. by split. Qed.

Lemma linked_snoc shard init x : linked shard None 0 init ->
  segment_ok shard (prev_of None init) (epoch_of 0 init) x -> linked shard None 0 (init ++ [x]).
Proof. intros Hi Hx. apply linked_app. exact (conj Hi (conj Hx I)). Qed.

Lemma on_disk_extend shard init x d es bs : on_disk shard init x d -> s_tail x = [] ->
  log_bytes es bs -> chain shard (prev_of None init) (s_epoch x) (s_entries x ++ es) ->
  on_disk shard init (extend x es bs) (file_append d (s_first x) bs).
Proof.
  intros Hd Ht Hlog Hc. destruct (on_disk_lookup _ _ _ _ Hd) as [_ Hf]. destruct Hd as [Hfiles Hl Hcl Hn].
  apply Forall_app in Hf as [_ [Hx _]%Forall_cons].
  apply linked_last in Hl as [Hi (He & Hme & Hlx & _ & _)]. split; [| |done|exact (names_follow_last init x (extend x es bs) eq_refl Hn)].
  - unfold file_append. cbn [segs]. rewrite Hx. cbn [default from_option]. unfold id.
    rewrite map_app in *. cbn [map] in *.
    rewrite (btree_entries_replace _ _ _ (seg_file x).2 _ [] Hfiles). do 2 f_equal.
    unfold seg_file, extend. cbn [s_first s_epoch s_bytes s_tail snd]. rewrite Ht.
    by rewrite !app_nil_r, app_assoc.
  - apply linked_snoc; [done|]. unfold segment_ok, extend. cbn [s_epoch s_entries s_bytes s_tail].
    exact (conj He (conj Hme (conj (log_bytes_app _ _ _ _ Hlx Hlog) (conj Hc (or_introl eq_refl))))).
Qed.

Lemma flush_written_ok shard init x pend a : writer_ok shard init x pend a ->
  exists x', writer_ok shard init x' [] (flush_written a) /\ s_first x' = s_first x /\
    all_entries (init ++ [x']) = all_entries (init ++ [x]) ++ pend /\
    s_entries x' = s_entries x ++ pend /\
    a_epoch (flush_written a) = a_epoch a /\ segment_max_bytes (flush_written a) = segment_max_bytes a /\
    wbuf (flush_written a) = [].
Proof.
  intros Hw. pose proof Hw as [Hd Ht Hcur Hb Hc He Hu Hm Hfi]. unfold flush_written. rewrite Hcur.
  destruct (wbuf a) as [|b bs] eqn:Ew.
  - inversion Hb as [|? ? ? f ? ? ? ? Hf]; subst.
    2: { exfalso. apply frame_blen in Hf. destruct f; [|done]. rewrite blen_nil in Hf.
         pose proof (blen_nonneg body). unfold ENTRY_OVERHEAD in Hf. lia. }
    exists x. rewrite !app_nil_r. done.
  - exists (extend x pend (b :: bs)).
    assert (all_entries (init ++ [extend x pend (b :: bs)]) = all_entries (init ++ [x]) ++ pend) as Eall.
    { rewrite !all_entries_app. unfold all_entries at 2 4. cbn [flat_map extend s_entries].
      by rewrite !app_nil_r, app_assoc. }
    split; [|done]. split; cbn [dir current wbuf a_epoch segment_max_bytes]; try done.
    + by apply on_disk_extend.
    + unfold extend. cbn [s_first s_bytes]. do 2 f_equal. rewrite blen_app, blen_nil. lia.
    + constructor.
    + by rewrite app_nil_r.
    + by rewrite app_nil_r.
    + rewrite !app_nil_r. cbn [extend s_entries]. rewrite Eall. intros Hne.
      destruct (Hfi Hne) as (l & Hl & Hf). exists l. split; [done|].
      rewrite Forall_app, Forall_singleton in *. done.
Qed.

(** The next record extends the log: one shard, a larger id, segment names no
    larger than it. *)
Definition next_ok (shard : Z) (xs : list segment) (pend : list (Z * TxRecord)) (r : TxRecord) : Prop :=
  tr_shard_id r = shard /\
  match prev_after None (all_entries xs ++ pend) with Some p => p < tr_tx_id r | None => True end /\
  Forall (fun y => s_first y <= tr_tx_id r) xs.

Definition fresh_segment (first epoch : Z) : segment :=
  {| s_first := first; s_epoch := epoch; s_entries := []; s_bytes := []; s_tail := [] |}.

Definition with_frame (a : Actor) (seg len : Z) (frame : list Z) (r : TxRecord) : Actor :=
  {| a_shard_id := a_shard_id a; segment_max_bytes := segment_max_bytes a; a_epoch := a_epoch a;
     current := Some (seg, len + blen frame); wbuf := wbuf a ++ frame;
     last_written := Some (tr_tx_id r); flushed := flushed a; dir := dir a |}.

Lemma push_frame shard init x pend a r body f :
  writer_ok shard init x pend a -> encode_record r = Some body ->
  encode_entry (a_epoch a) body = Ok f -> next_ok shard (init ++ [x]) pend r ->
  writer_ok shard init x (pend ++ [(a_epoch a, r)])
    (with_frame a (s_first x) (SEGMENT_HEADER_LEN + blen (s_bytes x) + blen (wbuf a)) f r).
Proof.
  intros [Hd Ht Hcur Hb Hc He Hu Hm Hfi] Hr Hf (Hsh & Hprev & Hle). unfold with_frame.
  split; cbn [dir current wbuf a_epoch segment_max_bytes]; try done.
  - do 2 f_equal. rewrite blen_app. lia.
  - rewrite <- (app_nil_r f). apply log_bytes_app; [done|]. by econstructor; [..|constructor].
  - rewrite app_assoc, chain_app. split; [done|]. cbn [chain]. split_and!; [done|done| |done].
    rewrite prev_of_entries, <- prev_after_app.
    replace (all_entries init ++ s_entries x ++ pend) with (all_entries (init ++ [x]) ++ pend); [done|].
    rewrite all_entries_app, <- app_assoc. unfold all_entries at 2. cbn [flat_map].
    by rewrite app_nil_r.
  - unfold last_epoch. by rewrite app_assoc, last_snoc.
  - intros _. exists (tr_tx_id r). split; [|done]. unfold prev_after. by rewrite app_assoc, last_snoc.
Qed.

Lemma list_segments_firsts shard init x d : on_disk shard init x d ->
  btree_keys (segs d) = map s_first (init ++ [x]).
Proof. intros Hd. by destruct (on_disk_lookup _ _ _ _ Hd). Qed.

Lemma create_segment_ok shard init x d first epoch :
  on_disk shard init x d -> s_tail x = [] -> u_ok 64 epoch -> epoch_after x <= epoch ->
  Forall (fun y => s_first y < first) (init ++ [x]) ->
  Forall (fun p => tr_tx_id p.2 < first) (s_entries x) ->
  exists d', create_segment crc32c d first epoch = Ok d' /\
    on_disk shard (init ++ [x]) (fresh_segment first epoch) d'.
Proof.
  intros Hd Ht Hu He Hlt Hall. pose proof (list_segments_firsts _ _ _ _ Hd) as Hk.
  destruct Hd as [Hfiles Hl Hc Hn].
  assert (Forall (fun k => key_lt k first) (btree_keys (segs d))) as Hkeys.
  { rewrite Hk. apply (proj2 (Forall_fmap _ _ _)). eapply Forall_impl; [exact Hlt|].
    intros y Hy. by apply Z.compare_lt_iff. }
  unfold create_segment. destruct (segs d !! first) as [bs|] eqn:E.
  { exfalso. rewrite Forall_forall in Hkeys. apply (key_lt_irrefl first), Hkeys.
    apply elem_of_btree_keys. eauto. }
  eexists; split; [done|]. split; cbn [segs].
  - rewrite btree_entries_snoc, Hfiles, (map_app _ (init ++ [x])) by done. do 2 f_equal.
  - apply linked_snoc; [done|]. unfold segment_ok, fresh_segment; cbn [s_epoch s_entries s_bytes s_tail].
    assert (epoch_of 0 (init ++ [x]) <= epoch) as He'
      by (unfold epoch_of; by rewrite fold_left_app).
    exact (conj Hu (conj He' (conj log_nil (conj I (or_introl eq_refl))))).
  - apply Forall_app. by split; [|constructor].
  - by apply names_follow_snoc.
Qed.

Lemma chain_last shard es : forall prev me, chain shard prev me es ->
  match last es with Some (_, r) => Forall (fun p => tr_tx_id p.2 <= tr_tx_id r) es | None => True end.
Proof.
  induction es as [|[e r] es IH]; intros prev me; [done|]. intros (_ & _ & _ & Hc). specialize (IH _ _ Hc).
  destruct es as [|[e' r'] es]; [by repeat constructor|]. rewrite last_cons_cons.
  destruct (last ((e', r') :: es)) as [[e2 r2]|]; [|done]. constructor; [|done].
  destruct Hc as (_ & _ & Hlt & _). apply Forall_cons in IH as [IH _]. cbn [snd] in *. lia.
Qed.

(** Rotation seals the active segment with its pending entries and opens a
    fresh one. *)
Lemma rotate_ok shard init x pend a r :
  writer_ok shard init x pend a -> next_ok shard (init ++ [x]) pend r -> s_entries x ++ pend <> [] ->
  exists x' a', rotate crc32c a (tr_tx_id r) = Ok a' /\
    writer_ok shard (init ++ [x']) (fresh_segment (tr_tx_id r) (a_epoch a)) [] a' /\
    all_entries (init ++ [x']) = all_entries (init ++ [x]) ++ pend /\
    a_epoch a' = a_epoch a /\ s_first x' = s_first x /\ wbuf a' = [].
Proof.
  intros Hw (Hsh & Hprev & Hle) Hne. destruct (w_firsts _ _ _ _ _ Hw Hne) as (l & Hl & Hfl).
  rewrite Hl in Hprev.
  destruct (flush_written_ok _ _ _ _ _ Hw) as (x' & Hw' & Hfx & Hall & Hent & Hep & Hmax & Hwb).
  destruct (create_segment_ok shard init x' (dir (flush_written a)) (tr_tx_id r) (a_epoch (flush_written a)))
    as (d' & Hcr & Hd').
  - apply (w_disk _ _ _ _ _ Hw').
  - apply (w_tail _ _ _ _ _ Hw').
  - apply (w_u64 _ _ _ _ _ Hw').
  - pose proof (w_epoch _ _ _ _ _ Hw') as He. rewrite app_nil_r in He. done.
  - rewrite Forall_app, Forall_singleton in *. rewrite Hfx. destruct Hfl as [Hi Hx]. split; [|lia].
    eapply Forall_impl; [exact Hi|]. intros y Hy. simpl in Hy. lia.
  - pose proof (w_chain _ _ _ _ _ Hw) as Hch. apply chain_last in Hch.
    rewrite Hent. unfold prev_after in Hl. rewrite all_entries_app in Hl. unfold all_entries at 2 in Hl.
    cbn [flat_map] in Hl. rewrite app_nil_r, <- app_assoc, last_app in Hl.
    destruct (last (s_entries x ++ pend)) as [[e0 r0]|] eqn:El; [|by apply last_None in El].
    injection Hl as <-. eapply Forall_impl; [exact Hch|]. intros p Hp. simpl in Hp. lia.
  - exists x'. unfold rotate. rewrite (w_current _ _ _ _ _ Hw). cbv zeta. rewrite Hcr.
    eexists; split; [done|]. split; [|done].
    rewrite Hep in Hd'. split; cbn [dir current wbuf a_epoch segment_max_bytes]; try done.
    + by rewrite Hwb.
    + rewrite Hwb. constructor.
    + rewrite Hep. cbn. done.
    + rewrite Hep. apply (w_u64 _ _ _ _ _ Hw).
    + rewrite Hmax. apply (w_max _ _ _ _ _ Hw).
Qed.

Lemma next_ok_rotated shard init x x' pend r epoch :
  next_ok shard (init ++ [x]) pend r ->
  all_entries (init ++ [x']) = all_entries (init ++ [x]) ++ pend -> s_first x' = s_first x ->
  next_ok shard ((init ++ [x']) ++ [fresh_segment (tr_tx_id r) epoch]) [] r.
Proof.
  intros (Hsh & Hprev & Hle) Hall Hf. split; [done|]. split.
  - rewrite all_entries_app, Hall. unfold all_entries at 2. cbn [flat_map fresh_segment s_entries].
    by rewrite !app_nil_r.
  - rewrite !Forall_app, !Forall_singleton in *. rewrite Hf. cbn [fresh_segment s_first]. split; [done|lia].
Qed.

Lemma log_bytes_nil bs : log_bytes [] bs -> bs = [].
Proof. by inversion 1. Qed.

(** Writing one record extends the log by it, with or without a rotation. *)
Lemma write_record_ok shard init x pend a r body :
  writer_ok shard init x pend a -> next_ok shard (init ++ [x]) pend r ->
  encode_record r = Some body -> blen body <= MAX_BODY_LEN ->
  exists init' x' pend' a', write_record crc32c encode_record a r = Ok a' /\
    writer_ok shard init' x' pend' a' /\ a_epoch a' = a_epoch a /\
    all_entries (init' ++ [x']) ++ pend' = all_entries (init ++ [x]) ++ pend ++ [(a_epoch a, r)] /\
    Forall (fun y => s_first y <= tr_tx_id r) (init' ++ [x']) /\ pend' <> [].
Proof.
  intros Hw Hnext Hr Hmax. unfold write_record. rewrite Hr. cbn [from_option mbind result_bind].
  assert (exists f, encode_entry (a_epoch a) body = Ok f) as [f Hf].
  { unfold CommitLog.encode_entry. rewrite (proj2 (Z.leb_le _ _)) by done. eauto. }
  rewrite Hf. cbn [mbind result_bind]. rewrite (w_current _ _ _ _ _ Hw).
  destruct (Z.leb_spec (segment_max_bytes a) (SEGMENT_HEADER_LEN + blen (s_bytes x) + blen (wbuf a))) as [Hrot|_].
  - assert (s_entries x ++ pend <> []) as Hne.
    { pose proof (w_max _ _ _ _ _ Hw).
      destruct (w_disk _ _ _ _ _ Hw) as [_ Hl _ _]. apply linked_last in Hl as [_ (_ & _ & Hlx & _)].
      pose proof (w_buf _ _ _ _ _ Hw) as Hlb. intros [E1 E2]%app_eq_nil. rewrite E1 in Hlx. rewrite E2 in Hlb.
      apply log_bytes_nil in Hlx as Eb. apply log_bytes_nil in Hlb as Ew.
      rewrite Eb, Ew, !blen_nil in Hrot. lia. }
    destruct (rotate_ok _ _ _ _ _ _ Hw Hnext Hne) as (x' & a1 & Hro & Hw1 & Hall & Hep & Hfx & Hwb).
    rewrite Hro. cbn [mbind result_bind]. rewrite (w_current _ _ _ _ _ Hw1).
    pose proof (next_ok_rotated _ _ _ _ _ _ (a_epoch a) Hnext Hall Hfx) as Hnext1.
    rewrite <- Hep in Hf. pose proof (push_frame _ _ _ _ _ _ _ _ Hw1 Hr Hf Hnext1) as Hw2.
    eexists _, _, _, _. split; [done|]. split; [exact Hw2|]. split_and!; [done| |apply Hnext1|done].
    rewrite all_entries_app, Hall, Hep. unfold all_entries at 2. cbn [flat_map fresh_segment s_entries].
    by rewrite !app_nil_r, <- !app_assoc.
  - cbn [mbind result_bind]. rewrite (w_current _ _ _ _ _ Hw).
    pose proof (push_frame _ _ _ _ _ _ _ _ Hw Hr Hf Hnext) as Hw2.
    eexists _, _, _, _. split; [done|]. split; [exact Hw2|]. split_and!; [done|done|apply Hnext|].
    by destruct pend.
Qed.

(** ** Runs of the writer *)

(** The actor has accepted the log [total]; [wrote] says that some of it may
    still be in the buffer. *)
Inductive accepted (shard : Z) (total : list (Z * TxRecord)) (wrote : bool) (a : Actor) : Prop :=
  | accepted_fresh : total = [] -> segs (dir a) = ∅ -> current a = None -> wbuf a = [] ->
      u_ok 64 (a_epoch a) -> SEGMENT_HEADER_LEN < segment_max_bytes a -> wrote = false ->
      accepted shard total wrote a
  | accepted_segments init x pend : writer_ok shard init x pend a ->
      total = all_entries (init ++ [x]) ++ pend -> (wrote = false -> pend = []) ->
      accepted shard total wrote a.

Definition names_le (t : Z) (d : LogDir) : Prop := Forall (fun k => k <= t) (btree_keys (segs d)).

Lemma names_le_firsts shard init x d t : on_disk shard init x d ->
  names_le t d <-> Forall (fun y => s_first y <= t) (init ++ [x]).
Proof. intros Hd. unfold names_le. rewrite (list_segments_firsts _ _ _ _ Hd). apply Forall_fmap. Qed.

Lemma write_record_fresh shard a r body : segs (dir a) = ∅ -> current a = None -> wbuf a = [] ->
  u_ok 64 (a_epoch a) -> SEGMENT_HEADER_LEN < segment_max_bytes a -> tr_shard_id r = shard ->
  encode_record r = Some body -> blen body <= MAX_BODY_LEN ->
  exists a', write_record crc32c encode_record a r = Ok a' /\ a_epoch a' = a_epoch a /\
    writer_ok shard [] (fresh_segment (tr_tx_id r) (a_epoch a)) [(a_epoch a, r)] a'.
Proof.
  intros Hs Hc Hb Hu Hm Hsh Hr Hmax. unfold write_record. rewrite Hr. cbn [from_option mbind result_bind].
  assert (exists f, encode_entry (a_epoch a) body = Ok f) as [f Hf].
  { unfold CommitLog.encode_entry. rewrite (proj2 (Z.leb_le _ _)) by done. eauto. }
  rewrite Hf, Hc. cbn [mbind result_bind]. unfold rotate. rewrite Hc. cbv zeta.
  unfold create_segment. rewrite Hs, lookup_empty. cbn [mbind result_bind current dir wbuf].
  eexists; split; [done|]. split; [done|]. cbn [a_epoch segment_max_bytes flushed].
  set (x := fresh_segment (tr_tx_id r) (a_epoch a)).
  match goal with |- writer_ok _ _ _ _ ?a' => set (aw := a') end.
  set (a0 := {| a_shard_id := a_shard_id a; segment_max_bytes := segment_max_bytes a;
    a_epoch := a_epoch a; current := Some (tr_tx_id r, SEGMENT_HEADER_LEN); wbuf := wbuf a;
    last_written := last_written a; flushed := flushed a;
    dir := {| segs := <[tr_tx_id r := encode_segment_header crc32c (a_epoch a)]> ∅;
              sidecars := sidecars (dir a) |} |}).
  assert (writer_ok shard [] x [] a0) as Hw0.
  { split; cbn [a0 dir current wbuf a_epoch segment_max_bytes]; try done.
    - split; [|split; [|done]|constructor|done].
      + cbn [segs]. rewrite btree_entries_snoc, btree_entries_empty; [done|].
        unfold btree_keys. rewrite btree_entries_empty. constructor.
      + exact (conj Hu (conj (proj1 Hu) (conj log_nil (conj I (or_introl eq_refl))))).
    - by rewrite Hb.
    - rewrite Hb. constructor. }
  assert (aw = with_frame a0 (s_first x) (SEGMENT_HEADER_LEN + blen (s_bytes x) + blen (wbuf a0)) f r) as ->.
  { unfold aw, with_frame. cbn [a0 wbuf a_shard_id segment_max_bytes a_epoch flushed dir]. by rewrite Hb. }
  apply (push_frame _ _ _ _ _ _ _ _ Hw0 Hr Hf). split; [done|]. split; [done|].
  apply Forall_singleton. cbn. lia.
Qed.

Lemma write_record_accepted shard total w a r body :
  accepted shard total w a -> tr_shard_id r = shard ->
  match prev_after None total with Some p => p < tr_tx_id r | None => True end ->
  names_le (tr_tx_id r) (dir a) -> encode_record r = Some body -> blen body <= MAX_BODY_LEN ->
  exists a', write_record crc32c encode_record a r = Ok a' /\ a_epoch a' = a_epoch a /\
    accepted shard (total ++ [(a_epoch a, r)]) true a' /\ names_le (tr_tx_id r) (dir a').
Proof.
  intros [Et Hs Hc Hb Hu Hm _|init x pend Hw Et _] Hsh Hprev Hn Hr Hmax; subst total.
  - destruct (write_record_fresh shard a r body) as (a' & Hwr & Hep & Hw'); try done.
    exists a'. split_and!; [done|done| |].
    + by eapply accepted_segments.
    + apply (names_le_firsts _ _ _ _ _ (w_disk _ _ _ _ _ Hw')). apply Forall_singleton. cbn. lia.
  - destruct (write_record_ok shard init x pend a r body) as (i' & x' & p' & a' & Hwr & Hw' & Hep & Eall & Hf & _);
      try done.
    { split; [done|]. split; [done|]. by apply (names_le_firsts _ _ _ _ _ (w_disk _ _ _ _ _ Hw)). }
    exists a'. split_and!; [done|done| |].
    + eapply accepted_segments; [done| |done]. by rewrite Eall, !app_assoc.
    + by apply (names_le_firsts _ _ _ _ _ (w_disk _ _ _ _ _ Hw')).
Qed.

Lemma flush_accepted shard total w a : accepted shard total w a ->
  accepted shard total false (if w then flush_written a else a) /\
  a_epoch (if w then flush_written a else a) = a_epoch a /\
  (forall t, names_le t (dir a) -> names_le t (dir (if w then flush_written a else a))).
Proof.
  intros Ha. pose proof Ha as [Et Hs Hc Hb Hu Hm ->|init x pend Hw Et Hp]; [done|].
  destruct w.
  - destruct (flush_written_ok _ _ _ _ _ Hw) as (x' & Hw' & Hfx & Hall & _ & Hep & _). split_and!; [|done|].
    + eapply accepted_segments; [exact Hw'| |done]. by rewrite app_nil_r, Hall.
    + intros t. rewrite (names_le_firsts _ _ _ _ _ (w_disk _ _ _ _ _ Hw)).
      rewrite (names_le_firsts _ _ _ _ _ (w_disk _ _ _ _ _ Hw')).
      by rewrite !Forall_app, !Forall_singleton, Hfx.
  - split_and!; [|done|done]. by eapply accepted_segments.
Qed.

Lemma set_epoch_accepted shard total a e : u_ok 64 e -> accepted shard total false a ->
  accepted shard total false (set_epoch a e) /\ a_epoch (set_epoch a e) = Z.max (a_epoch a) e /\
  dir (set_epoch a e) = dir a.
Proof.
  intros He Ha. unfold set_epoch. destruct (Z.ltb_spec e (a_epoch a)); [rewrite Z.max_l by lia; done|].
  rewrite Z.max_r by lia. split; [|done].
  destruct Ha as [Et Hs Hc Hb Hu Hm _|init x pend [Hd Ht Hcur Hb Hc Hep Hu Hm Hfi] Et Hp].
  - by apply accepted_fresh.
  - eapply (accepted_segments _ _ _ _ init x pend); [|done|done]. split; try done.
    cbn [a_epoch]. lia.
Qed.

(** The entries a batch of commands appends. *)
Fixpoint stamped (epoch : Z) (cmds : list Cmd) : list (Z * TxRecord) :=
  match cmds with
  | [] => []
  | CmdAppend r :: cmds => (epoch, r) :: stamped epoch cmds
  | CmdSetEpoch e :: cmds => stamped (Z.max epoch e) cmds
  end.

(** What [CommitLog::append] and the encoders demand of a batch: one shard,
    increasing ids, bodies within the limit. *)
Fixpoint cmds_ok (shard : Z) (prev : option Z) (cmds : list Cmd) : Prop :=
  match cmds with
  | [] => True
  | CmdAppend r :: cmds =>
      tr_shard_id r = shard /\ match prev with Some p => p < tr_tx_id r | None => True end /\
      (exists body, encode_record r = Some body /\ blen body <= MAX_BODY_LEN) /\
      cmds_ok shard (Some (tr_tx_id r)) cmds
  | CmdSetEpoch e :: cmds => u_ok 64 e /\ cmds_ok shard prev cmds
  end.

(** Segment names are no larger than the first appended id. *)
Fixpoint names_ok (d : LogDir) (cmds : list Cmd) : Prop :=
  match cmds with
  | [] => True
  | CmdAppend r :: _ => names_le (tr_tx_id r) d
  | CmdSetEpoch _ :: cmds => names_ok d cmds
  end.

Lemma names_ok_mono d d' cmds : (forall t, names_le t d -> names_le t d') -> names_ok d cmds -> names_ok d' cmds.
Proof. intros H. induction cmds as [|[]]; simpl; auto. Qed.

Lemma names_ok_after shard t d cmds : names_le t d -> cmds_ok shard (Some t) cmds -> names_ok d cmds.
Proof.
  intros Hn. induction cmds as [|[r|e] cmds IH]; simpl; [done| |tauto].
  intros (_ & Hlt & _). eapply Forall_impl; [exact Hn|]. intros k Hk. simpl in Hk. lia.
Qed.

Lemma process_cmds_ok shard cmds : forall total w a, accepted shard total w a ->
  cmds_ok shard (prev_after None total) cmds -> names_ok (dir a) cmds ->
  exists w' a', process_cmds crc32c encode_record cmds w a = Ok (w', a') /\
    accepted shard (total ++ stamped (a_epoch a) cmds) w' a'.
Proof.
  induction cmds as [|[r|e] cmds IH]; intros total w a Ha Hc Hn; cbn [process_cmds stamped].
  - exists w, a. by rewrite app_nil_r.
  - destruct Hc as (Hsh & Hprev & (body & Hr & Hmax) & Hc).
    destruct (write_record_accepted _ _ _ _ _ _ Ha Hsh Hprev Hn Hr Hmax) as (a1 & Hwr & Hep & Ha1 & Hn1).
    rewrite Hwr. cbn [mbind result_bind].
    destruct (IH (total ++ [(a_epoch a, r)]) true a1) as (w' & a' & Hp & Ha'); [done| | |].
    + unfold prev_after. by rewrite last_snoc.
    + by eapply names_ok_after.
    + exists w', a'. split; [done|]. by rewrite Hep, <- app_assoc in Ha'.
  - destruct Hc as [He Hc]. destruct (flush_accepted _ _ _ _ Ha) as (Hf & Hfe & Hfn).
    destruct (set_epoch_accepted _ _ _ e He Hf) as (Hs & Hse & Hsd).
    destruct (IH total false (set_epoch (if w then flush_written a else a) e)) as (w' & a' & Hp & Ha');
      [done|done| |].
    + rewrite Hsd. by eapply names_ok_mono.
    + exists w', a'. split; [done|]. by rewrite Hse, Hfe in Ha'.
Qed.

Lemma process_ok shard cmds total a : accepted shard total false a ->
  cmds_ok shard (prev_after None total) cmds -> names_ok (dir a) cmds ->
  exists a', process crc32c encode_record cmds a = Ok a' /\
    accepted shard (total ++ stamped (a_epoch a) cmds) false a'.
Proof.
  intros Ha Hc Hn. destruct (process_cmds_ok _ _ _ _ _ Ha Hc Hn) as (w & a1 & Hp & Ha1).
  unfold process. rewrite Hp. cbn [mbind result_bind fst snd].
  eexists; split; [done|]. by destruct (flush_accepted _ _ _ _ Ha1).
Qed.

(** The tail segment, when it has entries, and its predecessors are named no
    later than the last record. *)
Definition named (init : list segment) (x : segment) : Prop :=
  s_entries x <> [] -> exists l, prev_after None (all_entries (init ++ [x])) = Some l /\
    Forall (fun y => s_first y <= l) (init ++ [x]).

Lemma recover_on_disk shard init x d : on_disk shard init x d ->
  recover crc32c decode_record shard d =
  (Ok ({| rc_last_tx_id := prev_after None (all_entries (init ++ [x]));
          rc_epoch := epoch_of 0 (init ++ [x]);
          rc_segments := Z.of_nat (length (init ++ [x]));
          rc_quarantine := if blen (s_tail x) =? 0 then None
            else Some {| q_segment := s_first x; q_from_offset := SEGMENT_HEADER_LEN + blen (s_bytes x);
                         q_bytes := blen (s_tail x) |} |},
       Some (s_first x, SEGMENT_HEADER_LEN + blen (s_bytes x))), repaired d x).
Proof using Hcrc Hcodec.
  intros Hd. destruct (on_disk_lookup _ _ _ _ Hd) as [Hls Hf]. destruct Hd as [_ Hl Hc _].
  unfold recover. rewrite Hls, recover_segments_spec by done. do 2 f_equal.
  unfold recovered. cbn [rc_epoch rc_segments rc_quarantine].
  rewrite prev_of_entries, length_map, Z.max_r; [done|]. by eapply epoch_of_ge.
Qed.

Lemma open_on_disk shard init x d epoch max : on_disk shard init x d -> named init x ->
  epoch_of 0 (init ++ [x]) <= epoch -> u_ok 64 epoch -> SEGMENT_HEADER_LEN < max ->
  exists a, open crc32c decode_record d shard epoch max = (Ok a, repaired d x) /\
    accepted shard (all_entries (init ++ [x])) false a /\ a_epoch a = epoch /\ dir a = repaired d x.
Proof using Hcrc Hcodec.
  intros Hd Hnm He Hu Hm. unfold open. rewrite (recover_on_disk _ _ _ _ Hd). cbn [rc_epoch].
  rewrite (proj2 (Z.ltb_ge _ _)) by done. eexists; split; [done|]. split; [|done].
  pose proof (on_disk_repaired _ _ _ _ Hd) as Hd'.
  destruct (linked_last _ _ _ (disk_linked _ _ _ _ Hd')) as [_ (_ & _ & _ & Hc & _)].
  assert (all_entries (init ++ [clean x]) = all_entries (init ++ [x])) as Eall
    by by rewrite !all_entries_app.
  apply (accepted_segments _ _ _ _ init (clean x) []); [|by rewrite app_nil_r, Eall|done].
  split; cbn [dir current wbuf a_epoch segment_max_bytes]; try done; rewrite ?app_nil_r; try done.
  - by rewrite blen_nil, Z.add_0_r.
  - constructor.
  - unfold epoch_of in He. rewrite fold_left_app in He. exact He.
  - intros Hne. rewrite Eall. destruct (Hnm Hne) as (l & Hl & Hf). exists l. split; [done|].
    by rewrite !Forall_app, !Forall_singleton in *.
Qed.

(** Replaying the directory of an actor with nothing in its buffer visits the
    accepted log. *)
Lemma replay_accepted {S E} (visit : Z -> TxRecord -> SM S E unit) shard total a s :
  accepted shard total false a ->
  replay crc32c decode_record visit shard (dir a) s =
  match visit_all visit total s with
  | (Ok _, s') => (Ok {| records := Z.of_nat (length total); rp_last_tx_id := prev_after None total;
      corruption := None |}, s')
  | (Err e, s') => (Err e, s')
  end.
Proof using Hcrc Hcodec.
  intros [-> Hs _ _ _ _ _|init x pend Hw -> Hp].
  - unfold replay, list_segments, btree_keys. rewrite Hs, btree_entries_empty. done.
  - rewrite (Hp eq_refl), app_nil_r, (replay_on_disk _ _ _ _ _ _ (w_disk _ _ _ _ _ Hw)).
    unfold tail_corruption. by rewrite (w_tail _ _ _ _ _ Hw).
Qed.

Lemma open_empty shard epoch max side : u_ok 64 epoch -> SEGMENT_HEADER_LEN < max ->
  exists a, open crc32c decode_record {| segs := ∅; sidecars := side |} shard epoch max =
      (Ok a, {| segs := ∅; sidecars := side |}) /\
    accepted shard [] false a /\ a_epoch a = epoch /\ dir a = {| segs := ∅; sidecars := side |}.
Proof.
  intros Hu Hm. unfold open, recover, list_segments, btree_keys. cbn [segs].
  rewrite btree_entries_empty. cbn [fmap list_fmap map length recover_segments rc_epoch].
  rewrite (proj2 (Z.ltb_ge _ _)) by (cbn; apply Hu). eexists; split; [done|]. split; [|done].
  by apply accepted_fresh.
Qed.

(** * Properties *)

(** replaying a log whose last segment has a torn tail (any proper prefix
    of a frame, as a crash mid-append leaves) visits exactly the written
    records, in order, and reports the offset where the tail starts. *)
Theorem replay_exact {S E} (visit : Z -> TxRecord -> SM S E unit) shard init x d s :
  on_disk shard init x d ->
  replay crc32c decode_record visit shard d s =
  match visit_all visit (all_entries (init ++ [x])) s with
  | (Ok _, s') => (Ok {| records := Z.of_nat (length (all_entries (init ++ [x])));
      rp_last_tx_id := prev_after None (all_entries (init ++ [x]));
      corruption := tail_corruption x |}, s')
  | (Err e, s') => (Err e, s')
  end.
Proof using Hcrc Hcodec. apply replay_on_disk. Qed.

(** a changed byte anywhere in a frame past its length field (epoch,
    body or checksum) is detected: the scan visits exactly the entries before
    that frame and stops there with a checksum fault. *)
Theorem scan_stops_at_changed_byte {S E} (visit : Z -> TxRecord -> SM S E unit)
    shard prev me x e body f a c y b post s :
  segment_ok shard prev me x -> encode_entry e body = Ok f -> f = a ++ c :: b -> 4 <= blen a ->
  byte_ok c -> byte_ok y -> c <> y ->
  scan_segment_bytes crc32c decode_record visit shard
    (encode_segment_header crc32c (s_epoch x) ++ s_bytes x ++ (a ++ y :: b) ++ post) prev me s =
  (visit_all visit (s_entries x) ≫= fun _ => mret (Scanned {|
    entries := Z.of_nat (length (s_entries x)); last_tx := prev_after None (s_entries x);
    max_epoch := epoch_after x; valid_len := SEGMENT_HEADER_LEN + blen (s_bytes x);
    fault := Some {| fault_offset := SEGMENT_HEADER_LEN + blen (s_bytes x);
                     fault_reason := EntryCrcMismatch |} |})) s.
Proof using Hcrc Hcodec Hdetect. apply scan_segment_changed. Qed.

(** recovery keeps every whole record, moves exactly the torn bytes to a
    sidecar, leaves a clean log, and a second recovery finds nothing to do. *)
Theorem recover_repairs shard init x d : on_disk shard init x d ->
  exists report tail d', recover crc32c decode_record shard d = (Ok (report, tail), d') /\
    on_disk shard init (clean x) d' /\
    sidecars d' = sidecars d ++ (if blen (s_tail x) =? 0 then [] else [(s_first x, s_tail x)]) /\
    rc_last_tx_id report = prev_after None (all_entries (init ++ [x])) /\
    exists report', recover crc32c decode_record shard d' = (Ok (report', tail), d') /\
      rc_quarantine report' = None.
Proof using Hcrc Hcodec.
  intros Hd. pose proof (on_disk_repaired _ _ _ _ Hd) as Hd'.
  rewrite (recover_on_disk _ _ _ _ Hd). do 3 eexists. split; [done|]. split; [exact Hd'|].
  split; [|split; [done|]].
  - unfold repaired. destruct (_ =? 0); [by rewrite app_nil_r|done].
  - rewrite (recover_on_disk _ _ _ _ Hd'). eexists; split; done.
Qed.

(** C17: opening a log with a torn tail, appending a batch (with epoch
    raises in between, rotating segments as they fill) and replaying visits
    the recovered records and then the appended ones, each stamped with the
    epoch in force, and reports no corruption. *)
Theorem append_then_replay shard init x d epoch max cmds :
  on_disk shard init x d -> named init x -> epoch_of 0 (init ++ [x]) <= epoch -> u_ok 64 epoch ->
  SEGMENT_HEADER_LEN < max -> cmds_ok shard (prev_after None (all_entries (init ++ [x]))) cmds ->
  names_ok (repaired d x) cmds ->
  exists a a', open crc32c decode_record d shard epoch max = (Ok a, repaired d x) /\
    process crc32c encode_record cmds a = Ok a' /\
    forall S E (visit : Z -> TxRecord -> SM S E unit) s,
      replay crc32c decode_record visit shard (dir a') s =
      match visit_all visit (all_entries (init ++ [x]) ++ stamped epoch cmds) s with
      | (Ok _, s') => (Ok {|
          records := Z.of_nat (length (all_entries (init ++ [x]) ++ stamped epoch cmds));
          rp_last_tx_id := prev_after None (all_entries (init ++ [x]) ++ stamped epoch cmds);
          corruption := None |}, s')
      | (Err e, s') => (Err e, s')
      end.
Proof using Hcrc Hcodec.
  intros Hd Hnm He Hu Hm Hc Hn.
  destruct (open_on_disk _ _ _ _ _ _ Hd Hnm He Hu Hm) as (a & Ho & Ha & <- & Hdir).
  rewrite <- Hdir in Hn. destruct (process_ok _ _ _ _ Ha Hc Hn) as (a' & Hp & Ha').
  exists a, a'. split; [done|]. split; [done|]. intros. by apply replay_accepted.
Qed.

(** The same from an empty directory: what a fresh log accepted is what
    replay visits. *)
Theorem fresh_log_replay shard epoch max side cmds :
  u_ok 64 epoch -> SEGMENT_HEADER_LEN < max -> cmds_ok shard None cmds ->
  exists a a', open crc32c decode_record {| segs := ∅; sidecars := side |} shard epoch max =
      (Ok a, {| segs := ∅; sidecars := side |}) /\
    process crc32c encode_record cmds a = Ok a' /\
    forall S E (visit : Z -> TxRecord -> SM S E unit) s,
      replay crc32c decode_record visit shard (dir a') s =
      match visit_all visit (stamped epoch cmds) s with
      | (Ok _, s') => (Ok {| records := Z.of_nat (length (stamped epoch cmds));
          rp_last_tx_id := prev_after None (stamped epoch cmds); corruption := None |}, s')
      | (Err e, s') => (Err e, s')
      end.
Proof using Hcrc Hcodec.
  intros Hu Hm Hc. destruct (open_empty shard epoch max side Hu Hm) as (a & Ho & Ha & <- & Hdir).
  destruct (process_ok shard cmds [] a Ha Hc) as (a' & Hp & Ha').
  { rewrite Hdir. clear. induction cmds as [|[r|e] cmds IH]; simpl; [done| |done].
    unfold names_le, btree_keys. cbn [segs]. rewrite btree_entries_empty. constructor. }
  exists a, a'. split; [done|]. split; [done|]. intros. by apply replay_accepted.
Qed.

(** ** Compaction *)

Lemma windows2_follow xs : names_follow xs -> forall f g, (f, g) ∈ windows2 (map s_first xs) ->
  exists l x y r, xs = l ++ x :: y :: r /\ s_first x = f /\ s_first y = g /\
    Forall (fun p => tr_tx_id p.2 < g) (s_entries x).
Proof.
  induction xs as [|x [|y xs] IH]; intros Hn f g Hin; cbn [map windows2] in Hin.
  - by apply not_elem_of_nil in Hin.
  - by apply not_elem_of_nil in Hin.
  - destruct Hn as [Hx Hn]. apply elem_of_cons in Hin as [[= -> ->]|Hin].
    + by exists [], x, y, xs.
    + destruct (IH Hn f g Hin) as (l & x' & y' & r & -> & H). by exists (x :: l), x', y', r.
Qed.

Lemma foldr_delete_lookup (deleted : list Z) (m : gmap Z (list Z)) k : k ∉ deleted ->
  foldr (fun seg (m : gmap Z (list Z)) => delete seg m) m deleted !! k = m !! k.
Proof.
  induction deleted as [|x l IH]; simpl; [done|]. intros [Hne Hn]%not_elem_of_cons.
  by rewrite lookup_delete_ne, IH.
Qed.

Lemma firsts_NoDup shard init x d : on_disk shard init x d -> NoDup (map s_first (init ++ [x])).
Proof. intros Hd. rewrite <- (list_segments_firsts _ _ _ _ Hd). apply btree_keys_NoDup. Qed.

(** compaction deletes a segment only when a checkpoint covers every
    record in it and no replica still needs one; it never deletes the active
    segment, and every other file is untouched. *)
Theorem compact_keeps_needed shard init x d hold covered :
  on_disk shard init x d ->
  let '(deleted, d') := compact hold covered d in
  (forall y, y ∈ init ++ [x] -> s_first y ∈ deleted ->
     y ∈ init /\ Forall (fun p => tr_tx_id p.2 <= covered /\ forall h, hold = Some h -> tr_tx_id p.2 < h)
                   (s_entries y)) /\
  (forall y, y ∈ init ++ [x] -> s_first y ∉ deleted -> segs d' !! s_first y = Some (seg_file y).2).
Proof.
  intros Hd. destruct (on_disk_lookup _ _ _ _ Hd) as [Hls Hf]. pose proof (firsts_NoDup _ _ _ _ Hd) as Hnd.
  unfold compact. rewrite Hls. split; cbn [segs].
  - intros y Hy Hin. apply list_elem_of_fmap in Hin as ([f g] & E & Hin). cbn in E. subst f.
    apply list_elem_of_filter in Hin as [Hcov Hin]. cbn [snd] in Hcov.
    destruct (windows2_follow _ (disk_names _ _ _ _ Hd) _ _ Hin) as (l & x' & z & r & E & Ef & <- & Hlt).
    assert (x' = y) as ->.
    { apply list_elem_of_lookup in Hy as [i Hi]. rewrite E in Hnd, Hi.
      assert ((l ++ x' :: z :: r) !! length l = Some x') as Hx' by by rewrite lookup_app_r, Nat.sub_diag.
      assert (i = length l) as ->; [|congruence].
      eapply (NoDup_lookup _ _ _ (s_first y) Hnd); by rewrite list_lookup_fmap, ?Hi, ?Hx'; simpl; f_equal. }
    split.
    + assert (init ++ [x] = (l ++ y :: removelast (z :: r)) ++ [List.last (z :: r) z]) as E'.
      { rewrite E, <- app_assoc. f_equal.
        change (y :: z :: r = y :: (removelast (z :: r) ++ [List.last (z :: r) z])). f_equal.
        by apply app_removelast_last. }
      apply app_inj_tail in E' as [-> _]. apply elem_of_app. right. left.
    + unfold compact_covers, sat_add in Hcov. apply andb_true_iff in Hcov as [Hcov Hhold].
      apply Z.leb_le in Hcov. eapply Forall_impl; [exact Hlt|]. intros [e0 r0] Hp. cbn [snd] in *. split; [lia|].
      intros h ->. apply negb_true_iff, Z.ltb_ge in Hhold. lia.
  - intros y Hy Hn. rewrite foldr_delete_lookup by done. rewrite Forall_forall in Hf. by apply Hf.
Qed.
End written.

(** * Witnesses *)

(** A record codec for the records without effects: id and shard. *)
Definition plain_record (tx shard : Z) : TxRecord := {| tr_tx_id := tx; tr_timestamp := 0;
  tr_shard_id := shard; tr_mutations := []; tr_auto_inc := []; tr_caller := []; tr_reducer_name := [] |}.

Definition plain_encode (r : TxRecord) : option (list Z) :=
  match r with
  | {| tr_tx_id := tx; tr_timestamp := 0; tr_shard_id := shard; tr_mutations := []; tr_auto_inc := [];
       tr_caller := []; tr_reducer_name := [] |} =>
      if decide (u_ok 64 tx /\ u_ok 32 shard) then Some (le_bytes 8 tx ++ le_bytes 4 shard) else None
  | _ => None
  end.

Definition plain_decode (body : list Z) : option TxRecord :=
  if blen body =? 12 then Some (plain_record (le_val (slice body 0 8)) (le_val (slice body 8 12))) else None.

Lemma plain_codec r body : plain_encode r = Some body -> plain_decode body = Some r.
Proof.
  destruct r as [tx [] shard [] [] [] []]; try done. cbn [plain_encode].
  case_decide as H; [|done]. destruct H as [Htx Hsh]. intros <-%(inj Some). unfold plain_decode.
  change (blen (le_bytes 8 tx ++ le_bytes 4 shard)) with 12.
  rewrite slice_app_l, slice_app_r, slice_all by done. cbn [Z.eqb].
  by rewrite (le_val_unsigned 8), (le_val_unsigned 4).
Qed.

Definition frame_bytes (epoch tx : Z) : list Z :=
  match encode_entry crc32c epoch (le_bytes 8 tx ++ le_bytes 4 0) with Ok f => f | Err _ => [] end.

Definition torn_segment : segment := {| s_first := 1; s_epoch := 3;
  s_entries := [(3, plain_record 1 0)]; s_bytes := frame_bytes 3 1; s_tail := firstn 20 (frame_bytes 3 2) |}.
Definition torn_dir : LogDir :=
  {| segs := {[ 1 := (seg_file crc32c torn_segment).2 ]}; sidecars := [] |}.
(** Visitor that collects the records. *)
Definition collect_visit (e : Z) (r : TxRecord) : SM (list (Z * Z)) unit unit :=
  fun acc => (Ok tt, acc ++ [(e, tr_tx_id r)]).

Lemma torn_segment_ok : segment_ok crc32c plain_encode 0 None 0 torn_segment.
Proof.
  split; [split; [discriminate|reflexivity]|]. split; [discriminate|]. split; [|split].
  - change (s_bytes torn_segment) with (frame_bytes 3 1 ++ []).
    econstructor; [split; [discriminate|reflexivity]|reflexivity|reflexivity|constructor].
  - repeat split. discriminate.
  - right. eexists 3, (le_bytes 8 2 ++ le_bytes 4 0), (frame_bytes 3 2), _, (skipn 21 (frame_bytes 3 2)).
    split; [split; [discriminate|reflexivity]|]. split; [reflexivity|]. split; [vm_compute; reflexivity|discriminate].
Qed.

Lemma torn_dir_on_disk : on_disk crc32c plain_encode 0 [] torn_segment torn_dir.
Proof.
  split; [vm_compute; reflexivity| |constructor|done]. split; [apply torn_segment_ok|done].
Qed.

Lemma replay_exact_witness :
  replay crc32c plain_decode collect_visit 0 torn_dir [] =
  (Ok {| records := 1; rp_last_tx_id := Some 1;
         corruption := Some {| c_segment := 1; c_offset := 52; c_reason := inl (TornFrame 28 20) |} |}, [(3, 1)]).
Proof.
  rewrite (replay_exact crc32c crc32c_ok plain_encode plain_decode plain_codec collect_visit 0 []
    torn_segment torn_dir [] torn_dir_on_disk).
  vm_compute. reflexivity.
Defined.

(** Byte 13 of the second frame (in its body) changed from 0 to 9. *)
Lemma scan_stops_at_changed_byte_witness :
  scan_segment_bytes crc32c plain_decode collect_visit 0
    (encode_segment_header crc32c 3 ++ frame_bytes 3 1 ++
     (firstn 13 (frame_bytes 3 2) ++ 9 :: skipn 14 (frame_bytes 3 2)) ++ []) None 0 [] =
  (Ok (Scanned {| entries := 1; last_tx := Some 1; max_epoch := 3; valid_len := 52;
         fault := Some {| fault_offset := 52; fault_reason := EntryCrcMismatch |} |}), [(3, 1)]).
Proof.
  eapply eq_trans.
  - apply (scan_stops_at_changed_byte crc32c crc32c_ok plain_encode plain_decode plain_codec
      crc32c_byte_differs collect_visit 0 None 0 torn_segment 3 (le_bytes 8 2 ++ le_bytes 4 0) (frame_bytes 3 2)
      (firstn 13 (frame_bytes 3 2)) 0 9 (skipn 14 (frame_bytes 3 2)) [] []);
      [apply torn_segment_ok|reflexivity|vm_compute; reflexivity|vm_compute; discriminate
      |split; [discriminate|reflexivity]|split; [discriminate|reflexivity]|discriminate].
  - vm_compute. reflexivity.
Defined.

Lemma recover_repairs_witness : exists report tail d',
  recover crc32c plain_decode 0 torn_dir = (Ok (report, tail), d') /\
  sidecars d' = [(1, firstn 20 (frame_bytes 3 2))] /\ rc_last_tx_id report = Some 1.
Proof.
  destruct (recover_repairs crc32c crc32c_ok plain_encode plain_decode plain_codec 0 [] torn_segment torn_dir
    torn_dir_on_disk) as (report & tail & d' & Hr & _ & Hs & Hl & _).
  exists report, tail, d'. split; [exact Hr|]. split; [exact Hs|exact Hl].
Defined.

Definition append_cmds : list Cmd := [CmdAppend (plain_record 2 0); CmdSetEpoch 9; CmdAppend (plain_record 3 0)].

Lemma append_cmds_ok prev : (prev = None \/ prev = Some 1) -> cmds_ok plain_encode 0 prev append_cmds.
Proof.
  intros Hp. split; [done|]. split; [destruct Hp as [->| ->]; done|].
  split; [eexists; split; [reflexivity|discriminate]|]. split; [split; [discriminate|reflexivity]|].
  split; [done|]. split; [done|]. split; [eexists; split; [reflexivity|discriminate]|done].
Qed.

(** Segments of at most 60 bytes: the second append rotates. *)
Lemma append_then_replay_witness : exists a a',
  open crc32c plain_decode torn_dir 0 4 60 = (Ok a, repaired crc32c torn_dir torn_segment) /\
  process crc32c plain_encode append_cmds a = Ok a' /\
  replay crc32c plain_decode collect_visit 0 (dir a') [] =
  (Ok {| records := 3; rp_last_tx_id := Some 3; corruption := None |}, [(3, 1); (4, 2); (9, 3)]).
Proof.
  destruct (append_then_replay crc32c crc32c_ok plain_encode plain_decode plain_codec 0 [] torn_segment torn_dir
    4 60 append_cmds torn_dir_on_disk) as (a & a' & Ho & Hp & Hr).
  - intros _. exists 1. split; [reflexivity|]. constructor; [discriminate|constructor].
  - discriminate.
  - split; [discriminate|reflexivity].
  - reflexivity.
  - apply append_cmds_ok. right. reflexivity.
  - apply (bool_decide_unpack _). vm_compute. exact I.
  - exists a, a'. split; [exact Ho|]. split; [exact Hp|]. rewrite Hr. vm_compute. reflexivity.
Defined.

Lemma fresh_log_replay_witness : exists a a',
  open crc32c plain_decode {| segs := ∅; sidecars := [] |} 0 4 60 = (Ok a, {| segs := ∅; sidecars := [] |}) /\
  process crc32c plain_encode append_cmds a = Ok a' /\
  replay crc32c plain_decode collect_visit 0 (dir a') [] =
  (Ok {| records := 2; rp_last_tx_id := Some 3; corruption := None |}, [(4, 2); (9, 3)]).
Proof.
  destruct (fresh_log_replay crc32c crc32c_ok plain_encode plain_decode plain_codec 0 4 60 [] append_cmds)
    as (a & a' & Ho & Hp & Hr).
  - split; [discriminate|reflexivity].
  - reflexivity.
  - apply append_cmds_ok. left. reflexivity.
  - exists a, a'. split; [exact Ho|]. split; [exact Hp|]. rewrite Hr. vm_compute. reflexivity.
Defined.

(** Two segments; the checkpoint covers the first. *)
Definition old_segment : segment := {| s_first := 1; s_epoch := 3;
  s_entries := [(3, plain_record 1 0)]; s_bytes := frame_bytes 3 1; s_tail := [] |}.
Definition new_segment : segment := fresh_segment 2 3.
Definition two_dir : LogDir :=
  {| segs := {[ 1 := (seg_file crc32c old_segment).2; 2 := (seg_file crc32c new_segment).2 ]}; sidecars := [] |}.

Lemma two_dir_on_disk : on_disk crc32c plain_encode 0 [old_segment] new_segment two_dir.
Proof.
  split; [vm_compute; reflexivity| |constructor; [done|constructor]|].
  - split; [apply (segment_ok_clean crc32c plain_encode 0 None 0 torn_segment torn_segment_ok)|].
    split; [|done]. split; [split; [discriminate|reflexivity]|]. split; [discriminate|].
    split; [constructor|]. split; [done|by left].
  - split; [|done]. constructor; [reflexivity|constructor].
Qed.

Lemma compact_keeps_needed_witness :
  (compact None 1 two_dir).1 = [1] /\ segs (compact None 1 two_dir).2 !! 2 = Some (seg_file crc32c new_segment).2.
Proof.
  pose proof (compact_keeps_needed crc32c plain_encode 0 [old_segment] new_segment two_dir None 1 two_dir_on_disk) as H.
  split; [vm_compute; reflexivity|].
  destruct (compact None 1 two_dir) as [deleted d'] eqn:E. destruct H as [_ H].
  apply (H new_segment); [by right; left|]. vm_compute in E. injection E as <- _.
  apply not_elem_of_cons. split; [discriminate|apply not_elem_of_nil].
Defined.

(** * A lost append *)

(** A log of two segments, the second with a smaller epoch in its header. *)
Definition regressed_dir : LogDir := {|
  segs := {[ 1 := encode_segment_header crc32c 5 ++ frame_bytes 5 1; 2 := encode_segment_header crc32c 4 ]};
  sidecars := [] |}.

(** C34: When the header epoch of the last segment regresses below an earlier one,
    the fault offset is 0: recovery truncates the file to nothing, yet reports
    24 valid bytes, and the writer appends frames to a file without a header.
    The next recovery rejects the file whole: a record that was written and
    acknowledged is gone. *)
Theorem epoch_regression_loses_append :
  match open crc32c plain_decode regressed_dir 0 5 1000 with
  | (Ok a, _) =>
      match process crc32c plain_encode [CmdAppend (plain_record 2 0)] a with
      | Ok a' => flushed a' = Some 2 /\
          match open crc32c plain_decode (dir a') 0 5 1000 with
          | (Ok a2, _) => last_written a2 = Some 1
          | _ => False
          end
      | Err _ => False
      end
  | _ => False
  end.
Proof. vm_compute. split; reflexivity. Qed.
