(* ===== verification/PageFormat.v ===== *)
(** On-disk pages and page-file superblocks:
    [crates/fluxum-core/src/store/pager/format.rs].

    Main results: a page and a superblock decode to what was encoded, for the
    expected coordinates only; and a page image with one changed byte is
    rejected as corrupt. *)

From stdpp Require Import base list numbers.
From Stdlib Require Import ZArith Lia.
From S2P Require Import Prelude Crc32c.

(** * Definitions *)

(** The bytes [FLXP] and [FLXS], read little-endian. *)
Definition PAGE_MAGIC : Z := 0x50584C46.
Definition SUPERBLOCK_MAGIC : Z := 0x53584C46.
Definition PAGE_HEADER_LEN : Z := 32.
Definition SUPERBLOCK_LEN : Z := 32.
Definition EXTENT_ALIGN : Z := 256.
Definition FORMAT_VERSION : Z := 2.

Definition FLAG_CODEC_MASK : Z := 3.
Definition FLAG_INDEX : Z := Z.shiftl 1 2.
Definition FLAG_OVERFLOW : Z := Z.shiftl 1 3.
Definition FLAG_ENCRYPTED : Z := Z.shiftl 1 4.
Definition FLAG_VERSION_MASK : Z := Z.shiftl 15 8.
Definition FLAG_KNOWN_MASK : Z :=
  Z.lor (Z.lor (Z.lor (Z.lor FLAG_CODEC_MASK FLAG_INDEX) FLAG_OVERFLOW) FLAG_ENCRYPTED) FLAG_VERSION_MASK.

Record PageHeader : Type := {
  h_page_id : Z;
  h_table_id : Z;
  h_row_count : Z;
  h_flags : Z;
}.

Definition PageHeader_new (page_id table_id row_count flags : Z) : PageHeader := {|
  h_page_id := page_id; h_table_id := table_id; h_row_count := row_count;
  h_flags := Z.lor flags (Z.shiftl FORMAT_VERSION 8) |}.

Definition codec (h : PageHeader) : Z := Z.land (h_flags h) FLAG_CODEC_MASK.
Definition is_index (h : PageHeader) : bool := negb (Z.land (h_flags h) FLAG_INDEX =? 0).
Definition is_overflow (h : PageHeader) : bool := negb (Z.land (h_flags h) FLAG_OVERFLOW =? 0).
Definition is_encrypted (h : PageHeader) : bool := negb (Z.land (h_flags h) FLAG_ENCRYPTED =? 0).
Definition version (h : PageHeader) : Z := Z.shiftr (Z.land (h_flags h) FLAG_VERSION_MASK) 8.

Inductive PageError : Type :=
  | PayloadTooLarge (len : Z)
  | PageCorrupt (shard_id table_id page_id : Z)
  | UnknownFlags (flags : Z)
  | PageVersion (v : Z)
  | ReservedCodec
  | ShortTrustedImage (len : Z)
  | SuperblockTruncated
  | SuperblockCrc
  | SuperblockMagic
  | SuperblockVersion
  | SuperblockCoordinates.

(** The 28 header bytes before the checksum. *)
Definition header_bytes (h : PageHeader) (payload_len : Z) : list Z :=
  le_bytes 4 PAGE_MAGIC ++ le_bytes 8 (h_page_id h) ++ le_bytes 4 (h_table_id h) ++
  le_bytes 4 (h_row_count h) ++ le_bytes 2 (h_flags h) ++ le_bytes 2 0 ++ le_bytes 4 payload_len.

(** CRC-32C over an image with its checksum field read as zero. *)
Definition page_crc (image : list Z) : Z :=
  crc32c_extend (crc32c_extend (crc32c (slice image 0 28)) [0; 0; 0; 0])
    (skipn (Z.to_nat (Z.min PAGE_HEADER_LEN (blen image))) image).

Definition encode_page (h : PageHeader) (payload : list Z) : result PageError (list Z) :=
  if blen payload <? 2 ^ 32 then
    let image := header_bytes h (blen payload) ++ le_bytes 4 0 ++ payload in
    Ok (header_bytes h (blen payload) ++ le_bytes 4 (page_crc image) ++ payload)
  else Err (PayloadTooLarge (blen payload)).

Definition u32_at (image : list Z) (off : Z) : Z := le_val (slice image off (off + 4)).

Definition decode_page (image : list Z) (shard_id table_id page_id : Z)
    : result PageError (PageHeader * list Z) :=
  let corrupt := Err (PageCorrupt shard_id table_id page_id) in
  if blen image <? PAGE_HEADER_LEN then corrupt
  else
    let hdr_page_id := le_val (slice image 4 12) in
    let hdr_table_id := u32_at image 12 in
    let row_count := u32_at image 16 in
    let flags := le_val (slice image 20 22) in
    let payload_len := u32_at image 24 in
    if negb (page_crc image =? u32_at image 28) then corrupt
    else if negb (u32_at image 0 =? PAGE_MAGIC) || negb (hdr_page_id =? page_id)
         || negb (hdr_table_id =? table_id) || negb (blen image =? PAGE_HEADER_LEN + payload_len)
    then corrupt
    else if negb (Z.land flags (2 ^ 16 - 1 - FLAG_KNOWN_MASK) =? 0) then Err (UnknownFlags flags)
    else
      let header := {| h_page_id := hdr_page_id; h_table_id := hdr_table_id; h_row_count := row_count;
                       h_flags := flags |} in
      if negb (version header =? FORMAT_VERSION) then Err (PageVersion (version header))
      else if codec header =? 3 then Err ReservedCodec
      else Ok (header, skipn 32 image).

Definition trusted_header (image : list Z) : result PageError (PageHeader * list Z) :=
  if blen image <? PAGE_HEADER_LEN then Err (ShortTrustedImage (blen image))
  else Ok ({| h_page_id := le_val (slice image 4 12); h_table_id := u32_at image 12;
              h_row_count := u32_at image 16; h_flags := le_val (slice image 20 22) |}, skipn 32 image).

Definition superblock_prefix (page_size shard_id table_id : Z) : list Z :=
  le_bytes 4 SUPERBLOCK_MAGIC ++ le_bytes 4 FORMAT_VERSION ++ le_bytes 4 page_size ++
  le_bytes 4 shard_id ++ le_bytes 4 table_id ++ replicate 8 0.

Definition encode_superblock (page_size shard_id table_id : Z) : list Z :=
  let block := superblock_prefix page_size shard_id table_id in block ++ le_bytes 4 (crc32c block).

Definition decode_superblock (block : list Z) (shard_id table_id : Z) : result PageError Z :=
  if blen block <? SUPERBLOCK_LEN then Err SuperblockTruncated
  else if negb (crc32c (slice block 0 28) =? u32_at block 28) then Err SuperblockCrc
  else if negb (u32_at block 0 =? SUPERBLOCK_MAGIC) then Err SuperblockMagic
  else if negb (u32_at block 4 =? FORMAT_VERSION) then Err SuperblockVersion
  else if negb (u32_at block 12 =? shard_id) || negb (u32_at block 16 =? table_id)
  then Err SuperblockCoordinates
  else Ok (u32_at block 8).

(** * Lemmas *)

Definition header_ok (h : PageHeader) : Prop :=
  u_ok 64 (h_page_id h) /\ u_ok 32 (h_table_id h) /\ u_ok 32 (h_row_count h) /\ u_ok 16 (h_flags h) /\
  Z.land (h_flags h) (2 ^ 16 - 1 - FLAG_KNOWN_MASK) = 0 /\ version h = FORMAT_VERSION /\ codec h <> 3.

Lemma blen_header_bytes h n : blen (header_bytes h n) = 28.
Proof. done. Qed.

Lemma crc32c_extend_ok crc data : u_ok 32 crc -> u_ok 32 (crc32c_extend crc data).
Proof. intros. unfold crc32c_extend. by apply not32_ok, scalar_update_ok, not32_ok. Qed.

Lemma page_crc_ok image : u_ok 32 (page_crc image).
Proof. unfold page_crc. apply crc32c_extend_ok, crc32c_extend_ok, crc32c_ok. Qed.

(** The checksum ignores the stored checksum field. *)
Lemma page_crc_spec hd c payload : blen hd = 28 -> blen c = 4 ->
  page_crc (hd ++ c ++ payload) = crc32c (hd ++ [0; 0; 0; 0] ++ payload).
Proof.
  intros Hh Hc. unfold page_crc. rewrite slice_app_l by done.
  rewrite Z.min_l by (rewrite !blen_app; unfold PAGE_HEADER_LEN; pose proof (blen_nonneg payload); lia).
  rewrite app_assoc. replace (Z.to_nat PAGE_HEADER_LEN) with (length (hd ++ c)).
  - rewrite drop_app_length. unfold crc32c. by rewrite !crc32c_extend_app.
  - rewrite length_app. unfold blen in *. unfold PAGE_HEADER_LEN. lia.
Qed.

Lemma encode_page_Ok h payload image : encode_page h payload = Ok image ->
  blen payload < 2 ^ 32 /\
  image = header_bytes h (blen payload) ++
    le_bytes 4 (crc32c (header_bytes h (blen payload) ++ [0; 0; 0; 0] ++ payload)) ++ payload.
Proof.
  unfold encode_page. cbv zeta. destruct (Z.ltb_spec (blen payload) (2 ^ 32)); [|done].
  intros <-%Ok_inj. split; [done|]. by rewrite page_crc_spec.
Qed.

Section fields.
Context (h : PageHeader) (c payload : list Z) (Hc : blen c = 4).
Context (Hok : header_ok h) (Hlen : blen payload < 2 ^ 32).
Let image : list Z := header_bytes h (blen payload) ++ c ++ payload.

Local Lemma image_blen : blen image = 32 + blen payload.
Proof using Hc. unfold image. rewrite !blen_app, blen_header_bytes. lia. Qed.

Local Lemma payload_u32 : u_ok 32 (blen payload).
Proof using Hlen. pose proof (blen_nonneg payload). unfold u_ok. lia. Qed.

Local Lemma image_prefix a b : 0 <= a -> b <= 28 -> slice image a b = slice (header_bytes h (blen payload)) a b.
Proof using Type.
  intros Ha Hb. unfold image, slice. rewrite skipn_app.
  assert (length (header_bytes h (blen payload)) = 28%nat) as Hl by done.
  rewrite take_app_le; [done|]. rewrite length_skipn, Hl. lia.
Qed.

Local Lemma image_fields :
  u32_at image 0 = PAGE_MAGIC /\ le_val (slice image 4 12) = h_page_id h /\
  u32_at image 12 = h_table_id h /\ u32_at image 16 = h_row_count h /\
  le_val (slice image 20 22) = h_flags h /\ u32_at image 24 = blen payload /\
  u32_at image 28 = le_val c /\ skipn 32 image = payload.
Proof using Hc Hok Hlen.
  destruct Hok as (H1 & H2 & H3 & H4 & _). pose proof payload_u32 as H5. unfold u32_at.
  rewrite !image_prefix by lia.
  change (slice (header_bytes h (blen payload)) 0 (0 + 4)) with (le_bytes 4 PAGE_MAGIC).
  change (slice (header_bytes h (blen payload)) 4 12) with (le_bytes 8 (h_page_id h)).
  change (slice (header_bytes h (blen payload)) 12 (12 + 4)) with (le_bytes 4 (h_table_id h)).
  change (slice (header_bytes h (blen payload)) 16 (16 + 4)) with (le_bytes 4 (h_row_count h)).
  change (slice (header_bytes h (blen payload)) 20 22) with (le_bytes 2 (h_flags h)).
  change (slice (header_bytes h (blen payload)) 24 (24 + 4)) with (le_bytes 4 (blen payload)).
  rewrite (le_val_unsigned 8), !(le_val_unsigned 4), (le_val_unsigned 2) by done.
  split_and!; try done.
  - f_equal. unfold image. apply slice_mid; [done|]. by rewrite Hc.
  - unfold image. rewrite app_assoc.
    replace 32%nat with (length (header_bytes h (blen payload) ++ c)); [apply drop_app_length|].
    rewrite length_app. unfold blen in Hc. change (length (header_bytes h (blen payload))) with 28%nat. lia.
Qed.

(** Decoding an image with a given checksum field. *)
Lemma decode_page_spec shard_id table_id page_id :
  decode_page image shard_id table_id page_id =
  if negb (crc32c (header_bytes h (blen payload) ++ [0; 0; 0; 0] ++ payload) =? le_val c)
     || negb (h_page_id h =? page_id) || negb (h_table_id h =? table_id)
  then Err (PageCorrupt shard_id table_id page_id) else Ok (h, payload).
Proof using Hc Hok Hlen.
  unfold decode_page. destruct image_fields as (-> & -> & -> & -> & -> & -> & -> & ->).
  unfold PAGE_HEADER_LEN. rewrite image_blen.
  rewrite (proj2 (Z.ltb_ge _ _)) by (pose proof (blen_nonneg payload); lia).
  unfold image. rewrite page_crc_spec by done. rewrite !Z.eqb_refl. cbn [negb orb]. rewrite orb_false_r.
  destruct (crc32c _ =? le_val c), (h_page_id h =? page_id), (h_table_id h =? table_id); try done.
  cbn [negb orb]. destruct Hok as (_ & _ & _ & _ & Hf & Hv & Hcd).
  rewrite Hf, Z.eqb_refl. cbn [negb].
  assert ({| h_page_id := h_page_id h; h_table_id := h_table_id h; h_row_count := h_row_count h;
             h_flags := h_flags h |} = h) as -> by by destruct h.
  rewrite Hv, Z.eqb_refl, (proj2 (Z.eqb_neq _ _)) by done. done.
Qed.
End fields.

(** Changing a byte of an image breaks the agreement of checksum and content. *)
Lemma changed_image hd payload p x y q :
  blen hd = 28 -> byte_ok x -> byte_ok y -> x <> y ->
  p ++ x :: q = hd ++ le_bytes 4 (crc32c (hd ++ [0; 0; 0; 0] ++ payload)) ++ payload ->
  exists hd' c' payload', p ++ y :: q = hd' ++ c' ++ payload' /\ blen hd' = 28 /\ blen c' = 4 /\
    crc32c (hd' ++ [0; 0; 0; 0] ++ payload') <> le_val c'.
Proof.
  intros Hhd Hx Hy Hne Es. set (crc := crc32c (hd ++ [0; 0; 0; 0] ++ payload)) in *.
  assert (le_val (le_bytes 4 crc) = crc) as Hcrc by (apply (le_val_unsigned 4), crc32c_ok).
  apply split_change in Es as [(k & -> & ->)|(k & -> & Es)];
    [|symmetry in Es; apply split_change in Es as [(k' & Ec & ->)|(k' & -> & ->)]].
  - exists (p ++ y :: k), (le_bytes 4 crc), payload. split_and!; [by rewrite <- app_assoc| |done|].
    { rewrite blen_app, blen_cons in *. lia. }
    rewrite Hcrc. unfold crc. rewrite <- !app_assoc. intros E.
    exact (crc32c_byte_differs p x y _ Hx Hy Hne (eq_sym E)).
  - exists hd, (k ++ y :: k'), payload. pose proof (le_bytes_ok 4 crc) as Hok. rewrite Ec in Hok.
    apply bytes_ok_app in Hok as [Hk [_ Hk']%bytes_ok_cons].
    split_and!; [by rewrite <- !app_assoc|done| |].
    { apply (f_equal blen) in Ec. rewrite blen_le_bytes, blen_app, blen_cons in Ec.
      rewrite blen_app, blen_cons. lia. }
    fold crc. rewrite <- Hcrc, Ec. intros E.
    apply le_val_inj in E; [|by rewrite bytes_ok_app, bytes_ok_cons..|by rewrite !length_app].
    apply app_inv_head in E. congruence.
  - exists hd, (le_bytes 4 crc), (k' ++ y :: q). split_and!; [by rewrite <- !app_assoc|done|done|].
    rewrite Hcrc. unfold crc. rewrite !app_assoc. intros E.
    exact (crc32c_byte_differs _ x y _ Hx Hy Hne (eq_sym E)).
Qed.

(** * Properties *)

(** a page image decodes to the header and payload it was encoded from
    when its coordinates are the expected ones, and is reported corrupt when a
    page of another id or table is expected. *)
Theorem page_round_trip h payload image shard_id table_id page_id :
  header_ok h -> encode_page h payload = Ok image ->
  decode_page image shard_id table_id page_id =
  if (h_page_id h =? page_id) && (h_table_id h =? table_id) then Ok (h, payload)
  else Err (PageCorrupt shard_id table_id page_id).
Proof.
  intros Hok [Hlen ->]%encode_page_Ok. rewrite decode_page_spec by done.
  rewrite (le_val_unsigned 4) by apply crc32c_ok. rewrite Z.eqb_refl.
  by destruct (h_page_id h =? page_id), (h_table_id h =? table_id).
Qed.

(** one changed byte anywhere in a page, header, checksum or payload, is
    reported as corruption and the page is never served. *)
Theorem page_byte_detected h payload image p x y q shard_id table_id page_id :
  encode_page h payload = Ok image -> image = p ++ x :: q -> byte_ok x -> byte_ok y -> x <> y ->
  decode_page (p ++ y :: q) shard_id table_id page_id = Err (PageCorrupt shard_id table_id page_id).
Proof.
  intros [Hlen Ei]%encode_page_Ok Es Hx Hy Hne. set (hd := header_bytes h (blen payload)) in *.
  assert (blen hd = 28) as Hhd by done. rewrite Ei in Es. symmetry in Es.
  destruct (changed_image hd payload p x y q Hhd Hx Hy Hne Es) as (hd' & c' & pl' & E & Hh' & Hc' & Hneq).
  rewrite E. unfold decode_page. destruct (_ <? PAGE_HEADER_LEN); [done|].
  rewrite page_crc_spec by done.
  replace (u32_at (hd' ++ c' ++ pl') 28) with (le_val c')
    by (unfold u32_at; f_equal; symmetry; apply slice_mid; lia).
  by rewrite (proj2 (Z.eqb_neq _ _)).
Qed.

(** A superblock gives back its page size, for the shard and table it was
    written for only. *)
Theorem superblock_round_trip page_size shard_id table_id shard table :
  u_ok 32 page_size -> u_ok 32 shard_id -> u_ok 32 table_id ->
  decode_superblock (encode_superblock page_size shard_id table_id) shard table =
  if (shard_id =? shard) && (table_id =? table) then Ok page_size else Err SuperblockCoordinates.
Proof.
  intros Hp Hs Ht. unfold decode_superblock, encode_superblock, u32_at. cbv zeta.
  set (block := superblock_prefix page_size shard_id table_id).
  rewrite (proj2 (Z.ltb_ge _ _)) by done. rewrite slice_app_l by done.
  rewrite <- (app_nil_r (le_bytes 4 (crc32c block))), (slice_mid block) by done.
  rewrite (le_val_unsigned 4 (crc32c block)) by apply crc32c_ok. rewrite Z.eqb_refl. cbn [negb].
  unfold block. generalize (crc32c (superblock_prefix page_size shard_id table_id)). intros c.
  set (image := superblock_prefix page_size shard_id table_id ++ le_bytes 4 c ++ []).
  change (slice image 0 (0 + 4)) with (le_bytes 4 SUPERBLOCK_MAGIC).
  change (slice image 4 (4 + 4)) with (le_bytes 4 FORMAT_VERSION).
  change (slice image 8 (8 + 4)) with (le_bytes 4 page_size).
  change (slice image 12 (12 + 4)) with (le_bytes 4 shard_id).
  change (slice image 16 (16 + 4)) with (le_bytes 4 table_id).
  rewrite !(le_val_unsigned 4) by done. rewrite !Z.eqb_refl. cbn [negb].
  by destruct (shard_id =? shard), (table_id =? table).
Qed.

(** * Witnesses *)

Definition sample_header : PageHeader := PageHeader_new 7 3 2 FLAG_INDEX.

Lemma sample_header_ok : header_ok sample_header.
Proof.
  split; [split; [discriminate|reflexivity]|]. split; [split; [discriminate|reflexivity]|].
  split; [split; [discriminate|reflexivity]|]. split; [split; [discriminate|reflexivity]|].
  split; [reflexivity|]. split; [reflexivity|discriminate].
Qed.

Definition sample_image : list Z :=
  match encode_page sample_header [1; 2; 3] with Ok i => i | Err _ => [] end.

Lemma page_round_trip_witness : decode_page sample_image 0 3 7 = Ok (sample_header, [1; 2; 3]).
Proof.
  rewrite (page_round_trip sample_header [1; 2; 3] sample_image 0 3 7);
    [reflexivity|apply sample_header_ok|vm_compute; reflexivity].
Defined.

Lemma page_byte_detected_witness :
  decode_page (firstn 33 sample_image ++ 9 :: [3]) 0 3 7 = Err (PageCorrupt 0 3 7).
Proof.
  apply (page_byte_detected sample_header [1; 2; 3] sample_image (firstn 33 sample_image) 2 9 [3] 0 3 7);
    [vm_compute; reflexivity|vm_compute; reflexivity|split; [discriminate|reflexivity]
    |split; [discriminate|reflexivity]|discriminate].
Defined.

Lemma superblock_round_trip_witness : decode_superblock (encode_superblock 4096 1 3) 1 3 = Ok 4096.
Proof.
  rewrite (superblock_round_trip 4096 1 3 1 3);
    [reflexivity|split; [discriminate|reflexivity]|split; [discriminate|reflexivity]
    |split; [discriminate|reflexivity]].
Defined.
