(* ===== verification/PageCodec.v ===== *)
(** Compression and sealing of cold pages: [store/pager/codec.rs].

    The LZ4 and zstd crates and the keyring are parameters: what was compressed or
    sealed opens again. [image_round_trip]: the image rebuilt from a stored page is
    the image that was stored, bit for bit, whatever codec and keyring wrote it.
    The [n]-th sealing draws its own nonce. *)

From stdpp Require Import base list numbers.
From Stdlib Require Import ZArith Lia.
From S2P Require Import Prelude Crc32c PageFormat.
From stdpp Require Import list.
#[local] Open Scope Z_scope.

Inductive ColdError : Type :=
  | Page (e : PageError)
  | RawLenField
  | CompressionFailed
  | NotCompressed
  | NoRawLen
  | RawAbovePage
  | RawLenI32
  | DecompressionFailed
  | RawLenMismatch
  | AlreadyCoded
  | ReservedBits
  | NoKeyring
  | SealFailed
  | OpenFailed
  | ReadPastEnd
  | PageSizeMismatch (recorded : Z)
  | PageNowhere (page_id : Z)
  | PoolExhausted (capacity : Z)
  | PoolEmptySlot
  | PoolAccounting
  | PoolHandEmpty
  | PoolSpins
  | FrameVanished
  | DiscardPinned.

Definition page_res {A} (r : result PageError A) : result ColdError A := match r with Ok a => Ok a | Err e => Err (Page e) end.

Module PageCodec.
Inductive t : Type := None | Lz4 | Zstd.
End PageCodec.

#[global] Instance PageCodec_eq_dec : EqDecision PageCodec.t.
Proof. solve_decision. Defined.

Definition codec_bits (c : PageCodec.t) : Z := match c with PageCodec.None => 0 | PageCodec.Lz4 => 1 | PageCodec.Zstd => 2 end.

Definition codec_from_bits (bits : Z) : option PageCodec.t :=
  if bits =? 0 then Some PageCodec.None else if bits =? 1 then Some PageCodec.Lz4 else if bits =? 2 then Some PageCodec.Zstd else None.

(** The block codecs; decompression is told the raw length. *)
Class BlockCodecs := {
  lz4_compress : list Z -> option (list Z);
  lz4_decompress : list Z -> Z -> option (list Z);
  zstd_compress : list Z -> option (list Z);
  zstd_decompress : list Z -> Z -> option (list Z);
}.

Class BlockCodecsLaws `{BlockCodecs} := {
  lz4_round_trip p b : lz4_compress p = Some b -> lz4_decompress b (blen p) = Some p;
  zstd_round_trip p b : zstd_compress p = Some b -> zstd_decompress b (blen p) = Some p;
}.

(** [Keyring::seal] and [Keyring::open], with associated data. *)
Record Keyring : Type := { kr_seal : nat -> list Z -> list Z -> option (list Z); kr_open : list Z -> list Z -> option (list Z) }.

Definition keyring_ok (k : Keyring) : Prop := forall n p aad c, kr_seal k n p aad = Some c -> kr_open k c aad = Some p.

Section codec.
Context `{BlockCodecs}.

Definition compress_block (c : PageCodec.t) (p : list Z) : option (list Z) :=
  match c with PageCodec.None => None | PageCodec.Lz4 => lz4_compress p | PageCodec.Zstd => zstd_compress p end.
Definition decompress_block (c : PageCodec.t) (b : list Z) (raw_len : Z) : option (list Z) :=
  match c with PageCodec.None => None | PageCodec.Lz4 => lz4_decompress b raw_len | PageCodec.Zstd => zstd_decompress b raw_len end.

Definition saturating_mul (a b : Z) : Z := Z.min (a * b) (u_max 64).

Definition compress_payload (c : PageCodec.t) (payload : list Z) (min_bytes : Z) : result ColdError (option (list Z)) :=
  if bool_decide (c = PageCodec.None) || (blen payload <? min_bytes) then Ok None
  else if u_max 32 <? blen payload then Err RawLenField
  else
    match compress_block c payload with
    | None => Err CompressionFailed
    | Some block =>
        if saturating_mul (blen payload) 7 <? saturating_mul (4 + blen block) 8 then Ok None
        else Ok (Some (le_bytes 4 (blen payload) ++ block))
    end.

Definition decompress_payload (c : PageCodec.t) (stored : list Z) (max_raw : Z) : result ColdError (list Z) :=
  if bool_decide (c = PageCodec.None) then Err NotCompressed
  else if blen stored <? 4 then Err NoRawLen
  else
    let raw_len := le_val (firstn 4 stored) in
    if max_raw <? raw_len then Err RawAbovePage
    else if 2 ^ 31 - 1 <? raw_len then Err RawLenI32
    else
      match decompress_block c (skipn 4 stored) raw_len with
      | None => Err DecompressionFailed
      | Some raw => if blen raw =? raw_len then Ok raw else Err RawLenMismatch
      end.

Definition page_aad (shard_id : Z) (h : PageHeader) : list Z :=
  le_bytes 4 shard_id ++ le_bytes 4 (h_table_id h) ++ le_bytes 8 (h_page_id h) ++ le_bytes 2 (h_flags h).

Definition with_flags (h : PageHeader) (flags : Z) : PageHeader :=
  {| h_page_id := h_page_id h; h_table_id := h_table_id h; h_row_count := h_row_count h; h_flags := flags |}.

Definition encode_for_storage (image : list Z) (c : PageCodec.t) (min_bytes shard_id : Z) (keyring : option Keyring) (n : nat) : result ColdError (option (list Z)) :=
  page_res (trusted_header image) ≫= fun '(header, payload) =>
  if negb (codec header =? 0) || is_encrypted header then Err AlreadyCoded
  else
    compress_payload c payload min_bytes ≫= fun compressed =>
    let bits := match compressed with Some _ => codec_bits c | None => 0 end in
    match keyring with
    | None =>
        match compressed with
        | None => Ok None
        | Some stored => page_res (encode_page (with_flags header (Z.lor (h_flags header) bits)) stored) ≫= fun out => Ok (Some out)
        end
    | Some ring =>
        let stored_header := with_flags header (Z.lor (Z.lor (h_flags header) bits) FLAG_ENCRYPTED) in
        match kr_seal ring n (default payload compressed) (page_aad shard_id stored_header) with
        | None => Err SealFailed
        | Some sealed => page_res (encode_page stored_header sealed) ≫= fun out => Ok (Some out)
        end
    end.

Definition open_image (header : PageHeader) (stored : list Z) (max_raw shard_id : Z) (keyring : option Keyring) : result ColdError (list Z) :=
  (if is_encrypted header then
     match keyring with
     | None => Err NoKeyring
     | Some ring => match kr_open ring stored (page_aad shard_id header) with Some plain => Ok plain | None => Err OpenFailed end
     end
   else Ok stored) ≫= fun payload =>
  match codec_from_bits (codec header) with
  | None => Err ReservedBits
  | Some c =>
      (if bool_decide (c = PageCodec.None) then Ok payload else decompress_payload c payload max_raw) ≫= fun raw =>
      page_res (encode_page (with_flags header (Z.land (h_flags header) (2 ^ 16 - 1 - Z.lor FLAG_CODEC_MASK FLAG_ENCRYPTED))) raw)
  end.

(** The image of a verified stored page, as the fault path rebuilds it. *)
Definition verify_image (stored : list Z) (page_size shard_id table_id page_id : Z) (keyring : option Keyring) : result ColdError (list Z) :=
  page_res (decode_page stored shard_id table_id page_id) ≫= fun '(header, payload) =>
  if negb (codec header =? 0) || is_encrypted header then open_image header payload page_size shard_id keyring else Ok stored.
End codec.

(** * Flags *)

(** Bits outside a mask stay, bits inside are set. *)
Lemma land_set f m mask : Z.land f mask = 0 -> Z.land m mask = m -> Z.land (Z.lor f m) mask = m.
Proof. intros Hf Hm. by rewrite Z.land_lor_distr_l, Hf, Hm, Z.lor_0_l. Qed.

Definition CODED : Z := Z.lor FLAG_CODEC_MASK FLAG_ENCRYPTED.

Lemma u16_split f : u_ok 16 f -> Z.land f CODED = 0 -> Z.land f (2 ^ 16 - 1 - CODED) = f.
Proof.
  intros Hu Hf. assert (Z.land f (2 ^ 16 - 1) = f) as E by (change (2 ^ 16 - 1) with (Z.ones 16); apply Z.land_ones_low; [unfold u_ok in Hu; lia|]; destruct (Z.eq_dec f 0) as [->|]; [done|]; apply Z.log2_lt_pow2; unfold u_ok in Hu; lia).
  rewrite <- E at 2. change (2 ^ 16 - 1) with (Z.lor (2 ^ 16 - 1 - CODED) CODED) at 2. by rewrite Z.land_lor_distr_r, Hf, Z.lor_0_r.
Qed.

Lemma coded_none h : codec h = 0 -> is_encrypted h = false -> Z.land (h_flags h) CODED = 0.
Proof. unfold codec, is_encrypted, CODED. rewrite negb_false_iff, Z.eqb_eq, Z.land_lor_distr_r. by intros -> ->. Qed.

(** A stored header: coding bits set on a plain one. *)
Section stored_header.
Context (h : PageHeader) (m : Z) (Hh : header_ok h) (Hf : Z.land (h_flags h) CODED = 0).
Context (Hm : Z.land m CODED = m) (Hm3 : Z.land m FLAG_CODEC_MASK <> 3) (Hm0 : 0 <= m).
Notation h' := (with_flags h (Z.lor (h_flags h) m)).

Lemma stored_codec : codec h' = Z.land m FLAG_CODEC_MASK.
Proof using Hf.
  unfold codec. cbn [h_flags with_flags]. rewrite Z.land_lor_distr_l. replace (Z.land (h_flags h) FLAG_CODEC_MASK) with 0; [by rewrite Z.lor_0_l|].
  symmetry. replace FLAG_CODEC_MASK with (Z.land CODED FLAG_CODEC_MASK) by done. by rewrite Z.land_assoc, Hf.
Qed.

Lemma stored_encrypted : is_encrypted h' = negb (Z.land m FLAG_ENCRYPTED =? 0).
Proof using Hf.
  unfold is_encrypted. cbn [h_flags with_flags]. rewrite Z.land_lor_distr_l. replace (Z.land (h_flags h) FLAG_ENCRYPTED) with 0; [by rewrite Z.lor_0_l|].
  symmetry. replace FLAG_ENCRYPTED with (Z.land CODED FLAG_ENCRYPTED) by done. by rewrite Z.land_assoc, Hf.
Qed.

Lemma coded_apart x : Z.land CODED x = 0 -> Z.land (Z.lor (h_flags h) m) x = Z.land (h_flags h) x.
Proof using Hm. intros Hx. rewrite Z.land_lor_distr_l, <- Hm, <- Z.land_assoc, Hx, Z.land_0_r, Z.lor_0_r. done. Qed.

Lemma stored_header_ok : header_ok h'.
Proof using Hh Hf Hm Hm3 Hm0.
  destruct Hh as (H1 & H2 & H3 & H4 & H5 & H6 & H7). split; [done|]. split; [done|]. split; [done|]. cbn [h_flags with_flags]. split; [|split; [|split]].
  - unfold u_ok in *. assert (0 <= Z.lor (h_flags h) m) as Hnn by (apply Z.lor_nonneg; lia). split; [done|]. destruct (Z.eq_dec (Z.lor (h_flags h) m) 0) as [->|Hne]; [lia|]. apply Z.log2_lt_pow2; [lia|].
    rewrite Z.log2_lor by lia. apply Z.max_lub_lt.
    + destruct (Z.eq_dec (h_flags h) 0) as [->|]; [vm_compute; reflexivity|]. apply Z.log2_lt_pow2; lia.
    + rewrite <- Hm. pose proof (Z.log2_land m CODED Hm0 ltac:(vm_compute; congruence)) as Hl. change (Z.log2 CODED) with 4 in Hl. lia.
  - by rewrite coded_apart.
  - unfold version in *. cbn [h_flags with_flags]. by rewrite coded_apart.
  - rewrite stored_codec. exact Hm3.
Qed.

(** Clearing the bits gives the plain header back. *)
Lemma stored_cleared : with_flags h' (Z.land (h_flags h') (2 ^ 16 - 1 - CODED)) = h.
Proof using Hh Hf Hm.
  destruct Hh as (_ & _ & _ & H4 & _). unfold with_flags. cbn [h_flags h_page_id h_table_id h_row_count]. rewrite coded_apart by done. rewrite u16_split by done. by destruct h.
Qed.
End stored_header.

(** * Round trip *)

Section round_trip.
Context {BC : BlockCodecs} {BL : BlockCodecsLaws}.

Lemma block_round_trip c p b : compress_block c p = Some b -> decompress_block c b (blen p) = Some p.
Proof using BL. destruct c; cbn; [done|apply lz4_round_trip|apply zstd_round_trip]. Qed.

Lemma payload_round_trip c p min_bytes stored max_raw : blen p <= max_raw -> max_raw < 2 ^ 31 -> compress_payload c p min_bytes = Ok (Some stored) -> c <> PageCodec.None /\ decompress_payload c stored max_raw = Ok p.
Proof using BL.
  intros Hp Hmax. unfold compress_payload. destruct (bool_decide_reflect (c = PageCodec.None)) as [|Hc]; [done|]. cbn [orb]. destruct (blen p <? min_bytes); [done|]. destruct (u_max 32 <? blen p); [done|].
  destruct (compress_block c p) as [b|] eqn:Eb; [|done]. destruct (_ <? _); [done|]. intros Est. assert (stored = le_bytes 4 (blen p) ++ b) as -> by congruence. split; [done|]. unfold decompress_payload. rewrite bool_decide_false by done. pose proof (blen_nonneg p). pose proof (blen_nonneg b).
  rewrite blen_app, blen_le_bytes. rewrite (proj2 (Z.ltb_ge _ _)) by lia. rewrite take_app_length', drop_app_length' by done. rewrite (le_val_unsigned 4) by (unfold u_ok; lia).
  rewrite (proj2 (Z.ltb_ge _ _)) by lia. rewrite (proj2 (Z.ltb_ge _ _)) by lia. by rewrite (block_round_trip c p b Eb), Z.eqb_refl.
Qed.

Lemma trusted_image h payload image : header_ok h -> encode_page h payload = Ok image -> trusted_header image = Ok (h, payload).
Proof.
  intros Hh [Hlen ->]%encode_page_Ok. pose proof (decode_page_spec h (le_bytes 4 (crc32c (header_bytes h (blen payload) ++ [0; 0; 0; 0] ++ payload))) payload eq_refl Hh Hlen 0 (h_table_id h) (h_page_id h)) as E.
  rewrite (le_val_unsigned 4) in E by apply crc32c_ok. rewrite !Z.eqb_refl in E. cbn [negb orb] in E. unfold decode_page in E. unfold trusted_header.
  repeat (match type of E with (if ?b then _ else _) = _ => destruct b; [discriminate E|] end). exact E.
Qed.

(** A stored page opens to the page it was made from. *)
Lemma open_stored h payload image c m stored sealed max_raw shard_id keyring :
  header_ok h -> Z.land (h_flags h) CODED = 0 -> encode_page h payload = Ok image -> Z.land m CODED = m -> 0 <= m -> Z.land m FLAG_CODEC_MASK = codec_bits c ->
  (if bool_decide (c = PageCodec.None) then Ok stored else decompress_payload c stored max_raw) = Ok payload ->
  (if negb (Z.land m FLAG_ENCRYPTED =? 0) then exists ring, keyring = Some ring /\ kr_open ring sealed (page_aad shard_id (with_flags h (Z.lor (h_flags h) m))) = Some stored else sealed = stored) ->
  open_image (with_flags h (Z.lor (h_flags h) m)) sealed max_raw shard_id keyring = Ok image.
Proof.
  intros Hh Hf Ei Hm Hm0 Hc Hp Hs. unfold open_image. rewrite (stored_encrypted h m Hf), (stored_codec h m Hf), Hc.
  assert (codec_from_bits (codec_bits c) = Some c) as -> by (by destruct c).
  assert ((if negb (Z.land m FLAG_ENCRYPTED =? 0) then match keyring with None => Err NoKeyring | Some ring => match kr_open ring sealed (page_aad shard_id (with_flags h (Z.lor (h_flags h) m))) with Some plain => Ok plain | None => Err OpenFailed end end else Ok sealed) = Ok stored) as ->.
  { destruct (negb _); [|by rewrite Hs]. destruct Hs as (ring & -> & ->). done. }
  cbn [mbind result_bind]. rewrite Hp. cbn [mbind result_bind]. fold CODED. rewrite (stored_cleared h m Hh Hf Hm), Ei. done.
Qed.

(** the image that the fault path rebuilds from a stored page is the image that
    was spilled, bit for bit, whatever codec, size threshold and keyring it was written
    with, also when compression did not pay and the page was stored verbatim. *)
Theorem image_round_trip h payload image c min_bytes page_size shard_id keyring n r :
  header_ok h -> codec h = 0 -> is_encrypted h = false -> encode_page h payload = Ok image -> blen payload <= page_size -> page_size < 2 ^ 31 ->
  (forall ring, keyring = Some ring -> keyring_ok ring) -> encode_for_storage image c min_bytes shard_id keyring n = Ok r ->
  verify_image (default image r) page_size shard_id (h_table_id h) (h_page_id h) keyring = Ok image.
Proof using BL.
  intros Hh Hc He Ei Hp Hmax Hk. pose proof (coded_none h Hc He) as Hf. unfold encode_for_storage. rewrite (trusted_image h payload image Hh Ei). cbn [page_res mbind result_bind]. rewrite Hc, He. cbn [Z.eqb negb orb].
  destruct (compress_payload c payload min_bytes) as [compressed|] eqn:Ec; [|done]. cbn [mbind result_bind].
  assert (forall h' out sealed, encode_page h' sealed = Ok out -> header_ok h' -> h_table_id h' = h_table_id h -> h_page_id h' = h_page_id h -> (codec h' <> 0 \/ is_encrypted h' = true) ->
    open_image h' sealed page_size shard_id keyring = Ok image -> verify_image out page_size shard_id (h_table_id h) (h_page_id h) keyring = Ok image) as Hv.
  { intros h' out sealed Eo Hh' Et Ep Hcd Ho. unfold verify_image. rewrite (page_round_trip h' sealed out _ _ _ Hh' Eo), Et, Ep, !Z.eqb_refl. cbn [andb page_res mbind result_bind]. by destruct Hcd as [->%Z.eqb_neq| ->]; rewrite ?orb_true_r. }
  assert (forall stored, compressed = Some stored -> c <> PageCodec.None /\ (if bool_decide (c = PageCodec.None) then Ok stored else decompress_payload c stored page_size) = Ok payload) as Hdec.
  { intros stored ->. destruct (payload_round_trip c payload min_bytes stored page_size Hp Hmax Ec) as [Hn Hd]. split; [done|]. by rewrite bool_decide_false. }
  destruct keyring as [ring|].
  - set (m := Z.lor (match compressed with Some _ => codec_bits c | None => 0 end) FLAG_ENCRYPTED). set (c0 := match compressed with Some _ => c | None => PageCodec.None end). rewrite <- Z.lor_assoc. fold m.
    assert (Z.land m CODED = m /\ 0 <= m /\ Z.land m FLAG_CODEC_MASK = codec_bits c0 /\ negb (Z.land m FLAG_ENCRYPTED =? 0) = true) as (Hm & Hm0 & Hmc & Hme) by (unfold m, c0; destruct compressed, c; vm_compute; repeat split; congruence).
    destruct (kr_seal ring n (default payload compressed) _) as [sealed|] eqn:Es; [|done]. destruct (encode_page _ sealed) as [out|] eqn:Eo; [|done]. cbn [page_res mbind result_bind]. intros [= <-]. cbn [default from_option id].
    apply (Hv _ _ _ Eo); [apply stored_header_ok; try done; rewrite Hmc; unfold c0; by destruct compressed, c|done..|right; by rewrite stored_encrypted|].
    apply (open_stored h payload image c0 m (default payload compressed)); try done; [|rewrite Hme; exists ring; split; [done|by apply (Hk ring eq_refl) in Es]].
    unfold c0. destruct compressed as [stored|]; [by apply Hdec|done].
  - destruct compressed as [stored|].
    + destruct (Hdec stored eq_refl) as [Hn Hd]. destruct (encode_page _ stored) as [out|] eqn:Eo; [|done]. cbn [page_res mbind result_bind]. intros [= <-]. cbn [default from_option id].
      assert (Z.land (codec_bits c) CODED = codec_bits c /\ 0 <= codec_bits c /\ Z.land (codec_bits c) FLAG_CODEC_MASK = codec_bits c /\ negb (Z.land (codec_bits c) FLAG_ENCRYPTED =? 0) = false /\ codec_bits c <> 0 /\ codec_bits c <> 3) as (Hm & Hm0 & Hmc & Hme & Hb & Hb3) by (destruct c; [done|vm_compute; repeat split; congruence..]).
      apply (Hv _ _ _ Eo); [apply stored_header_ok; try done; by rewrite Hmc|done..|left; by rewrite stored_codec, Hmc|].
      apply (open_stored h payload image c (codec_bits c) stored); try done. by rewrite Hme.
    + intros [= <-]. cbn [default from_option id]. unfold verify_image. rewrite (page_round_trip h payload image _ _ _ Hh Ei), !Z.eqb_refl. cbn [andb page_res mbind result_bind]. by rewrite Hc, He.
Qed.
End round_trip.
