(* ===== verification/PageFile.v ===== *)
(** The page file of a table: [store/pager/pagefile.rs].

    A file is its bytes; a write past the end fills the gap with zeros. Offsets and
    lengths are [u64] values far from overflow. [tiled]: live records and
    free slots tile the file behind the superblock, so a live record is never
    overwritten and no slot is lost. *)

From stdpp Require Import base list gmap sorting numbers.
From Stdlib Require Import ZArith Lia.
From S2P Require Import Prelude Crc32c PageFormat PageCodec.
From stdpp Require Import list.
#[local] Open Scope Z_scope.

Record Extent : Type := { ex_offset : Z; ex_len : Z }.

Definition slot_len (len : Z) : Z := (len + EXTENT_ALIGN - 1) / EXTENT_ALIGN * EXTENT_ALIGN.

Record PageFile : Type := { pf_bytes : list Z; pf_end : Z; pf_free : gmap Z Z }.

(** Positional writes and exact reads. *)
Definition write_at (bytes : list Z) (offset : Z) (buf : list Z) : list Z :=
  let o := Z.to_nat offset in
  firstn o bytes ++ replicate (o - length bytes) 0 ++ buf ++ skipn (o + length buf) bytes.

Definition read_at (bytes : list Z) (offset len : Z) : result ColdError (list Z) :=
  if blen bytes <? offset + len then Err ReadPastEnd else Ok (firstn (Z.to_nat len) (skipn (Z.to_nat offset) bytes)).

Definition file_create (page_size shard_id table_id : Z) : PageFile :=
  {| pf_bytes := write_at [] 0 (encode_superblock page_size shard_id table_id); pf_end := EXTENT_ALIGN; pf_free := ∅ |}.

Definition file_open (bytes : list Z) (shard_id table_id : Z) : result ColdError (PageFile * Z) :=
  read_at bytes 0 SUPERBLOCK_LEN ≫= fun block =>
  page_res (decode_superblock block shard_id table_id) ≫= fun page_size =>
  Ok ({| pf_bytes := bytes; pf_end := slot_len (Z.max (blen bytes) EXTENT_ALIGN); pf_free := ∅ |}, page_size).

(** First fit: the lowest free slot that is long enough, else the end. *)
Definition allocate (f : PageFile) (slot : Z) : Z * PageFile :=
  match find (fun p => slot <=? p.2) (btree_entries (pf_free f)) with
  | Some (offset, len) =>
      let free := delete offset (pf_free f) in
      let free := if slot <? len then <[offset + slot := len - slot]> free else free in
      (offset, {| pf_bytes := pf_bytes f; pf_end := pf_end f; pf_free := free |})
  | None => (pf_end f, {| pf_bytes := pf_bytes f; pf_end := pf_end f + slot; pf_free := pf_free f |})
  end.

Definition write_page (f : PageFile) (image : list Z) : Extent * PageFile :=
  let '(offset, f) := allocate f (slot_len (blen image)) in
  ({| ex_offset := offset; ex_len := blen image |}, {| pf_bytes := write_at (pf_bytes f) offset image; pf_end := pf_end f; pf_free := pf_free f |}).

Definition read_page (f : PageFile) (e : Extent) : result ColdError (list Z) := read_at (pf_bytes f) (ex_offset e) (ex_len e).

(** The free slot that ends before an offset, if any is below it. *)
Definition slot_before (free : gmap Z Z) (offset : Z) : option (Z * Z) := last (filter (fun p => p.1 < offset) (btree_entries free)).

Definition free_extent (f : PageFile) (e : Extent) : PageFile :=
  let offset := ex_offset e in
  let len := slot_len (ex_len e) in
  let '(offset, len, free) :=
    match slot_before (pf_free f) offset with
    | Some (prev_off, prev_len) => if prev_off + prev_len =? offset then (prev_off, len + prev_len, delete prev_off (pf_free f)) else (offset, len, pf_free f)
    | None => (offset, len, pf_free f)
    end in
  let '(len, free) :=
    match free !! (offset + len) with
    | Some next_len => (len + next_len, delete (offset + len) free)
    | None => (len, free)
    end in
  {| pf_bytes := pf_bytes f; pf_end := pf_end f; pf_free := <[offset := len]> free |}.

Definition allocated_bytes (f : PageFile) : Z := pf_end f.

(** * Bytes *)

Lemma length_write bytes o buf : length (write_at bytes o buf) = Nat.max (length bytes) (Z.to_nat o + length buf).
Proof. unfold write_at. rewrite !length_app, length_take, length_replicate, length_drop. lia. Qed.

Lemma read_written bytes o buf : 0 <= o -> read_at (write_at bytes o buf) o (blen buf) = Ok buf.
Proof.
  intros Ho. unfold read_at, blen. rewrite length_write. rewrite (proj2 (Z.ltb_ge _ _)) by lia. f_equal. unfold write_at. rewrite app_assoc, drop_app_length' by (rewrite length_app, length_take, length_replicate; lia).
  rewrite take_app_length'; [done|lia].
Qed.

(** Bytes outside the written range stay. *)
Lemma read_apart bytes o buf p len r : 0 <= o -> 0 <= p -> 0 <= len -> p + len <= o \/ o + blen buf <= p -> read_at bytes p len = Ok r -> read_at (write_at bytes o buf) p len = Ok r.
Proof.
  intros Ho Hp Hl Hap. unfold read_at, blen in *. rewrite length_write. destruct (Z.ltb_spec (Z.of_nat (length bytes)) (p + len)) as [|Hb]; [done|]. rewrite (proj2 (Z.ltb_ge _ _)) by lia. intros [= <-]. f_equal.
  apply list_eq. intros i. destruct (decide (i < Z.to_nat len)%nat) as [Hi|Hi]; [|by rewrite !lookup_take_ge by lia]. rewrite !lookup_take_lt, !lookup_drop by done. unfold write_at. destruct Hap as [Hap|Hap].
  - rewrite lookup_app_l by (rewrite length_take; lia). by rewrite lookup_take_lt by lia.
  - rewrite !lookup_app_r by (rewrite ?length_take, ?length_replicate; lia). rewrite lookup_drop. f_equal. rewrite length_take, length_replicate. lia.
Qed.

(** * Tiles *)

Inductive Seg : Type := Hole (n : Z) | Rec (image : list Z).

Definition seg_len (s : Seg) : Z := match s with Hole n => n | Rec image => slot_len (blen image) end.
Definition seg_ok (s : Seg) : Prop := 0 < seg_len s /\ (EXTENT_ALIGN | seg_len s).

Fixpoint total (l : list Seg) : Z := match l with [] => 0 | s :: l => seg_len s + total l end.

(** The free slots and the live records of a sequence of tiles. *)
Fixpoint holes (pos : Z) (l : list Seg) : gmap Z Z :=
  match l with [] => ∅ | Hole n :: l => <[pos := n]> (holes (pos + n) l) | Rec image :: l => holes (pos + slot_len (blen image)) l end.
Fixpoint recs (pos : Z) (l : list Seg) : gmap Z (list Z) :=
  match l with [] => ∅ | Hole n :: l => recs (pos + n) l | Rec image :: l => <[pos := image]> (recs (pos + slot_len (blen image)) l) end.

Definition is_hole (s : Seg) : bool := match s with Hole _ => true | Rec _ => false end.

(** Free slots never touch. *)
Fixpoint coalesced (l : list Seg) : bool :=
  match l with
  | s :: (s' :: _) as rest => negb (is_hole s && is_hole s') && coalesced rest
  | _ => true
  end.

Lemma slot_len_bounds n : 0 < n -> n <= slot_len n < n + EXTENT_ALIGN /\ 0 < slot_len n /\ (EXTENT_ALIGN | slot_len n).
Proof. intros Hn. unfold slot_len, EXTENT_ALIGN. split; [pose proof (Z.div_mod (n + 256 - 1) 256 ltac:(lia)); pose proof (Z.mod_pos_bound (n + 256 - 1) 256 ltac:(lia)); lia|]. split; [|apply Z.divide_factor_r]. assert (1 <= (n + 256 - 1) / 256) by (apply Z.div_le_lower_bound; lia). lia. Qed.

Lemma tiles_app l1 l2 : total (l1 ++ l2) = total l1 + total l2.
Proof. induction l1 as [|s l1 IH]; simpl; [done|]. rewrite IH. lia. Qed.

Lemma total_nonneg l : Forall seg_ok l -> 0 <= total l.
Proof. induction 1 as [|s l [Hs _] _ IH]; simpl; lia. Qed.

Lemma holes_app pos l1 l2 : Forall seg_ok l1 -> holes pos (l1 ++ l2) = holes pos l1 ∪ holes (pos + total l1) l2.
Proof.
  intros H1. revert pos. induction H1 as [|s l1 _ _ IH]; intros pos; simpl; [by rewrite Z.add_0_r, (left_id_L ∅ (∪))|]. destruct s as [n|im]; simpl; rewrite IH, Z.add_assoc; [by rewrite insert_union_l|done].
Qed.

Lemma recs_app pos l1 l2 : Forall seg_ok l1 -> recs pos (l1 ++ l2) = recs pos l1 ∪ recs (pos + total l1) l2.
Proof.
  intros H1. revert pos. induction H1 as [|s l1 _ _ IH]; intros pos; simpl; [by rewrite Z.add_0_r, (left_id_L ∅ (∪))|]. destruct s as [n|im]; simpl; rewrite IH, Z.add_assoc; [done|by rewrite insert_union_l].
Qed.

Lemma holes_range pos l o n : Forall seg_ok l -> holes pos l !! o = Some n -> pos <= o /\ o + n <= pos + total l /\ 0 < n.
Proof.
  intros Hl. revert pos. induction Hl as [|s l [Hs _] Hl IH]; intros pos; simpl; [done|]. destruct s as [m|im]; simpl in *.
  - destruct (decide (o = pos)) as [->|Hne]; [rewrite lookup_insert_eq; intros [= <-]; pose proof (total_nonneg l Hl); lia|]. rewrite lookup_insert_ne by done. intros H%IH. lia.
  - intros H%IH. lia.
Qed.

Lemma recs_range pos l o im : Forall seg_ok l -> recs pos l !! o = Some im -> pos <= o /\ o + slot_len (blen im) <= pos + total l /\ 0 < slot_len (blen im).
Proof.
  intros Hl. revert pos. induction Hl as [|s l [Hs _] Hl IH]; intros pos; simpl; [done|]. destruct s as [m|im']; simpl in *.
  - intros H%IH. lia.
  - destruct (decide (o = pos)) as [->|Hne]; [rewrite lookup_insert_eq; intros [= <-]; pose proof (total_nonneg l Hl); lia|]. rewrite lookup_insert_ne by done. intros H%IH. lia.
Qed.

Lemma holes_none pos l o : Forall seg_ok l -> o < pos \/ pos + total l <= o -> holes pos l !! o = None.
Proof. intros Hl Ho. destruct (holes pos l !! o) as [n|] eqn:E; [|done]. apply holes_range in E; [lia|done]. Qed.
Lemma recs_none pos l o : Forall seg_ok l -> o < pos \/ pos + total l <= o -> recs pos l !! o = None.
Proof. intros Hl Ho. destruct (recs pos l !! o) as [im|] eqn:E; [|done]. apply recs_range in E; [lia|done]. Qed.

(** Where a slot or record is. *)
Lemma holes_split pos l o n : holes pos l !! o = Some n -> exists l1 l2, l = l1 ++ Hole n :: l2 /\ o = pos + total l1.
Proof.
  revert pos. induction l as [|s l IH]; intros pos; simpl; [done|]. destruct s as [m|im].
  - destruct (decide (o = pos)) as [->|Hne]; [rewrite lookup_insert_eq; intros [= ->]; exists [], l; split; [done|simpl; lia]|]. rewrite lookup_insert_ne by done. intros (l1 & l2 & -> & ->)%IH. exists (Hole m :: l1), l2. split; [done|simpl; lia].
  - intros (l1 & l2 & -> & ->)%IH. exists (Rec im :: l1), l2. split; [done|simpl; lia].
Qed.

Lemma recs_split pos l o im : recs pos l !! o = Some im -> exists l1 l2, l = l1 ++ Rec im :: l2 /\ o = pos + total l1.
Proof.
  revert pos. induction l as [|s l IH]; intros pos; simpl; [done|]. destruct s as [m|im'].
  - intros (l1 & l2 & -> & ->)%IH. exists (Hole m :: l1), l2. split; [done|simpl; lia].
  - destruct (decide (o = pos)) as [->|Hne]; [rewrite lookup_insert_eq; intros [= ->]; exists [], l; split; [done|simpl; lia]|]. rewrite lookup_insert_ne by done. intros (l1 & l2 & -> & ->)%IH. exists (Rec im' :: l1), l2. split; [done|simpl; lia].
Qed.

Lemma coalesced_app l1 l2 : coalesced (l1 ++ l2) = coalesced l1 && coalesced l2 && negb (match last l1, head l2 with Some a, Some b => is_hole a && is_hole b | _, _ => false end).
Proof.
  induction l1 as [|s l1 IH]; [simpl; by rewrite andb_true_r|]. destruct l1 as [|s' l1].
  - destruct l2 as [|s' l2]; [done|]. cbn [app coalesced last head]. by rewrite andb_comm.
  - change (coalesced ((s :: s' :: l1) ++ l2)) with (negb (is_hole s && is_hole s') && coalesced ((s' :: l1) ++ l2)). rewrite IH. change (last (s :: s' :: l1)) with (last (s' :: l1)). cbn [coalesced]. by rewrite !andb_assoc.
Qed.

Lemma coalesced_rec l1 image l2 : coalesced (l1 ++ Rec image :: l2) = coalesced l1 && coalesced l2.
Proof.
  rewrite coalesced_app. assert (coalesced (Rec image :: l2) = coalesced l2) as -> by (by destruct l2). cbn [head]. destruct (last l1) as [a|]; cbn [is_hole]; by rewrite ?andb_false_r, andb_true_r.
Qed.

(** A slot has no slot as a neighbour. *)
Definition no_hole (o : option Seg) : bool := match o with Some s => negb (is_hole s) | None => true end.

Lemma coalesced_hole l1 n l2 : coalesced (l1 ++ Hole n :: l2) = coalesced l1 && coalesced l2 && no_hole (last l1) && no_hole (head l2).
Proof.
  rewrite coalesced_app. assert (coalesced (Hole n :: l2) = coalesced l2 && no_hole (head l2)) as -> by (destruct l2; [done|cbn [coalesced head no_hole is_hole andb]; apply andb_comm]). cbn [head].
  destruct (last l1) as [a|]; cbn [no_hole is_hole]; [destruct (is_hole a)|]; by destruct (coalesced l1), (coalesced l2), (no_hole (head l2)).
Qed.

(** The tiles of a file: slots, records and the bytes of the records. *)
Definition tiled (f : PageFile) (l : list Seg) : Prop :=
  Forall seg_ok l /\ coalesced l = true /\ pf_end f = EXTENT_ALIGN + total l /\ pf_free f = holes EXTENT_ALIGN l /\
  map_Forall (fun o im => read_at (pf_bytes f) o (blen im) = Ok im) (recs EXTENT_ALIGN l).

(** * Allocation *)

(** A write into a range that no record uses. *)
Lemma write_tile bytes l1 l2 o image mid : Forall seg_ok (l1 ++ l2) -> o = EXTENT_ALIGN + total l1 -> blen image <= mid ->
  map_Forall (fun o im => read_at bytes o (blen im) = Ok im) (recs EXTENT_ALIGN l1) -> map_Forall (fun o im => read_at bytes o (blen im) = Ok im) (recs (o + mid) l2) ->
  forall o' im, recs EXTENT_ALIGN l1 !! o' = Some im \/ recs (o + mid) l2 !! o' = Some im -> read_at (write_at bytes o image) o' (blen im) = Ok im.
Proof.
  intros [H1 H2]%Forall_app -> Hm Hr1 Hr2 o' im Ho. pose proof (total_nonneg l1 H1). unfold EXTENT_ALIGN in *. assert (0 <= 256 + total l1) as Hpos by lia. pose proof (blen_nonneg im) as Hnn. pose proof (blen_nonneg image).
  assert (blen im <= slot_len (blen im)) as Hsl by (destruct (Z.eq_dec (blen im) 0) as [->|]; [done|]; pose proof (slot_len_bounds (blen im) ltac:(lia)); lia).
  destruct Ho as [Ho|Ho].
  - pose proof (recs_range _ _ _ _ H1 Ho). apply read_apart; [done|lia|done|lia|by apply Hr1].
  - pose proof (recs_range _ _ _ _ H2 Ho). apply read_apart; [done|lia|done|lia|by apply Hr2].
Qed.

Lemma find_entry (P : Z * Z -> bool) (m : gmap Z Z) : match find P (btree_entries m) with Some p => m !! p.1 = Some p.2 /\ P p = true | None => True end.
Proof. destruct (find P (btree_entries m)) as [[o n]|] eqn:E; [|done]. apply find_some in E as [Hin HP]. apply list_elem_of_In, elem_of_btree_entries in Hin. done. Qed.

Lemma seg_rec image : 0 < blen image -> seg_ok (Rec image).
Proof. intros H. split; apply slot_len_bounds; lia. Qed.

Lemma rest_ok slot n : seg_ok (Hole n) -> (EXTENT_ALIGN | slot) -> 0 < slot -> slot <= n -> Forall seg_ok (if slot <? n then [Hole (n - slot)] else []).
Proof. intros [_ Hd] Hs H0 Hn. destruct (Z.ltb_spec slot n); repeat constructor; simpl in *; [lia|by apply Z.divide_sub_r]. Qed.

(** What a write leaves: the record in a free slot that was long enough, or at the end. *)
Lemma write_page_spec f l image : tiled f l -> 0 < blen image ->
  exists l' e f', write_page f image = (e, f') /\ tiled f' l' /\ ex_len e = blen image /\ recs EXTENT_ALIGN l !! ex_offset e = None /\ recs EXTENT_ALIGN l' = <[ex_offset e := image]> (recs EXTENT_ALIGN l).
Proof.
  intros (Hok & Hco & Hend & Hfree & Hrecs) Him. destruct (slot_len_bounds (blen image) Him) as ([Hs1 _] & Hs0 & Hsd). set (slot := slot_len (blen image)) in *. unfold write_page, allocate. fold slot. pose proof (find_entry (fun p => slot <=? p.2) (pf_free f)) as Hfind.
  destruct (find _ _) as [[o n]|]; cbn [fst snd] in Hfind.
  - destruct Hfind as [Ho Hn%Z.leb_le]. rewrite Hfree in Ho. pose proof (holes_split _ _ _ _ Ho) as (l1 & l2 & -> & Eo). apply Forall_app in Hok as [H1 [Hh H2]%Forall_cons]. pose proof (rest_ok slot n Hh Hsd Hs0 Hn) as Hrest.
    set (rest := if slot <? n then [Hole (n - slot)] else []) in *. assert (total rest = n - slot) as Ht by (unfold rest; destruct (Z.ltb_spec slot n); simpl; lia). rewrite recs_app in * by done. rewrite <- Eo in *. cbn [recs] in *.
    assert (recs EXTENT_ALIGN (l1 ++ Rec image :: rest ++ l2) = <[o := image]> (recs EXTENT_ALIGN l1 ∪ recs (o + n) l2)) as Er.
    { rewrite recs_app by done. rewrite <- Eo. cbn [recs]. fold slot. rewrite recs_app by done. rewrite Ht. replace (o + slot + (n - slot)) with (o + n) by lia. replace (recs (o + slot) rest) with (∅ : gmap Z (list Z)) by (unfold rest; destruct (slot <? n); done).
      rewrite (left_id_L ∅ (∪)). rewrite <- insert_union_r; [done|]. apply recs_none; [done|lia]. }
    exists (l1 ++ Rec image :: rest ++ l2), {| ex_offset := o; ex_len := blen image |}. eexists. split; [done|]. cbn [ex_offset ex_len]. split; [|split; [done|split; [|exact Er]]].
    + split; [apply Forall_app; split; [done|]; constructor; [by apply seg_rec|by apply Forall_app]|]. split.
      { rewrite coalesced_hole, !andb_true_iff in Hco. destruct Hco as [[[Hc1 Hc2] Hc3] Hc4]. rewrite coalesced_rec, Hc1. unfold rest. destruct (slot <? n); [|done]. change ([Hole (n - slot)] ++ l2) with ([] ++ Hole (n - slot) :: l2). by rewrite coalesced_hole, Hc2, Hc4. }
      split; [cbn [pf_end]; rewrite Hend, !tiles_app; cbn [total seg_len]; fold slot; rewrite tiles_app, Ht; lia|]. split.
      { cbn [pf_free]. rewrite Hfree, !holes_app by done. rewrite <- Eo. cbn [holes]. fold slot. rewrite holes_app by done. rewrite Ht. replace (o + slot + (n - slot)) with (o + n) by lia.
        rewrite <- insert_union_r by (apply holes_none; [done|lia]). rewrite delete_insert_id by (apply lookup_union_None; split; apply holes_none; try done; lia).
        unfold rest. destruct (Z.ltb_spec slot n); cbn [holes]; [|by rewrite (left_id_L ∅ (∪))]. rewrite <- insert_union_l, (left_id_L ∅ (∪)). rewrite insert_union_r; [done|]. apply holes_none; [done|lia]. }
      rewrite Er. apply map_Forall_insert_2; [apply read_written; pose proof (total_nonneg l1 H1); unfold EXTENT_ALIGN in *; lia|]. cbn [pf_bytes].
      apply map_Forall_union_1_1 in Hrecs as Hr1. assert (map_Forall (fun o im => read_at (pf_bytes f) o (blen im) = Ok im) (recs (o + n) l2)) as Hr2.
      { eapply map_Forall_union_1_2; [|exact Hrecs]. apply map_disjoint_spec. intros k x y Hx Hy. apply recs_range in Hx, Hy; [|done..]. lia. }
      intros o' im [Hx|[_ Hx]]%lookup_union_Some_raw; eapply (write_tile (pf_bytes f) l1 l2 o image n); try done; [by apply Forall_app|lia|by left|by apply Forall_app|lia|by right].
    + apply lookup_union_None. split; apply recs_none; try done; lia.
  - assert (recs EXTENT_ALIGN (l ++ [Rec image]) = <[pf_end f := image]> (recs EXTENT_ALIGN l)) as Er.
    { rewrite recs_app by done. rewrite <- Hend. cbn [recs]. rewrite <- insert_union_r by (apply recs_none; [done|lia]). by rewrite (right_id_L ∅ (∪)). }
    exists (l ++ [Rec image]), {| ex_offset := pf_end f; ex_len := blen image |}. eexists. split; [done|]. cbn [ex_offset ex_len]. split; [|split; [done|split; [apply recs_none; [done|lia]|exact Er]]].
    split; [apply Forall_app; split; [done|]; constructor; [by apply seg_rec|done]|]. split; [by rewrite coalesced_rec, Hco|].
    split; [cbn [pf_end]; rewrite Hend, tiles_app; cbn [total seg_len]; fold slot; lia|]. split; [cbn [pf_free]; rewrite Hfree, holes_app by done; cbn [holes]; by rewrite (right_id_L ∅ (∪))|].
    rewrite Er. apply map_Forall_insert_2; [apply read_written; rewrite Hend; pose proof (total_nonneg l Hok); unfold EXTENT_ALIGN; lia|]. cbn [pf_bytes]. intros o' im Hx.
    eapply (write_tile (pf_bytes f) l [] (pf_end f) image (blen image)); try done; [by rewrite app_nil_r|by left].
Qed.

(** * Release *)

Lemma last_largest (L : list (Z * Z)) : StronglySorted entry_lt L -> match last L with Some p => p ∈ L /\ forall q, q ∈ L -> q.1 <= p.1 | None => L = [] end.
Proof.
  induction 1 as [|p L _ IH Hp]; [done|]. destruct L as [|p' L]; [cbn [last]; split; [left|]; intros q Hq; apply list_elem_of_singleton in Hq as ->; reflexivity|].
  change (last (p :: p' :: L)) with (last (p' :: L)). destruct (last (p' :: L)) as [x|]; [|done]. destruct IH as [Hx Hmax]. split; [by right|]. intros q [->|Hq]%elem_of_cons; [|by apply Hmax].
  rewrite Forall_forall in Hp. specialize (Hp x Hx). change (p.1 < x.1) in Hp. lia.
Qed.

Lemma kept_sorted (P : Z * Z -> Prop) `{!forall p, Decision (P p)} (l : list (Z * Z)) : StronglySorted entry_lt l -> StronglySorted entry_lt (filter P l).
Proof. induction 1 as [|p l _ IH Hp]; [constructor|]. rewrite filter_cons. destruct (decide _); [|done]. constructor; [done|]. rewrite Forall_forall in *. intros q [_ Hq]%list_elem_of_filter. by apply Hp. Qed.

Lemma slot_before_spec free o : match slot_before free o with
  | Some p => free !! p.1 = Some p.2 /\ p.1 < o /\ forall k n, free !! k = Some n -> k < o -> k <= p.1
  | None => forall k n, free !! k = Some n -> o <= k
  end.
Proof.
  unfold slot_before. pose proof (last_largest _ (kept_sorted (fun p => p.1 < o) _ (btree_entries_sorted free))) as HL. destruct (last _) as [[k n]|].
  - destruct HL as [[Hk Hin]%list_elem_of_filter Hmax]. apply elem_of_btree_entries in Hin. split; [done|]. split; [done|]. intros k' n' Hk' Hlt. apply (Hmax (k', n')). apply list_elem_of_filter. split; [done|]. by apply elem_of_btree_entries.
  - intros k n Hk. destruct (Z.le_gt_cases o k); [done|]. assert ((k, n) ∈ filter (fun p => p.1 < o) (btree_entries free)) as Hin by (apply list_elem_of_filter; split; [done|by apply elem_of_btree_entries]). rewrite HL in Hin. inversion Hin.
Qed.

(** A list with its last slot, or its first, split off. *)
Lemma split_last l : coalesced l = true -> exists a pre, l = a ++ pre /\ (pre = [] \/ exists n, pre = [Hole n]) /\ no_hole (last a) = true /\ coalesced a = true.
Proof.
  destruct l as [|s l _] using rev_ind; [by exists [], []; auto|]. intros Hco. destruct s as [n|im].
  - exists l, [Hole n]. split; [done|]. split; [right; by exists n|]. rewrite coalesced_hole, !andb_true_iff in Hco. tauto.
  - exists (l ++ [Rec im]), []. split; [by rewrite app_nil_r|]. split; [by left|]. rewrite last_snoc. done.
Qed.

Lemma split_first l : coalesced l = true -> exists post b, l = post ++ b /\ (post = [] \/ exists n, post = [Hole n]) /\ no_hole (head b) = true /\ coalesced b = true.
Proof.
  destruct l as [|[n|im] l]; intros Hco; [by exists [], []; auto| |by exists [], (Rec im :: l); auto]. exists [Hole n], l. split; [done|]. split; [right; by exists n|].
  change (Hole n :: l) with ([] ++ Hole n :: l) in Hco. rewrite coalesced_hole, !andb_true_iff in Hco. tauto.
Qed.

Section release.
Context (a pre post b : list Seg) (image : list Z).
Context (Ha : Forall seg_ok a) (Hpre : Forall seg_ok pre) (Hpost : Forall seg_ok post) (Hb : Forall seg_ok b) (Hi : seg_ok (Rec image)).
Context (Fpre : pre = [] \/ exists n, pre = [Hole n]) (Fpost : post = [] \/ exists n, post = [Hole n]).
Context (La : no_hole (last a) = true) (Fb : no_hole (head b) = true).
Notation o := (EXTENT_ALIGN + total a + total pre).
Notation len := (slot_len (blen image)).
Notation free := (holes EXTENT_ALIGN (a ++ pre ++ Rec image :: post ++ b)).

Lemma free_parts : free = holes EXTENT_ALIGN a ∪ (holes (EXTENT_ALIGN + total a) pre ∪ holes (o + len) (post ++ b)).
Proof using Ha Hpre. rewrite holes_app by done. rewrite holes_app by done. done. Qed.

(** A slot that ends at the record is its neighbour. *)
Lemma slot_at_end k n : holes EXTENT_ALIGN a !! k = Some n -> k + n <> EXTENT_ALIGN + total a.
Proof using Ha La.
  intros (a1 & a2 & Ea & Ek)%holes_split E. rewrite Ea in La, Ha, E. apply Forall_app in Ha as [_ [_ H2]%Forall_cons]. rewrite tiles_app in E. cbn [total seg_len] in E.
  destruct a2 as [|s a2]; [by rewrite last_snoc in La|]. apply Forall_cons in H2 as [[Hs _] H2]. pose proof (total_nonneg a2 H2). cbn [total] in E. lia.
Qed.

Lemma merge_before : match slot_before free o with
    | Some (po, pl) => if po + pl =? o then (po, len + pl, delete po free) else (o, len, free)
    | None => (o, len, free)
    end = (EXTENT_ALIGN + total a, len + total pre, holes EXTENT_ALIGN a ∪ holes (o + len) (post ++ b)).
Proof using Ha Hpre Hpost Hb Hi Fpre La.
  pose proof (slot_before_spec free o) as Hsb. pose proof free_parts as Hparts. assert (Forall seg_ok (post ++ b)) as Hpb by (by apply Forall_app). destruct Hi as [Hl _]. cbn [seg_len] in Hl. pose proof (total_nonneg pre Hpre).
  assert (forall k n, free !! k = Some n -> k < o -> holes EXTENT_ALIGN a !! k = Some n \/ holes (EXTENT_ALIGN + total a) pre !! k = Some n) as Hbelow.
  { intros k n. rewrite Hparts. rewrite lookup_union_Some_raw. intros [Hk|[_ Hk]] Hlt; [by left|]. apply lookup_union_Some_raw in Hk as [Hk|[_ Hk]]; [by right|]. apply holes_range in Hk; [lia|done]. }
  destruct Fpre as [E0|[n E0]].
  - assert (total pre = 0) as Et by (by rewrite E0). assert (forall X, (X, len, free) = (EXTENT_ALIGN + total a, len + total pre, holes EXTENT_ALIGN a ∪ holes (o + len) (post ++ b)) <-> X = EXTENT_ALIGN + total a) as Heq.
    { intros X. rewrite Hparts, E0. cbn [holes total]. rewrite (left_id_L ∅ (∪)), !Z.add_0_r. split; [by intros [= ->]|by intros ->]. }
    destruct (slot_before free o) as [[k n]|]; [|apply Heq; lia]. destruct Hsb as (Hk & Hlt & _). cbn [fst snd] in *. destruct (Z.eqb_spec (k + n) o) as [E|]; [|apply Heq; lia].
    exfalso. destruct (Hbelow k n Hk Hlt) as [Hx|Hx]; [apply slot_at_end in Hx; lia|]. by rewrite E0 in Hx.
  - assert (total pre = n) as Et by (rewrite E0; cbn [total seg_len]; lia). assert (holes (EXTENT_ALIGN + total a) pre = {[EXTENT_ALIGN + total a := n]}) as Eh by (rewrite E0; done). assert (0 < n) as Hn by (rewrite E0 in Hpre; apply Forall_cons in Hpre as [[? _] _]; done).
    assert (holes EXTENT_ALIGN a !! (EXTENT_ALIGN + total a) = None) as Hna by (apply holes_none; [done|lia]).
    assert (free !! (EXTENT_ALIGN + total a) = Some n) as Hfn by (rewrite Hparts, lookup_union_r by done; apply lookup_union_Some_l; by rewrite Eh, lookup_singleton_eq).
    destruct (slot_before free o) as [[k m]|]; [|specialize (Hsb _ _ Hfn); lia]. destruct Hsb as (Hk & Hlt & Hmax). cbn [fst snd] in *. specialize (Hmax _ _ Hfn ltac:(lia)).
    assert (k = EXTENT_ALIGN + total a /\ m = n) as [-> ->].
    { destruct (Hbelow k m Hk Hlt) as [Hx|Hx]; [apply holes_range in Hx; [lia|done]|]. rewrite Eh in Hx. by apply lookup_singleton_Some in Hx as [-> ->]. }
    rewrite Et, Z.eqb_refl. f_equal. rewrite Hparts, Eh. rewrite delete_union, (delete_id (holes EXTENT_ALIGN a)) by done. f_equal. rewrite delete_union, delete_singleton_eq, (left_id_L ∅ (∪)). rewrite Et. apply delete_id. apply holes_none; [done|lia].
Qed.

Lemma merge_after : match (holes EXTENT_ALIGN a ∪ holes (o + len) (post ++ b)) !! (o + len) with
    | Some next => (len + total pre + next, delete (o + len) (holes EXTENT_ALIGN a ∪ holes (o + len) (post ++ b)))
    | None => (len + total pre, holes EXTENT_ALIGN a ∪ holes (o + len) (post ++ b))
    end = (total pre + len + total post, holes EXTENT_ALIGN a ∪ holes (o + len + total post) b).
Proof using Ha Hpre Hpost Hb Hi Fpost Fb.
  destruct Hi as [Hl _]. cbn [seg_len] in Hl. pose proof (total_nonneg pre Hpre). assert (holes EXTENT_ALIGN a !! (o + len) = None) as Hna by (apply holes_none; [done|lia]). rewrite lookup_union_r by done.
  assert (forall pos, holes pos b !! pos = None) as Hb0.
  { intros pos. destruct b as [|[n|im] b']; [done|done|]. cbn [holes]. apply Forall_cons in Hb as [[Hs _] Hb']. cbn [seg_len] in Hs. apply holes_none; [done|lia]. }
  destruct Fpost as [E0|[n E0]]; rewrite E0.
  - cbn [app total]. rewrite Hb0, !Z.add_0_r. f_equal. lia.
  - assert (seg_ok (Hole n)) as [Hn _] by (rewrite E0 in Hpost; by apply Forall_cons in Hpost as [? _]). cbn [app holes total seg_len]. rewrite lookup_insert_eq. f_equal; [lia|]. rewrite delete_union, (delete_id (holes EXTENT_ALIGN a)) by done. f_equal. rewrite Z.add_0_r. apply delete_insert_id. cbn [seg_len] in Hn. apply holes_none; [done|lia].
Qed.

Lemma free_extent_tiles bytes fend : free_extent {| pf_bytes := bytes; pf_end := fend; pf_free := free |} {| ex_offset := o; ex_len := blen image |} =
  {| pf_bytes := bytes; pf_end := fend; pf_free := holes EXTENT_ALIGN (a ++ Hole (total pre + len + total post) :: b) |}.
Proof using Ha Hpre Hpost Hb Hi Fpre Fpost La Fb.
  unfold free_extent. cbn [ex_offset ex_len pf_free pf_bytes pf_end]. rewrite merge_before. replace (EXTENT_ALIGN + total a + (len + total pre)) with (o + len) by lia. rewrite merge_after. f_equal. destruct Hi as [Hl _]. cbn [seg_len] in Hl. pose proof (total_nonneg pre Hpre).
  rewrite holes_app by done. cbn [holes]. replace (EXTENT_ALIGN + total a + (total pre + len + total post)) with (o + len + total post) by lia. rewrite <- insert_union_r; [done|]. apply holes_none; [done|lia].
Qed.
End release.

(** A released record becomes a slot, merged with its neighbours. *)
Lemma free_extent_spec f l o image : tiled f l -> recs EXTENT_ALIGN l !! o = Some image ->
  exists l', tiled (free_extent f {| ex_offset := o; ex_len := blen image |}) l' /\ recs EXTENT_ALIGN l' = delete o (recs EXTENT_ALIGN l).
Proof.
  intros (Hok & Hco & Hend & Hfree & Hrecs) Ho. pose proof (recs_split _ _ _ _ Ho) as (l1 & l2 & El & Eo). rewrite El, coalesced_rec, andb_true_iff in Hco. destruct Hco as [Hc1 Hc2].
  destruct (split_last l1 Hc1) as (a & pre & -> & Fpre & La & Hca), (split_first l2 Hc2) as (post & b & -> & Fpost & Fb & Hcb).
  rewrite El in Hok. apply Forall_app in Hok as [[Ha Hpre]%Forall_app [Hi [Hpost Hb]%Forall_app]%Forall_cons]. rewrite tiles_app, Z.add_assoc in Eo.
  assert (l = a ++ pre ++ Rec image :: post ++ b) as El' by (by rewrite El, <- app_assoc). exists (a ++ Hole (total pre + slot_len (blen image) + total post) :: b).
  destruct f as [bytes fend free]. cbn [pf_free pf_end pf_bytes] in *. subst free o. rewrite El'. rewrite (free_extent_tiles a pre post b image Ha Hpre Hpost Hb Hi Fpre Fpost La Fb).
  pose proof (total_nonneg pre Hpre). pose proof (total_nonneg post Hpost). destruct Hi as [Hl Hd]. cbn [seg_len] in Hl, Hd.
  assert (forall m pos, m = [] \/ (exists n, m = [Hole n]) -> recs pos m = ∅) as Hm0 by (intros m pos [->|[n ->]]; done).
  assert (recs EXTENT_ALIGN (a ++ Hole (total pre + slot_len (blen image) + total post) :: b) = delete (EXTENT_ALIGN + total a + total pre) (recs EXTENT_ALIGN l)) as Er.
  { rewrite El', !recs_app by done. cbn [recs]. rewrite recs_app by done. rewrite (Hm0 pre), (Hm0 post) by done. rewrite !(left_id_L ∅ (∪)). rewrite delete_union, (delete_id (recs EXTENT_ALIGN a)) by (apply recs_none; [done|lia]). rewrite delete_insert_id by (apply recs_none; [done|lia]). f_equal. f_equal. lia. }
  split; [|by rewrite <- El']. split; [|split; [|split; [|split; [done|]]]].
  - apply Forall_app. split; [done|]. constructor; [|done]. split; cbn [seg_len]; [lia|]. assert (forall m, Forall seg_ok m -> (EXTENT_ALIGN | total m)) as Hdv by (induction 1 as [|s m [_ Hs] _ IH]; [apply Z.divide_0_r|by apply Z.divide_add_r]). apply Z.divide_add_r; [apply Z.divide_add_r; [by apply Hdv|done]|by apply Hdv].
  - by rewrite coalesced_hole, Hca, Hcb, La, Fb.
  - cbn [pf_end]. rewrite Hend, El', !tiles_app. cbn [total seg_len]. rewrite tiles_app. lia.
  - rewrite Er. cbn [pf_bytes]. by apply map_Forall_delete.
Qed.
