(* ===== verification/ColdTier.v ===== *)
(** The cold tier of a table: page file, page directory and the spill, fault and
    free paths of [store/pager/mod.rs] below the buffer pool.

    [cold_tier_refines]: under any spills and frees the tier is a map from page ids
    to page images. The pool above it, the files' paths and the metrics are not
    modelled; a spill fails when a crate does, and then changes nothing. *)

From stdpp Require Import base list gmap sorting numbers.
From Stdlib Require Import ZArith Lia.
From S2P Require Import Prelude Crc32c PageFormat PageCodec PageFile.
From stdpp Require Import list.
#[local] Open Scope Z_scope.

Record PagerConfig : Type := {
  pg_shard : Z; pg_page_size : Z; pg_compression : PageCodec.t; pg_min_bytes : Z; pg_keyring : option Keyring;
}.

Record TableIo : Type := { io_file : PageFile; io_directory : gmap Z Extent; io_next_page_id : Z }.

Definition new_io (f : PageFile) : TableIo := {| io_file := f; io_directory := ∅; io_next_page_id := 1 |}.

Section tier.
Context `{BlockCodecs} (cfg : PagerConfig) (table : Z).

(** [table_io]: the bytes of an existing file, or none. *)
Definition open_table_io (existing : option (list Z)) : result ColdError TableIo :=
  if u_max 32 <? pg_page_size cfg then Err RawLenField
  else
    match existing with
    | Some bytes =>
        file_open bytes (pg_shard cfg) table ≫= fun '(f, recorded) =>
        if recorded =? pg_page_size cfg then Ok (new_io f) else Err (PageSizeMismatch recorded)
    | None => Ok (new_io (file_create (pg_page_size cfg) (pg_shard cfg) table))
    end.

Definition io_allocate_page_id (io : TableIo) : Z * TableIo :=
  (io_next_page_id io, {| io_file := io_file io; io_directory := io_directory io; io_next_page_id := cast_unsigned 64 (io_next_page_id io + 1) |}).

Definition with_dir (io : TableIo) (f : PageFile) (d : gmap Z Extent) : TableIo := {| io_file := f; io_directory := d; io_next_page_id := io_next_page_id io |}.

(** The superseded extent is released after the directory points at the new one. *)
Definition spill (io : TableIo) (page_id : Z) (image : list Z) (n : nat) : result ColdError TableIo :=
  encode_for_storage image (pg_compression cfg) (pg_min_bytes cfg) (pg_shard cfg) (pg_keyring cfg) n ≫= fun compressed =>
  let '(extent, f) := write_page (io_file io) (default image compressed) in
  let old := io_directory io !! page_id in
  let directory := <[page_id := extent]> (io_directory io) in
  let f := match old with Some old => free_extent f old | None => f end in
  Ok (with_dir io f directory).

(** The read of a page that is not resident. *)
Definition fault_read (io : TableIo) (page_id : Z) : result ColdError (list Z) :=
  match io_directory io !! page_id with
  | None => Err (PageNowhere page_id)
  | Some extent =>
      read_page (io_file io) extent ≫= fun stored =>
      verify_image stored (pg_page_size cfg) (pg_shard cfg) table page_id (pg_keyring cfg)
  end.

Definition free_page (io : TableIo) (page_id : Z) : TableIo :=
  let f := match io_directory io !! page_id with Some extent => free_extent (io_file io) extent | None => io_file io end in
  with_dir io f (delete page_id (io_directory io)).

Definition page_extent (io : TableIo) (page_id : Z) : option (Z * Z) := (fun e => (ex_offset e, ex_len e)) <$> io_directory io !! page_id.

Definition coldtier_bytes (io : TableIo) : Z := allocated_bytes (io_file io).

(** * Histories *)

Inductive ColdOp : Type := Spill (page_id : Z) (image : list Z) (n : nat) | FreePage (page_id : Z).

(** The tier and the images it should hold. *)
Definition cold_step (st : TableIo * gmap Z (list Z)) (op : ColdOp) : TableIo * gmap Z (list Z) :=
  match op with
  | Spill id image n => match spill st.1 id image n with Ok io => (io, <[id := image]> st.2) | Err _ => st end
  | FreePage id => (free_page st.1 id, delete id st.2)
  end.

Definition cold_run (io : TableIo) (ops : list ColdOp) : TableIo * gmap Z (list Z) := fold_left cold_step ops (io, ∅).

(** A plain page of the table, as the pool holds it. *)
Definition plain_page (id : Z) (image : list Z) : Prop := exists h payload,
  encode_page h payload = Ok image /\ header_ok h /\ codec h = 0 /\ is_encrypted h = false /\ h_table_id h = table /\ h_page_id h = id /\ blen payload <= pg_page_size cfg.

Definition op_ok (op : ColdOp) : Prop := match op with Spill id image _ => plain_page id image | FreePage _ => True end.
End tier.

Section spec.
Context {BC : BlockCodecs} {BL : BlockCodecsLaws} (cfg : PagerConfig) (table : Z).
Context (Hsize : pg_page_size cfg < 2 ^ 31) (Hring : forall ring, pg_keyring cfg = Some ring -> keyring_ok ring).

(** The directory points at the records, each page at its own, and every record
    has a page. *)
Definition directory_is (d : gmap Z Extent) (records : gmap Z (list Z)) (C : gmap Z (list Z)) : Prop :=
  (forall id e, d !! id = Some e -> exists stored image, records !! ex_offset e = Some stored /\ ex_len e = blen stored /\ C !! id = Some image /\
    verify_image stored (pg_page_size cfg) (pg_shard cfg) table id (pg_keyring cfg) = Ok image) /\
  (forall id id' e e', d !! id = Some e -> d !! id' = Some e' -> ex_offset e = ex_offset e' -> id = id') /\
  (forall o stored, records !! o = Some stored -> exists id e, d !! id = Some e /\ ex_offset e = o) /\
  (forall id, d !! id = None -> C !! id = None).

Definition cold_is (io : TableIo) (C : gmap Z (list Z)) : Prop := exists l, tiled (io_file io) l /\ directory_is (io_directory io) (recs EXTENT_ALIGN l) C.

Lemma encoded_nonempty h payload image : encode_page h payload = Ok image -> 0 < blen image.
Proof. intros [_ ->]%encode_page_Ok. rewrite !blen_app, blen_header_bytes, blen_le_bytes. pose proof (blen_nonneg payload). lia. Qed.

Lemma stored_nonempty image c m s k n r : 0 < blen image -> encode_for_storage image c m s k n = Ok r -> 0 < blen (default image r).
Proof.
  intros Hi. unfold encode_for_storage. destruct (trusted_header image) as [[h p]|]; [|done]. cbn [page_res mbind result_bind]. destruct (_ || _); [done|]. destruct (compress_payload c p m) as [cp|]; [|done]. cbn [mbind result_bind].
  destruct k as [ring|].
  - destruct (kr_seal _ _ _ _) as [sl|]; [|done]. destruct (encode_page _ sl) as [out|] eqn:E; [|done]. cbn [page_res mbind result_bind]. intros [= <-]. by eapply encoded_nonempty.
  - destruct cp as [st|]; [|by intros [= <-]]. destruct (encode_page _ st) as [out|] eqn:E; [|done]. cbn [page_res mbind result_bind]. intros [= <-]. by eapply encoded_nonempty.
Qed.

Lemma extent_eta e n : ex_len e = n -> e = {| ex_offset := ex_offset e; ex_len := n |}.
Proof. destruct e. simpl. by intros ->. Qed.

(** Releasing the record of a page that the directory no longer lists. *)
Lemma release f l d C id e : tiled f l -> directory_is d (recs EXTENT_ALIGN l) C -> d !! id = Some e ->
  exists l', tiled (free_extent f e) l' /\ recs EXTENT_ALIGN l' = delete (ex_offset e) (recs EXTENT_ALIGN l) /\ directory_is (delete id d) (recs EXTENT_ALIGN l') (delete id C).
Proof.
  intros Hf (Hd & Hinj & Hall & Hno) He. destruct (Hd id e He) as (stored & image & Hs & Hlen & _). destruct (free_extent_spec f l (ex_offset e) stored Hf Hs) as (l' & Hf' & Er). rewrite <- (extent_eta e _ Hlen) in Hf'.
  exists l'. split; [done|]. split; [done|]. rewrite Er. split; [|split; [|split]].
  - intros id' e' [Hne He']%lookup_delete_Some. destruct (Hd id' e' He') as (st & im & H1 & H2 & H3 & H4). exists st, im. split; [|split; [done|]].
    + rewrite lookup_delete_ne; [done|]. intros Eo. by apply Hne, (Hinj _ _ _ _ He He').
    + split; [by rewrite lookup_delete_ne|done].
  - intros id1 id2 e1 e2 [_ H1]%lookup_delete_Some [_ H2]%lookup_delete_Some. by apply Hinj.
  - intros o st [Hne Ho]%lookup_delete_Some. destruct (Hall o st Ho) as (id' & e' & He' & Eo). exists id', e'. split; [|done]. rewrite lookup_delete_ne; [done|]. intros <-. rewrite He in He'. congruence.
  - intros id' Hn. destruct (decide (id = id')) as [<-|Hne]; [by rewrite lookup_delete_eq|]. rewrite lookup_delete_ne by done. apply Hno. apply lookup_delete_None in Hn as [?|Hn]; [congruence|done].
Qed.

Lemma spill_spec io C id image n io' : cold_is io C -> plain_page cfg table id image -> spill cfg io id image n = Ok io' -> cold_is io' (<[id := image]> C).
Proof using BL Hsize Hring.
  intros (l & Hf & HD) (h & payload & Ei & Hh & Hc & Hen & Ht & Hp & Hlen). unfold spill. destruct (encode_for_storage image _ _ _ _ n) as [r|] eqn:Er; [|done]. cbn [mbind result_bind].
  pose proof (image_round_trip h payload image _ _ _ _ _ n r Hh Hc Hen Ei Hlen Hsize Hring Er) as Hv. rewrite Ht, Hp in Hv. set (stored := default image r) in *.
  assert (0 < blen stored) as Hst by (eapply stored_nonempty; [by eapply encoded_nonempty|exact Er]).
  destruct (write_page_spec (io_file io) l stored Hf Hst) as (l1 & e & f1 & Ew & Hf1 & Hel & Hnone & Hrecs). rewrite Ew. intros [= <-].
  assert (forall f2 l2 d2 C2, tiled f2 l2 -> directory_is d2 (delete (ex_offset e) (recs EXTENT_ALIGN l2)) C2 -> d2 !! id = None -> recs EXTENT_ALIGN l2 !! ex_offset e = Some stored -> cold_is (with_dir io f2 (<[id := e]> d2)) (<[id := image]> C2)) as Hadd.
  { intros f2 l2 d2 C2 Hf2 (Hd & Hinj & Hall & Hno) Hid He. exists l2. split; [done|]. cbn [io_directory with_dir].
    assert (forall id' e', d2 !! id' = Some e' -> ex_offset e' <> ex_offset e) as Hother. { intros id' e' He' Eo. destruct (Hd id' e' He') as (st & im & H1 & _). by rewrite Eo, lookup_delete_eq in H1. }
    split; [|split; [|split]].
    - intros id' e'. destruct (decide (id' = id)) as [->|Hne]; [rewrite !lookup_insert_eq; intros [= <-]; by exists stored, image|]. rewrite !lookup_insert_ne by done. intros He'. destruct (Hd id' e' He') as (st & im & H1 & H2 & H3 & H4). exists st, im. apply lookup_delete_Some in H1 as [_ H1]. done.
    - intros id1 id2 e1 e2 H1 H2 Eo. apply lookup_insert_Some in H1 as [[<- <-]|[Hn1 H1]], H2 as [[<- <-]|[Hn2 H2]]; [done|exfalso; by apply (Hother _ _ H2)|exfalso; by apply (Hother _ _ H1)|by apply (Hinj _ _ _ _ H1 H2)].
    - intros o st Ho. destruct (decide (o = ex_offset e)) as [->|Hne]; [exists id, e; by rewrite lookup_insert_eq|]. destruct (Hall o st) as (id' & e' & He' & Eo); [by rewrite lookup_delete_ne by congruence|]. exists id', e'. split; [|done]. rewrite lookup_insert_ne; [done|]. intros ->. congruence.
    - intros id' [Hn Hne]%lookup_insert_None. rewrite lookup_insert_ne by done. by apply Hno. }
  destruct (io_directory io !! id) as [old|] eqn:Eold.
  - destruct HD as (Hd & Hinj & Hall & Hno). destruct (Hd id old Eold) as (sto & imo & Ho & Hlo & _). assert (ex_offset old <> ex_offset e) as Hne by (intros E; by rewrite E, Hnone in Ho).
    assert (recs EXTENT_ALIGN l1 !! ex_offset old = Some sto) as Ho1 by (by rewrite Hrecs, lookup_insert_ne). destruct (free_extent_spec f1 l1 (ex_offset old) sto Hf1 Ho1) as (l2 & Hf2 & Er2). rewrite <- (extent_eta old _ Hlo) in Hf2.
    destruct (release (io_file io) l (io_directory io) C id old Hf (conj Hd (conj Hinj (conj Hall Hno))) Eold) as (l3 & _ & Er3 & HD3).
    replace (<[id := e]> (io_directory io)) with (<[id := e]> (delete id (io_directory io))) by apply insert_delete_eq. replace (<[id := image]> C) with (<[id := image]> (delete id C)) by apply insert_delete_eq.
    apply (Hadd _ l2); [done| |apply lookup_delete_eq|by rewrite Er2, lookup_delete_ne, Hrecs, lookup_insert_eq by done].
    replace (delete (ex_offset e) (recs EXTENT_ALIGN l2)) with (recs EXTENT_ALIGN l3); [done|]. rewrite Er2, Er3, Hrecs, delete_delete. by rewrite delete_insert_id.
  - apply (Hadd _ l1); [done| |done|by rewrite Hrecs, lookup_insert_eq]. by rewrite Hrecs, delete_insert_id.
Qed.

Lemma free_page_spec io C id : cold_is io C -> cold_is (free_page io id) (delete id C).
Proof.
  intros (l & Hf & HD). unfold free_page. destruct (io_directory io !! id) as [e|] eqn:E.
  - destruct (release (io_file io) l (io_directory io) C id e Hf HD E) as (l' & Hf' & _ & HD'). by exists l'.
  - rewrite delete_id by done. rewrite (delete_id C) by (destruct HD as (_ & _ & _ & Hno); by apply Hno). by exists l.
Qed.

Lemma cold_step_spec st op : cold_is st.1 st.2 -> op_ok cfg table op -> cold_is (cold_step cfg st op).1 (cold_step cfg st op).2.
Proof using BL Hsize Hring.
  intros Hst Hop. destruct op as [id image n|id]; cbn [cold_step]; [|by apply free_page_spec]. destruct (spill cfg st.1 id image n) as [io|] eqn:E; [|done]. cbn [fst snd]. by eapply spill_spec.
Qed.

Lemma cold_new : cold_is (new_io (file_create (pg_page_size cfg) (pg_shard cfg) table)) ∅.
Proof. exists []. split; [split; [constructor|]; split; [done|]; split; [done|]; split; [done|]; apply map_Forall_empty|]. split; [by intros id e|]. split; [by intros id id' e e'|]. split; [by intros o st|done]. Qed.

Lemma cold_steps_spec ops : Forall (op_ok cfg table) ops -> forall st, cold_is st.1 st.2 -> cold_is (fold_left (cold_step cfg) ops st).1 (fold_left (cold_step cfg) ops st).2.
Proof using BL Hsize Hring. induction 1 as [|op ops Hop _ IH]; intros st Hst; [done|]. cbn [fold_left]. apply IH. by apply cold_step_spec. Qed.

Lemma fault_read_is io C id : cold_is io C -> fault_read cfg table io id = match C !! id with Some image => Ok image | None => Err (PageNowhere id) end.
Proof.
  intros (l & Hf & Hd & _ & _ & Hno). unfold fault_read. destruct (io_directory io !! id) as [e|] eqn:E; [|by rewrite (Hno id E)]. destruct (Hd id e E) as (stored & image & Hs & Hlen & -> & Hv). destruct Hf as (_ & _ & _ & _ & Hr). unfold read_page. rewrite Hlen, (Hr _ _ Hs). exact Hv.
Qed.

(** C18: a new table's cold tier is a map from page ids to page images: after any
    spills, whatever the codec and keyring, and frees, a fault returns exactly the
    image that was spilled last and reports other pages as missing; the extents of two
    pages never overlap, live records and free slots fill the file without a gap, and
    free slots never touch. *)
Theorem cold_tier_refines ops : Forall (op_ok cfg table) ops ->
  let '(io, C) := cold_run cfg (new_io (file_create (pg_page_size cfg) (pg_shard cfg) table)) ops in
  (forall id, fault_read cfg table io id = match C !! id with Some image => Ok image | None => Err (PageNowhere id) end) /\
  (forall id id' e e', io_directory io !! id = Some e -> io_directory io !! id' = Some e' -> id <> id' -> ex_offset e + slot_len (ex_len e) <= ex_offset e' \/ ex_offset e' + slot_len (ex_len e') <= ex_offset e) /\
  exists l, tiled (io_file io) l /\ forall o, is_Some (recs EXTENT_ALIGN l !! o) <-> exists id e, io_directory io !! id = Some e /\ ex_offset e = o.
Proof using BL Hsize Hring.
  intros Hops. pose proof (cold_steps_spec ops Hops (new_io (file_create (pg_page_size cfg) (pg_shard cfg) table), ∅) cold_new) as Hc. unfold cold_run. destruct (fold_left (cold_step cfg) ops _) as [io C]. cbn [fst snd] in Hc. pose proof Hc as (l & Hf & Hd & Hinj & Hall & Hno). split; [|split].
  - intros id. by apply fault_read_is.
  - intros id id' e e' He He' Hne. destruct (Hd id e He) as (s1 & _ & H1 & L1 & _), (Hd id' e' He') as (s2 & _ & H2 & L2 & _). rewrite L1, L2. destruct Hf as (Hok & _).
    destruct (recs_split _ _ _ _ H1) as (l1 & l2 & -> & E1). apply Forall_app in Hok as [Hk1 [Hk Hk2]%Forall_cons]. rewrite recs_app in H2 by done. apply lookup_union_Some_raw in H2 as [H2|[_ H2]]; [apply recs_range in H2; [lia|done]|].
    cbn [recs] in H2. apply lookup_insert_Some in H2 as [[E2 _]|[_ H2]]; [|apply recs_range in H2; [lia|done]]. exfalso. apply Hne, (Hinj _ _ _ _ He He'). lia.
  - exists l. split; [done|]. intros o. split; [intros [st Ho]; by apply (Hall o st)|]. intros (id & e & He & <-). destruct (Hd id e He) as (st & _ & Hs & _). by eexists.
Qed.
End spec.
