(* ===== verification/ColdSample.v ===== *)
(** A cold tier with a codec for uniform payloads and a keyring that prefixes its
    nonce: pages are spilled, rewritten and freed. *)

From stdpp Require Import base list gmap sorting numbers.
From Stdlib Require Import ZArith Lia.
From S2P Require Import Prelude Crc32c PageFormat PageCodec PageFile ColdTier.
From stdpp Require Import list.
#[local] Open Scope Z_scope.

(** A payload of one repeated byte becomes two bytes. *)
Definition squeeze (p : list Z) : option (list Z) :=
  match p with
  | [] => Some [0]
  | x :: _ => if bool_decide (p = replicate (length p) x) then Some [1; x] else Some (0 :: p)
  end.
Definition unsqueeze (b : list Z) (n : Z) : option (list Z) :=
  match b with
  | 0 :: p => Some p
  | 1 :: x :: _ => Some (replicate (Z.to_nat n) x)
  | _ => None
  end.

Lemma squeeze_round_trip p b : squeeze p = Some b -> unsqueeze b (blen p) = Some p.
Proof.
  destruct p as [|x p]; [by intros [= <-]|]. unfold squeeze. destruct (bool_decide_reflect (x :: p = replicate (length (x :: p)) x)) as [E|]; [|by intros [= <-]].
  intros [= <-]. cbn [unsqueeze]. unfold blen. by rewrite Nat2Z.id, <- E.
Qed.

#[local] Instance squeeze_codecs : BlockCodecs := {| lz4_compress := squeeze; lz4_decompress := unsqueeze; zstd_compress := squeeze; zstd_decompress := unsqueeze |}.
#[local] Instance squeeze_laws : BlockCodecsLaws.
Proof. split; apply squeeze_round_trip. Qed.

Definition prefix_ring : Keyring := {| kr_seal n p _ := Some (Z.of_nat n :: p); kr_open c _ := match c with _ :: p => Some p | [] => None end |}.

Lemma prefix_ring_ok : keyring_ok prefix_ring.
Proof. intros n p aad c [= <-]. done. Qed.

Definition cold_config (keyring : option Keyring) : PagerConfig := {| pg_shard := 1; pg_page_size := 4096; pg_compression := PageCodec.Lz4; pg_min_bytes := 64; pg_keyring := keyring |}.

Definition page_of (id x : Z) (n : nat) : list Z := match encode_page (PageHeader_new id 7 0 0) (replicate n x) with Ok image => image | Err _ => [] end.

(** Two pages; the first is rewritten twice and the second freed. *)
Definition cold_ops : list ColdOp := [Spill 1 (page_of 1 5 300) 0; Spill 2 (page_of 2 6 20) 1; Spill 1 (page_of 1 8 20) 2; FreePage 2; Spill 1 (page_of 1 9 500) 3].

Lemma page_of_plain k id x n : (blen (replicate n x) <=? 4096) = true -> (0 <=? id) && (id <? 2 ^ 64) = true -> is_ok (encode_page (PageHeader_new id 7 0 0) (replicate n x)) = true -> plain_page (cold_config k) 7 id (page_of id x n).
Proof.
  intros Hn%Z.leb_le [Hi1%Z.leb_le Hi2%Z.ltb_lt]%andb_true_iff He. exists (PageHeader_new id 7 0 0), (replicate n x). unfold page_of. destruct (encode_page _ _) as [image|]; [|done]. split; [done|]. split; [|done].
  split; [unfold u_ok; simpl; lia|]. vm_compute. repeat split; congruence.
Qed.

Lemma cold_ops_ok k : Forall (op_ok (cold_config k) 7) cold_ops.
Proof. repeat (constructor; [first [exact I|apply page_of_plain; vm_compute; reflexivity]|]). constructor. Qed.

Notation cold_state k := (cold_run (cold_config k) (new_io (file_create 4096 1 7)) cold_ops).

Lemma cold_images k : k = None \/ k = Some prefix_ring -> (cold_state k).2 = {[1 := page_of 1 9 500]}.
Proof. intros [->| ->]; vm_compute; reflexivity. Qed.

(** The last image of page 1 is read back, sealed and compressed. *)
Lemma cold_tier_refines_witness : fault_read (cold_config (Some prefix_ring)) 7 (cold_state (Some prefix_ring)).1 1 = Ok (page_of 1 9 500) /\
  fault_read (cold_config (Some prefix_ring)) 7 (cold_state (Some prefix_ring)).1 2 = Err (PageNowhere 2).
Proof.
  pose proof (cold_images (Some prefix_ring) (or_intror eq_refl)) as EC.
  pose proof (cold_tier_refines (cold_config (Some prefix_ring)) 7 ltac:(vm_compute; reflexivity) ltac:(intros ring Hr; injection Hr as <-; exact prefix_ring_ok) cold_ops (cold_ops_ok _)) as H.
  cbn [pg_page_size pg_shard cold_config] in H. destruct (cold_state (Some prefix_ring)) as [io C]. cbn [fst snd] in *. destruct H as [H _]. rewrite EC in H. split; [exact (H 1)|exact (H 2)].
Defined.
