(* ===== verification/BufferPool.v ===== *)
(** The buffer pool: [store/pager/pool.rs], for one thread of control.

    The tier below the pool is the interface [Backing]. A critical section of the
    code is a step here; the set of keys in flight, which only other threads
    observe, and the metrics are not modelled; pin counts are unbounded. The rounded watermark products are
    arguments of [pool_new]. The free slots are a stack with its top first. The
    retry loop of an insertion has fuel; [BufferPoolProps] shows how much is enough
    and when no fuel is. *)

From stdpp Require Import base list gmap sorting numbers.
From Stdlib Require Import ZArith Lia.
From S2P Require Import Prelude Crc32c PageFormat PageCodec.
From stdpp Require Import list.
#[local] Open Scope Z_scope.

Section pool.
Context {K : Type} `{Countable K}.

Record Frame : Type := { fr_key : K; fr_data : list Z; fr_pins : Z; fr_referenced : bool; fr_dirty : bool }.

Record Pool : Type := {
  pl_map : gmap K nat; pl_frames : list (option Frame); pl_free : list nat; pl_hand : nat; pl_reclaiming : bool; pl_high : nat; pl_low : nat;
}.

(** A pinned page: the slot, the key and the image it keeps alive. *)
Record PageGuard : Type := { gd_slot : nat; gd_key : K; gd_data : list Z }.

Definition pool_new (frames high low : nat) : Pool :=
  let frames := Nat.max frames 1 in
  let high := Nat.min (Nat.max high 1) frames in
  {| pl_map := ∅; pl_frames := replicate frames None; pl_free := reverse (seq 0 frames); pl_hand := 0; pl_reclaiming := false; pl_high := high; pl_low := Nat.min low high |}.

Definition occupied (p : Pool) : nat := size (pl_map p).
Definition capacity (p : Pool) : nat := length (pl_frames p).

Definition set_frames (p : Pool) (fs : list (option Frame)) : Pool :=
  {| pl_map := pl_map p; pl_frames := fs; pl_free := pl_free p; pl_hand := pl_hand p; pl_reclaiming := pl_reclaiming p; pl_high := pl_high p; pl_low := pl_low p |}.
Definition set_hand (p : Pool) (h : nat) : Pool :=
  {| pl_map := pl_map p; pl_frames := pl_frames p; pl_free := pl_free p; pl_hand := h; pl_reclaiming := pl_reclaiming p; pl_high := pl_high p; pl_low := pl_low p |}.
Definition set_reclaiming (p : Pool) (r : bool) : Pool :=
  {| pl_map := pl_map p; pl_frames := pl_frames p; pl_free := pl_free p; pl_hand := pl_hand p; pl_reclaiming := r; pl_high := pl_high p; pl_low := pl_low p |}.

(** A frame in a free slot, and a slot emptied. *)
Definition place (p : Pool) (slot : nat) (free : list nat) (f : Frame) : Pool :=
  {| pl_map := <[fr_key f := slot]> (pl_map p); pl_frames := <[slot := Some f]> (pl_frames p); pl_free := free; pl_hand := pl_hand p; pl_reclaiming := pl_reclaiming p; pl_high := pl_high p; pl_low := pl_low p |}.
Definition vacate (p : Pool) (slot : nat) (k : K) : Pool :=
  {| pl_map := delete k (pl_map p); pl_frames := <[slot := None]> (pl_frames p); pl_free := slot :: pl_free p; pl_hand := pl_hand p; pl_reclaiming := pl_reclaiming p; pl_high := pl_high p; pl_low := pl_low p |}.

Definition frame_at (p : Pool) (slot : nat) : option Frame := mjoin (pl_frames p !! slot).

Definition with_referenced (f : Frame) (r : bool) : Frame := {| fr_key := fr_key f; fr_data := fr_data f; fr_pins := fr_pins f; fr_referenced := r; fr_dirty := fr_dirty f |}.
Definition with_pins (f : Frame) (n : Z) : Frame := {| fr_key := fr_key f; fr_data := fr_data f; fr_pins := n; fr_referenced := fr_referenced f; fr_dirty := fr_dirty f |}.
Definition with_dirty (f : Frame) (d : bool) : Frame := {| fr_key := fr_key f; fr_data := fr_data f; fr_pins := fr_pins f; fr_referenced := fr_referenced f; fr_dirty := d |}.

Definition set_frame (p : Pool) (slot : nat) (f : Frame) : Pool := set_frames p (<[slot := Some f]> (pl_frames p)).

(** Touch and pin the frame of a hit. *)
Definition pin_frame (p : Pool) (slot : nat) (f : Frame) : PageGuard * Pool :=
  ({| gd_slot := slot; gd_key := fr_key f; gd_data := fr_data f |}, set_frame p slot (with_pins (with_referenced f true) (fr_pins f + 1))).

Definition lookup_page (p : Pool) (k : K) : option (PageGuard * Pool) :=
  match pl_map p !! k with
  | Some slot => match frame_at p slot with Some f => Some (pin_frame p slot f) | None => None end
  | None => None
  end.

(** The drop of a guard. *)
Definition unpin_guard (p : Pool) (g : PageGuard) : Pool :=
  match frame_at p (gd_slot g) with
  | Some f => if bool_decide (fr_key f = gd_key g) then set_frame p (gd_slot g) (with_pins f (Z.max 0 (fr_pins f - 1))) else p
  | None => p
  end.

(** The sweep of the clock hand: [cand] is the first dirty frame it may take. *)
Fixpoint sweep (steps : nat) (p : Pool) (cand : option nat) : option nat * Pool :=
  match steps with
  | O => (cand, p)
  | S steps =>
      let slot := pl_hand p in
      let p := set_hand p ((pl_hand p + 1) mod capacity p) in
      match frame_at p slot with
      | None => sweep steps p cand
      | Some f =>
          if 0 <? fr_pins f then sweep steps p cand
          else if fr_referenced f then sweep steps (set_frame p slot (with_referenced f false)) cand
          else if negb (fr_dirty f) then (Some slot, p)
          else sweep steps p (match cand with Some c => Some c | None => Some slot end)
      end
  end.

Definition pick_victim (p : Pool) : option nat * Pool := sweep (2 * capacity p) p None.

(** * The tier below *)

Class Backing (B : Type) := {
  bk_read : B -> K -> result ColdError (list Z);
  bk_spill : K -> list Z -> SM B ColdError unit;
}.

Context {B : Type} `{Backing B}.
Notation PM := (SM (Pool * B) ColdError).

Fixpoint install_with (fuel : nat) (k : K) (image : list Z) (dirty referenced : bool) : PM PageGuard := fun '(p, b) =>
  match fuel with
  | O => (Err PoolSpins, (p, b))
  | S fuel =>
      match pl_map p !! k with
      | Some slot =>
          match frame_at p slot with
          | Some f => let '(g, p) := pin_frame p slot f in (Ok g, (p, b))
          | None => (Err PoolEmptySlot, (p, b))
          end
      | None =>
          let n := occupied p in
          let p := if (pl_high p <? n + 1)%nat then set_reclaiming p true else p in
          let must_evict := (capacity p <=? n)%nat in
          let want_evict := pl_reclaiming p && (pl_low p <? n + 1)%nat in
          if negb must_evict && negb want_evict then
            let p := set_reclaiming p false in
            match pl_free p with
            | [] => (Err PoolAccounting, (p, b))
            | slot :: free =>
                (Ok {| gd_slot := slot; gd_key := k; gd_data := image |},
                 (place p slot free {| fr_key := k; fr_data := image; fr_pins := 1; fr_referenced := referenced; fr_dirty := dirty |}, b))
            end
          else
            match pick_victim p with
            | (None, p) => if must_evict then (Err (PoolExhausted (Z.of_nat (capacity p))), (p, b)) else install_with fuel k image dirty referenced (set_reclaiming p false, b)
            | (Some v, p) =>
                match frame_at p v with
                | None => (Err PoolHandEmpty, (p, b))
                | Some victim =>
                    let p := vacate p v (fr_key victim) in
                    if fr_dirty victim then
                      match bk_spill (fr_key victim) (fr_data victim) b with
                      | (Ok _, b) => install_with fuel k image dirty referenced (p, b)
                      | (Err e, b) =>
                          (Err e, (match pl_free p with slot :: free => place p slot free victim | [] => p end, b))
                      end
                    else install_with fuel k image dirty referenced (p, b)
                end
            end
      end
  end.

Definition get_or_fault (fuel : nat) (k : K) : PM PageGuard := fun '(p, b) =>
  match pl_map p !! k with
  | Some slot =>
      match frame_at p slot with
      | Some f => let '(g, p) := pin_frame p slot f in (Ok g, (p, b))
      | None => (Err PoolEmptySlot, (p, b))
      end
  | None =>
      match bk_read b k with
      | Ok image => install_with fuel k image false true (p, b)
      | Err e => (Err e, (p, b))
      end
  end.

Definition install (fuel : nat) (k : K) (image : list Z) (referenced : bool) : PM PageGuard := install_with fuel k image true referenced.

(** The guard after the write holds the new image. *)
Definition pool_write (g : PageGuard) (image : list Z) : PM PageGuard := fun '(p, b) =>
  match frame_at p (gd_slot g) with
  | Some f =>
      if bool_decide (fr_key f = gd_key g) then
        (Ok {| gd_slot := gd_slot g; gd_key := gd_key g; gd_data := image |},
         (set_frame p (gd_slot g) {| fr_key := fr_key f; fr_data := image; fr_pins := fr_pins f; fr_referenced := true; fr_dirty := true |}, b))
      else (Err FrameVanished, (p, b))
  | None => (Err FrameVanished, (p, b))
  end.

Definition dirty_frames (p : Pool) : list (K * list Z) := omap (fun o => f ← o; if fr_dirty f then Some (fr_key f, fr_data f) else None) (pl_frames p).

(** The image of a frame is the one written, for one thread: it is marked clean. *)
Definition mark_clean (p : Pool) (k : K) : Pool :=
  match pl_map p !! k with
  | Some slot => match frame_at p slot with Some f => set_frame p slot (with_dirty f false) | None => p end
  | None => p
  end.

Fixpoint flush_each (l : list (K * list Z)) : PM unit := fun '(p, b) =>
  match l with
  | [] => (Ok tt, (p, b))
  | (k, data) :: l =>
      match bk_spill k data b with
      | (Ok _, b) => flush_each l (mark_clean p k, b)
      | (Err e, b) => (Err e, (p, b))
      end
  end.

Definition flush : PM unit := fun '(p, b) => flush_each (dirty_frames p) (p, b).

(** Every unpinned clean frame leaves, slot by slot. *)
Definition evict_slot (p : Pool) (slot : nat) : Pool :=
  match frame_at p slot with
  | Some f => if (fr_pins f =? 0) && negb (fr_dirty f) then vacate p slot (fr_key f) else p
  | None => p
  end.

Definition evict_all : PM unit :=
  fun s => match flush s with (Ok _, (p, b)) => (Ok tt, (fold_left evict_slot (seq 0 (capacity p)) p, b)) | (Err e, s) => (Err e, s) end.

Definition discard (k : K) : PM unit := fun '(p, b) =>
  match pl_map p !! k with
  | Some slot =>
      match frame_at p slot with
      | Some f => if 0 <? fr_pins f then (Err DiscardPinned, (p, b)) else (Ok tt, (vacate p slot k, b))
      | None => (Ok tt, (vacate p slot k, b))
      end
  | None => (Ok tt, (p, b))
  end.
End pool.

Arguments Frame K : clear implicits.
Arguments Pool K {_ _}.
Arguments PageGuard K : clear implicits.
Arguments Backing K B : clear implicits.
