(* ===== verification/BufferPoolProps.v ===== *)
(** Correctness of the buffer pool.

    [pool_inv]: the pool over its backing tier is a map [M] from page keys to
    images, whatever is resident, dirty or evicted, and the pins of a frame are the
    guards held on it. Every operation keeps it. [install_returns] and
    [watermark_spins] say when an insertion returns. *)

From stdpp Require Import base list gmap sorting numbers.
From Stdlib Require Import ZArith Lia.
From S2P Require Import Prelude Crc32c PageFormat PageCodec BufferPool.
From stdpp Require Import list.
#[local] Open Scope Z_scope.

Section pool.
Context {K : Type} `{Countable K}.
Implicit Types (p : Pool K) (f : Frame K) (g : PageGuard K).

(** * Slots *)

Lemma frame_at_lt p s f : frame_at p s = Some f -> (s < capacity p)%nat.
Proof. unfold frame_at, capacity. destruct (pl_frames p !! s) eqn:E; [|done]. intros _. by eapply lookup_lt_Some. Qed.

Lemma frame_at_insert p q s o s' : pl_frames q = <[s := o]> (pl_frames p) -> (s < capacity p)%nat -> frame_at q s' = if decide (s = s') then o else frame_at p s'.
Proof.
  intros Eq Hs. unfold frame_at. rewrite Eq. destruct (decide (s = s')) as [<-|Hne]; [by rewrite list_lookup_insert_eq|by rewrite list_lookup_insert_ne].
Qed.

Lemma frame_at_set p s f f' s' : frame_at p s = Some f -> frame_at (set_frame p s f') s' = if decide (s = s') then Some f' else frame_at p s'.
Proof. intros Hf. apply frame_at_insert; [done|by eapply frame_at_lt]. Qed.

Lemma capacity_insert p q s o : pl_frames q = <[s := o]> (pl_frames p) -> capacity q = capacity p.
Proof. intros Eq. unfold capacity. by rewrite Eq, length_insert. Qed.

(** * The shape of a pool *)

Record shape p : Prop := {
  sh_map : forall k s, pl_map p !! k = Some s <-> exists f, frame_at p s = Some f /\ fr_key f = k;
  sh_nodup : NoDup (pl_free p);
  sh_free : forall s, s ∈ pl_free p <-> (s < capacity p)%nat /\ frame_at p s = None;
  sh_size : (occupied p + length (pl_free p) = capacity p)%nat;
  sh_hand : (pl_hand p < capacity p)%nat;
  sh_marks : (1 <= pl_high p <= capacity p)%nat /\ (pl_low p <= pl_high p)%nat;
}.

Lemma shape_resident p k s : shape p -> pl_map p !! k = Some s -> exists f, frame_at p s = Some f /\ fr_key f = k.
Proof. intros Hp Hk. by apply (sh_map _ Hp). Qed.

Lemma shape_slot p s f : shape p -> frame_at p s = Some f -> pl_map p !! fr_key f = Some s.
Proof. intros Hp Hf. apply (sh_map _ Hp). by exists f. Qed.

Lemma shape_new frames high low : shape (pool_new (K := K) frames high low).
Proof.
  assert (forall s, frame_at (pool_new (K := K) frames high low) s = None) as Hno. { intros s. unfold frame_at, pool_new. cbn [pl_frames]. destruct (replicate _ None !! s) as [o|] eqn:E; [|done]. apply lookup_replicate in E as [-> _]. done. }
  assert (capacity (pool_new (K := K) frames high low) = Nat.max frames 1) as Hc by (unfold capacity; simpl; apply length_replicate).
  split; rewrite ?Hc.
  - intros k s. rewrite Hno. split; [done|]. by intros (f & [=] & _).
  - cbn [pool_new pl_free]. rewrite reverse_Permutation. apply NoDup_seq.
  - intros s. simpl. rewrite elem_of_reverse, elem_of_seq, Hno. split; [intros; split; [lia|done]|lia].
  - unfold occupied. simpl. rewrite length_reverse, length_seq, map_size_empty. lia.
  - simpl. lia.
  - simpl. lia.
Qed.

Lemma shape_set p s f f' : shape p -> frame_at p s = Some f -> fr_key f' = fr_key f -> shape (set_frame p s f').
Proof.
  intros [Hm Hn Hf Hs Hh Hk] E Ek. assert (capacity (set_frame p s f') = capacity p) as Hc by (eapply capacity_insert; reflexivity). split; rewrite ?Hc; try done.
  - intros k s'. rewrite (frame_at_set p s f) by done. cbn [set_frame set_frames pl_map]. rewrite Hm. destruct (decide (s = s')) as [<-|]; [|done]. rewrite E. split; intros (x & [= <-] & <-); eexists; split; [reflexivity|done|reflexivity|done].
  - intros s'. rewrite (frame_at_set p s f) by done. cbn [set_frame set_frames pl_free]. rewrite Hf. destruct (decide (s = s')) as [<-|]; [|done]. rewrite E. by split; intros [_ ?].
Qed.

Lemma shape_place p s free f : shape p -> pl_free p = s :: free -> pl_map p !! fr_key f = None -> shape (place p s free f) /\ frame_at p s = None /\ (s < capacity p)%nat.
Proof.
  intros [Hm Hn Hf Hs Hh Hk] Ef Hnone. assert (s ∈ pl_free p) as Hin by (rewrite Ef; by left). apply Hf in Hin as [Hlt Hno]. split; [|done].
  assert (capacity (place p s free f) = capacity p) as Hc by (eapply capacity_insert; reflexivity).
  assert (forall s', frame_at (place p s free f) s' = if decide (s = s') then Some f else frame_at p s') as Hat by (intros s'; by apply frame_at_insert).
  rewrite Ef in Hn. apply NoDup_cons in Hn as [Hni Hn]. split; rewrite ?Hc; try done.
  - intros k s'. rewrite Hat. cbn [place pl_map]. destruct (decide (s = s')) as [<-|Hne].
    + split.
      * intros [[<- _]|[Hne Hk']]%lookup_insert_Some; [by exists f|]. apply Hm in Hk' as (x & Hx & _). congruence.
      * intros (x & [= <-] & <-). by rewrite lookup_insert_eq.
    + rewrite <- (Hm k s'). destruct (decide (fr_key f = k)) as [<-|Hne']; [rewrite lookup_insert_eq, Hnone; split; congruence|by rewrite lookup_insert_ne].
  - intros s'. rewrite Hat. cbn [place pl_free]. destruct (decide (s = s')) as [<-|Hne]; [split; [done|by intros [_ ?]]|]. rewrite <- Hf, Ef, elem_of_cons. split; [by right|by intros [|]].
  - unfold occupied in *. cbn [place pl_map pl_free]. rewrite map_size_insert_None by done. rewrite Ef in Hs. simpl in Hs. lia.
Qed.

Lemma frame_at_vacate p s f s' : frame_at p s = Some f -> frame_at (vacate p s (fr_key f)) s' = if decide (s = s') then None else frame_at p s'.
Proof. intros Hf. apply frame_at_insert; [done|by eapply frame_at_lt]. Qed.

Lemma shape_vacate p s f : shape p -> frame_at p s = Some f -> shape (vacate p s (fr_key f)).
Proof.
  intros Hp E. pose proof (shape_slot p s f Hp E) as Hslot. destruct Hp as [Hm Hn Hf Hs Hh Hk]. pose proof (frame_at_lt p s f E) as Hlt. assert (capacity (vacate p s (fr_key f)) = capacity p) as Hc by (eapply capacity_insert; reflexivity). split; rewrite ?Hc; try done.
  - intros k s'. rewrite frame_at_vacate by done. cbn [vacate pl_map]. destruct (decide (s = s')) as [<-|Hne].
    + split; [|by intros (x & [=] & _)]. intros [Hne (x & Hx & <-)%Hm]%lookup_delete_Some. congruence.
    + rewrite <- (Hm k s'). destruct (decide (fr_key f = k)) as [<-|Hne']; [rewrite lookup_delete_eq, Hslot; split; congruence|by rewrite lookup_delete_ne].
  - cbn [vacate pl_free]. apply NoDup_cons. split; [|done]. intros [_ ?]%Hf. congruence.
  - intros s'. rewrite frame_at_vacate by done. cbn [vacate pl_free]. rewrite elem_of_cons, Hf. destruct (decide (s = s')) as [<-|Hne]; [naive_solver|]. split; [by intros [->|]|by right].
  - unfold occupied in *. cbn [vacate pl_map pl_free length]. rewrite map_size_delete_Some by (by eexists). assert (size (pl_map p) <> 0%nat) by (intros E0%map_size_empty_iff; by rewrite E0 in Hslot). lia.
Qed.

(** A victim put back after a failed spill leaves the pool as it was. *)
Lemma put_back p s f : shape p -> frame_at p s = Some f -> place (vacate p s (fr_key f)) s (pl_free p) f = p.
Proof.
  intros Hp E. pose proof (shape_slot p s f Hp E) as Hslot. destruct p as [m fs fr h r hi lo]. unfold place, vacate. cbn [pl_map pl_frames pl_free pl_hand pl_reclaiming pl_high pl_low] in *. f_equal; [by apply insert_delete_id|].
  rewrite list_insert_insert_eq. apply list_insert_id. unfold frame_at in E. cbn [pl_frames] in E. destruct (fs !! s) as [o|]; [|done]. simpl in E. by rewrite E.
Qed.

(** * Up to second-chance bits *)

Notation erase f := (with_referenced f false).

Record calm p p' : Prop := {
  cm_map : pl_map p' = pl_map p;
  cm_free : pl_free p' = pl_free p;
  cm_marks : pl_high p' = pl_high p /\ pl_low p' = pl_low p;
  cm_capacity : capacity p' = capacity p;
  cm_hand : (pl_hand p < capacity p -> pl_hand p' < capacity p)%nat;
  cm_frames : forall s, (fun f => erase f) <$> frame_at p' s = (fun f => erase f) <$> frame_at p s;
}.

#[global] Instance calm_preorder : PreOrder calm.
Proof.
  split; [intros p; by split|]. intros p q r [A1 B1 [C1 C1'] D1 E1 F1] [A2 B2 [C2 C2'] D2 E2 F2]. split; [congruence|congruence|split; congruence|congruence|rewrite <- D1 at 2; rewrite D1 in E2; auto|intros s; by rewrite F2].
  rewrite D1. auto.
Qed.

Lemma calm_hand p : calm p (set_hand p ((pl_hand p + 1) mod capacity p)).
Proof. split; try done. intros Hp. cbn [set_hand pl_hand]. apply Nat.mod_upper_bound. lia. Qed.

Lemma calm_reclaiming p r : calm p (set_reclaiming p r).
Proof. by split. Qed.

Lemma calm_set p s f : frame_at p s = Some f -> calm p (set_frame p s (erase f)).
Proof. intros E. split; try done; [eapply capacity_insert; reflexivity|]. intros s'. rewrite (frame_at_set p s f) by done. destruct (decide (s = s')) as [<-|]; [by rewrite E|done]. Qed.

Lemma calm_frame p p' s f' : calm p p' -> frame_at p' s = Some f' -> exists f, frame_at p s = Some f /\ fr_key f = fr_key f' /\ fr_data f = fr_data f' /\ fr_pins f = fr_pins f' /\ fr_dirty f = fr_dirty f'.
Proof. intros Hc E. pose proof (cm_frames _ _ Hc s) as Hs. rewrite E in Hs. destruct (frame_at p s) as [f|]; [|done]. exists f. split; [done|]. by injection Hs as -> -> -> ->. Qed.

Lemma calm_frame_r p p' s f : calm p p' -> frame_at p s = Some f -> exists f', frame_at p' s = Some f' /\ fr_key f' = fr_key f /\ fr_data f' = fr_data f /\ fr_pins f' = fr_pins f /\ fr_dirty f' = fr_dirty f.
Proof. intros Hc E. pose proof (cm_frames _ _ Hc s) as Hs. rewrite E in Hs. destruct (frame_at p' s) as [f'|]; [|done]. exists f'. split; [done|]. by injection Hs as -> -> -> ->. Qed.

Lemma calm_none p p' s : calm p p' -> frame_at p' s = None <-> frame_at p s = None.
Proof. intros Hc. pose proof (cm_frames _ _ Hc s) as Hs. by destruct (frame_at p s), (frame_at p' s). Qed.

Lemma shape_calm p p' : calm p p' -> shape p -> shape p'.
Proof.
  intros Hc [Hm Hn Hf Hs Hh Hk]. pose proof Hc as [Em Ef [Eh El] Ec Eha _]. split; rewrite ?Em, ?Ef, ?Ec, ?Eh, ?El; auto.
  - intros k s. rewrite Hm. split; [intros (f & E & <-); destruct (calm_frame_r _ _ _ _ Hc E) as (f' & ? & ? & _); by exists f'|intros (f & E & <-); destruct (calm_frame _ _ _ _ Hc E) as (f' & ? & ? & _); by exists f'].
  - intros s. by rewrite Hf, (calm_none _ _ _ Hc).
  - unfold occupied in *. by rewrite Em.
Qed.

(** * The clock *)

Definition evictable p s : Prop := exists f, frame_at p s = Some f /\ fr_pins f <= 0.

Lemma evictable_calm p p' s : calm p p' -> evictable p s -> evictable p' s.
Proof. intros Hc (f & E & Hp). destruct (calm_frame_r _ _ _ _ Hc E) as (f' & ? & _ & _ & ? & _). exists f'. split; [done|lia]. Qed.

Lemma sweep_spec n : forall p cand v p', (forall c, cand = Some c -> evictable p c) -> sweep n p cand = (v, p') -> calm p p' /\ (forall c, v = Some c -> evictable p' c).
Proof.
  induction n as [|n IH]; intros p cand v p' Hc; [by intros [= <- <-]|]. cbn [sweep]. set (q := set_hand p _). assert (calm p q) as Hq by apply calm_hand.
  assert (forall q' cand', calm p q' -> (forall c, cand' = Some c -> evictable q' c) -> sweep n q' cand' = (v, p') -> calm p p' /\ (forall c, v = Some c -> evictable p' c)) as Hgo. { intros q' cand' Hq' Hc' E. apply IH in E as [H1 H2]; [|done]. split; [by etransitivity|done]. }
  assert (forall c, cand = Some c -> evictable q c) as Hcq by (intros c Ec; by eapply evictable_calm, Hc).
  destruct (frame_at q (pl_hand p)) as [f|] eqn:Ef; [|by apply Hgo]. destruct (Z.ltb_spec 0 (fr_pins f)) as [Hp|Hp]; [by apply Hgo|].
  assert (evictable q (pl_hand p)) as Hv by (by exists f). destruct (fr_referenced f).
  - apply Hgo; [etransitivity; [exact Hq|by apply calm_set]|]. intros c Ec. by eapply evictable_calm, Hcq; [apply calm_set|].
  - destruct (fr_dirty f); cbn [negb]; [apply Hgo; [done|]; intros c; destruct cand as [c'|]; [by apply Hcq|by intros [= <-]]|]. intros [= <- <-]. split; [done|]. by intros c [= <-].
Qed.

Lemma sweep_cand n : forall p c, exists c' p', sweep n p (Some c) = (Some c', p').
Proof.
  induction n as [|n IH]; intros p c; [by eexists _, _|]. cbn [sweep]. destruct (frame_at _ _) as [f|]; [|apply IH]. destruct (0 <? fr_pins f); [apply IH|]. destruct (fr_referenced f); [apply IH|]. destruct (fr_dirty f); [apply IH|by eexists _, _].
Qed.

(** A sweep of enough steps finds a slot [d] steps ahead of the hand, at once when
    its bit is clear and a full turn later when it is set. *)
Lemma sweep_finds n : forall p cand s d f, frame_at p s = Some f -> fr_pins f <= 0 -> (d < capacity p)%nat -> s = ((pl_hand p + d) mod capacity p)%nat -> (pl_hand p < capacity p)%nat ->
  (fr_referenced f = false /\ (d < n)%nat) \/ (d + capacity p < n)%nat -> exists v p', sweep n p cand = (Some v, p').
Proof.
  induction n as [|n IH]; intros p cand s d f Ef Hp Hd Es Hh Hn; [exfalso; destruct Hn; lia|]. destruct cand as [c|]; [apply sweep_cand|]. cbn [sweep]. set (q := set_hand p _). assert (frame_at q = frame_at p) as Eq by done. assert (capacity q = capacity p) as Ecq by done. rewrite Eq.
  assert (pl_hand q < capacity p)%nat as Hhq by (apply (cm_hand _ _ (calm_hand p)), Hh). destruct d as [|d].
  - rewrite Nat.add_0_r, Nat.mod_small in Es by done. subst s. rewrite Ef. destruct (Z.ltb_spec 0 (fr_pins f)) as [|_]; [lia|]. destruct (fr_referenced f) eqn:Er.
    + destruct Hn as [[? _]|Hn]; [done|]. assert (capacity (set_frame q (pl_hand p) (erase f)) = capacity p) as Ec by (eapply (capacity_insert p); reflexivity).
      apply (IH _ _ (pl_hand p) (capacity p - 1)%nat (erase f)); rewrite ?Ec; [by rewrite (frame_at_set q _ f), decide_True|done|lia| |done|left; split; [done|lia]].
      cbn [set_frame set_frames pl_hand q set_hand]. rewrite Nat.Div0.add_mod_idemp_l. replace (pl_hand p + 1 + (capacity p - 1))%nat with (pl_hand p + 1 * capacity p)%nat by lia. by rewrite Nat.Div0.mod_add, Nat.mod_small.
    + destruct (fr_dirty f); [apply sweep_cand|by eexists _, _].
  - assert (s <> pl_hand p) as Hne.
    { intros ->. destruct (decide (pl_hand p + S d < capacity p)%nat) as [Hl|Hl]; [rewrite Nat.mod_small in Es by done; lia|]. assert ((pl_hand p + S d) mod capacity p = pl_hand p + S d - capacity p)%nat as Em. { replace (pl_hand p + S d)%nat with (pl_hand p + S d - capacity p + 1 * capacity p)%nat at 1 by lia. rewrite Nat.Div0.mod_add. apply Nat.mod_small. lia. } lia. }
    assert (s = (pl_hand q + d) mod capacity p)%nat as Es' by (cbn [q set_hand pl_hand]; rewrite Nat.Div0.add_mod_idemp_l, Es; f_equal; lia).
    destruct (frame_at p (pl_hand p)) as [f'|] eqn:Ef'; [|apply (IH _ _ s d f); auto; [rewrite Ecq; lia|rewrite Ecq; destruct Hn as [[? ?]|]; [left; split; [done|lia]|right; lia]]].
    assert (forall r, exists v p', sweep n (set_frame q (pl_hand p) r) None = (Some v, p')) as Hset.
    { intros r. assert (capacity (set_frame q (pl_hand p) r) = capacity p) as Ec by (eapply (capacity_insert p); reflexivity). apply (IH _ _ s d f); rewrite ?Ec; auto; [by rewrite (frame_at_set q _ f'), decide_False by done|lia|destruct Hn as [[? ?]|]; [left; split; [done|lia]|right; lia]]. }
    assert (exists v p', sweep n q None = (Some v, p')) as Hq by (apply (IH _ _ s d f); auto; [rewrite Ecq; lia|rewrite Ecq; destruct Hn as [[? ?]|]; [left; split; [done|lia]|right; lia]]).
    destruct (0 <? fr_pins f'); [done|]. destruct (fr_referenced f'); [apply Hset|]. destruct (fr_dirty f'); [apply sweep_cand|by eexists _, _].
Qed.

Lemma pick_victim_spec p v p' : shape p -> pick_victim p = (v, p') -> calm p p' /\ match v with Some c => evictable p' c | None => forall s f, frame_at p s = Some f -> 0 < fr_pins f end.
Proof.
  intros Hp E. pose proof E as E'. unfold pick_victim in E'. apply sweep_spec in E' as [Hc Hv]; [|done]. split; [done|]. destruct v as [c|]; [by apply Hv|]. intros s f Hf. destruct (Z.lt_ge_cases 0 (fr_pins f)) as [|Hpins]; [done|]. exfalso. pose proof (frame_at_lt _ _ _ Hf) as Hs. pose proof (sh_hand _ Hp) as Hh.
  assert (exists d, (d < capacity p)%nat /\ s = (pl_hand p + d) mod capacity p)%nat as (d & Hd & Es).
  { destruct (decide (pl_hand p <= s)%nat); [exists (s - pl_hand p)%nat; split; [lia|]; rewrite Nat.mod_small; lia|]. exists (s + capacity p - pl_hand p)%nat. split; [lia|]. replace (pl_hand p + _)%nat with (s + 1 * capacity p)%nat by lia. by rewrite Nat.Div0.mod_add, Nat.mod_small. }
  destruct (sweep_finds (2 * capacity p) p None s d f) as (v & q & Ev); [done|lia|done|done|done|right; lia|]. unfold pick_victim in E. congruence.
Qed.

(** * Pinned frames *)

Definition is_pinned p s : bool := match frame_at p s with Some f => 0 <? fr_pins f | None => false end.
Definition pinned p : nat := size (filter (fun ks => is_pinned p ks.2 = true) (pl_map p)).

Lemma is_pinned_calm p p' s : calm p p' -> is_pinned p' s = is_pinned p s.
Proof. intros Hc. unfold is_pinned. destruct (frame_at p' s) as [f|] eqn:E; [destruct (calm_frame _ _ _ _ Hc E) as (f' & -> & _ & _ & -> & _); done|]. by rewrite (proj1 (calm_none _ _ _ Hc) E). Qed.

Lemma pinned_calm p p' : calm p p' -> pinned p' = pinned p.
Proof. intros Hc. unfold pinned. rewrite (cm_map _ _ Hc). f_equal. apply map_filter_ext. intros k s _. simpl. by rewrite (is_pinned_calm _ _ _ Hc). Qed.

Lemma pinned_all p : shape p -> (forall s f, frame_at p s = Some f -> 0 < fr_pins f) -> pinned p = occupied p.
Proof.
  intros Hp Hall. unfold pinned, occupied. f_equal. apply map_filter_id. intros k s Hk. simpl. destruct (shape_resident _ _ _ Hp Hk) as (f & E & _). unfold is_pinned. rewrite E. by apply Z.ltb_lt, (Hall s).
Qed.

Lemma pinned_vacate p s f : shape p -> frame_at p s = Some f -> fr_pins f <= 0 -> pinned (vacate p s (fr_key f)) = pinned p.
Proof.
  intros Hp E Hf. unfold pinned. f_equal. apply map_eq. intros k. apply option_eq. intros s'. rewrite !map_lookup_filter_Some. cbn [vacate pl_map snd]. unfold is_pinned at 1. rewrite frame_at_vacate by done. rewrite lookup_delete_Some. fold (is_pinned p s').
  destruct (decide (s = s')) as [<-|Hne]; [unfold is_pinned; rewrite E, (proj2 (Z.ltb_ge _ _)) by done; naive_solver|]. split; [intros [[_ ?] ?]; by split|]. intros [Hk Hpi]. split; [|done]. split; [|done]. intros <-. pose proof (shape_slot _ _ _ Hp E). congruence.
Qed.

Lemma pinned_le p : (pinned p <= occupied p)%nat.
Proof. apply map_subseteq_size, map_filter_subseteq. Qed.

(** * What the pool holds *)

(** Resident frames over the images [C] of the tier below; a clean frame is there too. *)
Definition images p (C M : gmap K (list Z)) : Prop :=
  (forall k, M !! k = match pl_map p !! k with Some s => fr_data <$> frame_at p s | None => C !! k end) /\
  (forall s f, frame_at p s = Some f -> fr_dirty f = false -> C !! fr_key f = Some (fr_data f)).

Definition held (s : nat) (gs : list (PageGuard K)) : nat := length (filter (fun g => gd_slot g = s) gs).

Lemma held_cons s g gs : held s (g :: gs) = ((if decide (gd_slot g = s) then 1 else 0) + held s gs)%nat.
Proof. unfold held. rewrite filter_cons. by destruct (decide (gd_slot g = s)). Qed.

Lemma held_none s gs : held s gs = 0%nat <-> forall g, g ∈ gs -> gd_slot g <> s.
Proof.
  induction gs as [|g gs IH]; [split; [intros _ g Hg; by apply elem_of_nil in Hg|done]|]. rewrite held_cons. setoid_rewrite elem_of_cons. destruct (decide (gd_slot g = s)) as [E|E]; [split; [done|]; intros Hg; exfalso; by apply (Hg g); [left|]|].
  rewrite Nat.add_0_l, IH. naive_solver.
Qed.

(** The frame of a guard is resident, and the pins of a frame are its guards. *)
Definition guarded p (gs : list (PageGuard K)) : Prop :=
  (forall g, g ∈ gs -> exists f, frame_at p (gd_slot g) = Some f /\ fr_key f = gd_key g) /\
  (forall s f, frame_at p s = Some f -> fr_pins f = Z.of_nat (held s gs)).

Lemma images_calm p p' C M : calm p p' -> images p C M -> images p' C M.
Proof.
  intros Hc [HM HC]. split.
  - intros k. rewrite HM, (cm_map _ _ Hc). destruct (pl_map p !! k) as [s|]; [|done]. destruct (frame_at p s) as [f|] eqn:E; [destruct (calm_frame_r _ _ _ _ Hc E) as (f' & -> & _ & Ed & _); simpl; by rewrite Ed|]. by rewrite (proj2 (calm_none _ _ _ Hc) E).
  - intros s f' E Hd. destruct (calm_frame _ _ _ _ Hc E) as (f & Ef & <- & <- & _ & Edi). apply (HC s); [done|congruence].
Qed.

Lemma guarded_calm p p' gs : calm p p' -> guarded p gs -> guarded p' gs.
Proof.
  intros Hc [Hg Hp]. split.
  - intros g Hin. destruct (Hg g Hin) as (f & E & Ek). destruct (calm_frame_r _ _ _ _ Hc E) as (f' & ? & ? & _). exists f'. split; congruence.
  - intros s f' E. destruct (calm_frame _ _ _ _ Hc E) as (f & Ef & _ & _ & <- & _). by apply Hp.
Qed.

Lemma held_zero p s gs : guarded p gs -> frame_at p s = None -> held s gs = 0%nat.
Proof.
  intros [Hg _] E. apply held_none. intros g Hin <-. destruct (Hg g Hin) as (f & ? & _). congruence.
Qed.

Lemma images_resident p C M s f : shape p -> images p C M -> frame_at p s = Some f -> M !! fr_key f = Some (fr_data f).
Proof. intros Hp [HM _] E. by rewrite HM, (shape_slot _ _ _ Hp E), E. Qed.

(** A page of the map may be written below at any time. *)
Lemma images_spill p C M k im : shape p -> images p C M -> M !! k = Some im -> images p (<[k := im]> C) M.
Proof.
  intros Hp HI Hk. pose proof HI as [HM HC]. split.
  - intros k'. rewrite HM. destruct (pl_map p !! k') eqn:E; [done|]. destruct (decide (k = k')) as [<-|Hne]; [|by rewrite lookup_insert_ne]. rewrite lookup_insert_eq, <- Hk, HM. by rewrite E.
  - intros s f E Hd. destruct (decide (k = fr_key f)) as [->|Hne]; [|rewrite lookup_insert_ne by done; by eapply HC]. rewrite lookup_insert_eq, <- Hk. by eapply images_resident.
Qed.

Lemma images_vacate p C M s f : shape p -> images p C M -> frame_at p s = Some f -> C !! fr_key f = Some (fr_data f) -> images (vacate p s (fr_key f)) C M.
Proof.
  intros Hp [HM HC] E Hf. split.
  - intros k. cbn [vacate pl_map]. destruct (decide (fr_key f = k)) as [<-|Hne]; [rewrite lookup_delete_eq; rewrite Hf; eapply images_resident; done|]. rewrite lookup_delete_ne, HM by done. destruct (pl_map p !! k) as [s'|] eqn:Es; [|done]. rewrite frame_at_vacate, decide_False; [done| |done]. intros <-. apply (shape_resident _ _ _ Hp) in Es as (x & ? & ?). congruence.
  - intros s' f'. rewrite frame_at_vacate by done. destruct (decide (s = s')); [done|]. apply HC.
Qed.

Lemma guarded_vacate p s f gs : guarded p gs -> frame_at p s = Some f -> fr_pins f <= 0 -> guarded (vacate p s (fr_key f)) gs.
Proof.
  intros [Hg Hp] E Hf. split; [|intros s' f'; rewrite frame_at_vacate by done; destruct (decide (s = s')); [done|apply Hp]].
  intros g Hin. destruct (Hg g Hin) as (f' & E' & Ek). exists f'. split; [|done]. rewrite frame_at_vacate, decide_False; [done| |done]. intros Es.
  pose proof (Hp s f E) as Hh. assert (held s gs = 0%nat) as H0 by lia. rewrite held_none in H0. by apply (H0 g Hin).
Qed.
End pool.

(** * The interface to the tier below *)

Section laws.
Context {K : Type} `{Countable K} {B : Type} `{!Backing K B}.

(** The tier is a map [C] of the pages that were written to it. *)
Class BackingLaws (key_ok : K -> Prop) (page_ok : K -> list Z -> Prop) (bk_is : B -> gmap K (list Z) -> Prop) : Prop := {
  bk_read_spec : forall b C k, bk_is b C -> key_ok k -> match C !! k with Some im => bk_read b k = Ok im | None => is_ok (bk_read b k) = false end;
  bk_spill_spec : forall b C k im, bk_is b C -> page_ok k im -> match bk_spill k im b with (Ok _, b') => bk_is b' (<[k := im]> C) | (Err _, b') => bk_is b' C end;
}.

Context {key_ok : K -> Prop} {page_ok : K -> list Z -> Prop} {bk_is : B -> gmap K (list Z) -> Prop} `{!BackingLaws key_ok page_ok bk_is}.
Implicit Types (p : Pool K) (f : Frame K) (g : PageGuard K).

Definition pool_inv p (b : B) (M : gmap K (list Z)) (gs : list (PageGuard K)) : Prop :=
  shape p /\ guarded p gs /\ map_Forall page_ok M /\ exists C, bk_is b C /\ images p C M.

Lemma inv_calm p p' b M gs : calm p p' -> pool_inv p b M gs -> pool_inv p' b M gs.
Proof. intros Hc (Hs & Hg & Hok & C & HC & HI). split; [by eapply shape_calm|]. split; [by eapply guarded_calm|]. split; [done|]. exists C. split; [done|by eapply images_calm]. Qed.

(** A frame whose image stays. *)
Lemma inv_set p b M gs gs' s f f' : pool_inv p b M gs -> frame_at p s = Some f -> fr_key f' = fr_key f -> fr_data f' = fr_data f -> fr_dirty f' = fr_dirty f ->
  (forall g, g ∈ gs' -> g ∈ gs \/ gd_slot g = s /\ gd_key g = fr_key f) -> fr_pins f' = Z.of_nat (held s gs') -> (forall s', s <> s' -> held s' gs' = held s' gs) -> pool_inv (set_frame p s f') b M gs'.
Proof.
  intros (Hs & [Hg Hp] & Hok & C & HC & [HM HI]) E Ek Ed Edi Hgs Hpin Hheld. split; [by eapply shape_set|]. split; [split|split; [done|exists C; split; [done|split]]].
  - intros g [Hin|[-> ->]]%Hgs; [|exists f'; split; [|done]; by rewrite (frame_at_set p s f), decide_True]. destruct (Hg g Hin) as (x & Ex & Ekx). rewrite (frame_at_set p s f) by done. destruct (decide (s = gd_slot g)) as [->|]; [|by exists x]. exists f'. split; [done|congruence].
  - intros s' x. rewrite (frame_at_set p s f) by done. destruct (decide (s = s')) as [<-|Hne]; [by intros [= <-]|]. intros Ex. rewrite Hheld by done. by apply Hp.
  - intros k. cbn [set_frame set_frames pl_map]. rewrite HM. destruct (pl_map p !! k) as [s'|]; [|done]. fold (set_frames p (<[s := Some f']> (pl_frames p))). fold (set_frame p s f'). rewrite (frame_at_set p s f) by done. destruct (decide (s = s')) as [<-|]; [|done]. rewrite E. simpl. by rewrite Ed.
  - intros s' x. rewrite (frame_at_set p s f) by done. destruct (decide (s = s')) as [<-|Hne]; [|apply HI]. intros [= <-]. rewrite Ek, Ed, Edi. by apply (HI s).
Qed.

Lemma inv_pin p b M gs s f : pool_inv p b M gs -> frame_at p s = Some f -> let '(g, p') := pin_frame p s f in pool_inv p' b M (g :: gs) /\ gd_key g = fr_key f /\ gd_data g = fr_data f /\ M !! fr_key f = Some (fr_data f).
Proof.
  intros Hi E. pose proof Hi as (Hs & [Hg Hp] & _ & C & _ & HI). split; [|split; [done|split; [done|by eapply images_resident]]]. eapply inv_set; try done.
  - intros g [->|]%elem_of_cons; [by right|by left].
  - cbn [with_pins fr_pins]. rewrite held_cons, decide_True, (Hp s f) by done. lia.
  - intros s' Hne. rewrite held_cons. cbn [gd_slot]. by rewrite decide_False.
Qed.

Lemma inv_place p b M gs k image dirty referenced s free : pool_inv p b M gs -> pl_free p = s :: free -> pl_map p !! k = None -> page_ok k image -> (dirty = false -> M !! k = Some image) ->
  pool_inv (place p s free {| fr_key := k; fr_data := image; fr_pins := 1; fr_referenced := referenced; fr_dirty := dirty |}) b (<[k := image]> M) ({| gd_slot := s; gd_key := k; gd_data := image |} :: gs).
Proof.
  intros (Hs & Hgd & Hok & C & HC & [HM HI]) Ef Hk Him Hcl. set (f := {| fr_key := k |}). destruct (shape_place p s free f Hs Ef Hk) as (Hs' & Hno & Hlt). pose proof Hgd as [Hg Hp].
  assert (forall s', frame_at (place p s free f) s' = if decide (s = s') then Some f else frame_at p s') as Hat by (intros s'; by apply frame_at_insert).
  split; [done|]. split; [split|split; [by apply map_Forall_insert_2|exists C; split; [done|split]]].
  - intros g [->|Hin]%elem_of_cons; [exists f; split; [|done]; by rewrite Hat, decide_True|]. destruct (Hg g Hin) as (x & Ex & Ekx). exists x. split; [|done]. rewrite Hat, decide_False by congruence. done.
  - intros s' x. rewrite Hat, held_cons. cbn [gd_slot]. destruct (decide (s = s')) as [<-|Hne]; [|apply Hp]. intros [= <-]. by rewrite (held_zero p s gs Hgd Hno).
  - intros k'. cbn [place pl_map]. cbn [fr_key f]. destruct (decide (k = k')) as [<-|Hne]; [rewrite !lookup_insert_eq, Hat, decide_True; done|]. rewrite !lookup_insert_ne, HM by done. destruct (pl_map p !! k') as [s'|] eqn:E'; [|done]. rewrite Hat, decide_False; [done|]. intros <-. apply (shape_resident _ _ _ Hs) in E' as (x & ? & _). congruence.
  - intros s' x. rewrite Hat. destruct (decide (s = s')) as [<-|Hne]; [|apply HI]. intros [= <-] Hd. cbn [fr_key fr_data f]. rewrite <- (Hcl Hd), HM. by rewrite Hk.
Qed.

(** A victim that is clean, or was spilled, leaves. *)
Lemma inv_evict p b b' C M gs s f : pool_inv p b M gs -> frame_at p s = Some f -> fr_pins f <= 0 -> bk_is b' C -> images p C M -> C !! fr_key f = Some (fr_data f) -> pool_inv (vacate p s (fr_key f)) b' M gs.
Proof. intros (Hs & Hg & Hok & _) E Hp HC HI Hf. split; [by apply shape_vacate|]. split; [by apply guarded_vacate|]. split; [done|]. exists C. split; [done|by apply images_vacate]. Qed.

Lemma inv_backing p b b' C M gs : pool_inv p b M gs -> bk_is b' C -> images p C M -> pool_inv p b' M gs.
Proof. intros (Hs & Hg & Hok & _) HC HI. split; [done|]. split; [done|]. split; [done|]. by exists C. Qed.

(** The outcome of spilling an image of the map. *)
Lemma inv_spill p b M gs k im : pool_inv p b M gs -> M !! k = Some im ->
  match bk_spill k im b with
  | (Ok _, b') => exists C, bk_is b' C /\ images p C M /\ C !! k = Some im
  | (Err _, b') => pool_inv p b' M gs
  end.
Proof using BackingLaws0.
  intros Hi Hk. pose proof Hi as (Hs & _ & Hok & C & HC & HI). pose proof (bk_spill_spec b C k im HC (Hok k im Hk)) as Hsp. destruct (bk_spill k im b) as [[u|e] b'].
  - exists (<[k := im]> C). split; [done|]. split; [by apply images_spill|apply lookup_insert_eq].
  - by eapply inv_backing.
Qed.

(** The errors a spill may report. *)
Definition spill_error (e : ColdError) : Prop := exists k im (b b' : B), bk_spill k im b = (Err e, b').

(** How often the insertion loop may turn: once per eviction, once for a reclaim that
    finds nothing, once to insert. *)
Definition rounds p : nat := (occupied p + 1 + if pl_reclaiming p || (pl_high p <? occupied p + 1)%nat then 1 else 0)%nat.

Definition install_outcome (fuel : nat) p M gs k image (r : result ColdError (PageGuard K)) p' b' : Prop :=
  capacity p' = capacity p /\ pl_high p' = pl_high p /\
  match r with
  | Ok g => gd_key g = k /\ pool_inv p' b' (<[k := gd_data g]> M) (g :: gs) /\ (M !! k = Some (gd_data g) \/ gd_data g = image)
  | Err e => pool_inv p' b' M gs /\
      (e = PoolExhausted (Z.of_nat (capacity p)) /\ pinned p = capacity p \/ e = PoolSpins /\ ((fuel < rounds p)%nat \/ (pl_high p <= pinned p)%nat) \/ spill_error e)
  end.

Lemma install_turn fuel p q M gs k image r p' b' : capacity q = capacity p -> pl_high q = pl_high p -> pinned q = pinned p -> ((pinned p < pl_high p -> rounds q < rounds p)%nat) ->
  install_outcome fuel q M gs k image r p' b' -> install_outcome (S fuel) p M gs k image r p' b'.
Proof.
  intros Hc Hh Hpi Hr (Hc' & Hh' & Ho). split; [congruence|]. split; [congruence|]. destruct r as [g|e]; [done|]. destruct Ho as [Hi Ho]. split; [done|]. rewrite Hc, Hh, Hpi in Ho. destruct Ho as [?|[[-> Ho]|?]]; [by left| |by right; right]. right. left. split; [done|]. lia.
Qed.

Lemma occupied_vacate p s f : shape p -> frame_at p s = Some f -> occupied p = S (occupied (vacate p s (fr_key f))).
Proof.
  intros Hp E. pose proof (shape_vacate _ _ _ Hp E) as Hv. pose proof (sh_size _ Hp) as H1. pose proof (sh_size _ Hv) as H2. assert (capacity (vacate p s (fr_key f)) = capacity p) as Hc by (eapply capacity_insert; reflexivity). rewrite Hc in H2. cbn [vacate pl_free length] in H2. lia.
Qed.

Lemma install_with_spec k image dirty referenced : forall fuel p b M gs, pool_inv p b M gs -> page_ok k image -> (dirty = false -> M !! k = Some image) ->
  let '(r, (p', b')) := install_with fuel k image dirty referenced (p, b) in install_outcome fuel p M gs k image r p' b'.
Proof using BackingLaws0.
  induction fuel as [|fuel IH]; intros p b M gs Hi Him Hcl; [split; [done|split; [done|split; [done|]]]; right; left; split; [done|]; left; unfold rounds; lia|].
  cbn [install_with]. pose proof Hi as (Hs & _). destruct (pl_map p !! k) as [s|] eqn:Ek.
  { destruct (shape_resident _ _ _ Hs Ek) as (f & Ef & Efk). rewrite Ef. pose proof (inv_pin p b M gs s f Hi Ef) as Hp. destruct (pin_frame p s f) as [g p'] eqn:Ep. injection Ep as Eg Ep'. subst p'. destruct Hp as (Hp & Hk & Hd & HM). rewrite Efk in *. split; [eapply capacity_insert; reflexivity|]. split; [done|]. split; [done|]. rewrite Hd. split; [by rewrite insert_id|by left]. }
  set (q := if (pl_high p <? occupied p + 1)%nat then set_reclaiming p true else p). assert (calm p q) as Hq by (unfold q; destruct (_ <? _)%nat; [apply calm_reclaiming|reflexivity]).
  assert (pl_reclaiming q = pl_reclaiming p || (pl_high p <? occupied p + 1)%nat) as Er by (unfold q; destruct (pl_high p <? occupied p + 1)%nat eqn:E; [by rewrite orb_true_r|by rewrite orb_false_r]).
  pose proof Hq as [Em Ef [Eh El] Ec _ _]. rewrite Ec, Er, El. pose proof (inv_calm p q b M gs Hq Hi) as Hiq.
  destruct (negb (capacity p <=? occupied p)%nat && negb ((pl_reclaiming p || (pl_high p <? occupied p + 1)%nat) && (pl_low p <? occupied p + 1)%nat)) eqn:Eg.
  { apply andb_true_iff in Eg as [Eg%negb_true_iff%Nat.leb_gt _]. cbn [set_reclaiming pl_free]. rewrite Ef. destruct (pl_free p) as [|s free] eqn:Efr; [pose proof (sh_size _ Hs) as Hsz; rewrite Efr in Hsz; simpl in Hsz; lia|].
    assert (pool_inv (set_reclaiming q false) b M gs) as Hi' by (eapply inv_calm; [apply calm_reclaiming|done]). split; [rewrite <- Ec; eapply (capacity_insert (set_reclaiming q false)); reflexivity|]. split; [done|]. split; [done|]. cbn [gd_data]. split; [|by right]. apply inv_place; try done. cbn [set_reclaiming pl_map]. by rewrite Em. }
  destruct (pick_victim q) as [v q'] eqn:Ev. pose proof Hiq as (Hsq & _). destruct (pick_victim_spec q v q' Hsq Ev) as [Hc' Hv]. assert (calm p q') as Hpq by (by etransitivity). pose proof (inv_calm _ _ _ _ _ Hpq Hi) as Hi'. destruct v as [v|].
  - destruct Hv as (f & Efv & Hpins). rewrite Efv. pose proof Hi' as (Hs' & _ & _ & C & HC & HI).
    assert (forall b', pool_inv (vacate q' v (fr_key f)) b' M gs -> let '(r, (p', b')) := install_with fuel k image dirty referenced (vacate q' v (fr_key f), b') in install_outcome (S fuel) p M gs k image r p' b') as Hgo.
    { intros b' Hv'. pose proof (IH _ b' M gs Hv' Him Hcl) as Hgo. destruct (install_with _ _ _ _ _ _) as [r [p' b'']]. eapply install_turn, Hgo.
      - rewrite <- (cm_capacity _ _ Hpq). eapply capacity_insert; reflexivity.
      - apply (cm_marks _ _ Hpq).
      - rewrite pinned_vacate by done. by apply pinned_calm.
      - intros _. pose proof (occupied_vacate _ _ _ Hs' Efv) as Ho. unfold occupied in Ho at 1. rewrite (cm_map _ _ Hpq) in Ho. fold (occupied p) in Ho. unfold rounds. assert (pl_reclaiming p || (pl_high p <? occupied p + 1)%nat = true) as ->; [|case_match; lia].
        destruct (_ || _) eqn:E; [done|]. cbn [andb] in Eg. rewrite andb_true_r in Eg. apply negb_false_iff, Nat.leb_le in Eg. apply orb_false_iff in E as [_ E%Nat.ltb_ge]. pose proof (sh_marks _ Hs). lia. }
    destruct (fr_dirty f) eqn:Ed.
    + pose proof (inv_spill q' b M gs (fr_key f) (fr_data f) Hi' (images_resident _ _ _ _ _ Hs' HI Efv)) as Hsp. destruct (bk_spill (fr_key f) (fr_data f) b) as [[u|e] b'] eqn:Esp.
      * destruct Hsp as (C' & HC' & HI' & Hk'). apply Hgo. by eapply inv_evict.
      * cbn [vacate pl_free]. rewrite put_back by done. split; [apply (cm_capacity _ _ Hpq)|]. split; [apply (cm_marks _ _ Hpq)|]. split; [done|]. right. right. by eexists _, _, _, _.
    + apply Hgo. eapply inv_evict; try done. by apply (proj2 HI v).
  - assert (pinned p = occupied p) as Hall. { rewrite <- (pinned_calm _ _ Hq), pinned_all by done. unfold occupied. by rewrite Em. }
    destruct (Nat.leb_spec (capacity p) (occupied p)) as [Hle|Hlt].
    + split; [apply (cm_capacity _ _ Hpq)|]. split; [apply (cm_marks _ _ Hpq)|]. split; [done|]. left. rewrite (cm_capacity _ _ Hpq). split; [done|]. pose proof (sh_size _ Hs). lia.
    + pose proof (IH (set_reclaiming q' false) b M gs ltac:(by eapply inv_calm; [apply calm_reclaiming|]) Him Hcl) as Hgo. destruct (install_with _ _ _ _ _ _) as [r [p' b'']]. eapply install_turn, Hgo.
      * apply (cm_capacity _ _ Hpq).
      * apply (cm_marks _ _ Hpq).
      * rewrite (pinned_calm _ _ (calm_reclaiming q' false)). by apply pinned_calm.
      * intros Hhi. unfold rounds. assert (occupied (set_reclaiming q' false) = occupied p) as -> by (unfold occupied; simpl; by rewrite (cm_map _ _ Hpq)). cbn [set_reclaiming pl_reclaiming pl_high orb]. rewrite (proj1 (cm_marks _ _ Hpq)).
        rewrite (proj2 (Nat.ltb_ge _ _)) in Eg |- * by lia. rewrite orb_false_r in *. destruct (pl_reclaiming p); [lia|]. by cbn in Eg.
Qed.

(** * The operations *)

Lemma inv_perm p b M gs gs' : gs ≡ₚ gs' -> pool_inv p b M gs -> pool_inv p b M gs'.
Proof.
  intros Hp (Hs & [Hg Hh] & Hrest). split; [done|]. split; [|done]. split; [intros g Hin; apply Hg; by rewrite Hp|]. intros s f E. rewrite (Hh s f E). unfold held. by rewrite Hp.
Qed.

Lemma inv_guard p b M gs g : pool_inv p b M gs -> g ∈ gs -> exists f, frame_at p (gd_slot g) = Some f /\ fr_key f = gd_key g /\ 0 < fr_pins f.
Proof.
  intros (_ & [Hg Hp] & _) Hin. destruct (Hg g Hin) as (f & E & Ek). exists f. split; [done|]. split; [done|]. rewrite (Hp _ _ E). assert (held (gd_slot g) gs <> 0%nat); [|lia]. intros H0. rewrite held_none in H0. by apply (H0 g Hin).
Qed.

Lemma get_or_fault_spec fuel k p b M gs : pool_inv p b M gs -> key_ok k ->
  let '(r, (p', b')) := get_or_fault fuel k (p, b) in
  capacity p' = capacity p /\ pl_high p' = pl_high p /\
  match r with
  | Ok g => gd_key g = k /\ pool_inv p' b' M (g :: gs) /\ M !! k = Some (gd_data g)
  | Err e => pool_inv p' b' M gs /\ (M !! k = None \/ e = PoolExhausted (Z.of_nat (capacity p)) /\ pinned p = capacity p \/ e = PoolSpins /\ ((fuel < rounds p)%nat \/ (pl_high p <= pinned p)%nat) \/ spill_error e)
  end.
Proof using BackingLaws0.
  intros Hi Hkey. unfold get_or_fault. pose proof Hi as (Hs & _ & Hok & C & HC & [HM HI]). destruct (pl_map p !! k) as [s|] eqn:Ek.
  - destruct (shape_resident _ _ _ Hs Ek) as (f & Ef & <-). rewrite Ef. pose proof (inv_pin p b M gs s f Hi Ef) as Hp. destruct (pin_frame p s f) as [g p'] eqn:Ep. injection Ep as Eg Ep'. subst p'. destruct Hp as (Hp & Hk & Hd & HMk). split; [eapply capacity_insert; reflexivity|]. split; [done|]. split; [done|]. split; [done|congruence].
  - assert (M !! k = C !! k) as EM by (by rewrite HM, Ek). pose proof (bk_read_spec b C k HC Hkey) as Hr. destruct (C !! k) as [im|] eqn:EC.
    + rewrite Hr. pose proof (install_with_spec k im false true fuel p b M gs Hi (Hok _ _ EM) (fun _ => EM)) as Ho. destruct (install_with _ _ _ _ _ _) as [r [p' b']]. destruct Ho as (Hc & Hh & Ho). split; [done|]. split; [done|]. destruct r as [g|e]; [|destruct Ho as [? Ho]; split; [done|by right]]. destruct Ho as (Hg & Hp & Hd).
      assert (M !! k = Some (gd_data g)) as Hdk by (destruct Hd as [|Hd]; [done|by rewrite Hd]). rewrite insert_id in Hp by done. done.
    + destruct (bk_read b k) as [im|e]; [done|]. split; [done|]. split; [done|]. split; [done|]. by left.
Qed.

Lemma pool_write_spec p b M gs g im : pool_inv p b M (g :: gs) -> page_ok (gd_key g) im ->
  exists g' p', pool_write g im (p, b) = (Ok g', (p', b)) /\ gd_data g' = im /\ capacity p' = capacity p /\ pl_high p' = pl_high p /\ pool_inv p' b (<[gd_key g := im]> M) (g' :: gs).
Proof.
  intros Hi Him. destruct (inv_guard p b M (g :: gs) g Hi ltac:(by left)) as (f & Ef & Ek & _). destruct Hi as (Hs & [Hg Hh] & Hok & C & HC & [HM HI]). unfold pool_write. rewrite Ef, bool_decide_true by done. eexists _, _. split; [reflexivity|]. split; [done|]. split; [eapply capacity_insert; reflexivity|]. split; [done|].
  set (f' := {| fr_key := fr_key f |}). split; [by eapply shape_set|]. split; [split|split; [by apply map_Forall_insert_2|exists C; split; [done|split]]].
  - intros g' Hin. rewrite (frame_at_set p _ f) by done. destruct (decide (gd_slot g = gd_slot g')) as [Es|Hne].
    + exists f'. split; [done|]. apply elem_of_cons in Hin as [->|Hin]; [done|]. destruct (Hg g') as (x & Ex & Ekx); [by right|]. rewrite <- Es in Ex. cbn [f' fr_key]. congruence.
    + apply elem_of_cons in Hin as [->|Hin]; [done|]. apply Hg. by right.
  - intros s x. rewrite (frame_at_set p _ f) by done. rewrite held_cons. cbn [gd_slot]. destruct (decide (gd_slot g = s)) as [<-|Hne]; [intros [= <-]; cbn [f' fr_pins]; by rewrite (Hh _ _ Ef), held_cons, decide_True|]. intros Ex. by rewrite (Hh _ _ Ex), held_cons, decide_False.
  - intros k. change (pl_map (set_frame p (gd_slot g) f')) with (pl_map p). destruct (decide (gd_key g = k)) as [<-|Hne].
    + rewrite lookup_insert_eq, <- Ek, (shape_slot _ _ _ Hs Ef). rewrite (frame_at_set p _ f), decide_True by done. done.
    + rewrite lookup_insert_ne, HM by done. destruct (pl_map p !! k) as [s|] eqn:E; [|done]. rewrite (frame_at_set p _ f), decide_False; [done| |done]. intros <-. apply (shape_resident _ _ _ Hs) in E as (x & ? & ?). congruence.
  - intros s x. rewrite (frame_at_set p _ f) by done. destruct (decide (gd_slot g = s)); [by intros [= <-]|apply HI].
Qed.

Lemma unpin_spec p b M gs g : pool_inv p b M (g :: gs) -> pool_inv (unpin_guard p g) b M gs /\ capacity (unpin_guard p g) = capacity p /\ pl_high (unpin_guard p g) = pl_high p.
Proof.
  intros Hi. destruct (inv_guard p b M (g :: gs) g Hi ltac:(by left)) as (f & Ef & Ek & Hpos). unfold unpin_guard. rewrite Ef, bool_decide_true by done. split; [|split; [eapply capacity_insert; reflexivity|done]]. pose proof Hi as (_ & [_ Hh] & _). eapply inv_set; try done.
  - intros g' Hin. left. by right.
  - cbn [with_pins fr_pins]. pose proof (Hh _ _ Ef) as Hp. rewrite held_cons, decide_True in Hp by done. lia.
  - intros s' Hne. by rewrite held_cons, decide_False.
Qed.

Lemma mark_clean_spec p b b' C M gs k im : pool_inv p b M gs -> M !! k = Some im -> bk_is b' C -> images p C M -> C !! k = Some im -> pool_inv (mark_clean p k) b' M gs /\ capacity (mark_clean p k) = capacity p /\ pl_high (mark_clean p k) = pl_high p.
Proof.
  intros Hi Hk HC HI HCk. pose proof (inv_backing _ _ _ _ _ _ Hi HC HI) as Hi'. unfold mark_clean. destruct (pl_map p !! k) as [s|] eqn:Es; [|done]. pose proof Hi as (Hs & _). destruct (shape_resident _ _ _ Hs Es) as (f & Ef & Ekf). rewrite Ef. split; [|split; [eapply capacity_insert; reflexivity|done]].
  pose proof (images_resident _ _ _ _ _ Hs HI Ef) as HMf. destruct Hi' as (_ & [Hg Hh] & Hok & _). destruct HI as [HM HI]. split; [by eapply shape_set|]. split; [split|split; [done|exists C; split; [done|split]]].
  - intros g Hin. destruct (Hg g Hin) as (x & Ex & Ekx). rewrite (frame_at_set p _ f) by done. destruct (decide (s = gd_slot g)) as [->|]; [|by exists x]. eexists. split; [reflexivity|]. cbn [with_dirty fr_key]. congruence.
  - intros s' x. rewrite (frame_at_set p _ f) by done. destruct (decide (s = s')) as [<-|]; [|apply Hh]. intros [= <-]. by apply (Hh s f).
  - intros k'. rewrite HM. change (pl_map (set_frame p s (with_dirty f false))) with (pl_map p). destruct (pl_map p !! k') as [s'|]; [|done]. rewrite (frame_at_set p _ f) by done. destruct (decide (s = s')) as [<-|]; [by rewrite Ef|done].
  - intros s' x. rewrite (frame_at_set p _ f) by done. destruct (decide (s = s')) as [<-|]; [|apply HI]. intros [= <-] _. cbn [with_dirty fr_key fr_data]. rewrite <- HMf. congruence.
Qed.

Lemma flush_each_spec M gs l : forall p b, pool_inv p b M gs -> Forall (fun kd => M !! kd.1 = Some kd.2) l ->
  let '(r, (p', b')) := flush_each l (p, b) in pool_inv p' b' M gs /\ capacity p' = capacity p /\ pl_high p' = pl_high p /\ match r with Ok _ => True | Err e => spill_error e end.
Proof using BackingLaws0.
  induction l as [|[k d] l IH]; intros p b Hi Hl; [done|]. apply Forall_cons in Hl as [Hk Hl]. cbn [fst snd] in Hk. cbn [flush_each]. pose proof (inv_spill p b M gs k d Hi Hk) as Hsp. destruct (bk_spill k d b) as [[u|e] b'] eqn:E; [|split; [done|split; [done|split; [done|by eexists _, _, _, _]]]].
  destruct Hsp as (C & HC & HI & HCk). destruct (mark_clean_spec p b b' C M gs k d Hi Hk HC HI HCk) as (Hi' & Hc & Hh). pose proof (IH _ _ Hi' Hl) as Hr. destruct (flush_each l _) as [r [p' b'']]. destruct Hr as (? & ? & ? & ?). split; [done|]. split; [congruence|]. split; [congruence|done].
Qed.

Lemma flush_spec p b M gs : pool_inv p b M gs ->
  let '(r, (p', b')) := flush (p, b) in pool_inv p' b' M gs /\ capacity p' = capacity p /\ pl_high p' = pl_high p /\ match r with Ok _ => True | Err e => spill_error e end.
Proof using BackingLaws0.
  intros Hi. apply flush_each_spec; [done|]. destruct Hi as (Hs & _ & _ & C & _ & HI). apply Forall_forall. intros [k d] (o & Ho & Hd)%list_elem_of_omap. destruct o as [f|]; [|done]. cbn in Hd. destruct (fr_dirty f); [|done]. injection Hd as <- <-. apply list_elem_of_lookup in Ho as [s Es]. cbn [fst snd]. eapply images_resident; [done|done|]. unfold frame_at. by rewrite Es.
Qed.

Lemma evict_slot_spec p b M gs s : pool_inv p b M gs -> pool_inv (evict_slot p s) b M gs /\ capacity (evict_slot p s) = capacity p /\ pl_high (evict_slot p s) = pl_high p.
Proof.
  intros Hi. unfold evict_slot. destruct (frame_at p s) as [f|] eqn:Ef; [|done]. destruct ((fr_pins f =? 0) && negb (fr_dirty f)) eqn:E; [|done]. apply andb_true_iff in E as [Ep%Z.eqb_eq Ed%negb_true_iff]. split; [|split; [eapply capacity_insert; reflexivity|done]]. pose proof Hi as (_ & _ & _ & C & HC & HI). eapply inv_evict; try done; [lia|]. by apply (proj2 HI s).
Qed.

Lemma evict_slots_spec l b M gs : forall p, pool_inv p b M gs -> pool_inv (fold_left evict_slot l p) b M gs /\ capacity (fold_left evict_slot l p) = capacity p /\ pl_high (fold_left evict_slot l p) = pl_high p.
Proof. induction l as [|s l IH]; intros p Hi; [done|]. cbn [fold_left]. destruct (evict_slot_spec p b M gs s Hi) as (Hi' & Hc & Hh). destruct (IH _ Hi') as (? & ? & ?). split; [done|]. split; congruence. Qed.

Lemma evict_all_spec p b M gs : pool_inv p b M gs ->
  let '(r, (p', b')) := evict_all (p, b) in pool_inv p' b' M gs /\ capacity p' = capacity p /\ pl_high p' = pl_high p /\ match r with Ok _ => True | Err e => spill_error e end.
Proof using BackingLaws0.
  intros Hi. unfold evict_all. pose proof (flush_spec p b M gs Hi) as Hf. destruct (flush (p, b)) as [[u|e] [p' b']]; [|done]. destruct Hf as (Hi' & Hc & Hh & _). destruct (evict_slots_spec (seq 0 (capacity p')) b' M gs p' Hi') as (? & ? & ?). split; [done|]. split; [congruence|]. split; [congruence|done].
Qed.

(** A page discarded from the pool and dropped below is gone. *)
Lemma discard_spec p b M gs k : pool_inv p b M gs ->
  let '(r, (p', b1)) := discard k (p, b) in b1 = b /\ capacity p' = capacity p /\ pl_high p' = pl_high p /\
  match r with
  | Ok _ => forall b', (forall C, bk_is b C -> bk_is b' (delete k C)) -> pool_inv p' b' (delete k M) gs
  | Err e => e = DiscardPinned /\ p' = p /\ exists g, g ∈ gs /\ gd_key g = k
  end.
Proof.
  intros (Hs & [Hg Hh] & Hok & C & HC & [HM HI]). unfold discard. destruct (pl_map p !! k) as [s|] eqn:Es.
  - destruct (shape_resident _ _ _ Hs Es) as (f & Ef & <-). rewrite Ef. destruct (Z.ltb_spec 0 (fr_pins f)) as [Hp|Hp].
    + split; [done|]. split; [done|]. split; [done|]. split; [done|]. split; [done|]. destruct (decide (Exists (fun g => gd_slot g = s) gs)) as [Hex|Hno].
      * apply Exists_exists in Hex as (g & Hin & Egs). exists g. split; [done|]. destruct (Hg g Hin) as (x & Ex & Ekx). rewrite Egs in Ex. congruence.
      * rewrite (Hh s f Ef) in Hp. assert (held s gs = 0%nat); [|lia]. apply held_none. intros g Hin Eg. apply Hno, Exists_exists. eauto.
    + split; [done|]. split; [eapply capacity_insert; reflexivity|]. split; [done|]. intros b' Hb. split; [by apply shape_vacate|]. split; [by apply guarded_vacate|]. split; [by apply map_Forall_delete|]. exists (delete (fr_key f) C). split; [by apply Hb|]. split.
      * intros k. cbn [vacate pl_map]. destruct (decide (fr_key f = k)) as [<-|Hne]; [by rewrite !lookup_delete_eq|]. rewrite !lookup_delete_ne, HM by done. destruct (pl_map p !! k) as [s'|] eqn:Es'; [|done]. rewrite frame_at_vacate, decide_False; [done| |done]. intros <-. apply (shape_resident _ _ _ Hs) in Es' as (x & ? & ?). congruence.
      * intros s' x. rewrite frame_at_vacate by done. destruct (decide (s = s')) as [|Hne]; [done|]. intros Ex Hd. rewrite lookup_delete_ne; [by apply (HI s')|]. intros Ek. pose proof (shape_slot _ _ _ Hs Ex) as Hsx. rewrite <- Ek in Hsx. congruence.
  - split; [done|]. split; [done|]. split; [done|]. intros b' Hb. split; [done|]. split; [done|]. split; [by apply map_Forall_delete|]. exists (delete k C). split; [by apply Hb|]. split.
    + intros k'. destruct (decide (k = k')) as [<-|Hne]; [by rewrite !lookup_delete_eq, Es|]. by rewrite !lookup_delete_ne, HM by done.
    + intros s x Ex Hd. rewrite lookup_delete_ne; [by apply (HI s)|]. intros ->. pose proof (shape_slot _ _ _ Hs Ex). congruence.
Qed.

(** * When an insertion returns *)

(** C20: while fewer frames are pinned than the high watermark, an insertion
    returns after at most two rounds more than there are resident frames: with the
    page pinned and the map updated, or with the error of a failed spill and the map
    as it was. *)
Theorem install_returns fuel k image referenced p b M gs : pool_inv p b M gs -> page_ok k image -> (pinned p < pl_high p)%nat -> (occupied p + 2 <= fuel)%nat ->
  match install fuel k image referenced (p, b) with
  | (Ok g, (p', b')) => gd_key g = k /\ pool_inv p' b' (<[k := gd_data g]> M) (g :: gs) /\ (occupied p' <= capacity p)%nat
  | (Err e, (p', b')) => spill_error e /\ pool_inv p' b' M gs
  end.
Proof using BackingLaws0.
  intros Hi Him Hpin Hfuel. pose proof (install_with_spec k image true referenced fuel p b M gs Hi Him ltac:(done)) as Ho. unfold install. destruct (install_with _ _ _ _ _ _) as [[g|e] [p' b']]; destruct Ho as (Hc & _ & Ho).
  - destruct Ho as (Hk & Hi' & _). split; [done|]. split; [done|]. destruct Hi' as (Hs' & _). pose proof (sh_size _ Hs'). lia.
  - destruct Ho as (Hi' & [[_ Ho]|[[_ Ho]|Ho]]); [|exfalso; unfold rounds in Ho; destruct (_ || _); lia|done]. destruct Hi as (Hs & _). pose proof (sh_marks _ Hs). lia.
Qed.
End laws.

Section spin.
Context {K : Type} `{Countable K} {B : Type} `{!Backing K B}.
Implicit Types p : Pool K.

(** The state of a pool in which the opportunistic reclaim turns for ever: a free slot,
    the high watermark reached, and every resident frame pinned. *)
Definition spins (k : K) p : Prop :=
  pl_map p !! k = None /\ (pl_high p <= occupied p < capacity p)%nat /\ (pl_low p <= pl_high p)%nat /\ (forall s f, frame_at p s = Some f -> 0 < fr_pins f).

Lemma spins_calm k p p' : calm p p' -> spins k p -> spins k p'.
Proof.
  intros Hc (Hk & Ho & Hl & Hp). pose proof Hc as [Em _ [Eh El] Ec _ _]. unfold spins, occupied in *. rewrite Em, Eh, El, Ec. split; [done|]. split; [done|]. split; [done|]. intros s f E. destruct (calm_frame _ _ _ _ Hc E) as (f' & E' & _ & _ & <- & _). by apply (Hp s).
Qed.

Lemma pick_pinned p : (forall s f, frame_at p s = Some f -> 0 < fr_pins f) -> exists p', pick_victim p = (None, p') /\ calm p p'.
Proof.
  intros Hp. destruct (pick_victim p) as [v p'] eqn:E. destruct (sweep_spec (2 * capacity p) p None v p' ltac:(done) E) as [Hc Hv]. destruct v as [c|]; [|by exists p']. exfalso. destruct (Hv c eq_refl) as (f & Ef & Hf). destruct (calm_frame _ _ _ _ Hc Ef) as (f' & E' & _ & _ & Epi & _). pose proof (Hp c f' E'). lia.
Qed.

(** C40: when the pinned frames reach the high watermark of a pool that has no
    other resident frame, an insertion never returns, although a slot is free: no
    number of rounds is enough. *)
Theorem watermark_spins k image dirty referenced : forall fuel p (b : B), spins k p -> exists p', install_with fuel k image dirty referenced (p, b) = (Err PoolSpins, (p', b)) /\ spins k p'.
Proof.
  induction fuel as [|fuel IH]; intros p b Hs; [by exists p|]. cbn [install_with]. pose proof Hs as (Hk & Ho & Hl & Hp). rewrite Hk. rewrite (proj2 (Nat.ltb_lt (pl_high p) (occupied p + 1))) by lia. change (capacity (set_reclaiming p true)) with (capacity p). change (pl_low (set_reclaiming p true)) with (pl_low p). change (pl_reclaiming (set_reclaiming p true)) with true.
  rewrite (proj2 (Nat.leb_gt (capacity p) (occupied p))), (proj2 (Nat.ltb_lt (pl_low p) (occupied p + 1))) by lia. cbn [negb andb]. destruct (pick_pinned (set_reclaiming p true) Hp) as (p' & -> & Hc). apply IH. eapply spins_calm; [|exact Hs]. etransitivity; [apply calm_reclaiming|]. etransitivity; [exact Hc|apply calm_reclaiming].
Qed.
End spin.
