(* ===== verification/Pager.v ===== *)
(** The pager of a shard, [store/pager/mod.rs]: the buffer pool of [BufferPool] over
    the cold tiers of its tables, [ColdTier].

    The page files found when the pager opens are a map from table ids to bytes;
    their names, [sync] and the metrics are not modelled. A keyring's random draws are
    numbered. [pager_refines] puts the two together: whatever is evicted, spilled or
    faulted in, the pager is a map from page keys to images. *)

From stdpp Require Import base list gmap sorting numbers.
From Stdlib Require Import ZArith Lia.
From S2P Require Import Prelude Crc32c PageFormat PageCodec PageFile ColdTier BufferPool BufferPoolProps.
From stdpp Require Import list.
#[local] Open Scope Z_scope.

Record PageKey : Type := { pk_shard : Z; pk_table : Z; pk_page : Z }.

#[global] Instance PageKey_eq_dec : EqDecision PageKey.
Proof. solve_decision. Defined.
#[global] Instance PageKey_countable : Countable PageKey.
Proof. apply (inj_countable' (fun k => (pk_shard k, pk_table k, pk_page k)) (fun x => {| pk_shard := x.1.1; pk_table := x.1.2; pk_page := x.2 |})). by intros []. Defined.

(** The tables opened so far, the files on disk and the number of draws. *)
Record Tier : Type := { tr_tables : gmap Z TableIo; tr_files : gmap Z (list Z); tr_draws : nat }.

Definition put_io (b : Tier) (t : Z) (io : TableIo) : Tier := {| tr_tables := <[t := io]> (tr_tables b); tr_files := tr_files b; tr_draws := tr_draws b |}.
Definition draw (b : Tier) : Tier := {| tr_tables := tr_tables b; tr_files := tr_files b; tr_draws := S (tr_draws b) |}.

Definition pool_frames (capacity_bytes page_size : Z) : nat := Nat.max (Z.to_nat (capacity_bytes / page_size)) 8.

Section pager.
Context `{BlockCodecs} (cfg : PagerConfig).

Definition page_key (t id : Z) : PageKey := {| pk_shard := pg_shard cfg; pk_table := t; pk_page := id |}.

(** Files that no table of this shard can read are deleted before they are used. *)
Definition discard_unreadable_page_files (files : gmap Z (list Z)) : gmap Z (list Z) := filter (fun tf => is_ok (file_open tf.2 (pg_shard cfg) tf.1) = true) files.

Definition open_pager (frames high low : nat) (files : gmap Z (list Z)) : Pool PageKey * Tier :=
  (pool_new frames high low, {| tr_tables := ∅; tr_files := discard_unreadable_page_files files; tr_draws := 0 |}).

Definition table_io (t : Z) : SM Tier ColdError TableIo := fun b =>
  match tr_tables b !! t with
  | Some io => (Ok io, b)
  | None => match open_table_io cfg t (tr_files b !! t) with Ok io => (Ok io, put_io b t io) | Err e => (Err e, b) end
  end.

(** The image is encoded before the table is opened. *)
Definition pager_spill (k : PageKey) (image : list Z) : SM Tier ColdError unit := fun b =>
  let n := tr_draws b in
  let b := draw b in
  match encode_for_storage image (pg_compression cfg) (pg_min_bytes cfg) (pg_shard cfg) (pg_keyring cfg) n with
  | Err e => (Err e, b)
  | Ok _ =>
      match table_io (pk_table k) b with
      | (Err e, b) => (Err e, b)
      | (Ok io, b) => match spill cfg io (pk_page k) image n with Ok io => (Ok tt, put_io b (pk_table k) io) | Err e => (Err e, b) end
      end
  end.

Definition pager_read (b : Tier) (k : PageKey) : result ColdError (list Z) :=
  match tr_tables b !! pk_table k with
  | Some io => fault_read cfg (pk_table k) io (pk_page k)
  | None => Err (PageNowhere (pk_page k))
  end.

#[local] Instance tier_backing : Backing PageKey Tier := {| bk_read := pager_read; bk_spill := pager_spill |}.

Notation PG := (SM (Pool PageKey * Tier) ColdError).

(** An operation on the tier alone. *)
Definition on_tier {A} (m : SM Tier ColdError A) : PG A := fun '(p, b) => let '(r, b) := m b in (r, (p, b)).

(** Rounds enough for any insertion that returns. *)
Definition pool_fuel (p : Pool PageKey) : nat := occupied p + 2.

Definition fault (t id : Z) : PG (PageGuard PageKey) := fun s =>
  match on_tier (table_io t) s with
  | (Ok _, (p, b)) => get_or_fault (pool_fuel p) (page_key t id) (p, b)
  | (Err e, s) => (Err e, s)
  end.

Definition pager_install (t id : Z) (image : list Z) : PG (PageGuard PageKey) := fun '(p, b) => install (pool_fuel p) (page_key t id) image false (p, b).

Definition pager_free_page (t id : Z) : PG unit := fun s =>
  match discard (page_key t id) s with
  | (Ok _, s) => on_tier (fun b => match table_io t b with (Ok io, b) => (Ok tt, put_io b t (free_page io id)) | (Err e, b) => (Err e, b) end) s
  | (Err e, s) => (Err e, s)
  end.

Definition pager_flush : PG unit := flush.
Definition pager_evict_all : PG unit := evict_all.

Definition allocate_page_id (t : Z) (b : Tier) : Z * Tier :=
  match table_io t b with
  | (Ok io, b) => let '(id, io) := io_allocate_page_id io in (id, put_io b t io)
  | (Err _, b) => (1, b)
  end.

Definition pager_page_extent (t id : Z) : PG (option (Z * Z)) := on_tier (fun b => match table_io t b with (Ok io, b) => (Ok (page_extent io id), b) | (Err e, b) => (Err e, b) end).
Definition pager_coldtier_bytes (t : Z) : PG Z := on_tier (fun b => match table_io t b with (Ok io, b) => (Ok (coldtier_bytes io), b) | (Err e, b) => (Err e, b) end).

(** * Histories *)

Inductive PagerOp : Type :=
  | OpAllocate (t : Z) | OpFault (t id : Z) | OpInstall (t id : Z) (image : list Z) | OpDrop (i : nat) | OpFlush | OpEvictAll | OpFree (t id : Z).

(** The pager, the guards held and the images the pages should have. *)
Record World : Type := { w_pager : Pool PageKey * Tier; w_guards : list (PageGuard PageKey); w_images : gmap PageKey (list Z) }.

Definition pager_step (w : World) (op : PagerOp) : World :=
  let gs := w_guards w in
  let M := w_images w in
  match op with
  | OpAllocate t => {| w_pager := ((w_pager w).1, (allocate_page_id t (w_pager w).2).2); w_guards := gs; w_images := M |}
  | OpFault t id =>
      match fault t id (w_pager w) with
      | (Ok g, s) => {| w_pager := s; w_guards := g :: gs; w_images := M |}
      | (Err _, s) => {| w_pager := s; w_guards := gs; w_images := M |}
      end
  | OpInstall t id image =>
      match pager_install t id image (w_pager w) with
      | (Ok g, s) => {| w_pager := s; w_guards := g :: gs; w_images := <[page_key t id := gd_data g]> M |}
      | (Err _, s) => {| w_pager := s; w_guards := gs; w_images := M |}
      end
  | OpDrop i =>
      match gs !! i with
      | Some g => {| w_pager := (unpin_guard (w_pager w).1 g, (w_pager w).2); w_guards := delete i gs; w_images := M |}
      | None => w
      end
  | OpFlush => {| w_pager := (pager_flush (w_pager w)).2; w_guards := gs; w_images := M |}
  | OpEvictAll => {| w_pager := (pager_evict_all (w_pager w)).2; w_guards := gs; w_images := M |}
  | OpFree t id =>
      match pager_free_page t id (w_pager w) with
      | (Ok _, s) => {| w_pager := s; w_guards := gs; w_images := delete (page_key t id) M |}
      | (Err _, s) => {| w_pager := s; w_guards := gs; w_images := M |}
      end
  end.

Definition pager_run (frames high low : nat) (ops : list PagerOp) : World := fold_left pager_step ops {| w_pager := open_pager frames high low ∅; w_guards := []; w_images := ∅ |}.

Definition pager_op_ok (op : PagerOp) : Prop := match op with OpInstall t id image => plain_page cfg t id image | _ => True end.
End pager.

Section spec.
Context {BC : BlockCodecs} {BL : BlockCodecsLaws} (cfg : PagerConfig).
Context (Hsize : pg_page_size cfg < 2 ^ 31) (Hring : forall ring, pg_keyring cfg = Some ring -> keyring_ok ring).
#[local] Instance backing : Backing PageKey Tier := tier_backing cfg.

Definition key_of_shard (k : PageKey) : Prop := pk_shard k = pg_shard cfg.
Definition page_of_key (k : PageKey) (im : list Z) : Prop := key_of_shard k /\ plain_page cfg (pk_table k) (pk_page k) im.

(** Every open table's tier holds its part of [C]; a table that is not open has none. *)
Definition tier_is (b : Tier) (C : gmap PageKey (list Z)) : Prop :=
  tr_files b = ∅ /\ forall t,
  match tr_tables b !! t with
  | Some io => exists Ct, cold_is cfg t io Ct /\ forall id, C !! page_key cfg t id = Ct !! id
  | None => forall id, C !! page_key cfg t id = None
  end.

Lemma page_key_eq k : key_of_shard k -> k = page_key cfg (pk_table k) (pk_page k).
Proof. destruct k as [s t id]. unfold key_of_shard, page_key. cbn [pk_shard pk_table pk_page]. by intros ->. Qed.

Lemma page_key_inj t id t' id' : page_key cfg t id = page_key cfg t' id' -> t = t' /\ id = id'.
Proof. by intros [= -> ->]. Qed.

Lemma tier_put b C t io Ct C' : tier_is b C -> cold_is cfg t io Ct -> (forall id, C' !! page_key cfg t id = Ct !! id) -> (forall t' id, t <> t' -> C' !! page_key cfg t' id = C !! page_key cfg t' id) -> tier_is (put_io b t io) C'.
Proof.
  intros [Hf Hb] Hio HCt Hrest. split; [done|]. intros t'. cbn [put_io tr_tables]. destruct (decide (t = t')) as [<-|Hne]; [rewrite lookup_insert_eq; by exists Ct|]. rewrite lookup_insert_ne by done. specialize (Hb t'). destruct (tr_tables b !! t') as [io'|]; [destruct Hb as (C1 & H1 & H2); exists C1; split; [done|]; intros id; rewrite Hrest by done; apply H2|intros id; rewrite Hrest by done; apply Hb].
Qed.

(** With no file left on disk a table always opens. *)
Lemma table_io_spec t b C : tier_is b C -> exists io b' Ct, table_io cfg t b = (Ok io, b') /\ tier_is b' C /\ tr_tables b' !! t = Some io /\ cold_is cfg t io Ct /\ forall id, C !! page_key cfg t id = Ct !! id.
Proof using BL Hsize.
  intros Hb. pose proof Hb as [Hf Ht]. specialize (Ht t). unfold table_io. destruct (tr_tables b !! t) as [io|] eqn:E; [destruct Ht as (Ct & ? & ?); by exists io, b, Ct|]. rewrite Hf, lookup_empty. unfold open_table_io. rewrite (proj2 (Z.ltb_ge _ _)) by (unfold u_max; lia).
  eexists _, _, ∅. split; [reflexivity|]. pose proof (cold_new cfg t) as Hn. assert (forall id, C !! page_key cfg t id = (∅ : gmap Z (list Z)) !! id) as HC by (intros id; by rewrite Ht). split; [by eapply tier_put|]. split; [apply lookup_insert_eq|]. done.
Qed.

Lemma draw_is b C : tier_is b C -> tier_is (draw b) C.
Proof. done. Qed.

#[local] Instance tier_laws : BackingLaws key_of_shard page_of_key tier_is.
Proof using BL Hsize Hring.
  split.
  - intros b C k [_ Hb] Hk. cbn [bk_read backing tier_backing]. unfold pager_read. replace (C !! k) with (C !! page_key cfg (pk_table k) (pk_page k)) by (by rewrite <- page_key_eq). specialize (Hb (pk_table k)). destruct (tr_tables b !! pk_table k) as [io|]; [|by rewrite Hb]. destruct Hb as (Ct & Hio & HC). rewrite HC, (fault_read_is cfg _ io Ct _ Hio). by destruct (Ct !! pk_page k).
  - intros b C k im Hb [Hk Him]. cbn [bk_spill backing tier_backing]. unfold pager_spill. destruct (encode_for_storage _ _ _ _ _ _); [|by apply draw_is]. destruct (table_io_spec (pk_table k) (draw b) C (draw_is _ _ Hb)) as (io & b' & Ct & -> & Hb' & _ & Hio & HCt). destruct (spill cfg io (pk_page k) im _) as [io'|] eqn:Es; [|done].
    replace (<[k := im]> C) with (<[page_key cfg (pk_table k) (pk_page k) := im]> C) by (by rewrite <- page_key_eq). eapply tier_put; [done|by eapply spill_spec| |].
    + intros id. destruct (decide (pk_page k = id)) as [<-|Hne]; [by rewrite !lookup_insert_eq|]. rewrite !lookup_insert_ne; [apply HCt|done|]. by intros [_ ?]%page_key_inj.
    + intros t' id Hne. apply lookup_insert_ne. by intros [? _]%page_key_inj.
Qed.

Notation pager_inv := (pool_inv (page_ok := page_of_key) (bk_is := tier_is)).

Lemma inv_tier p b b' M gs : pager_inv p b M gs -> (forall C, tier_is b C -> tier_is b' C) -> pager_inv p b' M gs.
Proof. intros (Hs & Hg & Hok & C & HC & HI) Hb. split; [done|]. split; [done|]. split; [done|]. exists C. split; [by apply Hb|done]. Qed.

Lemma inv_some_tier p b M gs : pager_inv p b M gs -> exists C, tier_is b C.
Proof. intros (_ & _ & _ & C & HC & _). by exists C. Qed.

Lemma table_io_keeps p b M gs t : pager_inv p b M gs -> exists io b', table_io cfg t b = (Ok io, b') /\ pager_inv p b' M gs.
Proof using BL Hsize.
  intros Hi. destruct (inv_some_tier _ _ _ _ Hi) as [C HC]. destruct (table_io_spec t b C HC) as (io & b' & Ct & Et & _). exists io, b'. split; [done|]. eapply inv_tier; [done|]. intros C' HC'. destruct (table_io_spec t b C' HC') as (io2 & b2 & _ & Et2 & Hb2 & _). congruence.
Qed.

(** * The operations *)

Notation fault_errors p k M e := (M !! k = None \/ e = PoolExhausted (Z.of_nat (capacity p)) /\ pinned p = capacity p \/ e = PoolSpins /\ (pl_high p <= pinned p)%nat \/ spill_error (K := PageKey) (B := Tier) e) (only parsing).

Lemma fuel_enough (p q : Pool PageKey) : occupied p = occupied q -> ~ (pool_fuel q < rounds p)%nat.
Proof. unfold pool_fuel, rounds. intros ->. destruct (_ || _); lia. Qed.

Lemma fault_spec t id p b M gs : pager_inv p b M gs ->
  let '(r, (p', b')) := fault cfg t id (p, b) in capacity p' = capacity p /\ pl_high p' = pl_high p /\
  match r with
  | Ok g => gd_key g = page_key cfg t id /\ pager_inv p' b' M (g :: gs) /\ M !! page_key cfg t id = Some (gd_data g)
  | Err e => pager_inv p' b' M gs /\ (fault_errors p (page_key cfg t id) M e)
  end.
Proof using BL Hsize Hring.
  intros Hi. unfold fault, on_tier. destruct (table_io_keeps _ _ _ _ t Hi) as (io & b1 & -> & Hi1). pose proof (get_or_fault_spec (pool_fuel p) (page_key cfg t id) p b1 M gs Hi1 (eq_refl : key_of_shard (page_key cfg t id))) as Hg. destruct (get_or_fault _ _ _) as [[g|e] [p' b']]; [done|]. destruct Hg as (Hc & Hh & Hi' & He). split; [done|]. split; [done|]. split; [done|].
  destruct He as [?|[?|[[-> [Hf|?]]|?]]]; [by left|by right; left| |by right; right; left|by right; right; right]. by apply fuel_enough in Hf.
Qed.

Lemma pager_install_spec t id image p b M gs : pager_inv p b M gs -> plain_page cfg t id image ->
  let '(r, (p', b')) := pager_install cfg t id image (p, b) in capacity p' = capacity p /\ pl_high p' = pl_high p /\
  match r with
  | Ok g => pager_inv p' b' (<[page_key cfg t id := gd_data g]> M) (g :: gs) /\ (M !! page_key cfg t id = Some (gd_data g) \/ gd_data g = image)
  | Err e => pager_inv p' b' M gs
  end.
Proof using BL Hsize Hring.
  intros Hi Him. unfold pager_install. pose proof (install_with_spec (page_key cfg t id) image true false (pool_fuel p) p b M gs Hi (conj eq_refl Him) ltac:(done)) as Ho. unfold install. destruct (install_with _ _ _ _ _ _) as [[g|e] [p' b']]; destruct Ho as (Hc & Hh & Ho); (split; [done|]; split; [done|]); tauto.
Qed.

Lemma pager_free_spec t id p b M gs : pager_inv p b M gs ->
  let '(r, (p', b')) := pager_free_page cfg t id (p, b) in capacity p' = capacity p /\ pl_high p' = pl_high p /\
  match r with
  | Ok _ => pager_inv p' b' (delete (page_key cfg t id) M) gs
  | Err e => e = DiscardPinned /\ pager_inv p' b' M gs
  end.
Proof using BL Hsize.
  intros Hi. unfold pager_free_page. pose proof (discard_spec p b M gs (page_key cfg t id) Hi) as Hd. destruct (discard _ _) as [[u|e] [p' b1]]; destruct Hd as (-> & Hc & Hh & Hd); [|destruct Hd as (-> & -> & _); done].
  destruct (inv_some_tier _ _ _ _ Hi) as [C0 HC0]. destruct (table_io_spec t b C0 HC0) as (io & b' & _ & Et & _). unfold on_tier. rewrite Et. split; [done|]. split; [done|]. apply Hd. intros C HC. destruct (table_io_spec t b C HC) as (io2 & b2 & Ct & Et2 & Hb2 & _ & Hio & HCt). assert (io2 = io) as -> by congruence. assert (b2 = b') as -> by congruence.
  eapply tier_put; [done|by apply free_page_spec| |].
  - intros id'. destruct (decide (id = id')) as [<-|Hne]; [by rewrite !lookup_delete_eq|]. rewrite !lookup_delete_ne; [apply HCt|done|]. by intros [_ ?]%page_key_inj.
  - intros t' id' Hne. apply lookup_delete_ne. by intros [? _]%page_key_inj.
Qed.

Lemma allocate_is t b C : tier_is b C -> tier_is (allocate_page_id cfg t b).2 C.
Proof using BL Hsize.
  intros HC. unfold allocate_page_id. destruct (table_io_spec t b C HC) as (io & b' & Ct & -> & Hb' & _ & Hio & HCt). cbn. by eapply tier_put.
Qed.

Definition world_ok (w : World) : Prop := pager_inv (w_pager w).1 (w_pager w).2 (w_images w) (w_guards w).

Lemma pager_step_spec w op : world_ok w -> pager_op_ok cfg op -> world_ok (pager_step cfg w op) /\ capacity (w_pager (pager_step cfg w op)).1 = capacity (w_pager w).1 /\ pl_high (w_pager (pager_step cfg w op)).1 = pl_high (w_pager w).1.
Proof using BL Hsize Hring.
  destruct w as [[p b] gs M]. unfold world_ok. cbn [w_pager w_guards w_images fst snd]. intros Hi Hop. destruct op as [t|t id|t id image|i| | |t id]; cbn [pager_step w_pager w_guards w_images fst snd].
  - split; [|done]. eapply inv_tier; [done|]. intros C. apply allocate_is.
  - pose proof (fault_spec t id p b M gs Hi) as Hf. destruct (fault _ _ _ _) as [[g|e] [p' b']]; destruct Hf as (Hc & Hh & Hf); cbn [w_pager w_guards w_images fst snd]; (split; [|done]); tauto.
  - pose proof (pager_install_spec t id image p b M gs Hi Hop) as Hf. destruct (pager_install _ _ _ _ _) as [[g|e] [p' b']]; destruct Hf as (Hc & Hh & Hf); cbn [w_pager w_guards w_images fst snd]; (split; [|done]); tauto.
  - destruct (gs !! i) as [g|] eqn:E; [|done]. cbn [w_pager w_guards w_images fst snd]. apply unpin_spec. eapply inv_perm; [|exact Hi]. by apply delete_Permutation.
  - pose proof (flush_spec p b M gs Hi) as Hf. unfold pager_flush. destruct (flush _) as [r [p' b']]. tauto.
  - pose proof (evict_all_spec p b M gs Hi) as Hf. unfold pager_evict_all. destruct (evict_all _) as [r [p' b']]. tauto.
  - pose proof (pager_free_spec t id p b M gs Hi) as Hf. destruct (pager_free_page _ _ _ _) as [[u|e] [p' b']]; destruct Hf as (Hc & Hh & Hf); cbn [w_pager w_guards w_images fst snd]; (split; [|done]); tauto.
Qed.

Lemma open_ok frames high low : world_ok {| w_pager := open_pager cfg frames high low ∅; w_guards := []; w_images := ∅ |}.
Proof.
  split; [apply shape_new|]. split; [split; [intros g Hg; by apply elem_of_nil in Hg|]|split; [apply map_Forall_empty|exists ∅; split; [split; [done|]|split]]].
  - intros s f Hf. pose proof (shape_slot _ _ _ (shape_new frames high low) Hf) as Hs. done.
  - intros t. cbn [w_pager open_pager snd tr_tables]. rewrite lookup_empty. intros id. apply lookup_empty.
  - intros k. cbn [w_pager w_images open_pager fst pool_new pl_map]. by rewrite !lookup_empty.
  - intros s f Hf. pose proof (shape_slot _ _ _ (shape_new frames high low) Hf) as Hs. done.
Qed.

Lemma pager_steps_spec ops : Forall (pager_op_ok cfg) ops -> forall w, world_ok w -> world_ok (fold_left (pager_step cfg) ops w) /\ capacity (w_pager (fold_left (pager_step cfg) ops w)).1 = capacity (w_pager w).1.
Proof using BL Hsize Hring. induction 1 as [|op ops Hop _ IH]; intros w Hw; [done|]. cbn [fold_left]. destruct (pager_step_spec w op Hw Hop) as (Hw' & Hc & _). destruct (IH _ Hw') as [? ?]. split; [done|congruence]. Qed.

(** C19: a pager over an empty directory is a map from page keys to images. After any
    history of faults, insertions, dropped guards, flushes, evictions and frees, a
    fault returns the image installed last, and fails only for a page that was never
    installed or was freed, when the pinned frames fill the pool or reach its high
    watermark, or when a spill fails; a new page is installed with its own image; the
    frames of the guards held are resident; and the pool never holds more frames than
    its capacity. *)
Theorem pager_refines frames high low ops : Forall (pager_op_ok cfg) ops ->
  let w := pager_run cfg frames high low ops in
  (forall t id, match fault cfg t id (w_pager w) with
    | (Ok g, _) => gd_key g = page_key cfg t id /\ w_images w !! page_key cfg t id = Some (gd_data g)
    | (Err e, _) => fault_errors (w_pager w).1 (page_key cfg t id) (w_images w) e
    end) /\
  (forall t id image g s, plain_page cfg t id image -> w_images w !! page_key cfg t id = None -> pager_install cfg t id image (w_pager w) = (Ok g, s) -> gd_data g = image) /\
  (forall g, g ∈ w_guards w -> exists f, frame_at (w_pager w).1 (gd_slot g) = Some f /\ fr_key f = gd_key g /\ 0 < fr_pins f) /\
  (occupied (w_pager w).1 <= Nat.max frames 1)%nat.
Proof using BL Hsize Hring.
  intros Hops. destruct (pager_steps_spec ops Hops _ (open_ok frames high low)) as [Hw Hc]. fold (pager_run cfg frames high low ops) in Hw, Hc. cbv zeta. destruct (pager_run cfg frames high low ops) as [[p b] gs M]. unfold world_ok in Hw. cbn [w_pager w_guards w_images fst snd] in *. split; [|split; [|split]].
  - intros t id. pose proof (fault_spec t id p b M gs Hw) as Hf. destruct (fault _ _ _ _) as [[g|e] [p' b']]; tauto.
  - intros t id image g s Him Hno E. pose proof (pager_install_spec t id image p b M gs Hw Him) as Hf. rewrite E in Hf. destruct s as [p' b']. destruct Hf as (_ & _ & _ & [Hk|Hd]); [congruence|done].
  - intros g Hin. by apply (inv_guard p b M gs g Hw).
  - destruct Hw as (Hs & _). pose proof (sh_size _ Hs) as Hz. rewrite Hc in Hz. unfold capacity, open_pager in Hz. cbn [fst pool_new pl_frames] in Hz. rewrite length_replicate in Hz. lia.
Qed.
End spec.
