(* ===== verification/PagerSample.v ===== *)
(** A pager of four frames over the sealed and compressed cold tier of [ColdSample], and
    a pool of twenty frames that stops answering. *)

From stdpp Require Import base list gmap sorting numbers.
From Stdlib Require Import ZArith Lia.
From S2P Require Import Prelude Crc32c PageFormat PageCodec PageFile ColdTier ColdSample BufferPool BufferPoolProps Pager.
From stdpp Require Import list.
#[local] Open Scope Z_scope.

#[local] Existing Instance squeeze_codecs.
#[local] Existing Instance squeeze_laws.

Definition pager_config : PagerConfig := cold_config (Some prefix_ring).
#[local] Instance sample_backing : Backing PageKey Tier := backing pager_config.

Lemma sample_size : pg_page_size pager_config < 2 ^ 31.
Proof. vm_compute. reflexivity. Qed.
Lemma sample_ring ring : pg_keyring pager_config = Some ring -> keyring_ok ring.
Proof. intros [= <-]. exact prefix_ring_ok. Qed.

(** Nine pages pass through four frames; the first is faulted in and stays pinned, the
    second is freed. *)
Definition pager_ops : list PagerOp :=
  concat (map (fun id => [OpInstall 7 id (page_of id id 200); OpDrop 0]) [1; 2; 3; 4; 5; 6; 7; 8; 9]) ++ [OpFault 7 1; OpFree 7 2; OpAllocate 7; OpEvictAll; OpFault 7 5; OpDrop 0].

Lemma pager_ops_ok : Forall (pager_op_ok pager_config) pager_ops.
Proof. repeat (constructor; [first [exact I|apply page_of_plain; vm_compute; reflexivity]|]). constructor. Qed.

Notation pager_world := (pager_run pager_config 4 4 3 pager_ops).

(** The third page comes back from the tier, and the freed one does not. *)
Lemma pager_refines_witness :
  (exists g s, fault pager_config 7 3 (w_pager pager_world) = (Ok g, s) /\ gd_data g = page_of 3 3 200 /\ w_images pager_world !! page_key pager_config 7 3 = Some (gd_data g)) /\
  w_images pager_world !! page_key pager_config 7 2 = None /\ (occupied (w_pager pager_world).1 <= 4)%nat.
Proof.
  destruct (pager_refines pager_config sample_size sample_ring 4 4 3 pager_ops pager_ops_ok) as (Hf & _ & _ & Ho). split; [|split; [vm_compute; reflexivity|exact Ho]].
  specialize (Hf 7 3). destruct (fault pager_config 7 3 (w_pager pager_world)) as [[g|e] s] eqn:E.
  - exists g, s. split; [reflexivity|]. destruct Hf as [_ Hf]. split; [|exact Hf].
    assert (w_images pager_world !! page_key pager_config 7 3 = Some (page_of 3 3 200)) as Hi by (vm_compute; reflexivity). rewrite Hf in Hi. injection Hi as ->. reflexivity.
  - exfalso. assert (is_ok (fault pager_config 7 3 (w_pager pager_world)).1 = true) as Hok by (vm_compute; reflexivity). rewrite E in Hok. discriminate Hok.
Defined.

Lemma pager_world_ok : world_ok pager_config pager_world.
Proof. exact (proj1 (pager_steps_spec pager_config sample_size sample_ring pager_ops pager_ops_ok _ (open_ok pager_config 4 4 3))). Qed.

(** A tenth page enters the pool while one page is pinned. *)
Lemma install_returns_witness : match install 6 (page_key pager_config 7 10) (page_of 10 10 20) false ((w_pager pager_world).1, (w_pager pager_world).2) with
  | (Ok g, _) => gd_key g = page_key pager_config 7 10
  | (Err e, _) => spill_error (K := PageKey) (B := Tier) e
  end.
Proof.
  assert (page_of_key pager_config (page_key pager_config 7 10) (page_of 10 10 20)) as Hp by (split; [reflexivity|apply page_of_plain; vm_compute; reflexivity]).
  assert (pinned (w_pager pager_world).1 < pl_high (w_pager pager_world).1)%nat as Hpin by (apply Nat.ltb_lt; vm_compute; reflexivity).
  assert (occupied (w_pager pager_world).1 + 2 <= 6)%nat as Ho by (apply Nat.leb_le; vm_compute; reflexivity).
  pose proof (install_returns (BackingLaws0 := tier_laws pager_config sample_size sample_ring) 6 (page_key pager_config 7 10) (page_of 10 10 20) false
    (w_pager pager_world).1 (w_pager pager_world).2 (w_images pager_world) (w_guards pager_world) pager_world_ok Hp Hpin Ho) as H.
  destruct (install 6 _ _ _ _) as [[g|e] [p b]]; exact (proj1 H).
Defined.

(** * A pool at its high watermark *)

Lemma all_pinned_dec {K} `{Countable K} (p : Pool K) : forallb (fun o => match o with Some f => 0 <? fr_pins f | None => true end) (pl_frames p) = true -> forall s f, frame_at p s = Some f -> 0 < fr_pins f.
Proof.
  intros Hall s f Hf. unfold frame_at in Hf. destruct (pl_frames p !! s) as [o|] eqn:E; [|done]. simpl in Hf. subst o. apply list_elem_of_lookup_2 in E. rewrite forallb_forall in Hall. apply list_elem_of_In, Hall in E. by apply Z.ltb_lt in E.
Qed.

(** Nineteen pages are installed in twenty frames and their guards held. *)
Definition held_pool : Pool PageKey * Tier :=
  fold_left (fun s id => (pager_install pager_config 7 id [] s).2) (seqZ 1 19) (open_pager pager_config 20 19 18 ∅).

(** A twentieth page finds a free slot, and yet the insertion does not return. *)
Lemma watermark_spins_witness : (occupied held_pool.1 = 19)%nat /\ (length (pl_free held_pool.1) = 1)%nat /\
  forall fuel, (install_with fuel (page_key pager_config 7 20) [] true false (held_pool.1, held_pool.2)).1 = Err PoolSpins.
Proof.
  split; [vm_compute; reflexivity|]. split; [vm_compute; reflexivity|]. intros fuel.
  assert (spins (page_key pager_config 7 20) held_pool.1) as Hs.
  { split; [vm_compute; reflexivity|]. split; [split; [apply Nat.leb_le|apply Nat.ltb_lt]; vm_compute; reflexivity|]. split; [apply Nat.leb_le; vm_compute; reflexivity|]. apply all_pinned_dec. vm_compute. reflexivity. }
  destruct (watermark_spins (page_key pager_config 7 20) [] true false fuel held_pool.1 held_pool.2 Hs) as (p & E & _). by rewrite E.
Defined.
