(* ===== verification/PagedTree.v ===== *)
(** The paged B-tree of [crates/fluxum-core/src/store/pager/tree.rs]: byte keys
    to byte values, every node one page, copy-on-write updates.

    The pager is modelled by the pages of one table, [page_id] to header and
    payload, and the page-id counter: [fault] returns the image [install] left,
    whether it is resident or spilled. Buffer-pool residency and file I/O are
    not modelled. A loop that follows page references is given as many steps as
    there are pages, which is more than any walk over distinct pages takes.

    This file holds the definitions; [PagedTreeNode.v] proves the node codec and
    the searches, [PagedTreeSpec.v] the refinement of a sorted map. *)

From stdpp Require Import base list gmap.
From Stdlib Require Import ZArith Lia.
From S2P Require Import Prelude PageFormat.

(** * Data *)

Definition NODE_LEAF : Z := 0x4C.
Definition NODE_INTERIOR : Z := 0x49.
Definition NIL : Z := 0.
Definition KEY_LEN_OVERFLOW : Z := Z.shiftl 1 15.
Definition KEY_LEN_MASK : Z := KEY_LEN_OVERFLOW - 1.

Module LeafValue.
Inductive t : Type :=
  | Inline (bytes : list Z)
  | Overflow (total_len head : Z).
End LeafValue.

Module EntryKey.
Inductive t : Type :=
  | Inline (k : list Z)
  | Overflow (prefix : list Z) (total_len head : Z).

Definition stored (key : t) : list Z :=
  match key with Inline k => k | Overflow prefix _ _ => prefix end.
End EntryKey.

Notation LeafEntries := (list (EntryKey.t * LeafValue.t)).
Notation InteriorEntries := (list (EntryKey.t * Z)).

Module Node.
Inductive t : Type :=
  | Leaf (entries : LeafEntries)
  | Interior (entries : InteriorEntries).
End Node.

Module Cow.
Inductive t : Type :=
  | Node (page : Z)
  | Split (left_ : Z) (sep : list Z) (right_ : Z).
End Cow.

Inductive TreeError : Type :=
  | PageMissing (page_id : Z)
  | EmptyNode
  | MalformedInterior
  | MalformedLeaf
  | KindMismatch
  | UnknownKind (kind : Z)
  | TruncatedEntry
  | UnknownTag (tag : Z)
  | OverflowTooShort
  | ChainLengthMismatch
  | EmptyKey
  | KeyTooLong
  | ZeroEntries
  | CannotSplit
  | EntryCountTooLarge
  | PageEncoding (e : PageError)
  | BulkKey
  | BulkNotSorted
  | Diverges.

(** The pages of one table. The counter is the number of allocations so far
    plus one; the [AtomicU64] holds its value modulo [2^64]. *)
Record Pager : Type := {
  page_size : Z;
  pages : gmap Z (PageHeader * list Z);
  next_page_id : Z;
}.

Record PagedTree : Type := {
  table_id : Z;
  index_tree : bool;
  root : Z;
}.

(** * The pager *)

Definition fault (pg : Pager) (page_id : Z) : result TreeError (list Z) :=
  match pages pg !! page_id with
  | Some (_, payload) => Ok payload
  | None => Err (PageMissing page_id)
  end.

Notation PM := (SM Pager TreeError).

Definition allocate_page_id : PM Z := fun pg =>
  (Ok (cast_unsigned 64 (next_page_id pg)),
   {| page_size := page_size pg; pages := pages pg; next_page_id := next_page_id pg + 1 |}).

(** [install] of an image [encode_page] built: only its length can fail. *)
Definition install (page_id : Z) (header : PageHeader) (payload : list Z) : PM unit := fun pg =>
  if blen payload <? 2 ^ 32 then
    (Ok tt, {| page_size := page_size pg; pages := <[page_id := (header, payload)]> (pages pg);
               next_page_id := next_page_id pg |})
  else (Err (PageEncoding (PayloadTooLarge (blen payload))), pg).

Definition free_page (page_id : Z) : PM unit := fun pg =>
  (Ok tt, {| page_size := page_size pg; pages := delete page_id (pages pg);
             next_page_id := next_page_id pg |}).

(** Steps given to a walk over page references. *)
Definition walk_fuel (pg : Pager) : nat := size (pages pg).

Definition node_budget (ps : Z) : Z := ps - PAGE_HEADER_LEN - 1.
Definition max_inline_entry (ps : Z) : Z := node_budget ps / 4.
Definition max_inline_key (ps : Z) : Z := node_budget ps / 8.
Definition overflow_chunk (ps : Z) : Z := ps - PAGE_HEADER_LEN - 8.

(** * Node sizes and codec *)

Definition key_overhead (key : EntryKey.t) : Z :=
  match key with EntryKey.Inline _ => 0 | EntryKey.Overflow _ _ _ => 12 end.

Definition leaf_entry_size (key : EntryKey.t) (value : LeafValue.t) : Z :=
  2 + 1 + blen (EntryKey.stored key) + key_overhead key +
  match value with LeafValue.Inline bytes => 4 + blen bytes | LeafValue.Overflow _ _ => 16 end.

Definition interior_entry_size (key : EntryKey.t) : Z :=
  2 + blen (EntryKey.stored key) + key_overhead key + 8.

Definition sum_sizes (l : list Z) : Z := foldr Z.add 0 l.

Definition node_size (node : Node.t) : Z :=
  match node with
  | Node.Leaf entries => sum_sizes (map (fun e => leaf_entry_size e.1 e.2) entries)
  | Node.Interior entries => sum_sizes (map (fun e => interior_entry_size e.1) entries)
  end.

Definition leaf_tag (key : EntryKey.t) (value : LeafValue.t) : Z :=
  match key, value with
  | EntryKey.Inline _, LeafValue.Inline _ => 0
  | EntryKey.Inline _, LeafValue.Overflow _ _ => 1
  | EntryKey.Overflow _ _ _, LeafValue.Inline _ => 2
  | EntryKey.Overflow _ _ _, LeafValue.Overflow _ _ => 3
  end.

Definition key_ref_bytes (key : EntryKey.t) : list Z :=
  match key with
  | EntryKey.Inline _ => []
  | EntryKey.Overflow _ total_len head => le_bytes 4 total_len ++ le_bytes 8 head
  end.

Definition leaf_entry_bytes (key : EntryKey.t) (value : LeafValue.t) : list Z :=
  le_bytes 2 (blen (EntryKey.stored key)) ++ [leaf_tag key value] ++ EntryKey.stored key ++
  key_ref_bytes key ++
  match value with
  | LeafValue.Inline bytes => le_bytes 4 (blen bytes) ++ bytes
  | LeafValue.Overflow total_len head => le_bytes 8 total_len ++ le_bytes 8 head
  end.

Definition interior_key_len (key : EntryKey.t) : Z :=
  match key with
  | EntryKey.Inline k => blen k
  | EntryKey.Overflow prefix _ _ => Z.lor (cast_unsigned 16 (blen prefix)) KEY_LEN_OVERFLOW
  end.

Definition interior_entry_bytes (key : EntryKey.t) (child : Z) : list Z :=
  le_bytes 2 (interior_key_len key) ++ EntryKey.stored key ++ key_ref_bytes key ++ le_bytes 8 child.

Definition node_payload (node : Node.t) : list Z :=
  match node with
  | Node.Leaf entries => NODE_LEAF :: flat_map (fun e => leaf_entry_bytes e.1 e.2) entries
  | Node.Interior entries => NODE_INTERIOR :: flat_map (fun e => interior_entry_bytes e.1 e.2) entries
  end.

(** [encode_node]: the header and the payload of the page image. *)
Definition encode_node (t : PagedTree) (page_id : Z) (node : Node.t)
    : result TreeError (PageHeader * list Z) :=
  let '(count, index_flagged) := match node with
    | Node.Leaf entries => (length entries, index_tree t)
    | Node.Interior entries => (length entries, true)
    end in
  if Z.of_nat count <? 2 ^ 32 then
    Ok (PageHeader_new page_id (table_id t) (Z.of_nat count) (if index_flagged then FLAG_INDEX else 0),
        node_payload node)
  else Err EntryCountTooLarge.

(** ** [parse_node] *)

Notation RM := (SM (list Z) TreeError).

Definition take_n (n : Z) : RM (list Z) := fun rest =>
  if blen rest <? n then (Err TruncatedEntry, rest)
  else (Ok (firstn (Z.to_nat n) rest), skipn (Z.to_nat n) rest).
Definition take_u (n : Z) : RM Z := take_n n ≫= fun b => mret (le_val b).

Definition parse_key_ref (overflow : bool) (stored : list Z) : RM EntryKey.t :=
  if overflow then
    take_u 4 ≫= fun total_len => take_u 8 ≫= fun head => mret (EntryKey.Overflow stored total_len head)
  else mret (EntryKey.Inline stored).

Definition parse_leaf_entry : RM (EntryKey.t * LeafValue.t) :=
  take_u 2 ≫= fun key_len =>
  take_u 1 ≫= fun tag =>
  if 3 <? tag then sm_fail (UnknownTag tag)
  else
    take_n key_len ≫= fun stored =>
    parse_key_ref (negb (Z.land tag 2 =? 0)) stored ≫= fun entry_key =>
    (if Z.land tag 1 =? 0 then
       take_u 4 ≫= fun val_len => take_n val_len ≫= fun bytes => mret (LeafValue.Inline bytes)
     else
       take_u 8 ≫= fun total_len => take_u 8 ≫= fun head => mret (LeafValue.Overflow total_len head))
    ≫= fun value => mret (entry_key, value).

Definition parse_interior_entry : RM (EntryKey.t * Z) :=
  take_u 2 ≫= fun raw_len =>
  take_n (Z.land raw_len KEY_LEN_MASK) ≫= fun stored =>
  parse_key_ref (negb (Z.land raw_len KEY_LEN_OVERFLOW =? 0)) stored ≫= fun entry_key =>
  take_u 8 ≫= fun child => mret (entry_key, child).

Section parse_all.
Context {A : Type} (entry : RM A).
(** [while !rest.is_empty() { entries.push(entry?) }]; every entry takes at
    least two bytes. *)
Fixpoint parse_all (fuel : nat) (rest : list Z) : result TreeError (list A) :=
  match rest with
  | [] => Ok []
  | _ =>
      match fuel with
      | O => Err Diverges
      | S fuel =>
          match entry rest with
          | (Ok e, rest) => parse_all fuel rest ≫= fun es => Ok (e :: es)
          | (Err e, _) => Err e
          end
      end
  end.
End parse_all.

Definition parse_node (payload : list Z) : result TreeError Node.t :=
  match payload with
  | [] => Err EmptyNode
  | kind :: rest =>
      if kind =? NODE_LEAF then
        parse_all parse_leaf_entry (length rest) rest ≫= fun es => Ok (Node.Leaf es)
      else if kind =? NODE_INTERIOR then
        parse_all parse_interior_entry (length rest) rest ≫= fun es => Ok (Node.Interior es)
      else Err (UnknownKind kind)
  end.

(** ** In-place searches *)

Module RawLeafValue.
Inductive t : Type :=
  | Inline (bytes : list Z)
  | Overflow (total_len head : Z).
End RawLeafValue.

Module RawFound.
Inductive t : Type :=
  | Absent
  | Found (v : RawLeafValue.t)
  | NeedsFullKeys.
End RawFound.

Module RawRoute.
Inductive t : Type :=
  | Child (page : Z)
  | NeedsFullKeys.
End RawRoute.

(** [payload.get(a..b)]. *)
Definition get_range (payload : list Z) (a b : Z) : option (list Z) :=
  if (a <=? b) && (b <=? blen payload) then Some (slice payload a b) else None.

Definition raw_u16 (rest : list Z) (at_ : Z) : option Z :=
  get_range rest at_ (at_ + 2) ≫= fun b => Some (le_val b).
Definition raw_u32 (rest : list Z) (at_ : Z) : option Z :=
  get_range rest at_ (at_ + 4) ≫= fun b => Some (le_val b).
Definition raw_u64 (rest : list Z) (at_ : Z) : option Z :=
  get_range rest at_ (at_ + 8) ≫= fun b => Some (le_val b).
Definition raw_byte (rest : list Z) (at_ : Z) : option Z :=
  get_range rest at_ (at_ + 1) ≫= fun b => Some (le_val b).

(** Comparison of a stored key with the probe: [None] when the routing prefix
    cannot decide. *)
Definition raw_ordering (key_overflow : bool) (entry_key key : list Z) : option comparison :=
  if key_overflow then
    let l := Nat.min (length entry_key) (length key) in
    match lex_compare (firstn l entry_key) (firstn l key) with
    | Eq => if (length key <=? length entry_key)%nat then Some Gt else None
    | other => Some other
    end
  else Some (lex_compare entry_key key).

Fixpoint raw_leaf_find_loop (fuel : nat) (payload key : list Z) (at_ : Z) : option RawFound.t :=
  if at_ <? blen payload then
    match fuel with
    | O => None
    | S fuel =>
        raw_u16 payload at_ ≫= fun key_len =>
        raw_byte payload (at_ + 2) ≫= fun tag =>
        if 3 <? tag then None
        else
          get_range payload (at_ + 3) (at_ + 3 + key_len) ≫= fun entry_key =>
          let key_overflow := negb (Z.land tag 2 =? 0) in
          let at_ := at_ + 3 + key_len + (if key_overflow then 12 else 0) in
          (if Z.land tag 1 =? 0 then raw_u32 payload at_ ≫= fun n => Some (4 + n) else Some 16) ≫=
          fun value_len =>
          match raw_ordering key_overflow entry_key key with
          | None => Some RawFound.NeedsFullKeys
          | Some Lt => raw_leaf_find_loop fuel payload key (at_ + value_len)
          | Some Gt => Some RawFound.Absent
          | Some Eq =>
              if Z.land tag 1 =? 0 then
                get_range payload (at_ + 4) (at_ + value_len) ≫= fun b =>
                Some (RawFound.Found (RawLeafValue.Inline b))
              else
                raw_u64 payload at_ ≫= fun total_len => raw_u64 payload (at_ + 8) ≫= fun head =>
                Some (RawFound.Found (RawLeafValue.Overflow total_len head))
          end
    end
  else Some RawFound.Absent.

Definition raw_leaf_find (payload key : list Z) : option RawFound.t :=
  raw_leaf_find_loop (length payload) payload key 0.

Fixpoint raw_interior_route_loop (fuel : nat) (payload key : list Z) (at_ : Z) (chosen : option Z)
    : option RawRoute.t :=
  let finish := chosen ≫= fun c => Some (RawRoute.Child c) in
  if at_ <? blen payload then
    match fuel with
    | O => None
    | S fuel =>
        raw_u16 payload at_ ≫= fun raw_len =>
        let key_overflow := negb (Z.land raw_len KEY_LEN_OVERFLOW =? 0) in
        let key_len := Z.land raw_len KEY_LEN_MASK in
        get_range payload (at_ + 2) (at_ + 2 + key_len) ≫= fun entry_key =>
        let cursor := at_ + 2 + key_len + (if key_overflow then 12 else 0) in
        raw_u64 payload cursor ≫= fun child =>
        match raw_ordering key_overflow entry_key key with
        | None => Some RawRoute.NeedsFullKeys
        | Some Gt =>
            match chosen with
            | Some c => Some (RawRoute.Child c)
            | None => Some (RawRoute.Child child)
            end
        | Some _ => raw_interior_route_loop fuel payload key (cursor + 8) (Some child)
        end
    end
  else finish.

Definition raw_interior_route (payload key : list Z) : option RawRoute.t :=
  raw_interior_route_loop (length payload) payload key 0 None.

(** * Reads *)

Fixpoint chain_loop (fuel : nat) (pg : Pager) (page_id : Z) (out : list Z) : result TreeError (list Z) :=
  if page_id =? NIL then Ok out
  else
    match fuel with
    | O => Err Diverges
    | S fuel =>
        fault pg page_id ≫= fun payload =>
        if blen payload <? 8 then Err OverflowTooShort
        else chain_loop fuel pg (le_val (slice payload 0 8)) (out ++ skipn 8 payload)
    end.

Definition materialize_chain (pg : Pager) (total_len head : Z) : result TreeError (list Z) :=
  chain_loop (walk_fuel pg) pg head [] ≫= fun out =>
  if blen out =? total_len then Ok out else Err ChainLengthMismatch.

Definition materialize (pg : Pager) (value : LeafValue.t) : result TreeError (list Z) :=
  match value with
  | LeafValue.Inline bytes => Ok bytes
  | LeafValue.Overflow total_len head => materialize_chain pg total_len head
  end.

Definition full_key (pg : Pager) (key : EntryKey.t) : result TreeError (list Z) :=
  match key with
  | EntryKey.Inline k => Ok k
  | EntryKey.Overflow _ total_len head => materialize_chain pg total_len head
  end.

Definition cmp_probe (pg : Pager) (probe : list Z) (stored : EntryKey.t) : result TreeError comparison :=
  match stored with
  | EntryKey.Inline k => Ok (lex_compare probe k)
  | EntryKey.Overflow prefix total_len head =>
      let l := Nat.min (length prefix) (length probe) in
      match lex_compare (firstn l probe) (firstn l prefix) with
      | Eq =>
          if (length probe <=? length prefix)%nat then Ok Lt
          else materialize_chain pg total_len head ≫= fun full => Ok (lex_compare probe full)
      | other => Ok other
      end
  end.

Section binary_search.
Context (pg : Pager) (probe : list Z).

(** Found index, or insertion point. The interval shrinks at every step. *)
Fixpoint search_loop (fuel : nat) (entries : LeafEntries) (lo hi : nat) : result TreeError (nat + nat) :=
  if (lo <? hi)%nat then
    match fuel with
    | O => Err Diverges
    | S fuel =>
        let mid := ((lo + hi) / 2)%nat in
        match entries !! mid with
        | None => Err Diverges
        | Some (k, _) =>
            cmp_probe pg probe k ≫= fun o => match o with
            | Lt => search_loop fuel entries lo mid
            | Gt => search_loop fuel entries (mid + 1) hi
            | Eq => Ok (inl mid)
            end
        end
    end
  else Ok (inr lo).

Definition search_leaf (entries : LeafEntries) : result TreeError (nat + nat) :=
  search_loop (length entries) entries 0 (length entries).

Fixpoint route_loop (fuel : nat) (entries : InteriorEntries) (lo hi : nat) : result TreeError nat :=
  if (lo <? hi)%nat then
    match fuel with
    | O => Err Diverges
    | S fuel =>
        let mid := ((lo + hi) / 2)%nat in
        match entries !! mid with
        | None => Err Diverges
        | Some (k, _) =>
            cmp_probe pg probe k ≫= fun o => match o with
            | Lt => route_loop fuel entries lo mid
            | _ => route_loop fuel entries (mid + 1) hi
            end
        end
    end
  else Ok lo.

Definition route_index (entries : InteriorEntries) : result TreeError nat :=
  match entries with
  | [] => Err ZeroEntries
  | _ => route_loop (length entries) entries 0 (length entries) ≫= fun lo => Ok (lo - 1)%nat
  end.
End binary_search.

(** [entries[i].1]. *)
Definition child_at (entries : InteriorEntries) (i : nat) : result TreeError Z :=
  match entries !! i with Some (_, child) => Ok child | None => Err Diverges end.

Definition parse_interior (payload : list Z) : result TreeError InteriorEntries :=
  parse_node payload ≫= fun node =>
  match node with Node.Interior entries => Ok entries | Node.Leaf _ => Err KindMismatch end.
Definition parse_leaf (payload : list Z) : result TreeError LeafEntries :=
  parse_node payload ≫= fun node =>
  match node with Node.Leaf entries => Ok entries | Node.Interior _ => Err KindMismatch end.

Definition get_leaf (pg : Pager) (key payload rest : list Z) : result TreeError (option (list Z)) :=
  from_option MalformedLeaf (raw_leaf_find rest key) ≫= fun found =>
  match found with
  | RawFound.Absent => Ok None
  | RawFound.Found (RawLeafValue.Inline bytes) => Ok (Some bytes)
  | RawFound.Found (RawLeafValue.Overflow total_len head) =>
      materialize pg (LeafValue.Overflow total_len head) ≫= fun v => Ok (Some v)
  | RawFound.NeedsFullKeys =>
      parse_leaf payload ≫= fun entries =>
      search_leaf pg key entries ≫= fun s => match s with
      | inl idx =>
          match entries !! idx with
          | Some (_, v) => materialize pg v ≫= fun v => Ok (Some v)
          | None => Err Diverges
          end
      | inr _ => Ok None
      end
  end.

Definition get_route (pg : Pager) (key payload rest : list Z) : result TreeError Z :=
  from_option MalformedInterior (raw_interior_route rest key) ≫= fun route =>
  match route with
  | RawRoute.Child child => Ok child
  | RawRoute.NeedsFullKeys =>
      parse_interior payload ≫= fun entries =>
      route_index pg key entries ≫= fun i => child_at entries i
  end.

Fixpoint get_loop (fuel : nat) (pg : Pager) (page_id : Z) (key : list Z)
    : result TreeError (option (list Z)) :=
  match fuel with
  | O => Err Diverges
  | S fuel =>
      fault pg page_id ≫= fun payload =>
      match payload with
      | [] => Err EmptyNode
      | kind :: rest =>
          if kind =? NODE_INTERIOR then
            get_route pg key payload rest ≫= fun child => get_loop fuel pg child key
          else if kind =? NODE_LEAF then get_leaf pg key payload rest
          else Err (UnknownKind kind)
      end
  end.

Definition get (pg : Pager) (t : PagedTree) (key : list Z) : result TreeError (option (list Z)) :=
  get_loop (walk_fuel pg) pg (root t) key.

(** ** Scans: the visitor may stop early or fail *)

Section scan.
Context {S : Type} (f : list Z -> list Z -> SM S TreeError bool).
Context (pg : Pager) (start : list Z) (end_ : option (list Z)).

(** [k] is at or past the upper bound. *)
Definition past_end (k : EntryKey.t) : result TreeError bool :=
  match end_ with
  | None => Ok false
  | Some e => cmp_probe pg e k ≫= fun o => Ok (match o with Gt => false | _ => true end)
  end.

Fixpoint scan_leaf (entries : LeafEntries) : SM S TreeError bool :=
  match entries with
  | [] => mret true
  | (k, v) :: entries =>
      sm_lift (cmp_probe pg start k) ≫= fun o => match o with
      | Gt => scan_leaf entries
      | _ =>
          sm_lift (past_end k) ≫= fun past =>
          if (past : bool) then mret true
          else
            sm_lift (full_key pg k) ≫= fun key =>
            sm_lift (materialize pg v) ≫= fun value =>
            f key value ≫= fun go => if (go : bool) then scan_leaf entries else mret false
      end
  end.

Section children.
Context (scan_child : Z -> SM S TreeError bool).
Fixpoint scan_children (first : bool) (entries : InteriorEntries) : SM S TreeError bool :=
  match entries with
  | [] => mret true
  | (k, child) :: entries =>
      (if first then mret false else sm_lift (past_end k)) ≫= fun past =>
      if (past : bool) then mret true
      else scan_child child ≫= fun go => if (go : bool) then scan_children false entries else mret false
  end.
End children.

Fixpoint scan_node (fuel : nat) (page_id : Z) : SM S TreeError bool :=
  match fuel with
  | O => sm_fail Diverges
  | Datatypes.S fuel =>
      sm_lift (fault pg page_id ≫= parse_node) ≫= fun node =>
      match node with
      | Node.Leaf entries => scan_leaf entries
      | Node.Interior entries =>
          sm_lift (route_index pg start entries) ≫= fun from =>
          scan_children (scan_node fuel) true (skipn from entries)
      end
  end.
End scan.

Definition scan {S} (pg : Pager) (t : PagedTree) (start : list Z) (end_ : option (list Z))
    (f : list Z -> list Z -> SM S TreeError bool) : SM S TreeError bool :=
  scan_node f pg start end_ (walk_fuel pg) (root t).

(** * Writes *)

Definition check_key (key : list Z) : result TreeError unit :=
  match key with
  | [] => Err EmptyKey
  | _ => if blen key <? 2 ^ 32 then Ok tt else Err KeyTooLong
  end.

(** [bytes.chunks(n)]. *)
Fixpoint chunks (fuel : nat) (n : nat) (bytes : list Z) : list (list Z) :=
  match bytes, fuel with
  | [], _ => []
  | _, O => []
  | _, S fuel => firstn n bytes :: chunks fuel n (skipn n bytes)
  end.

(** The pages of a chain, last chunk first. *)
Fixpoint store_parts (t : PagedTree) (parts : list (list Z)) (next : Z) : PM Z :=
  match parts with
  | [] => mret next
  | part :: parts =>
      allocate_page_id ≫= fun page_id =>
      install page_id (PageHeader_new page_id (table_id t) 0 FLAG_OVERFLOW) (le_bytes 8 next ++ part)
      ≫= fun _ => store_parts t parts page_id
  end.

Definition store_chain (t : PagedTree) (bytes : list Z) : PM Z := fun pg =>
  store_parts t (reverse (chunks (length bytes) (Z.to_nat (overflow_chunk (page_size pg))) bytes)) NIL pg.

Definition make_key (t : PagedTree) (key : list Z) : PM EntryKey.t := fun pg =>
  if blen key <=? max_inline_key (page_size pg) then (Ok (EntryKey.Inline key), pg)
  else (store_chain t key ≫= fun head =>
        mret (EntryKey.Overflow (firstn (Z.to_nat (max_inline_key (page_size pg))) key)
          (cast_unsigned 32 (blen key)) head)) pg.

Definition store_value (t : PagedTree) (key : EntryKey.t) (value : list Z) : PM LeafValue.t := fun pg =>
  if leaf_entry_size key (LeafValue.Inline value) <=? max_inline_entry (page_size pg)
  then (Ok (LeafValue.Inline value), pg)
  else (store_chain t value ≫= fun head => mret (LeafValue.Overflow (blen value) head)) pg.

Definition write_new_node (t : PagedTree) (node : Node.t) : PM Z :=
  allocate_page_id ≫= fun page_id =>
  sm_lift (encode_node t page_id node) ≫= fun hp : PageHeader * list Z =>
  install page_id hp.1 hp.2 ≫= fun _ => mret page_id.

(** ** Splitting *)

(** The byte-midpoint position: the first prefix holding half of [total]. *)
Fixpoint split_point (sizes : list Z) (total acc : Z) (i : nat) : option nat :=
  match sizes with
  | [] => None
  | s :: sizes =>
      let acc := acc + s in
      if total <=? acc * 2 then Some (S i) else split_point sizes total acc (S i)
  end.

Definition split_at_bytes {A} (size : A -> Z) (entries : list A) : list A * list A :=
  let sizes := map size entries in
  let split := default (length entries / 2)%nat (split_point sizes (sum_sizes sizes) 0 0) in
  let split := Nat.max 1 (Nat.min split (length entries - 1)) in
  (firstn split entries, skipn split entries).

Definition split_node (node : Node.t) : result TreeError (Node.t * EntryKey.t * Node.t) :=
  match node with
  | Node.Leaf entries =>
      if (length entries <? 2)%nat then Err CannotSplit
      else
        let '(l, r) := split_at_bytes (fun e => leaf_entry_size e.1 e.2) entries in
        match r with
        | [] => Err Diverges
        | (sep, _) :: _ => Ok (Node.Leaf l, sep, Node.Leaf r)
        end
  | Node.Interior entries =>
      if (length entries <? 2)%nat then Err CannotSplit
      else
        let '(l, r) := split_at_bytes (fun e => interior_entry_size e.1) entries in
        match r with
        | [] => Err Diverges
        | (sep, _) :: _ => Ok (Node.Interior l, sep, Node.Interior r)
        end
  end.

Definition write_or_split_new (t : PagedTree) (node : Node.t) : PM Cow.t := fun pg =>
  if node_size node <=? node_budget (page_size pg)
  then (write_new_node t node ≫= fun page => mret (Cow.Node page)) pg
  else
    (sm_lift (split_node node) ≫= fun '(l, sep, r) =>
     sm_lift (full_key pg sep) ≫= fun sep =>
     write_new_node t l ≫= fun left_page =>
     write_new_node t r ≫= fun right_page =>
     mret (Cow.Split left_page sep right_page)) pg.

(** ** Copy-on-write insert and delete: the state carries [superseded] *)

Notation TM := (SM (Pager * list Z) TreeError).

Definition on_pager {A} (m : PM A) : TM A := fun '(pg, sup) =>
  let '(r, pg) := m pg in (r, (pg, sup)).
Definition read_pager {A} (m : Pager -> result TreeError A) : TM A := fun '(pg, sup) => (m pg, (pg, sup)).
Definition push_superseded (page_id : Z) : TM unit := fun '(pg, sup) => (Ok tt, (pg, sup ++ [page_id])).

(** [supersede_chain]; the pager is only read. *)
Fixpoint supersede_loop (fuel : nat) (page_id : Z) : TM unit :=
  if page_id =? NIL then mret tt
  else
    match fuel with
    | O => sm_fail Diverges
    | S fuel =>
        read_pager (fun pg => fault pg page_id) ≫= fun payload =>
        if blen payload <? 8 then sm_fail OverflowTooShort
        else
          push_superseded page_id ≫= fun _ => supersede_loop fuel (le_val (slice payload 0 8))
    end.

Definition supersede_chain (head : Z) : TM unit := fun '(pg, sup) =>
  supersede_loop (walk_fuel pg) head (pg, sup).

Definition supersede_key (key : EntryKey.t) : TM unit :=
  match key with EntryKey.Overflow _ _ head => supersede_chain head | EntryKey.Inline _ => mret tt end.
Definition supersede_value (value : LeafValue.t) : TM unit :=
  match value with LeafValue.Overflow _ head => supersede_chain head | LeafValue.Inline _ => mret tt end.

Section updates.
Context (t : PagedTree) (key value : list Z).

Definition insert_leaf (page_id : Z) (entries : LeafEntries) : TM Cow.t :=
  read_pager (fun pg => search_leaf pg key entries) ≫= fun s =>
  (match s with
   | inl idx =>
       match entries !! idx with
       | None => sm_fail Diverges
       | Some (k, old) =>
           on_pager (store_value t k value) ≫= fun leaf_value =>
           supersede_value old ≫= fun _ => mret (<[idx := (k, leaf_value)]> entries)
       end
   | inr idx =>
       on_pager (make_key t key) ≫= fun entry_key =>
       on_pager (store_value t entry_key value) ≫= fun leaf_value =>
       mret (firstn idx entries ++ (entry_key, leaf_value) :: skipn idx entries)
   end) ≫= fun entries =>
  push_superseded page_id ≫= fun _ => on_pager (write_or_split_new t (Node.Leaf entries)).

(** Adopt the rewritten child at [idx]. *)
Definition adopt_child (entries : InteriorEntries) (idx : nat) (c : Cow.t) : TM InteriorEntries :=
  match c, entries !! idx with
  | Cow.Node new_child, Some (k, _) => mret (<[idx := (k, new_child)]> entries)
  | Cow.Split l sep r, Some (k, _) =>
      on_pager (make_key t sep) ≫= fun sep_key =>
      mret (firstn idx entries ++ (k, l) :: (sep_key, r) :: skipn (S idx) entries)
  | _, None => sm_fail Diverges
  end.

Fixpoint insert_into_cow (fuel : nat) (page_id : Z) : TM Cow.t :=
  match fuel with
  | O => sm_fail Diverges
  | S fuel =>
      read_pager (fun pg => fault pg page_id ≫= parse_node) ≫= fun node =>
      match node with
      | Node.Leaf entries => insert_leaf page_id entries
      | Node.Interior entries =>
          read_pager (fun pg => route_index pg key entries) ≫= fun idx =>
          sm_lift (child_at entries idx) ≫= fun child =>
          insert_into_cow fuel child ≫= fun c =>
          adopt_child entries idx c ≫= fun entries =>
          push_superseded page_id ≫= fun _ => on_pager (write_or_split_new t (Node.Interior entries))
      end
  end.

Definition insert_cow : TM PagedTree := fun '(pg, sup) =>
  (sm_lift (check_key key) ≫= fun _ =>
   insert_into_cow (walk_fuel pg) (root t) ≫= fun c =>
   (match c with
    | Cow.Node page => mret page
    | Cow.Split l sep r =>
        on_pager (make_key t sep) ≫= fun sep_key =>
        on_pager (write_new_node t (Node.Interior [(EntryKey.Inline [], l); (sep_key, r)]))
    end) ≫= fun new_root =>
   mret {| table_id := table_id t; index_tree := index_tree t; root := new_root |}) (pg, sup).

Fixpoint delete_into_cow (fuel : nat) (page_id : Z) : TM (option Z) :=
  match fuel with
  | O => sm_fail Diverges
  | S fuel =>
      read_pager (fun pg => fault pg page_id ≫= parse_node) ≫= fun node =>
      match node with
      | Node.Leaf entries =>
          read_pager (fun pg => search_leaf pg key entries) ≫= fun s =>
          match s with
          | inr _ => mret None
          | inl idx =>
              match entries !! idx with
              | None => sm_fail Diverges
              | Some (old_key, old) =>
                  supersede_key old_key ≫= fun _ =>
                  supersede_value old ≫= fun _ =>
                  push_superseded page_id ≫= fun _ =>
                  on_pager (write_new_node t (Node.Leaf (delete idx entries))) ≫= fun p => mret (Some p)
              end
          end
      | Node.Interior entries =>
          read_pager (fun pg => route_index pg key entries) ≫= fun idx =>
          sm_lift (child_at entries idx) ≫= fun child =>
          delete_into_cow fuel child ≫= fun r =>
          match r with
          | None => mret None
          | Some new_child =>
              match entries !! idx with
              | None => sm_fail Diverges
              | Some (k, _) =>
                  push_superseded page_id ≫= fun _ =>
                  on_pager (write_new_node t (Node.Interior (<[idx := (k, new_child)]> entries))) ≫= fun p =>
                  mret (Some p)
              end
          end
      end
  end.

Definition delete_cow : TM (bool * PagedTree) := fun '(pg, sup) =>
  (delete_into_cow (walk_fuel pg) (root t) ≫= fun r =>
   match r with
   | Some new_root => mret (true, {| table_id := table_id t; index_tree := index_tree t; root := new_root |})
   | None => mret (false, t)
   end) (pg, sup).
End updates.

Definition create (tid : Z) (index : bool) : PM PagedTree :=
  let t := {| table_id := tid; index_tree := index; root := NIL |} in
  write_new_node t (Node.Leaf []) ≫= fun r =>
  mret {| table_id := tid; index_tree := index; root := r |}.

(** [insert] and [delete]: free the superseded pages at once. *)
Definition free_superseded (page_ids : list Z) : PM unit :=
  foldr (fun p m => free_page p ≫= fun _ => m) (mret tt) page_ids.

Definition insert_now (t : PagedTree) (key value : list Z) : PM PagedTree := fun pg =>
  match insert_cow t key value (pg, []) with
  | (Ok t', (pg, sup)) => (free_superseded sup ≫= fun _ => mret t') pg
  | (Err e, (pg, _)) => (Err e, pg)
  end.

Definition delete_now (t : PagedTree) (key : list Z) : PM (bool * PagedTree) := fun pg =>
  match delete_cow t key (pg, []) with
  | (Ok r, (pg, sup)) => (free_superseded sup ≫= fun _ => mret r) pg
  | (Err e, (pg, _)) => (Err e, pg)
  end.

(** ** Bulk load *)

Section bulk.
Context (t : PagedTree).

(** A fresh copy of an entry's full key ([make_key(full_key(k))]). *)
Definition copy_key (k : EntryKey.t) : PM EntryKey.t := fun pg =>
  (sm_lift (full_key pg k) ≫= fun full => make_key t full) pg.

Record BulkState : Type := {
  b_level : InteriorEntries;
  b_leaf : LeafEntries;
  b_leaf_bytes : Z;
  b_last_key : option (list Z);
}.

(** Write the current leaf as a page of the level. *)
Definition flush_leaf (level : InteriorEntries) (leaf : LeafEntries) : PM InteriorEntries :=
  (match leaf with
   | (k, _) :: _ => copy_key k
   | [] => mret (EntryKey.Inline [])
   end) ≫= fun first =>
  write_new_node t (Node.Leaf leaf) ≫= fun page => mret (level ++ [(first, page)]).

Definition bulk_entry (st : BulkState) (key value : list Z) : PM BulkState := fun pg =>
  let budget := node_budget (page_size pg) in
  (sm_map_err (fun _ => BulkKey) (sm_lift (check_key key)) ≫= fun _ =>
   (match b_last_key st with
    | Some last => if decide (key_le key last) then sm_fail BulkNotSorted else mret tt
    | None => mret tt
    end) ≫= fun _ =>
   make_key t key ≫= fun entry_key =>
   store_value t entry_key value ≫= fun leaf_value =>
   let size := leaf_entry_size entry_key leaf_value in
   (if (budget <? b_leaf_bytes st + size) && negb (bool_decide (b_leaf st = []))
    then flush_leaf (b_level st) (b_leaf st) ≫= fun level => mret (level, [], 0)
    else mret (b_level st, b_leaf st, b_leaf_bytes st)) ≫= fun '(level, leaf, leaf_bytes) =>
   mret {| b_level := level; b_leaf := leaf ++ [(entry_key, leaf_value)];
           b_leaf_bytes := leaf_bytes + size; b_last_key := Some key |}) pg.

Fixpoint bulk_entries (st : BulkState) (entries : list (list Z * list Z)) : PM BulkState :=
  match entries with
  | [] => mret st
  | (key, value) :: entries => bulk_entry st key value ≫= fun st => bulk_entries st entries
  end.

Definition flush_interior (next node : InteriorEntries) : PM InteriorEntries :=
  (match node with
   | (k, _) :: _ => copy_key k
   | [] => mret (EntryKey.Inline [])
   end) ≫= fun first =>
  write_new_node t (Node.Interior node) ≫= fun page => mret (next ++ [(first, page)]).

(** Pack one level into interior nodes. *)
Fixpoint pack_level (level next node : InteriorEntries) (node_bytes : Z) : PM InteriorEntries := fun pg =>
  match level with
  | [] => flush_interior next node pg
  | (key, child) :: level =>
      let size := interior_entry_size key in
      ((if (node_budget (page_size pg) <? node_bytes + size) && negb (bool_decide (node = []))
        then flush_interior next node ≫= fun next => mret (next, [], 0)
        else mret (next, node, node_bytes)) ≫= fun '(next, node, node_bytes) =>
       pack_level level next (node ++ [(key, child)]) (node_bytes + size)) pg
  end.

(** [while level.len() > 1]. *)
Fixpoint build_levels (fuel : nat) (level : InteriorEntries) : PM Z :=
  match level with
  | [] => sm_fail Diverges
  | [(_, page)] => mret page
  | _ =>
      match fuel with
      | O => sm_fail Diverges
      | S fuel => pack_level level [] [] 0 ≫= fun next => build_levels fuel next
      end
  end.

Definition bulk_load (entries : list (list Z * list Z)) : PM PagedTree :=
  bulk_entries {| b_level := []; b_leaf := []; b_leaf_bytes := 0; b_last_key := None |} entries ≫= fun st =>
  flush_leaf (b_level st) (b_leaf st) ≫= fun level =>
  build_levels (length level) level ≫= fun new_root =>
  (if root t =? NIL then mret tt else free_page (root t)) ≫= fun _ =>
  mret {| table_id := table_id t; index_tree := index_tree t; root := new_root |}.
End bulk.
