(* ===== verification/PagedTreeNode.v ===== *)
(** Nodes of the paged tree: the page codec, overflow chains, and the searches
    inside a node.

    Main results: a node page parses back to the node; the in-place searches of
    the hot read path agree with the parsed node; probing an entry key, stored
    inline or as a routing prefix with its chain, is comparing with the full
    key; the binary searches find the position in a sorted node. *)

From stdpp Require Import base list gmap sorting.
From Stdlib Require Import ZArith Lia.
From S2P Require Import Prelude PageFormat PagedTree.

(** * The node codec *)

(** Lengths and references fit their fields. *)
Definition entry_key_ok (k : EntryKey.t) : Prop :=
  blen (EntryKey.stored k) < 2 ^ 15 /\
  match k with EntryKey.Inline _ => True | EntryKey.Overflow _ n h => u_ok 32 n /\ u_ok 64 h end.
Definition leaf_value_ok (v : LeafValue.t) : Prop :=
  match v with LeafValue.Inline b => blen b < 2 ^ 32 | LeafValue.Overflow n h => u_ok 64 n /\ u_ok 64 h end.
Definition node_ok (n : Node.t) : Prop :=
  match n with
  | Node.Leaf es => Forall (fun e => entry_key_ok e.1 /\ leaf_value_ok e.2) es
  | Node.Interior es => Forall (fun e => entry_key_ok e.1 /\ u_ok 64 e.2) es
  end.

Definition rreads {A} (m : RM A) (bs : list Z) (a : A) : Prop := forall rest, m (bs ++ rest) = (Ok a, rest).

Lemma rreads_ret {A} (a : A) : rreads (mret a) [] a.
Proof. done. Qed.

Lemma rreads_bind {A B} (m : RM A) (k : A -> RM B) b1 b2 a b :
  rreads m b1 a -> rreads (k a) b2 b -> rreads (m ≫= k) (b1 ++ b2) b.
Proof. intros H1 H2 rest. unfold mbind, sm_bind. rewrite <- app_assoc, H1. apply H2. Qed.

Lemma rreads_bind_last {A B} (m : RM A) (k : A -> B) b1 a : rreads m b1 a -> rreads (m ≫= fun x => mret (k x)) b1 (k a).
Proof. intros H rest. unfold mbind, sm_bind. by rewrite H. Qed.

Lemma rreads_take_n n b : blen b = n -> rreads (take_n n) b b.
Proof.
  intros <- rest. unfold take_n. rewrite (proj2 (Z.ltb_ge _ _)) by (rewrite blen_app; pose proof (blen_nonneg rest); lia).
  unfold blen. rewrite Nat2Z.id. by rewrite take_app_length, drop_app_length.
Qed.

Lemma rreads_take_u n z : u_ok (8 * Z.of_nat n) z -> rreads (take_u (Z.of_nat n)) (le_bytes n z) z.
Proof.
  intros H rest. unfold take_u, mbind, sm_bind.
  rewrite (rreads_take_n _ (le_bytes n z)) by apply blen_le_bytes. unfold mret, sm_ret.
  by rewrite le_val_unsigned.
Qed.

Lemma rreads_key_ref k : entry_key_ok k ->
  rreads (parse_key_ref (negb (key_overhead k =? 0)) (EntryKey.stored k)) (key_ref_bytes k) k.
Proof.
  intros [_ Hk]. destruct k as [k|prefix n h];
    cbn [parse_key_ref key_ref_bytes key_overhead Z.eqb negb EntryKey.stored]; [apply rreads_ret|]. destruct Hk as [Hn Hh].
  apply (rreads_bind (take_u 4) _ _ _ n); [by apply (rreads_take_u 4)|].
  apply (rreads_bind_last (take_u 8) (EntryKey.Overflow prefix n)). by apply (rreads_take_u 8).
Qed.

Lemma stored_u16 k : entry_key_ok k -> u_ok 16 (blen (EntryKey.stored k)).
Proof. intros [H _]. pose proof (blen_nonneg (EntryKey.stored k)). unfold u_ok. lia. Qed.

Lemma rreads_leaf_entry k v : entry_key_ok k -> leaf_value_ok v ->
  rreads parse_leaf_entry (leaf_entry_bytes k v) (k, v).
Proof.
  intros Hk Hv. unfold parse_leaf_entry, leaf_entry_bytes.
  apply (rreads_bind (take_u 2) _ _ _ (blen (EntryKey.stored k))); [by apply (rreads_take_u 2), stored_u16|].
  assert (u_ok 8 (leaf_tag k v) /\ (3 <? leaf_tag k v) = false /\
    negb (Z.land (leaf_tag k v) 2 =? 0) = negb (key_overhead k =? 0)) as (Ht & H3 & H2)
    by (destruct k, v; cbn; repeat split; lia).
  rewrite <- (le_bytes_1 (leaf_tag k v)) by done.
  apply (rreads_bind (take_u 1) _ _ _ (leaf_tag k v)); [by apply (rreads_take_u 1)|].
  rewrite H3, H2.
  apply (rreads_bind (take_n _) _ _ _ (EntryKey.stored k)); [by apply rreads_take_n|].
  eapply rreads_bind; [by apply rreads_key_ref|].
  assert (Z.land (leaf_tag k v) 1 = match v with LeafValue.Inline _ => 0 | _ => 1 end) as ->
    by by destruct k, v.
  destruct v as [b|n h]; cbn [Z.eqb].
  - apply (rreads_bind_last _ (fun v => (k, v))). pose proof (blen_nonneg b).
    apply (rreads_bind (take_u 4) _ _ _ (blen b)); [apply (rreads_take_u 4); split; simpl in Hv; lia|].
    apply (rreads_bind_last _ LeafValue.Inline). by apply rreads_take_n.
  - destruct Hv as [Hn Hh]. apply (rreads_bind_last _ (fun v => (k, v))).
    apply (rreads_bind (take_u 8) _ _ _ n); [by apply (rreads_take_u 8)|].
    apply (rreads_bind_last _ (LeafValue.Overflow n)). by apply (rreads_take_u 8).
Qed.

(** The overflow bit and the length of an interior key field. *)
Lemma interior_key_len_spec k : entry_key_ok k ->
  u_ok 16 (interior_key_len k) /\ Z.land (interior_key_len k) KEY_LEN_MASK = blen (EntryKey.stored k) /\
  negb (Z.land (interior_key_len k) KEY_LEN_OVERFLOW =? 0) = negb (key_overhead k =? 0).
Proof.
  intros [Hl _]. pose proof (blen_nonneg (EntryKey.stored k)).
  unfold KEY_LEN_MASK, KEY_LEN_OVERFLOW. change (Z.shiftl 1 15) with (2 ^ 15).
  change (2 ^ 15 - 1) with (Z.ones 15).
  assert (forall x, 0 <= x < 2 ^ 15 -> Z.land x (2 ^ 15) = 0) as Hland.
  { intros x Hx. apply Z.bits_inj'. intros n Hn. rewrite Z.land_spec, Z.bits_0, Z.pow2_bits_eqb by done.
    destruct (Z.eqb_spec 15 n) as [<-|]; [|apply andb_false_r].
    destruct (Z.eq_dec x 0) as [->|]; [by rewrite Z.bits_0|].
    rewrite Z.bits_above_log2; [done|lia|]. apply Z.log2_lt_pow2; lia. }
  destruct k as [k|prefix n h]; cbn [interior_key_len EntryKey.stored key_overhead] in *.
  - rewrite Hland, Z.land_ones, Z.mod_small by lia. split; [unfold u_ok; lia|done].
  - unfold cast_unsigned. rewrite Z.mod_small by lia.
    unfold KEY_LEN_OVERFLOW. change (Z.shiftl 1 15) with (2 ^ 15).
    assert (Z.lor (blen prefix) (2 ^ 15) = blen prefix + 2 ^ 15) as E
      by (rewrite <- Z.add_lor_land, Hland by lia; lia).
    rewrite E. split; [unfold u_ok; lia|]. split.
    + rewrite Z.land_ones by lia. replace (blen prefix + 2 ^ 15) with (blen prefix + 1 * 2 ^ 15) by lia.
      rewrite Z.mod_add by lia. apply Z.mod_small. lia.
    + rewrite <- E, Z.land_lor_distr_l, Hland by lia. done.
Qed.

Lemma rreads_interior_entry k c : entry_key_ok k -> u_ok 64 c ->
  rreads parse_interior_entry (interior_entry_bytes k c) (k, c).
Proof.
  intros Hk Hc. destruct (interior_key_len_spec k Hk) as (Hu & Hm & Ho).
  unfold parse_interior_entry, interior_entry_bytes.
  apply (rreads_bind (take_u 2) _ _ _ (interior_key_len k)); [by apply (rreads_take_u 2)|].
  rewrite Hm, Ho.
  apply (rreads_bind (take_n _) _ _ _ (EntryKey.stored k)); [by apply rreads_take_n|].
  eapply rreads_bind; [by apply rreads_key_ref|].
  apply (rreads_bind_last _ (fun c => (k, c))). by apply (rreads_take_u 8).
Qed.

Lemma parse_all_spec {A} (entry : RM A) (bytes : A -> list Z) es : forall fuel,
  Forall (fun e => rreads entry (bytes e) e /\ bytes e <> []) es -> (length es <= fuel)%nat ->
  parse_all entry fuel (flat_map bytes es) = Ok es.
Proof.
  induction es as [|e es IH]; intros fuel Hf Hl; [by destruct fuel|].
  apply Forall_cons in Hf as [[Hr Hne] Hf]. destruct fuel as [|fuel]; [simpl in Hl; lia|].
  cbn [flat_map]. destruct (bytes e ++ flat_map bytes es) as [|z rest] eqn:E.
  { exfalso. by apply app_eq_nil in E as [? _]. }
  cbn [parse_all]. rewrite <- E, Hr, IH by (done || (simpl in Hl; lia)). done.
Qed.

Lemma flat_map_length {A} (bytes : A -> list Z) es : Forall (fun e => bytes e <> []) es ->
  (length es <= length (flat_map bytes es))%nat.
Proof.
  induction 1 as [|e es He _ IH]; simpl; [done|]. rewrite length_app.
  destruct (bytes e) eqn:E; [done|]. simpl. lia.
Qed.

Lemma leaf_entry_bytes_ne k v : leaf_entry_bytes k v <> [].
Proof. done. Qed.
Lemma interior_entry_bytes_ne k c : interior_entry_bytes k c <> [].
Proof. done. Qed.

Lemma parse_node_payload node : node_ok node -> parse_node (node_payload node) = Ok node.
Proof.
  intros Hok. destruct node as [es|es]; cbn [node_payload parse_node].
  - change (NODE_LEAF =? NODE_LEAF) with true. cbv iota.
    rewrite (parse_all_spec parse_leaf_entry (fun e => leaf_entry_bytes e.1 e.2) es); [done| |].
    + eapply List.Forall_impl; [|exact Hok]. intros [k v] [Hk Hv]. by split; [apply rreads_leaf_entry|].
    + apply (flat_map_length (fun e => leaf_entry_bytes e.1 e.2)). by apply Forall_true.
  - change (NODE_INTERIOR =? NODE_LEAF) with false. change (NODE_INTERIOR =? NODE_INTERIOR) with true. cbv iota.
    rewrite (parse_all_spec parse_interior_entry (fun e => interior_entry_bytes e.1 e.2) es); [done| |].
    + eapply List.Forall_impl; [|exact Hok]. intros [k c] [Hk Hc]. by split; [apply rreads_interior_entry|].
    + apply (flat_map_length (fun e => interior_entry_bytes e.1 e.2)). by apply Forall_true.
Qed.

Lemma blen_leaf_entry_bytes k v : blen (leaf_entry_bytes k v) = leaf_entry_size k v.
Proof.
  unfold leaf_entry_bytes, leaf_entry_size, key_overhead.
  destruct k, v; cbn [key_ref_bytes]; rewrite ?blen_app, ?blen_le_bytes, ?blen_cons, ?blen_nil; lia.
Qed.
Lemma blen_interior_entry_bytes k c : blen (interior_entry_bytes k c) = interior_entry_size k.
Proof.
  unfold interior_entry_bytes, interior_entry_size, key_overhead.
  destruct k; cbn [key_ref_bytes]; rewrite ?blen_app, ?blen_le_bytes, ?blen_nil; lia.
Qed.

(** * Overflow chains *)

(** [chain_at pg ids head bytes]: the pages [ids] from [head] hold [bytes]. A page
    is linked to one allocated before it. *)
Inductive chain_at (pg : Pager) : list Z -> Z -> list Z -> Prop :=
  | chain_nil : chain_at pg [] NIL []
  | chain_link ids id next h part rest :
      pages pg !! id = Some (h, le_bytes 8 next ++ part) ->
      next < id -> u_ok 64 id -> chain_at pg ids next rest ->
      chain_at pg (id :: ids) id (part ++ rest).

(** Two pagers that agree on some pages. *)
Definition same_on (ids : list Z) (pg pg' : Pager) : Prop :=
  page_size pg' = page_size pg /\ Forall (fun id => pages pg' !! id = pages pg !! id) ids.

Lemma chain_frame pg pg' ids head bs : chain_at pg ids head bs -> same_on ids pg pg' -> chain_at pg' ids head bs.
Proof.
  intros H [Hp Hs]. revert Hs. induction H; intros Hs; [constructor|].
  apply Forall_cons in Hs as [E Hs]. econstructor; [by rewrite E|done..|by apply IHchain_at].
Qed.

Lemma chain_head_ok pg ids head bs : chain_at pg ids head bs -> u_ok 64 head.
Proof. by destruct 1. Qed.

Lemma chain_ids_in pg ids head bs : chain_at pg ids head bs -> Forall (fun id => is_Some (pages pg !! id)) ids.
Proof. induction 1; constructor; eauto. Qed.

Lemma chain_ids_desc pg ids head bs : chain_at pg ids head bs ->
  StronglySorted (fun a b => b < a) ids /\ Forall (fun id => id <= head) ids.
Proof.
  induction 1 as [|ids id next h part rest _ Hlt _ _ [IH1 IH2]]; [by split; constructor|].
  split; constructor; [done| |lia|]; eapply Forall_impl; [exact IH2|simpl; lia|exact IH2|simpl; lia].
Qed.

Lemma desc_NoDup (l : list Z) : StronglySorted (fun a b => b < a) l -> NoDup l.
Proof.
  induction 1 as [|a l _ IH Hf]; constructor; [|done].
  intros Hin. rewrite Forall_forall in Hf. specialize (Hf _ Hin). lia.
Qed.

(** Distinct pages of the pager: a walk over them has enough steps. *)
Lemma walk_fuel_enough pg ids : NoDup ids -> Forall (fun id => is_Some (pages pg !! id)) ids ->
  (length ids <= walk_fuel pg)%nat.
Proof.
  intros Hnd Hin. unfold walk_fuel. rewrite <- size_dom, <- (size_list_to_set (C := gset Z)) by done.
  apply subseteq_size. intros id Hid%elem_of_list_to_set. rewrite Forall_forall in Hin.
  apply elem_of_dom, Hin, Hid.
Qed.

Lemma chain_loop_spec pg ids head bs : chain_at pg ids head bs -> forall fuel out, (length ids <= fuel)%nat ->
  chain_loop fuel pg head out = Ok (out ++ bs).
Proof.
  induction 1 as [|ids id next h part rest Hp Hlt Hid Hc IH]; intros fuel out Hf.
  - rewrite app_nil_r. by destruct fuel.
  - destruct fuel as [|fuel]; [simpl in Hf; lia|]. pose proof (chain_head_ok _ _ _ _ Hc) as Hn.
    cbn [chain_loop]. unfold NIL in *. rewrite (proj2 (Z.eqb_neq _ _)) by (unfold u_ok in *; lia).
    unfold fault. rewrite Hp. cbn [mbind result_bind].
    rewrite (proj2 (Z.ltb_ge _ _)) by (rewrite blen_app, blen_le_bytes; pose proof (blen_nonneg part); lia).
    rewrite slice_app_l by (by rewrite blen_le_bytes). rewrite le_val_unsigned by done.
    rewrite (drop_app_length') by by rewrite length_le_bytes.
    rewrite IH by (simpl in Hf; lia). by rewrite app_assoc.
Qed.

Lemma materialize_chain_spec pg ids head bs n : chain_at pg ids head bs -> n = blen bs ->
  materialize_chain pg n head = Ok bs.
Proof.
  intros Hc ->. unfold materialize_chain.
  rewrite (chain_loop_spec _ _ _ _ Hc); [|apply walk_fuel_enough].
  - cbn. by rewrite Z.eqb_refl.
  - eapply desc_NoDup, chain_ids_desc, Hc.
  - eapply chain_ids_in, Hc.
Qed.

(** * Stored keys and values *)

Definition key_is (pg : Pager) (ek : EntryKey.t) (k ids : list Z) : Prop :=
  match ek with
  | EntryKey.Inline k' => k' = k /\ ids = [] /\ blen k <= max_inline_key (page_size pg)
  | EntryKey.Overflow prefix n head =>
      chain_at pg ids head k /\ n = blen k /\ u_ok 32 n /\ blen prefix = max_inline_key (page_size pg) /\
      exists rest, k = prefix ++ rest /\ rest <> []
  end.

Definition val_is (pg : Pager) (v : LeafValue.t) (bs ids : list Z) : Prop :=
  match v with
  | LeafValue.Inline b => b = bs /\ ids = []
  | LeafValue.Overflow n head => chain_at pg ids head bs /\ n = blen bs /\ u_ok 64 n
  end.

Definition page_size_ok (ps : Z) : Prop := 256 <= ps <= 2 ^ 17.

Lemma key_frame pg pg' ek k ids : key_is pg ek k ids -> same_on ids pg pg' -> key_is pg' ek k ids.
Proof.
  intros H Hs. pose proof (proj1 Hs) as E. destruct ek; simpl in *; rewrite E.
  - done.
  - destruct H as (Hc & ?). split; [by eapply chain_frame|done].
Qed.

Lemma val_frame pg pg' v bs ids : val_is pg v bs ids -> same_on ids pg pg' -> val_is pg' v bs ids.
Proof.
  intros H Hs. destruct v; simpl in *; [done|]. destruct H as (Hc & ?). split; [by eapply chain_frame|done].
Qed.

Lemma key_ids_in pg ek k ids : key_is pg ek k ids -> Forall (fun id => is_Some (pages pg !! id)) ids.
Proof.
  destruct ek; simpl; [by intros (_ & -> & _)|]. intros (Hc & _). by eapply chain_ids_in.
Qed.
Lemma val_ids_in pg v bs ids : val_is pg v bs ids -> Forall (fun id => is_Some (pages pg !! id)) ids.
Proof. destruct v; simpl; [by intros (_ & ->)|]. intros (Hc & _). by eapply chain_ids_in. Qed.

Lemma key_stored_le pg ek k ids : key_is pg ek k ids -> blen (EntryKey.stored ek) <= max_inline_key (page_size pg).
Proof. destruct ek; simpl; [by intros (-> & _ & ?)|intros (_ & _ & _ & ? & _); lia]. Qed.

Lemma key_entry_ok pg ek k ids : page_size_ok (page_size pg) -> key_is pg ek k ids -> entry_key_ok ek.
Proof.
  intros [Hps1 Hps2] Hk. pose proof (key_stored_le _ _ _ _ Hk) as Hs. split.
  - unfold max_inline_key, node_budget, PAGE_HEADER_LEN in Hs.
    assert ((page_size pg - 32 - 1) / 8 < 2 ^ 15) by (apply Z.div_lt_upper_bound; lia). lia.
  - destruct ek; simpl in Hk; [done|]. destruct Hk as (Hc & _ & Hn & _). split; [done|].
    by eapply chain_head_ok.
Qed.

Lemma full_key_spec pg ek k ids : key_is pg ek k ids -> full_key pg ek = Ok k.
Proof.
  destruct ek; simpl; [by intros (-> & _)|]. intros (Hc & -> & _). by eapply materialize_chain_spec.
Qed.
Lemma materialize_spec pg v bs ids : val_is pg v bs ids -> materialize pg v = Ok bs.
Proof.
  destruct v; simpl; [by intros (-> & _)|]. intros (Hc & -> & _). by eapply materialize_chain_spec.
Qed.

(** ** Comparing with a routing prefix *)

Lemma lex_compare_split l a b : (l <= length a)%nat -> (l <= length b)%nat ->
  lex_compare a b = cmp_then (lex_compare (firstn l a) (firstn l b)) (lex_compare (skipn l a) (skipn l b)).
Proof.
  revert a b. induction l as [|l IH]; intros a b Ha Hb; [done|].
  destruct a as [|x a], b as [|y b]; simpl in *; try lia.
  rewrite (IH a b) by lia. by destruct (x ?= y).
Qed.

(** The first bytes of a long key decide the comparison unless the probe
    extends the stored prefix. *)
Lemma prefix_decides (prefix rest probe : list Z) : rest <> [] ->
  let l := Nat.min (length prefix) (length probe) in
  lex_compare probe (prefix ++ rest) =
  match lex_compare (firstn l probe) (firstn l prefix) with
  | Eq => if (length probe <=? length prefix)%nat then Lt else lex_compare probe (prefix ++ rest)
  | other => other
  end.
Proof.
  intros Hr l. pose proof (lex_compare_split l probe (prefix ++ rest)) as E.
  rewrite length_app in E. specialize (E ltac:(lia) ltac:(lia)). rewrite take_app_le in E by lia.
  destruct (lex_compare (firstn l probe) (firstn l prefix)) eqn:C; simpl in E; try done.
  destruct (Nat.leb_spec (length probe) (length prefix)); [|done].
  rewrite E. replace l with (length probe) by lia. rewrite drop_all.
  destruct (skipn (length probe) (prefix ++ rest)) eqn:D; [|done].
  exfalso. apply (f_equal length) in D. rewrite length_skipn, length_app in D.
  destruct rest; [done|simpl in D; lia].
Qed.

Lemma cmp_probe_spec pg probe ek k ids : key_is pg ek k ids -> cmp_probe pg probe ek = Ok (lex_compare probe k).
Proof.
  intros Hk. pose proof (full_key_spec _ _ _ _ Hk) as Hf.
  destruct ek as [k'|prefix n head]; simpl in *; [by destruct Hk as (-> & _)|].
  destruct Hk as (_ & _ & _ & _ & rest & -> & Hr). rewrite Hf. cbn [mbind result_bind].
  rewrite (prefix_decides prefix rest probe Hr). cbv zeta.
  destruct (lex_compare (firstn _ probe) (firstn _ prefix)); try done.
  by destruct (length probe <=? length prefix)%nat.
Qed.

Lemma lex_compare_opp a b : lex_compare b a = CompOpp (lex_compare a b).
Proof. exact (@kcmp_opp _ bytes_ord a b). Qed.
Lemma lex_compare_eq a b : lex_compare a b = Eq <-> a = b.
Proof. exact (@kcmp_eq _ bytes_ord a b). Qed.
Lemma lex_compare_Gt a b : lex_compare a b = Gt <-> key_lt b a.
Proof. exact (kcmp_Gt a b). Qed.

(** The in-place comparison, when it decides, is the comparison with the full key. *)
Lemma raw_ordering_spec pg ek k ids probe o : key_is pg ek k ids ->
  raw_ordering (negb (key_overhead ek =? 0)) (EntryKey.stored ek) probe = Some o -> o = lex_compare k probe.
Proof.
  intros Hk. destruct ek as [k'|prefix n head]; simpl in *; [destruct Hk as (-> & _); congruence|].
  destruct Hk as (_ & _ & _ & _ & rest & -> & Hr).
  rewrite (lex_compare_opp probe), (prefix_decides prefix rest probe Hr). cbv zeta.
  rewrite (lex_compare_opp (firstn _ probe)).
  destruct (lex_compare (firstn _ probe) (firstn _ prefix)); cbn [CompOpp]; try congruence.
  destruct (length probe <=? length prefix)%nat; [|discriminate]. by intros [= <-].
Qed.

(** * Searches in a node *)

Lemma sorted_lookup {A} (R : A -> A -> Prop) l i j a b : StronglySorted R l -> (i < j)%nat ->
  l !! i = Some a -> l !! j = Some b -> R a b.
Proof.
  intros Hs. revert i j. induction Hs as [|x l _ IH Hf]; intros [|i] [|j] Hij Ha Hb; try done; try lia.
  - injection Ha as <-. rewrite Forall_forall in Hf. eapply Hf, list_elem_of_lookup_2, Hb.
  - eapply (IH i j); [lia|done..].
Qed.

Section search.
Context (pg : Pager) (probe : list Z).

(** The full keys of the entries of a node. *)
Definition keys_are {A} (es : list (EntryKey.t * A)) (ks : list (list Z)) : Prop :=
  Forall2 (fun e k => exists ids, key_is pg e.1 k ids) es ks.

Lemma keys_are_lookup {A} (es : list (EntryKey.t * A)) ks i k : keys_are es ks -> ks !! i = Some k ->
  exists e, es !! i = Some e /\ cmp_probe pg probe e.1 = Ok (lex_compare probe k).
Proof.
  intros H Hi. destruct (Forall2_lookup_r _ _ _ _ _ H Hi) as (e & He & ids & Hk).
  exists e. split; [done|]. by eapply cmp_probe_spec.
Qed.

Lemma search_loop_spec es ks : keys_are es ks -> StronglySorted key_lt ks -> forall fuel lo hi,
  (hi <= length ks)%nat -> (lo <= hi)%nat -> (hi - lo <= fuel)%nat ->
  (forall j k, ks !! j = Some k -> (j < lo)%nat -> key_lt k probe) ->
  (forall j k, ks !! j = Some k -> (hi <= j)%nat -> key_lt probe k) ->
  exists r, search_loop pg probe fuel es lo hi = Ok r /\
    match r with
    | inl i => ks !! i = Some probe
    | inr i => (i <= length ks)%nat /\ forall j k, ks !! j = Some k ->
        ((j < i)%nat -> key_lt k probe) /\ ((i <= j)%nat -> key_lt probe k)
    end.
Proof.
  intros Hk Hs fuel. induction fuel as [|fuel IH]; intros lo hi Hhi Hlo Hf Hl Hr.
  - simpl. destruct (Nat.ltb_spec lo hi); [lia|]. exists (inr lo). split; [done|]. split; [lia|].
    intros j k Hj. split; [by apply Hl|]. intros ?. apply (Hr j); [done|lia].
  - cbn [search_loop]. destruct (Nat.ltb_spec lo hi) as [Hlt|].
    2: { exists (inr lo). split; [done|]. split; [lia|].
         intros j k Hj. split; [by apply Hl|]. intros ?. apply (Hr j); [done|lia]. }
    set (mid := ((lo + hi) / 2)%nat).
    assert (lo <= mid < hi)%nat as Hmid
      by (subst mid; split; [apply Nat.div_le_lower_bound|apply Nat.Div0.div_lt_upper_bound]; lia).
    destruct (lookup_lt_is_Some_2 ks mid ltac:(lia)) as [km Hkm].
    destruct (keys_are_lookup _ _ _ _ Hk Hkm) as ([em vm] & Hem & Hc). rewrite Hem.
    cbn [fst] in Hc. rewrite Hc. cbn [mbind result_bind].
    destruct (lex_compare probe km) eqn:C.
    + exists (inl mid). split; [done|]. apply lex_compare_eq in C. by subst.
    + apply IH; [lia..|done|]. intros j k Hj Hjm. destruct (decide (j = mid)) as [->|]; [by simplify_eq|].
      etrans; [exact C|]. eapply (sorted_lookup key_lt ks mid j); [done|lia|done..].
    + apply IH; [lia..| |done]. intros j k Hj Hjm.
      assert (key_lt km probe) as Hkp by by apply lex_compare_Gt.
      destruct (decide (j = mid)) as [->|]; [by simplify_eq|].
      etrans; [|exact Hkp]. eapply (sorted_lookup key_lt ks j mid); [done|lia|done..].
Qed.

Lemma search_leaf_spec es ks : keys_are es ks -> StronglySorted key_lt ks ->
  exists r, search_leaf pg probe es = Ok r /\
    match r with
    | inl i => ks !! i = Some probe
    | inr i => (i <= length ks)%nat /\ forall j k, ks !! j = Some k ->
        ((j < i)%nat -> key_lt k probe) /\ ((i <= j)%nat -> key_lt probe k)
    end.
Proof.
  intros Hk Hs. unfold search_leaf. pose proof (Forall2_length _ _ _ Hk) as El. rewrite El.
  apply search_loop_spec; try done; try lia.
  intros j k Hj%lookup_lt_Some ?. lia.
Qed.

(** Routing looks at every separator but the first: its key may lie anywhere. *)
Lemma route_loop_spec es ks : keys_are es ks -> StronglySorted key_lt (tail ks) -> forall fuel lo hi,
  (hi <= length ks)%nat -> (lo <= hi)%nat -> (hi - lo <= fuel)%nat ->
  (forall j k, ks !! S j = Some k -> (S j < lo)%nat -> key_le k probe) ->
  (forall j k, ks !! S j = Some k -> (hi <= S j)%nat -> key_lt probe k) ->
  exists i, route_loop pg probe fuel es lo hi = Ok i /\ (i <= length ks)%nat /\
    forall j k, ks !! S j = Some k -> ((S j < i)%nat -> key_le k probe) /\ ((i <= S j)%nat -> key_lt probe k).
Proof.
  intros Hk Hs fuel. induction fuel as [|fuel IH]; intros lo hi Hhi Hlo Hf Hl Hr.
  - simpl. destruct (Nat.ltb_spec lo hi); [lia|]. exists lo. split; [done|]. split; [lia|].
    intros j k Hj. split; [by apply Hl|]. intros ?. apply (Hr j); [done|lia].
  - cbn [route_loop]. destruct (Nat.ltb_spec lo hi) as [Hlt|].
    2: { exists lo. split; [done|]. split; [lia|].
         intros j k Hj. split; [by apply Hl|]. intros ?. apply (Hr j); [done|lia]. }
    set (mid := ((lo + hi) / 2)%nat).
    assert (lo <= mid < hi)%nat as Hmid
      by (subst mid; split; [apply Nat.div_le_lower_bound|apply Nat.Div0.div_lt_upper_bound]; lia).
    destruct (lookup_lt_is_Some_2 ks mid ltac:(lia)) as [km Hkm].
    destruct (keys_are_lookup _ _ _ _ Hk Hkm) as ([em vm] & Hem & Hc). rewrite Hem.
    cbn [fst] in Hc. rewrite Hc. cbn [mbind result_bind].
    assert (forall j k, ks !! S j = Some k -> (mid < S j)%nat -> (0 < mid)%nat -> key_lt km k) as Hafter.
    { intros j k Hj Hjm Hm. destruct mid as [|mid']; [lia|].
      eapply (sorted_lookup key_lt (tail ks) mid' j); [done|lia|by rewrite lookup_tail..]. }
    assert (forall j k, ks !! S j = Some k -> (S j < mid)%nat -> key_lt k km) as Hbefore.
    { intros j k Hj Hjm. destruct mid as [|mid']; [lia|].
      eapply (sorted_lookup key_lt (tail ks) j mid'); [done|lia|by rewrite lookup_tail..]. }
    assert (lex_compare probe km = Lt ->
      forall j k, ks !! S j = Some k -> (mid <= S j)%nat -> (0 < mid)%nat -> key_lt probe k) as Hgo_l.
    { intros C j k Hj Hjm H0. destruct (decide (S j = mid)) as [E|]; [rewrite <- E in Hkm; by simplify_eq|].
      etrans; [exact C|]. eapply Hafter; [done|lia..]. }
    assert (lex_compare probe km <> Lt ->
      forall j k, ks !! S j = Some k -> (S j < mid + 1)%nat -> key_le k probe) as Hgo_r.
    { intros C j k Hj Hjm. assert (key_le km probe) as Hkp by by apply key_not_lt.
      destruct (decide (S j = mid)) as [E|]; [rewrite <- E in Hkm; by simplify_eq|].
      apply key_lt_le. eapply key_lt_le_trans; [|exact Hkp]. eapply Hbefore; [done|lia]. }
    destruct (lex_compare probe km) eqn:C.
    + apply IH; [lia..|by apply Hgo_r|done].
    + destruct (decide (mid = 0)%nat) as [E|].
      * assert (hi = 1)%nat by (pose proof (Nat.div_mod_eq (lo + hi) 2);
          pose proof (Nat.mod_upper_bound (lo + hi) 2); subst mid; lia).
        rewrite E. replace lo with 0%nat by lia. exists 0%nat. split; [by destruct fuel|].
        split; [lia|]. intros j k Hj. split; [lia|]. intros _. apply (Hr j); [done|]. lia.
      * apply IH; [lia..|done|]. intros j k Hj Hjm. eapply Hgo_l; [done|done|lia..].
    + apply IH; [lia..|by apply Hgo_r|done].
Qed.
End search.

Lemma route_index_spec pg probe es ks : keys_are pg es ks -> StronglySorted key_lt (tail ks) -> es <> [] ->
  exists i, route_index pg probe es = Ok i /\ (i < length es)%nat /\
    forall j k, ks !! S j = Some k -> ((S j <= i)%nat -> key_le k probe) /\ ((i < S j)%nat -> key_lt probe k).
Proof.
  intros Hk Hs Hne. pose proof (Forall2_length _ _ _ Hk) as El.
  destruct (route_loop_spec pg probe es ks Hk Hs (length es) 0 (length es)) as (i & E & Hi & Hr).
  1-3: lia. { lia. } { intros j k Hj%lookup_lt_Some ?. lia. }
  exists (i - 1)%nat. unfold route_index. destruct es as [|e es]; [done|].
  rewrite E. split; [done|]. split; [simpl in *; lia|].
  intros j k Hj. split; intros; apply (Hr j k Hj); lia.
Qed.

(** ** The in-place searches read the entries [parse_node] returns *)

Definition overflow_key (k : EntryKey.t) : bool := negb (key_overhead k =? 0).

Definition raw_value (v : LeafValue.t) : RawLeafValue.t :=
  match v with
  | LeafValue.Inline b => RawLeafValue.Inline b
  | LeafValue.Overflow n h => RawLeafValue.Overflow n h
  end.

Fixpoint leaf_find (key : list Z) (es : LeafEntries) : RawFound.t :=
  match es with
  | [] => RawFound.Absent
  | (k, v) :: es =>
      match raw_ordering (overflow_key k) (EntryKey.stored k) key with
      | None => RawFound.NeedsFullKeys
      | Some Lt => leaf_find key es
      | Some Eq => RawFound.Found (raw_value v)
      | Some Gt => RawFound.Absent
      end
  end.

Fixpoint interior_route (key : list Z) (es : InteriorEntries) (chosen : option Z) : option RawRoute.t :=
  match es with
  | [] => chosen ≫= fun c => Some (RawRoute.Child c)
  | (k, c) :: es =>
      match raw_ordering (overflow_key k) (EntryKey.stored k) key with
      | None => Some RawRoute.NeedsFullKeys
      | Some Gt => Some (RawRoute.Child (default c chosen))
      | Some _ => interior_route key es (Some c)
      end
  end.

Lemma get_range_eq P pl m q a b : P = pl ++ m ++ q -> a = blen pl -> b = a + blen m -> get_range P a b = Some m.
Proof.
  intros -> -> ->. unfold get_range.
  rewrite (proj2 (Z.leb_le _ _)), (proj2 (Z.leb_le _ _)) by (rewrite ?blen_app; pose proof (blen_nonneg m);
    pose proof (blen_nonneg q); lia).
  cbn. by rewrite slice_mid.
Qed.

Lemma get_u_eq P pl n z q a b : P = pl ++ le_bytes n z ++ q -> u_ok (8 * Z.of_nat n) z -> a = blen pl ->
  b = a + Z.of_nat n -> (get_range P a b ≫= fun b => Some (le_val b)) = Some z.
Proof.
  intros HP Hz -> ->. rewrite (get_range_eq P pl (le_bytes n z) q) by (done || by rewrite ?blen_le_bytes).
  cbn. by rewrite le_val_unsigned.
Qed.

Lemma blen_key_ref k : blen (key_ref_bytes k) = if overflow_key k then 12 else 0.
Proof. by destruct k. Qed.

Ltac place := rewrite <- ?app_assoc; reflexivity.
Ltac place_len := rewrite ?blen_app, ?blen_le_bytes, ?blen_key_ref; change (blen [_]) with 1; lia.

Definition leaf_entry_ok (e : EntryKey.t * LeafValue.t) : Prop := entry_key_ok e.1 /\ leaf_value_ok e.2.

Lemma leaf_tag_spec k v : u_ok 8 (leaf_tag k v) /\ (3 <? leaf_tag k v) = false /\
  negb (Z.land (leaf_tag k v) 2 =? 0) = overflow_key k /\
  Z.land (leaf_tag k v) 1 = match v with LeafValue.Inline _ => 0 | _ => 1 end.
Proof. by destruct k, v. Qed.

Lemma raw_leaf_find_loop_spec key es : Forall leaf_entry_ok es -> forall fuel pl, (length es <= fuel)%nat ->
  raw_leaf_find_loop fuel (pl ++ flat_map (fun e => leaf_entry_bytes e.1 e.2) es) key (blen pl)
  = Some (leaf_find key es).
Proof.
  induction 1 as [|[k v] es [Hk Hv] _ IH]; intros fuel pl Hf; cbn [fst snd] in *.
  - cbn [flat_map leaf_find]. destruct fuel; cbn [raw_leaf_find_loop]; rewrite app_nil_r, Z.ltb_irrefl; done.
  - destruct fuel as [|fuel]; [simpl in Hf; lia|].
    destruct (leaf_tag_spec k v) as (Ht & H3 & H2 & H1). cbn [flat_map fst snd].
    set (tl := flat_map _ es) in *. set (P := pl ++ leaf_entry_bytes k v ++ tl).
    set (val := match v with LeafValue.Inline b => le_bytes 4 (blen b) ++ b
                | LeafValue.Overflow n h => le_bytes 8 n ++ le_bytes 8 h end).
    assert (P = pl ++ le_bytes 2 (blen (EntryKey.stored k)) ++ le_bytes 1 (leaf_tag k v) ++ EntryKey.stored k ++
      key_ref_bytes k ++ val ++ tl) as EP
      by (subst P; unfold leaf_entry_bytes; rewrite (le_bytes_1 (leaf_tag k v)) by done; place).
    cbn [raw_leaf_find_loop]. rewrite (proj2 (Z.ltb_lt _ _)).
    2: { rewrite EP, !blen_app, !blen_le_bytes. pose proof (blen_nonneg (EntryKey.stored k)).
         pose proof (blen_nonneg (key_ref_bytes k)). pose proof (blen_nonneg val). pose proof (blen_nonneg tl). lia. }
    unfold raw_u16, raw_byte, raw_u32, raw_u64.
    rewrite (get_u_eq P pl 2 _ _ (blen pl) (blen pl + 2) EP (stored_u16 k Hk) eq_refl eq_refl).
    cbn [mbind option_bind].
    rewrite (get_u_eq P (pl ++ le_bytes 2 (blen (EntryKey.stored k))) 1 (leaf_tag k v)
      (EntryKey.stored k ++ key_ref_bytes k ++ val ++ tl) (blen pl + 2) (blen pl + 2 + 1));
      [|rewrite EP; place|done|place_len|lia].
    cbn [mbind option_bind]. rewrite H3, H2, H1.
    rewrite (get_range_eq P (pl ++ le_bytes 2 (blen (EntryKey.stored k)) ++ le_bytes 1 (leaf_tag k v)) (EntryKey.stored k)
      (key_ref_bytes k ++ val ++ tl) (blen pl + 3) (blen pl + 3 + blen (EntryKey.stored k)));
      [|rewrite EP; place|place_len|lia].
    cbn [mbind option_bind leaf_find].
    set (at_ := blen pl + 3 + blen (EntryKey.stored k) + (if overflow_key k then 12 else 0)).
    set (pre := pl ++ le_bytes 2 (blen (EntryKey.stored k)) ++ le_bytes 1 (leaf_tag k v) ++ EntryKey.stored k ++ key_ref_bytes k).
    assert (P = pre ++ val ++ tl) as EP' by (rewrite EP; subst pre; place).
    assert (at_ = blen pre) as Eat by (subst at_ pre; place_len).
    assert ((if (match v with LeafValue.Inline _ => 0 | _ => 1 end) =? 0
             then (get_range P at_ (at_ + 4) ≫= fun b => Some (le_val b)) ≫= fun n => Some (4 + n) else Some 16)
            = Some (blen val)) as Evl.
    { destruct v as [b|n h]; cbn [Z.eqb]; subst val.
      - pose proof (blen_nonneg b). rewrite (get_u_eq P pre 4 (blen b) (b ++ tl));
          [cbn [mbind option_bind]; f_equal; place_len|rewrite EP'; place|split; [lia|exact Hv]|done|done].
      - reflexivity. }
    rewrite Evl. cbn [mbind option_bind].
    destruct (raw_ordering (overflow_key k) (EntryKey.stored k) key) as [[| |]|]; [| |done|done].
    + destruct v as [b|n h]; cbn [Z.eqb raw_value]; subst val.
      * rewrite (get_range_eq P (pre ++ le_bytes 4 (blen b)) b tl); [done|rewrite EP'; place|place_len|place_len].
      * destruct Hv as [Hn Hh].
        rewrite (get_u_eq P pre 8 n (le_bytes 8 h ++ tl) at_ (at_ + 8)); [|rewrite EP'; place|done|done|lia].
        cbn [mbind option_bind].
        rewrite (get_u_eq P (pre ++ le_bytes 8 n) 8 h tl (at_ + 8) (at_ + 8 + 8)); [done|rewrite EP'; place|done|place_len|lia].
    + replace (at_ + blen val) with (blen (pre ++ val)) by (rewrite blen_app; lia).
      rewrite EP', app_assoc. apply IH. simpl in Hf. lia.
Qed.

Lemma raw_leaf_find_spec key es : Forall leaf_entry_ok es ->
  raw_leaf_find (flat_map (fun e => leaf_entry_bytes e.1 e.2) es) key = Some (leaf_find key es).
Proof.
  intros Hok. apply (raw_leaf_find_loop_spec key es Hok _ []).
  apply (flat_map_length (fun e => leaf_entry_bytes e.1 e.2)). by apply Forall_true.
Qed.

Definition interior_entry_ok (e : EntryKey.t * Z) : Prop := entry_key_ok e.1 /\ u_ok 64 e.2.

Lemma raw_interior_route_loop_spec key es : Forall interior_entry_ok es ->
  forall fuel pl chosen, (length es <= fuel)%nat ->
  raw_interior_route_loop fuel (pl ++ flat_map (fun e => interior_entry_bytes e.1 e.2) es) key (blen pl) chosen
  = interior_route key es chosen.
Proof.
  induction 1 as [|[k c] es [Hk Hc] _ IH]; intros fuel pl chosen Hf; cbn [fst snd] in *.
  - cbn [flat_map interior_route].
    destruct fuel; cbn [raw_interior_route_loop]; rewrite app_nil_r, Z.ltb_irrefl; done.
  - destruct fuel as [|fuel]; [simpl in Hf; lia|].
    destruct (interior_key_len_spec k Hk) as (Hu & Hm & Ho). cbn [flat_map fst snd].
    set (tl := flat_map _ es) in *. set (P := pl ++ interior_entry_bytes k c ++ tl).
    set (pre := pl ++ le_bytes 2 (interior_key_len k) ++ EntryKey.stored k ++ key_ref_bytes k).
    assert (P = pl ++ le_bytes 2 (interior_key_len k) ++ EntryKey.stored k ++ key_ref_bytes k ++ le_bytes 8 c ++ tl)
      as EP by (subst P; unfold interior_entry_bytes; place).
    assert (P = pre ++ le_bytes 8 c ++ tl) as EP' by (rewrite EP; subst pre; place).
    set (cur := blen pl + 2 + blen (EntryKey.stored k) + (if overflow_key k then 12 else 0)).
    assert (cur = blen pre) as Ecur by (subst cur pre; place_len).
    cbn [raw_interior_route_loop]. rewrite (proj2 (Z.ltb_lt _ _)).
    2: { rewrite EP, !blen_app, !blen_le_bytes. pose proof (blen_nonneg (EntryKey.stored k)).
         pose proof (blen_nonneg (key_ref_bytes k)). pose proof (blen_nonneg tl). lia. }
    unfold raw_u16, raw_u64.
    rewrite (get_u_eq P pl 2 _ _ (blen pl) (blen pl + 2) EP Hu eq_refl eq_refl).
    cbn [mbind option_bind]. rewrite Hm, Ho. fold (overflow_key k).
    rewrite (get_range_eq P (pl ++ le_bytes 2 (interior_key_len k)) (EntryKey.stored k)
      (key_ref_bytes k ++ le_bytes 8 c ++ tl) (blen pl + 2) (blen pl + 2 + blen (EntryKey.stored k)));
      [|rewrite EP; place|place_len|lia].
    cbn [mbind option_bind interior_route]. fold cur.
    rewrite (get_u_eq P pre 8 c tl cur (cur + 8) EP' Hc Ecur eq_refl). cbn [mbind option_bind].
    destruct (raw_ordering (overflow_key k) (EntryKey.stored k) key) as [[| |]|]; [| |by destruct chosen|done].
    1,2: replace (cur + 8) with (blen (pre ++ le_bytes 8 c)) by place_len;
      rewrite EP', app_assoc; apply IH; simpl in Hf; lia.
Qed.

Lemma raw_interior_route_spec key es : Forall interior_entry_ok es ->
  raw_interior_route (flat_map (fun e => interior_entry_bytes e.1 e.2) es) key = interior_route key es None.
Proof.
  intros Hok. apply (raw_interior_route_loop_spec key es Hok _ []).
  apply (flat_map_length (fun e => interior_entry_bytes e.1 e.2)). by apply Forall_true.
Qed.

(** The entry a leaf holds for [key]. *)
Fixpoint leaf_entry (key : list Z) (es : LeafEntries) (ks : list (list Z)) : option LeafValue.t :=
  match es, ks with
  | (_, v) :: es, k :: ks => if decide (k = key) then Some v else leaf_entry key es ks
  | _, _ => None
  end.

Lemma leaf_find_spec pg key es ks : keys_are pg es ks -> StronglySorted key_lt ks ->
  leaf_find key es = RawFound.NeedsFullKeys \/
  leaf_find key es = match leaf_entry key es ks with Some v => RawFound.Found (raw_value v) | None => RawFound.Absent end.
Proof.
  induction 1 as [|[k v] fk es ks [ids Hk] _ IH]; intros Hs; [by right|].
  apply StronglySorted_inv in Hs as [Hs Hf]. cbn [leaf_find leaf_entry fst] in *.
  destruct (raw_ordering (overflow_key k) (EntryKey.stored k) key) as [o|] eqn:E; [|by left].
  apply (raw_ordering_spec _ _ _ _ _ _ Hk) in E. subst o.
  destruct (lex_compare fk key) eqn:C.
  - apply lex_compare_eq in C as ->. right. by rewrite decide_True.
  - rewrite decide_False by (by apply key_lt_ne). by apply IH.
  - right. apply lex_compare_Gt in C. rewrite decide_False by (intros ->; by apply (key_lt_irrefl key)).
    assert (leaf_entry key es ks = None) as ->; [|done].
    clear -Hf C. revert es. induction Hf as [|k ks Hk _ IH]; intros [|[ek ev] es]; try done. simpl.
    rewrite decide_False; [by apply IH|]. intros ->.
    apply (key_lt_irrefl key). etrans; [exact C|exact Hk].
Qed.

Lemma sorted_after (a : list Z) ks j k : key_lt a k -> ks !! 0%nat = Some k -> StronglySorted key_lt ks ->
  forall x, ks !! j = Some x -> key_lt a x.
Proof.
  intros Ha H0 Hs x Hx. destruct j as [|j]; [by simplify_eq|].
  etrans; [exact Ha|]. eapply (sorted_lookup key_lt ks 0 (S j)); [done|lia|done..].
Qed.

Lemma interior_route_chosen pg key es ks k0 c0 : keys_are pg es ks -> StronglySorted key_lt ks ->
  interior_route key es (Some c0) = Some RawRoute.NeedsFullKeys \/
  exists i e, interior_route key es (Some c0) = Some (RawRoute.Child e.2) /\ ((k0, c0) :: es) !! i = Some e /\
    forall j k, ks !! j = Some k -> ((j < i)%nat -> key_le k key) /\ ((i <= j)%nat -> key_lt key k).
Proof.
  intros Hk. revert k0 c0. induction Hk as [|[k c] fk es ks [ids Hk] _ IH]; intros k0 c0 Hs.
  - right. exists 0%nat, (k0, c0). by repeat split.
  - cbn [interior_route fst] in *.
    destruct (raw_ordering (overflow_key k) (EntryKey.stored k) key) as [o|] eqn:E; [|by left].
    apply (raw_ordering_spec _ _ _ _ _ _ Hk) in E.
    assert (o = Gt \/ o <> Gt) as [->|Hle] by (destruct o; auto).
    + right. exists 0%nat, (k0, c0). split; [done|]. split; [done|]. intros j x Hx. split; [lia|]. intros _.
      symmetry in E. apply lex_compare_Gt in E. by eapply (sorted_after key (fk :: ks) j fk).
    + assert (interior_route key es (Some c) = match o with Gt => Some (RawRoute.Child (default c (Some c0))) | _ => interior_route key es (Some c) end)
        as <- by by destruct o.
      apply StronglySorted_inv in Hs as [Hs Hf].
      destruct (IH k c Hs) as [->|(i & e & -> & He & Hi)]; [by left|].
      right. exists (S i), e. split; [done|]. split; [done|]. intros [|j] x Hx.
      * split; [|lia]. intros _. injection Hx as <-. unfold key_le. simpl. congruence.
      * destruct (Hi j x Hx). split; intros; [|]; auto with lia.
Qed.

(** With sorted separators the in-place route is the binary-search route. *)
Lemma interior_route_spec pg key es ks : keys_are pg es ks -> StronglySorted key_lt ks -> es <> [] ->
  interior_route key es None = Some RawRoute.NeedsFullKeys \/
  exists i e, interior_route key es None = Some (RawRoute.Child e.2) /\ es !! i = Some e /\
    forall j k, ks !! S j = Some k -> ((S j <= i)%nat -> key_le k key) /\ ((i < S j)%nat -> key_lt key k).
Proof.
  intros Hk Hs Hne. destruct Hk as [|[k c] fk es ks [ids Hk] Hks]; [done|]. cbn [interior_route fst] in *.
  pose proof (StronglySorted_inv Hs) as [Hs' Hf].
  destruct (raw_ordering (overflow_key k) (EntryKey.stored k) key) as [o|] eqn:E; [|by left].
  apply (raw_ordering_spec _ _ _ _ _ _ Hk) in E.
  assert (o = Gt \/ o <> Gt) as [->|Hle] by (destruct o; auto).
  - right. exists 0%nat, (k, c). split; [done|]. split; [done|]. intros j x Hx. split; [lia|]. intros _.
    symmetry in E. apply lex_compare_Gt in E. by eapply (sorted_after key (fk :: ks) (S j) fk).
  - assert (interior_route key es (Some c) = match o with Gt => Some (RawRoute.Child (default c None)) | _ => interior_route key es (Some c) end)
      as <- by by destruct o.
    destruct (interior_route_chosen pg key es ks k c Hks Hs') as [->|(i & e & -> & He & Hi)]; [by left|].
    right. exists i, e. split; [done|]. split; [done|]. intros j x Hx. simpl in Hx.
    destruct (Hi j x Hx). split; intros; auto with lia.
Qed.
