(* ===== verification/PagedTreeRep.v ===== *)
(** What a paged tree stores, and its read path.

    [repr] relates a page to the sorted entries below it and to its footprint,
    the pages that hold them; [get_loop_spec] and [scan_node_spec] state the two
    reads against the entries.

    A node covers the keys from [lo] up to [hi]. An interior node has one
    separator per child; the first separator is a formality, and [mode] says
    what is known of it:
    - [Anchored]: it is at most the lower bound of the node, as in a tree grown
      by inserts from an empty one;
    - [Ordered]: it is below the second one, as in a bulk-loaded tree;
    - [Free]: nothing. *)

From stdpp Require Import base list gmap sorting.
From Stdlib Require Import ZArith Lia.
From S2P Require Import Prelude PageFormat PagedTree PagedTreeNode.

Inductive mode : Type := Anchored | Ordered | Free.

Notation kv := (list Z * list Z)%type.
Notation bound := (option (list Z)).

Definition entry_max (ps : Z) : Z := node_budget ps / 3.

Definition below (hi : bound) (k : list Z) : Prop := match hi with Some h => key_lt k h | None => True end.
Definition in_node (lo : list Z) (hi : bound) (kvs : list kv) : Prop :=
  Forall (fun e => key_le lo e.1 /\ below hi e.1) kvs.

Definition head_ok (m : mode) (s lo : list Z) (next : bound) : Prop :=
  match m with Anchored => key_le s lo | Ordered => below next s | Free => True end.

Inductive leaf_rep (pg : Pager) : LeafEntries -> list kv -> list Z -> Prop :=
  | leaf_rep_nil : leaf_rep pg [] [] []
  | leaf_rep_cons k v es key val kvs kf vf fp :
      key_is pg k key kf -> val_is pg v val vf -> leaf_entry_size k v <= entry_max (page_size pg) ->
      leaf_rep pg es kvs fp -> leaf_rep pg ((k, v) :: es) ((key, val) :: kvs) (kf ++ vf ++ fp).

(** The entries of an interior node, their full keys, and what the children
    hold; [page] is the node's own page, allocated after its children's. *)
Inductive kids (pg : Pager) (m : mode) (R : Z -> list Z -> bound -> list kv -> list Z -> Prop) (page : Z)
    : InteriorEntries -> list (list Z) -> list Z -> bound -> list kv -> list Z -> Prop :=
  | kids_last k c s lo hi kvs kf fp :
      key_is pg k s kf -> head_ok m s lo hi -> u_ok 64 c -> c < page -> R c lo hi kvs fp ->
      kids pg m R page [(k, c)] [s] lo hi kvs (kf ++ fp)
  | kids_cons k c es s s1 ss lo hi kvs1 kvs2 kf fp1 fp2 :
      key_is pg k s kf -> head_ok m s lo (Some s1) -> u_ok 64 c -> c < page ->
      key_lt lo s1 -> below hi s1 -> R c lo (Some s1) kvs1 fp1 ->
      kids pg m R page es (s1 :: ss) s1 hi kvs2 fp2 ->
      kids pg m R page ((k, c) :: es) (s :: s1 :: ss) lo hi (kvs1 ++ kvs2) (kf ++ fp1 ++ fp2).

Fixpoint repr (pg : Pager) (m : mode) (h : nat) (page : Z) (lo : list Z) (hi : bound)
    (kvs : list kv) (fp : list Z) : Prop :=
  match h with
  | O => exists hd es fp', pages pg !! page = Some (hd, node_payload (Node.Leaf es)) /\
      node_size (Node.Leaf es) <= node_budget (page_size pg) /\ leaf_rep pg es kvs fp' /\
      StronglySorted entry_lt kvs /\ in_node lo hi kvs /\ fp = page :: fp'
  | S h => exists hd es ss fp', pages pg !! page = Some (hd, node_payload (Node.Interior es)) /\
      node_size (Node.Interior es) <= node_budget (page_size pg) /\
      kids pg m (repr pg m h) page es ss lo hi kvs fp' /\ fp = page :: fp'
  end.

(** * Structure *)

Definition ext (pg pg' : Pager) : Prop := page_size pg' = page_size pg /\ pages pg ⊆ pages pg'.

#[global] Instance ext_refl : Reflexive ext.
Proof. by split. Qed.
#[global] Instance ext_trans : Transitive ext.
Proof. intros a b c [? ?] [? ?]. split; [congruence|by etrans]. Qed.

Lemma ext_same_on pg pg' ids : ext pg pg' -> Forall (fun id => is_Some (pages pg !! id)) ids -> same_on ids pg pg'.
Proof.
  intros [Hp Hs] Hin. split; [done|]. eapply Forall_impl; [exact Hin|]. intros id [p Hid]. rewrite Hid.
  by eapply lookup_weaken.
Qed.

Lemma same_on_app a b pg pg' : same_on (a ++ b) pg pg' <-> same_on a pg pg' /\ same_on b pg pg'.
Proof. unfold same_on. rewrite Forall_app. naive_solver. Qed.
Lemma same_on_cons a b pg pg' : same_on (a :: b) pg pg' <-> pages pg' !! a = pages pg !! a /\ same_on b pg pg'.
Proof. unfold same_on. rewrite Forall_cons. naive_solver. Qed.

Lemma leaf_rep_frame pg pg' es kvs fp : leaf_rep pg es kvs fp -> same_on fp pg pg' -> leaf_rep pg' es kvs fp.
Proof.
  induction 1 as [|k v es key val kvs kf vf fp Hk Hv Hsz _ IH]; intros Hs; [constructor|].
  apply same_on_app in Hs as [H1 [H2 H3]%same_on_app].
  constructor; [by eapply key_frame|by eapply val_frame|by rewrite (proj1 H1)|by apply IH].
Qed.

Lemma kids_frame pg pg' m R R' page page' es ss lo hi kvs fp : page <= page' ->
  (forall c lo hi kvs fp, R c lo hi kvs fp -> same_on fp pg pg' -> R' c lo hi kvs fp) ->
  kids pg m R page es ss lo hi kvs fp -> same_on fp pg pg' -> kids pg' m R' page' es ss lo hi kvs fp.
Proof.
  intros Hp HR. induction 1; intros Hs.
  - apply same_on_app in Hs as [H1' H2']. constructor; [by eapply key_frame|done..|lia|by apply HR].
  - apply same_on_app in Hs as [H1' [H2' H3']%same_on_app].
    constructor; [by eapply key_frame|done..|lia|done|done|by apply HR|auto].
Qed.

Lemma repr_frame pg pg' m h page lo hi kvs fp : repr pg m h page lo hi kvs fp -> same_on fp pg pg' ->
  repr pg' m h page lo hi kvs fp.
Proof.
  revert page lo hi kvs fp. induction h as [|h IH]; intros page lo hi kvs fp.
  - intros (hd & es & fp' & Hp & Hsz & Hl & Hs & Hin & ->) [E Hs']%same_on_cons.
    exists hd, es, fp'. rewrite E, (proj1 Hs'). by repeat (split; [done || by eapply leaf_rep_frame|]).
  - intros (hd & es & ss & fp' & Hp & Hsz & Hk & ->) [E Hs']%same_on_cons.
    exists hd, es, ss, fp'. rewrite E, (proj1 Hs'). do 2 (split; [done|]). split; [|done].
    eapply kids_frame; [reflexivity| |done|done]. auto.
Qed.

Lemma leaf_rep_ids pg es kvs fp : leaf_rep pg es kvs fp -> Forall (fun id => is_Some (pages pg !! id)) fp.
Proof.
  induction 1; [constructor|]. rewrite !Forall_app.
  split_and!; [by eapply key_ids_in|by eapply val_ids_in|done].
Qed.

Lemma repr_ids pg m h page lo hi kvs fp : repr pg m h page lo hi kvs fp ->
  Forall (fun id => is_Some (pages pg !! id)) fp.
Proof.
  revert page lo hi kvs fp. induction h as [|h IH]; intros page lo hi kvs fp.
  - intros (hd & es & fp' & Hp & _ & Hl & _ & _ & ->). constructor; [by eauto|by eapply leaf_rep_ids].
  - intros (hd & es & ss & fp' & Hp & _ & Hk & ->). constructor; [by eauto|].
    clear Hp. induction Hk as [k c s lo hi kvs kf fp Hk _ _ _ HR|k c es s s1 ss lo hi kvs1 kvs2 kf fp1 fp2 Hk
      _ _ _ _ _ HR _ IHk]; rewrite !Forall_app; split_and!; try done; try exact (IH _ _ _ _ _ HR);
      by eapply key_ids_in.
Qed.

Lemma repr_ext pg pg' m h page lo hi kvs fp : repr pg m h page lo hi kvs fp -> ext pg pg' ->
  repr pg' m h page lo hi kvs fp.
Proof. intros Hr He. eapply repr_frame; [done|]. eapply ext_same_on; [done|by eapply repr_ids]. Qed.

(** The pages from a node down to a leaf are distinct. *)
Lemma repr_depth pg m h page lo hi kvs fp : repr pg m h page lo hi kvs fp -> (h < walk_fuel pg)%nat.
Proof.
  intros Hr. assert (exists ids, length ids = S h /\ StronglySorted (fun a b => b < a) ids /\
    Forall (fun id => id <= page) ids /\ Forall (fun id => is_Some (pages pg !! id)) ids) as (ids & Hl & Hd & _ & Hin).
  { revert page lo hi kvs fp Hr. induction h as [|h IH]; intros page lo hi kvs fp.
    - intros (hd & es & fp' & Hp & _). exists [page]. repeat constructor; eauto. lia.
    - intros (hd & es & ss & fp' & Hp & _ & Hk & ->).
      assert (exists c lo hi kvs fp, c < page /\ repr pg m h c lo hi kvs fp) as (c & ? & ? & ? & ? & Hc & Hr)
        by (destruct Hk; eauto 10).
      destruct (IH _ _ _ _ _ Hr) as (ids & Hl & Hd & Hle & Hin). exists (page :: ids).
      split; [simpl; lia|]. split; [constructor; [done|]|split; constructor; eauto; try lia];
        (eapply Forall_impl; [exact Hle|]; simpl; lia). }
  pose proof (walk_fuel_enough pg ids (desc_NoDup _ Hd) Hin). lia.
Qed.

(** * Keys of a node *)

Lemma below_trans hi a b : key_le a b -> below hi b -> below hi a.
Proof. destruct hi; [|done]. apply key_le_lt_trans. Qed.

Lemma in_node_app lo hi a b : in_node lo hi (a ++ b) <-> in_node lo hi a /\ in_node lo hi b.
Proof. apply Forall_app. Qed.
Lemma in_node_weaken lo lo' hi hi' kvs : key_le lo' lo -> (forall k, below hi k -> below hi' k) ->
  in_node lo hi kvs -> in_node lo' hi' kvs.
Proof.
  intros Hl Hh Hf. eapply Forall_impl; [exact Hf|]. intros e [H1 H2]. split; [by etrans|auto].
Qed.

Lemma leaf_rep_keys pg es kvs fp : leaf_rep pg es kvs fp -> keys_are pg es kvs.*1.
Proof. induction 1; constructor; [eauto|done]. Qed.

(** Two sorted runs either side of a separator. *)
Lemma sorted_app lo hi s (a b : list kv) : StronglySorted entry_lt a -> StronglySorted entry_lt b ->
  in_node lo (Some s) a -> in_node s hi b -> StronglySorted entry_lt (a ++ b).
Proof.
  intros Ha Hb Hia Hib. apply StronglySorted_app_2; [|done|done].
  intros x y Hx Hy. unfold in_node in *. rewrite Forall_forall in Hia, Hib.
  destruct (Hia _ Hx) as [_ H1], (Hib _ Hy) as [H2 _]. by eapply key_lt_le_trans.
Qed.

Section kids.
Context (pg : Pager) (m : mode) (page : Z) (R : Z -> list Z -> bound -> list kv -> list Z -> Prop).
Hypothesis R_in : forall c lo hi kvs fp, R c lo hi kvs fp -> StronglySorted entry_lt kvs /\ in_node lo hi kvs.
Notation kids := (kids pg m R page).

Lemma kids_keys es ss lo hi kvs fp : kids es ss lo hi kvs fp -> keys_are pg es ss.
Proof using Type. induction 1; (constructor; [eauto|]); [constructor|done]. Qed.

Lemma kids_ne es ss lo hi kvs fp : kids es ss lo hi kvs fp -> es <> [].
Proof using Type. by destruct 1. Qed.

Lemma kids_sorted es ss lo hi kvs fp : kids es ss lo hi kvs fp ->
  StronglySorted key_lt (tail ss) /\ Forall (key_lt lo) (tail ss) /\ Forall (below hi) (tail ss).
Proof using Type.
  induction 1 as [|k c es s s1 ss lo hi kvs1 kvs2 kf fp1 fp2 _ _ _ _ Hlo Hhi _ _ (IH1 & IH2 & IH3)];
    simpl in *; [by repeat constructor|].
  split_and!; constructor; try done. eapply Forall_impl; [exact IH2|]. intros x Hx. by etrans.
Qed.

Lemma kids_ordered es ss lo hi kvs fp : m <> Free -> kids es ss lo hi kvs fp -> StronglySorted key_lt ss.
Proof using Type.
  intros Hm Hk. pose proof (kids_sorted _ _ _ _ _ _ Hk) as (Hs & Hlo & _).
  assert (match ss with s :: s1 :: _ => key_lt s s1 | _ => True end) as Hhd.
  { destruct Hk as [|k c es s s1 ss lo hi kvs1 kvs2 kf fp1 fp2 _ Hh _ _ Hl _ _ _]; [done|].
    destruct m; simpl in Hh; [by eapply key_le_lt_trans|done|done]. }
  destruct ss as [|s [|s1 ss]]; simpl in *; [constructor|by repeat constructor|].
  constructor; [done|]. constructor; [done|]. apply StronglySorted_inv in Hs as [_ Hf].
  eapply Forall_impl; [exact Hf|]. intros x Hx. by etrans.
Qed.

Lemma kids_in es ss lo hi kvs fp : kids es ss lo hi kvs fp -> StronglySorted entry_lt kvs /\ in_node lo hi kvs.
Proof using R_in.
  induction 1 as [|k c es s s1 ss lo hi kvs1 kvs2 kf fp1 fp2 _ _ _ _ Hlo Hhi HR _ [IH1 IH2]]; [by eapply R_in|].
  destruct (R_in _ _ _ _ _ HR) as [H1 H2]. split; [by eapply sorted_app|].
  apply in_node_app. split.
  - eapply in_node_weaken; [reflexivity| |exact H2]. intros x Hx. by eapply below_trans; [apply key_lt_le|].
  - eapply in_node_weaken; [by apply key_lt_le| |exact IH2]. done.
Qed.
End kids.

Lemma repr_in pg m h page lo hi kvs fp : repr pg m h page lo hi kvs fp ->
  StronglySorted entry_lt kvs /\ in_node lo hi kvs.
Proof.
  revert page lo hi kvs fp. induction h as [|h IH]; intros page lo hi kvs fp.
  - by intros (hd & es & fp' & _ & _ & _ & Hs & Hin & _).
  - intros (hd & es & ss & fp' & _ & _ & Hk & _). by eapply kids_in.
Qed.

(** ** The child a key routes to *)

(** Separator positions up to [i] are at most [key], the later ones above it. *)
Definition routes (ss : list (list Z)) (i : nat) (key : list Z) : Prop := forall j k, ss !! S j = Some k ->
  ((S j <= i)%nat -> key_le k key) /\ ((i < S j)%nat -> key_lt key k).

Lemma kids_mono pg pg' m (R R' : Z -> list Z -> bound -> list kv -> list Z -> Prop) page page' es ss lo hi kvs fp :
  page <= page' -> (forall c lo hi kvs f, R c lo hi kvs f -> R' c lo hi kvs f) ->
  (forall ek k ids, key_is pg ek k ids -> key_is pg' ek k ids) ->
  kids pg m R page es ss lo hi kvs fp -> kids pg' m R' page' es ss lo hi kvs fp.
Proof. intros Hp HR Hk. induction 1; constructor; eauto; lia. Qed.

Section focus.
Context (pg : Pager) (m : mode) (page : Z) (R : Z -> list Z -> bound -> list kv -> list Z -> Prop).
Hypothesis R_in : forall c lo hi kvs fp, R c lo hi kvs fp -> StronglySorted entry_lt kvs /\ in_node lo hi kvs.

(** What replaces the child at [i]: another child, or two with a separator, in
    a pager that extends this one. *)
Definition plugs (es : InteriorEntries) (ss : list (list Z)) (lo : list Z) (hi : bound) (i : nat) (k : EntryKey.t)
    (clo : list Z) (chi : bound) (a b : list kv) (fa fb : list Z) : Prop :=
  forall pg' (R' : Z -> list Z -> bound -> list kv -> list Z -> Prop) page',
  page <= page' -> (forall c lo hi kvs f, R c lo hi kvs f -> R' c lo hi kvs f) ->
  (forall ek k ids, key_is pg ek k ids -> key_is pg' ek k ids) ->
  (forall c kc fc, u_ok 64 c -> c < page' -> R' c clo chi kc fc ->
    kids pg' m R' page' (<[i := (k, c)]> es) ss lo hi (a ++ kc ++ b) (fa ++ fc ++ fb)) /\
  (m <> Ordered -> forall l sep ek ekf r kl kr fl fr, key_is pg' ek sep ekf ->
    key_lt clo sep -> below chi sep -> u_ok 64 l -> l < page' -> u_ok 64 r -> r < page' ->
    R' l clo (Some sep) kl fl -> R' r sep chi kr fr ->
    kids pg' m R' page' (firstn i es ++ (k, l) :: (ek, r) :: skipn (S i) es)
      (firstn (S i) ss ++ sep :: skipn (S i) ss) lo hi (a ++ (kl ++ kr) ++ b) (fa ++ (fl ++ ekf ++ fr) ++ fb)).

Lemma plugs_here_last k c s lo hi kf : key_is pg k s kf -> head_ok m s lo hi ->
  plugs [(k, c)] [s] lo hi 0 k lo hi [] [] kf [].
Proof using Type.
  intros Hk Hh pg' R' page' Hp HR HK. split.
  - intros c' kc fc Hc Hlt HR'. rewrite !app_nil_r. simpl. constructor; eauto.
  - intros Hm l sep ek ekf r kl kr fl fr Hek H1 H2 Hl Hlp Hr Hrp HRl HRr. rewrite !app_nil_r. simpl.
    constructor; eauto; [by destruct m|]. constructor; eauto. by destruct m; simpl.
Qed.

Lemma plugs_here k c es s s1 ss lo hi kvs2 kf fp2 : key_is pg k s kf -> head_ok m s lo (Some s1) ->
  key_lt lo s1 -> below hi s1 -> kids pg m R page es (s1 :: ss) s1 hi kvs2 fp2 ->
  plugs ((k, c) :: es) (s :: s1 :: ss) lo hi 0 k lo (Some s1) [] kvs2 kf fp2.
Proof using Type.
  intros Hk Hh Hlo Hhi Hes pg' R' page' Hp HR HK. split.
  - intros c' kc fc Hc Hlt HR'. simpl. constructor; eauto. by eapply kids_mono.
  - intros Hm l sep ek ekf r kl kr fl fr Hek H1 H2 Hl Hlp Hr Hrp HRl HRr. simpl.
    rewrite <- !app_assoc. constructor; eauto; [by destruct m|by eapply below_trans; [apply key_lt_le|]|].
    constructor; eauto; [by destruct m; simpl|]. by eapply kids_mono.
Qed.

Lemma plugs_later k c es s s1 ss lo hi kvs1 kf fp1 i e clo chi a b fa fb : key_is pg k s kf ->
  head_ok m s lo (Some s1) -> u_ok 64 c -> c < page -> key_lt lo s1 -> below hi s1 -> R c lo (Some s1) kvs1 fp1 ->
  plugs es (s1 :: ss) s1 hi i e clo chi a b fa fb ->
  plugs ((k, c) :: es) (s :: s1 :: ss) lo hi (S i) e clo chi (kvs1 ++ a) b (kf ++ fp1 ++ fa) fb.
Proof using Type.
  intros Hk Hh Hc Hcp Hlo Hhi HRc Hpl pg' R' page' Hp HR HK. destruct (Hpl pg' R' page' Hp HR HK) as [H1 H2]. split.
  - intros c' kc fc Hc' Hlt HR'. simpl. rewrite <- !app_assoc. constructor; eauto. lia.
  - intros Hm l sep ek ekf r kl kr fl fr Hek H3 H4 Hl Hlp Hr Hrp HRl HRr.
    cbn [firstn app skipn]. rewrite <- !(app_assoc kf), <- !(app_assoc fp1), <- (app_assoc kvs1).
    constructor; eauto; [lia|]. by apply H2.
Qed.

Lemma kids_focus es ss lo hi kvs fp i e key : kids pg m R page es ss lo hi kvs fp -> es !! i = Some e ->
  routes ss i key -> key_le lo key -> below hi key ->
  exists clo chi a kc b fa fc fb, kvs = a ++ kc ++ b /\ fp = fa ++ fc ++ fb /\
    R e.2 clo chi kc fc /\ e.2 < page /\ key_le clo key /\ below chi key /\
    Forall (fun p => key_lt p.1 key) a /\ Forall (fun p => key_lt key p.1) b /\
    plugs es ss lo hi i e.1 clo chi a b fa fb.
Proof using R_in.
  intros Hk. revert i. induction Hk as [k c s lo hi kvs kf fp Hk Hh Hc Hcp HR
    |k c es s s1 ss lo hi kvs1 kvs2 kf fp1 fp2 Hk Hh Hc Hcp Hlo Hhi HR Hes IH]; intros i He Hr Hlk Hkh.
  - destruct i as [|i]; [|done]. injection He as <-.
    exists lo, hi, [], kvs, [], kf, fp, []. rewrite !app_nil_r.
    do 8 (split; [done|]). by eapply plugs_here_last.
  - destruct i as [|i].
    + injection He as <-. exists lo, (Some s1), [], kvs1, kvs2, kf, fp1, fp2.
      assert (key_lt key s1) as Hks by (apply (Hr 0%nat); [done|lia]).
      do 7 (split; [done|]). split; [|by eapply plugs_here].
      eapply Forall_impl; [apply (kids_in _ _ _ _ R_in _ _ _ _ _ _ Hes)|].
      intros p [Hp _]. by eapply key_lt_le_trans.
    + assert (key_le s1 key) as Hks by (apply (Hr 0%nat); [done|lia]).
      destruct (IH i He) as (clo & chi & a & kc & b & fa & fc & fb & -> & -> & HRc & Hcc & Hck & Hkc & Ha & Hb & Hpl);
        [|done|done|].
      { intros j x Hj. destruct (Hr (S j) x Hj). split; intros; auto with lia. }
      exists clo, chi, (kvs1 ++ a), kc, b, (kf ++ fp1 ++ fa), fc, fb. rewrite <- !app_assoc.
      do 6 (split; [done|]). split; [|split; [done|by eapply plugs_later]].
      apply Forall_app. split; [|done]. eapply Forall_impl; [apply (R_in _ _ _ _ _ HR)|].
      intros p [_ Hp]. by eapply key_lt_le_trans.
Qed.
End focus.

(** * Reading a node *)

Lemma entry_max_bound ps : page_size_ok ps -> 0 <= entry_max ps < 2 ^ 16.
Proof.
  intros [? ?]. unfold entry_max, node_budget, PAGE_HEADER_LEN. split; [apply Z.div_pos; lia|].
  apply Z.div_lt_upper_bound; lia.
Qed.

Lemma leaf_rep_entries_ok pg es kvs fp : page_size_ok (page_size pg) -> leaf_rep pg es kvs fp -> Forall leaf_entry_ok es.
Proof.
  intros Hps. induction 1 as [|k v es key val kvs kf vf fp Hk Hv Hsz _ IH]; constructor; [|done].
  split; [by eapply key_entry_ok|]. destruct v as [b|n h]; simpl in *.
  - pose proof (entry_max_bound _ Hps). unfold leaf_entry_size, key_overhead in Hsz.
    pose proof (blen_nonneg (EntryKey.stored k)). destruct k; lia.
  - destruct Hv as (Hc & _ & Hn). split; [done|by eapply chain_head_ok].
Qed.

Lemma kids_entries_ok pg m R page es ss lo hi kvs fp : page_size_ok (page_size pg) ->
  kids pg m R page es ss lo hi kvs fp -> Forall interior_entry_ok es.
Proof.
  intros Hps. induction 1; (constructor; [split; [by eapply key_entry_ok|done]|]); [constructor|done].
Qed.

Lemma read_leaf pg page hd es kvs fp : page_size_ok (page_size pg) ->
  pages pg !! page = Some (hd, node_payload (Node.Leaf es)) -> leaf_rep pg es kvs fp ->
  fault pg page ≫= parse_node = Ok (Node.Leaf es).
Proof.
  intros Hps Hp Hl. unfold fault. rewrite Hp. cbn [mbind result_bind]. apply parse_node_payload.
  by eapply leaf_rep_entries_ok.
Qed.

Lemma read_interior pg page hd es m R ss lo hi kvs fp : page_size_ok (page_size pg) ->
  pages pg !! page = Some (hd, node_payload (Node.Interior es)) -> kids pg m R page es ss lo hi kvs fp ->
  fault pg page ≫= parse_node = Ok (Node.Interior es).
Proof.
  intros Hps Hp Hl. unfold fault. rewrite Hp. cbn [mbind result_bind]. apply parse_node_payload.
  by eapply kids_entries_ok.
Qed.

(** * Lookups *)

Fixpoint kv_get (key : list Z) (kvs : list kv) : option (list Z) :=
  match kvs with
  | [] => None
  | (k, v) :: kvs => if decide (k = key) then Some v else kv_get key kvs
  end.

Lemma kv_get_skip key a b : Forall (fun p => p.1 <> key) a -> kv_get key (a ++ b) = kv_get key b.
Proof. induction 1 as [|[k v] a Hk _ IH]; [done|]. simpl in *. by rewrite decide_False. Qed.

Lemma kv_get_none key a : Forall (fun p => p.1 <> key) a -> kv_get key a = None.
Proof. intros H. rewrite <- (app_nil_r a). by rewrite kv_get_skip. Qed.

Lemma kv_get_mid key a b c : Forall (fun p => key_lt p.1 key) a -> Forall (fun p => key_lt key p.1) c ->
  kv_get key (a ++ b ++ c) = kv_get key b.
Proof.
  intros Ha Hc. rewrite kv_get_skip.
  2: { eapply Forall_impl; [exact Ha|]. intros p Hp. by apply key_lt_ne. }
  assert (kv_get key c = None) as E.
  { apply kv_get_none. eapply Forall_impl; [exact Hc|]. intros p Hp E. symmetry in E. by apply key_lt_ne in E. }
  induction b as [|[k v] b IH]; [done|]. simpl. by destruct (decide (k = key)).
Qed.

Lemma leaf_entry_get pg key es kvs fp : leaf_rep pg es kvs fp ->
  match leaf_entry key es kvs.*1 with
  | Some v => exists val, materialize pg v = Ok val /\ kv_get key kvs = Some val
  | None => kv_get key kvs = None
  end.
Proof.
  induction 1 as [|k v es kk val kvs kf vf fp Hk Hv Hsz _ IH]; [done|]. simpl.
  destruct (decide (kk = key)); [|done]. exists val. split; [by eapply materialize_spec|done].
Qed.

Lemma leaf_entry_lookup key es ks i : length es = length ks -> StronglySorted key_lt ks -> ks !! i = Some key ->
  exists e, es !! i = Some e /\ leaf_entry key es ks = Some e.2.
Proof.
  revert es i. induction ks as [|k ks IH]; intros [|[ek ev] es] i Hl Hs Hi; try done.
  apply StronglySorted_inv in Hs as [Hs Hf]. destruct i as [|i]; simpl in *.
  - injection Hi as ->. rewrite decide_True by done. by eexists.
  - rewrite decide_False.
    + apply IH; [lia|done|done].
    + intros ->. rewrite Forall_forall in Hf. apply (key_lt_irrefl key), Hf. by eapply list_elem_of_lookup_2.
Qed.

Lemma leaf_entry_none key es ks : (forall j k, ks !! j = Some k -> k <> key) -> leaf_entry key es ks = None.
Proof.
  revert es. induction ks as [|k ks IH]; intros [|[ek ev] es] Hne; try done. simpl.
  rewrite decide_False by by apply (Hne 0%nat). apply IH. intros j. apply (Hne (S j)).
Qed.

Lemma get_leaf_spec pg key es kvs fp : page_size_ok (page_size pg) -> leaf_rep pg es kvs fp ->
  StronglySorted entry_lt kvs ->
  get_leaf pg key (node_payload (Node.Leaf es)) (flat_map (fun e => leaf_entry_bytes e.1 e.2) es) = Ok (kv_get key kvs).
Proof.
  intros Hps Hl Hs. pose proof (leaf_rep_entries_ok _ _ _ _ Hps Hl) as Hok.
  pose proof (leaf_rep_keys _ _ _ _ Hl) as Hk. apply sorted_fst in Hs.
  pose proof (leaf_entry_get pg key _ _ _ Hl) as Hg.
  unfold get_leaf. rewrite raw_leaf_find_spec by done. cbn [from_option mbind result_bind].
  destruct (leaf_find_spec pg key es kvs.*1 Hk Hs) as [->| ->].
  - unfold parse_leaf. rewrite parse_node_payload by done. cbn [mbind result_bind].
    destruct (search_leaf_spec pg key es kvs.*1 Hk Hs) as (r & -> & Hr). cbn [mbind result_bind].
    destruct r as [i|i].
    + destruct (leaf_entry_lookup key es kvs.*1 i (Forall2_length _ _ _ Hk) Hs Hr) as ([ek ev] & -> & E).
      rewrite E in Hg. cbn [snd] in Hg. destruct Hg as (val & -> & ->). done.
    + rewrite leaf_entry_none in Hg; [by rewrite Hg|]. intros j k Hj ->.
      destruct Hr as [_ Hr]. destruct (Hr j key Hj) as [H1 H2].
      apply (key_lt_irrefl key). destruct (decide (j < i)%nat); [auto|apply H2; lia].
  - destruct (leaf_entry key es kvs.*1) as [v|]; [|by rewrite Hg].
    destruct Hg as (val & Hv & ->). destruct v as [b|n h]; cbn [raw_value].
    + by injection Hv as ->.
    + by rewrite Hv.
Qed.

Lemma get_loop_spec pg m key : page_size_ok (page_size pg) -> m <> Free -> forall h fuel page lo hi kvs fp,
  repr pg m h page lo hi kvs fp -> key_le lo key -> below hi key -> (h < fuel)%nat ->
  get_loop fuel pg page key = Ok (kv_get key kvs).
Proof.
  intros Hps Hm h. induction h as [|h IH]; intros [|fuel] page lo hi kvs fp Hr Hlo Hhi Hf; try lia.
  - destruct Hr as (hd & es & fp' & Hp & _ & Hl & Hs & _ & ->). cbn [get_loop]. unfold fault. rewrite Hp.
    cbn [mbind result_bind node_payload]. change (NODE_LEAF =? NODE_INTERIOR) with false.
    change (NODE_LEAF =? NODE_LEAF) with true. cbv iota. by eapply get_leaf_spec.
  - destruct Hr as (hd & es & ss & fp' & Hp & _ & Hk & ->). cbn [get_loop].
    pose proof (kids_entries_ok _ _ _ _ _ _ _ _ _ _ Hps Hk) as Hok.
    pose proof (kids_keys _ _ _ _ _ _ _ _ _ _ Hk) as Hks. pose proof (kids_ne _ _ _ _ _ _ _ _ _ _ Hk) as Hne.
    pose proof (kids_ordered _ _ _ _ _ _ _ _ _ _ Hm Hk) as Hss.
    assert (exists i e, get_route pg key (node_payload (Node.Interior es))
      (flat_map (fun e => interior_entry_bytes e.1 e.2) es) = Ok e.2 /\ es !! i = Some e /\ routes ss i key)
      as (i & e & Hroute & He & Hri).
    { unfold get_route. rewrite raw_interior_route_spec by done.
      destruct (interior_route_spec pg key es ss Hks Hss Hne) as [->|(i & e & -> & He & Hi)];
        [|by exists i, e].
      cbn [from_option mbind result_bind]. unfold parse_interior. rewrite parse_node_payload by done.
      cbn [mbind result_bind].
      destruct (route_index_spec pg key es ss Hks (proj1 (kids_sorted _ _ _ _ _ _ _ _ _ _ Hk)) Hne)
        as (i & -> & Hi & Hri).
      destruct (lookup_lt_is_Some_2 es i Hi) as [e He]. exists i, e. split; [|done].
      cbn [mbind result_bind]. unfold child_at. rewrite He. by destruct e. }
    unfold fault. rewrite Hp. cbn [mbind result_bind node_payload].
    change (NODE_INTERIOR =? NODE_INTERIOR) with true. cbv iota.
    cbn [node_payload] in Hroute. rewrite Hroute. cbn [mbind result_bind].
    destruct (kids_focus pg m page (repr pg m h) (fun _ _ _ _ _ => repr_in _ _ _ _ _ _ _ _) _ _ _ _ _ _ _ _ _
      Hk He Hri Hlo Hhi) as (clo & chi & a & kc & b & fa & fc & fb & -> & _ & HR & _ & H1 & H2 & Ha & Hb & _).
    rewrite (IH fuel _ _ _ _ _ HR H1 H2) by lia. by rewrite kv_get_mid.
Qed.

(** * Scans *)

Definition scan_keeps (start : list Z) (end_ : bound) (p : kv) : Prop := key_le start p.1 /\ below end_ p.1.
#[global] Instance below_dec hi k : Decision (below hi k).
Proof. unfold below. destruct hi; apply _. Defined.
#[global] Instance scan_keeps_dec start end_ p : Decision (scan_keeps start end_ p).
Proof. unfold scan_keeps. apply _. Defined.

(** The visitor run on entries in order until it says to stop. *)
Fixpoint visit_while {S} (f : list Z -> list Z -> SM S TreeError bool) (kvs : list kv) : SM S TreeError bool :=
  match kvs with
  | [] => mret true
  | (k, v) :: kvs => f k v ≫= fun go => if (go : bool) then visit_while f kvs else mret false
  end.

Section scans.
Context {S : Type} (f : list Z -> list Z -> SM S TreeError bool) (pg : Pager) (start : list Z) (end_ : bound).
Hypothesis ps_ok : page_size_ok (page_size pg).
Notation keeps := (scan_keeps start end_).

Lemma visit_while_app a b s :
  visit_while f (a ++ b) s = (visit_while f a ≫= fun go => if (go : bool) then visit_while f b else mret false) s.
Proof using Type.
  revert s. induction a as [|[k v] a IH]; intros s; [done|]. simpl. unfold mbind, sm_bind in *.
  destruct (f k v s) as [[[|]|] s']; [|done|done]. rewrite IH. done.
Qed.

Lemma filter_past l k : StronglySorted entry_lt l -> Forall (fun p => key_le k p.1) l -> ~ below end_ k ->
  filter keeps l = [].
Proof using Type.
  intros _ Hf Hb. induction Hf as [|p l Hp _ IH]; [done|]. rewrite filter_cons_False; [done|].
  intros [_ H]. apply Hb. by eapply below_trans.
Qed.

Lemma filter_before l : Forall (fun p => key_lt p.1 start) l -> filter keeps l = [].
Proof using Type.
  induction 1 as [|p l Hp _ IH]; [done|]. rewrite filter_cons_False; [done|].
  intros [H _]. apply (key_lt_irrefl start). by eapply key_le_lt_trans.
Qed.

Lemma past_end_spec ek k ids : key_is pg ek k ids -> past_end pg end_ ek = Ok (bool_decide (~ below end_ k)).
Proof using Type.
  intros Hk. unfold past_end. destruct end_ as [e|].
  2: done.
  rewrite (cmp_probe_spec _ _ _ _ _ Hk). cbn [mbind result_bind]. f_equal.
  pose proof (lex_compare_Gt e k) as HG. destruct (lex_compare e k); symmetry;
    [apply bool_decide_eq_true; intros H; apply HG in H; congruence..|].
  apply bool_decide_eq_false. intros Hn. by apply Hn, HG.
Qed.

Lemma scan_leaf_spec es kvs fp : leaf_rep pg es kvs fp -> StronglySorted entry_lt kvs -> forall s,
  scan_leaf f pg start end_ es s = visit_while f (filter keeps kvs) s.
Proof using Type.
  induction 1 as [|k v es key val kvs kf vf fp Hk Hv Hsz _ IH]; intros Hs s; [done|].
  pose proof Hs as Hss. apply StronglySorted_inv in Hs as [Hs Hf]. cbn [scan_leaf].
  unfold mbind at 1, sm_bind at 1, sm_lift at 1. rewrite (cmp_probe_spec _ _ _ _ _ Hk).
  destruct (decide (key_lt key start)) as [Hlt|Hge].
  - rewrite (proj2 (lex_compare_Gt start key) Hlt). rewrite filter_cons_False; [by apply IH|].
    intros [H _]. apply (key_lt_irrefl start). by eapply key_le_lt_trans.
  - apply key_not_lt in Hge.
    transitivity ((sm_lift (past_end pg end_ k) ≫= fun past : bool => if past then mret true
      else sm_lift (full_key pg k) ≫= fun key => sm_lift (materialize pg v) ≫= fun value =>
        f key value ≫= fun go : bool => if go then scan_leaf f pg start end_ es else mret false) s).
    { unfold key_le in Hge. simpl in Hge. by destruct (lex_compare start key). }
    unfold mbind at 1, sm_bind at 1, sm_lift at 1. rewrite (past_end_spec _ _ _ Hk). case_bool_decide as Hb.
    + rewrite (filter_past ((key, val) :: kvs) key); [done|done| |done].
      constructor; [reflexivity|]. eapply Forall_impl; [exact Hf|]. intros p Hp. by apply key_lt_le.
    + rewrite filter_cons_True by done.
      unfold mbind, sm_bind, sm_lift. rewrite (full_key_spec _ _ _ _ Hk), (materialize_spec _ _ _ _ Hv).
      cbn [visit_while]. unfold mbind, sm_bind. destruct (f key val s) as [[[|]|] s']; [|done|done]. by apply IH.
Qed.

Lemma scan_children_spec m page R (child : Z -> SM S TreeError bool) :
  (forall c lo hi kvs fp, R c lo hi kvs fp -> StronglySorted entry_lt kvs /\ in_node lo hi kvs) ->
  (forall c lo hi kvs fp, R c lo hi kvs fp -> forall s, child c s = visit_while f (filter keeps kvs) s) ->
  forall es ss lo hi kvs fp, kids pg m R page es ss lo hi kvs fp -> forall first s,
  (first = false -> head ss = Some lo) ->
  scan_children pg end_ child first es s = visit_while f (filter keeps kvs) s.
Proof using Type.
  intros R_in Hchild es ss lo hi kvs fp Hk.
  assert (forall k s kf lo hi kvs first st (go : SM S TreeError bool), key_is pg k s kf ->
    StronglySorted entry_lt kvs /\ in_node lo hi kvs -> (first = false -> Some s = Some lo) ->
    go st = visit_while f (filter keeps kvs) st ->
    ((if first then mret false else sm_lift (past_end pg end_ k)) ≫= fun past : bool =>
      if past then mret true else go) st = visit_while f (filter keeps kvs) st) as Hstep.
  { clear. intros k s kf lo hi kvs first st go Hk [Hs Hin] Hfirst Hgo. unfold mbind, sm_bind, sm_lift, mret, sm_ret.
    destruct first; [done|]. rewrite (past_end_spec _ _ _ Hk). case_bool_decide as Hb; [|done].
    rewrite (filter_past kvs s); [done|done| |done]. injection Hfirst as ->; [|done].
    eapply Forall_impl; [exact Hin|]. by intros p [? _]. }
  induction Hk as [k c s0 lo hi kvs kf fp Hk Hh Hc Hcp HR
    |k c es s0 s1 ss lo hi kvs1 kvs2 kf fp1 fp2 Hk Hh Hc Hcp Hlo Hhi HR Hes IH]; intros first s Hfirst; cbn [scan_children].
  - eapply Hstep; [done|by eapply R_in|done|]. unfold mbind, sm_bind. rewrite (Hchild _ _ _ _ _ HR).
    destruct (visit_while f (filter keeps kvs) s) as [[[|]|] s']; done.
  - eapply Hstep; [done|by eapply (kids_in pg m page R R_in); econstructor|done|].
    rewrite filter_app, visit_while_app. unfold mbind, sm_bind. rewrite (Hchild _ _ _ _ _ HR).
    destruct (visit_while f (filter keeps kvs1) s) as [[[|]|] s']; [|done|done]. by apply IH.
Qed.

Lemma kids_skip m page R i key :
  (forall c lo hi kvs fp, R c lo hi kvs fp -> StronglySorted entry_lt kvs /\ in_node lo hi kvs) ->
  forall es ss lo hi kvs fp, kids pg m R page es ss lo hi kvs fp -> (i < length es)%nat -> routes ss i key ->
  exists lo' a kvs' fp', kvs = a ++ kvs' /\ Forall (fun p => key_lt p.1 key) a /\
    kids pg m R page (skipn i es) (skipn i ss) lo' hi kvs' fp'.
Proof using Type.
  intros R_in es ss lo hi kvs fp Hk. revert i.
  induction Hk as [k c s lo hi kvs kf fp Hk Hh Hc Hcp HR
    |k c es s s1 ss lo hi kvs1 kvs2 kf fp1 fp2 Hk Hh Hc Hcp Hlo Hhi HR Hes IH]; intros i Hi Hr.
  - destruct i; [|simpl in Hi; lia]. exists lo, [], kvs, (kf ++ fp). split; [done|]. split; [done|]. by constructor.
  - destruct i as [|i].
    + exists lo, [], (kvs1 ++ kvs2), (kf ++ fp1 ++ fp2). split; [done|]. split; [done|]. by constructor.
    + destruct (IH i) as (lo' & a & kvs' & fp' & -> & Ha & Hk'); [simpl in Hi; lia| |].
      { intros j x Hj. destruct (Hr (Datatypes.S j) x Hj). split; intros; auto with lia. }
      exists lo', (kvs1 ++ a), kvs', fp'. rewrite app_assoc. split; [done|]. split; [|done].
      apply Forall_app. split; [|done]. assert (key_le s1 key) by (apply (Hr 0%nat); [done|lia]).
      eapply Forall_impl; [apply (R_in _ _ _ _ _ HR)|]. intros p [_ Hp]. by eapply key_lt_le_trans.
Qed.

Lemma scan_node_spec m : forall h fuel page lo hi kvs fp, repr pg m h page lo hi kvs fp -> (h < fuel)%nat ->
  forall s, scan_node f pg start end_ fuel page s = visit_while f (filter keeps kvs) s.
Proof using ps_ok.
  intros h. induction h as [|h IH]; intros [|fuel] page lo hi kvs fp Hr Hf s; try lia.
  - destruct Hr as (hd & es & fp' & Hp & _ & Hl & Hs & _ & ->). cbn [scan_node].
    unfold mbind at 1, sm_bind at 1, sm_lift at 1. rewrite (read_leaf _ _ _ _ _ _ ps_ok Hp Hl).
    by eapply scan_leaf_spec.
  - destruct Hr as (hd & es & ss & fp' & Hp & _ & Hk & ->). cbn [scan_node].
    unfold mbind at 1, sm_bind at 1, sm_lift at 1. rewrite (read_interior _ _ _ _ _ _ _ _ _ _ _ ps_ok Hp Hk).
    destruct (route_index_spec pg start es ss (kids_keys _ _ _ _ _ _ _ _ _ _ Hk)
      (proj1 (kids_sorted _ _ _ _ _ _ _ _ _ _ Hk)) (kids_ne _ _ _ _ _ _ _ _ _ _ Hk)) as (i & Ei & Hi & Hri).
    unfold mbind at 1, sm_bind at 1, sm_lift at 1. rewrite Ei.
    assert (forall c lo hi kvs fp, repr pg m h c lo hi kvs fp -> StronglySorted entry_lt kvs /\ in_node lo hi kvs)
      as R_in by (intros; by eapply repr_in).
    destruct (kids_skip m page _ i start R_in _ _ _ _ _ _ Hk Hi Hri) as (lo' & a & kvs' & fq & -> & Ha & Hk').
    rewrite filter_app, filter_before by done. cbn [app].
    eapply scan_children_spec; [exact R_in| |exact Hk'|done].
    intros c lo1 hi1 kvs1 fp1 Hc s1. eapply IH; [exact Hc|lia].
Qed.
End scans.
