(* ===== verification/PagedTreeWrite.v ===== *)
(** The write path of the paged tree: chains, nodes, splits, and the
    copy-on-write insert and delete.

    Every operation is stated with [runs]: provided the page-id counter does not
    pass [2^64], it succeeds, and its result and final pager satisfy a
    postcondition. Page accounting is exact: the pages a write allocates are
    [alloc], and old footprint and allocations together are new footprint and
    superseded pages together. *)

From stdpp Require Import base list list_numbers gmap sorting.
From Stdlib Require Import ZArith Lia.
From S2P Require Import Prelude PageFormat PagedTree PagedTreeNode PagedTreeRep.

(** * Successful runs *)

Definition mono {S A} (cnt : S -> Z) (m : SM S TreeError A) : Prop := forall s, cnt s <= cnt (m s).2.

Definition runs {S A} (cnt : S -> Z) (m : SM S TreeError A) (s : S) (Q : A -> S -> Prop) : Prop :=
  cnt (m s).2 <= 2 ^ 64 -> exists a s', m s = (Ok a, s') /\ Q a s'.

Section runs.
Context {S : Type} (cnt : S -> Z).

Lemma mono_ret {A} (a : A) : mono cnt (mret a).
Proof. intros s. simpl. lia. Qed.
Lemma mono_fail {A} e : mono cnt (sm_fail e : SM S TreeError A).
Proof. intros s. simpl. lia. Qed.
Lemma mono_lift {A} (r : result TreeError A) : mono cnt (sm_lift r).
Proof. intros s. simpl. lia. Qed.
Lemma mono_bind {A B} (m : SM S TreeError A) (k : A -> SM S TreeError B) :
  mono cnt m -> (forall a, mono cnt (k a)) -> mono cnt (m ≫= k).
Proof.
  intros Hm Hk s. unfold mbind, sm_bind. specialize (Hm s).
  destruct (m s) as [[a|e] s']; simpl in *; [|done]. specialize (Hk a s'). lia.
Qed.

Lemma runs_ret {A} (a : A) s (Q : A -> S -> Prop) : Q a s -> runs cnt (mret a) s Q.
Proof. intros HQ _. by exists a, s. Qed.
Lemma runs_eq {A} (m : SM S TreeError A) s a s' (Q : A -> S -> Prop) : m s = (Ok a, s') -> Q a s' -> runs cnt m s Q.
Proof. intros E HQ _. by exists a, s'. Qed.
Lemma runs_ext {A} (m m' : SM S TreeError A) s (Q : A -> S -> Prop) : m s = m' s -> runs cnt m' s Q -> runs cnt m s Q.
Proof. unfold runs. by intros ->. Qed.
Lemma runs_lift {A B} (r : result TreeError A) a (k : A -> SM S TreeError B) s (Q : B -> S -> Prop) :
  r = Ok a -> runs cnt (k a) s Q -> runs cnt (sm_lift r ≫= k) s Q.
Proof. by intros ->. Qed.
Lemma runs_step {A B} (m : SM S TreeError A) a (k : A -> SM S TreeError B) s s' (Q : B -> S -> Prop) :
  m s = (Ok a, s') -> runs cnt (k a) s' Q -> runs cnt (m ≫= k) s Q.
Proof. intros E. unfold runs, mbind, sm_bind. by rewrite E. Qed.
Lemma runs_weaken {A} (m : SM S TreeError A) s (P Q : A -> S -> Prop) :
  (forall a s', P a s' -> Q a s') -> runs cnt m s P -> runs cnt m s Q.
Proof. intros HPQ Hr Hc. destruct (Hr Hc) as (a & s' & E & HP). eauto. Qed.
Lemma runs_bind {A B} (m : SM S TreeError A) (k : A -> SM S TreeError B) s (P : A -> S -> Prop) (Q : B -> S -> Prop) :
  runs cnt m s P -> (forall a, mono cnt (k a)) -> (forall a s', P a s' -> runs cnt (k a) s' Q) ->
  runs cnt (m ≫= k) s Q.
Proof.
  intros Hm Hmono Hk Hc. unfold mbind, sm_bind in *. unfold runs in Hm.
  destruct (m s) as [[a|e] s'] eqn:E; simpl in *.
  - specialize (Hmono a s'). destruct (Hm ltac:(lia)) as (a' & s'' & E' & HP). simplify_eq. by apply Hk.
  - by destruct (Hm Hc) as (a' & s'' & E' & HP).
Qed.
End runs.

Create HintDb mono.
#[export] Hint Resolve mono_ret mono_fail mono_lift mono_bind : mono.

Notation PMmono := (mono next_page_id).
Notation PMruns := (runs next_page_id).

(** * Page accounting *)

(** Permutations of concatenations, by counting. *)
Ltac perm_solve :=
  repeat match goal with
  | H : Permutation (A := Z) _ _ |- _ => rewrite (Permutation_count_occ Z.eq_dec) in H
  end;
  rewrite ?(Permutation_count_occ Z.eq_dec);
  let x := fresh "x" in intros x;
  repeat match goal with H : forall y : Z, count_occ _ _ y = _ |- _ => specialize (H x) end;
  repeat progress (rewrite ?count_occ_app in *; cbn [count_occ app] in *);
  repeat match goal with |- context [Z.eq_dec ?a x] => destruct (Z.eq_dec a x) end; lia.

Definition pager_ok (pg : Pager) : Prop := page_size_ok (page_size pg) /\ 0 < next_page_id pg /\
  forall id, is_Some (pages pg !! id) -> 0 < id < next_page_id pg.

(** [pg'] is [pg] after allocations: every new page id holds a page. *)
Record grow (pg pg' : Pager) : Prop := {
  grow_ext : ext pg pg';
  grow_ok : pager_ok pg';
  grow_next : next_page_id pg <= next_page_id pg';
  grow_dom : forall id, is_Some (pages pg' !! id) <->
    is_Some (pages pg !! id) \/ next_page_id pg <= id < next_page_id pg';
}.

Definition alloc (pg pg' : Pager) : list Z := seqZ (next_page_id pg) (next_page_id pg' - next_page_id pg).

Lemma grow_refl pg : pager_ok pg -> grow pg pg.
Proof. intros Hok. split; [reflexivity|done|lia|]. intros id. split; [by left|]. intros [?|?]; [done|lia]. Qed.

Lemma grow_trans a b c : grow a b -> grow b c -> grow a c.
Proof.
  intros [E1 _ N1 D1] [E2 O2 N2 D2]. split; [by etrans|done|lia|].
  intros id. rewrite D2, D1. split; [intros [[?|?]|?]|intros [?|?]]; auto with lia.
Qed.

Lemma alloc_refl pg : alloc pg pg = [].
Proof. unfold alloc. by rewrite Z.sub_diag. Qed.

Lemma alloc_trans a b c : grow a b -> grow b c -> alloc a c = alloc a b ++ alloc b c.
Proof.
  intros [_ _ N1 _] [_ _ N2 _]. unfold alloc.
  replace (next_page_id c - next_page_id a) with ((next_page_id b - next_page_id a) + (next_page_id c - next_page_id b)) by lia.
  rewrite seqZ_app by lia. do 2 f_equal. lia.
Qed.

Lemma mono_allocate : PMmono allocate_page_id.
Proof. intros pg. simpl. lia. Qed.
Lemma mono_install id h pl : PMmono (install id h pl).
Proof. intros pg. unfold install. destruct (blen pl <? 2 ^ 32); simpl; lia. Qed.
#[export] Hint Resolve mono_allocate mono_install : mono.

Definition with_page (pg : Pager) (h : PageHeader) (pl : list Z) : Pager := {|
  page_size := page_size pg; pages := <[next_page_id pg := (h, pl)]> (pages pg); next_page_id := next_page_id pg + 1 |}.

Lemma grow_page pg h pl : pager_ok pg -> grow pg (with_page pg h pl) /\ alloc pg (with_page pg h pl) = [next_page_id pg].
Proof.
  intros (Hps & Hn & Hdom). assert (pages pg !! next_page_id pg = None) as Hnone.
  { apply eq_None_not_Some. intros H%Hdom. lia. }
  split; [split|].
  - split; [done|]. by apply insert_subseteq.
  - split; [done|]. split; [simpl; lia|]. intros id. simpl. rewrite lookup_insert_is_Some.
    intros [<-|[_ ?%Hdom]]; simpl; lia.
  - simpl. lia.
  - intros id. simpl. rewrite lookup_insert_is_Some. split.
    + intros [<-|[_ ?]]; [right; lia|by left].
    + intros [?|?]; [|left; lia]. right. split; [|done]. intros <-. by rewrite Hnone in *.
  - unfold alloc. simpl. by replace (next_page_id pg + 1 - next_page_id pg) with 1 by lia.
Qed.

(** Allocate a page id and install a payload there. *)
Lemma new_page_spec {A} pg mk (k : Z -> PM A) Q : pager_ok pg ->
  (forall id, blen (mk id).2 < 2 ^ 32) -> (forall id, PMmono (k id)) ->
  (next_page_id pg < 2 ^ 64 -> PMruns (k (next_page_id pg)) (with_page pg (mk (next_page_id pg)).1 (mk (next_page_id pg)).2) Q) ->
  PMruns (allocate_page_id ≫= fun id => install id (mk id).1 (mk id).2 ≫= fun _ => k id) pg Q.
Proof.
  intros (_ & Hn & _) Hlen Hk Hrun Hc. unfold mbind, sm_bind, allocate_page_id, install in *.
  rewrite (proj2 (Z.ltb_lt _ _) (Hlen _)) in *. simpl in *.
  set (pg1 := {| page_size := page_size pg; pages := _; next_page_id := next_page_id pg + 1 |}) in *.
  pose proof (Hk (cast_unsigned 64 (next_page_id pg)) pg1) as Hm. unfold mono in Hm. simpl in Hm.
  assert (cast_unsigned 64 (next_page_id pg) = next_page_id pg) as E by (apply Z.mod_small; lia).
  assert (pg1 = with_page pg (mk (next_page_id pg)).1 (mk (next_page_id pg)).2) as E1
    by (subst pg1; by rewrite E).
  clearbody pg1. subst pg1. rewrite E in *. apply Hrun; [lia|done].
Qed.

(** * Chains, keys and values *)

Lemma chunks_spec n fuel bytes : (0 < n)%nat -> (length bytes <= fuel)%nat ->
  concat (chunks fuel n bytes) = bytes /\ Forall (fun c => (length c <= n)%nat) (chunks fuel n bytes).
Proof.
  intros Hn. revert bytes. induction fuel as [|fuel IH]; intros [|b bytes] Hl; try by split.
  - simpl in Hl. lia.
  - cbn [chunks concat]. destruct (IH (skipn n (b :: bytes))) as [E Hf].
    { rewrite length_skipn. simpl in *. lia. }
    split; [by rewrite E, take_drop|]. constructor; [|done]. rewrite length_firstn. lia.
Qed.

Lemma mono_store_parts t parts : forall next, PMmono (store_parts t parts next).
Proof. induction parts; intros next; simpl; auto 6 with mono. Qed.
Lemma mono_store_chain t bytes : PMmono (store_chain t bytes).
Proof. intros pg. apply mono_store_parts. Qed.
#[export] Hint Resolve mono_store_parts mono_store_chain : mono.

Lemma chain_head_below pg ids head bs : pager_ok pg -> chain_at pg ids head bs -> head < next_page_id pg.
Proof. intros (_ & Hn & Hd). destruct 1; [done|]. apply Hd. by eexists. Qed.

Lemma chain_grow pg pg' ids head bs : grow pg pg' -> chain_at pg ids head bs -> chain_at pg' ids head bs.
Proof. intros G Hc. eapply chain_frame; [done|]. eapply ext_same_on; [apply G|by eapply chain_ids_in]. Qed.

Lemma store_parts_spec t parts : forall pg next ids bs, pager_ok pg ->
  Forall (fun part => blen part < 2 ^ 31) parts -> chain_at pg ids next bs ->
  PMruns (store_parts t parts next) pg (fun head pg' => grow pg pg' /\ exists new,
    chain_at pg' (new ++ ids) head (concat (reverse parts) ++ bs) /\ new ≡ₚ alloc pg pg').
Proof.
  induction parts as [|part parts IH]; intros pg next ids bs Hok Hf Hc.
  - apply runs_ret. split; [by apply grow_refl|]. exists []. by rewrite alloc_refl.
  - apply Forall_cons in Hf as [Hp Hf]. cbn [store_parts].
    apply (new_page_spec pg (fun id => (PageHeader_new id (table_id t) 0 FLAG_OVERFLOW, le_bytes 8 next ++ part))
      (fun id => store_parts t parts id)); [done|intros id|auto with mono|].
    { cbn [fst snd]. rewrite blen_app, blen_le_bytes. lia. }
    cbn [fst snd]. intros Hlt. set (pg1 := with_page pg _ _).
    destruct (grow_page pg (PageHeader_new (next_page_id pg) (table_id t) 0 FLAG_OVERFLOW) (le_bytes 8 next ++ part) Hok)
      as [G1 A1]. fold pg1 in G1, A1.
    pose proof (chain_head_below _ _ _ _ Hok Hc) as Hh. destruct Hok as (_ & Hn & _).
    eapply runs_weaken; [|apply (IH pg1 (next_page_id pg) (next_page_id pg :: ids) (part ++ bs) (grow_ok _ _ G1) Hf)].
    + intros head pg' [G2 (new & Hch & Hnew)]. split; [by eapply grow_trans|].
      exists (new ++ [next_page_id pg]). rewrite <- app_assoc. split.
      * rewrite reverse_cons, concat_app. simpl. rewrite app_nil_r, <- app_assoc. exact Hch.
      * rewrite (alloc_trans pg pg1 pg'), A1 by done. rewrite Hnew. simpl. by rewrite <- Permutation_cons_append.
    + econstructor; [apply lookup_insert_eq|done|unfold u_ok; lia|]. by eapply chain_grow.
Qed.

Lemma store_chain_spec t bytes pg : pager_ok pg -> PMruns (store_chain t bytes) pg (fun head pg' =>
  grow pg pg' /\ exists ids, chain_at pg' ids head bytes /\ ids ≡ₚ alloc pg pg').
Proof.
  intros Hok. pose proof Hok as ([Hps1 Hps2] & _). unfold store_chain.
  assert (0 < overflow_chunk (page_size pg) < 2 ^ 31) as Hch by (unfold overflow_chunk, PAGE_HEADER_LEN; lia).
  destruct (chunks_spec (Z.to_nat (overflow_chunk (page_size pg))) (length bytes) bytes) as [E Hf]; [lia|lia|].
  intros Hc. eapply (runs_weaken next_page_id _ pg); [|apply store_parts_spec; [done| |constructor]|exact Hc].
  - intros head pg' [G (new & Hch' & Hp)]. split; [done|]. exists new.
    rewrite reverse_involutive, E, !app_nil_r in Hch'. done.
  - apply Forall_reverse. eapply Forall_impl; [exact Hf|]. unfold blen. simpl. intros c Hl. lia.
Qed.

Lemma key_grow pg pg' ek k ids : grow pg pg' -> key_is pg ek k ids -> key_is pg' ek k ids.
Proof. intros G Hc. eapply key_frame; [done|]. eapply ext_same_on; [apply G|by eapply key_ids_in]. Qed.
Lemma leaf_rep_grow pg pg' es kvs fp : grow pg pg' -> leaf_rep pg es kvs fp -> leaf_rep pg' es kvs fp.
Proof. intros G Hc. eapply leaf_rep_frame; [done|]. eapply ext_same_on; [apply G|by eapply leaf_rep_ids]. Qed.
Lemma repr_grow pg pg' m h page lo hi kvs fp : grow pg pg' -> repr pg m h page lo hi kvs fp ->
  repr pg' m h page lo hi kvs fp.
Proof. intros G Hc. eapply repr_ext; [done|apply G]. Qed.

Lemma mono_make_key t key : PMmono (make_key t key).
Proof.
  intros pg. unfold make_key. destruct (blen key <=? max_inline_key (page_size pg)); [simpl; lia|].
  apply mono_bind; auto with mono.
Qed.
Lemma mono_store_value t k value : PMmono (store_value t k value).
Proof.
  intros pg. unfold store_value. destruct (leaf_entry_size k (LeafValue.Inline value) <=? _); [simpl; lia|].
  apply mono_bind; auto with mono.
Qed.
#[export] Hint Resolve mono_make_key mono_store_value : mono.

Lemma make_key_spec t key pg : pager_ok pg -> blen key < 2 ^ 32 -> PMruns (make_key t key) pg (fun ek pg' =>
  grow pg pg' /\ exists ids, key_is pg' ek key ids /\ ids ≡ₚ alloc pg pg').
Proof.
  intros Hok Hlen. pose proof Hok as ([Hps1 Hps2] & _). pose proof (blen_nonneg key).
  unfold runs, make_key. destruct (Z.leb_spec (blen key) (max_inline_key (page_size pg))) as [Hle|Hgt].
  - intros _. exists (EntryKey.Inline key), pg. split; [done|]. split; [by apply grow_refl|].
    exists []. rewrite alloc_refl. done.
  - fold (runs next_page_id (store_chain t key ≫= fun head =>
      mret (EntryKey.Overflow (firstn (Z.to_nat (max_inline_key (page_size pg))) key) (cast_unsigned 32 (blen key)) head)) pg
      (fun ek pg' => grow pg pg' /\ exists ids, key_is pg' ek key ids /\ ids ≡ₚ alloc pg pg')).
    eapply runs_bind; [by apply store_chain_spec|auto with mono|].
    intros head pg' [G (ids & Hc & Hp)]. apply runs_ret. split; [done|]. exists ids. split; [|done].
    assert (cast_unsigned 32 (blen key) = blen key) as -> by (apply Z.mod_small; lia).
    assert (0 <= max_inline_key (page_size pg)) by (unfold max_inline_key, node_budget, PAGE_HEADER_LEN; apply Z.div_pos; lia).
    simpl. rewrite (proj1 (grow_ext _ _ G)). split_and!; [done|done|split; lia|..].
    + unfold blen in *. rewrite length_firstn. lia.
    + exists (skipn (Z.to_nat (max_inline_key (page_size pg))) key). split; [by rewrite take_drop|].
      intros E. apply (f_equal length) in E. rewrite length_skipn in E. unfold blen in *. simpl in E. lia.
Qed.

Lemma budget_thirds ps : page_size_ok ps -> let b := node_budget ps in
  b / 4 <= entry_max ps /\ b / 8 + 31 <= entry_max ps /\ 3 * entry_max ps <= b.
Proof.
  intros [? ?]. unfold entry_max, node_budget, PAGE_HEADER_LEN. cbv zeta.
  set (b := ps - 32 - 1). assert (223 <= b) by lia.
  pose proof (Z.div_mod b 3). pose proof (Z.div_mod b 4). pose proof (Z.div_mod b 8).
  pose proof (Z.mod_pos_bound b 3). pose proof (Z.mod_pos_bound b 4). pose proof (Z.mod_pos_bound b 8). lia.
Qed.

Lemma store_value_spec t k key kf value pg : pager_ok pg -> key_is pg k key kf -> blen value < 2 ^ 64 ->
  PMruns (store_value t k value) pg (fun v pg' => grow pg pg' /\
    leaf_entry_size k v <= entry_max (page_size pg) /\ exists ids, val_is pg' v value ids /\ ids ≡ₚ alloc pg pg').
Proof.
  intros Hok Hk Hlen. pose proof Hok as (Hps & _). pose proof (budget_thirds _ Hps) as (B1 & B2 & _).
  pose proof (key_stored_le _ _ _ _ Hk) as Hst. pose proof (blen_nonneg value).
  unfold runs, store_value.
  destruct (Z.leb_spec (leaf_entry_size k (LeafValue.Inline value)) (max_inline_entry (page_size pg))) as [Hle|Hgt].
  - intros _. exists (LeafValue.Inline value), pg. split; [done|]. split; [by apply grow_refl|].
    split; [unfold max_inline_entry in Hle; lia|]. exists []. by rewrite alloc_refl.
  - fold (runs next_page_id (store_chain t value ≫= fun head => mret (LeafValue.Overflow (blen value) head)) pg
      (fun v pg' => grow pg pg' /\ leaf_entry_size k v <= entry_max (page_size pg) /\
        exists ids, val_is pg' v value ids /\ ids ≡ₚ alloc pg pg')).
    eapply runs_bind; [by apply store_chain_spec|auto with mono|].
    intros head pg' [G (ids & Hc & Hp)]. apply runs_ret. split; [done|]. split.
    + unfold leaf_entry_size, key_overhead, max_inline_key in *. destruct k; lia.
    + exists ids. split; [|done]. simpl. split_and!; [done|done|unfold u_ok; lia].
Qed.

(** * Splitting a node *)

Lemma sum_sizes_app a b : sum_sizes (a ++ b) = sum_sizes a + sum_sizes b.
Proof. unfold sum_sizes. induction a as [|x a IH]; simpl; lia. Qed.

Lemma split_point_spec sizes total : forall acc i, 2 * acc < total -> total <= 2 * (acc + sum_sizes sizes) ->
  exists pre x suf, sizes = pre ++ x :: suf /\ split_point sizes total acc i = Some (i + length pre + 1)%nat /\
    2 * (acc + sum_sizes pre) < total <= 2 * (acc + sum_sizes pre + x).
Proof.
  induction sizes as [|s sizes IH]; intros acc i Hlt Hle; [simpl in Hle; lia|]. cbn [split_point sum_sizes foldr] in *.
  fold (sum_sizes sizes) in Hle. destruct (Z.leb_spec total ((acc + s) * 2)).
  - exists [], s, sizes. split; [done|]. split; [f_equal; simpl; lia|]. simpl. lia.
  - destruct (IH (acc + s) (S i)) as (pre & x & suf & -> & -> & Hb); [lia|lia|].
    exists (s :: pre), x, suf. split; [done|]. split; [f_equal; simpl; lia|].
    unfold sum_sizes in *. simpl. lia.
Qed.

(** The halves of an overfull node, none of whose entries takes more than a
    third of the budget, both fit and neither is empty. *)
Lemma split_at_bytes_spec {A} (size : A -> Z) es M B : 0 < M -> 3 * M <= B -> Forall (fun e => 0 <= size e <= M) es ->
  B < sum_sizes (map size es) <= B + M ->
  exists l r, split_at_bytes size es = (l, r) /\ es = l ++ r /\ l <> [] /\ r <> [] /\
    sum_sizes (map size l) <= B /\ sum_sizes (map size r) <= B.
Proof.
  intros HM HB Hf Hsum. unfold split_at_bytes. set (total := sum_sizes (map size es)) in *.
  destruct (split_point_spec (map size es) total 0 0) as (pre & x & suf & E & Esp & Hb); [lia|subst total; lia|].
  rewrite Esp. cbn [default from_option id].
  apply map_eq_app in E as (l0 & r0 & -> & El0 & E). apply map_eq_cons in E as (e & r1 & -> & Ee & Er1).
  subst pre x suf. rewrite length_map in *. set (n := length l0) in *.
  assert (total = sum_sizes (map size l0) + size e + sum_sizes (map size r1)) as Et
    by (subst total; rewrite map_app, sum_sizes_app; simpl; unfold sum_sizes; simpl; lia).
  apply Forall_app in Hf as [Hl0 Hf]. apply Forall_cons in Hf as [He Hr1].
  rewrite length_app, length_cons. fold n. destruct r1 as [|e1 r1].
  - assert (l0 <> []) as Hne by (intros ->; simpl in *; unfold sum_sizes in *; simpl in *; lia).
    exists l0, [e]. replace (Nat.max 1 (Nat.min (0 + n + 1) (n + S (length (@nil A)) - 1))) with n.
    2: { destruct l0; [done|]. simpl in *. lia. }
    rewrite take_app_length', drop_app_length' by done. split_and!; try done; [lia|].
    simpl. unfold sum_sizes. simpl. lia.
  - exists (l0 ++ [e]), (e1 :: r1).
    replace (Nat.max 1 (Nat.min (0 + n + 1) (n + S (length (e1 :: r1)) - 1))) with (length (l0 ++ [e]))
      by (rewrite length_app; simpl; fold n; lia).
    replace (l0 ++ e :: e1 :: r1) with ((l0 ++ [e]) ++ e1 :: r1) by (by rewrite <- app_assoc).
    rewrite take_app_length, drop_app_length. split_and!; try done; [by destruct l0|..].
    + rewrite map_app, sum_sizes_app. unfold sum_sizes at 2. simpl. lia.
    + lia.
Qed.

(** * Writing nodes *)

Lemma leaf_entry_size_pos k v : 1 <= leaf_entry_size k v.
Proof.
  unfold leaf_entry_size, key_overhead. pose proof (blen_nonneg (EntryKey.stored k)).
  destruct v as [b|n h]; [pose proof (blen_nonneg b)|]; destruct k; lia.
Qed.
Lemma interior_entry_size_pos k : 1 <= interior_entry_size k.
Proof.
  unfold interior_entry_size, key_overhead. pose proof (blen_nonneg (EntryKey.stored k)). destruct k; lia.
Qed.

Lemma sum_sizes_length {A} (size : A -> Z) es : (forall e, 1 <= size e) -> Z.of_nat (length es) <= sum_sizes (map size es).
Proof.
  intros H. unfold sum_sizes. induction es as [|e es IH]; cbn [length map foldr]; [done|]. specialize (H e). lia.
Qed.

Lemma node_entries_bound node : Z.of_nat (match node with Node.Leaf es => length es | Node.Interior es => length es end)
  <= node_size node.
Proof.
  destruct node as [es|es]; apply sum_sizes_length; intros e; [apply leaf_entry_size_pos|apply interior_entry_size_pos].
Qed.

Lemma blen_node_payload node : blen (node_payload node) = 1 + node_size node.
Proof.
  destruct node as [es|es]; cbn [node_payload node_size]; rewrite blen_cons; f_equal;
    induction es as [|[k v] es IH]; cbn [flat_map map sum_sizes foldr fst snd]; try done; rewrite blen_app.
  - rewrite blen_leaf_entry_bytes, IH. done.
  - rewrite blen_interior_entry_bytes, IH. done.
Qed.

Lemma mono_write_new_node t node : PMmono (write_new_node t node).
Proof. unfold write_new_node. auto 8 with mono. Qed.
#[export] Hint Resolve mono_write_new_node : mono.

Lemma write_new_node_spec t node pg : pager_ok pg -> node_size node <= node_budget (page_size pg) ->
  PMruns (write_new_node t node) pg (fun p pg' => p = next_page_id pg /\ u_ok 64 p /\
    grow pg pg' /\ alloc pg pg' = [p] /\ next_page_id pg' = p + 1 /\
    exists hd, pages pg' !! p = Some (hd, node_payload node)).
Proof.
  intros Hok Hsz. pose proof Hok as ([Hps1 Hps2] & Hn & _). pose proof (node_entries_bound node) as Hcnt.
  unfold node_budget, PAGE_HEADER_LEN in Hsz. unfold write_new_node.
  assert (forall id, exists hd, encode_node t id node = Ok (hd, node_payload node)) as Henc.
  { intros id. unfold encode_node. destruct node as [es|es]; rewrite (proj2 (Z.ltb_lt _ _)) by lia; eauto. }
  set (mk := fun id => match encode_node t id node with Ok hp => hp | Err _ => (PageHeader_new 0 0 0 0, []) end).
  apply (runs_weaken next_page_id _ pg (fun p pg' => p = next_page_id pg /\ p < 2 ^ 64 /\ pg' = with_page pg (mk p).1 (mk p).2)).
  - intros p pg' (-> & Hlt & ->). destruct (grow_page pg (mk (next_page_id pg)).1 (mk (next_page_id pg)).2 Hok) as [G A].
    destruct (Henc (next_page_id pg)) as [hd E].
    split_and!; [done|unfold u_ok; lia|done|done|done|]. exists hd. subst mk. simpl. rewrite E. simpl.
    apply lookup_insert_eq.
  - assert (forall p, (sm_lift (encode_node t p node) ≫= fun hp => install p hp.1 hp.2 ≫= fun _ => mret p) =
      (install p (mk p).1 (mk p).2 ≫= fun _ => mret p : PM Z)) as E.
    { intros p. subst mk. destruct (Henc p) as [hd E]. rewrite E. done. }
    assert (write_new_node t node pg = (allocate_page_id ≫= fun p => install p (mk p).1 (mk p).2 ≫= fun _ => mret p) pg) as Ew.
    { unfold write_new_node, mbind at 1, sm_bind at 1, allocate_page_id at 1. by rewrite E. }
    unfold runs. fold (write_new_node t node). rewrite Ew.
    apply (new_page_spec pg mk mret); [done| |auto with mono|].
    + intros id. subst mk. simpl. destruct (Henc id) as [hd Eh]. rewrite Eh. cbn [snd]. rewrite blen_node_payload. lia.
    + intros Hlt. apply runs_ret. done.
Qed.

Definition cow_rep (pg : Pager) (m : mode) (h : nat) (c : Cow.t) (lo : list Z) (hi : bound) (kvs : list kv)
    (fp : list Z) : Prop :=
  match c with
  | Cow.Node p => repr pg m h p lo hi kvs fp
  | Cow.Split l sep r => exists ka kb fa fb, kvs = ka ++ kb /\ fp = fa ++ fb /\
      repr pg m h l lo (Some sep) ka fa /\ repr pg m h r sep hi kb fb /\ key_lt lo sep /\ below hi sep /\
      blen sep < 2 ^ 32
  end.

(** The pages a rewritten subtree hands to its parent are allocated. *)
Definition cow_pages (pg : Pager) (c : Cow.t) : Prop :=
  match c with
  | Cow.Node p => u_ok 64 p /\ p < next_page_id pg
  | Cow.Split l _ r => u_ok 64 l /\ l < next_page_id pg /\ u_ok 64 r /\ r < next_page_id pg
  end.

Lemma key_blen pg ek k ids : page_size_ok (page_size pg) -> key_is pg ek k ids -> blen k < 2 ^ 32.
Proof.
  intros [? ?]. destruct ek; simpl; [|intros (_ & -> & [_ ?] & _); lia].
  intros (_ & _ & Hk). unfold max_inline_key, node_budget, PAGE_HEADER_LEN in Hk.
  assert ((page_size pg - 32 - 1) / 8 < 2 ^ 17) by (apply Z.div_lt_upper_bound; lia). lia.
Qed.

Lemma leaf_rep_app_inv pg l r kvs fp : leaf_rep pg (l ++ r) kvs fp -> exists ka kb fa fb,
  kvs = ka ++ kb /\ fp = fa ++ fb /\ length ka = length l /\ leaf_rep pg l ka fa /\ leaf_rep pg r kb fb.
Proof.
  revert kvs fp. induction l as [|[k v] l IH]; intros kvs fp H; simpl in H.
  - exists [], kvs, [], fp. by repeat constructor.
  - inversion H as [|k' v' es key val kvs' kf vf fp' Hk Hv Hsz Hl]; subst.
    destruct (IH _ _ Hl) as (ka & kb & fa & fb & -> & -> & Hlen & Ha & Hb).
    exists ((key, val) :: ka), kb, (kf ++ vf ++ fa), fb. rewrite <- !app_assoc.
    split_and!; [done..|simpl; lia|by constructor|done].
Qed.

Lemma leaf_rep_app pg l r ka kb fa fb : leaf_rep pg l ka fa -> leaf_rep pg r kb fb ->
  leaf_rep pg (l ++ r) (ka ++ kb) (fa ++ fb).
Proof. intros H Hr. induction H; [done|]. simpl. rewrite <- !app_assoc. by constructor. Qed.

Lemma leaf_rep_sizes pg es kvs fp : leaf_rep pg es kvs fp ->
  Forall (fun e => 0 <= leaf_entry_size e.1 e.2 <= entry_max (page_size pg)) es.
Proof. induction 1; constructor; [|done]. simpl. pose proof (leaf_entry_size_pos k v). lia. Qed.

Lemma kids_app_inv pg m R page l r ss lo hi kvs fp : l <> [] -> r <> [] ->
  kids pg m R page (l ++ r) ss lo hi kvs fp -> exists sl sep sr ka kb fa fb,
  ss = sl ++ sep :: sr /\ kvs = ka ++ kb /\ fp = fa ++ fb /\ key_lt lo sep /\ below hi sep /\
  kids pg m R page l sl lo (Some sep) ka fa /\ kids pg m R page r (sep :: sr) sep hi kb fb.
Proof.
  intros Hl Hr. revert ss lo kvs fp. induction l as [|[k c] l IH]; intros ss lo kvs fp H; [done|].
  simpl in H. inversion H as [|k' c' es s s1 ss' lo' hi' kvs1 kvs2 kf fp1 fp2 Hk Hh Hc Hcp Hlo Hhi HR Hes]; subst.
  { by destruct l, r. }
  destruct l as [|e l].
  - exists [s], s1, ss', kvs1, kvs2, (kf ++ fp1), fp2. rewrite <- app_assoc.
    split_and!; try done. constructor; [done| |done..]. by destruct m.
  - destruct (IH ltac:(done) _ _ _ _ Hes) as (sl & sep & sr & ka & kb & fa & fb & E & -> & -> & Hls & Hsh & Hkl & Hkr).
    destruct sl as [|s1' sl]; [by inversion Hkl|]. injection E as <- ->.
    exists (s :: s1 :: sl), sep, sr, (kvs1 ++ ka), kb, (kf ++ fp1 ++ fa), fb. rewrite <- !app_assoc.
    split_and!; try done; [by etrans|]. by constructor.
Qed.

Lemma interior_size_bound pg k key ids : page_size_ok (page_size pg) -> key_is pg k key ids ->
  0 <= interior_entry_size k <= entry_max (page_size pg).
Proof.
  intros Hps Hk. pose proof (budget_thirds _ Hps) as (_ & B2 & _). pose proof (key_stored_le _ _ _ _ Hk) as Hst.
  pose proof (interior_entry_size_pos k). unfold interior_entry_size, key_overhead, max_inline_key in *.
  destruct k; lia.
Qed.

Lemma kids_sizes pg m R page es ss lo hi kvs fp : page_size_ok (page_size pg) -> kids pg m R page es ss lo hi kvs fp ->
  Forall (fun e => 0 <= interior_entry_size e.1 <= entry_max (page_size pg)) es.
Proof.
  intros Hps Hk. apply kids_keys in Hk. induction Hk as [|[k c] s es ss [ids Hk] _ IH]; constructor; [|done].
  by eapply interior_size_bound.
Qed.

Lemma kids_first_key pg m R page es ss lo hi kvs fp k c es' : kids pg m R page es ss lo hi kvs fp -> es = (k, c) :: es' ->
  exists s ss' ids, ss = s :: ss' /\ key_is pg k s ids.
Proof. intros Hk ->. inversion Hk; subst; eauto 10. Qed.

Lemma kids_grow pg pg' m h page page' es ss lo hi kvs fp : grow pg pg' -> page <= page' ->
  kids pg m (repr pg m h) page es ss lo hi kvs fp -> kids pg' m (repr pg' m h) page' es ss lo hi kvs fp.
Proof.
  intros G Hp. apply kids_mono; [done|intros; by eapply repr_grow|intros; by eapply key_grow].
Qed.

(** A node whose content is [Rep] once its page is written. *)
Lemma write_node_repr t pg m h node lo hi kvs fp : pager_ok pg -> node_size node <= node_budget (page_size pg) ->
  (forall pg' p hd, grow pg pg' -> next_page_id pg <= p -> pages pg' !! p = Some (hd, node_payload node) ->
    repr pg' m h p lo hi kvs (p :: fp)) ->
  PMruns (write_new_node t node) pg (fun p pg' => grow pg pg' /\ u_ok 64 p /\ p < next_page_id pg' /\
    alloc pg pg' = [p] /\ repr pg' m h p lo hi kvs (p :: fp)).
Proof.
  intros Hok Hsz Hrep. eapply runs_weaken; [|by apply write_new_node_spec].
  intros p pg' (-> & Hu & G & HA & Hn & hd & Hp). split_and!; [done|done|lia|done|]. by eapply Hrep.
Qed.

Lemma mono_write_or_split t node : PMmono (write_or_split_new t node).
Proof.
  intros pg. unfold write_or_split_new. destruct (node_size node <=? _).
  - apply mono_bind; auto with mono.
  - apply mono_bind; [auto with mono|]. intros [[l sep] r]. auto 10 with mono.
Qed.
#[export] Hint Resolve mono_write_or_split : mono.

(** Both halves of a split, written one after the other. *)
Lemma write_pair t pg m h l r lo hi sep ka kb fa fb : pager_ok pg -> key_lt lo sep -> below hi sep -> blen sep < 2 ^ 32 ->
  node_size l <= node_budget (page_size pg) -> node_size r <= node_budget (page_size pg) ->
  (forall pg' p hd, grow pg pg' -> next_page_id pg <= p -> pages pg' !! p = Some (hd, node_payload l) ->
    repr pg' m h p lo (Some sep) ka (p :: fa)) ->
  (forall pg' p hd, grow pg pg' -> next_page_id pg <= p -> pages pg' !! p = Some (hd, node_payload r) ->
    repr pg' m h p sep hi kb (p :: fb)) ->
  PMruns (write_new_node t l ≫= fun lp => write_new_node t r ≫= fun rp => mret (Cow.Split lp sep rp)) pg
    (fun c pg' => grow pg pg' /\ cow_pages pg' c /\ exists fp, cow_rep pg' m h c lo hi (ka ++ kb) fp /\
      fp ≡ₚ (fa ++ fb) ++ alloc pg pg').
Proof.
  intros Hok Hlo Hhi Hlen Hl Hr HL HR.
  eapply runs_bind; [by apply (write_node_repr t pg m h l lo (Some sep) ka fa)|auto with mono|].
  intros lp pg1 (G1 & Hu1 & Hlt1 & A1 & R1).
  eapply runs_bind; [apply (write_node_repr t pg1 m h r sep hi kb fb (grow_ok _ _ G1))| auto with mono|].
  { by rewrite (proj1 (grow_ext _ _ G1)). }
  { intros pg' p hd G Hp. apply HR; [by eapply grow_trans|]. pose proof (grow_next _ _ G1). lia. }
  intros rp pg2 (G2 & Hu2 & Hlt2 & A2 & R2). apply runs_ret.
  split; [by eapply grow_trans|]. split; [pose proof (grow_next _ _ G2); simpl; split_and!; (done || lia)|].
  exists ((lp :: fa) ++ (rp :: fb)). split.
  - exists ka, kb, (lp :: fa), (rp :: fb). split_and!; try done. by eapply repr_grow.
  - rewrite (alloc_trans pg pg1 pg2), A1, A2 by done. perm_solve.
Qed.

Lemma in_node_cut lo hi ka kb k0 v0 kb' : ka <> [] -> kb = (k0, v0) :: kb' ->
  StronglySorted entry_lt (ka ++ kb) -> in_node lo hi (ka ++ kb) ->
  in_node lo (Some k0) ka /\ in_node k0 hi kb /\ key_lt lo k0 /\ below hi k0 /\
  StronglySorted entry_lt ka /\ StronglySorted entry_lt kb.
Proof.
  intros Hne -> Hs Hin. apply StronglySorted_app in Hs as (Hab & Ha & Hb).
  apply in_node_app in Hin as [Hia Hib]. pose proof Hib as Hib'.
  apply Forall_cons in Hib' as [[_ Hk0] Hib']. simpl in Hk0.
  assert (Forall (fun e => key_lt e.1 k0) ka) as Hlt.
  { apply Forall_forall. intros e He. apply (Hab e (k0, v0) He). left. }
  split_and!; try done.
  - unfold in_node in *. rewrite Forall_forall in *. intros e He. split; [by apply Hia|by apply Hlt].
  - apply StronglySorted_inv in Hb as [_ Hf]. constructor; [by split|].
    unfold in_node in *. rewrite Forall_forall in *. intros e He. split; [|by apply Hib'].
    apply key_lt_le. by apply (Hf e).
  - destruct ka as [|a ka]; [done|]. apply Forall_cons in Hlt as [Hlt _]. apply Forall_cons in Hia as [[? _] _].
    by eapply key_le_lt_trans.
Qed.

Lemma write_or_split_leaf t m es kvs fp lo hi pg : pager_ok pg -> leaf_rep pg es kvs fp ->
  StronglySorted entry_lt kvs -> in_node lo hi kvs ->
  node_size (Node.Leaf es) <= node_budget (page_size pg) + entry_max (page_size pg) ->
  PMruns (write_or_split_new t (Node.Leaf es)) pg (fun c pg' => grow pg pg' /\ cow_pages pg' c /\
    exists fp', cow_rep pg' m 0 c lo hi kvs fp' /\ fp' ≡ₚ fp ++ alloc pg pg').
Proof.
  intros Hok Hl Hs Hin Hsz. pose proof Hok as (Hps & _).
  destruct (Z.leb_spec (node_size (Node.Leaf es)) (node_budget (page_size pg))) as [Hle|Hgt].
  - eapply runs_ext; [unfold write_or_split_new; rewrite (proj2 (Z.leb_le _ _) Hle); reflexivity|].
    eapply runs_bind; [|auto with mono|].
    + apply (write_node_repr t pg m 0 (Node.Leaf es) lo hi kvs fp); [done|done|].
      intros pg' p hd G _ Hp. exists hd, es, fp. rewrite (proj1 (grow_ext _ _ G)).
      split_and!; try done. by eapply leaf_rep_grow.
    + intros p pg' (G & Hu & Hlt & HA & HR). apply runs_ret. split; [done|]. split; [done|].
      exists (p :: fp). split; [done|]. rewrite HA. perm_solve.
  - pose proof (budget_thirds _ Hps) as (_ & HB2 & HB3).
    pose proof (entry_max_bound _ Hps).
    assert (0 < entry_max (page_size pg)) as Hpos by (pose proof (Z.div_pos (node_budget (page_size pg)) 8);
      unfold node_budget, PAGE_HEADER_LEN, page_size_ok in *; lia).
    destruct (split_at_bytes_spec (fun e => leaf_entry_size e.1 e.2) es (entry_max (page_size pg)) (node_budget (page_size pg))
      Hpos HB3 (leaf_rep_sizes _ _ _ _ Hl)) as (l & r & Esp & -> & Hlne & Hrne & Hls & Hrs); [simpl in *; lia|].
    destruct (leaf_rep_app_inv _ _ _ _ _ Hl) as (ka & kb & fa & fb & -> & -> & Hlen & Hla & Hlb).
    destruct r as [|[ks vs] r]; [done|].
    inversion Hlb as [|k' v' es' k0 v0 kb' kf vf fp' Hk0 Hv0 _ Hr0]; subst.
    assert (ka <> []) as Hka by (by destruct ka, l).
    destruct (in_node_cut lo hi ka _ k0 v0 kb' Hka eq_refl Hs Hin) as (I1 & I2 & Hlo & Hhi & S1 & S2).
    assert (split_node (Node.Leaf (l ++ (ks, vs) :: r)) = Ok (Node.Leaf l, ks, Node.Leaf ((ks, vs) :: r))) as Hsplit.
    { unfold split_node. rewrite Esp. replace (length (l ++ (ks, vs) :: r) <? 2)%nat with false; [done|].
      symmetry. apply Nat.ltb_ge. rewrite length_app. destruct l; [done|]. simpl. lia. }
    eapply runs_ext; [unfold write_or_split_new; rewrite (proj2 (Z.leb_gt _ _) Hgt); reflexivity|].
    eapply runs_lift; [exact Hsplit|]. eapply runs_lift; [exact (full_key_spec _ _ _ _ Hk0)|].
    apply (write_pair t pg m 0 (Node.Leaf l) (Node.Leaf ((ks, vs) :: r)) lo hi k0 ka ((k0, v0) :: kb')
      fa (kf ++ vf ++ fp')); try done.
    + by eapply key_blen.
    + intros pg' p hd G _ Hp. exists hd, l, fa. rewrite (proj1 (grow_ext _ _ G)).
      split_and!; try done. by eapply leaf_rep_grow.
    + intros pg' p hd G _ Hp. eexists hd, _, _. rewrite (proj1 (grow_ext _ _ G)).
      split_and!; try done. by eapply leaf_rep_grow.
Qed.

Lemma write_or_split_interior t m h es ss kvs fp lo hi pg : pager_ok pg ->
  kids pg m (repr pg m h) (next_page_id pg) es ss lo hi kvs fp ->
  node_size (Node.Interior es) <= node_budget (page_size pg) + entry_max (page_size pg) ->
  PMruns (write_or_split_new t (Node.Interior es)) pg (fun c pg' => grow pg pg' /\ cow_pages pg' c /\
    exists fp', cow_rep pg' m (S h) c lo hi kvs fp' /\ fp' ≡ₚ fp ++ alloc pg pg').
Proof.
  intros Hok Hk Hsz. pose proof Hok as (Hps & _).
  destruct (Z.leb_spec (node_size (Node.Interior es)) (node_budget (page_size pg))) as [Hle|Hgt].
  - eapply runs_ext; [unfold write_or_split_new; rewrite (proj2 (Z.leb_le _ _) Hle); reflexivity|].
    eapply runs_bind; [|auto with mono|].
    + apply (write_node_repr t pg m (S h) (Node.Interior es) lo hi kvs fp); [done|done|].
      intros pg' p hd G Hge Hp. exists hd, es, ss, fp. rewrite (proj1 (grow_ext _ _ G)).
      split_and!; try done. by eapply kids_grow.
    + intros p pg' (G & Hu & Hlt & HA & HR). apply runs_ret. split; [done|]. split; [done|].
      exists (p :: fp). split; [done|]. rewrite HA. perm_solve.
  - pose proof (budget_thirds _ Hps) as (_ & HB2 & HB3).
    pose proof (entry_max_bound _ Hps).
    assert (0 < entry_max (page_size pg)) as Hpos by (pose proof (Z.div_pos (node_budget (page_size pg)) 8);
      unfold node_budget, PAGE_HEADER_LEN, page_size_ok in *; lia).
    destruct (split_at_bytes_spec (fun e => interior_entry_size e.1) es (entry_max (page_size pg)) (node_budget (page_size pg))
      Hpos HB3 (kids_sizes _ _ _ _ _ _ _ _ _ _ Hps Hk)) as (l & r & Esp & -> & Hlne & Hrne & Hls & Hrs); [simpl in *; lia|].
    destruct (kids_app_inv _ _ _ _ _ _ _ _ _ _ _ Hlne Hrne Hk)
      as (sl & sep & sr & ka & kb & fa & fb & -> & -> & -> & Hlo & Hhi & Hka & Hkb).
    destruct r as [|[ks cs] r]; [done|].
    destruct (kids_first_key _ _ _ _ _ _ _ _ _ _ _ _ _ Hkb eq_refl) as (s' & ss' & ids & [= <- <-] & Hsep).
    assert (split_node (Node.Interior (l ++ (ks, cs) :: r)) = Ok (Node.Interior l, ks, Node.Interior ((ks, cs) :: r))) as Hsplit.
    { unfold split_node. rewrite Esp. replace (length (l ++ (ks, cs) :: r) <? 2)%nat with false; [done|].
      symmetry. apply Nat.ltb_ge. rewrite length_app. destruct l; [done|]. simpl. lia. }
    eapply runs_ext; [unfold write_or_split_new; rewrite (proj2 (Z.leb_gt _ _) Hgt); reflexivity|].
    eapply runs_lift; [exact Hsplit|]. eapply runs_lift; [exact (full_key_spec _ _ _ _ Hsep)|].
    apply (write_pair t pg m (S h) (Node.Interior l) (Node.Interior ((ks, cs) :: r)) lo hi sep ka kb fa fb); try done.
    + by eapply key_blen.
    + intros pg' p hd G Hge Hp. exists hd, l, sl, fa. rewrite (proj1 (grow_ext _ _ G)).
      split_and!; try done. by eapply kids_grow.
    + intros pg' p hd G Hge Hp. eexists hd, _, _, _. rewrite (proj1 (grow_ext _ _ G)).
      split_and!; try done. by eapply kids_grow.
Qed.

(** * Copy-on-write updates *)

Definition tm_next (s : Pager * list Z) : Z := next_page_id s.1.
Notation TMmono := (mono tm_next).
Notation TMruns := (runs tm_next).

Lemma mono_on_pager {A} (m : PM A) : PMmono m -> TMmono (on_pager m).
Proof.
  intros Hm [pg sup]. specialize (Hm pg). unfold tm_next, on_pager. simpl.
  destruct (m pg) as [r pg']. exact Hm.
Qed.
Lemma mono_read_pager {A} (m : Pager -> result TreeError A) : TMmono (read_pager m).
Proof. intros [pg sup]. unfold tm_next. simpl. lia. Qed.
Lemma mono_push id : TMmono (push_superseded id).
Proof. intros [pg sup]. unfold tm_next. simpl. lia. Qed.
#[export] Hint Resolve mono_on_pager mono_read_pager mono_push : mono.

Lemma mono_supersede_loop fuel : forall id, TMmono (supersede_loop fuel id).
Proof.
  induction fuel as [|fuel IH]; intros id; cbn [supersede_loop]; destruct (id =? NIL); auto with mono.
  apply mono_bind; [auto with mono|]. intros pl. destruct (blen pl <? 8); auto with mono.
Qed.
Lemma mono_supersede_chain id : TMmono (supersede_chain id).
Proof. intros [pg sup]. apply mono_supersede_loop. Qed.
#[export] Hint Resolve mono_supersede_chain : mono.
Lemma mono_supersede_value v : TMmono (supersede_value v).
Proof. destruct v; simpl; auto with mono. Qed.
Lemma mono_supersede_key k : TMmono (supersede_key k).
Proof. destruct k; simpl; auto with mono. Qed.
#[export] Hint Resolve mono_supersede_value mono_supersede_key : mono.

Lemma runs_on_pager {A} (m : PM A) pg sup Q : PMruns m pg Q ->
  TMruns (on_pager m) (pg, sup) (fun a s => exists pg', s = (pg', sup) /\ Q a pg').
Proof.
  intros Hm. unfold runs, on_pager, tm_next in *. simpl. destruct (m pg) as [r pg'] eqn:E. simpl in *.
  intros Hc. destruct (Hm Hc) as (a & pg'' & [= -> ->] & HQ). eauto 6.
Qed.

Lemma runs_read {A B} (r : Pager -> result TreeError A) a (k : A -> TM B) pg sup Q :
  r pg = Ok a -> TMruns (k a) (pg, sup) Q -> TMruns (read_pager r ≫= k) (pg, sup) Q.
Proof. intros E Hk. eapply runs_step; [|exact Hk]. unfold read_pager. by rewrite E. Qed.

Lemma runs_push {B} id (k : TM B) pg sup Q :
  TMruns k (pg, sup ++ [id]) Q -> TMruns (push_superseded id ≫= fun _ => k) (pg, sup) Q.
Proof. intros Hk. exact Hk. Qed.

Lemma supersede_loop_spec pg ids head bs : chain_at pg ids head bs -> forall fuel sup, (length ids <= fuel)%nat ->
  supersede_loop fuel head (pg, sup) = (Ok tt, (pg, sup ++ ids)).
Proof.
  induction 1 as [|ids id next h part rest Hp Hlt Hid Hc IH]; intros fuel sup Hf.
  - rewrite app_nil_r. by destruct fuel.
  - destruct fuel as [|fuel]; [simpl in Hf; lia|]. pose proof (chain_head_ok _ _ _ _ Hc) as Hn.
    cbn [supersede_loop]. unfold NIL in *. rewrite (proj2 (Z.eqb_neq _ _)) by (unfold u_ok in *; lia).
    unfold mbind, sm_bind, read_pager, fault. rewrite Hp.
    rewrite (proj2 (Z.ltb_ge _ _)) by (rewrite blen_app, blen_le_bytes; pose proof (blen_nonneg part); lia).
    unfold push_superseded. rewrite slice_app_l by (by rewrite blen_le_bytes). rewrite le_val_unsigned by done.
    rewrite IH by (simpl in Hf; lia). by rewrite <- app_assoc.
Qed.

Lemma supersede_chain_spec pg ids head bs sup : chain_at pg ids head bs ->
  supersede_chain head (pg, sup) = (Ok tt, (pg, sup ++ ids)).
Proof.
  intros Hc. unfold supersede_chain. apply (supersede_loop_spec _ _ _ _ Hc). apply walk_fuel_enough.
  - eapply desc_NoDup, chain_ids_desc, Hc.
  - eapply chain_ids_in, Hc.
Qed.

Lemma runs_supersede_value {B} v bs ids (k : TM B) pg sup Q : val_is pg v bs ids ->
  TMruns k (pg, sup ++ ids) Q -> TMruns (supersede_value v ≫= fun _ => k) (pg, sup) Q.
Proof.
  intros Hv Hk. eapply runs_step; [|exact Hk]. destruct v as [b|n h]; simpl in *.
  - destruct Hv as [_ ->]. by rewrite app_nil_r.
  - destruct Hv as [Hc _]. exact (supersede_chain_spec _ _ _ _ _ Hc).
Qed.

Lemma runs_supersede_key {B} ek key ids (k : TM B) pg sup Q : key_is pg ek key ids ->
  TMruns k (pg, sup ++ ids) Q -> TMruns (supersede_key ek ≫= fun _ => k) (pg, sup) Q.
Proof.
  intros Hv Hk. eapply runs_step; [|exact Hk]. destruct ek as [b|p n h]; simpl in *.
  - destruct Hv as (_ & -> & _). by rewrite app_nil_r.
  - destruct Hv as [Hc _]. exact (supersede_chain_spec _ _ _ _ _ Hc).
Qed.

(** ** Sorted entry lists *)

Fixpoint kv_insert (key value : list Z) (l : list kv) : list kv :=
  match l with
  | [] => [(key, value)]
  | (k, v) :: l' =>
      match lex_compare key k with
      | Lt => (key, value) :: l
      | Eq => (key, value) :: l'
      | Gt => (k, v) :: kv_insert key value l'
      end
  end.

Fixpoint kv_delete (key : list Z) (l : list kv) : list kv :=
  match l with
  | [] => []
  | (k, v) :: l => if decide (k = key) then l else (k, v) :: kv_delete key l
  end.

Section kv.
Context (key : list Z).
Notation before := (Forall (fun p : kv => key_lt p.1 key)).
Notation after := (Forall (fun p : kv => key_lt key p.1)).

Lemma kv_insert_skip v a b : before a -> kv_insert key v (a ++ b) = a ++ kv_insert key v b.
Proof.
  induction 1 as [|[k v'] a Hk _ IH]; [done|]. simpl in *. rewrite (proj2 (lex_compare_Gt key k) Hk). by rewrite IH.
Qed.
Lemma kv_insert_after v b : after b -> kv_insert key v b = (key, v) :: b.
Proof. destruct 1 as [|[k v'] b Hk _]; [done|]. simpl in *. unfold key_lt in Hk. simpl in Hk. by rewrite Hk. Qed.
Lemma kv_insert_same v v' b : kv_insert key v ((key, v') :: b) = (key, v) :: b.
Proof. simpl. by rewrite (proj2 (lex_compare_eq key key)). Qed.
Lemma kv_insert_mid v a b c : before a -> after c -> kv_insert key v (a ++ b ++ c) = a ++ kv_insert key v b ++ c.
Proof.
  intros Ha Hc. rewrite kv_insert_skip by done. f_equal. induction b as [|[k v'] b IH]; [by apply kv_insert_after|].
  simpl. destruct (lex_compare key k); [done..|]. by rewrite IH.
Qed.

Lemma kv_delete_skip a b : before a -> kv_delete key (a ++ b) = a ++ kv_delete key b.
Proof.
  induction 1 as [|[k v'] a Hk _ IH]; [done|]. simpl in *. rewrite decide_False by by apply key_lt_ne. by rewrite IH.
Qed.
Lemma kv_delete_after b : after b -> kv_delete key b = b.
Proof.
  induction 1 as [|[k v'] b Hk _ IH]; [done|]. simpl in *. rewrite decide_False, IH; [done|].
  intros ->. by apply (key_lt_irrefl key).
Qed.
Lemma kv_delete_mid a b c : before a -> after c -> kv_delete key (a ++ b ++ c) = a ++ kv_delete key b ++ c.
Proof.
  intros Ha Hc. rewrite kv_delete_skip by done. f_equal. induction b as [|[k v'] b IH]; [by apply kv_delete_after|].
  simpl. destruct (decide (k = key)); [done|]. by rewrite IH.
Qed.

Lemma kv_sorted_at a v b : StronglySorted entry_lt (a ++ (key, v) :: b) -> before a /\ after b.
Proof.
  intros Hs. apply StronglySorted_app in Hs as (Hab & _ & Hb). apply StronglySorted_inv in Hb as [_ Hb]. split.
  - apply Forall_forall. intros p Hp. apply (Hab p (key, v) Hp). left.
  - exact Hb.
Qed.
End kv.

Lemma leaf_rep_at pg es kvs fp i key : leaf_rep pg es kvs fp -> kvs.*1 !! i = Some key ->
  exists ea k v eb ka val kb fa kf vf fb, es = ea ++ (k, v) :: eb /\ length ea = i /\
    kvs = ka ++ (key, val) :: kb /\ fp = fa ++ kf ++ vf ++ fb /\ leaf_rep pg ea ka fa /\
    key_is pg k key kf /\ val_is pg v val vf /\ leaf_entry_size k v <= entry_max (page_size pg) /\ leaf_rep pg eb kb fb.
Proof.
  intros Hl Hi. pose proof (Forall2_length _ _ _ (leaf_rep_keys _ _ _ _ Hl)) as Elen.
  pose proof (lookup_lt_Some _ _ _ Hi) as Hlt.
  rewrite <- (take_drop i es) in Hl |- *. destruct (leaf_rep_app_inv _ _ _ _ _ Hl)
    as (ka & kb & fa & fb & -> & -> & Hlen & Ha & Hb).
  assert (length (take i es) = i) as Eti by (rewrite length_take; lia).
  destruct Hb as [|k v eb key' val kb kf vf fb Hk Hv Hsz Hb].
  - rewrite app_nil_r, list_lookup_fmap, lookup_ge_None_2 in Hi; [done|lia].
  - rewrite fmap_app, lookup_app_r in Hi by (rewrite length_fmap; lia).
    rewrite length_fmap, Hlen, Eti, Nat.sub_diag in Hi. injection Hi as ->.
    by exists (take i es), k, v, eb, ka, val, kb, fa, kf, vf, fb.
Qed.

Lemma leaf_rep_cut pg es kvs fp i key : leaf_rep pg es kvs fp -> (i <= length kvs.*1)%nat ->
  (forall j k, kvs.*1 !! j = Some k -> ((j < i)%nat -> key_lt k key) /\ ((i <= j)%nat -> key_lt key k)) ->
  exists ka kb fa fb, kvs = ka ++ kb /\ fp = fa ++ fb /\ leaf_rep pg (take i es) ka fa /\
    leaf_rep pg (drop i es) kb fb /\ Forall (fun p => key_lt p.1 key) ka /\ Forall (fun p => key_lt key p.1) kb.
Proof.
  intros Hl Hi Hk. pose proof (Forall2_length _ _ _ (leaf_rep_keys _ _ _ _ Hl)) as Elen.
  rewrite <- (take_drop i es) in Hl. destruct (leaf_rep_app_inv _ _ _ _ _ Hl)
    as (ka & kb & fa & fb & -> & -> & Hlen & Ha & Hb). exists ka, kb, fa, fb.
  rewrite length_take in Hlen. rewrite fmap_app in Hk. do 4 (split; [done|]).
  split; apply Forall_lookup; intros j p Hj.
  - apply (Hk j). { rewrite lookup_app_l, list_lookup_fmap, Hj by (rewrite length_fmap; by eapply lookup_lt_Some). done. }
    apply lookup_lt_Some in Hj. lia.
  - apply (Hk (length ka + j)%nat); [|lia].
    rewrite lookup_app_r by (rewrite length_fmap; lia). rewrite length_fmap.
    replace (length ka + j - length ka)%nat with j by lia. by rewrite list_lookup_fmap, Hj.
Qed.

Lemma node_size_leaf_app a b : node_size (Node.Leaf (a ++ b)) = node_size (Node.Leaf a) + node_size (Node.Leaf b).
Proof. simpl. by rewrite map_app, sum_sizes_app. Qed.
Lemma node_size_leaf_cons k v b : node_size (Node.Leaf ((k, v) :: b)) = leaf_entry_size k v + node_size (Node.Leaf b).
Proof. done. Qed.
Lemma node_size_interior_app a b :
  node_size (Node.Interior (a ++ b)) = node_size (Node.Interior a) + node_size (Node.Interior b).
Proof. simpl. by rewrite map_app, sum_sizes_app. Qed.
Lemma node_size_interior_cons k c b :
  node_size (Node.Interior ((k, c) :: b)) = interior_entry_size k + node_size (Node.Interior b).
Proof. done. Qed.

Lemma kv_insert_Forall (P : kv -> Prop) key value l : P (key, value) -> Forall P l -> Forall P (kv_insert key value l).
Proof.
  intros HP. induction 1 as [|[k v] l Hk Hf IH]; simpl; [by constructor|].
  destruct (lex_compare key k); repeat (constructor; [done|]); done.
Qed.
Lemma in_node_insert lo hi key value kvs : key_le lo key -> below hi key -> in_node lo hi kvs ->
  in_node lo hi (kv_insert key value kvs).
Proof. intros H1 H2. by apply kv_insert_Forall. Qed.
Lemma sorted_insert key value kvs : StronglySorted entry_lt kvs -> StronglySorted entry_lt (kv_insert key value kvs).
Proof.
  induction 1 as [|[k v] l Hs IH Hf]; simpl; [by repeat constructor|]. destruct (lex_compare key k) eqn:C.
  - apply lex_compare_eq in C as ->. by constructor.
  - constructor; [by constructor|]. constructor; [exact C|]. eapply Forall_impl; [exact Hf|].
    intros p Hp. unfold entry_lt in *. simpl in *. by etrans.
  - constructor; [done|]. apply lex_compare_Gt in C. by apply kv_insert_Forall.
Qed.

Section updates.
Context (t : PagedTree) (key value : list Z) (m : mode).
Hypothesis key_ok : blen key < 2 ^ 32.
Hypothesis value_ok : blen value < 2 ^ 64.

(** What a step of an insert into the subtree [fp] leaves. *)
Definition inserted (h : nat) (lo : list Z) (hi : bound) (kvs : list kv) (fp : list Z) (pg : Pager) (sup : list Z)
    (c : Cow.t) (s : Pager * list Z) : Prop :=
  exists pg' retired fp', s = (pg', sup ++ retired) /\ grow pg pg' /\ cow_pages pg' c /\
    cow_rep pg' m h c lo hi (kv_insert key value kvs) fp' /\ fp' ++ retired ≡ₚ fp ++ alloc pg pg'.

Lemma insert_leaf_found page lo hi es kvs fp i pg sup : pager_ok pg ->
  leaf_rep pg es kvs fp -> StronglySorted entry_lt kvs -> in_node lo hi kvs -> key_le lo key -> below hi key ->
  node_size (Node.Leaf es) <= node_budget (page_size pg) ->
  search_leaf pg key es = Ok (inl i) -> kvs.*1 !! i = Some key ->
  TMruns (insert_leaf t key value page es) (pg, sup) (inserted 0 lo hi kvs (page :: fp) pg sup).
Proof using value_ok.
  intros Hok Hl Hs Hin Hlo Hhi Hsz Hsearch Hi.
  unfold insert_leaf. eapply runs_read; [exact Hsearch|].
  destruct (leaf_rep_at _ _ _ _ _ _ Hl Hi) as
    (ea & k & v & eb & ka & val & kb & fa & kf & vf & fb & -> & Hea & -> & -> & Hla & Hk & Hv & Hes & Hlb).
  destruct (kv_sorted_at key ka val kb Hs) as [Hbef Haft].
  rewrite list_lookup_middle by done.
  eapply runs_bind with (P := fun es' s => exists pg1 v' ids, es' = ea ++ (k, v') :: eb /\ s = (pg1, sup ++ vf) /\
    grow pg pg1 /\ leaf_entry_size k v' <= entry_max (page_size pg) /\ val_is pg1 v' value ids /\ ids ≡ₚ alloc pg pg1);
    [|auto 6 with mono|].
  { eapply runs_bind; [eapply runs_on_pager, store_value_spec; done|auto 6 with mono|].
    intros v' s (pg1 & -> & G1 & Hsz1 & ids & Hv' & Hp).
    eapply runs_supersede_value; [eapply val_frame; [exact Hv|]; eapply ext_same_on; [apply G1|by eapply val_ids_in]|].
    apply runs_ret. exists pg1, v', ids. split_and!; try done. by rewrite insert_app_r_alt, Hea, Nat.sub_diag by lia. }
  intros es' s (pg1 & v' & ids & -> & -> & G1 & Hsz1 & Hv' & Hp). apply runs_push.
  assert (leaf_rep pg1 (ea ++ (k, v') :: eb) (ka ++ (key, value) :: kb) (fa ++ kf ++ ids ++ fb)) as Hl1.
  { apply leaf_rep_app; [by eapply leaf_rep_grow|]. constructor; [by eapply key_grow|done| |by eapply leaf_rep_grow].
    by rewrite (proj1 (grow_ext _ _ G1)). }
  assert (kv_insert key value (ka ++ (key, val) :: kb) = ka ++ (key, value) :: kb) as Ekv
    by (by rewrite kv_insert_skip, kv_insert_same).
  eapply runs_weaken; [|eapply runs_on_pager, (write_or_split_leaf t m _ _ _ lo hi pg1 (grow_ok _ _ G1) Hl1)].
  - intros c s (pg2 & -> & G2 & Hcp & fp' & Hrep & Hfp). exists pg2, (vf ++ [page]), fp'. rewrite Ekv, <- app_assoc.
    split_and!; try done; [by eapply grow_trans|]. rewrite (alloc_trans pg pg1 pg2) by done. perm_solve.
  - rewrite <- Ekv. by apply sorted_insert.
  - rewrite <- Ekv. by apply in_node_insert.
  - rewrite (proj1 (grow_ext _ _ G1)). rewrite node_size_leaf_app, node_size_leaf_cons in *.
    pose proof (leaf_entry_size_pos k v). lia.
Qed.

Lemma insert_leaf_absent page lo hi es kvs fp i pg sup : pager_ok pg ->
  leaf_rep pg es kvs fp -> StronglySorted entry_lt kvs -> in_node lo hi kvs -> key_le lo key -> below hi key ->
  node_size (Node.Leaf es) <= node_budget (page_size pg) ->
  search_leaf pg key es = Ok (inr i) -> (i <= length kvs.*1)%nat ->
  (forall j k, kvs.*1 !! j = Some k -> ((j < i)%nat -> key_lt k key) /\ ((i <= j)%nat -> key_lt key k)) ->
  TMruns (insert_leaf t key value page es) (pg, sup) (inserted 0 lo hi kvs (page :: fp) pg sup).
Proof using key_ok value_ok.
  intros Hok Hl Hs Hin Hlo Hhi Hsz Hsearch Hi Hcut.
  unfold insert_leaf. eapply runs_read; [exact Hsearch|].
  destruct (leaf_rep_cut _ _ _ _ _ _ Hl Hi Hcut) as (ka & kb & fa & fb & -> & -> & Hla & Hlb & Hbef & Haft).
  eapply runs_bind with (P := fun es' s => exists pg1 pg2 ek v' kids vids, es' = take i es ++ (ek, v') :: drop i es /\
    s = (pg2, sup) /\ grow pg pg1 /\ grow pg1 pg2 /\ leaf_entry_size ek v' <= entry_max (page_size pg) /\
    key_is pg2 ek key kids /\ val_is pg2 v' value vids /\ kids ≡ₚ alloc pg pg1 /\ vids ≡ₚ alloc pg1 pg2);
    [|auto 6 with mono|].
  { eapply runs_bind; [eapply runs_on_pager, make_key_spec; done|auto 6 with mono|].
    intros ek s (pg1 & -> & G1 & kids & Hk & Hkp).
    eapply runs_bind; [eapply runs_on_pager, store_value_spec; [apply (grow_ok _ _ G1)|exact Hk|done]|auto 6 with mono|].
    intros v' s (pg2 & -> & G2 & Hsz2 & vids & Hv & Hvp). rewrite (proj1 (grow_ext _ _ G1)) in Hsz2.
    apply runs_ret. exists pg1, pg2, ek, v', kids, vids. split_and!; try done. by eapply key_grow. }
  intros es' s (pg1 & pg2 & ek & v' & kids & vids & -> & -> & G1 & G2 & Hsz2 & Hk & Hv & Hkp & Hvp). apply runs_push.
  pose proof (grow_trans _ _ _ G1 G2) as G12.
  assert (leaf_rep pg2 (take i es ++ (ek, v') :: drop i es) (ka ++ (key, value) :: kb) (fa ++ kids ++ vids ++ fb)) as Hl1.
  { apply leaf_rep_app; [by eapply leaf_rep_grow|]. constructor; [done|done| |by eapply leaf_rep_grow].
    by rewrite (proj1 (grow_ext _ _ G12)). }
  assert (kv_insert key value (ka ++ kb) = ka ++ (key, value) :: kb) as Ekv
    by (by rewrite kv_insert_skip, kv_insert_after).
  eapply runs_weaken; [|eapply runs_on_pager, (write_or_split_leaf t m _ _ _ lo hi pg2 (grow_ok _ _ G2) Hl1)].
  - intros c s (pg3 & -> & G3 & Hcp & fp' & Hrep & Hfp). exists pg3, [page], fp'. rewrite Ekv.
    split_and!; try done; [by eapply grow_trans|].
    rewrite (alloc_trans pg pg2 pg3), (alloc_trans pg pg1 pg2) by done. perm_solve.
  - rewrite <- Ekv. by apply sorted_insert.
  - rewrite <- Ekv. by apply in_node_insert.
  - rewrite (proj1 (grow_ext _ _ G12)). rewrite <- (take_drop i es) in Hsz.
    rewrite node_size_leaf_app, ?node_size_leaf_cons in *. lia.
Qed.

Lemma mono_insert_leaf page es : TMmono (insert_leaf t key value page es).
Proof using Type.
  unfold insert_leaf. apply mono_bind; [auto with mono|]. intros [i|i].
  - apply mono_bind; [|auto 8 with mono]. destruct (es !! i) as [[k v]|]; auto 8 with mono.
  - auto 10 with mono.
Qed.
Lemma mono_adopt_child es i c : TMmono (adopt_child t es i c).
Proof using Type. unfold adopt_child. destruct c, (es !! i) as [[k v]|]; auto with mono. Qed.
#[local] Hint Resolve mono_insert_leaf mono_adopt_child : mono.
Lemma mono_insert_into fuel : forall page, TMmono (insert_into_cow t key value fuel page).
Proof using Type.
  induction fuel as [|fuel IH]; intros page; cbn [insert_into_cow]; auto with mono.
  apply mono_bind; [auto with mono|]. intros [es|es]; auto 12 with mono.
Qed.

Lemma insert_interior_sizes pg es i k c ek sep ids : page_size_ok (page_size pg) -> key_is pg ek sep ids ->
  es !! i = Some (k, c) -> node_size (Node.Interior es) <= node_budget (page_size pg) -> forall l r,
  node_size (Node.Interior (firstn i es ++ (k, l) :: (ek, r) :: skipn (S i) es))
    <= node_budget (page_size pg) + entry_max (page_size pg) /\
  node_size (Node.Interior (<[i := (k, l)]> es)) <= node_budget (page_size pg) + entry_max (page_size pg).
Proof using Type.
  intros Hps Hek Hi Hsz l r. pose proof (interior_size_bound _ _ _ _ Hps Hek).
  rewrite insert_take_drop by (by eapply lookup_lt_Some).
  rewrite <- (take_drop_middle es i (k, c)) in Hsz by done.
  rewrite !node_size_interior_app, !node_size_interior_cons in *. lia.
Qed.

(** The entries with the rewritten child, in the pager they are written to. *)
Lemma adopt_child_spec h page es ss lo hi i k c clo chi a b fa fb pg pg1 sup cw kc fc : pager_ok pg -> m <> Ordered ->
  page < next_page_id pg -> keys_are pg es ss -> es !! i = Some (k, c) ->
  node_size (Node.Interior es) <= node_budget (page_size pg) ->
  plugs pg m page (repr pg m h) es ss lo hi i k clo chi a b fa fb ->
  grow pg pg1 -> cow_pages pg1 cw -> cow_rep pg1 m h cw clo chi kc fc ->
  TMruns (adopt_child t es i cw) (pg1, sup) (fun es' s => exists pg2 ss' fe, s = (pg2, sup) /\ grow pg1 pg2 /\
    kids pg2 m (repr pg2 m h) (next_page_id pg2) es' ss' lo hi (a ++ kc ++ b) (fa ++ fe ++ fb) /\
    node_size (Node.Interior es') <= node_budget (page_size pg) + entry_max (page_size pg) /\
    fe ≡ₚ fc ++ alloc pg1 pg2).
Proof using Type.
  intros Hok Hm Hpage Hkeys He Hsz Hplug G1 Hcp Hcw. pose proof Hok as (Hps & _).
  unfold adopt_child. rewrite He. destruct cw as [p|l sep r].
  - apply runs_ret. destruct (Hplug pg1 (repr pg1 m h) (next_page_id pg1)) as [Hone _].
    { pose proof (grow_next _ _ G1). lia. } { intros. by eapply repr_grow. } { intros. by eapply key_grow. }
    destruct Hcp as [Hu Hlt]. exists pg1, ss, fc. split_and!; [done|by apply grow_refl, (grow_ok _ _ G1)|by apply Hone| |].
    + destruct (Forall2_lookup_l _ _ _ _ _ Hkeys He) as (s0 & _ & ids & Hks).
      by eapply (insert_interior_sizes pg es i k c k).
    + by rewrite alloc_refl, app_nil_r.
  - destruct Hcw as (ka & kb & f1 & f2 & Ekc & -> & HRl & HRr & Hls & Hsh & Hslen).
    destruct Hcp as (Hul & Hll & Hur & Hlr).
    eapply runs_bind; [eapply runs_on_pager, make_key_spec; [apply (grow_ok _ _ G1)|exact Hslen]|auto with mono|].
    intros ek s (pg2 & -> & G2 & ids & Hek & Hids). apply runs_ret.
    pose proof (grow_trans _ _ _ G1 G2) as G12. pose proof (grow_next _ _ G12). pose proof (grow_next _ _ G2).
    destruct (Hplug pg2 (repr pg2 m h) (next_page_id pg2)) as [_ Htwo].
    { lia. } { intros. by eapply repr_grow. } { intros. by eapply key_grow. }
    eexists pg2, _, (f1 ++ ids ++ f2). split_and!; [done|done| | |].
    + rewrite Ekc. apply Htwo; try done; try lia; (eapply repr_grow; [exact G2|assumption]).
    + rewrite <- (proj1 (grow_ext _ _ G12)). eapply (insert_interior_sizes pg2 es i k c ek); try done.
      * apply (grow_ok _ _ G12).
      * by rewrite (proj1 (grow_ext _ _ G12)).
    + perm_solve.
Qed.

Lemma insert_into_spec : m <> Ordered -> forall h fuel page lo hi kvs fp pg sup, pager_ok pg ->
  repr pg m h page lo hi kvs fp -> key_le lo key -> below hi key -> (h < fuel)%nat ->
  TMruns (insert_into_cow t key value fuel page) (pg, sup) (inserted h lo hi kvs fp pg sup).
Proof using key_ok value_ok.
  intros Hm h. induction h as [|h IH]; intros [|fuel] page lo hi kvs fp pg sup Hok Hr Hlo Hhi Hf; try lia;
    pose proof Hok as (Hps & _ & Hdom); cbn [insert_into_cow].
  - destruct Hr as (hd & es & fp' & Hp & Hsz & Hl & Hs & Hin & ->).
    eapply runs_read; [exact (read_leaf _ _ _ _ _ _ Hps Hp Hl)|].
    destruct (search_leaf_spec pg key es kvs.*1 (leaf_rep_keys _ _ _ _ Hl)) as (r & Er & Hres); [by apply sorted_fst|].
    destruct r as [i|i]; [by eapply insert_leaf_found|]. destruct Hres. by eapply insert_leaf_absent.
  - destruct Hr as (hd & es & ss & fp' & Hp & Hsz & Hk & ->).
    eapply runs_read; [exact (read_interior _ _ _ _ _ _ _ _ _ _ _ Hps Hp Hk)|].
    destruct (route_index_spec pg key es ss (kids_keys _ _ _ _ _ _ _ _ _ _ Hk)
      (proj1 (kids_sorted _ _ _ _ _ _ _ _ _ _ Hk)) (kids_ne _ _ _ _ _ _ _ _ _ _ Hk)) as (i & Ei & Hi & Hri).
    eapply runs_read; [exact Ei|]. destruct (lookup_lt_is_Some_2 es i Hi) as [[k c] He].
    eapply runs_lift; [unfold child_at; rewrite He; reflexivity|].
    destruct (kids_focus pg m page (repr pg m h) (fun _ _ _ _ _ => repr_in _ _ _ _ _ _ _ _) _ _ _ _ _ _ _ _ _
      Hk He Hri Hlo Hhi) as (clo & chi & a & kc & b & fa & fc & fb & -> & -> & HR & _ & H1 & H2 & Ha & Hb & Hplug).
    eapply runs_bind; [exact (IH fuel _ _ _ _ _ _ sup Hok HR H1 H2 ltac:(lia))|auto 8 with mono|].
    intros cw s (pg1 & ret & fc' & -> & G1 & Hcp & Hcw & Hperm).
    assert (page < next_page_id pg) as Hpage by (apply Hdom; by eexists).
    eapply runs_bind; [eapply (adopt_child_spec h page es ss lo hi i k c); try done;
      exact (kids_keys _ _ _ _ _ _ _ _ _ _ Hk)|auto 8 with mono|].
    intros es' s (pg2 & ss' & fe & -> & G2 & Hk2 & Hsz2 & Hfe). apply runs_push.
    pose proof (grow_trans _ _ _ G1 G2) as G12. rewrite <- (proj1 (grow_ext _ _ G12)) in Hsz2.
    eapply runs_weaken; [|eapply runs_on_pager, (write_or_split_interior t m h _ _ _ _ lo hi pg2 (grow_ok _ _ G2) Hk2 Hsz2)].
    intros cw' s (pg3 & -> & G3 & Hcp3 & fp3 & Hrep3 & Hfp3).
    exists pg3, (ret ++ [page]), fp3. rewrite kv_insert_mid, <- app_assoc by done.
    split_and!; try done; [by eapply grow_trans|].
    rewrite (alloc_trans pg pg2 pg3), (alloc_trans pg pg1 pg2) by done. perm_solve.
Qed.
End updates.

Section deletes.
Context (t : PagedTree) (key : list Z) (m : mode).

(** What a step of a delete leaves: nothing changed when the key is absent. *)
Definition deleted (h : nat) (lo : list Z) (hi : bound) (kvs : list kv) (fp : list Z) (pg : Pager) (sup : list Z)
    (r : option Z) (s : Pager * list Z) : Prop :=
  match r with
  | None => s = (pg, sup) /\ kv_get key kvs = None
  | Some p => exists pg' retired fp', s = (pg', sup ++ retired) /\ grow pg pg' /\ u_ok 64 p /\ p < next_page_id pg' /\
      is_Some (kv_get key kvs) /\ repr pg' m h p lo hi (kv_delete key kvs) fp' /\ fp' ++ retired ≡ₚ fp ++ alloc pg pg'
  end.

Lemma mono_delete_into fuel : forall page, TMmono (delete_into_cow t key fuel page).
Proof using Type.
  induction fuel as [|fuel IH]; intros page; cbn [delete_into_cow]; auto with mono.
  apply mono_bind; [auto with mono|]. intros [es|es].
  - apply mono_bind; [auto with mono|]. intros [i|i]; [|auto with mono].
    destruct (es !! i) as [[k v]|]; auto 12 with mono.
  - do 3 (apply mono_bind; [auto with mono|]; intros ?). destruct a1 as [p|]; [|auto with mono].
    destruct (es !! a) as [[k c]|]; auto 12 with mono.
Qed.

Lemma kv_delete_Forall (P : kv -> Prop) l : Forall P l -> Forall P (kv_delete key l).
Proof using Type.
  induction 1 as [|[k v] l Hk Hf IH]; simpl; [constructor|]. destruct (decide (k = key)); [done|by constructor].
Qed.
Lemma sorted_delete l : StronglySorted entry_lt l -> StronglySorted entry_lt (kv_delete key l).
Proof using Type.
  induction 1 as [|[k v] l Hs IH Hf]; simpl; [constructor|]. destruct (decide (k = key)); [done|].
  constructor; [done|]. by apply kv_delete_Forall.
Qed.

Lemma delete_into_leaf page lo hi es kvs fp i pg sup : pager_ok pg ->
  leaf_rep pg es kvs fp -> StronglySorted entry_lt kvs -> in_node lo hi kvs ->
  node_size (Node.Leaf es) <= node_budget (page_size pg) -> kvs.*1 !! i = Some key ->
  forall old_key old, es !! i = Some (old_key, old) ->
  TMruns (supersede_key old_key ≫= fun _ => supersede_value old ≫= fun _ => push_superseded page ≫= fun _ =>
    on_pager (write_new_node t (Node.Leaf (delete i es))) ≫= fun p => mret (Some p)) (pg, sup)
    (deleted 0 lo hi kvs (page :: fp) pg sup).
Proof using Type.
  intros Hok Hl Hs Hin Hsz Hi old_key old He.
  destruct (leaf_rep_at _ _ _ _ _ _ Hl Hi) as
    (ea & k & v & eb & ka & val & kb & fa & kf & vf & fb & -> & Hea & -> & -> & Hla & Hk & Hv & Hes & Hlb).
  rewrite list_lookup_middle in He by done. injection He as <- <-.
  destruct (kv_sorted_at key ka val kb Hs) as [Hbef Haft].
  assert (kv_delete key (ka ++ (key, val) :: kb) = ka ++ kb) as Ekv
    by (rewrite kv_delete_skip by done; simpl; by rewrite decide_True).
  assert (delete i (ea ++ (k, v) :: eb) = ea ++ eb) as -> by (rewrite <- Hea; apply delete_middle).
  eapply runs_supersede_key; [exact Hk|]. eapply runs_supersede_value; [exact Hv|]. apply runs_push.
  eapply runs_bind; [eapply runs_on_pager, (write_node_repr t pg m 0 (Node.Leaf (ea ++ eb)) lo hi (ka ++ kb) (fa ++ fb))
    |auto with mono|].
  - done.
  - rewrite node_size_leaf_app, ?node_size_leaf_cons in *. pose proof (leaf_entry_size_pos k v). lia.
  - intros pg' p hd G _ Hp. exists hd, (ea ++ eb), (fa ++ fb). rewrite (proj1 (grow_ext _ _ G)), <- Ekv.
    split_and!; [done| | |by apply sorted_delete|by apply kv_delete_Forall|done].
    + rewrite node_size_leaf_app, ?node_size_leaf_cons in *. pose proof (leaf_entry_size_pos k v). lia.
    + rewrite Ekv. by apply leaf_rep_app; eapply leaf_rep_grow.
  - intros p s (pg' & -> & G & Hu & Hlt & HA & HR). apply runs_ret.
    exists pg', (kf ++ vf ++ [page]), (p :: fa ++ fb). rewrite Ekv, <- !app_assoc.
    split_and!; try done.
    + rewrite kv_get_skip; [simpl; by rewrite decide_True|]. eapply Forall_impl; [exact Hbef|].
      intros q Hq. by apply key_lt_ne.
    + rewrite HA. perm_solve.
Qed.

Lemma delete_into_spec : forall h fuel page lo hi kvs fp pg sup, pager_ok pg ->
  repr pg m h page lo hi kvs fp -> key_le lo key -> below hi key -> (h < fuel)%nat ->
  TMruns (delete_into_cow t key fuel page) (pg, sup) (deleted h lo hi kvs fp pg sup).
Proof using Type.
  intros h. induction h as [|h IH]; intros [|fuel] page lo hi kvs fp pg sup Hok Hr Hlo Hhi Hf; try lia;
    pose proof Hok as (Hps & _ & Hdom); cbn [delete_into_cow].
  - destruct Hr as (hd & es & fp' & Hp & Hsz & Hl & Hs & Hin & ->).
    eapply runs_read; [exact (read_leaf _ _ _ _ _ _ Hps Hp Hl)|].
    pose proof (leaf_rep_keys _ _ _ _ Hl) as Hks.
    destruct (search_leaf_spec pg key es kvs.*1 Hks) as (r & Er & Hres); [by apply sorted_fst|].
    eapply runs_read; [exact Er|]. destruct r as [i|i].
    + destruct (es !! i) as [[k v]|] eqn:He; [by eapply delete_into_leaf|].
      apply lookup_lt_Some in Hres. rewrite <- (Forall2_length _ _ _ Hks) in Hres.
      apply lookup_ge_None_1 in He. lia.
    + apply runs_ret. split; [done|]. destruct Hres as [Hi Hcut].
      destruct (leaf_rep_cut _ _ _ _ _ _ Hl Hi Hcut) as (ka & kb & fa & fb & -> & _ & _ & _ & Hbef & Haft).
      rewrite <- (app_nil_l kb). by rewrite kv_get_mid.
  - destruct Hr as (hd & es & ss & fp' & Hp & Hsz & Hk & ->).
    eapply runs_read; [exact (read_interior _ _ _ _ _ _ _ _ _ _ _ Hps Hp Hk)|].
    destruct (route_index_spec pg key es ss (kids_keys _ _ _ _ _ _ _ _ _ _ Hk)
      (proj1 (kids_sorted _ _ _ _ _ _ _ _ _ _ Hk)) (kids_ne _ _ _ _ _ _ _ _ _ _ Hk)) as (i & Ei & Hi & Hri).
    eapply runs_read; [exact Ei|]. destruct (lookup_lt_is_Some_2 es i Hi) as [[k c] He].
    eapply runs_lift; [unfold child_at; rewrite He; reflexivity|].
    destruct (kids_focus pg m page (repr pg m h) (fun _ _ _ _ _ => repr_in _ _ _ _ _ _ _ _) _ _ _ _ _ _ _ _ _
      Hk He Hri Hlo Hhi) as (clo & chi & a & kc & b & fa & fc & fb & -> & -> & HR & _ & H1 & H2 & Ha & Hb & Hplug).
    eapply runs_bind; [exact (IH fuel _ _ _ _ _ _ sup Hok HR H1 H2 ltac:(lia))| |].
    { intros [p|]; [|auto with mono]. rewrite He. auto 8 with mono. }
    intros [c'|] s Hdel.
    2: { destruct Hdel as [-> Hnone]. apply runs_ret. split; [done|]. by rewrite kv_get_mid. }
    destruct Hdel as (pg1 & ret & fc' & -> & G1 & Hu & Hlt & Hsome & HRc & Hperm). rewrite He. apply runs_push.
    assert (page < next_page_id pg) as Hpage by (apply Hdom; by eexists).
    assert (node_size (Node.Interior (<[i := (k, c')]> es)) <= node_budget (page_size pg)) as Hsz1.
    { rewrite insert_take_drop by done. rewrite <- (take_drop_middle es i (k, c)) in Hsz by done.
      rewrite !node_size_interior_app, !node_size_interior_cons in *. lia. }
    eapply runs_bind; [eapply runs_on_pager, (write_node_repr t pg1 m (S h) (Node.Interior (<[i := (k, c')]> es)) lo hi
      (a ++ kv_delete key kc ++ b) (fa ++ fc' ++ fb) (grow_ok _ _ G1))|auto with mono|].
    + by rewrite (proj1 (grow_ext _ _ G1)).
    + intros pg2 p hd2 G2 Hge Hp2. pose proof (grow_trans _ _ _ G1 G2) as G12. pose proof (grow_next _ _ G1).
      exists hd2, (<[i := (k, c')]> es), ss, (fa ++ fc' ++ fb). rewrite (proj1 (grow_ext _ _ G12)).
      split_and!; [done|done| |done].
      destruct (Hplug pg2 (repr pg2 m h) p) as [Hone _];
        [lia|intros; by eapply repr_grow|intros; by eapply key_grow|].
      apply Hone; [done|lia|]. eapply repr_grow; [exact G2|exact HRc].
    + intros p s (pg2 & -> & G2 & Hu2 & Hlt2 & HA & HR2). apply runs_ret.
      exists pg2, (ret ++ [page]), (p :: fa ++ fc' ++ fb). rewrite kv_delete_mid, kv_get_mid, <- app_assoc by done.
      split_and!; try done; [by eapply grow_trans|].
      rewrite (alloc_trans pg pg1 pg2), HA by done. perm_solve.
Qed.
End deletes.
