(* ===== verification/PagedTreeSpec.v ===== *)
(** The paged tree refines a finite map from byte strings to byte strings.

    [tree_is] says that a tree holds a map in given pages. The theorems state
    lookups, range scans, copy-on-write inserts and deletes and the in-place
    variants against the map; a last one states that the in-place lookup and a
    scan can disagree once a bulk-loaded tree takes smaller keys. *)

From stdpp Require Import base list list_numbers gmap sorting.
From Stdlib Require Import ZArith Lia.
From S2P Require Import Prelude PageFormat PagedTree PagedTreeNode PagedTreeRep PagedTreeWrite.

Notation kmap := (gmap (list Z) (list Z)).

(** [t] holds [M] in the pages [fp]. *)
Definition tree_is (pg : Pager) (m : mode) (t : PagedTree) (M : kmap) (fp : list Z) : Prop :=
  (exists h, repr pg m h (root t) [] None (btree_entries M) fp) /\ NoDup fp.

(** [t] holds [M], and the pager has no other page. *)
Definition owns (pg : Pager) (m : mode) (t : PagedTree) (M : kmap) : Prop :=
  exists fp, tree_is pg m t M fp /\ forall id, is_Some (pages pg !! id) <-> id ∈ fp.

(** * Sorted entries and maps *)

Lemma kv_get_elem key v l : StronglySorted entry_lt l -> (key, v) ∈ l <-> kv_get key l = Some v.
Proof.
  induction 1 as [|[k v'] l _ IH Hf]; simpl; [by rewrite elem_of_nil|]. rewrite elem_of_cons, IH.
  destruct (decide (k = key)) as [->|Hne]; [|naive_solver].
  split; [|intros [= ->]; by left]. intros [[= ->]|Hg]; [done|]. exfalso.
  apply (proj2 IH) in Hg. rewrite Forall_forall in Hf. by apply (key_lt_irrefl key), (Hf (key, v)).
Qed.

Lemma kv_get_entries (key : list Z) (M : kmap) : kv_get key (btree_entries M) = M !! key.
Proof.
  apply option_eq. intros v. rewrite <- elem_of_btree_entries. symmetry. apply kv_get_elem, btree_entries_sorted.
Qed.

Lemma kv_get_insert key v k l : kv_get k (kv_insert key v l) = if decide (k = key) then Some v else kv_get k l.
Proof.
  induction l as [|[k' v'] l IH]; simpl.
  - destruct (decide (key = k)), (decide (k = key)); congruence.
  - destruct (lex_compare key k') eqn:C; simpl.
    + apply lex_compare_eq in C as <-. destruct (decide (key = k)), (decide (k = key)); congruence.
    + destruct (decide (key = k)), (decide (k = key)); congruence.
    + rewrite IH. destruct (decide (k' = k)) as [->|]; [|done]. rewrite decide_False; [done|]. intros ->.
      apply lex_compare_Gt in C. by apply (key_lt_irrefl key).
Qed.

Lemma kv_insert_entries (key v : list Z) (M : kmap) : kv_insert key v (btree_entries M) = btree_entries (<[key := v]> M).
Proof.
  pose proof (sorted_insert key v _ (btree_entries_sorted M)) as Hs. apply btree_entries_unique; [done|].
  intros k v'. rewrite (kv_get_elem k v' _ Hs), kv_get_insert, kv_get_entries.
  destruct (decide (k = key)) as [->|]; [by rewrite lookup_insert_eq|by rewrite lookup_insert_ne].
Qed.

Lemma kv_get_delete key k l : StronglySorted entry_lt l ->
  kv_get k (kv_delete key l) = if decide (k = key) then None else kv_get k l.
Proof.
  induction 1 as [|[k' v'] l Hs IH Hf]; simpl; [by destruct (decide (k = key))|].
  destruct (decide (k' = key)) as [->|].
  - destruct (decide (k = key)) as [->|]; [|by rewrite decide_False].
    apply kv_get_none. eapply Forall_impl; [exact Hf|]. intros p Hp E.
    apply (key_lt_irrefl key). rewrite <- E at 2. exact Hp.
  - simpl. rewrite IH. destruct (decide (k' = k)) as [->|]; [by rewrite decide_False|done].
Qed.

Lemma kv_delete_entries (key : list Z) (M : kmap) : kv_delete key (btree_entries M) = btree_entries (delete key M).
Proof.
  pose proof (btree_entries_sorted M) as HM. pose proof (sorted_delete key _ HM) as Hs.
  apply btree_entries_unique; [done|].
  intros k v'. rewrite (kv_get_elem k v' _ Hs), kv_get_delete, kv_get_entries by done.
  destruct (decide (k = key)) as [->|]; [by rewrite lookup_delete_eq|by rewrite lookup_delete_ne].
Qed.

(** * Pages *)

Lemma tree_is_grow pg pg' m t M fp : grow pg pg' -> tree_is pg m t M fp -> tree_is pg' m t M fp.
Proof. intros G [[h Hr] Hnd]. split; [|done]. exists h. by eapply repr_grow. Qed.

Lemma tree_pages pg m t M fp : tree_is pg m t M fp -> Forall (fun id => is_Some (pages pg !! id)) fp.
Proof. intros [[h Hr] _]. by eapply repr_ids. Qed.

Lemma elem_of_alloc pg pg' id : id ∈ alloc pg pg' <-> next_page_id pg <= id < next_page_id pg'.
Proof. unfold alloc. rewrite elem_of_seqZ. lia. Qed.

(** Old pages and new ones are distinct, so the new tree and the superseded
    pages share none. *)
Lemma accounting_NoDup pg pg' fp fp' ret : pager_ok pg -> NoDup fp -> Forall (fun id => is_Some (pages pg !! id)) fp ->
  fp' ++ ret ≡ₚ fp ++ alloc pg pg' -> NoDup fp' /\ NoDup ret /\ (forall id, id ∈ fp' -> id ∉ ret).
Proof.
  intros (_ & _ & Hdom) Hnd Hin Hp. assert (NoDup (fp ++ alloc pg pg')) as H.
  { apply NoDup_app. split; [done|]. split; [|apply NoDup_seqZ].
    intros id Hid Ha%elem_of_alloc. rewrite Forall_forall in Hin. pose proof (Hdom _ (Hin _ Hid)). lia. }
  rewrite <- Hp in H. apply NoDup_app in H. naive_solver.
Qed.

(** * Copy-on-write updates *)

Section root.
Context (t : PagedTree) (m : mode).

(** The new root over a split one. *)
Lemma new_root_spec pg h l sep r ka kb fa fb : pager_ok pg -> m <> Ordered ->
  repr pg m h l [] (Some sep) ka fa -> repr pg m h r sep None kb fb -> key_lt [] sep -> blen sep < 2 ^ 32 ->
  cow_pages pg (Cow.Split l sep r) ->
  PMruns (make_key t sep ≫= fun sep_key => write_new_node t (Node.Interior [(EntryKey.Inline [], l); (sep_key, r)])) pg
    (fun p pg' => grow pg pg' /\ exists fp, repr pg' m (S h) p [] None (ka ++ kb) fp /\ fp ≡ₚ (fa ++ fb) ++ alloc pg pg').
Proof using Type.
  intros Hok Hm HL HR Hsep Hlen (Hul & Hll & Hur & Hlr). pose proof Hok as (Hps & _).
  eapply runs_bind; [by apply make_key_spec|auto with mono|]. intros ek pg1 (G1 & ids & Hek & Hids).
  pose proof (grow_ok _ _ G1) as Hok1. pose proof Hok1 as (Hps1 & _). pose proof (grow_next _ _ G1).
  assert (key_is pg1 (EntryKey.Inline []) [] []) as Hnil.
  { split; [done|]. split; [done|]. unfold max_inline_key, node_budget, PAGE_HEADER_LEN.
    apply Z.div_pos; [destruct Hps1; lia|lia]. }
  pose proof (interior_size_bound _ _ _ _ Hps1 Hek). pose proof (interior_size_bound _ _ _ _ Hps1 Hnil).
  pose proof (budget_thirds _ Hps1) as (_ & _ & HB).
  assert (node_size (Node.Interior [(EntryKey.Inline [], l); (ek, r)]) <= node_budget (page_size pg1)) as Hsz
    by (cbn [node_size map sum_sizes foldr fst]; lia).
  eapply runs_weaken; [|apply (write_node_repr t pg1 m (S h) _ [] None (ka ++ kb) (fa ++ ids ++ fb) Hok1 Hsz)].
  - intros p pg2 (G2 & _ & _ & HA & Hr). split; [by eapply grow_trans|].
    exists (p :: fa ++ ids ++ fb). split; [done|]. rewrite (alloc_trans pg pg1 pg2), HA by done. perm_solve.
  - intros pg2 p hd G2 Hge Hp. pose proof (grow_trans _ _ _ G1 G2) as G12.
    eexists hd, _, [[]; sep], (fa ++ ids ++ fb). split; [exact Hp|].
    split; [by rewrite (proj1 (grow_ext _ _ G2))|]. split; [|done].
    apply (kids_cons pg2 m _ p (EntryKey.Inline []) l [(ek, r)] [] sep [] [] None ka kb [] fa (ids ++ fb));
      try done; [exact (key_grow _ _ _ _ _ G2 Hnil)|by destruct m|lia|eapply repr_grow; [exact G12|exact HL]|].
    constructor; [exact (key_grow _ _ _ _ _ G2 Hek)|by destruct m; simpl|done|lia|eapply repr_grow; [exact G12|exact HR]].
Qed.

Lemma insert_cow_spec key value M fp pg sup : pager_ok pg -> m <> Ordered -> tree_is pg m t M fp ->
  key <> [] -> blen key < 2 ^ 32 -> blen value < 2 ^ 64 ->
  TMruns (insert_cow t key value) (pg, sup) (fun t' s => exists pg' ret fp', s = (pg', sup ++ ret) /\ grow pg pg' /\
    t' = {| table_id := table_id t; index_tree := index_tree t; root := root t' |} /\
    tree_is pg' m t' (<[key := value]> M) fp' /\ fp' ++ ret ≡ₚ fp ++ alloc pg pg').
Proof using Type.
  intros Hok Hm Ht Hne Hk Hv. pose proof Ht as [[h Hr] Hnd]. pose proof (tree_pages _ _ _ _ _ Ht) as Hin.
  eapply runs_ext; [reflexivity|].
  eapply runs_lift with (a := tt).
  { unfold check_key. destruct key; [done|]. by rewrite (proj2 (Z.ltb_lt _ _) Hk). }
  assert (key_le [] key) as Hlo by (unfold key_le; simpl; by destruct key).
  eapply runs_bind; [apply (insert_into_spec t key value m Hk Hv Hm h _ _ [] None _ _ pg sup Hok Hr Hlo I (repr_depth _ _ _ _ _ _ _ _ Hr))| |].
  { intros c. apply mono_bind; [destruct c; auto with mono|auto with mono]. }
  intros c s (pg1 & ret & fp1 & -> & G1 & Hcp & Hrep & Hperm). rewrite kv_insert_entries in Hrep.
  eapply runs_bind with (P := fun p s => exists pg2 fp2 h2, s = (pg2, sup ++ ret) /\ grow pg1 pg2 /\
    repr pg2 m h2 p [] None (btree_entries (<[key := value]> M)) fp2 /\ fp2 ≡ₚ fp1 ++ alloc pg1 pg2); [|auto with mono|].
  - destruct c as [p|l sep r].
    + apply runs_ret. exists pg1, fp1, h. rewrite alloc_refl, app_nil_r.
      split_and!; [done|by apply grow_refl, (grow_ok _ _ G1)|done|done].
    + destruct Hrep as (ka & kb & fa & fb & Ekv & -> & HL & HR & Hls & _ & Hlen).
      eapply runs_weaken with (P := fun p s => exists pg2, s = (pg2, sup ++ ret) /\ grow pg1 pg2 /\
        exists fp, repr pg2 m (S h) p [] None (ka ++ kb) fp /\ fp ≡ₚ (fa ++ fb) ++ alloc pg1 pg2).
      { intros p s (pg2 & -> & G2 & fp2 & HR2 & Hp2). rewrite <- Ekv in HR2. by exists pg2, fp2, (S h). }
      eapply runs_ext; [|eapply runs_on_pager, (new_root_spec pg1 h l sep r ka kb fa fb (grow_ok _ _ G1) Hm HL HR Hls Hlen Hcp)].
      unfold mbind, sm_bind, on_pager. by destruct (make_key t sep pg1) as [[ek|e] pg2].
  - intros p s (pg2 & fp2 & h2 & -> & G2 & HR2 & Hp2). apply runs_ret.
    assert (fp2 ++ ret ≡ₚ fp ++ alloc pg pg2) as Hacc by (rewrite (alloc_trans pg pg1 pg2) by done; perm_solve).
    exists pg2, ret, fp2. split_and!; try done; [by eapply grow_trans|]. split; [by exists h2|].
    exact (proj1 (accounting_NoDup _ _ _ _ _ Hok Hnd Hin Hacc)).
Qed.

Lemma delete_cow_spec key M fp pg sup : pager_ok pg -> tree_is pg m t M fp ->
  TMruns (delete_cow t key) (pg, sup) (fun r s => exists pg' ret fp', s = (pg', sup ++ ret) /\ grow pg pg' /\
    r.1 = bool_decide (is_Some (M !! key)) /\
    r.2 = {| table_id := table_id t; index_tree := index_tree t; root := root r.2 |} /\
    tree_is pg' m r.2 (delete key M) fp' /\ fp' ++ ret ≡ₚ fp ++ alloc pg pg').
Proof using Type.
  intros Hok Ht. pose proof Ht as [[h Hr] Hnd]. pose proof (tree_pages _ _ _ _ _ Ht) as Hin.
  assert (key_le [] key) as Hlo by (unfold key_le; simpl; by destruct key).
  eapply runs_ext; [reflexivity|].
  eapply runs_bind; [apply (delete_into_spec t key m h _ _ [] None _ _ pg sup Hok Hr Hlo I (repr_depth _ _ _ _ _ _ _ _ Hr))| |].
  { intros [p|]; auto with mono. }
  intros [p|] s Hdel; apply runs_ret.
  - destruct Hdel as (pg' & ret & fp' & -> & G & _ & _ & Hsome & Hrep & Hacc). rewrite kv_get_entries in Hsome.
    exists pg', ret, fp'. rewrite bool_decide_eq_true_2 by done. rewrite kv_delete_entries in Hrep.
    split_and!; try done. split; [by exists h|].
    exact (proj1 (accounting_NoDup _ _ _ _ _ Hok Hnd Hin Hacc)).
  - destruct Hdel as [-> Hnone]. rewrite kv_get_entries in Hnone. exists pg, [], fp.
    rewrite !app_nil_r, alloc_refl, app_nil_r, bool_decide_eq_false_2 by (by rewrite Hnone; intros []).
    rewrite delete_id by done. split_and!; try done; [by apply grow_refl|]. by destruct t.
Qed.
End root.

(** * In-place updates: superseded pages freed at once *)

Lemma free_superseded_spec ids : forall pg, exists pg', free_superseded ids pg = (Ok tt, pg') /\
  page_size pg' = page_size pg /\ next_page_id pg' = next_page_id pg /\
  forall id, pages pg' !! id = if decide (id ∈ ids) then None else pages pg !! id.
Proof.
  induction ids as [|i ids IH]; intros pg; [by exists pg|].
  destruct (IH (free_page i pg).2) as (pg' & E & Hps & Hn & Hl). exists pg'. split_and!; try done.
  intros id. rewrite Hl. simpl. rewrite (decide_ext (id ∈ i :: ids) (id = i \/ id ∈ ids)) by apply elem_of_cons.
  destruct (decide (id ∈ ids)) as [|]; [by rewrite decide_True by auto|].
  destruct (decide (id = i \/ id ∈ ids)) as [[->|]|Hno]; [by rewrite lookup_delete_eq|done|].
  rewrite lookup_delete_ne; [done|]. naive_solver.
Qed.

Lemma free_owns pg m t M fp ret (old : list Z) pg1 : pager_ok pg -> (forall id, is_Some (pages pg !! id) <-> id ∈ old) ->
  NoDup old -> grow pg pg1 -> tree_is pg1 m t M fp -> fp ++ ret ≡ₚ old ++ alloc pg pg1 ->
  exists pg2, free_superseded ret pg1 = (Ok tt, pg2) /\ pager_ok pg2 /\ owns pg2 m t M /\ next_page_id pg2 = next_page_id pg1.
Proof.
  intros Hok Hold Hnd G [[h Hr] Hfp] Hacc.
  destruct (accounting_NoDup pg pg1 old fp ret Hok Hnd) as (_ & _ & Hdisj);
    [apply Forall_forall; intros id; apply Hold|done|].
  destruct (free_superseded_spec ret pg1) as (pg2 & E & Hps & Hn & Hl). exists pg2. split; [done|].
  assert (same_on fp pg1 pg2) as Hsame.
  { split; [done|]. apply Forall_forall. intros id Hid. rewrite Hl, decide_False; [done|]. by apply Hdisj. }
  split; [|split; [|done]].
  - destruct (grow_ok _ _ G) as (H1 & H2 & H3). split; [by rewrite Hps|]. rewrite Hn. split; [done|].
    intros id. rewrite Hl. destruct (decide (id ∈ ret)); [by intros []|]. apply H3.
  - exists fp. split; [split; [exists h; by eapply repr_frame|done]|]. intros id. rewrite Hl.
    assert (is_Some (pages pg1 !! id) <-> id ∈ fp ++ ret) as Hdom.
    { rewrite Hacc, elem_of_app, (grow_dom _ _ G), Hold, elem_of_alloc. done. }
    rewrite elem_of_app in Hdom. destruct (decide (id ∈ ret)) as [Hr'|]; [|naive_solver].
    split; [by intros []|]. intros Hf. by destruct (Hdisj id Hf).
Qed.

Lemma mono_insert_cow t key value : mono tm_next (insert_cow t key value).
Proof.
  intros [pg sup]. apply mono_bind; [auto with mono|]. intros _. apply mono_bind; [apply mono_insert_into|].
  intros c. apply mono_bind; [destruct c; auto with mono|auto with mono].
Qed.
Lemma mono_delete_cow t key : mono tm_next (delete_cow t key).
Proof. intros [pg sup]. apply mono_bind; [apply mono_delete_into|]. intros [p|]; auto with mono. Qed.
Lemma mono_free ids : PMmono (free_superseded ids).
Proof. intros pg. destruct (free_superseded_spec ids pg) as (pg' & -> & _ & Hn & _). simpl. lia. Qed.
Lemma mono_free_ret {A} ids (a : A) : PMmono (free_superseded ids ≫= fun _ => mret a).
Proof. apply mono_bind; [apply mono_free|auto with mono]. Qed.
Lemma mono_insert_now t key value : PMmono (insert_now t key value).
Proof.
  intros pg. unfold insert_now. pose proof (mono_insert_cow t key value (pg, [])) as Hm. unfold tm_next in Hm. cbn [fst] in Hm.
  destruct (insert_cow t key value (pg, [])) as [[t'|e] [pg1 sup]]; simpl in *; [|done].
  pose proof (mono_free_ret sup t' pg1).
  lia.
Qed.
Lemma mono_delete_now t key : PMmono (delete_now t key).
Proof.
  intros pg. unfold delete_now. pose proof (mono_delete_cow t key (pg, [])) as Hm. unfold tm_next in Hm. cbn [fst] in Hm.
  destruct (delete_cow t key (pg, [])) as [[t'|e] [pg1 sup]]; simpl in *; [|done].
  pose proof (mono_free_ret sup t' pg1).
  lia.
Qed.
#[export] Hint Resolve mono_insert_now mono_delete_now : mono.

Lemma insert_now_owns t key value m M pg : pager_ok pg -> m <> Ordered -> owns pg m t M ->
  key <> [] -> blen key < 2 ^ 32 -> blen value < 2 ^ 64 ->
  PMruns (insert_now t key value) pg (fun t' pg' => pager_ok pg' /\ owns pg' m t' (<[key := value]> M)).
Proof.
  intros Hok Hm (fp & Ht & Hall) Hne Hk Hv Hc. pose proof (insert_cow_spec t m key value M fp pg [] Hok Hm Ht Hne Hk Hv) as Hs.
  unfold runs, insert_now in *. pose proof (mono_insert_cow t key value (pg, [])) as Hmono. unfold tm_next in *.
  destruct (insert_cow t key value (pg, [])) as [r [pg1 sup]] eqn:E. simpl in *.
  assert (next_page_id pg1 <= 2 ^ 64) as Hb.
  { destruct r as [t'|e]; [|done].
    pose proof (mono_free_ret sup t' pg1). lia. }
  destruct (Hs Hb) as (t' & s & Es & pg' & ret & fp' & -> & G & _ & Ht' & Hacc).
  injection Es as -> -> ->.
  destruct (free_owns pg m t' (<[key := value]> M) fp' ret fp pg' Hok Hall (proj2 Ht) G Ht' Hacc) as (pg2 & E2 & Hok2 & Ho & _).
  exists t', pg2. split; [|done]. unfold mbind, sm_bind. by rewrite E2.
Qed.

Lemma delete_now_owns t key m M pg : pager_ok pg -> owns pg m t M ->
  PMruns (delete_now t key) pg (fun r pg' => pager_ok pg' /\ r.1 = bool_decide (is_Some (M !! key)) /\
    owns pg' m r.2 (delete key M)).
Proof.
  intros Hok (fp & Ht & Hall) Hc. pose proof (delete_cow_spec t m key M fp pg [] Hok Ht) as Hs.
  unfold runs, delete_now in *. pose proof (mono_delete_cow t key (pg, [])) as Hmono. unfold tm_next in *.
  destruct (delete_cow t key (pg, [])) as [r [pg1 sup]] eqn:E. simpl in *.
  assert (next_page_id pg1 <= 2 ^ 64) as Hb.
  { destruct r as [t'|e]; [|done].
    pose proof (mono_free_ret sup t' pg1). lia. }
  destruct (Hs Hb) as (t' & s & Es & pg' & ret & fp' & -> & G & Hr1 & _ & Ht' & Hacc).
  injection Es as -> -> ->.
  destruct (free_owns pg m t'.2 (delete key M) fp' ret fp pg' Hok Hall (proj2 Ht) G Ht' Hacc) as (pg2 & E2 & Hok2 & Ho & _).
  exists t', pg2. split; [|done]. unfold mbind, sm_bind. by rewrite E2.
Qed.

(** * Whole histories *)

Module TreeOp.
Inductive t : Type :=
  | Insert (key value : list Z)
  | Delete (key : list Z).

Definition ok (o : t) : Prop :=
  match o with Insert key value => key <> [] /\ blen key < 2 ^ 32 /\ blen value < 2 ^ 64 | Delete _ => True end.

Definition run (tr : PagedTree) (o : t) : PM PagedTree :=
  match o with
  | Insert key value => insert_now tr key value
  | Delete key => delete_now tr key ≫= fun r => mret r.2
  end.

Fixpoint run_all (tr : PagedTree) (ops : list t) : PM PagedTree :=
  match ops with [] => mret tr | o :: ops => run tr o ≫= fun tr => run_all tr ops end.

Definition apply (M : kmap) (o : t) : kmap :=
  match o with Insert key value => <[key := value]> M | Delete key => delete key M end.
End TreeOp.

Definition empty_pager (ps : Z) : Pager := {| page_size := ps; pages := ∅; next_page_id := 1 |}.

Lemma create_grow tid idx m pg : pager_ok pg ->
  PMruns (create tid idx) pg (fun t pg' => grow pg pg' /\ table_id t = tid /\
    exists p, alloc pg pg' = [p] /\ tree_is pg' m t ∅ [p]).
Proof.
  intros Hok. pose proof Hok as ([Hps1 Hps2] & _).
  assert (0 <= node_budget (page_size pg)) as Hb by (unfold node_budget, PAGE_HEADER_LEN; lia).
  eapply runs_bind; [apply (write_node_repr _ pg m 0 (Node.Leaf []) [] None [] []); [done|simpl; done|]|auto with mono|].
  - intros pg' p hd G _ Hp. exists hd, [], []. rewrite (proj1 (grow_ext _ _ G)). split_and!; try done; constructor.
  - intros p pg' (G & _ & _ & HA & Hr). apply runs_ret. split; [done|]. split; [done|].
    exists p. split; [done|]. split; [exists 0%nat; by rewrite btree_entries_empty|apply NoDup_singleton].
Qed.

Lemma create_spec tid idx m pg : pager_ok pg -> pages pg = ∅ ->
  PMruns (create tid idx) pg (fun t pg' => pager_ok pg' /\ owns pg' m t ∅).
Proof.
  intros Hok Hempty. eapply runs_weaken; [|by apply create_grow].
  intros t pg' (G & _ & p & HA & Ht). split; [apply (grow_ok _ _ G)|]. exists [p]. split; [exact Ht|].
  intros id. rewrite (grow_dom _ _ G), <- elem_of_alloc, HA, Hempty, lookup_empty. split; [|by right].
  intros [[? ?]|?]; done.
Qed.

Lemma mono_run tr o : PMmono (TreeOp.run tr o).
Proof. destruct o; simpl; auto with mono. Qed.
Lemma mono_run_all ops : forall tr, PMmono (TreeOp.run_all tr ops).
Proof. induction ops; intros tr; simpl; [auto with mono|]. apply mono_bind; [apply mono_run|done]. Qed.

Lemma run_all_owns m ops : m <> Ordered -> Forall TreeOp.ok ops -> forall tr M pg, pager_ok pg -> owns pg m tr M ->
  PMruns (TreeOp.run_all tr ops) pg (fun t pg' => pager_ok pg' /\ owns pg' m t (fold_left TreeOp.apply ops M)).
Proof.
  intros Hm Hf. induction Hf as [|o ops Ho _ IH]; intros tr M pg Hok Hown; [by apply runs_ret|].
  cbn [TreeOp.run_all fold_left].
  eapply runs_bind with (P := fun t pg' => pager_ok pg' /\ owns pg' m t (TreeOp.apply M o)); [|apply mono_run_all|].
  - destruct o as [key value|key]; simpl in *.
    + destruct Ho as (? & ? & ?). by apply insert_now_owns.
    + eapply runs_bind; [by apply delete_now_owns|auto with mono|]. intros r pg' (? & _ & ?). by apply runs_ret.
  - intros t pg' [? ?]. by apply IH.
Qed.

Lemma get_spec pg m t M fp key : page_size_ok (page_size pg) -> m <> Free -> tree_is pg m t M fp ->
  get pg t key = Ok (M !! key).
Proof.
  intros Hps Hm [[h Hr] _]. unfold get. rewrite <- kv_get_entries.
  assert (key_le [] key) by (unfold key_le; simpl; by destruct key).
  eapply get_loop_spec; try done. by eapply repr_depth.
Qed.

(** * Properties *)

(** Lookups: [get] on a tree grown by inserts and deletes, or bulk-loaded and
    not extended since, returns what the map holds: it terminates and never
    errors. *)
Theorem get_refines pg m t M fp key : page_size_ok (page_size pg) -> m <> Free -> tree_is pg m t M fp ->
  get pg t key = Ok (M !! key).
Proof. apply get_spec. Qed.

(** Range scans: [scan] runs the visitor, which may stop early or fail,
    exactly on the entries with start <= key < end in ascending key order. *)
Theorem scan_refines {S} (f : list Z -> list Z -> SM S TreeError bool) pg m t M fp start end_ s :
  page_size_ok (page_size pg) -> tree_is pg m t M fp ->
  scan pg t start end_ f s = visit_while f (filter (scan_keeps start end_) (btree_entries M)) s.
Proof.
  intros Hps [[h Hr] _]. eapply scan_node_spec; [done|done|]. by eapply repr_depth.
Qed.

(** Copy-on-write insert: it succeeds unless the page-id counter overflows;
    the new tree holds the updated map, the old root still holds the old map in
    the new pager, and the superseded pages are exactly the old tree's pages
    that the new tree no longer uses. *)
Theorem insert_cow_refines pg m t M fp sup key value : pager_ok pg -> m <> Ordered -> tree_is pg m t M fp ->
  key <> [] -> blen key < 2 ^ 32 -> blen value < 2 ^ 64 ->
  next_page_id (insert_cow t key value (pg, sup)).2.1 <= 2 ^ 64 ->
  exists t' pg' ret fp', insert_cow t key value (pg, sup) = (Ok t', (pg', sup ++ ret)) /\ pager_ok pg' /\
    tree_is pg' m t' (<[key := value]> M) fp' /\ tree_is pg' m t M fp /\
    fp' ++ ret ≡ₚ fp ++ seqZ (next_page_id pg) (next_page_id pg' - next_page_id pg).
Proof.
  intros Hok Hm Ht Hne Hk Hv Hc.
  destruct (insert_cow_spec t m key value M fp pg sup Hok Hm Ht Hne Hk Hv Hc)
    as (t' & s & E & pg' & ret & fp' & -> & G & _ & Ht' & Hacc).
  exists t', pg', ret, fp'. split_and!; try done; [apply (grow_ok _ _ G)|by eapply tree_is_grow].
Qed.

(** Copy-on-write delete: reports whether the key was there; new and old
    tree and the superseded pages are as for insert, and a miss changes nothing. *)
Theorem delete_cow_refines pg m t M fp sup key : pager_ok pg -> tree_is pg m t M fp ->
  next_page_id (delete_cow t key (pg, sup)).2.1 <= 2 ^ 64 ->
  exists t' pg' ret fp', delete_cow t key (pg, sup) = (Ok (bool_decide (is_Some (M !! key)), t'), (pg', sup ++ ret)) /\
    pager_ok pg' /\ tree_is pg' m t' (delete key M) fp' /\ tree_is pg' m t M fp /\
    fp' ++ ret ≡ₚ fp ++ seqZ (next_page_id pg) (next_page_id pg' - next_page_id pg).
Proof.
  intros Hok Ht Hc. destruct (delete_cow_spec t m key M fp pg sup Hok Ht Hc)
    as ([found t'] & s & E & pg' & ret & fp' & -> & G & Hr1 & _ & Ht' & Hacc). simpl in *. subst found.
  exists t', pg', ret, fp'. split_and!; try done; [apply (grow_ok _ _ G)|by eapply tree_is_grow].
Qed.

(** C16: Any sequence of inserts and deletes on a new tree succeeds; the tree then
    reads as the map the sequence builds, and its pages are the only ones left:
    none leaked, none freed too early. *)
Theorem history_refines ps tid idx ops : page_size_ok ps -> Forall TreeOp.ok ops ->
  next_page_id ((create tid idx ≫= fun t => TreeOp.run_all t ops) (empty_pager ps)).2 <= 2 ^ 64 ->
  exists t pg fp, (create tid idx ≫= fun t => TreeOp.run_all t ops) (empty_pager ps) = (Ok t, pg) /\
    tree_is pg Anchored t (fold_left TreeOp.apply ops ∅) fp /\ (forall id, is_Some (pages pg !! id) <-> id ∈ fp) /\
    forall key, get pg t key = Ok (fold_left TreeOp.apply ops ∅ !! key).
Proof.
  intros Hps Hf Hc. assert (pager_ok (empty_pager ps)) as Hok.
  { split; [done|]. split; [simpl; lia|]. intros id. simpl. rewrite lookup_empty. by intros []. }
  assert (PMruns (create tid idx ≫= fun t => TreeOp.run_all t ops) (empty_pager ps) (fun t pg' => pager_ok pg' /\
    owns pg' Anchored t (fold_left TreeOp.apply ops ∅))) as Hrun.
  { eapply runs_bind; [by apply (create_spec tid idx Anchored)|apply mono_run_all|].
    intros t pg [? ?]. by apply run_all_owns. }
  destruct (Hrun Hc) as (t & pg & E & Hpg & fp & Ht & Hall). exists t, pg, fp. split_and!; try done.
  intros key. exact (get_spec pg Anchored t _ fp key (proj1 Hpg) ltac:(done) Ht).
Qed.

(** The first entry at or after a key. *)
Definition first_entry (k v : list Z) : SM (option kv) TreeError bool := fun _ => (Ok false, Some (k, v)).

(** Eight entries bulk-loaded, then six smaller keys inserted. *)
Definition bulk_then_insert : PM PagedTree :=
  create 3 false ≫= fun t =>
  bulk_load t (map (fun i => ([100; i], replicate 900 i)) [0; 1; 2; 3; 4; 5; 6; 7]) ≫= fun t =>
  TreeOp.run_all t (map (fun i => TreeOp.Insert [50; i] (replicate 900 i)) [0; 1; 2; 3; 4; 5]).

(** C33: The in-place route of [get] stops at the first separator above the key,
    [route_index] does not look at the first separator: after a bulk load, whose
    first separator is a real key, and inserts below it, [get] misses a key
    that is in the tree and that a scan finds. *)
Theorem get_misses_after_bulk_load : exists t pg, bulk_then_insert (empty_pager 4096) = (Ok t, pg) /\
  get pg t [50; 5] = Ok None /\ scan pg t [50; 5] None first_entry None = (Ok false, Some ([50; 5], replicate 900 5)).
Proof.
  destruct (bulk_then_insert (empty_pager 4096)) as [[t|e] pg] eqn:E.
  2: { exfalso. apply (f_equal (is_ok ∘ fst)) in E. vm_compute in E. discriminate. }
  exists t, pg. split; [reflexivity|].
  assert (t = match (bulk_then_insert (empty_pager 4096)).1 with Ok t => t | Err _ => {| table_id := 0; index_tree := false; root := 0 |} end) as Et by by rewrite E.
  assert (pg = (bulk_then_insert (empty_pager 4096)).2) as -> by by rewrite E.
  rewrite Et. clear. split; vm_compute; reflexivity.
Qed.

(** * Witnesses *)

Definition one_leaf : Pager := {| page_size := 256; next_page_id := 2;
  pages := {[ 1 := (PageHeader_new 1 3 1 0, node_payload (Node.Leaf [(EntryKey.Inline [7], LeafValue.Inline [8])])) ]} |}.
Definition one_tree : PagedTree := {| table_id := 3; index_tree := false; root := 1 |}.
Definition one_map : kmap := {[ [7] := [8] ]}.

Lemma one_tree_is m : tree_is one_leaf m one_tree one_map [1].
Proof.
  split; [|apply NoDup_singleton]. exists 0%nat.
  exists (PageHeader_new 1 3 1 0), [(EntryKey.Inline [7], LeafValue.Inline [8])], [].
  split; [reflexivity|]. split; [vm_compute; discriminate|].
  replace (btree_entries one_map) with [([7], [8])] by (vm_compute; reflexivity).
  split; [|split; [|split; [|reflexivity]]].
  - apply (leaf_rep_cons one_leaf (EntryKey.Inline [7]) (LeafValue.Inline [8]) [] [7] [8] [] [] [] []);
      [repeat split; vm_compute; discriminate|by split|vm_compute; discriminate|constructor].
  - repeat constructor.
  - repeat constructor; vm_compute; discriminate.
Qed.

Lemma one_leaf_ok : pager_ok one_leaf.
Proof.
  split; [split; vm_compute; discriminate|]. split; [reflexivity|]. intros id. simpl.
  rewrite lookup_singleton_is_Some. intros <-. lia.
Qed.

Lemma get_refines_witness : get one_leaf one_tree [7] = Ok (Some [8]).
Proof.
  assert (one_map !! [7] = Some [8]) as <- by reflexivity.
  apply (get_refines one_leaf Anchored one_tree one_map [1] [7]);
    [split; vm_compute; discriminate|discriminate|apply one_tree_is].
Defined.

Definition stop_after_one (k v : list Z) : SM (list kv) TreeError bool := fun s => (Ok false, s ++ [(k, v)]).

Lemma scan_refines_witness : scan one_leaf one_tree [6] (Some [9]) stop_after_one [] =
  visit_while stop_after_one (filter (scan_keeps [6] (Some [9])) (btree_entries one_map)) [] /\
  scan one_leaf one_tree [6] (Some [9]) stop_after_one [] = (Ok false, [([7], [8])]).
Proof.
  split; [|vm_compute; reflexivity].
  apply (scan_refines stop_after_one one_leaf Free one_tree one_map [1]);
    [split; vm_compute; discriminate|apply one_tree_is].
Defined.

Lemma insert_cow_refines_witness : exists t' pg' ret fp',
  insert_cow one_tree [5] [6] (one_leaf, []) = (Ok t', (pg', [] ++ ret)) /\ pager_ok pg' /\
  tree_is pg' Anchored t' (<[[5] := [6]]> one_map) fp' /\ tree_is pg' Anchored one_tree one_map [1] /\
  fp' ++ ret ≡ₚ [1] ++ seqZ 2 (next_page_id pg' - 2).
Proof.
  apply (insert_cow_refines one_leaf Anchored one_tree one_map [1] [] [5] [6]);
    [apply one_leaf_ok|discriminate|apply one_tree_is|discriminate|vm_compute; reflexivity..|vm_compute; discriminate].
Defined.

Lemma delete_cow_refines_witness : exists t' pg' ret fp',
  delete_cow one_tree [7] (one_leaf, []) = (Ok (bool_decide (is_Some (one_map !! [7])), t'), (pg', [] ++ ret)) /\
  pager_ok pg' /\ tree_is pg' Ordered t' (delete [7] one_map) fp' /\ tree_is pg' Ordered one_tree one_map [1] /\
  fp' ++ ret ≡ₚ [1] ++ seqZ 2 (next_page_id pg' - 2).
Proof.
  apply (delete_cow_refines one_leaf Ordered one_tree one_map [1] [] [7]);
    [apply one_leaf_ok|apply one_tree_is|vm_compute; discriminate].
Defined.

(** Enough inserts for a split, with long keys and values, and deletes. *)
Definition sample_ops : list TreeOp.t :=
  [TreeOp.Insert [1] (replicate 40 1); TreeOp.Insert (replicate 40 2) [2]; TreeOp.Insert [3] (replicate 300 3);
   TreeOp.Insert [4] (replicate 40 4); TreeOp.Insert [5] (replicate 40 5); TreeOp.Insert [6] (replicate 40 6);
   TreeOp.Delete [4]; TreeOp.Delete [9]; TreeOp.Insert [3] [0]].

Lemma history_refines_witness : exists t pg fp,
  (create 3 false ≫= fun t => TreeOp.run_all t sample_ops) (empty_pager 256) = (Ok t, pg) /\
  tree_is pg Anchored t (fold_left TreeOp.apply sample_ops ∅) fp /\ (forall id, is_Some (pages pg !! id) <-> id ∈ fp) /\
  forall key, get pg t key = Ok (fold_left TreeOp.apply sample_ops ∅ !! key).
Proof.
  apply (history_refines 256 3 false sample_ops).
  - split; vm_compute; discriminate.
  - repeat constructor; try discriminate.
  - vm_compute. discriminate.
Defined.
