(* ===== verification/KvTree.v ===== *)
(** The interface between the store and its trees: what a versioned ordered
    tree promises, and the paged tree as an implementation of it.

    A store reads and writes trees only through [KvTree]: point lookups, range
    scans, copy-on-write inserts and deletes that leave every older tree
    readable, and the release of superseded pages. [KvTreeLaws] states the
    promises against finite maps, with the pages a tree occupies as its
    footprint. Superseded pages are named by table and page id, in the order
    the writes report them. *)

From stdpp Require Import base list list_numbers gmap sorting.
From Stdlib Require Import ZArith Lia.
From S2P Require Import Prelude PageFormat PagedTree PagedTreeNode PagedTreeRep PagedTreeWrite PagedTreeSpec.

(** A page: its table and its id ([SupersededPage]). *)
Notation Page := (Z * Z)%type.

(** [W] holds the pages of every table, [T] is a tree: a root in them. *)
Class KvTree (W T : Type) := {
  kt_create : Z -> bool -> SM W TreeError T;
  kt_get : W -> T -> list Z -> result TreeError (option (list Z));
  kt_entries : W -> T -> list Z -> option (list Z) -> result TreeError (list kv);
  kt_insert : T -> list Z -> list Z -> SM (W * list Page) TreeError T;
  kt_delete : T -> list Z -> SM (W * list Page) TreeError (bool * T);
  kt_free : Page -> SM W TreeError unit;
}.

Definition key_fits (k : list Z) : Prop := k <> [] /\ blen k < 2 ^ 32.

Class KvTreeLaws (W T : Type) `{KvTree W T} := {
  (** the tree holds the map in these pages *)
  kt_is : W -> T -> kmap -> list Page -> Prop;
  (** the page id was handed out *)
  kt_used : W -> Page -> Prop;
  kt_ok : W -> Prop;
  (** page ids are not exhausted *)
  kt_room : W -> Prop;
  (** [w'] is [w] with more pages *)
  kt_le : W -> W -> Prop;
  kt_le_refl w : kt_ok w -> kt_le w w;
  kt_le_trans w1 w2 w3 : kt_le w1 w2 -> kt_le w2 w3 -> kt_le w1 w3;
  kt_le_ok w w' : kt_le w w' -> kt_ok w';
  kt_le_used w w' p : kt_le w w' -> kt_used w p -> kt_used w' p;
  kt_is_le w w' t M fp : kt_le w w' -> kt_is w t M fp -> kt_is w' t M fp;
  kt_is_used w t M fp : kt_ok w -> kt_is w t M fp -> NoDup fp /\ Forall (kt_used w) fp;
  kt_get_spec w t M fp k : kt_ok w -> kt_is w t M fp -> kt_get w t k = Ok (M !! k);
  kt_entries_spec w t M fp start end_ : kt_ok w -> kt_is w t M fp ->
    kt_entries w t start end_ = Ok (filter (scan_keeps start end_) (btree_entries M));
  kt_insert_room s t k v : kt_room (kt_insert t k v s).2.1 -> kt_room s.1;
  kt_delete_room s t k : kt_room (kt_delete t k s).2.1 -> kt_room s.1;
  kt_create_room w tid idx : kt_room (kt_create tid idx w).2 -> kt_room w;
  kt_insert_spec w sup t M fp k v : kt_ok w -> kt_is w t M fp -> key_fits k -> blen v < 2 ^ 64 ->
    kt_room (kt_insert t k v (w, sup)).2.1 -> exists t' w' fp' ret fresh,
    kt_insert t k v (w, sup) = (Ok t', (w', sup ++ ret)) /\ kt_le w w' /\ kt_is w' t' (<[k := v]> M) fp' /\
    fp' ++ ret ≡ₚ fp ++ fresh /\ NoDup fresh /\ Forall (fun p => ~ kt_used w p /\ kt_used w' p) fresh;
  kt_delete_spec w sup t M fp k : kt_ok w -> kt_is w t M fp ->
    kt_room (kt_delete t k (w, sup)).2.1 -> exists t' w' fp' ret fresh,
    kt_delete t k (w, sup) = (Ok (bool_decide (is_Some (M !! k)), t'), (w', sup ++ ret)) /\
    kt_le w w' /\ kt_is w' t' (delete k M) fp' /\
    fp' ++ ret ≡ₚ fp ++ fresh /\ NoDup fresh /\ Forall (fun p => ~ kt_used w p /\ kt_used w' p) fresh;
  kt_create_spec w tid idx : kt_ok w -> kt_room (kt_create tid idx w).2 -> exists t w' fp,
    kt_create tid idx w = (Ok t, w') /\ kt_le w w' /\ kt_is w' t ∅ fp /\
    NoDup fp /\ Forall (fun p => ~ kt_used w p /\ kt_used w' p) fp;
  kt_free_spec w p : kt_ok w -> exists w', kt_free p w = (Ok tt, w') /\ kt_ok w' /\ (kt_room w -> kt_room w') /\
    (forall q, kt_used w' q <-> kt_used w q) /\
    (forall t M fp, kt_is w t M fp -> p ∉ fp -> kt_is w' t M fp);
}.

(** * The paged tree *)

(** The pager of a shard: one page file per table, opened when first used. *)
Record PagedWorld : Type := {
  pw_page_size : Z;
  pw_tables : gmap Z Pager;
}.

Definition table_io (w : PagedWorld) (tid : Z) : Pager :=
  default (empty_pager (pw_page_size w)) (pw_tables w !! tid).

Definition set_table (w : PagedWorld) (tid : Z) (pg : Pager) : PagedWorld :=
  {| pw_page_size := pw_page_size w; pw_tables := <[tid := pg]> (pw_tables w) |}.

Definition at_pager {A} (tid : Z) (m : PM A) : SM PagedWorld TreeError A := fun w =>
  let '(r, pg) := m (table_io w tid) in (r, set_table w tid pg).

Definition at_table {A} (tid : Z) (m : TM A) : SM (PagedWorld * list Page) TreeError A := fun s =>
  let '(r, (pg, sup)) := m (table_io s.1 tid, []) in (r, (set_table s.1 tid pg, s.2 ++ map (pair tid) sup)).

(** The visitor that collects [(key, value)] pairs. *)
Definition push_entry (k v : list Z) : SM (list kv) TreeError bool := fun out => (Ok true, out ++ [(k, v)]).

#[global] Instance paged_tree : KvTree PagedWorld PagedTree := {|
  kt_create tid idx := at_pager tid (create tid idx);
  kt_get w t k := get (table_io w (table_id t)) t k;
  kt_entries w t start end_ :=
    match scan (table_io w (table_id t)) t start end_ push_entry [] with
    | (Ok _, out) => Ok out
    | (Err e, _) => Err e
    end;
  kt_insert t k v := at_table (table_id t) (insert_cow t k v);
  kt_delete t k := at_table (table_id t) (delete_cow t k);
  kt_free p := at_pager p.1 (free_page p.2);
|}.

(** ** Its laws *)

(** A tree grown by inserts and deletes, in the pager of its table. *)
Definition paged_is (w : PagedWorld) (t : PagedTree) (M : kmap) (fp : list Page) : Prop :=
  exists ids, fp = map (pair (table_id t)) ids /\ tree_is (table_io w (table_id t)) Anchored t M ids.

Definition paged_ok (w : PagedWorld) : Prop := page_size_ok (pw_page_size w) /\ forall tid, pager_ok (table_io w tid).

Definition paged_used (w : PagedWorld) (p : Page) : Prop := 0 < p.2 < next_page_id (table_io w p.1).

Definition paged_room (w : PagedWorld) : Prop := forall tid, next_page_id (table_io w tid) <= 2 ^ 64.

Definition paged_le (w w' : PagedWorld) : Prop := page_size_ok (pw_page_size w') /\
  forall tid, grow (table_io w tid) (table_io w' tid).

Lemma table_io_set w tid pg tid' :
  table_io (set_table w tid pg) tid' = if decide (tid' = tid) then pg else table_io w tid'.
Proof.
  unfold table_io, set_table. simpl. destruct (decide (tid' = tid)) as [->|]; [by rewrite lookup_insert_eq|].
  by rewrite lookup_insert_ne.
Qed.

Lemma paged_le_set w tid pg : paged_ok w -> grow (table_io w tid) pg -> paged_le w (set_table w tid pg).
Proof.
  intros [Hps Hok] G. split; [done|]. intros tid'. rewrite table_io_set.
  destruct (decide (tid' = tid)) as [->|]; [done|]. by apply grow_refl.
Qed.

Lemma visit_push l : forall out, visit_while push_entry l out = (Ok true, out ++ l).
Proof.
  induction l as [|[k v] l IH]; intros out; simpl; [by rewrite app_nil_r|].
  unfold mbind, sm_bind, push_entry at 1. by rewrite IH, <- app_assoc.
Qed.

Lemma paged_is_le w w' t M fp : paged_le w w' -> paged_is w t M fp -> paged_is w' t M fp.
Proof. intros [_ Hle] (ids & -> & Ht). exists ids. split; [done|]. by eapply tree_is_grow. Qed.

Lemma paged_is_used w t M fp : paged_ok w -> paged_is w t M fp -> NoDup fp /\ Forall (paged_used w) fp.
Proof.
  intros [_ Hok] (ids & -> & Ht). split.
  - apply NoDup_fmap; [by intros ?? [= ->]|]. apply Ht.
  - apply Forall_map. eapply Forall_impl; [exact (tree_pages _ _ _ _ _ Ht)|]. intros id Hid.
    by apply (Hok (table_id t)).
Qed.

Lemma paged_get w t M fp k : paged_ok w -> paged_is w t M fp -> kt_get w t k = Ok (M !! k).
Proof.
  intros [_ Hok] (ids & _ & Ht). exact (get_spec _ Anchored t M ids k (proj1 (Hok _)) ltac:(done) Ht).
Qed.

Lemma paged_entries w t M fp start end_ : paged_ok w -> paged_is w t M fp ->
  kt_entries w t start end_ = Ok (filter (scan_keeps start end_) (btree_entries M)).
Proof.
  intros [_ Hok] (ids & _ & [h Hr] & _). simpl.
  assert (scan (table_io w (table_id t)) t start end_ push_entry [] =
    (Ok true, filter (scan_keeps start end_) (btree_entries M))) as ->; [|done].
  etrans; [eapply (scan_node_spec push_entry _ start end_ (proj1 (Hok _)) Anchored); [exact Hr|exact (repr_depth _ _ _ _ _ _ _ _ Hr)]|].
  by rewrite visit_push.
Qed.

Lemma room_set w tid pg : next_page_id (table_io w tid) <= next_page_id pg -> paged_room (set_table w tid pg) -> paged_room w.
Proof.
  intros Hn Hroom tid'. specialize (Hroom tid'). rewrite table_io_set in Hroom.
  destruct (decide (tid' = tid)) as [->|]; lia.
Qed.

Lemma at_table_room {A} tid (m : TM A) s : mono tm_next m -> paged_room (at_table tid m s).2.1 -> paged_room s.1.
Proof.
  intros Hm. specialize (Hm (table_io s.1 tid, [])). unfold at_table, tm_next in *.
  destruct (m (table_io s.1 tid, [])) as [r [pg sup]]. by apply room_set.
Qed.

Lemma at_pager_room {A} tid (m : PM A) w : PMmono m -> paged_room (at_pager tid m w).2 -> paged_room w.
Proof.
  intros Hm. specialize (Hm (table_io w tid)). unfold at_pager in *. destruct (m (table_io w tid)) as [r pg].
  by apply room_set.
Qed.

Lemma alloc_fresh w tid pg : paged_ok w -> grow (table_io w tid) pg ->
  NoDup (map (pair tid) (alloc (table_io w tid) pg)) /\
  Forall (fun p => ~ paged_used w p /\ paged_used (set_table w tid pg) p) (map (pair tid) (alloc (table_io w tid) pg)).
Proof.
  intros [_ Hok] G. split; [apply NoDup_fmap; [by intros ?? [= ->]|apply NoDup_seqZ]|].
  apply Forall_map, Forall_forall. intros id Hid%elem_of_alloc. unfold paged_used. simpl.
  rewrite table_io_set, decide_True by done. destruct (Hok tid) as (_ & ? & _). lia.
Qed.

(** What a copy-on-write update of [t] establishes. *)
Lemma at_table_runs {A} t (m : TM A) w sup M' ids (tree : A -> PagedTree) (Q : A -> Prop) :
  paged_ok w -> paged_room (at_table (table_id t) m (w, sup)).2.1 ->
  runs tm_next m (table_io w (table_id t), []) (fun a s => exists pg' ret ids', s = (pg', [] ++ ret) /\
    grow (table_io w (table_id t)) pg' /\ Q a /\
    tree a = {| table_id := table_id t; index_tree := index_tree t; root := root (tree a) |} /\
    tree_is pg' Anchored (tree a) M' ids' /\ ids' ++ ret ≡ₚ ids ++ alloc (table_io w (table_id t)) pg') ->
  exists a w' fp' ret fresh, at_table (table_id t) m (w, sup) = (Ok a, (w', sup ++ ret)) /\ paged_le w w' /\ Q a /\
    paged_is w' (tree a) M' fp' /\ fp' ++ ret ≡ₚ map (pair (table_id t)) ids ++ fresh /\ NoDup fresh /\
    Forall (fun p => ~ paged_used w p /\ paged_used w' p) fresh.
Proof.
  intros Hok Hroom Hm. unfold runs, tm_next, at_table in *. simpl in Hroom.
  destruct (m (table_io w (table_id t), [])) as [r [pg sup']] eqn:Em. simpl in *.
  assert (next_page_id pg <= 2 ^ 64) as Hpg.
  { specialize (Hroom (table_id t)). by rewrite table_io_set, decide_True in Hroom. }
  destruct (Hm Hpg) as (a & s & [= -> <-] & pg' & ret & ids' & [= -> ->] & G & HQ & Et & Ht & Hacc). rewrite Em.
  exists a, (set_table w (table_id t) pg'), (map (pair (table_id t)) ids'), (map (pair (table_id t)) ret),
    (map (pair (table_id t)) (alloc (table_io w (table_id t)) pg')).
  split; [done|]. split; [by apply paged_le_set|]. split; [done|]. split.
  { exists ids'. rewrite Et at 1 2. simpl. rewrite table_io_set, decide_True by done. done. }
  split; [by rewrite <- !map_app, Hacc|]. by apply alloc_fresh.
Qed.

Lemma paged_insert w sup t M fp k v : paged_ok w -> paged_is w t M fp -> key_fits k -> blen v < 2 ^ 64 ->
  paged_room (kt_insert t k v (w, sup)).2.1 -> exists t' w' fp' ret fresh,
  kt_insert t k v (w, sup) = (Ok t', (w', sup ++ ret)) /\ paged_le w w' /\ paged_is w' t' (<[k := v]> M) fp' /\
  fp' ++ ret ≡ₚ fp ++ fresh /\ NoDup fresh /\ Forall (fun p => ~ paged_used w p /\ paged_used w' p) fresh.
Proof.
  intros Hok (ids & -> & Ht) [Hne Hk] Hv Hroom.
  destruct (at_table_runs t (insert_cow t k v) w sup (<[k := v]> M) ids id (fun _ => True) Hok Hroom)
    as (t' & w' & fp' & ret & fresh & E & Hle & _ & Ht' & Hacc); [|naive_solver].
  eapply runs_weaken; [|exact (insert_cow_spec t Anchored k v M ids _ [] (proj2 Hok _) ltac:(done) Ht Hne Hk Hv)].
  intros a s (pg' & ret & fp' & -> & G & Et & Ht' & Hacc). by exists pg', ret, fp'.
Qed.

Lemma paged_delete w sup t M fp k : paged_ok w -> paged_is w t M fp ->
  paged_room (kt_delete t k (w, sup)).2.1 -> exists t' w' fp' ret fresh,
  kt_delete t k (w, sup) = (Ok (bool_decide (is_Some (M !! k)), t'), (w', sup ++ ret)) /\
  paged_le w w' /\ paged_is w' t' (delete k M) fp' /\
  fp' ++ ret ≡ₚ fp ++ fresh /\ NoDup fresh /\ Forall (fun p => ~ paged_used w p /\ paged_used w' p) fresh.
Proof.
  intros Hok (ids & -> & Ht) Hroom.
  destruct (at_table_runs t (delete_cow t k) w sup (delete k M) ids snd
    (fun r => r.1 = bool_decide (is_Some (M !! k))) Hok Hroom)
    as ([found t'] & w' & fp' & ret & fresh & E & Hle & Hf & Ht' & Hacc).
  - eapply runs_weaken; [|exact (delete_cow_spec t Anchored k M ids _ [] (proj2 Hok _) Ht)].
    intros a s (pg' & ret & fp' & -> & G & Hf & Et & Ht' & Hacc). by exists pg', ret, fp'.
  - simpl in *. subst found. exists t', w', fp', ret, fresh. by rewrite E.
Qed.

Lemma mono_create tid idx : PMmono (create tid idx).
Proof. apply mono_bind; auto with mono. Qed.

Lemma paged_create w tid idx : paged_ok w -> paged_room (kt_create tid idx w).2 -> exists t w' fp,
  kt_create tid idx w = (Ok t, w') /\ paged_le w w' /\ paged_is w' t ∅ fp /\
  NoDup fp /\ Forall (fun p => ~ paged_used w p /\ paged_used w' p) fp.
Proof.
  intros Hok Hroom. pose proof (create_grow tid idx Anchored _ (proj2 Hok tid)) as Hc.
  unfold runs in Hc. cbn [kt_create paged_tree] in *. unfold at_pager in *.
  destruct (create tid idx (table_io w tid)) as [r pg] eqn:Em. simpl in *.
  assert (next_page_id pg <= 2 ^ 64) as Hpg.
  { specialize (Hroom tid). rewrite table_io_set, decide_True in Hroom by done. exact Hroom. }
  destruct (Hc Hpg) as (t & pg' & [= -> ->] & G & <- & p & HA & Ht).
  exists t, (set_table w (table_id t) pg'), [(table_id t, p)]. split; [done|]. split; [by apply paged_le_set|].
  split. { exists [p]. rewrite table_io_set, decide_True by done. done. }
  pose proof (alloc_fresh w (table_id t) pg' Hok G) as Hf. by rewrite HA in Hf.
Qed.

Lemma paged_free w p : paged_ok w -> exists w', kt_free p w = (Ok tt, w') /\ paged_ok w' /\ (paged_room w -> paged_room w') /\
  (forall q, paged_used w' q <-> paged_used w q) /\
  (forall t M fp, paged_is w t M fp -> p ∉ fp -> paged_is w' t M fp).
Proof.
  intros [Hps Hok]. eexists. split; [reflexivity|]. split_and!.
  - split; [done|]. intros tid. rewrite table_io_set. destruct (decide (tid = p.1)) as [->|]; [|done].
    destruct (Hok p.1) as (H1 & H2 & H3). split; [done|]. split; [done|]. intros id. simpl.
    rewrite lookup_delete_is_Some. intros [_ ?]. by apply H3.
  - intros Hroom tid. rewrite table_io_set. destruct (decide (tid = p.1)) as [->|]; [|done]. apply Hroom.
  - intros q. unfold paged_used. rewrite table_io_set. by destruct (decide (q.1 = p.1)) as [->|].
  - intros t M fp (ids & -> & [h Hr] & Hnd) Hp. exists ids. split; [done|]. rewrite table_io_set.
    destruct (decide (table_id t = p.1)) as [E|]; [|split; [by exists h|done]].
    split; [|done]. exists h. eapply repr_frame; [exact Hr|]. rewrite E. split; [done|].
    apply Forall_forall. intros id Hid. simpl. rewrite lookup_delete_ne; [done|]. intros Eid. apply Hp.
    apply list_elem_of_fmap. exists id. split; [|done]. rewrite E, <- Eid. by destruct p.
Qed.

#[global] Instance paged_tree_laws : KvTreeLaws PagedWorld PagedTree.
Proof.
  refine {| kt_is := paged_is; kt_used := paged_used; kt_ok := paged_ok; kt_room := paged_room; kt_le := paged_le;
    kt_is_le := paged_is_le; kt_is_used := paged_is_used; kt_get_spec := paged_get; kt_entries_spec := paged_entries;
    kt_insert_room s t k v := at_table_room _ _ s (mono_insert_cow t k v);
    kt_delete_room s t k := at_table_room _ _ s (mono_delete_cow t k);
    kt_create_room w tid idx := at_pager_room _ _ w (mono_create tid idx);
    kt_insert_spec := paged_insert; kt_delete_spec := paged_delete;
    kt_create_spec := paged_create; kt_free_spec := paged_free |}.
  - intros w [Hps Hok]. split; [done|]. intros tid. by apply grow_refl.
  - intros w1 w2 w3 [_ H1] [Hps H2]. split; [done|]. intros tid. eapply grow_trans; [apply H1|apply H2].
  - intros w w' [Hps H]. split; [done|]. intros tid. apply (grow_ok _ _ (H tid)).
  - intros w w' p [_ H] Hp. unfold paged_used in *. pose proof (grow_next _ _ (H p.1)). lia.
Defined.
