(* ===== verification/TableState.v ===== *)
(** One table's committed contents, as in
    [crates/fluxum-core/src/store/committed.rs], with its secondary indexes
    ([index/btree.rs]) and unique-constraint maps ([store/unique.rs]).

    A table is a family of trees: rows by encoded primary key, one tree per
    B-tree index and one per unique constraint. [rows_is], [indexes_is] and
    [unique_is] relate each to a finite map from primary keys to rows; the
    lemmas state what every operation does to that map and which pages it
    allocates and supersedes. Spatial and full-text indexes are behind the
    [SideIndex] interface.

    Rows are stored in the MessagePack form of [encode_row_paged]; the codec of
    [rmp_serde] is the [RowCodec] interface. *)

From stdpp Require Import base list gmap sorting.
From Stdlib Require Import ZArith Lia.
From S2P Require Import Prelude FluxBin Row IndexKey TxState LogRecord PageFormat PagedTree PagedTreeNode PagedTreeRep PagedTreeSpec KvTree.

(** * Data *)

Inductive TableAccess : Type := Private | Public | Global | Ephemeral.
#[global] Instance TableAccess_eq_dec : EqDecision TableAccess.
Proof. solve_decision. Defined.

(** The fields of a table's [TableSchema] the store uses. *)
Record TableInfo : Type := {
  ti_schema : TableSchema;
  ti_auto_inc : option nat;
  ti_access : TableAccess;
}.

Notation IndexId := Z (only parsing).

Inductive StoreError : Type :=
  | RowError (e : StorageError)
  | TreeFailed (e : TreeError)
  | LogValueFailed (e : LogValueError)
  | RowEncode
  | RowDecode
  | UnknownTable (table : Z)
  | UnknownIndex (index : Z)
  | ScanPrefixTooLong (index : Z)
  | ScanRangePastColumns (index : Z)
  | IndexOrdinal (index : Z) (ordinal : nat)
  | IndexValueType (index : Z) (ordinal : nat)
  | RangeWithoutColumn (index : Z)
  | UniqueKeyClaimed (existing pk : list Z)
  | IndexDiverged (index : Z)
  | UniqueDiverged
  | MissingRow
  | TouchedTableMissing (table : Z)
  | AutoIncTableMissing (table : Z)
  | GlobalReplicaWrite
  | BlobStoreMissing
  | BlobMissing (hash : list Z)
  | AutoIncNotU64
  | PkConflict (table : Z)
  | UniqueViolation (table : Z) (columns : list nat)
  | NotNullViolation (ordinal : nat)
  | CheckViolation (ordinal : nat)
  | FkViolation (ordinal : nat)
  | FkRestricted (ordinal : nat)
  | ReplicaTxId (got want : Z)
  | AsOfOutOfWindow
  | ReducerError (code : Z)
  | OrdinalPanic (ordinal : nat)
  | InvalidOptions
  | TableIdCollision (table : Z)
  | IndexIdCollision (index : Z)
  | IndexColumnMissing (ordinal : nat)
  | SpatialDeclaredTwice
  | SpatialMalformed
  | SpatialRebuilding
  | SpatialCoordinate (ordinal : nat)
  | SpatialArity (expected got : nat)
  | SpatialBoxInverted
  | SpatialPredicateInvalid
  | SpatialMissing
  | SpatialDiverged
  | FkInvalid (ordinal : nat)
  | RecoveredTxZero
  | RecoveredTables
  | RecoveredLate
  | ReplicaTxGap
  | OutOfFuel.

(** [rmp_serde::to_vec] and [from_slice] on a row of log values. *)
Class RowCodec := {
  rmp_to_vec : list LogValue.t -> option (list Z);
  rmp_from_slice : list Z -> option (list LogValue.t);
}.

Class RowCodecLaws `{RowCodec} := {
  rmp_round_trip l bs : rmp_to_vec l = Some bs -> rmp_from_slice bs = Some l;
}.

(** A spatial or full-text index: the calls the store makes on it. *)
Class SideIndex (W X : Type) := {
  si_check : X -> row -> result StoreError unit;
  si_insert : X -> row -> list Z -> SM (W * list Page) StoreError X;
  si_remove : X -> row -> list Z -> SM (W * list Page) StoreError X;
}.

(** Comparison of a spatial or full-text index with a rebuild over the rows. *)
Class SideVerify (W X : Type) := si_verify : W -> list (list Z * row) -> X -> result StoreError unit.

Record BTreeIndex (T : Type) : Type := { bi_columns : list nat; bi_tree : T }.
Arguments bi_columns {T} _.
Arguments bi_tree {T} _.
Arguments Build_BTreeIndex {T} _ _.

Record UniqueIndex (T : Type) : Type := { ui_columns : list nat; ui_tree : T }.
Arguments ui_columns {T} _.
Arguments ui_tree {T} _.
Arguments Build_UniqueIndex {T} _ _.

(** [indexes] is the [BTreeMap] as its entries in key order. *)
Record TableState (T X : Type) : Type := {
  schema : TableInfo;
  rows : T;
  row_count : Z;
  indexes : list (IndexId * BTreeIndex T);
  spatial : option X;
  fulltext : list X;
  unique : list (UniqueIndex T);
  auto_inc_high_water : Z;
}.
Arguments schema {T X} _.
Arguments rows {T X} _.
Arguments row_count {T X} _.
Arguments indexes {T X} _.
Arguments spatial {T X} _.
Arguments fulltext {T X} _.
Arguments unique {T X} _.
Arguments auto_inc_high_water {T X} _.
Arguments Build_TableState {T X} _ _ _ _ _ _ _ _.

Section with_fields.
Context {T X : Type}.
Definition with_rows (ts : TableState T X) (t : T) (n : Z) : TableState T X :=
  Build_TableState (schema ts) t n (indexes ts) (spatial ts) (fulltext ts) (unique ts) (auto_inc_high_water ts).
Definition with_indexes (ts : TableState T X) (l : list (IndexId * BTreeIndex T)) : TableState T X :=
  Build_TableState (schema ts) (rows ts) (row_count ts) l (spatial ts) (fulltext ts) (unique ts) (auto_inc_high_water ts).
Definition with_spatial (ts : TableState T X) (x : option X) : TableState T X :=
  Build_TableState (schema ts) (rows ts) (row_count ts) (indexes ts) x (fulltext ts) (unique ts) (auto_inc_high_water ts).
Definition with_fulltext (ts : TableState T X) (l : list X) : TableState T X :=
  Build_TableState (schema ts) (rows ts) (row_count ts) (indexes ts) (spatial ts) l (unique ts) (auto_inc_high_water ts).
Definition with_unique (ts : TableState T X) (l : list (UniqueIndex T)) : TableState T X :=
  Build_TableState (schema ts) (rows ts) (row_count ts) (indexes ts) (spatial ts) (fulltext ts) l (auto_inc_high_water ts).
Definition with_high_water (ts : TableState T X) (n : Z) : TableState T X :=
  Build_TableState (schema ts) (rows ts) (row_count ts) (indexes ts) (spatial ts) (fulltext ts) (unique ts) n.
End with_fields.

(** * Operations *)

Definition map_err {E E' A} (g : E -> E') (r : result E A) : result E' A :=
  match r with Ok a => Ok a | Err e => Err (g e) end.

Section each.
Context {S E A B : Type}.
(** [for x in values_mut() { f(x)?; }]. *)
Fixpoint map_mut (f : A -> SM S E A) (l : list A) : SM S E (list A) :=
  match l with
  | [] => mret []
  | x :: l => f x ≫= fun y => map_mut f l ≫= fun l => mret (y :: l)
  end.
(** [for x in items { s = f(s, x)?; }]. *)
Fixpoint fold_each (f : A -> B -> SM S E A) (a : A) (l : list B) : SM S E A :=
  match l with
  | [] => mret a
  | x :: l => f a x ≫= fun a => fold_each f a l
  end.
End each.

Section paged_rows.
Context `{RowCodec}.

Definition encode_row_paged (values : row) : result StoreError (list Z) :=
  from_option RowEncode (rmp_to_vec (row_to_log values)).

Definition decode_row_paged (bytes : list Z) : result StoreError row :=
  from_option RowDecode (rmp_from_slice bytes) ≫= fun log => map_err LogValueFailed (collect to_row_value log).
End paged_rows.

Section ops.
Context {W T X : Type} `{KvTree W T} `{RowCodec}.
Notation St := (W * list Page)%type.

(** ** B-tree indexes *)

Definition index_insert (index : BTreeIndex T) (r : row) (pk : list Z) : SM St StoreError (BTreeIndex T) :=
  sm_lift (map_err RowError (entry_key (bi_columns index) r pk)) ≫= fun key =>
  sm_map_err TreeFailed (kt_insert (bi_tree index) key pk) ≫= fun t =>
  mret (Build_BTreeIndex (bi_columns index) t).

Definition index_remove (index : BTreeIndex T) (r : row) (pk : list Z) : SM St StoreError (BTreeIndex T) :=
  sm_lift (map_err RowError (entry_key (bi_columns index) r pk)) ≫= fun key =>
  sm_map_err TreeFailed (kt_delete (bi_tree index) key) ≫= fun '(_, t) =>
  mret (Build_BTreeIndex (bi_columns index) t).

Definition scan_pks (w : W) (index : BTreeIndex T) (start : list Z) (end_ : option (list Z)) : result StoreError (list (list Z)) :=
  map_err TreeFailed (kt_entries w (bi_tree index) start end_) ≫= fun entries => Ok (map snd entries).

Definition index_entries (w : W) (index : BTreeIndex T) : result StoreError (list kv) :=
  map_err TreeFailed (kt_entries w (bi_tree index) [] None).

(** ** Unique constraints *)

Definition unique_key (c : UniqueIndex T) (values : row) : result StoreError (list Z) :=
  map_err RowError (key_of (ui_columns c) values).

Definition owner (w : W) (c : UniqueIndex T) (key : list Z) : result StoreError (option (list Z)) :=
  map_err TreeFailed (kt_get w (ui_tree c) key).

Definition unique_insert (c : UniqueIndex T) (r : row) (pk : list Z) : SM St StoreError (UniqueIndex T) := fun s =>
  (sm_lift (unique_key c r) ≫= fun key =>
   sm_lift (owner s.1 c key) ≫= fun existing =>
   match existing with
   | Some existing => if bool_decide (existing = pk) then mret tt else sm_fail (UniqueKeyClaimed existing pk)
   | None => mret tt
   end ≫= fun _ =>
   sm_map_err TreeFailed (kt_insert (ui_tree c) key pk) ≫= fun t =>
   mret (Build_UniqueIndex (ui_columns c) t)) s.

Definition unique_remove (c : UniqueIndex T) (r : row) (pk : list Z) : SM St StoreError (UniqueIndex T) := fun s =>
  (sm_lift (unique_key c r) ≫= fun key =>
   sm_lift (owner s.1 c key) ≫= fun o =>
   if bool_decide (o = Some pk) then
     sm_map_err TreeFailed (kt_delete (ui_tree c) key) ≫= fun '(_, t) =>
     mret (Build_UniqueIndex (ui_columns c) t)
   else mret c) s.

Definition unique_entries (w : W) (c : UniqueIndex T) : result StoreError (list kv) :=
  map_err TreeFailed (kt_entries w (ui_tree c) [] None).

(** ** Tables *)

Definition row_at (w : W) (ts : TableState T X) (pk : list Z) : result StoreError (option row) :=
  map_err TreeFailed (kt_get w (rows ts) pk) ≫= fun found =>
  match found with
  | Some bytes => decode_row_paged bytes ≫= fun r => Ok (Some r)
  | None => Ok None
  end.

Definition contains_pk (w : W) (ts : TableState T X) (pk : list Z) : result StoreError bool :=
  map_err TreeFailed (kt_get w (rows ts) pk) ≫= fun found => Ok (bool_decide (is_Some found)).

(** The rows in key order, each decoded as the scan visits it. *)
Definition for_each_row (w : W) (ts : TableState T X) : result StoreError (list (list Z * row)) :=
  map_err TreeFailed (kt_entries w (rows ts) [] None) ≫= fun entries =>
  collect (fun '(key, value) => decode_row_paged value ≫= fun r => Ok (key, r)) entries.

Definition all_rows (w : W) (ts : TableState T X) : result StoreError (list row) :=
  map_err TreeFailed (kt_entries w (rows ts) [] None) ≫= fun entries =>
  collect (fun '(_, value) => decode_row_paged value) entries.

Definition put_row (ts : TableState T X) (pk : list Z) (r : row) : SM St StoreError (option row * TableState T X) := fun s =>
  (sm_lift (row_at s.1 ts pk) ≫= fun prev =>
   sm_lift (encode_row_paged r) ≫= fun bytes =>
   sm_map_err TreeFailed (kt_insert (rows ts) pk bytes) ≫= fun t =>
   mret (prev, with_rows ts t (match prev with None => row_count ts + 1 | Some _ => row_count ts end))) s.

Definition take_row (ts : TableState T X) (pk : list Z) : SM St StoreError (option row * TableState T X) := fun s =>
  (sm_lift (row_at s.1 ts pk) ≫= fun prev =>
   match prev with
   | Some _ =>
       sm_map_err TreeFailed (kt_delete (rows ts) pk) ≫= fun '(_, t) =>
       mret (prev, with_rows ts t (sat_sub (row_count ts) 1))
   | None => mret (prev, ts)
   end) s.

(** ** Index scans *)

Definition find_index (ts : TableState T X) (id : IndexId) : option (BTreeIndex T) :=
  snd <$> find (fun i => i.1 =? id) (indexes ts).

Definition check_index_value (ts : TableState T X) (id : IndexId) (ordinal : nat) (value : RowValue.t) : result StoreError RowValue.t :=
  match columns (ti_schema (schema ts)) !! ordinal with
  | None => Err (IndexOrdinal id ordinal)
  | Some ty => if matches_type value ty then Ok value else Err (IndexValueType id ordinal)
  end.

Definition encode_bound (ts : TableState T X) (id : IndexId) (range_ordinal : option nat) (bound : Bound RowValue.t)
    : result StoreError (Bound (list Z)) :=
  let enc value :=
    match range_ordinal with
    | None => Err (RangeWithoutColumn id)
    | Some ordinal => check_index_value ts id ordinal value ≫= fun v => Ok (encode_value v)
    end in
  match bound with
  | Unbounded => Ok Unbounded
  | Included v => enc v ≫= fun b => Ok (Included b)
  | Excluded v => enc v ≫= fun b => Ok (Excluded b)
  end.

Definition is_unbounded {A} (b : Bound A) : bool := match b with Unbounded => true | _ => false end.

(** The rows of the keys an index names; a key without a row is skipped (a
    debug assertion). *)
Fixpoint rows_of (w : W) (ts : TableState T X) (pks : list (list Z)) : result StoreError (list row) :=
  match pks with
  | [] => Ok []
  | pk :: pks =>
      row_at w ts pk ≫= fun found =>
      rows_of w ts pks ≫= fun out =>
      Ok (match found with Some r => r :: out | None => out end)
  end.

Definition index_scan (w : W) (ts : TableState T X) (id : IndexId) (prefix : row) (lower upper : Bound RowValue.t)
    : result StoreError (list row) :=
  match find_index ts id with
  | None => Err (UnknownIndex id)
  | Some index =>
      let cols := bi_columns index in
      if (length cols <? length prefix)%nat then Err (ScanPrefixTooLong id)
      else
        collect (fun '(value, ordinal) => check_index_value ts id ordinal value ≫= fun v => Ok (encode_value v))
          (zip prefix cols) ≫= fun parts =>
        if negb (is_unbounded lower && is_unbounded upper) && (length prefix =? length cols)%nat
        then Err (ScanRangePastColumns id)
        else
          let range_ordinal := cols !! length prefix in
          encode_bound ts id range_ordinal lower ≫= fun lower =>
          encode_bound ts id range_ordinal upper ≫= fun upper =>
          let '(start, end_) := plan_scan (concat parts) lower upper in
          scan_pks w index start end_ ≫= fun pks => rows_of w ts pks
  end.

(** ** Index integrity *)

Definition expected_entries (key : row -> list Z -> result StorageError (list Z)) (rs : list (list Z * row))
    : result StoreError (list kv) :=
  collect (fun '(pk, r) => map_err RowError (key r pk) ≫= fun k => Ok (k, pk)) rs.

(** [Vec<(Vec<u8>, PkBytes)>::sort]. *)
Definition sort_entries (l : list kv) : list kv := merge_sort key_le l.

Fixpoint verify_indexes (w : W) (rs : list (list Z * row)) (l : list (IndexId * BTreeIndex T)) : result StoreError unit :=
  match l with
  | [] => Ok tt
  | (id, index) :: l =>
      expected_entries (entry_key (bi_columns index)) rs ≫= fun expected =>
      index_entries w index ≫= fun entries =>
      if bool_decide (entries = sort_entries expected) then verify_indexes w rs l else Err (IndexDiverged id)
  end.

Fixpoint verify_unique (w : W) (rs : list (list Z * row)) (l : list (UniqueIndex T)) : result StoreError unit :=
  match l with
  | [] => Ok tt
  | c :: l =>
      expected_entries (fun r _ => key_of (ui_columns c) r) rs ≫= fun expected =>
      unique_entries w c ≫= fun entries =>
      if bool_decide (entries = sort_entries expected) then verify_unique w rs l else Err UniqueDiverged
  end.

Definition verify_index_integrity `{SideVerify W X} (w : W) (ts : TableState T X) : result StoreError unit :=
  for_each_row w ts ≫= fun rs =>
  verify_indexes w rs (indexes ts) ≫= fun _ =>
  match spatial ts with Some s => si_verify w rs s | None => Ok tt end ≫= fun _ =>
  collect (si_verify w rs) (fulltext ts) ≫= fun _ =>
  verify_unique w rs (unique ts).
End ops.
