(* ===== verification/TableSpec.v ===== *)
(** What the operations of [TableState] do, stated on finite maps.

    [upd] is the judgement for a copy-on-write update: unless page ids run out
    it succeeds, older trees stay readable in the new pages, and old footprint
    and fresh pages together are new footprint and superseded pages together.
    [rows_is], [indexes_is] and [unique_is] say which map from primary keys to
    rows a family of trees holds. *)

From stdpp Require Import base list gmap sorting.
From Stdlib Require Import ZArith Lia.
From S2P Require Import Prelude FluxBin Row IndexKey TxState LogRecord PageFormat PagedTree PagedTreeNode PagedTreeRep PagedTreeSpec KvTree TableState.

Notation content := (gmap (list Z) row).

(** * Updates *)

Section updates.
Context {W T : Type} {KT : KvTree W T} {KL : KvTreeLaws W T}.
Notation St := (W * list Page)%type.

Definition keeps_room {A} (m : SM St StoreError A) : Prop := forall s, kt_room (m s).2.1 -> kt_room s.1.

Record step (w w' : W) (f f' ret : list Page) : Prop := {
  step_le : kt_le w w';
  step_pages : exists fresh, f' ++ ret ≡ₚ f ++ fresh /\ NoDup fresh /\
    Forall (fun p => ~ kt_used w p /\ kt_used w' p) fresh;
}.

Definition upd {A} (m : SM St StoreError A) (w : W) (f : list Page) (Q : A -> W -> list Page -> Prop) : Prop :=
  kt_ok w -> forall sup, kt_room (m (w, sup)).2.1 ->
  exists a w' f' ret, m (w, sup) = (Ok a, (w', sup ++ ret)) /\ step w w' f f' ret /\ Q a w' f'.

Lemma step_refl w f : kt_ok w -> step w w f f [].
Proof.
  intros Hok. split; [by apply kt_le_refl|]. exists []. split; [done|]. split; constructor.
Qed.

Lemma step_trans w1 w2 w3 f1 f2 f3 r1 r2 : step w1 w2 f1 f2 r1 -> step w2 w3 f2 f3 r2 -> step w1 w3 f1 f3 (r1 ++ r2).
Proof.
  intros [L1 (x1 & P1 & N1 & F1)] [L2 (x2 & P2 & N2 & F2)]. split; [by eapply kt_le_trans|].
  exists (x1 ++ x2). rewrite !Forall_forall in *. split_and!.
  - rewrite (Permutation_app_comm r1), app_assoc, P2, <- app_assoc, (Permutation_app_comm x2), app_assoc, P1.
    by rewrite <- app_assoc.
  - apply NoDup_app. split_and!; try done. intros p H1 H2. destruct (F1 p H1), (F2 p H2). done.
  - intros p [Hp|Hp]%elem_of_app.
    + destruct (F1 p Hp). split; [done|]. by eapply kt_le_used.
    + destruct (F2 p Hp) as [Hn ?]. split; [|done]. intros Hu. apply Hn. by eapply kt_le_used.
Qed.

Lemma step_perm w w' f f' g g' ret : f ≡ₚ g -> f' ≡ₚ g' -> step w w' f f' ret -> step w w' g g' ret.
Proof. intros E E' [L (x & P & N)]. split; [done|]. exists x. by rewrite <- E, <- E'. Qed.

Lemma step_frame w w' f f' g ret : step w w' f f' ret -> step w w' (f ++ g) (f' ++ g) ret.
Proof.
  intros [L (x & P & N)]. split; [done|]. exists x. split; [|done].
  by rewrite <- !app_assoc, (Permutation_app_comm g ret), (Permutation_app_comm g x), !app_assoc, P.
Qed.

(** New footprints use pages that exist, and no page twice. *)
Lemma step_used w w' f f' ret : step w w' f f' ret -> NoDup f -> Forall (kt_used w) f ->
  NoDup (f' ++ ret) /\ Forall (kt_used w') (f' ++ ret).
Proof.
  intros [L (x & P & N & F)] Hn Hu. rewrite P. rewrite !Forall_forall in *. split.
  - apply NoDup_app. split_and!; try done. intros p Hp Hx. destruct (F p Hx) as [? _]. by apply Hu in Hp.
  - intros p [Hp|Hp]%elem_of_app; [by eapply kt_le_used, Hu|]. by apply F.
Qed.

Lemma room_ret {A} (a : A) : keeps_room (mret a).
Proof. by intros s. Qed.
Lemma room_fail {A} e : keeps_room (sm_fail e : SM St StoreError A).
Proof. by intros s. Qed.
Lemma room_lift {A} (r : result StoreError A) : keeps_room (sm_lift r).
Proof. by intros s. Qed.
Lemma room_bind {A B} (m : SM St StoreError A) (k : A -> SM St StoreError B) :
  keeps_room m -> (forall a, keeps_room (k a)) -> keeps_room (m ≫= k).
Proof.
  intros Hm Hk s. unfold mbind, sm_bind. specialize (Hm s).
  destruct (m s) as [[a|e] s']; simpl in *; [|done]. intros Hr. by apply Hm, (Hk a).
Qed.
Lemma room_at {A} (m : SM St StoreError A) : (forall s, exists m', m s = m' s /\ keeps_room m') -> keeps_room m.
Proof. intros Hm s. destruct (Hm s) as (m' & -> & Hr). apply Hr. Qed.
Lemma room_map_mut {A} (f : A -> SM St StoreError A) l : (forall a, keeps_room (f a)) -> keeps_room (map_mut f l).
Proof.
  intros Hf. induction l as [|x l IH]; simpl; [apply room_ret|].
  apply room_bind; [done|]. intros y. apply room_bind; [done|]. intros. apply room_ret.
Qed.
Lemma room_fold_each {A B} (f : A -> B -> SM St StoreError A) l : (forall a b, keeps_room (f a b)) ->
  forall a, keeps_room (fold_each f a l).
Proof.
  intros Hf. induction l as [|x l IH]; intros a; simpl; [apply room_ret|]. by apply room_bind.
Qed.
Lemma room_tree_insert t k v : keeps_room (sm_map_err TreeFailed (kt_insert (W := W) (T := T) t k v)).
Proof.
  intros s. pose proof (kt_insert_room s t k v) as Hr. unfold sm_map_err.
  by destruct (kt_insert t k v s) as [[?|?] ?].
Qed.
Lemma room_tree_delete t k : keeps_room (sm_map_err TreeFailed (kt_delete (W := W) (T := T) t k)).
Proof.
  intros s. pose proof (kt_delete_room s t k) as Hr. unfold sm_map_err.
  by destruct (kt_delete t k s) as [[?|?] ?].
Qed.

Lemma upd_ret {A} (a : A) w f (Q : A -> W -> list Page -> Prop) : Q a w f -> upd (mret a) w f Q.
Proof. intros HQ Hok sup _. exists a, w, f, []. rewrite app_nil_r. split; [done|]. split; [by apply step_refl|done]. Qed.
Lemma upd_skip {A} (k : unit -> SM St StoreError A) w f Q : upd (k tt) w f Q -> upd (mret tt ≫= k) w f Q.
Proof. done. Qed.
Lemma upd_ok {A} (m : SM St StoreError A) w f Q : (kt_ok w -> upd m w f Q) -> upd m w f Q.
Proof. intros Hm Hok. by apply Hm. Qed.
Lemma upd_lift {A B} (r : result StoreError A) a (k : A -> SM St StoreError B) w f Q :
  r = Ok a -> upd (k a) w f Q -> upd (sm_lift r ≫= k) w f Q.
Proof. by intros ->. Qed.
Lemma upd_at {A} (m m' : SM St StoreError A) w f Q : (forall sup, m (w, sup) = m' (w, sup)) -> upd m' w f Q -> upd m w f Q.
Proof. intros E Hm Hok sup. rewrite E. by apply Hm. Qed.
Lemma upd_weaken {A} (m : SM St StoreError A) w f (P Q : A -> W -> list Page -> Prop) :
  (forall a w' f', kt_le w w' -> P a w' f' -> Q a w' f') -> upd m w f P -> upd m w f Q.
Proof.
  intros HPQ Hm Hok sup Hr. destruct (Hm Hok sup Hr) as (a & w' & f' & ret & E & S & HP).
  exists a, w', f', ret. split; [done|]. split; [done|]. by apply HPQ; [apply S|].
Qed.
Lemma upd_bind {A B} (m : SM St StoreError A) (k : A -> SM St StoreError B) w f (P : A -> W -> list Page -> Prop) Q :
  upd m w f P -> (forall a, keeps_room (k a)) -> (forall a w' f', kt_le w w' -> P a w' f' -> upd (k a) w' f' Q) ->
  upd (m ≫= k) w f Q.
Proof.
  intros Hm Hroom Hk Hok sup Hr. unfold mbind, sm_bind in *. specialize (Hm Hok sup).
  destruct (m (w, sup)) as [[a|e] s'] eqn:E; simpl in *; [|by destruct (Hm Hr) as (? & ? & ? & ? & ? & _)].
  destruct (Hm (Hroom a s' Hr)) as (a' & w' & f' & ret & [= <- ->] & S1 & HP).
  destruct (Hk a w' f' (step_le _ _ _ _ _ S1) HP (kt_le_ok _ _ (step_le _ _ _ _ _ S1)) (sup ++ ret) Hr)
    as (b & w'' & f'' & ret' & E' & S2 & HQ).
  exists b, w'', f'', (ret ++ ret'). rewrite app_assoc. split; [done|]. split; [by eapply step_trans|done].
Qed.
Lemma upd_perm {A} (m : SM St StoreError A) w f g Q : f ≡ₚ g -> upd m w f Q -> upd m w g Q.
Proof.
  intros E Hm Hok sup Hr. destruct (Hm Hok sup Hr) as (a & w' & f' & ret & Em & S & HQ).
  exists a, w', f', ret. split; [done|]. split; [by eapply step_perm|done].
Qed.
Lemma upd_frame {A} (m : SM St StoreError A) w f g (P : A -> W -> list Page -> Prop) : upd m w f P ->
  upd m w (f ++ g) (fun a w' h => exists f', h = f' ++ g /\ P a w' f').
Proof.
  intros Hm Hok sup Hr. destruct (Hm Hok sup Hr) as (a & w' & f' & ret & Em & S & HP).
  exists a, w', (f' ++ g), ret. split; [done|]. split; [by apply step_frame|by exists f'].
Qed.

Lemma upd_tree_insert w t M f k v : kt_is w t M f -> key_fits k -> blen v < 2 ^ 64 ->
  upd (sm_map_err TreeFailed (kt_insert t k v)) w f (fun t' w' f' => kt_is w' t' (<[k := v]> M) f').
Proof.
  intros Ht Hk Hv Hok sup Hr. unfold sm_map_err in *.
  assert (kt_room (kt_insert t k v (w, sup)).2.1) as Hr' by (by destruct (kt_insert t k v (w, sup)) as [[?|?] ?]).
  destruct (kt_insert_spec w sup t M f k v Hok Ht Hk Hv Hr') as (t' & w' & f' & ret & x & -> & L & Ht' & Hacc).
  exists t', w', f', ret. split; [done|]. split; [|done]. split; [done|]. by exists x.
Qed.
Lemma upd_tree_delete w t M f k : kt_is w t M f ->
  upd (sm_map_err TreeFailed (kt_delete t k)) w f (fun r w' f' => kt_is w' r.2 (delete k M) f').
Proof.
  intros Ht Hok sup Hr. unfold sm_map_err in *.
  assert (kt_room (kt_delete t k (w, sup)).2.1) as Hr' by (by destruct (kt_delete t k (w, sup)) as [[?|?] ?]).
  destruct (kt_delete_spec w sup t M f k Hok Ht Hr') as (t' & w' & f' & ret & x & -> & L & Ht' & Hacc).
  exists (bool_decide (is_Some (M !! k)), t'), w', f', ret. split; [done|]. split; [|done]. split; [done|]. by exists x.
Qed.
End updates.

Create HintDb room.
#[export] Hint Resolve room_ret room_fail room_lift room_bind room_tree_insert room_tree_delete : room.

(** Fix the pages an operation reads. *)
Ltac read_pages op := eapply upd_at; [intros ?; unfold op; cbn [fst]; reflexivity|].
Ltac read_room op := apply room_at; intros ?; eexists; split; [unfold op; reflexivity|].

Section map_mut.
Context {W T A : Type} {KT : KvTree W T} {KL : KvTreeLaws W T}.
Context (f : A -> SM (W * list Page) StoreError A) (P Q : W -> A -> list Page -> Prop) (R : A -> A -> Prop).
Context (HP : forall w w' a g, kt_le w w' -> P w a g -> P w' a g).
Context (HQ : forall w w' a g, kt_le w w' -> Q w a g -> Q w' a g).
Context (Hroom : forall a, keeps_room (f a)).
Context (Hf : forall w a g, P w a g -> upd (f a) w g (fun a' w' g' => R a a' /\ Q w' a' g')).

(** Every element is updated, in its own pages. *)
Lemma upd_map_mut l : forall w fs, Forall2 (P w) l fs ->
  upd (map_mut f l) w (concat fs) (fun l' w' h => exists fs', h = concat fs' /\ Forall2 R l l' /\ Forall2 (Q w') l' fs').
Proof using HP HQ Hroom Hf.
  induction l as [|x l IH]; intros w fs HF; inversion HF as [|? g ? fs' Hx Hl]; subst; simpl.
  - apply upd_ret. by exists [].
  - eapply upd_bind; [by eapply upd_frame, Hf| |].
    { intros y. apply room_bind; [by apply room_map_mut|auto with room]. }
    intros y w1 ? L1 (g' & -> & HR & Hy).
    assert (Forall2 (P w1) l fs') as Hl1 by (eapply Forall2_impl; [exact Hl|]; intros ??; by apply HP).
    eapply upd_perm; [apply Permutation_app_comm|].
    eapply upd_bind; [eapply upd_frame, (IH w1 fs' Hl1)|auto with room|].
    intros l' w2 ? L2 (? & -> & fs'' & -> & HRl & Hl').
    eapply upd_perm; [apply Permutation_app_comm|]. apply upd_ret. exists (g' :: fs''). split; [done|].
    split; [by constructor|]. constructor; [by eapply HQ|done].
Qed.
End map_mut.

(** * What tables hold *)

Definition cols_are (cols : list nat) (r : row) (vs : list RowValue.t) : Prop := Forall2 (fun o v => r !! o = Some v) cols vs.

(** The values of an index's columns have the declared, orderable types, and the
    entry key fits a tree. *)
Definition idx_fits (sch : list FluxType.t) (cols : list nat) (pk : list Z) (r : row) : Prop :=
  exists tys vs, Forall2 (fun o ty => sch !! o = Some ty) cols tys /\ forallb ordered_type tys = true /\
    cols_are cols r vs /\ typed tys vs /\ key_fits (encode_values vs ++ pk).

Definition uniq_fits (cols : list nat) (r : row) : Prop := exists k, key_of cols r = Ok k /\ key_fits k.

Definition idx_rel (cols : list nat) (R : content) (M : kmap) : Prop := forall (k v : list Z),
  M !! k = Some v <-> exists r, R !! v = Some r /\ entry_key cols r v = Ok k.

Definition uniq_rel (cols : list nat) (R : content) (M : kmap) : Prop := forall (k v : list Z),
  M !! k = Some v <-> exists r, R !! v = Some r /\ key_of cols r = Ok k.

Lemma cols_types (sch : list FluxType.t) cols tys tys' : Forall2 (fun o ty => sch !! o = Some ty) cols tys ->
  Forall2 (fun (o : nat) (ty : FluxType.t) => sch !! o = Some ty) cols tys' -> tys = tys'.
Proof.
  intros H1. revert tys'. induction H1 as [|o ty cols tys E _ IH]; intros tys' H2; inversion H2; subst; [done|].
  f_equal; [congruence|by apply IH].
Qed.

Lemma cols_are_fun cols r vs vs' : cols_are cols r vs -> cols_are cols r vs' -> vs = vs'.
Proof.
  intros H1. revert vs'. induction H1 as [|o v cols vs E _ IH]; intros vs' H2; inversion H2; subst; [done|].
  f_equal; [congruence|by apply IH].
Qed.

Lemma encode_values_inj tys a b s t : forallb ordered_type tys = true -> typed tys a -> typed tys b ->
  encode_values a ++ s = encode_values b ++ t -> a = b /\ s = t.
Proof.
  intros Ho Ha Hb E. assert (a = b) as ->.
  { apply (encode_values_prefix tys a b t Ho Ha Hb). rewrite <- E. by apply prefix_app_r. }
  by apply app_inv_head in E.
Qed.

Lemma idx_fits_key sch cols pk r : idx_fits sch cols pk r -> exists k, entry_key cols r pk = Ok k /\ key_fits k.
Proof.
  intros (tys & vs & _ & _ & Hc & _ & Hk). exists (encode_values vs ++ pk). split; [|done].
  unfold entry_key. by rewrite (key_of_encode _ _ _ Hc).
Qed.

(** Distinct rows have distinct index entries. *)
Lemma entry_key_inj sch cols pk pk' r r' k : idx_fits sch cols pk r -> idx_fits sch cols pk' r' ->
  entry_key cols r pk = Ok k -> entry_key cols r' pk' = Ok k -> pk = pk'.
Proof.
  intros (tys & vs & Ht & Ho & Hc & Hv & _) (tys' & vs' & Ht' & _ & Hc' & Hv' & _).
  assert (tys' = tys) as -> by by eapply cols_types. unfold entry_key.
  rewrite (key_of_encode _ _ _ Hc), (key_of_encode _ _ _ Hc'). simpl. intros [= <-] [= E].
  by destruct (encode_values_inj tys vs' vs pk' pk Ho Hv' Hv E).
Qed.

Lemma idx_rel_insert sch cols R M pk r k : idx_rel cols R M -> R !! pk = None ->
  map_Forall (idx_fits sch cols) R -> idx_fits sch cols pk r -> entry_key cols r pk = Ok k ->
  idx_rel cols (<[pk := r]> R) (<[k := pk]> M).
Proof.
  intros HM Hnone HR Hr Hk k' v. destruct (decide (k' = k)) as [->|Hne].
  - rewrite lookup_insert_eq. split.
    + intros [= <-]. exists r. by rewrite lookup_insert_eq.
    + intros (r' & Hv & Hk'). destruct (decide (v = pk)) as [->|Hv']; [done|]. rewrite lookup_insert_ne in Hv by done.
      f_equal. eapply entry_key_inj; [exact Hr|exact (HR _ _ Hv)|done|done].
  - rewrite lookup_insert_ne by done. rewrite (HM k' v). split; intros (r' & Hv & Hk').
    + exists r'. rewrite lookup_insert_ne; [done|]. intros <-. congruence.
    + exists r'. destruct (decide (v = pk)) as [->|]; [rewrite lookup_insert_eq in Hv; congruence|].
      by rewrite lookup_insert_ne in Hv.
Qed.

Lemma idx_rel_delete sch cols R M pk r k : idx_rel cols R M -> R !! pk = Some r ->
  map_Forall (idx_fits sch cols) R -> entry_key cols r pk = Ok k -> idx_rel cols (delete pk R) (delete k M).
Proof.
  intros HM Hpk HR Hk k' v. destruct (decide (k' = k)) as [->|Hne].
  - rewrite lookup_delete_eq. split; [done|]. intros (r' & [Hv Hr']%lookup_delete_Some & Hk'). destruct Hv.
    eapply entry_key_inj; [exact (HR _ _ Hpk)|exact (HR _ _ Hr')|done|done].
  - rewrite lookup_delete_ne by done. rewrite (HM k' v). split; intros (r' & Hv & Hk').
    + exists r'. rewrite lookup_delete_ne; [done|]. intros <-. congruence.
    + apply lookup_delete_Some in Hv as [_ Hv]. by exists r'.
Qed.

Lemma uniq_rel_insert cols R M pk r k : uniq_rel cols R M -> R !! pk = None -> key_of cols r = Ok k ->
  (forall v r', R !! v = Some r' -> key_of cols r' <> Ok k) -> uniq_rel cols (<[pk := r]> R) (<[k := pk]> M).
Proof.
  intros HM Hnone Hk Hfree k' v. destruct (decide (k' = k)) as [->|Hne].
  - rewrite lookup_insert_eq. split.
    + intros [= <-]. exists r. by rewrite lookup_insert_eq.
    + intros (r' & Hv & Hk'). destruct (decide (v = pk)) as [->|Hv']; [done|]. rewrite lookup_insert_ne in Hv by done.
      by destruct (Hfree _ _ Hv).
  - rewrite lookup_insert_ne by done. rewrite (HM k' v). split; intros (r' & Hv & Hk').
    + exists r'. rewrite lookup_insert_ne; [done|]. intros <-. congruence.
    + exists r'. destruct (decide (v = pk)) as [->|]; [rewrite lookup_insert_eq in Hv; congruence|].
      by rewrite lookup_insert_ne in Hv.
Qed.

Lemma uniq_rel_delete cols R M pk r k : uniq_rel cols R M -> R !! pk = Some r -> key_of cols r = Ok k ->
  uniq_rel cols (delete pk R) (delete k M).
Proof.
  intros HM Hpk Hk k' v. destruct (decide (k' = k)) as [->|Hne].
  - rewrite lookup_delete_eq. split; [done|]. intros (r' & [Hv Hr']%lookup_delete_Some & Hk'). destruct Hv.
    assert (M !! k = Some pk) as E by (apply HM; eauto). assert (M !! k = Some v) as E' by (apply HM; eauto). congruence.
  - rewrite lookup_delete_ne by done. rewrite (HM k' v). split; intros (r' & Hv & Hk').
    + exists r'. rewrite lookup_delete_ne; [done|]. intros <-. congruence.
    + apply lookup_delete_Some in Hv as [_ Hv]. by exists r'.
Qed.

(** * Operations *)

Section tables.
Context {W T X : Type} {KT : KvTree W T} {KL : KvTreeLaws W T} {RC : RowCodec} {RL : RowCodecLaws}.
Notation St := (W * list Page)%type.

Definition row_fits (r : row) : Prop :=
  forallb value_ok r = true /\ exists bs, rmp_to_vec (row_to_log r) = Some bs /\ blen bs < 2 ^ 64.

Definition rows_fit (R : content) : Prop := map_Forall (fun pk r => key_fits pk /\ row_fits r) R.

Definition row_bytes (r : row) : option (list Z) := rmp_to_vec (row_to_log r).

Definition rows_is (w : W) (t : T) (n : Z) (R : content) (f : list Page) : Prop :=
  kt_is w t (omap row_bytes R) f /\ n = Z.of_nat (size R) /\ rows_fit R.

Definition index_is (R : content) (w : W) (i : BTreeIndex T) (f : list Page) : Prop :=
  exists M, kt_is w (bi_tree i) M f /\ idx_rel (bi_columns i) R M.

Definition uniq_is (U : content) (w : W) (c : UniqueIndex T) (f : list Page) : Prop :=
  exists M, kt_is w (ui_tree c) M f /\ uniq_rel (ui_columns c) U M.

Lemma index_is_le R w w' i f : kt_le w w' -> index_is R w i f -> index_is R w' i f.
Proof using Type. intros L (M & Ht & HM). exists M. split; [by eapply kt_is_le|done]. Qed.
Lemma uniq_is_le U w w' c f : kt_le w w' -> uniq_is U w c f -> uniq_is U w' c f.
Proof using Type. intros L (M & Ht & HM). exists M. split; [by eapply kt_is_le|done]. Qed.
Lemma rows_is_le w w' t n R f : kt_le w w' -> rows_is w t n R f -> rows_is w' t n R f.
Proof using Type. intros L (Ht & HM). split; [by eapply kt_is_le|done]. Qed.

(** ** Reading rows *)

Lemma decode_row_bytes r bs : row_fits r -> row_bytes r = Some bs -> decode_row_paged bs = Ok r.
Proof using RL.
  intros [Hok _] E. unfold decode_row_paged. rewrite (rmp_round_trip _ _ E). simpl. by rewrite collect_row_to_log.
Qed.

Lemma row_bytes_some R (pk : list Z) r : rows_fit R -> R !! pk = Some r -> is_Some (row_bytes r).
Proof using Type. intros HR Hr. destruct (HR _ _ Hr) as (_ & _ & bs & E & _). by exists bs. Qed.

Lemma row_at_spec w (ts : TableState T X) n R f pk : kt_ok w -> rows_is w (rows ts) n R f -> row_at w ts pk = Ok (R !! pk).
Proof using RL.
  intros Hok (Ht & _ & HR). unfold row_at. rewrite (kt_get_spec _ _ _ _ _ Hok Ht). simpl. rewrite lookup_omap.
  destruct (R !! pk) as [r|] eqn:E; simpl; [|done]. destruct (row_bytes_some _ _ _ HR E) as [bs Eb]. rewrite Eb.
  by rewrite (decode_row_bytes r) by (done || by apply (HR pk)).
Qed.

Lemma contains_pk_spec w (ts : TableState T X) n R f pk : kt_ok w -> rows_is w (rows ts) n R f ->
  contains_pk w ts pk = Ok (bool_decide (is_Some (R !! pk))).
Proof using Type.
  intros Hok (Ht & _ & HR). unfold contains_pk. rewrite (kt_get_spec _ _ _ _ _ Hok Ht). simpl. f_equal.
  apply bool_decide_ext. rewrite lookup_omap. destruct (R !! pk) as [r|] eqn:E; simpl; [|done].
  split; [done|]. intros _. by eapply row_bytes_some.
Qed.

Lemma row_entries R : rows_fit R ->
  btree_entries (omap row_bytes R) = map (fun p => (p.1, default [] (row_bytes p.2))) (btree_entries R).
Proof using Type.
  intros HR. symmetry. apply btree_entries_unique.
  - rewrite sorted_fst. rewrite <- list_fmap_compose. apply (btree_keys_sorted R).
  - intros k v. rewrite lookup_omap_Some. split.
    + intros ([k' r] & [= -> ->] & Hr)%list_elem_of_fmap. apply elem_of_btree_entries in Hr. exists r.
      split; [|done]. destruct (row_bytes_some _ _ _ HR Hr) as [bs ->]. done.
    + intros (r & E & Hr). apply list_elem_of_fmap. exists (k, r). simpl. rewrite E. split; [done|]. by apply elem_of_btree_entries.
Qed.

Lemma scan_all_keeps (M : kmap) : filter (scan_keeps [] None) (btree_entries M) = btree_entries M.
Proof using Type.
  induction (btree_entries M) as [|p l IH]; [done|]. rewrite filter_cons_True, IH; [done|].
  split; [|done]. unfold key_le. simpl. by destruct (p.1).
Qed.

Lemma table_entries w (ts : TableState T X) n R f : kt_ok w -> rows_is w (rows ts) n R f ->
  kt_entries w (rows ts) [] None = Ok (map (fun p => (p.1, default [] (row_bytes p.2))) (btree_entries R)).
Proof using Type.
  intros Hok (Ht & _ & HR). by rewrite (kt_entries_spec _ _ _ _ _ _ Hok Ht), scan_all_keeps, row_entries.
Qed.

Lemma decode_entry (R : content) pk r : rows_fit R -> (pk, r) ∈ btree_entries R ->
  decode_row_paged (default [] (row_bytes r)) = Ok r.
Proof using RL.
  intros HR Hr%elem_of_btree_entries. destruct (row_bytes_some _ _ _ HR Hr) as [bs E]. rewrite E.
  by apply decode_row_bytes; [apply (HR pk)|].
Qed.

Lemma for_each_row_spec w (ts : TableState T X) n R f : kt_ok w -> rows_is w (rows ts) n R f ->
  for_each_row w ts = Ok (btree_entries R).
Proof using RL.
  intros Hok HR. unfold for_each_row. rewrite (table_entries _ _ _ _ _ Hok HR). simpl.
  rewrite <- (map_id (btree_entries R)) at 2. apply collect_map, Forall_forall. intros [pk r] Hr. simpl.
  rewrite (decode_entry R pk r); [done|apply HR|done].
Qed.

Lemma all_rows_spec w (ts : TableState T X) n R f : kt_ok w -> rows_is w (rows ts) n R f ->
  all_rows w ts = Ok (btree_values R).
Proof using RL.
  intros Hok HR. unfold all_rows, btree_values. rewrite (table_entries _ _ _ _ _ Hok HR). simpl.
  apply collect_map, Forall_forall. intros [pk r] Hr. simpl. eapply decode_entry; [apply HR|done].
Qed.

(** ** Writing rows *)

Lemma put_row_spec w (ts : TableState T X) R f pk r : rows_is w (rows ts) (row_count ts) R f -> key_fits pk -> row_fits r ->
  upd (put_row ts pk r) w f (fun p w' f' => p.1 = R !! pk /\ p.2 = with_rows ts (rows p.2) (row_count p.2) /\
    rows_is w' (rows p.2) (row_count p.2) (<[pk := r]> R) f').
Proof using RL.
  intros HR Hpk Hr. apply upd_ok. intros Hok. read_pages @put_row.
  eapply upd_lift; [exact (row_at_spec w ts _ R f pk Hok HR)|]. destruct HR as (Ht & Hn & HR).
  destruct Hr as (Hv & bs & Eb & Hlen). eapply upd_lift; [unfold encode_row_paged; by rewrite Eb|].
  eapply upd_bind; [by apply (upd_tree_insert w _ _ f pk bs Ht)|auto with room|].
  intros t w' f' L Ht'. apply upd_ret. split; [done|]. split; [done|]. split_and!.
  - cbn [rows with_rows snd]. rewrite (omap_insert_Some row_bytes R pk r bs) by done. exact Ht'.
  - simpl. destruct (R !! pk) as [r0|] eqn:E; [by rewrite map_size_insert_Some|]. rewrite map_size_insert_None by done. lia.
  - apply map_Forall_insert_2; [|done]. split; [done|]. split; [done|]. by exists bs.
Qed.

Lemma take_row_spec w (ts : TableState T X) R f pk : rows_is w (rows ts) (row_count ts) R f ->
  upd (take_row ts pk) w f (fun p w' f' => p.1 = R !! pk /\ p.2 = with_rows ts (rows p.2) (row_count p.2) /\
    rows_is w' (rows p.2) (row_count p.2) (delete pk R) f').
Proof using RL.
  intros HR. apply upd_ok. intros Hok. read_pages @take_row.
  eapply upd_lift; [exact (row_at_spec w ts _ R f pk Hok HR)|]. destruct HR as (Ht & Hn & HR).
  destruct (R !! pk) as [r|] eqn:E.
  - eapply upd_bind; [by apply (upd_tree_delete w _ _ f pk Ht)|intros [??]; auto with room|].
    intros [b t] w' f' L Ht'. apply upd_ret. split; [done|]. split; [done|]. split_and!.
    + simpl. by rewrite omap_delete.
    + simpl. rewrite map_size_delete_Some by done. unfold sat_sub.
      assert (size R <> 0%nat) by (apply map_size_non_empty_iff; intros ->; by rewrite lookup_empty in E). lia.
    + by apply map_Forall_delete.
  - apply upd_ret. split; [done|]. split; [by destruct ts|]. rewrite delete_id by done. done.
Qed.

Lemma room_put_row (ts : TableState T X) pk r : keeps_room (put_row ts pk r).
Proof using Type. read_room @put_row. auto 8 with room. Qed.
Lemma room_take_row (ts : TableState T X) pk : keeps_room (take_row ts pk).
Proof using Type.
  read_room @take_row. apply room_bind; [auto with room|]. intros [r|]; [|auto with room].
  apply room_bind; [auto with room|]. intros [??]. auto with room.
Qed.

(** ** Index entries *)

Lemma index_insert_spec sch R w i f pk r : index_is R w i f -> R !! pk = None ->
  map_Forall (idx_fits sch (bi_columns i)) R -> idx_fits sch (bi_columns i) pk r -> blen pk < 2 ^ 64 ->
  upd (index_insert i r pk) w f (fun i' w' f' => bi_columns i' = bi_columns i /\ index_is (<[pk := r]> R) w' i' f').
Proof using Type.
  intros (M & Ht & HM) Hnone HR Hr Hlen. destruct (idx_fits_key _ _ _ _ Hr) as (k & Ek & Hk).
  eapply upd_lift; [by rewrite Ek|].
  eapply upd_bind; [by apply (upd_tree_insert w _ _ f k pk Ht)|auto with room|].
  intros t w' f' L Ht'. apply upd_ret. split; [done|]. eexists. split; [exact Ht'|]. by eapply idx_rel_insert.
Qed.

Lemma index_remove_spec sch R w i f pk r : index_is R w i f -> R !! pk = Some r ->
  map_Forall (idx_fits sch (bi_columns i)) R ->
  upd (index_remove i r pk) w f (fun i' w' f' => bi_columns i' = bi_columns i /\ index_is (delete pk R) w' i' f').
Proof using Type.
  intros (M & Ht & HM) Hpk HR. destruct (idx_fits_key _ _ _ _ (HR _ _ Hpk)) as (k & Ek & Hk).
  eapply upd_lift; [by rewrite Ek|].
  eapply upd_bind; [by apply (upd_tree_delete w _ _ f k Ht)|intros [??]; auto with room|].
  intros [b t] w' f' L Ht'. apply upd_ret. split; [done|]. eexists. split; [exact Ht'|]. by eapply idx_rel_delete.
Qed.

(** ** Unique constraints *)

Lemma owner_spec U w c f key : kt_ok w -> uniq_is U w c f -> exists o, owner w c key = Ok o /\
  forall pk, o = Some pk <-> exists r, U !! pk = Some r /\ key_of (ui_columns c) r = Ok key.
Proof using Type.
  intros Hok (M & Ht & HM). exists (M !! key). unfold owner. rewrite (kt_get_spec _ _ _ _ _ Hok Ht). split; [done|].
  intros pk. apply HM.
Qed.

Lemma unique_insert_spec U w c f pk r : uniq_is U w c f -> U !! pk = None -> uniq_fits (ui_columns c) r -> blen pk < 2 ^ 64 ->
  (forall v r', U !! v = Some r' -> key_of (ui_columns c) r' <> key_of (ui_columns c) r) ->
  upd (unique_insert c r pk) w f (fun c' w' f' => ui_columns c' = ui_columns c /\ uniq_is (<[pk := r]> U) w' c' f').
Proof using Type.
  intros HU Hnone (k & Ek & Hk) Hlen Hfree. apply upd_ok. intros Hok. read_pages @unique_insert.
  eapply upd_lift; [unfold unique_key; by rewrite Ek|].
  destruct (owner_spec _ _ _ _ k Hok HU) as (o & Eo & Ho). eapply upd_lift; [exact Eo|].
  destruct o as [pk'|]. { destruct (proj1 (Ho pk') eq_refl) as (r' & Hr' & Ek'). destruct (Hfree _ _ Hr'). congruence. }
  destruct HU as (M & Ht & HM). apply upd_skip.
  eapply upd_bind; [by apply (upd_tree_insert w _ _ f k pk Ht)|auto with room|].
  intros t w' f' L Ht'. apply upd_ret. split; [done|]. eexists. split; [exact Ht'|].
  apply uniq_rel_insert; try done. intros v r' Hv. rewrite <- Ek. by eapply Hfree.
Qed.

Lemma unique_remove_spec U w c f pk r : uniq_is U w c f -> U !! pk = Some r -> uniq_fits (ui_columns c) r ->
  upd (unique_remove c r pk) w f (fun c' w' f' => ui_columns c' = ui_columns c /\ uniq_is (delete pk U) w' c' f').
Proof using Type.
  intros HU Hpk (k & Ek & Hk). apply upd_ok. intros Hok. read_pages @unique_remove.
  eapply upd_lift; [unfold unique_key; by rewrite Ek|].
  destruct (owner_spec _ _ _ _ k Hok HU) as (o & Eo & Ho). eapply upd_lift; [exact Eo|].
  assert (o = Some pk) as -> by (apply Ho; eauto). rewrite bool_decide_eq_true_2 by done.
  destruct HU as (M & Ht & HM).
  eapply upd_bind; [by apply (upd_tree_delete w _ _ f k Ht)|intros [??]; auto with room|].
  intros [b t] w' f' L Ht'. apply upd_ret. split; [done|]. eexists. split; [exact Ht'|]. by eapply uniq_rel_delete.
Qed.
End tables.
