(* ===== verification/Reclaim.v ===== *)
(** Version-scoped page reclamation, as in
    [crates/fluxum-core/src/store/pager/reclaim.rs].

    Every published state is a version. A commit at version [v] hands over the
    pages it superseded, which only versions below [v] reach; they are freed
    once no live version is below [v]. [collect_spec] states the promise the
    store builds on: a tree that avoids the batches at or below the floor reads
    the same after a collection. *)

From stdpp Require Import base list gmap sorting.
From Stdlib Require Import ZArith Lia.
From S2P Require Import Prelude PageFormat PagedTree PagedTreeSpec KvTree.

(** [Inner] of a [Reclaimer]; both maps are [BTreeMap]s. *)
Record Inner : Type := {
  garbage : gmap Z (list Page);
  live : gmap Z Z;
  pending_pages : Z;
}.

Definition inner_new : Inner := {| garbage := ∅; live := ∅; pending_pages := 0 |}.

Record ReclaimPending : Type := {
  rp_pages : Z;
  rp_batches : Z;
  rp_oldest_pending_version : option Z;
  rp_live_versions : Z;
  rp_floor : option Z;
}.

Definition pending (i : Inner) : ReclaimPending := {|
  rp_pages := pending_pages i;
  rp_batches := Z.of_nat (size (garbage i));
  rp_oldest_pending_version := head (btree_keys (garbage i));
  rp_live_versions := Z.of_nat (size (live i));
  rp_floor := head (btree_keys (live i)) |}.

Section reclaim.
Context {W T : Type} `{KvTree W T}.

Definition pin (version : Z) (i : Inner) : Inner := {|
  garbage := garbage i;
  live := <[version := default 0 (live i !! version) + 1]> (live i);
  pending_pages := pending_pages i |}.

Definition unpin_live (version : Z) (l : gmap Z Z) : gmap Z Z :=
  match l !! version with
  | Some count => if count - 1 =? 0 then delete version l else <[version := count - 1]> l
  | None => l
  end.

Definition floor (i : Inner) : Z := default (u_max 64) (head (btree_keys (live i))).

(** [split_off] keeps the batches strictly above the floor. *)
Definition drained (i : Inner) : gmap Z (list Page) :=
  filter (fun p => p.1 < sat_add 64 (floor i) 1) (garbage i).
Definition kept (i : Inner) : gmap Z (list Page) :=
  filter (fun p => ~ p.1 < sat_add 64 (floor i) 1) (garbage i).

Definition drained_pages (i : Inner) : list Page := concat (btree_values (drained i)).

Fixpoint free_pages (l : list Page) : SM W TreeError unit :=
  match l with [] => mret tt | p :: l => kt_free p ≫= fun _ => free_pages l end.

Definition collect_pages : SM (Inner * W) TreeError unit := fun '(i, w) =>
  let i' := {|
    garbage := kept i;
    live := live i;
    pending_pages := sat_sub (pending_pages i) (Z.of_nat (length (drained_pages i))) |} in
  let '(r, w) := free_pages (drained_pages i) w in (r, (i', w)).

Definition unpin (version : Z) : SM (Inner * W) TreeError unit := fun '(i, w) =>
  collect_pages ({| garbage := garbage i; live := unpin_live version (live i); pending_pages := pending_pages i |}, w).

Definition retire (version : Z) (pages : list Page) : SM (Inner * W) TreeError unit := fun '(i, w) =>
  match pages with
  | [] => collect_pages (i, w)
  | _ =>
      collect_pages ({|
        garbage := <[version := default [] (garbage i !! version) ++ pages]> (garbage i);
        live := live i;
        pending_pages := pending_pages i + Z.of_nat (length pages) |}, w)
  end.
End reclaim.

(** * What a collection does *)

Section specs.
Context {W T : Type} {KT : KvTree W T} {KL : KvTreeLaws W T}.

Lemma free_pages_spec l : forall w, kt_ok w -> exists w', free_pages l w = (Ok tt, w') /\ kt_ok w' /\
  (kt_room w -> kt_room w') /\ (forall q, kt_used w' q <-> kt_used w q) /\
  (forall t M fp, kt_is w t M fp -> (forall p, p ∈ l -> p ∉ fp) -> kt_is w' t M fp).
Proof using KL.
  induction l as [|p l IH]; intros w Hok; [by exists w|]. simpl.
  destruct (kt_free_spec w p Hok) as (w1 & E1 & Hok1 & Hr1 & Hu1 & Hi1).
  destruct (IH w1 Hok1) as (w2 & E2 & Hok2 & Hr2 & Hu2 & Hi2). exists w2. unfold mbind, sm_bind. rewrite E1, E2.
  split_and!; auto.
  - intros q. by rewrite Hu2, Hu1.
  - intros t M fp Ht Hd. apply Hi2; [apply Hi1; [done|]|]; intros; apply Hd; by constructor.
Qed.

Lemma floor_le i v : is_Some (live i !! v) -> floor i <= v.
Proof using Type.
  intros Hv%elem_of_btree_keys. unfold floor. pose proof (btree_keys_sorted (live i)) as Hs.
  destruct (btree_keys (live i)) as [|k l]; [by apply elem_of_nil in Hv|]. simpl.
  apply elem_of_cons in Hv as [->|Hv]; [done|]. inversion Hs as [|?? _ Hf]; subst. rewrite Forall_forall in Hf.
  apply Hf in Hv. change (k < v) in Hv. lia.
Qed.

Lemma drained_page i p : p ∈ drained_pages i -> exists k l, garbage i !! k = Some l /\ p ∈ l /\ k <= floor i.
Proof using Type.
  unfold drained_pages. intros Hp. apply list_elem_of_In, in_concat in Hp as (l & Hl & Hp).
  apply list_elem_of_In in Hl, Hp. apply list_elem_of_fmap in Hl as ([k l'] & -> & Hkl). apply elem_of_btree_entries in Hkl.
  apply map_lookup_filter_Some in Hkl as [Hg Hk]. simpl in *. exists k, l'. split_and!; try done.
  unfold sat_add, u_max in Hk. lia.
Qed.

(** Trees of versions at or above the floor survive when every batch avoids
    the trees of the versions from its own on. *)
Lemma collect_spec i w : kt_ok w -> exists w', collect_pages (i, w) = (Ok tt,
    ({| garbage := kept i; live := live i;
        pending_pages := sat_sub (pending_pages i) (Z.of_nat (length (drained_pages i))) |}, w')) /\
  kt_ok w' /\ (kt_room w -> kt_room w') /\ (forall q, kt_used w' q <-> kt_used w q) /\
  (forall v t M fp, kt_is w t M fp -> is_Some (live i !! v) ->
     (forall k l p, garbage i !! k = Some l -> k <= v -> p ∈ l -> p ∉ fp) -> kt_is w' t M fp).
Proof using KL.
  intros Hok. destruct (free_pages_spec (drained_pages i) w Hok) as (w' & E & Hok' & Hr & Hu & Hi).
  exists w'. unfold collect_pages. rewrite E. split_and!; try done.
  intros v t M fp Ht Hv Hd. apply Hi; [done|]. intros p (k & l & Hg & Hp & Hk)%drained_page.
  eapply Hd; [exact Hg| |exact Hp]. pose proof (floor_le i v Hv). lia.
Qed.

Lemma kept_sub i k l : kept i !! k = Some l -> garbage i !! k = Some l.
Proof using Type. intros Hk. by apply map_lookup_filter_Some in Hk as [? _]. Qed.
End specs.
