(* ===== verification/MemStore.v ===== *)
(** The transactional store: [crates/fluxum-core/src/store/memstore.rs] with its
    parts [memstore/tx.rs] and [memstore/build.rs].

    One writer at a time buffers its effects in a [Tx] and validates every
    constraint when it writes; [commit] merges the buffer into copy-on-write
    tables, publishes a new version and retires the pages it superseded. The
    store's reads go through the trees of a published state.

    Published states are reference counted ([Arc]): [arcs] counts the holders
    of each version, and the last release unpins it in the reclaimer.
    The functions a schema registers ([computed], [check]) and the column
    transforms are fields of the store; the blob store and the spatial and
    full-text indexes are interfaces. *)

From stdpp Require Import base list gmap sorting.
From Stdlib Require Import ZArith Lia.
From S2P Require Import Prelude FluxBin Row IndexKey TxState LogRecord PageFormat PagedTree PagedTreeNode PagedTreeRep PagedTreeSpec KvTree TableState Reclaim Ieee.

(** * Data *)

Record AutoIncCounter : Type := { next : Z; high_water : Z }.

Definition counter_new : AutoIncCounter := {| next := 1; high_water := 0 |}.

(** [step] is at least one: the store's constructor refuses zero. *)
Definition allocate (step : Z) (c : AutoIncCounter) : (Z * bool) * AutoIncCounter :=
  let advanced := high_water c <? next c in
  let hw := if advanced then sat_add 64 (next c) (step - 1) else high_water c in
  ((next c, advanced), {| next := sat_add 64 (next c) 1; high_water := hw |}).

Definition observe_explicit (value : Z) (c : AutoIncCounter) : bool * AutoIncCounter :=
  let nx := if next c <=? value then sat_add 64 value 1 else next c in
  if high_water c <? value then (true, {| next := nx; high_water := value |})
  else (false, {| next := nx; high_water := high_water c |}).

Inductive RefAction : Type := Restrict | Cascade | SetNull.
#[global] Instance RefAction_eq_dec : EqDecision RefAction.
Proof. solve_decision. Defined.

Record ResolvedFk : Type := {
  fk_child : TableId;
  fk_child_schema : TableInfo;
  fk_child_ordinal : nat;
  fk_parent : TableId;
  fk_parent_schema : TableInfo;
  fk_on_delete : RefAction;
}.

(** Functions the schema registers fail with a code of their own. *)
Record TransformEngine : Type := {
  touches : TableId -> bool;
  on_write_row : TableId -> row -> list Z -> result Z row;
  on_read_row : TableId -> row -> list Z -> bool -> result Z row;
}.

(** The calls on the shard's blob store. *)
Class BlobStore (B : Type) := {
  blob_contains : B -> list Z -> bool;
  blob_incref : B -> list Z -> B;
  blob_unref : B -> list Z -> B;
}.

Record StoreOptions : Type := {
  auto_inc_allocation_step : Z;
  temporal_window : nat;
  temporal_window_max_bytes : Z;
  pool_page_size : Z;
}.

(** What a store's construction fixes, with the process-wide trigger registry. *)
Record StoreEnv : Type := {
  catalog : gmap TableId TableInfo;
  options : StoreOptions;
  transforms : option TransformEngine;
  computed : gmap TableId (list (nat * (row -> result Z RowValue.t)));
  checks : gmap TableId (list (nat * (row -> result Z bool)));
  not_null : gmap TableId (list nat);
  fks_out : gmap TableId (list ResolvedFk);
  fks_in : gmap TableId (list ResolvedFk);
  has_triggers : TableId -> bool;
  global_writes_allowed : bool;
}.

Record WriterState : Type := {
  next_tx_id : Z;
  next_version : Z;
  counters : gmap TableId AutoIncCounter;
  high_water_dirty : gset TableId;
}.

Record CommittedState (T X : Type) : Type := {
  cs_tables : gmap TableId (TableState T X);
  cs_version : Z;
}.
Arguments cs_tables {T X} _.
Arguments cs_version {T X} _.
Arguments Build_CommittedState {T X} _ _.

(** The handle of the in-flight transaction; it holds the writer's state. *)
Record Tx (T X : Type) : Type := {
  tx_base : CommittedState T X;
  tx_state : TxState;
  tx_writer : WriterState;
}.
Arguments tx_base {T X} _.
Arguments tx_state {T X} _.
Arguments tx_writer {T X} _.
Arguments Build_Tx {T X} _ _ _.

(** * Equality of values

    The derived [PartialEq]: floats compare as IEEE numbers. *)

Definition float_eq (w a b : Z) : bool :=
  negb (is_nan w a) && negb (is_nan w b) && ((a =? b) || (is_zero w a && is_zero w b)).

Fixpoint value_eq (a b : RowValue.t) : bool :=
  match a, b with
  | RowValue.Bool x, RowValue.Bool y => Bool.eqb x y
  | RowValue.I8 x, RowValue.I8 y | RowValue.I16 x, RowValue.I16 y | RowValue.I32 x, RowValue.I32 y
  | RowValue.I64 x, RowValue.I64 y | RowValue.U8 x, RowValue.U8 y | RowValue.U16 x, RowValue.U16 y
  | RowValue.U32 x, RowValue.U32 y | RowValue.U64 x, RowValue.U64 y
  | RowValue.ConnectionId x, RowValue.ConnectionId y | RowValue.EntityId x, RowValue.EntityId y
  | RowValue.Timestamp x, RowValue.Timestamp y => x =? y
  | RowValue.F32 x, RowValue.F32 y => float_eq 32 x y
  | RowValue.F64 x, RowValue.F64 y => float_eq 64 x y
  | RowValue.Str x, RowValue.Str y | RowValue.Bytes x, RowValue.Bytes y
  | RowValue.Identity x, RowValue.Identity y | RowValue.Blob x, RowValue.Blob y => bool_decide (x = y)
  | RowValue.Decimal u s, RowValue.Decimal u' s' => (u =? u') && (s =? s')
  | RowValue.Optional None, RowValue.Optional None => true
  | RowValue.Optional (Some x), RowValue.Optional (Some y) => value_eq x y
  | RowValue.List l, RowValue.List k => forallb2 value_eq l k
  | RowValue.Enum t l, RowValue.Enum t' k => (t =? t') && forallb2 value_eq l k
  | RowValue.Struct l, RowValue.Struct k => forallb2 value_eq l k
  | _, _ => false
  end.

Definition row_eq (a b : row) : bool := forallb2 value_eq a b.

Definition fk_value_matches (value : option RowValue.t) (parent : RowValue.t) : bool :=
  match value with
  | Some (RowValue.Optional (Some inner)) => value_eq inner parent
  | Some other => value_eq other parent
  | None => false
  end.

Definition is_blob (ty : FluxType.t) : bool := match ty with FluxType.Blob => true | _ => false end.

Definition blob_ordinals (info : TableInfo) : list nat :=
  filter (fun i => is_blob <$> (columns (ti_schema info) !! i) = Some true) (seq 0 (length (columns (ti_schema info)))).

(** * The write path of a transaction *)

Section tx.
Context {W T X B : Type} `{KvTree W T} `{RowCodec} `{SideIndex W X} `{BlobStore B}.
Context (env : StoreEnv) (blobs : option B) (w : W).
Notation TxM := (SM (Tx T X) StoreError).

Definition schema_of (table : TableId) : result StoreError TableInfo :=
  from_option (UnknownTable table) (catalog env !! table).

Definition cs_table (cs : CommittedState T X) (id : TableId) : result StoreError (TableState T X) :=
  from_option (UnknownTable id) (cs_tables cs !! id).

Definition base_table (table : TableId) : TxM (TableState T X) := fun tx => (cs_table (tx_base tx) table, tx).

Definition ops_of (st : TxState) (table : TableId) : gmap (list Z) PendingOp := default ∅ (tables st !! table).

Definition get_ops (table : TableId) : TxM (gmap (list Z) PendingOp) := fun tx => (Ok (ops_of (tx_state tx) table), tx).

Definition with_state (tx : Tx T X) (st : TxState) : Tx T X := Build_Tx (tx_base tx) st (tx_writer tx).

Definition set_ops (table : TableId) (ops : gmap (list Z) PendingOp) : TxM unit := fun tx =>
  let st := tx_state tx in
  (Ok tt, with_state tx {| tx_id := tx_id st; tables := <[table := ops]> (tables st); trigger_events := trigger_events st |}).

Definition push_event (e : TriggerEvent) : TxM unit := fun tx =>
  let st := tx_state tx in
  (Ok tt, with_state tx {| tx_id := tx_id st; tables := tables st; trigger_events := trigger_events st ++ [e] |}).

Definition guard (ok : bool) (e : StoreError) : TxM unit := if ok then mret tt else sm_fail e.

Definition global_guard (info : TableInfo) : TxM unit :=
  guard (negb (bool_decide (ti_access info = Global) && negb (global_writes_allowed env))) GlobalReplicaWrite.

(** [values.get_mut(ordinal)] replaced when in range. *)
Fixpoint apply_computed (cols : list (nat * (row -> result Z RowValue.t))) (values : row) : result StoreError row :=
  match cols with
  | [] => Ok values
  | (ordinal, compute) :: cols => map_err ReducerError (compute values) ≫= fun derived => apply_computed cols (<[ordinal := derived]> values)
  end.

Fixpoint check_blobs (ordinals : list nat) (values : row) : result StoreError unit :=
  match ordinals with
  | [] => Ok tt
  | o :: ordinals =>
      match values !! o with
      | Some (RowValue.Blob hash) =>
          match blobs with
          | None => Err BlobStoreMissing
          | Some b => if blob_contains b hash then check_blobs ordinals values else Err (BlobMissing hash)
          end
      | _ => check_blobs ordinals values
      end
  end.

Definition set_counter (table : TableId) (c : AutoIncCounter) (advanced : bool) : TxM unit := fun tx =>
  let wr := tx_writer tx in
  (Ok tt, Build_Tx (tx_base tx) (tx_state tx) {|
    next_tx_id := next_tx_id wr; next_version := next_version wr;
    counters := <[table := c]> (counters wr);
    high_water_dirty := if advanced then {[table]} ∪ high_water_dirty wr else high_water_dirty wr |}).

(** The ordinal is in range: [check_row] fixed the arity. *)
Definition assign_auto_inc (table : TableId) (info : TableInfo) (values : row) : TxM row := fun tx =>
  match ti_auto_inc info with
  | None => (Ok values, tx)
  | Some idx =>
      match values !! idx with
      | Some (RowValue.U64 current) =>
          let counter := default counter_new (counters (tx_writer tx) !! table) in
          if current =? 0 then
            let '((assigned, advanced), c) := allocate (auto_inc_allocation_step (options env)) counter in
            (set_counter table c advanced ≫= fun _ => mret (<[idx := RowValue.U64 assigned]> values)) tx
          else
            let '(advanced, c) := observe_explicit current counter in
            (set_counter table c advanced ≫= fun _ => mret values) tx
      | _ => (Err AutoIncNotU64, tx)
      end
  end.

(** ** Constraints *)

Fixpoint check_not_null (ordinals : list nat) (values : row) : result StoreError unit :=
  match ordinals with
  | [] => Ok tt
  | o :: ordinals =>
      match values !! o with
      | Some (RowValue.Optional None) => Err (NotNullViolation o)
      | _ => check_not_null ordinals values
      end
  end.

Fixpoint check_checks (defs : list (nat * (row -> result Z bool))) (values : row) : result StoreError unit :=
  match defs with
  | [] => Ok tt
  | (o, check) :: defs => map_err ReducerError (check values) ≫= fun ok : bool => if ok then check_checks defs values else Err (CheckViolation o)
  end.

Definition parent_exists (fk : ResolvedFk) (value : RowValue.t) : TxM bool := fun tx =>
  (sm_lift (map_err RowError (encode_pk_values (ti_schema (fk_parent_schema fk)) [value])) ≫= fun pk =>
   match ops_of (tx_state tx) (fk_parent fk) !! pk with
   | Some (Insert _ | Update _) => mret true
   | Some Delete => mret false
   | None => base_table (fk_parent fk) ≫= fun ts => sm_lift (contains_pk w ts pk)
   end) tx.

Fixpoint check_fks (fks : list ResolvedFk) (values : row) : TxM unit :=
  match fks with
  | [] => mret tt
  | fk :: fks =>
      match values !! fk_child_ordinal fk with
      | None | Some (RowValue.Optional None) => check_fks fks values
      | Some value =>
          let target := match value with RowValue.Optional (Some inner) => inner | other => other end in
          parent_exists fk target ≫= fun found =>
          guard found (FkViolation (fk_child_ordinal fk)) ≫= fun _ => check_fks fks values
      end
  end.

Definition check_constraints (table : TableId) (values : row) : TxM unit :=
  sm_lift (check_not_null (default [] (not_null env !! table)) values) ≫= fun _ =>
  sm_lift (check_checks (default [] (checks env !! table)) values) ≫= fun _ =>
  check_fks (default [] (fks_out env !! table)) values.

(** Another pending row carrying the constraint's key. *)
Fixpoint check_pending (table : TableId) (c : UniqueIndex T) (key pk : list Z) (ops : list (list Z * PendingOp)) : result StoreError unit :=
  match ops with
  | [] => Ok tt
  | (other_pk, op) :: ops =>
      if bool_decide (other_pk = pk) then check_pending table c key pk ops
      else match op with
      | Delete => check_pending table c key pk ops
      | Insert r | Update r =>
          unique_key c r ≫= fun k =>
          if bool_decide (k = key) then Err (UniqueViolation table (ui_columns c)) else check_pending table c key pk ops
      end
  end.

(** The owner is the row being written, or the transaction deleted or replaced it. *)
Definition shadowed (ops : gmap (list Z) PendingOp) (pk o : list Z) : bool :=
  bool_decide (o = pk) || match ops !! o with Some (Delete | Update _) => true | _ => false end.

Fixpoint check_unique_each (table : TableId) (ops : gmap (list Z) PendingOp) (values : row) (pk : list Z)
    (cs : list (UniqueIndex T)) : result StoreError unit :=
  match cs with
  | [] => Ok tt
  | c :: cs =>
      unique_key c values ≫= fun key =>
      check_pending table c key pk (btree_entries ops) ≫= fun _ =>
      owner w c key ≫= fun o =>
      match o with
      | Some o => if shadowed ops pk o then check_unique_each table ops values pk cs else Err (UniqueViolation table (ui_columns c))
      | None => check_unique_each table ops values pk cs
      end
  end.

Definition check_unique (table : TableId) (values : row) (pk : list Z) : TxM unit :=
  base_table table ≫= fun base =>
  get_ops table ≫= fun ops =>
  sm_lift (check_unique_each table ops values pk (unique base)).

(** ** Insert and upsert *)

Definition seal (table : TableId) (values : row) (pk : list Z) : result StoreError row :=
  match transforms env with
  | Some engine => if touches engine table then map_err ReducerError (on_write_row engine table values pk) else Ok values
  | None => Ok values
  end.

(** The checks and derivations of [write] up to the row as stored and its key. *)
Definition prepare (table : TableId) (values : row) : TxM (list Z * row) :=
  sm_lift (schema_of table) ≫= fun info =>
  global_guard info ≫= fun _ =>
  sm_lift (apply_computed (default [] (computed env !! table)) values) ≫= fun values =>
  sm_lift (check_blobs (blob_ordinals info) values) ≫= fun _ =>
  sm_lift (map_err RowError (check_row (ti_schema info) values)) ≫= fun _ =>
  base_table table ≫= fun base =>
  match spatial base with Some s => sm_lift (si_check s values) | None => mret tt end ≫= fun _ =>
  assign_auto_inc table info values ≫= fun values =>
  check_constraints table values ≫= fun _ =>
  sm_lift (map_err RowError (encode_pk_of_row (ti_schema info) values)) ≫= fun pk =>
  sm_lift (seal table values pk) ≫= fun values =>
  mret (pk, values).

Definition is_write (op : option PendingOp) : bool := match op with Some (Insert _ | Update _) => true | _ => false end.

Definition visible (pending : option PendingOp) (committed : option row) : option row :=
  match pending with
  | Some (Insert r | Update r) => Some r
  | Some Delete => None
  | None => committed
  end.

Definition push_write_event (table : TableId) (old : option row) (stored : row) : TxM unit :=
  if has_triggers env table then
    push_event {| te_table := table; te_kind := if old then TriggerUpdate else TriggerInsert;
                  te_old := old; te_new := Some stored |}
  else mret tt.

(** Buffer the write of [values] at [pk]; a write that leaves the row as
    committed is dropped. *)
Definition buffer_write (table : TableId) (pk : list Z) (values : row) (committed : option row) : TxM row :=
  get_ops table ≫= fun ops =>
  let old := visible (ops !! pk) committed in
  let finish stored ops := set_ops table ops ≫= fun _ => push_write_event table old stored ≫= fun _ => mret stored in
  match ops !! pk with
  | Some Delete =>
      match committed with
      | None => set_ops table ops ≫= fun _ => sm_fail MissingRow
      | Some c =>
          if row_eq c values then finish c (delete pk ops)
          else finish values (<[pk := Update values]> ops)
      end
  | Some (Insert _) => finish values (<[pk := Insert values]> ops)
  | Some (Update _) => finish values (<[pk := Update values]> ops)
  | None =>
      match committed with
      | Some c =>
          if row_eq c values then set_ops table ops ≫= fun _ => mret c
          else finish values (<[pk := Update values]> ops)
      | None => finish values (<[pk := Insert values]> ops)
      end
  end.

Definition write (table : TableId) (values : row) (replace : bool) : TxM row :=
  prepare table values ≫= fun '(pk, values) =>
  base_table table ≫= fun base =>
  sm_lift (row_at w base pk) ≫= fun committed =>
  get_ops table ≫= fun ops =>
  let pending := ops !! pk in
  let occupied := is_write pending || (bool_decide (pending = None) && bool_decide (is_Some committed)) in
  guard (negb (occupied && negb replace)) (PkConflict table) ≫= fun _ =>
  check_unique table values pk ≫= fun _ =>
  buffer_write table pk values committed.

Definition insert (table : TableId) (values : row) : TxM row := write table values false.
Definition upsert (table : TableId) (values : row) : TxM row := write table values true.

(** ** Reads of the transaction *)

Definition query_pk (table : TableId) (pk_values : row) : TxM (option row) :=
  base_table table ≫= fun ts =>
  sm_lift (map_err RowError (encode_pk_values (ti_schema (schema ts)) pk_values)) ≫= fun pk =>
  sm_lift (row_at w ts pk).

Definition scan (table : TableId) : TxM (list row) :=
  base_table table ≫= fun ts => sm_lift (all_rows w ts).

Definition written (op : PendingOp) : option row := match op with Insert r | Update r => Some r | Delete => None end.

Definition scan_pending (table : TableId) : TxM (list row) :=
  base_table table ≫= fun _ =>
  get_ops table ≫= fun ops => mret (omap written (btree_values ops)).

(** Committed rows in key order, replacements in place, then the inserted rows. *)
Definition scan_all (table : TableId) : TxM (list row) :=
  base_table table ≫= fun base =>
  get_ops table ≫= fun ops =>
  sm_lift (for_each_row w base) ≫= fun rs =>
  mret (omap (fun '(pk, r) =>
           match ops !! pk with
           | None => Some r
           | Some (Update replacement) => Some replacement
           | Some (Delete | Insert _) => None
           end) rs
        ++ omap (fun op => match op with Insert r => Some r | _ => None end) (btree_values ops)).

Definition migrate_rows (table : TableId) : TxM (list (list Z * row)) :=
  base_table table ≫= fun base =>
  get_ops table ≫= fun ops =>
  sm_lift (for_each_row w base) ≫= fun rs =>
  mret (omap (fun '(pk, r) =>
           match ops !! pk with
           | Some (Update replacement) => Some (pk, replacement)
           | Some (Delete | Insert _) => None
           | None => Some (pk, r)
           end) rs).

Definition migrate_replace (table : TableId) (pk : list Z) (values : row) : TxM unit :=
  sm_lift (schema_of table) ≫= fun _ =>
  base_table table ≫= fun base =>
  sm_lift (contains_pk w base pk) ≫= fun found =>
  guard found MissingRow ≫= fun _ =>
  get_ops table ≫= fun ops => set_ops table (<[pk := Update values]> ops).

Definition take_trigger_events : TxM (list TriggerEvent) := fun tx =>
  let st := tx_state tx in
  (Ok (trigger_events st), with_state tx {| tx_id := tx_id st; tables := tables st; trigger_events := [] |}).

(** ** Deletes *)

Definition delete_one (table : TableId) (pk_values : row) : TxM (option row) :=
  sm_lift (schema_of table) ≫= fun info =>
  global_guard info ≫= fun _ =>
  sm_lift (map_err RowError (encode_pk_values (ti_schema info) pk_values)) ≫= fun pk =>
  base_table table ≫= fun base =>
  sm_lift (row_at w base pk) ≫= fun committed =>
  get_ops table ≫= fun ops =>
  match ops !! pk with
  | Some (Insert r) => set_ops table (delete pk ops) ≫= fun _ => mret (Some r)
  | Some (Update r) => set_ops table (<[pk := Delete]> ops) ≫= fun _ => mret (Some r)
  | Some Delete => set_ops table ops ≫= fun _ => mret None
  | None =>
      set_ops table (match committed with Some _ => <[pk := Delete]> ops | None => ops end) ≫= fun _ => mret committed
  end ≫= fun old =>
  match old with
  | Some r =>
      if has_triggers env table then
        push_event {| te_table := table; te_kind := TriggerDelete; te_old := Some r; te_new := None |} ≫= fun _ => mret old
      else mret old
  | None => mret old
  end.

(** The values of a row at ordinals that are in range. *)
Fixpoint values_at (ordinals : list nat) (r : row) : result StoreError row :=
  match ordinals with
  | [] => Ok []
  | o :: ordinals =>
      from_option (OrdinalPanic o) (r !! o) ≫= fun v => values_at ordinals r ≫= fun vs => Ok (v :: vs)
  end.

Definition null_child (fk : ResolvedFk) (child : row) : TxM unit :=
  match transforms env with
  | Some engine =>
      if touches engine (fk_child fk) then
        sm_lift (map_err RowError (encode_pk_of_row (ti_schema (fk_child_schema fk)) child)) ≫= fun cpk =>
        sm_lift (map_err ReducerError (on_read_row engine (fk_child fk) child cpk true))
      else mret child
  | None => mret child
  end ≫= fun vals =>
  guard (fk_child_ordinal fk <? length vals)%nat (OrdinalPanic (fk_child_ordinal fk)) ≫= fun _ =>
  write (fk_child fk) (<[fk_child_ordinal fk := RowValue.Optional None]> vals) true ≫= fun _ => mret tt.

(** The worklist is the [Vec] [deleted], its last element first. *)
Fixpoint act_on_children (fk : ResolvedFk) (children : list row) (deleted : list (TableId * row)) : TxM (list (TableId * row)) :=
  match children with
  | [] => mret deleted
  | child :: children =>
      match fk_on_delete fk with
      | Restrict => sm_fail (FkRestricted (fk_child_ordinal fk))
      | Cascade =>
          sm_lift (values_at (primary_key (ti_schema (fk_child_schema fk))) child) ≫= fun pk_vals =>
          delete_one (fk_child fk) pk_vals ≫= fun old =>
          act_on_children fk children (match old with Some r => (fk_child fk, r) :: deleted | None => deleted end)
      | SetNull => null_child fk child ≫= fun _ => act_on_children fk children deleted
      end
  end.

Definition apply_ref_action (fk : ResolvedFk) (parent_value : RowValue.t) (deleted : list (TableId * row)) : TxM (list (TableId * row)) :=
  scan_all (fk_child fk) ≫= fun rs =>
  act_on_children fk (filter (fun r => fk_value_matches (r !! fk_child_ordinal fk) parent_value = true) rs) deleted.

Fixpoint apply_ref_actions (fks : list ResolvedFk) (old : row) (deleted : list (TableId * row)) : TxM (list (TableId * row)) :=
  match fks with
  | [] => mret deleted
  | fk :: fks =>
      match primary_key (ti_schema (fk_parent_schema fk)) with
      | [pk_ord] =>
          sm_lift (from_option (OrdinalPanic pk_ord) (old !! pk_ord)) ≫= fun parent_value =>
          apply_ref_action fk parent_value deleted ≫= fun deleted => apply_ref_actions fks old deleted
      | _ => apply_ref_actions fks old deleted
      end
  end.

(** [fuel] bounds the rows taken off the worklist. *)
Fixpoint delete_loop (fuel : nat) (deleted : list (TableId * row)) : TxM unit :=
  match deleted with
  | [] => mret tt
  | (parent, old) :: deleted =>
      match fuel with
      | O => sm_fail OutOfFuel
      | S fuel =>
          match fks_in env !! parent with
          | None => delete_loop fuel deleted
          | Some fks => apply_ref_actions fks old deleted ≫= fun deleted => delete_loop fuel deleted
          end
      end
  end.

Definition delete_row (fuel : nat) (table : TableId) (pk_values : row) : TxM bool :=
  delete_one table pk_values ≫= fun old =>
  match old with
  | None => mret false
  | Some old => delete_loop fuel [(table, old)] ≫= fun _ => mret true
  end.

(** Rows whose leading partition-key columns equal [key]. *)
Definition key_matches (ordinals : list nat) (key : row) (r : row) : bool :=
  forallb (fun '(o, want) => match r !! o with Some v => value_eq v want | None => false end) (zip ordinals key).

Fixpoint delete_victims (fuel : nat) (table : TableId) (victims : list row) (deleted : Z) : TxM Z :=
  match victims with
  | [] => mret deleted
  | pk :: victims =>
      delete_row fuel table pk ≫= fun ok : bool => delete_victims fuel table victims (if ok then deleted + 1 else deleted)
  end.

Fixpoint handoff_delete_each (fuel : nat) (l : list (TableId * list nat)) (key : row) (deleted : Z) : TxM Z :=
  match l with
  | [] => mret deleted
  | (table, ordinals) :: l =>
      sm_lift (schema_of table) ≫= fun info =>
      scan table ≫= fun rs =>
      sm_lift (collect (values_at (primary_key (ti_schema info))) (filter (fun r => key_matches ordinals key r = true) rs)) ≫= fun victims =>
      delete_victims fuel table victims deleted ≫= fun deleted => handoff_delete_each fuel l key deleted
  end.

Definition handoff_delete (fuel : nat) (l : list (TableId * list nat)) (key : row) : TxM Z := handoff_delete_each fuel l key 0.
End tx.

(** * Commit *)

(** The store's mutable state. [arcs] counts the holders of each version:
    the current state, the temporal window, transactions and snapshots. *)
Record MemStore (W T X B : Type) : Type := {
  ms_env : StoreEnv;
  ms_world : W;
  ms_reclaimer : Inner;
  ms_arcs : gmap Z Z;
  ms_committed : CommittedState T X;
  ms_writer : WriterState;
  ms_history : list (Z * Z * CommittedState T X);
  ms_blobs : option B;
  ms_budget_evictions : Z;
}.
Arguments ms_env {W T X B} _.
Arguments ms_world {W T X B} _.
Arguments ms_reclaimer {W T X B} _.
Arguments ms_arcs {W T X B} _.
Arguments ms_committed {W T X B} _.
Arguments ms_writer {W T X B} _.
Arguments ms_history {W T X B} _.
Arguments ms_blobs {W T X B} _.
Arguments ms_budget_evictions {W T X B} _.
Arguments Build_MemStore {W T X B} _ _ _ _ _ _ _ _ _.

Section merge.
Context {W T X : Type} `{KvTree W T} `{RowCodec} `{SideIndex W X}.
Notation St := (W * list Page)%type.
Notation MM := (SM St StoreError).

Definition side_insert_all (ts : TableState T X) (r : row) (pk : list Z) : MM (TableState T X) :=
  match spatial ts with
  | Some s => si_insert s r pk ≫= fun s => mret (with_spatial ts (Some s))
  | None => mret ts
  end ≫= fun ts =>
  map_mut (fun x => si_insert x r pk) (fulltext ts) ≫= fun l => mret (with_fulltext ts l).

Definition side_remove_all (ts : TableState T X) (r : row) (pk : list Z) : MM (TableState T X) :=
  match spatial ts with
  | Some s => si_remove s r pk ≫= fun s => mret (with_spatial ts (Some s))
  | None => mret ts
  end ≫= fun ts =>
  map_mut (fun x => si_remove x r pk) (fulltext ts) ≫= fun l => mret (with_fulltext ts l).

Definition side_replace_all (ts : TableState T X) (old new : row) (pk : list Z) : MM (TableState T X) :=
  match spatial ts with
  | Some s => si_remove s old pk ≫= fun s => si_insert s new pk ≫= fun s => mret (with_spatial ts (Some s))
  | None => mret ts
  end ≫= fun ts =>
  map_mut (fun x => si_remove x old pk ≫= fun x => si_insert x new pk) (fulltext ts) ≫= fun l => mret (with_fulltext ts l).

Definition map_indexes (f : BTreeIndex T -> MM (BTreeIndex T)) (ts : TableState T X) : MM (TableState T X) :=
  map_mut (fun i => f i.2 ≫= fun x => mret (i.1, x)) (indexes ts) ≫= fun l => mret (with_indexes ts l).

Definition map_unique (f : UniqueIndex T -> MM (UniqueIndex T)) (ts : TableState T X) : MM (TableState T X) :=
  map_mut f (unique ts) ≫= fun l => mret (with_unique ts l).

(** First pass: every value a deleted or replaced row holds is released. *)
Definition release_op (ts : TableState T X) (p : list Z * PendingOp) : MM (TableState T X) :=
  match p.2 with
  | Delete | Update _ => fun s =>
      (sm_lift (row_at s.1 ts p.1 ≫= from_option MissingRow) ≫= fun old =>
       map_unique (fun c => unique_remove c old p.1) ts) s
  | Insert _ => mret ts
  end.

(** Second pass: rows and indexes; the diff collects what was written. *)
Definition merge_op (acc : TableState T X * TableDiff) (p : list Z * PendingOp) : MM (TableState T X * TableDiff) :=
  let '(ts, diff) := acc in
  let '(pk, op) := p in
  match op with
  | Insert r =>
      map_indexes (fun i => index_insert i r pk) ts ≫= fun ts =>
      side_insert_all ts r pk ≫= fun ts =>
      map_unique (fun c => unique_insert c r pk) ts ≫= fun ts =>
      put_row ts pk r ≫= fun '(_, ts) =>
      mret (ts, {| td_table_id := td_table_id diff; td_inserts := td_inserts diff ++ [r]; td_deletes := td_deletes diff |})
  | Delete =>
      take_row ts pk ≫= fun '(prev, ts) =>
      sm_lift (from_option MissingRow prev) ≫= fun old =>
      map_indexes (fun i => index_remove i old pk) ts ≫= fun ts =>
      side_remove_all ts old pk ≫= fun ts =>
      mret (ts, {| td_table_id := td_table_id diff; td_inserts := td_inserts diff; td_deletes := td_deletes diff ++ [(pk, old)] |})
  | Update r =>
      put_row ts pk r ≫= fun '(prev, ts) =>
      sm_lift (from_option MissingRow prev) ≫= fun old =>
      map_indexes (fun i => index_remove i old pk ≫= fun i => index_insert i r pk) ts ≫= fun ts =>
      side_replace_all ts old r pk ≫= fun ts =>
      map_unique (fun c => unique_insert c r pk) ts ≫= fun ts =>
      mret (ts, {| td_table_id := td_table_id diff; td_inserts := td_inserts diff ++ [r]; td_deletes := td_deletes diff ++ [(pk, old)] |})
  end.

Definition merge_table (table : TableId) (ts : TableState T X) (ops : gmap (list Z) PendingOp) : MM (TableState T X * TableDiff) :=
  fold_each release_op ts (btree_entries ops) ≫= fun ts =>
  fold_each merge_op (ts, {| td_table_id := table; td_inserts := []; td_deletes := [] |}) (btree_entries ops).

(** The tables a transaction touched, in id order. *)
Definition merge_tables (acc : gmap TableId (TableState T X) * list TableDiff) (p : TableId * gmap (list Z) PendingOp)
    : MM (gmap TableId (TableState T X) * list TableDiff) :=
  let '(tabs, diffs) := acc in
  if bool_decide (p.2 = ∅) then mret acc
  else
    sm_lift (from_option (TouchedTableMissing p.1) (tabs !! p.1)) ≫= fun ts =>
    merge_table p.1 ts p.2 ≫= fun '(ts, diff) => mret (<[p.1 := ts]> tabs, diffs ++ [diff]).

(** Auto-increment marks that advanced. *)
Fixpoint publish_marks (cs : gmap TableId AutoIncCounter) (dirty : list TableId) (tabs : gmap TableId (TableState T X))
    : result StoreError (gmap TableId (TableState T X) * list (TableId * Z)) :=
  match dirty with
  | [] => Ok (tabs, [])
  | id :: dirty =>
      let hw := match cs !! id with Some c => high_water c | None => 0 end in
      from_option (AutoIncTableMissing id) (tabs !! id) ≫= fun ts =>
      publish_marks cs dirty (<[id := with_high_water ts hw]> tabs) ≫= fun '(tabs, out) => Ok (tabs, (id, hw) :: out)
  end.
End merge.

Section store.
Context {W T X B : Type} `{KvTree W T} `{RowCodec} `{SideIndex W X} `{BlobStore B}.
Notation Store := (MemStore W T X B).
Notation StoreM := (SM Store StoreError).

(** ** Holders of a version *)

Definition set_reclaim (ms : Store) (i : Inner) (w : W) (arcs : gmap Z Z) : Store :=
  Build_MemStore (ms_env ms) w i arcs (ms_committed ms) (ms_writer ms) (ms_history ms) (ms_blobs ms) (ms_budget_evictions ms).
Definition set_writer (ms : Store) (wr : WriterState) : Store :=
  Build_MemStore (ms_env ms) (ms_world ms) (ms_reclaimer ms) (ms_arcs ms) (ms_committed ms) wr (ms_history ms) (ms_blobs ms) (ms_budget_evictions ms).
Definition set_world (ms : Store) (w : W) : Store :=
  Build_MemStore (ms_env ms) w (ms_reclaimer ms) (ms_arcs ms) (ms_committed ms) (ms_writer ms) (ms_history ms) (ms_blobs ms) (ms_budget_evictions ms).
Definition set_committed (ms : Store) (cs : CommittedState T X) : Store :=
  Build_MemStore (ms_env ms) (ms_world ms) (ms_reclaimer ms) (ms_arcs ms) cs (ms_writer ms) (ms_history ms) (ms_blobs ms) (ms_budget_evictions ms).
Definition set_history (ms : Store) (h : list (Z * Z * CommittedState T X)) (evicted : Z) : Store :=
  Build_MemStore (ms_env ms) (ms_world ms) (ms_reclaimer ms) (ms_arcs ms) (ms_committed ms) (ms_writer ms) h (ms_blobs ms) (ms_budget_evictions ms + evicted).
Definition set_blobs (ms : Store) (b : option B) : Store :=
  Build_MemStore (ms_env ms) (ms_world ms) (ms_reclaimer ms) (ms_arcs ms) (ms_committed ms) (ms_writer ms) (ms_history ms) b (ms_budget_evictions ms).

(** [Arc::clone] of a published state. *)
Definition arc_clone (version : Z) (ms : Store) : Store :=
  set_reclaim ms (ms_reclaimer ms) (ms_world ms) (<[version := default 0 (ms_arcs ms !! version) + 1]> (ms_arcs ms)).

(** Drop of an [Arc]: the last one drops the state's [VersionGuard], which
    unpins the version and swallows an error of the collection. *)
Definition arc_drop (version : Z) (ms : Store) : Store :=
  let n := default 0 (ms_arcs ms !! version) - 1 in
  if n =? 0 then
    let '(_, (i, w)) := unpin version (ms_reclaimer ms, ms_world ms) in
    set_reclaim ms i w (delete version (ms_arcs ms))
  else set_reclaim ms (ms_reclaimer ms) (ms_world ms) (<[version := n]> (ms_arcs ms)).

(** ** Publishing *)

(** Assign the next version, pin it and swap it in. Two holders remain, the
    slot and the caller; the slot lets go of the previous state. *)
Definition publish_versioned (tabs : gmap TableId (TableState T X)) (ms : Store) : CommittedState T X * Store :=
  let wr := ms_writer ms in
  let version := next_version wr in
  let cs := Build_CommittedState tabs version in
  let old := cs_version (ms_committed ms) in
  let ms := set_writer ms {| next_tx_id := next_tx_id wr; next_version := sat_add 64 version 1;
                             counters := counters wr; high_water_dirty := high_water_dirty wr |} in
  let ms := set_reclaim ms (pin version (ms_reclaimer ms)) (ms_world ms) (<[version := 2]> (ms_arcs ms)) in
  (cs, arc_drop old (set_committed ms cs)).

(** When the superseded pages cannot be retired, the caller's hold on the new
    state is dropped with the error. *)
Definition publish (tabs : gmap TableId (TableState T X)) (superseded : list Page) : StoreM (CommittedState T X) := fun ms =>
  let '(cs, ms) := publish_versioned tabs ms in
  let '(r, (i, w)) := retire (cs_version cs) superseded (ms_reclaimer ms, ms_world ms) in
  let ms := set_reclaim ms i w (ms_arcs ms) in
  match r with
  | Ok _ => (Ok cs, ms)
  | Err e => (Err (TreeFailed e), arc_drop (cs_version cs) ms)
  end.

Definition retained_window_bytes (ms : Store) : Z :=
  Z.min (rp_pages (pending (ms_reclaimer ms)) * pool_page_size (options (ms_env ms))) (u_max 64).

(** Drop the oldest states while the window is too long. *)
Fixpoint trim_count (n : nat) (h : list (Z * Z * CommittedState T X)) : list (Z * Z * CommittedState T X) * list (CommittedState T X) :=
  match h with
  | [] => ([], [])
  | e :: h' =>
      if (n <? length h)%nat then let '(h'', dropped) := trim_count n h' in (h'', e.2 :: dropped) else (h, [])
  end.

(** The byte ceiling is read while the dropped states are still alive. *)
Definition trim_bytes (ms : Store) (h : list (Z * Z * CommittedState T X)) : list (Z * Z * CommittedState T X) * list (CommittedState T X) :=
  if temporal_window_max_bytes (options (ms_env ms)) <? retained_window_bytes ms then ([], map snd h) else (h, []).

Definition retain_in_temporal_window (tx_id at_micros : Z) (published : CommittedState T X) (ms : Store) : Store :=
  if (temporal_window (options (ms_env ms)) =? 0)%nat then arc_drop (cs_version published) ms
  else
    let h := ms_history ms ++ [(tx_id, at_micros, published)] in
    let '(h, dropped) := trim_count (temporal_window (options (ms_env ms))) h in
    let '(h, dropped') := trim_bytes ms h in
    let ms := set_history ms h (Z.of_nat (length dropped')) in
    fold_left (fun ms cs => arc_drop (cs_version cs) ms) (dropped ++ dropped') ms.

(** ** Blob references *)

Definition blob_of (v : option RowValue.t) : option (list Z) := match v with Some (RowValue.Blob h) => Some h | _ => None end.

Definition row_blobs (ordinals : list nat) (r : row) : list (list Z) := omap (fun o => blob_of (r !! o)) ordinals.

Definition apply_diff_blobs (env : StoreEnv) (b : B) (d : TableDiff) : B :=
  match catalog env !! td_table_id d with
  | None => b
  | Some info =>
      let ordinals := blob_ordinals info in
      let b := fold_left blob_incref (flat_map (row_blobs ordinals) (td_inserts d)) b in
      fold_left blob_unref (flat_map (fun p => row_blobs ordinals p.2) (td_deletes d)) b
  end.

Definition apply_blob_refcounts (env : StoreEnv) (b : B) (diffs : list TableDiff) : B :=
  fold_left (apply_diff_blobs env) diffs b.

(** ** Transactions *)

Definition begin (ms : Store) : Tx T X * Store :=
  (Build_Tx (ms_committed ms) (TxState_new (next_tx_id (ms_writer ms))) (ms_writer ms),
   arc_clone (cs_version (ms_committed ms)) ms).

(** The writer lock is released with the counters as the transaction left
    them, and the handle lets go of its base state. *)
Definition rollback (tx : Tx T X) (ms : Store) : Store :=
  arc_drop (cs_version (tx_base tx)) (set_writer ms (tx_writer tx)).

(** [now] is the commit timestamp. *)
Definition commit (tx : Tx T X) (now : Z) : StoreM TxDiff := fun ms =>
  let wr := tx_writer tx in
  let '(r, (w, superseded)) :=
    fold_each merge_tables (cs_tables (tx_base tx), []) (btree_entries (tables (tx_state tx))) (ms_world ms, []) in
  let ms := set_writer (set_world ms w) wr in
  match r with
  | Err e => (Err e, arc_drop (cs_version (tx_base tx)) ms)
  | Ok (tabs, diffs) =>
      let wr := {| next_tx_id := next_tx_id wr; next_version := next_version wr; counters := counters wr; high_water_dirty := ∅ |} in
      match publish_marks (counters wr) (merge_sort Z.le (elements (high_water_dirty (tx_writer tx)))) tabs with
      | Err e => (Err e, arc_drop (cs_version (tx_base tx)) (set_writer ms wr))
      | Ok (tabs, auto_inc) =>
          let id := tx_id (tx_state tx) in
          let wr := {| next_tx_id := sat_add 64 id 1; next_version := next_version wr; counters := counters wr; high_water_dirty := ∅ |} in
          match publish tabs superseded (set_writer ms wr) with
          | (Err e, ms) => (Err e, arc_drop (cs_version (tx_base tx)) ms)
          | (Ok published, ms) =>
              let ms := retain_in_temporal_window id now published ms in
              let ms := match ms_blobs ms with
                        | Some b => set_blobs ms (Some (apply_blob_refcounts (ms_env ms) b diffs))
                        | None => ms
                        end in
              (Ok {| diff_tx_id := id; diff_tables := diffs; diff_auto_inc := auto_inc |},
               arc_drop (cs_version (tx_base tx)) ms)
          end
      end
  end.

(** ** Reading earlier states *)

Inductive AsOfPoint : Type := AsOfTx (tx : Z) | AsOfTimestamp (us : Z).

Definition at_or_after (point : AsOfPoint) (e : Z * Z * CommittedState T X) : bool :=
  match point with AsOfTx tx => e.1.1 <=? tx | AsOfTimestamp us => e.1.2 <=? us end.

Definition snapshot (ms : Store) : CommittedState T X := ms_committed ms.

Definition snapshot_as_of (ms : Store) (point : AsOfPoint) : result StoreError (CommittedState T X) :=
  match head (ms_history ms), last (ms_history ms) with
  | Some oldest, Some newest =>
      if at_or_after point newest then Ok (snapshot ms)
      else if negb (at_or_after point oldest) then Err AsOfOutOfWindow
      else match find (at_or_after point) (reverse (ms_history ms)) with
           | Some e => Ok e.2
           | None => Err AsOfOutOfWindow
           end
  | _, _ => Err AsOfOutOfWindow
  end.
End store.
