(* ===== verification/MergeSpec.v ===== *)
(** The commit merge of one table refines the overlay of its pending writes.

    [parts_is] follows rows, index entries and unique keys separately, since the
    merge moves them at different times; [table_is] is the published case in
    which they agree. [view] is the overlay a transaction sees: committed rows
    under its pending operations. *)

From stdpp Require Import base list gmap sorting.
From Stdlib Require Import ZArith Lia.
From S2P Require Import Prelude FluxBin Row IndexKey TxState LogRecord PageFormat PagedTree PagedTreeNode PagedTreeRep PagedTreeSpec KvTree TableState TableSpec Reclaim MemStore.

Notation pending_ops := (gmap (list Z) PendingOp).

(** * The overlay *)

Definition apply_op (R : content) (p : list Z * PendingOp) : content :=
  match p.2 with Insert r | Update r => <[p.1 := r]> R | Delete => delete p.1 R end.

Definition view (R : content) (ops : pending_ops) : content :=
  merge (fun r op => visible op r) R ops.

Lemma view_lookup R ops pk : view R ops !! pk = visible (ops !! pk) (R !! pk).
Proof. unfold view. rewrite lookup_merge. unfold diag_None. by destruct (R !! pk), (ops !! pk). Qed.

Lemma view_empty R : view R ∅ = R.
Proof. apply map_eq. intros pk. by rewrite view_lookup, lookup_empty. Qed.

Lemma view_insert_write R ops pk op r : written op = Some r -> view R (<[pk := op]> ops) = <[pk := r]> (view R ops).
Proof.
  intros E. apply map_eq. intros k. rewrite view_lookup. destruct (decide (k = pk)) as [->|].
  - rewrite !lookup_insert_eq. by destruct op; simpl in *; simplify_eq.
  - by rewrite !lookup_insert_ne, view_lookup.
Qed.

Lemma view_insert_delete R ops pk : view R (<[pk := Delete]> ops) = delete pk (view R ops).
Proof.
  apply map_eq. intros k. rewrite view_lookup. destruct (decide (k = pk)) as [->|].
  - by rewrite lookup_insert_eq, lookup_delete_eq.
  - by rewrite lookup_insert_ne, lookup_delete_ne, view_lookup.
Qed.

Lemma view_cancel_some R ops pk r : R !! pk = Some r -> view R (delete pk ops) = <[pk := r]> (view R ops).
Proof.
  intros E. apply map_eq. intros k. rewrite view_lookup. destruct (decide (k = pk)) as [->|].
  - by rewrite lookup_delete_eq, lookup_insert_eq, E.
  - by rewrite lookup_delete_ne, lookup_insert_ne, view_lookup.
Qed.

Lemma view_cancel_none R ops pk : R !! pk = None -> view R (delete pk ops) = delete pk (view R ops).
Proof.
  intros E. apply map_eq. intros k. rewrite view_lookup. destruct (decide (k = pk)) as [->|].
  - by rewrite !lookup_delete_eq, E.
  - by rewrite !lookup_delete_ne, view_lookup.
Qed.

Lemma fold_apply_notin l : forall R pk, pk ∉ l.*1 -> fold_left apply_op l R !! pk = R !! pk.
Proof.
  induction l as [|[k op] l IH]; intros R pk Hn; simpl; [done|].
  rewrite fmap_cons, not_elem_of_cons in Hn. destruct Hn as [Hne Hn]. rewrite IH by done. simpl in Hne.
  destruct op; unfold apply_op; simpl; first [by apply lookup_insert_ne|by apply lookup_delete_ne].
Qed.

Lemma fold_apply_in l : forall R pk op, NoDup l.*1 -> (pk, op) ∈ l -> fold_left apply_op l R !! pk = written op.
Proof.
  induction l as [|[k op'] l IH]; intros R pk op Hnd Hin; [by apply elem_of_nil in Hin|]. simpl.
  rewrite fmap_cons in Hnd. apply NoDup_cons in Hnd as [Hn Hnd].
  apply elem_of_cons in Hin as [[= -> ->]|Hin]; [|by apply IH]. rewrite fold_apply_notin by done.
  destruct op'; unfold apply_op; simpl; first [apply lookup_insert_eq|apply lookup_delete_eq].
Qed.

Lemma fold_apply_view (R : content) (ops : pending_ops) : fold_left apply_op (btree_entries ops) R = view R ops.
Proof.
  apply map_eq. intros pk. rewrite view_lookup. destruct (ops !! pk) as [op|] eqn:E.
  - rewrite (fold_apply_in _ _ _ op); [by destruct op|apply btree_keys_NoDup|by apply elem_of_btree_entries].
  - apply fold_apply_notin. intros Hk. apply (elem_of_btree_keys ops) in Hk. rewrite E in Hk. by destruct Hk.
Qed.

(** * Tables *)

Record Shape : Type := { sh_cols : list FluxType.t; sh_idx : list (list nat); sh_uniq : list (list nat) }.

Definition shape {T X} (ts : TableState T X) : Shape := {|
  sh_cols := columns (ti_schema (schema ts));
  sh_idx := map (fun i => bi_columns i.2) (indexes ts);
  sh_uniq := map ui_columns (unique ts) |}.

(** Distinct rows have distinct values of every unique constraint. *)
Definition uniq_ok (ucs : list (list nat)) (V : content) : Prop := forall cols pk pk' r r' k, cols ∈ ucs ->
  V !! pk = Some r -> V !! pk' = Some r' -> key_of cols r = Ok k -> key_of cols r' = Ok k -> pk = pk'.

(** Only the trees and the row count differ. *)
Definition same_table {T X} (ts ts' : TableState T X) : Prop :=
  schema ts' = schema ts /\ shape ts' = shape ts /\ map fst (indexes ts') = map fst (indexes ts) /\
  auto_inc_high_water ts' = auto_inc_high_water ts.

#[global] Instance same_table_preorder T X : PreOrder (@same_table T X).
Proof. split; [by intros ts|]. intros a b c (A1 & A2 & A3 & A4) (B1 & B2 & B3 & B4). split_and!; by etrans. Qed.

(** Spatial and full-text indexes never give page ids back. *)
Class SideIndexLaws (W T X : Type) {KT : KvTree W T} {KL : KvTreeLaws W T} {SI : SideIndex W X} := {
  si_insert_room (x : X) r pk : keeps_room (si_insert x r pk);
  si_remove_room (x : X) r pk : keeps_room (si_remove x r pk);
}.

Section tables.
Context {W T X : Type} {KT : KvTree W T} {KL : KvTreeLaws W T} {RC : RowCodec} {RL : RowCodecLaws}.
Context {SI : SideIndex W X} {SL : SideIndexLaws W T X}.
Notation St := (W * list Page)%type.

Definition row_ok (sh : Shape) (pk : list Z) (r : row) : Prop :=
  key_fits pk /\ row_fits r /\ Forall (fun cols => idx_fits (sh_cols sh) cols pk r) (sh_idx sh) /\
  Forall (fun cols => uniq_fits cols r) (sh_uniq sh).

Definition parts_is (w : W) (ts : TableState T X) (R I U : content) (f : list Page) : Prop := exists fr fi fu,
  f ≡ₚ fr ++ concat fi ++ concat fu /\ rows_is w (rows ts) (row_count ts) R fr /\
  Forall2 (fun i => index_is I w i.2) (indexes ts) fi /\ Forall2 (uniq_is U w) (unique ts) fu /\
  spatial ts = None /\ fulltext ts = [].

Definition table_is (w : W) (ts : TableState T X) (R : content) (f : list Page) : Prop :=
  parts_is w ts R R R f /\ map_Forall (row_ok (shape ts)) R.

Lemma parts_le w w' ts R I U f : kt_le w w' -> parts_is w ts R I U f -> parts_is w' ts R I U f.
Proof using Type.
  intros L (fr & fi & fu & Hf & HR & HI & HU & Hs). exists fr, fi, fu. split; [done|].
  split; [by eapply rows_is_le|]. split; [|split; [|done]].
  - eapply Forall2_impl; [exact HI|]. intros i g. by apply index_is_le.
  - eapply Forall2_impl; [exact HU|]. intros c g. by apply uniq_is_le.
Qed.

Lemma table_is_le w w' ts R f : kt_le w w' -> table_is w ts R f -> table_is w' ts R f.
Proof using Type. intros L [Hp HR]. split; [by eapply parts_le|done]. Qed.

Lemma parts_rows w ts R I U f : parts_is w ts R I U f -> exists fr, rows_is w (rows ts) (row_count ts) R fr.
Proof using Type. intros (fr & fi & fu & _ & HR & _). by exists fr. Qed.

Lemma idx_of_shape (sh : Shape) (R : content) (cols : list nat) : map_Forall (row_ok sh) R -> cols ∈ sh_idx sh -> map_Forall (idx_fits (sh_cols sh) cols) R.
Proof using Type. intros HR Hc pk r Hr. destruct (HR _ _ Hr) as (_ & _ & HI & _). rewrite Forall_forall in HI. by apply HI. Qed.

Lemma pk_short (sh : Shape) (pk : list Z) (r : row) : row_ok sh pk r -> blen pk < 2 ^ 64.
Proof using Type. intros ([_ Hk] & _). lia. Qed.

(** ** Rows *)

Lemma put_row_parts w ts R I U f pk r : parts_is w ts R I U f -> key_fits pk -> row_fits r ->
  upd (put_row ts pk r) w f (fun p w' f' => p.1 = R !! pk /\ same_table ts p.2 /\ parts_is w' p.2 (<[pk := r]> R) I U f').
Proof using RL.
  intros (fr & fi & fu & Hf & HR & HI & HU & Hs) Hpk Hr. eapply upd_perm; [symmetry; exact Hf|].
  eapply upd_weaken; [|by eapply upd_frame, put_row_spec].
  intros [prev ts'] w' ? L (fr' & -> & Hp & Et & HR'). simpl in *. rewrite Et. split; [done|]. split; [done|].
  exists fr', fi, fu. split; [done|]. split; [done|]. split; [|split; [|done]].
  - eapply Forall2_impl; [exact HI|]. intros i g. by apply index_is_le.
  - eapply Forall2_impl; [exact HU|]. intros c g. by apply uniq_is_le.
Qed.

Lemma take_row_parts w ts R I U f pk : parts_is w ts R I U f ->
  upd (take_row ts pk) w f (fun p w' f' => p.1 = R !! pk /\ same_table ts p.2 /\ parts_is w' p.2 (delete pk R) I U f').
Proof using RL.
  intros (fr & fi & fu & Hf & HR & HI & HU & Hs). eapply upd_perm; [symmetry; exact Hf|].
  eapply upd_weaken; [|by eapply upd_frame, take_row_spec].
  intros [prev ts'] w' ? L (fr' & -> & Hp & Et & HR'). simpl in *. rewrite Et. split; [done|]. split; [done|].
  exists fr', fi, fu. split; [done|]. split; [done|]. split; [|split; [|done]].
  - eapply Forall2_impl; [exact HI|]. intros i g. by apply index_is_le.
  - eapply Forall2_impl; [exact HU|]. intros c g. by apply uniq_is_le.
Qed.

(** ** Indexes *)

Lemma map_indexes_parts w ts R I I' U f (g : BTreeIndex T -> SM St StoreError (BTreeIndex T)) :
  parts_is w ts R I U f -> (forall i, keeps_room (g i)) ->
  (forall w i f, bi_columns i ∈ sh_idx (shape ts) -> index_is I w i f ->
     upd (g i) w f (fun i' w' f' => bi_columns i' = bi_columns i /\ index_is I' w' i' f')) ->
  upd (map_indexes g ts) w f (fun ts' w' f' => same_table ts ts' /\ parts_is w' ts' R I' U f').
Proof using Type.
  intros (fr & fi & fu & Hf & HR & HI & HU & Hs) Hroom Hg. eapply upd_perm; [etrans; [apply Permutation_app_swap_app|symmetry; exact Hf]|].
  eapply upd_bind.
  - eapply upd_frame, (upd_map_mut _ (fun w i f => bi_columns i.2 ∈ sh_idx (shape ts) /\ index_is I w i.2 f)
      (fun w i f => index_is I' w i.2 f) (fun i i' => i'.1 = i.1 /\ bi_columns i'.2 = bi_columns i.2)).
    + intros ???? L [? ?]. split; [done|]. by eapply index_is_le.
    + intros ???? L ?. by eapply index_is_le.
    + intros i. apply room_bind; [done|auto with room].
    + intros w1 i h [Hc Hi]. eapply upd_bind; [by apply Hg|auto with room|].
      intros i' w2 h' L [Ec Hi']. by apply upd_ret.
    + assert (Forall (fun i => bi_columns i.2 ∈ sh_idx (shape ts)) (indexes ts)) as Hc.
      { apply Forall_forall. intros i Hi. apply list_elem_of_fmap. by exists i. }
      clear -HI Hc. induction HI; constructor; inversion Hc; auto.
  - auto with room.
  - intros l w' ? L (? & -> & fi' & -> & Hsame & HI'). eapply upd_perm; [apply Permutation_app_swap_app|].
    apply upd_ret. split.
    + unfold same_table, shape, with_indexes. simpl.
      assert (map fst l = map fst (indexes ts) /\ map (fun i => bi_columns i.2) l = map (fun i => bi_columns i.2) (indexes ts))
        as [E1 E2].
      { clear -Hsame. induction Hsame as [|i i' l1 l2 [E1 E2] _ [IH1 IH2]]; [done|]. simpl.
        by rewrite E1, E2, IH1, IH2. }
      by rewrite E1, E2.
    + exists fr, fi', fu. split; [done|]. split; [by eapply rows_is_le|].
      split; [done|]. split; [|done]. eapply Forall2_impl; [exact HU|]. intros c h. by apply uniq_is_le.
Qed.

(** ** Unique constraints *)

Lemma map_unique_parts w ts R I U U' f (g : UniqueIndex T -> SM St StoreError (UniqueIndex T)) :
  parts_is w ts R I U f -> (forall c, keeps_room (g c)) ->
  (forall w c f, ui_columns c ∈ sh_uniq (shape ts) -> uniq_is U w c f ->
     upd (g c) w f (fun c' w' f' => ui_columns c' = ui_columns c /\ uniq_is U' w' c' f')) ->
  upd (map_unique g ts) w f (fun ts' w' f' => same_table ts ts' /\ parts_is w' ts' R I U' f').
Proof using Type.
  intros (fr & fi & fu & Hf & HR & HI & HU & Hs) Hroom Hg.
  eapply upd_perm; [etrans; [apply Permutation_app_comm|rewrite <- app_assoc; symmetry; exact Hf]|].
  eapply upd_bind.
  - eapply upd_frame, (upd_map_mut _ (fun w c f => ui_columns c ∈ sh_uniq (shape ts) /\ uniq_is U w c f)
      (fun w c f => uniq_is U' w c f) (fun c c' => ui_columns c' = ui_columns c)).
    + intros ???? L [? ?]. split; [done|]. by eapply uniq_is_le.
    + intros ???? L ?. by eapply uniq_is_le.
    + done.
    + intros w1 c h [Hc Hi]. by apply Hg.
    + assert (Forall (fun c => ui_columns c ∈ sh_uniq (shape ts)) (unique ts)) as Hc.
      { apply Forall_forall. intros c Hi. apply list_elem_of_fmap. by exists c. }
      clear -HU Hc. induction HU; constructor; inversion Hc; auto.
  - auto with room.
  - intros l w' ? L (? & -> & fu' & -> & Hsame & HU'). eapply upd_perm; [apply Permutation_app_comm|].
    apply upd_ret. split.
    + unfold same_table, shape, with_unique. simpl.
      assert (map ui_columns l = map ui_columns (unique ts)) as E.
      { clear -Hsame. induction Hsame as [|i i' l1 l2 E _ IH]; [done|]. simpl. by rewrite E, IH. }
      by rewrite E.
    + exists fr, fi, fu'. split; [by rewrite app_assoc|]. split; [by eapply rows_is_le|].
      split; [|done]. eapply Forall2_impl; [exact HI|]. intros c h. by apply index_is_le.
Qed.

Lemma room_index_insert (i : BTreeIndex T) r pk : keeps_room (W := W) (index_insert i r pk).
Proof using Type. unfold index_insert. auto 8 with room. Qed.
Lemma room_index_remove (i : BTreeIndex T) r pk : keeps_room (W := W) (index_remove i r pk).
Proof using Type.
  unfold index_remove. apply room_bind; [auto with room|]. intros k. apply room_bind; [auto with room|].
  intros [??]. auto with room.
Qed.
Lemma room_unique_insert (c : UniqueIndex T) r pk : keeps_room (W := W) (unique_insert c r pk).
Proof using Type.
  read_room @unique_insert. apply room_bind; [auto with room|]. intros k. apply room_bind; [auto with room|]. intros o.
  apply room_bind; [|auto 8 with room]. destruct o; [|auto with room]. destruct (bool_decide _); auto with room.
Qed.
Lemma room_unique_remove (c : UniqueIndex T) r pk : keeps_room (W := W) (unique_remove c r pk).
Proof using Type.
  read_room @unique_remove. apply room_bind; [auto with room|]. intros k. apply room_bind; [auto with room|]. intros o.
  destruct (bool_decide _); [|auto with room]. apply room_bind; [auto with room|]. intros [??]. auto with room.
Qed.

Lemma indexes_insert_parts w ts R I U f pk r : parts_is w ts R I U f -> I !! pk = None ->
  map_Forall (row_ok (shape ts)) I -> row_ok (shape ts) pk r ->
  upd (map_indexes (fun i => index_insert i r pk) ts) w f (fun ts' w' f' => same_table ts ts' /\ parts_is w' ts' R (<[pk := r]> I) U f').
Proof using Type.
  intros Hp Hnone HI Hr. eapply map_indexes_parts; [exact Hp|intros; apply room_index_insert|].
  intros w1 i f1 Hc Hi. eapply index_insert_spec; [done|done|by eapply idx_of_shape| |by eapply pk_short].
  destruct Hr as (_ & _ & HF & _). rewrite Forall_forall in HF. by apply HF.
Qed.

Lemma indexes_remove_parts w ts R I U f pk r : parts_is w ts R I U f -> I !! pk = Some r ->
  map_Forall (row_ok (shape ts)) I ->
  upd (map_indexes (fun i => index_remove i r pk) ts) w f (fun ts' w' f' => same_table ts ts' /\ parts_is w' ts' R (delete pk I) U f').
Proof using Type.
  intros Hp Hsome HI. eapply map_indexes_parts; [exact Hp|intros; apply room_index_remove|].
  intros w1 i f1 Hc Hi. eapply index_remove_spec; [done|done|by eapply idx_of_shape].
Qed.

Lemma indexes_replace_parts w ts R I U f pk old r : parts_is w ts R I U f -> I !! pk = Some old ->
  map_Forall (row_ok (shape ts)) I -> row_ok (shape ts) pk r ->
  upd (map_indexes (fun i => index_remove i old pk ≫= fun i => index_insert i r pk) ts) w f
    (fun ts' w' f' => same_table ts ts' /\ parts_is w' ts' R (<[pk := r]> I) U f').
Proof using Type.
  intros Hp Hsome HI Hr. eapply map_indexes_parts; [exact Hp| |].
  { intros i. apply room_bind; [apply room_index_remove|intros; apply room_index_insert]. }
  intros w1 i f1 Hc Hi. eapply upd_bind; [eapply index_remove_spec; [done|done|by eapply idx_of_shape]|intros; apply room_index_insert|].
  intros i' w2 f2 L [Ec Hi']. eapply upd_weaken; [|eapply (index_insert_spec (sh_cols (shape ts))); [exact Hi'| | | |by eapply pk_short]].
  - simpl. intros i'' w3 f3 _ [Ec' Hi'']. split; [by rewrite Ec'|]. by rewrite insert_delete_eq in Hi''.
  - apply lookup_delete_eq.
  - rewrite Ec. apply map_Forall_delete. by eapply idx_of_shape.
  - rewrite Ec. destruct Hr as (_ & _ & HF & _). rewrite Forall_forall in HF. by apply HF.
Qed.

Lemma unique_insert_parts w ts R I U V f pk r : parts_is w ts R I U f -> U !! pk = None -> row_ok (shape ts) pk r ->
  uniq_ok (sh_uniq (shape ts)) V -> U ⊆ V -> V !! pk = Some r ->
  upd (map_unique (fun c => unique_insert c r pk) ts) w f (fun ts' w' f' => same_table ts ts' /\ parts_is w' ts' R I (<[pk := r]> U) f').
Proof using Type.
  intros Hp Hnone Hr HV HUV Hpk. eapply map_unique_parts; [exact Hp|intros; apply room_unique_insert|].
  intros w1 c f1 Hc Hi. pose proof Hr as (_ & _ & _ & HF). rewrite Forall_forall in HF. pose proof (HF _ Hc) as Hfit.
  eapply unique_insert_spec; [done|done|done|by eapply pk_short|].
  intros v r' Hv E. destruct Hfit as (k & Ek & _).
  assert (v = pk) as ->; [|by rewrite Hnone in Hv]. eapply (HV _ v pk r' r k); try done; [by eapply lookup_weaken|congruence].
Qed.

Lemma unique_remove_parts w ts R I U f pk r : parts_is w ts R I U f -> U !! pk = Some r -> row_ok (shape ts) pk r ->
  upd (map_unique (fun c => unique_remove c r pk) ts) w f (fun ts' w' f' => same_table ts ts' /\ parts_is w' ts' R I (delete pk U) f').
Proof using Type.
  intros Hp Hsome Hr. eapply map_unique_parts; [exact Hp|intros; apply room_unique_remove|].
  intros w1 c f1 Hc Hi. pose proof Hr as (_ & _ & _ & HF). rewrite Forall_forall in HF. pose proof (HF _ Hc) as Hfit.
  eapply unique_remove_spec; done.
Qed.

(** Without spatial and full-text indexes their maintenance does nothing. *)
Lemma no_sides (ts : TableState T X) : spatial ts = None -> fulltext ts = [] ->
  (forall r pk s, side_insert_all (W := W) ts r pk s = (Ok ts, s)) /\ (forall r pk s, side_remove_all (W := W) ts r pk s = (Ok ts, s)) /\
  (forall old r pk s, side_replace_all (W := W) ts old r pk s = (Ok ts, s)).
Proof using Type.
  intros E1 E2. destruct ts as [a b c d e f g h]. simpl in *. subst. done.
Qed.

Lemma side_step {A} (m : SM St StoreError (TableState T X)) (ts : TableState T X) (k : TableState T X -> SM St StoreError A) w f Q :
  (forall s, m s = (Ok ts, s)) -> upd (k ts) w f Q -> upd (m ≫= k) w f Q.
Proof using Type. intros E. apply upd_at. intros sup. unfold mbind, sm_bind. by rewrite E. Qed.

Lemma parts_no_sides w ts R I U f : parts_is w ts R I U f -> spatial ts = None /\ fulltext ts = [].
Proof using Type. by intros (? & ? & ? & _ & _ & _ & _ & ?). Qed.

(** ** The two passes *)

(** What a pending operation assumes of the committed rows. *)
Definition op_ok (sh : Shape) (R : content) (p : list Z * PendingOp) : Prop :=
  match p.2 with
  | Insert r => R !! p.1 = None /\ row_ok sh p.1 r
  | Update r => is_Some (R !! p.1) /\ row_ok sh p.1 r
  | Delete => is_Some (R !! p.1)
  end.

Definition release (U : content) (p : list Z * PendingOp) : content :=
  match p.2 with Insert _ => U | Update _ | Delete => delete p.1 U end.

Lemma release_ops_spec w ts R f l : forall U, map_Forall (row_ok (shape ts)) R -> NoDup l.*1 -> Forall (op_ok (shape ts) R) l ->
  Forall (fun p => U !! p.1 = R !! p.1) l -> parts_is w ts R R U f ->
  upd (fold_each release_op ts l) w f (fun ts' w' f' => same_table ts ts' /\ parts_is w' ts' R R (fold_left release l U) f').
Proof using RL.
  revert w ts f. induction l as [|[pk op] l IH]; intros w ts f U HR Hnd Hl HU Hp; simpl.
  - apply upd_ret. by split.
  - inversion Hnd as [|?? Hn Hnd']; inversion Hl as [|?? Hop Hl']; inversion HU as [|?? EU HU']; subst. simpl in *.
    assert (forall U', U' = U \/ U' = delete pk U -> Forall (fun p => U' !! p.1 = R !! p.1) l) as HU2.
    { intros U' [->| ->]; [done|]. rewrite !Forall_forall in *. intros p Hin. rewrite lookup_delete_ne; [by apply HU'|].
      intros ->. apply Hn. apply list_elem_of_fmap. by exists p. }
    eapply upd_bind with (P := fun ts' w' f' => same_table ts ts' /\ parts_is w' ts' R R (release U (pk, op)) f').
    + destruct op as [r| |r]; [apply upd_ret; by split| |];
        (apply upd_ok; intros Hok; eapply upd_at; [intros sup; unfold release_op; cbn [fst snd]; reflexivity|];
         destruct (parts_rows _ _ _ _ _ _ Hp) as [fr HR']; unfold op_ok in Hop; cbn [fst snd] in Hop, EU).
      * destruct Hop as [old Eold]. eapply upd_lift; [rewrite (row_at_spec _ _ _ _ _ pk Hok HR'), Eold; reflexivity|].
        apply unique_remove_parts; [done|simpl; congruence|by apply HR].
      * destruct Hop as [[old Eold] _]. eapply upd_lift; [rewrite (row_at_spec _ _ _ _ _ pk Hok HR'), Eold; reflexivity|].
        apply unique_remove_parts; [done|simpl; congruence|by apply HR].
    + intros ts'. apply room_fold_each. intros ts0 [pk0 op0]. unfold release_op. simpl.
      destruct op0; [auto with room| |]; (apply room_at; intros s; eexists; split; [reflexivity|]; apply room_bind; [auto with room|];
        intros old; apply room_bind; [apply room_map_mut; intros; apply room_unique_remove|auto with room]).
    + intros ts' w' f' L [Hs Hp']. pose proof Hs as (_ & Hsh & _).
      eapply upd_weaken; [|apply (IH w' ts' f' (release U (pk, op)))]; try (rewrite ?Hsh; done).
      * intros ts'' w'' f'' _ [Hs' Hp'']. split; [by etrans|done].
      * destruct op; apply HU2; auto.
Qed.

(** Rows a batch of operations writes and removes, over [R]. *)
Definition removed (R : content) (p : list Z * PendingOp) : option (list Z * row) :=
  match p.2 with Insert _ => None | Update _ | Delete => pair p.1 <$> R !! p.1 end.

Definition add_diff (R : content) (d : TableDiff) (l : list (list Z * PendingOp)) : TableDiff := {|
  td_table_id := td_table_id d;
  td_inserts := td_inserts d ++ omap (fun p => written p.2) l;
  td_deletes := td_deletes d ++ omap (removed R) l |}.

Definition claim (U : content) (p : list Z * PendingOp) : content :=
  match written p.2 with Some r => <[p.1 := r]> U | None => U end.

Lemma room_map_indexes (g : BTreeIndex T -> SM St StoreError (BTreeIndex T)) (ts : TableState T X) :
  (forall i, keeps_room (g i)) -> keeps_room (map_indexes g ts).
Proof using Type.
  intros Hg. apply room_bind; [|auto with room]. apply room_map_mut. intros i. apply room_bind; [done|auto with room].
Qed.
Lemma room_map_unique (g : UniqueIndex T -> SM St StoreError (UniqueIndex T)) (ts : TableState T X) :
  (forall c, keeps_room (g c)) -> keeps_room (map_unique g ts).
Proof using Type. intros Hg. apply room_bind; [|auto with room]. by apply room_map_mut. Qed.
Lemma room_side_insert (ts : TableState T X) r pk : keeps_room (side_insert_all (W := W) ts r pk).
Proof using SL.
  apply room_bind; [destruct (spatial ts); [apply room_bind; [apply si_insert_room|]|]; auto with room|].
  intros ts'. apply room_bind; [apply room_map_mut; intros; apply si_insert_room|auto with room].
Qed.
Lemma room_side_remove (ts : TableState T X) r pk : keeps_room (side_remove_all (W := W) ts r pk).
Proof using SL.
  apply room_bind; [destruct (spatial ts); [apply room_bind; [apply si_remove_room|]|]; auto with room|].
  intros ts'. apply room_bind; [apply room_map_mut; intros; apply si_remove_room|auto with room].
Qed.
Lemma room_side_replace (ts : TableState T X) old r pk : keeps_room (side_replace_all (W := W) ts old r pk).
Proof using SL.
  apply room_bind; [destruct (spatial ts); [apply room_bind; [apply si_remove_room|intros; apply room_bind; [apply si_insert_room|]]|]; auto with room|].
  intros ts'. apply room_bind; [apply room_map_mut; intros; apply room_bind; [apply si_remove_room|intros; apply si_insert_room]|auto with room].
Qed.

#[local] Hint Resolve room_map_indexes room_map_unique room_side_insert room_side_remove room_side_replace
  room_index_insert room_index_remove room_unique_insert room_unique_remove room_put_row room_take_row : room.

(** The state of the merge between two operations. *)
Definition merging (w : W) (ts0 ts : TableState T X) (R U : content) (f : list Page) : Prop :=
  same_table ts0 ts /\ parts_is w ts R R U f.

Section op.
Context (w : W) (ts : TableState T X) (R U V : content) (f : list Page) (d : TableDiff) (pk : list Z).
Context (HR : map_Forall (row_ok (shape ts)) R) (Hp : parts_is w ts R R U f).
Context (HV : uniq_ok (sh_uniq (shape ts)) V) (HUV : U ⊆ V) (HU : U !! pk = None).

Lemma merge_delete_spec old : R !! pk = Some old ->
  upd (merge_op (ts, d) (pk, Delete)) w f (fun acc w' f' =>
    merging w' ts acc.1 (delete pk R) U f' /\ acc.2 = add_diff R d [(pk, Delete)]).
Proof using HR Hp RL SL.
  intros Eold. eapply upd_bind; [by apply take_row_parts|intros [prev ts']; auto 8 with room|].
  intros [prev ts1] w1 f1 L1 (E & S1 & P1). simpl in *. subst prev. pose proof S1 as (_ & Hsh & _).
  eapply upd_lift; [by rewrite Eold|].
  eapply upd_bind; [apply (indexes_remove_parts _ _ _ _ _ _ pk old P1); [done|by rewrite Hsh]|auto 8 with room|].
  intros ts2 w2 f2 L2 [S2 P2]. destruct (parts_no_sides _ _ _ _ _ _ P2) as [E1 E2].
  eapply side_step; [by apply no_sides|]. apply upd_ret. split; [by split; [etrans|]|].
  unfold add_diff, removed. simpl. by rewrite Eold, app_nil_r.
Qed.

Lemma merge_insert_spec r : R !! pk = None -> row_ok (shape ts) pk r -> V !! pk = Some r ->
  upd (merge_op (ts, d) (pk, Insert r)) w f (fun acc w' f' =>
    merging w' ts acc.1 (<[pk := r]> R) (<[pk := r]> U) f' /\ acc.2 = add_diff R d [(pk, Insert r)]).
Proof using HR Hp HV HUV HU RL SL.
  intros Hnone Hr HVr. eapply upd_bind; [by apply indexes_insert_parts|intros ts'|].
  { apply room_bind; [auto with room|]. intros ?. apply room_bind; [auto with room|]. intros ?.
    apply room_bind; [auto with room|]. intros [??]. auto with room. }
  intros ts1 w1 f1 L1 [S1 P1]. pose proof S1 as (_ & Hsh & _). destruct (parts_no_sides _ _ _ _ _ _ P1) as [E1 E2].
  eapply side_step; [by apply no_sides|].
  eapply upd_bind; [apply (unique_insert_parts _ _ _ _ _ V _ pk r P1); rewrite ?Hsh; done|intros ts'|].
  { apply room_bind; [auto with room|]. intros [??]. auto with room. }
  intros ts2 w2 f2 L2 [S2 P2]. pose proof Hr as (Hk & Hf & _).
  eapply upd_bind; [apply (put_row_parts _ _ _ _ _ _ pk r P2 Hk Hf)|intros [??]; auto with room|].
  intros [prev ts3] w3 f3 L3 (_ & S3 & P3). simpl in *. apply upd_ret. split; [split; [etrans; [done|by etrans]|done]|].
  unfold add_diff. simpl. by rewrite app_nil_r.
Qed.

Lemma merge_update_spec r old : R !! pk = Some old -> row_ok (shape ts) pk r -> V !! pk = Some r ->
  upd (merge_op (ts, d) (pk, Update r)) w f (fun acc w' f' =>
    merging w' ts acc.1 (<[pk := r]> R) (<[pk := r]> U) f' /\ acc.2 = add_diff R d [(pk, Update r)]).
Proof using HR Hp HV HUV HU RL SL.
  intros Eold Hr HVr. pose proof Hr as (Hk & Hf & _).
  eapply upd_bind; [apply (put_row_parts _ _ _ _ _ _ pk r Hp Hk Hf)|intros [prev ts']; auto 9 with room|].
  intros [prev ts1] w1 f1 L1 (E & S1 & P1). simpl in *. subst prev. pose proof S1 as (_ & Hsh & _).
  eapply upd_lift; [by rewrite Eold|].
  eapply upd_bind; [apply (indexes_replace_parts _ _ _ _ _ _ pk old r P1); rewrite ?Hsh; done|auto 8 with room|].
  intros ts2 w2 f2 L2 [S2 P2]. pose proof S2 as (_ & Hsh2 & _). destruct (parts_no_sides _ _ _ _ _ _ P2) as [E1 E2].
  eapply side_step; [by apply no_sides|].
  eapply upd_bind; [apply (unique_insert_parts _ _ _ _ _ V _ pk r P2); rewrite ?Hsh2, ?Hsh; done|auto with room|].
  intros ts3 w3 f3 L3 [S3 P3]. apply upd_ret. split; [split; [etrans; [done|by etrans]|done]|].
  unfold add_diff, removed. simpl. by rewrite Eold.
Qed.

Lemma merge_op_spec op : op_ok (shape ts) R (pk, op) -> (forall r, written op = Some r -> V !! pk = Some r) ->
  upd (merge_op (ts, d) (pk, op)) w f (fun acc w' f' =>
    merging w' ts acc.1 (apply_op R (pk, op)) (claim U (pk, op)) f' /\ acc.2 = add_diff R d [(pk, op)]).
Proof using HR Hp HV HUV HU RL SL.
  intros Hop Hw. destruct op as [r| |r]; unfold op_ok in Hop; simpl in Hop.
  - destruct Hop as [Hn Hr]. apply merge_insert_spec; [done|done|by apply Hw].
  - destruct Hop as [old Eold]. by eapply merge_delete_spec.
  - destruct Hop as [[old Eold] Hr]. eapply merge_update_spec; [done|done|by apply Hw].
Qed.
End op.

Lemma room_merge_op acc p : keeps_room (W := W) (merge_op acc p).
Proof using SL.
  destruct acc as [ts d], p as [pk [r| |r]]; simpl.
  - apply room_bind; [auto with room|]. intros ?. apply room_bind; [auto with room|]. intros ?.
    apply room_bind; [auto with room|]. intros ?. apply room_bind; [auto with room|]. intros [??]. auto with room.
  - apply room_bind; [auto with room|]. intros [??]. auto 8 with room.
  - apply room_bind; [auto with room|]. intros [??]. auto 9 with room.
Qed.

Lemma apply_op_other R (k pk : list Z) op : k <> pk -> apply_op R (k, op) !! pk = R !! pk.
Proof using Type. intros Hne. destruct op; unfold apply_op; simpl; first [by apply lookup_insert_ne|by apply lookup_delete_ne]. Qed.

Lemma claim_other U (k pk : list Z) op : k <> pk -> claim U (k, op) !! pk = U !! pk.
Proof using Type. intros Hne. destruct op; unfold claim; simpl; try done; by apply lookup_insert_ne. Qed.

Lemma release_other U (k pk : list Z) op : k <> pk -> release U (k, op) !! pk = U !! pk.
Proof using Type. intros Hne. destruct op; unfold release; simpl; try done; by apply lookup_delete_ne. Qed.

Lemma op_ok_other sh R k op p : k <> p.1 -> op_ok sh R p -> op_ok sh (apply_op R (k, op)) p.
Proof using Type. intros Hne. unfold op_ok. rewrite (apply_op_other R k p.1 op Hne). done. Qed.

Lemma removed_other R k op p : k <> p.1 -> removed (apply_op R (k, op)) p = removed R p.
Proof using Type. intros Hne. unfold removed. by rewrite (apply_op_other R k p.1 op Hne). Qed.

Lemma apply_op_rows sh R pk op : map_Forall (row_ok sh) R -> op_ok sh R (pk, op) -> map_Forall (row_ok sh) (apply_op R (pk, op)).
Proof using Type.
  intros HR Hop. destruct op; unfold apply_op, op_ok in *; simpl in *.
  - apply map_Forall_insert_2; [apply Hop|done].
  - by apply map_Forall_delete.
  - apply map_Forall_insert_2; [apply Hop|done].
Qed.

Lemma merge_ops_spec V l : forall w ts R U f d, map_Forall (row_ok (shape ts)) R -> parts_is w ts R R U f ->
  uniq_ok (sh_uniq (shape ts)) V -> U ⊆ V -> NoDup l.*1 -> Forall (op_ok (shape ts) R) l ->
  Forall (fun p => U !! p.1 = None) l -> Forall (fun p => forall r, written p.2 = Some r -> V !! p.1 = Some r) l ->
  upd (fold_each merge_op (ts, d) l) w f (fun acc w' f' =>
    merging w' ts acc.1 (fold_left apply_op l R) (fold_left claim l U) f' /\ acc.2 = add_diff R d l).
Proof using RL SL.
  induction l as [|[pk op] l IH]; intros w ts R U f d HR Hp HV HUV Hnd Hl HU HW; simpl.
  - apply upd_ret. split; [done|]. unfold add_diff. simpl. rewrite !app_nil_r. by destruct d.
  - rewrite fmap_cons in Hnd. apply NoDup_cons in Hnd as [Hn Hnd].
    apply Forall_cons in Hl as [Hop Hl]. apply Forall_cons in HU as [HUp HU]. apply Forall_cons in HW as [HWp HW].
    assert (forall p, p ∈ l -> pk <> p.1) as Hne.
    { intros p Hin ->. apply Hn. apply list_elem_of_fmap. by exists p. }
    eapply upd_bind; [by apply (merge_op_spec w ts R U V f d pk HR Hp HV HUV HUp)| |].
    { intros acc. apply room_fold_each. apply room_merge_op. }
    intros [ts1 d1] w1 f1 L1 [[S1 P1] Ed]. cbn [fst snd] in *. subst d1. pose proof S1 as (_ & Hsh & _).
    eapply upd_weaken; [|apply (IH w1 ts1 (apply_op R (pk, op)) (claim U (pk, op)))]; rewrite ?Hsh; try done.
    + intros [ts2 d2] w2 f2 _ [[S2 P2] Ed2]. simpl in *. split; [split; [by etrans|done]|]. rewrite Ed2.
      unfold add_diff. simpl. rewrite <- !app_assoc.
      rewrite (list_omap_ext (removed (apply_op R (pk, op))) (removed R) l l).
      * by destruct (written op), (removed R (pk, op)).
      * apply Forall_Forall2_diag, Forall_forall. intros p Hin. by apply removed_other, Hne.
    + by apply apply_op_rows.
    + unfold claim. simpl. destruct (written op) as [r|] eqn:E; [|exact HUV]. apply insert_subseteq_l; [by apply HWp|exact HUV].
    + rewrite Forall_forall in *. intros p Hin. by apply op_ok_other; [apply Hne|apply Hl].
    + rewrite Forall_forall in *. intros p Hin. rewrite claim_other by by apply Hne. by apply HU.
Qed.

Lemma fold_release_in l : forall U pk op, (pk, op) ∈ l -> written op = None \/ (exists r, op = Update r) -> NoDup l.*1 ->
  fold_left release l U !! pk = None.
Proof using Type.
  assert (forall l U pk, U !! pk = None -> fold_left release l U !! pk = None) as Hkeep.
  { clear. induction l as [|[k op] l IH]; intros U pk E; simpl; [done|]. apply IH.
    destruct op; unfold release; simpl; try done; by apply lookup_delete_None; right. }
  induction l as [|[k op'] l IH]; intros U pk op Hin Hop Hnd; [by apply elem_of_nil in Hin|]. simpl.
  rewrite fmap_cons in Hnd. apply NoDup_cons in Hnd as [Hn Hnd].
  apply elem_of_cons in Hin as [[= -> ->]|Hin]; [|by eapply IH]. apply Hkeep.
  destruct op'; unfold release; simpl; [by destruct Hop as [|[]]|apply lookup_delete_eq|apply lookup_delete_eq].
Qed.

Lemma fold_release_notin l : forall U (pk : list Z), (forall op, (pk, op) ∈ l -> exists r, op = Insert r) ->
  fold_left release l U !! pk = U !! pk.
Proof using Type.
  induction l as [|[k op] l IH]; intros U pk Hl; simpl; [done|]. rewrite IH; [|intros op' Hin; apply Hl; by right].
  destruct (decide (k = pk)) as [->|Hne]; [|by apply release_other]. destruct (Hl op) as [r ->]; [by left|done].
Qed.

(** After the first pass the unique maps hold the untouched rows. *)
Lemma released_lookup (R : content) (ops : pending_ops) (pk : list Z) :
  (forall (r : row), ops !! pk = Some (Insert r) -> R !! pk = None) ->
  fold_left release (btree_entries ops) R !! pk = match ops !! pk with Some _ => None | None => R !! pk end.
Proof using Type.
  intros Hins. pose proof (btree_keys_NoDup ops) as Hnd.
  assert (forall op, (pk, op) ∈ btree_entries ops <-> ops !! pk = Some op) as Hin by (intros; apply elem_of_btree_entries).
  destruct (ops !! pk) as [[r| |r]|] eqn:E.
  - rewrite fold_release_notin; [by eapply Hins|]. intros op Hop%Hin. simplify_eq. by exists r.
  - eapply fold_release_in; [by apply Hin|by left|done].
  - eapply fold_release_in; [by apply Hin|right; by exists r|done].
  - apply fold_release_notin. intros op Hop%Hin. done.
Qed.

Lemma fold_claim_view (R U : content) (ops : pending_ops) : (forall pk, U !! pk = match ops !! pk with Some _ => None | None => R !! pk end) ->
  fold_left claim (btree_entries ops) U = view R ops.
Proof using Type.
  intros HU. pose proof (btree_keys_NoDup ops) as Hnd.
  assert (forall l U, NoDup l.*1 -> Forall (fun p => U !! p.1 = None) l -> fold_left claim l U = fold_left apply_op l U) as Hca.
  { clear. induction l as [|[k op] l IH]; intros U Hnd Hn; simpl; [done|].
    rewrite fmap_cons in Hnd. apply NoDup_cons in Hnd as [Hk Hnd]. apply Forall_cons in Hn as [Hkn Hn]. simpl in Hkn.
    assert (claim U (k, op) = apply_op U (k, op)) as ->.
    { destruct op; unfold claim, apply_op; simpl; try done. by rewrite delete_id. }
    apply IH; [done|]. rewrite Forall_forall in *. intros p Hin. rewrite apply_op_other; [by apply Hn|].
    intros ->. apply Hk. apply list_elem_of_fmap. by exists p. }
  rewrite Hca; [|done|].
  - apply map_eq. intros pk. rewrite view_lookup. destruct (ops !! pk) as [op|] eqn:E.
    + rewrite (fold_apply_in _ _ _ op); [by destruct op|done|by apply elem_of_btree_entries].
    + rewrite fold_apply_notin; [by rewrite HU, E|]. intros Hk. apply (elem_of_btree_keys ops) in Hk. rewrite E in Hk. by destruct Hk.
  - apply Forall_forall. intros [pk op] Hin%elem_of_btree_entries. simpl. by rewrite HU, Hin.
Qed.

(** ** One table's merge *)

Definition ops_ok (sh : Shape) (R : content) (ops : pending_ops) : Prop :=
  (forall pk op, ops !! pk = Some op -> op_ok sh R (pk, op)) /\ uniq_ok (sh_uniq sh) (view R ops).

Definition diff_of (table : TableId) (R : content) (ops : pending_ops) : TableDiff :=
  add_diff R {| td_table_id := table; td_inserts := []; td_deletes := [] |} (btree_entries ops).

Lemma view_rows_ok (sh : Shape) (R : content) (ops : pending_ops) : map_Forall (row_ok sh) R -> (forall pk op, ops !! pk = Some op -> op_ok sh R (pk, op)) ->
  map_Forall (row_ok sh) (view R ops).
Proof using Type.
  intros HR Hops pk r. rewrite view_lookup. specialize (Hops pk). unfold op_ok in Hops.
  destruct (ops !! pk) as [[r'| |r']|]; simpl; intros E; simplify_eq.
  - by apply (Hops _ eq_refl).
  - by apply (Hops _ eq_refl).
  - by apply HR.
Qed.

Lemma merge_table_spec table w ts R ops f : table_is w ts R f -> ops_ok (shape ts) R ops ->
  upd (merge_table table ts ops) w f (fun acc w' f' =>
    same_table ts acc.1 /\ table_is w' acc.1 (view R ops) f' /\ acc.2 = diff_of table R ops).
Proof using RL SL.
  intros [Hp HR] [Hops HV]. assert (Forall (op_ok (shape ts) R) (btree_entries ops)) as Hl.
  { apply Forall_forall. intros [pk op] Hin%elem_of_btree_entries. by apply Hops. }
  assert (forall pk, fold_left release (btree_entries ops) R !! pk = match ops !! pk with Some _ => None | None => R !! pk end) as Hrel.
  { intros pk. apply released_lookup. intros r Hr. apply (Hops _ _ Hr). }
  eapply upd_bind; [apply (release_ops_spec w ts R f (btree_entries ops) R HR (btree_keys_NoDup ops) Hl); [|exact Hp]| |].
  - by apply Forall_forall.
  - intros ts'. apply room_fold_each. apply room_merge_op.
  - intros ts1 w1 f1 L1 [S1 P1]. pose proof S1 as (_ & Hsh & _).
    eapply upd_weaken; [|apply (merge_ops_spec (view R ops) (btree_entries ops) w1 ts1 R (fold_left release (btree_entries ops) R) f1); [by rewrite Hsh|exact P1|by rewrite Hsh| |apply btree_keys_NoDup|by rewrite Hsh| |]].
    + intros [ts2 d2] w2 f2 _ [[S2 P2] Ed]. cbn [fst snd] in *. rewrite fold_apply_view, (fold_claim_view R) in P2 by done.
      split; [by etrans|]. split; [|done]. split; [done|]. pose proof S2 as (_ & Hsh2 & _). rewrite Hsh2, Hsh.
      by apply view_rows_ok.
    + apply map_subseteq_spec. intros pk r. rewrite Hrel, view_lookup. by destruct (ops !! pk).
    + apply Forall_forall. intros [pk op] Hin%elem_of_btree_entries. simpl. by rewrite Hrel, Hin.
    + apply Forall_forall. intros [pk op] Hin%elem_of_btree_entries r Hr. simpl in *. rewrite view_lookup, Hin. by destruct op.
Qed.
End tables.
