(* ===== verification/IndexSpec.v ===== *)
(** What the secondary indexes of a table answer.

    On a table that holds contents [R] (file MergeSpec), [index_scan] returns
    exactly the rows that match the equality prefix and the bounds, ordered by
    the indexed values and then by primary key, and the integrity check of every
    index against a rebuild succeeds. *)

From stdpp Require Import base list gmap sorting.
From Stdlib Require Import ZArith Lia.
From S2P Require Import Prelude FluxBin Row IndexKey TxState LogRecord PageFormat PagedTree PagedTreeNode PagedTreeRep PagedTreeWrite PagedTreeSpec KvTree TableState TableSpec MergeSpec.

(** * The rows a scan asks for *)

(** The columns of the prefix hold its values, and the next column is within
    the bounds. *)
Definition scan_matches (cols : list nat) (prefix : row) (lower upper : Bound RowValue.t) (r : row) : Prop :=
  cols_are (firstn (length prefix) cols) r prefix /\
  forall o x, cols !! length prefix = Some o -> r !! o = Some x -> above lower x /\ IndexKey.below upper x.

(** Arguments of the declared types; bounds need a column after the prefix. *)
Definition scan_typed (tys : list FluxType.t) (prefix : row) (lower upper : Bound RowValue.t) : Prop :=
  (length prefix <= length tys)%nat /\ typed (firstn (length prefix) tys) prefix /\
  match tys !! length prefix with
  | Some ty => bound_typed ty lower /\ bound_typed ty upper
  | None => lower = Unbounded /\ upper = Unbounded
  end.

(** Rows in the order of an index: by the indexed values, then by key. *)
Definition index_order (cols : list nat) (p q : list Z * row) : Prop := forall a b,
  cols_are cols p.2 a -> cols_are cols q.2 b -> cmp_then (list_cmp value_compare a b) (kcmp p.1 q.1) = Lt.

Lemma forallb_firstn {A} (f : A -> bool) n l : forallb f l = true -> forallb f (firstn n l) = true.
Proof. rewrite <- (firstn_skipn n l) at 1. rewrite forallb_app. by intros [? _]%andb_true_iff. Qed.

Lemma StronglySorted_filter {A} (Q : A -> A -> Prop) (P : A -> Prop) `{forall x, Decision (P x)} l : StronglySorted Q l -> StronglySorted Q (filter P l).
Proof.
  induction 1 as [|x l _ IH Hf]; [constructor|]. rewrite filter_cons. destruct (decide (P x)); [|done]. constructor; [done|].
  apply Forall_forall. intros y [_ Hy]%list_elem_of_filter. rewrite Forall_forall in Hf. by apply Hf.
Qed.

Lemma StronglySorted_weaken {A} (Q Q' : A -> A -> Prop) l : (forall x y, Q x y -> Q' x y) -> StronglySorted Q l -> StronglySorted Q' l.
Proof. intros HQ. induction 1 as [|x l _ IH Hf]; constructor; [done|]. eapply Forall_impl; [exact Hf|]. apply HQ. Qed.

Lemma encode_values_app a b : encode_values (a ++ b) = encode_values a ++ encode_values b.
Proof. apply flat_map_app. Qed.

(** The byte range of a scan holds exactly the entries of matching rows. *)
Lemma scan_range tys cols prefix lower upper r vs pk : scan_typed tys prefix lower upper -> forallb ordered_type tys = true ->
  length tys = length cols -> cols_are cols r vs -> typed tys vs -> bytes_ok pk ->
  in_range (plan_scan (encode_values prefix) (bound_map encode_value lower) (bound_map encode_value upper)) (encode_values vs ++ pk) <->
  scan_matches cols prefix lower upper r.
Proof.
  intros (Hlen & Hp & Hb) Ho Hl Hc Hv Hpk. set (n := length prefix) in *.
  assert (cols_are (firstn n cols) r (firstn n vs)) as Hc1 by (by apply Forall2_take).
  assert (typed (firstn n tys) (firstn n vs)) as Hv1 by (by apply Forall2_take).
  assert (cols_are (firstn n cols) r prefix <-> firstn n vs = prefix) as Hpre.
  { split; [intros Hc2; by eapply cols_are_fun|intros E; by rewrite <- E]. }
  unfold scan_matches. fold n. rewrite Hpre. destruct (tys !! n) as [ty|] eqn:Ety.
  - destruct Hb as [Hbl Hbu]. destruct (Forall2_lookup_r _ _ _ _ _ Hv Ety) as (x & Ex & [Hx1 Hx2]).
    destruct (Forall2_lookup_r _ _ _ _ _ Hc Ex) as (o & Eo & Hox).
    rewrite <- (take_drop_middle vs n x Ex) at 1. rewrite encode_values_app. simpl encode_values. rewrite <- !app_assoc.
    rewrite (plan_scan_values (firstn n tys) ty); try done.
    + split; intros (E & Hb); (split; [done|]); [intros o' x' Eo' Hx'; by simplify_eq|by apply (Hb o)].
    + by apply forallb_firstn.
    + rewrite forallb_forall in Ho. apply Ho. apply list_elem_of_In. by eapply list_elem_of_lookup_2.
    + by repeat constructor.
    + apply bytes_ok_app. split; [|done]. apply (encode_values_bytes_ok (skipn (S n) tys)). by apply Forall2_drop.
  - apply lookup_ge_None in Ety. destruct Hb as [-> ->]. rewrite plan_scan_spec.
    + rewrite take_ge in Hp by done. rewrite (firstn_all2 vs) by (rewrite (Forall2_length _ _ _ Hv); lia).
      rewrite (encode_values_prefix tys prefix vs pk Ho Hp Hv). simpl. naive_solver.
    + apply bytes_ok_app. split; [by eapply encode_values_bytes_ok|done].
Qed.

Section tables.
Context {W T X : Type} {KT : KvTree W T} {KL : KvTreeLaws W T} {RC : RowCodec} {RL : RowCodecLaws}.
Context (w : W) (ts : TableState T X) (R : content) (f : list Page) (Hok : kt_ok w) (Ht : table_is w ts R f).

(** * Scans *)

Lemma rows_of_spec pks : (forall pk, pk ∈ pks -> is_Some (R !! pk)) -> rows_of w ts pks = Ok (omap (fun pk => R !! pk) pks).
Proof using Hok Ht RL.
  destruct Ht as [(fr & fi & fu & _ & HR & _) _]. induction pks as [|pk pks IH]; intros Hin; [done|]. cbn [rows_of].
  rewrite (row_at_spec _ _ _ _ _ pk Hok HR). cbn [mbind result_bind]. rewrite IH by (intros; apply Hin; by right).
  cbn [mbind result_bind]. simpl. by destruct (R !! pk).
Qed.

Lemma check_values tys id : forall cols prefix, Forall2 (fun o ty => columns (ti_schema (schema ts)) !! o = Some ty) cols tys ->
  typed (firstn (length prefix) tys) prefix -> (length prefix <= length tys)%nat ->
  collect (fun '(value, ordinal) => check_index_value ts id ordinal value ≫= fun v => Ok (encode_value v)) (zip prefix cols) =
  Ok (map encode_value prefix).
Proof using Type.
  induction tys as [|ty tys IH]; intros cols [|v prefix] Hc Hp Hl; simpl in Hl; try done; try lia.
  inversion Hc as [|o ? cols' ? Eo Hc']; subst. inversion Hp as [|???? [Hv _] Hp']; subst. cbn [zip zip_with collect].
  unfold check_index_value. rewrite Eo, Hv. cbn [mbind result_bind]. by rewrite IH by (done || lia).
Qed.

Lemma encode_bound_spec id o ty b : columns (ti_schema (schema ts)) !! o = Some ty -> bound_typed ty b ->
  encode_bound ts id (Some o) b = Ok (bound_map encode_value b).
Proof using Type.
  intros E Hb. destruct b as [|v|v]; [done| |]; simpl in *; inversion Hb as [|???? [Hv _] _]; subst;
    unfold check_index_value; by rewrite E, Hv.
Qed.

Lemma find_index_in id index : find_index ts id = Some index -> exists i, i ∈ indexes ts /\ i.2 = index.
Proof using Type.
  unfold find_index. destruct (find _ (indexes ts)) as [i|] eqn:E; [|done]. intros [= <-]. apply find_some in E as [Hin _].
  exists i. split; [by apply list_elem_of_In|done].
Qed.

(** ** One index *)

Section one_index.
Context (tys : list FluxType.t) (id : IndexId) (index : BTreeIndex T) (Ef : find_index ts id = Some index).
Context (Htys : Forall2 (fun o ty => columns (ti_schema (schema ts)) !! o = Some ty) (bi_columns index) tys) (Ho : forallb ordered_type tys = true).
Context (prefix : row) (lower upper : Bound RowValue.t) (Hst : scan_typed tys prefix lower upper) (Hb : map_Forall (fun pk (_ : row) => bytes_ok pk) R).
Notation cols := (bi_columns index).

Definition scan_range_of : list Z * option (list Z) :=
  plan_scan (encode_values prefix) (bound_map encode_value lower) (bound_map encode_value upper).

(** The entries of the scan, each with the row it names. *)
Definition selected (M : kmap) : list kv := filter (scan_keeps scan_range_of.1 scan_range_of.2) (btree_entries M).
Definition with_row (e : kv) : list Z * row := (e.2, default [] (R !! e.2)).

Lemma row_entry pk r : R !! pk = Some r -> exists vs, cols_are cols r vs /\ typed tys vs /\ entry_key cols r pk = Ok (encode_values vs ++ pk).
Proof using Ef Ht Htys.
  intros Hr. destruct (find_index_in _ _ Ef) as ([id' i] & Hin & Ei). simpl in Ei. subst i. destruct Ht as [_ Hrows].
  destruct (Hrows _ _ Hr) as (_ & _ & Hidx & _). rewrite Forall_forall in Hidx.
  destruct (Hidx cols) as (tys' & vs & Htys' & _ & Hc & Hv & _); [apply list_elem_of_fmap; by exists (id', index)|].
  assert (tys' = tys) as -> by (by eapply cols_types). exists vs. split_and!; [done|done|].
  unfold entry_key. by rewrite (key_of_encode _ _ _ Hc).
Qed.

Lemma selected_spec M k pk : idx_rel cols R M ->
  (k, pk) ∈ selected M <-> exists r, R !! pk = Some r /\ entry_key cols r pk = Ok k /\ scan_matches cols prefix lower upper r.
Proof using Ef Hb Ho Hst Ht Htys.
  intros HM. unfold selected. rewrite list_elem_of_filter, elem_of_btree_entries. etrans; [apply and_iff_compat_l, (HM k pk)|].
  assert (forall r, R !! pk = Some r -> entry_key cols r pk = Ok k -> scan_keeps scan_range_of.1 scan_range_of.2 (k, pk) <-> scan_matches cols prefix lower upper r) as Hk.
  { intros r Hr Ek. destruct (row_entry _ _ Hr) as (vs & Hc & Hv & Ek'). assert (k = encode_values vs ++ pk) as -> by congruence.
    apply (scan_range tys cols prefix lower upper r vs pk); try done; [symmetry; by eapply Forall2_length|by apply (Hb pk r)]. }
  split; [intros (Hs & r & Hr & Ek)|intros (r & Hr & Ek & Hs)]; [exists r; split_and!; try done; by apply (Hk r)|split; [by apply (Hk r)|by exists r]].
Qed.

Lemma index_scan_runs M g : kt_is w (bi_tree index) M g -> idx_rel cols R M ->
  index_scan w ts id prefix lower upper = Ok (map with_row (selected M)).*2.
Proof using Ef Hb Ho Hok Hst Ht Htys RL.
  intros Hkt HM. pose proof Hst as (Hlen & Hp & Hbd). pose proof (Forall2_length _ _ _ Htys) as Hl.
  unfold index_scan. rewrite Ef. rewrite <- Hl in Hlen. destruct (Nat.ltb_spec (length cols) (length prefix)); [lia|].
  rewrite (check_values tys) by (done || lia). cbn [mbind result_bind].
  assert (negb (is_unbounded lower && is_unbounded upper) && (length prefix =? length cols)%nat = false) as ->.
  { destruct (Nat.eqb_spec (length prefix) (length cols)) as [E|]; [|by rewrite andb_false_r].
    assert (tys !! length prefix = None) as En by (apply lookup_ge_None; lia). rewrite En in Hbd. by destruct Hbd as [-> ->]. }
  assert (forall b, match tys !! length prefix with Some ty => bound_typed ty b | None => b = Unbounded end ->
    encode_bound ts id (cols !! length prefix) b = Ok (bound_map encode_value b)) as Heb.
  { intros b Hbb. destruct (tys !! length prefix) as [ty|] eqn:E; [|by subst b].
    destruct (Forall2_lookup_r _ _ _ _ _ Htys E) as (o & -> & Eo). by eapply encode_bound_spec. }
  rewrite !Heb by (destruct (tys !! length prefix); naive_solver). cbn [mbind result_bind].
  rewrite <- flat_map_concat_map. fold (encode_values prefix). fold scan_range_of. rewrite (surjective_pairing scan_range_of).
  unfold scan_pks. rewrite (kt_entries_spec _ _ _ _ _ _ Hok Hkt). cbn [map_err mbind result_bind]. fold (selected M).
  assert (forall e, e ∈ selected M -> is_Some (R !! e.2)) as Hs.
  { intros [k pk] He. apply (selected_spec M k pk HM) in He as (r & Hr & _). by exists r. }
  rewrite rows_of_spec by (intros pk (e & -> & He)%list_elem_of_fmap; by apply Hs). f_equal. rewrite <- list_fmap_compose.
  clear -Hs. induction (selected M) as [|e l IH]; [done|]. simpl. destruct (Hs e ltac:(by left)) as [r ->]. simpl. f_equal. apply IH. intros. apply Hs. by right.
Qed.

Lemma selected_sorted M : idx_rel cols R M -> StronglySorted (index_order cols) (map with_row (selected M)).
Proof using Ef Hb Ho Hst Ht Htys.
  intros HM. assert (StronglySorted entry_lt (selected M)) as Hs by (apply StronglySorted_filter, btree_entries_sorted).
  assert (forall e, e ∈ selected M -> exists r vs, R !! e.2 = Some r /\ cols_are cols r vs /\ typed tys vs /\ e.1 = encode_values vs ++ e.2) as Hall.
  { intros [k pk] He. apply (selected_spec M k pk HM) in He as (r & Hr & Ek & _). destruct (row_entry _ _ Hr) as (vs & ? & ? & ?). exists r, vs. split_and!; try done. simpl. congruence. }
  clear -Hs Hall Ho. induction Hs as [|e l _ IH Hf]; [constructor|]. simpl. constructor; [apply IH; intros; apply Hall; by right|].
  apply Forall_forall. intros p (e' & -> & He')%list_elem_of_fmap. rewrite Forall_forall in Hf. specialize (Hf _ He').
  intros a b Ha Hb. simpl in *. destruct (Hall e ltac:(by left)) as (r & vs & Er & Hc & Hv & Ek). destruct (Hall e' ltac:(by right)) as (r' & vs' & Er' & Hc' & Hv' & Ek').
  rewrite Er in Ha. rewrite Er' in Hb. simpl in *. rewrite (cols_are_fun _ _ _ _ Ha Hc), (cols_are_fun _ _ _ _ Hb Hc').
  rewrite <- (encode_values_cmp tys Ho vs vs' e.2 e'.2 Hv Hv'), <- Ek, <- Ek'. exact Hf.
Qed.

(** The scan returns the matching rows, in the order of the index. *)
Lemma index_scan_spec : exists l, index_scan w ts id prefix lower upper = Ok l.*2 /\ StronglySorted (index_order cols) l /\
  forall pk r, (pk, r) ∈ l <-> R !! pk = Some r /\ scan_matches cols prefix lower upper r.
Proof using Ef Hb Ho Hok Hst Ht Htys RL.
  destruct (find_index_in _ _ Ef) as ([id' i] & Hin & Ei). simpl in Ei. subst i. pose proof Ht as [(fr & fi & fu & _ & _ & HI & _) _].
  destruct (Forall2_elem_of_l _ _ _ _ HI Hin) as (g & _ & M & Hkt & HM).
  exists (map with_row (selected M)). split; [by eapply index_scan_runs|]. split; [by apply selected_sorted|]. intros pk r. rewrite list_elem_of_fmap. split.
  - intros ([k pk'] & [= -> ->] & He). apply (selected_spec M k pk' HM) in He as (r & Hr & _ & Hm). simpl. by rewrite Hr.
  - intros [Hr Hm]. destruct (row_entry _ _ Hr) as (vs & _ & _ & Ek). exists (encode_values vs ++ pk, pk). unfold with_row. simpl. rewrite Hr. split; [done|].
    apply selected_spec; [done|]. by exists r.
Qed.
End one_index.

(** * Integrity *)

(** A tree that maps a key of each row to the row's primary key lists what a
    rebuild over the rows would. *)
Lemma rebuilt_entries (key : row -> list Z -> result StorageError (list Z)) (M : kmap) :
  (forall pk r, R !! pk = Some r -> exists k, key r pk = Ok k) ->
  (forall k pk, M !! k = Some pk <-> exists r, R !! pk = Some r /\ key r pk = Ok k) ->
  exists expected, expected_entries key (btree_entries R) = Ok expected /\ btree_entries M = sort_entries expected.
Proof using Type.
  intros Hkey HM. set (kf := fun p : list Z * row => match key p.2 p.1 with Ok k => (k, p.1) | Err _ => ([], p.1) end).
  exists (map kf (btree_entries R)). split.
  - unfold expected_entries. rewrite <- (map_id (btree_entries R)) at 1. apply collect_map, Forall_forall. intros [pk r] Hr%elem_of_btree_entries. destruct (Hkey _ _ Hr) as [k Ek]. unfold kf. simpl. by rewrite Ek.
  - apply (StronglySorted_unique key_le).
    + eapply StronglySorted_weaken; [|apply btree_entries_sorted]. intros [k v] [k' v'] Hlt. unfold entry_lt, key_lt in Hlt. unfold key_le. simpl in *. by rewrite Hlt.
    + apply StronglySorted_merge_sort; apply _.
    + unfold sort_entries. rewrite merge_sort_Permutation. apply NoDup_Permutation.
      * apply (NoDup_fmap_1 fst), btree_keys_NoDup.
      * apply (NoDup_fmap_1 snd). rewrite <- list_fmap_compose.
        rewrite (list_fmap_ext _ fst) by (intros i p _; unfold kf; simpl; by destruct (key p.2 p.1)). apply btree_keys_NoDup.
      * intros [k pk]. rewrite elem_of_btree_entries. etrans; [apply HM|]. rewrite list_elem_of_fmap. unfold kf. split.
        -- intros (r & Hr & Ek). exists (pk, r). simpl. rewrite Ek. split; [done|]. by apply elem_of_btree_entries.
        -- intros ([pk' r] & E & Hr%elem_of_btree_entries). simpl in E. destruct (Hkey _ _ Hr) as [k' Ek]. rewrite Ek in E. injection E as -> ->. by exists r.
Qed.

(** Every index and unique map agrees with the rows. *)
Lemma integrity_spec `{SV : SideVerify W X} : verify_index_integrity w ts = Ok tt.
Proof using Hok Ht RL.
  destruct Ht as [(fr & fi & fu & _ & HR & HI & HU & Hs & Hf) Hrows]. unfold verify_index_integrity. rewrite (for_each_row_spec _ _ _ _ _ Hok HR). cbn [mbind result_bind].
  assert (forall l g, l ⊆ indexes ts -> Forall2 (fun i => index_is R w i.2) l g -> verify_indexes w (btree_entries R) l = Ok tt) as Hi.
  { intros l g Hsub. induction 1 as [|[id i] g' l g (M & Hkt & HM) _ IH]; [done|]. cbn [verify_indexes].
    destruct (rebuilt_entries (entry_key (bi_columns i)) M) as (expected & -> & E); [|done|].
    { intros pk r Hr. destruct (Hrows _ _ Hr) as (_ & _ & Hidx & _). rewrite Forall_forall in Hidx.
      destruct (idx_fits_key _ _ _ _ (Hidx (bi_columns i) ltac:(apply list_elem_of_fmap; exists (id, i); split; [done|apply Hsub; by left]))) as (k & Ek & _). by exists k. }
    cbn [mbind result_bind]. unfold index_entries. rewrite (kt_entries_spec _ _ _ _ _ _ Hok Hkt), scan_all_keeps. cbn [map_err mbind result_bind].
    rewrite bool_decide_eq_true_2 by done. apply IH. intros x Hx. apply Hsub. by right. }
  rewrite (Hi _ _ (reflexivity _) HI), Hs, Hf. cbn [mbind result_bind collect].
  assert (forall l g, l ⊆ unique ts -> Forall2 (uniq_is R w) l g -> verify_unique w (btree_entries R) l = Ok tt) as Hu; [|by apply (Hu _ fu)].
  intros l g Hsub. induction 1 as [|c g' l g (M & Hkt & HM) _ IH]; [done|]. cbn [verify_unique].
  destruct (rebuilt_entries (fun r _ => key_of (ui_columns c) r) M) as (expected & -> & E); [|done|].
  { intros pk r Hr. destruct (Hrows _ _ Hr) as (_ & _ & _ & Huq). rewrite Forall_forall in Huq.
    destruct (Huq (ui_columns c) ltac:(apply list_elem_of_fmap; exists c; split; [done|apply Hsub; by left])) as (k & Ek & _). by exists k. }
  cbn [mbind result_bind]. unfold unique_entries. rewrite (kt_entries_spec _ _ _ _ _ _ Hok Hkt), scan_all_keeps. cbn [map_err mbind result_bind].
  rewrite bool_decide_eq_true_2 by done. apply IH. intros x Hx. apply Hsub. by right.
Qed.
End tables.
