(* ===== verification/StoreSpec.v ===== *)
(** The store as a sequence of published versions.

    [tables_is] relates the tables of a state to their contents and pages.
    [store_inv] is the invariant of the store: every version some holder still
    references is readable with its own contents, and no page it uses is in a
    batch the reclaimer may free before that version is released. *)

From stdpp Require Import base list gmap sorting.
From Stdlib Require Import ZArith Lia.
From S2P Require Import Prelude FluxBin Row IndexKey TxState LogRecord PageFormat PagedTree PagedTreeNode PagedTreeRep PagedTreeSpec KvTree TableState TableSpec Reclaim MemStore MergeSpec.

Notation contents := (gmap TableId content).
Notation pending_tables := (gmap TableId pending_ops).

(** * Footprints of a family of tables *)

Definition fp (fs : gmap TableId (list Page)) : list Page := concat (map_to_list fs).*2.

Lemma fp_insert fs (id : TableId) g : fs !! id = None -> fp (<[id := g]> fs) ≡ₚ g ++ fp fs.
Proof. intros E. unfold fp. by rewrite map_to_list_insert. Qed.

Lemma fp_split fs (id : TableId) g : fs !! id = Some g -> fp fs ≡ₚ g ++ fp (delete id fs).
Proof. intros E. rewrite <- (insert_delete_id fs id g E) at 1. apply fp_insert, lookup_delete_eq. Qed.

Lemma fp_update fs (id : TableId) g g' : fs !! id = Some g -> fp (<[id := g']> fs) ≡ₚ g' ++ fp (delete id fs).
Proof. intros E. rewrite <- insert_delete_eq. apply fp_insert, lookup_delete_eq. Qed.

(** * Contents under pending writes *)

Definition apply_ops (C : contents) (p : TableId * pending_ops) : contents := alter (fun R => view R p.2) p.1 C.

(** The contents a transaction sees. *)
Definition views (C : contents) (pend : pending_tables) : contents :=
  map_imap (fun id R => Some (view R (default ∅ (pend !! id)))) C.

Lemma views_lookup C pend id : views C pend !! id = (fun R => view R (default ∅ (pend !! id))) <$> C !! id.
Proof. unfold views. rewrite map_lookup_imap. by destruct (C !! id). Qed.

Lemma fold_apply_ops_lookup l : forall (C : contents) (id : TableId), NoDup l.*1 ->
  fold_left apply_ops l C !! id = (fun R => view R (default ∅ ((list_to_map l : pending_tables) !! id))) <$> C !! id.
Proof.
  induction l as [|[k ops] l IH]; intros C id Hnd; simpl.
  - destruct (C !! id) as [R|]; simpl; [|done]. by rewrite lookup_empty, view_empty.
  - rewrite fmap_cons in Hnd. apply NoDup_cons in Hnd as [Hn Hnd]. rewrite IH by done. unfold apply_ops. simpl.
    destruct (decide (id = k)) as [->|Hne].
    + rewrite lookup_alter_eq, lookup_insert_eq. rewrite (not_elem_of_list_to_map_1 l k) by done. simpl.
      destruct (C !! k) as [R|]; simpl; [|done]. by rewrite view_empty.
    + by rewrite lookup_alter_ne, lookup_insert_ne by done.
Qed.

Lemma fold_apply_ops (C : contents) (pend : pending_tables) : fold_left apply_ops (btree_entries pend) C = views C pend.
Proof.
  apply map_eq. intros id. rewrite fold_apply_ops_lookup, views_lookup by apply btree_keys_NoDup.
  f_equal. assert ((list_to_map (btree_entries pend) : pending_tables) = pend) as ->; [|done].
  etrans; [|apply list_to_map_to_list]. apply list_to_map_proper; [apply btree_keys_NoDup|apply btree_entries_perm].
Qed.

Section tables.
Context {W T X : Type} {KT : KvTree W T} {KL : KvTreeLaws W T} {RC : RowCodec} {RL : RowCodecLaws}.
Context {SI : SideIndex W X} {SL : SideIndexLaws W T X}.

Definition tables_is (w : W) (tabs : gmap TableId (TableState T X)) (C : contents) (fs : gmap TableId (list Page)) : Prop :=
  forall id, match tabs !! id with
  | Some ts => exists R g, C !! id = Some R /\ fs !! id = Some g /\ table_is w ts R g
  | None => C !! id = None /\ fs !! id = None
  end.

Definition same_tables (tabs tabs' : gmap TableId (TableState T X)) : Prop :=
  forall id, option_Forall2 same_table (tabs !! id) (tabs' !! id).

#[global] Instance same_tables_preorder : PreOrder same_tables.
Proof using Type.
  split; [intros tabs id; destruct (tabs !! id); by constructor|].
  intros a b c Hab Hbc id. specialize (Hab id). specialize (Hbc id).
  inversion Hab as [x y Hxy Ea Eb|Ea Eb]; rewrite <- Eb in Hbc; inversion Hbc; constructor. by etrans.
Qed.

Lemma tables_is_le w w' tabs C fs : kt_le w w' -> tables_is w tabs C fs -> tables_is w' tabs C fs.
Proof using Type.
  intros L HT id. specialize (HT id). destruct (tabs !! id) as [ts|]; [|done].
  destruct HT as (R & g & E1 & E2 & Ht). exists R, g. split_and!; try done. by eapply table_is_le.
Qed.

Lemma tables_is_get w tabs C fs id ts : tables_is w tabs C fs -> tabs !! id = Some ts ->
  exists R g, C !! id = Some R /\ fs !! id = Some g /\ table_is w ts R g.
Proof using Type. intros HT E. specialize (HT id). by rewrite E in HT. Qed.

Lemma tables_is_insert w tabs C fs id ts ts0 R g : tables_is w tabs C fs -> tabs !! id = Some ts0 -> table_is w ts R g ->
  tables_is w (<[id := ts]> tabs) (<[id := R]> C) (<[id := g]> fs).
Proof using Type.
  intros HT E Ht id'. destruct (decide (id' = id)) as [->|].
  - rewrite !lookup_insert_eq. by exists R, g.
  - rewrite !lookup_insert_ne by done. apply HT.
Qed.

(** Pending writes that the commit merge can apply. *)
Definition pending_ok (tabs : gmap TableId (TableState T X)) (C : contents) (id : TableId) (ops : pending_ops) : Prop :=
  ops = ∅ \/ exists ts R, tabs !! id = Some ts /\ C !! id = Some R /\ ops_ok (shape ts) R ops.

Definition diffs_of (C : contents) (l : list (TableId * pending_ops)) : list TableDiff :=
  omap (fun p => if bool_decide (p.2 = ∅) then None else (fun R => diff_of p.1 R p.2) <$> C !! p.1) l.

Lemma room_merge_table table ts ops : keeps_room (W := W) (merge_table table ts ops).
Proof using SL.
  apply room_bind; [|intros; apply room_fold_each; apply room_merge_op]. apply room_fold_each.
  intros ts' [pk op]. unfold release_op. simpl. destruct op; [auto with room| |];
    (apply room_at; intros s; eexists; split; [reflexivity|]; apply room_bind; [auto with room|];
     intros old; apply room_bind; [apply room_map_mut; intros; apply room_unique_remove|auto with room]).
Qed.

Lemma room_merge_tables acc p : keeps_room (W := W) (merge_tables acc p).
Proof using SL.
  destruct acc as [tabs diffs]. unfold merge_tables. destruct (bool_decide _); [auto with room|].
  apply room_bind; [auto with room|]. intros ts. apply room_bind; [apply room_merge_table|]. intros [??]. auto with room.
Qed.

Lemma diffs_of_other C id ops l : id ∉ l.*1 -> diffs_of (apply_ops C (id, ops)) l = diffs_of C l.
Proof using Type.
  intros Hn. apply list_omap_ext, Forall_Forall2_diag, Forall_forall. intros [k o] Hin. unfold apply_ops. simpl.
  rewrite lookup_alter_ne; [done|]. intros ->. apply Hn. apply list_elem_of_fmap. by exists (k, o).
Qed.

Lemma merge_all_spec l : forall w tabs C fs diffs, tables_is w tabs C fs -> NoDup l.*1 ->
  Forall (fun p => pending_ok tabs C p.1 p.2) l ->
  upd (fold_each merge_tables (tabs, diffs) l) w (fp fs) (fun acc w' f' => exists fs', f' ≡ₚ fp fs' /\
    tables_is w' acc.1 (fold_left apply_ops l C) fs' /\ same_tables tabs acc.1 /\ acc.2 = diffs ++ diffs_of C l).
Proof using RL SL.
  induction l as [|[id ops] l IH]; intros w tabs C fs diffs HT Hnd Hl; simpl.
  - apply upd_ret. exists fs. rewrite app_nil_r. done.
  - rewrite fmap_cons in Hnd. apply NoDup_cons in Hnd as [Hn Hnd]. apply Forall_cons in Hl as [Hop Hl]. cbn [fst snd] in *.
    eapply upd_bind with (P := fun acc w' f' => exists fs', f' ≡ₚ fp fs' /\
      tables_is w' acc.1 (apply_ops C (id, ops)) fs' /\ same_tables tabs acc.1 /\ acc.2 = diffs ++ diffs_of C [(id, ops)] /\
      (forall id', id' <> id -> acc.1 !! id' = tabs !! id')).
    + unfold merge_tables. cbn [fst snd]. destruct (bool_decide (ops = ∅)) eqn:Eb.
      * apply bool_decide_eq_true_1 in Eb as ->. apply upd_ret. exists fs. unfold diffs_of, apply_ops. simpl.
        rewrite app_nil_r. split_and!; try done. intros id'. specialize (HT id').
        assert (alter (fun R : content => view R ∅) id C = C) as ->; [|done].
        apply map_eq. intros k. destruct (decide (k = id)) as [->|]; [|by rewrite lookup_alter_ne].
        rewrite lookup_alter_eq. destruct (C !! id); simpl; [by rewrite view_empty|done].
      * apply bool_decide_eq_false_1 in Eb. destruct Hop as [|(ts & R & E1 & E2 & Hok)]; [done|].
        eapply upd_lift; [by rewrite E1|]. destruct (tables_is_get _ _ _ _ _ _ HT E1) as (R' & g & E2' & E3 & Ht). simplify_eq.
        eapply upd_perm; [symmetry; by apply fp_split|].
        eapply upd_bind; [by eapply upd_frame, merge_table_spec|intros [??]; auto with room|].
        intros [ts' d] w' ? L (g' & -> & Hs & Ht' & Ed). cbn [fst snd] in *. subst d. apply upd_ret.
        exists (<[id := g']> fs). split; [symmetry; by eapply fp_update|]. split; [|split_and!].
        -- simpl. unfold apply_ops. simpl. assert (alter (fun R0 : content => view R0 ops) id C = <[id := view R ops]> C) as ->.
           { apply map_eq. intros k. destruct (decide (k = id)) as [->|];
               [by rewrite lookup_alter_eq, lookup_insert_eq, E2|by rewrite lookup_alter_ne, lookup_insert_ne]. }
           eapply tables_is_insert; [by eapply tables_is_le|done|done].
        -- intros k. simpl. destruct (decide (k = id)) as [->|]; [rewrite lookup_insert_eq, E1; by constructor|].
           rewrite lookup_insert_ne by done. apply (reflexivity (R := same_tables)).
        -- unfold diffs_of. simpl. by rewrite bool_decide_eq_false_2, E2.
        -- intros k Hk. simpl. by rewrite lookup_insert_ne.
    + intros acc. apply room_fold_each. apply room_merge_tables.
    + intros [tabs1 diffs1] w1 f1 L1 (fs1 & Hf & HT1 & Hs1 & Ed & Hother). cbn [fst snd] in *. subst diffs1.
      eapply upd_perm; [symmetry; exact Hf|]. eapply upd_weaken; [|apply (IH w1 tabs1 _ fs1 _ HT1 Hnd)].
      * intros [tabs2 diffs2] w2 f2 _ (fs2 & Hf2 & HT2 & Hs2 & Ed2). cbn [fst snd] in *. exists fs2. split_and!; try done; [by etrans|].
        rewrite Ed2, (diffs_of_other C id ops l Hn), <- app_assoc. f_equal. unfold diffs_of. simpl. by destruct (if bool_decide _ then _ else _).
      * rewrite Forall_forall in *. intros [id' ops'] Hin. destruct (Hl _ Hin) as [->|(ts & R & E1 & E2 & Hok)]; [by left|].
        assert (id' <> id) by (intros ->; apply Hn; apply list_elem_of_fmap; by exists (id, ops')).
        right. exists ts, R. simpl in *. rewrite Hother by done. unfold apply_ops. simpl. by rewrite lookup_alter_ne.
Qed.
End tables.

(** * The invariant *)

Record VersionState (T X : Type) : Type := {
  vs_tables : gmap TableId (TableState T X);
  vs_content : contents;
  vs_pages : gmap TableId (list Page);
}.
Arguments vs_tables {T X} _.
Arguments vs_content {T X} _.
Arguments vs_pages {T X} _.
Arguments Build_VersionState {T X} _ _ _.

Section inv.
Context {W T X B : Type} {KT : KvTree W T} {KL : KvTreeLaws W T} {RC : RowCodec} {RL : RowCodecLaws}.
Context {SI : SideIndex W X} {SL : SideIndexLaws W T X} {BS : BlobStore B}.
Notation Store := (MemStore W T X B).
Notation versions := (gmap Z (VersionState T X)).

Definition one_if (P : Prop) `{Decision P} : Z := if decide P then 1 else 0.

(** Entries of the temporal window that hold version [v]. *)
Fixpoint window_count (v : Z) (h : list (Z * Z * CommittedState T X)) : Z :=
  match h with [] => 0 | e :: h => one_if (cs_version e.2 = v) + window_count v h end.

Definition vs_ok (w : W) (s : VersionState T X) : Prop :=
  tables_is w (vs_tables s) (vs_content s) (vs_pages s) /\ NoDup (fp (vs_pages s)) /\ Forall (kt_used w) (fp (vs_pages s)).

(** [rd v] counts the holders of [v] outside the store: transactions and
    snapshots. [S] gives the state of every version still held. *)
Record store_inv (ms : Store) (rd : Z -> Z) (S : versions) : Prop := {
  si_world : kt_ok (ms_world ms);
  si_readers : forall v, 0 <= rd v;
  si_arcs : forall v, default 0 (ms_arcs ms !! v) =
    one_if (cs_version (ms_committed ms) = v) + window_count v (ms_history ms) + rd v;
  si_pos : forall v n, ms_arcs ms !! v = Some n -> 0 < n;
  si_live : forall v, live (ms_reclaimer ms) !! v = (fun _ => 1) <$> ms_arcs ms !! v;
  si_dom : forall v, is_Some (S !! v) <-> is_Some (ms_arcs ms !! v);
  si_states : forall v s, S !! v = Some s -> vs_ok (ms_world ms) s;
  si_garbage : forall k l, garbage (ms_reclaimer ms) !! k = Some l -> k <= cs_version (ms_committed ms) /\
    Forall (kt_used (ms_world ms)) l /\
    forall v s p, S !! v = Some s -> k <= v -> p ∈ l -> p ∉ fp (vs_pages s);
  si_current : exists s, S !! cs_version (ms_committed ms) = Some s /\ vs_tables s = cs_tables (ms_committed ms);
  si_window : forall e, e ∈ ms_history ms -> exists s, S !! cs_version e.2 = Some s /\ vs_tables s = cs_tables e.2;
  si_next : forall v, is_Some (S !! v) -> v <= cs_version (ms_committed ms) < next_version (ms_writer ms);
}.

Lemma window_count_nonneg v h : 0 <= window_count v h.
Proof using Type. induction h as [|e h IH]; simpl; [done|]. unfold one_if. destruct (decide _); lia. Qed.

Lemma window_count_app v h h' : window_count v (h ++ h') = window_count v h + window_count v h'.
Proof using Type. induction h as [|e h IH]; simpl; [done|]. rewrite IH. lia. Qed.

Lemma window_count_in e h : e ∈ h -> 0 < window_count (cs_version e.2) h.
Proof using Type.
  induction h as [|e' h IH]; [by intros ?%elem_of_nil|]. intros Hin. apply elem_of_cons in Hin as [->|Hin]; simpl; unfold one_if.
  - rewrite decide_True by done. pose proof (window_count_nonneg (cs_version e'.2) h). lia.
  - specialize (IH Hin). destruct (decide _); lia.
Qed.

Lemma one_if_true (P : Prop) `{Decision P} : P -> one_if P = 1.
Proof using Type. intros HP. unfold one_if. by rewrite decide_True. Qed.
Lemma one_if_nonneg (P : Prop) `{Decision P} : 0 <= one_if P.
Proof using Type. unfold one_if. destruct (decide P); lia. Qed.

Lemma store_inv_ext ms rd rd' S : (forall v, rd v = rd' v) -> store_inv ms rd S -> store_inv ms rd' S.
Proof using Type.
  intros E []. split; auto; intros v; rewrite <- E; auto.
Qed.

(** The pages of a version survive a change of the world that keeps them. *)
Definition keeps (w w' : W) (s : VersionState T X) : Prop :=
  forall t M f, (forall p, p ∈ f -> p ∈ fp (vs_pages s)) -> kt_is w t M f -> kt_is w' t M f.

Lemma fp_elem (fs : gmap TableId (list Page)) (id : TableId) g p : fs !! id = Some g -> p ∈ g -> p ∈ fp fs.
Proof using Type. intros E Hp. rewrite (fp_split fs id g E). apply elem_of_app. by left. Qed.

Lemma concat_elem (l : list (list Page)) g p : g ∈ l -> p ∈ g -> p ∈ concat l.
Proof using Type. intros Hg Hp. apply list_elem_of_In, in_concat. exists g. by rewrite <- !list_elem_of_In. Qed.

Lemma table_is_keeps w w' (ts : TableState T X) R g : (forall t M f, (forall p, p ∈ f -> p ∈ g) -> kt_is w t M f -> kt_is w' t M f) ->
  table_is w ts R g -> table_is w' ts R g.
Proof using Type.
  intros Hk [(fr & fi & fu & Hf & (Hr & HrR) & HI & HU & Hs) HR]. split; [|done]. exists fr, fi, fu. split; [done|].
  split; [split; [|done]|split; [|split; [|done]]].
  - eapply Hk; [|exact Hr]. intros p Hp. rewrite Hf. apply elem_of_app. by left.
  - assert (forall g', g' ∈ fi -> forall p, p ∈ g' -> p ∈ g) as Hin.
    { intros g' Hg p Hp. rewrite Hf, !elem_of_app. right. left. by eapply concat_elem. }
    clear -Hk HI Hin. induction HI as [|i g' l fi (M & Ht & HM) _ IH]; constructor; [|apply IH; intros g0 Hg0; apply Hin; by right].
    exists M. split; [|done]. eapply Hk; [|exact Ht]. apply Hin. by left.
  - assert (forall g', g' ∈ fu -> forall p, p ∈ g' -> p ∈ g) as Hin.
    { intros g' Hg p Hp. rewrite Hf, !elem_of_app. right. right. by eapply concat_elem. }
    clear -Hk HU Hin. induction HU as [|i g' l fu (M & Ht & HM) _ IH]; constructor; [|apply IH; intros g0 Hg0; apply Hin; by right].
    exists M. split; [|done]. eapply Hk; [|exact Ht]. apply Hin. by left.
Qed.

Lemma vs_keeps w w' s : keeps w w' s -> (forall p, kt_used w p -> kt_used w' p) -> vs_ok w s -> vs_ok w' s.
Proof using Type.
  intros Hk Hu (HT & Hnd & Hf). split; [|split; [done|by eapply Forall_impl]].
  intros id. specialize (HT id). destruct (vs_tables s !! id) as [ts|]; [|done].
  destruct HT as (R & g & E1 & E2 & Ht). exists R, g. split_and!; try done.
  eapply table_is_keeps; [|exact Ht]. intros t M f Hp. apply Hk. intros p Hpf. eapply fp_elem; [exact E2|auto].
Qed.

(** A collection keeps every version that is held. *)
Lemma collect_inv ms rd S : store_inv ms rd S ->
  exists i' w', collect_pages (ms_reclaimer ms, ms_world ms) = (Ok tt, (i', w')) /\
    store_inv (set_reclaim ms i' w' (ms_arcs ms)) rd S /\ (forall q, kt_used w' q <-> kt_used (ms_world ms) q).
Proof using KL.
  intros I. destruct (collect_spec (ms_reclaimer ms) (ms_world ms) (si_world _ _ _ I)) as (w' & E & Hok & _ & Hu & Hi).
  eexists _, w'. split; [exact E|]. split; [|done]. destruct I. split; simpl; auto.
  - intros v s Hs. eapply (vs_keeps (ms_world ms)); [|intros p; by rewrite Hu|exact (si_states0 v s Hs)].
    intros t M f Hf Ht. eapply (Hi v); [exact Ht| |].
    + rewrite si_live0. apply fmap_is_Some, si_dom0. by exists s.
    + intros k l p Hk Hkv Hp Hpf. destruct (si_garbage0 k l Hk) as (_ & _ & Hg). eapply Hg; eauto.
  - intros k l Hk%kept_sub. destruct (si_garbage0 k l Hk) as (H1 & H2 & H3). split_and!; try done.
    eapply Forall_impl; [exact H2|]. intros p. by rewrite Hu.
Qed.

(** ** Taking and releasing a version *)

Definition add_rd (v n : Z) (rd : Z -> Z) : Z -> Z := fun u => rd u + (if decide (u = v) then n else 0).

Lemma arc_clone_inv ms rd S v : store_inv ms rd S -> is_Some (S !! v) -> store_inv (arc_clone v ms) (add_rd v 1 rd) S.
Proof using Type.
  intros [] Hv. assert (is_Some (ms_arcs ms !! v)) as [n En] by by apply si_dom0.
  split; simpl; auto; unfold add_rd.
  - intros u. specialize (si_readers0 u). destruct (decide (u = v)); lia.
  - intros u. specialize (si_arcs0 u). destruct (decide (u = v)) as [->|]; [rewrite lookup_insert_eq; simpl; lia|].
    rewrite lookup_insert_ne by done. lia.
  - intros u m. destruct (decide (u = v)) as [->|]; [|rewrite lookup_insert_ne by done; apply si_pos0].
    rewrite lookup_insert_eq. intros [= <-]. specialize (si_pos0 v n En). rewrite En. simpl. lia.
  - intros u. rewrite si_live0. destruct (decide (u = v)) as [->|]; [by rewrite lookup_insert_eq, En|by rewrite lookup_insert_ne].
  - intros u. rewrite si_dom0. destruct (decide (u = v)) as [->|]; [rewrite lookup_insert_eq, En; split; by eexists|by rewrite lookup_insert_ne].
Qed.

(** Dropping a holder; the versions that still have one keep their state. *)
Lemma arc_drop_inv ms rd S v : store_inv ms rd S -> 0 < rd v -> exists i w arcs S',
  arc_drop v ms = set_reclaim ms i w arcs /\ store_inv (set_reclaim ms i w arcs) (add_rd v (-1) rd) S' /\
  S' ⊆ S /\ (forall u, u <> v -> S' !! u = S !! u) /\ (forall q, kt_used w q <-> kt_used (ms_world ms) q).
Proof using KL.
  intros I Hv. pose proof (si_arcs _ _ _ I v) as Harc. pose proof (window_count_nonneg v (ms_history ms)) as Hw.
  pose proof (one_if_nonneg (cs_version (ms_committed ms) = v)) as H1.
  destruct (ms_arcs ms !! v) as [n|] eqn:En; simpl in Harc; [|lia]. unfold arc_drop. rewrite En. change (default 0 (Some n)) with n. cbv zeta.
  assert (forall u, 0 <= add_rd v (-1) rd u) as Hrd.
  { intros u. pose proof (si_readers _ _ _ I u). unfold add_rd. destruct (decide (u = v)) as [->|]; lia. }
  destruct (n - 1 =? 0) eqn:Ez.
  - apply Z.eqb_eq in Ez.
    set (ms1 := set_reclaim ms {| garbage := garbage (ms_reclaimer ms); live := unpin_live v (live (ms_reclaimer ms));
                                   pending_pages := pending_pages (ms_reclaimer ms) |} (ms_world ms) (delete v (ms_arcs ms))).
    assert (cs_version (ms_committed ms) <> v) as Hc by (intros E; rewrite one_if_true in Harc by done; lia).
    assert (store_inv ms1 (add_rd v (-1) rd) (delete v S)) as I1.
    { destruct I. split; simpl; auto.
      - intros u. specialize (si_arcs0 u). unfold add_rd. destruct (decide (u = v)) as [->|]; [rewrite lookup_delete_eq; simpl; lia|].
        rewrite lookup_delete_ne by done. lia.
      - intros u m [_ Hu]%lookup_delete_Some. by eapply si_pos0.
      - intros u. unfold unpin_live. rewrite si_live0, En. simpl.
        destruct (decide (u = v)) as [->|]; [by rewrite !lookup_delete_eq|by rewrite !lookup_delete_ne, si_live0].
      - intros u. destruct (decide (u = v)) as [->|]; [by rewrite !lookup_delete_eq|by rewrite !lookup_delete_ne].
      - intros u s [_ Hs]%lookup_delete_Some. by eapply si_states0.
      - intros k l Hk. destruct (si_garbage0 k l Hk) as (G1 & G2 & G3). split_and!; try done.
        intros u s p [_ Hs]%lookup_delete_Some. by eapply G3.
      - destruct si_current0 as (s & Es & Et). exists s. by rewrite lookup_delete_ne.
      - intros e He. destruct (si_window0 e He) as (s & Es & Et). exists s. rewrite lookup_delete_ne; [done|].
        intros Ev. pose proof (window_count_in e _ He). rewrite <- Ev in H. lia.
      - intros u Hu. apply si_next0. destruct Hu as [s [_ Hs]%lookup_delete_Some]. by exists s. }
    destruct (collect_inv ms1 _ _ I1) as (i' & w' & E & I2 & Hu).
    assert (unpin v (ms_reclaimer ms, ms_world ms) = (Ok tt, (i', w'))) as -> by exact E.
    exists i', w', (delete v (ms_arcs ms)), (delete v S). split_and!; [done|exact I2|apply delete_subseteq| |exact Hu].
    intros u Hne. by rewrite lookup_delete_ne.
  - apply Z.eqb_neq in Ez. eexists _, _, _, S. split; [reflexivity|]. split_and!; [|done|done|done].
    assert (0 < n) by by eapply (si_pos _ _ _ I). destruct I. split; simpl; auto.
    + intros u. specialize (si_arcs0 u). unfold add_rd. destruct (decide (u = v)) as [->|]; [rewrite lookup_insert_eq; simpl; lia|].
      rewrite lookup_insert_ne by done. lia.
    + intros u m. destruct (decide (u = v)) as [->|]; [|rewrite lookup_insert_ne by done; apply si_pos0].
      rewrite lookup_insert_eq. intros [= <-]. lia.
    + intros u. rewrite si_live0. destruct (decide (u = v)) as [->|]; [by rewrite lookup_insert_eq, En|by rewrite lookup_insert_ne].
    + intros u. rewrite si_dom0. destruct (decide (u = v)) as [->|]; [rewrite lookup_insert_eq, En; split; by eexists|by rewrite lookup_insert_ne].
Qed.

Fixpoint drop_count (v : Z) (l : list (CommittedState T X)) : Z :=
  match l with [] => 0 | cs :: l => one_if (cs_version cs = v) + drop_count v l end.

Lemma drop_count_app v l k : drop_count v (l ++ k) = drop_count v l + drop_count v k.
Proof using Type. induction l as [|cs l IH]; simpl; [done|]. rewrite IH. lia. Qed.

Lemma drop_count_window v h : drop_count v (map snd h) = window_count v h.
Proof using Type. induction h as [|e h IH]; simpl; [done|]. by rewrite IH. Qed.

Lemma drop_count_nonneg v l : 0 <= drop_count v l.
Proof using Type. induction l as [|cs l IH]; simpl; [done|]. pose proof (one_if_nonneg (cs_version cs = v)). lia. Qed.

Lemma drop_all_inv l : forall ms rd S, store_inv ms (fun v => rd v + drop_count v l) S -> (forall v, 0 <= rd v) ->
  exists i w arcs S', fold_left (fun ms cs => arc_drop (cs_version cs) ms) l ms = set_reclaim ms i w arcs /\
    store_inv (set_reclaim ms i w arcs) rd S' /\ S' ⊆ S.
Proof using KL.
  induction l as [|cs l IH]; intros ms rd S I Hrd; simpl.
  - exists (ms_reclaimer ms), (ms_world ms), (ms_arcs ms), S. destruct ms. split; [done|]. split; [|done].
    eapply store_inv_ext; [|exact I]. intros v. simpl. lia.
  - destruct (arc_drop_inv ms _ S (cs_version cs) I) as (i & w & arcs & S1 & E & I1 & Hsub & _).
    { pose proof (Hrd (cs_version cs)). pose proof (drop_count_nonneg (cs_version cs) l).
      pose proof (one_if_true (cs_version cs = cs_version cs) eq_refl) as E1. cbn [drop_count]. rewrite E1. lia. }
    rewrite E. destruct (IH (set_reclaim ms i w arcs) rd S1) as (i' & w' & arcs' & S2 & E2 & I2 & Hsub2); [|done|].
    { eapply store_inv_ext; [|exact I1]. intros v. unfold add_rd. cbn [drop_count]. unfold one_if.
      destruct (decide (v = cs_version cs)), (decide (cs_version cs = v)); try congruence; lia. }
    exists i', w', arcs', S2. split_and!; [done|done|by etrans].
Qed.

(** ** Publishing a state *)

Lemma publish_versioned_inv ms rd S s : store_inv ms rd S -> next_version (ms_writer ms) < u_max 64 -> vs_ok (ms_world ms) s ->
  (forall k l p, garbage (ms_reclaimer ms) !! k = Some l -> p ∈ l -> p ∉ fp (vs_pages s)) ->
  exists i w arcs S', publish_versioned (vs_tables s) ms =
      (Build_CommittedState (vs_tables s) (next_version (ms_writer ms)),
       set_reclaim (set_committed (set_writer ms {| next_tx_id := next_tx_id (ms_writer ms);
         next_version := next_version (ms_writer ms) + 1; counters := counters (ms_writer ms);
         high_water_dirty := high_water_dirty (ms_writer ms) |})
         (Build_CommittedState (vs_tables s) (next_version (ms_writer ms)))) i w arcs) /\
    store_inv (publish_versioned (vs_tables s) ms).2 (add_rd (next_version (ms_writer ms)) 1 rd) S' /\
    S' ⊆ <[next_version (ms_writer ms) := s]> S /\ S' !! next_version (ms_writer ms) = Some s /\
    (forall q, kt_used w q <-> kt_used (ms_world ms) q).
Proof using KL.
  intros I Hnv Hs Hg. set (nv := next_version (ms_writer ms)) in *. set (old := cs_version (ms_committed ms)).
  assert (old < nv) as Hold by (destruct (si_current _ _ _ I) as (s0 & E0 & _); apply (si_next _ _ _ I old); by exists s0).
  assert (S !! nv = None) as HSn.
  { apply eq_None_not_Some. intros H%(si_next _ _ _ I). fold old nv in H. lia. }
  assert (ms_arcs ms !! nv = None) as Han by (apply eq_None_not_Some; rewrite <- (si_dom _ _ _ I), HSn; by intros []).
  unfold publish_versioned. fold nv old. set (cs := Build_CommittedState (vs_tables s) nv).
  assert (sat_add 64 nv 1 = nv + 1) as -> by (unfold sat_add; lia).
  set (ms1 := set_committed _ cs).
  assert (store_inv ms1 (add_rd old 1 (add_rd nv 1 rd)) (<[nv := s]> S)) as I1.
  { pose proof (si_arcs _ _ _ I nv) as Hcn. rewrite Han in Hcn. simpl in Hcn.
    pose proof (window_count_nonneg nv (ms_history ms)). pose proof (si_readers _ _ _ I nv).
    pose proof (one_if_nonneg (cs_version (ms_committed ms) = nv)).
    destruct I. split; simpl; auto.
    - intros u. specialize (si_readers0 u). unfold add_rd. destruct (decide (u = nv)), (decide (u = old)); lia.
    - intros u. specialize (si_arcs0 u). unfold add_rd. fold old in si_arcs0.
      destruct (decide (u = nv)) as [->|]; [rewrite lookup_insert_eq; simpl|rewrite lookup_insert_ne by done];
        unfold one_if in *; repeat destruct (decide _); subst; try lia.
    - intros u n. destruct (decide (u = nv)) as [->|]; [rewrite lookup_insert_eq; intros [= <-]; lia|].
      rewrite lookup_insert_ne by done. apply si_pos0.
    - intros u. rewrite si_live0, Han. destruct (decide (u = nv)) as [->|]; [by rewrite !lookup_insert_eq|].
      by rewrite !lookup_insert_ne, si_live0.
    - intros u. destruct (decide (u = nv)) as [->|]; [by rewrite !lookup_insert_eq|by rewrite !lookup_insert_ne].
    - intros u s'. destruct (decide (u = nv)) as [->|]; [rewrite lookup_insert_eq; by intros [= <-]|].
      rewrite lookup_insert_ne by done. apply si_states0.
    - intros k l Hk. destruct (si_garbage0 k l Hk) as (G1 & G2 & G3). fold old in G1. split_and!; [lia|done|].
      intros u s' p. destruct (decide (u = nv)) as [->|]; [rewrite lookup_insert_eq; intros [= <-] _; by eapply Hg|].
      rewrite lookup_insert_ne by done. apply G3.
    - exists s. by rewrite lookup_insert_eq.
    - intros e He. destruct (si_window0 e He) as (s' & Es & Et). exists s'. rewrite lookup_insert_ne; [done|]. intros Ev.
      rewrite <- Ev, HSn in Es. done.
    - intros u. destruct (decide (u = nv)) as [->|]; [lia|]. rewrite lookup_insert_ne by done. intros Hu%si_next0.
      fold old in Hu. lia. }
  destruct (arc_drop_inv ms1 _ _ old I1) as (i & w & arcs & S' & E & I2 & Hsub & Hoth & Hu).
  { pose proof (si_readers _ _ _ I old). unfold add_rd. destruct (decide (old = old)), (decide (old = nv)); try done; lia. }
  exists i, w, arcs, S'. rewrite E. split; [done|]. split_and!.
  - simpl. eapply store_inv_ext; [|exact I2]. intros v. unfold add_rd. repeat destruct (decide _); lia.
  - done.
  - rewrite Hoth by lia. by rewrite lookup_insert_eq.
  - exact Hu.
Qed.

Lemma retire_inv ms rd S s pages : store_inv ms rd S -> S !! cs_version (ms_committed ms) = Some s ->
  Forall (kt_used (ms_world ms)) pages -> (forall p, p ∈ pages -> p ∉ fp (vs_pages s)) ->
  exists i w, retire (cs_version (ms_committed ms)) pages (ms_reclaimer ms, ms_world ms) = (Ok tt, (i, w)) /\
    store_inv (set_reclaim ms i w (ms_arcs ms)) rd S.
Proof using KL.
  intros I Hs Hu Hd. set (nv := cs_version (ms_committed ms)) in *. destruct pages as [|p0 pages0].
  { destruct (collect_inv ms rd S I) as (i & w & E & I1 & _). by exists i, w. }
  set (pages := p0 :: pages0) in *.
  set (ms1 := set_reclaim ms {| garbage := <[nv := default [] (garbage (ms_reclaimer ms) !! nv) ++ pages]> (garbage (ms_reclaimer ms));
    live := live (ms_reclaimer ms); pending_pages := pending_pages (ms_reclaimer ms) + Z.of_nat (length pages) |} (ms_world ms) (ms_arcs ms)).
  assert (store_inv ms1 rd S) as I1.
  { assert (forall v s', S !! v = Some s' -> nv <= v -> s' = s) as Htop.
    { intros v s' Hv Hle. assert (v <= nv) by (apply (si_next _ _ _ I); by exists s'). assert (v = nv) as -> by lia. congruence. }
    destruct I. split; simpl; auto. intros k l. destruct (decide (k = nv)) as [->|]; [|rewrite lookup_insert_ne by done; apply si_garbage0].
    rewrite lookup_insert_eq. intros [= <-]. split; [done|]. destruct (garbage (ms_reclaimer ms) !! nv) as [l0|] eqn:E0; simpl.
    - destruct (si_garbage0 _ _ E0) as (G1 & G2 & G3). split; [by apply Forall_app|]. intros v s' p Hv Hle [Hp|Hp]%elem_of_app; [by eapply G3|].
      rewrite (Htop _ _ Hv Hle). by apply Hd.
    - split; [done|]. intros v s' p Hv Hle Hp. rewrite (Htop _ _ Hv Hle). by apply Hd. }
  destruct (collect_inv ms1 rd S I1) as (i & w & E & I2 & _). exists i, w. split; [exact E|exact I2].
Qed.

(** ** The temporal window *)

Lemma trim_count_split n (h : list (Z * Z * CommittedState T X)) : exists pre, h = pre ++ (trim_count n h).1 /\ (trim_count n h).2 = map snd pre.
Proof using Type.
  induction h as [|e h IH]; [by exists []|]. cbn [trim_count]. destruct (n <? length (e :: h))%nat; [|by exists []].
  destruct IH as (pre & E1 & E2). destruct (trim_count n h) as [h' d]. simpl in *. exists (e :: pre). by rewrite E1 at 1; rewrite E2.
Qed.

Lemma trim_bytes_split (ms : Store) h : exists pre, h = pre ++ (trim_bytes ms h).1 /\ (trim_bytes ms h).2 = map snd pre.
Proof using Type.
  unfold trim_bytes. destruct (_ <? _); [exists h; by rewrite app_nil_r|by exists []].
Qed.

Lemma set_history_inv ms rd rd' S h n : store_inv ms rd S -> (forall v, 0 <= rd' v) ->
  (forall v, window_count v h + rd' v = window_count v (ms_history ms) + rd v) ->
  (forall e, e ∈ h -> exists s, S !! cs_version e.2 = Some s /\ vs_tables s = cs_tables e.2) ->
  store_inv (set_history ms h n) rd' S.
Proof using Type. intros [] Hrd Hc Hh. split; simpl; auto. intros v. rewrite si_arcs0. specialize (Hc v). lia. Qed.

(** The window after a commit: without a window nothing is recorded, otherwise
    the commit is added and the oldest entries may go. *)
Definition retained (env : StoreEnv) (h : list (Z * Z * CommittedState T X)) (id now : Z) (cs : CommittedState T X)
    (h' : list (Z * Z * CommittedState T X)) : Prop :=
  temporal_window (options env) = 0%nat /\ h' = h \/
  temporal_window (options env) <> 0%nat /\ h' `suffix_of` h ++ [(id, now, cs)] /\ (length h' <= temporal_window (options env))%nat.

Lemma trim_count_length n (h : list (Z * Z * CommittedState T X)) : (length (trim_count n h).1 <= n)%nat.
Proof using Type.
  induction h as [|e h IH]; [simpl; lia|]. cbn [trim_count]. destruct (Nat.ltb_spec n (length (e :: h))); [|done].
  by destruct (trim_count n h).
Qed.

Lemma retain_inv ms rd S cs id now : store_inv ms (add_rd (cs_version cs) 1 rd) S -> (forall v, 0 <= rd v) ->
  (exists s, S !! cs_version cs = Some s /\ vs_tables s = cs_tables cs) ->
  exists i w arcs h n S', retain_in_temporal_window id now cs ms = set_reclaim (set_history ms h n) i w arcs /\
    store_inv (set_reclaim (set_history ms h n) i w arcs) rd S' /\ S' ⊆ S /\ retained (ms_env ms) (ms_history ms) id now cs h.
Proof using KL.
  intros I Hrd Hcs. unfold retain_in_temporal_window, retained. destruct (Nat.eqb_spec (temporal_window (options (ms_env ms))) 0) as [Ew|Ew].
  - destruct (arc_drop_inv ms _ S (cs_version cs) I) as (i & w & arcs & S' & E & I1 & Hsub & _).
    { unfold add_rd. rewrite decide_True by done. specialize (Hrd (cs_version cs)). lia. }
    exists i, w, arcs, (ms_history ms), 0, S'. rewrite E.
    assert (set_history ms (ms_history ms) 0 = ms) as -> by (destruct ms; unfold set_history; simpl; by rewrite Z.add_0_r).
    split; [done|]. split; [|split; [done|by left]]. eapply store_inv_ext; [|exact I1]. intros v. unfold add_rd. destruct (decide _); lia.
  - set (h0 := ms_history ms ++ [(id, now, cs)]).
    destruct (trim_count_split (temporal_window (options (ms_env ms))) h0) as (pre & Eh & Ed).
    pose proof (trim_count_length (temporal_window (options (ms_env ms))) h0) as Hlen.
    destruct (trim_count _ h0) as [h1 d1]. simpl in Eh, Ed, Hlen.
    destruct (trim_bytes_split ms h1) as (pre2 & Eh2 & Ed2). destruct (trim_bytes ms h1) as [h2 d2]. simpl in Eh2, Ed2.
    destruct (drop_all_inv (d1 ++ d2) (set_history ms h2 (Z.of_nat (length d2))) rd S) as (i & w & arcs & S' & E & I1 & Hsub); [|done|].
    + eapply set_history_inv; [exact I| | |].
      * intros v. specialize (Hrd v). pose proof (drop_count_nonneg v (d1 ++ d2)). lia.
      * intros v. rewrite drop_count_app, Ed, Ed2, !drop_count_window.
        assert (window_count v h0 = window_count v pre + (window_count v pre2 + window_count v h2)) as E
          by (rewrite Eh, Eh2, !window_count_app; lia).
        unfold h0 in E. rewrite window_count_app in E. simpl in E. unfold add_rd, one_if in *.
        destruct (decide (v = cs_version cs)), (decide (cs_version cs = v)); try congruence; lia.
      * intros e He. assert (e ∈ h0) as Hin by (rewrite Eh, Eh2, !elem_of_app; auto).
        unfold h0 in Hin. rewrite elem_of_app, list_elem_of_singleton in Hin. destruct Hin as [Hin| ->]; [by apply (si_window _ _ _ I)|done].
    + exists i, w, arcs, h2, (Z.of_nat (length d2)), S'. rewrite E. split; [done|]. split; [done|]. split; [done|]. right. split; [done|]. split.
      * exists (pre ++ pre2). by rewrite Eh, Eh2, app_assoc.
      * rewrite Eh2, length_app in Hlen. lia.
Qed.
End inv.
