(* ===== verification/CommitSpec.v ===== *)
(** Transactions and commits of the store, against the contents of its tables.

    A commit of valid pending writes succeeds, publishes the overlay as a new
    version with consistent indexes, reports exactly what changed, and leaves
    every version that is still held as it was, with page reclamation running. *)

From stdpp Require Import base list gmap sorting.
From Stdlib Require Import ZArith Lia.
From S2P Require Import Prelude FluxBin Row IndexKey TxState LogRecord PageFormat PagedTree PagedTreeNode PagedTreeRep PagedTreeSpec KvTree TableState TableSpec Reclaim MemStore MergeSpec StoreSpec.

Section commit.
Context {W T X B : Type} {KT : KvTree W T} {KL : KvTreeLaws W T} {RC : RowCodec} {RL : RowCodecLaws}.
Context {SI : SideIndex W X} {SL : SideIndexLaws W T X} {BS : BlobStore B}.
Notation Store := (MemStore W T X B).
Notation versions := (gmap Z (VersionState T X)).

(** * Changes that keep the invariant *)

Lemma world_inv (ms : Store) rd (S : versions) w' : kt_le (ms_world ms) w' -> store_inv ms rd S -> store_inv (set_world ms w') rd S.
Proof using Type.
  intros L []. split; simpl; auto.
  - by eapply kt_le_ok.
  - intros v s Hs. destruct (si_states v s Hs) as (H1 & H2 & H3). split; [by eapply tables_is_le|]. split; [done|].
    eapply Forall_impl; [exact H3|]. intros p. by eapply kt_le_used.
  - intros k l Hk. destruct (si_garbage k l Hk) as (H1 & H2 & H3). split_and!; try done.
    eapply Forall_impl; [exact H2|]. intros p. by eapply kt_le_used.
Qed.

Lemma writer_inv (ms : Store) rd (S : versions) wr : next_version wr = next_version (ms_writer ms) ->
  store_inv ms rd S -> store_inv (set_writer ms wr) rd S.
Proof using Type. intros E []. split; simpl; auto. intros v Hv. rewrite E. auto. Qed.

Lemma blobs_inv (ms : Store) rd (S : versions) b : store_inv ms rd S -> store_inv (set_blobs ms b) rd S.
Proof using Type. intros []. by split. Qed.

(** * Auto-increment marks *)

Definition table_mark (cs : gmap TableId AutoIncCounter) (id : TableId) : Z :=
  match cs !! id with Some c => high_water c | None => 0 end.

Definition frame_of (ts : TableState T X) : TableInfo * Shape := (schema ts, shape ts).

(** The marks of the dirty tables are those of their counters. *)
Definition marked (cs : gmap TableId AutoIncCounter) (dirty : TableId -> Prop) (tabs tabs' : gmap TableId (TableState T X)) : Prop := forall id,
  match tabs !! id, tabs' !! id with
  | Some ts, Some ts' => schema ts' = schema ts /\ (dirty id -> auto_inc_high_water ts' = table_mark cs id) /\ (~ dirty id -> auto_inc_high_water ts' = auto_inc_high_water ts)
  | None, None => True
  | _, _ => False
  end.

Lemma publish_marks_spec cs w dirty : forall tabs C fs, tables_is w tabs C fs -> Forall (fun id => is_Some (tabs !! id)) dirty ->
  exists tabs', publish_marks cs dirty tabs = Ok (tabs', map (fun id => (id, table_mark cs id)) dirty) /\
    tables_is w tabs' C fs /\ (forall id, frame_of <$> tabs' !! id = frame_of <$> tabs !! id) /\ marked cs (fun id => id ∈ dirty) tabs tabs'.
Proof using Type.
  induction dirty as [|id dirty IH]; intros tabs C fs HT Hd; simpl.
  { exists tabs. split_and!; try done. intros id. destruct (tabs !! id); [|done]. split_and!; [done|by intros ?%elem_of_nil|done]. }
  apply Forall_cons in Hd as [[ts Ets] Hd]. rewrite Ets. simpl.
  destruct (tables_is_get _ _ _ _ _ _ HT Ets) as (R & g & EC & Ef & Ht).
  set (ts' := with_high_water ts (table_mark cs id)).
  destruct (IH (<[id := ts']> tabs) C fs) as (tabs' & E & HT' & Hfr & Hmk).
  - intros id'. destruct (decide (id' = id)) as [->|]; [|rewrite lookup_insert_ne by done; apply HT].
    rewrite lookup_insert_eq. exists R, g. by split_and!.
  - eapply Forall_impl; [exact Hd|]. intros id'. rewrite lookup_insert_is_Some. destruct (decide (id = id')); auto.
  - fold (table_mark cs id). fold ts'. rewrite E. simpl. exists tabs'. split_and!; try done.
    + intros id'. rewrite Hfr. destruct (decide (id' = id)) as [->|]; [by rewrite lookup_insert_eq, Ets|by rewrite lookup_insert_ne].
    + intros id'. specialize (Hmk id'). destruct (decide (id' = id)) as [->|Hne].
      * rewrite lookup_insert_eq in Hmk. rewrite Ets. destruct (tabs' !! id) as [t'|]; [|done]. destruct Hmk as (Es & Hin & Hout). split; [done|]. split; [|intros []; by left].
        intros _. destruct (decide (id ∈ dirty)); [by apply Hin|by rewrite Hout].
      * rewrite lookup_insert_ne in Hmk by done. destruct (tabs !! id'), (tabs' !! id'); try done. destruct Hmk as (Es & Hin & Hout). split; [done|]. rewrite elem_of_cons. naive_solver.
Qed.

Lemma same_tables_frame (tabs tabs' : gmap TableId (TableState T X)) id : same_tables tabs tabs' ->
  frame_of <$> tabs' !! id = frame_of <$> tabs !! id.
Proof using Type.
  intros HS. specialize (HS id). unfold frame_of. inversion HS as [ts ts' (E1 & E2 & _) Ea Eb|Ea Eb]; simpl; [|done].
  by rewrite E1, E2.
Qed.

(** * Commit *)

(** A transaction over the current state whose pending writes are valid. *)
Record tx_ok (ms : Store) (rd : Z -> Z) (S : versions) (tx : Tx T X) (C : contents) (fs : gmap TableId (list Page)) : Prop := {
  txo_base : tx_base tx = ms_committed ms;
  txo_held : 0 < rd (cs_version (tx_base tx));
  txo_state : S !! cs_version (tx_base tx) = Some (Build_VersionState (cs_tables (tx_base tx)) C fs);
  txo_version : next_version (tx_writer tx) = next_version (ms_writer ms);
  txo_pending : forall id ops, tables (tx_state tx) !! id = Some ops -> pending_ok (cs_tables (tx_base tx)) C id ops;
  txo_dirty : forall id, id ∈ high_water_dirty (tx_writer tx) -> is_Some (cs_tables (tx_base tx) !! id);
}.

Definition merge_run (tx : Tx T X) (ms : Store) :=
  fold_each merge_tables (cs_tables (tx_base tx), []) (btree_entries (tables (tx_state tx))) (ms_world ms, []).

(** What the merge builds, before it is published. *)
Lemma merge_run_spec ms rd S tx C fs : store_inv ms rd S -> tx_ok ms rd S tx C fs -> kt_room (merge_run tx ms).2.1 ->
  exists tabs w ret fs', merge_run tx ms = (Ok (tabs, diffs_of C (btree_entries (tables (tx_state tx)))), (w, ret)) /\
    kt_le (ms_world ms) w /\ tables_is w tabs (views C (tables (tx_state tx))) fs' /\ same_tables (cs_tables (tx_base tx)) tabs /\
    NoDup (fp fs' ++ ret) /\ Forall (kt_used w) (fp fs' ++ ret) /\
    (forall p, kt_used (ms_world ms) p -> p ∈ fp fs' -> p ∈ fp fs).
Proof using RL SL.
  intros I [Eb Hheld Hst Hv Hp _] Hroom. destruct (si_states _ _ _ I _ _ Hst) as (HT & Hnd & Hu). simpl in *.
  assert (Forall (fun p => pending_ok (cs_tables (tx_base tx)) C p.1 p.2) (btree_entries (tables (tx_state tx)))) as Hpend.
  { apply Forall_forall. intros [id ops] Hin%elem_of_btree_entries. by apply Hp. }
  destruct (merge_all_spec (btree_entries (tables (tx_state tx))) (ms_world ms) (cs_tables (tx_base tx)) C fs [] HT
    (btree_keys_NoDup (tables (tx_state tx))) Hpend (si_world _ _ _ I) [] Hroom) as ([tabs diffs] & w & f' & ret & E & Hstep & fs' & Hf & HT' & Hs & Ed).
  simpl in *. subst diffs. rewrite fold_apply_ops in HT'. exists tabs, w, ret, fs'.
  destruct (step_used _ _ _ _ _ Hstep Hnd Hu) as [Hnd' Hu']. rewrite Hf in Hnd', Hu'.
  split_and!; try done; [apply Hstep|].
  intros p Hpu Hpf. destruct Hstep as [_ (fresh & Hperm & _ & Hfr)]. rewrite Forall_forall in Hfr.
  assert (p ∈ fp fs ++ fresh) as Hin by (rewrite <- Hperm, Hf; apply elem_of_app; by left).
  apply elem_of_app in Hin as [|Hx]; [done|]. by destruct (Hfr _ Hx).
Qed.

(** Publishing what the merge built. *)
Lemma publish_spec (ms : Store) rd (S : versions) s ret : store_inv ms rd S -> next_version (ms_writer ms) < u_max 64 ->
  vs_ok (ms_world ms) s -> NoDup (fp (vs_pages s) ++ ret) -> Forall (kt_used (ms_world ms)) ret ->
  (forall k l p, garbage (ms_reclaimer ms) !! k = Some l -> p ∈ l -> p ∉ fp (vs_pages s)) ->
  exists ms' S', publish (vs_tables s) ret ms = (Ok (Build_CommittedState (vs_tables s) (next_version (ms_writer ms))), ms') /\
    store_inv ms' (add_rd (next_version (ms_writer ms)) 1 rd) S' /\
    S' ⊆ <[next_version (ms_writer ms) := s]> S /\ S' !! next_version (ms_writer ms) = Some s /\
    ms_committed ms' = Build_CommittedState (vs_tables s) (next_version (ms_writer ms)) /\
    next_tx_id (ms_writer ms') = next_tx_id (ms_writer ms) /\ counters (ms_writer ms') = counters (ms_writer ms) /\
    next_version (ms_writer ms') = next_version (ms_writer ms) + 1 /\ high_water_dirty (ms_writer ms') = high_water_dirty (ms_writer ms) /\
    ms_blobs ms' = ms_blobs ms /\ ms_env ms' = ms_env ms /\ ms_history ms' = ms_history ms.
Proof using KL.
  intros I Hnv Hs Hnd Hu Hg. destruct (publish_versioned_inv ms rd S s I Hnv Hs Hg) as (i & w & arcs & S' & E & I' & Hsub & Hnew & Hw).
  unfold publish. rewrite E in I'. rewrite E. simpl in I'. set (ms1 := set_reclaim _ i w arcs) in *.
  destruct (retire_inv ms1 _ S' s ret I' Hnew) as (i' & w' & E' & I2).
  - eapply Forall_impl; [exact Hu|]. intros p. simpl. by rewrite Hw.
  - intros p Hp Hf. apply NoDup_app in Hnd as (_ & Hd & _). by apply (Hd p).
  - cbv beta iota. change (retire _ ret _) with (retire (cs_version (ms_committed ms1)) ret (ms_reclaimer ms1, ms_world ms1)).
    rewrite E'. eexists _, S'. split; [reflexivity|]. split; [exact I2|]. done.
Qed.

Lemma merge_sorted_elem (X0 : gset TableId) id : id ∈ merge_sort Z.le (elements X0) <-> id ∈ X0.
Proof using Type. by rewrite merge_sort_Permutation, elem_of_elements. Qed.

(** Publishing, retaining in the window and counting blob references, the end
    of every commit. *)
Lemma publish_retain_spec (ms : Store) rd (S : versions) s ret id now diffs : store_inv ms rd S -> next_version (ms_writer ms) < u_max 64 ->
  vs_ok (ms_world ms) s -> NoDup (fp (vs_pages s) ++ ret) -> Forall (kt_used (ms_world ms)) ret ->
  (forall k l p, garbage (ms_reclaimer ms) !! k = Some l -> p ∈ l -> p ∉ fp (vs_pages s)) ->
  let nv := next_version (ms_writer ms) in
  exists ms2 ms' S', publish (vs_tables s) ret ms = (Ok (Build_CommittedState (vs_tables s) nv), ms2) /\
    (let ms3 := retain_in_temporal_window id now (Build_CommittedState (vs_tables s) nv) ms2 in
     match ms_blobs ms3 with Some b => set_blobs ms3 (Some (apply_blob_refcounts (ms_env ms3) b diffs)) | None => ms3 end) = ms' /\
    store_inv ms' rd S' /\ S' ⊆ <[nv := s]> S /\ ms_committed ms' = Build_CommittedState (vs_tables s) nv /\
    ms_writer ms' = {| next_tx_id := next_tx_id (ms_writer ms); next_version := nv + 1; counters := counters (ms_writer ms);
                       high_water_dirty := high_water_dirty (ms_writer ms) |} /\
    ms_env ms' = ms_env ms /\ retained (ms_env ms) (ms_history ms) id now (Build_CommittedState (vs_tables s) nv) (ms_history ms').
Proof using KL.
  intros I Hnv Hs Hnd Hu Hg nv.
  destruct (publish_spec ms rd S s ret I Hnv Hs Hnd Hu Hg) as (ms2 & S2 & E2 & I2 & Hsub2 & Hnew2 & Ec & Ewr1 & Ewr2 & Ewr3 & Ewr4 & Ebl & Een & Ehi).
  destruct (retain_inv ms2 rd S2 (Build_CommittedState (vs_tables s) nv) id now) as (i & w3 & arcs & h & n & S3 & E3 & I3 & Hsub3 & Hret);
    [exact I2|apply (si_readers _ _ _ I)|by exists s|].
  set (ms3 := set_reclaim _ i w3 arcs) in *.
  assert (exists b, match ms_blobs ms3 with Some b => set_blobs ms3 (Some (apply_blob_refcounts (ms_env ms3) b diffs)) | None => ms3 end = set_blobs ms3 b) as [b Eb3].
  { destruct (ms_blobs ms3) as [b|] eqn:Eb0; [by eexists|]. exists None. rewrite <- Eb0. by destruct ms3. }
  exists ms2, (set_blobs ms3 b), S3. split; [exact E2|]. cbv zeta. rewrite E3. split; [exact Eb3|]. split; [by apply blobs_inv|].
  split; [by etrans|]. split; [exact Ec|]. split; [|split; [exact Een|rewrite Een, Ehi in Hret; exact Hret]].
  cbn [ms_writer set_reclaim set_blobs set_history ms3]. destruct (ms_writer ms2) as [a1 a2 a3 a4]. simpl in *. unfold nv. by subst.
Qed.

(** The current version of a consistent store is held. *)
Lemma current_state (ms : Store) rd (S S0 : versions) nv s tabs : store_inv ms rd S -> ms_committed ms = Build_CommittedState tabs nv ->
  S ⊆ <[nv := s]> S0 -> S !! nv = Some s.
Proof using Type.
  intros I Ec Hsub. destruct (si_current _ _ _ I) as (s' & Es' & _). rewrite Ec in Es'. simpl in Es'. rewrite Es'. f_equal.
  eapply lookup_weaken in Es'; [|exact Hsub]. rewrite lookup_insert_eq in Es'. by simplify_eq.
Qed.

(** The effect of [commit], in one statement. *)
Lemma commit_spec ms rd S tx C fs now : store_inv ms rd S -> tx_ok ms rd S tx C fs ->
  next_version (tx_writer tx) < u_max 64 -> kt_room (merge_run tx ms).2.1 ->
  let pend := tables (tx_state tx) in
  let nv := next_version (tx_writer tx) in
  exists tabs fs' ms' S', commit tx now ms = (Ok {|
      diff_tx_id := tx_id (tx_state tx); diff_tables := diffs_of C (btree_entries pend);
      diff_auto_inc := map (fun id => (id, table_mark (counters (tx_writer tx)) id))
        (merge_sort Z.le (elements (high_water_dirty (tx_writer tx)))) |}, ms') /\
    store_inv ms' (add_rd (cs_version (tx_base tx)) (-1) rd) S' /\
    ms_committed ms' = Build_CommittedState tabs nv /\
    S' !! nv = Some (Build_VersionState tabs (views C pend) fs') /\
    S' ⊆ <[nv := Build_VersionState tabs (views C pend) fs']> S /\
    (forall id, frame_of <$> tabs !! id = frame_of <$> cs_tables (tx_base tx) !! id) /\
    ms_writer ms' = {| next_tx_id := sat_add 64 (tx_id (tx_state tx)) 1; next_version := nv + 1;
                       counters := counters (tx_writer tx); high_water_dirty := ∅ |} /\
    ms_env ms' = ms_env ms /\ retained (ms_env ms) (ms_history ms) (tx_id (tx_state tx)) now (Build_CommittedState tabs nv) (ms_history ms') /\
    marked (counters (tx_writer tx)) (fun id => id ∈ high_water_dirty (tx_writer tx)) (cs_tables (tx_base tx)) tabs.
Proof using RL SL.
  intros I Hok Hnv Hroom pend nv. destruct (merge_run_spec _ _ _ _ _ _ I Hok Hroom) as
    (tabs & w & ret & fs' & Em & L & HT & Hsame & Hnd & Hu & Hreuse). pose proof Hok as [Eb Hheld Hst Hv _ Hdirty].
  unfold commit. fold (merge_run tx ms). rewrite Em.
  destruct (publish_marks_spec (counters (tx_writer tx)) w (merge_sort Z.le (elements (high_water_dirty (tx_writer tx)))) tabs
    (views C pend) fs' HT) as (tabs' & Ep & HT' & Hfr & Hmk).
  { apply Forall_forall. intros id Hid%merge_sorted_elem%Hdirty. specialize (Hsame id). destruct Hid as [ts Ets]. rewrite Ets in Hsame.
    inversion Hsame. by eexists. }
  cbn [counters high_water_dirty next_tx_id next_version]. rewrite Ep.
  set (ms1 := set_writer (set_writer (set_world ms w) (tx_writer tx)) _).
  assert (store_inv ms1 rd S) as I1 by (apply writer_inv; [done|]; apply writer_inv; [done|]; by apply world_inv).
  set (s := Build_VersionState tabs' (views C pend) fs').
  apply Forall_app in Hu as [Hu1 Hu2]. pose proof Hnd as (Hnd1 & _ & _)%NoDup_app.
  destruct (publish_retain_spec ms1 rd S s ret (tx_id (tx_state tx)) now (diffs_of C (btree_entries pend)) I1 Hnv) as (ms2 & ms3 & S3 & E2 & E3 & I3 & Hsub3 & Ec & Ewr & Een & Hret);
    [done|done|done| |].
  { intros k l p Hk Hp Hpf. destruct (si_garbage _ _ _ I k l Hk) as (Hkv & Hul & Hdis). rewrite Forall_forall in Hul.
    eapply Hdis; [exact Hst|by rewrite Eb|exact Hp|]. apply Hreuse; [by apply Hul|done]. }
  change (next_version (ms_writer ms1)) with nv in *. cbn [vs_tables s] in E2, E3, Ec. rewrite E2. fold pend. cbv zeta in E3. rewrite E3.
  destruct (arc_drop_inv ms3 rd S3 (cs_version (tx_base tx)) I3 Hheld) as (i4 & w4 & arcs4 & S4 & E4 & I4 & Hsub4 & Hoth4 & _).
  rewrite E4. exists tabs', fs'. eexists _, S4. split; [reflexivity|]. split; [exact I4|]. split; [exact Ec|].
  assert (S4 ⊆ <[nv := s]> S) as Hsub by (by etrans). split; [by eapply current_state|]. split; [exact Hsub|].
  split; [intros id; rewrite Hfr; by apply same_tables_frame|]. split; [exact Ewr|]. split; [exact Een|]. split; [exact Hret|].
  intros id. specialize (Hmk id). specialize (Hsame id). inversion Hsame as [ts ts' (E1 & _ & _ & E5) Ea Eb'|Ea Eb']; rewrite <- Ea, <- Eb' in *; [|done].
  destruct (tabs' !! id); [|done]. destruct Hmk as (Es & Hin & Hout). rewrite merge_sorted_elem in Hin, Hout. split_and!; [congruence|done|]. intros Hn. by rewrite Hout.
Qed.
End commit.
