(* ===== verification/Replica.v ===== *)
(** Replicated commits: [apply_replica_record] and [apply_replicated_diff] of
    [crates/fluxum-core/src/store/memstore.rs].

    A replica applies the deletes of each mutation and then its inserts, with
    the index maintenance of a commit, and publishes the result under the
    record's transaction id. A replica that holds the primary's contents and
    applies the record of a primary commit holds the primary's contents again
    and reports the primary's diff. *)

From stdpp Require Import base list gmap sorting.
From Stdlib Require Import ZArith Lia.
From S2P Require Import Prelude FluxBin Row IndexKey TxState LogRecord PageFormat PagedTree PagedTreeNode PagedTreeRep PagedTreeWrite PagedTreeSpec KvTree TableState TableSpec Reclaim MemStore MergeSpec StoreSpec CommitSpec.

(** * Applying mutations *)

Section mutations.
Context {W T X : Type} `{KvTree W T} `{RowCodec} `{SideIndex W X}.
Notation St := (W * list Page)%type.
Notation MM := (SM St StoreError).

(** Take the index entries of a row that left the table out. *)
Definition retire_entries (ts : TableState T X) (existing : row) (pk : list Z) : MM (TableState T X) :=
  map_unique (fun c => unique_remove c existing pk) ts ≫= fun ts =>
  map_indexes (fun i => index_remove i existing pk) ts ≫= fun ts =>
  side_remove_all ts existing pk.

Definition apply_delete (acc : TableState T X * list (list Z * row)) (pk : list Z) : MM (TableState T X * list (list Z * row)) :=
  take_row acc.1 pk ≫= fun '(prev, ts) =>
  match prev with
  | Some existing => retire_entries ts existing pk ≫= fun ts => mret (ts, acc.2 ++ [(pk, existing)])
  | None => mret (ts, acc.2)
  end.

Definition apply_insert (sch : TableSchema) (acc : TableState T X * list row) (r : row) : MM (TableState T X * list row) :=
  sm_lift (map_err RowError (encode_pk_of_row sch r)) ≫= fun pk =>
  put_row acc.1 pk r ≫= fun '(prev, ts) =>
  match prev with Some existing => retire_entries ts existing pk | None => mret ts end ≫= fun ts =>
  map_indexes (fun i => index_insert i r pk) ts ≫= fun ts =>
  map_unique (fun c => unique_insert c r pk) ts ≫= fun ts =>
  side_insert_all ts r pk ≫= fun ts =>
  mret (ts, acc.2 ++ [r]).

Definition apply_mutation (env : StoreEnv) (acc : gmap TableId (TableState T X) * list TableDiff) (m : TableMutation)
    : MM (gmap TableId (TableState T X) * list TableDiff) :=
  let '(tabs, diffs) := acc in
  let id := tm_table_id m in
  sm_lift (from_option (UnknownTable id) (catalog env !! id)) ≫= fun info =>
  sm_lift (from_option (TouchedTableMissing id) (tabs !! id)) ≫= fun ts =>
  fold_each apply_delete (ts, []) (delete_pks m) ≫= fun '(ts, deletes) =>
  sm_lift (map_err LogValueFailed (insert_rows m)) ≫= fun rs =>
  fold_each (apply_insert (ti_schema info)) (ts, []) rs ≫= fun '(ts, inserts) =>
  mret (<[id := ts]> tabs, diffs ++ [{| td_table_id := id; td_inserts := inserts; td_deletes := deletes |}]).

(** Global tables of a diff; every other table of it is skipped. *)
Definition apply_table_diff (env : StoreEnv) (acc : gmap TableId (TableState T X) * bool) (d : TableDiff)
    : MM (gmap TableId (TableState T X) * bool) :=
  let '(tabs, touched) := acc in
  let id := td_table_id d in
  match catalog env !! id, tabs !! id with
  | Some info, Some ts =>
      if bool_decide (ti_access info = Global) then
        fold_each apply_delete (ts, []) (map fst (td_deletes d)) ≫= fun '(ts, _) =>
        fold_each (apply_insert (ti_schema info)) (ts, []) (td_inserts d) ≫= fun '(ts, _) =>
        mret (<[id := ts]> tabs, true)
      else mret acc
  | _, _ => mret acc
  end.

(** The marks of a record: the counter resumes after the mark, which the
    table keeps. *)
Fixpoint resume_marks (marks : list (TableId * Z)) (ctrs : gmap TableId AutoIncCounter) (tabs : gmap TableId (TableState T X))
    : gmap TableId AutoIncCounter * gmap TableId (TableState T X) :=
  match marks with
  | [] => (ctrs, tabs)
  | (id, hw) :: marks =>
      resume_marks marks (<[id := {| next := sat_add 64 hw 1; high_water := hw |}]> ctrs)
        (alter (fun ts => with_high_water ts hw) id tabs)
  end.
End mutations.

(** * Applying records *)

Section records.
Context {W T X B : Type} `{KvTree W T} `{RowCodec} `{SideIndex W X} `{BlobStore B}.
Notation Store := (MemStore W T X B).
Notation StoreM := (SM Store StoreError).

Definition apply_replica_record (record : TxRecord) : StoreM TxDiff := fun ms =>
  if negb (tr_tx_id record =? next_tx_id (ms_writer ms)) then (Err ReplicaTxGap, ms)
  else
    let '(r, (w, superseded)) :=
      fold_each (apply_mutation (ms_env ms)) (cs_tables (ms_committed ms), []) (tr_mutations record) (ms_world ms, []) in
    let ms := set_world ms w in
    match r with
    | Err e => (Err e, ms)
    | Ok (tabs, diffs) =>
        let wr := ms_writer ms in
        let '(ctrs, tabs) := resume_marks (tr_auto_inc record) (counters wr) tabs in
        let ms := set_writer ms {| next_tx_id := sat_add 64 (tr_tx_id record) 1; next_version := next_version wr;
                                   counters := ctrs; high_water_dirty := high_water_dirty wr |} in
        match publish tabs superseded ms with
        | (Err e, ms) => (Err e, ms)
        | (Ok published, ms) =>
            let ms := retain_in_temporal_window (tr_tx_id record) (tr_timestamp record) published ms in
            let ms := match ms_blobs ms with
                      | Some b => set_blobs ms (Some (apply_blob_refcounts (ms_env ms) b diffs))
                      | None => ms
                      end in
            (Ok {| diff_tx_id := tr_tx_id record; diff_tables := diffs; diff_auto_inc := tr_auto_inc record |}, ms)
        end
    end.

(** The caller lets go of the published state at once. *)
Definition apply_replicated_diff (diff : TxDiff) : StoreM unit := fun ms =>
  let '(r, (w, superseded)) :=
    fold_each (apply_table_diff (ms_env ms)) (cs_tables (ms_committed ms), false) (diff_tables diff) (ms_world ms, []) in
  let ms := set_world ms w in
  match r with
  | Err e => (Err e, ms)
  | Ok (_, false) => (Ok tt, ms)
  | Ok (tabs, true) =>
      match publish tabs superseded ms with
      | (Err e, ms) => (Err e, ms)
      | (Ok published, ms) => (Ok tt, arc_drop (cs_version published) ms)
      end
  end.
End records.

(** * What the mutations of a commit leave *)

Section replay.
Context {W T X : Type} {KT : KvTree W T} {KL : KvTreeLaws W T} {RC : RowCodec} {RL : RowCodecLaws}.
Context {SI : SideIndex W X} {SL : SideIndexLaws W T X}.
Notation St := (W * list Page)%type.

#[local] Hint Resolve room_map_indexes room_map_unique room_side_insert room_side_remove room_index_insert room_index_remove
  room_unique_insert room_unique_remove room_put_row room_take_row : room.

Lemma room_retire (ts : TableState T X) r pk : keeps_room (W := W) (retire_entries ts r pk).
Proof using SL. unfold retire_entries. auto 8 with room. Qed.
#[local] Hint Resolve room_retire : room.

Lemma room_apply_delete (acc : TableState T X * list (list Z * row)) pk : keeps_room (W := W) (apply_delete acc pk).
Proof using SL. apply room_bind; [auto with room|]. intros [[old|] ts]; auto with room. Qed.

Lemma room_apply_insert sch (acc : TableState T X * list row) r : keeps_room (W := W) (apply_insert sch acc r).
Proof using SL.
  apply room_bind; [auto with room|]. intros pk. apply room_bind; [auto with room|]. intros [prev ts].
  apply room_bind; [destruct prev; auto with room|]. intros ts1. apply room_bind; [auto with room|]. intros ts2.
  apply room_bind; [auto with room|]. intros ts3. auto with room.
Qed.

Lemma retire_spec w (ts : TableState T X) R I U f pk old : parts_is w ts R I U f -> map_Forall (row_ok (shape ts)) I ->
  I !! pk = Some old -> U !! pk = Some old ->
  upd (retire_entries ts old pk) w f (fun ts' w' f' => same_table ts ts' /\ parts_is w' ts' R (delete pk I) (delete pk U) f').
Proof using SL.
  intros Hp HI E1 E2. eapply upd_bind; [apply (unique_remove_parts _ _ _ _ _ _ pk old Hp E2); by apply HI|auto 8 with room|].
  intros ts1 w1 f1 L1 [S1 P1]. pose proof S1 as (_ & Hsh & _).
  eapply upd_bind; [apply (indexes_remove_parts _ _ _ _ _ _ pk old P1); [done|by rewrite Hsh]|auto with room|].
  intros ts2 w2 f2 L2 [S2 P2]. destruct (parts_no_sides _ _ _ _ _ _ P2) as [N1 N2].
  eapply upd_at; [intros sup; apply (no_sides ts2 N1 N2)|]. apply upd_ret. split; [by etrans|done].
Qed.

Lemma apply_delete_spec w (ts : TableState T X) R f ds pk : table_is w ts R f ->
  upd (apply_delete (ts, ds) pk) w f (fun acc w' f' => same_table ts acc.1 /\ table_is w' acc.1 (delete pk R) f' /\
    acc.2 = ds ++ option_list (pair pk <$> R !! pk)).
Proof using RL SL.
  intros [Hp HR]. eapply upd_bind; [by apply take_row_parts|intros [[old|] ts']; auto with room|].
  intros [prev ts1] w1 f1 L1 (E & S1 & P1). simpl in E, S1, P1. subst prev. pose proof S1 as (_ & Hsh & _). destruct (R !! pk) as [old|] eqn:Eold; simpl.
  - eapply upd_bind; [apply (retire_spec _ _ _ _ _ _ pk old P1); [by rewrite Hsh|done|done]|auto with room|].
    intros ts2 w2 f2 L2 [S2 P2]. pose proof S2 as (_ & Hsh2 & _). apply upd_ret. split; [by etrans|]. split; [|done].
    split; [done|]. simpl. rewrite Hsh2, Hsh. by apply map_Forall_delete.
  - apply upd_ret. rewrite app_nil_r. split; [done|]. split; [|done]. rewrite delete_id in P1 |- * by done. split; [done|]. simpl. by rewrite Hsh.
Qed.

Lemma fold_delete_lookup pks : forall (R : content) pk, fold_left (fun R pk => delete pk R) pks R !! pk = if decide (pk ∈ pks) then None else R !! pk.
Proof using Type.
  induction pks as [|k pks IH]; intros R pk; cbn [fold_left]; [by rewrite decide_False by apply not_elem_of_nil|]. rewrite IH.
  destruct (decide (pk = k)) as [->|Hne].
  - rewrite lookup_delete_eq, (decide_True (P := k ∈ k :: pks)) by (by left). by destruct (decide (k ∈ pks)).
  - rewrite lookup_delete_ne by done. destruct (decide (pk ∈ pks)); [rewrite decide_True by (by right)|rewrite decide_False by (rewrite elem_of_cons; naive_solver)]; done.
Qed.

Lemma apply_deletes_spec pks : forall w (ts : TableState T X) R f ds, NoDup pks -> table_is w ts R f ->
  upd (fold_each apply_delete (ts, ds) pks) w f (fun acc w' f' => same_table ts acc.1 /\
    table_is w' acc.1 (fold_left (fun R pk => delete pk R) pks R) f' /\ acc.2 = ds ++ omap (fun pk => pair pk <$> R !! pk) pks).
Proof using RL SL.
  induction pks as [|pk pks IH]; intros w ts R f ds Hnd Ht; simpl; [apply upd_ret; by rewrite app_nil_r|].
  apply NoDup_cons in Hnd as [Hn Hnd]. eapply upd_bind; [by apply apply_delete_spec|intros; apply room_fold_each, room_apply_delete|].
  intros [ts1 ds1] w1 f1 L1 (S1 & T1 & E1). simpl in S1, T1, E1. subst ds1. eapply upd_weaken; [|by apply IH].
  intros [ts2 ds2] w2 f2 _ (S2 & T2 & E2). simpl in *. subst ds2. split; [by etrans|]. split; [done|]. rewrite <- app_assoc. f_equal.
  rewrite (list_omap_ext (fun k => pair k <$> delete pk R !! k) (fun k => pair k <$> R !! k) pks pks).
  - by destruct (R !! pk).
  - apply Forall_Forall2_diag, Forall_forall. intros k Hk. rewrite lookup_delete_ne; [done|]. by intros ->.
Qed.

Lemma apply_insert_spec sch V w (ts : TableState T X) R f rs pk r : table_is w ts R f -> encode_pk_of_row sch r = Ok pk -> R !! pk = None ->
  row_ok (shape ts) pk r -> uniq_ok (sh_uniq (shape ts)) V -> R ⊆ V -> V !! pk = Some r ->
  upd (apply_insert sch (ts, rs) r) w f (fun acc w' f' => same_table ts acc.1 /\ table_is w' acc.1 (<[pk := r]> R) f' /\ acc.2 = rs ++ [r]).
Proof using RL SL.
  intros [Hp HR] Ek Hnone Hr HV HRV HVr. pose proof Hr as (Hk & Hf & _). eapply upd_lift; [by rewrite Ek|].
  eapply upd_bind; [apply (put_row_parts _ _ _ _ _ _ pk r Hp Hk Hf)| |].
  { intros [prev ts']. apply room_bind; [destruct prev; auto with room|]. auto 9 with room. }
  intros [prev ts1] w1 f1 L1 (E & S1 & P1). simpl in E, S1, P1. rewrite Hnone in E. subst prev. pose proof S1 as (_ & Hsh & _).
  eapply (upd_bind _ _ _ _ (fun ts2 w2 f2 => ts2 = ts1 /\ parts_is w2 ts2 (<[pk := r]> R) R R f2)); [by apply upd_ret|auto 9 with room|].
  intros ? w2 f2 L2 [-> P2].
  eapply upd_bind; [apply (indexes_insert_parts _ _ _ _ _ _ pk r P2); rewrite ?Hsh; done|auto 8 with room|].
  intros ts3 w3 f3 L3 [S3 P3]. pose proof S3 as (_ & Hsh3 & _).
  eapply upd_bind; [apply (unique_insert_parts _ _ _ _ _ V _ pk r P3); rewrite ?Hsh3, ?Hsh; done|auto with room|].
  intros ts4 w4 f4 L4 [S4 P4]. pose proof S4 as (_ & Hsh4 & _). destruct (parts_no_sides _ _ _ _ _ _ P4) as [N1 N2].
  eapply side_step; [by apply no_sides|]. apply upd_ret. split; [etrans; [done|by etrans]|]. split; [|done]. split; [done|].
  simpl. rewrite Hsh4, Hsh3, Hsh. by apply map_Forall_insert_2.
Qed.

Lemma apply_inserts_spec sch V l : forall w (ts : TableState T X) R f rs, table_is w ts R f -> NoDup l.*1 ->
  Forall (fun p => encode_pk_of_row sch p.2 = Ok p.1 /\ R !! p.1 = None /\ row_ok (shape ts) p.1 p.2 /\ V !! p.1 = Some p.2) l ->
  uniq_ok (sh_uniq (shape ts)) V -> R ⊆ V ->
  upd (fold_each (apply_insert sch) (ts, rs) l.*2) w f (fun acc w' f' => same_table ts acc.1 /\
    table_is w' acc.1 (fold_left (fun R p => <[p.1 := p.2]> R) l R) f' /\ acc.2 = rs ++ l.*2).
Proof using RL SL.
  induction l as [|[pk r] l IH]; intros w ts R f rs Ht Hnd Hl HV HRV; [apply upd_ret; by rewrite app_nil_r|].
  rewrite fmap_cons in Hnd. apply NoDup_cons in Hnd as [Hn Hnd]. apply Forall_cons in Hl as [(Ek & Hnone & Hr & HVr) Hl]. cbn [fst snd] in *. cbn [fmap list_fmap fold_each fold_left fst snd].
  eapply upd_bind; [by apply (apply_insert_spec sch V w ts R f rs pk r)|intros; apply room_fold_each, room_apply_insert|].
  intros [ts1 rs1] w1 f1 L1 (S1 & T1 & E1). simpl in S1, T1, E1. subst rs1. pose proof S1 as (_ & Hsh & _).
  eapply upd_weaken; [|apply (IH w1 ts1 (<[pk := r]> R) f1 _ T1 Hnd)]; rewrite ?Hsh; [|rewrite Forall_forall in *|done|by apply insert_subseteq_l].
  - intros [ts2 rs2] w2 f2 _ (S2 & T2 & E2). simpl in *. subst rs2. split; [by etrans|]. split; [done|]. by rewrite <- app_assoc.
  - intros [k r'] Hin. destruct (Hl _ Hin) as (? & ? & ? & ?). simpl in *. split_and!; try done. rewrite lookup_insert_ne; [done|].
    intros ->. apply Hn. apply list_elem_of_fmap. by exists (k, r').
Qed.

(** ** The mutation of one table *)

Lemma omap_fst {K A D} (g : K * A -> option (K * D)) l : (forall p q, g p = Some q -> q.1 = p.1) -> (omap g l).*1 `sublist_of` l.*1.
Proof using Type.
  intros Hg. induction l as [|p l IH]; simpl; [constructor|]. destruct (g p) as [q|] eqn:E; simpl; [|by constructor].
  rewrite (Hg _ _ E). by constructor.
Qed.

Lemma fold_insert_lookup l : forall (R : content) pk, NoDup l.*1 ->
  (forall r, (pk, r) ∈ l -> fold_left (fun R p => <[p.1 := p.2]> R) l R !! pk = Some r) /\
  (pk ∉ l.*1 -> fold_left (fun R p => <[p.1 := p.2]> R) l R !! pk = R !! pk).
Proof using Type.
  induction l as [|[k v] l IH]; intros R pk Hnd; [split; [by intros r ?%elem_of_nil|done]|].
  rewrite fmap_cons in Hnd. apply NoDup_cons in Hnd as [Hn Hnd]. cbn [fold_left fst snd] in *. destruct (IH (<[k := v]> R) pk Hnd) as [IH1 IH2]. split.
  - intros r [[= -> ->]|Hin]%elem_of_cons; [|by apply IH1]. rewrite IH2 by done. apply lookup_insert_eq.
  - rewrite fmap_cons. intros [Hne Hn']%not_elem_of_cons. rewrite IH2 by done. by apply lookup_insert_ne.
Qed.

(** The keys a commit's diff deletes and the rows it inserts. *)
Definition gone (R : content) (ops : pending_ops) : list (list Z) := (omap (removed R) (btree_entries ops)).*1.
Definition wrote_rows (ops : pending_ops) : list (list Z * row) := omap (fun p => pair p.1 <$> written p.2) (btree_entries ops).

Lemma gone_NoDup R ops : NoDup (gone R ops).
Proof using Type.
  eapply sublist_NoDup; [apply (btree_keys_NoDup ops)|]. apply omap_fst. intros [k op] q. unfold removed. destruct op; simpl; [done| |]; by destruct (R !! k); [intros [= <-]|].
Qed.

Lemma wrote_NoDup ops : NoDup (wrote_rows ops).*1.
Proof using Type.
  eapply sublist_NoDup; [apply (btree_keys_NoDup ops)|]. apply omap_fst. intros [k op] q. simpl. by destruct (written op); [intros [= <-]|].
Qed.

Lemma elem_wrote ops pk r : (pk, r) ∈ wrote_rows ops <-> exists op, ops !! pk = Some op /\ written op = Some r.
Proof using Type.
  unfold wrote_rows. rewrite list_elem_of_omap. split.
  - intros ([k op] & Hin%elem_of_btree_entries & E). simpl in E. destruct (written op) eqn:Ew; [|done]. injection E as -> ->. by exists op.
  - intros (op & E & Ew). exists (pk, op). split; [by apply elem_of_btree_entries|]. simpl. by rewrite Ew.
Qed.

Lemma elem_gone R ops pk : pk ∈ gone R ops <-> exists op, ops !! pk = Some op /\ is_Some (removed R (pk, op)).
Proof using Type.
  unfold gone. rewrite list_elem_of_fmap. split.
  - intros ([k old] & -> & Hin). apply list_elem_of_omap in Hin as ([k' op] & Hin%elem_of_btree_entries & E). simpl.
    assert (k' = k) as ->. { unfold removed in E. destruct op; simpl in E; [done| |]; by destruct (R !! k'); [injection E|]. }
    exists op. by rewrite E.
  - intros (op & E & [q Hq]). exists q. split.
    + unfold removed in Hq. destruct op; simpl in Hq; [done| |]; by destruct (R !! pk); [injection Hq as <-|].
    + apply list_elem_of_omap. exists (pk, op). split; [by apply elem_of_btree_entries|done].
Qed.

Lemma gone_rows R ops : omap (fun pk => pair pk <$> R !! pk) (gone R ops) = omap (removed R) (btree_entries ops).
Proof using Type.
  unfold gone. induction (btree_entries ops) as [|[k op] l IH]; [done|]. cbn [omap list_omap]. destruct (removed R (k, op)) as [[k' old]|] eqn:Er; [|exact IH].
  assert (k' = k /\ R !! k = Some old) as [-> Ek]. { unfold removed in Er. destruct op; simpl in Er; [done| |]; by destruct (R !! k); [injection Er as -> ->|]. }
  simpl. rewrite Ek. simpl. by f_equal.
Qed.

(** Deleting and inserting what the diff says gives the committed view. *)
Lemma replay_view sh R ops : ops_ok sh R ops ->
  fold_left (fun R p => <[p.1 := p.2]> R) (wrote_rows ops) (fold_left (fun R pk => delete pk R) (gone R ops) R) = view R ops /\
  fold_left (fun R pk => delete pk R) (gone R ops) R ⊆ view R ops /\
  Forall (fun p => fold_left (fun R pk => delete pk R) (gone R ops) R !! p.1 = None /\ view R ops !! p.1 = Some p.2) (wrote_rows ops).
Proof using Type.
  intros [Hops _]. set (R0 := fold_left _ (gone R ops) R).
  assert (forall pk, R0 !! pk = match ops !! pk with Some _ => None | None => R !! pk end) as H0.
  { intros pk. unfold R0. rewrite fold_delete_lookup. pose proof (elem_gone R ops pk) as Hg. destruct (ops !! pk) as [op|] eqn:E.
    - destruct (decide _) as [|Hng]; [done|]. specialize (Hops pk op E). unfold op_ok in Hops. simpl in Hops. destruct op; [by destruct Hops| |];
        (destruct Hng; apply Hg; eexists; split; [done|]; unfold removed; simpl).
      + destruct Hops as [old ->]. by eexists.
      + destruct Hops as [[old ->] _]. by eexists.
    - rewrite decide_False; [done|]. intros Hin. apply Hg in Hin as (op & ? & _). done. }
  split_and!.
  - apply map_eq. intros pk. rewrite view_lookup. destruct (fold_insert_lookup (wrote_rows ops) R0 pk (wrote_NoDup ops)) as [Hin Hout].
    destruct (ops !! pk) as [op|] eqn:E; [destruct (written op) as [r|] eqn:Ew|].
    + rewrite (Hin r) by (apply elem_wrote; by exists op). by destruct op; simpl in *; simplify_eq.
    + rewrite Hout, H0, E; [by destruct op|]. intros ([k r] & -> & Hr)%list_elem_of_fmap. apply elem_wrote in Hr as (op' & E' & Ew'). simpl in *. congruence.
    + rewrite Hout, H0, E; [done|]. intros ([k r] & -> & Hr)%list_elem_of_fmap. apply elem_wrote in Hr as (op' & E' & _). simpl in *. congruence.
  - apply map_subseteq_spec. intros pk r. rewrite H0, view_lookup. by destruct (ops !! pk).
  - apply Forall_forall. intros [pk r] (op & E & Ew)%elem_wrote. simpl. rewrite H0, view_lookup, E. split; [done|]. by destruct op; simpl in *; simplify_eq.
Qed.

(** Rows written under their own keys. *)
Definition keyed (env : StoreEnv) (id : TableId) (ops : pending_ops) : Prop := forall pk op r, ops !! pk = Some op -> written op = Some r ->
  forallb value_ok r = true /\ exists info, catalog env !! id = Some info /\ encode_pk_of_row (ti_schema info) r = Ok pk.

Definition mutation_of (t : TableDiff) : TableMutation := {|
  tm_table_id := td_table_id t; tm_inserts := map row_to_log (td_inserts t); tm_deletes := map fst (td_deletes t) |}.

Lemma insert_rows_of (id : TableId) (ops : pending_ops) env (d : TableDiff) : keyed env id ops -> td_inserts d = (wrote_rows ops).*2 ->
  insert_rows (mutation_of d) = Ok (wrote_rows ops).*2.
Proof using Type.
  intros Hk E. unfold insert_rows, mutation_of. cbn [tm_inserts]. rewrite E. rewrite <- (map_id (wrote_rows ops).*2) at 2. apply collect_map.
  apply Forall_forall. intros r ([pk r'] & -> & Hin)%list_elem_of_fmap. apply elem_wrote in Hin as (op & E1 & E2). apply collect_row_to_log. by eapply Hk.
Qed.

Lemma diff_of_parts (id : TableId) (R : content) (ops : pending_ops) : diff_of id R ops =
  {| td_table_id := id; td_inserts := (wrote_rows ops).*2; td_deletes := omap (removed R) (btree_entries ops) |}.
Proof using Type.
  unfold diff_of, add_diff, wrote_rows. simpl. f_equal. induction (btree_entries ops) as [|[k op] l IH]; [done|]. simpl. destruct (written op); simpl; [by f_equal|done].
Qed.

Lemma room_apply_mutation env acc m : keeps_room (W := W) (apply_mutation (X := X) (T := T) env acc m).
Proof using SL.
  destruct acc as [tabs diffs]. unfold apply_mutation. apply room_bind; [auto with room|]. intros info. apply room_bind; [auto with room|]. intros ts.
  apply room_bind; [apply room_fold_each, room_apply_delete|]. intros [ts1 ds]. apply room_bind; [auto with room|]. intros rs.
  apply room_bind; [apply room_fold_each, room_apply_insert|]. intros [ts2 ins]. auto with room.
Qed.

(** Replaying one table's diff. *)
Lemma apply_mutation_spec env w tabs C fs diffs id (ts : TableState T X) R ops : tables_is w tabs C fs -> tabs !! id = Some ts -> C !! id = Some R ->
  ops_ok (shape ts) R ops -> keyed env id ops -> is_Some (catalog env !! id) ->
  upd (apply_mutation env (tabs, diffs) (mutation_of (diff_of id R ops))) w (fp fs) (fun acc w' f' => exists ts' g', f' ≡ₚ fp (<[id := g']> fs) /\
    acc = (<[id := ts']> tabs, diffs ++ [diff_of id R ops]) /\ tables_is w' (<[id := ts']> tabs) (<[id := view R ops]> C) (<[id := g']> fs) /\ same_table ts ts').
Proof using RL SL.
  intros HT E1 E2 Hops Hkey [info Einfo]. destruct (tables_is_get _ _ _ _ _ _ HT E1) as (R' & g & E2' & E3 & Ht). assert (R' = R) as -> by congruence.
  assert (delete_pks (mutation_of (diff_of id R ops)) = gone R ops) as Ed by (by rewrite diff_of_parts).
  assert (insert_rows (mutation_of (diff_of id R ops)) = Ok (wrote_rows ops).*2) as Ei by (apply (insert_rows_of id ops env); [done|by rewrite diff_of_parts]).
  assert (tm_table_id (mutation_of (diff_of id R ops)) = id) as Em by done. set (m := mutation_of _) in *.
  unfold apply_mutation. rewrite Em, Ed.
  eapply upd_lift; [by rewrite Einfo|]. eapply upd_lift; [by rewrite E1|]. eapply upd_perm; [symmetry; by apply fp_split|].
  destruct (replay_view _ _ _ Hops) as (Hv & Hsub & Hw). pose proof Hops as [_ HU].
  eapply upd_bind; [eapply upd_frame, (apply_deletes_spec _ _ _ _ _ _ (gone_NoDup R ops) Ht)| |].
  { intros [ts1 ds]. apply room_bind; [auto with room|]. intros rs. apply room_bind; [apply room_fold_each, room_apply_insert|]. intros [ts2 ins]. auto with room. }
  intros [ts1 ds] w1 ? L1 (g1 & -> & S1 & T1 & Eds). cbn [fst snd] in *. rewrite app_nil_l, gone_rows in Eds. subst ds. pose proof S1 as (_ & Hsh & _).
  eapply upd_lift; [by rewrite Ei|].
  eapply upd_bind; [eapply upd_frame, (apply_inserts_spec (ti_schema info) (view R ops) (wrote_rows ops) _ ts1 _ _ [] T1 (wrote_NoDup ops))| |].
  - rewrite Forall_forall in Hw |- *. intros [pk r] Hin. destruct (Hw _ Hin) as [? Hvr]. apply elem_wrote in Hin as (op & Eop & Ew).
    destruct (Hkey _ _ _ Eop Ew) as (_ & info' & Ei' & Epk). simpl in *. split_and!; [congruence|done| |done]. rewrite Hsh.
    destruct Ht as [_ HR]. by apply (view_rows_ok _ R ops HR (proj1 Hops) pk r).
  - by rewrite Hsh.
  - done.
  - intros [ts2 ins]. auto with room.
  - intros [ts2 ins] w2 ? L2 (g2 & -> & S2 & T2 & Eis). cbn [fst snd] in *. subst ins. apply upd_ret. rewrite Hv in T2. exists ts2, g2.
    split; [symmetry; by eapply fp_update|]. split; [by rewrite app_nil_l, diff_of_parts|]. split; [|by etrans].
    eapply tables_is_insert; [|done|done]. eapply tables_is_le; [|exact HT]. by eapply kt_le_trans.
Qed.

(** Replaying the diff of a whole commit, table by table. *)
Lemma apply_mutations_spec env l : forall w (tabs : gmap TableId (TableState T X)) C fs diffs, tables_is w tabs C fs -> NoDup l.*1 ->
  Forall (fun p => pending_ok tabs C p.1 p.2 /\ keyed env p.1 p.2 /\ (p.2 = ∅ \/ is_Some (catalog env !! p.1))) l ->
  upd (fold_each (apply_mutation env) (tabs, diffs) (map mutation_of (diffs_of C l))) w (fp fs) (fun acc w' f' => exists fs', f' ≡ₚ fp fs' /\
    tables_is w' acc.1 (fold_left apply_ops l C) fs' /\ same_tables tabs acc.1 /\ acc.2 = diffs ++ diffs_of C l).
Proof using RL SL.
  induction l as [|[id ops] l IH]; intros w tabs C fs diffs HT Hnd Hl; [apply upd_ret; exists fs; by rewrite app_nil_r|].
  rewrite fmap_cons in Hnd. apply NoDup_cons in Hnd as [Hn Hnd]. apply Forall_cons in Hl as [(Hop & Hkey & Hcat) Hl]. cbn [fst snd] in *.
  assert (forall tabs', (forall k, k <> id -> tabs' !! k = tabs !! k) ->
    Forall (fun p => pending_ok tabs' (apply_ops C (id, ops)) p.1 p.2 /\ keyed env p.1 p.2 /\ (p.2 = ∅ \/ is_Some (catalog env !! p.1))) l) as Hrest.
  { intros tabs' Hother. rewrite Forall_forall in *. intros [id' ops'] Hin. destruct (Hl _ Hin) as (Hp & Hk & Hc). split; [|done].
    destruct Hp as [->|(ts & R & E1 & E2 & Hok)]; [by left|]. assert (id' <> id) by (intros ->; apply Hn; apply list_elem_of_fmap; by exists (id, ops')).
    right. exists ts, R. simpl in *. rewrite Hother by done. unfold apply_ops. simpl. by rewrite lookup_alter_ne. }
  cbn [fold_left]. unfold diffs_of at 1 2. cbn [omap list_omap fst snd]. fold (diffs_of C l). destruct (bool_decide (ops = ∅)) eqn:Eb.
  - apply bool_decide_eq_true_1 in Eb as ->. assert (apply_ops C (id, ∅) = C) as EC.
    { unfold apply_ops. simpl. apply map_eq. intros k. destruct (decide (k = id)) as [->|]; [|by rewrite lookup_alter_ne].
      rewrite lookup_alter_eq. destruct (C !! id); simpl; [by rewrite view_empty|done]. }
    rewrite EC. apply IH; [done|done|]. rewrite <- EC. by apply Hrest.
  - apply bool_decide_eq_false_1 in Eb. destruct Hop as [|(ts & R & E1 & E2 & Hok)]; [done|]. destruct Hcat as [|Hcat]; [done|]. rewrite E2. cbn [fmap option_fmap option_map map fold_each].
    assert (apply_ops C (id, ops) = <[id := view R ops]> C) as EC.
    { unfold apply_ops. simpl. apply map_eq. intros k. destruct (decide (k = id)) as [->|];
        [by rewrite lookup_alter_eq, lookup_insert_eq, E2|by rewrite lookup_alter_ne, lookup_insert_ne]. }
    eapply upd_bind; [by eapply (apply_mutation_spec env w tabs C fs diffs id ts R ops)|intros acc; apply room_fold_each, room_apply_mutation|].
    intros acc w1 f1 L1 (ts1 & g1 & Hf & -> & HT1 & S1). rewrite EC in *. rewrite <- (diffs_of_other C id ops l Hn), EC.
    eapply upd_perm; [symmetry; exact Hf|]. eapply upd_weaken; [|apply (IH w1 _ _ _ _ HT1 Hnd)].
    + intros [tabs2 ds2] w2 f2 _ (fs2 & Hf2 & HT2 & Hs2 & Ed2). cbn [fst snd] in *. exists fs2. split_and!; try done; [|by rewrite Ed2, <- app_assoc].
      etrans; [|exact Hs2]. intros k. destruct (decide (k = id)) as [->|]; [rewrite lookup_insert_eq, E1; by constructor|].
      rewrite lookup_insert_ne by done. apply (reflexivity (R := same_tables)).
    + apply Hrest. intros k Hk. by rewrite lookup_insert_ne.
Qed.

Lemma resume_marks_spec w marks : forall ctrs (tabs : gmap TableId (TableState T X)) C fs, tables_is w tabs C fs ->
  tables_is w (resume_marks marks ctrs tabs).2 C fs /\ forall id, frame_of <$> (resume_marks marks ctrs tabs).2 !! id = frame_of <$> tabs !! id.
Proof using Type.
  induction marks as [|[id hw] marks IH]; intros ctrs tabs C fs HT; [done|]. cbn [resume_marks].
  set (tabs1 := alter _ id tabs). assert (forall k, tabs1 !! k = (if decide (k = id) then (fun ts => with_high_water ts hw) <$> tabs !! k else tabs !! k)) as Hk.
  { intros k. unfold tabs1. destruct (decide (k = id)) as [->|]; [by rewrite lookup_alter_eq|by rewrite lookup_alter_ne]. }
  destruct (IH (<[id := {| next := sat_add 64 hw 1; high_water := hw |}]> ctrs) tabs1 C fs) as [H1 H2].
  - intros k. specialize (HT k). rewrite Hk. destruct (decide (k = id)); [|done]. by destruct (tabs !! k).
  - split; [done|]. intros k. rewrite H2, Hk. destruct (decide (k = id)); [|done]. by destruct (tabs !! k).
Qed.
End replay.

(** * Records *)

Section records_spec.
Context {W T X B : Type} {KT : KvTree W T} {KL : KvTreeLaws W T} {RC : RowCodec} {RL : RowCodecLaws}.
Context {SI : SideIndex W X} {SL : SideIndexLaws W T X} {BS : BlobStore B}.
Notation Store := (MemStore W T X B).
Notation versions := (gmap Z (VersionState T X)).

(** The merge of a record, before it is published. *)
Definition replay_run (record : TxRecord) (ms : Store) :=
  fold_each (apply_mutation (ms_env ms)) (cs_tables (ms_committed ms), []) (tr_mutations record) (ms_world ms, []).

Lemma replica_spec (ms : Store) (rd : Z -> Z) (S : versions) (C : contents) (fs : gmap TableId (list Page)) (pend : pending_tables) (record : TxRecord) (marks : list (TableId * Z)) : store_inv ms rd S ->
  S !! cs_version (ms_committed ms) = Some (Build_VersionState (cs_tables (ms_committed ms)) C fs) ->
  (forall id ops, pend !! id = Some ops -> pending_ok (cs_tables (ms_committed ms)) C id ops /\ keyed (ms_env ms) id ops /\ (ops = ∅ \/ is_Some (catalog (ms_env ms) !! id))) ->
  tr_mutations record = map mutation_of (diffs_of C (btree_entries pend)) -> tr_auto_inc record = marks ->
  tr_tx_id record = next_tx_id (ms_writer ms) -> next_version (ms_writer ms) < u_max 64 -> kt_room (replay_run record ms).2.1 ->
  let nv := next_version (ms_writer ms) in
  exists tabs fs' ms' S', apply_replica_record record ms = (Ok {| diff_tx_id := tr_tx_id record;
      diff_tables := diffs_of C (btree_entries pend); diff_auto_inc := marks |}, ms') /\
    store_inv ms' rd S' /\ ms_committed ms' = Build_CommittedState tabs nv /\
    S' !! nv = Some (Build_VersionState tabs (views C pend) fs') /\
    (forall id, frame_of <$> tabs !! id = frame_of <$> cs_tables (ms_committed ms) !! id) /\
    ms_writer ms' = {| next_tx_id := sat_add 64 (tr_tx_id record) 1; next_version := nv + 1;
                       counters := (resume_marks marks (counters (ms_writer ms)) tabs).1;
                       high_water_dirty := high_water_dirty (ms_writer ms) |}.
Proof using RL SL.
  intros I Hst Hpend Em Ea Eid Hnv Hroom nv. destruct (si_states _ _ _ I _ _ Hst) as (HT & Hnd & Hu). simpl in HT, Hnd, Hu.
  unfold replay_run in Hroom. rewrite Em in Hroom.
  destruct (apply_mutations_spec (ms_env ms) (btree_entries pend) (ms_world ms) (cs_tables (ms_committed ms)) C fs [] HT (btree_keys_NoDup pend))
    with (sup := @nil Page) as ([tabs diffs] & w & f' & ret & E & Hstep & fs' & Hf & HT' & Hs & Ed); [|apply I|exact Hroom|].
  { apply Forall_forall. intros [id ops] Hin%elem_of_btree_entries. by apply Hpend. }
  cbn [fst snd] in HT', Hs, Ed. rewrite app_nil_l in Ed. subst diffs. rewrite fold_apply_ops in HT'.
  destruct (step_used _ _ _ _ _ Hstep Hnd Hu) as [Hnd' Hu']. rewrite Hf in Hnd', Hu'. pose proof Hstep as [L (fresh & Hperm & _ & Hfr)].
  unfold apply_replica_record. rewrite Eid, Z.eqb_refl. cbn [negb]. rewrite Em, E. cbn [app].
  destruct (resume_marks marks (counters (ms_writer (set_world ms w))) tabs) as [ctrs tabs'] eqn:Er. rewrite Ea, Er.
  destruct (resume_marks_spec w marks (counters (ms_writer (set_world ms w))) tabs _ _ HT') as [HT2 Hfr2]. rewrite Er in HT2, Hfr2. cbn [snd] in HT2, Hfr2.
  set (ms1 := set_writer (set_world ms w) _). assert (store_inv ms1 rd S) as I1 by (apply writer_inv; [done|]; by apply world_inv).
  set (s := Build_VersionState tabs' (views C pend) fs'). apply Forall_app in Hu' as [Hu1 Hu2]. pose proof Hnd' as (Hnd1 & _ & _)%NoDup_app.
  destruct (publish_retain_spec ms1 rd S s ret (next_tx_id (ms_writer ms)) (tr_timestamp record) (diffs_of C (btree_entries pend)) I1 Hnv) as (ms2 & ms3 & S3 & E2 & E3 & I3 & Hsub3 & Ec & Ewr & _);
    [done|done|done| |].
  { intros k l p Hk Hp Hpf. destruct (si_garbage _ _ _ I k l Hk) as (Hkv & Hul & Hdis). rewrite Forall_forall in Hul, Hfr.
    eapply (Hdis _ _ p Hst Hkv Hp). simpl. assert (p ∈ fp fs ++ fresh) as Hin by (rewrite <- Hperm, Hf; apply elem_of_app; by left).
    apply elem_of_app in Hin as [|Hx]; [done|]. destruct (Hfr _ Hx) as [Hnu _]. by destruct Hnu; apply Hul. }
  change (next_version (ms_writer ms1)) with nv in *. cbn [vs_tables s] in E2, E3, Ec. rewrite E2. cbv zeta in E3. rewrite E3.
  exists tabs', fs', ms3, S3. split; [reflexivity|]. split; [exact I3|]. split; [exact Ec|]. split; [by eapply current_state|].
  split; [intros id; rewrite Hfr2; by apply same_tables_frame|]. rewrite Ewr. cbn [ms1 set_writer ms_writer next_tx_id counters high_water_dirty set_world].
  assert (forall (ctr : gmap TableId AutoIncCounter) (t1 t2 : gmap TableId (TableState T X)), (resume_marks marks ctr t1).1 = (resume_marks marks ctr t2).1) as Hm.
  { clear. induction marks as [|[id hw] marks IH]; intros; [done|]. simpl. apply IH. }
  rewrite (Hm _ tabs' tabs). cbn [set_world ms_writer] in Er. by rewrite Er.
Qed.
End records_spec.
