(* ===== verification/StoreBuild.v ===== *)
(** Assembly of a store: [MemStore::build] and [install_recovered] of
    [crates/fluxum-core/src/store/memstore.rs], with the builders of
    [memstore/build.rs].

    The declarations linked into the program (tables, computed columns, checks,
    foreign keys) are the arguments; the CRC-32 of names that gives table and
    index ids, and the constructors of spatial and full-text indexes, are
    parameters. [build_ok] states that a store over well-formed declarations
    starts in the invariant of StoreSpec with every table empty. *)

From stdpp Require Import base list gmap sorting.
From Stdlib Require Import ZArith Lia.
From S2P Require Import Prelude FluxBin Row IndexKey TxState LogRecord PageFormat PagedTree PagedTreeNode PagedTreeRep PagedTreeSpec KvTree TableState TableSpec Reclaim MemStore MergeSpec StoreSpec.

(** * Declarations *)

Inductive IndexSchema : Type :=
  | BTree (cols : list nat)
  | Spatial (rtree : bool) (cols : list nat)
  | FullText (col : nat) (english stop_words stemming : bool).

(** The parts of the source's [TableSchema] that assembly reads; names are
    their UTF-8 bytes. *)
Record TableDecl : Type := {
  decl_name : list Z;
  decl_info : TableInfo;
  decl_columns : list (list Z);
  decl_unique : list (list nat);
  decl_indexes : list IndexSchema;
}.

Record ComputedDef : Type := {
  cd_table : list Z;
  cd_ordinal : nat;
  cd_compute : row -> result Z RowValue.t;
}.

(** [ck_ordinal] stands for the column a check is declared on. *)
Record CheckDef : Type := {
  ck_table : list Z;
  ck_ordinal : nat;
  ck_check : row -> result Z bool;
}.

Record NotNullDef : Type := { nn_table : list Z; nn_ordinal : nat }.

Record ForeignKeyDef : Type := {
  fd_table : list Z;
  fd_ordinal : nat;
  fd_parent_table : list Z;
  fd_parent_column : list Z;
  fd_on_delete : RefAction;
}.

Record Registry : Type := {
  registered_computed : list ComputedDef;
  registered_checks : list CheckDef;
  registered_not_nulls : list NotNullDef;
  registered_foreign_keys : list ForeignKeyDef;
}.

(** The constructors of spatial and full-text indexes. *)
Class SideBuild (W X : Type) := {
  new_spatial : bool -> list nat -> TableId -> SM W StoreError X;
  new_fulltext : nat -> bool -> bool -> bool -> TableId -> SM W StoreError X;
}.

Notation Cat := (gmap TableId TableDecl).

(** * Registry *)

Section registry.
(** [TableId::of]. *)
Context (table_id_of : list Z -> TableId).

Section resolve.
Context {D A : Type} (table : D -> list Z) (val : D -> A).

(** [out.entry(id).or_default().push(..)] for the declarations of known tables. *)
Fixpoint resolve_defs (cat : Cat) (defs : list D) (out : gmap TableId (list A)) : gmap TableId (list A) :=
  match defs with
  | [] => out
  | d :: defs =>
      let id := table_id_of (table d) in
      resolve_defs cat defs
        (if bool_decide (is_Some (cat !! id)) then <[id := default [] (out !! id) ++ [val d]]> out else out)
  end.
End resolve.

Definition ordinal_le {A} (x y : nat * A) : Prop := (x.1 <= y.1)%nat.
#[local] Instance ordinal_le_dec {A} (x y : nat * A) : Decision (ordinal_le x y).
Proof. unfold ordinal_le. apply _. Defined.

Definition build_computed (cat : Cat) (defs : list ComputedDef) : gmap TableId (list (nat * (row -> result Z RowValue.t))) :=
  merge_sort ordinal_le <$> resolve_defs cd_table (fun d => (cd_ordinal d, cd_compute d)) cat defs ∅.

Definition build_checks (cat : Cat) (checks : list CheckDef) (nulls : list NotNullDef)
    : gmap TableId (list (nat * (row -> result Z bool))) * gmap TableId (list nat) :=
  (resolve_defs ck_table (fun d => (ck_ordinal d, ck_check d)) cat checks ∅,
   resolve_defs nn_table nn_ordinal cat nulls ∅).

Definition option_inner (ty : FluxType.t) : FluxType.t := match ty with FluxType.Option inner => inner | other => other end.
Definition is_option (ty : FluxType.t) : bool := match ty with FluxType.Option _ => true | _ => false end.

(** One [#[references]] declaration; [None] when its table is not assembled. *)
Definition resolve_fk (cat : Cat) (def : ForeignKeyDef) : result StoreError (option ResolvedFk) :=
  let child := table_id_of (fd_table def) in
  match cat !! child with
  | None => Ok None
  | Some child_schema =>
      let parent := table_id_of (fd_parent_table def) in
      let invalid := FkInvalid (fd_ordinal def) in
      from_option invalid (cat !! parent) ≫= fun parent_schema =>
      match primary_key (ti_schema (decl_info parent_schema)) with
      | [parent_pk_ord] =>
          from_option (OrdinalPanic parent_pk_ord) (columns (ti_schema (decl_info parent_schema)) !! parent_pk_ord) ≫= fun parent_ty =>
          if negb (bool_decide (decl_columns parent_schema !! parent_pk_ord = Some (fd_parent_column def))) then Err invalid
          else
            from_option invalid (columns (ti_schema (decl_info child_schema)) !! fd_ordinal def) ≫= fun child_ty =>
            if negb (bool_decide (option_inner child_ty = parent_ty)) then Err invalid
            else if bool_decide (fd_on_delete def = SetNull) && negb (is_option child_ty) then Err invalid
            else Ok (Some {|
              fk_child := child;
              fk_child_schema := decl_info child_schema;
              fk_child_ordinal := fd_ordinal def;
              fk_parent := parent;
              fk_parent_schema := decl_info parent_schema;
              fk_on_delete := fd_on_delete def |})
      | _ => Err invalid
      end
  end.

Fixpoint build_foreign_keys (cat : Cat) (defs : list ForeignKeyDef) (fks_out fks_in : gmap TableId (list ResolvedFk))
    : result StoreError (gmap TableId (list ResolvedFk) * gmap TableId (list ResolvedFk)) :=
  match defs with
  | [] => Ok (fks_out, fks_in)
  | def :: defs =>
      resolve_fk cat def ≫= fun resolved =>
      match resolved with
      | None => build_foreign_keys cat defs fks_out fks_in
      | Some fk =>
          build_foreign_keys cat defs
            (<[fk_child fk := default [] (fks_out !! fk_child fk) ++ [fk]]> fks_out)
            (<[fk_parent fk := default [] (fks_in !! fk_parent fk) ++ [fk]]> fks_in)
      end
  end.
End registry.

(** * Tables and the store *)

Section build.
Context {W T X B : Type} `{KvTree W T} `{RowCodec} `{SideIndex W X} `{BlobStore B} `{SideBuild W X}.
(** [TableId::of] and [IndexId::of]. *)
Context (table_id_of : list Z -> TableId) (index_id_of : list Z -> list (list Z) -> IndexId).
Notation WM := (SM W StoreError).
Notation Store := (MemStore W T X B).

(** [PagedTree::create]. *)
Definition new_tree (id : TableId) (index : bool) : WM T := sm_map_err TreeFailed (kt_create id index).

(** The column names of an index; an ordinal out of range is refused. *)
Definition index_names (decl : TableDecl) (cols : list nat) : result StoreError (list (list Z)) :=
  collect (fun o => from_option (IndexColumnMissing o) (decl_columns decl !! o)) cols.

Definition add_btree (decl : TableDecl) (id : TableId) (acc : gmap IndexId (BTreeIndex T)) (ix : IndexSchema)
    : WM (gmap IndexId (BTreeIndex T)) :=
  match ix with
  | BTree cols =>
      sm_lift (index_names decl cols) ≫= fun names =>
      let ix_id := index_id_of (decl_name decl) names in
      new_tree id true ≫= fun t =>
      if bool_decide (is_Some (acc !! ix_id)) then sm_fail (IndexIdCollision ix_id)
      else mret (<[ix_id := Build_BTreeIndex cols t]> acc)
  | _ => mret acc
  end.

Definition build_btree_indexes (decl : TableDecl) (id : TableId) : WM (list (IndexId * BTreeIndex T)) :=
  fold_each (add_btree decl id) ∅ (decl_indexes decl) ≫= fun m => mret (btree_entries m).

Definition add_spatial (id : TableId) (acc : option X) (ix : IndexSchema) : WM (option X) :=
  match ix with
  | Spatial rtree cols =>
      match acc with
      | Some _ => sm_fail SpatialDeclaredTwice
      | None => new_spatial rtree cols id ≫= fun x => mret (Some x)
      end
  | _ => mret acc
  end.

Definition build_spatial_index (decl : TableDecl) (id : TableId) : WM (option X) :=
  fold_each (add_spatial id) None (decl_indexes decl).

Definition add_fulltext (id : TableId) (acc : list X) (ix : IndexSchema) : WM (list X) :=
  match ix with
  | FullText col english stop_words stemming =>
      new_fulltext col english stop_words stemming id ≫= fun x => mret (acc ++ [x])
  | _ => mret acc
  end.

Definition build_fulltext_indexes (decl : TableDecl) (id : TableId) : WM (list X) :=
  fold_each (add_fulltext id) [] (decl_indexes decl).

Definition add_unique (id : TableId) (acc : list (UniqueIndex T)) (cols : list nat) : WM (list (UniqueIndex T)) :=
  new_tree id true ≫= fun t => mret (acc ++ [Build_UniqueIndex cols t]).

Definition build_table (decl : TableDecl) (id : TableId) : WM (TableState T X) :=
  fold_each (add_unique id) [] (decl_unique decl) ≫= fun uniques =>
  new_tree id false ≫= fun rows =>
  build_btree_indexes decl id ≫= fun idxs =>
  build_spatial_index decl id ≫= fun sp =>
  build_fulltext_indexes decl id ≫= fun ft =>
  mret (Build_TableState (decl_info decl) rows 0 idxs sp ft uniques 0).

(** The loop over the declared tables: catalog, tables and counters. *)
Definition Assembly : Type := Cat * gmap TableId (TableState T X) * gmap TableId AutoIncCounter.

Definition add_table (acc : Assembly) (decl : TableDecl) : WM Assembly :=
  let '(cat, tabs, ctrs) := acc in
  let id := table_id_of (decl_name decl) in
  if bool_decide (is_Some (cat !! id)) then sm_fail (TableIdCollision id)
  else
    build_table decl id ≫= fun ts =>
    mret (<[id := decl]> cat, <[id := ts]> tabs,
          match ti_auto_inc (decl_info decl) with Some _ => <[id := counter_new]> ctrs | None => ctrs end).

(** The store over the assembled tables: version 0, pinned by its guard. *)
Definition new_store (env : StoreEnv) (tabs : gmap TableId (TableState T X)) (ctrs : gmap TableId AutoIncCounter) (w : W) : Store := {|
  ms_env := env;
  ms_world := w;
  ms_reclaimer := pin 0 inner_new;
  ms_arcs := {[0 := 1]};
  ms_committed := Build_CommittedState tabs 0;
  ms_writer := {| next_tx_id := 1; next_version := 1; counters := ctrs; high_water_dirty := ∅ |};
  ms_history := [];
  ms_blobs := None;
  ms_budget_evictions := 0 |}.

(** What the registry and the declarations fix. *)
Definition build_env (reg : Registry) (triggers : TableId -> bool) (opts : StoreOptions) (cat : Cat) : result StoreError StoreEnv :=
  let '(cks, nulls) := build_checks table_id_of cat (registered_checks reg) (registered_not_nulls reg) in
  build_foreign_keys table_id_of cat (registered_foreign_keys reg) ∅ ∅ ≫= fun '(f_out, f_in) =>
  Ok {|
    catalog := decl_info <$> cat;
    options := opts;
    transforms := None;
    computed := build_computed table_id_of cat (registered_computed reg);
    checks := cks;
    not_null := nulls;
    fks_out := f_out;
    fks_in := f_in;
    has_triggers := triggers;
    global_writes_allowed := true |}.

(** Hand the pager over to the store. *)
Definition over_world {A} (f : W -> A) : WM A := fun w => (Ok (f w), w).

(** [spatial_ok] is the check of the spatial bucket size and bounds. *)
Definition build (spatial_ok : bool) (reg : Registry) (triggers : TableId -> bool) (opts : StoreOptions)
    (decls : list TableDecl) : WM Store :=
  if (auto_inc_allocation_step opts =? 0) || negb spatial_ok then sm_fail InvalidOptions
  else
    fold_each add_table ((∅, ∅, ∅) : Assembly) decls ≫= fun '(cat, tabs, ctrs) =>
    sm_lift (build_env reg triggers opts cat) ≫= fun env =>
    over_world (new_store env tabs ctrs).

(** * Recovery

    The recovered tables are installed before the first transaction; every
    auto-increment counter resumes after its recovered mark. *)

Definition resume_counters (tabs : gmap TableId (TableState T X)) (ctrs : gmap TableId AutoIncCounter) : gmap TableId AutoIncCounter :=
  omap (fun ts => match ti_auto_inc (schema ts) with
    | Some _ => Some {| next := sat_add 64 (auto_inc_high_water ts) 1; high_water := auto_inc_high_water ts |}
    | None => None
    end) tabs ∪ ctrs.

(** The state is published twice held, by the slot and by the caller, which
    lets go of it at once. *)
Definition install_recovered (tabs : gmap TableId (TableState T X)) (next_tx : Z) : SM Store StoreError unit := fun ms =>
  if next_tx =? 0 then (Err RecoveredTxZero, ms)
  else if negb (bool_decide (dom tabs = dom (catalog (ms_env ms)))) then (Err RecoveredTables, ms)
  else if negb (next_tx_id (ms_writer ms) =? 1) then (Err RecoveredLate, ms)
  else
    let wr := ms_writer ms in
    let ms := set_writer ms {| next_tx_id := next_tx; next_version := next_version wr;
                               counters := resume_counters tabs (counters wr); high_water_dirty := high_water_dirty wr |} in
    let '(cs, ms) := publish_versioned tabs ms in
    (Ok tt, arc_drop (cs_version cs) ms).
End build.

(** * Assembly establishes the invariant *)

Section made.
Context {W T X : Type} {KT : KvTree W T} {KL : KvTreeLaws W T} {RC : RowCodec} {SI : SideIndex W X} {SB : SideBuild W X}.
Notation WM := (SM W StoreError).

Definition room_back {A} (m : WM A) : Prop := forall w, kt_room (m w).2 -> kt_room w.

(** What [m] returns satisfies [Q] with pages that were not in use before. *)
Definition made {A} (m : WM A) (w : W) (Q : A -> W -> list Page -> Prop) : Prop := forall a w', kt_ok w -> kt_room w' ->
  m w = (Ok a, w') -> exists f, kt_le w w' /\ NoDup f /\ Forall (fun p => ~ kt_used w p /\ kt_used w' p) f /\ Q a w' f.

Lemma back_ret {A} (a : A) : room_back (mret a).
Proof using Type. by intros w. Qed.
Lemma back_fail {A} e : room_back (sm_fail e : WM A).
Proof using Type. by intros w. Qed.
Lemma back_lift {A} (r : result StoreError A) : room_back (sm_lift r).
Proof using Type. by intros w. Qed.
Lemma back_bind {A C} (m : WM A) (k : A -> WM C) : room_back m -> (forall a, room_back (k a)) -> room_back (m ≫= k).
Proof using Type.
  intros Hm Hk w. unfold mbind, sm_bind. specialize (Hm w).
  destruct (m w) as [[a|e] w']; simpl in *; [|done]. intros Hr. by apply Hm, (Hk a).
Qed.
Lemma back_tree id idx : room_back (new_tree (W := W) (T := T) id idx).
Proof using Type.
  intros w. pose proof (kt_create_room w id idx) as Hr. unfold new_tree, sm_map_err. by destruct (kt_create id idx w) as [[?|?] ?].
Qed.
Lemma back_fold {A C} (f : A -> C -> WM A) l : (forall a c, room_back (f a c)) -> forall a, room_back (fold_each f a l).
Proof using Type. intros Hf. induction l as [|x l IH]; intros a; simpl; [apply back_ret|]. by apply back_bind. Qed.

Lemma made_ret {A} (a : A) w (Q : A -> W -> list Page -> Prop) : Q a w [] -> made (mret a) w Q.
Proof using Type. intros HQ a' w' Hok _ [= <- <-]. exists []. split_and!; [by apply kt_le_refl|constructor|constructor|done]. Qed.
Lemma made_lift {A C} (r : result StoreError A) (k : A -> WM C) w Q : (forall a, r = Ok a -> made (k a) w Q) -> made (sm_lift r ≫= k) w Q.
Proof using Type.
  intros Hk a w' Hok Hr E. unfold mbind, sm_bind, sm_lift in E. destruct r as [b|]; [|done]. by apply (Hk b eq_refl).
Qed.
Lemma made_weaken {A} (m : WM A) w (P Q : A -> W -> list Page -> Prop) :
  (forall a w' f, P a w' f -> Q a w' f) -> made m w P -> made m w Q.
Proof using Type.
  intros HPQ Hm a w' Hok Hr E. destruct (Hm a w' Hok Hr E) as (f & L & Hn & Hf & HP). exists f. split_and!; auto.
Qed.
Lemma made_bind {A C} (m : WM A) (k : A -> WM C) w (P : A -> W -> list Page -> Prop) (Q : C -> W -> list Page -> Prop) :
  made m w P -> (forall a, room_back (k a)) ->
  (forall a w' f, kt_le w w' -> P a w' f -> made (k a) w' (fun c w'' g => Q c w'' (f ++ g))) -> made (m ≫= k) w Q.
Proof using Type.
  intros Hm Hb Hk c w2 Hok Hr E. unfold mbind, sm_bind in E. destruct (m w) as [[a|] w1] eqn:Em; [|done].
  assert (kt_room w1) as Hr1. { apply (Hb a). by rewrite E. }
  destruct (Hm a w1 Hok Hr1 Em) as (f & L & Hn & Hf & HP).
  destruct (Hk a w1 f L HP c w2 (kt_le_ok _ _ L) Hr E) as (g & L2 & Hn2 & Hg & HQ).
  exists (f ++ g). rewrite !Forall_forall in *. split_and!; [by eapply kt_le_trans| | |done].
  - apply NoDup_app. split_and!; try done. intros p Hp Hpg. destruct (Hf p Hp), (Hg p Hpg). done.
  - intros p [Hp|Hp]%elem_of_app.
    + destruct (Hf p Hp). split; [done|]. by eapply kt_le_used.
    + destruct (Hg p Hp) as [Hu ?]. split; [|done]. intros Hw. apply Hu. by eapply kt_le_used.
Qed.
Lemma made_tree id idx w : made (new_tree id idx) w (fun t w' f => kt_is (T := T) w' t ∅ f).
Proof using Type.
  intros t w' Hok Hr E. unfold new_tree, sm_map_err in E. destruct (kt_create id idx w) as [[t'|] w1] eqn:Ec; [|done]. simplify_eq.
  assert (kt_room (kt_create id idx w).2) as Hr' by by rewrite Ec.
  destruct (kt_create_spec w id idx Hok Hr') as (t1 & w1 & f & E & L & Ht & Hn & Hf). rewrite Ec in E. simplify_eq. by exists f.
Qed.
End made.

#[global] Hint Resolve back_ret back_fail back_lift back_bind back_tree back_fold : room.

(** Only B-tree indexes are declared. *)
Definition is_btree (ix : IndexSchema) : bool := match ix with BTree _ => true | _ => false end.
Definition plain_decl (decl : TableDecl) : bool := forallb is_btree (decl_indexes decl).

Section built.
Context {W T X B : Type} {KT : KvTree W T} {KL : KvTreeLaws W T} {RC : RowCodec} {SI : SideIndex W X} {BS : BlobStore B} {SB : SideBuild W X}.
Context (table_id_of : list Z -> TableId) (index_id_of : list Z -> list (list Z) -> IndexId).

Lemma idx_rel_empty cols : idx_rel cols ∅ ∅.
Proof using Type. intros k v. rewrite lookup_empty. split; [done|]. intros (r & Hr & _). by rewrite lookup_empty in Hr. Qed.
Lemma uniq_rel_empty cols : uniq_rel cols ∅ ∅.
Proof using Type. intros k v. rewrite lookup_empty. split; [done|]. intros (r & Hr & _). by rewrite lookup_empty in Hr. Qed.

Lemma made_add_unique id acc cols w : made (W := W) (add_unique (T := T) id acc cols) w (fun res w' f => exists t,
  res = acc ++ [Build_UniqueIndex cols t] /\ kt_is w' t ∅ f).
Proof using KL.
  eapply made_bind; [apply made_tree|intros; apply back_ret|]. intros t w1 f1 L1 Ht. apply made_ret. exists t. by rewrite app_nil_r.
Qed.

Lemma back_add_unique id acc cols : room_back (add_unique (W := W) (T := T) id acc cols).
Proof using KL. apply back_bind; [apply back_tree|]. intros. apply back_ret. Qed.

Lemma made_unique id l : forall w acc, made (W := W) (fold_each (add_unique (T := T) id) acc l) w (fun res w' f => exists us fs,
  res = acc ++ us /\ f = concat fs /\ Forall2 (uniq_is ∅ w') us fs /\ map ui_columns us = l).
Proof using KL.
  induction l as [|cols l IH]; intros w acc; simpl.
  - apply made_ret. exists [], []. rewrite app_nil_r. split_and!; try done; constructor.
  - eapply made_bind; [apply made_add_unique|intros; apply back_fold; intros; apply back_add_unique|].
    intros res w1 f1 L1 (t & -> & Ht) res' w2 Hok Hr E. destruct (IH w1 _ res' w2 Hok Hr E) as (g & L2 & Hn & Hg & us & fs & -> & -> & HF & Hc).
    exists (concat fs). split_and!; try done. exists (Build_UniqueIndex cols t :: us), (f1 :: fs). rewrite <- app_assoc. split_and!; try done.
    + constructor; [|done]. exists ∅. split; [by eapply kt_is_le|apply uniq_rel_empty].
    + simpl. by rewrite Hc.
Qed.

(** Empty indexes, each with its own pages. *)
Definition indexes_at (w : W) (m : gmap IndexId (BTreeIndex T)) (fs : gmap IndexId (list Page)) : Prop :=
  forall i, option_Forall2 (fun ix f => index_is ∅ w ix f) (m !! i) (fs !! i).

Lemma indexes_at_le w w' m fs : kt_le w w' -> indexes_at w m fs -> indexes_at w' m fs.
Proof using Type.
  intros L Hm i. specialize (Hm i). inversion Hm as [ix g Hi Ea Eb|Ea Eb]; constructor. by eapply index_is_le.
Qed.

Lemma back_add_btree decl id acc ix : room_back (add_btree (W := W) (T := T) index_id_of decl id acc ix).
Proof using KL.
  destruct ix as [cols| |]; simpl; try apply back_ret. apply back_bind; [apply back_lift|]. intros names.
  apply back_bind; [apply back_tree|]. intros t. destruct (bool_decide _); [apply back_fail|apply back_ret].
Qed.

Lemma made_indexes decl id l : forall w acc fs, indexes_at w acc fs ->
  made (fold_each (add_btree index_id_of decl id) acc l) w (fun m w' f => exists fs', fp fs' ≡ₚ fp fs ++ f /\ indexes_at w' m fs').
Proof using KL.
  induction l as [|ix l IH]; intros w acc fs Hacc; simpl.
  - apply made_ret. exists fs. by rewrite app_nil_r.
  - eapply made_bind with (P := fun m w' f => exists fs', fp fs' ≡ₚ fp fs ++ f /\ indexes_at w' m fs');
      [|intros; apply back_fold; intros; apply back_add_btree|].
    + destruct ix as [cols| |]; simpl; try (apply made_ret; exists fs; by rewrite app_nil_r).
      apply made_lift. intros names _. eapply made_bind; [apply made_tree| |].
      { intros t. destruct (bool_decide _); [apply back_fail|apply back_ret]. }
      intros t w1 f1 L1 Ht. destruct (bool_decide _) eqn:Eb; [by intros ?? _ _|]. apply bool_decide_eq_false_1, eq_None_not_Some in Eb.
      apply made_ret. rewrite app_nil_r. set (i := index_id_of _ _) in *.
      assert (fs !! i = None) as Efs. { specialize (Hacc i). rewrite Eb in Hacc. by inversion Hacc. }
      exists (<[i := f1]> fs). split; [rewrite fp_insert by done; apply Permutation_app_comm|].
      intros j. destruct (decide (j = i)) as [->|].
      * rewrite !lookup_insert_eq. constructor. exists ∅. split; [done|apply idx_rel_empty].
      * rewrite !lookup_insert_ne by done. by apply (indexes_at_le w w1 acc fs L1 Hacc).
    + intros m w1 f1 L1 (fs1 & Hf1 & Hm) m2 w2 Hok Hr E.
      destruct (IH w1 m fs1 Hm m2 w2 Hok Hr E) as (g & L2 & Hn & Hg & fs2 & Hf2 & Hm2).
      exists g. split_and!; try done. exists fs2. split; [|done]. by rewrite Hf2, Hf1, app_assoc.
Qed.

Lemma indexes_list w m fs : indexes_at w m fs ->
  exists fi, concat fi ≡ₚ fp fs /\ Forall2 (fun i => index_is ∅ w i.2) (btree_entries m) fi.
Proof using Type.
  intros Hm. exists (map (fun p => default [] (fs !! p.1)) (btree_entries m)). split.
  - unfold fp. rewrite (btree_entries_perm m).
    assert (map_to_list fs ≡ₚ map (fun p => (p.1, default [] (fs !! p.1))) (map_to_list m)) as ->.
    { apply NoDup_Permutation; [apply NoDup_map_to_list| |].
      - apply (NoDup_fmap_1 fst). rewrite <- list_fmap_compose. apply (NoDup_fst_map_to_list m).
      - intros [i f]. rewrite elem_of_map_to_list, list_elem_of_fmap. specialize (Hm i). split.
        + intros E. rewrite E in Hm. inversion Hm as [ix g Hi Ea Eb|]. subst. exists (i, ix). rewrite elem_of_map_to_list. simpl. by rewrite E.
        + intros ([i' ix] & [= -> ->] & Hin%elem_of_map_to_list). rewrite Hin in Hm. inversion Hm as [? g Hi Ea Eb|]. done. }
    rewrite <- list_fmap_compose. done.
  - apply Forall2_fmap_r, Forall_Forall2_diag, Forall_forall. intros [i ix] Hin%elem_of_btree_entries. simpl. specialize (Hm i).
    rewrite Hin in Hm. inversion Hm as [? g Hi Ea Eb|]. done.
Qed.

Lemma no_side_builds decl id w : plain_decl decl = true ->
  build_spatial_index (X := X) decl id w = (Ok None, w) /\ build_fulltext_indexes (X := X) decl id w = (Ok [], w).
Proof using Type.
  unfold plain_decl, build_spatial_index, build_fulltext_indexes. generalize (@nil X) as xs. generalize (decl_indexes decl) as l. intros l xs Hp.
  assert (forall l, forallb is_btree l = true -> fold_each (add_spatial id) (None : option X) l w = (Ok None, w) /\ fold_each (add_fulltext id) xs l w = (Ok xs, w)) as Hl.
  { clear. induction l as [|ix l IH]; [done|]. destruct ix; simpl; try done. }
  by apply Hl.
Qed.

Lemma made_table decl id w : plain_decl decl = true -> made (build_table index_id_of decl id) w (fun (ts : TableState T X) w' f =>
  table_is w' ts ∅ f /\ schema ts = decl_info decl /\ sh_uniq (shape ts) = decl_unique decl).
Proof using KL.
  intros Hp. unfold build_table. eapply made_bind; [apply made_unique| |].
  { intros us. apply back_bind; [apply back_tree|]. intros t. apply back_bind.
    - apply back_bind; [apply back_fold; intros; apply back_add_btree|intros; apply back_ret].
    - intros idxs w0. unfold mbind, sm_bind. destruct (no_side_builds decl id w0 Hp) as [-> ->]. done. }
  intros us w1 f1 L1 (us' & fu & -> & -> & HU & Hc). simpl. eapply made_bind; [apply made_tree| |].
  { intros t. apply back_bind.
    - apply back_bind; [apply back_fold; intros; apply back_add_btree|intros; apply back_ret].
    - intros idxs w0. unfold mbind, sm_bind. destruct (no_side_builds decl id w0 Hp) as [-> ->]. done. }
  intros t w2 f2 L2 Ht ts w3 Hok Hr E. unfold build_btree_indexes, mbind, sm_bind in E.
  destruct (fold_each (add_btree index_id_of decl id) ∅ (decl_indexes decl) w2) as [[m|] w2'] eqn:Em; [|done]. cbn [mret sm_ret] in E.
  unfold mret, sm_ret in E. destruct (no_side_builds decl id w2' Hp) as [Es Ef]. rewrite Es, Ef in E. simplify_eq.
  destruct (made_indexes decl id _ w2 ∅ ∅ ltac:(intros i; rewrite !lookup_empty; constructor) m w3 Hok Hr Em) as (f3 & L3 & Hn & Hf & fs & Hfs & Hm).
  exists f3. split; [done|]. split; [done|]. split; [done|]. destruct (indexes_list w3 m fs Hm) as (fi & Hfi & HI). split; [|done].
  split; [|apply map_Forall_empty]. exists f2, fi, fu. split; [|split; [|split; [done|split; [|done]]]].
  - rewrite Hfi, Hfs. unfold fp. rewrite map_to_list_empty. simpl. rewrite (app_assoc f2). apply Permutation_app_comm.
  - split; [|split; [done|apply map_Forall_empty]]. simpl. rewrite omap_empty. by eapply kt_is_le.
  - simpl. eapply Forall2_impl; [exact HU|]. intros c g. apply uniq_is_le. by eapply kt_le_trans.
Qed.

(** Every table of an assembly is empty. *)
Definition empties {A} (tabs : gmap TableId A) : contents := (fun _ => ∅) <$> tabs.

Definition assembled (w : W) (acc : Assembly (T := T) (X := X)) (f : list Page) : Prop := exists fs,
  f ≡ₚ fp fs /\ tables_is w acc.1.2 (empties acc.1.2) fs /\
  (forall id, (schema <$> acc.1.2 !! id) = decl_info <$> acc.1.1 !! id) /\
  (forall id ts, acc.1.2 !! id = Some ts -> exists decl, acc.1.1 !! id = Some decl /\ sh_uniq (shape ts) = decl_unique decl).

Lemma back_build_table decl id : plain_decl decl = true -> room_back (build_table (W := W) (T := T) (X := X) index_id_of decl id).
Proof using KL.
  intros Hp. apply back_bind; [apply back_fold; intros; apply back_add_unique|]. intros us. apply back_bind; [apply back_tree|]. intros t.
  apply back_bind.
  - apply back_bind; [apply back_fold; intros; apply back_add_btree|intros; apply back_ret].
  - intros idxs w0. unfold mbind, sm_bind. destruct (no_side_builds decl id w0 Hp) as [-> ->]. done.
Qed.

Lemma assembled_le w w' acc f : kt_le w w' -> assembled w acc f -> assembled w' acc f.
Proof using Type. intros L (fs & Hf & HT & H1 & H2). exists fs. split_and!; try done. by eapply tables_is_le. Qed.

Lemma made_tables decls : forallb plain_decl decls = true -> forall w acc f0, assembled w acc f0 ->
  made (fold_each (add_table table_id_of index_id_of) acc decls) w (fun acc' w' f => assembled w' acc' (f0 ++ f)).
Proof using KL.
  induction decls as [|decl decls IH]; intros Hp w acc f0 Hacc; simpl in *; [apply made_ret; by rewrite app_nil_r|].
  apply andb_true_iff in Hp as [Hp Hps].
  assert (forall acc d, In d (decl :: decls) -> room_back (add_table (W := W) (T := T) (X := X) table_id_of index_id_of acc d)) as Hback.
  { intros [[cat tabs] ctrs] d Hd. unfold add_table. destruct (bool_decide _); [apply back_fail|]. apply back_bind; [|intros; apply back_ret].
    apply back_build_table. destruct Hd as [->|Hd]; [done|]. rewrite forallb_forall in Hps. by apply Hps. }
  eapply made_bind with (P := fun acc' w' f => assembled w' acc' (f0 ++ f)).
  - destruct acc as [[cat tabs] ctrs]. unfold add_table. destruct (bool_decide _) eqn:Eb; [by intros ?? _ _|].
    apply bool_decide_eq_false_1, eq_None_not_Some in Eb. eapply made_bind; [by apply made_table|intros; apply back_ret|].
    intros ts w1 f1 L1 (Ht & Es & Eu). apply made_ret. rewrite app_nil_r. set (id := table_id_of (decl_name decl)) in *.
    destruct (assembled_le _ _ _ _ L1 Hacc) as (fs & Hf & HT & Hs & Hu). simpl in *.
    assert (tabs !! id = None) as Et. { specialize (Hs id). rewrite Eb in Hs. by destruct (tabs !! id). }
    assert (fs !! id = None) as Ef. { specialize (HT id). rewrite Et in HT. apply HT. }
    exists (<[id := f1]> fs). split; [rewrite fp_insert, Hf by done; apply Permutation_app_comm|]. simpl. split_and!.
    + intros id'. unfold empties. rewrite fmap_insert. destruct (decide (id' = id)) as [->|].
      * rewrite !lookup_insert_eq. by exists ∅, f1.
      * rewrite !lookup_insert_ne by done. apply HT.
    + intros id'. destruct (decide (id' = id)) as [->|]; [rewrite !lookup_insert_eq; simpl; by rewrite Es|by rewrite !lookup_insert_ne].
    + intros id' ts'. destruct (decide (id' = id)) as [->|]; [|rewrite !lookup_insert_ne by done; apply Hu].
      rewrite !lookup_insert_eq. intros [= <-]. by exists decl.
  - intros acc'. clear -Hback KL. assert (forall l, (forall d, In d l -> In d decls) -> forall acc,
      room_back (fold_each (add_table (W := W) (T := T) (X := X) table_id_of index_id_of) acc l)) as Hl; [|by apply Hl].
    induction l as [|d l IHl]; intros Hin a; simpl; [apply back_ret|]. apply back_bind; [apply Hback; right; by apply Hin; left|].
    intros a'. apply IHl. intros d' Hd'. apply Hin. by right.
  - intros acc' w1 f1 L1 Hacc'. eapply made_weaken; [|by apply IH]. simpl. intros a w2 g. by rewrite app_assoc.
Qed.

(** A store that was assembled over plain tables starts in the invariant, with
    one version in which every table is empty. *)
Lemma build_inv spatial_ok reg triggers opts decls w w' (ms : MemStore W T X B) : kt_ok w -> kt_room w' -> forallb plain_decl decls = true ->
  build table_id_of index_id_of spatial_ok reg triggers opts decls w = (Ok ms, w') ->
  exists fs, let tabs := cs_tables (ms_committed ms) in
    store_inv ms (fun _ => 0) {[0 := Build_VersionState tabs (empties tabs) fs]}.
Proof using KL.
  intros Hok Hr Hp. unfold build. destruct (_ || _); [done|].
  intros E. unfold mbind at 1, sm_bind at 1 in E.
  destruct (fold_each (add_table table_id_of index_id_of) (∅, ∅, ∅) decls w) as [[[[cat tabs] ctrs]|] w1] eqn:Ef; [|done].
  unfold mbind, sm_bind, sm_lift, over_world in E. destruct (build_env _ _ _ _ cat) as [env|]; [|done]. simplify_eq.
  assert (assembled w ((∅, ∅, ∅) : Assembly (T := T) (X := X)) []) as H0.
  { exists ∅. split_and!; [unfold fp; by rewrite map_to_list_empty| | |]; simpl.
    - intros id. rewrite lookup_empty. split; [|apply lookup_empty]. unfold empties. by rewrite fmap_empty.
    - intros id. by rewrite !lookup_empty.
    - intros id ts. by rewrite lookup_empty. }
  destruct (made_tables decls Hp w _ [] H0 _ _ Hok Hr Ef) as (f & L & Hn & Hu & fs & Hf & HT & _). simpl in *.
  exists fs. split; simpl.
  - by eapply kt_le_ok.
  - done.
  - intros v. destruct (decide (v = 0)) as [->|]; [rewrite lookup_singleton_eq; done|].
    rewrite lookup_singleton_ne by done. unfold one_if. by rewrite decide_False by done.
  - intros v n. rewrite lookup_singleton_Some. lia.
  - intros v. rewrite lookup_empty. simpl. destruct (decide (v = 0)) as [->|]; [by rewrite lookup_insert_eq, lookup_singleton_eq|].
    by rewrite lookup_insert_ne, lookup_empty, lookup_singleton_ne by done.
  - intros v. destruct (decide (v = 0)) as [->|]; [by rewrite !lookup_singleton_eq; split|by rewrite !lookup_singleton_ne].
  - intros v s. rewrite lookup_singleton_Some. intros [<- <-]. split; [done|]. rewrite Hf in Hn, Hu. simpl. split; [done|].
    eapply Forall_impl; [exact Hu|]. by intros p [_ ?].
  - intros k l. by rewrite lookup_empty.
  - eexists. by rewrite lookup_singleton_eq.
  - intros e He. by apply elem_of_nil in He.
  - intros v [s Hs]. apply lookup_singleton_Some in Hs as [<- _]. lia.
Qed.
End built.

(** * Foreign keys are resolved well *)

Section fks.
Context (table_id_of : list Z -> TableId).

(** The reference names the parent's single key column, with its type. *)
Definition fk_typed (cat : Cat) (fk : ResolvedFk) : Prop := exists child parent o ty cty,
  cat !! fk_child fk = Some child /\ decl_info child = fk_child_schema fk /\
  cat !! fk_parent fk = Some parent /\ decl_info parent = fk_parent_schema fk /\
  primary_key (ti_schema (fk_parent_schema fk)) = [o] /\ columns (ti_schema (fk_parent_schema fk)) !! o = Some ty /\
  columns (ti_schema (fk_child_schema fk)) !! fk_child_ordinal fk = Some cty /\ option_inner cty = ty /\
  (fk_on_delete fk = SetNull -> is_option cty = true).

Lemma resolve_fk_typed cat def fk : resolve_fk table_id_of cat def = Ok (Some fk) -> fk_typed cat fk.
Proof.
  unfold resolve_fk. destruct (cat !! table_id_of (fd_table def)) as [child|] eqn:Ec; [|done].
  destruct (cat !! table_id_of (fd_parent_table def)) as [parent|] eqn:Ep; simpl; [|done].
  destruct (primary_key (ti_schema (decl_info parent))) as [|o [|]] eqn:Eo; try done.
  destruct (columns (ti_schema (decl_info parent)) !! o) as [ty|] eqn:Ety; simpl; [|done]. destruct (negb _); [done|].
  destruct (columns (ti_schema (decl_info child)) !! fd_ordinal def) as [cty|] eqn:Ecty; simpl; [|done].
  destruct (bool_decide (option_inner cty = ty)) eqn:Eb; simpl; [|done]. apply bool_decide_eq_true_1 in Eb.
  destruct (bool_decide (fd_on_delete def = SetNull) && negb (is_option cty)) eqn:En; [done|]. intros [= <-].
  exists child, parent, o, ty, cty. simpl. split_and!; try done. intros Es. rewrite Es in En. simpl in En. by destruct (is_option cty).
Qed.

(** The maps by child and by parent hold the same keys. *)
Definition fk_maps (cat : Cat) (fks_out fks_in : gmap TableId (list ResolvedFk)) : Prop :=
  (forall id fks fk, fks_out !! id = Some fks -> fk ∈ fks -> fk_child fk = id /\ fk_typed cat fk /\
     exists fks', fks_in !! fk_parent fk = Some fks' /\ fk ∈ fks') /\
  (forall id fks fk, fks_in !! id = Some fks -> fk ∈ fks -> fk_parent fk = id /\ exists fks', fks_out !! fk_child fk = Some fks' /\ fk ∈ fks').

Lemma push_elem (m : gmap TableId (list ResolvedFk)) k x id fks fk : <[k := default [] (m !! k) ++ [x]]> m !! id = Some fks -> fk ∈ fks ->
  (fk = x /\ id = k) \/ exists fks', m !! id = Some fks' /\ fk ∈ fks'.
Proof.
  destruct (decide (id = k)) as [->|]; [|rewrite lookup_insert_ne by done; intros; right; by exists fks].
  rewrite lookup_insert_eq. intros [= <-] [Hin|Hin%list_elem_of_singleton]%elem_of_app; [|by left].
  right. destruct (m !! k) as [l|]; [by exists l|by apply elem_of_nil in Hin].
Qed.

Lemma push_keeps (m : gmap TableId (list ResolvedFk)) k x id fk : (exists fks, m !! id = Some fks /\ fk ∈ fks) ->
  exists fks, <[k := default [] (m !! k) ++ [x]]> m !! id = Some fks /\ fk ∈ fks.
Proof.
  intros (fks & E & Hin). destruct (decide (id = k)) as [->|]; [|exists fks; by rewrite lookup_insert_ne].
  rewrite lookup_insert_eq, E. eexists. split; [done|]. simpl. apply elem_of_app. by left.
Qed.

Lemma push_new (m : gmap TableId (list ResolvedFk)) k x : exists fks, <[k := default [] (m !! k) ++ [x]]> m !! k = Some fks /\ x ∈ fks.
Proof. rewrite lookup_insert_eq. eexists. split; [done|]. apply elem_of_app. right. by apply list_elem_of_singleton. Qed.

Lemma build_fks_maps cat defs : forall out in_ out' in', fk_maps cat out in_ -> build_foreign_keys table_id_of cat defs out in_ = Ok (out', in') ->
  fk_maps cat out' in'.
Proof.
  induction defs as [|def defs IH]; intros out in_ out' in' [H1 H2]; simpl; [by intros [= <- <-]|].
  destruct (resolve_fk table_id_of cat def) as [[fk|]|] eqn:Er; simpl; [|by apply IH|done].
  apply IH. pose proof (resolve_fk_typed _ _ _ Er) as Ht. split.
  - intros id fks fk' Hid Hin. destruct (push_elem _ _ _ _ _ _ Hid Hin) as [[-> ->]|(fks' & Hid' & Hin')].
    + split_and!; try done. apply push_new.
    + destruct (H1 id fks' fk' Hid' Hin') as (? & ? & ?). split_and!; try done. by apply push_keeps.
  - intros id fks fk' Hid Hin. destruct (push_elem _ _ _ _ _ _ Hid Hin) as [[-> ->]|(fks' & Hid' & Hin')].
    + split; [done|]. apply push_new.
    + destruct (H2 id fks' fk' Hid' Hin') as (? & ?). split; [done|]. by apply push_keeps.
Qed.

Lemma fk_maps_empty cat : fk_maps cat ∅ ∅.
Proof. split; intros id fks fk; by rewrite lookup_empty. Qed.

(** What a [#[references]] declaration means in a catalog: the parent is an
    assembled table with one primary-key column, the declared column is that
    column by name, the referencing column exists and has its type, directly or
    as an option, and [set_null] needs the option. *)
Definition fk_for (cat : Cat) (def : ForeignKeyDef) (fk : ResolvedFk) : Prop := exists child parent o ty cty,
  cat !! table_id_of (fd_table def) = Some child /\ cat !! table_id_of (fd_parent_table def) = Some parent /\
  primary_key (ti_schema (decl_info parent)) = [o] /\ columns (ti_schema (decl_info parent)) !! o = Some ty /\
  decl_columns parent !! o = Some (fd_parent_column def) /\
  columns (ti_schema (decl_info child)) !! fd_ordinal def = Some cty /\ option_inner cty = ty /\
  (fd_on_delete def = SetNull -> is_option cty = true) /\
  fk = {| fk_child := table_id_of (fd_table def); fk_child_schema := decl_info child; fk_child_ordinal := fd_ordinal def;
          fk_parent := table_id_of (fd_parent_table def); fk_parent_schema := decl_info parent; fk_on_delete := fd_on_delete def |}.

(** The declarations that count: those of assembled tables. *)
Definition declared (cat : Cat) (def : ForeignKeyDef) : Prop := is_Some (cat !! table_id_of (fd_table def)).
#[global] Instance declared_dec cat def : Decision (declared cat def) := is_Some_dec _.

Lemma resolve_fk_spec cat def :
  match resolve_fk table_id_of cat def with
  | Ok (Some fk) => declared cat def /\ fk_for cat def fk
  | Ok None => ~ declared cat def
  | Err _ => declared cat def /\ forall fk, ~ fk_for cat def fk
  end.
Proof.
  unfold resolve_fk, declared. destruct (cat !! table_id_of (fd_table def)) as [child|] eqn:Ec; [|by intros [? ?]].
  assert ((forall parent o ty cty, cat !! table_id_of (fd_parent_table def) = Some parent -> primary_key (ti_schema (decl_info parent)) = [o] ->
      columns (ti_schema (decl_info parent)) !! o = Some ty -> decl_columns parent !! o = Some (fd_parent_column def) ->
      columns (ti_schema (decl_info child)) !! fd_ordinal def = Some cty -> option_inner cty = ty ->
      (fd_on_delete def = SetNull -> is_option cty = true) -> False) -> forall fk, ~ fk_for cat def fk) as Hno.
  { intros H fk (child' & parent & o & ty & cty & Ec' & E1 & E2 & E3 & E4 & E5 & E6 & E7 & _).
    rewrite Ec in Ec'. injection Ec' as <-. by eapply H. }
  destruct (cat !! table_id_of (fd_parent_table def)) as [parent|] eqn:Ep; simpl; [|split; [by eexists|]; apply Hno; congruence].
  destruct (primary_key (ti_schema (decl_info parent))) as [|o [|]] eqn:Eo; try (split; [by eexists|]; apply Hno; congruence).
  destruct (columns (ti_schema (decl_info parent)) !! o) as [ty|] eqn:Ety; simpl; [|split; [by eexists|]; apply Hno; congruence].
  destruct (bool_decide (decl_columns parent !! o = Some (fd_parent_column def))) eqn:En; simpl;
    [apply bool_decide_eq_true_1 in En|apply bool_decide_eq_false_1 in En; split; [by eexists|]; apply Hno; congruence].
  destruct (columns (ti_schema (decl_info child)) !! fd_ordinal def) as [cty|] eqn:Ecty; simpl; [|split; [by eexists|]; apply Hno; congruence].
  destruct (bool_decide (option_inner cty = ty)) eqn:Eb; simpl;
    [apply bool_decide_eq_true_1 in Eb|apply bool_decide_eq_false_1 in Eb; split; [by eexists|]; apply Hno; congruence].
  destruct (bool_decide (fd_on_delete def = SetNull)) eqn:Es; simpl;
    [apply bool_decide_eq_true_1 in Es; destruct (is_option cty) eqn:Ei; simpl|apply bool_decide_eq_false_1 in Es].
  - split; [by eexists|]. by exists child, parent, o, ty, cty.
  - split; [by eexists|]. apply Hno. intros ???? ????? _ H. specialize (H Es). congruence.
  - split; [by eexists|]. by exists child, parent, o, ty, cty.
Qed.

Lemma push_default {A} (m : gmap TableId (list A)) k x id :
  default [] (<[k := default [] (m !! k) ++ [x]]> m !! id) = default [] (m !! id) ++ (if decide (k = id) then [x] else []).
Proof. case_decide as E; [subst; by rewrite lookup_insert_eq|rewrite lookup_insert_ne by done; by rewrite app_nil_r]. Qed.

(** The keys resolved from a list of declarations, and the first that has no
    resolution. *)
Lemma build_fks_spec cat defs : forall out in_,
  match build_foreign_keys table_id_of cat defs out in_ with
  | Ok (out', in') => exists fks, Forall2 (fk_for cat) (filter (declared cat) defs) fks /\ forall id,
      default [] (out' !! id) = default [] (out !! id) ++ filter (fun fk => fk_child fk = id) fks /\
      default [] (in' !! id) = default [] (in_ !! id) ++ filter (fun fk => fk_parent fk = id) fks
  | Err _ => exists def, def ∈ defs /\ declared cat def /\ forall fk, ~ fk_for cat def fk
  end.
Proof.
  induction defs as [|def defs IH]; intros out in_; simpl.
  - exists []. split; [constructor|]. intros id. by rewrite !app_nil_r.
  - pose proof (resolve_fk_spec cat def) as Hd. destruct (resolve_fk table_id_of cat def) as [[fk|]|e]; simpl.
    + destruct Hd as [Hd Hf]. rewrite filter_cons_True by done.
      specialize (IH (<[fk_child fk := default [] (out !! fk_child fk) ++ [fk]]> out) (<[fk_parent fk := default [] (in_ !! fk_parent fk) ++ [fk]]> in_)).
      destruct (build_foreign_keys _ _ _ _ _) as [[out' in']|e]; [|destruct IH as (d & ? & ?); exists d; split; [by right|done]].
      destruct IH as (fks & HF & H). exists (fk :: fks). split; [by constructor|]. intros id. destruct (H id) as [-> ->].
      rewrite !push_default, <-!app_assoc, !filter_cons. by repeat case_decide.
    + rewrite filter_cons_False by done. specialize (IH out in_).
      destruct (build_foreign_keys _ _ _ _ _) as [[out' in']|e]; [done|]. destruct IH as (d & ? & ?). exists d. split; [by right|done].
    + exists def. split; [by left|done].
Qed.
End fks.
