(* ===== verification/TxSpec.v ===== *)
(** A transaction's writes against the contents it sees.

    [tx_inv] is the invariant of an open transaction: its base state holds the
    committed contents, and the buffered operations are ones the commit merge
    can apply. Inserts, upserts and deletes keep it, change the visible
    contents at exactly one key, and report a conflict exactly when the key or a
    unique value is taken by a visible row. *)

From stdpp Require Import base list gmap sorting.
From Stdlib Require Import ZArith Lia.
From S2P Require Import Prelude FluxBin Row IndexKey TxState LogRecord PageFormat PagedTree PagedTreeNode PagedTreeRep PagedTreeSpec KvTree TableState TableSpec Reclaim MemStore MergeSpec StoreSpec.

(** * Equality of values *)

(** No float occurs in the value. *)
Fixpoint no_float (v : RowValue.t) : bool :=
  match v with
  | RowValue.F32 _ | RowValue.F64 _ => false
  | RowValue.Optional (Some v) => no_float v
  | RowValue.List l | RowValue.Enum _ l | RowValue.Struct l => forallb no_float l
  | _ => true
  end.

Lemma forallb2_eq {A} (f : A -> A -> bool) l : Forall (fun x => forall y, f x y = true -> x = y) l ->
  forall k, forallb2 f l k = true -> l = k.
Proof.
  induction 1 as [|x l Hx _ IH]; intros [|y k]; simpl; try done. intros [E1 E2]%andb_true_iff.
  by rewrite (Hx y E1), (IH k E2).
Qed.

Lemma no_float_all (l : row) (P : RowValue.t -> Prop) : Forall (fun v => no_float v = true -> P v) l -> forallb no_float l = true -> Forall P l.
Proof. induction 1; simpl; [constructor|]. intros [??]%andb_true_iff. constructor; auto. Qed.

(** Without floats the derived equality is equality. *)
Lemma value_eq_exact a : no_float a = true -> forall b, value_eq a b = true -> a = b.
Proof.
  induction a using RowValue_ind'; cbn [no_float]; intros Hf b; destruct b as [| | | | | | | | | | | | | | | | | | |[b|]| | |];
    cbn [value_eq]; try done; intros E;
    try (apply Z.eqb_eq in E; by subst); try (apply bool_decide_eq_true_1 in E; by subst).
  - apply eqb_prop in E. by subst.
  - apply andb_true_iff in E as [E1%Z.eqb_eq E2%Z.eqb_eq]. by subst.
  - by rewrite (IHa Hf b E).
  - f_equal. eapply forallb2_eq; [|exact E]. by eapply no_float_all.
  - apply andb_true_iff in E as [E1%Z.eqb_eq E2]. subst. f_equal. eapply forallb2_eq; [|exact E2]. by eapply no_float_all.
  - f_equal. eapply forallb2_eq; [|exact E]. by eapply no_float_all.
Qed.

Lemma forallb2_same {A} (f : A -> A -> bool) (g : A -> bool) l : Forall (fun x => forall y, f x y = true -> g x = g y) l ->
  forall k, forallb2 f l k = true -> forallb g l = forallb g k.
Proof.
  induction 1 as [|x l Hx _ IH]; intros [|y k]; simpl; try done. intros [E1 E2]%andb_true_iff.
  by rewrite (Hx y E1), (IH k E2).
Qed.

Lemma value_eq_float a : forall b, value_eq a b = true -> no_float a = no_float b.
Proof.
  induction a using RowValue_ind'; intros b; destruct b as [| | | | | | | | | | | | | | | | | | |[b|]| | |]; cbn [value_eq no_float]; try done; intros E.
  - by apply IHa.
  - by eapply forallb2_same.
  - apply andb_true_iff in E as [_ E]. by eapply forallb2_same.
  - by eapply forallb2_same.
Qed.

Lemma forallb2_lookup {A B} (f : A -> B -> bool) l : forall k (i : nat), forallb2 f l k = true ->
  match l !! i, k !! i with Some x, Some y => f x y = true | None, None => True | _, _ => False end.
Proof.
  induction l as [|x l IH]; intros [|y k] i; simpl; try done. intros [E1 E2]%andb_true_iff. destruct i; simpl; [done|]. by apply IH.
Qed.

(** The unique columns of a row hold no floats. *)
Definition plain_unique (sh : Shape) (r : row) : Prop :=
  Forall (fun cols => Forall (fun o => forall v, r !! o = Some v -> no_float v = true) cols) (sh_uniq sh).

Lemma plain_unique_eq sh a b : row_eq a b = true -> plain_unique sh b -> plain_unique sh a.
Proof.
  intros E Hb. eapply Forall_impl; [exact Hb|]. intros cols Hc. eapply Forall_impl; [exact Hc|]. simpl. intros o Ho v Hv.
  pose proof (forallb2_lookup value_eq a b o E) as El. rewrite Hv in El. destruct (b !! o) as [y|]; [|done].
  rewrite (value_eq_float v y El). by apply Ho.
Qed.

(** Rows that compare equal then have the same unique keys. *)
Lemma row_eq_keys (cols : list nat) a b : row_eq a b = true ->
  Forall (fun o => forall v, a !! o = Some v -> no_float v = true) cols -> key_of cols a = key_of cols b.
Proof.
  intros E. assert (forall o, (forall v, a !! o = Some v -> no_float v = true) -> a !! o = b !! o) as Hl.
  { intros o Ho. pose proof (forallb2_lookup value_eq a b o E) as El. specialize (Ho (default (RowValue.Bool true) (a !! o))).
    destruct (a !! o) as [x|], (b !! o) as [y|]; try done. simpl in *. f_equal. apply value_eq_exact; auto. }
  unfold key_of. induction 1 as [|o cols Ho _ IH]; simpl; [done|]. by rewrite (Hl o Ho), IH.
Qed.

(** * The invariant of a transaction *)

Section tx.
Context {W T X B : Type} {KT : KvTree W T} {KL : KvTreeLaws W T} {RC : RowCodec} {RL : RowCodecLaws}.
Context {SI : SideIndex W X} {BS : BlobStore B}.
Context (env : StoreEnv) (blobs : option B) (w : W).
Notation TxM := (SM (Tx T X) StoreError).

(** The contents the transaction sees. *)
Definition seen (C : contents) (tx : Tx T X) : contents := views C (tables (tx_state tx)).

Record tx_inv (tx : Tx T X) (C : contents) (fs : gmap TableId (list Page)) : Prop := {
  ti_world : kt_ok w;
  ti_tables : tables_is w (cs_tables (tx_base tx)) C fs;
  ti_pending : forall id ops, tables (tx_state tx) !! id = Some ops -> pending_ok (cs_tables (tx_base tx)) C id ops;
}.

(** One table of the transaction: its committed state and rows. *)
Definition at_tx (tx : Tx T X) (C : contents) (id : TableId) (ts : TableState T X) (R : content) : Prop :=
  cs_tables (tx_base tx) !! id = Some ts /\ C !! id = Some R.

Lemma at_tx_table tx C fs id ts R : tx_inv tx C fs -> at_tx tx C id ts R -> exists f, table_is w ts R f.
Proof using Type.
  intros [_ HT _] [E1 E2]. destruct (tables_is_get _ _ _ _ _ _ HT E1) as (R' & f & E2' & _ & Ht). simplify_eq. by exists f.
Qed.

Lemma uniq_ok_base (ts : TableState T X) R f : table_is w ts R f -> uniq_ok (sh_uniq (shape ts)) R.
Proof using Type.
  intros [(fr & fi & fu & _ & _ & _ & HU & _) _] cols pk pk' r r' k Hc Hr Hr' Hk Hk'.
  apply list_elem_of_fmap in Hc as (c & -> & Hc).
  destruct (Forall2_elem_of_l _ _ _ _ HU Hc) as (g & _ & M & _ & HM).
  assert (M !! k = Some pk) as E by (apply HM; eauto). assert (M !! k = Some pk') as E' by (apply HM; eauto). congruence.
Qed.

Lemma seen_table tx C fs id ts R : tx_inv tx C fs -> at_tx tx C id ts R ->
  ops_ok (shape ts) R (ops_of (tx_state tx) id) /\ seen C tx !! id = Some (view R (ops_of (tx_state tx) id)).
Proof using Type.
  intros I Hat. destruct (at_tx_table _ _ _ _ _ _ I Hat) as (f & Ht). destruct I as [_ HT HP]. destruct Hat as [E1 E2].
  unfold seen, ops_of. rewrite views_lookup, E2. split; [|done].
  assert (ops_ok (shape ts) R ∅) as H0. { split; [intros pk op; by rewrite lookup_empty|]. rewrite view_empty. by eapply uniq_ok_base. }
  destruct (tables (tx_state tx) !! id) as [ops|] eqn:E; [|done]. simpl.
  destruct (HP id ops E) as [->|(ts' & R' & E1' & E2' & Ho)]; [done|]. by simplify_eq.
Qed.

Lemma read_row tx C fs id ts R pk : tx_inv tx C fs -> at_tx tx C id ts R -> row_at w ts pk = Ok (R !! pk).
Proof using RL.
  intros I Hat. destruct (at_tx_table _ _ _ _ _ _ I Hat) as (f & (fr & _ & _ & _ & HR & _) & _).
  eapply row_at_spec; [apply I|exact HR].
Qed.

Lemma base_table_at tx C fs id ts R : tx_inv tx C fs -> at_tx tx C id ts R -> base_table id tx = (Ok ts, tx).
Proof using Type. intros _ [E _]. unfold base_table, cs_table. by rewrite E. Qed.

(** ** Replacing the buffered operations of a table *)

Definition put_ops (tx : Tx T X) (id : TableId) (ops : pending_ops) : Tx T X := (set_ops id ops tx).2.

Lemma ops_put tx id ops : ops_of (tx_state (put_ops tx id ops)) id = ops.
Proof using Type. unfold ops_of. simpl. by rewrite lookup_insert_eq. Qed.

Lemma ops_put_ne tx id id' ops : id' <> id -> ops_of (tx_state (put_ops tx id ops)) id' = ops_of (tx_state tx) id'.
Proof using Type. intros Hne. unfold ops_of. simpl. by rewrite lookup_insert_ne. Qed.

Lemma put_ops_inv tx C fs id ts R ops : tx_inv tx C fs -> at_tx tx C id ts R -> ops_ok (shape ts) R ops ->
  tx_inv (put_ops tx id ops) C fs /\ seen C (put_ops tx id ops) = <[id := view R ops]> (seen C tx).
Proof using Type.
  intros [Hw HT HP] [E1 E2] Ho. split; [split; [done|done|]|].
  - intros id' ops'. simpl. destruct (decide (id' = id)) as [->|]; [|rewrite lookup_insert_ne by done; apply HP].
    rewrite lookup_insert_eq. intros [= <-]. right. by exists ts, R.
  - unfold seen. apply map_eq. intros id'. rewrite views_lookup. simpl. destruct (decide (id' = id)) as [->|].
    + by rewrite !lookup_insert_eq, E2.
    + by rewrite !lookup_insert_ne, views_lookup.
Qed.

(** ** Unique constraints *)

(** Another visible row has the unique key of [r] on [cols]. *)
Definition clash_on (V : content) (pk : list Z) (r : row) (cols : list nat) : Prop :=
  exists pk' r' k, pk' <> pk /\ V !! pk' = Some r' /\ key_of cols r' = Ok k /\ key_of cols r = Ok k.

Lemma check_pending_spec table (c : UniqueIndex T) key pk l : Forall (fun p => forall r, written p.2 = Some r -> exists k, key_of (ui_columns c) r = Ok k) l ->
  check_pending table c key pk l = Ok tt /\ (forall p r, p ∈ l -> p.1 <> pk -> written p.2 = Some r -> key_of (ui_columns c) r <> Ok key) \/
  check_pending table c key pk l = Err (UniqueViolation table (ui_columns c)) /\
    exists p r, p ∈ l /\ p.1 <> pk /\ written p.2 = Some r /\ key_of (ui_columns c) r = Ok key.
Proof using Type.
  induction l as [|[pk' op] l IH]; intros HF; simpl; [left; split; [done|]; intros p r Hp; by apply elem_of_nil in Hp|].
  apply Forall_cons in HF as [H1 HF]. specialize (IH HF). simpl in H1.
  assert (forall (Q : Prop), Q -> (forall r, written op = Some r -> pk' <> pk -> key_of (ui_columns c) r <> Ok key) ->
    check_pending table c key pk l = Ok tt /\ (forall p r, p ∈ (pk', op) :: l -> p.1 <> pk -> written p.2 = Some r -> key_of (ui_columns c) r <> Ok key) \/
    check_pending table c key pk l = Err (UniqueViolation table (ui_columns c)) /\
      exists p r, p ∈ (pk', op) :: l /\ p.1 <> pk /\ written p.2 = Some r /\ key_of (ui_columns c) r = Ok key) as Hskip.
  { intros _ _ Hh. destruct IH as [[E Hl]|[E (p & r & Hp & Hr)]]; [left|right]; (split; [done|]).
    - intros p r [->|Hp]%elem_of_cons Hne Hw; [by eapply Hh|by eapply Hl].
    - exists p, r. split; [by right|done]. }
  destruct (bool_decide (pk' = pk)) eqn:Eb.
  { apply bool_decide_eq_true_1 in Eb as ->. by apply (Hskip True). }
  apply bool_decide_eq_false_1 in Eb. destruct op as [r| |r]; [|by apply (Hskip True)|].
  all: destruct (H1 r eq_refl) as [k Ek]; unfold unique_key; rewrite Ek; simpl; destruct (bool_decide (k = key)) eqn:Ek'.
  all: first [apply bool_decide_eq_true_1 in Ek' as ->; right; split; [done|]; eexists _, r; split; [left|]; by split_and!
             |apply bool_decide_eq_false_1 in Ek'; apply (Hskip True); [done|]; intros r' [= <-] _; congruence].
Qed.

Lemma check_unique_each_spec table (ts : TableState T X) R f ops r pk cs : table_is w ts R f -> kt_ok w -> ops_ok (shape ts) R ops ->
  Forall (fun cols => uniq_fits cols r) (sh_uniq (shape ts)) -> (forall c, c ∈ cs -> c ∈ unique ts) ->
  check_unique_each w table ops r pk cs = Ok tt /\ Forall (fun c => ~ clash_on (view R ops) pk r (ui_columns c)) cs \/
  exists cols, cols ∈ map ui_columns cs /\ check_unique_each w table ops r pk cs = Err (UniqueViolation table cols) /\ clash_on (view R ops) pk r cols.
Proof using Type.
  intros Ht Hok [Hops HV] Hfit. pose proof Ht as [(fr & fi & fu & _ & _ & _ & HU & _) HR].
  pose proof (view_rows_ok _ _ _ HR Hops) as HVR.
  induction cs as [|c cs IH]; intros Hcs; [left; split; [done|constructor]|]. cbn [check_unique_each map].
  assert (c ∈ unique ts) as Hc by (apply Hcs; left).
  assert (ui_columns c ∈ sh_uniq (shape ts)) as Hsh by (apply list_elem_of_fmap; by exists c).
  rewrite Forall_forall in Hfit. destruct (Hfit _ Hsh) as (key & Ekey & _). unfold unique_key. rewrite Ekey. cbn [map_err mbind result_bind].
  destruct (check_pending_spec table c key pk (btree_entries ops)) as [[Ep Hp]|[Ep ([pk' op] & r' & Hin & Hne & Hw & Hk)]].
  { apply Forall_forall. intros [pk' op] Hin%elem_of_btree_entries r' Hw. simpl in Hw. specialize (Hops pk' op Hin). unfold op_ok in Hops. simpl in Hops.
    assert (row_ok (shape ts) pk' r') as (_ & _ & _ & Hu) by (destruct op; simplify_eq/=; naive_solver). rewrite Forall_forall in Hu.
    destruct (Hu _ Hsh) as (k & Ek & _). by exists k. }
  - rewrite Ep. cbn [mbind result_bind]. destruct (Forall2_elem_of_l _ _ _ _ HU Hc) as (g & _ & Hu).
    destruct (owner_spec _ _ _ _ key Hok Hu) as (o & Eo & Ho). rewrite Eo. cbn [mbind result_bind].
    assert ((forall pk0, o = Some pk0 -> shadowed ops pk pk0 = true) -> ~ clash_on (view R ops) pk r (ui_columns c)) as Hfree.
    { intros Hs (pk1 & r1 & k & Hne & Hv & Hk1 & Hk). assert (k = key) as -> by congruence. rewrite view_lookup in Hv. destruct (ops !! pk1) as [op|] eqn:Eop.
      - eapply (Hp (pk1, op) r1); [by apply elem_of_btree_entries|done| |done]. simpl. by destruct op.
      - simpl in Hv. assert (o = Some pk1) as -> by (apply Ho; eauto). specialize (Hs _ eq_refl). unfold shadowed in Hs.
        rewrite Eop in Hs. rewrite bool_decide_eq_false_2 in Hs by done. done. }
    destruct o as [o|]; [destruct (shadowed ops pk o) eqn:Es|].
    + destruct (IH ltac:(intros; apply Hcs; by right)) as [[E HF]|(cols & Hin & E & Hcl)]; [left|right].
      * split; [done|]. constructor; [|done]. apply Hfree. by intros pk0 [= <-].
      * exists cols. split; [by right|by split].
    + right. exists (ui_columns c). split; [by left|]. split; [done|]. unfold shadowed in Es. apply orb_false_iff in Es as [Hne Es].
      apply bool_decide_eq_false_1 in Hne. destruct (proj1 (Ho o) eq_refl) as (r' & Hr' & Hk'). exists o, r', key. split_and!; try done.
      rewrite view_lookup. destruct (ops !! o) as [[r0| |r0]|] eqn:Eop; try done. specialize (Hops o _ Eop). unfold op_ok in Hops. simpl in Hops.
      destruct Hops as [Hn _]. congruence.
    + destruct (IH ltac:(intros; apply Hcs; by right)) as [[E HF]|(cols & Hin & E & Hcl)]; [left|right].
      * split; [done|]. constructor; [|done]. apply Hfree. done.
      * exists cols. split; [by right|by split].
  - right. rewrite Ep. exists (ui_columns c). split; [by left|]. split; [done|]. apply elem_of_btree_entries in Hin. simpl in *.
    exists pk', r', key. split_and!; try done. rewrite view_lookup, Hin. by destruct op.
Qed.

Lemma uniq_ok_insert ucs V pk r : uniq_ok ucs V -> Forall (fun cols => ~ clash_on V pk r cols) ucs -> uniq_ok ucs (<[pk := r]> V).
Proof using Type.
  intros HV Hc cols pk1 pk2 r1 r2 k Hin H1 H2 K1 K2. rewrite Forall_forall in Hc. specialize (Hc cols Hin).
  destruct (decide (pk1 = pk)) as [->|N1], (decide (pk2 = pk)) as [->|N2]; [done| | |];
    rewrite ?lookup_insert_eq in H1; rewrite ?lookup_insert_eq in H2; rewrite ?lookup_insert_ne in H1 by done; rewrite ?lookup_insert_ne in H2 by done.
  - simplify_eq. destruct Hc. by exists pk2, r2, k.
  - simplify_eq. destruct Hc. by exists pk1, r1, k.
  - by eapply HV.
Qed.

Lemma uniq_ok_delete ucs V pk : uniq_ok ucs V -> uniq_ok ucs (delete pk V).
Proof using Type.
  intros HV cols pk1 pk2 r1 r2 k Hin [_ H1]%lookup_delete_Some [_ H2]%lookup_delete_Some K1 K2. by eapply HV.
Qed.

(** ** Calls that only read *)

(** The call changes at most the auto-increment counters. *)
Definition keeps_state {A} (m : TxM A) : Prop := forall tx, tx_base (m tx).2 = tx_base tx /\ tx_state (m tx).2 = tx_state tx /\
  next_version (tx_writer (m tx).2) = next_version (tx_writer tx).

Lemma ks_ret {A} (a : A) : keeps_state (mret a).
Proof using Type. done. Qed.
Lemma ks_fail {A} e : keeps_state (sm_fail e : TxM A).
Proof using Type. done. Qed.
Lemma ks_lift {A} (r : result StoreError A) : keeps_state (sm_lift r).
Proof using Type. done. Qed.
Lemma ks_bind {A D} (m : TxM A) (k : A -> TxM D) : keeps_state m -> (forall a, keeps_state (k a)) -> keeps_state (m ≫= k).
Proof using Type.
  intros Hm Hk tx. unfold mbind, sm_bind. specialize (Hm tx). destruct (m tx) as [[a|e] tx'] eqn:E; simpl in *; [|done].
  destruct Hm as (E1 & E2 & E3). destruct (Hk a tx') as (F1 & F2 & F3). split_and!; by etrans.
Qed.
Lemma ks_base id : keeps_state (base_table id).
Proof using Type. done. Qed.
Lemma ks_guard b e : keeps_state (guard b e : TxM unit).
Proof using Type. by destruct b. Qed.
Lemma ks_at {A} (m : TxM A) : (forall tx, exists m' : TxM A, m tx = m' tx /\ keeps_state m') -> keeps_state m.
Proof using Type. intros Hm tx. destruct (Hm tx) as (m' & -> & Hk). apply Hk. Qed.

#[local] Hint Resolve ks_ret ks_fail ks_lift ks_bind ks_base ks_guard : keeps.

Lemma ks_parent_exists fk v : keeps_state (parent_exists w fk v).
Proof using Type.
  apply ks_at. intros tx. eexists. split; [unfold parent_exists; cbv beta; reflexivity|]. apply ks_bind; [auto with keeps|]. intros pk.
  destruct (_ !! pk) as [[]|]; auto with keeps.
Qed.

Lemma ks_check_fks fks values : keeps_state (check_fks w fks values).
Proof using Type.
  induction fks as [|fk fks IH]; [apply ks_ret|]. cbn [check_fks].
  destruct (values !! fk_child_ordinal fk) as [[]|]; try done;
    try (apply ks_bind; [apply ks_parent_exists|]; intros; apply ks_bind; auto with keeps).
  destruct v as [v|]; [|done]. apply ks_bind; [apply ks_parent_exists|]. intros. apply ks_bind; auto with keeps.
Qed.

Lemma ks_assign id info values : keeps_state (assign_auto_inc env id info values).
Proof using Type.
  intros tx. unfold assign_auto_inc. destruct (ti_auto_inc info) as [i|]; [|done]. destruct (values !! i) as [[]|]; try done.
  destruct (_ =? 0); [|by destruct (observe_explicit _ _)]. by destruct (allocate _ _) as [[??]?].
Qed.

Lemma ks_prepare id values : keeps_state (prepare env blobs w id values).
Proof using Type.
  unfold prepare, global_guard. do 6 (apply ks_bind; [auto with keeps|intros]).
  apply ks_bind; [match goal with |- context [spatial ?t] => destruct (spatial t) end; auto with keeps|]. intros _.
  apply ks_bind; [apply ks_assign|]. intros. apply ks_bind; [|auto with keeps].
  unfold check_constraints. apply ks_bind; [auto with keeps|]. intros. apply ks_bind; [auto with keeps|]. intros. apply ks_check_fks.
Qed.

Lemma keeps_inv tx tx' C fs : tx_base tx' = tx_base tx -> tables (tx_state tx') = tables (tx_state tx) -> tx_inv tx C fs ->
  tx_inv tx' C fs /\ seen C tx' = seen C tx.
Proof using Type. intros E1 E2 []. unfold seen. rewrite E2. split; [|done]. split; rewrite ?E1, ?E2; done. Qed.

(** ** Buffering a write *)

(** [tx'] is [tx] with the buffered operations [ops] of table [id], and maybe
    one more trigger event. *)
Definition buffered (tx tx' : Tx T X) (id : TableId) (ops : pending_ops) : Prop :=
  tx_base tx' = tx_base tx /\ tx_writer tx' = tx_writer tx /\ tx_id (tx_state tx') = tx_id (tx_state tx) /\
  tables (tx_state tx') = <[id := ops]> (tables (tx_state tx)).

Lemma buffered_inv tx tx' C fs id ts R ops : tx_inv tx C fs -> at_tx tx C id ts R -> ops_ok (shape ts) R ops -> buffered tx tx' id ops ->
  tx_inv tx' C fs /\ seen C tx' = <[id := view R ops]> (seen C tx).
Proof using Type.
  intros I Hat Ho (E1 & _ & _ & E2). destruct (put_ops_inv _ _ _ _ _ _ _ I Hat Ho) as [I' Es].
  destruct (keeps_inv (put_ops tx id ops) tx' C fs E1 E2 I') as [I2 Es2]. split; [done|]. by rewrite Es2.
Qed.

Lemma finish_spec tx id ops old stored : exists tx', buffered tx tx' id ops /\
  (set_ops id ops ≫= fun _ => push_write_event env id old stored ≫= fun _ => mret stored) tx = (Ok stored, tx').
Proof using Type.
  unfold push_write_event. destruct (has_triggers env id); eexists; (split; [|reflexivity]); by split_and!.
Qed.

(** What [buffer_write] stores, and the operations it leaves. *)
Lemma buffer_write_spec tx id pk v committed : exists stored ops' tx',
  (forall op, ops_of (tx_state tx) id !! pk = Some op -> op = Delete -> is_Some committed) ->
  buffer_write env id pk v committed tx = (Ok stored, tx') /\ buffered tx tx' id ops' /\
  (stored = v /\ (exists op, ops' = <[pk := op]> (ops_of (tx_state tx) id) /\
     match ops_of (tx_state tx) id !! pk with
     | Some (Insert _) => op = Insert v
     | Some (Update _) | Some Delete => op = Update v
     | None => op = if committed then Update v else Insert v
     end)
   \/ committed = Some stored /\ row_eq stored v = true /\ ops' = delete pk (ops_of (tx_state tx) id)).
Proof using Type.
  unfold buffer_write, get_ops. unfold mbind at 1, sm_bind at 1. set (ops := ops_of (tx_state tx) id). cbv zeta.
  assert (forall op, exists tx', buffered tx tx' id (<[pk := op]> ops) /\
    (set_ops id (<[pk := op]> ops) ≫= fun _ => push_write_event env id (visible (ops !! pk) committed) v ≫= fun _ => mret v) tx = (Ok v, tx')) as Hf
    by (intros op; apply finish_spec).
  destruct (ops !! pk) as [[r| |r]|] eqn:Eop.
  - destruct (Hf (Insert v)) as (tx' & Hb & E). exists v, (<[pk := Insert v]> ops), tx'. intros _. split; [exact E|]. split; [exact Hb|]. left. by split; [|exists (Insert v)].
  - destruct committed as [c|]; [|exists v, ops, tx; intros Hd; by destruct (Hd _ eq_refl eq_refl)].
    destruct (row_eq c v) eqn:Er.
    + destruct (finish_spec tx id (delete pk ops) (visible (Some Delete) (Some c)) c) as (tx' & Hb & E).
      exists c, (delete pk ops), tx'. intros _. split; [exact E|]. split; [exact Hb|]. by right.
    + destruct (Hf (Update v)) as (tx' & Hb & E). exists v, (<[pk := Update v]> ops), tx'. intros _. split; [exact E|]. split; [exact Hb|]. left. by split; [|exists (Update v)].
  - destruct (Hf (Update v)) as (tx' & Hb & E). exists v, (<[pk := Update v]> ops), tx'. intros _. split; [exact E|]. split; [exact Hb|]. left. by split; [|exists (Update v)].
  - destruct committed as [c|].
    + destruct (row_eq c v) eqn:Er.
      * exists c, ops, (put_ops tx id ops). intros _. split; [reflexivity|]. split; [done|]. right. split_and!; try done. by rewrite delete_id.
      * destruct (Hf (Update v)) as (tx' & Hb & E). exists v, (<[pk := Update v]> ops), tx'. intros _. split; [exact E|]. split; [exact Hb|]. left. by split; [|exists (Update v)].
    + destruct (Hf (Insert v)) as (tx' & Hb & E). exists v, (<[pk := Insert v]> ops), tx'. intros _. split; [exact E|]. split; [exact Hb|]. left. by split; [|exists (Insert v)].
Qed.

(** The buffered write keeps the operations valid. *)
Lemma write_ops_ok (ts : TableState T X) R f ops ops' pk v stored : table_is w ts R f -> ops_ok (shape ts) R ops -> row_ok (shape ts) pk v ->
  plain_unique (shape ts) v -> Forall (fun cols => ~ clash_on (view R ops) pk v cols) (sh_uniq (shape ts)) ->
  (stored = v /\ (exists op, ops' = <[pk := op]> ops /\
     match ops !! pk with
     | Some (Insert _) => op = Insert v
     | Some (Update _) | Some Delete => op = Update v
     | None => op = if R !! pk then Update v else Insert v
     end)
   \/ R !! pk = Some stored /\ row_eq stored v = true /\ ops' = delete pk ops) ->
  ops_ok (shape ts) R ops' /\ view R ops' = <[pk := stored]> (view R ops).
Proof using Type.
  intros [_ HR] [Hops HV] Hv Hp Hcl Hcase.
  assert (view R ops' = <[pk := stored]> (view R ops)) as Hview.
  { destruct Hcase as [[-> (op & -> & Hop)]|(Hc & _ & ->)]; [|by apply view_cancel_some].
    apply view_insert_write. destruct (ops !! pk) as [[]|]; subst op; try done. by destruct (R !! pk). }
  split; [|done]. split; [|rewrite Hview; apply uniq_ok_insert; [done|]].
  - intros pk' op'. destruct Hcase as [[-> (op & -> & Hop)]|(Hc & _ & ->)].
    + destruct (decide (pk' = pk)) as [->|]; [|rewrite lookup_insert_ne by done; apply Hops].
      rewrite lookup_insert_eq. intros [= <-]. specialize (Hops pk). destruct (ops !! pk) as [o|].
      * specialize (Hops o eq_refl). unfold op_ok in *. simpl in *. destruct o; subst op; simpl; naive_solver.
      * subst op. unfold op_ok. destruct (R !! pk) eqn:E; simpl; rewrite E; naive_solver.
    + intros [_ Ho]%lookup_delete_Some. by apply Hops.
  - destruct Hcase as [[-> _]|(Hc & Er & _)]; [done|]. apply (plain_unique_eq _ _ _ Er) in Hp. unfold plain_unique in Hp. rewrite Forall_forall in *. intros cols Hin (pk' & r' & k & Hne & Hr' & Hk' & Hk).
    apply (Hcl cols Hin). exists pk', r', k. split_and!; try done. rewrite <- Hk. symmetry. apply row_eq_keys; [done|]. by apply Hp.
Qed.

(** ** Insert and upsert *)

(** The visible contents of one table. *)
Definition seen_at (tx : Tx T X) (R : content) (id : TableId) : content := view R (ops_of (tx_state tx) id).

(** The three outcomes of a write whose row was prepared as [v] at [pk]: the key
    is taken, a unique value is taken, or the row is stored. A row equal to the
    committed one is left as committed. *)
Inductive write_result (tx : Tx T X) (C : contents) (fs : gmap TableId (list Page)) (id : TableId) (ts : TableState T X) (R : content)
    (replace : bool) (pk : list Z) (v : row) (tx1 : Tx T X) : result StoreError row * Tx T X -> Prop :=
  | WriteTaken : is_Some (seen_at tx R id !! pk) -> replace = false ->
      write_result tx C fs id ts R replace pk v tx1 (Err (PkConflict id), tx1)
  | WriteClash cols : (is_Some (seen_at tx R id !! pk) -> replace = true) -> cols ∈ sh_uniq (shape ts) -> clash_on (seen_at tx R id) pk v cols ->
      write_result tx C fs id ts R replace pk v tx1 (Err (UniqueViolation id cols), tx1)
  | WriteStored stored tx' : (is_Some (seen_at tx R id !! pk) -> replace = true) ->
      Forall (fun cols => ~ clash_on (seen_at tx R id) pk v cols) (sh_uniq (shape ts)) ->
      stored = v \/ R !! pk = Some stored /\ row_eq stored v = true ->
      tx_inv tx' C fs -> seen C tx' = <[id := <[pk := stored]> (seen_at tx R id)]> (seen C tx) ->
      tx_base tx' = tx_base tx -> tx_writer tx' = tx_writer tx1 -> tx_id (tx_state tx') = tx_id (tx_state tx) ->
      write_result tx C fs id ts R replace pk v tx1 (Ok stored, tx').

Lemma occupied_visible (op : option PendingOp) (c : option row) :
  is_write op || (bool_decide (op = None) && bool_decide (is_Some c)) = bool_decide (is_Some (visible op c)).
Proof using Type. destruct op as [[]|], c; done. Qed.

Lemma write_spec tx C fs id ts R values replace pk v tx1 : tx_inv tx C fs -> at_tx tx C id ts R ->
  prepare env blobs w id values tx = (Ok (pk, v), tx1) -> row_ok (shape ts) pk v -> plain_unique (shape ts) v ->
  write_result tx C fs id ts R replace pk v tx1 (write env blobs w id values replace tx).
Proof using RL.
  intros I Hat Ep Hv Hp. destruct (ks_prepare id values tx) as (B1 & B2 & _). rewrite Ep in B1, B2. simpl in B1, B2.
  destruct (keeps_inv tx tx1 C fs B1 (f_equal tables B2) I) as [I1 Es1].
  assert (at_tx tx1 C id ts R) as Hat1 by (destruct Hat as [E1 E2]; split; [by rewrite B1|done]).
  destruct (at_tx_table _ _ _ _ _ _ I1 Hat1) as (f & Ht). destruct (seen_table _ _ _ _ _ _ I1 Hat1) as [Hops _].
  unfold write. unfold mbind at 1, sm_bind at 1. rewrite Ep.
  unfold mbind at 1, sm_bind at 1. rewrite (base_table_at _ _ _ _ _ _ I1 Hat1).
  unfold mbind at 1, sm_bind at 1. unfold sm_lift at 1. rewrite (read_row _ _ _ _ _ _ pk I1 Hat1).
  unfold mbind at 1, sm_bind at 1. unfold get_ops at 1. cbv zeta. rewrite occupied_visible, <- view_lookup.
  rewrite B2 in Hops |- *. fold (seen_at tx R id) in *. unfold mbind at 1, sm_bind at 1.
  assert (forall b : bool, (is_Some (seen_at tx R id !! pk) -> b = true) \/ is_Some (seen_at tx R id !! pk) /\ b = false) as Hb.
  { intros []; [by left|]. destruct (seen_at tx R id !! pk); [right|left]; [done|]. by intros []. }
  destruct (Hb replace) as [Hr|[Hocc ->]]; [|rewrite bool_decide_eq_true_2 by done; by constructor].
  assert (guard (T := T) (X := X) (negb (bool_decide (is_Some (seen_at tx R id !! pk)) && negb replace)) (PkConflict id) tx1 = (Ok tt, tx1)) as ->.
  { destruct (bool_decide _) eqn:E; [|done]. apply bool_decide_eq_true_1 in E. by rewrite (Hr E). }
  unfold mbind at 1, sm_bind at 1. unfold check_unique. unfold mbind at 1, sm_bind at 1. rewrite (base_table_at _ _ _ _ _ _ I1 Hat1).
  unfold mbind at 1, sm_bind at 1. unfold get_ops at 1. rewrite B2. unfold sm_lift at 1.
  pose proof Hv as (_ & _ & _ & Hfit).
  destruct (check_unique_each_spec id ts R f (ops_of (tx_state tx) id) v pk (unique ts) Ht (ti_world _ _ _ I) Hops Hfit ltac:(done))
    as [[-> Hcl]|(cols & Hin & -> & Hcl)]; [|by eapply WriteClash].
  assert (Forall (fun cols => ~ clash_on (seen_at tx R id) pk v cols) (sh_uniq (shape ts))) as Hfree by (by apply Forall_fmap).
  destruct (buffer_write_spec tx1 id pk v (R !! pk)) as (stored & ops' & tx' & Hbw). rewrite B2 in Hbw.
  destruct Hbw as (Ebw & Hbuf & Hcase).
  { intros op Hop ->. destruct Hops as [Hops _]. apply (Hops _ _ Hop). }
  rewrite Ebw. destruct (write_ops_ok ts R f _ ops' pk v stored Ht Hops Hv Hp Hfree Hcase) as [Hok' Hview].
  destruct (buffered_inv _ _ _ _ _ _ _ _ I1 Hat1 Hok' Hbuf) as [I' Es]. destruct Hbuf as (Eb & Ew & Ei & Et).
  apply WriteStored; try done; [| | |].
  - destruct Hcase as [[-> _]|(? & ? & _)]; auto.
  - rewrite Es, Es1. by rewrite Hview.
  - by rewrite Eb.
  - by rewrite Ei, B2.
Qed.

(** ** Deletes *)

Definition delete_allowed (info : TableInfo) : bool := negb (bool_decide (ti_access info = Global) && negb (global_writes_allowed env)).

(** Deleting returns the visible row and hides it. *)
Lemma delete_one_spec tx C fs id ts R info pk_values pk : tx_inv tx C fs -> at_tx tx C id ts R ->
  catalog env !! id = Some info -> delete_allowed info = true -> encode_pk_values (ti_schema info) pk_values = Ok pk ->
  exists tx', delete_one env w id pk_values tx = (Ok (seen_at tx R id !! pk), tx') /\ tx_inv tx' C fs /\
    seen C tx' = <[id := delete pk (seen_at tx R id)]> (seen C tx) /\
    tx_base tx' = tx_base tx /\ tx_writer tx' = tx_writer tx /\ tx_id (tx_state tx') = tx_id (tx_state tx).
Proof using RL.
  intros I Hat Ec Hal Epk. destruct (seen_table _ _ _ _ _ _ I Hat) as [[Hops HV] Hs].
  set (ops := ops_of (tx_state tx) id) in *.
  set (ops' := match ops !! pk with
    | Some (Insert _) => delete pk ops | Some (Update _) => <[pk := Delete]> ops | Some Delete => ops
    | None => match R !! pk with Some _ => <[pk := Delete]> ops | None => ops end end).
  assert (view R ops' = delete pk (view R ops)) as Hview.
  { subst ops'. destruct (ops !! pk) as [[r| |r]|] eqn:E.
    - apply view_cancel_none. apply (Hops _ _ E).
    - rewrite delete_id; [done|]. by rewrite view_lookup, E.
    - apply view_insert_delete.
    - destruct (R !! pk) eqn:ER; [apply view_insert_delete|]. rewrite delete_id; [done|]. by rewrite view_lookup, E, ER. }
  assert (ops_ok (shape ts) R ops') as Hok'.
  { split; [|rewrite Hview; by apply uniq_ok_delete]. intros pk' op'. subst ops'. pose proof (Hops pk) as Hpk.
    destruct (ops !! pk) as [[r| |r]|] eqn:E; [| | |destruct (R !! pk) eqn:ER]; try apply Hops.
    - intros [_ Ho]%lookup_delete_Some. by apply Hops.
    - destruct (decide (pk' = pk)) as [->|]; [|rewrite lookup_insert_ne by done; apply Hops]. rewrite lookup_insert_eq. intros [= <-].
      apply (Hpk _ eq_refl).
    - destruct (decide (pk' = pk)) as [->|]; [|rewrite lookup_insert_ne by done; apply Hops]. rewrite lookup_insert_eq. intros [= <-].
      unfold op_ok. simpl. rewrite ER. done. }
  assert (exists tx', buffered tx tx' id ops' /\ delete_one env w id pk_values tx = (Ok (visible (ops !! pk) (R !! pk)), tx')) as (tx' & Hbuf & E).
  { unfold delete_one, schema_of, global_guard, delete_allowed in *. rewrite Ec. unfold mbind at 1, sm_bind at 1, sm_lift at 1. cbn [from_option].
    unfold mbind at 1, sm_bind at 1. rewrite Hal. cbn [guard]. unfold mret at 1, sm_ret at 1.
    unfold mbind at 1, sm_bind at 1, sm_lift at 1. rewrite Epk. cbn [map_err].
    unfold mbind at 1, sm_bind at 1. rewrite (base_table_at _ _ _ _ _ _ I Hat).
    unfold mbind at 1, sm_bind at 1, sm_lift at 1. rewrite (read_row _ _ _ _ _ _ pk I Hat).
    unfold mbind at 1, sm_bind at 1, get_ops at 1. fold ops. subst ops'.
    destruct (ops !! pk) as [[r| |r]|]; [| | |destruct (R !! pk)]; cbn [visible]; try (destruct (has_triggers env id));
      eexists; (split; [|reflexivity]); by split_and!. }
  destruct (buffered_inv _ _ _ _ _ _ _ _ I Hat Hok' Hbuf) as [I' Es]. destruct Hbuf as (Eb & Ew & Ei & Et).
  exists tx'. rewrite E. unfold seen_at. fold ops. rewrite view_lookup. split; [done|]. split; [done|]. split; [|done].
  by rewrite Es, Hview.
Qed.

(** ** Reads of the overlay *)

Definition keep_base (ops : pending_ops) (p : list Z * row) : option (list Z * row) :=
  match ops !! p.1 with
  | None => Some p
  | Some (Update r) => Some (p.1, r)
  | Some (Delete | Insert _) => None
  end.
Definition keep_new (p : list Z * PendingOp) : option (list Z * row) := match p.2 with Insert r => Some (p.1, r) | _ => None end.

Lemma omap_fst_sub {A D F : Type} (f : A * D -> option (A * F)) (l : list (A * D)) : (forall p q, f p = Some q -> q.1 = p.1) ->
  NoDup l.*1 -> NoDup (omap f l).*1 /\ (forall q, q ∈ omap f l -> q.1 ∈ l.*1).
Proof using Type.
  intros Hf Hnd. split; [|intros q (p & Hp & E)%list_elem_of_omap; apply Hf in E as ->; apply list_elem_of_fmap; by exists p].
  induction l as [|p l IH]; [constructor|]. rewrite fmap_cons in Hnd. apply NoDup_cons in Hnd as [Hn Hnd]. simpl.
  destruct (f p) as [q|] eqn:E; [|by apply IH]. rewrite fmap_cons. apply NoDup_cons. split; [|by apply IH].
  intros (q' & Eq & (p' & Hp' & E')%list_elem_of_omap)%list_elem_of_fmap. apply Hf in E, E'. apply Hn. apply list_elem_of_fmap.
  exists p'. split; [congruence|done].
Qed.

(** The rows of the overlay, each once. *)
Lemma overlay_rows R ops : (forall pk op, ops !! pk = Some op -> match op with Insert _ => R !! pk = None | _ => is_Some (R !! pk) end) ->
  omap (keep_base ops) (btree_entries R) ++ omap keep_new (btree_entries ops) ≡ₚ map_to_list (view R ops).
Proof using Type.
  intros Hops.
  assert (forall (q : list Z * row), q ∈ omap (keep_base ops) (btree_entries R) <-> exists (r0 : row), R !! q.1 = Some r0 /\ keep_base ops (q.1, r0) = Some q) as H1.
  { intros q. rewrite list_elem_of_omap. split.
    - intros ([pk r] & Hp%elem_of_btree_entries & E). assert (q.1 = pk) as Eq by (unfold keep_base in E; simpl in E; destruct (ops !! pk) as [[]|]; by simplify_eq).
      exists r. by rewrite Eq.
    - intros (r0 & Hr & E). exists (q.1, r0). split; [by apply elem_of_btree_entries|done]. }
  assert (forall (q : list Z * row), q ∈ omap keep_new (btree_entries ops) <-> ops !! q.1 = Some (Insert q.2)) as H2.
  { intros [pk r]. rewrite list_elem_of_omap. split.
    - intros ([pk' op] & Hp%elem_of_btree_entries & E). destruct op; unfold keep_new in E; simpl in E; by simplify_eq.
    - intros Hr. exists (pk, Insert r). split; [by apply elem_of_btree_entries|done]. }
  destruct (omap_fst_sub (keep_base ops) (btree_entries R)) as [N1 _];
    [intros p q E; unfold keep_base in E; destruct (ops !! p.1) as [[]|]; by simplify_eq|apply btree_keys_NoDup|].
  destruct (omap_fst_sub keep_new (btree_entries ops)) as [N2 _];
    [intros [pk op] q E; unfold keep_new in E; destruct op; by simplify_eq/=|apply btree_keys_NoDup|].
  apply NoDup_Permutation; [|apply NoDup_map_to_list|].
  - apply NoDup_app. split_and!; [by apply (NoDup_fmap_1 fst)| |by apply (NoDup_fmap_1 fst)].
    intros q (r0 & Hr & _)%H1 Hq%H2. specialize (Hops _ _ Hq). simpl in Hops. congruence.
  - intros [pk r]. rewrite elem_of_app, H1, H2, elem_of_map_to_list, view_lookup. unfold keep_base. simpl.
    specialize (Hops pk). destruct (ops !! pk) as [[r'| |r']|] eqn:E; simpl.
    + split; [by intros [(r0 & _ & ?)|[= ->]]|intros [= ->]; by right].
    + split; [by intros [(r0 & _ & ?)|?]|done].
    + split; [by intros [(r0 & _ & [= ->])|?]|]. intros [= ->]. left. destruct (Hops _ eq_refl) as [r0 Hr0]. by exists r0.
    + split; [by intros [(r0 & Hr & [= ->])|?]|]. intros Hr. left. by exists r.
Qed.

Lemma scan_all_spec tx C fs id ts R : tx_inv tx C fs -> at_tx tx C id ts R ->
  exists rs, scan_all w id tx = (Ok rs, tx) /\ rs ≡ₚ (map_to_list (seen_at tx R id)).*2.
Proof using RL.
  intros I Hat. destruct (at_tx_table _ _ _ _ _ _ I Hat) as (f & (fr & _ & _ & _ & HR & _) & _).
  destruct (seen_table _ _ _ _ _ _ I Hat) as [[Hops _] _].
  unfold scan_all. unfold mbind at 1, sm_bind at 1. rewrite (base_table_at _ _ _ _ _ _ I Hat).
  unfold mbind at 1, sm_bind at 1, get_ops. unfold mbind at 1, sm_bind at 1, sm_lift. rewrite (for_each_row_spec _ _ _ _ _ (ti_world _ _ _ I) HR).
  eexists. split; [reflexivity|]. set (ops := ops_of (tx_state tx) id) in *. unfold seen_at. fold ops.
  rewrite <- (overlay_rows R ops).
  - rewrite fmap_app. apply Permutation_app.
    + apply reflexive_eq. rewrite list_fmap_omap. apply list_omap_ext, Forall_Forall2_diag, Forall_forall. intros [pk r] _.
      unfold keep_base. simpl. by destruct (ops !! pk) as [[]|].
    + apply reflexive_eq. unfold btree_values. rewrite list_fmap_omap, omap_fmap. apply list_omap_ext, Forall_Forall2_diag, Forall_forall.
      intros [pk op] _. by destruct op.
  - intros pk op E. specialize (Hops pk op E). unfold op_ok in Hops. simpl in Hops. destruct op; naive_solver.
Qed.
End tx.
