(* ===== verification/RefSpec.v ===== *)
(** Foreign keys of a transaction ([Tx::delete], [apply_ref_action],
    [check_constraints] in [store/memstore/tx.rs]).

    A write is accepted only when every reference of the new row names a
    visible parent, and a delete applies the declared actions to the rows that
    reference it, through a worklist. [refs_ok] says that no visible row
    dangles; writes and deletes keep it, and a delete ends after at most as many
    rounds as there are visible rows. *)

From stdpp Require Import base list gmap sorting.
From Stdlib Require Import ZArith Lia.
From S2P Require Import Prelude FluxBin Row IndexKey TxState LogRecord PageFormat PagedTree PagedTreeNode PagedTreeRep PagedTreeSpec KvTree TableState TableSpec Reclaim MemStore MergeSpec StoreSpec TxSpec.

(** * References *)

(** The value a reference column names; a null names nothing. *)
Definition fk_target (v : RowValue.t) : option RowValue.t :=
  match v with RowValue.Optional None => None | RowValue.Optional (Some inner) => Some inner | other => Some other end.

Definition parent_key (fk : ResolvedFk) (t : RowValue.t) : result StorageError (list Z) :=
  encode_pk_values (ti_schema (fk_parent_schema fk)) [t].

(** The reference of [r] names a row of [V]. *)
Definition ref_ok (V : contents) (fk : ResolvedFk) (r : row) : Prop := forall v t,
  r !! fk_child_ordinal fk = Some v -> fk_target v = Some t ->
  exists ppk P, parent_key fk t = Ok ppk /\ V !! fk_parent fk = Some P /\ is_Some (P !! ppk).

(** The foreign keys of an environment. *)
Definition is_fk (env : StoreEnv) (fk : ResolvedFk) : Prop := exists fks, fks_out env !! fk_child fk = Some fks /\ fk ∈ fks.

Definition refs_ok (env : StoreEnv) (V : contents) : Prop := forall fk, is_fk env fk -> forall R pk r,
  V !! fk_child fk = Some R -> R !! pk = Some r -> ref_ok V fk r.

(** What store assembly validates about foreign keys. *)
Record fks_wf (env : StoreEnv) : Prop := {
  fw_out id fks fk : fks_out env !! id = Some fks -> fk ∈ fks -> fk_child fk = id;
  fw_in id fks fk : fks_in env !! id = Some fks -> fk ∈ fks -> fk_parent fk = id /\ is_fk env fk;
  fw_both fk : is_fk env fk -> exists fks, fks_in env !! fk_parent fk = Some fks /\ fk ∈ fks;
  fw_child fk : is_fk env fk -> catalog env !! fk_child fk = Some (fk_child_schema fk);
  fw_parent fk : is_fk env fk -> catalog env !! fk_parent fk = Some (fk_parent_schema fk);
  fw_key fk : is_fk env fk -> exists o, primary_key (ti_schema (fk_parent_schema fk)) = [o];
}.

(** Rows of [V] stay, maybe changed. *)
Definition keeps_keys (V V' : contents) : Prop := forall id P pk, V !! id = Some P -> is_Some (P !! pk) ->
  exists P', V' !! id = Some P' /\ is_Some (P' !! pk).

Lemma ref_ok_mono V V' fk r : keeps_keys V V' -> ref_ok V fk r -> ref_ok V' fk r.
Proof.
  intros HK Hr v t Hv Ht. destruct (Hr v t Hv Ht) as (ppk & P & E & HP & Hp). destruct (HK _ _ _ HP Hp) as (P' & HP' & Hp').
  by exists ppk, P'.
Qed.

Lemma keeps_keys_insert V id R pk (r : row) : V !! id = Some R -> keeps_keys V (<[id := <[pk := r]> R]> V).
Proof.
  intros E id' P pk' HP Hp. destruct (decide (id' = id)) as [->|].
  - simplify_eq. exists (<[pk := r]> R). rewrite lookup_insert_eq. split; [done|]. rewrite lookup_insert_is_Some'. by right.
  - exists P. by rewrite lookup_insert_ne.
Qed.

Lemma value_eq_refl v : no_float v = true -> value_eq v v = true.
Proof.
  assert (forall l, Forall (fun v => no_float v = true -> value_eq v v = true) l -> forallb no_float l = true -> forallb2 value_eq l l = true) as Hl.
  { induction 1 as [|x l Hx _ IH]; simpl; [done|]. intros [E1 E2]%andb_true_iff. by rewrite Hx, IH. }
  induction v using RowValue_ind'; cbn [no_float value_eq]; intros Hf; try done; rewrite ?Z.eqb_refl; try done;
    try (by apply bool_decide_eq_true_2); try (by apply Hl); try (by destruct v); by apply IHv.
Qed.

(** * Sizes *)

Definition total (V : contents) : nat := map_fold (fun _ R n => (size R + n)%nat) 0%nat V.

Lemma total_insert V (id : TableId) R R' : V !! id = Some R -> (total (<[id := R']> V) + size R = total V + size R')%nat.
Proof.
  intros E. unfold total. rewrite <- (insert_delete_id V id R E) at 2. rewrite <- insert_delete_eq.
  rewrite !map_fold_insert_L; try (intros; lia); try apply lookup_delete_eq.
Qed.

Section refs.
Context {W T X B : Type} {KT : KvTree W T} {KL : KvTreeLaws W T} {RC : RowCodec} {RL : RowCodecLaws}.
Context {SI : SideIndex W X} {BS : BlobStore B}.
Context (env : StoreEnv) (blobs : option B) (w : W).
Notation TxM := (SM (Tx T X) StoreError).

(** * Calls that do not run out of fuel *)

Definition nofuel {A} (r : result StoreError A) : Prop := r <> Err OutOfFuel.
Definition fueled {A} (m : TxM A) : Prop := forall tx, nofuel (m tx).1.

Lemma nf_map_err {E A} (g : E -> StoreError) (r : result E A) : (forall e, g e <> OutOfFuel) -> nofuel (map_err g r).
Proof using Type. intros Hg. destruct r; [done|]. intros [= E0]. by eapply Hg. Qed.
Lemma nf_bind {A D} (r : result StoreError A) (k : A -> result StoreError D) : nofuel r -> (forall a, nofuel (k a)) -> nofuel (r ≫= k).
Proof using Type. destruct r; [intros _ Hk; apply Hk|]. intros Hr _ [= ->]. by apply Hr. Qed.
Lemma nf_option {A} e (o : option A) : e <> OutOfFuel -> nofuel (from_option e o).
Proof using Type. intros He. destruct o; [done|]. by intros [= ->]. Qed.
Lemma nf_err {A D} e : nofuel (Err e : result StoreError A) -> nofuel (Err e : result StoreError D).
Proof using Type. intros He [= ->]. by apply He. Qed.
Lemma fu_ret {A} (a : A) : fueled (mret a).
Proof using Type. done. Qed.
Lemma fu_fail {A} e : e <> OutOfFuel -> fueled (sm_fail e : TxM A).
Proof using Type. intros He tx. by intros [= ->]. Qed.
Lemma fu_lift {A} (r : result StoreError A) : nofuel r -> fueled (sm_lift r).
Proof using Type. intros Hr tx. done. Qed.
Lemma fu_bind {A D} (m : TxM A) (k : A -> TxM D) : fueled m -> (forall a, fueled (k a)) -> fueled (m ≫= k).
Proof using Type.
  intros Hm Hk tx. unfold mbind, sm_bind. specialize (Hm tx). destruct (m tx) as [[a|e] tx']; [apply Hk|]. simpl in *.
  intros [= ->]. by apply Hm.
Qed.
Lemma fu_base id : fueled (base_table id).
Proof using Type. intros tx. unfold base_table, cs_table. by apply nf_option. Qed.
Lemma fu_guard b e : e <> OutOfFuel -> fueled (guard b e : TxM unit).
Proof using Type. intros He. destruct b; [apply fu_ret|by apply fu_fail]. Qed.
Lemma fu_set_ops id ops : fueled (set_ops id ops : TxM unit).
Proof using Type. done. Qed.
Lemma fu_event e : fueled (push_event e : TxM unit).
Proof using Type. done. Qed.
Lemma fu_get_ops id : fueled (get_ops id : TxM _).
Proof using Type. done. Qed.
Lemma fu_at {A} (m : TxM A) : (forall tx, exists m' : TxM A, m tx = m' tx /\ fueled m') -> fueled m.
Proof using Type. intros Hm tx. destruct (Hm tx) as (m' & -> & Hk). apply Hk. Qed.

#[local] Hint Resolve nf_map_err nf_bind nf_option fu_ret fu_fail fu_lift fu_bind fu_base fu_guard fu_set_ops fu_event fu_get_ops : fuel.

Lemma nf_computed cols : forall values, nofuel (apply_computed cols values).
Proof using Type. induction cols as [|[o f] cols IH]; intros values; simpl; [done|]. apply nf_bind; [by apply nf_map_err|auto]. Qed.
Lemma nf_blobs os values : nofuel (check_blobs blobs os values).
Proof using Type.
  induction os as [|o os IH]; simpl; [done|]. destruct (values !! o) as [[]|]; try done. destruct blobs as [b|]; [|done].
  by destruct (blob_contains b _).
Qed.
Lemma nf_not_null os values : nofuel (check_not_null os values).
Proof using Type. induction os as [|o os IH]; simpl; [done|]. destruct (values !! o) as [[]|]; try done. by destruct v. Qed.
Lemma nf_checks defs values : nofuel (check_checks defs values).
Proof using Type.
  induction defs as [|[o f] defs IH]; simpl; [done|]. apply nf_bind; [by apply nf_map_err|]. by intros [].
Qed.
Lemma fu_parent fk v : fueled (parent_exists w fk v).
Proof using Type.
  apply fu_at. intros tx. eexists. split; [unfold parent_exists; cbv beta; reflexivity|]. apply fu_bind; [apply fu_lift; by apply nf_map_err|].
  intros pk. destruct (_ !! pk) as [[]|]; try apply fu_ret. apply fu_bind; [apply fu_base|]. intros ts. apply fu_lift.
  unfold contains_pk. apply nf_bind; [by apply nf_map_err|done].
Qed.
Lemma fu_check_fks fks values : fueled (check_fks w fks values).
Proof using Type.
  induction fks as [|fk fks IH]; [apply fu_ret|]. cbn [check_fks].
  assert (forall t, fueled (parent_exists w fk t ≫= fun found => guard found (FkViolation (fk_child_ordinal fk)) ≫= fun _ => check_fks w fks values)) as Hp.
  { intros t. apply fu_bind; [apply fu_parent|]. intros. apply fu_bind; [by apply fu_guard|done]. }
  destruct (values !! fk_child_ordinal fk) as [[]|]; try done; try apply Hp. destruct v; [apply Hp|done].
Qed.
Lemma fu_assign id info values : fueled (assign_auto_inc env id info values).
Proof using Type.
  intros tx. unfold assign_auto_inc. destruct (ti_auto_inc info) as [i|]; [|done]. destruct (values !! i) as [[]|]; try done.
  destruct (_ =? 0); [by destruct (allocate _ _) as [[??]?]|by destruct (observe_explicit _ _)].
Qed.

(** The spatial check is the only caller of a side index. *)
Definition no_spatial (tx : Tx T X) : Prop := forall id ts, cs_tables (tx_base tx) !! id = Some ts -> spatial ts = None.

Lemma prepare_fueled id values tx : no_spatial tx -> nofuel (prepare env blobs w id values tx).1.
Proof using Type.
  intros Hs. unfold prepare. unfold mbind at 1, sm_bind at 1, sm_lift at 1. unfold schema_of. destruct (catalog env !! id) as [info|]; [|done]. cbn [from_option].
  unfold mbind at 1, sm_bind at 1. unfold global_guard, guard. destruct (negb _); [|done]. unfold mret at 1, sm_ret at 1.
  unfold mbind at 1, sm_bind at 1, sm_lift at 1. pose proof (nf_computed (default [] (computed env !! id)) values) as Hc.
  destruct (apply_computed _ values) as [v1|]; [|by eapply nf_err]. clear Hc.
  unfold mbind at 1, sm_bind at 1, sm_lift at 1. pose proof (nf_blobs (blob_ordinals info) v1) as Hb. destruct (check_blobs _ _ v1); [|by eapply nf_err]. clear Hb.
  unfold mbind at 1, sm_bind at 1, sm_lift at 1. destruct (check_row _ v1); [|done]. cbn [map_err].
  unfold mbind at 1, sm_bind at 1. unfold base_table, cs_table. destruct (cs_tables (tx_base tx) !! id) as [ts|] eqn:Ets; [|done]. cbn [from_option].
  unfold mbind at 1, sm_bind at 1. rewrite (Hs _ _ Ets). unfold mret at 1, sm_ret at 1.
  match goal with |- nofuel (?m tx).1 => assert (fueled m) as Hm; [|apply Hm] end.
  apply fu_bind; [apply fu_assign|]. intros v2. apply fu_bind.
  { unfold check_constraints. apply fu_bind; [apply fu_lift, nf_not_null|]. intros _. apply fu_bind; [apply fu_lift, nf_checks|]. intros _. apply fu_check_fks. }
  intros _. apply fu_bind; [apply fu_lift; by apply nf_map_err|]. intros pk. apply fu_bind; [|intros; apply fu_ret]. apply fu_lift. unfold seal.
  destruct (transforms env) as [e|]; [|done]. destruct (touches e id); [|done]. by apply nf_map_err.
Qed.

(** * The foreign-key check of a write *)

Section base.
Context (C : contents) (fs : gmap TableId (list Page)).

Lemma parent_exists_reads fk t (tx : Tx T X) : (parent_exists w fk t tx).2 = tx.
Proof using Type.
  unfold parent_exists, mbind, sm_bind, sm_lift. destruct (map_err _ _) as [pk|]; [|done].
  destruct (ops_of _ _ !! pk) as [[]|]; try done. unfold base_table, cs_table. by destruct (cs_tables _ !! _).
Qed.

Lemma parent_exists_spec fk t (tx tx' : Tx T X) : tx_inv w tx C fs -> parent_exists w fk t tx = (Ok true, tx') ->
  exists ppk P, parent_key fk t = Ok ppk /\ seen C tx !! fk_parent fk = Some P /\ is_Some (P !! ppk).
Proof using RL.
  intros I. unfold parent_exists, mbind, sm_bind, sm_lift, parent_key.
  destruct (encode_pk_values _ [t]) as [ppk|]; [|done]. cbn [map_err].
  destruct (ops_of (tx_state tx) (fk_parent fk) !! ppk) as [op|] eqn:Eop.
  - assert (exists ts R, at_tx tx C (fk_parent fk) ts R) as (ts & R & Hat).
    { unfold ops_of in Eop. destruct (tables (tx_state tx) !! fk_parent fk) as [ops|] eqn:Et; simpl in Eop; [|by rewrite lookup_empty in Eop].
      destruct (ti_pending _ _ _ _ I _ _ Et) as [->|(ts & R & E1 & E2 & _)]; [by rewrite lookup_empty in Eop|]. by exists ts, R. }
    destruct (seen_table _ _ _ _ _ _ _ I Hat) as [_ Es]. destruct op; intros E; simplify_eq; exists ppk; eexists;
      (split; [done|]; split; [exact Es|]); rewrite view_lookup, Eop; by eexists.
  - unfold base_table, cs_table. destruct (cs_tables (tx_base tx) !! fk_parent fk) as [ts|] eqn:Ets; [|done]. cbn [from_option].
    destruct (tables_is_get _ _ _ _ _ _ (ti_tables _ _ _ _ I) Ets) as (R & f & E2 & _ & Ht).
    assert (at_tx tx C (fk_parent fk) ts R) as Hat by done. destruct (seen_table _ _ _ _ _ _ _ I Hat) as [_ Es].
    pose proof Ht as [(fr & _ & _ & _ & HR & _) _]. rewrite (contains_pk_spec _ _ _ _ _ _ (ti_world _ _ _ _ I) HR).
    intros [= E%bool_decide_eq_true_1 _]. exists ppk. eexists. split; [done|]. split; [exact Es|]. by rewrite view_lookup, Eop.
Qed.

Lemma check_fks_spec fks values (tx tx' : Tx T X) : tx_inv w tx C fs -> check_fks w fks values tx = (Ok tt, tx') ->
  tx' = tx /\ Forall (fun fk => ref_ok (seen C tx) fk values) fks.
Proof using RL.
  intros I. induction fks as [|fk fks IH]; cbn [check_fks]; [by intros [= <-]|].
  assert (forall t, (forall v, values !! fk_child_ordinal fk = Some v -> fk_target v = Some t) ->
    (parent_exists w fk t ≫= fun found => guard found (FkViolation (fk_child_ordinal fk)) ≫= fun _ => check_fks w fks values) tx = (Ok tt, tx') ->
    tx' = tx /\ Forall (fun fk => ref_ok (seen C tx) fk values) (fk :: fks)) as Hp.
  { intros t Hv E. unfold mbind at 1, sm_bind at 1 in E. pose proof (parent_exists_reads fk t tx) as Er.
    destruct (parent_exists w fk t tx) as [[b|] tx1] eqn:Epe; [|done]. simpl in Er. subst tx1.
    unfold mbind at 1, sm_bind at 1 in E. destruct b; [|done]. cbn [guard] in E. unfold mret, sm_ret in E.
    destruct (IH E) as [-> HF]. split; [done|]. constructor; [|done]. intros v t' Hval Ht. rewrite (Hv v Hval) in Ht. simplify_eq.
    by eapply parent_exists_spec. }
  assert ((forall v, values !! fk_child_ordinal fk = Some v -> fk_target v = None) -> check_fks w fks values tx = (Ok tt, tx') ->
    tx' = tx /\ Forall (fun fk => ref_ok (seen C tx) fk values) (fk :: fks)) as Hn.
  { intros Hv E. destruct (IH E) as [-> HF]. split; [done|]. constructor; [|done]. intros v t Hval Ht. rewrite (Hv v Hval) in Ht. done. }
  destruct (values !! fk_child_ordinal fk) as [v|] eqn:Ev; [|by apply Hn].
  destruct v as [| | | | | | | | | | | | | | | | | | |[v|]| | |]; first [apply Hp; by intros ? [= <-]|apply Hn; by intros ? [= <-]].
Qed.

(** What a prepared row went through. *)
Lemma prepare_ok id values (tx : Tx T X) pk v tx1 : tx_inv w tx C fs -> transforms env = None -> prepare env blobs w id values tx = (Ok (pk, v), tx1) ->
  exists info ts R, catalog env !! id = Some info /\ at_tx tx C id ts R /\
    Forall (fun fk => ref_ok (seen C tx) fk v) (default [] (fks_out env !! id)).
Proof using RL.
  intros I Htr. unfold prepare. intros E. apply sm_bind_ok in E as (info & s1 & E1 & E).
  unfold sm_lift, schema_of in E1. destruct (catalog env !! id) as [i|] eqn:Ecat; [|done]. injection E1 as E1 E1'; subst i s1.
  apply sm_bind_ok in E as ([] & s1 & E1 & E). destruct (ks_guard (negb (bool_decide (ti_access info = Global) && negb (global_writes_allowed env))) GlobalReplicaWrite tx) as (A1 & A2 & _).
  unfold global_guard in E1. rewrite E1 in A1, A2. simpl in A1, A2. clear E1.
  apply sm_bind_ok in E as (v1 & s2 & E1 & E). injection E1 as E1 <-. apply sm_bind_ok in E as (u2 & s3 & E2 & E). injection E2 as E2 <-.
  apply sm_bind_ok in E as (u3 & s4 & E3 & E). injection E3 as E3 <-. apply sm_bind_ok in E as (ts & s5 & E4 & E).
  unfold base_table, cs_table in E4. destruct (cs_tables (tx_base s1) !! id) as [ts'|] eqn:Ets; [|done]. injection E4 as -> <-. rewrite A1 in Ets.
  destruct (tables_is_get _ _ _ _ _ _ (ti_tables _ _ _ _ I) Ets) as (R & f & ER & _ & Ht). exists info, ts, R. split; [done|]. split; [done|].
  pose proof Ht as [(fr & fi & fu & _ & _ & _ & _ & Esp & _) _]. rewrite Esp in E.
  apply sm_bind_ok in E as (u4 & s6 & E5 & E). injection E5 as _ <-. apply sm_bind_ok in E as (v2 & s7 & E6 & E).
  destruct (ks_assign env id info v1 s1) as (B1 & B2 & _). rewrite E6 in B1, B2. simpl in B1, B2.
  assert (tx_base s7 = tx_base tx) as Eb by congruence. assert (tx_state s7 = tx_state tx) as Es by congruence.
  destruct (keeps_inv w tx s7 C fs Eb (f_equal tables Es) I) as [I7 Es7].
  apply sm_bind_ok in E as (u5 & s8 & E7 & E). apply sm_bind_ok in E as (pk' & s9 & E8 & E). injection E8 as E8 <-.
  apply sm_bind_ok in E as (v3 & s10 & E9 & E). unfold seal in E9. rewrite Htr in E9. injection E9 as <- <-. injection E as -> -> <-.
  unfold check_constraints in E7. apply sm_bind_ok in E7 as (u6 & s11 & E10 & E7). injection E10 as _ <-.
  apply sm_bind_ok in E7 as (u7 & s12 & E11 & E7). injection E11 as _ <-. destruct u5. rewrite <- Es7. by apply check_fks_spec in E7 as [_ HF].
Qed.

(** * Transactions over good rows *)

(** [Good id pk r]: row [r] of table [id] fits the trees, is stored at its own
    key, and its unique and reference columns hold no floats. *)
Context (base : CommittedState T X) (Good : TableId -> list Z -> row -> Prop).

Record good_env : Prop := {
  ge_transforms : transforms env = None;
  ge_fks : fks_wf env;
  ge_row id ts pk r : cs_tables base !! id = Some ts -> Good id pk r -> row_ok (shape ts) pk r /\ plain_unique (shape ts) r;
  ge_key id info pk r : catalog env !! id = Some info -> Good id pk r ->
    check_row (ti_schema info) r = Ok tt /\ encode_pk_of_row (ti_schema info) r = Ok pk /\ forallb value_ok r = true;
  ge_ref fk pk r v : is_fk env fk -> Good (fk_child fk) pk r -> r !! fk_child_ordinal fk = Some v -> no_float v = true;
  ge_base id R pk r : C !! id = Some R -> R !! pk = Some r -> Good id pk r;
  (** clearing a reference leaves a good row at the same key *)
  ge_null fk pk r tx p tx' : is_fk env fk -> fk_on_delete fk = SetNull -> Good (fk_child fk) pk r ->
    prepare env blobs w (fk_child fk) (<[fk_child_ordinal fk := RowValue.Optional None]> r) tx = (Ok p, tx') ->
    p.1 = pk /\ Good (fk_child fk) pk p.2;
}.
Context (GE : good_env).

Record tx_good (tx : Tx T X) : Prop := {
  tg_inv : tx_inv w tx C fs;
  tg_base : tx_base tx = base;
  tg_rows : forall id R pk r, seen C tx !! id = Some R -> R !! pk = Some r -> Good id pk r;
}.

Lemma good_no_spatial tx : tx_good tx -> no_spatial tx.
Proof using Type.
  intros [I _ _] id ts E. destruct (tables_is_get _ _ _ _ _ _ (ti_tables _ _ _ _ I) E) as (R & f & _ & _ & (? & ? & ? & _ & _ & _ & _ & Hs & _) & _). done.
Qed.

(** What a write does to the visible contents, when its row is good. *)
Definition wrote (tx : Tx T X) (id : TableId) (pk : list Z) (res : result StoreError row * Tx T X) : Prop :=
  match res with
  | (Ok stored, tx') => tx_good tx' /\ Good id pk stored /\ exists R, seen C tx !! id = Some R /\
      seen C tx' = <[id := <[pk := stored]> R]> (seen C tx) /\ forall fk, is_fk env fk -> fk_child fk = id -> ref_ok (seen C tx) fk stored
  | (Err e, tx') => tx_good tx' /\ seen C tx' = seen C tx /\ e <> OutOfFuel
  end.

Lemma write_good tx id values replace : tx_good tx ->
  (forall p tx', prepare env blobs w id values tx = (Ok p, tx') -> Good id p.1 p.2) ->
  exists pk, wrote tx id pk (write env blobs w id values replace tx) /\
    forall p tx', prepare env blobs w id values tx = (Ok p, tx') -> pk = p.1.
Proof using GE RL.
  intros [I Hb Hg] Hprep. destruct (prepare env blobs w id values tx) as [[[pk v]|e] tx1] eqn:Ep.
  - exists pk. split; [|by intros p tx' [= <- _]]. specialize (Hprep (pk, v) tx1 eq_refl). simpl in Hprep.
    destruct (ks_prepare env blobs w id values tx) as (B1 & B2 & _). rewrite Ep in B1, B2. simpl in B1, B2.
    destruct (keeps_inv w tx tx1 C fs B1 (f_equal tables B2) I) as [I1 Es1].
    destruct (prepare_ok id values tx pk v tx1 I (ge_transforms GE) Ep) as (info & ts & R & Hcat & Hat & HF).
    destruct (ge_row GE id ts pk v) as [Hrow Hpl]; [rewrite <- Hb; apply Hat|done|].
    assert (tx_good tx1) as G1. { split; [done|congruence|]. rewrite Es1. done. }
    destruct (write_spec env blobs w tx C fs id ts R values replace pk v tx1 I Hat Ep Hrow Hpl) as [Hocc ->|cols _ _ _|stored tx' _ _ Hst I' Es Eb Ew _];
      [by split_and!|by split_and!|].
    destruct (seen_table w tx C fs id ts R I Hat) as [_ Hseen]. fold (seen_at tx R id) in Hseen.
    assert (Good id pk stored) as Hgood. { destruct Hst as [->|[Hc _]]; [done|]. destruct Hat as [_ EC]. by eapply (ge_base GE). }
    split; [|split; [done|]].
    + split; [done|congruence|]. rewrite Es. intros id' R' pk' r' HR' Hr'. destruct (decide (id' = id)) as [->|]; [|rewrite lookup_insert_ne in HR' by done; by eapply Hg].
      rewrite lookup_insert_eq in HR'. simplify_eq. destruct (decide (pk' = pk)) as [->|]; [rewrite lookup_insert_eq in Hr'; by simplify_eq|].
      rewrite lookup_insert_ne in Hr' by done. by eapply Hg.
    + exists (seen_at tx R id). split; [done|]. split; [done|]. intros fk Hfk Hchild.
      assert (ref_ok (seen C tx) fk v) as Hv. { destruct Hfk as (fks & E & Hin). rewrite Hchild in E. rewrite E in HF. simpl in HF. rewrite Forall_forall in HF. by apply HF. }
      destruct Hst as [->|[Hc Er]]; [done|]. intros u t Hu Ht. apply (Hv u t); [|done].
      pose proof (forallb2_lookup value_eq stored v (fk_child_ordinal fk) Er) as El. rewrite Hu in El.
      destruct (v !! fk_child_ordinal fk) as [u'|] eqn:Ev; [|done]. f_equal. symmetry. apply value_eq_exact; [|done]. rewrite <- Hchild in Hgood. by eapply (ge_ref GE).
  - exists []. split; [|done]. unfold write. unfold mbind at 1, sm_bind at 1. rewrite Ep.
    destruct (ks_prepare env blobs w id values tx) as (B1 & B2 & _). rewrite Ep in B1, B2. simpl in B1, B2.
    destruct (keeps_inv w tx tx1 C fs B1 (f_equal tables B2) I) as [I1 Es1]. split; [split; [done|congruence|by rewrite Es1]|]. split; [done|].
    pose proof (prepare_fueled id values tx (good_no_spatial tx (Build_tx_good _ I Hb Hg))) as Hf. rewrite Ep in Hf. intros ->. by apply Hf.
Qed.

(** A write keeps every reference. *)
Lemma wrote_refs tx id pk stored tx' : refs_ok env (seen C tx) -> wrote tx id pk (Ok stored, tx') -> refs_ok env (seen C tx').
Proof using Type.
  intros Hrefs (_ & _ & R & ER & Es & Hst) fk Hfk R' pk' r' HR' Hr'.
  assert (keeps_keys (seen C tx) (seen C tx')) as HK by (rewrite Es; by apply keeps_keys_insert).
  eapply ref_ok_mono; [exact HK|]. rewrite Es in HR'. destruct (decide (fk_child fk = id)) as [E|Hne].
  - rewrite E, lookup_insert_eq in HR'. simplify_eq. destruct (decide (pk' = pk)) as [->|]; [rewrite lookup_insert_eq in Hr'; simplify_eq; by apply Hst|].
    rewrite lookup_insert_ne in Hr' by done. by eapply Hrefs.
  - rewrite lookup_insert_ne in HR' by done. by eapply Hrefs.
Qed.

(** * Deletes *)

(** The reference of [r] names the deleted row [old]. *)
Definition points (fk : ResolvedFk) (r old : row) : Prop := exists o v t, primary_key (ti_schema (fk_parent_schema fk)) = [o] /\
  r !! fk_child_ordinal fk = Some v /\ fk_target v = Some t /\ old !! o = Some t.

(** [D]: the references were intact when the delete started. *)
Context (D : Prop).

(** Every reference names a visible row or a row of the worklist, except [Xs]. *)
Definition covered (V : contents) (wl : list (TableId * row)) (Xs : ResolvedFk -> row -> Prop) : Prop :=
  D -> forall fk, is_fk env fk -> forall R pk r, V !! fk_child fk = Some R -> R !! pk = Some r ->
    ref_ok V fk r \/ (exists old, (fk_parent fk, old) ∈ wl /\ points fk r old) \/ Xs fk r.

Lemma covered_weaken V wl Xs Ys : (forall fk R pk r, V !! fk_child fk = Some R -> R !! pk = Some r -> Xs fk r -> ref_ok V fk r \/ Ys fk r) ->
  covered V wl Xs -> covered V wl Ys.
Proof using Type.
  intros HXY Hc HD fk Hfk R pk r HR Hr. destruct (Hc HD fk Hfk R pk r HR Hr) as [?|[?|HX]]; [by left|right; by left|].
  destruct (HXY fk R pk r HR Hr HX); [by left|right; by right].
Qed.

(** The deleted row joins the worklist. *)
Lemma covered_delete V wl Xs id R pk old info : covered V wl Xs -> V !! id = Some R -> R !! pk = Some old ->
  catalog env !! id = Some info -> Good id pk old -> (forall id R pk r, V !! id = Some R -> R !! pk = Some r -> Good id pk r) ->
  covered (<[id := delete pk R]> V) ((id, old) :: wl) Xs.
Proof using GE.
  intros Hc ER Eold Hcat Hgood Hg HD fk Hfk R' pk' r HR' Hr.
  assert (exists R0, V !! fk_child fk = Some R0 /\ R0 !! pk' = Some r) as (R0 & HR0 & Hr0).
  { destruct (decide (fk_child fk = id)) as [E|]; [|rewrite lookup_insert_ne in HR' by done; by exists R'].
    rewrite E, lookup_insert_eq in HR'. simplify_eq. apply lookup_delete_Some in Hr as [_ Hr]. by exists R. }
  destruct (Hc HD fk Hfk R0 pk' r HR0 Hr0) as [Hok|[(o & Ho & Hpt)|HX]]; [|right; left; exists o; split; [by right|done]|right; by right].
  destruct (r !! fk_child_ordinal fk) as [v|] eqn:Ev; [|left; intros v t Hv; congruence].
  destruct (fk_target v) as [t|] eqn:Et; [|left; intros v' t Hv' Ht; simplify_eq; congruence].
  destruct (Hok v t Ev Et) as (ppk & P & Ek & HP & Hp).
  destruct (decide (fk_parent fk = id /\ ppk = pk)) as [[Eid ->]|Hne].
  - right. left. exists old. rewrite Eid. split; [by left|]. destruct (fw_key _ (ge_fks GE) fk Hfk) as (o & Eo). exists o, v, t.
    split_and!; try done. pose proof (fw_parent _ (ge_fks GE) fk Hfk) as Hcat'. rewrite Eid in Hcat'. assert (info = fk_parent_schema fk) as -> by congruence.
    destruct (ge_key GE _ _ _ _ Hcat' Hgood) as (Hck & Hek & Hvok).
    assert (forallb value_ok [t] = true) as Htok.
    { assert (value_ok v = true) as Hvv. { destruct (ge_key GE _ _ _ _ (fw_child _ (ge_fks GE) fk Hfk) (Hg _ _ _ _ HR0 Hr0)) as (_ & _ & Hall).
        rewrite forallb_forall in Hall. apply Hall, list_elem_of_In. by eapply list_elem_of_lookup_2. }
      simpl. rewrite andb_true_r. destruct v as [| | | | | | | | | | | | | | | | | | |[v|]| | |]; simpl in Et; simplify_eq; done. }
    assert (exists ks, pk_values_of (ti_schema (fk_parent_schema fk)) old = Some ks) as [ks Eks].
    { unfold pk_values_of. rewrite Eo. simpl. apply check_row_spec, forallb2_Forall2 in Hck as Hck'.
      pose proof (encode_pk_typed _ _ _ Ek) as Hty. rewrite Eo in Hty. inversion Hty as [|?? ?? (ty & Hty' & _) _]. subst.
      destruct (Forall2_lookup_r _ _ _ _ _ Hck' Hty') as (x & Hx & _). rewrite Hx. simpl. by eexists. }
    rewrite <- (pk_row_bytes _ _ _ Hck Eks) in Hek.
    pose proof (encode_pk_values_inj _ ks [t] pk (pk_values_ok _ _ _ Hvok Eks) Htok Hek Ek) as ->.
    unfold pk_values_of in Eks. rewrite Eo in Eks. simpl in Eks. destruct (old !! o) as [x|]; simpl in Eks; [|done]. by injection Eks as ->.
  - left. intros v' t' Hv' Ht'. simplify_eq. destruct (decide (fk_parent fk = id)) as [Eid|Hid].
    + rewrite Eid in HP. assert (P = R) as -> by congruence. exists ppk, (delete pk R). rewrite Eid, lookup_insert_eq. split_and!; try done.
      rewrite lookup_delete_ne; [done|]. intros ->. by apply Hne.
    + exists ppk, P. by rewrite lookup_insert_ne.
Qed.

Lemma covered_write V wl Xs id R pk (stored : row) : covered V wl Xs -> V !! id = Some R ->
  (forall fk, is_fk env fk -> fk_child fk = id -> ref_ok V fk stored) -> covered (<[id := <[pk := stored]> R]> V) wl Xs.
Proof using Type.
  intros Hc ER Hst HD fk Hfk R' pk' r HR' Hr. pose proof (keeps_keys_insert V id R pk stored ER) as HK.
  destruct (decide (fk_child fk = id)) as [E|].
  - rewrite E, lookup_insert_eq in HR'. simplify_eq. destruct (decide (pk' = pk)) as [->|].
    + rewrite lookup_insert_eq in Hr. simplify_eq. left. eapply ref_ok_mono; [exact HK|]. by apply Hst.
    + rewrite lookup_insert_ne in Hr by done. destruct (Hc HD fk Hfk R pk' r ER Hr) as [?|?]; [left; by eapply ref_ok_mono|by right].
  - rewrite lookup_insert_ne in HR' by done. destruct (Hc HD fk Hfk R' pk' r HR' Hr) as [?|?]; [left; by eapply ref_ok_mono|by right].
Qed.

(** Deleting a visible good row. *)
Lemma delete_good tx id info R pk old pk_values : tx_good tx -> catalog env !! id = Some info -> seen C tx !! id = Some R -> R !! pk = Some old ->
  encode_pk_values (ti_schema info) pk_values = Ok pk ->
  exists r tx', delete_one env w id pk_values tx = (r, tx') /\ tx_good tx' /\
    ((r = Err GlobalReplicaWrite /\ tx' = tx) \/ (r = Ok (Some old) /\ seen C tx' = <[id := delete pk R]> (seen C tx))).
Proof using GE RL.
  intros [I Hb Hg] Hcat ER Eold Epk.
  assert (exists ts R0, at_tx tx C id ts R0) as (ts & R0 & Hat).
  { unfold seen in ER. rewrite views_lookup in ER. destruct (C !! id) as [R0|] eqn:EC; [|done].
    pose proof (ti_tables _ _ _ _ I id) as Ht. destruct (cs_tables (tx_base tx) !! id) as [ts|] eqn:Ets; [by exists ts, R0|]. destruct Ht. congruence. }
  destruct (seen_table w tx C fs id ts R0 I Hat) as [_ Hs]. rewrite ER in Hs. injection Hs as Hs.
  destruct (delete_allowed env info) eqn:Eal.
  - destruct (delete_one_spec env w tx C fs id ts R0 info pk_values pk I Hat Hcat Eal Epk) as (tx' & E & I' & Es & Eb & _).
    unfold seen_at in *. rewrite <- Hs in *. rewrite Eold in E. exists (Ok (Some old)), tx'. split; [done|]. split; [|by right].
    split; [done|congruence|]. rewrite Es. intros id' R' pk' r' HR' Hr'.
    destruct (decide (id' = id)) as [->|]; [|rewrite lookup_insert_ne in HR' by done; by eapply Hg].
    rewrite lookup_insert_eq in HR'. simplify_eq. apply lookup_delete_Some in Hr' as [_ Hr']. by eapply Hg.
  - exists (Err GlobalReplicaWrite), tx. split; [|split; [done|by left]]. unfold delete_one, schema_of. rewrite Hcat.
    unfold mbind at 1, sm_bind at 1, sm_lift at 1. cbn [from_option]. unfold mbind at 1, sm_bind at 1, global_guard. unfold delete_allowed in Eal. by rewrite Eal.
Qed.

Lemma values_at_pk os (r : row) ks : mapM (fun o => r !! o) os = Some ks -> values_at os r = Ok ks.
Proof using Type.
  intros E%mapM_Some. induction E as [|o v os ks Hv _ IH]; simpl; [done|]. simpl in Hv. by rewrite Hv, IH.
Qed.

(** A good row is deleted by the values of its own key. *)
Lemma good_pk_values id info pk r : catalog env !! id = Some info -> Good id pk r ->
  exists ks, values_at (primary_key (ti_schema info)) r = Ok ks /\ encode_pk_values (ti_schema info) ks = Ok pk.
Proof using GE.
  intros Hcat Hg. destruct (ge_key GE _ _ _ _ Hcat Hg) as (Hck & Hek & _). destruct (encode_pk_columns _ _ _ Hek) as [ks Hks].
  exists ks. split; [by apply values_at_pk|]. by rewrite (pk_row_bytes _ _ _ Hck Hks).
Qed.

Lemma good_key_inj id info pk pk' r : catalog env !! id = Some info -> Good id pk r -> Good id pk' r -> pk = pk'.
Proof using GE. intros Hcat H1 H2. destruct (ge_key GE _ _ _ _ Hcat H1) as (_ & E1 & _). destruct (ge_key GE _ _ _ _ Hcat H2) as (_ & E2 & _). congruence. Qed.

(** One round of the worklist, with the keys of [todo] left. *)
Definition acted (tx : Tx T X) (wl : list (TableId * row)) (old : row) (todo : list ResolvedFk)
    (res : result StoreError (list (TableId * row)) * Tx T X) : Prop :=
  match res with
  | (Ok wl', tx') => tx_good tx' /\ covered (seen C tx') wl' (fun fk r => points fk r old /\ fk ∈ todo) /\
      (length wl' + total (seen C tx') <= length wl + total (seen C tx))%nat
  | (Err e, tx') => tx_good tx' /\ e <> OutOfFuel
  end.

Lemma acted_trans tx wl tx1 wl1 old todo res : (length wl1 + total (seen C tx1) <= length wl + total (seen C tx))%nat ->
  acted tx1 wl1 old todo res -> acted tx wl old todo res.
Proof using Type. intros Hle. destruct res as [[wl'|e] tx']; simpl; [|done]. intros (H1 & H2 & H3). split_and!; [done|done|lia]. Qed.

Definition left_over (fk : ResolvedFk) (old : row) (todo : list ResolvedFk) (children : list row) (fk' : ResolvedFk) (r : row) : Prop :=
  points fk' r old /\ (fk' ∈ todo \/ fk' = fk /\ r ∈ children).

Lemma act_cascade fk old todo k c kl tx wl R : is_fk env fk -> fk_on_delete fk = Cascade -> tx_good tx ->
  seen C tx !! fk_child fk = Some R -> R !! k = Some c -> covered (seen C tx) wl (left_over fk old todo (c :: kl)) ->
  (exists tx', (sm_lift (values_at (primary_key (ti_schema (fk_child_schema fk))) c) ≫= fun pk_vals =>
     delete_one env w (fk_child fk) pk_vals) tx = (Ok (Some c), tx') /\ tx_good tx' /\ seen C tx' = <[fk_child fk := delete k R]> (seen C tx) /\
     covered (seen C tx') ((fk_child fk, c) :: wl) (left_over fk old todo kl) /\ (S (total (seen C tx')) = total (seen C tx))%nat) \/
  (sm_lift (values_at (primary_key (ti_schema (fk_child_schema fk))) c) ≫= fun pk_vals =>
     delete_one env w (fk_child fk) pk_vals) tx = (Err GlobalReplicaWrite, tx).
Proof using GE RL.
  intros Hfk Hact G ER Ec Hcov. pose proof (fw_child _ (ge_fks GE) fk Hfk) as Hcat.
  pose proof (tg_rows _ G _ _ _ _ ER Ec) as Hgood. destruct (good_pk_values _ _ _ _ Hcat Hgood) as (ks & Ev & Epk). rewrite Ev.
  destruct (delete_good tx _ _ R k c ks G Hcat ER Ec Epk) as (r & tx' & E & G' & [[-> ->]|[-> Es]]); [by right|left].
  exists tx'. split; [exact E|]. split; [done|]. split; [done|]. split.
  - rewrite Es. eapply covered_weaken; [|eapply covered_delete; [exact Hcov|exact ER|exact Ec|exact Hcat|exact Hgood|apply G]].
    intros fk' R' pk' r HR' Hr [Hpt [Ht|[-> Hin]]]; [right; by split; [|left]|]. apply elem_of_cons in Hin as [->|Hin]; [|right; by split; [|right]].
    rewrite lookup_insert_eq in HR'. simplify_eq. exfalso. apply lookup_delete_Some in Hr as [Hne Hr].
    apply Hne. eapply good_key_inj; [exact Hcat|exact Hgood|]. by eapply G.
  - rewrite Es. pose proof (total_insert (seen C tx) (fk_child fk) R (delete k R) ER) as Ht. rewrite (map_size_delete_Some k R) in Ht by by eexists.
    assert (size R <> 0%nat) by (apply map_size_non_empty_iff; intros ->; by rewrite lookup_empty in Ec). lia.
Qed.

Lemma act_null fk old todo k c kl tx wl R : is_fk env fk -> fk_on_delete fk = SetNull -> tx_good tx ->
  seen C tx !! fk_child fk = Some R -> R !! k = Some c -> covered (seen C tx) wl (left_over fk old todo (c :: kl)) ->
  match null_child env blobs w fk c tx with
  | (Ok _, tx') => tx_good tx' /\ (exists stored, seen C tx' = <[fk_child fk := <[k := stored]> R]> (seen C tx)) /\
      covered (seen C tx') wl (left_over fk old todo kl) /\ total (seen C tx') = total (seen C tx)
  | (Err e, tx') => tx_good tx' /\ e <> OutOfFuel
  end.
Proof using GE RL.
  intros Hfk Hact G ER Ec Hcov. pose proof (fw_child _ (ge_fks GE) fk Hfk) as Hcat. pose proof (tg_rows _ G _ _ _ _ ER Ec) as Hgood.
  unfold null_child. rewrite (ge_transforms GE). unfold mbind at 1, sm_bind at 1, mret at 1, sm_ret at 1.
  unfold mbind at 1, sm_bind at 1. destruct (_ <? length c)%nat; [|done]. cbn [guard]. unfold mret at 1, sm_ret at 1. unfold mbind at 1, sm_bind at 1.
  set (vals := <[fk_child_ordinal fk := RowValue.Optional None]> c).
  assert (forall p tx', prepare env blobs w (fk_child fk) vals tx = (Ok p, tx') -> p.1 = k /\ Good (fk_child fk) k p.2) as Hprep.
  { intros p tx' E. by eapply (ge_null GE). }
  destruct (write_good tx (fk_child fk) vals true G) as (pk & Hw & Hpk). { intros p tx' E. destruct (Hprep p tx' E) as [-> ?]. done. }
  destruct (write env blobs w (fk_child fk) vals true tx) as [[stored|e] tx'] eqn:Ew; [|destruct Hw as (? & _ & ?); done].
  assert (pk = k) as ->.
  { destruct (prepare env blobs w (fk_child fk) vals tx) as [[p|e] tx1] eqn:Ep.
    - rewrite (Hpk p tx1 eq_refl). by destruct (Hprep p tx1 eq_refl).
    - exfalso. unfold write in Ew. unfold mbind at 1, sm_bind at 1 in Ew. by rewrite Ep in Ew. }
  destruct Hw as (G' & Hgs & R' & ER' & Es & Hst). simplify_eq. unfold mret, sm_ret. split; [done|]. split; [by exists stored|]. split.
  - rewrite Es. eapply covered_weaken; [|eapply covered_write; [exact Hcov|exact ER|exact Hst]].
    intros fk' R2 pk' r HR2 Hr [Hpt [Ht|[-> Hin]]]; [right; by split; [|left]|]. apply elem_of_cons in Hin as [->|Hin]; [|right; by split; [|right]].
    left. rewrite lookup_insert_eq in HR2. simplify_eq. eapply ref_ok_mono; [by apply keeps_keys_insert|]. destruct (decide (pk' = k)) as [->|Hne].
    + rewrite lookup_insert_eq in Hr. simplify_eq. by apply Hst.
    + exfalso. rewrite lookup_insert_ne in Hr by done. apply Hne. eapply good_key_inj; [exact Hcat|by eapply G|exact Hgood].
  - rewrite Es. pose proof (total_insert (seen C tx) (fk_child fk) R (<[k := stored]> R) ER) as Ht. rewrite (map_size_insert_Some k stored R) in Ht by by eexists. lia.
Qed.

Lemma act_good fk old todo kl : is_fk env fk -> forall tx wl R, tx_good tx -> NoDup kl.*1 -> seen C tx !! fk_child fk = Some R ->
  (forall k c, (k, c) ∈ kl -> R !! k = Some c) -> covered (seen C tx) wl (left_over fk old todo kl.*2) ->
  acted tx wl old todo (act_on_children env blobs w fk kl.*2 wl tx).
Proof using GE RL.
  intros Hfk. induction kl as [|[k c] kl IH]; intros tx wl R G Hnd ER Hkl Hcov.
  - simpl. unfold mret, sm_ret. split; [done|]. split; [|lia]. eapply covered_weaken; [|exact Hcov].
    intros fk' R' pk r _ _ [Hpt [Ht|[_ Hin]]]; [by right|by apply elem_of_nil in Hin].
  - rewrite fmap_cons in Hnd. apply NoDup_cons in Hnd as [Hn Hnd]. assert (R !! k = Some c) as Ec by (apply Hkl; by left).
    assert (forall (R' : content), (forall k', k' <> k -> R' !! k' = R !! k') -> forall k' c', (k', c') ∈ kl -> R' !! k' = Some c') as Hrest.
    { intros R' HR' k' c' Hin. rewrite HR'; [apply Hkl; by right|]. intros ->. apply Hn. apply list_elem_of_fmap. by exists (k, c'). }
    rewrite !fmap_cons in *. cbn [fst snd act_on_children] in *. destruct (fk_on_delete fk) eqn:Eact.
    + split; done.
    + destruct (act_cascade fk old todo k c kl.*2 tx wl R Hfk Eact G ER Ec Hcov) as [(tx' & E & G' & Es & Hc & Ht)|E].
      * unfold mbind at 1, sm_bind at 1 in E. unfold mbind at 1, sm_bind at 1. destruct (sm_lift _ tx) as [[pv|] tx0]; [|done].
        unfold mbind at 1, sm_bind at 1. rewrite E. eapply acted_trans; [|eapply (IH tx' _ (delete k R) G' Hnd)].
        -- simpl. lia.
        -- rewrite Es. by rewrite lookup_insert_eq.
        -- apply Hrest. intros k' Hk'. by apply lookup_delete_ne.
        -- exact Hc.
      * unfold mbind at 1, sm_bind at 1 in E. unfold mbind at 1, sm_bind at 1. destruct (sm_lift _ tx) as [[pv|] tx0]; [|by injection E as -> ->].
        unfold mbind at 1, sm_bind at 1. rewrite E. done.
    + pose proof (act_null fk old todo k c kl.*2 tx wl R Hfk Eact G ER Ec Hcov) as Hnull. unfold mbind at 1, sm_bind at 1.
      destruct (null_child env blobs w fk c tx) as [[u|e] tx']; [|done]. destruct Hnull as (G' & (stored & Es) & Hc & Ht).
      eapply acted_trans; [|eapply (IH tx' _ (<[k := stored]> R) G' Hnd)].
      * lia.
      * rewrite Es. by rewrite lookup_insert_eq.
      * apply Hrest. intros k' Hk'. by apply lookup_insert_ne.
      * exact Hc.
Qed.

Lemma points_matches fk pk r old o pv : is_fk env fk -> Good (fk_child fk) pk r -> primary_key (ti_schema (fk_parent_schema fk)) = [o] ->
  old !! o = Some pv -> points fk r old -> fk_value_matches (r !! fk_child_ordinal fk) pv = true.
Proof using GE.
  intros Hfk Hg Eo Hpv (o' & v & t & Eo' & Hv & Ht & Hot). assert (o' = o) as -> by congruence.
  assert (t = pv) as -> by congruence. rewrite Hv.
  pose proof (ge_ref GE _ _ _ _ Hfk Hg Hv) as Hnf. unfold fk_value_matches.
  destruct v as [| | | | | | | | | | | | | | | | | | |[v|]| | |]; simpl in Ht; try done; injection Ht as <-;
    exact (value_eq_refl _ Hnf).
Qed.

Lemma apply_ref_action_good fk old todo o pv tx wl : is_fk env fk -> tx_good tx -> primary_key (ti_schema (fk_parent_schema fk)) = [o] ->
  old !! o = Some pv -> covered (seen C tx) wl (fun fk' r => points fk' r old /\ fk' ∈ fk :: todo) ->
  acted tx wl old todo (apply_ref_action env blobs w fk pv wl tx).
Proof using GE RL.
  intros Hfk G Eo Hpv Hcov. unfold apply_ref_action. unfold mbind at 1, sm_bind at 1.
  destruct (cs_tables (tx_base tx) !! fk_child fk) as [ts|] eqn:Ets.
  - destruct (tables_is_get _ _ _ _ _ _ (ti_tables _ _ _ _ (tg_inv _ G)) Ets) as (R0 & f & ER0 & _ & _).
    assert (at_tx tx C (fk_child fk) ts R0) as Hat by done. destruct (seen_table w tx C fs _ ts R0 (tg_inv _ G) Hat) as [_ ER].
    destruct (scan_all_spec w tx C fs (fk_child fk) ts R0 (tg_inv _ G) Hat) as (rs & -> & Hperm). set (R := seen_at tx R0 (fk_child fk)) in *.
    apply Permutation_map_inv in Hperm as (l & -> & Hl). 
    set (kl := filter (fun p : list Z * row => fk_value_matches (p.2 !! fk_child_ordinal fk) pv = true) l).
    assert (filter (fun r : row => fk_value_matches (r !! fk_child_ordinal fk) pv = true) l.*2 = kl.*2) as Hflt.
    { subst kl. clear. induction l as [|p l IH]; [done|]. rewrite fmap_cons. destruct (decide (fk_value_matches (p.2 !! fk_child_ordinal fk) pv = true)).
      - rewrite !filter_cons_True by done. by rewrite fmap_cons, IH.
      - rewrite !filter_cons_False by done. done. }
    change (map snd l) with l.*2. rewrite Hflt. apply (act_good fk old todo kl Hfk tx wl R G).
    + apply NoDup_fst_filter. rewrite <- Hl. apply NoDup_fst_map_to_list.
    + exact ER.
    + intros k c [_ Hin]%list_elem_of_filter. rewrite <- Hl in Hin. by apply elem_of_map_to_list in Hin.
    + eapply covered_weaken; [|exact Hcov]. intros fk' R' pk r HR' Hr [Hpt Hin]. right. split; [done|].
      apply elem_of_cons in Hin as [->|Hin]; [|by left]. right. split; [done|]. rewrite ER in HR'. simplify_eq.
      apply list_elem_of_fmap. exists (pk, r). split; [done|]. apply list_elem_of_filter. split; [|rewrite <- Hl; by apply elem_of_map_to_list].
      eapply points_matches; try done. by eapply G.
  - unfold scan_all. unfold mbind at 1, sm_bind at 1, base_table, cs_table. rewrite Ets. done.
Qed.

Lemma apply_ref_actions_good fks old : Forall (is_fk env) fks -> forall tx wl, tx_good tx ->
  covered (seen C tx) wl (fun fk r => points fk r old /\ fk ∈ fks) -> acted tx wl old [] (apply_ref_actions env blobs w fks old wl tx).
Proof using GE RL.
  induction 1 as [|fk fks Hfk _ IH]; intros tx wl G Hcov; [by split_and!|]. cbn [apply_ref_actions].
  destruct (fw_key _ (ge_fks GE) fk Hfk) as (o & Eo). rewrite Eo. unfold mbind at 1, sm_bind at 1, sm_lift at 1.
  destruct (old !! o) as [pv|] eqn:Epv; [|by split]. cbn [from_option]. unfold mbind at 1, sm_bind at 1.
  pose proof (apply_ref_action_good fk old fks o pv tx wl Hfk G Eo Epv Hcov) as Ha.
  destruct (apply_ref_action env blobs w fk pv wl tx) as [[wl'|e] tx']; [|done]. destruct Ha as (G' & Hc & Hm).
  eapply acted_trans; [exact Hm|]. by apply IH.
Qed.

(** ** The worklist *)

Lemma delete_loop_good fuel : forall tx wl, tx_good tx -> covered (seen C tx) wl (fun _ _ => False) ->
  (length wl + total (seen C tx) <= fuel)%nat ->
  match delete_loop env blobs w fuel wl tx with
  | (Ok _, tx') => tx_good tx' /\ (D -> refs_ok env (seen C tx'))
  | (Err e, tx') => tx_good tx' /\ e <> OutOfFuel
  end.
Proof using GE RL.
  induction fuel as [|fuel IH]; intros tx [|[parent old] wl] G Hcov Hm; cbn [delete_loop].
  1, 3: split; [done|]; intros HD fk Hfk R pk r HR Hr; destruct (Hcov HD fk Hfk R pk r HR Hr) as [?|[(o & Ho & _)|[]]]; [done|by apply elem_of_nil in Ho].
  - simpl in Hm. lia.
  - assert (D -> forall fk R pk r, is_fk env fk -> seen C tx !! fk_child fk = Some R -> R !! pk = Some r ->
      ref_ok (seen C tx) fk r \/ (exists o, (fk_parent fk, o) ∈ wl /\ points fk r o) \/ (fk_parent fk = parent /\ points fk r old)) as Hpop.
    { intros HD fk R pk r Hfk HR Hr. destruct (Hcov HD fk Hfk R pk r HR Hr) as [?|[(o & Ho & Hpt)|[]]]; [by left|].
      apply elem_of_cons in Ho as [[= Ep ->]|Ho]; [right; by right|right; left; by exists o]. }
    simpl in Hm. destruct (fks_in env !! parent) as [fks|] eqn:Efks.
    + unfold mbind at 1, sm_bind at 1.
      assert (acted tx wl old [] (apply_ref_actions env blobs w fks old wl tx)) as Ha.
      { apply apply_ref_actions_good; [apply Forall_forall; intros fk Hin; by eapply (fw_in _ (ge_fks GE))|done|].
        intros HD fk Hfk R pk r HR Hr. destruct (Hpop HD fk R pk r Hfk HR Hr) as [?|[?|[Ep Hpt]]]; [by left|right; by left|right; right].
        split; [done|]. destruct (fw_both _ (ge_fks GE) fk Hfk) as (fks' & E' & Hin). rewrite Ep in E'. by simplify_eq. }
      destruct (apply_ref_actions env blobs w fks old wl tx) as [[wl'|e] tx']; [|done]. destruct Ha as (G' & Hc & Hle).
      apply IH; [done| |lia]. eapply covered_weaken; [|exact Hc]. intros ???? _ _ [_ Hin]. by apply elem_of_nil in Hin.
    + apply IH; [done| |lia]. intros HD fk Hfk R pk r HR Hr. destruct (Hpop HD fk R pk r Hfk HR Hr) as [?|[?|[Ep Hpt]]]; [by left|right; by left|].
      destruct (fw_both _ (ge_fks GE) fk Hfk) as (fks' & E' & _). rewrite Ep in E'. congruence.
Qed.

(** [Tx::delete]: the references stay valid, and the visible rows bound its
    rounds. *)
Lemma delete_row_good fuel tx id pk_values : tx_good tx -> (D -> refs_ok env (seen C tx)) -> (total (seen C tx) <= fuel)%nat ->
  match delete_row env blobs w fuel id pk_values tx with
  | (Ok _, tx') => tx_good tx' /\ (D -> refs_ok env (seen C tx'))
  | (Err e, tx') => tx_good tx' /\ e <> OutOfFuel
  end.
Proof using GE RL.
  intros G Hrefs Hm. unfold delete_row. unfold mbind at 1, sm_bind at 1.
  destruct (catalog env !! id) as [info|] eqn:Ecat; [|unfold delete_one, mbind, sm_bind, sm_lift, schema_of; rewrite Ecat; by split].
  destruct (encode_pk_values (ti_schema info) pk_values) as [pk|] eqn:Epk.
  2: { unfold delete_one, mbind, sm_bind, sm_lift, schema_of. rewrite Ecat. cbn [from_option]. unfold global_guard, guard.
       destruct (negb _); unfold mret, sm_ret, sm_fail; [rewrite Epk|]; by split. }
  destruct (seen C tx !! id) as [R|] eqn:ER.
  - destruct (R !! pk) as [old|] eqn:Eold.
    + destruct (delete_good tx id info R pk old pk_values G Ecat ER Eold Epk) as (r & tx' & E & G' & [[-> ->]|[-> Es]]); rewrite E; [by split|].
      unfold mbind at 1, sm_bind at 1.
      assert (covered (seen C tx') [(id, old)] (fun _ _ => False)) as Hc.
      { rewrite Es. eapply covered_delete; [|exact ER|exact Eold|exact Ecat|by eapply G|apply G].
        intros HD fk Hfk R' pk' r HR' Hr. left. by eapply Hrefs. }
      pose proof (delete_loop_good fuel tx' [(id, old)] G' Hc) as Hl.
      assert (length [(id, old)] + total (seen C tx') <= fuel)%nat as Hle.
      { rewrite Es. pose proof (total_insert (seen C tx) id R (delete pk R) ER) as Ht. rewrite (map_size_delete_Some pk R) in Ht by by eexists.
        assert (size R <> 0%nat) by (apply map_size_non_empty_iff; intros ->; by rewrite lookup_empty in Eold). simpl. lia. }
      specialize (Hl Hle). destruct (delete_loop env blobs w fuel [(id, old)] tx') as [[u|e] tx2]; done.
    + unfold seen in ER. rewrite views_lookup in ER. destruct (C !! id) as [R0|] eqn:EC; [|done]. simpl in ER.
      pose proof (ti_tables _ _ _ _ (tg_inv _ G) id) as Ht. destruct (cs_tables (tx_base tx) !! id) as [ts|] eqn:Ets; [|destruct Ht; congruence].
      assert (at_tx tx C id ts R0) as Hat by done. destruct (delete_allowed env info) eqn:Eal.
      * destruct (delete_one_spec env w tx C fs id ts R0 info pk_values pk (tg_inv _ G) Hat Ecat Eal Epk) as (tx' & E & I' & Es & Eb & _).
        unfold seen_at, ops_of in E, Es. injection ER as ER. rewrite ER in E, Es. rewrite Eold in E. rewrite E. unfold mret, sm_ret.
        assert (seen C tx' = seen C tx) as Es'.
        { rewrite Es, delete_id by done. apply insert_id. unfold seen. rewrite views_lookup, EC. simpl. by rewrite ER. }
        split; [|by rewrite Es']. split; [done|by rewrite Eb; apply G|]. rewrite Es'. apply G.
      * unfold delete_one, mbind, sm_bind, sm_lift, schema_of. rewrite Ecat. cbn [from_option]. unfold global_guard. unfold delete_allowed in Eal. rewrite Eal. by split.
  - unfold delete_one, mbind, sm_bind, sm_lift, schema_of. rewrite Ecat. cbn [from_option]. unfold global_guard, guard.
    destruct (negb _); unfold mret, sm_ret, sm_fail; [|by split]. rewrite Epk. cbn [map_err]. unfold base_table, cs_table.
    destruct (cs_tables (tx_base tx) !! id) as [ts|] eqn:Ets; [|by split].
    destruct (tables_is_get _ _ _ _ _ _ (ti_tables _ _ _ _ (tg_inv _ G)) Ets) as (R0 & f & ER0 & _ & _).
    unfold seen in ER. rewrite views_lookup, ER0 in ER. done.
Qed.
End base.
End refs.
