(* ===== verification/WriteSpec.v ===== *)
(** What a write accepts ([TxGuard::write] and [check_constraints] in
    [store/memstore/tx.rs], up to the conflict checks).

    [accepts] says which row a write stores and at which key, without the order
    in which the code looks: computed columns derived, blobs present, columns of
    their types, the automatic id filled in, no null in a [not_null] column, every
    check passed, every reference to a visible row. [refused] lists the errors
    with what each one reports. [prepare] returns a row exactly when one is
    accepted, and otherwise an error whose complaint is true. *)

From stdpp Require Import base list gmap sorting.
From Stdlib Require Import ZArith Lia.
From S2P Require Import Prelude FluxBin Row IndexKey TxState LogRecord PageFormat PagedTree PagedTreeNode PagedTreeRep PagedTreeSpec KvTree TableState TableSpec Reclaim MemStore MergeSpec StoreSpec TxSpec RefSpec.

Section accept.
Context {W T X B : Type} {KT : KvTree W T} {KL : KvTreeLaws W T} {RC : RowCodec} {RL : RowCodecLaws}.
Context {SI : SideIndex W X} {BS : BlobStore B}.
Context (env : StoreEnv) (blobs : option B) (w : W).

(** * The row a write stores *)

(** Each computed column sees the row as left by the ones before it. *)
Inductive derived : list (nat * (row -> result Z RowValue.t)) -> row -> row -> Prop :=
  | derived_nil r : derived [] r r
  | derived_cons o f cols r x r' : f r = Ok x -> derived cols (<[o := x]> r) r' -> derived ((o, f) :: cols) r r'.

(** A blob column holds a hash of the blob store. *)
Definition blob_held (r : row) (o : nat) : Prop := forall hash, r !! o = Some (RowValue.Blob hash) ->
  exists b, blobs = Some b /\ blob_contains b hash = true.

(** The automatic id: a zero stands for the next number of the table's counter. *)
Definition numbered (counter : AutoIncCounter) (info : TableInfo) (r v : row) : Prop :=
  match ti_auto_inc info with
  | None => v = r
  | Some idx => exists n, r !! idx = Some (RowValue.U64 n) /\ v = if decide (n = 0) then <[idx := RowValue.U64 (next counter)]> r else r
  end.

Definition counter_of (wr : WriterState) (id : TableId) : AutoIncCounter := default counter_new (counters wr !! id).

(** Up to the automatic id: [info] describes the table, [r] is the derived row
    and [v] the numbered one. *)
Record shaped (tx : Tx T X) (id : TableId) (values : row) (info : TableInfo) (r v : row) : Prop := {
  sd_info : catalog env !! id = Some info;
  sd_table : is_Some (cs_tables (tx_base tx) !! id);
  sd_writer : ti_access info = Global -> global_writes_allowed env = true;
  sd_derived : derived (default [] (computed env !! id)) values r;
  sd_blobs : forall o, columns (ti_schema info) !! o = Some FluxType.Blob -> blob_held r o;
  sd_types : forallb2 matches_type r (columns (ti_schema info)) = true;
  sd_number : numbered (counter_of (tx_writer tx) id) info r v;
}.

(** The declared constraints of a table, over the visible rows [V]. *)
Record valid (V : contents) (id : TableId) (v : row) : Prop := {
  vd_not_null : forall o, o ∈ default [] (not_null env !! id) -> v !! o <> Some (RowValue.Optional None);
  vd_checks : Forall (fun d => d.2 v = Ok true) (default [] (checks env !! id));
  vd_refs : Forall (fun fk => ref_ok V fk v) (default [] (fks_out env !! id));
}.

(** A write of [values] stores [v] at [pk]. *)
Definition accepts (V : contents) (tx : Tx T X) (id : TableId) (values : row) (pk : list Z) (v : row) : Prop :=
  exists info r, shaped tx id values info r v /\ valid V id v /\ encode_pk_of_row (ti_schema info) v = Ok pk.

(** * The errors *)

Inductive underived : list (nat * (row -> result Z RowValue.t)) -> row -> Z -> Prop :=
  | underived_here o f cols r e : f r = Err e -> underived ((o, f) :: cols) r e
  | underived_later o f cols r x e : f r = Ok x -> underived cols (<[o := x]> r) e -> underived ((o, f) :: cols) r e.

Inductive violates (V : contents) (id : TableId) (v : row) : StoreError -> Prop :=
  | ViolatesNull o : o ∈ default [] (not_null env !! id) -> v !! o = Some (RowValue.Optional None) -> violates V id v (NotNullViolation o)
  | ViolatesCheck o f : (o, f) ∈ default [] (checks env !! id) -> f v = Ok false -> violates V id v (CheckViolation o)
  | ViolatesCheckError o f e : (o, f) ∈ default [] (checks env !! id) -> f v = Err e -> violates V id v (ReducerError e)
  | ViolatesReference fk e : fk ∈ default [] (fks_out env !! id) -> ~ ref_ok V fk v ->
      e = FkViolation (fk_child_ordinal fk) \/ e = UnknownTable (fk_parent fk) \/ (exists e', e = RowError e') -> violates V id v e.

Inductive refused (V : contents) (tx : Tx T X) (id : TableId) (values : row) : StoreError -> Prop :=
  | RefusedTable : catalog env !! id = None \/ cs_tables (tx_base tx) !! id = None -> refused V tx id values (UnknownTable id)
  | RefusedReplica info : catalog env !! id = Some info -> ti_access info = Global -> global_writes_allowed env = false ->
      refused V tx id values GlobalReplicaWrite
  | RefusedComputed e : underived (default [] (computed env !! id)) values e -> refused V tx id values (ReducerError e)
  | RefusedNoBlobs info r o hash : catalog env !! id = Some info -> derived (default [] (computed env !! id)) values r ->
      columns (ti_schema info) !! o = Some FluxType.Blob -> r !! o = Some (RowValue.Blob hash) -> blobs = None ->
      refused V tx id values BlobStoreMissing
  | RefusedBlob info r o hash b : catalog env !! id = Some info -> derived (default [] (computed env !! id)) values r ->
      columns (ti_schema info) !! o = Some FluxType.Blob -> r !! o = Some (RowValue.Blob hash) -> blobs = Some b -> blob_contains b hash = false ->
      refused V tx id values (BlobMissing hash)
  | RefusedType info r e : catalog env !! id = Some info -> derived (default [] (computed env !! id)) values r ->
      forallb2 matches_type r (columns (ti_schema info)) = false -> refused V tx id values (RowError e)
  | RefusedNumber info r idx : catalog env !! id = Some info -> derived (default [] (computed env !! id)) values r ->
      ti_auto_inc info = Some idx -> (forall n, r !! idx <> Some (RowValue.U64 n)) -> refused V tx id values AutoIncNotU64
  | RefusedConstraint info r v e : shaped tx id values info r v -> violates V id v e -> refused V tx id values e
  | RefusedKey info r v e : shaped tx id values info r v -> encode_pk_of_row (ti_schema info) v = Err e -> refused V tx id values (RowError e).

(** No refusal reads as a conflict. *)
Lemma refused_no_conflict V tx id values t : ~ refused V tx id values (PkConflict t) /\ forall cols, ~ refused V tx id values (UniqueViolation t cols).
Proof using Type.
  split; [|intros cols]; intros H; inversion H as [| | | | | | |????? Hv|]; subst; inversion Hv as [| | |?? _ _ [?|[?|[? ?]]]]; discriminate.
Qed.

(** * The stages of [prepare] *)

Lemma computed_spec cols : forall r, match apply_computed cols r with
  | Ok r' => derived cols r r'
  | Err e => exists c, e = ReducerError c /\ underived cols r c
  end.
Proof using Type.
  induction cols as [|[o f] cols IH]; intros r; simpl; [constructor|]. destruct (f r) as [x|c] eqn:E; simpl.
  - specialize (IH (<[o := x]> r)). destruct (apply_computed _ _) as [r'|e]; [by econstructor|].
    destruct IH as (c & -> & ?). exists c. split; [done|]. by eapply underived_later.
  - exists c. split; [done|]. by constructor.
Qed.

Lemma derived_fun cols r r' : derived cols r r' -> apply_computed cols r = Ok r'.
Proof using Type. induction 1 as [|o f cols r x r' E _ IH]; simpl; [done|]. by rewrite E. Qed.

Lemma check_blobs_spec os r : match check_blobs blobs os r with
  | Ok _ => forall o, o ∈ os -> blob_held r o
  | Err e => exists o hash, o ∈ os /\ r !! o = Some (RowValue.Blob hash) /\
      (blobs = None /\ e = BlobStoreMissing \/ exists b, blobs = Some b /\ blob_contains b hash = false /\ e = BlobMissing hash)
  end.
Proof using Type.
  induction os as [|o os IH]; simpl; [by intros o ?%elem_of_nil|].
  assert ((forall hash, r !! o <> Some (RowValue.Blob hash)) \/ exists hash, r !! o = Some (RowValue.Blob hash)) as [Hn|[hash Eh]].
  { destruct (r !! o) as [[]|]; try (left; congruence). right. by eexists. }
  - replace (match r !! o with Some (RowValue.Blob _) => _ | _ => _ end) with (check_blobs blobs os r).
    2: { destruct (r !! o) as [[]|]; try done. by edestruct Hn. }
    destruct (check_blobs blobs os r) as [u|e].
    + intros o' [->|Hin]%elem_of_cons; [intros hash E; by destruct (Hn hash)|by apply IH].
    + destruct IH as (o' & hash & Hin & H). exists o', hash. split; [by right|done].
  - rewrite Eh. destruct blobs as [b|] eqn:Eb; [|exists o, hash; split_and!; [by left|done|by left]].
    destruct (blob_contains b hash) eqn:Ec; [|exists o, hash; split_and!; [by left|done|right; by exists b]].
    destruct (check_blobs _ os r) as [u|e].
    + intros o' [->|Hin]%elem_of_cons; [|by apply IH]. intros h E. rewrite Eh in E. injection E as <-. rewrite Eb. by exists b.
    + destruct IH as (o' & h & Hin & H). exists o', h. split; [by right|done].
Qed.

Lemma blob_ordinals_spec info o : o ∈ blob_ordinals info <-> columns (ti_schema info) !! o = Some FluxType.Blob.
Proof using Type.
  unfold blob_ordinals. rewrite list_elem_of_filter, elem_of_seq. split.
  - intros [E _]. destruct (columns _ !! o) as [[]|]; naive_solver.
  - intros E. rewrite E. split; [done|]. apply lookup_lt_Some in E. lia.
Qed.

Lemma not_null_spec os r : match check_not_null os r with
  | Ok _ => forall o, o ∈ os -> r !! o <> Some (RowValue.Optional None)
  | Err e => exists o, e = NotNullViolation o /\ o ∈ os /\ r !! o = Some (RowValue.Optional None)
  end.
Proof using Type.
  induction os as [|o os IH]; simpl; [by intros o ?%elem_of_nil|].
  assert (r !! o = Some (RowValue.Optional None) \/ r !! o <> Some (RowValue.Optional None)) as [E|Hn]
    by (destruct (r !! o) as [[| | | | | | | | | | | | | | | | | | |[]| | |]|]; by (right; congruence) || by left); [rewrite E; exists o; split_and!; by try left|].
  replace (match r !! o with Some (RowValue.Optional None) => _ | _ => _ end) with (check_not_null os r)
    by (destruct (r !! o) as [[| | | | | | | | | | | | | | | | | | |[]| | |]|]; done).
  destruct (check_not_null os r) as [u|e].
  - intros o' [->|Hin]%elem_of_cons; [done|by apply IH].
  - destruct IH as (o' & -> & Hin & E). exists o'. split_and!; [done|by right|done].
Qed.

Lemma checks_spec defs r : match check_checks defs r with
  | Ok _ => Forall (fun d => d.2 r = Ok true) defs
  | Err e => exists o f, (o, f) ∈ defs /\ (f r = Ok false /\ e = CheckViolation o \/ exists c, f r = Err c /\ e = ReducerError c)
  end.
Proof using Type.
  induction defs as [|[o f] defs IH]; simpl; [constructor|]. destruct (f r) as [b|c] eqn:E; simpl.
  - destruct b; [|exists o, f; split; [by left|by left]].
    destruct (check_checks defs r) as [u|e]; [by constructor|]. destruct IH as (o' & f' & Hin & H). exists o', f'. split; [by right|done].
  - exists o, f. split; [by left|]. right. by exists c.
Qed.

Lemma check_row_err schema r e : check_row schema r = Err e -> forallb2 matches_type r (columns schema) = false.
Proof using Type. intros E. apply not_true_is_false. intros H%check_row_spec. congruence. Qed.

Lemma assign_spec id info r (tx : Tx T X) : match assign_auto_inc env id info r tx with
  | (Ok v, tx') => numbered (counter_of (tx_writer tx) id) info r v /\ tx_base tx' = tx_base tx /\ tx_state tx' = tx_state tx
  | (Err e, _) => e = AutoIncNotU64 /\ exists idx, ti_auto_inc info = Some idx /\ forall n, r !! idx <> Some (RowValue.U64 n)
  end.
Proof using Type.
  destruct (ks_assign env id info r tx) as (B1 & B2 & _). revert B1 B2. unfold assign_auto_inc, numbered.
  destruct (ti_auto_inc info) as [idx|]; [|done].
  destruct (r !! idx) as [[]|] eqn:E; try (intros _ _; split; [done|]; exists idx; split; [done|]; congruence).
  unfold counter_of. match goal with |- context [Z.eqb ?m 0] => destruct (Z.eqb_spec m 0) as [->|Hn] end.
  - cbn. intros _ _. split; [|done]. eexists. split; [done|]. by rewrite decide_True.
  - destruct (observe_explicit _ _) as [adv c]. cbn. intros _ _. split; [|done]. eexists. split; [done|]. by rewrite decide_False.
Qed.

Section base.
Context (C : contents) (fs : gmap TableId (list Page)).

(** The parent lookup finds exactly the visible rows. *)
Lemma parent_exists_sees fk t (tx : Tx T X) : tx_inv w tx C fs ->
  match parent_exists w fk t tx with
  | (Ok b, tx') => tx' = tx /\ (b = true <-> exists ppk P, parent_key fk t = Ok ppk /\ seen C tx !! fk_parent fk = Some P /\ is_Some (P !! ppk))
  | (Err e, _) => (e = UnknownTable (fk_parent fk) \/ exists e', e = RowError e') /\
      ~ exists ppk P, parent_key fk t = Ok ppk /\ seen C tx !! fk_parent fk = Some P /\ is_Some (P !! ppk)
  end.
Proof using RL.
  intros I. unfold parent_exists, mbind, sm_bind, sm_lift, parent_key.
  destruct (encode_pk_values _ [t]) as [ppk|e]; cbn [map_err]; [|split; [right; by eexists|by intros (? & ? & ? & _)]].
  assert (forall ts R, at_tx tx C (fk_parent fk) ts R -> forall b,
    (b = true <-> is_Some (view R (ops_of (tx_state tx) (fk_parent fk)) !! ppk)) ->
    (b = true <-> exists ppk0 P, Ok (E := StorageError) ppk = Ok ppk0 /\ seen C tx !! fk_parent fk = Some P /\ is_Some (P !! ppk0))) as Hv.
  { intros ts R Hat b Hb. destruct (seen_table _ _ _ _ _ _ _ I Hat) as [_ Es]. rewrite Hb, Es. naive_solver. }
  destruct (ops_of (tx_state tx) (fk_parent fk) !! ppk) as [op|] eqn:Eop.
  - assert (exists ts R, at_tx tx C (fk_parent fk) ts R) as (ts & R & Hat).
    { unfold ops_of in Eop. destruct (tables (tx_state tx) !! fk_parent fk) as [ops|] eqn:Et; simpl in Eop; [|by rewrite lookup_empty in Eop].
      destruct (ti_pending _ _ _ _ I _ _ Et) as [->|(ts & R & E1 & E2 & _)]; [by rewrite lookup_empty in Eop|]. by exists ts, R. }
    destruct op; (split; [done|]); apply (Hv ts R Hat); rewrite view_lookup, Eop; simpl; split; try done; by intros [? ?].
  - unfold base_table, cs_table. pose proof (ti_tables _ _ _ _ I (fk_parent fk)) as HT.
    destruct (cs_tables (tx_base tx) !! fk_parent fk) as [ts|] eqn:Ets; cbn [from_option].
    + destruct HT as (R & f & E2 & _ & Ht). pose proof Ht as [(fr & _ & _ & _ & HR & _) _].
      rewrite (contains_pk_spec _ _ _ _ _ _ (ti_world _ _ _ _ I) HR). split; [done|]. apply (Hv ts R ltac:(done)).
      rewrite view_lookup, Eop. simpl. by rewrite bool_decide_eq_true.
    + split; [by left|]. intros (ppk' & P & _ & E & _). unfold seen in E. rewrite views_lookup in E. destruct HT as [EC _].
      simpl in EC. by rewrite EC in E.
Qed.

Lemma fks_spec fks v (tx : Tx T X) : tx_inv w tx C fs ->
  match check_fks w fks v tx with
  | (Ok _, tx') => tx' = tx /\ Forall (fun fk => ref_ok (seen C tx) fk v) fks
  | (Err e, _) => exists fk, fk ∈ fks /\ ~ ref_ok (seen C tx) fk v /\
      (e = FkViolation (fk_child_ordinal fk) \/ e = UnknownTable (fk_parent fk) \/ exists e', e = RowError e')
  end.
Proof using RL.
  intros I. induction fks as [|fk fks IH]; cbn [check_fks]; [by split|].
  assert (forall t, (forall x, v !! fk_child_ordinal fk = Some x -> fk_target x = Some t) -> is_Some (v !! fk_child_ordinal fk) ->
    match (parent_exists w fk t ≫= fun found => guard found (FkViolation (fk_child_ordinal fk)) ≫= fun _ => check_fks w fks v) tx with
    | (Ok _, tx') => tx' = tx /\ Forall (fun fk => ref_ok (seen C tx) fk v) (fk :: fks)
    | (Err e, _) => exists fk', fk' ∈ fk :: fks /\ ~ ref_ok (seen C tx) fk' v /\
        (e = FkViolation (fk_child_ordinal fk') \/ e = UnknownTable (fk_parent fk') \/ exists e', e = RowError e')
    end) as Hp.
  { intros t Hv [x Hx]. pose proof (parent_exists_sees fk t tx I) as Hs. unfold mbind at 1, sm_bind at 1.
    assert (ref_ok (seen C tx) fk v <-> exists ppk P, parent_key fk t = Ok ppk /\ seen C tx !! fk_parent fk = Some P /\ is_Some (P !! ppk)) as Href.
    { split; [intros H; by apply (H x t Hx), Hv|]. intros H x' t' Hx' Ht'. rewrite (Hv _ Hx') in Ht'. by simplify_eq. }
    destruct (parent_exists w fk t tx) as [[b|e] tx'].
    - destruct Hs as [-> Hb]. rewrite <- Href in Hb. unfold mbind, sm_bind. destruct b; cbn [guard].
      + unfold mret, sm_ret. destruct (check_fks w fks v tx) as [[u|e] tx']; [|destruct IH as (fk' & ? & ?); exists fk'; split; [by right|done]].
        destruct IH as [-> HF]. split; [done|]. constructor; [by apply Hb|done].
      + exists fk. split; [by left|]. split; [|by left]. by intros H%Hb.
    - destruct Hs as [He Hn]. exists fk. split; [by left|]. split; [by rewrite Href|]. destruct He as [->|[e' ->]]; [right; by left|right; right; by exists e']. }
  assert ((forall x, v !! fk_child_ordinal fk = Some x -> fk_target x = None) ->
    match check_fks w fks v tx with
    | (Ok _, tx') => tx' = tx /\ Forall (fun fk => ref_ok (seen C tx) fk v) (fk :: fks)
    | (Err e, _) => exists fk', fk' ∈ fk :: fks /\ ~ ref_ok (seen C tx) fk' v /\
        (e = FkViolation (fk_child_ordinal fk') \/ e = UnknownTable (fk_parent fk') \/ exists e', e = RowError e')
    end) as Hn.
  { intros Hv. destruct (check_fks w fks v tx) as [[u|e] tx']; [|destruct IH as (fk' & ? & ?); exists fk'; split; [by right|done]].
    destruct IH as [-> HF]. split; [done|]. constructor; [|done]. intros x t Hx Ht. by rewrite (Hv x Hx) in Ht. }
  destruct (v !! fk_child_ordinal fk) as [x|] eqn:Ev; [|by apply Hn].
  destruct x as [| | | | | | | | | | | | | | | | | | |[x|]| | |]; first [apply Hp; [by intros ? [= <-]|done]|apply Hn; by intros ? [= <-]].
Qed.

Lemma constraints_spec id v (tx : Tx T X) : tx_inv w tx C fs ->
  match check_constraints env w id v tx with
  | (Ok _, tx') => tx' = tx /\ valid (seen C tx) id v
  | (Err e, _) => violates (seen C tx) id v e /\ ~ valid (seen C tx) id v
  end.
Proof using RL.
  intros I. unfold check_constraints. unfold mbind at 1, sm_bind at 1, sm_lift at 1.
  pose proof (not_null_spec (default [] (not_null env !! id)) v) as Hnn. destruct (check_not_null _ v) as [u1|e].
  2: { destruct Hnn as (o & -> & Hin & En). split; [by eapply ViolatesNull|]. intros [Hno _ _]. by apply (Hno o Hin). }
  unfold mbind at 1, sm_bind at 1, sm_lift at 1. pose proof (checks_spec (default [] (checks env !! id)) v) as Hck. destruct (check_checks _ v) as [u2|e].
  2: { destruct Hck as (o & g & Hin & He). split.
       - destruct He as [[Eo ->]|(c & Eo & ->)]; [by eapply ViolatesCheck|by eapply ViolatesCheckError].
       - intros [_ HF _]. rewrite Forall_forall in HF. specialize (HF _ Hin). simpl in HF. destruct He as [[E _]|(c & E & _)]; congruence. }
  pose proof (fks_spec (default [] (fks_out env !! id)) v tx I) as Hfk. destruct (check_fks _ _ _ tx) as [[u3|e] tx2].
  - by destruct Hfk as [-> HF].
  - destruct Hfk as (fk & Hin & Hno & He). split; [by eapply ViolatesReference|]. intros [_ _ HF]. apply Hno. rewrite Forall_forall in HF. by apply HF.
Qed.

(** * [prepare] *)

Lemma shaped_det tx id values info r v info' r' v' : shaped tx id values info r v -> shaped tx id values info' r' v' -> info' = info /\ r' = r /\ v' = v.
Proof using Type.
  intros [A1 _ _ A2%derived_fun _ _ A3] [B1 _ _ B2%derived_fun _ _ B3]. assert (info' = info) as -> by congruence. assert (r' = r) as -> by congruence.
  split_and!; [done..|]. revert A3 B3. unfold numbered. destruct (ti_auto_inc info) as [idx|]; [|congruence].
  intros (n & E & ->) (n' & E' & ->). rewrite E in E'. by injection E' as <-.
Qed.

(** The call returns a row exactly when one is accepted. *)
Lemma prepare_spec id values (tx : Tx T X) : tx_inv w tx C fs -> transforms env = None ->
  match prepare env blobs w id values tx with
  | (Ok (pk, v), _) => accepts (seen C tx) tx id values pk v
  | (Err e, _) => refused (seen C tx) tx id values e /\ forall pk v, ~ accepts (seen C tx) tx id values pk v
  end.
Proof using RL.
  intros I Htr. unfold prepare. unfold mbind at 1, sm_bind at 1, sm_lift at 1, schema_of.
  destruct (catalog env !! id) as [info|] eqn:Ecat; cbn [from_option].
  2: { split; [constructor; by left|]. intros pk v (i & r & [? _ _ _ _ _ _] & _). congruence. }
  unfold mbind at 1, sm_bind at 1. unfold global_guard.
  destruct (negb (bool_decide (ti_access info = Global) && negb (global_writes_allowed env))) eqn:Eg; cbn [guard].
  2: { apply negb_false_iff, andb_true_iff in Eg as [Eg%bool_decide_eq_true_1 Ew%negb_true_iff]. split; [by eapply RefusedReplica|].
       intros pk v (i & r & Hs & _). pose proof (sd_info _ _ _ _ _ _ Hs). assert (i = info) as -> by congruence. pose proof (sd_writer _ _ _ _ _ _ Hs Eg). congruence. }
  assert (ti_access info = Global -> global_writes_allowed env = true) as Hgl.
  { intros E. rewrite (bool_decide_eq_true_2 _ E) in Eg. by destruct (global_writes_allowed env). }
  unfold mret at 1, sm_ret at 1. unfold mbind at 1, sm_bind at 1, sm_lift at 1. pose proof (computed_spec (default [] (computed env !! id)) values) as Hc.
  destruct (apply_computed _ values) as [r|e] eqn:Er.
  2: { destruct Hc as (c & -> & Hu). split; [by constructor|]. intros pk v (i & r' & Hs & _). pose proof (derived_fun _ _ _ (sd_derived _ _ _ _ _ _ Hs)). congruence. }
  unfold mbind at 1, sm_bind at 1, sm_lift at 1. pose proof (check_blobs_spec (blob_ordinals info) r) as Hb.
  assert (forall i r' v, shaped tx id values i r' v -> i = info /\ r' = r) as Hdet.
  { intros i r' v Hs. pose proof (sd_info _ _ _ _ _ _ Hs). pose proof (derived_fun _ _ _ (sd_derived _ _ _ _ _ _ Hs)). split; congruence. }
  destruct (check_blobs blobs (blob_ordinals info) r) as [u|e].
  2: { destruct Hb as (o & hash & Ho%blob_ordinals_spec & Eh & He). split.
       - destruct He as [[En ->]|(b & Eb & Ec & ->)]; [by eapply RefusedNoBlobs|by eapply RefusedBlob].
       - intros pk v (i & r' & Hs & _). destruct (Hdet _ _ _ Hs) as [-> ->]. destruct (sd_blobs _ _ _ _ _ _ Hs o Ho hash Eh) as (b & Eb & Ec).
         destruct He as [[En _]|(b' & Eb' & Ec' & _)]; congruence. }
  unfold mbind at 1, sm_bind at 1, sm_lift at 1. destruct (check_row (ti_schema info) r) as [[]|e] eqn:Ech; cbn [map_err].
  2: { apply check_row_err in Ech. split; [by eapply RefusedType|]. intros pk v (i & r' & Hs & _). destruct (Hdet _ _ _ Hs) as [-> ->]. pose proof (sd_types _ _ _ _ _ _ Hs). congruence. }
  apply check_row_spec in Ech. unfold mbind at 1, sm_bind at 1. unfold base_table, cs_table.
  destruct (cs_tables (tx_base tx) !! id) as [ts|] eqn:Ets; cbn [from_option].
  2: { split; [constructor; by right|]. intros pk v (i & r' & Hs & _). destruct (sd_table _ _ _ _ _ _ Hs). congruence. }
  unfold mbind at 1, sm_bind at 1. destruct (tables_is_get _ _ _ _ _ _ (ti_tables _ _ _ _ I) Ets) as (R & f & _ & _ & (? & ? & ? & _ & _ & _ & _ & -> & _) & _).
  unfold mret at 1, sm_ret at 1. unfold mbind at 1, sm_bind at 1. pose proof (assign_spec id info r tx) as Ha.
  destruct (assign_auto_inc env id info r tx) as [[v|e] tx1].
  2: { destruct Ha as [-> (idx & Ei & Hno)]. split; [by eapply RefusedNumber|]. intros pk v (i & r' & Hs & _). destruct (Hdet _ _ _ Hs) as [-> ->].
       pose proof (sd_number _ _ _ _ _ _ Hs) as Hnum. unfold numbered in Hnum. rewrite Ei in Hnum. destruct Hnum as (n & E & _). by destruct (Hno n). }
  destruct Ha as (Hnum & Eb1 & Es1). destruct (keeps_inv w tx tx1 C fs Eb1 (f_equal tables Es1) I) as [I1 Ev1].
  assert (shaped tx id values info r v) as Hsh.
  { split; try done. intros o Ho. apply Hb. by apply blob_ordinals_spec. }
  unfold mbind at 1, sm_bind at 1. pose proof (constraints_spec id v tx1 I1) as Hcs. rewrite Ev1 in Hcs. destruct (check_constraints _ _ _ _ tx1) as [[u3|e] tx2].
  2: { destruct Hcs as [Hvi Hno]. split; [by eapply RefusedConstraint|]. intros pk v' (i & r' & Hs & Hval & _).
       by destruct (shaped_det _ _ _ _ _ _ _ _ _ Hsh Hs) as (_ & _ & ->). }
  destruct Hcs as [-> Hval]. unfold mbind at 1, sm_bind at 1, sm_lift at 1. destruct (encode_pk_of_row (ti_schema info) v) as [pk|e] eqn:Epk; cbn [map_err].
  2: { split; [by eapply RefusedKey|]. intros pk v' (i & r' & Hs & _ & E). destruct (shaped_det _ _ _ _ _ _ _ _ _ Hsh Hs) as (-> & _ & ->). congruence. }
  unfold mbind at 1, sm_bind at 1, sm_lift at 1, seal. rewrite Htr. unfold mret, sm_ret. by exists info, r.
Qed.
End base.
End accept.
