(* ===== verification/Transaction.v ===== *)
(** Transactions from begin to commit.

    A reducer issues inserts, upserts and deletes, whose failures it may ignore,
    and commits. [tx_step] is one such call; every state it reaches can be
    committed, and the commit publishes exactly the contents the transaction
    saw. *)

From stdpp Require Import base list gmap sorting relations.
From Stdlib Require Import ZArith Lia.
From S2P Require Import Prelude FluxBin Row IndexKey TxState LogRecord PageFormat PagedTree PagedTreeNode PagedTreeRep PagedTreeSpec KvTree TableState TableSpec Reclaim MemStore MergeSpec StoreSpec CommitSpec TxSpec RefSpec.

(** * What no call changes *)

Section frame.
Context {W T X B : Type} {KT : KvTree W T} {KL : KvTreeLaws W T} {RC : RowCodec} {RL : RowCodecLaws}.
Context {SI : SideIndex W X} {BS : BlobStore B}.
Context (env : StoreEnv) (blobs : option B) (w : W).
Notation TxM := (SM (Tx T X) StoreError).

(** What relates a transaction to itself before and after a buffered operation,
    a trigger event and an auto-increment step relates it before and after every
    call. *)
Context (R : Tx T X -> Tx T X -> Prop) (HR : PreOrder R).
Context (R_ops : forall id ops (tx : Tx T X), R tx (set_ops id ops tx).2) (R_event : forall e (tx : Tx T X), R tx (push_event e tx).2).
Context (R_assign : forall id info values (tx : Tx T X), is_Some (cs_tables (tx_base tx) !! id) -> R tx (assign_auto_inc env id info values tx).2).

Definition framed {A} (m : TxM A) : Prop := forall tx, R tx (m tx).2.

Lemma fr_ret {A} (a : A) : framed (mret a).
Proof using HR. intros tx. apply (reflexivity (R := R)). Qed.
Lemma fr_fail {A} e : framed (sm_fail e : TxM A).
Proof using HR. intros tx. apply (reflexivity (R := R)). Qed.
Lemma fr_lift {A} (r : result StoreError A) : framed (sm_lift r).
Proof using HR. intros tx. apply (reflexivity (R := R)). Qed.
Lemma fr_bind {A D} (m : TxM A) (k : A -> TxM D) : framed m -> (forall a, framed (k a)) -> framed (m ≫= k).
Proof using HR R_ops R_event R_assign.
  intros Hm Hk tx. unfold mbind, sm_bind. specialize (Hm tx). destruct (m tx) as [[a|e] tx']; simpl in *; [|done].
  etrans; [exact Hm|apply Hk].
Qed.
Lemma fr_at {A} (m : TxM A) : (forall tx, exists m' : TxM A, m tx = m' tx /\ framed m') -> framed m.
Proof using HR R_ops R_event R_assign. intros Hm tx. destruct (Hm tx) as (m' & -> & Hk). apply Hk. Qed.
Lemma fr_base id : framed (base_table id).
Proof using HR. intros tx. apply (reflexivity (R := R)). Qed.
Lemma fr_guard b e : framed (guard b e : TxM unit).
Proof using HR. destruct b; [apply fr_ret|apply fr_fail]. Qed.
Lemma fr_get_ops id : framed (get_ops id : TxM _).
Proof using HR. intros tx. apply (reflexivity (R := R)). Qed.
Lemma fr_set_ops id ops : framed (set_ops id ops : TxM unit).
Proof using R_ops. intros tx. apply R_ops. Qed.
Lemma fr_event e : framed (push_event e : TxM unit).
Proof using R_event. intros tx. apply R_event. Qed.

Create HintDb framing.
#[local] Hint Resolve fr_ret fr_fail fr_lift fr_bind fr_base fr_guard fr_get_ops fr_set_ops fr_event : framing.

Lemma fr_parent fk v : framed (parent_exists w fk v).
Proof using HR R_ops R_event R_assign. intros tx. by rewrite parent_exists_reads. Qed.

Lemma fr_check_fks fks values : framed (check_fks w fks values).
Proof using HR R_ops R_event R_assign.
  induction fks as [|fk fks IH]; [apply fr_ret|]. cbn [check_fks].
  assert (forall t, framed (parent_exists w fk t ≫= fun found => guard found (FkViolation (fk_child_ordinal fk)) ≫= fun _ => check_fks w fks values)) as Hp.
  { intros t. apply fr_bind; [apply fr_parent|auto with framing]. }
  destruct (values !! fk_child_ordinal fk) as [[]|]; try done; try apply Hp. destruct v; [apply Hp|done].
Qed.

Lemma fr_prepare id values : framed (prepare env blobs w id values).
Proof using HR R_ops R_event R_assign.
  unfold prepare, global_guard. do 5 (apply fr_bind; [auto with framing|intros]). intros tx. unfold mbind at 1, sm_bind at 1.
  unfold base_table, cs_table. destruct (cs_tables (tx_base tx) !! id) as [ts|] eqn:Ets; [|done]. cbn [from_option].
  unfold mbind at 1, sm_bind at 1. assert (forall m : TxM unit, m = match spatial ts with Some s => sm_lift (si_check s a1) | None => mret tt end -> exists r, m tx = (r, tx)) as Hs.
  { intros m ->. destruct (spatial ts); by eexists. }
  destruct (Hs _ eq_refl) as [r ->]. destruct r; [|done]. unfold mbind at 1, sm_bind at 1.
  pose proof (R_assign id a a1 tx ltac:(by rewrite Ets)) as Ha. destruct (assign_auto_inc env id a a1 tx) as [[v|e] tx1]; [|done]. simpl in Ha.
  etrans; [exact Ha|]. match goal with |- R tx1 (?m tx1).2 => assert (framed m) as Hm; [|apply Hm] end.
  apply fr_bind; [|auto with framing]. unfold check_constraints. apply fr_bind; [auto with framing|]. intros. apply fr_bind; [auto with framing|]. intros. apply fr_check_fks.
Qed.

Lemma fr_write id values replace : framed (write env blobs w id values replace).
Proof using HR R_ops R_event R_assign.
  unfold write. apply fr_bind; [apply fr_prepare|]. intros [pk v]. apply fr_bind; [auto with framing|]. intros base. apply fr_bind; [auto with framing|].
  intros committed. apply fr_bind; [auto with framing|]. intros ops. cbv zeta. apply fr_bind; [auto with framing|]. intros _.
  apply fr_bind; [unfold check_unique; auto with framing|]. intros _. unfold buffer_write. apply fr_bind; [auto with framing|]. intros ops2. cbv zeta.
  assert (forall old stored o, framed (set_ops id o ≫= fun _ => push_write_event env id old stored ≫= fun _ => mret stored : TxM row)) as Hf.
  { intros. apply fr_bind; [auto with framing|]. intros. apply fr_bind; [|auto with framing]. unfold push_write_event. destruct (has_triggers env id); auto with framing. }
  destruct (ops2 !! pk) as [[]|]; try apply Hf; destruct committed; try apply Hf; try (destruct (row_eq _ _); try apply Hf); auto with framing.
Qed.

Lemma fr_delete_one id pk_values : framed (delete_one env w id pk_values).
Proof using HR R_ops R_event R_assign.
  unfold delete_one, global_guard. do 6 (apply fr_bind; [auto with framing|intros]). apply fr_bind.
  - match goal with |- context [?o !! ?k] => destruct (o !! k) as [[]|] end; auto with framing.
  - intros [r|]; [|auto with framing]. destruct (has_triggers env id); auto with framing.
Qed.

Lemma fr_scan_all id : framed (scan_all w id).
Proof using HR R_ops R_event R_assign. unfold scan_all. auto with framing. Qed.

Lemma fr_act fk children : forall wl, framed (act_on_children env blobs w fk children wl).
Proof using HR R_ops R_event R_assign.
  induction children as [|c children IH]; intros wl; [apply fr_ret|]. cbn [act_on_children]. destruct (fk_on_delete fk); [apply fr_fail| |].
  - apply fr_bind; [apply fr_lift|]. intros ks. apply fr_bind; [apply fr_delete_one|]. intros old. apply IH.
  - apply fr_bind; [|intros; apply IH]. unfold null_child. apply fr_bind.
    + destruct (transforms env) as [e|]; [|apply fr_ret]. destruct (touches e _); auto with framing.
    + intros vals. apply fr_bind; [auto with framing|]. intros. apply fr_bind; [apply fr_write|auto with framing].
Qed.

Lemma fr_actions fks old : forall wl, framed (apply_ref_actions env blobs w fks old wl).
Proof using HR R_ops R_event R_assign.
  induction fks as [|fk fks IH]; intros wl; [apply fr_ret|]. cbn [apply_ref_actions]. destruct (primary_key _) as [|o [|]]; try apply IH.
  apply fr_bind; [apply fr_lift|]. intros pv. apply fr_bind; [|intros; apply IH]. apply fr_bind; [apply fr_scan_all|]. intros. apply fr_act.
Qed.

Lemma fr_delete_row fuel id pk_values : framed (delete_row env blobs w fuel id pk_values).
Proof using HR R_ops R_event R_assign.
  unfold delete_row. apply fr_bind; [apply fr_delete_one|]. intros [old|]; [|apply fr_ret]. apply fr_bind; [|intros; apply fr_ret].
  generalize [(id, old)] as wl. induction fuel as [|fuel IH]; intros [|[p o] wl]; cbn [delete_loop]; try apply fr_ret; [apply fr_fail|].
  destruct (fks_in env !! p); [|apply IH]. apply fr_bind; [apply fr_actions|intros; apply IH].
Qed.
End frame.

Section counters.
Context {W T X B : Type} {KT : KvTree W T} {RC : RowCodec} {SI : SideIndex W X} {BS : BlobStore B}.
Context (env : StoreEnv).

(** Counters that advanced belong to tables of the base state. *)
Definition dirty_ok (tx : Tx T X) : Prop := forall id, id ∈ high_water_dirty (tx_writer tx) -> is_Some (cs_tables (tx_base tx) !! id).

Definition frames (tx tx' : Tx T X) : Prop := tx_base tx' = tx_base tx /\ tx_id (tx_state tx') = tx_id (tx_state tx) /\
  next_version (tx_writer tx') = next_version (tx_writer tx) /\ next_tx_id (tx_writer tx') = next_tx_id (tx_writer tx) /\ (dirty_ok tx -> dirty_ok tx').

#[global] Instance frames_preorder : PreOrder frames.
Proof using Type.
  split; [done|]. intros a b c (A1 & A2 & A3 & A4 & A5) (B1 & B2 & B3 & B4 & B5). split_and!; [by etrans..|]. auto.
Qed.

(** An auto-increment step leaves the transaction alone or sets the counter of
    its table to an allocation or an observation. *)
Lemma assign_cases (P : Tx T X -> Prop) id info values (tx : Tx T X) : P tx ->
  (forall c adv, let c0 := default counter_new (counters (tx_writer tx) !! id) in
     (exists a, allocate (auto_inc_allocation_step (options env)) c0 = ((a, adv), c)) \/ (exists v, observe_explicit v c0 = (adv, c)) -> P (set_counter id c adv tx).2) ->
  P (assign_auto_inc env id info values tx).2.
Proof using Type.
  intros H0 Hset. unfold assign_auto_inc. destruct (ti_auto_inc info) as [i|]; [|done]. destruct (values !! i) as [[]|]; try done.
  destruct (_ =? 0); [destruct (allocate _ _) as [[a adv] c] eqn:E|destruct (observe_explicit _ _) as [adv c] eqn:E]; apply (Hset c adv); [left|right]; by eexists.
Qed.

Lemma frames_assign id info values (tx : Tx T X) : is_Some (cs_tables (tx_base tx) !! id) -> frames tx (assign_auto_inc env id info values tx).2.
Proof using Type.
  intros Hid. apply (assign_cases (frames tx)); [done|]. intros c adv c0 _. split_and!; try done. intros Hd id'. simpl. destruct adv; [|apply Hd]. rewrite elem_of_union, elem_of_singleton. intros [->|?]; auto.
Qed.

(** Counters stay in range, and then the marks only grow. *)
Definition counters_ok (cs : gmap TableId AutoIncCounter) : Prop := map_Forall (fun _ c => next c <= u_max 64) cs.

Definition marks_grow (tx tx' : Tx T X) : Prop := counters_ok (counters (tx_writer tx)) -> counters_ok (counters (tx_writer tx')) /\
  forall id, table_mark (counters (tx_writer tx)) id <= table_mark (counters (tx_writer tx')) id.

#[global] Instance marks_grow_preorder : PreOrder marks_grow.
Proof using Type.
  split; [intros a Ha; by split|]. intros a b c Hab Hbc Ha. destruct (Hab Ha) as [Hb Hm]. destruct (Hbc Hb) as [Hc Hm']. split; [done|]. intros id. specialize (Hm id); specialize (Hm' id); lia.
Qed.

Lemma marks_grow_assign id info values (tx : Tx T X) : 1 <= auto_inc_allocation_step (options env) -> marks_grow tx (assign_auto_inc env id info values tx).2.
Proof using Type.
  intros Hs. apply (assign_cases (marks_grow tx)); [done|]. intros c adv c0 Hc Hok. assert (next c0 <= u_max 64) as H0.
  { unfold c0. destruct (counters (tx_writer tx) !! id) as [c'|] eqn:E; [by apply (Hok id c')|vm_compute; discriminate]. }
  assert (table_mark (counters (tx_writer tx)) id = high_water c0) as Em by (unfold table_mark, c0; by destruct (counters (tx_writer tx) !! id)).
  assert (next c <= u_max 64 /\ high_water c0 <= high_water c) as [Hn Hm].
  { destruct Hc as [[a E]|[v E]]; unfold allocate, observe_explicit in E.
    - injection E as _ _ <-. simpl. unfold sat_add in *. destruct (Z.ltb_spec (high_water c0) (next c0)); lia.
    - destruct (Z.ltb_spec (high_water c0) v); injection E as _ <-; simpl; unfold sat_add; destruct (_ <=? _); lia. }
  simpl. split; [intros k ck; destruct (decide (k = id)) as [->|]; [rewrite lookup_insert_eq; by intros [= <-]|rewrite lookup_insert_ne by done; apply Hok]|].
  intros k. destruct (decide (k = id)) as [->|]; [rewrite Em; unfold table_mark; by rewrite lookup_insert_eq|unfold table_mark; by rewrite lookup_insert_ne].
Qed.
End counters.

(** * Reachable transactions *)

Section session.
Context {W T X B : Type} {KT : KvTree W T} {KL : KvTreeLaws W T} {RC : RowCodec} {RL : RowCodecLaws}.
Context {SI : SideIndex W X} {SL : SideIndexLaws W T X} {BS : BlobStore B}.
Notation Store := (MemStore W T X B).
Notation versions := (gmap Z (VersionState T X)).

(** One call on a transaction, whatever it returns. [Good] rows are those the
    trees can hold; a delete gets one round per visible row. *)
Inductive tx_step (env : StoreEnv) (blobs : option B) (w : W) (C : contents) (Good : TableId -> list Z -> row -> Prop) (tx : Tx T X) : Tx T X -> Prop :=
  | StepWrite id values replace : (forall p tx1, prepare env blobs w id values tx = (Ok p, tx1) -> Good id p.1 p.2) ->
      tx_step env blobs w C Good tx (write env blobs w id values replace tx).2
  | StepDelete fuel id pk_values : (total (seen C tx) <= fuel)%nat ->
      tx_step env blobs w C Good tx (delete_row env blobs w fuel id pk_values tx).2.

Section steps.
Context (env : StoreEnv) (blobs : option B) (w : W) (C : contents) (fs : gmap TableId (list Page)) (base : CommittedState T X).
Context (Good : TableId -> list Z -> row -> Prop) (GE : good_env env blobs w C base Good).

Lemma step_good tx tx' : tx_good w C fs base Good tx -> tx_step env blobs w C Good tx tx' -> tx_good w C fs base Good tx' /\ frames tx tx'.
Proof using GE RL.
  intros G [id values replace Hp|fuel id pk_values Hf]; (split; [|first [apply fr_write|apply fr_delete_row]; first [apply frames_preorder|apply frames_assign|done]]).
  - destruct (write_good env blobs w C fs base Good GE tx id values replace G Hp) as (pk & Hw & _).
    destruct (write env blobs w id values replace tx) as [[r|e] tx1]; apply Hw.
  - pose proof (delete_row_good env blobs w C fs base Good GE False fuel tx id pk_values G ltac:(done) Hf) as Hd.
    destruct (delete_row env blobs w fuel id pk_values tx) as [[r|e] tx1]; apply Hd.
Qed.

Lemma steps_good tx tx' : rtc (tx_step env blobs w C Good) tx tx' -> tx_good w C fs base Good tx ->
  tx_good w C fs base Good tx' /\ frames tx tx'.
Proof using GE RL.
  induction 1 as [tx|tx tx1 tx2 H1 _ IH]; intros G; [done|]. destruct (step_good tx tx1 G H1) as [G1 F1].
  destruct (IH G1) as [G2 F2]. split; [done|]. by etrans.
Qed.
End steps.

Lemma steps_grow env blobs w C Good (tx tx' : Tx T X) : 1 <= auto_inc_allocation_step (options env) -> rtc (tx_step env blobs w C Good) tx tx' -> marks_grow tx tx'.
Proof using Type.
  intros Hs. induction 1 as [tx|tx tx1 tx2 H1 _ IH]; [done|]. etrans; [|exact IH].
  destruct H1; first [apply fr_write|apply fr_delete_row]; try done; try apply marks_grow_preorder; intros; by apply marks_grow_assign.
Qed.

(** A transaction that has just begun sees the committed contents. *)
Lemma begin_spec (ms : Store) rd (S : versions) C fs : store_inv ms rd S ->
  S !! cs_version (ms_committed ms) = Some (Build_VersionState (cs_tables (ms_committed ms)) C fs) ->
  let tx := (begin ms).1 in let ms0 := (begin ms).2 in
  store_inv ms0 (add_rd (cs_version (ms_committed ms)) 1 rd) S /\ tx_inv (ms_world ms) tx C fs /\ seen C tx = C /\
  tx_base tx = ms_committed ms /\ ms_committed ms0 = ms_committed ms /\ tx_writer tx = ms_writer ms /\
  ms_writer ms0 = ms_writer ms /\ ms_world ms0 = ms_world ms.
Proof using Type.
  intros I HS. simpl. split; [by apply arc_clone_inv; [|eexists]|]. split.
  - split; [apply I|apply (si_states _ _ _ I _ _ HS)|]. intros id ops. simpl. by rewrite lookup_empty.
  - split_and!; try done. unfold seen. simpl. apply map_eq. intros id. rewrite views_lookup, lookup_empty. simpl.
    destruct (C !! id); simpl; [by rewrite view_empty|done].
Qed.

(** Dirty counters of the store belong to its tables. *)
Definition marks_ok (ms : Store) : Prop := forall id, id ∈ high_water_dirty (ms_writer ms) -> is_Some (cs_tables (ms_committed ms) !! id).

(** From begin to commit: any calls, failed or not, leave a transaction whose
    commit succeeds and publishes what it saw. *)
Lemma transaction_spec (ms : Store) rd (S : versions) C fs Good tx now : store_inv ms rd S -> marks_ok ms ->
  S !! cs_version (ms_committed ms) = Some (Build_VersionState (cs_tables (ms_committed ms)) C fs) ->
  good_env (ms_env ms) (ms_blobs ms) (ms_world ms) C (ms_committed ms) Good ->
  rtc (tx_step (ms_env ms) (ms_blobs ms) (ms_world ms) C Good) (begin ms).1 tx ->
  next_version (ms_writer ms) < u_max 64 -> kt_room (merge_run tx (begin ms).2).2.1 ->
  exists tabs fs' ms' S', commit tx now (begin ms).2 = (Ok {|
      diff_tx_id := next_tx_id (ms_writer ms); diff_tables := diffs_of C (btree_entries (tables (tx_state tx)));
      diff_auto_inc := map (fun id => (id, table_mark (counters (tx_writer tx)) id))
        (merge_sort Z.le (elements (high_water_dirty (tx_writer tx)))) |}, ms') /\
    store_inv ms' rd S' /\ marks_ok ms' /\ ms_committed ms' = Build_CommittedState tabs (next_version (ms_writer ms)) /\
    S' !! next_version (ms_writer ms) = Some (Build_VersionState tabs (seen C tx) fs') /\
    S' ⊆ <[next_version (ms_writer ms) := Build_VersionState tabs (seen C tx) fs']> S /\
    next_tx_id (ms_writer ms') = sat_add 64 (next_tx_id (ms_writer ms)) 1 /\ ms_env ms' = ms_env ms /\
    retained (ms_env ms) (ms_history ms) (next_tx_id (ms_writer ms)) now (Build_CommittedState tabs (next_version (ms_writer ms))) (ms_history ms') /\
    next_version (ms_writer ms') = next_version (ms_writer ms) + 1 /\
    counters (ms_writer ms') = counters (tx_writer tx) /\ marked (counters (tx_writer tx)) (fun id => id ∈ high_water_dirty (tx_writer tx)) (cs_tables (ms_committed ms)) tabs.
Proof using RL SL.
  intros I Hmk HS GE Hsteps Hnv Hroom. destruct (begin_spec ms rd S C fs I HS) as (I0 & Htx & Hseen & Eb & Ec & Ew & Ew0 & Ewd).
  assert (tx_good (ms_world ms) C fs (ms_committed ms) Good (begin ms).1) as G0.
  { split; [done|done|]. rewrite Hseen. by eapply (ge_base _ _ _ _ _ _ GE). }
  destruct (steps_good _ _ _ _ _ _ _ GE _ _ Hsteps G0) as [G (F1 & F2 & F3 & _ & F4)].
  assert (next_version (tx_writer tx) = next_version (ms_writer ms)) as Env by (by rewrite F3, Ew).
  assert (tx_ok (begin ms).2 (add_rd (cs_version (ms_committed ms)) 1 rd) S tx C fs) as Hok.
  { split.
    - by rewrite (tg_base _ _ _ _ _ _ G).
    - rewrite (tg_base _ _ _ _ _ _ G). unfold add_rd. rewrite decide_True by done. pose proof (si_readers _ _ _ I (cs_version (ms_committed ms))). lia.
    - by rewrite (tg_base _ _ _ _ _ _ G).
    - by rewrite Env, Ew0.
    - apply (ti_pending _ _ _ _ (tg_inv _ _ _ _ _ _ G)).
    - apply F4. intros id. rewrite Ew, Eb. apply Hmk. }
  rewrite <- Env in Hnv. destruct (commit_spec _ _ _ _ _ _ now I0 Hok Hnv Hroom) as (tabs & fs' & ms' & S' & E & I' & Ec' & Hcur & Hsub & _ & Ewr & Een & Hret & Hpub).
  rewrite E, F2. exists tabs, fs', ms', S'. rewrite Env in *. split; [done|]. split.
  { eapply store_inv_ext; [|exact I']. intros v. unfold add_rd. rewrite (tg_base _ _ _ _ _ _ G). destruct (decide _); lia. }
  split; [intros id; rewrite Ewr; simpl; set_solver|]. split; [done|]. split; [done|]. split; [done|]. split; [by rewrite Ewr, F2|]. split; [done|].
  rewrite F2 in Hret. split; [exact Hret|]. split; [by rewrite Ewr|]. split; [by rewrite Ewr|]. by rewrite (tg_base _ _ _ _ _ _ G) in Hpub.
Qed.
End session.
