(* ===== verification/Sample.v ===== *)
(** A concrete store for the witnesses: two tables over paged trees, users with
    a unique badge and posts that reference them.

    Rows of the sample hold unsigned integers, optional ones and floats;
    [sample_codec] writes each value in nine bytes. *)

From stdpp Require Import base list gmap sorting relations.
From Stdlib Require Import ZArith Lia.
From S2P Require Import Prelude FluxBin Row IndexKey TxState LogRecord PageFormat PagedTree PagedTreeNode PagedTreeRep PagedTreeWrite PagedTreeSpec KvTree TableState TableSpec Reclaim MemStore MergeSpec StoreSpec CommitSpec StoreBuild TxSpec RefSpec Transaction.

(** * A codec of rows *)

Definition value_bytes (v : LogValue.t) : option (list Z) :=
  match v with
  | LogValue.U64 z => if decide (u_ok 64 z) then Some (2 :: le_bytes 8 z) else None
  | LogValue.F64 z => if decide (u_ok 64 z) then Some (3 :: le_bytes 8 z) else None
  | LogValue.Opt None => Some (0 :: le_bytes 8 0)
  | LogValue.Opt (Some (LogValue.U64 z)) => if decide (u_ok 64 z) then Some (1 :: le_bytes 8 z) else None
  | _ => None
  end.

Definition value_of (bs : list Z) : option LogValue.t :=
  match bs with
  | 0 :: _ => Some (LogValue.Opt None)
  | 1 :: b => Some (LogValue.Opt (Some (LogValue.U64 (le_val b))))
  | 2 :: b => Some (LogValue.U64 (le_val b))
  | 3 :: b => Some (LogValue.F64 (le_val b))
  | _ => None
  end.

Fixpoint row_bytes_of (l : list LogValue.t) : option (list Z) :=
  match l with
  | [] => Some []
  | v :: l => b ← value_bytes v; bs ← row_bytes_of l; Some (b ++ bs)
  end.

Fixpoint row_of_bytes (fuel : nat) (bs : list Z) : option (list LogValue.t) :=
  match bs, fuel with
  | [], _ => Some []
  | _, O => None
  | _, S fuel => v ← value_of (firstn 9 bs); l ← row_of_bytes fuel (skipn 9 bs); Some (v :: l)
  end.

#[export] Instance sample_codec : RowCodec := {|
  rmp_to_vec := row_bytes_of;
  rmp_from_slice bs := row_of_bytes (length bs) bs |}.

Lemma value_of_bytes v b : value_bytes v = Some b -> length b = 9%nat /\ value_of b = Some v.
Proof.
  destruct v as [| | | | | | | | | | | | | | | | | | |[[]|]| | |]; cbn [value_bytes]; try done.
  - destruct (decide _) as [Hu|]; [|done]. intros E. assert (b = 2 :: le_bytes 8 v) as -> by congruence.
    split; [done|]. unfold value_of. by rewrite (le_val_unsigned 8 v Hu).
  - destruct (decide _) as [Hu|]; [|done]. intros E. assert (b = 3 :: le_bytes 8 bits) as -> by congruence.
    split; [done|]. unfold value_of. by rewrite (le_val_unsigned 8 bits Hu).
  - destruct (decide _) as [Hu|]; [|done]. intros E. assert (b = 1 :: le_bytes 8 v) as -> by congruence.
    split; [done|]. unfold value_of. by rewrite (le_val_unsigned 8 v Hu).
  - by intros [= <-].
Qed.

Lemma row_of_row_bytes l : forall bs fuel, row_bytes_of l = Some bs -> (length bs <= fuel)%nat -> row_of_bytes fuel bs = Some l.
Proof.
  induction l as [|v l IH]; intros bs fuel; simpl; [intros [= <-]; by destruct fuel|].
  destruct (value_bytes v) as [b|] eqn:Eb; simpl; [|done]. destruct (row_bytes_of l) as [bs'|]; simpl; [|done]. intros [= <-] Hf.
  destruct (value_of_bytes v b Eb) as [Hl Hv]. rewrite length_app in Hf. destruct fuel as [|fuel]; [lia|].
  destruct b as [|x b]; [done|]. simpl app. cbn [row_of_bytes]. change (x :: b ++ bs') with ((x :: b) ++ bs'). rewrite <- Hl.
  rewrite take_app_length, drop_app_length, Hv. simpl. rewrite (IH bs' fuel eq_refl); [done|]. lia.
Qed.

#[export] Instance sample_codec_laws : RowCodecLaws.
Proof. split. intros l bs E. by apply row_of_row_bytes. Qed.

(** * Interfaces without spatial, full-text and blob data *)

#[export] Instance no_side : SideIndex PagedWorld Empty_set := {|
  si_check x := Empty_set_rect (fun _ => _) x;
  si_insert x := Empty_set_rect (fun _ => _) x;
  si_remove x := Empty_set_rect (fun _ => _) x |}.

#[export] Instance no_side_laws : SideIndexLaws PagedWorld PagedTree Empty_set.
Proof. split; by intros []. Qed.

#[export] Instance no_side_build : SideBuild PagedWorld Empty_set := {|
  new_spatial _ _ _ := sm_fail SpatialDeclaredTwice;
  new_fulltext _ _ _ _ _ := sm_fail SpatialDeclaredTwice |}.

#[export] Instance no_blobs : BlobStore unit := {|
  blob_contains _ _ := false;
  blob_incref b _ := b;
  blob_unref b _ := b |}.

(** * Pagers *)

Definition sample_world : PagedWorld := {| pw_page_size := 4096; pw_tables := ∅ |}.

Lemma sample_world_ok : kt_ok (T := PagedTree) sample_world.
Proof.
  split; [split; vm_compute; discriminate|]. intros tid. unfold table_io, sample_world. simpl. rewrite lookup_empty. simpl.
  split; [split; vm_compute; discriminate|]. split; [simpl; lia|]. intros id. simpl. rewrite lookup_empty. by intros [].
Qed.

(** Room in every pager, by inspection of the open ones. *)
Definition room_b (w : PagedWorld) : bool := map_fold (fun _ pg b => b && (next_page_id pg <=? 2 ^ 64)) true (pw_tables w).

Lemma room_b_ok w : room_b w = true -> kt_room (T := PagedTree) w.
Proof.
  intros Hb tid. unfold table_io. destruct (pw_tables w !! tid) as [pg|] eqn:E; simpl; [|lia]. unfold room_b in Hb.
  rewrite <- (insert_delete_id _ _ _ E) in Hb.
  rewrite map_fold_insert_L in Hb; [|intros; by rewrite <- !andb_assoc, (andb_comm (_ <=? _))|apply lookup_delete_eq].
  apply andb_true_iff in Hb as [_ Hb]. by apply Z.leb_le.
Qed.

(** * Declarations *)

(** Names are one byte; the ids are computed from them. *)
Definition sample_table_id (name : list Z) : TableId := match name with [b] => b | _ => 0 end.
Definition sample_index_id (_ : list Z) (cols : list (list Z)) : IndexId := Z.of_nat (length (concat cols)).

(** [users (id, badge)], the badge unique. *)
Definition users_decl : TableDecl := {|
  decl_name := [1];
  decl_info := {| ti_schema := {| columns := [FluxType.U64; FluxType.U64]; primary_key := [0%nat] |}; ti_auto_inc := None; ti_access := Public |};
  decl_columns := [[105]; [98]];
  decl_unique := [[1%nat]];
  decl_indexes := [] |}.

(** [posts (id, author)], an index on the author and a reference to users. *)
Definition posts_decl : TableDecl := {|
  decl_name := [2];
  decl_info := {| ti_schema := {| columns := [FluxType.U64; FluxType.Option FluxType.U64]; primary_key := [0%nat] |}; ti_auto_inc := Some 0%nat; ti_access := Public |};
  decl_columns := [[105]; [97]];
  decl_unique := [];
  decl_indexes := [BTree [1%nat]] |}.

Definition sample_registry (action : RefAction) : Registry := {|
  registered_computed := [];
  registered_checks := [];
  registered_not_nulls := [];
  registered_foreign_keys := [{| fd_table := [2]; fd_ordinal := 1; fd_parent_table := [1]; fd_parent_column := [105]; fd_on_delete := action |}] |}.

Definition sample_options : StoreOptions := {|
  auto_inc_allocation_step := 4; temporal_window := 2; temporal_window_max_bytes := 2 ^ 30; pool_page_size := 4096 |}.

Notation SampleStore := (MemStore PagedWorld PagedTree Empty_set unit).
Notation SampleTx := (Tx PagedTree Empty_set).

Definition sample_build (action : RefAction) : result StoreError SampleStore * PagedWorld :=
  build sample_table_id sample_index_id true (sample_registry action) (fun _ => false) sample_options [users_decl; posts_decl] sample_world.

Definition dummy_env : StoreEnv := {|
  catalog := ∅; options := sample_options; transforms := None; computed := ∅; checks := ∅; not_null := ∅;
  fks_out := ∅; fks_in := ∅; has_triggers := fun _ => false; global_writes_allowed := true |}.

Definition sample_store (action : RefAction) : SampleStore :=
  match (sample_build action).1 with Ok ms => ms | Err _ => new_store dummy_env ∅ ∅ sample_world end.

Lemma sample_built action : sample_build action = (Ok (sample_store action), (sample_build action).2).
Proof. unfold sample_store. destruct action; vm_compute; reflexivity. Qed.

Notation sample_content action := (empties (cs_tables (ms_committed (sample_store action)))).

(** The sample store starts in the invariant, with empty tables. *)
Lemma sample_inv action : exists fs, store_inv (sample_store action) (fun _ => 0)
  {[0 := Build_VersionState (cs_tables (ms_committed (sample_store action))) (sample_content action) fs]}.
Proof.
  apply (build_inv sample_table_id sample_index_id true (sample_registry action) (fun _ => false) sample_options [users_decl; posts_decl]
    sample_world (sample_build action).2 (sample_store action)).
  - exact sample_world_ok.
  - apply room_b_ok. destruct action; vm_compute; reflexivity.
  - reflexivity.
  - exact (sample_built action).
Qed.

(** * Rows that fit, by computation *)

Definition key_fits_b (k : list Z) : bool := negb (bool_decide (k = [])) && (blen k <? 2 ^ 32).

Lemma key_fits_b_ok k : key_fits_b k = true -> key_fits k.
Proof. intros [H1%negb_true_iff%bool_decide_eq_false_1 H2%Z.ltb_lt]%andb_true_iff. by split. Qed.

Definition index_fits_b (sch : list FluxType.t) (pk : list Z) (r : row) (cols : list nat) : bool :=
  match mapM (fun o => sch !! o) cols, mapM (fun o => r !! o) cols with
  | Some tys, Some vs => forallb ordered_type tys && forallb2 (fun v ty => matches_type v ty && value_ok v) vs tys &&
                         key_fits_b (encode_values vs ++ pk)
  | _, _ => false
  end.

Lemma index_fits_b_ok sch pk r cols : index_fits_b sch pk r cols = true -> idx_fits sch cols pk r.
Proof.
  unfold index_fits_b. destruct (mapM (fun o => sch !! o) cols) as [tys|] eqn:Et; [|done].
  destruct (mapM (fun o => r !! o) cols) as [vs|] eqn:Ev; [|done].
  intros [[H1 H2%forallb2_Forall2]%andb_true_iff H3%key_fits_b_ok]%andb_true_iff. exists tys, vs. split_and!; try done.
  - by apply mapM_Some in Et.
  - by apply mapM_Some in Ev.
  - eapply Forall2_impl; [exact H2|]. simpl. by intros v ty [??]%andb_true_iff.
Qed.

Definition unique_fits_b (r : row) (cols : list nat) : bool :=
  match key_of cols r with Ok k => key_fits_b k | Err _ => false end &&
  forallb (fun o => match r !! o with Some v => no_float v | None => true end) cols.

Definition row_fit_b {RC : RowCodec} (sh : Shape) (pk : list Z) (r : row) : bool :=
  key_fits_b pk && forallb value_ok r &&
  match rmp_to_vec (row_to_log r) with Some bs => blen bs <? 2 ^ 64 | None => false end &&
  forallb (index_fits_b (sh_cols sh) pk r) (sh_idx sh) && forallb (unique_fits_b r) (sh_uniq sh).

Lemma row_fit_b_ok {RC : RowCodec} sh pk r : row_fit_b sh pk r = true -> row_ok sh pk r /\ plain_unique sh r.
Proof.
  unfold row_fit_b. intros [[[[H1%key_fits_b_ok H2]%andb_true_iff H3]%andb_true_iff H4]%andb_true_iff H5]%andb_true_iff.
  rewrite forallb_forall in H4, H5. split.
  - split; [done|]. split; [split; [done|]|].
    { destruct (rmp_to_vec (row_to_log r)) as [bs|]; [|done]. exists bs. split; [done|]. by apply Z.ltb_lt. }
    split; apply Forall_forall; intros cols Hc%list_elem_of_In.
    + by apply index_fits_b_ok, H4.
    + specialize (H5 _ Hc). unfold unique_fits_b in H5. apply andb_true_iff in H5 as [H5 _].
      destruct (key_of cols r) as [k|] eqn:E; [|done]. exists k. split; [done|]. by apply key_fits_b_ok.
  - apply Forall_forall. intros cols Hc%list_elem_of_In. specialize (H5 _ Hc). unfold unique_fits_b in H5. apply andb_true_iff in H5 as [_ H5].
    rewrite forallb_forall in H5. apply Forall_forall. intros o Ho%list_elem_of_In v Hv. specialize (H5 _ Ho). by rewrite Hv in H5.
Qed.

(** * The rows of the sample *)

Definition user (id badge : Z) : row := [RowValue.U64 id; RowValue.U64 badge].
Definition post (id : Z) (author : option Z) : row := [RowValue.U64 id; RowValue.Optional (RowValue.U64 <$> author)].

Definition sample_rows : list (TableId * list Z * row) :=
  [(1, le_bytes 8 1, user 1 10); (1, le_bytes 8 2, user 2 20); (1, le_bytes 8 3, user 3 10);
   (2, le_bytes 8 1, post 1 (Some 1)); (2, le_bytes 8 2, post 2 (Some 2)); (2, le_bytes 8 1, post 1 None)].

Definition sample_good (id : TableId) (pk : list Z) (r : row) : Prop := In (id, pk, r) sample_rows.

(** Split a hypothesis over the sample rows. *)
Ltac each_row H := unfold sample_good in H; simpl In in H; repeat (destruct H as [H|H]; [first [discriminate H|injection H; clear H; intros; subst]|]); [..|destruct H].

Lemma sample_fits action id pk r ts : sample_good id pk r -> cs_tables (ms_committed (sample_store action)) !! id = Some ts ->
  row_fit_b (shape ts) pk r = true.
Proof.
  intros H E. assert (match cs_tables (ms_committed (sample_store action)) !! id with Some ts => row_fit_b (shape ts) pk r | None => true end = true) as Hb;
    [|by rewrite E in Hb].
  clear E. each_row H; destruct action; vm_compute; reflexivity.
Qed.

(** * Floats

    Why the theorems on transactions leave out floats in unique and reference
    columns ([good_env] of RefSpec). Keys compare floats by their bits and rows
    compare them as numbers, so a zero and a negative zero are two keys of one
    value, and a NaN equals nothing. Both examples run on stores that assembly
    accepts. *)

Module Floats.
Definition zero : RowValue.t := RowValue.F64 0.
Definition negative_zero : RowValue.t := RowValue.F64 (2 ^ 63).
Definition nan : RowValue.t := RowValue.F64 (2047 * 2 ^ 52 + 1).

(** [marks (id, weight)], the weight a unique float. *)
Definition marks_decl : TableDecl := {|
  decl_name := [1];
  decl_info := {| ti_schema := {| columns := [FluxType.U64; FluxType.F64]; primary_key := [0%nat] |}; ti_auto_inc := None; ti_access := Public |};
  decl_columns := [[105]; [119]];
  decl_unique := [[1%nat]];
  decl_indexes := [] |}.

(** [levels (height)], keyed by a float, and [steps (id, level)] that refer to
    them and go with them. *)
Definition levels_decl : TableDecl := {|
  decl_name := [1];
  decl_info := {| ti_schema := {| columns := [FluxType.F64]; primary_key := [0%nat] |}; ti_auto_inc := None; ti_access := Public |};
  decl_columns := [[104]];
  decl_unique := [];
  decl_indexes := [] |}.

Definition steps_decl : TableDecl := {|
  decl_name := [2];
  decl_info := {| ti_schema := {| columns := [FluxType.U64; FluxType.F64]; primary_key := [0%nat] |}; ti_auto_inc := None; ti_access := Public |};
  decl_columns := [[105]; [108]];
  decl_unique := [];
  decl_indexes := [] |}.

Definition float_store (decls : list TableDecl) (fks : list ForeignKeyDef) : SampleStore :=
  let reg := {| registered_computed := []; registered_checks := []; registered_not_nulls := []; registered_foreign_keys := fks |} in
  match (build sample_table_id sample_index_id true reg (fun _ => false) sample_options decls sample_world).1 with
  | Ok ms => ms
  | Err _ => new_store dummy_env ∅ ∅ sample_world
  end.

Definition put (ms : SampleStore) (id : TableId) (r : row) (tx : SampleTx) : result StoreError row * SampleTx :=
  write (ms_env ms) (ms_blobs ms) (ms_world ms) id r false tx.

Definition remove (ms : SampleStore) (id : TableId) (key : row) (tx : SampleTx) : result StoreError bool * SampleTx :=
  delete_row (ms_env ms) (ms_blobs ms) (ms_world ms) 10 id key tx.

(** A store with the mark [(1, 0.0)]. *)
Definition marked_store : SampleStore :=
  let ms := float_store [marks_decl] [] in (commit (put ms 1 [RowValue.U64 1; zero] (begin ms).1).2 7 (begin ms).2).2.

(** A transaction deletes mark 1, inserts mark 2 with its weight and then mark 1
    with a negative zero. Every call succeeds: the new row equals the deleted one
    as a number, so the delete is taken back and the old weight stays, and mark 2 has the
    same key. The commit fails. *)
Lemma float_unique_commit_fails : let ms := marked_store in
  let d := remove ms 1 [RowValue.U64 1] (begin ms).1 in
  let p2 := put ms 1 [RowValue.U64 2; zero] d.2 in
  let p1 := put ms 1 [RowValue.U64 1; negative_zero] p2.2 in
  is_ok d.1 = true /\ is_ok p2.1 = true /\ is_ok p1.1 = true /\ is_ok (commit p1.2 8 (begin ms).2).1 = false.
Proof. vm_compute. split_and!; reflexivity. Qed.

(** A store with the level NaN and a step on it. *)
Definition level_store : SampleStore := float_store [levels_decl; steps_decl]
  [{| fd_table := [2]; fd_ordinal := 1; fd_parent_table := [1]; fd_parent_column := [104]; fd_on_delete := Cascade |}].

(** The deletion of a level does not find the steps on it when its key is a NaN:
    the delete succeeds, the commit succeeds, and the step is left without its
    level. *)
Lemma float_reference_dangles : let ms := level_store in
  let p := put ms 1 [nan] (begin ms).1 in
  let c := put ms 2 [RowValue.U64 1; nan] p.2 in
  let d := remove ms 1 [nan] c.2 in
  let ms' := (commit d.2 7 (begin ms).2).2 in
  is_ok p.1 = true /\ is_ok c.1 = true /\ is_ok d.1 = true /\ is_ok (commit d.2 7 (begin ms).2).1 = true /\
  match cs_tables (ms_committed ms') !! 1, cs_tables (ms_committed ms') !! 2 with
  | Some levels, Some steps => all_rows (ms_world ms') levels = Ok [] /\ all_rows (ms_world ms') steps = Ok [[RowValue.U64 1; nan]]
  | _, _ => False
  end.
Proof. vm_compute. split_and!; reflexivity. Qed.
End Floats.
