(* ===== verification/StoreProps.v ===== *)
(** Properties of the transactional store, with a concrete store as witness. *)

From stdpp Require Import base list gmap sorting relations.
From Stdlib Require Import ZArith Lia.
From S2P Require Import Prelude FluxBin Row IndexKey TxState LogRecord PageFormat PagedTree PagedTreeNode PagedTreeRep PagedTreeWrite PagedTreeSpec KvTree TableState TableSpec Reclaim MemStore MergeSpec IndexSpec StoreSpec CommitSpec Replica StoreBuild TxSpec RefSpec WriteSpec Transaction Sample.

(** * Foreign keys of an assembled store *)

Lemma build_env_fks table_id_of reg triggers opts cat env : build_env table_id_of reg triggers opts cat = Ok env -> fks_wf env.
Proof.
  unfold build_env. simpl. destruct (build_foreign_keys _ _ _ _ _) as [[f_out f_in]|] eqn:E; [|done]. intros [= <-].
  destruct (build_fks_maps table_id_of cat _ _ _ _ _ (fk_maps_empty cat) E) as [H1 H2].
  assert (forall fk fks, f_out !! fk_child fk = Some fks -> fk ∈ fks -> fk_typed cat fk) as Ht by (intros fk fks E1 E2; by apply (H1 _ _ _ E1 E2)).
  split; simpl.
  - intros id fks fk E1 E2. by apply (H1 _ _ _ E1 E2).
  - intros id fks fk E1 E2. destruct (H2 _ _ _ E1 E2) as (? & fks' & ?). split; [done|]. by exists fks'.
  - intros fk (fks & E1 & E2). by apply (H1 _ _ _ E1 E2).
  - intros fk (fks & E1 & E2). destruct (Ht _ _ E1 E2) as (child & parent & o & ty & cty & Ec & Ei & _). rewrite lookup_fmap, Ec. simpl. by rewrite Ei.
  - intros fk (fks & E1 & E2). destruct (Ht _ _ E1 E2) as (child & parent & o & ty & cty & _ & _ & Ec & Ei & _). rewrite lookup_fmap, Ec. simpl. by rewrite Ei.
  - intros fk (fks & E1 & E2). destruct (Ht _ _ E1 E2) as (child & parent & o & ty & cty & _ & _ & _ & _ & Eo & _). by exists o.
Qed.

(** C30: store assembly resolves exactly the references that are declared, and
    accepts only sound ones. When [build_foreign_keys] succeeds, every declaration
    of an assembled table is resolved, in order: its parent is an assembled table
    with a single primary-key column, the declared column is that one, the
    referencing column has its type, directly or as an option, and [set_null]
    appears only on optional columns; the map by child and the map by parent list
    these keys and no others. When it fails, one of the declarations of assembled
    tables has no such resolution. *)
Theorem foreign_keys_typed table_id_of (cat : gmap TableId TableDecl) defs :
  match build_foreign_keys table_id_of cat defs ∅ ∅ with
  | Ok (f_out, f_in) => exists fks, Forall2 (fk_for table_id_of cat) (filter (declared table_id_of cat) defs) fks /\ forall id,
      default [] (f_out !! id) = filter (fun fk => fk_child fk = id) fks /\
      default [] (f_in !! id) = filter (fun fk => fk_parent fk = id) fks
  | Err _ => exists def, def ∈ defs /\ declared table_id_of cat def /\ forall fk, ~ fk_for table_id_of cat def fk
  end.
Proof.
  pose proof (build_fks_spec table_id_of cat defs ∅ ∅) as H. destruct (build_foreign_keys _ _ _ _ _) as [[f_out f_in]|e]; [|done].
  destruct H as (fks & HF & H). exists fks. split; [done|]. intros id. specialize (H id). by rewrite !lookup_empty in H.
Qed.

Definition sample_cat : gmap TableId TableDecl := {[1 := users_decl; 2 := posts_decl]}.

(** The reference of the sample is resolved on both sides. *)
Lemma sample_fks_resolved : match build_foreign_keys sample_table_id sample_cat (registered_foreign_keys (sample_registry SetNull)) ∅ ∅ with
  | Ok (f_out, f_in) => length (default [] (f_out !! 2)) = 1%nat /\ f_out !! 2 = f_in !! 1 | Err _ => False end.
Proof. vm_compute. by split. Qed.

(** * The sample store *)

Lemma sample_env_fks action : fks_wf (ms_env (sample_store action)).
Proof.
  apply (build_env_fks sample_table_id (sample_registry action) (fun _ => false) sample_options sample_cat). destruct action; vm_compute; reflexivity.
Qed.

Lemma sample_fk action fk : is_fk (ms_env (sample_store action)) fk ->
  fk_child fk = 2 /\ fk_child_ordinal fk = 1%nat /\ fk_on_delete fk = action.
Proof.
  intros (fks & E & Hin).
  assert (map_Forall (fun _ => Forall (fun fk => fk_child fk = 2 /\ fk_child_ordinal fk = 1%nat /\ fk_on_delete fk = action))
    (fks_out (ms_env (sample_store action)))) as Hall.
  { apply (bool_decide_eq_true_1 _). destruct action; vm_compute; reflexivity. }
  specialize (Hall _ _ E). simpl in Hall. rewrite Forall_forall in Hall. by apply Hall.
Qed.

Lemma sample_keys action id pk r info : sample_good id pk r -> catalog (ms_env (sample_store action)) !! id = Some info ->
  check_row (ti_schema info) r = Ok tt /\ encode_pk_of_row (ti_schema info) r = Ok pk /\ forallb value_ok r = true.
Proof.
  intros H E. assert (match catalog (ms_env (sample_store action)) !! id with
    | Some info => bool_decide (check_row (ti_schema info) r = Ok tt) && bool_decide (encode_pk_of_row (ti_schema info) r = Ok pk) && forallb value_ok r
    | None => true end = true) as Hb.
  { clear E. each_row H; destruct action; vm_compute; reflexivity. }
  rewrite E in Hb. apply andb_true_iff in Hb as [[H1%bool_decide_eq_true_1 H2%bool_decide_eq_true_1]%andb_true_iff H3]. done.
Qed.

(** The sample rows are good; a foreign key that clears references would add
    a condition on the cleared rows. *)
Lemma sample_good_env action : action <> SetNull -> good_env (ms_env (sample_store action)) (ms_blobs (sample_store action))
  (ms_world (sample_store action)) (sample_content action) (ms_committed (sample_store action)) sample_good.
Proof.
  intros Ha. split.
  - by destruct action.
  - apply sample_env_fks.
  - intros id ts pk r E H. apply row_fit_b_ok. by eapply sample_fits.
  - intros id info pk r E H. by eapply sample_keys.
  - intros fk pk r v Hfk H Hv. destruct (sample_fk _ _ Hfk) as (Ec & Eo & _). rewrite Eo in Hv. rewrite Ec in H. clear Ec Eo.
    each_row H; simpl in Hv; injection Hv as <-; done.
  - intros id R pk r E Hr. unfold empties in E. rewrite lookup_fmap in E. destruct (cs_tables _ !! id); [|done]. injection E as <-. by rewrite lookup_empty in Hr.
  - intros fk pk r tx p tx' Hfk Es. destruct (sample_fk _ _ Hfk) as (_ & _ & Ea). congruence.
Qed.

(** A transaction of the sample: two users, a post of each, a user whose badge
    is taken, and the deletion of the first user. *)
Definition sample_call (action : RefAction) (i : nat) (tx : SampleTx) : SampleTx :=
  let ms := sample_store action in
  let put id r := (write (ms_env ms) (ms_blobs ms) (ms_world ms) id r false tx).2 in
  match i with
  | 0%nat => put 1 (user 1 10)
  | 1%nat => put 1 (user 2 20)
  | 2%nat => put 2 (post 0 (Some 1))
  | 3%nat => put 2 (post 0 (Some 2))
  | 4%nat => put 1 (user 3 10)
  | _ => (delete_row (ms_env ms) (ms_blobs ms) (ms_world ms) 10 1 [RowValue.U64 1] tx).2
  end.

Definition sample_tx (action : RefAction) (n : nat) : SampleTx :=
  fold_left (fun tx i => sample_call action i tx) (seq 0 n) (begin (sample_store action)).1.

Lemma sample_tx_S action n : sample_tx action (S n) = sample_call action n (sample_tx action n).
Proof. unfold sample_tx. by rewrite seq_S, fold_left_app. Qed.

(** The row each call of the sample prepares. *)
Lemma sample_prepared id values (tx : SampleTx) env blobs w v : option_map fst (match prepare env blobs w id values tx with (Ok p, _) => Some (p, tt) | _ => None end) = v ->
  match v with Some p => In (id, p.1, p.2) sample_rows | None => True end ->
  forall p tx1, prepare env blobs w id values tx = (Ok p, tx1) -> sample_good id p.1 p.2.
Proof. intros <- Hv p tx1 E. rewrite E in Hv. exact Hv. Qed.

Lemma sample_step action n : (n < 6)%nat -> action <> SetNull ->
  let ms := sample_store action in
  tx_step (ms_env ms) (ms_blobs ms) (ms_world ms) (sample_content action) sample_good (sample_tx action n) (sample_tx action (S n)).
Proof.
  intros Hn Ha. cbv zeta. rewrite sample_tx_S. assert (n = 5 \/ n < 5)%nat as [->|Hlt] by lia.
  - apply StepDelete. destruct action; vm_compute; lia.
  - do 5 (destruct n as [|n]; [apply StepWrite; eapply sample_prepared; [destruct action; vm_compute; reflexivity|vm_compute; tauto]|]). lia.
Qed.

Lemma sample_steps action n : (n <= 6)%nat -> action <> SetNull ->
  let ms := sample_store action in
  rtc (tx_step (ms_env ms) (ms_blobs ms) (ms_world ms) (sample_content action) sample_good) (begin ms).1 (sample_tx action n).
Proof.
  intros Hn Ha. cbv zeta. induction n as [|n IH]; [apply rtc_refl|].
  eapply rtc_r; [apply IH; lia|]. by apply sample_step; [lia|].
Qed.

(** * Transactions *)

Section store_claims.
Context {W T X B : Type} {KT : KvTree W T} {KL : KvTreeLaws W T} {RC : RowCodec} {RL : RowCodecLaws}.
Context {SI : SideIndex W X} {SL : SideIndexLaws W T X} {BS : BlobStore B}.
Notation Store := (MemStore W T X B).
Notation versions := (gmap Z (VersionState T X)).

(** The store is consistent and its committed tables hold [C]; [rd] counts the
    outside holders of each version, [S] gives the state of each version held. *)
Definition holds (ms : Store) (rd : Z -> Z) (S : versions) (C : contents) : Prop :=
  store_inv ms rd S /\ marks_ok ms /\
  exists fs, S !! cs_version (ms_committed ms) = Some (Build_VersionState (cs_tables (ms_committed ms)) C fs).

(** Every table of the published state reads back as its contents say. *)
Definition reads (w : W) (cs : CommittedState T X) (C : contents) : Prop := forall id R, C !! id = Some R ->
  exists ts, cs_tables cs !! id = Some ts /\ all_rows w ts = Ok (btree_values R) /\ forall pk, row_at w ts pk = Ok (R !! pk).

(** A state whose version someone outside the store still holds. *)
Definition held (rd : Z -> Z) (S : versions) (cs : CommittedState T X) : Prop := 0 < rd (cs_version cs) /\
  exists s, S !! cs_version cs = Some s /\ vs_tables s = cs_tables cs.

Lemma version_reads w (s : VersionState T X) cs : kt_ok w -> vs_ok w s -> vs_tables s = cs_tables cs -> reads w cs (vs_content s).
Proof using RL.
  intros Hok [HT _] E id R HR. specialize (HT id). rewrite E in HT. destruct (cs_tables cs !! id) as [ts|]; [|destruct HT; congruence].
  destruct HT as (R' & g & E1 & _ & Ht). assert (R' = R) as -> by congruence. exists ts.
  destruct Ht as [(fr & fi & fu & _ & HRows & _) _]. split_and!; [done|by eapply all_rows_spec|intros; by eapply row_at_spec].
Qed.

Lemma held_reads (ms : Store) rd S cs : store_inv ms rd S -> held rd S cs -> exists C, reads (ms_world ms) cs C /\
  forall id ts, cs_tables cs !! id = Some ts -> is_Some (C !! id).
Proof using RL.
  intros I (_ & s & ES & Et). exists (vs_content s). split.
  - apply version_reads; [apply I|by eapply I|done].
  - intros id ts E. destruct (si_states _ _ _ I _ _ ES) as [HT _]. specialize (HT id). rewrite Et, E in HT. destruct HT as (R & ? & -> & _). by eexists.
Qed.

(** A commit publishes the contents the transaction saw. *)
Lemma commit_holds (ms : Store) rd S C Good tx now : holds ms rd S C ->
  good_env (ms_env ms) (ms_blobs ms) (ms_world ms) C (ms_committed ms) Good ->
  rtc (tx_step (ms_env ms) (ms_blobs ms) (ms_world ms) C Good) (begin ms).1 tx ->
  next_version (ms_writer ms) < u_max 64 -> kt_room (merge_run tx (begin ms).2).2.1 ->
  exists diff ms' S', commit tx now (begin ms).2 = (Ok diff, ms') /\ holds ms' rd S' (seen C tx) /\
    reads (ms_world ms') (ms_committed ms') (seen C tx) /\
    diff_tx_id diff = next_tx_id (ms_writer ms) /\ diff_tables diff = diffs_of C (btree_entries (tables (tx_state tx))) /\
    cs_version (ms_committed ms') = next_version (ms_writer ms) /\
    next_tx_id (ms_writer ms') = sat_add 64 (next_tx_id (ms_writer ms)) 1.
Proof using RL SL.
  intros (I & Hm & fs & HS) GE Hst Hn Hr. destruct (transaction_spec ms rd S C fs Good tx now I Hm HS GE Hst Hn Hr) as (tabs & fs' & ms' & S' & E & I' & Hm' & Ec & HS' & _ & En & _).
  eexists _, ms', S'. split; [exact E|]. assert (holds ms' rd S' (seen C tx)) as Hh by (split; [done|]; split; [done|]; exists fs'; by rewrite Ec).
  split; [done|]. split; [|rewrite Ec; by split_and!].
  pose proof (version_reads (ms_world ms') _ (ms_committed ms') (si_world _ _ _ I') (si_states _ _ _ I' _ _ HS')) as Hv. apply Hv. by rewrite Ec.
Qed.

(** C1: a transaction is atomic and durable in memory: whatever inserts, upserts and
    deletes it issued, failed ones included, its commit succeeds, and the
    published tables read back exactly the contents the transaction saw at the
    end; the store stays consistent and the version and transaction counters
    advance by one. This holds of stores whose tables have no spatial or
    full-text index and no value transforms, for rows that fit the trees and
    hold no floats in unique or reference columns (with a float there the commit
    can fail, [float_unique_commit_fails]), where clearing a reference leaves a good row at
    its key, and while version and page numbers are in range. *)
Theorem transaction_commits (ms : Store) rd S C Good tx now : holds ms rd S C ->
  good_env (ms_env ms) (ms_blobs ms) (ms_world ms) C (ms_committed ms) Good ->
  rtc (tx_step (ms_env ms) (ms_blobs ms) (ms_world ms) C Good) (begin ms).1 tx ->
  next_version (ms_writer ms) < u_max 64 -> kt_room (merge_run tx (begin ms).2).2.1 ->
  exists diff ms' S', commit tx now (begin ms).2 = (Ok diff, ms') /\ holds ms' rd S' (seen C tx) /\
    reads (ms_world ms') (ms_committed ms') (seen C tx) /\
    diff_tx_id diff = next_tx_id (ms_writer ms) /\ diff_tables diff = diffs_of C (btree_entries (tables (tx_state tx))) /\
    cs_version (ms_committed ms') = next_version (ms_writer ms) /\
    next_tx_id (ms_writer ms') = sat_add 64 (next_tx_id (ms_writer ms)) 1.
Proof using RL SL. by apply commit_holds. Qed.

(** C2: snapshots are isolated: a state taken before the commit, by any reader that
    still holds it, reads the same rows in every table after the commit as
    before it, although the commit writes into the same pagers and frees the
    pages no version needs. *)
Theorem snapshots_isolated (ms : Store) rd S C Good tx now cs : holds ms rd S C -> held rd S cs ->
  good_env (ms_env ms) (ms_blobs ms) (ms_world ms) C (ms_committed ms) Good ->
  rtc (tx_step (ms_env ms) (ms_blobs ms) (ms_world ms) C Good) (begin ms).1 tx ->
  next_version (ms_writer ms) < u_max 64 -> kt_room (merge_run tx (begin ms).2).2.1 ->
  let ms' := (commit tx now (begin ms).2).2 in
  (exists S', store_inv ms' rd S' /\ held rd S' cs) /\
  forall id ts, cs_tables cs !! id = Some ts ->
    (exists rs, all_rows (ms_world ms) ts = Ok rs) /\ all_rows (ms_world ms') ts = all_rows (ms_world ms) ts /\
    forall pk, row_at (ms_world ms') ts pk = row_at (ms_world ms) ts pk.
Proof using RL SL.
  intros (I & Hm & fs & HS) (Hrd & s & Es & Et) GE Hst Hn Hr.
  destruct (transaction_spec ms rd S C fs Good tx now I Hm HS GE Hst Hn Hr) as (tabs & fs' & ms' & S' & E & I' & Hm' & Ec & HS' & Hsub & _).
  cbv zeta. rewrite E. cbn [snd].
  assert (S' !! cs_version cs = Some s) as Es'.
  { assert (is_Some (S' !! cs_version cs)) as [s' Es'].
    { apply (si_dom _ _ _ I'). pose proof (si_arcs _ _ _ I' (cs_version cs)) as Ha. destruct (ms_arcs ms' !! cs_version cs); [by eexists|]. simpl in Ha.
      pose proof (window_count_nonneg (cs_version cs) (ms_history ms')). unfold one_if in Ha. destruct (decide _); lia. }
    rewrite Es'. pose proof (lookup_weaken _ _ _ _ Es' Hsub) as Ew.
    rewrite lookup_insert_ne in Ew; [congruence|]. pose proof (si_next _ _ _ I (cs_version cs) ltac:(by eexists)). lia. }
  split; [exists S'; split; [done|]; split; [done|by exists s]|]. intros id ts Ets.
  destruct (si_states _ _ _ I _ _ Es) as [HT _]. pose proof (HT id) as HTi. rewrite Et, Ets in HTi. destruct HTi as (R & g & ER & _).
  destruct (version_reads _ _ cs (si_world _ _ _ I) (si_states _ _ _ I _ _ Es) Et id R ER) as (ts1 & E1 & A1 & B1).
  destruct (version_reads _ _ cs (si_world _ _ _ I') (si_states _ _ _ I' _ _ Es') Et id R ER) as (ts2 & E2 & A2 & B2).
  assert (ts1 = ts) as -> by congruence. assert (ts2 = ts) as -> by congruence. rewrite A1, A2. split; [by eexists|]. split; [done|]. intros pk. by rewrite B1, B2.
Qed.

(** Calls a transaction may keep going after: any insert or upsert, and a
    delete that succeeded. *)
Inductive clean_step (env : StoreEnv) (blobs : option B) (w : W) (C : contents) (Good : TableId -> list Z -> row -> Prop) (tx : Tx T X) : Tx T X -> Prop :=
  | CleanWrite id values replace : (forall p tx1, prepare env blobs w id values tx = (Ok p, tx1) -> Good id p.1 p.2) ->
      clean_step env blobs w C Good tx (write env blobs w id values replace tx).2
  | CleanDelete fuel id pk_values found : (total (seen C tx) <= fuel)%nat -> (delete_row env blobs w fuel id pk_values tx).1 = Ok found ->
      clean_step env blobs w C Good tx (delete_row env blobs w fuel id pk_values tx).2.

Lemma clean_steps env blobs w C Good (tx tx' : Tx T X) : rtc (clean_step env blobs w C Good) tx tx' -> rtc (tx_step env blobs w C Good) tx tx'.
Proof using Type. apply rtc_subrel. intros a b [id values replace Hp|fuel id pk_values found Hf _]; [by apply StepWrite|by apply StepDelete]. Qed.

Lemma clean_refs env blobs w C fs base Good (tx tx' : Tx T X) : good_env env blobs w C base Good -> rtc (clean_step env blobs w C Good) tx tx' ->
  tx_good w C fs base Good tx -> refs_ok env (seen C tx) -> refs_ok env (seen C tx').
Proof using RL.
  intros GE. induction 1 as [tx|tx tx1 tx2 H1 _ IH]; intros G Hrefs; [done|]. destruct H1 as [id values replace Hp|fuel id pk_values found Hf E].
  - destruct (write_good env blobs w C fs base Good GE tx id values replace G Hp) as (pk & Hw & _).
    destruct (write env blobs w id values replace tx) as [[r|e] tx1] eqn:E.
    + apply IH; [apply Hw|]. by eapply wrote_refs.
    + destruct Hw as (Hg & Es & _). apply IH; [done|]. simpl. by rewrite Es.
  - pose proof (delete_row_good env blobs w C fs base Good GE True fuel tx id pk_values G ltac:(done) Hf) as Hd.
    destruct (delete_row env blobs w fuel id pk_values tx) as [[r|e] tx1]; [|done]. destruct Hd as [Hg Hr]. apply IH; [done|by apply Hr].
Qed.

(** C3: referential integrity is an invariant of transactions: if every reference of the
    committed rows names a committed parent, then after any inserts and upserts,
    failed ones included, and any deletes that returned without error, with
    their cascades and cleared references, the commit publishes contents in
    which every reference still names a parent. This holds of stores whose tables
    have no spatial or full-text index and no value transforms, for rows that fit the trees
    and hold no floats in unique or reference columns (a NaN key loses its
    children, [float_reference_dangles]), and where clearing a reference leaves the row valid
    and at its key. *)
Theorem references_kept (ms : Store) rd S C Good tx now : holds ms rd S C -> refs_ok (ms_env ms) C ->
  good_env (ms_env ms) (ms_blobs ms) (ms_world ms) C (ms_committed ms) Good ->
  rtc (clean_step (ms_env ms) (ms_blobs ms) (ms_world ms) C Good) (begin ms).1 tx ->
  next_version (ms_writer ms) < u_max 64 -> kt_room (merge_run tx (begin ms).2).2.1 ->
  exists diff ms' S' C', commit tx now (begin ms).2 = (Ok diff, ms') /\ holds ms' rd S' C' /\
    reads (ms_world ms') (ms_committed ms') C' /\ refs_ok (ms_env ms) C'.
Proof using RL SL.
  intros Hh Hrefs GE Hst Hn Hr. destruct (commit_holds ms rd S C Good tx now Hh GE (clean_steps _ _ _ _ _ _ _ Hst) Hn Hr) as (diff & ms' & S' & E & Hh' & Hrd & _).
  exists diff, ms', S', (seen C tx). split_and!; try done. destruct Hh as (I & _ & fs & HS).
  destruct (begin_spec ms rd S C fs I HS) as (_ & Htx & Hseen & Eb & _).
  eapply (clean_refs _ _ _ _ fs _ _ _ _ GE Hst); [split; [done|done|]|]; rewrite Hseen; [by eapply (ge_base _ _ _ _ _ _ GE)|done].
Qed.

(** C28: deletes terminate: with one round per visible row the cascading work list
    always drains, cyclic references included, whatever the outcome of the
    delete. *)
Theorem delete_terminates (ms : Store) rd S C Good tx fuel id pk_values : holds ms rd S C ->
  good_env (ms_env ms) (ms_blobs ms) (ms_world ms) C (ms_committed ms) Good ->
  rtc (tx_step (ms_env ms) (ms_blobs ms) (ms_world ms) C Good) (begin ms).1 tx -> (total (seen C tx) <= fuel)%nat ->
  (delete_row (ms_env ms) (ms_blobs ms) (ms_world ms) fuel id pk_values tx).1 <> Err OutOfFuel.
Proof using RL.
  intros (I & _ & fs & HS) GE Hst Hf. destruct (begin_spec ms rd S C fs I HS) as (_ & Htx & Hseen & Eb & _).
  destruct (steps_good _ _ _ _ fs _ _ GE _ _ Hst) as [G _].
  { split; [done|done|]. rewrite Hseen. by eapply (ge_base _ _ _ _ _ _ GE). }
  pose proof (delete_row_good _ _ _ _ _ _ _ GE False fuel tx id pk_values G ltac:(done) Hf) as Hd.
  destruct (delete_row _ _ _ fuel id pk_values tx) as [[r|e] tx1]; simpl; [done|]. destruct Hd as [_ He]. by intros [= ->].
Qed.

Lemma reached_good (ms : Store) rd S C Good tx : holds ms rd S C ->
  good_env (ms_env ms) (ms_blobs ms) (ms_world ms) C (ms_committed ms) Good ->
  rtc (tx_step (ms_env ms) (ms_blobs ms) (ms_world ms) C Good) (begin ms).1 tx ->
  exists fs, tx_good (ms_world ms) C fs (ms_committed ms) Good tx.
Proof using RL.
  intros (I & _ & fs & HS) GE Hst. destruct (begin_spec ms rd S C fs I HS) as (_ & Htx & Hseen & Eb & _). exists fs.
  destruct (steps_good _ _ _ _ fs _ _ GE _ _ Hst) as [G _]; [|done].
  split; [done|done|]. rewrite Hseen. by eapply (ge_base _ _ _ _ _ _ GE).
Qed.

(** C8: every insert or upsert has exactly one of four outcomes. Either the row
    is refused, and the error names a true reason: an unknown table, a
    global table written on a replica, a computed column that fails, a blob that is not
    stored, a column of another type, an automatic id that is no number, a null in
    a [not_null] column, a failed check, a reference to no visible row, a key that cannot be
    encoded. Or a row is accepted, which is
    then determined ([accepts]), and the call reports a conflict on the primary key
    when a visible row has it and the call does not replace, a unique violation when
    another visible row holds one of its unique values, and otherwise makes the row
    visible under its key and changes nothing else. The errors leave the visible
    contents as they were. The rows of the transaction fit the trees and hold no
    floats in unique columns; no table has a spatial or full-text index or value
    transforms. *)
Theorem write_outcomes (ms : Store) rd S C Good tx id values replace : holds ms rd S C ->
  good_env (ms_env ms) (ms_blobs ms) (ms_world ms) C (ms_committed ms) Good ->
  rtc (tx_step (ms_env ms) (ms_blobs ms) (ms_world ms) C Good) (begin ms).1 tx ->
  let accepted := accepts (ms_env ms) (ms_blobs ms) (seen C tx) tx id values in
  (forall pk v, accepted pk v -> Good id pk v) ->
  let clash ts V pk v cols := cols ∈ sh_uniq (shape ts) /\ clash_on V pk v cols in
  match write (ms_env ms) (ms_blobs ms) (ms_world ms) id values replace tx with
  | (Ok stored, tx') => exists pk v ts V, accepted pk v /\ cs_tables (ms_committed ms) !! id = Some ts /\ seen C tx !! id = Some V /\
      (is_Some (V !! pk) -> replace = true) /\ (forall cols, ~ clash ts V pk v cols) /\
      seen C tx' = <[id := <[pk := stored]> V]> (seen C tx) /\ (stored = v \/ row_eq stored v = true)
  | (Err e, tx') => seen C tx' = seen C tx /\
      (refused (ms_env ms) (ms_blobs ms) (seen C tx) tx id values e /\ (forall pk v, ~ accepted pk v) \/
       exists pk v ts V, accepted pk v /\ cs_tables (ms_committed ms) !! id = Some ts /\ seen C tx !! id = Some V /\
         (e = PkConflict id /\ is_Some (V !! pk) /\ replace = false \/
          exists cols, e = UniqueViolation id cols /\ clash ts V pk v cols /\ (is_Some (V !! pk) -> replace = true)))
  end.
Proof using RL.
  intros Hh GE Hst accepted Hgood clash. destruct (reached_good _ _ _ _ _ _ Hh GE Hst) as [fs [I Eb _]].
  pose proof (prepare_spec (ms_env ms) (ms_blobs ms) (ms_world ms) C fs id values tx I (ge_transforms _ _ _ _ _ _ GE)) as Hp.
  destruct (ks_prepare (ms_env ms) (ms_blobs ms) (ms_world ms) id values tx) as (B1 & B2 & _).
  destruct (prepare (ms_env ms) (ms_blobs ms) (ms_world ms) id values tx) as [[[pk v]|e] tx1] eqn:Ep; simpl in B1, B2;
    destruct (keeps_inv _ tx tx1 C fs B1 (f_equal tables B2) I) as [_ Es1].
  2: { unfold write. unfold mbind at 1, sm_bind at 1. rewrite Ep. split; [done|by left]. }
  destruct (prepare_ok _ _ _ _ _ _ _ _ _ _ _ I (ge_transforms _ _ _ _ _ _ GE) Ep) as (info & ts & R & _ & Hat & _).
  destruct (seen_table _ _ _ _ _ _ _ I Hat) as [_ Hseen]. fold (seen_at tx R id) in Hseen. pose proof Hat as [Ets _]. rewrite Eb in Ets.
  destruct (ge_row _ _ _ _ _ _ GE id ts pk v Ets (Hgood pk v Hp)) as [Hrow Hpl].
  destruct (write_spec _ _ _ tx C fs id ts R values replace pk v tx1 I Hat Ep Hrow Hpl) as [Hocc ->|cols Hr Hin Hcl|stored tx' Hr Hno Hv _ Es _ _ _].
  - split; [done|]. right. exists pk, v, ts, (seen_at tx R id). split_and!; try done. by left.
  - split; [done|]. right. exists pk, v, ts, (seen_at tx R id). split_and!; try done. right. by exists cols.
  - exists pk, v, ts, (seen_at tx R id). split_and!; try done; [|naive_solver]. rewrite Forall_forall in Hno. intros cols [Hin Hcl]. by apply (Hno cols).
Qed.

(** an index scan is exact: on the committed tables it returns each row whose prefix
    columns equal the given values and whose next column lies within the bounds,
    once each, ordered by the indexed values and then by primary key. *)
Theorem index_scan_exact (ms : Store) rd S C t ts R tys id index prefix lower upper : holds ms rd S C ->
  cs_tables (ms_committed ms) !! t = Some ts -> C !! t = Some R -> find_index ts id = Some index ->
  Forall2 (fun o ty => columns (ti_schema (schema ts)) !! o = Some ty) (bi_columns index) tys -> forallb ordered_type tys = true ->
  scan_typed tys prefix lower upper -> map_Forall (fun pk (_ : row) => bytes_ok pk) R ->
  exists l, index_scan (ms_world ms) ts id prefix lower upper = Ok l.*2 /\ StronglySorted (index_order (bi_columns index)) l /\
    forall pk r, (pk, r) ∈ l <-> R !! pk = Some r /\ scan_matches (bi_columns index) prefix lower upper r.
Proof using RL.
  intros (I & _ & fs & HS) Ets ER. destruct (si_states _ _ _ I _ _ HS) as [HT _]. destruct (tables_is_get _ _ _ _ _ _ HT Ets) as (R' & g & ER' & _ & Ht).
  assert (R' = R) as -> by (simpl in ER'; congruence). intros Hf Htys Ho Hst Hb.
  exact (index_scan_spec (ms_world ms) ts R g (si_world _ _ _ I) Ht tys id index Hf Htys Ho prefix lower upper Hst Hb).
Qed.

(** index integrity is an invariant: after the commit of any transaction, every table
    of the published state passes the integrity check, so each index and unique
    map equals a rebuild over the rows. *)
Theorem indexes_verified `{SV : SideVerify W X} (ms : Store) rd S C Good tx now : holds ms rd S C ->
  good_env (ms_env ms) (ms_blobs ms) (ms_world ms) C (ms_committed ms) Good ->
  rtc (tx_step (ms_env ms) (ms_blobs ms) (ms_world ms) C Good) (begin ms).1 tx ->
  next_version (ms_writer ms) < u_max 64 -> kt_room (merge_run tx (begin ms).2).2.1 ->
  let ms' := (commit tx now (begin ms).2).2 in
  forall id ts, cs_tables (ms_committed ms') !! id = Some ts -> verify_index_integrity (ms_world ms') ts = Ok tt.
Proof using RL SL.
  intros Hh GE Hst Hn Hr. destruct (commit_holds ms rd S C Good tx now Hh GE Hst Hn Hr) as (diff & ms' & S' & E & (I & _ & fs & HS) & _).
  cbv zeta. rewrite E. cbn [snd]. intros id ts Ets. destruct (si_states _ _ _ I _ _ HS) as [HT _].
  destruct (tables_is_get _ _ _ _ _ _ HT Ets) as (R & g & _ & _ & Ht). exact (integrity_spec (ms_world ms') ts R g (si_world _ _ _ I) Ht).
Qed.
End store_claims.

Lemma sample_holds action : exists S, holds (sample_store action) (fun _ => 0) S (sample_content action).
Proof.
  destruct (sample_inv action) as [fs I]. eexists. split; [exact I|]. split; [by destruct action|]. exists fs. by destruct action.
Qed.

(** The sample store with a reader on its first version. *)
Definition read_store (action : RefAction) : SampleStore := arc_clone 0 (sample_store action).

Lemma read_holds action : exists S, holds (read_store action) (add_rd 0 1 (fun _ => 0)) S (sample_content action) /\
  held (add_rd 0 1 (fun _ => 0)) S (ms_committed (sample_store action)).
Proof.
  destruct (sample_inv action) as [fs I]. eexists. split.
  - split; [apply arc_clone_inv; [exact I|by eexists]|]. split; [by destruct action|]. exists fs. by destruct action.
  - unfold held. assert (cs_version (ms_committed (sample_store action)) = 0) as -> by (by destruct action). split; [done|]. by eexists.
Qed.

Lemma sample_room action n : (n <= 6)%nat -> kt_room (T := PagedTree) (merge_run (sample_tx action n) (begin (sample_store action)).2).2.1.
Proof. intros Hn. apply room_b_ok. do 7 (destruct n as [|n]; [destruct action; vm_compute; reflexivity|]). lia. Qed.

Lemma sample_next action : next_version (ms_writer (sample_store action)) < u_max 64.
Proof. by destruct action. Qed.

(** The calls of the sample see one user and one post at the end: the first
    user is deleted, with the post that named it. *)
Lemma transaction_commits_witness : exists diff ms', commit (sample_tx Cascade 6) 7 (begin (sample_store Cascade)).2 = (Ok diff, ms') /\
  reads (ms_world ms') (ms_committed ms') {[1 := {[le_bytes 8 2 := user 2 20]}; 2 := {[le_bytes 8 2 := post 2 (Some 2)]}]}.
Proof.
  destruct (sample_holds Cascade) as [S H].
  destruct (transaction_commits _ _ _ _ _ (sample_tx Cascade 6) 7 H (sample_good_env Cascade ltac:(done)) (sample_steps Cascade 6 ltac:(lia) ltac:(done))
    (sample_next Cascade) (sample_room Cascade 6 ltac:(lia))) as (diff & ms' & S' & E & _ & Hr & _).
  exists diff, ms'. split; [exact E|].
  assert (seen (sample_content Cascade) (sample_tx Cascade 6) = {[1 := {[le_bytes 8 2 := user 2 20]}; 2 := {[le_bytes 8 2 := post 2 (Some 2)]}]}) as <-; [|exact Hr].
  vm_compute. reflexivity.
Defined.

Lemma snapshots_isolated_witness : exists ts, cs_tables (ms_committed (sample_store Cascade)) !! 1 = Some ts /\
  let ms' := (commit (sample_tx Cascade 6) 7 (begin (read_store Cascade)).2).2 in
  all_rows (ms_world ms') ts = Ok [].
Proof.
  destruct (read_holds Cascade) as (S & H & Hh).
  assert (exists ts, cs_tables (ms_committed (sample_store Cascade)) !! 1 = Some ts) as [ts E] by (vm_compute; by eexists).
  exists ts. split; [exact E|].
  destruct (snapshots_isolated _ _ _ _ _ (sample_tx Cascade 6) 7 (ms_committed (sample_store Cascade)) H Hh
    (sample_good_env Cascade ltac:(done)) (sample_steps Cascade 6 ltac:(lia) ltac:(done)) (sample_next Cascade) (sample_room Cascade 6 ltac:(lia))) as [_ Hr].
  destruct (Hr 1 ts E) as (_ & Hrows & _). cbv zeta. etrans; [exact Hrows|]. clear -E. vm_compute in E. injection E as <-. vm_compute. reflexivity.
Defined.

(** ** Witnesses *)

Lemma sample_clean n : (n <= 6)%nat -> let ms := sample_store Cascade in
  rtc (clean_step (ms_env ms) (ms_blobs ms) (ms_world ms) (sample_content Cascade) sample_good) (begin ms).1 (sample_tx Cascade n).
Proof.
  intros Hn. cbv zeta. induction n as [|n IH]; [apply rtc_refl|]. eapply rtc_r; [apply IH; lia|]. clear IH. rewrite sample_tx_S.
  assert (n = 5 \/ n < 5)%nat as [->|Hlt] by lia.
  - eapply (CleanDelete _ _ _ _ _ _ 10 1 [RowValue.U64 1] true); [vm_compute; lia|vm_compute; reflexivity].
  - do 5 (destruct n as [|n]; [apply CleanWrite; eapply sample_prepared; [vm_compute; reflexivity|vm_compute; tauto]|]). lia.
Qed.

Lemma sample_refs action : refs_ok (ms_env (sample_store action)) (sample_content action).
Proof.
  intros fk _ R pk r HR Hr. unfold empties in HR. rewrite lookup_fmap in HR. destruct (cs_tables _ !! fk_child fk); [|done]. injection HR as <-. by rewrite lookup_empty in Hr.
Qed.

Lemma references_kept_witness : exists diff ms' C', commit (sample_tx Cascade 6) 7 (begin (sample_store Cascade)).2 = (Ok diff, ms') /\
  reads (ms_world ms') (ms_committed ms') C' /\ refs_ok (ms_env (sample_store Cascade)) C'.
Proof.
  destruct (sample_holds Cascade) as [S H].
  destruct (references_kept _ _ _ _ _ (sample_tx Cascade 6) 7 H (sample_refs Cascade) (sample_good_env Cascade ltac:(done)) (sample_clean 6 ltac:(lia))
    (sample_next Cascade) (sample_room Cascade 6 ltac:(lia))) as (diff & ms' & S' & C' & E & _ & Hr & Hf).
  exists diff, ms', C'. split; [exact E|]. split; [exact Hr|exact Hf].
Defined.

Lemma delete_terminates_witness : let ms := sample_store Cascade in
  (delete_row (ms_env ms) (ms_blobs ms) (ms_world ms) 4 1 [RowValue.U64 2] (sample_tx Cascade 5)).1 <> Err OutOfFuel.
Proof.
  destruct (sample_holds Cascade) as [S H].
  apply (delete_terminates _ _ _ _ _ (sample_tx Cascade 5) 4 1 [RowValue.U64 2] H (sample_good_env Cascade ltac:(done)) (sample_steps Cascade 5 ltac:(lia) ltac:(done))).
  vm_compute. lia.
Defined.

(** The sixth user call of the sample takes a badge that is taken. *)
Lemma write_outcomes_witness : let ms := sample_store Cascade in
  exists V, seen (sample_content Cascade) (sample_tx Cascade 4) !! 1 = Some V /\ clash_on V (le_bytes 8 3) (user 3 10) [1%nat] /\
  (write (ms_env ms) (ms_blobs ms) (ms_world ms) 1 (user 3 10) false (sample_tx Cascade 4)).1 = Err (UniqueViolation 1 [1%nat]).
Proof.
  destruct (sample_holds Cascade) as [S H].
  assert (forall pk v, accepts (ms_env (sample_store Cascade)) (ms_blobs (sample_store Cascade)) (seen (sample_content Cascade) (sample_tx Cascade 4))
    (sample_tx Cascade 4) 1 (user 3 10) pk v -> (pk, v) = (le_bytes 8 3, user 3 10)) as Hacc.
  { intros pk v (info & r & [E1 _ _ E2%derived_fun _ _ E3] & _ & E4). vm_compute in E1. injection E1 as <-. vm_compute in E2. injection E2 as <-.
    vm_compute in E3. subst v. vm_compute in E4. by injection E4 as <-. }
  pose proof (write_outcomes _ _ _ _ _ (sample_tx Cascade 4) 1 (user 3 10) false H (sample_good_env Cascade ltac:(done))
    (sample_steps Cascade 4 ltac:(lia) ltac:(done))) as Hw. cbv zeta in Hw.
  assert ((write (ms_env (sample_store Cascade)) (ms_blobs (sample_store Cascade)) (ms_world (sample_store Cascade)) 1 (user 3 10) false (sample_tx Cascade 4)).1 =
    Err (UniqueViolation 1 [1%nat])) as E by (vm_compute; reflexivity).
  destruct (write _ _ _ _ _ _ _) as [[r|e] tx']; [discriminate E|]. cbn [fst] in E. injection E as ->.
  destruct Hw as [_ [[Hre _]|(pk & v & ts & V & Ha & _ & EV & He)]].
  - intros pk v Ha. apply Hacc in Ha. injection Ha as -> ->. vm_compute. tauto.
  - by destruct (proj2 (refused_no_conflict _ _ _ _ _ _ 1) _ Hre).
  - apply Hacc in Ha. injection Ha as -> ->. exists V. split; [exact EV|]. split; [|reflexivity].
    destruct He as [[E _]|(cols & E & [_ Hc] & _)]; [discriminate E|]. by injection E as <-.
Defined.

Definition sample_committed (action : RefAction) : SampleStore := (commit (sample_tx action 6) 7 (begin (sample_store action)).2).2.

Lemma committed_holds : exists S, holds (sample_committed Cascade) (fun _ => 0) S
  {[1 := {[le_bytes 8 2 := user 2 20]}; 2 := {[le_bytes 8 2 := post 2 (Some 2)]}]}.
Proof.
  destruct (sample_holds Cascade) as [S H].
  destruct (commit_holds _ _ _ _ _ (sample_tx Cascade 6) 7 H (sample_good_env Cascade ltac:(done)) (sample_steps Cascade 6 ltac:(lia) ltac:(done))
    (sample_next Cascade) (sample_room Cascade 6 ltac:(lia))) as (diff & ms' & S' & E & Hh & _).
  exists S'. unfold sample_committed. rewrite E.
  assert (seen (sample_content Cascade) (sample_tx Cascade 6) = {[1 := {[le_bytes 8 2 := user 2 20]}; 2 := {[le_bytes 8 2 := post 2 (Some 2)]}]}) as <-; [|exact Hh].
  vm_compute. reflexivity.
Qed.

(** The posts of the second user, by the index on the author. *)
Lemma index_scan_exact_witness : exists ts l, cs_tables (ms_committed (sample_committed Cascade)) !! 2 = Some ts /\
  index_scan (ms_world (sample_committed Cascade)) ts 1 [RowValue.Optional (Some (RowValue.U64 2))] Unbounded Unbounded = Ok l.*2 /\
  (le_bytes 8 2, post 2 (Some 2)) ∈ l.
Proof.
  destruct committed_holds as [S H].
  assert (exists ts, cs_tables (ms_committed (sample_committed Cascade)) !! 2 = Some ts /\ (exists index, find_index ts 1 = Some index /\ bi_columns index = [1%nat]) /\
    columns (ti_schema (schema ts)) = [FluxType.U64; FluxType.Option FluxType.U64]) as (ts & Ets & (index & Ei & Ec) & Esch).
  { eexists. split; [vm_compute; reflexivity|]. split; [|reflexivity]. eexists. by split. }
  destruct (index_scan_exact _ _ _ _ 2 ts {[le_bytes 8 2 := post 2 (Some 2)]} [FluxType.Option FluxType.U64] 1 index
    [RowValue.Optional (Some (RowValue.U64 2))] Unbounded Unbounded H Ets) as (l & El & _ & Hl); [reflexivity|exact Ei| |reflexivity| | |].
  - rewrite Ec, Esch. repeat constructor.
  - split; [simpl; lia|]. split; [repeat constructor|by split].
  - apply map_Forall_singleton. apply le_bytes_ok.
  - exists ts, l. split; [exact Ets|]. split; [exact El|]. apply Hl. split; [apply lookup_singleton_eq|]. split; rewrite Ec; [repeat constructor|done].
Defined.

#[export] Instance no_side_verify : SideVerify PagedWorld Empty_set := fun _ _ x => Empty_set_rect (fun _ => _) x.

Lemma indexes_verified_witness : exists ts, cs_tables (ms_committed (sample_committed Cascade)) !! 2 = Some ts /\
  verify_index_integrity (ms_world (sample_committed Cascade)) ts = Ok tt.
Proof.
  destruct (sample_holds Cascade) as [S H].
  assert (exists ts, cs_tables (ms_committed (sample_committed Cascade)) !! 2 = Some ts) as [ts E] by (vm_compute; by eexists).
  exists ts. split; [exact E|].
  exact (indexes_verified _ _ _ _ _ (sample_tx Cascade 6) 7 H (sample_good_env Cascade ltac:(done)) (sample_steps Cascade 6 ltac:(lia) ltac:(done))
    (sample_next Cascade) (sample_room Cascade 6 ltac:(lia)) 2 ts E).
Defined.

(** C35: a restricted delete is not atomic: the delete of a user that a post names is
    rejected, but the user is already gone from the transaction, and a reducer
    that goes on and commits publishes a post whose author does not exist. *)
Theorem restricted_delete_dangles : let ms := sample_store Restrict in
  let res := delete_row (ms_env ms) (ms_blobs ms) (ms_world ms) 10 1 [RowValue.U64 1] (sample_tx Restrict 5) in
  let ms' := (commit res.2 7 (begin ms).2).2 in
  res.1 = Err (FkRestricted 1) /\ is_ok (commit res.2 7 (begin ms).2).1 = true /\
  exists users posts, cs_tables (ms_committed ms') !! 1 = Some users /\ cs_tables (ms_committed ms') !! 2 = Some posts /\
    row_at (ms_world ms') users (le_bytes 8 1) = Ok None /\ row_at (ms_world ms') posts (le_bytes 8 1) = Ok (Some (post 1 (Some 1))).
Proof.
  cbv zeta. split; [vm_compute; reflexivity|]. split; [vm_compute; reflexivity|].
  eexists _, _. split; [vm_compute; reflexivity|]. split; [vm_compute; reflexivity|]. split; vm_compute; reflexivity.
Qed.
