(* ===== verification/History.v ===== *)
(** Sequences of transactions and reads of earlier states.

    [session] runs transactions one after the other and logs the contents after
    each. The store keeps the states of the last commits in its temporal window;
    [snapshot_as_of] returns the state of the newest commit at or before the
    point it is asked for, and that state still reads the contents the log has
    for it. *)

From stdpp Require Import base list gmap sorting relations.
From Stdlib Require Import ZArith Lia.
From S2P Require Import Prelude FluxBin Row IndexKey TxState LogRecord PageFormat PagedTree PagedTreeNode PagedTreeRep PagedTreeWrite PagedTreeSpec KvTree TableState TableSpec Reclaim MemStore MergeSpec StoreSpec CommitSpec StoreBuild TxSpec RefSpec Transaction Sample StoreProps.

Section history.
Context {W T X B : Type} {KT : KvTree W T} {KL : KvTreeLaws W T} {RC : RowCodec} {RL : RowCodecLaws}.
Context {SI : SideIndex W X} {SL : SideIndexLaws W T X} {BS : BlobStore B}.
Notation Store := (MemStore W T X B).
Notation versions := (gmap Z (VersionState T X)).
Notation window := (list (Z * Z * CommittedState T X)).

(** One transaction from [ms], which holds [C]: its number, its timestamp and
    the contents it leaves. *)
Inductive txn (ms : Store) (C : contents) : Z -> Z -> contents -> Store -> Prop :=
  | Txn Good tx now diff ms' : good_env (ms_env ms) (ms_blobs ms) (ms_world ms) C (ms_committed ms) Good ->
      rtc (tx_step (ms_env ms) (ms_blobs ms) (ms_world ms) C Good) (begin ms).1 tx ->
      next_version (ms_writer ms) < u_max 64 -> next_tx_id (ms_writer ms) < u_max 64 -> kt_room (merge_run tx (begin ms).2).2.1 ->
      commit tx now (begin ms).2 = (Ok diff, ms') -> txn ms C (diff_tx_id diff) now (seen C tx) ms'.

(** Transactions in order, with the log of what each left. *)
Inductive session (ms : Store) (C : contents) : list (Z * contents) -> Store -> contents -> Prop :=
  | SessionStart : session ms C [] ms C
  | SessionTxn log ms1 C1 id now C2 ms2 : session ms C log ms1 C1 -> txn ms1 C1 id now C2 ms2 -> session ms C (log ++ [(id, C2)]) ms2 C2.

(** The window lists the last commits of the log, each with its contents. *)
Definition entry_ok (S : versions) (e : Z * Z * CommittedState T X) (l : Z * contents) : Prop := e.1.1 = l.1 /\
  exists s, S !! cs_version e.2 = Some s /\ vs_tables s = cs_tables e.2 /\ vs_content s = l.2.

Record history_ok (ms : Store) (S : versions) (log : list (Z * contents)) (C : contents) : Prop := {
  ho_window : exists old new, log = old ++ new /\ Forall2 (entry_ok S) (ms_history ms) new;
  ho_empty : temporal_window (options (ms_env ms)) = 0%nat -> ms_history ms = [];
  ho_sorted : StronglySorted Z.lt (log.*1);
  ho_next : Forall (fun id => id < next_tx_id (ms_writer ms)) log.*1;
  ho_last : forall id C', last log = Some (id, C') -> C' = C;
}.

Lemma sorted_snoc (l : list Z) x : StronglySorted Z.lt l -> Forall (fun y => y < x) l -> StronglySorted Z.lt (l ++ [x]).
Proof using Type.
  induction 1 as [|y l _ IH Hf]; intros Hx; simpl; [repeat constructor|]. apply Forall_cons in Hx as [Hy Hx].
  constructor; [by apply IH|]. apply Forall_app. split; [done|by repeat constructor].
Qed.

Lemma suffix_Forall2 {A D} (P : A -> D -> Prop) l k h : Forall2 P l k -> h `suffix_of` l -> exists old new, k = old ++ new /\ Forall2 P h new.
Proof using Type. intros HF [pre ->]. apply Forall2_app_inv_l in HF as (old & new & _ & HF & ->). by exists old, new. Qed.

Lemma entry_ok_mono S S' nv s e l : entry_ok S e l -> S' ⊆ <[nv := s]> S -> is_Some (S' !! cs_version e.2) -> cs_version e.2 <> nv -> entry_ok S' e l.
Proof using Type.
  intros (E & s0 & Es & Et & Ec) Hsub [s' Es'] Hne. split; [done|]. exists s'. split; [done|].
  pose proof (lookup_weaken _ _ _ _ Es' Hsub) as Hw. rewrite lookup_insert_ne in Hw by done. assert (s' = s0) as -> by congruence. done.
Qed.

(** One transaction keeps the correspondence. *)
Lemma txn_history (ms : Store) rd S C log id now C' ms' : holds ms rd S C -> history_ok ms S log C -> txn ms C id now C' ms' ->
  exists S', holds ms' rd S' C' /\ history_ok ms' S' (log ++ [(id, C')]) C'.
Proof using RL SL.
  intros Hh HO [Good tx now0 diff ms0 GE Hst Hn Hid Hr E]. pose proof Hh as (I & Hm & fs & HS).
  destruct (transaction_spec ms rd S C fs Good tx now0 I Hm HS GE Hst Hn Hr) as (tabs & fs' & ms1 & S' & E' & I' & Hm' & Ec & HS' & Hsub & En & Een & Hret & _).
  rewrite E in E'. injection E' as -> <-. exists S'. split; [split; [done|]; split; [done|]; exists fs'; by rewrite Ec|].
  destruct HO as [(old & new & -> & HF) He Hs Hlt _]. cbn [diff_tx_id]. split.
  - destruct Hret as [[E0 Eh]|(E0 & Hsuf & _)].
    { rewrite Eh, (He E0). eexists _, []. by rewrite app_nil_r. }
    assert (Forall2 (fun e l => entry_ok S e l \/ e.2 = Build_CommittedState tabs (next_version (ms_writer ms)) /\ e.1.1 = l.1 /\ l.2 = seen C tx)
      (ms_history ms ++ [(next_tx_id (ms_writer ms), now0, Build_CommittedState tabs (next_version (ms_writer ms)))]) (new ++ [(next_tx_id (ms_writer ms), seen C tx)])) as HF2.
    { apply Forall2_app; [eapply Forall2_impl; [exact HF|]; by left|]. constructor; [by right|constructor]. }
    destruct (suffix_Forall2 _ _ _ _ HF2 Hsuf) as (o2 & n2 & E2 & HF3). exists (old ++ o2), n2. rewrite <- app_assoc, E2, app_assoc. split; [done|].
    apply Forall2_same_length_lookup in HF3 as [Hlen HF3]. apply Forall2_same_length_lookup. split; [done|]. intros i e l Ei El.
    destruct (HF3 i e l Ei El) as [Hok|(E2' & E3 & E4)].
    + pose proof Hok as (_ & s0 & Es0 & _). pose proof (si_next _ _ _ I (cs_version e.2) ltac:(by eexists)) as Hv.
      destruct (si_window _ _ _ I' e ltac:(by eapply list_elem_of_lookup_2)) as (s1 & Es1 & _). eapply entry_ok_mono; [exact Hok|exact Hsub|by eexists|lia].
    + split; [done|]. rewrite E2', E4. simpl. by eexists.
  - intros E0. rewrite Een in E0. destruct Hret as [[_ ->]|(N & _)]; [by apply He|done].
  - rewrite fmap_app. by apply sorted_snoc.
  - rewrite fmap_app. rewrite En. unfold sat_add. apply Forall_app. split; [eapply Forall_impl; [exact Hlt|]; simpl; lia|]. repeat constructor. simpl. lia.
  - intros id' D. rewrite last_snoc. by intros [= _ <-].
Qed.

Lemma session_history (ms : Store) rd S C log ms' C' : holds ms rd S C -> ms_history ms = [] -> session ms C log ms' C' ->
  exists S', holds ms' rd S' C' /\ history_ok ms' S' log C'.
Proof using RL SL.
  intros Hh He. induction 1 as [|log ms1 C1 id now C2 ms2 _ (S1 & Hh1 & HO1) Ht]; [|by eapply txn_history].
  exists S. split; [done|]. split; [by exists [], []; rewrite He|done|constructor|constructor|done].
Qed.

(** ** Finding the state *)

Lemma find_rev_last {A} (f : A -> bool) l : match find f (reverse l) with
  | Some x => f x = true /\ exists l1 l2, l = l1 ++ x :: l2 /\ Forall (fun y => f y = false) l2
  | None => Forall (fun y => f y = false) l end.
Proof using Type.
  induction l as [|x l IH] using rev_ind; [constructor|]. rewrite reverse_app. simpl. destruct (f x) eqn:E.
  - split; [done|]. exists l, []. by split.
  - destruct (find f (reverse l)) as [y|]; [|apply Forall_app; by split; [|repeat constructor]].
    destruct IH as (Ey & l1 & l2 & -> & Hl). split; [done|]. exists l1, (l2 ++ [x]). rewrite <- app_assoc. split; [done|].
    apply Forall_app. by split; [|repeat constructor].
Qed.

(** The log entry of a window entry whose successors are all past the point is
    the newest one at or before it. *)
Lemma newest_entry S (w1 w2 : window) e old new n : Forall2 (entry_ok S) (w1 ++ e :: w2) new -> StronglySorted Z.lt (old ++ new).*1 ->
  e.1.1 <= n -> Forall (fun y => n < y.1.1) w2 ->
  exists D s, (e.1.1, D) ∈ old ++ new /\ (w2 = [] -> last (old ++ new) = Some (e.1.1, D)) /\ (forall id' D', (id', D') ∈ old ++ new -> id' <= n -> id' <= e.1.1) /\
    S !! cs_version e.2 = Some s /\ vs_tables s = cs_tables e.2 /\ vs_content s = D.
Proof using Type.
  intros HF Hs He Hw. apply Forall2_app_inv_l in HF as (n1 & n2 & HF1 & HF2 & ->). inversion HF2 as [|? [id D] ? n3 (E & s & Es & Et & Ec) HF3]; subst.
  simpl in E, Ec. subst id D. exists (vs_content s), s. split_and!; try done; [rewrite !elem_of_app, elem_of_cons; tauto| |].
  { intros ->. inversion HF3; subst. by rewrite app_assoc, last_snoc. }
  intros id' D' Hin Hle.
  rewrite app_assoc, fmap_app in Hs. simpl in Hs.
  rewrite app_assoc in Hin. apply elem_of_app in Hin as [Hin|[[= -> ->]|Hin]%elem_of_cons].
  - assert (id' < e.1.1); [|lia]. eapply (StronglySorted_app_1_elem_of _ _ _ id' e.1.1 Hs); [apply list_elem_of_fmap; by exists (id', D')|by left].
  - done.
  - apply Forall2_flip in HF3. destruct (Forall2_elem_of_l _ _ _ _ HF3 Hin) as (y & Hy & Ey & _). rewrite Forall_forall in Hw. specialize (Hw _ Hy). simpl in *. lia.
Qed.

(** C7: a read as of an earlier transaction returns the contents the store had then:
    after any number of transactions, [snapshot_as_of] for a transaction number
    returns a state that still reads exactly what the newest commit at or before
    that number left, and it refuses only numbers before the retained window. *)
Theorem as_of_reads (ms : Store) rd S C log ms' C' n : holds ms rd S C -> ms_history ms = [] -> session ms C log ms' C' ->
  match snapshot_as_of ms' (AsOfTx n) with
  | Ok cs => exists id D, (id, D) ∈ log /\ id <= n /\ (forall id' D', (id', D') ∈ log -> id' <= n -> id' <= id) /\ reads (ms_world ms') cs D
  | Err e => e = AsOfOutOfWindow /\ forall w, w ∈ ms_history ms' -> n < w.1.1
  end.
Proof using RL SL.
  intros Hh He Hs. destruct (session_history ms rd S C log ms' C' Hh He Hs) as (S' & (I & _ & fs & HS) & [(old & new & -> & HF) _ Hsorted _ Hlast]).
  assert (forall w1 e w2, ms_history ms' = w1 ++ e :: w2 -> e.1.1 <= n -> Forall (fun y => n < y.1.1) w2 ->
    exists D, (e.1.1, D) ∈ old ++ new /\ (w2 = [] -> D = C') /\ (forall id' D', (id', D') ∈ old ++ new -> id' <= n -> id' <= e.1.1) /\
      reads (ms_world ms') e.2 D) as Hfound.
  { intros w1 e w2 E Hle Hw. rewrite E in HF. destruct (newest_entry S' w1 w2 e old new n HF Hsorted Hle Hw) as (D & s & Hin & Hl & Hmax & Es & Et & Ec).
    exists D. split_and!; try done; [intros ->; by eapply Hlast, Hl|]. rewrite <- Ec. apply version_reads; [apply I|by apply (si_states _ _ _ I _ _ Es)|done]. }
  unfold snapshot_as_of. destruct (ms_history ms') as [|e0 h] eqn:Eh; [split; [done|]; by intros w ?%elem_of_nil|]. cbn [head].
  destruct (last (e0 :: h)) as [eN|] eqn:El; [|by apply last_None in El].
  apply last_Some in El as [pre El]. unfold at_or_after at 1. destruct (Z.leb_spec eN.1.1 n) as [HN|HN].
  - destruct (Hfound pre eN [] El HN) as (D & Hin & HD & Hmax & _); [constructor|]. exists eN.1.1, D. split_and!; try done. rewrite (HD eq_refl).
    apply (version_reads _ _ _ (si_world _ _ _ I) (si_states _ _ _ I _ _ HS)). done.
  - unfold at_or_after at 1. destruct (Z.leb_spec e0.1.1 n) as [H0|H0]; cbn [negb].
    + pose proof (find_rev_last (at_or_after (AsOfTx n)) (e0 :: h)) as Hfind. destruct (find _ _) as [e|].
      * destruct Hfind as (Ee & w1 & w2 & E & Hw). apply Z.leb_le in Ee. destruct (Hfound w1 e w2 E Ee) as (D & Hin & _ & Hmax & Hr).
        { eapply Forall_impl; [exact Hw|]. intros y Hy. by apply Z.leb_gt. }
        by exists e.1.1, D.
      * exfalso. apply Forall_cons in Hfind as [Hf _]. apply Z.leb_gt in Hf. lia.
    + split; [done|]. intros w Hw. inversion HF as [|? l ? new' [E0 _] HF']; subst. rewrite fmap_app in Hsorted. apply StronglySorted_app_1_r in Hsorted.
      apply StronglySorted_inv in Hsorted as [_ Hgt]. apply elem_of_cons in Hw as [->|Hw]; [done|].
      destruct (Forall2_elem_of_l _ _ _ _ HF' Hw) as (l' & Hl' & E1 & _). rewrite Forall_forall in Hgt. rewrite E1.
      specialize (Hgt l'.1 ltac:(apply list_elem_of_fmap; by exists l')). simpl in Hgt. lia.
Qed.
End history.

(** * Witness: two transactions of the sample store *)

Definition two_rows : contents := {[1 := {[le_bytes 8 2 := user 2 20]}; 2 := {[le_bytes 8 2 := post 2 (Some 2)]}]}.

Lemma committed_fits id pk r ts : sample_good id pk r -> cs_tables (ms_committed (sample_committed Cascade)) !! id = Some ts ->
  row_fit_b (shape ts) pk r = true.
Proof.
  intros H E. assert (match cs_tables (ms_committed (sample_committed Cascade)) !! id with Some ts => row_fit_b (shape ts) pk r | None => true end = true) as Hb;
    [|by rewrite E in Hb].
  clear E. each_row H; vm_compute; reflexivity.
Qed.

Lemma committed_env : ms_env (sample_committed Cascade) = ms_env (sample_store Cascade).
Proof. reflexivity. Qed.

Lemma committed_good_env : good_env (ms_env (sample_committed Cascade)) (ms_blobs (sample_committed Cascade)) (ms_world (sample_committed Cascade)) two_rows
  (ms_committed (sample_committed Cascade)) sample_good.
Proof.
  destruct (sample_good_env Cascade ltac:(done)) as [H1 H2 _ H4 H5 _ _]. rewrite committed_env. split; try assumption.
  - intros id ts pk r E H. apply row_fit_b_ok. by eapply committed_fits.
  - intros id R pk r E Hr. unfold two_rows in E. apply lookup_insert_Some in E as [[<- <-]|[_ E]]; [|apply lookup_singleton_Some in E as [<- <-]];
      apply lookup_singleton_Some in Hr as [<- <-]; vm_compute; tauto.
  - intros fk pk r tx p tx' Hfk Es. destruct (sample_fk _ _ Hfk) as (_ & _ & Ea). congruence.
Qed.

(** The second transaction brings the first user back. *)
Definition second_tx : SampleTx :=
  let ms := sample_committed Cascade in (write (ms_env ms) (ms_blobs ms) (ms_world ms) 1 (user 1 10) false (begin ms).1).2.

Definition sample_twice : SampleStore := (commit second_tx 9 (begin (sample_committed Cascade)).2).2.

Lemma twice_session : session (sample_store Cascade) (sample_content Cascade) [(1, two_rows); (2, seen two_rows second_tx)] sample_twice (seen two_rows second_tx).
Proof.
  assert (txn (sample_store Cascade) (sample_content Cascade) 1 7 (seen (sample_content Cascade) (sample_tx Cascade 6)) (sample_committed Cascade)) as H1.
  { assert (exists diff, commit (sample_tx Cascade 6) 7 (begin (sample_store Cascade)).2 = (Ok diff, sample_committed Cascade) /\ diff_tx_id diff = 1) as (diff & E & Ed).
    { eexists. split; [unfold sample_committed; vm_compute; reflexivity|reflexivity]. }
    rewrite <- Ed.
    eapply Txn; [exact (sample_good_env Cascade ltac:(done))|exact (sample_steps Cascade 6 ltac:(lia) ltac:(done))|exact (sample_next Cascade)|reflexivity
      |exact (sample_room Cascade 6 ltac:(lia))|exact E]. }
  assert (seen (sample_content Cascade) (sample_tx Cascade 6) = two_rows) as E1 by (vm_compute; reflexivity). rewrite E1 in H1.
  assert (txn (sample_committed Cascade) two_rows 2 9 (seen two_rows second_tx) sample_twice) as H2.
  { assert (exists diff, commit second_tx 9 (begin (sample_committed Cascade)).2 = (Ok diff, sample_twice) /\ diff_tx_id diff = 2) as (diff & E & Ed).
    { eexists. split; [unfold sample_twice; vm_compute; reflexivity|reflexivity]. }
    rewrite <- Ed. eapply Txn; [exact committed_good_env| |vm_compute; reflexivity|vm_compute; reflexivity|apply room_b_ok; vm_compute; reflexivity|exact E].
    apply rtc_once, StepWrite. eapply sample_prepared; [vm_compute; reflexivity|vm_compute; tauto]. }
  exact (SessionTxn _ _ [(1, two_rows)] _ _ _ _ _ _ (SessionTxn _ _ [] _ _ _ _ _ _ (SessionStart _ _) H1) H2).
Qed.

(** As of the first transaction there is one user. *)
Lemma as_of_reads_witness : exists cs, snapshot_as_of sample_twice (AsOfTx 1) = Ok cs /\ reads (ms_world sample_twice) cs two_rows.
Proof.
  destruct (sample_holds Cascade) as [S H]. pose proof (as_of_reads _ _ _ _ _ _ _ 1 H ltac:(reflexivity) twice_session) as Hr.
  assert (is_ok (snapshot_as_of sample_twice (AsOfTx 1)) = true) as Hok by (vm_compute; reflexivity).
  destruct (snapshot_as_of sample_twice (AsOfTx 1)) as [cs|e]; [|discriminate Hok]. destruct Hr as (id & D & Hin & Hle & _ & Hr). exists cs. split; [reflexivity|].
  apply elem_of_cons in Hin as [E|Hin]; [injection E as -> ->; exact Hr|]. apply list_elem_of_singleton in Hin. injection Hin as -> _. lia.
Defined.
