(* ===== verification/Usage.v ===== *)
(** Readers, transactions and the pages they keep.

    [usage] interleaves snapshots that are taken and let go with committed
    transactions. Every page a commit supersedes is given back to the page file
    as soon as no version older than the commit is held: what the reclaimer still
    has pending is needed by some reader or by the temporal window. *)

From stdpp Require Import base list gmap sorting relations.
From Stdlib Require Import ZArith Lia.
From S2P Require Import Prelude FluxBin Row IndexKey TxState LogRecord PageFormat PagedTree PagedTreeNode PagedTreeRep PagedTreeWrite PagedTreeSpec KvTree TableState TableSpec Reclaim MemStore MergeSpec StoreSpec CommitSpec StoreBuild TxSpec RefSpec Transaction Sample StoreProps History.

(** * Collections leave nothing behind *)

(** Pages of a set of batches. *)
Definition page_count (g : gmap Z (list Page)) : nat := map_fold (fun _ l n => (length l + n)%nat) 0%nat g.

Lemma page_count_insert g k l : g !! k = None -> page_count (<[k := l]> g) = (length l + page_count g)%nat.
Proof. intros E. unfold page_count. rewrite map_fold_insert_L; [done|intros; lia|done]. Qed.

Lemma page_count_update g k l l' : g !! k = Some l -> (page_count (<[k := l']> g) + length l = page_count g + length l')%nat.
Proof.
  intros E. rewrite <- (insert_delete_id g k l E) at 2. rewrite <- insert_delete_eq. rewrite !page_count_insert by apply lookup_delete_eq. lia.
Qed.

Lemma page_count_split (P : Z -> Prop) `{forall k, Decision (P k)} g :
  page_count g = (page_count (filter (fun p : Z * list Page => P p.1) g) + page_count (filter (fun p : Z * list Page => ~ P p.1) g))%nat.
Proof.
  induction g as [|k l g Hk IH] using map_ind; [by rewrite !map_filter_empty|]. rewrite page_count_insert, IH by done.
  destruct (decide (P k)) as [Hp|Hp].
  - rewrite map_filter_insert_True, (map_filter_insert_not _ g) by (done || (simpl; tauto)). rewrite page_count_insert by (apply map_lookup_filter_None; by left). lia.
  - rewrite (map_filter_insert_not _ g k l) by (done || (simpl; tauto)). rewrite map_filter_insert_True by done. rewrite page_count_insert by (apply map_lookup_filter_None; by left). lia.
Qed.

Lemma page_count_values g : length (concat (btree_values g)) = page_count g.
Proof.
  unfold btree_values. rewrite (btree_entries_perm g). induction g as [|k l g Hk IH] using map_ind; [by rewrite map_to_list_empty|].
  rewrite (map_to_list_insert g k l Hk), fmap_cons. cbn [concat snd]. by rewrite length_app, IH, page_count_insert.
Qed.

(** What a collection establishes: only batches above the floor are pending,
    and they are counted. *)
Definition tidy (i : Inner) : Prop := (forall k l, garbage i !! k = Some l -> sat_add 64 (floor i) 1 <= k) /\
  pending_pages i = Z.of_nat (page_count (garbage i)).

Lemma floor_live i : floor i = u_max 64 \/ is_Some (live i !! floor i).
Proof.
  unfold floor. destruct (btree_keys (live i)) as [|k l] eqn:E; [by left|right]. simpl. apply elem_of_btree_keys. rewrite E. by left.
Qed.

Section collect.
Context {W T : Type} {KT : KvTree W T}.

Lemma collect_tidy i (w : W) : pending_pages i = Z.of_nat (page_count (garbage i)) -> tidy (collect_pages (i, w)).2.1.
Proof using Type.
  intros Hc. unfold collect_pages. destruct (free_pages (drained_pages i) w) as [r w']. simpl. split.
  - intros k l [_ Hk]%map_lookup_filter_Some. apply Z.nlt_ge in Hk. exact Hk.
  - cbn [pending_pages garbage]. unfold drained_pages. rewrite Hc, page_count_values. unfold sat_sub.
    pose proof (page_count_split (fun k => k < sat_add 64 (floor i) 1) (garbage i)) as Hs. change (page_count (garbage i) = (page_count (drained i) + page_count (kept i))%nat) in Hs. lia.
Qed.

Lemma unpin_tidy v i (w : W) : tidy i -> tidy (unpin v (i, w)).2.1.
Proof using Type. intros [_ Hc]. unfold unpin. by apply collect_tidy. Qed.

Lemma retire_tidy v pages i (w : W) : tidy i -> tidy (retire v pages (i, w)).2.1.
Proof using Type.
  intros [_ Hc]. unfold retire. destruct pages as [|p pages]; [by apply collect_tidy|]. apply collect_tidy. cbn [pending_pages garbage]. rewrite Hc.
  destruct (garbage i !! v) as [l|] eqn:E; simpl.
  - pose proof (page_count_update (garbage i) v l (l ++ p :: pages) E) as Hu. rewrite length_app in Hu. simpl in Hu. lia.
  - rewrite page_count_insert by done. simpl. lia.
Qed.
End collect.

Lemma pin_tidy v i : v <= u_max 64 -> tidy i -> tidy (pin v i).
Proof.
  intros Hv [Hg Hc]. split; [|done]. intros k l Hk. specialize (Hg k l Hk). assert (floor (pin v i) <= floor i); [|unfold sat_add in *; lia].
  destruct (floor_live i) as [E|Hl].
  - rewrite E. destruct (floor_live (pin v i)) as [->|Hl]; [done|]. etrans; [|exact Hv]. apply floor_le. simpl. rewrite lookup_insert_eq. by eexists.
  - apply floor_le. simpl. destruct (decide (floor i = v)) as [<-|]; [rewrite lookup_insert_eq; by eexists|by rewrite lookup_insert_ne].
Qed.

(** * Store operations *)

Section usage.
Context {W T X B : Type} {KT : KvTree W T} {KL : KvTreeLaws W T} {RC : RowCodec} {RL : RowCodecLaws}.
Context {SI : SideIndex W X} {SL : SideIndexLaws W T X} {BS : BlobStore B}.
Notation Store := (MemStore W T X B).
Notation versions := (gmap Z (VersionState T X)).

Definition prompt (ms : Store) : Prop := tidy (ms_reclaimer ms).

Lemma arc_drop_prompt v (ms : Store) : prompt ms -> prompt (arc_drop v ms).
Proof using Type.
  intros Hp. unfold arc_drop. cbv zeta. destruct (_ =? 0); [|done]. pose proof (unpin_tidy v (ms_reclaimer ms) (ms_world ms) Hp) as Ht.
  by destruct (unpin v _) as [r [i w]].
Qed.

Lemma drops_prompt l : forall ms : Store, prompt ms -> prompt (fold_left (fun ms (cs : CommittedState T X) => arc_drop (cs_version cs) ms) l ms).
Proof using Type. induction l as [|cs l IH]; intros ms Hp; [done|]. simpl. apply IH. by apply arc_drop_prompt. Qed.

Lemma retain_prompt id now cs (ms : Store) : prompt ms -> prompt (retain_in_temporal_window id now cs ms).
Proof using Type.
  intros Hp. unfold retain_in_temporal_window. destruct (_ =? 0)%nat; [by apply arc_drop_prompt|].
  destruct (trim_count _ _) as [h d]. destruct (trim_bytes ms h) as [h' d']. by apply drops_prompt.
Qed.

Lemma publish_prompt tabs superseded (ms : Store) : prompt ms -> next_version (ms_writer ms) <= u_max 64 -> prompt (publish tabs superseded ms).2.
Proof using Type.
  intros Hp Hn. unfold publish, publish_versioned. set (ms1 := arc_drop _ _). assert (prompt ms1) as H1 by (apply arc_drop_prompt; by apply pin_tidy).
  pose proof (retire_tidy (next_version (ms_writer ms)) superseded (ms_reclaimer ms1) (ms_world ms1) H1) as Ht. cbn [cs_version].
  destruct (retire _ _ _) as [[u|e] [i w]]; [done|]. by apply arc_drop_prompt.
Qed.

Lemma commit_prompt tx now (ms : Store) : prompt ms -> next_version (tx_writer tx) <= u_max 64 -> prompt (commit tx now ms).2.
Proof using Type.
  intros Hp Hn. unfold commit. destruct (fold_each _ _ _ _) as [[[tabs diffs]|e] [w sup]]; [|by apply arc_drop_prompt].
  destruct (publish_marks _ _ _) as [[tabs' marks]|e]; [|by apply arc_drop_prompt].
  match goal with |- context [publish tabs' sup ?m] => pose proof (publish_prompt tabs' sup m Hp Hn) as H1; destruct (publish tabs' sup m) as [[cs|e] ms1] end;
    [|by apply arc_drop_prompt].
  cbn [snd] in *. apply arc_drop_prompt. set (ms2 := retain_in_temporal_window _ _ _ _). assert (prompt ms2) as H2 by by apply retain_prompt.
  by destruct (ms_blobs ms2).
Qed.

(** ** Interleavings *)

(** Snapshots taken and let go, and transactions, from [ms0] on; [rd] counts
    the snapshots of each version. *)
Inductive usage (ms0 : Store) (C0 : contents) : Store -> (Z -> Z) -> contents -> Prop :=
  | UsageStart : usage ms0 C0 ms0 (fun _ => 0) C0
  | UsageRead ms rd C : usage ms0 C0 ms rd C -> usage ms0 C0 (arc_clone (cs_version (ms_committed ms)) ms) (add_rd (cs_version (ms_committed ms)) 1 rd) C
  | UsageDone ms rd C v : usage ms0 C0 ms rd C -> 0 < rd v -> usage ms0 C0 (arc_drop v ms) (add_rd v (-1) rd) C
  | UsageTxn ms rd C id now C' ms' : usage ms0 C0 ms rd C -> txn ms C id now C' ms' -> usage ms0 C0 ms' rd C'.

Lemma usage_inv (ms0 : Store) S0 C0 ms rd C : holds ms0 (fun _ => 0) S0 C0 -> cs_version (ms_committed ms0) < u_max 64 -> prompt ms0 ->
  usage ms0 C0 ms rd C -> (exists S, holds ms rd S C) /\ cs_version (ms_committed ms) < u_max 64 /\ prompt ms.
Proof using RL SL.
  intros H0 V0 P0. induction 1 as [|ms rd C _ [[S (I & Hm & fs & HS)] [V P]]|ms rd C v _ [[S (I & Hm & fs & HS)] [V P]] Hv|ms rd C id now C' ms' _ [[S H] [V P]] Ht].
  - split; [by exists S0|done].
  - split; [|done]. exists S. split; [apply arc_clone_inv; [done|by eexists]|]. split; [done|]. by exists fs.
  - pose proof (arc_drop_prompt v ms P) as P'. destruct (arc_drop_inv ms rd S v I Hv) as (i & w & arcs & S' & E & I' & Hsub & _). rewrite E in P' |- *.
    split; [|by split]. exists S'. split; [done|]. split; [done|].
    exists fs. destruct (si_current _ _ _ I') as (s & Es & _). simpl in *. rewrite Es. pose proof (lookup_weaken _ _ _ _ Es Hsub) as Hw. congruence.
  - destruct Ht as [Good tx now0 diff ms1 GE Hst Hn Hid Hr E].
    destruct (commit_holds ms rd S C Good tx now0 H GE Hst Hn Hr) as (diff' & ms' & S' & E' & H' & _ & _ & _ & Ev & _). rewrite E in E'. injection E' as _ <-.
    split; [by exists S'|]. split; [by rewrite Ev|].
    destruct H as (I & Hm & fs & HS). destruct (begin_spec ms rd S C fs I HS) as (_ & Htx & Hseen & Eb & _ & Ew & _).
    destruct (steps_good _ _ _ _ fs _ _ GE _ _ Hst) as [_ (_ & _ & F3 & _)].
    { split; [done|done|]. rewrite Hseen. by eapply (ge_base _ _ _ _ _ _ GE). }
    replace ms1 with (commit tx now0 (begin ms).2).2 by (by rewrite E). apply commit_prompt; [done|]. rewrite F3, Ew. lia.
Qed.

(** C9: superseded pages are given back promptly: at every point of any interleaving of
    snapshots and transactions, each batch of pages still waiting in the
    reclaimer belongs to a commit newer than some version that a snapshot or the
    temporal window holds; when nothing is held but the current version, nothing
    waits and the pending count is zero. *)
Theorem pages_reclaimed (ms0 : Store) S0 C0 ms rd C : holds ms0 (fun _ => 0) S0 C0 -> cs_version (ms_committed ms0) < u_max 64 ->
  garbage (ms_reclaimer ms0) = ∅ -> pending_pages (ms_reclaimer ms0) = 0 -> usage ms0 C0 ms rd C ->
  (forall k l, garbage (ms_reclaimer ms) !! k = Some l -> exists v, v < k /\ (0 < rd v \/ 0 < window_count v (ms_history ms))) /\
  ((forall v, rd v = 0) -> ms_history ms = [] -> garbage (ms_reclaimer ms) = ∅ /\ rp_pages (pending (ms_reclaimer ms)) = 0).
Proof using RL SL.
  intros H0 V0 Eg Ep Hu. assert (prompt ms0) as P0 by (split; rewrite Eg; [done|by rewrite Ep]).
  destruct (usage_inv ms0 S0 C0 ms rd C H0 V0 P0 Hu) as [[S (I & _ & fs & HS)] [V [Hg Hp]]].
  assert (forall k l, garbage (ms_reclaimer ms) !! k = Some l -> exists v, v < k /\ (0 < rd v \/ 0 < window_count v (ms_history ms))) as Hheld.
  { intros k l Hk. specialize (Hg k l Hk). destruct (si_garbage _ _ _ I k l Hk) as (Hle & _). set (i := ms_reclaimer ms) in *. set (cur := cs_version (ms_committed ms)) in *.
    assert (is_Some (S !! cur)) as Hcur by by eexists.
    assert (is_Some (live i !! cur)) as Hl by (unfold i; rewrite (si_live _ _ _ I); apply fmap_is_Some, (si_dom _ _ _ I), Hcur).
    pose proof (floor_le i cur Hl) as Hfl. pose proof (si_next _ _ _ I cur Hcur) as Hnx.
    destruct (floor_live i) as [E|Hf]; [rewrite E in Hfl; unfold cur in Hfl; lia|]. exists (floor i).
    assert (floor i < k) as Hlt by (unfold sat_add in Hg; lia). split; [done|].
    unfold i in Hf at 1. rewrite (si_live _ _ _ I) in Hf. apply fmap_is_Some in Hf as [n En]. pose proof (si_pos _ _ _ I _ _ En) as Hn.
    pose proof (si_arcs _ _ _ I (floor i)) as Ha. unfold i in Ha at 1. rewrite En in Ha. simpl in Ha. unfold one_if in Ha. destruct (decide _) as [E|]; [unfold cur in *; lia|].
    pose proof (si_readers _ _ _ I (floor i)). lia. }
  split; [done|]. intros Hrd Hh. assert (garbage (ms_reclaimer ms) = ∅) as E.
  { apply map_empty. intros k. destruct (garbage (ms_reclaimer ms) !! k) as [l|] eqn:Ek; [|done].
    destruct (Hheld k l Ek) as (v & _ & [Hv|Hv]); [rewrite Hrd in Hv; lia|]. rewrite Hh in Hv. simpl in Hv. lia. }
  split; [done|]. simpl. rewrite Hp, E. done.
Qed.
End usage.

(** * Witness *)

(** The sample transaction runs while a reader holds the first version. *)
Lemma read_usage : usage (sample_store Cascade) (sample_content Cascade) (commit (sample_tx Cascade 6) 7 (begin (read_store Cascade)).2).2
  (add_rd 0 1 (fun _ => 0)) (seen (sample_content Cascade) (sample_tx Cascade 6)).
Proof.
  apply (UsageTxn _ _ (read_store Cascade) _ (sample_content Cascade) 1 7).
  - exact (UsageRead _ _ _ _ _ (UsageStart _ _)).
  - assert (exists diff ms', commit (sample_tx Cascade 6) 7 (begin (read_store Cascade)).2 = (Ok diff, ms') /\ diff_tx_id diff = 1) as (diff & ms' & E & Ed).
    { eexists _, _. split; [vm_compute; reflexivity|reflexivity]. }
    rewrite E, <- Ed. eapply Txn; [exact (sample_good_env Cascade ltac:(done))|exact (sample_steps Cascade 6 ltac:(lia) ltac:(done))|exact (sample_next Cascade)|reflexivity
      |exact (sample_room Cascade 6 ltac:(lia))|exact E].
Qed.

Lemma pages_reclaimed_witness : exists l v, garbage (ms_reclaimer (commit (sample_tx Cascade 6) 7 (begin (read_store Cascade)).2).2) !! 1 = Some l /\ l <> [] /\
  v < 1 /\ (0 < add_rd 0 1 (fun _ => 0) v \/ 0 < window_count v (ms_history (commit (sample_tx Cascade 6) 7 (begin (read_store Cascade)).2).2)).
Proof.
  destruct (sample_holds Cascade) as [S H].
  pose proof (proj1 (pages_reclaimed (sample_store Cascade) S (sample_content Cascade) _ _ _ H ltac:(reflexivity) ltac:(reflexivity) ltac:(reflexivity) read_usage)) as Hg.
  assert (exists l, garbage (ms_reclaimer (commit (sample_tx Cascade 6) 7 (begin (read_store Cascade)).2).2) !! 1 = Some l /\ l <> []) as (l & El & Hne).
  { eexists. split; [vm_compute; reflexivity|done]. }
  destruct (Hg 1 l El) as (v & Hv & Hheld). exists l, v. split; [exact El|]. split; [exact Hne|]. split; [exact Hv|exact Hheld].
Defined.
