(* ===== verification/StoreBounds.v ===== *)
(** Bounds of the store: auto-increment ids and the temporal window. *)

From stdpp Require Import base list gmap sorting relations.
From Stdlib Require Import ZArith Lia.
From S2P Require Import Prelude FluxBin Row IndexKey TxState LogRecord PageFormat PagedTree PagedTreeNode PagedTreeRep PagedTreeWrite PagedTreeSpec KvTree TableState TableSpec Reclaim MemStore MergeSpec StoreSpec CommitSpec StoreBuild TxSpec RefSpec WriteSpec Transaction Sample StoreProps History.

(** * Auto-increment

    A counter hands out [next] and keeps a mark it may reach without publishing
    again; the mark is published with the next commit after it moved. *)

Record counter_ok (c : AutoIncCounter) : Prop := {
  co_next : 1 <= next c <= u_max 64;
  co_high : 0 <= high_water c;
  co_reach : next c <= high_water c + 1;
}.

(** [v] was used and is behind the counter. *)
Definition behind (c : AutoIncCounter) (v : Z) : Prop := v <= high_water c /\ (v < next c \/ u_max 64 <= v).

Lemma allocate_ok step c a adv c' : 1 <= step -> counter_ok c -> allocate step c = ((a, adv), c') ->
  counter_ok c' /\ behind c' a /\ (forall v, behind c v -> behind c' v) /\ (adv = false -> high_water c' = high_water c).
Proof.
  intros Hs [H1 H2 H3] E. unfold allocate in E. injection E as <- <- <-. unfold behind.
  destruct (Z.ltb_spec (high_water c) (next c)); (split_and!; [split|..]); cbn [next high_water]; unfold sat_add in *; try lia; try done; intros; lia.
Qed.

Lemma observe_ok v c adv c' : counter_ok c -> observe_explicit v c = (adv, c') ->
  counter_ok c' /\ behind c' v /\ (forall v, behind c v -> behind c' v) /\ (adv = false -> high_water c' = high_water c).
Proof.
  intros [H1 H2 H3] E. unfold observe_explicit in E. unfold behind.
  destruct (Z.leb_spec (next c) v), (Z.ltb_spec (high_water c) v); injection E as <- <-; (split_and!; [split|..]); cbn [next high_water]; unfold sat_add in *; try lia; try done; intros; lia.
Qed.

(** A counter resumed from a published mark. *)
Lemma resumed_ok m : 0 <= m -> let c := {| next := sat_add 64 m 1; high_water := m |} in counter_ok c /\ forall v, v <= m -> behind c v.
Proof. intros Hm c. unfold c, behind. split; [split|intros v Hv]; cbn [next high_water]; unfold sat_add, u_max; lia. Qed.

Section counting.
Context {T X : Type}.

(** ** Within a transaction *)

(** What the calls of a transaction do to the counters: a mark that moved is
    noted for publication. *)
Definition counts (tx tx' : Tx T X) : Prop := (forall id, counter_ok (counter_of (tx_writer tx) id)) ->
  (forall id, counter_ok (counter_of (tx_writer tx') id)) /\
  (forall id v, behind (counter_of (tx_writer tx) id) v -> behind (counter_of (tx_writer tx') id) v) /\
  high_water_dirty (tx_writer tx) ⊆ high_water_dirty (tx_writer tx') /\
  (forall id, id ∉ high_water_dirty (tx_writer tx') -> high_water (counter_of (tx_writer tx') id) = high_water (counter_of (tx_writer tx) id)).

#[global] Instance counts_preorder : PreOrder counts.
Proof using Type.
  split; [by intros a Ha|]. intros a b c Hab Hbc Ha. destruct (Hab Ha) as (Hb & A1 & A2 & A3). destruct (Hbc Hb) as (Hc & B1 & B2 & B3).
  split_and!; [done|auto|set_solver|]. intros id Hid. rewrite B3 by done. apply A3. set_solver.
Qed.

Lemma set_counter_counts id c adv (tx : Tx T X) : counter_ok c ->
  (forall v, behind (counter_of (tx_writer tx) id) v -> behind c v) -> (adv = false -> high_water c = high_water (counter_of (tx_writer tx) id)) ->
  counts tx (set_counter id c adv tx).2.
Proof using Type.
  intros Hc Hb Hh Hok. unfold counter_of in *. simpl. split_and!.
  - intros k. destruct (decide (k = id)) as [->|]; [by rewrite lookup_insert_eq|rewrite lookup_insert_ne by done; apply Hok].
  - intros k v. destruct (decide (k = id)) as [->|]; [rewrite lookup_insert_eq; apply Hb|by rewrite lookup_insert_ne].
  - destruct adv; set_solver.
  - intros k Hk. destruct (decide (k = id)) as [->|]; [|by rewrite lookup_insert_ne]. rewrite lookup_insert_eq. apply Hh. destruct adv; [set_solver|done].
Qed.

Lemma counts_assign env id info values (tx : Tx T X) : 1 <= auto_inc_allocation_step (options env) -> counts tx (assign_auto_inc env id info values tx).2.
Proof using Type.
  intros Hs Hok. apply (assign_cases env (fun tx' => counts tx tx')); [done| |done]. intros c adv c0 Hc.
  pose proof (Hok id) as H0. fold (counter_of (tx_writer tx) id) in c0.
  destruct Hc as [[a E]|[v E]]; [destruct (allocate_ok _ _ _ _ _ Hs H0 E) as (? & _ & ? & ?)|destruct (observe_ok _ _ _ _ H0 E) as (? & _ & ? & ?)]; by apply set_counter_counts.
Qed.

End counting.

Section numbering.
Context {W T X B : Type} {KT : KvTree W T} {KL : KvTreeLaws W T} {RC : RowCodec} {RL : RowCodecLaws}.
Context {SI : SideIndex W X} {SL : SideIndexLaws W T X} {BS : BlobStore B}.
Notation Store := (MemStore W T X B).

Lemma write_counts env blobs w id values replace (tx : Tx T X) : 1 <= auto_inc_allocation_step (options env) -> counts tx (write env blobs w id values replace tx).2.
Proof using Type. intros Hs. apply fr_write; try done; [apply counts_preorder|]. intros. by apply counts_assign. Qed.

Lemma steps_counts env blobs w C Good (tx tx' : Tx T X) : 1 <= auto_inc_allocation_step (options env) -> rtc (tx_step env blobs w C Good) tx tx' -> counts tx tx'.
Proof using Type.
  intros Hs. induction 1 as [tx|tx tx1 tx2 H1 _ IH]; [done|]. etrans; [|exact IH].
  destruct H1; [by apply write_counts|]. apply fr_delete_row; try done; [apply counts_preorder|]. intros. by apply counts_assign.
Qed.

(** The id of a numbered row is behind the counter. *)
Lemma assign_behind env id info idx values v (tx tx' : Tx T X) : 1 <= auto_inc_allocation_step (options env) -> counter_ok (counter_of (tx_writer tx) id) ->
  ti_auto_inc info = Some idx -> assign_auto_inc env id info values tx = (Ok v, tx') ->
  exists n, v !! idx = Some (RowValue.U64 n) /\ behind (counter_of (tx_writer tx') id) n.
Proof using Type.
  intros Hs Hok Ei. unfold assign_auto_inc. rewrite Ei. destruct (values !! idx) as [[]|] eqn:Ev; try done. fold (counter_of (tx_writer tx) id).
  match goal with |- context [Z.eqb ?m 0] => destruct (Z.eqb_spec m 0) as [->|Hn] end.
  - destruct (allocate _ _) as [[a adv] c] eqn:E. destruct (allocate_ok _ _ _ _ _ Hs Hok E) as (_ & Hb & _). cbn. intros [= <- <-]. exists a.
    split; [apply list_lookup_insert_eq; by eapply lookup_lt_Some|]. unfold counter_of. simpl. by rewrite lookup_insert_eq.
  - destruct (observe_explicit _ _) as [adv c] eqn:E. destruct (observe_ok _ _ _ _ Hok E) as (_ & Hb & _). cbn. intros [= <- <-]. eexists. split; [done|].
    unfold counter_of. simpl. by rewrite lookup_insert_eq.
Qed.

Lemma prepare_behind env blobs w C fs id info idx values pk v (tx tx1 : Tx T X) : 1 <= auto_inc_allocation_step (options env) ->
  counter_ok (counter_of (tx_writer tx) id) -> tx_inv w tx C fs -> transforms env = None -> catalog env !! id = Some info -> ti_auto_inc info = Some idx ->
  prepare env blobs w id values tx = (Ok (pk, v), tx1) -> exists n, v !! idx = Some (RowValue.U64 n) /\ behind (counter_of (tx_writer tx1) id) n.
Proof using RL.
  intros Hs Hok I Htr Ecat Ei. unfold prepare. intros E. apply sm_bind_ok in E as (info' & s1 & E1 & E).
  unfold sm_lift, schema_of in E1. rewrite Ecat in E1. injection E1 as <- <-.
  apply sm_bind_ok in E as ([] & s1 & E1 & E). unfold global_guard, guard in E1. destruct (negb _); [|done]. injection E1 as <-.
  apply sm_bind_ok in E as (v1 & s2 & E1 & E). injection E1 as _ <-. apply sm_bind_ok in E as (u2 & s3 & E2 & E). injection E2 as _ <-.
  apply sm_bind_ok in E as (u3 & s4 & E3 & E). injection E3 as _ <-. apply sm_bind_ok in E as (ts & s5 & E4 & E).
  unfold base_table, cs_table in E4. destruct (cs_tables (tx_base tx) !! id) as [ts'|] eqn:Ets; [|done]. injection E4 as -> <-.
  destruct (tables_is_get _ _ _ _ _ _ (ti_tables _ _ _ _ I) Ets) as (R & f & _ & _ & (? & ? & ? & _ & _ & _ & _ & Esp & _) & _). rewrite Esp in E.
  apply sm_bind_ok in E as (u4 & s6 & E5 & E). injection E5 as _ <-. apply sm_bind_ok in E as (v2 & s7 & E6 & E).
  destruct (assign_behind _ _ _ _ _ _ _ _ Hs Hok Ei E6) as (n & En & Hb). pose proof (assign_spec env id info v1 tx) as Ha. rewrite E6 in Ha. destruct Ha as (_ & Eb & Es).
  destruct (keeps_inv w tx s7 C fs Eb (f_equal tables Es) I) as [I7 _]. apply sm_bind_ok in E as (u5 & s8 & E7 & E).
  pose proof (constraints_spec env w C fs id v2 s7 I7) as Hc. rewrite E7 in Hc. destruct Hc as [-> _].
  apply sm_bind_ok in E as (pk' & s9 & E8 & E). injection E8 as _ <-. apply sm_bind_ok in E as (v3 & s10 & E9 & E).
  unfold seal in E9. rewrite Htr in E9. injection E9 as <- <-. injection E as _ <- <-. by exists n.
Qed.

(** ** Across transactions and restarts *)

(** Every mark that is not waiting to be published covers its counter. *)
Record counted (ms : Store) : Prop := {
  cn_counter id : counter_ok (counter_of (ms_writer ms) id);
  cn_schema id ts : cs_tables (ms_committed ms) !! id = Some ts -> catalog (ms_env ms) !! id = Some (schema ts);
  cn_mark id ts : cs_tables (ms_committed ms) !! id = Some ts -> 0 <= auto_inc_high_water ts;
  cn_saved id ts idx : cs_tables (ms_committed ms) !! id = Some ts -> ti_auto_inc (schema ts) = Some idx -> id ∉ high_water_dirty (ms_writer ms) ->
    high_water (counter_of (ms_writer ms) id) <= auto_inc_high_water ts;
}.

(** The id [v] of table [id] is taken: it lies within the published mark and
    behind the running counter. *)
Definition used (ms : Store) (id : TableId) (v : Z) : Prop := exists ts idx, cs_tables (ms_committed ms) !! id = Some ts /\
  ti_auto_inc (schema ts) = Some idx /\ v <= auto_inc_high_water ts /\ behind (counter_of (ms_writer ms) id) v.

Definition keeps_used (ms ms' : Store) : Prop := forall id v, used ms id v -> used ms' id v.

(** The next automatic id of a table is larger than every taken one. *)
Definition numbers_fresh (ms : Store) : Prop := forall id info idx values v, catalog (ms_env ms) !! id = Some info -> ti_auto_inc info = Some idx ->
  values !! idx = Some (RowValue.U64 0) -> used ms id v -> v < u_max 64 ->
  exists n r tx, assign_auto_inc (ms_env ms) id info values (begin ms).1 = (Ok r, tx) /\ r !! idx = Some (RowValue.U64 n) /\ v < n <= u_max 64.

(** [ms2] is a store started on tables recovered with the schemas and published
    marks of [ms]. *)
Definition restarted (ms ms2 : Store) : Prop := exists ms0 tabs next_tx, install_recovered tabs next_tx ms0 = (Ok tt, ms2) /\
  (forall id, counter_ok (counter_of (ms_writer ms0) id)) /\
  (forall id, catalog (ms_env ms0) !! id = catalog (ms_env ms) !! id) /\
  forall id, (fun ts => (schema ts, auto_inc_high_water ts)) <$> tabs !! id =
    (fun ts => (schema ts, auto_inc_high_water ts)) <$> cs_tables (ms_committed ms) !! id.

Lemma counted_fresh (ms : Store) : counted ms -> numbers_fresh ms.
Proof using Type.
  intros Hc id info idx values v _ Ei Ev (_ & _ & _ & _ & _ & _ & Hb) Hv. unfold assign_auto_inc. rewrite Ei, Ev. simpl.
  fold (counter_of (ms_writer ms) id). eexists _, _, _. split; [reflexivity|].
  split; [apply list_lookup_insert_eq; by eapply lookup_lt_Some|]. destruct (cn_counter _ Hc id) as [Hn _ _]. lia.
Qed.

Lemma arc_drop_frame v (ms : Store) : ms_writer (arc_drop v ms) = ms_writer ms /\ ms_committed (arc_drop v ms) = ms_committed ms /\ ms_env (arc_drop v ms) = ms_env ms.
Proof using Type. unfold arc_drop. cbv zeta. destruct (_ =? 0); [|done]. by destruct (unpin v _) as [r [i w]]. Qed.

(** A restart resumes every counter behind its published mark. *)
Lemma restart_counted (ms ms2 : Store) : counted ms -> restarted ms ms2 -> counted ms2 /\ keeps_used ms ms2.
Proof using Type.
  intros Hc (ms0 & tabs & next_tx & E & Hok & Hcat & Hsame). unfold install_recovered in E.
  destruct (next_tx =? 0); [done|]. destruct (negb (bool_decide _)); [done|]. destruct (negb _); [done|]. unfold publish_versioned in E. cbv zeta in E. injection E as <-.
  assert (forall id ts, tabs !! id = Some ts -> exists ts0, cs_tables (ms_committed ms) !! id = Some ts0 /\ schema ts0 = schema ts /\ auto_inc_high_water ts0 = auto_inc_high_water ts) as Hback.
  { intros id ts Ets. specialize (Hsame id). rewrite Ets in Hsame. destruct (cs_tables (ms_committed ms) !! id) as [ts0|]; [|done]. injection Hsame as E1 E2. by exists ts0. }
  assert (forall id ts idx, tabs !! id = Some ts -> ti_auto_inc (schema ts) = Some idx ->
    default counter_new (resume_counters tabs (counters (ms_writer ms0)) !! id) = {| next := sat_add 64 (auto_inc_high_water ts) 1; high_water := auto_inc_high_water ts |}) as Hres.
  { intros id ts idx Ets Ei. unfold resume_counters. rewrite lookup_union, lookup_omap, Ets. simpl. rewrite Ei. by rewrite union_Some_l. }
  split.
  - split; unfold counter_of; rewrite ?(proj1 (arc_drop_frame _ _)), ?(proj1 (proj2 (arc_drop_frame _ _))), ?(proj2 (proj2 (arc_drop_frame _ _))); cbn.
    + intros id. destruct (tabs !! id) as [ts|] eqn:Ets; [destruct (ti_auto_inc (schema ts)) as [idx|] eqn:Ei|].
      * rewrite (Hres id ts idx Ets Ei). refine (proj1 (resumed_ok _ _)). destruct (Hback id ts Ets) as (ts0 & E0 & _ & <-). by apply (cn_mark _ Hc id).
      * unfold resume_counters. rewrite lookup_union, lookup_omap, Ets. simpl. rewrite Ei. pose proof (Hok id) as Hid. unfold counter_of in Hid. by destruct (counters (ms_writer ms0) !! id).
      * unfold resume_counters. rewrite lookup_union, lookup_omap, Ets. simpl. pose proof (Hok id) as Hid. unfold counter_of in Hid. by destruct (counters (ms_writer ms0) !! id).
    + intros id ts Ets. rewrite Hcat. destruct (Hback id ts Ets) as (ts0 & E0 & <- & _). by apply (cn_schema _ Hc).
    + intros id ts Ets. destruct (Hback id ts Ets) as (ts0 & E0 & _ & <-). by apply (cn_mark _ Hc id).
    + intros id ts idx Ets Ei _. by rewrite (Hres id ts idx Ets Ei).
  - intros id v (ts & idx & Ets & Ei & Hm & _). specialize (Hsame id). rewrite Ets in Hsame. destruct (tabs !! id) as [ts2|] eqn:Ets2; [|done].
    injection Hsame as E1 E2. exists ts2, idx. unfold counter_of. rewrite !(proj1 (proj2 (arc_drop_frame _ _))), !(proj1 (arc_drop_frame _ _)). cbn.
    split; [done|]. split; [congruence|]. split; [by rewrite E2|]. rewrite (Hres id ts2 idx Ets2 ltac:(congruence)). refine (proj2 (resumed_ok _ _) v _); rewrite E2; [by apply (cn_mark _ Hc id)|done].
Qed.

(** A commit publishes the marks that moved. *)
Lemma commit_counted (ms : Store) rd S C Good tx now : holds ms rd S C -> counted ms -> 1 <= auto_inc_allocation_step (options (ms_env ms)) ->
  good_env (ms_env ms) (ms_blobs ms) (ms_world ms) C (ms_committed ms) Good ->
  rtc (tx_step (ms_env ms) (ms_blobs ms) (ms_world ms) C Good) (begin ms).1 tx ->
  next_version (ms_writer ms) < u_max 64 -> kt_room (merge_run tx (begin ms).2).2.1 ->
  exists diff ms', commit tx now (begin ms).2 = (Ok diff, ms') /\ counted ms' /\ keeps_used ms ms' /\
    forall id info idx v, is_Some (cs_tables (ms_committed ms) !! id) -> catalog (ms_env ms) !! id = Some info -> ti_auto_inc info = Some idx ->
      behind (counter_of (tx_writer tx) id) v -> used ms' id v.
Proof using RL SL.
  intros (I & Hm & fs & HS) Hc Hs GE Hst Hn Hr. destruct (steps_counts _ _ _ _ _ _ _ Hs Hst (cn_counter _ Hc)) as (Hok & Hbk & Hsub & Hhw). cbn [begin fst tx_writer] in Hbk, Hsub, Hhw.
  destruct (transaction_spec ms rd S C fs Good tx now I Hm HS GE Hst Hn Hr) as (tabs & fs' & ms' & S' & E & _ & _ & Ec & _ & _ & _ & En & _ & _ & Ectr & Hmark).
  assert (forall id, counter_of (ms_writer ms') id = counter_of (tx_writer tx) id) as Ecn by (intros id; unfold counter_of; by rewrite Ectr).
  assert (forall id, table_mark (counters (tx_writer tx)) id = high_water (counter_of (tx_writer tx) id)) as Etm
    by (intros id; unfold table_mark, counter_of; by destruct (counters (tx_writer tx) !! id)).
  assert (forall id ts', tabs !! id = Some ts' -> exists ts, cs_tables (ms_committed ms) !! id = Some ts /\ schema ts' = schema ts /\ 0 <= auto_inc_high_water ts' /\
    forall idx, ti_auto_inc (schema ts) = Some idx -> high_water (counter_of (tx_writer tx) id) <= auto_inc_high_water ts') as Hback.
  { intros id ts' Ets'. specialize (Hmark id). rewrite Ets' in Hmark. destruct (cs_tables (ms_committed ms) !! id) as [ts|] eqn:Ets; [|done]. destruct Hmark as (Esc & Hd & Hnd).
    exists ts. split; [done|]. split; [done|]. destruct (decide (id ∈ high_water_dirty (tx_writer tx))) as [Hin|Hout].
    - rewrite (Hd Hin), Etm. split; [apply Hok|intros; lia].
    - rewrite (Hnd Hout). split; [by apply (cn_mark _ Hc id)|]. intros idx Ei. rewrite Hhw by done. apply (cn_saved _ Hc id ts idx Ets Ei). set_solver. }
  assert (forall id v ts idx, cs_tables (ms_committed ms) !! id = Some ts -> ti_auto_inc (schema ts) = Some idx -> behind (counter_of (tx_writer tx) id) v -> used ms' id v) as Hused.
  { intros id v ts idx Ets Ei Hb. specialize (Hmark id). rewrite Ets in Hmark. destruct (tabs !! id) as [ts'|] eqn:Ets'; [|done]. destruct Hmark as (Esc & _).
    destruct (Hback id ts' Ets') as (ts0 & E0 & _ & _ & Hle). assert (ts0 = ts) as -> by congruence.
    exists ts', idx. rewrite Ec, Ecn. split; [done|]. split; [congruence|]. split; [|done]. destruct Hb as [Hb _]. specialize (Hle idx Ei). lia. }
  eexists _, ms'. split; [exact E|]. split_and!.
  - split; intros id; rewrite ?Ec, ?Ecn, ?En; cbn [cs_tables]; [apply Hok|..].
    + intros ts' Ets'. destruct (Hback id ts' Ets') as (ts & Ets & Esc & _). rewrite Esc. by apply (cn_schema _ Hc).
    + intros ts' Ets'. by destruct (Hback id ts' Ets') as (ts & _ & _ & Hpos & _).
    + intros ts' idx Ets' Ei _. destruct (Hback id ts' Ets') as (ts & _ & Esc & _ & Hle). apply (Hle idx). congruence.
  - intros id v (ts & idx & Ets & Ei & _ & Hb). by eapply Hused; [..|apply Hbk].
  - intros id info idx v [ts Ets] Ecat Ei Hb. eapply (Hused id v ts idx Ets); [|done]. pose proof (cn_schema _ Hc id ts Ets). congruence.
Qed.

(** A write that succeeds leaves the id of its row behind the counter. *)
Lemma write_behind (ms : Store) C fs Good tx id info idx values replace stored tx2 : 1 <= auto_inc_allocation_step (options (ms_env ms)) ->
  good_env (ms_env ms) (ms_blobs ms) (ms_world ms) C (ms_committed ms) Good -> tx_good (ms_world ms) C fs (ms_committed ms) Good tx ->
  counter_ok (counter_of (tx_writer tx) id) -> catalog (ms_env ms) !! id = Some info -> ti_auto_inc info = Some idx ->
  (forall p tx1, prepare (ms_env ms) (ms_blobs ms) (ms_world ms) id values tx = (Ok p, tx1) -> Good id p.1 p.2) ->
  write (ms_env ms) (ms_blobs ms) (ms_world ms) id values replace tx = (Ok stored, tx2) ->
  is_Some (cs_tables (ms_committed ms) !! id) /\ exists v, stored !! idx = Some (RowValue.U64 v) /\ behind (counter_of (tx_writer tx2) id) v.
Proof using RL.
  intros Hs GE [I Eb _] Hok Ecat Ei Hgood Ew.
  destruct (prepare (ms_env ms) (ms_blobs ms) (ms_world ms) id values tx) as [[[pk r]|e] tx1] eqn:Ep.
  2: { unfold write in Ew. unfold mbind at 1, sm_bind at 1 in Ew. by rewrite Ep in Ew. }
  destruct (prepare_behind _ _ _ _ _ _ _ _ _ _ _ _ _ Hs Hok I (ge_transforms _ _ _ _ _ _ GE) Ecat Ei Ep) as (n & En & Hb).
  destruct (prepare_ok _ _ _ _ _ _ _ _ _ _ _ I (ge_transforms _ _ _ _ _ _ GE) Ep) as (_ & ts & R & _ & Hat & _). pose proof Hat as [Ets _]. rewrite Eb in Ets.
  split; [by eexists|]. destruct (ge_row _ _ _ _ _ _ GE id ts pk r Ets (Hgood (pk, r) tx1 eq_refl)) as [Hrow Hpl].
  pose proof (write_spec _ _ _ tx C fs id ts R values replace pk r tx1 I Hat Ep Hrow Hpl) as Hw. rewrite Ew in Hw.
  inversion Hw as [| |st tx' _ _ Hst _ _ _ Ewr _ Heq]; subst st tx'. rewrite Ewr. exists n. split; [|done].
  destruct Hst as [->|[_ Heq]]; [done|]. clear -En Heq. revert stored idx En Heq. induction r as [|x r IH]; intros [|y l] [|i] En Heq; try done; simpl in *.
  - injection En as ->. apply andb_true_iff in Heq as [Heq _]. destruct y; cbn [value_eq] in Heq; try discriminate Heq.
    2: by destruct v. apply Z.eqb_eq in Heq. by subst.
  - apply andb_true_iff in Heq as [_ Heq]. by apply IH.
Qed.

(** C29: automatic ids are never used twice below the top of [u64]. Take any call of
    a transaction that stores a row with an automatic id, assigned or given by
    the caller, and let the transaction go on and commit. The id [v] of the row is then taken:
    the published mark covers it and the running counter is past it. Ids taken
    before stay taken. And the next id assigned is larger than every id taken, by the
    store as it runs on ([begin]) as well as by one that is started again on tables recovered
    with the published marks, whose counters are resumed ([install_recovered]);
    there too the taken ids stay taken. A store whose counters are new or resumed starts this
    way ([counted]). *)
Theorem auto_inc_fresh (ms : Store) rd S C Good tx1 id info idx values replace stored tx2 tx now : holds ms rd S C -> counted ms ->
  1 <= auto_inc_allocation_step (options (ms_env ms)) ->
  good_env (ms_env ms) (ms_blobs ms) (ms_world ms) C (ms_committed ms) Good ->
  catalog (ms_env ms) !! id = Some info -> ti_auto_inc info = Some idx ->
  rtc (tx_step (ms_env ms) (ms_blobs ms) (ms_world ms) C Good) (begin ms).1 tx1 ->
  (forall p tx', prepare (ms_env ms) (ms_blobs ms) (ms_world ms) id values tx1 = (Ok p, tx') -> Good id p.1 p.2) ->
  write (ms_env ms) (ms_blobs ms) (ms_world ms) id values replace tx1 = (Ok stored, tx2) ->
  rtc (tx_step (ms_env ms) (ms_blobs ms) (ms_world ms) C Good) tx2 tx ->
  next_version (ms_writer ms) < u_max 64 -> kt_room (merge_run tx (begin ms).2).2.1 ->
  exists v diff ms', stored !! idx = Some (RowValue.U64 v) /\ commit tx now (begin ms).2 = (Ok diff, ms') /\ used ms' id v /\ keeps_used ms ms' /\
    forall ms2, ms2 = ms' \/ restarted ms' ms2 -> counted ms2 /\ keeps_used ms' ms2 /\ numbers_fresh ms2.
Proof using RL SL.
  intros Hh Hc Hs GE Ecat Ei Hst1 Hgood Ew Hst2 Hn Hr. destruct (reached_good _ _ _ _ _ _ Hh GE Hst1) as [fs G].
  destruct (steps_counts _ _ _ _ _ _ _ Hs Hst1 (cn_counter _ Hc)) as (Hok1 & _).
  destruct (write_behind ms C fs Good tx1 id info idx values replace stored tx2 Hs GE G (Hok1 id) Ecat Ei Hgood Ew) as (Hts & v & Ev & Hb).
  pose proof (write_counts (ms_env ms) (ms_blobs ms) (ms_world ms) id values replace tx1 Hs Hok1) as Hok2. rewrite Ew in Hok2. destruct Hok2 as (Hok2 & _).
  destruct (steps_counts _ _ _ _ _ _ _ Hs Hst2 Hok2) as (_ & Hbk & _).
  assert (rtc (tx_step (ms_env ms) (ms_blobs ms) (ms_world ms) C Good) (begin ms).1 tx) as Hst.
  { etrans; [exact Hst1|]. eapply rtc_l; [|exact Hst2]. replace tx2 with (write (ms_env ms) (ms_blobs ms) (ms_world ms) id values replace tx1).2 by by rewrite Ew.
    by constructor. }
  destruct (commit_counted ms rd S C Good tx now Hh Hc Hs GE Hst Hn Hr) as (diff & ms' & E & Hc' & Hk & Hu). exists v, diff, ms'.
  split; [done|]. split; [exact E|]. split; [by eapply Hu; eauto|]. split; [done|].
  intros ms2 [->|Hre]; [split; [done|]; split; [by intros ???|by apply counted_fresh]|].
  destruct (restart_counted ms' ms2 Hc' Hre) as [Hc2 Hk2]. split; [done|]. split; [done|by apply counted_fresh].
Qed.
End numbering.

(** The sample store starts with new counters. *)
Lemma sample_counted : counted (sample_store Cascade).
Proof.
  assert (counters (ms_writer (sample_store Cascade)) = {[2 := counter_new]}) as Ec by (vm_compute; reflexivity).
  assert (forall id ts, cs_tables (ms_committed (sample_store Cascade)) !! id = Some ts ->
    catalog (ms_env (sample_store Cascade)) !! id = Some (schema ts) /\ auto_inc_high_water ts = 0) as Ht.
  { intros id ts Ets. assert (id = 1 \/ id = 2) as Hid.
    { assert (dom (cs_tables (ms_committed (sample_store Cascade))) = ({[1; 2]} : gset Z)) as Hd by (vm_compute; reflexivity).
      apply elem_of_dom_2 in Ets. rewrite Hd in Ets. set_solver. }
    assert ((fun ts => (schema ts, auto_inc_high_water ts)) <$> cs_tables (ms_committed (sample_store Cascade)) !! id =
      (fun i => (i, 0)) <$> catalog (ms_env (sample_store Cascade)) !! id) as E by (destruct Hid as [->| ->]; vm_compute; reflexivity).
    rewrite Ets in E. destruct (catalog _ !! id); [|done]. simpl in E. by injection E as -> ->. }
  assert (forall id, counter_of (ms_writer (sample_store Cascade)) id = counter_new) as Hn.
  { intros id. unfold counter_of. rewrite Ec. destruct (decide (id = 2)) as [->|]; [by rewrite lookup_singleton_eq|by rewrite lookup_singleton_ne]. }
  split; intros id; rewrite ?Hn.
  - split; vm_compute; intuition discriminate.
  - intros ts Ets. by apply Ht.
  - intros ts Ets. by rewrite (proj2 (Ht id ts Ets)).
  - intros ts idx Ets _ _. by rewrite (proj2 (Ht id ts Ets)).
Qed.

(** The first post gets the id 1; the committed store and one started again on its
    tables go on from there. *)
Lemma auto_inc_fresh_witness : let ms' := (commit (sample_tx Cascade 3) 7 (begin (sample_store Cascade)).2).2 in
  let ms2 := (install_recovered (cs_tables (ms_committed ms')) 2 (sample_store Cascade)).2 in
  used ms' 2 1 /\ used ms2 2 1 /\ numbers_fresh ms2.
Proof.
  destruct (sample_holds Cascade) as [S H].
  destruct (auto_inc_fresh _ _ _ _ _ (sample_tx Cascade 2) 2 (decl_info posts_decl) 0 (post 0 (Some 1)) false (post 1 (Some 1)) (sample_tx Cascade 3) (sample_tx Cascade 3) 7
    H sample_counted ltac:(vm_compute; discriminate) (sample_good_env Cascade ltac:(done)) ltac:(vm_compute; reflexivity) eq_refl
    (sample_steps Cascade 2 ltac:(lia) ltac:(done))) as (v & diff & ms' & Ev & E & Hu & _ & Hn).
  - eapply sample_prepared; [vm_compute; reflexivity|vm_compute; tauto].
  - rewrite (sample_tx_S Cascade 2). assert ((write (ms_env (sample_store Cascade)) (ms_blobs (sample_store Cascade)) (ms_world (sample_store Cascade)) 2 (post 0 (Some 1)) false (sample_tx Cascade 2)).1 =
      Ok (post 1 (Some 1))) as Ew by (vm_compute; reflexivity). unfold sample_call.
    destruct (write _ _ _ _ _ _ _) as [r tx]. cbn [fst snd] in *. by rewrite Ew.
  - apply rtc_refl.
  - exact (sample_next Cascade).
  - exact (sample_room Cascade 3 ltac:(lia)).
  - injection Ev as <-. cbv zeta. rewrite E. cbn [snd]. split; [exact Hu|].
    assert (restarted ms' (install_recovered (cs_tables (ms_committed ms')) 2 (sample_store Cascade)).2) as Hr.
    { exists (sample_store Cascade), (cs_tables (ms_committed ms')), 2. replace ms' with (commit (sample_tx Cascade 3) 7 (begin (sample_store Cascade)).2).2 by by rewrite E.
      split; [|split; [exact (cn_counter _ sample_counted)|split; [|done]]].
      - assert ((install_recovered (cs_tables (ms_committed (commit (sample_tx Cascade 3) 7 (begin (sample_store Cascade)).2).2)) 2 (sample_store Cascade)).1 = Ok tt) as Ei by (vm_compute; reflexivity).
        destruct (install_recovered _ _ _) as [r ms2]. cbn [fst snd] in *. by rewrite Ei.
      - assert (catalog (ms_env (commit (sample_tx Cascade 3) 7 (begin (sample_store Cascade)).2).2) = catalog (ms_env (sample_store Cascade))) as Ec by (vm_compute; reflexivity).
        intros id. by rewrite Ec. }
    destruct (Hn _ (or_intror Hr)) as (_ & Hk & Hf). split; [by apply Hk|exact Hf].
Defined.

(** * The byte ceiling of the window *)

Section window.
Context {W T X B : Type} {KT : KvTree W T} {RC : RowCodec} {SI : SideIndex W X} {BS : BlobStore B}.
Notation Store := (MemStore W T X B).

Lemma arc_drop_history v (ms : Store) : ms_history (arc_drop v ms) = ms_history ms.
Proof using Type. unfold arc_drop. cbv zeta. destruct (_ =? 0); [|done]. by destruct (unpin v _) as [r [i w]]. Qed.

Lemma drops_history l : forall ms : Store, ms_history (fold_left (fun ms (cs : CommittedState T X) => arc_drop (cs_version cs) ms) l ms) = ms_history ms.
Proof using Type. induction l as [|cs l IH]; intros ms; [done|]. simpl. by rewrite IH, arc_drop_history. Qed.

(** once the pages waiting for readers exceed the byte ceiling, a commit empties the
    whole temporal window, the commit itself included, instead of dropping the
    oldest states until the ceiling is met: the states taken out are released
    only after the loop, so the count it tests does not fall. *)
Theorem window_budget_empties id now cs (ms : Store) : temporal_window (options (ms_env ms)) <> 0%nat ->
  temporal_window_max_bytes (options (ms_env ms)) < retained_window_bytes ms ->
  ms_history (retain_in_temporal_window id now cs ms) = [] /\
  snapshot_as_of (retain_in_temporal_window id now cs ms) (AsOfTx id) = Err AsOfOutOfWindow.
Proof using Type.
  intros Hw Hb. assert (ms_history (retain_in_temporal_window id now cs ms) = []) as E.
  { unfold retain_in_temporal_window. destruct (Nat.eqb_spec (temporal_window (options (ms_env ms))) 0); [done|].
    destruct (trim_count _ _) as [h d]. unfold trim_bytes. destruct (Z.ltb_spec (temporal_window_max_bytes (options (ms_env ms))) (retained_window_bytes ms)); [|lia].
    by rewrite drops_history. }
  split; [done|]. unfold snapshot_as_of. by rewrite E.
Qed.
End window.

(** The sample store with a ceiling of one page. *)
Definition tight (ms : SampleStore) : SampleStore :=
  let env := ms_env ms in
  let o := {| auto_inc_allocation_step := 4; temporal_window := 2; temporal_window_max_bytes := 4096; pool_page_size := 4096 |} in
  Build_MemStore {| catalog := catalog env; options := o; transforms := transforms env; computed := computed env; checks := checks env; not_null := not_null env;
    fks_out := fks_out env; fks_in := fks_in env; has_triggers := has_triggers env; global_writes_allowed := global_writes_allowed env |}
    (ms_world ms) (ms_reclaimer ms) (ms_arcs ms) (ms_committed ms) (ms_writer ms) (ms_history ms) (ms_blobs ms) (ms_budget_evictions ms).

Lemma window_budget_empties_witness : (length (ms_history (tight sample_twice)) = 2)%nat /\
  ms_history (retain_in_temporal_window 3 11 (ms_committed sample_twice) (tight sample_twice)) = [].
Proof.
  split; [vm_compute; reflexivity|].
  refine (proj1 (window_budget_empties 3 11 (ms_committed sample_twice) (tight sample_twice) _ _)); [vm_compute; congruence|vm_compute; reflexivity].
Defined.
