(* ===== verification/Checkpoint.v ===== *)
(** Checkpoints: the manifest ([crates/fluxum-core/src/checkpoint/manifest.rs]),
    the repository ([checkpoint/repo.rs]) and the artifact codec
    ([store/pager/codec.rs]).

    A repository is two maps, manifests by shard and transaction and objects by
    content hash. Main results: a checkpoint that was written loads back as the
    rows of the snapshot, writing one leaves the others loadable, and pruning
    keeps every retained or pinned checkpoint of its shard loadable.

    SHA-256, zstd, MessagePack, the sealing of the keyring and the CRC-32 that
    places chunk boundaries are parameters. Directories are maps and a write is
    one step: operating-system errors are not modelled. *)

From stdpp Require Import base list gmap sorting.
From Stdlib Require Import ZArith Lia.
From S2P Require Import Prelude FluxBin Row TxState LogRecord PageFormat PagedTree KvTree TableState.

Module Checkpoint.

(** ** Manifests *)

Record TableManifest : Type := {
  tm_id : Z;
  tm_name : list Z;
  tm_high_water : Z;
  tm_row_count : Z;
  tm_chunks : list (list Z);
}.

Record Manifest : Type := {
  format_version : Z;
  shard_id : Z;
  last_tx_id : Z;
  epoch : Z;
  timestamp : Z;
  m_tables : list TableManifest;
}.

Definition MANIFEST_MAGIC : list Z := [70; 76; 88; 67; 75; 80; 84; 49].
Definition MANIFEST_VERSION : Z := 1.

Record LoadedTable : Type := {
  lt_id : Z;
  lt_name : list Z;
  lt_high_water : Z;
  lt_rows : list row;
}.

Record LoadedCheckpoint : Type := {
  lc_last_tx_id : Z;
  lc_epoch : Z;
  lc_tables : list LoadedTable;
}.

Inductive CheckpointError : Type :=
  | TxZero
  | NotIncreasing (last_tx newest : Z)
  | Encoding
  | Artifact
  | Keyless
  | TooShort (len : Z)
  | BadMagic
  | ManifestHash
  | BodyDecode
  | Version (v : Z)
  | NameDisagrees (shard tx : Z)
  | HashWidth (len : Z)
  | Missing
  | ObjectHashMismatch (hash : list Z)
  | ChunkDecode
  | ValueFailed (e : LogValueError)
  | RowCount (restored declared : Z)
  | StoreFailed (e : StoreError)
  | RetentionLow (retention : nat).

(** [sealed] draws a fresh nonce each time; [draws] counts them. *)
Record Repo : Type := {
  manifests : gmap (Z * Z) (list Z);
  objects : gmap (list Z) (list Z);
  pins : gset Z;
  draws : nat;
}.

Record CheckpointStats : Type := {
  objects_total : Z;
  objects_written : Z;
  objects_shared : Z;
  bytes_written : Z;
}.

Definition ZSTD_MAGIC : list Z := [40; 181; 47; 253].
Definition ARTIFACT_ENC_MAGIC : list Z := [70; 76; 88; 69; 78; 67; 48; 49].

Definition starts_with (p bs : list Z) : bool := bool_decide (firstn (length p) bs = p).

(** Cuts a chunk after a key whose checksum is a multiple of this. *)
Definition CHUNK_TARGET_ROWS : Z := 64.
Definition CHUNK_MAX_ROWS : nat := 256.

Section repo.
Context (sha256 : list Z -> list Z) (crc32 : list Z -> Z).
Context (zstd_encode : list Z -> option (list Z)) (zstd_decode : list Z -> option (list Z)).
Context (keyring : option ((nat -> list Z -> option (list Z)) * (list Z -> option (list Z)))).
Context (pack_manifest : Manifest -> option (list Z)) (unpack_manifest : list Z -> option Manifest).
Context (pack_chunk : list (list LogValue.t) -> option (list Z)) (unpack_chunk : list Z -> option (list (list LogValue.t))).

(** ** Artifacts *)

Definition compress_artifact (draw : nat) (bytes : list Z) : result CheckpointError (list Z) :=
  from_option Artifact (zstd_encode bytes) ≫= fun compressed =>
  match keyring with
  | None => Ok compressed
  | Some (seal, _) => from_option Artifact (seal draw compressed) ≫= fun sealed => Ok (ARTIFACT_ENC_MAGIC ++ sealed)
  end.

Definition decompress_artifact (bytes : list Z) : result CheckpointError (list Z) :=
  (if starts_with ARTIFACT_ENC_MAGIC bytes then
     match keyring with
     | None => Err Keyless
     | Some (_, open) => from_option Artifact (open (skipn (length ARTIFACT_ENC_MAGIC) bytes))
     end
   else Ok bytes) ≫= fun inner =>
  if starts_with ZSTD_MAGIC inner then from_option Artifact (zstd_decode inner) else Ok inner.

Definition encode_manifest (m : Manifest) : result CheckpointError (list Z) :=
  from_option Encoding (pack_manifest m) ≫= fun body =>
  let out := MANIFEST_MAGIC ++ body in
  Ok (out ++ sha256 out).

Definition decode_manifest (bytes : list Z) : result CheckpointError Manifest :=
  decompress_artifact bytes ≫= fun bytes =>
  if blen bytes <? blen MANIFEST_MAGIC + 32 then Err (TooShort (blen bytes))
  else if negb (starts_with MANIFEST_MAGIC bytes) then Err BadMagic
  else
    let covered := slice bytes 0 (blen bytes - 32) in
    let stored_hash := slice bytes (blen bytes - 32) (blen bytes) in
    if bool_decide (sha256 covered = stored_hash) then
      from_option BodyDecode (unpack_manifest (skipn (length MANIFEST_MAGIC) covered)) ≫= fun m =>
      if format_version m =? MANIFEST_VERSION then Ok m else Err (Version (format_version m))
    else Err ManifestHash.

(** ** Writing *)

Notation CM := (SM (Repo * CheckpointStats) CheckpointError).

Definition write_chunk (rows : list (list LogValue.t)) : CM (list Z) := fun '(repo, st) =>
  match from_option Encoding (pack_chunk rows) ≫= compress_artifact (draws repo) with
  | Err e => (Err e, (repo, st))
  | Ok bytes =>
      let hash := sha256 bytes in
      match objects repo !! hash with
      | Some _ =>
          (Ok hash, ({| manifests := manifests repo; objects := objects repo; pins := pins repo; draws := S (draws repo) |},
                     {| objects_total := objects_total st + 1; objects_written := objects_written st;
                        objects_shared := objects_shared st + 1; bytes_written := bytes_written st |}))
      | None =>
          (Ok hash, ({| manifests := manifests repo; objects := <[hash := bytes]> (objects repo); pins := pins repo; draws := S (draws repo) |},
                     {| objects_total := objects_total st + 1; objects_written := objects_written st + 1;
                        objects_shared := objects_shared st; bytes_written := bytes_written st + blen bytes |}))
      end
  end.

Fixpoint write_rows (rows : list (list Z * row)) (current : list (list LogValue.t)) (chunks : list (list Z)) : CM (list (list Z)) :=
  match rows with
  | [] => match current with [] => mret chunks | _ => write_chunk current ≫= fun h => mret (chunks ++ [h]) end
  | (pk, r) :: rows =>
      let current := current ++ [row_to_log r] in
      if (CHUNK_MAX_ROWS <=? length current)%nat || (crc32 pk mod CHUNK_TARGET_ROWS =? 0)
      then write_chunk current ≫= fun h => write_rows rows [] (chunks ++ [h])
      else write_rows rows current chunks
  end.

Section snapshot.
Context {W T X : Type} `{KvTree W T} `{RowCodec}.

(** The rows are read before the first chunk is written; the code writes while it
    reads, so a read that fails half way leaves more objects there than here.
    [name_of] gives the name a table is declared with. *)
Fixpoint write_tables (w : W) (name_of : Z -> list Z) (tabs : list (Z * TableState T X)) : CM (list TableManifest) :=
  match tabs with
  | [] => mret []
  | (id, ts) :: tabs =>
      if bool_decide (ti_access (schema ts) = Ephemeral) then write_tables w name_of tabs
      else
        sm_lift (map_err StoreFailed (for_each_row w ts)) ≫= fun rs =>
        write_rows rs [] [] ≫= fun chunks =>
        write_tables w name_of tabs ≫= fun ms =>
        mret ({| tm_id := id; tm_name := name_of id; tm_high_water := auto_inc_high_water ts;
                 tm_row_count := row_count ts; tm_chunks := chunks |} :: ms)
  end.

(** Manifest files of a shard, ascending: names carry the shard and the
    transaction in decimal, padded to their width. *)
Definition list_checkpoints (repo : Repo) (shard : Z) : list Z :=
  map snd (filter (fun p => p.1 = shard) (btree_keys (manifests repo))).

Definition put_manifest (shard tx : Z) (bytes : list Z) : CM unit := fun '(repo, st) =>
  (Ok tt, ({| manifests := <[(shard, tx) := bytes]> (manifests repo); objects := objects repo; pins := pins repo; draws := S (draws repo) |}, st)).

Definition draw : CM nat := fun s => (Ok (draws s.1), s).

(** Objects first, the manifest last. *)
Definition write (w : W) (name_of : Z -> list Z) (tabs : gmap Z (TableState T X)) (shard tx ep now : Z) : CM unit := fun s =>
  if tx =? 0 then (Err TxZero, s)
  else if match last (list_checkpoints s.1 shard) with Some newest => tx <=? newest | None => false end
  then (Err (NotIncreasing tx (default 0 (last (list_checkpoints s.1 shard)))), s)
  else
    (write_tables w name_of (btree_entries tabs) ≫= fun ms =>
     sm_lift (encode_manifest {| format_version := MANIFEST_VERSION; shard_id := shard; last_tx_id := tx; epoch := ep;
                                 timestamp := now; m_tables := ms |}) ≫= fun raw =>
     draw ≫= fun n =>
     sm_lift (compress_artifact n raw) ≫= fun bytes =>
     put_manifest shard tx bytes) s.
End snapshot.

(** ** Loading *)

Definition chunk_hashes (t : TableManifest) : result CheckpointError (list (list Z)) :=
  collect (fun raw => if blen raw =? 32 then Ok raw else Err (HashWidth (blen raw))) (tm_chunks t).

Definition load_chunk (repo : Repo) (hash : list Z) : result CheckpointError (list row) :=
  from_option Missing (objects repo !! hash) ≫= fun bytes =>
  if bool_decide (sha256 bytes = hash) then
    decompress_artifact bytes ≫= fun bytes =>
    from_option ChunkDecode (unpack_chunk bytes) ≫= fun chunk =>
    map_err ValueFailed (collect (collect to_row_value) chunk)
  else Err (ObjectHashMismatch hash).

Definition load_table (repo : Repo) (t : TableManifest) : result CheckpointError LoadedTable :=
  chunk_hashes t ≫= fun hashes =>
  collect (load_chunk repo) hashes ≫= fun parts =>
  let rs := concat parts in
  if Z.of_nat (length rs) =? tm_row_count t
  then Ok {| lt_id := tm_id t; lt_name := tm_name t; lt_high_water := tm_high_water t; lt_rows := rs |}
  else Err (RowCount (Z.of_nat (length rs)) (tm_row_count t)).

Definition load (repo : Repo) (shard tx : Z) : result CheckpointError LoadedCheckpoint :=
  from_option Missing (manifests repo !! (shard, tx)) ≫= fun bytes =>
  decode_manifest bytes ≫= fun m =>
  if (shard_id m =? shard) && (last_tx_id m =? tx) then
    collect (load_table repo) (m_tables m) ≫= fun ts =>
    Ok {| lc_last_tx_id := last_tx_id m; lc_epoch := epoch m; lc_tables := ts |}
  else Err (NameDisagrees (shard_id m) (last_tx_id m)).

Definition verified (repo : Repo) (shard tx : Z) : bool :=
  match from_option Missing (manifests repo !! (shard, tx)) ≫= decode_manifest with Ok _ => true | Err _ => false end.

Definition latest_verified_tx (repo : Repo) (shard : Z) : option Z := find (verified repo shard) (reverse (list_checkpoints repo shard)).

(** ** Pins and pruning *)

Definition pin (tx : Z) (repo : Repo) : Repo := {| manifests := manifests repo; objects := objects repo; pins := {[tx]} ∪ pins repo; draws := draws repo |}.
Definition unpin (tx : Z) (repo : Repo) : Repo := {| manifests := manifests repo; objects := objects repo; pins := pins repo ∖ {[tx]}; draws := draws repo |}.

(** The hashes the manifests of a shard reference; [None] when a manifest does
    not decode. *)
Fixpoint referenced (repo : Repo) (shard : Z) (txs : list Z) : result CheckpointError (option (list (list Z))) :=
  match txs with
  | [] => Ok (Some [])
  | tx :: txs =>
      match from_option Missing (manifests repo !! (shard, tx)) ≫= decode_manifest with
      | Err _ => Ok None
      | Ok m =>
          collect chunk_hashes (m_tables m) ≫= fun hs =>
          referenced repo shard txs ≫= fun rest =>
          Ok (match rest with Some l => Some (concat hs ++ l) | None => None end)
      end
  end.

Definition remove_manifests (shard : Z) (txs : list Z) (repo : Repo) : Repo := {|
  manifests := foldr (fun tx m => delete (shard, tx) m) (manifests repo) txs;
  objects := objects repo; pins := pins repo; draws := draws repo |}.

Definition keep_objects (hs : list (list Z)) (repo : Repo) : Repo := {|
  manifests := manifests repo; objects := filter (fun p => p.1 ∈ hs) (objects repo); pins := pins repo; draws := draws repo |}.

(** The transactions of the removed manifests. *)
Definition prune (shard : Z) (retention : nat) (repo : Repo) : result CheckpointError (list Z) * Repo :=
  if (retention <? 2)%nat then (Err (RetentionLow retention), repo)
  else
    let refs := list_checkpoints repo shard in
    if (length refs <=? retention)%nat then (Ok [], repo)
    else
      let removed := filter (fun tx => tx ∉ pins repo) (firstn (length refs - retention) refs) in
      let repo := remove_manifests shard removed repo in
      match removed with
      | [] => (Ok [], repo)
      | _ =>
          match referenced repo shard (list_checkpoints repo shard) with
          | Err e => (Err e, repo)
          | Ok None => (Ok removed, repo)
          | Ok (Some hs) => (Ok removed, keep_objects hs repo)
          end
      end.

(** * Round trips *)

Context (Hzstd : forall bs c, zstd_encode bs = Some c -> starts_with ZSTD_MAGIC c = true /\ zstd_decode c = Some bs).
Context (Hseal : forall seal open n bs c, keyring = Some (seal, open) -> seal n bs = Some c -> open c = Some bs).
Context (Hmanifest : forall m body, pack_manifest m = Some body -> unpack_manifest body = Some m).
Context (Hchunk : forall rows body, pack_chunk rows = Some body -> unpack_chunk body = Some rows).
Context (Hwidth : forall bs, blen (sha256 bs) = 32).

Lemma starts_with_app p bs : starts_with p (p ++ bs) = true.
Proof. unfold starts_with. rewrite take_app_length. by apply bool_decide_eq_true_2. Qed.

Lemma zstd_not_sealed c : starts_with ZSTD_MAGIC c = true -> starts_with ARTIFACT_ENC_MAGIC c = false.
Proof.
  unfold starts_with. intros H%bool_decide_eq_true_1. apply bool_decide_eq_false_2. intros H'. destruct c as [|b c]; [done|]. unfold ZSTD_MAGIC, ARTIFACT_ENC_MAGIC in *. simpl in *. congruence.
Qed.

Lemma artifact_round_trip n bs c : compress_artifact n bs = Ok c -> decompress_artifact c = Ok bs.
Proof using Hzstd Hseal.
  unfold compress_artifact, decompress_artifact. destruct (zstd_encode bs) as [z|] eqn:Ez; [|done]. destruct (Hzstd _ _ Ez) as [Hm Hd].
  cbn [from_option mbind result_bind]. destruct keyring as [[seal open]|] eqn:Ek.
  - destruct (seal n z) as [sl|] eqn:Es; [|done]. cbn [from_option mbind result_bind]. intros E. apply (inj Ok) in E. subst c. rewrite starts_with_app.
    rewrite drop_app_length, (Hseal seal open n z sl eq_refl Es). cbn [from_option mbind result_bind]. by rewrite Hm, Hd.
  - intros [= <-]. rewrite (zstd_not_sealed _ Hm). cbn [mbind result_bind]. by rewrite Hm, Hd.
Qed.

Lemma manifest_round_trip m raw n c : format_version m = MANIFEST_VERSION -> encode_manifest m = Ok raw -> compress_artifact n raw = Ok c -> decode_manifest c = Ok m.
Proof using Hzstd Hseal Hmanifest Hwidth.
  intros Hv E Hc. unfold decode_manifest. rewrite (artifact_round_trip n raw c Hc). unfold encode_manifest in E. destruct (pack_manifest m) as [body|] eqn:Ep; [|done].
  cbn [from_option mbind result_bind] in E |- *. apply (inj Ok) in E. subst raw. set (out := MANIFEST_MAGIC ++ body). assert (blen (out ++ sha256 out) = blen out + 32) as El by (by rewrite blen_app, Hwidth).
  rewrite El. assert (blen out = blen MANIFEST_MAGIC + blen body) as Eo by apply blen_app. pose proof (blen_nonneg body). rewrite (proj2 (Z.ltb_ge _ _)) by lia.
  unfold out at 1. rewrite <- app_assoc, starts_with_app. cbn [negb]. assert (blen out + 32 - 32 = blen out) as -> by lia. rewrite slice_app_l by done.
  rewrite slice_app_r, Z.sub_diag by lia. rewrite slice_all by (rewrite Hwidth; lia). rewrite bool_decide_eq_true_2 by done. unfold out. rewrite drop_app_length, (Hmanifest m body Ep).
  cbn [from_option mbind result_bind]. by rewrite Hv.
Qed.

(** ** The artifacts of a write *)

(** The chunks the rows of a table are cut into. *)
Fixpoint cut_rows (rows : list (list Z * row)) (current : list (list LogValue.t)) : list (list (list LogValue.t)) :=
  match rows with
  | [] => match current with [] => [] | _ => [current] end
  | (pk, r) :: rows =>
      let current := current ++ [row_to_log r] in
      if (CHUNK_MAX_ROWS <=? length current)%nat || (crc32 pk mod CHUNK_TARGET_ROWS =? 0) then current :: cut_rows rows [] else cut_rows rows current
  end.

(** The chunks as they are hashed and stored, the first with the draw [n]. *)
Fixpoint chunk_artifacts (n : nat) (chunks : list (list (list LogValue.t))) : list (list Z) :=
  match chunks with
  | [] => []
  | rows :: chunks => match from_option Encoding (pack_chunk rows) ≫= compress_artifact n with Ok bytes => [bytes] | Err _ => [] end ++ chunk_artifacts (S n) chunks
  end.

Lemma chunk_artifacts_app n cs1 cs2 : chunk_artifacts n (cs1 ++ cs2) = chunk_artifacts n cs1 ++ chunk_artifacts (n + length cs1) cs2.
Proof using Type.
  revert n. induction cs1 as [|c cs1 IH]; intros n; cbn [app chunk_artifacts length]; [by rewrite Nat.add_0_r|]. rewrite IH, app_assoc. by replace (S n + length cs1)%nat with (n + S (length cs1))%nat by lia.
Qed.

(** Every object has the bytes its name is the hash of. *)
Definition objects_intact (repo : Repo) : Prop := forall h bs, objects repo !! h = Some bs -> sha256 bs = h.

(** The hash tells the stored objects and the artifacts [new] apart. *)
Definition no_collision (repo : Repo) (new : list (list Z)) : Prop :=
  let known := map snd (map_to_list (objects repo)) ++ new in Forall (fun a => Forall (fun b => sha256 a = sha256 b -> a = b) known) known.

Section known.
(** [known] holds of the objects of a repository and of the artifacts added to it. *)
Context (known : list Z -> Prop) (Hfree : forall a b, known a -> known b -> sha256 a = sha256 b -> a = b).

Definition objects_ok (repo : Repo) : Prop := forall h bs, objects repo !! h = Some bs -> sha256 bs = h /\ known bs.

(** What writing does to a repository before the manifest. *)
Definition grows (repo repo' : Repo) : Prop := manifests repo' = manifests repo /\ pins repo' = pins repo /\ objects repo ⊆ objects repo' /\ (objects_ok repo -> objects_ok repo').

#[global] Instance grows_preorder : PreOrder grows.
Proof. split; [intros r; by split_and!|]. intros a b c (? & ? & ? & ?) (? & ? & ? & ?). split_and!; [congruence..|by etrans|auto]. Qed.

(** [h] names the chunk [rows]. *)
Definition stored (repo : Repo) (h : list Z) (rows : list (list LogValue.t)) : Prop :=
  blen h = 32 /\ exists bs enc, objects repo !! h = Some bs /\ sha256 bs = h /\ decompress_artifact bs = Ok enc /\ unpack_chunk enc = Some rows.

Lemma stored_grows repo repo' h rows : grows repo repo' -> stored repo h rows -> stored repo' h rows.
Proof using Type.
  intros (_ & _ & Hs & _) (Hw & bs & enc & Ho & H). split; [done|]. exists bs, enc. split; [|done]. by eapply lookup_weaken.
Qed.

(** A step that only adds objects, those of the chunks [cs] when it succeeds. *)
Definition adds {A} (m : CM A) (cs : list (list (list LogValue.t))) (Q : Repo -> A -> Prop) : Prop := forall repo st, objects_ok repo -> Forall known (chunk_artifacts (draws repo) cs) ->
  let '(r, (repo', _)) := m (repo, st) in grows repo repo' /\ match r with Ok a => draws repo' = (draws repo + length cs)%nat /\ Q repo' a | Err _ => True end.

Lemma adds_ret {A} (a : A) (Q : Repo -> A -> Prop) : (forall repo, Q repo a) -> adds (mret a) [] Q.
Proof using Type. intros H repo st _ _. split; [done|]. split; [by rewrite Nat.add_0_r|apply H]. Qed.

Lemma adds_bind {A B} (m : CM A) (f : A -> CM B) cs1 cs2 (Q : Repo -> A -> Prop) (Q' : Repo -> B -> Prop) : adds m cs1 Q ->
  (forall repo repo' a, grows repo repo' -> Q repo a -> Q repo' a) ->
  (forall a, adds (f a) cs2 (fun repo b => Q repo a -> Q' repo b)) -> adds (m ≫= f) (cs1 ++ cs2) Q'.
Proof using Type.
  intros Hm Hmono Hf repo st Hok Hk. rewrite chunk_artifacts_app in Hk. apply Forall_app in Hk as [Hk1 Hk2]. specialize (Hm repo st Hok Hk1). unfold mbind, sm_bind. destruct (m (repo, st)) as [[a|e] [repo1 st1]]; [|done].
  destruct Hm as (Hg & Ed & HQ). pose proof Hg as (_ & _ & _ & Hok1). rewrite <- Ed in Hk2. specialize (Hf a repo1 st1 (Hok1 Hok) Hk2). destruct (f a (repo1, st1)) as [[b|e] [repo2 st2]].
  - destruct Hf as (Hg2 & Ed2 & H). split; [by etrans|]. split; [rewrite Ed2, Ed, length_app; lia|]. apply H. by eapply Hmono.
  - destruct Hf as [Hg2 _]. split; [by etrans|done].
Qed.

Lemma adds_weaken {A} (m : CM A) cs (Q Q' : Repo -> A -> Prop) : (forall repo a, Q repo a -> Q' repo a) -> adds m cs Q -> adds m cs Q'.
Proof using Type.
  intros H Hm repo st Hok Hk. specialize (Hm repo st Hok Hk). destruct (m (repo, st)) as [[a|e] [repo1 st1]]; [|done]. destruct Hm as (? & ? & ?). auto.
Qed.

Lemma adds_after {A B} (r : result CheckpointError A) (f : A -> CM B) cs (Q : Repo -> B -> Prop) : (forall a, r = Ok a -> adds (f a) cs Q) -> adds (sm_lift r ≫= f) cs Q.
Proof using Type. intros H repo st Hok Hk. unfold mbind, sm_bind, sm_lift. destruct r as [a|]; [by apply H|done]. Qed.

Lemma write_chunk_spec rows : adds (write_chunk rows) [rows] (fun repo h => stored repo h rows).
Proof using Hzstd Hseal Hchunk Hwidth Hfree.
  intros repo st Hok Hk. unfold write_chunk. cbn [chunk_artifacts] in Hk. destruct (pack_chunk rows) as [enc|] eqn:Ep; [|done]. cbn [from_option mbind result_bind] in Hk |- *.
  destruct (compress_artifact (draws repo) enc) as [bs|] eqn:Ec; [|done]. apply Forall_cons in Hk as [Hk _]. pose proof (artifact_round_trip _ _ _ Ec) as Hd.
  destruct (objects repo !! sha256 bs) as [old|] eqn:Eo.
  - split; [by split_and!|]. destruct (Hok _ _ Eo) as [Hh Hko]. assert (old = bs) as -> by (by apply Hfree). split; [simpl; lia|]. split; [apply Hwidth|]. exists bs, enc. simpl. auto.
  - split.
    + split_and!; try done; [by apply insert_subseteq|]. intros _ h b. simpl. destruct (decide (h = sha256 bs)) as [->|Hne]; [rewrite lookup_insert_eq|rewrite lookup_insert_ne by done; apply Hok].
      by intros [= <-].
    + split; [simpl; lia|]. split; [apply Hwidth|]. exists bs, enc. simpl. rewrite lookup_insert_eq. auto.
Qed.

(** The chunks named by [hs] are the rows [rs], in order. *)
Definition chunked (rs : list (list LogValue.t)) (repo : Repo) (hs : list (list Z)) : Prop := exists parts, Forall2 (stored repo) hs parts /\ concat parts = rs.

Lemma chunked_grows rs repo repo' hs : grows repo repo' -> chunked rs repo hs -> chunked rs repo' hs.
Proof using Type. intros Hg (parts & Hf & E). exists parts. split; [|done]. eapply Forall2_impl; [exact Hf|]. intros ? ?. by apply stored_grows. Qed.

Lemma chunked_snoc rs repo hs h part : chunked rs repo hs -> stored repo h part -> chunked (rs ++ part) repo (hs ++ [h]).
Proof using Type.
  intros (parts & Hf & <-) Hs. exists (parts ++ [part]). rewrite concat_app. simpl. rewrite app_nil_r. split; [|done]. apply Forall2_app; [done|]. by constructor.
Qed.

Lemma write_rows_spec rows : forall current chunks done_rows, adds (write_rows rows current chunks) (cut_rows rows current)
  (fun repo hs => chunked done_rows repo chunks -> chunked (done_rows ++ current ++ map (fun p => row_to_log p.2) rows) repo hs).
Proof using Hzstd Hseal Hchunk Hwidth Hfree.
  induction rows as [|[pk r] rows IH]; intros current chunks done_rows; cbn [write_rows cut_rows map].
  - destruct current as [|c current]; [apply adds_ret; intros repo; by rewrite !app_nil_r|]. change [c :: current] with ([c :: current] ++ []).
    eapply adds_bind; [apply write_chunk_spec|intros ? ? ?; apply stored_grows|]. intros h. apply adds_ret. intros repo Hs Hc. rewrite app_nil_r. by apply chunked_snoc.
  - destruct (_ || _).
    + change (?c :: cut_rows rows []) with ([c] ++ cut_rows rows []). eapply adds_bind; [apply write_chunk_spec|intros ? ? ?; apply stored_grows|]. intros h. eapply adds_weaken; [|apply (IH [] (chunks ++ [h]) (done_rows ++ current ++ [row_to_log r]))].
      intros repo hs H Hs Hc. cbv beta in H. rewrite <- !app_assoc in H. apply H. by apply chunked_snoc.
    + eapply adds_weaken; [|apply (IH (current ++ [row_to_log r]) chunks done_rows)]. intros repo hs H Hc. specialize (H Hc). by rewrite <- !app_assoc in H.
Qed.

(** ** Loading what was written *)

Lemma load_stored repo h part rs : stored repo h part -> collect (collect to_row_value) part = Ok rs -> load_chunk repo h = Ok rs.
Proof using Type.
  intros (_ & bs & enc & Ho & Hs & Hd & Hu) Hc. unfold load_chunk. rewrite Ho. cbn [from_option mbind result_bind]. rewrite bool_decide_eq_true_2 by done.
  rewrite Hd. cbn [mbind result_bind]. rewrite Hu. cbn [from_option mbind result_bind]. by rewrite Hc.
Qed.

Lemma chunked_load rs repo hs : chunked (map row_to_log rs) repo hs -> Forall (fun r => forallb value_ok r = true) rs ->
  Forall (fun h => blen h = 32) hs /\ exists parts, collect (load_chunk repo) hs = Ok parts /\ concat parts = rs.
Proof using Type.
  intros (parts & Hf & E) Hv. revert rs E Hv. induction Hf as [|h part hs parts Hs _ IH]; intros rs E Hv.
  - split; [constructor|]. exists []. by destruct rs.
  - simpl in E. destruct (map_eq_app row_to_log rs part (concat parts) (eq_sym E)) as (rs1 & rs2 & -> & E1 & E2). apply Forall_app in Hv as [Hv1 Hv2].
    destruct (IH rs2 (eq_sym E2) Hv2) as (Hw & ps & Ep & Ec). split; [constructor; [apply Hs|done]|]. exists (rs1 :: ps). cbn [collect].
    rewrite (load_stored repo h part rs1 Hs), Ep; [by rewrite <- Ec|]. rewrite <- E1, (collect_map _ row_to_log id); [by rewrite map_id|].
    eapply Forall_impl; [exact Hv1|]. intros r Hr. by apply collect_row_to_log.
Qed.

Lemma load_chunk_grows repo repo' h rs : objects repo ⊆ objects repo' -> load_chunk repo h = Ok rs -> load_chunk repo' h = Ok rs.
Proof using Type. intros Hs. unfold load_chunk. destruct (objects repo !! h) as [bs|] eqn:E; [|done]. by rewrite (lookup_weaken _ _ _ _ E Hs). Qed.

Lemma collect_weaken {A B E E'} (f : A -> result E B) (g : A -> result E' B) l bs : (forall a b, f a = Ok b -> g a = Ok b) -> collect f l = Ok bs -> collect g l = Ok bs.
Proof using Type.
  intros H. revert bs. induction l as [|a l IH]; intros bs; simpl; [by intros [= <-]|]. destruct (f a) as [b|] eqn:Ef; [|done]. rewrite (H _ _ Ef). simpl.
  destruct (collect f l) as [bs'|]; [|done]. rewrite (IH bs' eq_refl). simpl. by intros [= <-].
Qed.

Lemma load_table_grows repo repo' t lt : objects repo ⊆ objects repo' -> load_table repo t = Ok lt -> load_table repo' t = Ok lt.
Proof using Type.
  intros Hs. unfold load_table. destruct (chunk_hashes t) as [hs|]; [|done]. cbn [mbind result_bind]. destruct (collect (load_chunk repo) hs) as [ps|] eqn:E; [|done].
  rewrite (collect_weaken _ (load_chunk repo') _ _ (fun a b => load_chunk_grows repo repo' a b Hs) E). done.
Qed.

Lemma load_grows repo repo' shard tx l : objects repo ⊆ objects repo' -> manifests repo' !! (shard, tx) = manifests repo !! (shard, tx) ->
  load repo shard tx = Ok l -> load repo' shard tx = Ok l.
Proof using Type.
  intros Hs Hm. unfold load. rewrite Hm. destruct (manifests repo !! (shard, tx)) as [bs|]; [|done]. cbn [from_option mbind result_bind].
  destruct (decode_manifest bs) as [m|]; [|done]. cbn [mbind result_bind]. destruct (_ && _); [|done]. destruct (collect (load_table repo) (m_tables m)) as [ts|] eqn:E; [|done].
  by rewrite (collect_weaken _ (load_table repo') _ _ (fun a b => load_table_grows repo repo' a b Hs) E).
Qed.

Section written.
Context {W T X : Type} {KT : KvTree W T} {RC : RowCodec}.

(** What a checkpoint takes of a table: nothing when it is ephemeral. *)
Definition snapshot_table (w : W) (name_of : Z -> list Z) (p : Z * TableState T X) : option LoadedTable :=
  if bool_decide (ti_access (schema p.2) = Ephemeral) then None
  else match for_each_row w p.2 with
       | Ok rs => Some {| lt_id := p.1; lt_name := name_of p.1; lt_high_water := auto_inc_high_water p.2; lt_rows := map snd rs |}
       | Err _ => None
       end.

(** The count is right and every row survives the log form. *)
Definition sound (w : W) (ts : TableState T X) : Prop := forall rs, for_each_row w ts = Ok rs ->
  row_count ts = Z.of_nat (length rs) /\ Forall (fun p => forallb value_ok p.2 = true) rs.

Lemma load_table_written w name_of id (ts : TableState T X) rs hs repo : sound w ts -> for_each_row w ts = Ok rs -> chunked (map (fun p => row_to_log p.2) rs) repo hs ->
  load_table repo {| tm_id := id; tm_name := name_of id; tm_high_water := auto_inc_high_water ts; tm_row_count := row_count ts; tm_chunks := hs |} =
  Ok {| lt_id := id; lt_name := name_of id; lt_high_water := auto_inc_high_water ts; lt_rows := map snd rs |}.
Proof using Type.
  intros Hs Er Hc. destruct (Hs rs Er) as [Hn Hv]. rewrite <- (map_map snd row_to_log) in Hc. destruct (chunked_load (map snd rs) repo hs Hc) as (Hw & ps & Ep & Ec).
  { apply Forall_fmap. exact Hv. }
  unfold load_table, chunk_hashes. cbn [tm_chunks]. assert (collect (fun raw => if blen raw =? 32 then Ok raw else Err (HashWidth (blen raw))) hs = Ok hs) as ->.
  { clear -Hw. induction Hw as [|h hs Hh _ IH]; [done|]. cbn [collect]. rewrite Hh, IH. done. }
  cbn [mbind result_bind]. rewrite Ep. cbn [mbind result_bind tm_row_count tm_id tm_name tm_high_water]. rewrite Ec, length_map, Hn, Z.eqb_refl. done.
Qed.

(** The chunks of a write, table by table. *)
Definition table_chunks (w : W) (ts : TableState T X) : list (list (list LogValue.t)) :=
  if bool_decide (ti_access (schema ts) = Ephemeral) then [] else match for_each_row w ts with Ok rs => cut_rows rs [] | Err _ => [] end.
Definition snapshot_chunks (w : W) (tabs : list (Z * TableState T X)) : list (list (list LogValue.t)) := concat (map (fun p => table_chunks w p.2) tabs).

Lemma write_tables_spec w name_of tabs : Forall (fun p => sound w p.2) tabs ->
  adds (write_tables w name_of tabs) (snapshot_chunks w tabs) (fun repo ms => collect (load_table repo) ms = Ok (omap (snapshot_table w name_of) tabs)).
Proof using Hzstd Hseal Hchunk Hwidth Hfree.
  induction 1 as [|[id ts] tabs Hs _ IH]; cbn [write_tables]; [by apply adds_ret|]. simpl in Hs. cbn [omap list_omap]. unfold snapshot_table at 1. unfold snapshot_chunks. cbn [map concat fst snd]. fold (snapshot_chunks w tabs). unfold table_chunks at 1.
  destruct (bool_decide _); [apply IH|]. apply adds_after. intros rs Er. assert (for_each_row w ts = Ok rs) as Er' by (destruct (for_each_row w ts); [by injection Er as ->|done]). rewrite Er'.
  eapply (adds_bind _ _ _ _ (fun repo hs => chunked (map (fun p => row_to_log p.2) rs) repo hs)).
  { eapply adds_weaken; [|apply (write_rows_spec rs [] [] [])]. intros repo hs H. apply H. by exists []. }
  { intros ? ? ? ?. by apply chunked_grows. }
  intros hs. rewrite <- (app_nil_r (snapshot_chunks w tabs)). eapply adds_bind; [apply IH|intros ? ? ? (_ & _ & Hsub & _); apply collect_weaken; intros; by eapply load_table_grows|].
  intros ms. apply adds_ret. intros repo Hms Hc. cbn [collect]. rewrite (load_table_written w name_of id ts rs hs repo Hs Er' Hc). cbn [mbind result_bind]. by rewrite Hms.
Qed.

Lemma known_write_spec w name_of tabs shard tx ep now repo st : objects_ok repo -> Forall known (chunk_artifacts (draws repo) (snapshot_chunks w (btree_entries tabs))) -> Forall (fun p => sound w p.2) (btree_entries tabs) ->
  let '(r, (repo', _)) := write w name_of tabs shard tx ep now (repo, st) in
  objects_ok repo' /\ pins repo' = pins repo /\ objects repo ⊆ objects repo' /\
  match r with
  | Err _ => manifests repo' = manifests repo
  | Ok _ => tx <> 0 /\ (forall newest, last (list_checkpoints repo shard) = Some newest -> newest < tx) /\
      (exists bs, manifests repo' = <[(shard, tx) := bs]> (manifests repo)) /\
      load repo' shard tx = Ok {| lc_last_tx_id := tx; lc_epoch := ep; lc_tables := omap (snapshot_table w name_of) (btree_entries tabs) |}
  end.
Proof using Hzstd Hseal Hmanifest Hchunk Hwidth Hfree.
  intros Hok Hk Hs. unfold write. destruct (Z.eqb_spec tx 0) as [|Htx]; [done|]. cbn [fst].
  destruct (match last (list_checkpoints repo shard) with Some newest => tx <=? newest | None => false end) eqn:Hn; [done|].
  unfold mbind, sm_bind. pose proof (write_tables_spec w name_of (btree_entries tabs) Hs repo st Hok Hk) as Hw.
  destruct (write_tables w name_of (btree_entries tabs) (repo, st)) as [[ms|e] [repo1 st1]]; [|by destruct Hw as ((? & ? & ? & ?) & _); auto].
  destruct Hw as [(Em & Epin & Hsub & Hok1) [_ Hl]]. unfold sm_lift. set (m := {| format_version := _ |}).
  destruct (encode_manifest m) as [raw|] eqn:Ee; [|by auto]. unfold draw. cbn [fst]. destruct (compress_artifact (draws repo1) raw) as [bs|] eqn:Ec; [|by auto].
  unfold put_manifest. cbn [objects pins manifests]. split; [exact (Hok1 Hok)|]. split; [done|]. split; [done|]. split; [done|]. split.
  { intros newest E. rewrite E in Hn. by apply Z.leb_gt. }
  split; [rewrite Em; by eexists|]. unfold load. cbn [manifests]. rewrite lookup_insert_eq. cbn [from_option mbind result_bind].
  rewrite (manifest_round_trip m raw _ bs eq_refl Ee Ec). unfold m. cbn [mbind result_bind shard_id last_tx_id m_tables epoch]. rewrite !Z.eqb_refl. cbn [andb].
  rewrite (collect_weaken _ (load_table {| manifests := <[(shard, tx):=bs]> (manifests repo1); objects := objects repo1; pins := pins repo1; draws := S (draws repo1) |}) _ _ (fun a b => load_table_grows repo1 _ a b ltac:(done)) Hl). done.
Qed.
End written.
End known.

(** The artifacts a write hashes. *)
Definition write_artifacts {W T X} {KT : KvTree W T} {RC : RowCodec} (w : W) (tabs : gmap Z (TableState T X)) (repo : Repo) : list (list Z) := chunk_artifacts (draws repo) (snapshot_chunks w (btree_entries tabs)).

Lemma checkpoint_write_spec {W T X} {KT : KvTree W T} {RC : RowCodec} w name_of (tabs : gmap Z (TableState T X)) shard tx ep now repo st :
  objects_intact repo -> no_collision repo (write_artifacts w tabs repo) -> Forall (fun p => sound w p.2) (btree_entries tabs) ->
  let '(r, (repo', _)) := write w name_of tabs shard tx ep now (repo, st) in
  objects_intact repo' /\ pins repo' = pins repo /\ objects repo ⊆ objects repo' /\
  match r with
  | Err _ => manifests repo' = manifests repo
  | Ok _ => tx <> 0 /\ (forall newest, last (list_checkpoints repo shard) = Some newest -> newest < tx) /\
      (exists bs, manifests repo' = <[(shard, tx) := bs]> (manifests repo)) /\
      load repo' shard tx = Ok {| lc_last_tx_id := tx; lc_epoch := ep; lc_tables := omap (snapshot_table w name_of) (btree_entries tabs) |}
  end.
Proof using Hzstd Hseal Hmanifest Hchunk Hwidth.
  intros Hok Hfree Hs. set (known := map snd (map_to_list (objects repo)) ++ write_artifacts w tabs repo).
  assert (forall a b, a ∈ known -> b ∈ known -> sha256 a = sha256 b -> a = b) as Hf. { intros a b Ha Hb. unfold no_collision in Hfree. rewrite Forall_forall in Hfree. specialize (Hfree a Ha). rewrite Forall_forall in Hfree. by apply Hfree. }
  pose proof (known_write_spec (fun a => a ∈ known) Hf w name_of tabs shard tx ep now repo st) as H. destruct (write w name_of tabs shard tx ep now (repo, st)) as [r [repo' st']]. destruct H as (H1 & H2 & H3 & H4); [| |done|].
  - intros h bs Ho. split; [by apply Hok|]. apply elem_of_app. left. apply list_elem_of_fmap. exists (h, bs). split; [done|]. by apply elem_of_map_to_list.
  - apply Forall_forall. intros a Ha. apply elem_of_app. by right.
  - split; [intros h bs Ho; by apply H1|]. done.
Qed.

(** ** The list of checkpoints *)

Lemma list_elem repo shard tx : tx ∈ list_checkpoints repo shard <-> is_Some (manifests repo !! (shard, tx)).
Proof using Type.
  unfold list_checkpoints. rewrite list_elem_of_fmap. setoid_rewrite list_elem_of_filter. setoid_rewrite elem_of_btree_keys. split.
  - intros ([s t] & Et & Es & H). simpl in *. by subst.
  - intros H. by exists (shard, tx).
Qed.

Lemma list_sorted repo shard : StronglySorted Z.lt (list_checkpoints repo shard).
Proof using Type.
  unfold list_checkpoints. pose proof (btree_keys_sorted (manifests repo)) as Hs. induction Hs as [|[s t] l Hs IH Hall]; [constructor|]. rewrite filter_cons. case_decide as Ed; [|done].
  simpl in Ed. subst s. constructor; [done|]. apply Forall_fmap, Forall_forall. intros [s' t'] [E Hin]%list_elem_of_filter. simpl in E. subst s'. rewrite Forall_forall in Hall.
  specialize (Hall _ Hin). unfold key_lt in Hall. simpl in Hall. rewrite Z.compare_refl in Hall. by apply Z.compare_lt_iff.
Qed.

Lemma sorted_last (l : list Z) x : StronglySorted Z.lt l -> x ∈ l -> (forall y, y ∈ l -> y <= x) -> last l = Some x.
Proof using Type.
  intros Hs Hx Hmax. destruct (last l) as [z|] eqn:E; [|apply last_None in E; subst; by apply elem_of_nil in Hx]. f_equal. apply last_Some in E as [l' ->].
  apply elem_of_app in Hx as [Hx|Hx%list_elem_of_singleton]; [|done]. assert (x < z) by (eapply (StronglySorted_app_1_elem_of Z.lt); [exact Hs|done|by left]).
  assert (z <= x); [|lia]. apply Hmax, elem_of_app. right. by left.
Qed.

Lemma last_max (l : list Z) z y : StronglySorted Z.lt l -> last l = Some z -> y ∈ l -> y <= z.
Proof using Type.
  intros Hs [l' ->]%last_Some [Hy|Hy%list_elem_of_singleton]%elem_of_app; [|lia]. assert (y < z); [|lia].
  eapply (StronglySorted_app_1_elem_of Z.lt); [exact Hs|done|by left].
Qed.

Lemma newest_written repo repo' shard tx bs : (forall newest, last (list_checkpoints repo shard) = Some newest -> newest < tx) ->
  manifests repo' = <[(shard, tx) := bs]> (manifests repo) -> last (list_checkpoints repo' shard) = Some tx.
Proof using Type.
  intros Hnew Em. apply sorted_last; [apply list_sorted|apply list_elem; rewrite Em, lookup_insert_eq; by eexists|].
  intros y Hy%list_elem. rewrite Em in Hy. destruct (decide ((shard, y) = (shard, tx))) as [[= ->]|Hne]; [done|]. rewrite lookup_insert_ne in Hy by done.
  apply list_elem in Hy. destruct (last (list_checkpoints repo shard)) as [z|] eqn:El; [|apply last_None in El; rewrite El in Hy; by apply elem_of_nil in Hy].
  pose proof (last_max _ _ _ (list_sorted repo shard) El Hy). specialize (Hnew z eq_refl). lia.
Qed.

(** C15: checkpoints. In a repository whose objects are intact, and where the hash
    tells the stored objects and the chunks of this write apart, a write that
    succeeds makes the newest checkpoint of its shard, and loading it verifies and
    returns the rows, marks and tables of the snapshot, ephemeral tables left out;
    whether or not it succeeds, the objects stay intact and every other checkpoint
    that loaded before loads the same contents after. *)
Theorem checkpoint_round_trip {W T X} {KT : KvTree W T} {RC : RowCodec} w name_of (tabs : gmap Z (TableState T X)) shard tx ep now repo st r repo' st' :
  objects_intact repo -> no_collision repo (write_artifacts w tabs repo) -> Forall (fun p => sound w p.2) (btree_entries tabs) ->
  write w name_of tabs shard tx ep now (repo, st) = (r, (repo', st')) ->
  objects_intact repo' /\ (forall s t l, (s, t) <> (shard, tx) -> load repo s t = Ok l -> load repo' s t = Ok l) /\
  (r = Ok tt -> last (list_checkpoints repo' shard) = Some tx /\
    load repo' shard tx = Ok {| lc_last_tx_id := tx; lc_epoch := ep; lc_tables := omap (snapshot_table w name_of) (btree_entries tabs) |}).
Proof using Hzstd Hseal Hmanifest Hchunk Hwidth.
  intros Hok Hfree Hs E. pose proof (checkpoint_write_spec w name_of tabs shard tx ep now repo st Hok Hfree Hs) as H. rewrite E in H. destruct H as (Hok' & _ & Hsub & H). split; [done|]. split.
  - intros s t l Hne. apply load_grows; [done|]. destruct r; [|by rewrite H]. destruct H as (_ & _ & (bs & ->) & _). by rewrite lookup_insert_ne.
  - intros ->. destruct H as (_ & Hnew & (bs & Em) & Hl). split; [|done]. by eapply newest_written.
Qed.

(** ** Pruning *)

Lemma remove_lookup shard txs repo s t : manifests (remove_manifests shard txs repo) !! (s, t) = if decide (s = shard /\ t ∈ txs) then None else manifests repo !! (s, t).
Proof using Type.
  simpl. induction txs as [|tx txs IH]; simpl.
  - rewrite decide_False; [done|]. by intros [_ ?%elem_of_nil].
  - destruct (decide ((shard, tx) = (s, t))) as [[= -> ->]|Hne]; [rewrite lookup_delete_eq, decide_True; [done|split; [done|by left]]|].
    rewrite lookup_delete_ne by done. rewrite IH. destruct (decide (s = shard /\ t ∈ txs)) as [[-> Hin]|Hn]; [rewrite decide_True; [done|split; [done|by right]]|].
    rewrite decide_False; [done|]. intros [-> [->|Hin]%elem_of_cons]; [done|]. by apply Hn.
Qed.

(** Loading needs only the objects the manifest references. *)
Lemma load_same repo repo' shard tx bs m : manifests repo !! (shard, tx) = Some bs -> manifests repo' !! (shard, tx) = Some bs -> decode_manifest bs = Ok m ->
  (forall t hs h, t ∈ m_tables m -> chunk_hashes t = Ok hs -> h ∈ hs -> objects repo' !! h = objects repo !! h) -> load repo' shard tx = load repo shard tx.
Proof using Type.
  intros E1 E2 Ed Ho. unfold load. rewrite E1, E2. cbn [from_option mbind result_bind]. rewrite Ed. cbn [mbind result_bind]. destruct (_ && _); [|done].
  assert (collect (load_table repo') (m_tables m) = collect (load_table repo) (m_tables m)) as ->; [|done].
  assert (forall ts, (forall t, t ∈ ts -> t ∈ m_tables m) -> collect (load_table repo') ts = collect (load_table repo) ts) as H; [|by apply H].
  induction ts as [|t ts IH]; intros Hin; [done|]. cbn [collect]. rewrite IH by (intros; apply Hin; by right).
  assert (load_table repo' t = load_table repo t) as ->; [|done]. unfold load_table. destruct (chunk_hashes t) as [hs|] eqn:Eh; [|done]. cbn [mbind result_bind].
  assert (forall l, (forall h, h ∈ l -> h ∈ hs) -> collect (load_chunk repo') l = collect (load_chunk repo) l) as H; [|by rewrite H].
  induction l as [|h l IHl]; intros Hl; [done|]. cbn [collect]. rewrite IHl by (intros; apply Hl; by right). unfold load_chunk.
  by rewrite (Ho t hs h (Hin t ltac:(by left)) Eh (Hl h ltac:(by left))).
Qed.

Lemma referenced_in repo shard txs : forall hs tx, referenced repo shard txs = Ok (Some hs) -> tx ∈ txs ->
  exists bs m, manifests repo !! (shard, tx) = Some bs /\ decode_manifest bs = Ok m /\ forall t hs' h, t ∈ m_tables m -> chunk_hashes t = Ok hs' -> h ∈ hs' -> h ∈ hs.
Proof using Type.
  induction txs as [|tx txs IH]; intros hs tx0 E Hin; [by apply elem_of_nil in Hin|]. cbn [referenced] in E.
  destruct (manifests repo !! (shard, tx)) as [bs|] eqn:Em; [|done]. cbn [from_option mbind result_bind] in E. destruct (decode_manifest bs) as [m|] eqn:Ed; [|done].
  destruct (collect chunk_hashes (m_tables m)) as [hss|] eqn:Ec; [|done]. destruct (referenced repo shard txs) as [[l|]|] eqn:Er; [|done..]. simpl in E. injection E as <-.
  apply elem_of_cons in Hin as [->|Hin].
  - exists bs, m. split; [done|]. split; [done|]. intros t hs' h Ht Eh Hh. apply elem_of_app. left. clear -Ec Ht Eh Hh. revert hss Ec.
    induction (m_tables m) as [|t' ts IH]; intros hss Ec; [by apply elem_of_nil in Ht|]. cbn [collect] in Ec. destruct (chunk_hashes t') as [h'|] eqn:E'; [|done].
    destruct (collect chunk_hashes ts) as [hs2|]; [|done]. simpl in Ec. injection Ec as <-. simpl. apply elem_of_app. apply elem_of_cons in Ht as [->|Ht]; [left; congruence|right; by apply IH].
  - destruct (IH l tx0 eq_refl Hin) as (bs' & m' & E1 & E2 & H). exists bs', m'. split; [done|]. split; [done|]. intros t hs' h Ht Eh Hh. apply elem_of_app. right. by eapply H.
Qed.

(** pruning. It removes exactly the unpinned checkpoints beyond the newest
    [retention] of the shard, and every other checkpoint of the shard loads as
    before: no object it references is collected. *)
Theorem prune_keeps shard retention repo removed repo' : prune shard retention repo = (Ok removed, repo') ->
  (2 <= retention)%nat /\ removed = filter (fun tx => tx ∉ pins repo) (firstn (length (list_checkpoints repo shard) - retention) (list_checkpoints repo shard)) /\
  forall tx, tx ∈ list_checkpoints repo shard -> tx ∉ removed -> tx ∈ list_checkpoints repo' shard /\ load repo' shard tx = load repo shard tx.
Proof using Type.
  unfold prune. destruct (Nat.ltb_spec retention 2) as [|Hr]; [done|]. destruct (Nat.leb_spec (length (list_checkpoints repo shard)) retention) as [Hle|Hgt].
  { intros [= <- <-]. split; [done|]. rewrite (proj2 (Nat.sub_0_le _ _) Hle). done. }
  set (gone := filter (fun tx => tx ∉ pins repo) _). set (repo1 := remove_manifests shard gone repo). intros E.
  assert (removed = gone /\ (repo' = repo1 \/ exists hs, referenced repo1 shard (list_checkpoints repo1 shard) = Ok (Some hs) /\ repo' = keep_objects hs repo1)) as [-> Hcase].
  { destruct gone as [|g gone'] eqn:Eg; [injection E as <- <-; auto|]. rewrite <- Eg in *. destruct (referenced _ _ _) as [[hs|]|] eqn:Er; [|by injection E as <- <-; auto|done].
    injection E as <- <-. split; [done|]. right. by exists hs. }
  split; [done|]. split; [done|]. intros tx Hin Hn.
  assert (manifests repo1 !! (shard, tx) = manifests repo !! (shard, tx)) as Em by (unfold repo1; rewrite remove_lookup, decide_False; [done|]; by intros [_ ?]).
  apply list_elem in Hin as [bs Hbs]. destruct Hcase as [->|(hs & Er & ->)].
  - split; [apply list_elem; rewrite Em; by eexists|]. unfold load. by rewrite Em.
  - split; [apply list_elem; simpl; change (foldr _ _ _) with (manifests repo1); rewrite Em; by eexists|].
    assert (tx ∈ list_checkpoints repo1 shard) as Hin1 by (apply list_elem; rewrite Em; by eexists).
    destruct (referenced_in _ _ _ hs tx Er Hin1) as (bs' & m & E1 & Ed & Href). rewrite Em in E1. apply (load_same repo _ shard tx bs' m); [done|by rewrite <- Em in E1|done|].
    intros t hs' h Ht Eh Hh. simpl. specialize (Href t hs' h Ht Eh Hh). destruct (objects repo !! h) as [b|] eqn:Eo.
    + by apply map_lookup_filter_Some.
    + apply map_lookup_filter_None. by left.
Qed.
End repo.
End Checkpoint.
