(* ===== verification/Recovery.v ===== *)
(** Crash recovery: [crates/fluxum-core/src/checkpoint/recover.rs].

    Recovery adopts the newest checkpoint that loads, replays the log records
    past it into a working copy of every table, and installs the result. Main
    result: the working tables are those of a replay of the whole history, also
    when the checkpoint was stamped with an earlier transaction than the one its
    snapshot had reached, and when covered log segments were compacted away.

    The trees are then bulk-loaded from the working tables ([bulk_load] of
    PagedTree) and installed ([install_recovered] of StoreBuild). *)

From stdpp Require Import base list gmap sorting.
From Stdlib Require Import ZArith Lia.
From S2P Require Import Prelude FluxBin Row IndexKey Types TxState LogRecord Crc32c CommitLog PageFormat PagedTree KvTree TableState MemStore Checkpoint.
Import Checkpoint.

Module Recovery.

(** The contents of a table while checkpoint and replay fold into it. *)
Record WorkingTable : Type := {
  wt_schema : TableSchema;
  wt_rows : gmap (list Z) row;
  wt_high_water : Z;
}.

Notation Working := (gmap Z WorkingTable).

Inductive RecoverError : Type :=
  | IdDisagrees (recorded : Z)
  | NotInSchema (table : Z)
  | ReplayTable (tx table : Z)
  | BadRow (e : StorageError)
  | BadValue (e : LogValueError)
  | BadCheckpoint (e : CheckpointError).

Record RecoveryOutcome : Type := {
  ro_checkpoint_tx_id : option Z;
  ro_rejected : list Z;
  ro_replay : ReplayReport;
  ro_applied_records : Z;
  ro_last_tx_id : option Z;
  ro_next_tx_id : Z;
}.

(** The empty working table of a table of the fresh store. *)
Definition blank (sch : TableSchema) : WorkingTable := {| wt_schema := sch; wt_rows := ∅; wt_high_water := 0 |}.

Definition fresh {T X} (tabs : gmap Z (TableState T X)) : Working := (fun ts => blank (ti_schema (schema ts))) <$> tabs.

Definition with_rows (t : WorkingTable) (rs : gmap (list Z) row) : WorkingTable := {| wt_schema := wt_schema t; wt_rows := rs; wt_high_water := wt_high_water t |}.
Definition with_mark (t : WorkingTable) (hw : Z) : WorkingTable := {| wt_schema := wt_schema t; wt_rows := wt_rows t; wt_high_water := hw |}.

(** Rows under their encoded primary keys. *)
Definition keyed_rows (sch : TableSchema) (rs : list row) : result RecoverError (list (list Z * row)) :=
  collect (fun r => map_err BadRow (encode_pk_of_row sch r) ≫= fun pk => Ok (pk, r)) rs.

Definition insert_all (m : gmap (list Z) row) (l : list (list Z * row)) : gmap (list Z) row := fold_left (fun m p => <[p.1 := p.2]> m) l m.

Section recover.
Context (table_id_of : list Z -> Z).

Definition apply_loaded (w : Working) (lt : LoadedTable) : result RecoverError Working :=
  let id := table_id_of (lt_name lt) in
  if negb (id =? lt_id lt) then Err (IdDisagrees (lt_id lt))
  else match w !! id with
  | None => Err (NotInSchema id)
  | Some slot =>
      keyed_rows (wt_schema slot) (lt_rows lt) ≫= fun rs =>
      Ok (<[id := with_rows (with_mark slot (lt_high_water lt)) (insert_all (wt_rows slot) rs)]> w)
  end.

Fixpoint apply_tables (lts : list LoadedTable) (w : Working) : result RecoverError Working :=
  match lts with [] => Ok w | lt :: lts => apply_loaded w lt ≫= apply_tables lts end.

Definition apply_checkpoint (loaded : LoadedCheckpoint) (w : Working) : result RecoverError Working := apply_tables (lc_tables loaded) w.

(** Deletes before inserts. *)
Definition apply_mutation (tx : Z) (w : Working) (m : TableMutation) : result RecoverError Working :=
  match w !! tm_table_id m with
  | None => Err (ReplayTable tx (tm_table_id m))
  | Some slot =>
      let rows := fold_left (fun R pk => delete pk R) (delete_pks m) (wt_rows slot) in
      map_err BadValue (insert_rows m) ≫= fun rs =>
      keyed_rows (wt_schema slot) rs ≫= fun rs =>
      Ok (<[tm_table_id m := with_rows slot (insert_all rows rs)]> w)
  end.

Fixpoint apply_mutations (tx : Z) (ms : list TableMutation) (w : Working) : result RecoverError Working :=
  match ms with [] => Ok w | m :: ms => apply_mutation tx w m ≫= apply_mutations tx ms end.

Definition apply_mark (w : Working) (p : Z * Z) : Working :=
  match w !! p.1 with Some slot => <[p.1 := with_mark slot (Z.max (wt_high_water slot) p.2)]> w | None => w end.

Definition apply_record (r : TxRecord) (w : Working) : result RecoverError Working :=
  apply_mutations (tr_tx_id r) (tr_mutations r) w ≫= fun w => Ok (fold_left apply_mark (tr_auto_inc r) w).

(** The newest checkpoint that loads; the others are reported. *)
Fixpoint adopt (loads : list (Z * result CheckpointError LoadedCheckpoint)) (rejected : list Z) (w : Working) : result RecoverError (Working * option Z * list Z) :=
  match loads with
  | [] => Ok (w, None, rejected)
  | (_, Ok loaded) :: _ => apply_checkpoint loaded w ≫= fun w => Ok (w, Some (lc_last_tx_id loaded), rejected)
  | (tx, Err _) :: loads => adopt loads (rejected ++ [tx]) w
  end.

Definition replay_visit (covered : Z) (e : Z) (r : TxRecord) : SM (Working * Z) RecoverError unit := fun '(w, applied) =>
  if tr_tx_id r <=? covered then (Ok tt, (w, applied))
  else match apply_record r w with
  | Err e => (Err e, (w, applied))
  | Ok w => (Ok tt, (w, applied + 1))
  end.

(** [Option::max]: nothing is below everything. *)
Definition option_max (a b : option Z) : option Z :=
  match a, b with Some a, Some b => Some (Z.max a b) | Some a, None => Some a | None, b => b end.

Section log.
Context (crc32c : list Z -> Z) (decode_record : list Z -> option TxRecord).

(** Checkpoints are given newest first. *)
Definition recover (loads : list (Z * result CheckpointError LoadedCheckpoint)) (shard : Z) (d : LogDir) (w : Working) : result RecoverError (Working * RecoveryOutcome) :=
  adopt loads [] w ≫= fun '(w, adopted, rejected) =>
  let '(r, (w, applied)) := replay crc32c decode_record (replay_visit (default 0 adopted)) shard d (w, 0) in
  r ≫= fun report =>
  let last_tx_id := option_max (rp_last_tx_id report) adopted in
  Ok (w, {| ro_checkpoint_tx_id := adopted; ro_rejected := rejected; ro_replay := report; ro_applied_records := applied;
            ro_last_tx_id := last_tx_id;
            ro_next_tx_id := match last_tx_id with None => 1 | Some tx => sat_add 64 tx 1 end |}).
End log.
End recover.

(** Checkpoints of a repository as recovery goes through them. *)
Definition repo_loads (load : Z -> Z -> result CheckpointError LoadedCheckpoint) (shard : Z) (txs : list Z) : list (Z * result CheckpointError LoadedCheckpoint) :=
  map (fun tx => (tx, load shard tx)) (reverse txs).

(** * Replay overwrites *)

Fixpoint apply_records (rs : list TxRecord) (w : Working) : result RecoverError Working :=
  match rs with [] => Ok w | r :: rs => apply_record r w ≫= apply_records rs end.

Lemma apply_records_app a b w : apply_records (a ++ b) w = apply_records a w ≫= apply_records b.
Proof. revert w. induction a as [|r a IH]; intros w; [done|]. simpl. destruct (apply_record r w); [apply IH|done]. Qed.

Definition schemas (w : Working) : gmap Z TableSchema := wt_schema <$> w.

(** What a step writes, whatever was there before: rows (a value or an absence)
    and a lower bound of a mark. *)
Record effect : Type := { ef_rows : Z -> list Z -> option (option row); ef_mark : Z -> option Z }.

Definition raise (h : Z) (m : option Z) : Z := match m with Some m => Z.max h m | None => h end.

Definition acts (ef : effect) (w w' : Working) : Prop := schemas w' = schemas w /\ forall id t, w !! id = Some t -> exists t', w' !! id = Some t' /\
  wt_high_water t' = raise (wt_high_water t) (ef_mark ef id) /\
  forall k, wt_rows t' !! k = match ef_rows ef id k with Some v => v | None => wt_rows t !! k end.

(** A step that fails or writes depending only on the schemas. *)
Definition overwrites (f : Working -> result RecoverError Working) : Prop := forall sch,
  (forall w, schemas w = sch -> exists e, f w = Err e) \/ exists ef, forall w, schemas w = sch -> exists w', f w = Ok w' /\ acts ef w w'.

Lemma schemas_lookup w w' id : schemas w' = schemas w -> wt_schema <$> w' !! id = wt_schema <$> w !! id.
Proof. intros E. rewrite <- !lookup_fmap. by unfold schemas in E; rewrite E. Qed.

Lemma ov_ret : overwrites Ok.
Proof. intros sch. right. exists {| ef_rows := fun _ _ => None; ef_mark := fun _ => None |}. intros w _. exists w. split; [done|]. split; [done|]. intros id t E. by exists t. Qed.

Lemma ov_bind f g : overwrites f -> overwrites g -> overwrites (fun w => f w ≫= g).
Proof.
  intros Hf Hg sch. destruct (Hf sch) as [He|[ef H]]; [left; intros w E; destruct (He w E) as [e ->]; by exists e|].
  destruct (Hg sch) as [He|[eg Hg']].
  - left. intros w E. destruct (H w E) as (w' & -> & Es & _). apply He. congruence.
  - right. exists {| ef_rows := fun id k => match ef_rows eg id k with Some v => Some v | None => ef_rows ef id k end;
      ef_mark := fun id => option_max (ef_mark ef id) (ef_mark eg id) |}.
    intros w E. destruct (H w E) as (w1 & -> & Es1 & H1). destruct (Hg' w1 ltac:(congruence)) as (w2 & E2 & Es2 & H2). exists w2. split; [done|]. split; [congruence|].
    intros id t Et. destruct (H1 id t Et) as (t1 & Et1 & Hm1 & Hr1). destruct (H2 id t1 Et1) as (t2 & Et2 & Hm2 & Hr2). exists t2. split; [done|]. split.
    + rewrite Hm2, Hm1. simpl. destruct (ef_mark ef id), (ef_mark eg id); simpl; lia.
    + intros k. rewrite Hr2. simpl. destruct (ef_rows eg id k); [done|]. apply Hr1.
Qed.

(** Doing it again changes nothing. *)
Lemma overwrites_again f w w' : overwrites f -> f w = Ok w' -> f w' = Ok w'.
Proof.
  intros Hf E. destruct (Hf (schemas w)) as [He|[ef H]]; [destruct (He w eq_refl); congruence|]. destruct (H w eq_refl) as (w1 & E1 & Es1 & H1). assert (w1 = w') as -> by congruence.
  destruct (H w' Es1) as (w2 & E2 & Es2 & H2). rewrite E2. f_equal. apply map_eq. intros id. pose proof (schemas_lookup _ _ id Es1) as S1. pose proof (schemas_lookup _ _ id Es2) as S2.
  destruct (w' !! id) as [t1|] eqn:Et1; [|by destruct (w2 !! id)]. destruct (w !! id) as [t|] eqn:Et; [|done]. destruct (H1 id t Et) as (t1' & Et1' & Hm1 & Hr1).
  assert (t1' = t1) as -> by congruence. destruct (H2 id t1 Et1) as (t2 & Et2 & Hm2 & Hr2). rewrite Et2 in S2 |- *. f_equal. simpl in S2. injection S2 as S2.
  destruct t1 as [s1 r1 h1], t2 as [s2 r2 h2]. simpl in *. subst s2. f_equal.
  - apply map_eq. intros k. rewrite Hr2, Hr1. by destruct (ef_rows ef id k).
  - rewrite Hm2, Hm1. destruct (ef_mark ef id); simpl; lia.
Qed.

Lemma insert_all_lookup l : forall m k, insert_all m l !! k = match (list_to_map (reverse l) : gmap (list Z) row) !! k with Some r => Some r | None => m !! k end.
Proof.
  unfold insert_all. induction l as [|[k' r] l IH] using rev_ind; intros m k; [done|]. rewrite fold_left_app, reverse_app. simpl.
  destruct (decide (k' = k)) as [->|Hne]; [by rewrite !lookup_insert_eq|]. rewrite !lookup_insert_ne by done. apply IH.
Qed.

Lemma delete_all_lookup pks : forall (m : gmap (list Z) row) k, fold_left (fun R pk => delete pk R) pks m !! k = if decide (k ∈ pks) then None else m !! k.
Proof.
  induction pks as [|pk pks IH] using rev_ind; intros m k; [by rewrite decide_False by apply not_elem_of_nil|]. rewrite fold_left_app. simpl.
  destruct (decide (pk = k)) as [->|Hne]; [rewrite lookup_delete_eq, decide_True; [done|]; apply elem_of_app; right; by left|]. rewrite lookup_delete_ne, IH by done.
  destruct (decide (k ∈ pks)); [rewrite decide_True; [done|]; apply elem_of_app; by left|]. rewrite decide_False; [done|]. rewrite elem_of_app, list_elem_of_singleton. naive_solver.
Qed.

Lemma schemas_insert w id t t' : w !! id = Some t -> wt_schema t' = wt_schema t -> schemas (<[id := t']> w) = schemas w.
Proof. intros E Es. unfold schemas. rewrite fmap_insert, Es. apply insert_id. by rewrite lookup_fmap, E. Qed.

Lemma ov_mutation tx m : overwrites (fun w => apply_mutation tx w m).
Proof.
  intros sch. unfold apply_mutation. set (id := tm_table_id m).
  destruct (sch !! id) as [s|] eqn:Es.
  2:{ left. intros w <-. unfold schemas in Es. rewrite lookup_fmap in Es. destruct (w !! id); [done|]. by eexists. }
  assert (forall w, schemas w = sch -> exists t, w !! id = Some t /\ wt_schema t = s) as Hslot.
  { intros w <-. unfold schemas in Es. rewrite lookup_fmap in Es. destruct (w !! id) as [t|]; [|done]. injection Es as <-. by exists t. }
  destruct (insert_rows m) as [rs|e] eqn:Er; [|left; intros w Ew; destruct (Hslot w Ew) as (t & -> & _); by eexists].
  destruct (keyed_rows s rs) as [l|e] eqn:Ek; [|left; intros w Ew; destruct (Hslot w Ew) as (t & -> & ->); simpl; rewrite Ek; by eexists].
  right. exists {| ef_rows := fun id' k => if decide (id' = id) then match (list_to_map (reverse l) : gmap (list Z) row) !! k with Some r => Some (Some r)
      | None => if decide (k ∈ delete_pks m) then Some None else None end else None; ef_mark := fun _ => None |}.
  intros w Ew. destruct (Hslot w Ew) as (t & Et & Ets). rewrite Et. simpl. rewrite Ets, Ek. simpl. eexists. split; [reflexivity|]. split; [by apply (schemas_insert w id t)|].
  intros id' t' Et'. simpl. destruct (decide (id' = id)) as [->|Hne]; [|exists t'; by rewrite lookup_insert_ne]. assert (t' = t) as -> by congruence.
  rewrite lookup_insert_eq. eexists. split; [done|]. split; [done|]. intros k. simpl. rewrite insert_all_lookup, delete_all_lookup.
  destruct (list_to_map _ !! k); [done|]. by destruct (decide (k ∈ delete_pks m)).
Qed.

Lemma ov_mutations tx ms : overwrites (apply_mutations tx ms).
Proof. induction ms as [|m ms IH]; [apply ov_ret|]. apply (ov_bind (fun w => apply_mutation tx w m)); [apply ov_mutation|done]. Qed.

Lemma ov_mark p : overwrites (fun w => Ok (apply_mark w p)).
Proof.
  intros sch. right. exists {| ef_rows := fun _ _ => None; ef_mark := fun id => if decide (id = p.1) then Some p.2 else None |}. intros w _. eexists. split; [done|]. unfold apply_mark.
  destruct (w !! p.1) as [t|] eqn:Et.
  - split; [by apply (schemas_insert w p.1 t)|]. intros id t' Et'. simpl. destruct (decide (id = p.1)) as [->|Hne]; [|exists t'; by rewrite lookup_insert_ne].
    assert (t' = t) as -> by congruence. rewrite lookup_insert_eq. by eexists.
  - split; [done|]. intros id t' Et'. exists t'. simpl. rewrite decide_False by congruence. done.
Qed.

Lemma ov_marks ps : overwrites (fun w => Ok (fold_left apply_mark ps w)).
Proof.
  induction ps as [|p ps IH]; [apply ov_ret|]. exact (ov_bind _ _ (ov_mark p) IH).
Qed.

Lemma ov_records rs : overwrites (apply_records rs).
Proof.
  induction rs as [|r rs IH]; [apply ov_ret|]. apply (ov_bind (apply_record r)); [|done]. apply (ov_bind (apply_mutations (tr_tx_id r) (tr_mutations r))); [apply ov_mutations|apply ov_marks].
Qed.

Lemma records_schemas rs w w' : apply_records rs w = Ok w' -> schemas w' = schemas w.
Proof.
  intros E. destruct (ov_records rs (schemas w)) as [He|[ef H]]; [destruct (He w eq_refl); congruence|]. destruct (H w eq_refl) as (w1 & E1 & Es & _). congruence.
Qed.

(** ** Keys *)

(** Every row is under its own key. *)
Definition well_keyed (w : Working) : Prop := forall id t k r, w !! id = Some t -> wt_rows t !! k = Some r -> encode_pk_of_row (wt_schema t) r = Ok k.

Lemma keyed_rows_keys sch rs : forall l k r, keyed_rows sch rs = Ok l -> (k, r) ∈ l -> encode_pk_of_row sch r = Ok k.
Proof.
  unfold keyed_rows. induction rs as [|x rs IH]; intros l k r E Hin; simpl in E; [injection E as <-; by apply elem_of_nil in Hin|].
  destruct (encode_pk_of_row sch x) as [pk|] eqn:Ex; [|done]. simpl in E. destruct (collect _ rs) as [l'|]; [|done]. injection E as <-.
  apply elem_of_cons in Hin as [[= -> ->]|Hin]; [done|by eapply IH].
Qed.

Lemma mutation_keyed tx m w w' : well_keyed w -> apply_mutation tx w m = Ok w' -> well_keyed w'.
Proof.
  intros Hw. unfold apply_mutation. destruct (w !! tm_table_id m) as [t|] eqn:Et; [|done]. destruct (insert_rows m) as [rs|]; [|done]. simpl.
  destruct (keyed_rows (wt_schema t) rs) as [l|] eqn:Ek; [|done]. simpl. intros [= <-] id t' k r Et' Hr. destruct (decide (tm_table_id m = id)) as [<-|Hne].
  - rewrite lookup_insert_eq in Et'. injection Et' as <-. simpl in *. rewrite insert_all_lookup in Hr. destruct (list_to_map (reverse l) !! k) as [r'|] eqn:El.
    + injection Hr as ->. apply elem_of_list_to_map_2, elem_of_reverse in El. rewrite reverse_involutive in El. eapply (keyed_rows_keys _ rs l); done.
    + rewrite delete_all_lookup in Hr. destruct (decide _); [done|]. by eapply Hw.
  - rewrite lookup_insert_ne in Et' by done. by eapply Hw.
Qed.

Lemma marks_keyed ps : forall w, well_keyed w -> well_keyed (fold_left apply_mark ps w).
Proof.
  induction ps as [|p ps IH]; intros w Hw; [done|]. apply IH. unfold apply_mark. destruct (w !! p.1) as [t|] eqn:Et; [|done]. intros id t' k r Et' Hr.
  destruct (decide (p.1 = id)) as [<-|Hne]; [rewrite lookup_insert_eq in Et'; injection Et' as <-; by apply (Hw p.1 t k r)|]. rewrite lookup_insert_ne in Et' by done. by eapply Hw.
Qed.

Lemma records_keyed rs : forall w w', well_keyed w -> apply_records rs w = Ok w' -> well_keyed w'.
Proof.
  induction rs as [|r rs IH]; intros w w' Hw E; [by injection E as <-|]. simpl in E. destruct (apply_record r w) as [w1|] eqn:E1; [|done]. eapply IH; [|done]. unfold apply_record in E1.
  destruct (apply_mutations (tr_tx_id r) (tr_mutations r) w) as [w2|] eqn:E2; [|done]. injection E1 as <-. apply marks_keyed. clear -Hw E2. revert w Hw E2.
  generalize (tr_mutations r) as ms. induction ms as [|m ms IH]; intros w Hw E; [by injection E as <-|]. simpl in E. destruct (apply_mutation (tr_tx_id r) w m) as [w1|] eqn:E1; [|done].
  eapply IH; [by eapply mutation_keyed|done].
Qed.

(** ** Loading a checkpoint of a state *)

Lemma keyed_rows_entries sch l : Forall (fun p => encode_pk_of_row sch p.2 = Ok p.1) l -> keyed_rows sch (map snd l) = Ok l.
Proof.
  unfold keyed_rows. induction 1 as [|[k r] l Hk _ IH]; [done|]. simpl in *. rewrite Hk. simpl. by rewrite IH.
Qed.

Lemma insert_all_entries (R : gmap (list Z) row) : insert_all ∅ (btree_entries R) = R.
Proof.
  apply map_eq. intros k. rewrite insert_all_lookup, lookup_empty. assert (list_to_map (reverse (btree_entries R)) = R) as ->; [|by destruct (R !! k)].
  rewrite <- (list_to_map_to_list R) at 2. apply list_to_map_proper; [|by rewrite reverse_Permutation, btree_entries_perm].
  rewrite reverse_Permutation, btree_entries_perm. apply NoDup_fst_map_to_list.
Qed.

(** Nothing in it yet. *)
Definition empty_table (t : WorkingTable) : Prop := wt_rows t = ∅ /\ wt_high_water t = 0.

(** A loaded table is the table [w] has under its id. *)
Definition same_table (table_id_of : list Z -> Z) (w : Working) (lt : LoadedTable) : Prop := table_id_of (lt_name lt) = lt_id lt /\
  exists t, w !! lt_id lt = Some t /\ lt_high_water lt = wt_high_water t /\ lt_rows lt = btree_values (wt_rows t).

(** A loaded checkpoint has every table of [w], but for empty ones. *)
Definition captures (table_id_of : list Z -> Z) (w : Working) (lts : list LoadedTable) : Prop := NoDup (map lt_id lts) /\ Forall (same_table table_id_of w) lts /\
  forall id t, w !! id = Some t -> id ∉ map lt_id lts -> empty_table t.

Lemma apply_tables_captures f w lts : forall w0, well_keyed w -> NoDup (map lt_id lts) -> Forall (same_table f w) lts -> schemas w0 = schemas w ->
  (forall id t, w0 !! id = Some t -> id ∈ map lt_id lts -> empty_table t) ->
  exists w1, apply_tables f lts w0 = Ok w1 /\ forall id, w1 !! id = if decide (id ∈ map lt_id lts) then w !! id else w0 !! id.
Proof.
  intros w0 Hk Hnd Hs. revert w0 Hnd. induction Hs as [|lt lts (Hn & t & Et & Eh & Er) _ IH]; intros w0 Hnd Es He.
  { exists w0. split; [done|]. intros id. by rewrite decide_False by apply not_elem_of_nil. }
  apply NoDup_cons in Hnd as [Hfresh Hnd]. cbn [apply_tables]. unfold apply_loaded. rewrite Hn, Z.eqb_refl. cbn [negb].
  pose proof (schemas_lookup _ _ (lt_id lt) Es) as S0. rewrite Et in S0. destruct (w0 !! lt_id lt) as [t0|] eqn:Et0; [|done]. injection S0 as S0.
  destruct (He _ _ Et0 ltac:(by left)) as [Hr0 _]. rewrite S0, Er. unfold btree_values. rewrite keyed_rows_entries.
  2:{ apply Forall_forall. intros [k r] Hin%elem_of_btree_entries. by eapply Hk. }
  cbn [mbind result_bind]. assert (with_rows (with_mark t0 (lt_high_water lt)) (insert_all (wt_rows t0) (btree_entries (wt_rows t))) = t) as ->.
  { rewrite Hr0, insert_all_entries, Eh. destruct t0, t. simpl in *. by subst. }
  destruct (IH (<[lt_id lt := t]> w0)) as (w1 & -> & H1); [done| | |exists w1; split; [done|]].
  - by rewrite (schemas_insert w0 (lt_id lt) t0) by congruence.
  - intros id t' Et' Hin. rewrite lookup_insert_ne in Et' by (intros <-; done). eapply He; [done|by right].
  - intros id. rewrite H1. cbn [map]. destruct (decide (id ∈ map lt_id lts)); [rewrite decide_True; [done|by right]|].
    destruct (decide (id = lt_id lt)) as [->|Hne]; [rewrite lookup_insert_eq, decide_True; [done|by left]|]. rewrite lookup_insert_ne, decide_False by (try done; rewrite elem_of_cons; naive_solver). done.
Qed.

Lemma apply_checkpoint_captures f w w0 ck : well_keyed w -> captures f w (lc_tables ck) -> schemas w0 = schemas w -> map_Forall (fun _ => empty_table) w0 ->
  apply_checkpoint f ck w0 = Ok w.
Proof.
  intros Hk (Hnd & Hs & Hrest) Es He. destruct (apply_tables_captures f w (lc_tables ck) w0 Hk Hnd Hs Es) as (w1 & E & H1); [intros ? ? ? _; by eapply He|].
  unfold apply_checkpoint. rewrite E. f_equal. apply map_eq. intros id. rewrite H1. destruct (decide _) as [|Hn]; [done|]. pose proof (schemas_lookup _ _ id Es) as S0.
  destruct (w0 !! id) as [t0|] eqn:E0, (w !! id) as [t|] eqn:Et; try done. injection S0 as S0. destruct (He _ _ E0) as [R0 M0]. destruct (Hrest _ _ Et Hn) as [R M].
  destruct t0, t. simpl in *. by subst.
Qed.

Lemma adopt_failing f failed : forall rejected loads w, Forall (fun p => exists e, p.2 = Err e) failed -> adopt f (failed ++ loads) rejected w = adopt f loads (rejected ++ map fst failed) w.
Proof.
  induction failed as [|[tx r] failed IH]; intros rejected loads w Hf; [by rewrite app_nil_r|]. apply Forall_cons in Hf as [[e He] Hf]. simpl in He. subst r.
  cbn [app adopt map fst]. rewrite IH by done. by rewrite <- app_assoc.
Qed.

(** ** Visiting the log *)

Lemma visit_skips covered es : forall w n, Forall (fun r => tr_tx_id r <= covered) (map snd es) -> visit_all (replay_visit covered) es (w, n) = (Ok tt, (w, n)).
Proof.
  induction es as [|[e r] es IH]; intros w n H; [done|]. apply Forall_cons in H as [Hr H]. cbn [visit_all]. unfold mbind, sm_bind, replay_visit at 1. rewrite (proj2 (Z.leb_le _ _)) by exact Hr. by apply IH.
Qed.

Lemma visit_applies covered es : forall w n w', Forall (fun r => covered < tr_tx_id r) (map snd es) -> apply_records (map snd es) w = Ok w' ->
  visit_all (replay_visit covered) es (w, n) = (Ok tt, (w', n + Z.of_nat (length es))).
Proof.
  induction es as [|[e r] es IH]; intros w n w' H E; [injection E as <-; simpl; by rewrite Z.add_0_r|]. apply Forall_cons in H as [Hr H]. cbn [visit_all map snd apply_records] in *.
  unfold mbind, sm_bind, replay_visit at 1. rewrite (proj2 (Z.leb_gt _ _)) by exact Hr. destruct (apply_record r w) as [w1|] eqn:E1; [|done]. cbn [mbind result_bind] in E.
  rewrite (IH w1 (n + 1) w' H E). cbn [length]. rewrite Nat2Z.inj_succ, <- Z.add_1_l, Z.add_assoc. done.
Qed.

(** ** Histories *)

(** Records already in the state change nothing when replayed again. *)
Lemma replay_again a b c w0 w1 w : apply_records (a ++ b) w0 = Ok w1 -> apply_records (a ++ b ++ c) w0 = Ok w -> apply_records (b ++ c) w1 = Ok w.
Proof.
  rewrite !apply_records_app. destruct (apply_records a w0) as [wa|]; [|done]. cbn [mbind result_bind]. intros E1. rewrite !apply_records_app, E1. cbn [mbind result_bind]. intros E2.
  rewrite (overwrites_again _ _ _ (ov_records b) E1). exact E2.
Qed.

Section exact.
Context (crc32c : list Z -> Z) (Hcrc : forall bs, u_ok 32 (crc32c bs)).
Context (encode_record : TxRecord -> option (list Z)) (decode_record : list Z -> option TxRecord).
Context (Hcodec : forall r body, encode_record r = Some body -> decode_record body = Some r).
Context (table_id_of : list Z -> Z).

(** The outcome of a recovery that adopted [ck]. *)
Definition outcome_of (failed : list Z) (adopted : option Z) (entries : list (Z * TxRecord)) (x : segment) (applied : nat) : RecoveryOutcome :=
  let last_tx_id := option_max (prev_after None entries) adopted in {|
  ro_checkpoint_tx_id := adopted; ro_rejected := failed;
  ro_replay := {| records := Z.of_nat (length entries); rp_last_tx_id := prev_after None entries; corruption := tail_corruption x |};
  ro_applied_records := Z.of_nat applied; ro_last_tx_id := last_tx_id;
  ro_next_tx_id := match last_tx_id with None => 1 | Some tx => sat_add 64 tx 1 end |}.

Lemma recover_from_state loads shard init x d w0 w1 w adopted failed old new : on_disk crc32c encode_record shard init x d ->
  adopt table_id_of loads [] w0 = Ok (w1, adopted, failed) ->
  map snd (all_entries (init ++ [x])) = old ++ new ->
  Forall (fun r => tr_tx_id r <= default 0 adopted) old -> Forall (fun r => default 0 adopted < tr_tx_id r) new ->
  apply_records new w1 = Ok w ->
  recover table_id_of crc32c decode_record loads shard d w0 = Ok (w, outcome_of failed adopted (all_entries (init ++ [x])) x (length new)).
Proof using Hcrc Hcodec.
  intros Hd Ha Ee Hold Hnew E. unfold recover. rewrite Ha. cbn [mbind result_bind]. rewrite (replay_on_disk crc32c Hcrc encode_record decode_record Hcodec _ shard init x d _ Hd).
  set (es := all_entries (init ++ [x])) in *. symmetry in Ee. destruct (map_eq_app snd es old new (eq_sym Ee)) as (es1 & es2 & Es & <- & <-).
  rewrite Es at 1. rewrite visit_all_app. unfold mbind at 1, sm_bind at 1. rewrite visit_skips by done. rewrite (visit_applies _ _ _ _ _ Hnew E). cbn [mbind result_bind rp_last_tx_id].
  unfold outcome_of. rewrite length_map. done.
Qed.

(** C14: recovery is exact. The newest checkpoint that loads is adopted, the
    failing ones before it are reported, and the recovered tables are those of
    the whole history, also when the checkpoint is stamped with a transaction
    older than its snapshot ([r1] is in the snapshot and replayed again) and when
    covered records ([pre]) are gone from the log. *)
Theorem recovery_exact loads failed rest shard init x d w0 wc w tx ck pre old r1 r2 : on_disk crc32c encode_record shard init x d ->
  loads = failed ++ (tx, Ok ck) :: rest -> Forall (fun p => exists e, p.2 = Err e) failed ->
  map snd (all_entries (init ++ [x])) = old ++ r1 ++ r2 ->
  Forall (fun r => tr_tx_id r <= lc_last_tx_id ck) old -> Forall (fun r => lc_last_tx_id ck < tr_tx_id r) (r1 ++ r2) ->
  map_Forall (fun _ => empty_table) w0 ->
  apply_records (pre ++ old ++ r1) w0 = Ok wc -> captures table_id_of wc (lc_tables ck) ->
  apply_records (pre ++ old ++ r1 ++ r2) w0 = Ok w ->
  recover table_id_of crc32c decode_record loads shard d w0 =
    Ok (w, outcome_of (map fst failed) (Some (lc_last_tx_id ck)) (all_entries (init ++ [x])) x (length (r1 ++ r2))).
Proof using Hcrc Hcodec.
  intros Hd -> Hf Ee Hold Hnew He Ec Hcap E. assert (well_keyed w0) as Hk0 by (intros id t k r Et; destruct (He _ _ Et) as [-> _]; by rewrite lookup_empty).
  eapply (recover_from_state _ shard init x d w0 wc w _ _ old (r1 ++ r2) Hd); [|exact Ee|exact Hold|exact Hnew|].
  - rewrite adopt_failing by done. cbn [adopt app]. rewrite (apply_checkpoint_captures _ wc w0 ck); [done|by eapply records_keyed|done|by rewrite (records_schemas _ _ _ Ec)|done].
  - apply (replay_again (pre ++ old) r1 r2 w0); by rewrite <- ?app_assoc.
Qed.

(** Without a checkpoint that loads, the log alone gives the tables. *)
Lemma recovery_without_checkpoint loads shard init x d w0 w : on_disk crc32c encode_record shard init x d -> Forall (fun p => exists e, p.2 = Err e) loads ->
  Forall (fun r => 0 < tr_tx_id r) (map snd (all_entries (init ++ [x]))) -> apply_records (map snd (all_entries (init ++ [x]))) w0 = Ok w ->
  recover table_id_of crc32c decode_record loads shard d w0 =
    Ok (w, outcome_of (map fst loads) None (all_entries (init ++ [x])) x (length (map snd (all_entries (init ++ [x]))))).
Proof using Hcrc Hcodec.
  intros Hd Hf Hpos E. eapply (recover_from_state _ shard init x d w0 w0 w _ _ [] _ Hd); [|done|done|done|done].
  rewrite <- (app_nil_r loads) at 1. rewrite adopt_failing by done. done.
Qed.
End exact.

(** ** Checkpoints of a store *)

(** The store's tables hold [wk]; ephemeral tables are in no checkpoint. *)
Definition tables_hold {W T X} {KT : KvTree W T} {RC : RowCodec} (w : W) (tabs : gmap Z (TableState T X)) (wk : Working) : Prop := forall id, match tabs !! id, wk !! id with
  | Some ts, Some t => wt_schema t = ti_schema (schema ts) /\ (if bool_decide (ti_access (schema ts) = Ephemeral) then empty_table t
      else for_each_row w ts = Ok (btree_entries (wt_rows t)) /\ auto_inc_high_water ts = wt_high_water t)
  | None, None => True
  | _, _ => False
  end.

Lemma snapshot_ids {W T X} {KT : KvTree W T} {RC : RowCodec} (w : W) name_of (l : list (Z * TableState T X)) lt : lt ∈ omap (snapshot_table w name_of) l ->
  exists ts rs, (lt_id lt, ts) ∈ l /\ ti_access (schema ts) <> Ephemeral /\ for_each_row w ts = Ok rs /\ lt_name lt = name_of (lt_id lt) /\
    lt_high_water lt = auto_inc_high_water ts /\ lt_rows lt = map snd rs.
Proof.
  intros ([id ts] & Hin & E)%list_elem_of_omap. unfold snapshot_table in E. simpl in E. case_bool_decide as Ed; [done|]. destruct (for_each_row w ts) as [rs|] eqn:Er; [|done].
  injection E as <-. simpl. by exists ts, rs.
Qed.

Lemma snapshot_captures {W T X} {KT : KvTree W T} {RC : RowCodec} table_id_of name_of (w : W) (tabs : gmap Z (TableState T X)) wk :
  tables_hold w tabs wk -> map_Forall (fun id _ => table_id_of (name_of id) = id) tabs -> captures table_id_of wk (omap (snapshot_table w name_of) (btree_entries tabs)).
Proof.
  intros Hh Hn. split_and!.
  - pose proof (btree_keys_NoDup tabs) as Hnd. unfold btree_keys in Hnd. induction (btree_entries tabs) as [|[id ts] l IH]; [constructor|]. cbn [fmap list_fmap fst] in Hnd.
    apply NoDup_cons in Hnd as [Hfresh Hnd]. cbn [omap list_omap]. destruct (snapshot_table w name_of (id, ts)) as [lt|] eqn:E; [|by apply IH]. cbn [map]. constructor; [|by apply IH].
    intros (lt' & E' & Hin)%list_elem_of_fmap. apply snapshot_ids in Hin as (ts' & _ & Hin & _). apply Hfresh. rewrite <- E' in Hin. apply list_elem_of_fmap. exists (lt_id lt, ts'). split; [|done].
    unfold snapshot_table in E. simpl in E. destruct (bool_decide _); [done|]. destruct (for_each_row w ts); [|done]. by injection E as <-.
  - apply Forall_forall. intros lt (ts & rs & Hin%elem_of_btree_entries & Ha & Er & En & Em & El)%snapshot_ids. split; [rewrite En; by eapply Hn|].
    specialize (Hh (lt_id lt)). rewrite Hin in Hh. destruct (wk !! lt_id lt) as [t|]; [|done]. destruct Hh as [_ Hh]. rewrite bool_decide_eq_false_2 in Hh by done. destruct Hh as [Er' Em'].
    exists t. split; [done|]. split; [congruence|]. rewrite Er in Er'. injection Er' as ->. done.
  - intros id t Et Hout. specialize (Hh id). rewrite Et in Hh. destruct (tabs !! id) as [ts|] eqn:Ets; [|done]. destruct Hh as [_ Hh]. destruct (bool_decide (ti_access (schema ts) = Ephemeral)) eqn:Ea; [done|].
    destruct Hh as [Er _]. exfalso. apply Hout. apply elem_of_btree_entries in Ets. apply list_elem_of_fmap. exists {| lt_id := id; lt_name := name_of id; lt_high_water := auto_inc_high_water ts; lt_rows := map snd (btree_entries (wt_rows t)) |}.
    split; [done|]. apply list_elem_of_omap. exists (id, ts). split; [done|]. unfold snapshot_table. simpl. by rewrite Ea, Er.
Qed.

Lemma fresh_empty {T X} (tabs : gmap Z (TableState T X)) : map_Forall (fun _ => empty_table) (fresh tabs).
Proof. intros id t. unfold fresh. rewrite lookup_fmap. by destruct (tabs !! id); intros [= <-]. Qed.

Section crash.
Context (sha256 : list Z -> list Z) (crc32 : list Z -> Z).
Context (zstd_encode zstd_decode : list Z -> option (list Z)).
Context (keyring : option ((nat -> list Z -> option (list Z)) * (list Z -> option (list Z)))).
Context (pack_manifest : Manifest -> option (list Z)) (unpack_manifest : list Z -> option Manifest).
Context (pack_chunk : list (list LogValue.t) -> option (list Z)) (unpack_chunk : list Z -> option (list (list LogValue.t))).
Context (Hzstd : forall bs c, zstd_encode bs = Some c -> starts_with ZSTD_MAGIC c = true /\ zstd_decode c = Some bs).
Context (Hseal : forall seal open n bs c, keyring = Some (seal, open) -> seal n bs = Some c -> open c = Some bs).
Context (Hmanifest : forall m body, pack_manifest m = Some body -> unpack_manifest body = Some m).
Context (Hchunk : forall rows body, pack_chunk rows = Some body -> unpack_chunk body = Some rows).
Context (Hwidth : forall bs, blen (sha256 bs) = 32).
Context (crc32c : list Z -> Z) (Hcrc : forall bs, u_ok 32 (crc32c bs)).
Context (encode_record : TxRecord -> option (list Z)) (decode_record : list Z -> option TxRecord).
Context (Hcodec : forall r body, encode_record r = Some body -> decode_record body = Some r).
Context (table_id_of : list Z -> Z).

Notation write := (write sha256 crc32 zstd_encode keyring pack_manifest pack_chunk).
Notation load := (load sha256 zstd_decode keyring unpack_manifest unpack_chunk).

(** Checkpoint, crash, recovery. A store that holds the tables of its
    history is checkpointed under the id of an older transaction; whatever is
    committed afterwards, recovery from the repository and the log that is left
    gives the tables of the whole history. *)
Lemma crash_recovery {W T X} {KT : KvTree W T} {RC : RowCodec} w name_of (tabs : gmap Z (TableState T X)) shard tx ep now repo st repo' st' init x d wc wk pre old r1 r2 :
  objects_intact sha256 repo -> no_collision sha256 repo (write_artifacts crc32 zstd_encode keyring pack_chunk w tabs repo) -> Forall (fun p => sound w p.2) (btree_entries tabs) -> map_Forall (fun id _ => table_id_of (name_of id) = id) tabs ->
  apply_records (pre ++ old ++ r1) (fresh tabs) = Ok wc -> tables_hold w tabs wc ->
  write w name_of tabs shard tx ep now (repo, st) = (Ok tt, (repo', st')) ->
  on_disk crc32c encode_record shard init x d -> map snd (all_entries (init ++ [x])) = old ++ r1 ++ r2 ->
  Forall (fun r => tr_tx_id r <= tx) old -> Forall (fun r => tx < tr_tx_id r) (r1 ++ r2) ->
  apply_records (pre ++ old ++ r1 ++ r2) (fresh tabs) = Ok wk ->
  recover table_id_of crc32c decode_record (repo_loads (load repo') shard (list_checkpoints repo' shard)) shard d (fresh tabs) =
    Ok (wk, outcome_of [] (Some tx) (all_entries (init ++ [x])) x (length (r1 ++ r2))).
Proof using Hzstd Hseal Hmanifest Hchunk Hwidth Hcrc Hcodec.
  intros Hok Hfree Hs Hn Ec Hh Ew Hd Ee Hold Hnew E.
  pose proof (checkpoint_write_spec _ crc32 _ _ _ _ _ _ _ Hzstd Hseal Hmanifest Hchunk Hwidth w name_of tabs shard tx ep now repo st Hok Hfree Hs) as H.
  rewrite Ew in H. destruct H as (_ & _ & _ & _ & Hnewest & (bs & Em) & Hl). assert (last (list_checkpoints repo' shard) = Some tx) as Elast by by eapply newest_written.
  apply last_Some in Elast as [l El]. rewrite El. unfold repo_loads. rewrite reverse_snoc. cbn [map]. rewrite Hl.
  eapply (recover_from_state crc32c Hcrc encode_record decode_record Hcodec table_id_of _ shard init x d _ wc wk _ _ old (r1 ++ r2) Hd); [|exact Ee|exact Hold|exact Hnew|].
  - cbn [adopt]. rewrite (apply_checkpoint_captures _ wc); [done| |by apply snapshot_captures|by rewrite (records_schemas _ _ _ Ec)|apply fresh_empty].
    eapply records_keyed; [|exact Ec]. intros id t k r Et. destruct (fresh_empty _ _ _ Et) as [-> _]. by rewrite lookup_empty.
  - apply (replay_again (pre ++ old) r1 r2 (fresh tabs)); by rewrite <- ?app_assoc.
Qed.
End crash.
End Recovery.
