(* ===== verification/RecoveryProps.v ===== *)
(** Witnesses of Checkpoint and Recovery: the sample store of Sample after its
    two commits, checkpointed, with a third record in the log.

    Payloads are written by small codecs of their own; the hash of the witnesses is
    a multiplicative one padded to 32 bytes, which tells the few artifacts of the
    sample apart. *)

From stdpp Require Import base list gmap.
From Stdlib Require Import ZArith Lia.
From S2P Require Import Prelude FluxBin Row IndexKey Types TxState LogRecord Crc32c CommitLog PageFormat PagedTree KvTree TableState MemStore StoreBuild Sample StoreProps History Checkpoint Recovery.
Import Checkpoint Recovery.

#[local] Obligation Tactic := idtac.

(** * Payloads *)

Record Codec (A : Type) : Type := {
  enc : A -> option (list Z);
  dec : list Z -> option A;
  dec_enc : forall a b, enc a = Some b -> dec b = Some a;
}.
Arguments enc {A} _ _.
Arguments dec {A} _ _.
Arguments dec_enc {A} _ _ _ _.

(** Items, each after its length in eight bytes. *)
Fixpoint frame_items (l : list (list Z)) : option (list Z) :=
  match l with [] => Some [] | b :: l => if decide (u_ok 64 (blen b)) then bs ← frame_items l; Some (le_bytes 8 (blen b) ++ b ++ bs) else None end.

Fixpoint items_of (fuel : nat) (bs : list Z) : option (list (list Z)) :=
  match bs, fuel with
  | [], _ => Some []
  | _, O => None
  | _, S fuel => let n := Z.to_nat (le_val (firstn 8 bs)) in l ← items_of fuel (skipn (8 + n) bs); Some (firstn n (skipn 8 bs) :: l)
  end.

Lemma items_of_frame l : forall bs fuel, frame_items l = Some bs -> (length bs <= fuel)%nat -> items_of fuel bs = Some l.
Proof.
  induction l as [|b l IH]; intros bs fuel; cbn [frame_items]; [intros [= <-]; by destruct fuel|]. destruct (decide _) as [Hu|]; [|done].
  destruct (frame_items l) as [bs'|]; [|done]. intros E. apply (inj Some) in E as <-. intros Hf. pose proof (length_le_bytes 8 (blen b)) as Hl. rewrite !length_app, Hl in Hf.
  destruct fuel as [|fuel]; [lia|]. destruct (le_bytes 8 (blen b) ++ b ++ bs') as [|x y] eqn:E; [by destruct (le_bytes 8 (blen b))|]. cbn [items_of]. rewrite <- E. clear x y E.
  rewrite (take_app_length' (le_bytes 8 (blen b)) _ 8), (drop_app_length' (le_bytes 8 (blen b)) _ 8), (le_val_unsigned 8 _ Hu) by done. unfold blen. rewrite Nat2Z.id, take_app_length.
  rewrite app_assoc, (drop_app_length' _ bs') by (by rewrite length_app, length_le_bytes). rewrite (IH bs' fuel eq_refl); [done|lia].
Qed.

Program Definition num_codec : Codec Z := {| enc z := if decide (u_ok 64 z) then Some (le_bytes 8 z) else None; dec bs := Some (le_val bs) |}.
Next Obligation. intros z b. simpl. case_decide as Hu; [|done]. intros E. apply (inj Some) in E as <-. f_equal. by apply (le_val_unsigned 8). Qed.

Program Definition byte_codec : Codec (list Z) := {| enc bs := Some bs; dec bs := Some bs |}.
Next Obligation. by intros a b [= ->]. Qed.

Program Definition row_codec : Codec (list LogValue.t) := {| enc := row_bytes_of; dec bs := row_of_bytes (length bs) bs |}.
Next Obligation. intros l b E. by apply row_of_row_bytes. Qed.

Program Definition list_codec {A} (c : Codec A) : Codec (list A) := {| enc l := mapM (enc c) l ≫= frame_items; dec bs := items_of (length bs) bs ≫= mapM (dec c) |}.
Next Obligation.
  intros A c l b. cbn [enc dec]. destruct (mapM (enc c) l) as [bs|] eqn:E; [|done]. cbn [mbind option_bind]. intros Ef. rewrite (items_of_frame bs b _ Ef (le_n _)). cbn [mbind option_bind].
  apply mapM_Some in E. apply mapM_Some. apply Forall2_flip in E. eapply Forall2_impl; [exact E|]. intros x y. apply dec_enc.
Qed.

Definition two_items (l : list (list Z)) : option (list Z * list Z) := match l with [x; y] => Some (x, y) | _ => None end.

Program Definition pair_codec {A B} (c : Codec A) (c' : Codec B) : Codec (A * B) := {|
  enc p := x ← enc c p.1; y ← enc c' p.2; frame_items [x; y];
  dec bs := l ← items_of (length bs) bs; p ← two_items l; a ← dec c p.1; b ← dec c' p.2; Some (a, b) |}.
Next Obligation.
  intros A B c c' [a a'] b. cbn [enc dec fst snd]. destruct (enc c a) as [x|] eqn:Ex; [|done]. destruct (enc c' a') as [y|] eqn:Ey; [|done]. cbn [mbind option_bind]. intros Ef.
  rewrite (items_of_frame _ b _ Ef (le_n _)). cbn [mbind option_bind two_items fst snd]. by rewrite (dec_enc c _ _ Ex), (dec_enc c' _ _ Ey).
Qed.

Program Definition iso_codec {A B} (c : Codec A) (f : B -> A) (g : A -> B) (Hgf : forall b, g (f b) = b) : Codec B := {| enc b := enc c (f b); dec bs := g <$> dec c bs |}.
Next Obligation. intros A B c f g Hgf b bs E. cbn [dec]. rewrite (dec_enc c _ _ E). simpl. by rewrite Hgf. Qed.

Definition chunk_codec : Codec (list (list LogValue.t)) := list_codec row_codec.

Program Definition table_codec : Codec TableManifest :=
  iso_codec (pair_codec (pair_codec num_codec byte_codec) (pair_codec (pair_codec num_codec num_codec) (list_codec byte_codec)))
    (fun t => ((tm_id t, tm_name t), ((tm_high_water t, tm_row_count t), tm_chunks t)))
    (fun p => {| tm_id := p.1.1; tm_name := p.1.2; tm_high_water := p.2.1.1; tm_row_count := p.2.1.2; tm_chunks := p.2.2 |}) _.
Next Obligation. by intros []. Qed.

Program Definition manifest_codec : Codec Manifest :=
  iso_codec (pair_codec (list_codec num_codec) (list_codec table_codec))
    (fun m => ([format_version m; shard_id m; last_tx_id m; epoch m; timestamp m], m_tables m))
    (fun p => {| format_version := nth 0 p.1 0; shard_id := nth 1 p.1 0; last_tx_id := nth 2 p.1 0; epoch := nth 3 p.1 0; timestamp := nth 4 p.1 0; m_tables := p.2 |}) _.
Next Obligation. by intros []. Qed.

Program Definition mutation_codec : Codec TableMutation :=
  iso_codec (pair_codec num_codec (pair_codec chunk_codec (list_codec byte_codec))) (fun m => (tm_table_id m, (tm_inserts m, tm_deletes m)))
    (fun p => {| tm_table_id := p.1; tm_inserts := p.2.1; tm_deletes := p.2.2 |}) _.
Next Obligation. by intros []. Qed.

Program Definition record_codec : Codec TxRecord :=
  iso_codec (pair_codec (pair_codec (list_codec num_codec) (list_codec byte_codec)) (pair_codec (list_codec mutation_codec) (list_codec (pair_codec num_codec num_codec))))
    (fun r => (([tr_tx_id r; tr_timestamp r; tr_shard_id r], [tr_caller r; tr_reducer_name r]), (tr_mutations r, tr_auto_inc r)))
    (fun p => {| tr_tx_id := nth 0 p.1.1 0; tr_timestamp := nth 1 p.1.1 0; tr_shard_id := nth 2 p.1.1 0; tr_mutations := p.2.1; tr_auto_inc := p.2.2;
                 tr_caller := nth 0 p.1.2 []; tr_reducer_name := nth 1 p.1.2 [] |}) _.
Next Obligation. by intros []. Qed.

Notation s_pack_chunk := (enc chunk_codec).
Notation s_unpack_chunk := (dec chunk_codec).
Notation s_pack_manifest := (enc manifest_codec).
Notation s_unpack_manifest := (dec manifest_codec).
Notation s_encode_record := (enc record_codec).
Notation s_decode_record := (dec record_codec).
Notation s_chunk := (dec_enc chunk_codec).
Notation s_manifest := (dec_enc manifest_codec).
Notation s_record := (dec_enc record_codec).

(** * A checkpoint of the sample store *)

Definition s_hash (bs : list Z) : list Z := le_bytes 8 (fold_left (fun h b => (h * 1099511628211 + b + 1) mod 2 ^ 64) bs 0) ++ replicate 24 0.

Lemma s_width bs : blen (s_hash bs) = 32.
Proof. unfold s_hash. by rewrite blen_app, blen_le_bytes. Qed.

Definition s_name (id : Z) : list Z := [id].
Definition empty_repo : Repo := {| manifests := ∅; objects := ∅; pins := ∅; draws := 0 |}.
Definition no_stats : CheckpointStats := {| objects_total := 0; objects_written := 0; objects_shared := 0; bytes_written := 0 |}.

Notation twice_tables := (cs_tables (ms_committed sample_twice)).

Definition s_zstd_encode (bs : list Z) : option (list Z) := Some (ZSTD_MAGIC ++ bs).
Definition s_zstd_decode (bs : list Z) : option (list Z) := Some (skipn 4 bs).

Lemma s_zstd bs c : s_zstd_encode bs = Some c -> starts_with ZSTD_MAGIC c = true /\ s_zstd_decode c = Some bs.
Proof.
  intros E. apply (inj Some) in E as <-. split; [apply starts_with_app|]. unfold s_zstd_decode. by rewrite (drop_app_length' ZSTD_MAGIC).
Qed.

(** No two chunks of a checkpoint of the store have the same hash. *)
Notation s_distinct ms := (no_collision s_hash empty_repo (write_artifacts crc32c s_zstd_encode None s_pack_chunk (ms_world ms) (cs_tables (ms_committed ms)) empty_repo)).

Lemma empty_intact : objects_intact s_hash empty_repo.
Proof. intros h bs Hh. discriminate Hh. Qed.

Lemma twice_distinct : s_distinct sample_twice.
Proof. apply (bool_decide_unpack _). vm_compute. exact I. Qed.

Lemma once_distinct : s_distinct (sample_committed Cascade).
Proof. apply (bool_decide_unpack _). vm_compute. exact I. Qed.

Notation s_write := (write s_hash crc32c s_zstd_encode None s_pack_manifest s_pack_chunk).
Notation s_load := (load s_hash s_zstd_decode None s_unpack_manifest s_unpack_chunk).

Definition twice_run := s_write (ms_world sample_twice) s_name twice_tables 0 1 3 0 (empty_repo, no_stats).
Definition twice_repo : Repo := twice_run.2.1.

Lemma twice_sound : Forall (fun p => sound (ms_world sample_twice) p.2) (btree_entries twice_tables).
Proof.
  assert (forallb (fun p => match for_each_row (ms_world sample_twice) p.2 with
    | Ok rs => (row_count p.2 =? Z.of_nat (length rs)) && forallb (fun q => forallb value_ok q.2) rs | Err _ => true end) (btree_entries twice_tables) = true) as H by (vm_compute; reflexivity).
  apply Forall_forall. intros p Hin rs E. rewrite forallb_forall in H. apply list_elem_of_In in Hin. specialize (H p Hin). cbv beta in H. rewrite E in H.
  apply andb_true_iff in H as [Hc Hv]. split; [by apply Z.eqb_eq|]. apply Forall_forall. intros q Hq%list_elem_of_In. rewrite forallb_forall in Hv. by apply Hv.
Qed.

Lemma checkpoint_round_trip_witness : exists repo' st', s_write (ms_world sample_twice) s_name twice_tables 0 1 3 0 (empty_repo, no_stats) = (Ok tt, (repo', st')) /\
  last (list_checkpoints repo' 0) = Some 1 /\
  s_load repo' 0 1 = Ok {| lc_last_tx_id := 1; lc_epoch := 3; lc_tables := [
    {| lt_id := 1; lt_name := [1]; lt_high_water := 0; lt_rows := [user 1 10; user 2 20] |};
    {| lt_id := 2; lt_name := [2]; lt_high_water := 4; lt_rows := [post 2 (Some 2)] |}] |}.
Proof.
  destruct (s_write (ms_world sample_twice) s_name twice_tables 0 1 3 0 (empty_repo, no_stats)) as [r [repo' st']] eqn:E.
  assert (r = Ok tt) as Er by (change r with (r, (repo', st')).1; rewrite <- E; vm_compute; reflexivity).
  destruct (checkpoint_round_trip s_hash crc32c s_zstd_encode s_zstd_decode None s_pack_manifest s_unpack_manifest s_pack_chunk s_unpack_chunk s_zstd ltac:(discriminate) s_manifest s_chunk s_width
    (ms_world sample_twice) s_name twice_tables 0 1 3 0 empty_repo no_stats r repo' st') as (_ & _ & H); [exact empty_intact|exact twice_distinct|exact twice_sound|exact E|].
  destruct (H Er) as [Hlast Hload]. exists repo', st'. split; [by rewrite Er|]. split; [exact Hlast|]. rewrite Hload. vm_compute. reflexivity.
Defined.

(** Three checkpoints, the oldest one pruned. *)
Definition three_repo : Repo := (fold_left (fun s tx => (s_write (ms_world sample_twice) s_name twice_tables 0 tx 3 0 s).2) [1; 2; 5] (empty_repo, no_stats)).1.

Lemma prune_keeps_witness : exists repo', prune s_hash s_zstd_decode None s_unpack_manifest 0 2 three_repo = (Ok [1], repo') /\
  s_load repo' 0 2 = s_load three_repo 0 2 /\ is_ok (s_load three_repo 0 2) = true.
Proof.
  destruct (prune s_hash s_zstd_decode None s_unpack_manifest 0 2 three_repo) as [r repo'] eqn:E.
  assert (r = Ok [1]) as -> by (change r with (r, repo').1; rewrite <- E; vm_compute; reflexivity).
  exists repo'. split; [reflexivity|]. split; [|vm_compute; reflexivity].
  destruct (prune_keeps s_hash s_zstd_decode None s_unpack_manifest s_unpack_chunk 0 2 three_repo [1] repo' E) as (_ & _ & H).
  apply (H 2); [apply (bool_decide_unpack _); vm_compute; exact I|apply (bool_decide_unpack _); vm_compute; exact I].
Defined.

(** * Records of the sample *)

Definition record_of (r : result StoreError TxDiff) : TxRecord := match r with Ok d => from_diff d 0 0 [] [] | Err _ => plain_record 0 0 end.

Definition first_record : TxRecord := Eval vm_compute in record_of (commit (sample_tx Cascade 6) 7 (begin (sample_store Cascade)).2).1.
Definition second_record : TxRecord := Eval vm_compute in record_of (commit second_tx 9 (begin (sample_committed Cascade)).2).1.

(** The third transaction moves the badge of the first user to a third. *)
Definition third_record : TxRecord := {| tr_tx_id := 3; tr_timestamp := 0; tr_shard_id := 0;
  tr_mutations := [{| tm_table_id := 1; tm_inserts := [row_to_log (user 3 10)]; tm_deletes := [le_bytes 8 1] |}]; tr_auto_inc := [(2, 8)]; tr_caller := []; tr_reducer_name := [] |}.

Definition record_frame (r : TxRecord) : list Z :=
  match encode_entry crc32c 3 (default [] (s_encode_record r)) with Ok f => f | Err _ => [] end.

(** The first record is compacted away; the last frame is torn. *)
Definition left_segment : segment := Eval vm_compute in {| s_first := 2; s_epoch := 3; s_entries := [(3, second_record); (3, third_record)];
  s_bytes := record_frame second_record ++ record_frame third_record; s_tail := firstn 20 (record_frame first_record) |}.
Definition left_dir : LogDir := {| segs := {[ 2 := (seg_file crc32c left_segment).2 ]}; sidecars := [] |}.

Lemma left_on_disk : on_disk crc32c s_encode_record 0 [] left_segment left_dir.
Proof.
  split; [vm_compute; reflexivity| |constructor|done]. split; [|done].
  split; [split; [discriminate|reflexivity]|]. split; [discriminate|]. split; [|split].
  - change (s_entries left_segment) with [(3, second_record); (3, third_record)].
    assert (s_bytes left_segment = record_frame second_record ++ record_frame third_record ++ []) as -> by (vm_compute; reflexivity).
    econstructor; [split; [discriminate|reflexivity]|vm_compute; reflexivity|vm_compute; reflexivity|].
    econstructor; [split; [discriminate|reflexivity]|vm_compute; reflexivity|vm_compute; reflexivity|constructor].
  - repeat split; discriminate.
  - right. eexists 3, (default [] (s_encode_record first_record)), (record_frame first_record), _, (skipn 21 (record_frame first_record)).
    split; [split; [discriminate|reflexivity]|]. split; [vm_compute; reflexivity|]. split; [vm_compute; reflexivity|discriminate].
Qed.

(** The tables after the three transactions. *)
Definition users_schema : TableSchema := ti_schema (decl_info users_decl).
Definition posts_schema : TableSchema := ti_schema (decl_info posts_decl).
Definition final_tables : gmap Z WorkingTable := {[
  1 := {| wt_schema := users_schema; wt_rows := {[le_bytes 8 2 := user 2 20; le_bytes 8 3 := user 3 10]}; wt_high_water := 0 |};
  2 := {| wt_schema := posts_schema; wt_rows := {[le_bytes 8 2 := post 2 (Some 2)]}; wt_high_water := 8 |} ]}.
Definition twice_working : gmap Z WorkingTable := {[
  1 := {| wt_schema := users_schema; wt_rows := {[le_bytes 8 1 := user 1 10; le_bytes 8 2 := user 2 20]}; wt_high_water := 0 |};
  2 := {| wt_schema := posts_schema; wt_rows := {[le_bytes 8 2 := post 2 (Some 2)]}; wt_high_water := 4 |} ]}.

Lemma lookup_not_listed {A} (m : gmap Z A) ks k : map fst (map_to_list m) = ks -> k ∉ ks -> m !! k = None.
Proof.
  intros <- Hk. destruct (m !! k) as [a|] eqn:E; [|done]. exfalso. apply Hk. apply list_elem_of_fmap. exists (k, a). split; [done|]. by apply elem_of_map_to_list.
Qed.

Lemma twice_holds : tables_hold (ms_world sample_twice) twice_tables twice_working.
Proof.
  intros id. assert (map fst (map_to_list twice_tables) = [2; 1]) as Hk by (vm_compute; reflexivity).
  destruct (decide (id = 1)) as [->|H1]; [vm_compute; by repeat split|]. destruct (decide (id = 2)) as [->|H2]; [vm_compute; by repeat split|].
  rewrite (lookup_not_listed _ _ id Hk) by (rewrite elem_of_cons, list_elem_of_singleton; tauto).
  unfold twice_working. rewrite lookup_insert_ne, lookup_singleton_ne by congruence. exact I.
Qed.

Definition twice_checkpoint : LoadedCheckpoint := {| lc_last_tx_id := 1; lc_epoch := 3; lc_tables := [
  {| lt_id := 1; lt_name := [1]; lt_high_water := 0; lt_rows := [user 1 10; user 2 20] |};
  {| lt_id := 2; lt_name := [2]; lt_high_water := 4; lt_rows := [post 2 (Some 2)] |}] |}.

(** A newer checkpoint fails to load; the older one is adopted. *)
Lemma recovery_exact_witness : exists outcome,
  recover sample_table_id crc32c s_decode_record [(2, Err ManifestHash); (1, Ok twice_checkpoint)] 0 left_dir (fresh twice_tables) = Ok (final_tables, outcome) /\
  ro_rejected outcome = [2] /\ ro_checkpoint_tx_id outcome = Some 1.
Proof.
  eexists. split.
  - apply (recovery_exact crc32c crc32c_ok s_encode_record s_decode_record s_record sample_table_id [(2, Err ManifestHash); (1, Ok twice_checkpoint)] [(2, Err ManifestHash)] []
      0 [] left_segment left_dir (fresh twice_tables) twice_working final_tables 1 twice_checkpoint [first_record] [] [second_record] [third_record]);
      [exact left_on_disk|reflexivity| |reflexivity|constructor|repeat constructor|apply fresh_empty|vm_compute; reflexivity| |vm_compute; reflexivity].
    + constructor; [by eexists|constructor].
    + split; [|split].
      * apply (bool_decide_unpack _). vm_compute. exact I.
      * repeat constructor; (eexists; split; [reflexivity|]; split; [reflexivity|vm_compute; reflexivity]).
      * intros id t Et Hn. exfalso. apply Hn. unfold twice_working in Et. apply lookup_insert_Some in Et as [[<- _]|[_ Et]]; [vm_compute; set_solver|].
        apply lookup_singleton_Some in Et as [<- _]. vm_compute. set_solver.
  - repeat split.
Defined.
