(* ===== verification/Pipeline.v ===== *)
(** The transaction pipeline of a shard: [crates/fluxum-core/src/txn/mod.rs].

    One writer runs the queued reducer jobs in order: begin, run, commit or roll
    back, publish to the fan-out hook, and hand the commit's durable view to the
    commit log. Main results: the records handed to the log are exactly the
    commits, with consecutive ids, and applying them the way recovery does gives
    the tables of the store ([pipeline_logged] in PipelineProps).

    The clock readings of a job are arguments; reducers are functions on the open
    transaction. *)

From stdpp Require Import base list gmap sorting relations.
From Stdlib Require Import ZArith Lia.
From S2P Require Import Prelude FluxBin Row IndexKey TxState LogRecord Crc32c CommitLog PageFormat PagedTree KvTree TableState TableSpec Reclaim MemStore MergeSpec StoreSpec CommitSpec Replica TxSpec RefSpec Transaction StoreProps Checkpoint Recovery.

Module Pipeline.

(** How a reducer ended. *)
Inductive ReducerEnd : Type :=
  | Returned
  | Failed (e : StoreError)
  | Panicked (message : list Z).

Inductive PipelineError : Type :=
  | Rejected (e : StoreError)
  | ReducerPanic (message : list Z)
  | LogRefused (e : LogError)
  | LogStopped
  | ShardBusy
  | WorkerStopped
  | ZeroCapacity.

Record CommitMeta : Type := { caller : list Z; reducer_name : list Z }.

Definition anonymous : CommitMeta := {| caller := replicate 32 0; reducer_name := [] |}.

Record CommitReceipt : Type := { cr_tx_id : Z; cr_diff : TxDiff }.

(** The door of the commit log: the queue of its writer and the last accepted
    id; [lf_alive] is false once the writer has died. *)
Record LogFront : Type := { lf_shard : Z; lf_last_appended : Z; lf_queue : list TxRecord; lf_alive : bool }.

Definition append (record : TxRecord) (log : LogFront) : result PipelineError Z * LogFront :=
  match append_accepts (lf_shard log) (lf_last_appended log) record with
  | Err e => (Err (LogRefused e), log)
  | Ok tx_id =>
      if lf_alive log
      then (Ok tx_id, {| lf_shard := lf_shard log; lf_last_appended := tx_id; lf_queue := lf_queue log ++ [record]; lf_alive := true |})
      else (Err LogStopped, log)
  end.

Definition append_diff_as (diff : TxDiff) (timestamp : Z) (meta : CommitMeta) (log : LogFront) : result PipelineError Z * LogFront :=
  append (from_diff diff (lf_shard log) timestamp (caller meta) (reducer_name meta)) log.

Definition is_ephemeral (env : StoreEnv) (table : TableId) : bool :=
  match catalog env !! table with Some info => bool_decide (ti_access info = Ephemeral) | None => false end.

Definition has_ephemeral (env : StoreEnv) (diff : TxDiff) : bool :=
  existsb (fun t => is_ephemeral env (td_table_id t)) (diff_tables diff) || existsb (fun p => is_ephemeral env p.1) (diff_auto_inc diff).

(** The diff the log gets: no ephemeral tables. *)
Definition durable (env : StoreEnv) (diff : TxDiff) : TxDiff :=
  if has_ephemeral env diff then {|
    diff_tx_id := diff_tx_id diff;
    diff_tables := filter (fun t => is_ephemeral env (td_table_id t) = false) (diff_tables diff);
    diff_auto_inc := filter (fun p => is_ephemeral env p.1 = false) (diff_auto_inc diff) |}
  else diff.

Section pipeline.
Context {W T X B : Type} `{KvTree W T} `{RowCodec} `{SideIndex W X} `{BlobStore B}.
Notation Store := (MemStore W T X B).

Definition Reducer : Type := Tx T X -> ReducerEnd * Tx T X.

(** A panic rolls back like an error. *)
Definition execute (reducer : Reducer) (now : Z) (ms : Store) : result PipelineError TxDiff * Store :=
  let '(tx, ms) := begin ms in
  match reducer tx with
  | (Returned, tx) => let '(r, ms) := commit tx now ms in (map_err Rejected r, ms)
  | (Failed e, tx) => (Err (Rejected e), rollback tx ms)
  | (Panicked message, tx) => (Err (ReducerPanic message), rollback tx ms)
  end.

(** [ps_fanout] lists what the hook was called with; there is none without a
    hook. *)
Record PipelineState : Type := { ps_store : Store; ps_log : LogFront; ps_fanout : option (list (TxDiff * CommitMeta)) }.

Definition process (reducer : Reducer) (meta : CommitMeta) (timestamp now : Z) (s : PipelineState) : result PipelineError CommitReceipt * PipelineState :=
  match execute reducer now (ps_store s) with
  | (Err e, ms) => (Err e, {| ps_store := ms; ps_log := ps_log s; ps_fanout := ps_fanout s |})
  | (Ok diff, ms) =>
      let fanout := option_map (fun calls => calls ++ [(diff, meta)]) (ps_fanout s) in
      let '(r, log) := append_diff_as (durable (ms_env ms) diff) timestamp meta (ps_log s) in
      (r ≫= fun _ => Ok {| cr_tx_id := diff_tx_id diff; cr_diff := diff |}, {| ps_store := ms; ps_log := log; ps_fanout := fanout |})
  end.

(** ** The queue *)

Record Job : Type := { job_reducer : Reducer; job_meta : CommitMeta }.

Record Queue : Type := { q_capacity : nat; q_jobs : list Job; q_open : bool }.

Definition new (capacity : nat) : result PipelineError Queue :=
  if (capacity =? 0)%nat then Err ZeroCapacity else Ok {| q_capacity := capacity; q_jobs := []; q_open := true |}.

Definition submit_with (meta : CommitMeta) (reducer : Reducer) (q : Queue) : result PipelineError Queue :=
  if negb (q_open q) then Err WorkerStopped
  else if (length (q_jobs q) <? q_capacity q)%nat
  then Ok {| q_capacity := q_capacity q; q_jobs := q_jobs q ++ [{| job_reducer := reducer; job_meta := meta |}]; q_open := true |}
  else Err ShardBusy.

Definition submit (reducer : Reducer) (q : Queue) : result PipelineError Queue := submit_with anonymous reducer q.

Definition queue_depth (q : Queue) : Z := Z.of_nat (q_capacity q - (q_capacity q - length (q_jobs q))).

(** [run] takes the jobs from the front; each has its clock readings. *)
Fixpoint run (jobs : list (Job * (Z * Z))) (s : PipelineState) : list (result PipelineError CommitReceipt) * PipelineState :=
  match jobs with
  | [] => ([], s)
  | (job, (timestamp, now)) :: jobs =>
      let '(r, s) := process (job_reducer job) (job_meta job) timestamp now s in
      let '(rs, s) := run jobs s in (r :: rs, s)
  end.
End pipeline.
Arguments PipelineState : clear implicits.
Arguments Build_PipelineState {W T X B} _ _ _.
Arguments Reducer : clear implicits.
Arguments Job : clear implicits.
Arguments Queue : clear implicits.
End Pipeline.
