(* ===== verification/PipelineProps.v ===== *)
(** What the pipeline logs: [tracks] ties the committed tables of the store to
    the tables recovery rebuilds from the log, and every job keeps it. A replica
    that applies the record of a commit holds the durable contents of the
    primary. *)

From stdpp Require Import base list gmap sorting relations.
From Stdlib Require Import ZArith Lia.
From S2P Require Import Prelude FluxBin Row IndexKey TxState LogRecord Crc32c CommitLog PageFormat PagedTree KvTree TableState TableSpec Reclaim MemStore MergeSpec IndexSpec StoreSpec CommitSpec Replica TxSpec RefSpec Transaction StoreProps Checkpoint Recovery Pipeline.
Import Pipeline.

Notation Working := (gmap Z Recovery.WorkingTable).

(** * Records and working tables *)

Section working.
Context {W T X B : Type} {KT : KvTree W T} {KL : KvTreeLaws W T} {RC : RowCodec} {RL : RowCodecLaws}.
Context {SI : SideIndex W X} {SL : SideIndexLaws W T X} {BS : BlobStore B}.

(** The working tables have the rows [C] of the durable tables of the store and
    nothing of the ephemeral ones. *)
Definition rows_track (env : StoreEnv) (tabs : gmap TableId (TableState T X)) (C : contents) (wk : Working) : Prop := forall id,
  match tabs !! id, wk !! id with
  | Some ts, Some t => catalog env !! id = Some (schema ts) /\ Recovery.wt_schema t = ti_schema (schema ts) /\
      if is_ephemeral env id then Recovery.empty_table t else C !! id = Some (Recovery.wt_rows t)
  | None, None => C !! id = None
  | _, _ => False
  end.

Definition mark_of (wk : Working) (id : TableId) : option Z := Recovery.wt_high_water <$> wk !! id.

Lemma rows_track_get env tabs C wk id (ts : TableState T X) R : rows_track env tabs C wk -> tabs !! id = Some ts -> is_ephemeral env id = false -> C !! id = Some R ->
  exists t, wk !! id = Some t /\ Recovery.wt_rows t = R /\ Recovery.wt_schema t = ti_schema (schema ts) /\ catalog env !! id = Some (schema ts).
Proof using Type.
  intros Hr E He EC. specialize (Hr id). rewrite E, He in Hr. destruct (wk !! id) as [t|]; [|done]. destruct Hr as (Ec & Es & ER). exists t. split_and!; try done. congruence.
Qed.

Lemma rows_track_insert env tabs C wk id (ts : TableState T X) t R : rows_track env tabs C wk -> tabs !! id = Some ts -> wk !! id = Some t -> is_ephemeral env id = false ->
  rows_track env tabs (<[id := R]> C) (<[id := Recovery.with_rows t R]> wk).
Proof using Type.
  intros Hr E Et He id'. pose proof (Hr id') as H. destruct (decide (id' = id)) as [->|Hne]; [|by rewrite !lookup_insert_ne].
  rewrite !lookup_insert_eq, E, He. rewrite E, Et in H. by destruct H as (? & ? & _).
Qed.

(** Ephemeral tables may change under the working tables. *)
Lemma rows_track_ephemeral env (tabs : gmap TableId (TableState T X)) C wk id f : rows_track env tabs C wk -> is_ephemeral env id = true -> rows_track env tabs (alter f id C) wk.
Proof using Type.
  intros Hr He id'. pose proof (Hr id') as H. destruct (decide (id' = id)) as [->|Hne]; [|by rewrite lookup_alter_ne]. rewrite He in *. rewrite lookup_alter_eq.
  destruct (tabs !! id), (wk !! id); try done. by rewrite H.
Qed.

(** One table's part of a record. *)
Lemma mutation_tracks tx env tabs C wk id (ts : TableState T X) R ops : rows_track env tabs C wk -> tabs !! id = Some ts -> C !! id = Some R -> is_ephemeral env id = false ->
  ops_ok (shape ts) R ops -> keyed env id ops ->
  exists t, wk !! id = Some t /\ Recovery.apply_mutation tx wk (mutation_of (diff_of id R ops)) = Ok (<[id := Recovery.with_rows t (view R ops)]> wk).
Proof using Type.
  intros Hr E EC He Hops Hk. destruct (rows_track_get _ _ _ _ _ _ _ Hr E He EC) as (t & Et & ER & Es & Ecat). exists t. split; [done|].
  assert (insert_rows (mutation_of (diff_of id R ops)) = Ok (wrote_rows ops).*2) as Ei by (apply (insert_rows_of id ops env); [done|by rewrite diff_of_parts]).
  assert (delete_pks (mutation_of (diff_of id R ops)) = gone R ops) as Ed by (by rewrite diff_of_parts).
  assert (tm_table_id (mutation_of (diff_of id R ops)) = id) as Em by done. set (m := mutation_of _) in *.
  unfold Recovery.apply_mutation. rewrite Em, Et, Ei, Ed. cbn [map_err mbind result_bind].
  rewrite Recovery.keyed_rows_entries.
  - cbn [mbind result_bind]. unfold Recovery.insert_all. rewrite ER. by rewrite (proj1 (replay_view _ _ _ Hops)).
  - apply Forall_forall. intros [pk r] (op & Eop & Ew)%elem_wrote. destruct (Hk _ _ _ Eop Ew) as (_ & info & Ei' & Epk). simpl. rewrite Es. congruence.
Qed.

Notation durable_tables env l := (filter (fun t => is_ephemeral env (td_table_id t) = false) l).

Lemma mutations_track tx env l : forall (tabs : gmap TableId (TableState T X)) C wk, rows_track env tabs C wk -> NoDup l.*1 ->
  Forall (fun p => pending_ok tabs C p.1 p.2 /\ keyed env p.1 p.2) l ->
  exists wk', Recovery.apply_mutations tx (map mutation_of (durable_tables env (diffs_of C l))) wk = Ok wk' /\
    rows_track env tabs (fold_left apply_ops l C) wk' /\ forall id, mark_of wk' id = mark_of wk id.
Proof using Type.
  induction l as [|[id ops] l IH]; intros tabs C wk Hr Hnd Hl; [by exists wk|].
  rewrite fmap_cons in Hnd. apply NoDup_cons in Hnd as [Hn Hnd]. apply Forall_cons in Hl as [(Hop & Hkey) Hl]. cbn [fst snd] in *.
  assert (Forall (fun p => pending_ok tabs (apply_ops C (id, ops)) p.1 p.2 /\ keyed env p.1 p.2) l) as Hrest.
  { rewrite Forall_forall in *. intros [id' ops'] Hin. destruct (Hl _ Hin) as (Hp & Hk). split; [|done].
    destruct Hp as [->|(ts & R & E1 & E2 & Hok)]; [by left|]. assert (id' <> id) by (intros ->; apply Hn; apply list_elem_of_fmap; by exists (id, ops')).
    right. exists ts, R. simpl in *. unfold apply_ops. simpl. by rewrite lookup_alter_ne. }
  cbn [fold_left]. unfold diffs_of at 1. cbn [omap list_omap fst snd]. fold (diffs_of C l). rewrite <- (diffs_of_other C id ops l Hn).
  destruct (bool_decide (ops = ∅)) eqn:Eb; [|destruct Hop as [->|(ts & R & E1 & E2 & Hok)]; [by rewrite bool_decide_eq_true_2 in Eb|]; rewrite E2].
  - apply bool_decide_eq_true_1 in Eb as ->. apply IH; [|done|done]. intros k. pose proof (Hr k) as H. unfold apply_ops. simpl. destruct (decide (k = id)) as [->|]; [|by rewrite lookup_alter_ne].
    rewrite lookup_alter_eq. destruct (tabs !! id), (wk !! id); try done; [|by rewrite H]. destruct H as (? & ? & H). split_and!; try done. destruct (is_ephemeral env id); [done|].
    rewrite H. simpl. by rewrite view_empty.
  - cbn [fmap option_fmap option_map]. rewrite filter_cons. assert (td_table_id (diff_of id R ops) = id) as -> by by rewrite diff_of_parts. destruct (is_ephemeral env id) eqn:He.
    + rewrite decide_False by done. apply IH; [by apply rows_track_ephemeral|done|done].
    + rewrite decide_True by done. cbn [map Recovery.apply_mutations]. destruct (mutation_tracks tx env tabs C wk id ts R ops Hr E1 E2 He Hok Hkey) as (t & Et & ->). cbn [mbind result_bind].
      destruct (IH tabs (apply_ops C (id, ops)) (<[id := Recovery.with_rows t (view R ops)]> wk)) as (wk' & E & Hr' & Hm); [|done|done|].
      * assert (apply_ops C (id, ops) = <[id := view R ops]> C) as ->; [|by eapply rows_track_insert]. unfold apply_ops. simpl. apply map_eq. intros k.
        destruct (decide (k = id)) as [->|]; [by rewrite lookup_alter_eq, lookup_insert_eq, E2|by rewrite lookup_alter_ne, lookup_insert_ne].
      * exists wk'. split; [done|]. split; [done|]. intros k. rewrite Hm. unfold mark_of. destruct (decide (k = id)) as [->|]; [by rewrite lookup_insert_eq, Et|by rewrite lookup_insert_ne].
Qed.

(** Marks of tables: those listed are raised, rows stay. *)
Lemma mark_one wk id m k : mark_of (Recovery.apply_mark wk (id, m)) k = if decide (k = id) then Z.max m <$> mark_of wk k else mark_of wk k.
Proof using Type.
  unfold mark_of, Recovery.apply_mark. cbn [fst snd]. destruct (wk !! id) as [t|] eqn:Et; destruct (decide (k = id)) as [->|]; rewrite ?Et; try done.
  - rewrite lookup_insert_eq. simpl. f_equal. lia.
  - by rewrite lookup_insert_ne.
Qed.

Lemma marks_lookup marks k : forall wk, NoDup marks.*1 ->
  mark_of (fold_left Recovery.apply_mark marks wk) k = match (list_to_map marks : gmap Z Z) !! k with Some m => Z.max m <$> mark_of wk k | None => mark_of wk k end.
Proof using Type.
  induction marks as [|[id m] marks IH]; intros wk Hnd; [done|]. rewrite fmap_cons in Hnd. apply NoDup_cons in Hnd as [Hn Hnd]. cbn [fold_left]. rewrite (IH _ Hnd), mark_one. simpl.
  destruct (decide (k = id)) as [->|]; [|by rewrite lookup_insert_ne]. by rewrite lookup_insert_eq, (proj1 (not_elem_of_list_to_map _ _) Hn).
Qed.

Lemma marks_rows env (tabs : gmap TableId (TableState T X)) C marks : forall wk, Forall (fun p => is_ephemeral env p.1 = false) marks ->
  rows_track env tabs C wk -> rows_track env tabs C (fold_left Recovery.apply_mark marks wk).
Proof using Type.
  induction marks as [|[id m] marks IH]; intros wk Hf Hr; [done|]. apply Forall_cons in Hf as [He Hf]. cbn [fold_left]. apply IH; [done|]. intros k. pose proof (Hr k) as H.
  unfold Recovery.apply_mark. cbn [fst snd] in *. destruct (wk !! id) as [t|] eqn:Et; [|done].
  destruct (decide (k = id)) as [->|]; [|by rewrite lookup_insert_ne]. rewrite lookup_insert_eq. rewrite Et in H. destruct (tabs !! id); [|done]. by rewrite He in *.
Qed.
End working.

(** * One job *)

Lemma filter_all {A} (f : A -> bool) l : existsb f l = false -> filter (fun a => f a = false) l = l.
Proof.
  induction l as [|a l IH]; [done|]. cbn [existsb]. intros [Ha Hl]%orb_false_iff. rewrite filter_cons, decide_True, IH by done. done.
Qed.

Lemma durable_eq env diff : durable env diff = {| diff_tx_id := diff_tx_id diff; diff_tables := filter (fun t => is_ephemeral env (td_table_id t) = false) (diff_tables diff);
  diff_auto_inc := filter (fun p => is_ephemeral env p.1 = false) (diff_auto_inc diff) |}.
Proof.
  unfold durable. destruct (has_ephemeral env diff) eqn:E; [done|]. apply orb_false_iff in E as [E1 E2].
  rewrite (filter_all (fun t => is_ephemeral env (td_table_id t))), (filter_all (fun p : TableId * Z => is_ephemeral env p.1)) by done. by destruct diff.
Qed.

(** The marks of the dirty tables, ephemeral ones left out. *)
Lemma durable_marks env cs (dirty : gset TableId) :
  let marks := filter (fun p => is_ephemeral env p.1 = false) (map (fun id => (id, table_mark cs id)) (merge_sort Z.le (elements dirty))) in
  NoDup marks.*1 /\ Forall (fun p => is_ephemeral env p.1 = false) marks /\
  forall id, is_ephemeral env id = false -> (list_to_map marks : gmap Z Z) !! id = if decide (id ∈ dirty) then Some (table_mark cs id) else None.
Proof.
  cbv zeta. set (marks := filter _ _). assert (forall id m, (id, m) ∈ marks <-> is_ephemeral env id = false /\ m = table_mark cs id /\ id ∈ dirty) as Hin.
  { intros id m. unfold marks. rewrite list_elem_of_filter, list_elem_of_fmap. simpl. split.
    - intros (He & i & [= -> ->] & Hi). by rewrite merge_sorted_elem in Hi.
    - intros (He & -> & Hi). split; [done|]. exists id. by rewrite merge_sorted_elem. }
  assert (NoDup marks.*1) as Hnd.
  { unfold marks. apply NoDup_fst_filter. rewrite <- list_fmap_compose. simpl. rewrite (list_fmap_ext _ id); [|done]. rewrite list_fmap_id. rewrite merge_sort_Permutation. apply NoDup_elements. }
  split; [done|]. split; [apply Forall_forall; intros [id m] H; by apply Hin in H as (? & _)|]. intros id He. destruct (decide (id ∈ dirty)) as [Hd|Hd].
  - apply elem_of_list_to_map_1; [done|]. by apply Hin.
  - apply not_elem_of_list_to_map_1. intros ([id' m] & -> & H)%list_elem_of_fmap. by apply Hin in H as (_ & _ & ?).
Qed.

Section jobs.
Context {W T X B : Type} {KT : KvTree W T} {KL : KvTreeLaws W T} {RC : RowCodec} {RL : RowCodecLaws}.
Context {SI : SideIndex W X} {SL : SideIndexLaws W T X} {BS : BlobStore B}.
Notation Store := (MemStore W T X B).
Notation versions := (gmap Z (VersionState T X)).

(** The store holds [C], the working tables are what its log rebuilds, and no
    published mark is past its counter. *)
Record tracked (ms : Store) (rd : Z -> Z) (S : versions) (C : contents) (wk : Working) : Prop := {
  tk_holds : holds ms rd S C;
  tk_rows : rows_track (ms_env ms) (cs_tables (ms_committed ms)) C wk;
  tk_marks : forall id ts, cs_tables (ms_committed ms) !! id = Some ts -> is_ephemeral (ms_env ms) id = false -> mark_of wk id = Some (auto_inc_high_water ts);
  tk_counters : counters_ok (counters (ms_writer ms));
  tk_below : forall id ts, cs_tables (ms_committed ms) !! id = Some ts -> auto_inc_high_water ts <= table_mark (counters (ms_writer ms)) id;
  tk_step : 1 <= auto_inc_allocation_step (options (ms_env ms));
  tk_values : forall id R pk r, C !! id = Some R -> R !! pk = Some r -> forallb value_ok r = true;
}.

(** A reducer that issues good calls, with room for its effects. *)
Record job_ok (ms : Store) (C : contents) (Good : TableId -> list Z -> row -> Prop) (tx : Tx T X) : Prop := {
  jo_env : good_env (ms_env ms) (ms_blobs ms) (ms_world ms) C (ms_committed ms) Good;
  jo_calls : rtc (tx_step (ms_env ms) (ms_blobs ms) (ms_world ms) C Good) (begin ms).1 tx;
  jo_version : next_version (ms_writer ms) < u_max 64;
  jo_id : next_tx_id (ms_writer ms) < u_max 64;
  jo_room : kt_room (merge_run tx (begin ms).2).2.1;
}.

Lemma pending_keyed ms rd S C wk Good tx : tracked ms rd S C wk -> job_ok ms C Good tx ->
  Forall (fun p => pending_ok (cs_tables (ms_committed ms)) C p.1 p.2 /\ keyed (ms_env ms) p.1 p.2) (btree_entries (tables (tx_state tx))).
Proof using RL.
  intros K J. destruct (reached_good _ _ _ _ _ _ (tk_holds _ _ _ _ _ K) (jo_env _ _ _ _ J) (jo_calls _ _ _ _ J)) as [fs [Itx Eb Hgood]].
  apply Forall_forall. intros [id ops] Hops%elem_of_btree_entries. simpl. pose proof (ti_pending _ _ _ _ Itx id ops Hops) as Hp. rewrite Eb in Hp. split; [done|].
  destruct Hp as [->|(ts & R & E1 & ER & Hok)]; [intros pk op r; by rewrite lookup_empty|]. intros pk op r Hop Hw.
  pose proof (tk_rows _ _ _ _ _ K id) as Hr. rewrite E1 in Hr. destruct (wk !! id); [|done]. destruct Hr as (Ecat & _).
  assert (Good id pk r) as Hg.
  { apply (Hgood id (view R ops)); [unfold seen; by rewrite views_lookup, ER, Hops|]. rewrite view_lookup, Hop. by destruct op; simpl in *; simplify_eq. }
  destruct (ge_key _ _ _ _ _ _ (jo_env _ _ _ _ J) id _ pk r Ecat Hg) as (_ & Epk & Hv). split; [done|]. by exists (schema ts).
Qed.

Lemma values_kept ms rd S C wk Good tx : tracked ms rd S C wk -> job_ok ms C Good tx ->
  forall id R pk r, seen C tx !! id = Some R -> R !! pk = Some r -> forallb value_ok r = true.
Proof using RL.
  intros K J id R pk r ER Hr. destruct (reached_good _ _ _ _ _ _ (tk_holds _ _ _ _ _ K) (jo_env _ _ _ _ J) (jo_calls _ _ _ _ J)) as [fs [Itx Eb Hgood]].
  pose proof (Hgood _ _ _ _ ER Hr) as Hg. unfold seen in ER. rewrite views_lookup in ER. pose proof (tk_rows _ _ _ _ _ K id) as H.
  destruct (cs_tables (ms_committed ms) !! id) as [ts|], (wk !! id); try done; [|by rewrite H in ER]. destruct H as (Ecat & _). by eapply (ge_key _ _ _ _ _ _ (jo_env _ _ _ _ J) id _ pk r Ecat).
Qed.

(** A commit and its log record keep the working tables in step. *)
Lemma commit_tracked ms rd S C wk Good tx now shard ts cl nm : tracked ms rd S C wk -> job_ok ms C Good tx ->
  exists diff ms' S' wk', commit tx now (begin ms).2 = (Ok diff, ms') /\ diff_tx_id diff = next_tx_id (ms_writer ms) /\ ms_env ms' = ms_env ms /\
    next_tx_id (ms_writer ms') = next_tx_id (ms_writer ms) + 1 /\
    Recovery.apply_record (from_diff (durable (ms_env ms) diff) shard ts cl nm) wk = Ok wk' /\ tracked ms' rd S' (seen C tx) wk'.
Proof using RL SL.
  intros K J. pose proof (pending_keyed _ _ _ _ _ _ _ K J) as Hpend. pose proof (values_kept _ _ _ _ _ _ _ K J) as Hv. destruct K as [(I & Hm & fs & HS) Hr Hmk Hc Hb Hs _]. destruct J as [GE Hst Hnv Hid Hroom].
  destruct (transaction_spec ms rd S C fs Good tx now I Hm HS GE Hst Hnv Hroom) as (tabs & fs' & ms' & S' & E & I' & Hm' & Ec & HS' & _ & En & Een & _ & _ & Ectr & Hpub).
  pose proof (steps_grow _ _ _ _ _ _ _ Hs Hst Hc) as [Hc' Hgrow]. change (tx_writer (begin ms).1) with (ms_writer ms) in Hgrow.
  destruct (mutations_track (next_tx_id (ms_writer ms)) (ms_env ms) (btree_entries (tables (tx_state tx))) _ _ _ Hr (btree_keys_NoDup _) Hpend) as (wk1 & E1 & Hr1 & Hm1). rewrite fold_apply_ops in Hr1.
  destruct (durable_marks (ms_env ms) (counters (tx_writer tx)) (high_water_dirty (tx_writer tx))) as (Hnd & Hne & Hlook). set (marks := filter (fun p : TableId * Z => is_ephemeral (ms_env ms) p.1 = false) _) in *.
  eexists _, ms', S', (fold_left Recovery.apply_mark marks wk1). split; [exact E|]. split; [done|]. split; [done|].
  split; [rewrite En; unfold sat_add; lia|]. split.
  { unfold Recovery.apply_record. rewrite durable_eq. cbn [from_diff tr_tx_id tr_mutations tr_auto_inc diff_tx_id diff_tables diff_auto_inc]. change (map _ (filter _ _)) with (map mutation_of (filter (fun t => is_ephemeral (ms_env ms) (td_table_id t) = false) (diffs_of C (btree_entries (tables (tx_state tx)))))).
    rewrite E1. done. }
  pose proof (marks_rows (ms_env ms) _ _ marks wk1 Hne Hr1) as Hr2.
  assert (forall id, match cs_tables (ms_committed ms) !! id, tabs !! id with Some t, Some t' => schema t' = schema t /\
      auto_inc_high_water t' = (if decide (id ∈ high_water_dirty (tx_writer tx)) then table_mark (counters (tx_writer tx)) id else auto_inc_high_water t)
    | None, None => True | _, _ => False end) as Hp.
  { intros id. specialize (Hpub id). destruct (cs_tables (ms_committed ms) !! id), (tabs !! id); try done. destruct Hpub as (? & H1 & H2). split; [done|]. destruct (decide _); auto. }
  split; rewrite ?Een, ?Ec, ?Ectr; cbn [cs_tables]; try done.
  - split; [done|]. split; [done|]. exists fs'. by rewrite Ec.
  - intros id. specialize (Hr2 id). specialize (Hp id). destruct (cs_tables (ms_committed ms) !! id), (tabs !! id); try done. destruct Hp as [-> _]. exact Hr2.
  - intros id t' Et' He. specialize (Hp id). rewrite Et' in Hp. destruct (cs_tables (ms_committed ms) !! id) as [t|] eqn:Et; [|done]. destruct Hp as [_ ->].
    rewrite (marks_lookup _ _ _ Hnd), (Hlook _ He), Hm1, (Hmk _ _ Et He). destruct (decide _); [|done]. simpl. f_equal. pose proof (Hb _ _ Et). specialize (Hgrow id). lia.
  - intros id t' Et'. specialize (Hp id). rewrite Et' in Hp. destruct (cs_tables (ms_committed ms) !! id) as [t|] eqn:Et; [|done]. destruct Hp as [_ ->]. destruct (decide _); [done|].
    pose proof (Hb _ _ Et). specialize (Hgrow id). lia.
Qed.

(** A rollback leaves the tables alone; counters keep what they handed out. *)
Lemma rollback_tracked ms rd S C wk Good tx : tracked ms rd S C wk -> job_ok ms C Good tx -> exists S', tracked (rollback tx (begin ms).2) rd S' C wk /\
  ms_committed (rollback tx (begin ms).2) = ms_committed ms /\ ms_env (rollback tx (begin ms).2) = ms_env ms /\ next_tx_id (ms_writer (rollback tx (begin ms).2)) = next_tx_id (ms_writer ms).
Proof using RL.
  intros [(I & Hm & fs & HS) Hr Hmk Hc Hb Hs Hvals] J. destruct J as [GE Hst Hnv Hid Hroom].
  destruct (begin_spec ms rd S C fs I HS) as (I0 & Htx & Hseen & Eb & Ec & Ew & Ew0 & Ewd).
  assert (tx_good (ms_world ms) C fs (ms_committed ms) Good (begin ms).1) as G0 by (split; [done|done|]; rewrite Hseen; by eapply (ge_base _ _ _ _ _ _ GE)).
  destruct (steps_good _ _ _ _ _ _ _ GE _ _ Hst G0) as [G (F1 & F2 & F3 & F5 & F4)]. pose proof (steps_grow _ _ _ _ _ _ _ Hs Hst Hc) as [Hc' Hgrow].
  assert (tx_base tx = ms_committed ms) as Etb by (apply (tg_base _ _ _ _ _ _ G)).
  assert (store_inv (set_writer (begin ms).2 (tx_writer tx)) (add_rd (cs_version (ms_committed ms)) 1 rd) S) as I1 by (apply writer_inv; [by rewrite F3, Ew, Ew0|done]).
  destruct (arc_drop_inv _ _ _ (cs_version (ms_committed ms)) I1) as (i & w & arcs & S' & Ed & I2 & Hsub & _).
  { unfold add_rd. rewrite decide_True by done. pose proof (si_readers _ _ _ I (cs_version (ms_committed ms))). lia. }
  unfold rollback. rewrite Etb, Ed. exists S'. split; [|split_and!; try done; simpl; by rewrite F5, Ew]. split; cbn [ms_env set_reclaim set_writer ms_committed ms_writer]; try done.
  - split; [eapply store_inv_ext; [|exact I2]; intros v; unfold add_rd; destruct (decide _); lia|]. split; [intros id Hid'; apply F4 in Hid'; [by rewrite Etb in Hid'|intros ?; rewrite Ew, Eb; apply Hm]|].
    exists fs. destruct (si_current _ _ _ I2) as (s & Es & _). cbn [set_reclaim set_writer ms_committed] in Es |- *. rewrite Ec in Es |- *. rewrite Es. rewrite (lookup_weaken _ _ _ _ Es Hsub) in HS. by injection HS as ->.
  - intros id t Et. pose proof (Hb id t Et). specialize (Hgrow id). change (tx_writer (begin ms).1) with (ms_writer ms) in Hgrow. lia.
Qed.

(** * Sequences of jobs *)

Notation PState := (PipelineState W T X B).

Definition front_ok (s : PState) : Prop := lf_alive (ps_log s) = true /\ lf_last_appended (ps_log s) < next_tx_id (ms_writer (ps_store s)).

(** The jobs a pipeline served, one after the other; [C] and [C'] are the
    contents before and after. *)
Inductive served : PState -> contents -> PState -> contents -> Prop :=
  | served_none s C : served s C s C
  | served_job s C s1 C1 Good reducer meta timestamp now : served s C s1 C1 ->
      let tx := reducer (begin (ps_store s1)).1 in
      job_ok (ps_store s1) C1 Good tx.2 ->
      served s C (process reducer meta timestamp now s1).2 (match tx.1 with Returned => seen C1 tx.2 | _ => C1 end).

(** One job: a commit appends one record, everything else none. *)
Lemma process_tracked (s : PState) rd S C wk Good reducer meta timestamp now : tracked (ps_store s) rd S C wk -> front_ok s ->
  let tx := reducer (begin (ps_store s)).1 in job_ok (ps_store s) C Good tx.2 ->
  exists r s' S' wk' new, process reducer meta timestamp now s = (r, s') /\ front_ok s' /\ lf_shard (ps_log s') = lf_shard (ps_log s) /\
    lf_queue (ps_log s') = lf_queue (ps_log s) ++ new /\ Recovery.apply_records new wk = Ok wk' /\
    tracked (ps_store s') rd S' (match tx.1 with Returned => seen C tx.2 | _ => C end) wk' /\
    next_tx_id (ms_writer (ps_store s')) = next_tx_id (ms_writer (ps_store s)) + Z.of_nat (length new) /\
    match tx.1 with
    | Returned => is_ok r = true /\ map tr_tx_id new = [next_tx_id (ms_writer (ps_store s))]
    | _ => is_ok r = false /\ new = [] /\ ms_committed (ps_store s') = ms_committed (ps_store s)
    end.
Proof using RL SL.
  intros K [Ha Hl] tx J. unfold process, execute. rewrite (surjective_pairing (begin (ps_store s))). destruct (reducer (begin (ps_store s)).1) as [end_ tx'] eqn:Er. subst tx. cbn [fst snd] in *.
  destruct end_ as [|e|msg].
  - destruct (commit_tracked _ _ _ _ _ _ _ now (lf_shard (ps_log s)) timestamp (caller meta) (reducer_name meta) K J) as (diff & ms' & S' & wk' & -> & Eid & Een & En & Ea & K').
    cbn [map_err]. set (rec := from_diff _ _ _ _ _) in Ea. assert (tr_tx_id rec = next_tx_id (ms_writer (ps_store s))) as Et by (unfold rec; rewrite durable_eq; exact Eid).
    unfold append_diff_as. rewrite Een. fold rec. unfold append, append_accepts. assert (tr_shard_id rec = lf_shard (ps_log s)) as -> by done. rewrite Z.eqb_refl, Et. cbn [negb].
    rewrite (proj2 (Z.leb_gt _ _)) by lia. rewrite Ha. eexists _, _, S', wk', [rec]. split; [reflexivity|]. cbn [ps_store ps_log lf_shard lf_queue lf_alive lf_last_appended length]. split; [split; cbn; [done|]; rewrite En; lia|].
    split; [done|]. split; [done|]. split; [simpl; by rewrite Ea|]. split; [done|]. split; [done|]. split; [done|]. cbn [map]. by rewrite Et.
  - destruct (rollback_tracked _ _ _ _ _ _ _ K J) as (S' & K' & Ec & _ & En). eexists _, _, S', wk, []. split; [reflexivity|]. cbn [ps_store ps_log]. split; [split; cbn [ps_store ps_log]; [done|by rewrite En]|].
    rewrite app_nil_r, En. split_and!; try done. simpl. lia.
  - destruct (rollback_tracked _ _ _ _ _ _ _ K J) as (S' & K' & Ec & _ & En). eexists _, _, S', wk, []. split; [reflexivity|]. cbn [ps_store ps_log]. split; [split; cbn [ps_store ps_log]; [done|by rewrite En]|].
    rewrite app_nil_r, En. split_and!; try done. simpl. lia.
Qed.

Lemma served_tracked (s : PState) C s' C' : served s C s' C' -> forall rd S wk, tracked (ps_store s) rd S C wk -> front_ok s ->
  exists new S' wk', lf_queue (ps_log s') = lf_queue (ps_log s) ++ new /\ map tr_tx_id new = seqZ (next_tx_id (ms_writer (ps_store s))) (Z.of_nat (length new)) /\
    next_tx_id (ms_writer (ps_store s')) = next_tx_id (ms_writer (ps_store s)) + Z.of_nat (length new) /\
    Recovery.apply_records new wk = Ok wk' /\ tracked (ps_store s') rd S' C' wk' /\ front_ok s'.
Proof using RL SL.
  induction 1 as [s C|s C s1 C1 Good reducer meta timestamp now _ IH tx J]; intros rd S wk K F.
  { exists [], S, wk. rewrite app_nil_r. split_and!; try done. simpl. lia. }
  destruct (IH rd S wk K F) as (new1 & S1 & wk1 & Eq1 & Ei1 & En1 & Ea1 & K1 & F1).
  destruct (process_tracked s1 rd S1 C1 wk1 Good reducer meta timestamp now K1 F1 J) as (r & s2 & S2 & wk2 & new2 & -> & F2 & _ & Eq2 & Ea2 & K2 & En2 & Hr). fold tx in K2, Hr.
  exists (new1 ++ new2), S2, wk2. cbn [snd]. rewrite Eq2, Eq1, <- app_assoc, length_app, Nat2Z.inj_add. split; [done|]. split.
  - rewrite map_app, Ei1, seqZ_app by lia. f_equal. destruct (tx.1); [|by destruct Hr as (_ & -> & _)..]. destruct Hr as [_ Hr]. rewrite Hr, En1.
    assert (length new2 = 1%nat) as -> by (by rewrite <- (length_map tr_tx_id), Hr). done.
  - split; [lia|]. split; [|done]. rewrite Recovery.apply_records_app, Ea1. done.
Qed.

(** The tables the store holds are the working tables. *)
Lemma tracked_hold ms rd S C wk : tracked ms rd S C wk -> Recovery.tables_hold (ms_world ms) (cs_tables (ms_committed ms)) wk.
Proof using RL.
  intros [(I & _ & fs & HS) Hr Hmk _ _ _ _] id. specialize (Hr id). destruct (si_states _ _ _ I _ _ HS) as (HT & _ & _). cbn [vs_tables vs_content vs_pages] in HT.
  destruct (cs_tables (ms_committed ms) !! id) as [ts|] eqn:Ets, (wk !! id) as [t|] eqn:Et; try done. destruct Hr as (Ecat & Es & Hr). split; [done|].
  assert (is_ephemeral (ms_env ms) id = bool_decide (ti_access (schema ts) = Ephemeral)) as Eeph by (unfold is_ephemeral; by rewrite Ecat). rewrite <- Eeph.
  destruct (is_ephemeral (ms_env ms) id) eqn:He; [done|]. split.
  - destruct (tables_is_get _ _ _ _ _ _ HT Ets) as (R & g & EC & _ & Ht). rewrite Hr in EC. injection EC as <-. destruct Ht as [(fr & fi & fu & _ & HR & _) _].
    by apply (for_each_row_spec _ _ _ _ _ (si_world _ _ _ I) HR).
  - specialize (Hmk _ _ Ets He). unfold mark_of in Hmk. rewrite Et in Hmk. by injection Hmk as ->.
Qed.

Lemma tracked_sound ms rd S C wk : tracked ms rd S C wk -> Forall (fun p => Checkpoint.sound (ms_world ms) p.2) (btree_entries (cs_tables (ms_committed ms))).
Proof using RL.
  intros [(I & _ & fs & HS) _ _ _ _ _ Hv]. destruct (si_states _ _ _ I _ _ HS) as (HT & _ & _). cbn [vs_tables vs_content vs_pages] in HT.
  apply Forall_forall. intros [id ts] Hin%elem_of_btree_entries. simpl. destruct (tables_is_get _ _ _ _ _ _ HT Hin) as (R & g & EC & _ & Ht). destruct Ht as [(fr & fi & fu & _ & HR & _) _].
  intros rs. rewrite (for_each_row_spec _ _ _ _ _ (si_world _ _ _ I) HR). intros [= <-]. split.
  - destruct HR as (_ & -> & _). by rewrite btree_entries_perm, length_map_to_list.
  - apply Forall_forall. intros [pk r] Hr%elem_of_btree_entries. simpl. by eapply Hv.
Qed.

(** C11: the log has every commit. Whatever jobs a pipeline serves, reducers that
    fail or panic included, the records handed to the commit log are one per
    commit with consecutive ids; applied the way recovery applies them, they give
    exactly the durable tables and marks the store holds afterwards. *)
Theorem pipeline_logged (s : PState) C s' C' rd S wk : tracked (ps_store s) rd S C wk -> front_ok s -> served s C s' C' ->
  exists new S' wk', lf_queue (ps_log s') = lf_queue (ps_log s) ++ new /\ map tr_tx_id new = seqZ (next_tx_id (ms_writer (ps_store s))) (Z.of_nat (length new)) /\
    Recovery.apply_records new wk = Ok wk' /\ holds (ps_store s') rd S' C' /\
    Recovery.tables_hold (ms_world (ps_store s')) (cs_tables (ms_committed (ps_store s'))) wk'.
Proof using RL SL.
  intros K F Hs. destruct (served_tracked s C s' C' Hs rd S wk K F) as (new & S' & wk' & Eq & Ei & _ & Ea & K' & _). exists new, S', wk'.
  split_and!; try done; [apply (tk_holds _ _ _ _ _ K')|by eapply tracked_hold].
Qed.

(** ** Crashes *)

(** A fresh store: its working tables are the blank ones. *)
Lemma fresh_schemas (tabs : gmap TableId (TableState T X)) : Recovery.schemas (Recovery.fresh tabs) = (fun ts => ti_schema (schema ts)) <$> tabs.
Proof using Type. unfold Recovery.schemas, Recovery.fresh. rewrite <- map_fmap_compose. done. Qed.

Lemma tracked_schemas ms rd S C wk : tracked ms rd S C wk -> Recovery.schemas wk = (fun ts => ti_schema (schema ts)) <$> cs_tables (ms_committed ms).
Proof using Type.
  intros K. apply map_eq. intros id. unfold Recovery.schemas. rewrite !lookup_fmap. pose proof (tk_rows _ _ _ _ _ K id) as H.
  destruct (cs_tables (ms_committed ms) !! id), (wk !! id); try done. simpl. by destruct H as (_ & -> & _).
Qed.

Lemma fresh_same (tabs tabs' : gmap TableId (TableState T X)) : Recovery.schemas (Recovery.fresh tabs) = Recovery.schemas (Recovery.fresh tabs') -> Recovery.fresh tabs = Recovery.fresh tabs'.
Proof using Type.
  rewrite !fresh_schemas. intros E. unfold Recovery.fresh. apply map_eq. intros id. apply (f_equal (lookup id)) in E. rewrite !lookup_fmap in *.
  destruct (tabs !! id), (tabs' !! id); simpl in *; try done. by injection E as ->.
Qed.

(** Records in id order split at a transaction. *)
Lemma split_at_tx tx l : StronglySorted Z.lt (map tr_tx_id l) -> exists a b, l = a ++ b /\ Forall (fun r => tr_tx_id r <= tx) a /\ Forall (fun r => tx < tr_tx_id r) b.
Proof using Type.
  induction l as [|r l IH]; intros Hs; [by exists [], []|]. cbn [map] in Hs. apply StronglySorted_inv in Hs as [Hs Hall]. destruct (Z.le_gt_cases (tr_tx_id r) tx) as [Hle|Hgt].
  - destruct (IH Hs) as (a & b & -> & Ha & Hb). exists (r :: a), b. split_and!; try done. by constructor.
  - exists [], (r :: l). split_and!; try done. constructor; [done|]. apply (Forall_fmap tr_tx_id) in Hall. eapply Forall_impl; [exact Hall|]. intros r'. simpl. lia.
Qed.

Lemma seqZ_sorted m n : StronglySorted Z.lt (seqZ m n).
Proof using Type.
  unfold seqZ. generalize (Z.to_nat n) as k, 0%nat as j. induction k as [|k IH]; intros j; [constructor|]. cbn [seq]. rewrite fmap_cons. constructor; [apply IH|].
  apply Forall_fmap, Forall_forall. intros i Hi%elem_of_seq. simpl. lia.
Qed.

(** Consecutive ids. *)
Lemma consecutive_elem (l : list TxRecord) a r : map tr_tx_id l = seqZ a (Z.of_nat (length l)) -> r ∈ l -> a <= tr_tx_id r < a + Z.of_nat (length l).
Proof using Type. intros E Hr. apply elem_of_seqZ. rewrite <- E. apply list_elem_of_fmap. by exists r. Qed.

Lemma consecutive_last (l : list TxRecord) a r : map tr_tx_id (l ++ [r]) = seqZ a (Z.of_nat (length (l ++ [r]))) -> tr_tx_id r = a + Z.of_nat (length l).
Proof using Type.
  intros E. assert (map tr_tx_id (l ++ [r]) !! length l = Some (tr_tx_id r)) as H by (rewrite map_app, lookup_app_r; rewrite length_map; [by rewrite Nat.sub_diag|done]).
  rewrite E in H. apply lookup_seqZ in H as [H _]. lia.
Qed.

(** The newest of the records that are left and of the checkpoint is the newest
    of the history. *)
Lemma newest_left (pre : list TxRecord) (es : list (Z * TxRecord)) a tx : map tr_tx_id (pre ++ map snd es) = seqZ a (Z.of_nat (length (pre ++ map snd es))) ->
  Forall (fun r => tr_tx_id r <= tx) pre -> a <= tx < a + Z.of_nat (length (pre ++ map snd es)) ->
  Recovery.option_max (prev_after None es) (Some tx) = Some (a + Z.of_nat (length (pre ++ map snd es)) - 1).
Proof using Type.
  intros E Hp Htx. destruct es as [|[e r] es _] using rev_ind.
  - cbn [map] in *. rewrite app_nil_r in *. simpl. f_equal. destruct pre as [|r pre _] using rev_ind; [simpl in Htx; lia|]. pose proof (consecutive_last pre a r E) as Hl.
    apply Forall_app in Hp as [_ [Hr _]%Forall_cons]. rewrite length_app in *. simpl in *. lia.
  - assert (pre ++ map snd (es ++ [(e, r)]) = (pre ++ map snd es) ++ [r]) as El by by rewrite map_app, app_assoc. rewrite El in *. pose proof (consecutive_last _ a r E) as Hl. unfold prev_after. rewrite last_snoc. cbn [Recovery.option_max]. f_equal.
    clear E El. revert Htx Hl. generalize (pre ++ map snd es) as l. intros l Htx ->. rewrite length_app in *. cbn [length] in *. lia.
Qed.

(** What is gone from the log was in the first part of the history. *)
Lemma gone_prefix (pre suf q1 q2 : list TxRecord) tx : pre ++ suf = q1 ++ q2 -> Forall (fun r => tr_tx_id r <= tx) pre -> Forall (fun r => tx < tr_tx_id r) q2 ->
  exists m, q1 = pre ++ m /\ suf = m ++ q2.
Proof using Type.
  intros E Hp Hq. destruct (app_eq_inv _ _ _ _ E) as [(m & -> & ->)|(m & -> & ->)]; [|by exists m].
  destruct m as [|r m]; [exists []; by rewrite !app_nil_r|]. exfalso. apply Forall_app in Hp as [_ [Hr _]%Forall_cons]. apply Forall_app in Hq as [[Hr' _]%Forall_cons _]. lia.
Qed.

Section crash.
Context (sha256 : list Z -> list Z) (crc32 : list Z -> Z).
Context (zstd_encode zstd_decode : list Z -> option (list Z)).
Context (keyring : option ((nat -> list Z -> option (list Z)) * (list Z -> option (list Z)))).
Context (pack_manifest : Checkpoint.Manifest -> option (list Z)) (unpack_manifest : list Z -> option Checkpoint.Manifest).
Context (pack_chunk : list (list LogValue.t) -> option (list Z)) (unpack_chunk : list Z -> option (list (list LogValue.t))).
Context (Hzstd : forall bs c, zstd_encode bs = Some c -> Checkpoint.starts_with Checkpoint.ZSTD_MAGIC c = true /\ zstd_decode c = Some bs).
Context (Hseal : forall seal open n bs c, keyring = Some (seal, open) -> seal n bs = Some c -> open c = Some bs).
Context (Hmanifest : forall m body, pack_manifest m = Some body -> unpack_manifest body = Some m).
Context (Hchunk : forall rows body, pack_chunk rows = Some body -> unpack_chunk body = Some rows).
Context (Hwidth : forall bs, blen (sha256 bs) = 32).
Context (crc32c : list Z -> Z) (Hcrc : forall bs, u_ok 32 (crc32c bs)).
Context (encode_record : TxRecord -> option (list Z)) (decode_record : list Z -> option TxRecord).
Context (Hcodec : forall r body, encode_record r = Some body -> decode_record body = Some r).
Context (table_id_of : list Z -> Z).

Notation write := (Checkpoint.write sha256 crc32 zstd_encode keyring pack_manifest pack_chunk).
Notation load := (Checkpoint.load sha256 zstd_decode keyring unpack_manifest unpack_chunk).

(** C10: commits survive a crash. A pipeline serves jobs from a fresh store,
    a checkpoint is written of the store then, under the id of a transaction it
    has committed, into a repository whose objects are intact and where the hash
    tells the stored objects and the chunks of this write apart, and more jobs follow. If the log on disk has every record
    handed to it, but for some the checkpoint covers, recovery returns without
    error exactly the durable tables and marks the store held at the crash, and
    resumes with the transaction id the store would have given next. *)
Theorem commits_survive_crash (s0 s1 s2 : PState) C0 C1 C2 rd S0 name_of shard tx ep now repo st repo' st' init x d pre :
  tracked (ps_store s0) rd S0 C0 (Recovery.fresh (cs_tables (ms_committed (ps_store s0)))) -> front_ok s0 -> lf_queue (ps_log s0) = [] ->
  served s0 C0 s1 C1 -> served s1 C1 s2 C2 ->
  next_tx_id (ms_writer (ps_store s0)) <= tx < next_tx_id (ms_writer (ps_store s1)) -> next_tx_id (ms_writer (ps_store s2)) <= u_max 64 ->
  Checkpoint.objects_intact sha256 repo ->
  Checkpoint.no_collision sha256 repo (Checkpoint.write_artifacts crc32 zstd_encode keyring pack_chunk (ms_world (ps_store s1)) (cs_tables (ms_committed (ps_store s1))) repo) -> map_Forall (fun id _ => table_id_of (name_of id) = id) (cs_tables (ms_committed (ps_store s1))) ->
  write (ms_world (ps_store s1)) name_of (cs_tables (ms_committed (ps_store s1))) shard tx ep now (repo, st) = (Ok tt, (repo', st')) ->
  on_disk crc32c encode_record shard init x d -> lf_queue (ps_log s2) = pre ++ map snd (all_entries (init ++ [x])) -> Forall (fun r => tr_tx_id r <= tx) pre ->
  exists wk outcome,
    Recovery.recover table_id_of crc32c decode_record (Recovery.repo_loads (load repo') shard (Checkpoint.list_checkpoints repo' shard)) shard d
      (Recovery.fresh (cs_tables (ms_committed (ps_store s0)))) = Ok (wk, outcome) /\
    Recovery.tables_hold (ms_world (ps_store s2)) (cs_tables (ms_committed (ps_store s2))) wk /\
    Recovery.ro_next_tx_id outcome = next_tx_id (ms_writer (ps_store s2)).
Proof using RL SL Hzstd Hseal Hmanifest Hchunk Hwidth Hcrc Hcodec.
  intros K0 F0 Eq0 H1 H2 Htx Hmax Hok Hfree Hn Ew Hd Eq Hpre.
  destruct (served_tracked _ _ _ _ H1 rd S0 _ K0 F0) as (q1 & S1 & wk1 & Eq1 & Ei1 & En1 & Ea1 & K1 & F1).
  destruct (served_tracked _ _ _ _ H2 rd S1 _ K1 F1) as (q2 & S2 & wk2 & Eq2 & Ei2 & En2 & Ea2 & K2 & F2). rewrite Eq0, app_nil_l in Eq1. rewrite Eq1, Eq in Eq2.
  assert (Forall (fun r => tx < tr_tx_id r) q2) as Hq2.
  { apply Forall_forall. intros r Hr%(consecutive_elem _ _ _ Ei2). lia. }
  destruct (gone_prefix _ _ _ _ _ Eq2 Hpre Hq2) as (m & -> & Esuf).
  destruct (split_at_tx tx m) as (old & r1 & -> & Hold & Hr1).
  { pose proof (seqZ_sorted (next_tx_id (ms_writer (ps_store s0))) (Z.of_nat (length (pre ++ m)))) as Hs. rewrite <- Ei1, map_app in Hs. by apply StronglySorted_app_1_r in Hs. }
  rewrite <- app_assoc in Esuf. assert (Recovery.fresh (cs_tables (ms_committed (ps_store s0))) = Recovery.fresh (cs_tables (ms_committed (ps_store s1)))) as Ef.
  { apply fresh_same. rewrite <- (Recovery.records_schemas _ _ _ Ea1), (tracked_schemas _ _ _ _ _ K1). by rewrite fresh_schemas. }
  rewrite Ef in Ea1 |- *. eexists wk2, _. split; [|split; [by eapply tracked_hold|]].
  - eapply (Recovery.crash_recovery sha256 crc32 zstd_encode zstd_decode keyring pack_manifest unpack_manifest pack_chunk unpack_chunk Hzstd Hseal Hmanifest Hchunk Hwidth
      crc32c Hcrc encode_record decode_record Hcodec table_id_of (ms_world (ps_store s1)) name_of (cs_tables (ms_committed (ps_store s1))) shard tx ep now repo st repo' st' init x d wk1 wk2 pre old r1 q2);
      [exact Hok|exact Hfree|by eapply tracked_sound|exact Hn|exact Ea1|by eapply tracked_hold|exact Ew|exact Hd|exact Esuf|exact Hold|by apply Forall_app|].
    rewrite !app_assoc, Recovery.apply_records_app, <- app_assoc, Ea1. exact Ea2.
  - assert (map tr_tx_id ((pre ++ old ++ r1) ++ q2) = seqZ (next_tx_id (ms_writer (ps_store s0))) (Z.of_nat (length ((pre ++ old ++ r1) ++ q2)))) as Ei.
    { rewrite map_app, length_app, Nat2Z.inj_add, seqZ_app by lia. rewrite Ei1, Ei2, En1. done. }
    rewrite <- Eq2 in Ei. unfold Recovery.outcome_of. cbn [Recovery.ro_next_tx_id].
    pose proof (f_equal (@length TxRecord) Eq2) as Elen. rewrite length_app in Elen.
    rewrite (newest_left pre _ (next_tx_id (ms_writer (ps_store s0))) tx Ei Hpre); rewrite Eq2, ?length_app in *; [unfold sat_add; lia|lia].
Qed.
End crash.
End jobs.

(** * Replicas

    The record of a commit holds the durable view of its diff: tables with
    ephemeral access are neither logged nor replicated, and what a replica holds
    in them is its own. *)

(** ** The durable part of a diff *)

(** The pending operations on durable tables. *)
Definition durable_ops (env : StoreEnv) (pend : pending_tables) : pending_tables := filter (fun p => is_ephemeral env p.1 = false) pend.

Lemma durable_ops_lookup (env : StoreEnv) (pend : pending_tables) id : durable_ops env pend !! id = if is_ephemeral env id then None else pend !! id.
Proof.
  unfold durable_ops. destruct (is_ephemeral env id) eqn:E.
  - apply map_lookup_filter_None_2. right. intros ops _. simpl. congruence.
  - destruct (pend !! id) as [ops|] eqn:Eo; [by apply map_lookup_filter_Some_2|]. apply map_lookup_filter_None_2. by left.
Qed.

Lemma durable_entries (env : StoreEnv) (pend : pending_tables) : btree_entries (durable_ops env pend) = filter (fun p => is_ephemeral env p.1 = false) (btree_entries pend).
Proof.
  symmetry. apply btree_entries_unique.
  - apply StronglySorted_filter, btree_entries_sorted.
  - intros id ops. rewrite list_elem_of_filter, elem_of_btree_entries, durable_ops_lookup. simpl. destruct (is_ephemeral env id); naive_solver.
Qed.

(** The durable tables of a diff, over contents that agree on them. *)
Lemma durable_diffs (env : StoreEnv) (C C2 : contents) l : (forall id, is_ephemeral env id = false -> C2 !! id = C !! id) ->
  diffs_of C2 (filter (fun p => is_ephemeral env p.1 = false) l) = filter (fun t => is_ephemeral env (td_table_id t) = false) (diffs_of C l).
Proof.
  intros HC. induction l as [|[id ops] l IH]; [done|]. unfold diffs_of in *. rewrite filter_cons. cbn [omap list_omap fst snd]. destruct (is_ephemeral env id) eqn:E.
  - rewrite decide_False by done. rewrite IH. destruct (bool_decide (ops = ∅)); [done|]. destruct (C !! id) as [R|]; [|done]. cbn [fmap option_fmap option_map].
    rewrite filter_cons_False; [done|]. rewrite diff_of_parts. simpl. congruence.
  - rewrite decide_True by done. cbn [omap list_omap fst snd]. rewrite IH, HC by done. destruct (bool_decide (ops = ∅)); [done|]. destruct (C !! id) as [R|]; [|done].
    cbn [fmap option_fmap option_map]. rewrite filter_cons_True; [done|]. by rewrite diff_of_parts.
Qed.

(** ** Convergence *)

Section replicas.
Context {W T X B : Type} {KT : KvTree W T} {KL : KvTreeLaws W T} {RC : RowCodec} {RL : RowCodecLaws}.
Context {SI : SideIndex W X} {SL : SideIndexLaws W T X} {BS : BlobStore B}.
Notation Store := (MemStore W T X B).

(** Two stores assembled from the same schema. *)
Definition same_schema (ms ms2 : Store) : Prop := catalog (ms_env ms2) = catalog (ms_env ms) /\
  forall id, frame_of <$> cs_tables (ms_committed ms2) !! id = frame_of <$> cs_tables (ms_committed ms) !! id.

(** The contents [C2] of a replica agree with those of the primary, [C], on every
    table that is logged. *)
Definition same_durable (env : StoreEnv) (C C2 : contents) : Prop := forall id, is_ephemeral env id = false -> C2 !! id = C !! id.

(** A pending operation of the primary is one the replica can replay. *)
Lemma durable_pending (ms ms2 : Store) C C2 fs Good tx : same_schema ms ms2 -> dom (cs_tables (ms_committed ms)) ⊆ dom (catalog (ms_env ms)) ->
  same_durable (ms_env ms) C C2 -> good_env (ms_env ms) (ms_blobs ms) (ms_world ms) C (ms_committed ms) Good ->
  tx_good (ms_world ms) C fs (ms_committed ms) Good tx -> forall id ops, durable_ops (ms_env ms) (tables (tx_state tx)) !! id = Some ops ->
  pending_ok (cs_tables (ms_committed ms2)) C2 id ops /\ keyed (ms_env ms2) id ops /\ (ops = ∅ \/ is_Some (catalog (ms_env ms2) !! id)).
Proof using Type.
  intros [Ecat Hfr] Hdom HC GE [Itx Eb Hgood] id ops Hops. rewrite durable_ops_lookup in Hops. destruct (is_ephemeral (ms_env ms) id) eqn:He; [done|].
  pose proof (ti_pending _ _ _ _ Itx id ops Hops) as [->|(ts & R & E1 & ER & Hok)]; [split; [by left|]; split; [|by left]; intros pk op r; by rewrite lookup_empty|].
  rewrite Eb in E1. assert (is_Some (catalog (ms_env ms) !! id)) as [info Einfo] by (apply elem_of_dom, Hdom, elem_of_dom; by exists ts). split_and!.
  - right. specialize (Hfr id). rewrite E1 in Hfr. destruct (cs_tables (ms_committed ms2) !! id) as [ts2|] eqn:E2; [|done].
    apply (inj Some), (f_equal snd) in Hfr. unfold frame_of in Hfr. cbn [snd] in Hfr. exists ts2, R. rewrite Hfr. split; [done|]. split; [by rewrite HC|exact Hok].
  - intros pk op r Hop Hw. assert (Good id pk r) as Hg.
    { apply (Hgood id (view R ops)); [unfold seen; by rewrite views_lookup, ER, Hops|]. rewrite view_lookup, Hop. by destruct op; simpl in *; simplify_eq. }
    destruct (ge_key _ _ _ _ _ _ GE id info pk r Einfo Hg) as (_ & Epk & Hv). split; [done|]. exists info. by rewrite Ecat.
  - right. rewrite Ecat. by exists info.
Qed.

(** C4: replicas converge. Let a replica hold the contents of the primary in every
    durable table, whatever it holds in the ephemeral ones, and next expect the primary's
    transaction. It applies the log record of any commit, which holds the
    durable view of the commit's diff, without error and reports that view;
    afterwards the durable tables of both stores again have the same contents, the
    replica's ephemeral tables are as they were, both stores read back what they hold, and both expect the same next
    transaction. (The rows fit the trees, and tables have no spatial or full-text
    index and no value transforms.) *)
Theorem replica_converges (ms ms2 : Store) rd rd2 S S2 C C2 Good tx now shard caller reducer : holds ms rd S C -> holds ms2 rd2 S2 C2 ->
  same_schema ms ms2 -> dom (cs_tables (ms_committed ms)) ⊆ dom (catalog (ms_env ms)) -> same_durable (ms_env ms) C C2 ->
  next_tx_id (ms_writer ms2) = next_tx_id (ms_writer ms) ->
  good_env (ms_env ms) (ms_blobs ms) (ms_world ms) C (ms_committed ms) Good ->
  rtc (tx_step (ms_env ms) (ms_blobs ms) (ms_world ms) C Good) (begin ms).1 tx ->
  next_version (ms_writer ms) < u_max 64 -> next_version (ms_writer ms2) < u_max 64 -> kt_room (merge_run tx (begin ms).2).2.1 ->
  (forall diff, (commit tx now (begin ms).2).1 = Ok diff -> kt_room (replay_run (from_diff (durable (ms_env ms) diff) shard now caller reducer) ms2).2.1) ->
  exists diff ms' ms2' S' S2' C' C2', commit tx now (begin ms).2 = (Ok diff, ms') /\
    apply_replica_record (from_diff (durable (ms_env ms) diff) shard now caller reducer) ms2 = (Ok (durable (ms_env ms) diff), ms2') /\
    holds ms' rd S' C' /\ holds ms2' rd2 S2' C2' /\ same_durable (ms_env ms) C' C2' /\
    (forall id, is_ephemeral (ms_env ms) id = true -> C2' !! id = C2 !! id) /\ next_tx_id (ms_writer ms2') = next_tx_id (ms_writer ms') /\
    reads (ms_world ms') (ms_committed ms') C' /\ reads (ms_world ms2') (ms_committed ms2') C2'.
Proof using RL SL.
  intros Hh Hh2 Hsch Hdom HC Eid GE Hst Hn Hn2 Hr Hr2. destruct (reached_good _ _ _ _ _ _ Hh GE Hst) as [fs0 G].
  pose proof Hh as (I & Hm & fs & HS). pose proof Hh2 as (I2 & Hm2 & fs2 & HS2).
  destruct (transaction_spec ms rd S C fs Good tx now I Hm HS GE Hst Hn Hr) as (tabs & fs' & ms' & S' & E & I' & Hm' & Ec & HS' & _ & En & _).
  rewrite E in Hr2. specialize (Hr2 _ eq_refl). set (diff := Build_TxDiff _ _ _) in *. set (pend := durable_ops (ms_env ms) (tables (tx_state tx))).
  assert (durable (ms_env ms) diff = {| diff_tx_id := next_tx_id (ms_writer ms); diff_tables := diffs_of C2 (btree_entries pend);
    diff_auto_inc := diff_auto_inc (durable (ms_env ms) diff) |}) as Ed.
  { rewrite durable_eq. unfold pend. by rewrite durable_entries, (durable_diffs (ms_env ms) C C2). }
  destruct (replica_spec ms2 rd2 S2 C2 fs2 pend (from_diff (durable (ms_env ms) diff) shard now caller reducer) (diff_auto_inc (durable (ms_env ms) diff)) I2 HS2) as
    (tabs2 & fs2' & ms2' & S2' & E2 & I2' & Ec2 & HS2' & Hfr2 & Ew2); [by eapply durable_pending|by rewrite Ed|done|by rewrite Ed, Eid|done|done|].
  exists diff, ms', ms2', S', S2', (seen C tx), (views C2 pend).
  assert (holds ms' rd S' (seen C tx)) as Hh' by (split; [done|]; split; [done|]; exists fs'; by rewrite Ec).
  assert (holds ms2' rd2 S2' (views C2 pend)) as Hh2'.
  { split; [done|]. split; [|exists fs2'; by rewrite Ec2]. intros id. rewrite Ew2, Ec2. simpl. intros Hid. destruct (Hm2 id Hid) as [ts Ets].
    specialize (Hfr2 id). rewrite Ets in Hfr2. destruct (tabs2 !! id); [by eexists|done]. }
  split; [exact E|]. split; [rewrite E2, Ed; by rewrite Ed|]. split; [done|]. split; [done|]. split.
  { intros id He. unfold seen. rewrite !views_lookup, HC by done. unfold pend. by rewrite durable_ops_lookup, He. }
  split; [intros id He; rewrite views_lookup; unfold pend; rewrite durable_ops_lookup, He; simpl; destruct (C2 !! id); simpl; [by rewrite view_empty|done]|].
  split; [rewrite En, Ew2; cbn [next_tx_id from_diff tr_tx_id]; by rewrite Ed|].
  split; [apply (version_reads _ _ _ (si_world _ _ _ I') (si_states _ _ _ I' _ _ HS')); by rewrite Ec|].
  apply (version_reads _ _ _ (si_world _ _ _ I2') (si_states _ _ _ I2' _ _ HS2')). by rewrite Ec2.
Qed.
End replicas.
