(* ===== verification/PipelineSample.v ===== *)
(** Witnesses of PipelineProps: a pipeline over the sample store serves a
    reducer that panics, the first transaction of Sample, and, after a
    checkpoint, the second one. *)

From stdpp Require Import base list gmap sorting relations.
From Stdlib Require Import ZArith Lia.
From S2P Require Import Prelude FluxBin Row IndexKey TxState LogRecord Crc32c CommitLog PageFormat PagedTree KvTree TableState TableSpec Reclaim MemStore MergeSpec IndexSpec StoreSpec CommitSpec Replica StoreBuild TxSpec RefSpec Transaction Sample StoreProps History Checkpoint Recovery RecoveryProps Pipeline PipelineProps.
Import Pipeline.

Definition no_meta : CommitMeta := {| caller := []; reducer_name := [] |}.

Definition calls (n : nat) (tx : SampleTx) : SampleTx := fold_left (fun tx i => sample_call Cascade i tx) (seq 0 n) tx.

Lemma sample_tx_calls n : sample_tx Cascade n = calls n (begin (sample_store Cascade)).1.
Proof. reflexivity. Qed.

Definition panicking (tx : SampleTx) : ReducerEnd * SampleTx := (Panicked [98], calls 2 tx).
Definition first_job (tx : SampleTx) : ReducerEnd * SampleTx := (Returned, calls 6 tx).
Definition second_job (tx : SampleTx) : ReducerEnd * SampleTx :=
  let ms := sample_committed Cascade in (Returned, (MemStore.write (ms_env ms) (ms_blobs ms) (ms_world ms) 1 (user 1 10) false tx).2).

Definition start : PipelineState PagedWorld PagedTree Empty_set unit := Build_PipelineState (sample_store Cascade)
  {| lf_shard := 0; lf_last_appended := 0; lf_queue := []; lf_alive := true |} (Some []).

Definition after_panic := (process panicking no_meta 0 5 start).2.
Definition after_first := (process first_job no_meta 0 7 after_panic).2.
Definition after_second := (process second_job no_meta 0 9 after_first).2.

Lemma after_panic_store : ps_store after_panic = sample_store Cascade.
Proof. vm_compute. reflexivity. Qed.

Lemma after_first_store : ps_store after_first = sample_committed Cascade.
Proof. vm_compute. reflexivity. Qed.

Lemma after_second_store : ps_store after_second = sample_twice.
Proof. vm_compute. reflexivity. Qed.

(** The sample has two tables, both empty and durable. *)
Lemma start_tracked : exists S, tracked (sample_store Cascade) (fun _ => 0) S (sample_content Cascade) (Recovery.fresh (cs_tables (ms_committed (sample_store Cascade)))).
Proof.
  destruct (sample_holds Cascade) as [S H]. exists S.
  assert (map_Forall (fun id ts => catalog (ms_env (sample_store Cascade)) !! id = Some (schema ts) /\ is_ephemeral (ms_env (sample_store Cascade)) id = false /\ auto_inc_high_water ts = 0)
    (cs_tables (ms_committed (sample_store Cascade)))) as Ht by (apply map_Forall_to_list; vm_compute; repeat constructor).
  assert (counters_ok (counters (ms_writer (sample_store Cascade)))) as Hc by (apply (bool_decide_unpack _); vm_compute; exact I).
  assert (map_Forall (fun _ c => high_water c = 0) (counters (ms_writer (sample_store Cascade)))) as Hz by (apply (bool_decide_unpack _); vm_compute; exact I).
  split; [exact H| | |exact Hc| |vm_compute; discriminate|].
  - intros id. unfold Recovery.fresh, empties. rewrite !lookup_fmap. destruct (cs_tables (ms_committed (sample_store Cascade)) !! id) as [ts|] eqn:E; [|done]. simpl.
    destruct (Ht id ts E) as (Ec & -> & _). by split_and!.
  - intros id ts E _. destruct (Ht id ts E) as (_ & _ & ->). unfold mark_of, Recovery.fresh. rewrite lookup_fmap, E. done.
  - intros id ts E. destruct (Ht id ts E) as (_ & _ & ->). unfold table_mark. destruct (counters (ms_writer (sample_store Cascade)) !! id) as [c|] eqn:Ec; [by rewrite (Hz _ _ Ec)|done].
  - intros id R pk r. unfold empties. rewrite lookup_fmap. destruct (cs_tables _ !! id); intros [= <-]. by rewrite lookup_empty.
Qed.

Lemma panicking_tx tx : (panicking tx).2 = calls 2 tx.
Proof. reflexivity. Qed.
Lemma first_job_tx tx : (first_job tx).2 = calls 6 tx.
Proof. reflexivity. Qed.

Lemma returned_tx e (tx : SampleTx) : (e : ReducerEnd, tx).2 = tx.
Proof. reflexivity. Qed.

Lemma panic_ok : job_ok (sample_store Cascade) (sample_content Cascade) sample_good (panicking (begin (sample_store Cascade)).1).2.
Proof.
  rewrite panicking_tx, <- sample_tx_calls.
  split; [exact (sample_good_env Cascade ltac:(done))|exact (sample_steps Cascade 2 ltac:(lia) ltac:(done))|exact (sample_next Cascade)|vm_compute; reflexivity|exact (sample_room Cascade 2 ltac:(lia))].
Qed.

Lemma first_ok : job_ok (sample_store Cascade) (sample_content Cascade) sample_good (first_job (begin (sample_store Cascade)).1).2.
Proof.
  rewrite first_job_tx, <- sample_tx_calls.
  split; [exact (sample_good_env Cascade ltac:(done))|exact (sample_steps Cascade 6 ltac:(lia) ltac:(done))|exact (sample_next Cascade)|vm_compute; reflexivity|exact (sample_room Cascade 6 ltac:(lia))].
Qed.

Lemma second_ok : job_ok (sample_committed Cascade) two_rows sample_good (second_job (begin (sample_committed Cascade)).1).2.
Proof.
  unfold second_job. rewrite returned_tx.
  split; [exact committed_good_env| |vm_compute; reflexivity|vm_compute; reflexivity|apply room_b_ok; vm_compute; reflexivity].
  apply rtc_once, StepWrite. eapply sample_prepared; [vm_compute; reflexivity|vm_compute; tauto].
Qed.

(** The contents after the second transaction. *)
Definition three_rows : contents := {[1 := {[le_bytes 8 1 := user 1 10; le_bytes 8 2 := user 2 20]}; 2 := {[le_bytes 8 2 := post 2 (Some 2)]}]}.

Lemma served_first : served start (sample_content Cascade) after_first two_rows.
Proof.
  assert (served start (sample_content Cascade) after_panic (sample_content Cascade)) as H0 by exact (served_job start (sample_content Cascade) start (sample_content Cascade) sample_good panicking no_meta 0 5 (served_none _ _) panic_ok).
  pose proof (served_job start (sample_content Cascade) after_panic (sample_content Cascade) sample_good first_job no_meta 0 7 H0) as H. cbv zeta in H. rewrite after_panic_store in H. specialize (H first_ok).
  assert (match (first_job (begin (sample_store Cascade)).1).1 with Returned => seen (sample_content Cascade) (first_job (begin (sample_store Cascade)).1).2 | _ => sample_content Cascade end = two_rows) as E
    by (vm_compute; reflexivity).
  rewrite E in H. exact H.
Qed.

Lemma served_second : served after_first two_rows after_second three_rows.
Proof.
  pose proof (served_job after_first two_rows after_first two_rows sample_good second_job no_meta 0 9 (served_none _ _)) as H. cbv zeta in H. rewrite after_first_store in H. specialize (H second_ok).
  assert (match (second_job (begin (sample_committed Cascade)).1).1 with Returned => seen two_rows (second_job (begin (sample_committed Cascade)).1).2 | _ => two_rows end = three_rows) as E
    by (vm_compute; reflexivity).
  rewrite E in H. exact H.
Qed.

Lemma start_front : front_ok start.
Proof. split; vm_compute; reflexivity. Qed.

(** Three jobs, two records. *)
Lemma pipeline_logged_witness : exists new wk', lf_queue (ps_log after_first) = lf_queue (ps_log start) ++ new /\ length new = 1%nat /\
  Recovery.apply_records new (Recovery.fresh (cs_tables (ms_committed (sample_store Cascade)))) = Ok wk' /\
  Recovery.tables_hold (ms_world (ps_store after_first)) (cs_tables (ms_committed (ps_store after_first))) wk'.
Proof.
  destruct start_tracked as [S K]. destruct (pipeline_logged start (sample_content Cascade) after_first two_rows (fun _ => 0) S _ K start_front served_first) as (new & S' & wk' & Eq & _ & Ea & _ & Hh).
  exists new, wk'. split; [exact Eq|]. split; [|split; [exact Ea|exact Hh]].
  apply (f_equal (@length TxRecord)) in Eq. rewrite length_app in Eq. change (length (lf_queue (ps_log start))) with 0%nat in Eq. rewrite Nat.add_0_l in Eq. rewrite <- Eq. vm_compute. reflexivity.
Defined.

(** The log after the crash: the first record is compacted away. *)
Definition crash_segment : segment := Eval vm_compute in {| s_first := 2; s_epoch := 3; s_entries := [(3, second_record)];
  s_bytes := record_frame second_record; s_tail := [] |}.
Definition crash_dir : LogDir := {| segs := {[ 2 := (seg_file crc32c crash_segment).2 ]}; sidecars := [] |}.

Lemma crash_on_disk : on_disk crc32c (enc record_codec) 0 [] crash_segment crash_dir.
Proof.
  split; [vm_compute; reflexivity| |constructor|done]. split; [|done].
  split; [split; [discriminate|reflexivity]|]. split; [discriminate|]. split; [|split; [repeat split; discriminate|by left]].
  change (s_entries crash_segment) with [(3, second_record)]. assert (s_bytes crash_segment = record_frame second_record ++ []) as -> by (vm_compute; reflexivity).
  econstructor; [split; [discriminate|reflexivity]|vm_compute; reflexivity|vm_compute; reflexivity|constructor].
Qed.

Lemma commits_survive_crash_witness : exists repo wk outcome,
  Recovery.recover sample_table_id crc32c (dec record_codec) (Recovery.repo_loads (Checkpoint.load s_hash s_zstd_decode None (dec manifest_codec) (dec chunk_codec) repo) 0
    (Checkpoint.list_checkpoints repo 0)) 0 crash_dir (Recovery.fresh (cs_tables (ms_committed (sample_store Cascade)))) = Ok (wk, outcome) /\
  Recovery.tables_hold (ms_world (ps_store after_second)) (cs_tables (ms_committed (ps_store after_second))) wk /\ Recovery.ro_next_tx_id outcome = 3.
Proof.
  destruct start_tracked as [S K].
  destruct (Checkpoint.write s_hash crc32c s_zstd_encode None (enc manifest_codec) (enc chunk_codec) (ms_world (ps_store after_first)) s_name (cs_tables (ms_committed (ps_store after_first))) 0 1 3 0 (empty_repo, no_stats))
    as [r [repo' st']] eqn:E.
  assert (r = Ok tt) as Er by (change r with (r, (repo', st')).1; rewrite <- E; vm_compute; reflexivity). subst r.
  destruct (commits_survive_crash s_hash crc32c s_zstd_encode s_zstd_decode None (enc manifest_codec) (dec manifest_codec) (enc chunk_codec) (dec chunk_codec) s_zstd ltac:(discriminate)
    (dec_enc manifest_codec) (dec_enc chunk_codec) s_width crc32c crc32c_ok (enc record_codec) (dec record_codec) (dec_enc record_codec) sample_table_id
    start after_first after_second (sample_content Cascade) two_rows three_rows (fun _ => 0) S s_name 0 1 3 0 empty_repo no_stats repo' st' [] crash_segment crash_dir [first_record] K start_front)
    as (wk & outcome & Hrec & Hh & Hn);
    [reflexivity|exact served_first|exact served_second|vm_compute; split; [discriminate|reflexivity]|vm_compute; discriminate|exact empty_intact|rewrite after_first_store; exact once_distinct|intros id ts _; reflexivity|exact E|exact crash_on_disk
    |vm_compute; reflexivity|repeat constructor; discriminate|].
  exists repo', wk, outcome. split; [exact Hrec|]. split; [exact Hh|]. rewrite Hn. vm_compute. reflexivity.
Defined.

(** The log a crash leaves when the second record was still queued. *)
Definition short_segment : segment := Eval vm_compute in {| s_first := 1; s_epoch := 3; s_entries := [(3, first_record)];
  s_bytes := record_frame first_record; s_tail := [] |}.
Definition short_dir : LogDir := {| segs := {[ 1 := (seg_file crc32c short_segment).2 ]}; sidecars := [] |}.

(** C37: a checkpoint can run ahead of the log. The store is checkpointed after
    its second commit, under the id of the first, while the record of the second
    is still in the log's queue; after a crash that loses the queue, recovery
    keeps the second commit's rows although replaying the log would not give
    them, and hands out the second commit's id again. *)
Theorem checkpoint_ahead_of_log :
  let written := Checkpoint.write s_hash crc32c s_zstd_encode None (enc manifest_codec) (enc chunk_codec) (ms_world (ps_store after_second)) s_name
    (cs_tables (ms_committed (ps_store after_second))) 0 1 3 0 (empty_repo, no_stats) in
  let repo := written.2.1 in
  let tables := Recovery.fresh (cs_tables (ms_committed (sample_store Cascade))) in
  let recovered := Recovery.recover sample_table_id crc32c (dec record_codec) (Recovery.repo_loads (Checkpoint.load s_hash s_zstd_decode None (dec manifest_codec) (dec chunk_codec) repo) 0
    (Checkpoint.list_checkpoints repo 0)) 0 short_dir tables in
  is_ok written.1 = true /\ lf_queue (ps_log after_second) = [first_record; second_record] /\
  match recovered, Recovery.apply_records [first_record] tables with
  | Ok (wk, outcome), Ok wk' => Recovery.apply_records [first_record; second_record] tables = Ok wk /\ wk <> wk' /\
      Recovery.ro_next_tx_id outcome = tr_tx_id second_record
  | _, _ => False
  end.
Proof.
  cbv zeta. split; [vm_compute; reflexivity|]. split; [vm_compute; reflexivity|]. vm_compute. split; [reflexivity|]. split; [discriminate|reflexivity].
Qed.

(** A replica that starts like the primary. *)
Lemma replica_converges_witness : exists diff ms' ms2' C' C2', commit (sample_tx Cascade 6) 7 (begin (sample_store Cascade)).2 = (Ok diff, ms') /\
  apply_replica_record (from_diff (durable (ms_env (sample_store Cascade)) diff) 0 7 [] []) (sample_store Cascade) = (Ok (durable (ms_env (sample_store Cascade)) diff), ms2') /\
  same_durable (ms_env (sample_store Cascade)) C' C2' /\ reads (ms_world ms') (ms_committed ms') C' /\ reads (ms_world ms2') (ms_committed ms2') C2'.
Proof.
  destruct (sample_holds Cascade) as [S H].
  destruct (replica_converges _ _ _ _ _ _ _ _ sample_good (sample_tx Cascade 6) 7 0 [] [] H H) as (diff & ms' & ms2' & S' & S2' & C' & C2' & E1 & E2 & _ & _ & HC & _ & _ & R1 & R2);
    [by split|by apply (bool_decide_eq_true_1 _); vm_compute|by intros id|reflexivity|exact (sample_good_env Cascade ltac:(done))|exact (sample_steps Cascade 6 ltac:(lia) ltac:(done))
    |exact (sample_next Cascade)|exact (sample_next Cascade)|exact (sample_room Cascade 6 ltac:(lia))| |].
  - intros diff E. vm_compute in E. injection E as <-. apply room_b_ok. vm_compute. reflexivity.
  - exists diff, ms', ms2', C', C2'. split; [exact E1|]. split; [exact E2|]. split; [exact HC|]. split; [exact R1|exact R2].
Defined.
