(* ===== verification/Idempotency.v ===== *)
(** Exactly-once submission: [crates/fluxum-core/src/reducer/idempotency.rs],
    and the transaction that [ReducerEngine::call_idempotent] of
    [reducer/engine.rs] runs.

    An applied key is a row of the table [__idempotency__], written in the
    transaction of the reducer it guards. Main results: once a call with a key
    has committed, no call with that key runs its body while the row is there,
    and pruning the window drops what is too old and then the oldest. The
    reducer body is any function on transactions. *)

From stdpp Require Import base list gmap sorting relations.
From Stdlib Require Import ZArith Lia.
From S2P Require Import Prelude FluxBin Row IndexKey TxState LogRecord PageFormat PagedTree PagedTreeNode PagedTreeRep PagedTreeWrite PagedTreeSpec KvTree TableState TableSpec Reclaim MemStore MergeSpec IndexSpec StoreSpec CommitSpec Replica StoreBuild TxSpec RefSpec Transaction Sample StoreProps.

Module Idempotency.

Definition IDEMPOTENCY_COLS : list FluxType.t := [FluxType.Identity; FluxType.Str; FluxType.Str; FluxType.I64].

Definition IDEMPOTENCY_TABLE : TableInfo := {|
  ti_schema := {| columns := IDEMPOTENCY_COLS; primary_key := [0; 1; 2]%nat |};
  ti_auto_inc := None;
  ti_access := Private |}.

(** [max_age] is a duration in microseconds. *)
Record IdempotencyOptions : Type := { max_records : nat; max_age : Z }.

Definition default_options : IdempotencyOptions := {| max_records := Z.to_nat 100000; max_age := 3600 * 1000000 |}.

Definition record_pk (identity reducer key : list Z) : row := [RowValue.Identity identity; RowValue.Str reducer; RowValue.Str key].

(** ** The window *)

(** Signed subtraction that saturates at the ends of [i64]. *)
Definition saturating_sub (a b : Z) : Z := Z.max (- 2 ^ 63) (Z.min (a - b) (2 ^ 63 - 1)).

Notation Record_ := (row * Z)%type.

Definition stale (now_us : Z) (opts : IdempotencyOptions) (r : Record_) : bool :=
  Z.min (max_age opts) (2 ^ 63 - 1) <? saturating_sub now_us r.2.

(** [sort_by_key] on the creation time; it is stable. *)
Fixpoint insert_record (r : Record_) (l : list Record_) : list Record_ :=
  match l with [] => [r] | s :: l => if r.2 <=? s.2 then r :: s :: l else s :: insert_record r l end.
Definition sort_records (l : list Record_) : list Record_ := foldr insert_record [] l.

Definition prunable (records : list Record_) (now_us : Z) (opts : IdempotencyOptions) : list row :=
  let doomed := map fst (List.filter (stale now_us opts) records) in
  let records := List.filter (fun r => negb (stale now_us opts r)) records in
  if (max_records opts <? length records)%nat
  then doomed ++ map fst (firstn (length records - max_records opts) (sort_records records))
  else doomed.

(** The records of a scan of the table: rows without a creation time are skipped. *)
Definition record_of (r : row) : option Record_ := match r !! 3%nat with Some (RowValue.I64 us) => Some (firstn 3 r, us) | _ => None end.

(** ** The transaction of a call *)

Section job.
Context {W T X B : Type} {KT : KvTree W T} {RC : RowCodec} {SI : SideIndex W X} {BS : BlobStore B}.
Context (env : StoreEnv) (blobs : option B) (w : W).
Notation TxM := (SM (Tx T X) StoreError).

Definition already_applied (table : TableId) (identity reducer key : list Z) : TxM bool :=
  query_pk w table (record_pk identity reducer key) ≫= fun r => mret (match r with Some _ => true | None => false end).

(** [stamp] is [Timestamp::now()]. *)
Definition record (table : TableId) (identity reducer key : list Z) (stamp : Z) : TxM unit :=
  upsert env blobs w table (record_pk identity reducer key ++ [RowValue.I64 stamp]) ≫= fun _ => mret tt.

(** The closure of [call_idempotent]; the flag says that the key was there. *)
Definition idempotent_job (table : TableId) (identity reducer key : list Z) (stamp : Z) (body : TxM unit) : Tx T X -> result StoreError unit * bool * Tx T X :=
  fun tx =>
  match already_applied table identity reducer key tx with
  | (Err e, tx) => (Err e, false, tx)
  | (Ok true, tx) => (Err (ReducerError 0), true, tx)
  | (Ok false, tx) => let '(r, tx) := (body ≫= fun _ => record table identity reducer key stamp) tx in (r, false, tx)
  end.
End job.

(** * Pruning *)

Lemma insert_record_perm r l : insert_record r l ≡ₚ r :: l.
Proof. induction l as [|s l IH]; simpl; [done|]. destruct (r.2 <=? s.2); [done|]. rewrite IH. by constructor. Qed.

Lemma sort_records_perm l : sort_records l ≡ₚ l.
Proof. induction l as [|r l IH]; simpl; [done|]. by rewrite insert_record_perm, IH. Qed.

Definition older (r s : Record_) : Prop := r.2 <= s.2.

Lemma sort_records_sorted l : StronglySorted older (sort_records l).
Proof.
  induction l as [|r l IH]; simpl; [constructor|]. induction IH as [|s l' Hs IH Hall]; simpl; [by repeat constructor|].
  destruct (Z.leb_spec r.2 s.2) as [Hle|Hlt].
  - constructor; [by constructor|]. constructor; [done|]. eapply Forall_impl; [exact Hall|]. unfold older. intros. lia.
  - constructor; [done|]. rewrite insert_record_perm. constructor; [unfold older; lia|done].
Qed.

Lemma filter_split {A} (f : A -> bool) l : l ≡ₚ List.filter f l ++ List.filter (fun x => negb (f x)) l.
Proof. induction l as [|x l IH]; simpl; [done|]. destruct (f x); simpl; [by rewrite IH at 1|]. rewrite <- Permutation_middle. by rewrite IH at 1. Qed.

(** pruning. The records split into those pruned and those kept: the kept
    ones are within the age bound and no more than the count bound; a record
    that is not too old is pruned only when the window is full of records that
    are at least as new. *)
Theorem prune_window records now_us opts : exists gone kept, records ≡ₚ gone ++ kept /\ prunable records now_us opts = map fst gone /\
  Forall (fun r => stale now_us opts r = false) kept /\ (length kept <= max_records opts)%nat /\
  Forall (fun g => stale now_us opts g = true \/ length kept = max_records opts /\ Forall (older g) kept) gone.
Proof.
  unfold prunable. set (old := List.filter (stale now_us opts) records). set (fresh := List.filter (fun r => negb _) records).
  assert (records ≡ₚ old ++ fresh) as Hsplit by apply filter_split.
  assert (Forall (fun r => stale now_us opts r = true) old) as Hold. { apply List.Forall_forall. intros r [_ H]%filter_In. done. }
  assert (Forall (fun r => stale now_us opts r = false) fresh) as Hfresh. { apply List.Forall_forall. intros r [_ H%negb_true_iff]%filter_In. done. }
  destruct (Nat.ltb_spec (max_records opts) (length fresh)) as [Hlt|Hge].
  2:{ exists old, fresh. split_and!; try done. eapply Forall_impl; [exact Hold|]. by left. }
  set (k := (length fresh - max_records opts)%nat). set (l := sort_records fresh).
  assert (l ≡ₚ fresh) as Hl by apply sort_records_perm. pose proof (sort_records_sorted fresh) as Hs. fold l in Hs.
  exists (old ++ firstn k l), (skipn k l). assert (length (skipn k l) = max_records opts) as Hlen. { rewrite length_skipn, Hl. lia. }
  split_and!.
  - by rewrite <- app_assoc, firstn_skipn, Hl.
  - by rewrite map_app.
  - apply Forall_drop. by rewrite Hl.
  - lia.
  - apply Forall_app. split; [eapply Forall_impl; [exact Hold|]; by left|]. apply Forall_forall. intros g Hg. right. split; [done|].
    apply Forall_forall. intros s Hsk. rewrite <- (firstn_skipn k l) in Hs. by eapply (StronglySorted_app_1_elem_of older).
Qed.

(** * Exactly once *)

(** The table is in the schema, with no derived column. *)
Definition declared (env : StoreEnv) (table : TableId) : Prop := catalog env !! table = Some IDEMPOTENCY_TABLE /\ computed env !! table = None /\ transforms env = None.

Section once.
Context {W T X B : Type} {KT : KvTree W T} {KL : KvTreeLaws W T} {RC : RowCodec} {RL : RowCodecLaws}.
Context {SI : SideIndex W X} {SL : SideIndexLaws W T X} {BS : BlobStore B}.
Notation Store := (MemStore W T X B).

(** A record is stored as given, under the key it is looked up by. *)
Lemma prepare_record env (blobs : option B) (w : W) table identity reducer key stamp (tx : Tx T X) pk v tx1 : declared env table ->
  prepare env blobs w table (record_pk identity reducer key ++ [RowValue.I64 stamp]) tx = (Ok (pk, v), tx1) ->
  encode_pk_values (ti_schema IDEMPOTENCY_TABLE) (record_pk identity reducer key) = Ok pk.
Proof using Type.
  intros (Ec & Ecomp & Etr). unfold prepare. intros E. apply sm_bind_ok in E as (info & s1 & E1 & E).
  unfold sm_lift, schema_of in E1. rewrite Ec in E1. injection E1 as <- <-. apply sm_bind_ok in E as ([] & s2 & _ & E).
  apply sm_bind_ok in E as (v1 & s3 & E1 & E). rewrite Ecomp in E1. injection E1 as <- <-. apply sm_bind_ok in E as ([] & s4 & _ & E).
  apply sm_bind_ok in E as ([] & s5 & E3 & E). apply sm_bind_ok in E as (ts & s6 & _ & E). apply sm_bind_ok in E as ([] & s7 & _ & E).
  apply sm_bind_ok in E as (v2 & s8 & E4 & E). unfold assign_auto_inc in E4. simpl ti_auto_inc in E4. cbn iota in E4. injection E4 as <- <-.
  apply sm_bind_ok in E as ([] & s9 & _ & E). apply sm_bind_ok in E as (pk' & s10 & E5 & E). injection E5 as E5 <-.
  apply sm_bind_ok in E as (v3 & s11 & _ & E). apply (f_equal fst) in E. simpl in E. injection E as <- _. apply (f_equal fst) in E3. simpl in E3.
  rewrite (pk_row_bytes _ (record_pk identity reducer key ++ [RowValue.I64 stamp])); [|done|done].
  simpl ti_schema. simpl app. revert E5. by destruct (encode_pk_of_row _ _); simpl; [intros [= ->]|].
Qed.

(** What [already_applied] reads when a transaction begins. *)
Lemma applied_reads (ms : Store) rd S C table R identity reducer key pk : holds ms rd S C ->
  (forall ts, cs_tables (ms_committed ms) !! table = Some ts -> schema ts = IDEMPOTENCY_TABLE) -> C !! table = Some R ->
  encode_pk_values (ti_schema IDEMPOTENCY_TABLE) (record_pk identity reducer key) = Ok pk ->
  already_applied (ms_world ms) table identity reducer key (begin ms).1 = (Ok (match R !! pk with Some _ => true | None => false end), (begin ms).1).
Proof using RL.
  intros (I & _ & fs & HS) Hsch HR Hpk.
  destruct (version_reads (ms_world ms) _ (ms_committed ms) (si_world _ _ _ I) (si_states _ _ _ I _ _ HS) eq_refl table R HR) as (ts & Ets & _ & Hrow).
  unfold already_applied, query_pk, base_table, cs_table. unfold mbind, sm_bind, sm_lift. simpl tx_base. rewrite Ets. simpl from_option. cbn iota.
  rewrite (Hsch ts Ets), Hpk. simpl map_err. cbn iota. rewrite Hrow. by destruct (R !! pk).
Qed.

(** A successful record is visible under its key. *)
Lemma record_seen (ms : Store) rd S C Good table identity reducer key stamp tx tx' : holds ms rd S C ->
  good_env (ms_env ms) (ms_blobs ms) (ms_world ms) C (ms_committed ms) Good -> declared (ms_env ms) table ->
  rtc (tx_step (ms_env ms) (ms_blobs ms) (ms_world ms) C Good) (begin ms).1 tx ->
  (forall p tx1, prepare (ms_env ms) (ms_blobs ms) (ms_world ms) table (record_pk identity reducer key ++ [RowValue.I64 stamp]) tx = (Ok p, tx1) -> Good table p.1 p.2) ->
  record (ms_env ms) (ms_blobs ms) (ms_world ms) table identity reducer key stamp tx = (Ok tt, tx') ->
  tx_step (ms_env ms) (ms_blobs ms) (ms_world ms) C Good tx tx' /\
  exists pk R, encode_pk_values (ti_schema IDEMPOTENCY_TABLE) (record_pk identity reducer key) = Ok pk /\ seen C tx' !! table = Some R /\ is_Some (R !! pk).
Proof using RL.
  intros Hh GE Hd Hst Hgood E. destruct (reached_good _ _ _ _ _ _ Hh GE Hst) as [fs G].
  unfold record, upsert in E. apply sm_bind_ok in E as (stored & s & E & E'). injection E' as ->.
  destruct (write_good _ _ _ _ _ _ _ GE tx table _ true G Hgood) as (pk & Hw & Hpk). pose proof (StepWrite (ms_env ms) (ms_blobs ms) (ms_world ms) C Good tx table _ true Hgood) as Hs.
  rewrite E in Hw, Hs. split; [exact Hs|]. destruct Hw as (_ & _ & R & _ & Es & _). exists pk, (<[pk := stored]> R).
  unfold write in E. apply sm_bind_ok in E as ([pk' v] & s' & Ep & _). pose proof (Hpk _ _ Ep) as E1. simpl in E1. subst pk'.
  split; [by eapply prepare_record|]. rewrite Es, !lookup_insert_eq. split; [done|by eexists].
Qed.

(** C31: exactly once. When a call with a key ran its body and recorded the key,
    its commit succeeds and the record is in the committed contents; and as long
    as a store holds the record, a call with that key does not run its body, of
    whatever reducer, and leaves the transaction untouched. *)
Theorem applied_once (ms : Store) rd S C Good table identity reducer key stamp body tx tx' now : holds ms rd S C ->
  good_env (ms_env ms) (ms_blobs ms) (ms_world ms) C (ms_committed ms) Good -> declared (ms_env ms) table ->
  body (begin ms).1 = (Ok tt, tx) -> rtc (tx_step (ms_env ms) (ms_blobs ms) (ms_world ms) C Good) (begin ms).1 tx ->
  (forall p tx1, prepare (ms_env ms) (ms_blobs ms) (ms_world ms) table (record_pk identity reducer key ++ [RowValue.I64 stamp]) tx = (Ok p, tx1) -> Good table p.1 p.2) ->
  idempotent_job (ms_env ms) (ms_blobs ms) (ms_world ms) table identity reducer key stamp body (begin ms).1 = (Ok tt, false, tx') ->
  next_version (ms_writer ms) < u_max 64 -> kt_room (merge_run tx' (begin ms).2).2.1 ->
  exists diff ms' S' pk R, commit tx' now (begin ms).2 = (Ok diff, ms') /\ holds ms' rd S' (seen C tx') /\
    seen C tx' !! table = Some R /\ is_Some (R !! pk) /\
    forall (ms2 : Store) rd2 S2 C2 R2 stamp2 body2, holds ms2 rd2 S2 C2 ->
      (forall ts, cs_tables (ms_committed ms2) !! table = Some ts -> schema ts = IDEMPOTENCY_TABLE) -> C2 !! table = Some R2 -> is_Some (R2 !! pk) ->
      idempotent_job (ms_env ms2) (ms_blobs ms2) (ms_world ms2) table identity reducer key stamp2 body2 (begin ms2).1 = (Err (ReducerError 0), true, (begin ms2).1).
Proof using RL SL.
  intros Hh GE Hd Eb Hst Hgood Ej Hn Hroom. assert (record (ms_env ms) (ms_blobs ms) (ms_world ms) table identity reducer key stamp tx = (Ok tt, tx')) as Er.
  { unfold idempotent_job in Ej. assert ((already_applied (ms_world ms) table identity reducer key (begin ms).1).2 = (begin ms).1) as Es.
    { unfold already_applied, query_pk, mbind, sm_bind, base_table, sm_lift. repeat (case_match; simplify_eq/=; try done). }
    destruct (already_applied _ _ _ _ _ _) as [[[]|] s]; cbn [snd] in Es; try done. subst s. unfold mbind, sm_bind in Ej. rewrite Eb in Ej.
    destruct (record _ _ _ _ _ _ _ _ _) as [r s]. congruence. }
  destruct (record_seen ms rd S C Good table identity reducer key stamp tx tx' Hh GE Hd Hst Hgood Er) as (Hs & pk & R & Hpk & HR & Hin).
  destruct (commit_holds ms rd S C Good tx' now Hh GE) as (diff & ms' & S' & E & Hh' & _); [by eapply rtc_r|done|done|].
  exists diff, ms', S', pk, R. split_and!; try done. intros ms2 rd2 S2 C2 R2 stamp2 body2 Hh2 Hsch HR2 [r Hr]. unfold idempotent_job.
  rewrite (applied_reads ms2 rd2 S2 C2 table R2 identity reducer key pk Hh2 Hsch HR2 Hpk). by rewrite Hr.
Qed.
End once.

(** ** A store with the dedup table *)

(** A codec for records: the lengths of the first two fields, the time, the bytes. *)
#[local] Instance record_codec : RowCodec := {|
  rmp_to_vec l := match l with
                  | [LogValue.Identity i; LogValue.Str r; LogValue.Str k; LogValue.I64 t] => Some ([blen i; blen r; t] ++ i ++ r ++ k)
                  | _ => None
                  end;
  rmp_from_slice bs := match bs with
                       | n :: m :: t :: rest =>
                           Some [LogValue.Identity (slice rest 0 n); LogValue.Str (slice rest n (n + m)); LogValue.Str (slice rest (n + m) (blen rest)); LogValue.I64 t]
                       | _ => None
                       end |}.

#[local] Instance record_codec_laws : RowCodecLaws.
Proof.
  split. intros l bs E. unfold rmp_to_vec, record_codec in E. repeat (case_match; try done). injection E as <-. unfold rmp_from_slice, record_codec. cbn [app]. rewrite slice_app_l by done.
  rewrite slice_mid by done. rewrite !blen_app, app_assoc, slice_app_r, blen_app, Z.sub_diag by (rewrite blen_app; lia). rewrite slice_all by lia. done.
Qed.

Definition dedup_decl : TableDecl := {|
  decl_name := [1]; decl_info := IDEMPOTENCY_TABLE; decl_columns := [[105]; [114]; [107]; [99]]; decl_unique := []; decl_indexes := [] |}.

Definition no_registry : Registry := {| registered_computed := []; registered_checks := []; registered_not_nulls := []; registered_foreign_keys := [] |}.

Definition dedup_build : result StoreError SampleStore * PagedWorld :=
  build sample_table_id sample_index_id true no_registry (fun _ => false) sample_options [dedup_decl] sample_world.

Definition dedup_store : SampleStore := match dedup_build.1 with Ok ms => ms | Err _ => new_store dummy_env ∅ ∅ sample_world end.

Lemma dedup_holds : exists S, holds dedup_store (fun _ => 0) S (empties (cs_tables (ms_committed dedup_store))).
Proof.
  destruct (build_inv sample_table_id sample_index_id true no_registry (fun _ => false) sample_options [dedup_decl] sample_world dedup_build.2 dedup_store) as [fs I].
  - exact sample_world_ok.
  - apply room_b_ok. vm_compute. reflexivity.
  - reflexivity.
  - vm_compute. reflexivity.
  - eexists. split; [exact I|]. split; [done|]. by exists fs.
Qed.

Notation caller := (repeat 7 32).

Definition key_row : row := record_pk caller [116] [107] ++ [RowValue.I64 5].
Definition key_bytes : list Z := match encode_pk_of_row (ti_schema IDEMPOTENCY_TABLE) key_row with Ok k => k | Err _ => [] end.
Definition dedup_good (id : TableId) (pk : list Z) (r : row) : Prop := id = 1 /\ pk = key_bytes /\ r = key_row.

Lemma dedup_env : good_env (ms_env dedup_store) (ms_blobs dedup_store) (ms_world dedup_store)
  (empties (cs_tables (ms_committed dedup_store))) (ms_committed dedup_store) dedup_good.
Proof.
  assert (forall fk, is_fk (ms_env dedup_store) fk -> False) as Hfk.
  { intros fk (fks & E & _). assert (fks_out (ms_env dedup_store) = ∅) as Ef by (vm_compute; reflexivity). by rewrite Ef, lookup_empty in E. }
  split; try (intros; exfalso; by eapply Hfk).
  - reflexivity.
  - apply (build_env_fks sample_table_id no_registry (fun _ => false) sample_options {[1 := dedup_decl]}). vm_compute. reflexivity.
  - intros id ts pk r E (-> & -> & ->). apply row_fit_b_ok.
    assert (match cs_tables (ms_committed dedup_store) !! 1 with Some ts => row_fit_b (shape ts) key_bytes key_row | None => true end = true) as Hb by (vm_compute; reflexivity).
    by rewrite E in Hb.
  - intros id info pk r E (-> & -> & ->). assert (catalog (ms_env dedup_store) !! 1 = Some IDEMPOTENCY_TABLE) as Ec by (vm_compute; reflexivity).
    rewrite Ec in E. injection E as <-. split_and!; vm_compute; reflexivity.
  - intros id R pk r E Hr. unfold empties in E. rewrite lookup_fmap in E. destruct (cs_tables _ !! id); [|done]. injection E as <-. by rewrite lookup_empty in Hr.
Qed.

Definition nothing : SM (Tx PagedTree Empty_set) StoreError unit := mret tt.
Definition recorded : SampleTx :=
  (idempotent_job (ms_env dedup_store) (ms_blobs dedup_store) (ms_world dedup_store) 1 caller [116] [107] 5 nothing (begin dedup_store).1).2.
Definition retried : SampleStore := (commit recorded 9 (begin dedup_store).2).2.

(** A call of reducer "t" with key "k" commits; its retry is answered from the
    window. *)
Lemma applied_once_witness :
  idempotent_job (ms_env retried) (ms_blobs retried) (ms_world retried) 1 caller [116] [107] 6 nothing (begin retried).1 = (Err (ReducerError 0), true, (begin retried).1).
Proof.
  destruct dedup_holds as [S H].
  destruct (applied_once dedup_store (fun _ => 0) S _ dedup_good 1 caller [116] [107] 5 nothing (begin dedup_store).1 recorded 9 H dedup_env)
    as (diff & ms' & S' & pk & R & E & H' & HR & Hin & Hreplay).
  - split_and!; vm_compute; reflexivity.
  - reflexivity.
  - apply rtc_refl.
  - intros p tx1 E. assert (option_map fst (match prepare (ms_env dedup_store) (ms_blobs dedup_store) (ms_world dedup_store) 1 key_row (begin dedup_store).1 with (Ok p, _) => Some (p, tt) | _ => None end)
      = Some (key_bytes, key_row)) as Ep by (vm_compute; reflexivity). unfold key_row in Ep at 1. rewrite E in Ep. injection Ep as ->. by split_and!.
  - vm_compute. reflexivity.
  - by vm_compute.
  - apply room_b_ok. vm_compute. reflexivity.
  - unfold retried. rewrite E. simpl snd. apply (Hreplay ms' (fun _ => 0) S' _ R 6 nothing H'); [|exact HR|exact Hin].
    assert (cs_tables (ms_committed ms') = cs_tables (ms_committed retried)) as -> by (unfold retried; by rewrite E).
    intros ts Ets. assert (option_map schema (cs_tables (ms_committed retried) !! 1) = Some IDEMPOTENCY_TABLE) as Es by (vm_compute; reflexivity).
    rewrite Ets in Es. by injection Es.
Defined.
End Idempotency.
