(* ===== verification/RowList.v ===== *)
(** Row batches on the wire: [crates/fluxum-protocol/src/rowlist.rs].

    A batch is one byte buffer with its row boundaries beside it: one size for
    all rows, or the start offset of each. The builder starts with a size and
    falls back to offsets at the first row of another size. Main results: what
    was pushed is what a reader iterates, and a batch that passes the decoder's
    check splits its bytes into exactly the rows it announces. *)

From stdpp Require Import base list.
From Stdlib Require Import ZArith Lia.
From S2P Require Import Prelude.

Module RowList.

Inductive RowSizeHint : Type :=
  | Fixed (n : Z)
  | Offsets (offsets : list Z).

Record RowList : Type := {
  row_count : Z;
  size_hint : RowSizeHint;
  rows_data : list Z;
}.

(** The ways in which count, hint and bytes disagree. *)
Inductive RowListError : Type :=
  | FixedZeroNotEmpty
  | FixedLength
  | OffsetCount
  | DataWithoutRows
  | FirstOffset (offset : Z)
  | NotMonotonic (offset prev : Z)
  | BeyondData (offset : Z).

Definition empty : RowList := {| row_count := 0; size_hint := Fixed 0; rows_data := [] |}.

(** [usize] has 64 bits: a [u32] times a [u16] fits. *)
Fixpoint check_offsets (data_len : Z) (first : bool) (prev : Z) (offsets : list Z) : result RowListError unit :=
  match offsets with
  | [] => Ok tt
  | offset :: offsets =>
      if first && negb (offset =? 0) then Err (FirstOffset offset)
      else if offset <? prev then Err (NotMonotonic offset prev)
      else if data_len <? offset then Err (BeyondData offset)
      else check_offsets data_len false offset offsets
  end.

Definition validate (l : RowList) : result RowListError unit :=
  let data_len := blen (rows_data l) in
  match size_hint l with
  | Fixed n =>
      if n =? 0 then (if (row_count l =? 0) && (data_len =? 0) then Ok tt else Err FixedZeroNotEmpty)
      else if row_count l * n =? data_len then Ok tt else Err FixedLength
  | Offsets offsets =>
      if negb (Z.of_nat (length offsets) =? row_count l) then Err OffsetCount
      else if (row_count l =? 0) && negb (data_len =? 0) then Err DataWithoutRows
      else check_offsets data_len true 0 offsets
  end.

(** [data.get(a..b)]. *)
Definition get (data : list Z) (a b : Z) : option (list Z) := if (a <=? b) && (b <=? blen data) then Some (slice data a b) else None.

Definition row (l : RowList) (i : nat) : option (list Z) :=
  if row_count l <=? Z.of_nat i then None
  else match size_hint l with
       | Fixed n => get (rows_data l) (Z.of_nat i * n) ((Z.of_nat i + 1) * n)
       | Offsets offsets =>
           start ← offsets !! i;
           get (rows_data l) start (match offsets !! S i with Some next => next | None => blen (rows_data l) end)
       end.

Definition iter (l : RowList) : list (list Z) := omap (row l) (seq 0 (Z.to_nat (row_count l))).

(** Decoding a batch checks it; the MessagePack envelope is not part of this. *)
Definition deserialize (count : Z) (hint : RowSizeHint) (data : list Z) : result RowListError RowList :=
  let l := {| row_count := count; size_hint := hint; rows_data := data |} in
  validate l ≫= fun _ => Ok l.

(** ** The builder *)

Inductive BuilderMode : Type :=
  | StartMode
  | FixedMode (n : Z)
  | OffsetsMode (offsets : list Z).

Record RowListBuilder : Type := {
  mode : BuilderMode;
  b_row_count : Z;
  b_rows_data : list Z;
}.

Definition new : RowListBuilder := {| mode := StartMode; b_row_count := 0; b_rows_data := [] |}.

Definition with_fixed_size (n : Z) : RowListBuilder :=
  {| mode := if n =? 0 then StartMode else FixedMode n; b_row_count := 0; b_rows_data := [] |}.

Definition fits_u16 (n : Z) : bool := n <? 2 ^ 16.

Definition next_mode (b : RowListBuilder) (r : list Z) : BuilderMode :=
  let start := blen (b_rows_data b) in
  match mode b with
  | StartMode => if fits_u16 (blen r) && negb (blen r =? 0) then FixedMode (blen r) else OffsetsMode [start]
  | FixedMode n =>
      if negb (blen r =? n) then OffsetsMode (map (fun i => Z.of_nat i * n) (seq 0 (Z.to_nat (b_row_count b))) ++ [start])
      else FixedMode n
  | OffsetsMode offsets => OffsetsMode (offsets ++ [start])
  end.

(** The count is a [u32]. *)
Definition push_row (b : RowListBuilder) (r : list Z) : RowListBuilder :=
  {| mode := next_mode b r; b_row_count := cast_unsigned 32 (b_row_count b + 1); b_rows_data := b_rows_data b ++ r |}.

Definition finish (b : RowListBuilder) : RowList :=
  {| row_count := b_row_count b;
     size_hint := match mode b with
                  | StartMode => Fixed 0
                  | FixedMode n => Fixed (if fits_u16 n then n else u_max 16)
                  | OffsetsMode offsets => Offsets offsets
                  end;
     rows_data := b_rows_data b |}.

(** * What a batch holds *)

(** The start offsets of rows laid out from [a]. *)
Fixpoint offs (a : Z) (rows : list (list Z)) : list Z := match rows with [] => [] | r :: rows => a :: offs (a + blen r) rows end.

Definition hint_ok (hint : RowSizeHint) (rows : list (list Z)) : Prop :=
  match hint with
  | Fixed n => Forall (fun r => blen r = n) rows /\ (n = 0 -> rows = [])
  | Offsets offsets => offsets = offs 0 rows
  end.

Definition holds (l : RowList) (rows : list (list Z)) : Prop :=
  row_count l = Z.of_nat (length rows) /\ rows_data l = concat rows /\ hint_ok (size_hint l) rows.

Lemma offs_length rows : forall a, length (offs a rows) = length rows.
Proof. induction rows as [|r rows IH]; intros a; simpl; [done|]. by rewrite IH. Qed.

Lemma offs_lookup rows : forall a i r, rows !! i = Some r -> offs a rows !! i = Some (a + blen (concat (firstn i rows))).
Proof.
  induction rows as [|r rows IH]; intros a i x Hi; [done|]. destruct i as [|i]; simpl; [rewrite blen_nil; f_equal; lia|].
  rewrite (IH _ i x Hi), blen_app. f_equal. lia.
Qed.

Lemma offs_snoc rows r : forall a, offs a (rows ++ [r]) = offs a rows ++ [a + blen (concat rows)].
Proof.
  induction rows as [|x rows IH]; intros a; simpl; [by rewrite blen_nil, Z.add_0_r|]. rewrite IH, blen_app. do 3 f_equal. lia.
Qed.

Lemma same_size_blen n rows : Forall (fun r => blen r = n) rows -> blen (concat rows) = Z.of_nat (length rows) * n.
Proof. induction 1 as [|r rows <- _ IH]; [done|]. simpl concat. rewrite blen_app, IH. simpl length. lia. Qed.

Lemma offs_same_size n rows : Forall (fun r => blen r = n) rows -> forall k, offs (Z.of_nat k * n) rows = map (fun i => Z.of_nat i * n) (seq k (length rows)).
Proof.
  induction 1 as [|r rows Hr _ IH]; intros k; [done|]. simpl. f_equal. rewrite <- IH. f_equal. lia.
Qed.

Lemma get_row rows i r : rows !! i = Some r -> get (concat rows) (blen (concat (firstn i rows))) (blen (concat (firstn i rows)) + blen r) = Some r.
Proof.
  intros Hi. rewrite <- (take_drop_middle rows i r Hi) at 1. rewrite concat_app. simpl. unfold get. rewrite !blen_app.
  pose proof (blen_nonneg r). pose proof (blen_nonneg (concat (skipn (S i) rows))). rewrite !(proj2 (Z.leb_le _ _)) by lia. simpl. f_equal. by apply slice_mid.
Qed.

Lemma holds_row l rows i : holds l rows -> row l i = rows !! i.
Proof.
  intros (Hc & Hd & Hh). unfold row. rewrite Hc. destruct (Z.leb_spec (Z.of_nat (length rows)) (Z.of_nat i)) as [Hge|Hlt].
  { symmetry. apply lookup_ge_None_2. lia. }
  destruct (lookup_lt_is_Some_2 rows i) as [r Hr]; [lia|]. rewrite Hr, Hd. destruct (size_hint l) as [n|os]; simpl in Hh.
  - destruct Hh as [Hn _]. rewrite <- (get_row rows i r Hr). f_equal; rewrite (same_size_blen n) by (by apply Forall_take); rewrite length_firstn; [lia|].
    rewrite Forall_forall in Hn. rewrite (Hn r) by (by eapply list_elem_of_lookup_2). lia.
  - subst os. rewrite (offs_lookup rows 0 i r Hr). simpl. rewrite <- (get_row rows i r Hr). f_equal.
    destruct (rows !! S i) as [r'|] eqn:Hr'.
    + rewrite (offs_lookup rows 0 (S i) r' Hr'), (take_S_r _ _ _ Hr), concat_app, blen_app. simpl. rewrite app_nil_r. lia.
    + rewrite (proj2 (lookup_ge_None _ _)) by (rewrite offs_length; by apply lookup_ge_None). rewrite <- (take_drop_middle rows i r Hr) at 1.
      rewrite (drop_ge rows (S i)) by (by apply lookup_ge_None). rewrite concat_app, blen_app. simpl. by rewrite app_nil_r.
Qed.

Lemma holds_iter l rows : holds l rows -> iter l = rows.
Proof.
  intros Hl. unfold iter. assert (Z.to_nat (row_count l) = length rows) as -> by (destruct Hl as (-> & _); lia).
  transitivity (omap (fun i => rows !! i) (seq 0 (length rows))).
  - apply list_omap_ext, Forall_Forall2_diag, Forall_true. intros i. by apply holds_row.
  - clear. induction rows as [|r rows IH] using rev_ind; [done|]. rewrite length_app. simpl. rewrite seq_app, omap_app. simpl.
    rewrite list_lookup_middle by done. f_equal. rewrite <- IH at 2. apply list_omap_ext, Forall_Forall2_diag, Forall_seq. intros i Hi.
    apply lookup_app_l. lia.
Qed.

Lemma check_offsets_ok data_len rows : forall a first, (first = true -> a = 0) -> a + blen (concat rows) <= data_len -> forall prev, prev <= a ->
  check_offsets data_len first prev (offs a rows) = Ok tt.
Proof.
  induction rows as [|r rows IH]; intros a first Hf Hl prev Hp; [done|]. simpl in *. rewrite blen_app in Hl. pose proof (blen_nonneg r). pose proof (blen_nonneg (concat rows)).
  assert (first && negb (a =? 0) = false) as -> by (destruct first; [by rewrite Hf|done]). rewrite !(proj2 (Z.ltb_ge _ _)) by lia. by apply IH; try lia.
Qed.

Lemma holds_valid l rows : holds l rows -> validate l = Ok tt.
Proof.
  intros (Hc & Hd & Hh). unfold validate. rewrite Hc, Hd. destruct (size_hint l) as [n|os]; simpl in Hh.
  - destruct Hh as [Hn Hz]. rewrite (same_size_blen n rows Hn). destruct (Z.eqb_spec n 0) as [E|E]; [by rewrite (Hz E)|]. by rewrite Z.eqb_refl.
  - subst os. rewrite offs_length, Z.eqb_refl. simpl. destruct rows as [|r rows]; [done|]. rewrite (proj2 (Z.eqb_neq _ _)) by (simpl; lia). simpl andb. cbn iota.
    apply check_offsets_ok; lia.
Qed.

(** Increasing offsets cut the bytes into rows. *)
Lemma cut_offsets os : forall a data, check_offsets (a + blen data) false a os = Ok tt -> exists rows, offs a rows = a :: os /\ concat rows = data.
Proof.
  induction os as [|o os IH]; intros a data Hv; [exists [data]; simpl; by rewrite app_nil_r|]. simpl in Hv.
  destruct (Z.ltb_spec o a); [done|]. destruct (Z.ltb_spec (a + blen data) o) as [|Ho]; [done|]. set (k := Z.to_nat (o - a)).
  assert (blen (firstn k data) = o - a) as Hk by (unfold blen in *; rewrite length_firstn; lia).
  destruct (IH o (skipn k data)) as (rows & Er & Ec).
  - assert (o + blen (skipn k data) = a + blen data) as ->; [|done]. unfold blen in *. rewrite length_skipn. lia.
  - exists (firstn k data :: rows). simpl. rewrite Hk, Ec, firstn_skipn. split; [|done]. f_equal. rewrite <- Er. f_equal. lia.
Qed.

(** Equal sizes cut the bytes into rows. *)
Lemma cut_fixed n k : 0 <= n -> forall data, Z.of_nat k * n = blen data -> exists rows, length rows = k /\ Forall (fun r => blen r = n) rows /\ concat rows = data.
Proof.
  intros Hn. induction k as [|k IH]; intros data E; [exists []; split_and!; [done|constructor|]; symmetry; apply blen_zero; lia|].
  set (m := Z.to_nat n). assert (blen (firstn m data) = n) as Hm by (unfold blen in *; rewrite length_firstn; lia).
  destruct (IH (skipn m data)) as (rows & Hl & Hf & Hc); [unfold blen in *; rewrite length_skipn; lia|].
  exists (firstn m data :: rows). split_and!; [simpl; by rewrite Hl|by constructor|simpl; by rewrite Hc, firstn_skipn].
Qed.

Lemma valid_holds l : 0 <= row_count l -> (forall n, size_hint l = Fixed n -> 0 <= n) -> validate l = Ok tt -> exists rows, holds l rows.
Proof.
  destruct l as [count [n|os] data]; unfold validate, holds; simpl; intros Hc Hn Hv.
  - specialize (Hn n eq_refl). destruct (Z.eqb_spec n 0) as [->|Hz].
    + destruct (Z.eqb_spec count 0) as [->|]; [|done]. destruct (Z.eqb_spec (blen data) 0) as [Hd%blen_zero|]; [|done]. exists []. by subst data.
    + destruct (Z.eqb_spec (count * n) (blen data)) as [E|]; [|done]. destruct (cut_fixed n (Z.to_nat count) Hn data) as (rows & Hl & Hf & Ec); [lia|].
      exists rows. split_and!; [lia|done|done|lia].
  - destruct (Z.eqb_spec (Z.of_nat (length os)) count) as [<-|]; [|done]. destruct os as [|o os]; simpl in Hv.
    + destruct (Z.eqb_spec (blen data) 0) as [Hd%blen_zero|]; [|done]. exists []. by subst data.
    + destruct (Z.eqb_spec o 0) as [->|]; [|done]. simpl in Hv. destruct (Z.ltb_spec (blen data) 0) as [|_]; [done|].
      destruct (cut_offsets os 0 data Hv) as (rows & Er & Ec). exists rows. split_and!; [|done|done]. rewrite <- (offs_length rows 0), Er. done.
Qed.

(** ** The builder *)

Definition built (b : RowListBuilder) (rows : list (list Z)) : Prop :=
  b_row_count b = Z.of_nat (length rows) /\ b_rows_data b = concat rows /\
  match mode b with
  | StartMode => rows = []
  | FixedMode n => 0 < n < 2 ^ 16 /\ Forall (fun r => blen r = n) rows
  | OffsetsMode os => os = offs 0 rows
  end.

Lemma push_built b rows r : built b rows -> Z.of_nat (length rows) + 1 < 2 ^ 32 -> built (push_row b r) (rows ++ [r]).
Proof.
  intros (Hc & Hd & Hm) Hl. split_and!; simpl.
  - rewrite Hc, length_app. simpl. unfold cast_unsigned. rewrite Z.mod_small by lia. lia.
  - rewrite Hd, concat_app. simpl. by rewrite app_nil_r.
  - unfold next_mode. rewrite Hd, Hc, Nat2Z.id. pose proof (blen_nonneg r). destruct (mode b) as [|n|os].
    + subst rows. simpl. unfold fits_u16. destruct (Z.ltb_spec (blen r) (2 ^ 16)), (Z.eqb_spec (blen r) 0); simpl; try done. split; [lia|]. by repeat constructor.
    + destruct Hm as [Hn Hf]. destruct (Z.eqb_spec (blen r) n) as [E|E]; simpl; [split; [done|]; apply Forall_app; by repeat constructor|].
      rewrite offs_snoc. f_equal. by rewrite <- (offs_same_size n rows Hf 0).
    + subst os. by rewrite offs_snoc.
Qed.

Lemma pushes_built rs : forall b rows, built b rows -> Z.of_nat (length rows + length rs) < 2 ^ 32 -> built (fold_left push_row rs b) (rows ++ rs).
Proof.
  induction rs as [|r rs IH]; intros b rows Hb Hl; [by rewrite app_nil_r|]. simpl in *. rewrite cons_middle, app_assoc. apply IH; [apply push_built; [done|lia]|].
  rewrite length_app. simpl. lia.
Qed.

Lemma finish_holds b rows : built b rows -> holds (finish b) rows.
Proof.
  intros (Hc & Hd & Hm). split_and!; [done|done|]. simpl. destruct (mode b) as [|n|os]; simpl; [by subst|..|done].
  destruct Hm as [Hn Hf]. unfold fits_u16. rewrite (proj2 (Z.ltb_lt _ _)) by lia. split; [done|lia].
Qed.

(** The two builders, before the first row. *)
Lemma new_built : built new [].
Proof. done. Qed.

Lemma fixed_built n : 0 <= n < 2 ^ 16 -> built (with_fixed_size n) [].
Proof.
  intros Hn. split_and!; [done|done|]. simpl. destruct (Z.eqb_spec n 0); [done|]. split; [lia|constructor].
Qed.

(** row batches. A batch built from rows, with or without a known size,
    passes the decoder's check and iterates exactly those rows in order; and a
    batch whose count and hint a decoder accepted splits its bytes into exactly
    as many rows as it announces, none of them missing. *)
Theorem rowlist_round_trip :
  (forall n rows, 0 <= n < 2 ^ 16 -> Z.of_nat (length rows) < 2 ^ 32 -> forall b, b = new \/ b = with_fixed_size n ->
    let l := finish (fold_left push_row rows b) in
    deserialize (row_count l) (size_hint l) (rows_data l) = Ok l /\ iter l = rows /\ forall i, row l i = rows !! i) /\
  (forall count hint data l, 0 <= count -> (forall n, hint = Fixed n -> 0 <= n) -> deserialize count hint data = Ok l ->
    Z.of_nat (length (iter l)) = count /\ concat (iter l) = data /\ forall i, row l i = iter l !! i).
Proof.
  split.
  - intros n rows Hn Hlen b Hb l. assert (holds l rows) as Hl.
    { apply finish_holds, (pushes_built rows b []); [|done]. destruct Hb as [->| ->]; [apply new_built|by apply fixed_built]. }
    split_and!; [|by apply holds_iter|intros i; by apply holds_row]. unfold deserialize. destruct l as [c h d]. simpl. by rewrite (holds_valid _ rows Hl).
  - intros count hint data l Hc Hn E. unfold deserialize in E. destruct (validate _) as [[]|] eqn:Hv; [|done]. injection E as <-.
    destruct (valid_holds {| row_count := count; size_hint := hint; rows_data := data |} Hc Hn Hv) as [rows Hl]. rewrite (holds_iter _ _ Hl). split_and!; [by destruct Hl as (Hl & _)|by destruct Hl as (_ & Hl & _)|].
    intros i. by apply holds_row.
Qed.

Lemma rowlist_round_trip_witness : iter (finish (fold_left push_row [[1; 2]; [3; 4]; [5]] (with_fixed_size 2))) = [[1; 2]; [3; 4]; [5]] /\
  iter {| row_count := 2; size_hint := Offsets [0; 3]; rows_data := [7; 8; 9; 10] |} = [[7; 8; 9]; [10]].
Proof.
  split.
  - apply (proj1 rowlist_round_trip 2 [[1; 2]; [3; 4]; [5]] ltac:(lia) ltac:(simpl; lia) (with_fixed_size 2)). by right.
  - pose proof (proj2 rowlist_round_trip 2 (Offsets [0; 3]) [7; 8; 9; 10] _ ltac:(lia) ltac:(done) eq_refl) as (_ & _ & _). reflexivity.
Defined.
End RowList.
