(* ===== verification/Crdt.v ===== *)
(** Collaborative text: [crates/fluxum-core/src/crdt.rs].

    A document is a map from character ids to tree nodes; its text is a
    depth-first walk, siblings newest first, tombstones skipped. The lemmas show
    that the walk ends and shows every live character once, that the operations
    and not their order decide the document, and what local edits and deltas do;
    CrdtProps states the results. The walk has one round per entry as its fuel;
    [walk_exists] shows that this is enough. An error is returned without the
    document: in the source the operations before the failing one stay applied.
    The MessagePack bodies are parameters. *)

From stdpp Require Import base list gmap sorting.
From Stdlib Require Import ZArith Lia.
From S2P Require Import Prelude.

Module Crdt.

(** [OpId { seq, actor }], ordered by sequence and then actor. *)
Notation OpId := (Z * Z)%type.

(** [ch] is a Unicode scalar value. *)
Inductive TextOp : Type :=
  | Insert (id : OpId) (after : option OpId) (ch : Z)
  | Delete (id target : OpId).

Definition op_id (op : TextOp) : OpId := match op with Insert id _ _ => id | Delete id _ => id end.

Record Entry : Type := {
  parent : option OpId;
  ch : Z;
  deleted_by : option OpId;
}.

Notation CrdtText := (gmap OpId Entry).

Definition new : CrdtText := ∅.

Inductive CrdtError : Type :=
  | UnknownParent (id parent : OpId)
  | UnknownTarget (id target : OpId)
  | BadPosition
  | BadRange
  | DecodeFailed
  | FoundPatch
  | FoundState
  | MissingTag.

(** The first eight bytes of an identity, little-endian. *)
Definition actor_of (identity : list Z) : Z := le_val (firstn 8 identity).

Definition max_seq (l : list OpId) : Z := fold_right Z.max 0 (map fst l).

(** Unchecked addition on [u64]. *)
Definition top_seq (d : CrdtText) : Z :=
  let inserts := max_seq (btree_keys d) in
  let deletes := max_seq (omap deleted_by (btree_values d)) in
  Z.max inserts deletes.

Definition next_seq (d : CrdtText) : Z := cast_unsigned 64 (top_seq d + 1).

(** ** The walk *)

Definition push_child (m : gmap (option OpId) (list OpId)) (p : OpId * Entry) : gmap (option OpId) (list OpId) :=
  <[parent p.2 := default [] (m !! parent p.2) ++ [p.1]]> m.

Definition newer (a b : OpId) : Prop := key_le b a.
#[global] Instance newer_dec a b : Decision (newer a b).
Proof. unfold newer. apply _. Defined.

Definition children (d : CrdtText) : gmap (option OpId) (list OpId) :=
  merge_sort newer <$> fold_left push_child (btree_entries d) ∅.

Definition kids (d : CrdtText) (p : option OpId) : list OpId := default [] (children d !! p).

(** The loop over the stack, whose top is the head of the list; [None] is an
    index out of the map or an exhausted fuel. *)
Fixpoint walk {A} (emit : OpId -> Entry -> list A) (d : CrdtText) (fuel : nat) (stack : list OpId) : option (list A) :=
  match stack, fuel with
  | [], _ => Some []
  | _, O => None
  | id :: stack, S fuel => e ← d !! id; out ← walk emit d fuel (kids d (Some id) ++ stack); Some (emit id e ++ out)
  end.

Definition live (e : Entry) : bool := match deleted_by e with None => true | Some _ => false end.

Definition text (d : CrdtText) : option (list Z) :=
  walk (fun _ e => if live e then [ch e] else []) d (size d) (kids d None).

Definition visible_ids (d : CrdtText) : option (list OpId) :=
  walk (fun id e => if live e then [id] else []) d (size d) (kids d None).

(** ** Operations *)

Definition apply (op : TextOp) (d : CrdtText) : result CrdtError CrdtText :=
  match op with
  | Insert id after c =>
      match d !! id with
      | Some _ => Ok d
      | None =>
          match after with
          | Some p =>
              match d !! p with
              | None => Err (UnknownParent id p)
              | Some _ => Ok (<[id := {| parent := after; ch := c; deleted_by := None |}]> d)
              end
          | None => Ok (<[id := {| parent := after; ch := c; deleted_by := None |}]> d)
          end
      end
  | Delete id target =>
      match d !! target with
      | None => Err (UnknownTarget id target)
      | Some e =>
          let deleted := match deleted_by e with
                         | Some existing => if decide (key_le existing id) then Some existing else Some id
                         | None => Some id
                         end in
          Ok (<[target := {| parent := parent e; ch := ch e; deleted_by := deleted |}]> d)
      end
  end.

Fixpoint apply_all (ops : list TextOp) (d : CrdtText) : result CrdtError CrdtText :=
  match ops with [] => Ok d | op :: ops => apply op d ≫= fun d => apply_all ops d end.

Definition op_le (a b : TextOp) : Prop := key_le (op_id a) (op_id b).
#[global] Instance op_le_dec a b : Decision (op_le a b).
Proof. unfold op_le. apply _. Defined.

(** The sort is not stable, but only operations with the same id could tell. *)
Definition apply_ops (ops : list TextOp) (d : CrdtText) : result CrdtError CrdtText := apply_all (merge_sort op_le ops) d.

(** The characters of a local insert, each after the one before. *)
Fixpoint insert_chars (seq actor : Z) (after : option OpId) (cs : list Z) (d : CrdtText) : result CrdtError (list TextOp * CrdtText) :=
  match cs with
  | [] => Ok ([], d)
  | c :: cs =>
      let op := Insert (seq, actor) after c in
      apply op d ≫= fun d =>
      insert_chars (cast_unsigned 64 (seq + 1)) actor (Some (seq, actor)) cs d ≫= fun '(ops, d) => Ok (op :: ops, d)
  end.

(** [None] when the walk does not end. *)
Definition local_insert (pos : nat) (cs : list Z) (actor : Z) (d : CrdtText) : option (result CrdtError (list TextOp * CrdtText)) :=
  visible ← visible_ids d;
  Some (if decide (length visible < pos)%nat then Err BadPosition
        else insert_chars (next_seq d) actor (match pos with O => None | S p => visible !! p end) cs d).

Fixpoint delete_targets (seq actor : Z) (targets : list OpId) (d : CrdtText) : result CrdtError (list TextOp * CrdtText) :=
  match targets with
  | [] => Ok ([], d)
  | target :: targets =>
      let op := Delete (seq, actor) target in
      apply op d ≫= fun d =>
      delete_targets (cast_unsigned 64 (seq + 1)) actor targets d ≫= fun '(ops, d) => Ok (op :: ops, d)
  end.

Definition local_delete (pos len : nat) (actor : Z) (d : CrdtText) : option (result CrdtError (list TextOp * CrdtText)) :=
  visible ← visible_ids d;
  Some (if decide (length visible < pos + len)%nat then Err BadRange
        else delete_targets (next_seq d) actor (firstn len (skipn pos visible)) d).

(** ** Deltas *)

Definition see (vv : gmap Z Z) (id : OpId) : gmap Z Z := <[id.2 := Z.max (default 0 (vv !! id.2)) id.1]> vv.

Definition version_vector (d : CrdtText) : gmap Z Z :=
  fold_left (fun vv p => let vv := see vv p.1 in match deleted_by p.2 with Some id => see vv id | None => vv end) (btree_entries d) ∅.

Definition unseen (vv : gmap Z Z) (id : OpId) : bool := default 0 (vv !! id.2) <? id.1.

Definition ops_of_entry (vv : gmap Z Z) (p : OpId * Entry) : list TextOp :=
  (if unseen vv p.1 then [Insert p.1 (parent p.2) (ch p.2)] else []) ++
  match deleted_by p.2 with Some id => if unseen vv id then [Delete id p.1] else [] | None => [] end.

Definition ops_since (d older : CrdtText) : list TextOp :=
  merge_sort op_le (flat_map (ops_of_entry (version_vector older)) (btree_entries d)).

(** ** Bytes

    The MessagePack bodies ([rmp_serde]) are parameters. *)

Section bytes.
Context (pack_state : CrdtText -> list Z) (unpack_state : list Z -> option CrdtText).
Context (pack_ops : list TextOp -> list Z) (unpack_ops : list Z -> option (list TextOp)).

Definition TAG_STATE : Z := 0.
Definition TAG_PATCH : Z := 1.

Definition to_bytes (d : CrdtText) : list Z := TAG_STATE :: pack_state d.

Definition from_bytes (bytes : list Z) : result CrdtError CrdtText :=
  match bytes with
  | tag :: body =>
      if tag =? TAG_STATE then match unpack_state body with Some d => Ok d | None => Err DecodeFailed end
      else if tag =? TAG_PATCH then Err FoundPatch else Err MissingTag
  | [] => Err MissingTag
  end.

Definition encode_ops (ops : list TextOp) : list Z := TAG_PATCH :: pack_ops ops.

Definition decode_patch (bytes : list Z) : result CrdtError (list TextOp) :=
  match bytes with
  | tag :: body =>
      if tag =? TAG_PATCH then match unpack_ops body with Some ops => Ok ops | None => Err DecodeFailed end
      else if tag =? TAG_STATE then Err FoundState else Err MissingTag
  | [] => Err MissingTag
  end.

Definition decode_ops (bytes : list Z) : result CrdtError (list TextOp) := decode_patch bytes.

Definition apply_patch_bytes (bytes : list Z) (d : CrdtText) : result CrdtError CrdtText :=
  decode_patch bytes ≫= fun ops => apply_ops ops d.
End bytes.

(** * The walk *)

Lemma fold_children l : forall m p, default [] (fold_left push_child l m !! p) = default [] (m !! p) ++ (filter (fun q => parent q.2 = p) l).*1.
Proof.
  induction l as [|q l IH]; intros m p; simpl; [by rewrite app_nil_r|]. rewrite IH. unfold push_child. rewrite filter_cons. destruct (decide (parent q.2 = p)) as [<-|Hne].
  - rewrite lookup_insert_eq. simpl. by rewrite <- app_assoc.
  - by rewrite lookup_insert_ne.
Qed.

Lemma kids_eq d p : kids d p = merge_sort newer (filter (fun q => parent q.2 = p) (btree_entries d)).*1.
Proof.
  unfold kids, children. rewrite lookup_fmap. pose proof (fold_children (btree_entries d) ∅ p) as E. rewrite lookup_empty in E. simpl in E. rewrite <- E.
  by destruct (fold_left _ _ _ !! p).
Qed.

Lemma kids_elem d p x : x ∈ kids d p <-> exists e, d !! x = Some e /\ parent e = p.
Proof.
  rewrite kids_eq, merge_sort_Permutation, list_elem_of_fmap. split.
  - intros ([y e] & -> & [Hp Hin]%list_elem_of_filter). exists e. split; [by apply elem_of_btree_entries|done].
  - intros (e & He & Hp). exists (x, e). split; [done|]. apply list_elem_of_filter. split; [done|]. by apply elem_of_btree_entries.
Qed.

Lemma kids_NoDup d p : NoDup (kids d p).
Proof. rewrite kids_eq, merge_sort_Permutation. apply NoDup_fst_filter, (btree_keys_NoDup d). Qed.

#[global] Instance newer_trans : Transitive newer.
Proof. intros a b c H1 H2. unfold newer in *. by etrans. Qed.
#[global] Instance newer_total : Total newer.
Proof. intros a b. unfold newer. destruct (total key_le a b); auto. Qed.
#[global] Instance newer_antisymm : AntiSymm (=) newer.
Proof. intros a b H1 H2. unfold newer in *. by apply (anti_symm key_le). Qed.

Lemma siblings_sorted d p : StronglySorted newer (kids d p).
Proof. rewrite kids_eq. apply StronglySorted_merge_sort; apply _. Qed.

(** The children of a node are the list that has them newest first. *)
Lemma kids_unique d p l : NoDup l -> StronglySorted newer l -> (forall x, x ∈ l <-> exists e, d !! x = Some e /\ parent e = p) -> kids d p = l.
Proof.
  intros Hnd Hs Hl. apply (StronglySorted_unique newer); [apply siblings_sorted|done|]. apply NoDup_Permutation; [apply kids_NoDup|done|].
  intros x. by rewrite kids_elem, Hl.
Qed.

(** The order of the walk, as a relation. *)
Inductive walks (d : CrdtText) : list OpId -> list OpId -> Prop :=
  | walks_nil : walks d [] []
  | walks_cons id e st out : d !! id = Some e -> walks d (kids d (Some id) ++ st) out -> walks d (id :: st) (id :: out).

Lemma walks_det d st o1 o2 : walks d st o1 -> walks d st o2 -> o1 = o2.
Proof. intros H1. revert o2. induction H1 as [|id e st o He _ IH]; intros o2 H2; inversion H2; subst; [done|]. f_equal. by apply IH. Qed.

Lemma walks_inv d y st out : walks d (y :: st) out -> exists o, out = y :: o /\ walks d (kids d (Some y) ++ st) o.
Proof. inversion 1; subst; eauto. Qed.

Definition emitted {A} (emit : OpId -> Entry -> list A) (d : CrdtText) (id : OpId) : list A :=
  match d !! id with Some e => emit id e | None => [] end.

Lemma walk_walks {A} (emit : OpId -> Entry -> list A) d st out : walks d st out -> forall fuel, (length out <= fuel)%nat ->
  walk emit d fuel st = Some (flat_map (emitted emit d) out).
Proof.
  induction 1 as [|id e st out He _ IH]; intros fuel Hf; [by destruct fuel|]. destruct fuel as [|fuel]; simpl in Hf; [lia|].
  simpl. rewrite He. simpl. rewrite IH by lia. simpl. unfold emitted at 2. by rewrite He.
Qed.

(** Nodes enter the stack under a visited parent, so each is visited once. *)
Definition entered (d : CrdtText) (vis : list OpId) (x : OpId) : Prop := exists e, d !! x = Some e /\ (parent e = None \/ exists p, parent e = Some p /\ p ∈ vis).

Lemma walks_total d n : forall vis st, (size d <= length vis + n)%nat -> NoDup (vis ++ st) -> Forall (entered d vis) (vis ++ st) ->
  exists out, walks d st out /\ NoDup (vis ++ out) /\ Forall (fun x => is_Some (d !! x)) out.
Proof.
  induction n as [|n IH]; intros vis [|id st] Hn Hnd Hin.
  - exists []. split_and!; [constructor|done|constructor].
  - exfalso. assert (length (vis ++ id :: st) <= size d)%nat as Hl; [|rewrite length_app in Hl; simpl in Hl; lia].
    rewrite <- (size_dom d), <- (size_list_to_set (C := gset OpId) (vis ++ id :: st) Hnd). apply subseteq_size. intros x [Hx|Hx]%elem_of_list_to_set%elem_of_app;
      rewrite Forall_forall in Hin; destruct (Hin x) as (e & He & _); try (apply elem_of_app; tauto); apply elem_of_dom; by exists e.
  - exists []. split_and!; [constructor|done|constructor].
  - pose proof Hin as Hin0. rewrite Forall_forall in Hin. destruct (Hin id) as (e & He & Hp); [apply elem_of_app; right; by left|].
    assert (id ∉ vis /\ id ∉ st) as [Hv Hs]. { apply NoDup_app in Hnd as (_ & Hd & [Hs _]%NoDup_cons). split; [|done]. intros Hv. apply (Hd id Hv). by left. }
    assert (forall x, x ∈ kids d (Some id) -> x ∉ vis ++ id :: st) as Hk.
    { intros x (ex & Hx & Hpx)%kids_elem Hxin. destruct (Hin x Hxin) as (e' & He' & Hp'). assert (e' = ex) as -> by congruence.
      destruct Hp' as [|(p & E & Hpv)]; [congruence|]. assert (p = id) as -> by congruence. done. }
    destruct (IH (vis ++ [id]) (kids d (Some id) ++ st)) as (out & Hw & Hnd' & Hall).
    + rewrite length_app. simpl. lia.
    + rewrite <- app_assoc. apply NoDup_app in Hnd as (H1 & H2 & H3). apply NoDup_cons in H3 as [_ H3]. apply NoDup_app. split; [done|]. split.
      * intros x Hx. simpl. rewrite elem_of_cons, elem_of_app. intros [->|[Hxk|Hxs]]; [done|apply (Hk x Hxk), elem_of_app; by left|apply (H2 x Hx); by right].
      * simpl. apply NoDup_cons. rewrite elem_of_app. split; [intros [Hxk|?]; [apply (Hk id Hxk), elem_of_app; right; by left|done]|].
        apply NoDup_app. split; [apply kids_NoDup|]. split; [|done]. intros x Hxk Hxs. apply (Hk x Hxk), elem_of_app. right. by right.
    + apply Forall_forall. intros x Hx. assert (forall y, entered d vis y -> entered d (vis ++ [id]) y) as Hmono.
      { intros y (ey & Ey & [|(p & Ep & Hpv)]); exists ey; (split; [done|]); [by left|right]. exists p. split; [done|]. apply elem_of_app. by left. }
      rewrite !elem_of_app in Hx. destruct Hx as [[Hx|Hx]|[Hx|Hx]].
      * apply Hmono, Hin, elem_of_app. by left.
      * apply list_elem_of_singleton in Hx as ->. apply Hmono, Hin, elem_of_app. right. by left.
      * apply kids_elem in Hx as (ex & Hx & Hpx). exists ex. split; [done|]. right. exists id. split; [done|]. apply elem_of_app. right. by left.
      * apply Hmono, Hin, elem_of_app. right. by right.
    + exists (id :: out). split; [by econstructor|]. split; [by rewrite <- app_assoc in Hnd'|]. constructor; [by exists e|done].
Qed.

(** Every document has a walk, which the fuel covers. *)
Lemma walk_exists d : exists out, walks d (kids d None) out /\ NoDup out /\ Forall (fun x => is_Some (d !! x)) out /\ (length out <= size d)%nat.
Proof.
  destruct (walks_total d (size d) [] (kids d None)) as (out & Hw & Hnd & Hall); simpl; [lia|apply kids_NoDup| |].
  - apply Forall_forall. intros x (e & He & Hp)%kids_elem. exists e. auto.
  - exists out. split_and!; try done. rewrite <- (size_dom d), <- (size_list_to_set (C := gset OpId) out Hnd). apply subseteq_size.
    intros x Hx%elem_of_list_to_set. rewrite Forall_forall in Hall. by apply elem_of_dom, Hall.
Qed.

(** ** What the walk shows *)

Inductive reach (d : CrdtText) : OpId -> Prop :=
  | reach_root x e : d !! x = Some e -> parent e = None -> reach d x
  | reach_child x e p : d !! x = Some e -> parent e = Some p -> reach d p -> reach d x.

(** Every character hangs off the start of the document. *)
Definition rooted (d : CrdtText) : Prop := forall x, is_Some (d !! x) -> reach d x.

Lemma walks_closed d st out : walks d st out -> (forall x, x ∈ st -> x ∈ out) /\ (forall x y, x ∈ out -> y ∈ kids d (Some x) -> y ∈ out).
Proof.
  induction 1 as [|id e st out He _ [IH1 IH2]]; [split; [done|]; by intros x y ?%elem_of_nil|]. split.
  - intros x [->|Hx]%elem_of_cons; [by left|right]. apply IH1, elem_of_app. by right.
  - intros x y [->|Hx]%elem_of_cons Hy; right; [apply IH1, elem_of_app; by left|by eapply IH2].
Qed.

Lemma walks_reach d out x : walks d (kids d None) out -> reach d x -> x ∈ out.
Proof.
  intros [H1 H2]%walks_closed. induction 1 as [x e He Hp|x e p He Hp _ IH].
  - apply H1, kids_elem. by exists e.
  - apply (H2 p); [done|]. apply kids_elem. by exists e.
Qed.

(** The visible characters of a walk. *)
Definition shown (d : CrdtText) (out : list OpId) : list OpId := flat_map (emitted (fun id e => if live e then [id] else []) d) out.

Lemma shown_elem d out x : x ∈ shown d out <-> x ∈ out /\ exists e, d !! x = Some e /\ live e = true.
Proof.
  unfold shown. rewrite list_elem_of_In, in_flat_map. unfold emitted. split.
  - intros (y & Hy%list_elem_of_In & Hx). destruct (d !! y) as [e|] eqn:E; [|done]. destruct (live e) eqn:El; [|done]. destruct Hx as [<-|[]]. eauto.
  - intros (Hx & e & He & Hl). exists x. split; [by apply list_elem_of_In|]. rewrite He, Hl. by left.
Qed.

Lemma shown_NoDup d out : NoDup out -> NoDup (shown d out).
Proof.
  induction 1 as [|x out Hn _ IH]; [constructor|]. unfold shown in *. simpl. unfold emitted at 1. destruct (d !! x) as [e|]; [|done]. destruct (live e); [|done].
  simpl. apply NoDup_cons. split; [|done]. intros [Hx _]%(shown_elem d out). done.
Qed.

Lemma visible_shown d : exists out, walks d (kids d None) out /\ NoDup out /\ visible_ids d = Some (shown d out).
Proof.
  destruct (walk_exists d) as (out & Hw & Hnd & _ & Hl). exists out. split_and!; try done. by apply walk_walks.
Qed.

Definition char_at (d : CrdtText) (x : OpId) : Z := match d !! x with Some e => ch e | None => 0 end.

Lemma text_visible d ids : visible_ids d = Some ids -> text d = Some (map (char_at d) ids).
Proof.
  destruct (walk_exists d) as (out & Hw & _ & _ & Hl). unfold visible_ids, text. rewrite !(walk_walks _ _ _ _ Hw _ Hl). intros [= <-]. f_equal. clear.
  induction out as [|x out IH]; [done|]. simpl. rewrite map_app, IH. f_equal. unfold emitted, char_at. destruct (d !! x) as [e|] eqn:E; [|done]. destruct (live e); simpl; [by rewrite E|done].
Qed.

(** ** Inserting a character *)

Section insert_char.
Context (d : CrdtText) (x : OpId) (p : option OpId) (c : Z).
Context (Hd : rooted d) (Hx : d !! x = None) (Hnew : forall y, is_Some (d !! y) -> key_lt y x) (Hp : forall q, p = Some q -> is_Some (d !! q)).
Notation d' := (<[x := {| parent := p; ch := c; deleted_by := None |}]> d).

Lemma reach_parent y e q : d !! y = Some e -> parent e = Some q -> is_Some (d !! q).
Proof using Hd.
  intros He Hq. destruct (Hd y ltac:(by exists e)) as [y e' He' Hp'|y e' q' He' Hp' Hr]; [congruence|]. assert (q' = q) as -> by congruence.
  inversion Hr; by eexists.
Qed.

Lemma inserted_at y : y <> x -> d' !! y = d !! y.
Proof using Type. intros Hne. by rewrite lookup_insert_ne. Qed.

Lemma kids_inserted q : q <> p -> q <> Some x -> kids d' q = kids d q.
Proof using Hx.
  intros Hne Hq. apply kids_unique; [apply kids_NoDup|apply siblings_sorted|]. intros y. rewrite kids_elem. destruct (decide (y = x)) as [->|Hy].
  - rewrite lookup_insert_eq, Hx. split; [by intros (e & ? & _)|]. intros (e & [= <-] & E). simpl in E. congruence.
  - by rewrite inserted_at.
Qed.

Lemma kids_new : kids d' (Some x) = [].
Proof using Hd Hx Hp.
  apply kids_unique; [constructor|constructor|]. intros y. split; [by intros ?%elem_of_nil|]. intros (e & He & E). exfalso. destruct (decide (y = x)) as [->|Hy].
  - rewrite lookup_insert_eq in He. injection He as <-. simpl in E. destruct (Hp x E) as [? ?]. congruence.
  - rewrite inserted_at in He by done. destruct (reach_parent _ _ _ He E) as [? ?]. congruence.
Qed.

Lemma kids_parent : kids d' p = x :: kids d p.
Proof using Hx Hnew Hp.
  apply kids_unique.
  - apply NoDup_cons. split; [|apply kids_NoDup]. intros (e & He & _)%kids_elem. congruence.
  - constructor; [apply siblings_sorted|]. apply Forall_forall. intros y (e & He & _)%kids_elem. apply key_lt_le, Hnew. by exists e.
  - intros y. rewrite elem_of_cons, kids_elem. destruct (decide (y = x)) as [->|Hy].
    + rewrite lookup_insert_eq. split; [intros _; by eexists|by left].
    + rewrite inserted_at by done. naive_solver.
Qed.

(** [x] is placed right after [q]. *)
Definition after_in (q : OpId) (l : list OpId) : list OpId := flat_map (fun y => if decide (y = q) then [y; x] else [y]) l.

Lemma walks_after q st out : p = Some q -> walks d st out -> walks d' st (after_in q out).
Proof using Hd Hx Hnew Hp.
  intros Ep. induction 1 as [|id e st out He _ IH]; [constructor|]. assert (id <> x) as Hne by congruence.
  unfold after_in. cbn [flat_map]. fold (after_in q out). destruct (decide (id = q)) as [->|Hq]; simpl.
  - eapply walks_cons; [by rewrite inserted_at|]. assert (kids d' (Some q) = x :: kids d (Some q)) as -> by (rewrite <- Ep; apply kids_parent).
    eapply walks_cons; [apply lookup_insert_eq|]. by rewrite kids_new.
  - eapply walks_cons; [by rewrite inserted_at|]. by rewrite kids_inserted by congruence.
Qed.

Lemma walks_same st out : p = None -> walks d st out -> walks d' st out.
Proof using Hx.
  intros Ep. induction 1 as [|id e st out He _ IH]; [constructor|]. assert (id <> x) by congruence. eapply walks_cons; [by rewrite inserted_at|].
  by rewrite kids_inserted by congruence.
Qed.

Lemma shown_inserted out : x ∉ out -> shown d' out = shown d out.
Proof using Type.
  induction out as [|y out IH]; intros Hn; [done|]. apply not_elem_of_cons in Hn as [Hne Hn]. unfold shown in *. simpl. rewrite IH by done. f_equal.
  unfold emitted. by rewrite inserted_at.
Qed.

Lemma shown_after q out e : d !! q = Some e -> live e = true -> x ∉ out -> shown d' (after_in q out) = after_in q (shown d out).
Proof using Hx.
  intros Hq Hl. induction out as [|y out IH]; intros Hn; [done|]. apply not_elem_of_cons in Hn as [Hne Hn]. unfold shown, after_in in *. simpl.
  rewrite flat_map_app, IH by done. rewrite flat_map_app. f_equal. unfold emitted. destruct (decide (y = q)) as [->|Hy]; simpl; rewrite inserted_at by congruence.
  - rewrite Hq, Hl, lookup_insert_eq. simpl. by rewrite decide_True.
  - rewrite !app_nil_r. destruct (d !! y) as [ey|]; [|done]. destruct (live ey); [|done]. simpl. by rewrite decide_False.
Qed.

Lemma after_in_split q l1 l2 : NoDup (l1 ++ q :: l2) -> after_in q (l1 ++ q :: l2) = l1 ++ q :: x :: l2.
Proof using Type.
  assert (forall l, q ∉ l -> after_in q l = l) as Hno.
  { induction l as [|y l IH]; intros Hn; [done|]. apply not_elem_of_cons in Hn as [Hne Hn]. unfold after_in in *. simpl. rewrite IH by done. by rewrite decide_False. }
  intros (_ & Hd' & [Hq _]%NoDup_cons)%NoDup_app. unfold after_in. rewrite flat_map_app. simpl. rewrite decide_True by done. fold (after_in q l1) (after_in q l2).
  rewrite !Hno; [done|done|]. intros Hin. apply (Hd' q Hin). by left.
Qed.

Lemma walk_old out : walks d (kids d None) out -> x ∉ out.
Proof using Hx.
  intros Hw Hin. destruct (walk_exists d) as (o & Hwo & _ & Hall & _). rewrite Forall_forall in Hall. destruct (Hall x) as [e He]; [|congruence].
  by rewrite (walks_det _ _ _ _ Hwo Hw).
Qed.

(** The visible characters after the insertion. *)
Lemma visible_after q l1 l2 : p = Some q -> visible_ids d = Some (l1 ++ q :: l2) -> visible_ids d' = Some (l1 ++ q :: x :: l2).
Proof using Hd Hx Hnew Hp.
  intros Ep Ev. destruct (visible_shown d) as (out & Hw & Hnd & Es). destruct (visible_shown d') as (out' & Hw' & _ & ->). rewrite Ev in Es. injection Es as Es. f_equal.
  rewrite (kids_inserted None) in Hw' by congruence. rewrite (walks_det _ _ _ _ Hw' (walks_after q _ _ Ep Hw)).
  assert (q ∈ shown d out) as Hq by (rewrite <- Es, elem_of_app; right; by left). apply shown_elem in Hq as (_ & e & He & Hle).
  rewrite (shown_after q out e He Hle (walk_old out Hw)), <- Es. apply after_in_split. rewrite Es. by apply shown_NoDup.
Qed.

Lemma visible_first l : p = None -> visible_ids d = Some l -> visible_ids d' = Some (x :: l).
Proof using Hd Hx Hnew Hp.
  intros Ep Ev. destruct (visible_shown d) as (out & Hw & Hnd & Es). destruct (visible_shown d') as (out' & Hw' & _ & ->). rewrite Ev in Es. injection Es as Es. f_equal.
  assert (kids d' None = x :: kids d None) as Ek by (rewrite <- Ep at 2 3; apply kids_parent). rewrite Ek in Hw'. apply walks_inv in Hw' as (o & -> & Hwo).
  rewrite kids_new in Hwo. simpl in Hwo. rewrite (walks_det _ _ _ _ Hwo (walks_same _ _ Ep Hw)), Es. unfold shown. simpl. fold (shown d' out).
  rewrite (shown_inserted out (walk_old out Hw)). unfold emitted. by rewrite lookup_insert_eq.
Qed.

Lemma rooted_inserted : rooted d'.
Proof using Hd Hx Hp.
  assert (forall y, reach d y -> reach d' y) as Hmono.
  { induction 1 as [y e He Ey|y e q He Ey _ IH]; assert (y <> x) by congruence; [eapply reach_root|eapply reach_child]; try done; by rewrite inserted_at. }
  intros y [e He]. destruct (decide (y = x)) as [->|Hy].
  - assert (p = None \/ exists q, p = Some q) as [Ep|[q Ep]] by (destruct p; eauto); [eapply reach_root|eapply reach_child]; try apply lookup_insert_eq; try done.
    by apply Hmono, Hd, Hp.
  - rewrite inserted_at in He by done. apply Hmono, Hd. by exists e.
Qed.
End insert_char.

Lemma max_seq_bound l : 0 <= max_seq l /\ forall y, y ∈ l -> y.1 <= max_seq l.
Proof.
  unfold max_seq. induction l as [|z l [IH0 IH]]; simpl; [split; [lia|]; by intros y ?%elem_of_nil|]. split; [lia|].
  intros y [->|Hy]%elem_of_cons; [lia|]. specialize (IH y Hy). lia.
Qed.

Lemma top_seq_bound d : 0 <= top_seq d /\ forall y, is_Some (d !! y) -> y.1 <= top_seq d.
Proof.
  unfold top_seq. destruct (max_seq_bound (btree_keys d)) as [H0 H1]. split; [lia|]. intros y [e He]. assert (y ∈ btree_keys d) as Hy%H1; [|lia].
  apply elem_of_btree_keys. by exists e.
Qed.

Lemma seq_lt (a b : OpId) : a.1 < b.1 -> key_lt a b.
Proof. intros H. unfold key_lt. simpl. by rewrite (proj2 (Z.compare_lt_iff a.1 b.1) H). Qed.

Lemma cast_unsigned_small z : 0 <= z < 2 ^ 64 -> cast_unsigned 64 z = z.
Proof. apply Z.mod_small. Qed.

(** The place of an insertion: after the last character of [l1]. *)
Definition at_end (after : option OpId) (l1 : list OpId) : Prop := match after with None => l1 = [] | Some q => last l1 = Some q end.

Lemma visible_inserted d x p c l1 l2 : rooted d -> d !! x = None -> (forall y, is_Some (d !! y) -> key_lt y x) ->
  visible_ids d = Some (l1 ++ l2) -> at_end p l1 ->
  let d' := <[x := {| parent := p; ch := c; deleted_by := None |}]> d in
  apply (Insert x p c) d = Ok d' /\ rooted d' /\ visible_ids d' = Some (l1 ++ x :: l2).
Proof.
  intros Hd Hx Hnew Ev Hat d'. assert (forall q, p = Some q -> is_Some (d !! q)) as Hp.
  { intros q ->. simpl in Hat. apply last_Some in Hat as [l ->]. destruct (visible_shown d) as (out & _ & _ & Es). rewrite Ev in Es. injection Es as Es.
    assert (q ∈ shown d out) as (_ & e & He & _)%shown_elem; [|by exists e]. rewrite <- Es, !elem_of_app. left. right. by left. }
  split; [|split; [by apply rooted_inserted|]].
  - simpl. rewrite Hx. destruct p as [q|]; [|done]. by destruct (Hp q eq_refl) as [e ->].
  - destruct p as [q|]; simpl in Hat.
    + apply last_Some in Hat as [l ->]. rewrite <- app_assoc in *. by apply visible_after.
    + subst l1. by apply visible_first.
Qed.

Lemma insert_chars_spec actor cs : forall d after seq l1 l2, rooted d -> (forall y, is_Some (d !! y) -> y.1 < seq) -> 0 <= seq ->
  seq + Z.of_nat (length cs) < 2 ^ 64 -> visible_ids d = Some (l1 ++ l2) -> at_end after l1 ->
  exists ops d' ids, insert_chars seq actor after cs d = Ok (ops, d') /\ apply_all ops d = Ok d' /\ rooted d' /\ d ⊆ d' /\
    visible_ids d' = Some (l1 ++ ids ++ l2) /\ map (char_at d') ids = cs.
Proof.
  induction cs as [|c cs IH]; intros d after seq l1 l2 Hd Hlt H0 Hb Ev Hat.
  { exists [], d, []. by split_and!. }
  cbn [length] in Hb. set (x := (seq, actor) : OpId). assert (d !! x = None) as Hx. { apply eq_None_not_Some. intros H%Hlt. simpl in H. lia. }
  assert (forall y, is_Some (d !! y) -> key_lt y x) as Hnew. { intros y H%Hlt. by apply seq_lt. }
  destruct (visible_inserted d x after c l1 l2 Hd Hx Hnew Ev Hat) as (Ea & Hd' & Ev'). set (d' := <[x:=_]> d) in *.
  rewrite (cons_middle x l1 l2) in Ev'. destruct (IH d' (Some x) (seq + 1) (l1 ++ [x]) l2) as (ops & d2 & ids & Ei & Eall & Hd2 & Hs & Ev2 & Hc); try done; try lia.
  - intros y [e He]. destruct (decide (y = x)) as [->|Hy]; [simpl; lia|]. subst d'. rewrite lookup_insert_ne in He by done. assert (y.1 < seq); [apply Hlt; by exists e|lia].
  - by rewrite app_assoc in Ev'.
  - simpl. by rewrite last_snoc.
  - exists (Insert x after c :: ops), d2, (x :: ids). cbn [insert_chars apply_all]. fold x. rewrite Ea. cbn -[cast_unsigned]. rewrite cast_unsigned_small by lia. fold x. fold d'. rewrite Ei, Eall. simpl.
    split_and!; try done.
    + etrans; [|exact Hs]. by apply insert_subseteq.
    + by rewrite Ev2, <- app_assoc.
    + f_equal; [|done]. unfold char_at. by rewrite (lookup_weaken d' d2 x _ (lookup_insert_eq d x _) Hs).
Qed.

(** ** Deleting a character *)

(** Tombstones leave the tree as it is. *)
Lemma kids_same d d' : parent <$> d' = parent <$> d -> forall p, kids d' p = kids d p.
Proof.
  intros E p. apply kids_unique; [apply kids_NoDup|apply siblings_sorted|]. intros x. rewrite kids_elem. pose proof (f_equal (.!! x) E) as Ex. simpl in Ex. rewrite !lookup_fmap in Ex.
  destruct (d !! x), (d' !! x); simplify_eq/=; naive_solver.
Qed.

Lemma reach_same d d' x : parent <$> d' = parent <$> d -> reach d x -> reach d' x.
Proof.
  intros E. assert (forall y e, d !! y = Some e -> exists e', d' !! y = Some e' /\ parent e' = parent e) as Hl.
  { intros y e He. pose proof (f_equal (.!! y) E) as Ey. simpl in Ey. rewrite !lookup_fmap, He in Ey. destruct (d' !! y); simplify_eq/=. eauto. }
  induction 1 as [x e He Hp|x e p He Hp _ IH]; destruct (Hl x e He) as (e' & He' & Ep); [eapply reach_root|eapply reach_child]; try done; congruence.
Qed.

Lemma walks_same_kids d d' st out : parent <$> d' = parent <$> d -> walks d st out -> walks d' st out.
Proof.
  intros E. induction 1 as [|id e st out He _ IH]; [constructor|]. pose proof (f_equal (.!! id) E) as Ex. simpl in Ex. rewrite !lookup_fmap, He in Ex.
  destruct (d' !! id) as [e'|] eqn:E'; [|done]. eapply walks_cons; [done|]. by rewrite (kids_same d d' E).
Qed.

Definition tombstoned (k : OpId) (e : Entry) : Entry := {| parent := parent e; ch := ch e; deleted_by := Some k |}.

Lemma filter_others (t : OpId) (l : list OpId) : t ∉ l -> filter (fun y => y <> t) l = l.
Proof. induction l as [|y l IH]; intros Hn; [done|]. apply not_elem_of_cons in Hn as [Hne Hn]. by rewrite filter_cons, decide_True, IH by done. Qed.

Lemma visible_deleted d t k l1 l2 : rooted d -> visible_ids d = Some (l1 ++ t :: l2) ->
  exists d', apply (Delete k t) d = Ok d' /\ rooted d' /\ (forall y, char_at d' y = char_at d y) /\ visible_ids d' = Some (l1 ++ l2) /\ dom d' = dom d.
Proof.
  intros Hd Ev. destruct (visible_shown d) as (out & Hw & Hnd & Es). rewrite Ev in Es. injection Es as Es.
  assert (t ∈ shown d out) as (_ & e & He & Hl)%shown_elem by (rewrite <- Es, elem_of_app; right; by left).
  assert (deleted_by e = None) as Hn by (unfold live in Hl; by destruct (deleted_by e)). exists (<[t := tombstoned k e]> d).
  assert (parent <$> <[t := tombstoned k e]> d = parent <$> d) as E. { rewrite fmap_insert. apply insert_id. by rewrite lookup_fmap, He. }
  split; [simpl; by rewrite He, Hn|]. split.
  { intros y [ey Hy]. apply (reach_same d _ y E), Hd. destruct (decide (t = y)) as [->|Hne]; [by exists e|]. rewrite lookup_insert_ne in Hy by done. by exists ey. }
  split; [|split; [|apply dom_insert_lookup_L; by exists e]].
  { intros y. unfold char_at. destruct (decide (t = y)) as [->|Hne]; [by rewrite lookup_insert_eq, He|by rewrite lookup_insert_ne]. }
  destruct (visible_shown (<[t := tombstoned k e]> d)) as (out' & Hw' & _ & ->). f_equal. rewrite (kids_same d _ E) in Hw'.
  rewrite (walks_det _ _ _ _ Hw' (walks_same_kids d _ _ _ E Hw)). transitivity (filter (fun y => y <> t) (shown d out)).
  - clear -He. induction out as [|y out IH]; [done|]. unfold shown in *. simpl. rewrite filter_app, <- IH. f_equal. unfold emitted. destruct (decide (t = y)) as [->|Hne].
    + rewrite lookup_insert_eq, He. simpl. destruct (live e); [|done]. rewrite filter_cons. by rewrite decide_False by (intros H; by apply H).
    + rewrite lookup_insert_ne by done. destruct (d !! y) as [ey|]; [|done]. destruct (live ey); [|done]. rewrite filter_cons. by rewrite decide_True.
  - rewrite <- Es. apply (shown_NoDup d) in Hnd. rewrite <- Es in Hnd. apply NoDup_app in Hnd as (_ & Hdis & [Ht _]%NoDup_cons).
    rewrite filter_app, filter_cons, decide_False by (intros H; by apply H). f_equal; apply filter_others; [|done]. intros Hy. apply (Hdis t Hy). by left.
Qed.

Lemma delete_targets_spec actor ts : forall d seq l1 l2, rooted d -> visible_ids d = Some (l1 ++ ts ++ l2) ->
  exists ops d', delete_targets seq actor ts d = Ok (ops, d') /\ apply_all ops d = Ok d' /\ rooted d' /\ (forall y, char_at d' y = char_at d y) /\
    visible_ids d' = Some (l1 ++ l2).
Proof.
  induction ts as [|t ts IH]; intros d seq l1 l2 Hd Ev; [exists [], d; by split_and!|].
  destruct (visible_deleted d t (seq, actor) l1 (ts ++ l2) Hd Ev) as (d1 & Ea & Hd1 & Hc1 & Ev1 & _).
  destruct (IH d1 (cast_unsigned 64 (seq + 1)) l1 l2 Hd1 Ev1) as (ops & d2 & Ed & Eall & Hd2 & Hc2 & Ev2).
  exists (Delete (seq, actor) t :: ops), d2. cbn [delete_targets apply_all]. rewrite Ea. cbn -[cast_unsigned]. rewrite Ed, Eall. split_and!; try done. intros y. by rewrite Hc2.
Qed.

(** * Local edits *)

Lemma local_insert_ok d pos cs actor t : rooted d -> top_seq d + Z.of_nat (length cs) + 2 < 2 ^ 64 -> text d = Some t -> (pos <= length t)%nat ->
  exists ops d', local_insert pos cs actor d = Some (Ok (ops, d')) /\ apply_all ops d = Ok d' /\ rooted d' /\ text d' = Some (firstn pos t ++ cs ++ skipn pos t).
Proof.
  intros Hd Hb Et Hpos. destruct (visible_shown d) as (out & _ & _ & Ev). set (ids := shown d out) in *. rewrite (text_visible d ids Ev) in Et. injection Et as <-.
  rewrite length_map in Hpos. destruct (top_seq_bound d) as [H0 Hmax]. assert (next_seq d = top_seq d + 1) as En by (apply cast_unsigned_small; lia).
  set (after := match pos with O => None | S p => ids !! p end). assert (at_end after (firstn pos ids)) as Hat.
  { subst after. destruct pos as [|p]; [done|]. destruct (lookup_lt_is_Some_2 ids p) as [q Hq]; [lia|]. rewrite Hq. simpl. by rewrite (take_S_r _ _ _ Hq), last_snoc. }
  destruct (insert_chars_spec actor cs d after (top_seq d + 1) (firstn pos ids) (skipn pos ids) Hd) as (ops & d' & new & Ei & Ea & Hd' & Hs & Ev' & Hc); try done; try lia.
  - intros y Hy%Hmax. lia.
  - by rewrite firstn_skipn.
  - exists ops, d'. unfold local_insert. rewrite Ev. simpl. rewrite decide_False by lia. rewrite En. fold after. rewrite Ei. split_and!; try done.
    rewrite (text_visible d' _ Ev'), !map_app, Hc, firstn_map, skipn_map. f_equal. f_equal; [|f_equal]; apply map_ext_in; intros y Hy%list_elem_of_In; unfold char_at.
    + assert (y ∈ ids) as (_ & e & He & _)%shown_elem by (rewrite <- (firstn_skipn pos ids), elem_of_app; by left). by rewrite He, (lookup_weaken _ _ _ _ He Hs).
    + assert (y ∈ ids) as (_ & e & He & _)%shown_elem by (rewrite <- (firstn_skipn pos ids), elem_of_app; by right). by rewrite He, (lookup_weaken _ _ _ _ He Hs).
Qed.
Lemma local_delete_ok d pos len actor t : rooted d -> text d = Some t -> (pos + len <= length t)%nat ->
  exists ops d', local_delete pos len actor d = Some (Ok (ops, d')) /\ apply_all ops d = Ok d' /\ rooted d' /\ text d' = Some (firstn pos t ++ skipn (pos + len) t).
Proof.
  intros Hd Et Hpos. destruct (visible_shown d) as (out & _ & _ & Ev). set (ids := shown d out) in *. rewrite (text_visible d ids Ev) in Et. injection Et as <-.
  rewrite length_map in Hpos. destruct (delete_targets_spec actor (firstn len (skipn pos ids)) d (next_seq d) (firstn pos ids) (skipn (pos + len) ids) Hd) as (ops & d' & Ed & Ea & Hd' & Hc & Ev').
  - rewrite Ev. f_equal. rewrite <- (firstn_skipn pos ids) at 1. f_equal. rewrite <- (firstn_skipn len (skipn pos ids)) at 1. by rewrite skipn_skipn, Nat.add_comm.
  - exists ops, d'. unfold local_delete. rewrite Ev. simpl. rewrite decide_False by lia. rewrite Ed. split_and!; try done.
    rewrite (text_visible d' _ Ev'), !map_app, firstn_map, skipn_map. f_equal. f_equal; apply map_ext; intros y; apply Hc.
Qed.
(** * Convergence *)

Lemma apply_all_app l1 l2 : forall d, apply_all (l1 ++ l2) d = apply_all l1 d ≫= apply_all l2.
Proof. induction l1 as [|op l1 IH]; intros d; [done|]. simpl. destruct (apply op d); [apply IH|done]. Qed.

(** A delete of [x] that the document or the operations ask for. *)
Definition asks (d : CrdtText) (ops : list TextOp) (x k : OpId) : Prop := (exists e, d !! x = Some e /\ deleted_by e = Some k) \/ Delete k x ∈ ops.

Definition least (P : OpId -> Prop) (o : option OpId) : Prop := match o with None => forall k, ~ P k | Some k => P k /\ forall k', P k' -> key_le k k' end.

Definition origin (d : CrdtText) (ops : list TextOp) (x : OpId) (p : option OpId) (c : Z) : Prop :=
  match d !! x with Some e => parent e = p /\ ch e = c | None => Insert x p c ∈ ops end.

(** What a set of operations makes of a character, whatever their order. *)
Definition outcome (d : CrdtText) (ops : list TextOp) (x : OpId) (o : option Entry) : Prop :=
  match o with
  | None => d !! x = None /\ (forall p c, Insert x p c ∉ ops) /\ forall k, Delete k x ∉ ops
  | Some e => origin d ops x (parent e) (ch e) /\ least (asks d ops x) (deleted_by e)
  end.

Lemma least_ext P Q o : (forall k, P k <-> Q k) -> least P o -> least Q o.
Proof. intros E. destruct o; simpl; setoid_rewrite E; done. Qed.

Lemma least_det P o1 o2 : least P o1 -> least P o2 -> o1 = o2.
Proof. destruct o1, o2; simpl; [|naive_solver..]. intros [H1 L1] [H2 L2]. f_equal. apply (anti_symm key_le); auto. Qed.

Lemma outcome_same d ops ops' x o : (forall op, op ∈ ops <-> op ∈ ops') -> outcome d ops x o -> outcome d ops' x o.
Proof.
  intros E. destruct o as [e|]; simpl; [|by setoid_rewrite E]. intros [Ho Hl]. split; [|revert Hl; apply least_ext; intros k; unfold asks; by rewrite E].
  unfold origin in *. destruct (d !! x); [done|]. by apply E.
Qed.

(** One character id names one character. *)
Definition coherent (ops : list TextOp) : Prop := forall x p c p' c', Insert x p c ∈ ops -> Insert x p' c' ∈ ops -> p = p' /\ c = c'.

Lemma outcome_det d ops x o1 o2 : coherent ops -> outcome d ops x o1 -> outcome d ops x o2 -> o1 = o2.
Proof.
  assert (forall e, outcome d ops x (Some e) -> outcome d ops x None -> False) as Hex.
  { intros e [Ho _] (Hn & Hi & _). unfold origin in Ho. rewrite Hn in Ho. by eapply Hi. }
  intros Hc. destruct o1 as [[p1 c1 k1]|], o2 as [[p2 c2 k2]|]; intros H1 H2; try done; try (exfalso; by eauto).
  destruct H1 as [O1 L1], H2 as [O2 L2]. simpl in *. rewrite (least_det _ _ _ L1 L2). unfold origin in *. destruct (d !! x) as [e|].
  - destruct O1 as [<- <-], O2 as [-> ->]. done.
  - by destruct (Hc _ _ _ _ _ O1 O2) as [-> ->].
Qed.
Lemma outcome_nil d x : outcome d [] x (d !! x).
Proof.
  assert (forall op : TextOp, op ∈ [] -> False) as Hn by (intros op H; by apply elem_of_nil in H).
  unfold outcome, origin, asks. destruct (d !! x) as [e|] eqn:E; [|split; [done|split; intros; intros H; by eapply Hn]]. split; [done|].
  destruct (deleted_by e) as [k|] eqn:Ek; simpl.
  - split; [by left; exists e|]. intros k' [(e' & [= <-] & Ek')|H]; [|by destruct (Hn _ H)]. rewrite Ek in Ek'. by injection Ek' as ->.
  - intros k' [(e' & [= <-] & Ek')|H]; [congruence|by destruct (Hn _ H)].
Qed.

(** Operations on other characters do not matter. *)
Definition on (op : TextOp) : OpId := match op with Insert id _ _ => id | Delete _ target => target end.

Lemma outcome_other d ops op x o : on op <> x -> outcome d ops x o -> outcome d (ops ++ [op]) x o.
Proof.
  intros Hne. assert (forall op', on op' = x -> op' ∈ ops ++ [op] <-> op' ∈ ops) as E.
  { intros op' Ho. rewrite elem_of_app, list_elem_of_singleton. split; [intros [?| ->]; done|by left]. }
  destruct o as [e|]; simpl.
  - intros [Ho Hl]. split; [|revert Hl; apply least_ext; intros k; unfold asks; by rewrite E]. unfold origin in *. destruct (d !! x); [done|]. by apply E.
  - intros (Hn & Hi & Hk). split_and!; [done|..]; intros; by rewrite E.
Qed.

Lemma outcome_step d ops op d0 d1 x : (forall y, outcome d ops y (d0 !! y)) -> apply op d0 = Ok d1 -> outcome d (ops ++ [op]) x (d1 !! x).
Proof.
  intros H0 Ea. destruct (decide (on op = x)) as [<-|Hne].
  2:{ apply outcome_other; [done|]. enough (d1 !! x = d0 !! x) as -> by done. destruct op as [id p c|k t]; simpl in *.
      - destruct (d0 !! id); [by simplify_eq|]. destruct p as [q|]; [destruct (d0 !! q); [|done]|]; simplify_eq; by rewrite lookup_insert_ne.
      - destruct (d0 !! t); [|done]. simplify_eq. by rewrite lookup_insert_ne. }
  specialize (H0 (on op)). destruct op as [x p c|k x]; simpl on in *; simpl in Ea.
  - assert (forall k, asks d ops x k <-> asks d (ops ++ [Insert x p c]) x k) as Eask.
    { intros k. unfold asks. rewrite elem_of_app, list_elem_of_singleton. naive_solver. }
    destruct (d0 !! x) as [e|] eqn:E.
    + simplify_eq. rewrite E. destruct H0 as [Ho Hl]. split; [|by eapply least_ext]. unfold origin in *. destruct (d !! x); [done|]. apply elem_of_app. by left.
    + assert (d1 = <[x := {| parent := p; ch := c; deleted_by := None |}]> d0) as ->.
      { destruct p as [q|]; [destruct (d0 !! q); [|done]|]; by simplify_eq. }
      rewrite lookup_insert_eq. destruct H0 as (Hn & Hi & Hk). split.
      * unfold origin. rewrite Hn. apply elem_of_app. right. by apply list_elem_of_singleton.
      * simpl. intros k. rewrite <- Eask. unfold asks. rewrite Hn. intros [(e & ? & _)|Hd]; [done|]. by apply (Hk k).
  - destruct (d0 !! x) as [e|] eqn:E; [|done]. injection Ea as <-. rewrite lookup_insert_eq. destruct H0 as [Ho Hl]. split.
    + simpl. unfold origin in *. destruct (d !! x); [done|]. apply elem_of_app. by left.
    + simpl. assert (forall k', asks d (ops ++ [Delete k x]) x k' <-> asks d ops x k' \/ k' = k) as Eask.
      { intros k'. unfold asks. rewrite elem_of_app, list_elem_of_singleton. naive_solver. }
      destruct (deleted_by e) as [k0|]; simpl in Hl; [|simpl; setoid_rewrite Eask; split; [by right|intros k' [?%Hl| ->]; done]].
      destruct Hl as [Hk0 Hmin]. destruct (decide (key_le k0 k)) as [Hle|Hgt]; simpl; setoid_rewrite Eask.
      * split; [by left|]. intros k' [?| ->]; auto.
      * split; [by right|]. intros k' [Hk'%Hmin| ->]; [|done]. apply key_not_le in Hgt. apply key_lt_le. by eapply key_lt_le_trans.
Qed.

(** Whatever the order, the operations make the same of each character. *)
Lemma apply_all_outcome d ops d' x : apply_all ops d = Ok d' -> outcome d ops x (d' !! x).
Proof.
  revert d' x. induction ops as [|op ops IH] using rev_ind; intros d' x Ea.
  - injection Ea as <-. apply outcome_nil.
  - rewrite apply_all_app in Ea. destruct (apply_all ops d) as [d0|] eqn:E0; [|done]. simpl in Ea. destruct (apply op d0) as [d1|] eqn:E1; [|done]. injection Ea as <-.
    eapply outcome_step; [|done]. intros y. by apply IH.
Qed.
(** ** Causal operations *)

(** [x] is there before the operation [id]: in the document, or inserted by an
    operation with a smaller id. *)
Definition known (d : CrdtText) (ops : list TextOp) (x id : OpId) : Prop := is_Some (d !! x) \/ exists p c, Insert x p c ∈ ops /\ key_lt x id.

Definition caused (d : CrdtText) (ops : list TextOp) (op : TextOp) : Prop :=
  match op with Insert id None _ => True | Insert id (Some p) _ => known d ops p id | Delete id target => known d ops target id end.

Definition causal (d : CrdtText) (ops : list TextOp) : Prop := forall op, op ∈ ops -> caused d ops op.

#[global] Instance op_le_trans : Transitive op_le.
Proof. intros a b c H1 H2. unfold op_le in *. by etrans. Qed.
#[global] Instance op_le_total : Total op_le.
Proof. intros a b. apply (total key_le). Qed.

Lemma known_applied d pre op suf d0 x : StronglySorted op_le (pre ++ op :: suf) -> apply_all pre d = Ok d0 -> known d (pre ++ op :: suf) x (op_id op) ->
  is_Some (d0 !! x).
Proof.
  intros Hs Ea Hk. pose proof (apply_all_outcome d pre d0 x Ea) as Ho. destruct (d0 !! x) as [e|] eqn:E; [by eexists|exfalso]. destruct Ho as (Hn & Hi & _).
  destruct Hk as [[e He]|(p & c & Hin & Hlt)]; [congruence|]. apply elem_of_app in Hin as [Hin|Hin]; [by apply (Hi p c)|].
  assert (op_le op (Insert x p c)) as Hle.
  { apply elem_of_cons in Hin as [<-|Hin]; [unfold op_le; done|]. apply StronglySorted_app_1_r in Hs. inversion Hs as [|? ? _ Hf]; subst. rewrite Forall_forall in Hf. by apply Hf. }
  unfold op_le in Hle. simpl in Hle. apply (key_lt_irrefl x). by eapply key_lt_le_trans.
Qed.

Lemma causal_applies d ops : causal d ops -> exists d', apply_ops ops d = Ok d'.
Proof.
  intros Hc. unfold apply_ops. set (l := merge_sort op_le ops). assert (StronglySorted op_le l) as Hs by (apply StronglySorted_merge_sort; apply _).
  assert (forall op, op ∈ ops <-> op ∈ l) as El by (intros op; unfold l; by rewrite merge_sort_Permutation).
  assert (causal d l) as Hl.
  { intros op Hop%El%Hc. destruct op as [id [q|] c|id t]; simpl in *; try done; destruct Hop as [?|(p' & c' & ?%El & ?)]; [by left|right; eauto|by left|right; eauto]. }
  clearbody l. clear El. assert (forall pre suf, l = pre ++ suf -> exists d', apply_all pre d = Ok d') as H; [|by apply (H l []); rewrite app_nil_r].
  induction pre as [|op pre IH] using rev_ind; intros suf E; [by exists d|]. rewrite <- app_assoc in E. simpl in E. destruct (IH _ E) as [d0 E0].
  rewrite apply_all_app, E0. simpl. assert (caused d l op) as Hop by (apply Hl; rewrite E, elem_of_app; right; by left). subst l.
  enough (exists d1, apply op d0 = Ok d1) as [d1 ->] by (by exists d1). destruct op as [id p c|id t]; simpl.
  - destruct (d0 !! id); [eauto|]. destruct p as [q|]; [|eauto]. destruct (known_applied _ _ _ _ _ q Hs E0 Hop) as [e ->]. eauto.
  - destruct (known_applied _ _ _ _ _ t Hs E0 Hop) as [e ->]. eauto.
Qed.

Lemma apply_ops_outcome d ops d' x : apply_ops ops d = Ok d' -> outcome d ops x (d' !! x).
Proof. intros H%(fun H => apply_all_outcome _ _ _ x H). revert H. apply outcome_same. intros op. by rewrite merge_sort_Permutation. Qed.

(** The operations decide the document. *)
Lemma same_ops_same_doc d ops ops' d' r : coherent ops -> (forall op, op ∈ ops <-> op ∈ ops') -> apply_ops ops d = Ok d' -> apply_all ops' d = Ok r -> r = d'.
Proof.
  intros Hc E E1 E2. apply map_eq. intros x. apply (outcome_det d ops x); [done| |by apply apply_ops_outcome].
  eapply outcome_same; [|by apply (apply_all_outcome d ops')]. intros op. by rewrite E.
Qed.

Lemma apply_rooted op d d' : rooted d -> apply op d = Ok d' -> rooted d'.
Proof.
  intros Hd Ea. destruct op as [id p c|k t]; simpl in Ea.
  - destruct (d !! id) eqn:E; [by simplify_eq|]. assert (forall q, p = Some q -> is_Some (d !! q)) as Hp.
    { intros q ->. by destruct (d !! q); [|done]. }
    assert (d' = <[id := {| parent := p; ch := c; deleted_by := None |}]> d) as ->; [|by apply rooted_inserted].
    destruct p as [q|]; [destruct (Hp q eq_refl) as [e E']; rewrite E' in Ea|]; by injection Ea as <-.
  - destruct (d !! t) as [e|] eqn:E; [|done]. injection Ea as <-. set (e' := {| parent := parent e; ch := _; deleted_by := _ |}).
    assert (parent <$> <[t := e']> d = parent <$> d) as Ep by (rewrite fmap_insert; apply insert_id; by rewrite lookup_fmap, E).
    intros y [ey Hy]. apply (reach_same d _ y Ep), Hd. destruct (decide (t = y)) as [->|Hne]; [by exists e|]. rewrite lookup_insert_ne in Hy by done. by exists ey.
Qed.

Lemma apply_all_rooted ops : forall d d', rooted d -> apply_all ops d = Ok d' -> rooted d'.
Proof.
  induction ops as [|op ops IH]; intros d d' Hd Ea; [by simplify_eq/=|]. simpl in Ea. destruct (apply op d) as [d1|] eqn:E; [|done]. eapply IH; [|done]. by eapply apply_rooted.
Qed.
(** ** Deltas *)

Definition seen_in (vv : gmap Z Z) (id : OpId) : Prop := unseen vv id = false.

Lemma see_mono vv i j : seen_in vv i -> seen_in (see vv j) i.
Proof.
  unfold seen_in, unseen, see. rewrite !Z.ltb_ge. intros H. destruct (decide (i.2 = j.2)) as [E|E]; [|by rewrite lookup_insert_ne].
  rewrite E in *. rewrite lookup_insert_eq. simpl. lia.
Qed.

Lemma see_self vv i : seen_in (see vv i) i.
Proof. unfold seen_in, unseen, see. rewrite Z.ltb_ge, lookup_insert_eq. simpl. lia. Qed.

Lemma version_vector_seen d x e : d !! x = Some e -> seen_in (version_vector d) x /\ forall k, deleted_by e = Some k -> seen_in (version_vector d) k.
Proof.
  intros Hx%elem_of_btree_entries. unfold version_vector. set (f := fun vv p => _).
  assert (forall vv p i, seen_in vv i -> seen_in (f vv p) i) as Hm. { intros vv p i H. unfold f. destruct (deleted_by p.2); [apply see_mono|]; by apply see_mono. }
  assert (forall l vv i, seen_in vv i -> seen_in (fold_left f l vv) i) as Hf by (induction l; simpl; auto).
  revert Hx. generalize (∅ : gmap Z Z). induction (btree_entries d) as [|p l IH]; intros vv Hx; [by apply elem_of_nil in Hx|]. simpl.
  apply elem_of_cons in Hx as [<-|Hx]; [|by apply IH]. unfold f at 2 4. simpl. destruct (deleted_by e) as [k|].
  - split; [apply Hf, see_mono, see_self|]. intros k' [= <-]. apply Hf, see_self.
  - split; [apply Hf, see_self|done].
Qed.

Lemma ops_since_elem d older op : op ∈ ops_since d older <-> unseen (version_vector older) (op_id op) = true /\
  exists e, d !! on op = Some e /\ match op with Insert _ p c => parent e = p /\ ch e = c | Delete k _ => deleted_by e = Some k end.
Proof.
  unfold ops_since. rewrite merge_sort_Permutation, list_elem_of_In, in_flat_map. unfold ops_of_entry. set (vv := version_vector older). split.
  - intros ([x e] & He%list_elem_of_In%elem_of_btree_entries & Hop%list_elem_of_In). simpl in Hop. apply elem_of_app in Hop as [Hop|Hop].
    + destruct (unseen vv x) eqn:E; [|by apply elem_of_nil in Hop]. apply list_elem_of_singleton in Hop as ->. split; [done|]. exists e. done.
    + destruct (deleted_by e) as [k|] eqn:Ek; [|by apply elem_of_nil in Hop]. destruct (unseen vv k) eqn:E; [|by apply elem_of_nil in Hop].
      apply list_elem_of_singleton in Hop as ->. split; [done|]. exists e. done.
  - intros (Hu & e & He & Hop). exists (on op, e). split; [by apply list_elem_of_In, elem_of_btree_entries|]. apply list_elem_of_In. simpl. apply elem_of_app.
    destruct op as [x p c|k x]; simpl in *; [left; rewrite Hu; destruct Hop as [-> ->]|right; rewrite Hop, Hu]; by left.
Qed.

(** Lamport ids: an operation is newer than the character it names. *)
Definition lamport_op (op : TextOp) : Prop := match op with Insert id (Some p) _ => key_lt p id | Insert _ None _ => True | Delete id target => key_lt target id end.

Definition lamport (d : CrdtText) : Prop := forall x e, d !! x = Some e -> (forall p, parent e = Some p -> key_lt p x) /\ (forall k, deleted_by e = Some k -> key_lt x k).

(** An operation the older state has not heard of, or one that does nothing to it. *)
Definition news (older : CrdtText) (op : TextOp) : Prop := unseen (version_vector older) (op_id op) = true \/ apply op older = Ok older.

Section delta.
Context (older newer : CrdtText) (ops : list TextOp).
Context (Hr : rooted older) (Hlo : lamport older) (Hops : Forall lamport_op ops) (Hnews : Forall (news older) ops) (Ea : apply_all ops older = Ok newer).

Lemma newer_lamport : lamport newer.
Proof using Hlo Hops Ea.
  intros x e He. pose proof (apply_all_outcome older ops newer x Ea) as Ho. rewrite He in Ho. destruct Ho as [Ho Hl]. rewrite Forall_forall in Hops. split.
  - intros p Ep. unfold origin in Ho. destruct (older !! x) as [e0|] eqn:E0; [|apply Hops in Ho; by rewrite Ep in Ho].
    destruct (Hlo x e0 E0) as [Hp _]. apply Hp. by destruct Ho as [-> _].
  - intros k Ek. rewrite Ek in Hl. destruct Hl as [[(e0 & E0 & Ek0)|Hin] _]; [by apply (Hlo x e0 E0)|]. by apply Hops in Hin.
Qed.

Lemma new_inserted x e : newer !! x = Some e -> older !! x = None -> Insert x (parent e) (ch e) ∈ ops_since newer older.
Proof using Hnews Ea.
  intros He Hn. pose proof (apply_all_outcome older ops newer x Ea) as Ho. rewrite He in Ho. destruct Ho as [Ho _]. unfold origin in Ho. rewrite Hn in Ho.
  apply ops_since_elem. split; [|by exists e]. rewrite Forall_forall in Hnews. destruct (Hnews _ Ho) as [Hu|Hnop]; [done|exfalso]. simpl in Hnop. rewrite Hn in Hnop.
  assert (older !! x <> None) as []; [|done]. destruct (parent e) as [q|]; [destruct (older !! q); [|done]|]; injection Hnop as <-; by rewrite lookup_insert_eq.
Qed.

Lemma new_deleted x e k : newer !! x = Some e -> deleted_by e = Some k -> asks older (ops_since newer older) x k.
Proof using Hnews Ea.
  intros He Ek. pose proof (apply_all_outcome older ops newer x Ea) as Ho. rewrite He in Ho. destruct Ho as [_ Hl]. rewrite Ek in Hl. destruct Hl as [Hk Hmin].
  destruct Hk as [Hk|Hk]; [by left|]. rewrite Forall_forall in Hnews. destruct (Hnews _ Hk) as [Hu|Hnop].
  - right. apply ops_since_elem. split; [done|]. by exists e.
  - left. simpl in Hnop. destruct (older !! x) as [e0|] eqn:E0; [|done]. exists e0. split; [done|]. injection Hnop as Hnop. apply (f_equal (.!! x)) in Hnop.
    rewrite lookup_insert_eq, E0 in Hnop. injection Hnop as Hnop. rewrite <- Hnop. simpl. destruct (deleted_by e0) as [k0|] eqn:Ek0; [|done].
    destruct (decide (key_le k0 k)); [|done]. f_equal. apply (anti_symm key_le); [done|]. apply Hmin. left. by exists e0.
Qed.

Lemma delta_causal : causal older (ops_since newer older).
Proof using Hr Hlo Hops Hnews Ea.
  assert (forall x e id, newer !! x = Some e -> key_lt x id -> known older (ops_since newer older) x id) as Hk.
  { intros x e id He Hlt. destruct (older !! x) eqn:E; [left; by eexists|right]. exists (parent e), (ch e). split; [by apply new_inserted|done]. }
  intros op (_ & e & He & Hop)%ops_since_elem. destruct op as [x [q|] c|k x]; simpl in *; [|done|].
  - destruct Hop as [Ep _]. destruct (newer_lamport x e He) as [Hlt _]. assert (is_Some (newer !! q)) as [eq Hq].
    { eapply reach_parent; [|done..]. by eapply apply_all_rooted. }
    by eapply Hk, Hlt.
  - eapply Hk; [done|]. by apply (newer_lamport x e He).
Qed.

Lemma delta_outcome x : outcome older (ops_since newer older) x (newer !! x).
Proof using Hnews Ea.
  pose proof (apply_all_outcome older ops newer x Ea) as Ho. destruct (newer !! x) as [e|] eqn:E.
  - destruct Ho as [Ho Hl]. split.
    + unfold origin in *. destruct (older !! x) eqn:E0; [done|]. by apply new_inserted.
    + assert (forall k, asks older (ops_since newer older) x k -> asks older ops x k \/ deleted_by e = Some k) as Hsub.
      { intros k [Hk|(_ & e' & He' & Hk)%ops_since_elem]; [by left; left|right]. simpl in *. congruence. }
      destruct (deleted_by e) as [k|] eqn:Ek; simpl in *.
      * split; [by eapply new_deleted|]. intros k' [Hk'|[= <-]]%Hsub; [by apply Hl|done].
      * intros k [Hk|?]%Hsub; [by apply (Hl k)|done].
  - destruct Ho as (Hn & _ & _). split; [done|]. split; [intros p c|intros k]; intros (_ & e & He & _)%ops_since_elem; simpl in He; congruence.
Qed.

Lemma delta_applies : apply_ops (ops_since newer older) older = Ok newer.
Proof using Hr Hlo Hops Hnews Ea.
  destruct (causal_applies older _ delta_causal) as [r Er]. rewrite Er. f_equal. apply map_eq. intros x.
  apply (outcome_det older (ops_since newer older) x); [|by apply apply_ops_outcome|apply delta_outcome].
  intros y p c p' c' (_ & e & He & Ep & Ec)%ops_since_elem (_ & e' & He' & Ep' & Ec')%ops_since_elem. simpl in *. naive_solver congruence.
Qed.
End delta.
End Crdt.
