(* ===== verification/CrdtProps.v ===== *)
(** What collaborative text promises its editors and subscribers: local edits
    change the text at their position, replicas converge, and a patch brings a
    subscriber up to date; with the case in which it does not. *)

From stdpp Require Import base list gmap sorting countable.
From Stdlib Require Import ZArith Lia.
From S2P Require Import Prelude Crdt.
Import Crdt.

#[global] Instance TextOp_eq_dec : EqDecision TextOp.
Proof. solve_decision. Defined.

#[global] Program Instance TextOp_countable : Countable TextOp :=
  inj_countable' (fun op => match op with Insert id p c => inl (id, p, c) | Delete id t => inr (id, t) end)
    (fun s => match s with inl (id, p, c) => Insert id p c | inr (id, t) => Delete id t end) _.
Next Obligation. by intros []. Qed.

(** Every live character of a rooted document is shown, once. *)
Lemma visible_live d : rooted d -> exists ids, visible_ids d = Some ids /\ NoDup ids /\
  forall x, x ∈ ids <-> exists e, d !! x = Some e /\ live e = true.
Proof.
  intros Hd. destruct (visible_shown d) as (out & Hw & Hnd & Ev). exists (shown d out). split; [done|]. split; [by apply shown_NoDup|].
  intros x. rewrite shown_elem. split; [by intros [_ H]|]. intros (e & He & Hl). split; [|eauto]. apply (walks_reach d); [done|]. apply Hd. by exists e.
Qed.

(** The letters a, b, c, d typed by actor 3. *)
Definition typed : list TextOp := [Insert (1, 3) None 97; Insert (2, 3) (Some (1, 3)) 98; Insert (3, 3) (Some (2, 3)) 99; Insert (4, 3) (Some (3, 3)) 100].

Definition abcd : CrdtText := match apply_all typed new with Ok d => d | Err _ => new end.

Lemma abcd_typed : apply_all typed new = Ok abcd.
Proof. reflexivity. Qed.

Lemma new_rooted : rooted new.
Proof. intros x [e He]. unfold new in He. by rewrite lookup_empty in He. Qed.

Lemma abcd_rooted : rooted abcd.
Proof. eapply apply_all_rooted; [apply new_rooted|apply abcd_typed]. Qed.

(** local edits. On a document whose characters all hang off its start,
    [local_insert] and [local_delete] refuse exactly the positions beyond the
    text; otherwise they succeed, the new text is the old one with the
    characters inserted at, or removed from, the position, and the operations
    they return do the same to a copy of the old document. *)
Theorem local_edits d t actor : rooted d -> text d = Some t ->
  (forall pos cs, top_seq d + Z.of_nat (length cs) + 2 < 2 ^ 64 ->
    if decide (length t < pos)%nat then local_insert pos cs actor d = Some (Err BadPosition)
    else exists ops d', local_insert pos cs actor d = Some (Ok (ops, d')) /\ apply_all ops d = Ok d' /\ rooted d' /\
      text d' = Some (firstn pos t ++ cs ++ skipn pos t)) /\
  (forall pos len,
    if decide (length t < pos + len)%nat then local_delete pos len actor d = Some (Err BadRange)
    else exists ops d', local_delete pos len actor d = Some (Ok (ops, d')) /\ apply_all ops d = Ok d' /\ rooted d' /\
      text d' = Some (firstn pos t ++ skipn (pos + len) t)).
Proof.
  intros Hd Et. destruct (visible_live d Hd) as (ids & Ev & _ & _). pose proof (text_visible d ids Ev) as Et'. rewrite Et in Et'. injection Et' as E.
  assert (length t = length ids) as El by (by rewrite E, length_map). split.
  - intros pos cs Hb. destruct (decide _) as [Hlt|Hge]; [|by apply local_insert_ok; [..|lia]]. unfold local_insert. rewrite Ev. simpl. by rewrite decide_True by lia.
  - intros pos len. destruct (decide _) as [Hlt|Hge]; [|by apply local_delete_ok; [..|lia]]. unfold local_delete. rewrite Ev. simpl. by rewrite decide_True by lia.
Qed.

Lemma local_edits_witness : exists ops d', local_insert 2 [120; 121] 9 abcd = Some (Ok (ops, d')) /\ text d' = Some [97; 98; 120; 121; 99; 100].
Proof.
  destruct (local_edits abcd [97; 98; 99; 100] 9 abcd_rooted eq_refl) as [Hi _]. specialize (Hi 2%nat [120; 121] eq_refl). simpl in Hi.
  destruct Hi as (ops & d' & E & _ & _ & Et). by exists ops, d'.
Defined.

(** C32: convergence. Operations that give one character to one id, each naming
    only characters of the document or of operations with smaller ids, apply in
    [apply_ops]; every other order and repetition of them that applies ends in
    the same document, whose walk ends and shows each live character once. *)
Theorem crdt_converges d ops : rooted d -> coherent ops -> causal d ops ->
  exists d', apply_ops ops d = Ok d' /\
    (forall ops' r, (forall op, op ∈ ops <-> op ∈ ops') -> apply_all ops' d = Ok r -> r = d') /\
    exists ids, visible_ids d' = Some ids /\ text d' = Some (map (char_at d') ids) /\ NoDup ids /\
      forall x, x ∈ ids <-> exists e, d' !! x = Some e /\ live e = true.
Proof.
  intros Hd Hc Hca. destruct (causal_applies d ops Hca) as [d' E]. exists d'. split; [done|]. split; [intros ops' r Hops Er; by eapply same_ops_same_doc|].
  destruct (visible_live d') as (ids & Ev & Hnd & Hin); [by eapply apply_all_rooted|]. exists ids. split_and!; try done. by apply text_visible.
Qed.

(** Two editors type after the same letter, and both delete the first. *)
Definition racing : list TextOp := [Insert (5, 1) (Some (2, 3)) 120; Delete (6, 1) (1, 3); Insert (5, 2) (Some (2, 3)) 121; Delete (6, 2) (1, 3)].

Lemma racing_causal : causal abcd racing.
Proof.
  intros op Hop. repeat (apply elem_of_cons in Hop as [-> |Hop]); [..|by apply elem_of_nil in Hop]; left; by eexists.
Qed.

Lemma racing_coherent : coherent racing.
Proof. intros x p c p' c' H1 H2. unfold racing in *. set_solver. Qed.

Lemma crdt_converges_witness : exists d', apply_ops racing abcd = Ok d' /\ apply_all (rev racing ++ racing) abcd = Ok d' /\ text d' = Some [98; 121; 120; 99; 100].
Proof.
  destruct (crdt_converges abcd racing abcd_rooted racing_coherent racing_causal) as (d' & E & H & _). exists d'. split; [exact E|]. split.
  - destruct (apply_all (rev racing ++ racing) abcd) as [r|] eqn:Er; [|by vm_compute in Er]. f_equal. apply (H (rev racing ++ racing)); [|done].
    intros op. rewrite elem_of_app, !list_elem_of_In, <- in_rev. tauto.
  - assert ((apply_ops racing abcd ≫= fun d => Ok (text d)) = Ok (Some [98; 121; 120; 99; 100])) as Et by (vm_compute; reflexivity).
    rewrite E in Et. injection Et as Et. exact Et.
Defined.

Section patches.
Context (pack_ops : list TextOp -> list Z) (unpack_ops : list Z -> option (list TextOp)) (Hpack : forall ops, unpack_ops (pack_ops ops) = Some ops).

(** deltas. When a document with Lamport ids becomes another by operations
    its version vector has not seen, or that do nothing to it, the patch
    [ops_since] makes, sent as bytes and applied to the older document, gives
    exactly the newer one. *)
Theorem delta_catches_up older ops newer : rooted older -> lamport older -> Forall lamport_op ops -> Forall (news older) ops ->
  apply_all ops older = Ok newer -> apply_patch_bytes unpack_ops (encode_ops pack_ops (ops_since newer older)) older = Ok newer.
Proof using Hpack. intros. unfold apply_patch_bytes, encode_ops, decode_patch. simpl. rewrite Hpack. by eapply delta_applies. Qed.
End patches.

Lemma abcd_lamport : lamport abcd.
Proof.
  apply (newer_lamport new abcd typed); [|by repeat constructor|apply abcd_typed]. intros x e He. unfold new in He. by rewrite lookup_empty in He.
Qed.

Definition after_race : CrdtText := match apply_ops racing abcd with Ok d => d | Err _ => new end.

Lemma delta_catches_up_witness :
  apply_patch_bytes (fun b => match b with [Zpos n] => decode n | _ => None end) (encode_ops (fun ops => [Zpos (encode ops)]) (ops_since after_race abcd)) abcd = Ok after_race.
Proof.
  apply delta_catches_up with (ops := racing).
  - intros ops. apply decode_encode.
  - apply abcd_rooted.
  - apply abcd_lamport.
  - by repeat constructor.
  - repeat constructor; reflexivity.
  - reflexivity.
Defined.

(** Actor 1 deletes the first letter; actor 2, who had seen only that letter,
    deletes it too, with a smaller id; then actor 1 types at the start. *)
Definition subscriber : CrdtText := match local_delete 0 1 1 abcd with Some (Ok (_, d)) => d | _ => new end.
Definition stale_delete : TextOp := Delete (2, 2) (1, 3).
Definition writer : CrdtText :=
  match apply stale_delete subscriber with Ok d => match local_insert 0 [122] 1 d with Some (Ok (_, d)) => d | _ => new end | Err _ => new end.

(** C36: a lost insert. The delete with the smaller id displaces the other from
    the document, so [next_seq] gives its sequence out again; the subscriber's
    version vector already covers it, and the patch from its state to the
    writer's leaves the new character out. *)
Theorem delta_loses_insert : ops_since writer subscriber = [stale_delete] /\
  text writer = Some [122; 98; 99; 100] /\ (apply_ops (ops_since writer subscriber) subscriber ≫= fun d => Ok (text d)) = Ok (Some [98; 99; 100]).
Proof. split_and!; vm_compute; reflexivity. Qed.

(** Two operations with one id, as two identities with the same first eight
    bytes make them: the first to arrive wins. *)
Lemma same_id_diverges : (apply_all [Insert (1, 7) None 97; Insert (1, 7) None 98] new ≫= fun d => Ok (text d)) = Ok (Some [97]) /\
  (apply_all [Insert (1, 7) None 98; Insert (1, 7) None 97] new ≫= fun d => Ok (text d)) = Ok (Some [98]).
Proof. split; vm_compute; reflexivity. Qed.
