(* ===== verification/SqlText.v ===== *)
(** The SQL subset as text: the tokenizer ([sql/lexer.rs]), the parser
    ([sql/parse.rs]) and the canonical text that subscriptions are
    deduplicated by ([normalize] of [sql/mod.rs]).

    Query text is its UTF-8 bytes. The tokenizer works on a suffix of the text
    where the source keeps an index into it, the parser on the remaining tokens
    where the source keeps a position. A loop that is not structural has a fuel
    of the length of its input; [tokenize_total] and [parse_query_total] show
    that it never runs out. *)

From stdpp Require Import base list numbers strings.
From Stdlib Require Import ZArith Lia.
From S2P Require Import Prelude FluxBin Row IndexKey Ieee.

(** * Errors and characters *)

Inductive SqlError : Type :=
  | SqlUnsupported (detail : string)
  | SqlUnknownTable (name : list Z)
  | SqlUnknownColumn (name : list Z)
  | SqlTypeMismatch (column : list Z)
  | SqlNoSpatialIndex
  | SqlInternal
  | SqlFuel.

Definition bytes (s : string) : list Z := map (fun c => Z.of_N (Ascii.N_of_ascii c)) (String.list_ascii_of_string s).

Definition is_digit (b : Z) : bool := (48 <=? b) && (b <=? 57).
Definition is_upper (b : Z) : bool := (65 <=? b) && (b <=? 90).
Definition is_lower (b : Z) : bool := (97 <=? b) && (b <=? 122).
Definition is_alpha (b : Z) : bool := is_upper b || is_lower b.
Definition is_word_start (b : Z) : bool := is_alpha b || (b =? 95).
Definition is_word (b : Z) : bool := is_alpha b || is_digit b || (b =? 95).
Definition is_space (b : Z) : bool := (b =? 32) || (b =? 9) || (b =? 13) || (b =? 10).

Definition to_upper (b : Z) : Z := if is_lower b then b - 32 else b.

(** [eq_ignore_ascii_case]. *)
Definition eq_ic (w : list Z) (kw : string) : bool := bool_decide (map to_upper w = map to_upper (bytes kw)).

(** * Tokenizer *)

Module Token.
Inductive t : Type :=
  | Word (w : list Z)
  | Int (n : Z)
  | Float (bits : Z)
  | Str (s : list Z)
  | Star | LParen | RParen | Comma | Eq | Lt | Le | Gt | Ge.
End Token.

(** The bytes from the start that satisfy [p], and the rest. *)
Fixpoint span (p : Z -> bool) (bs : list Z) : list Z * list Z :=
  match bs with
  | [] => ([], [])
  | b :: r => if p b then let '(w, rest) := span p r in (b :: w, rest) else ([], bs)
  end.

Definition head_is (p : Z -> bool) (bs : list Z) : bool := match bs with b :: _ => p b | [] => false end.

Definition MAX_QUERY_BYTES : Z := 8 * 1024.

(** The text after the opening quote. A byte above [0x7F] is never a quote, so
    copying bytes copies the characters. *)
Fixpoint lex_string (bs : list Z) : result SqlError (list Z * list Z) :=
  match bs with
  | [] => Err (SqlUnsupported "unterminated string literal")
  | b :: rest =>
      if b =? 39 then
        match rest with
        | c :: rest' =>
            if c =? 39 then lex_string rest' ≫= fun '(v, r) => Ok (39 :: v, r)
            else Ok ([], rest)
        | [] => Ok ([], rest)
        end
      else lex_string rest ≫= fun '(v, r) => Ok (b :: v, r)
  end.

Definition digits_val (ds : list Z) : Z := fold_left (fun v b => 10 * v + (b - 48)) ds 0.

Definition lex_number (bs : list Z) : result SqlError (Token.t * list Z) :=
  let neg := head_is (Z.eqb 45) bs in
  let '(whole, rest) := span is_digit (if neg then tail bs else bs) in
  let glued rest := head_is is_word_start rest in
  match head_is (Z.eqb 46) rest with
  | true =>
      if negb (head_is is_digit (tail rest)) then Err (SqlUnsupported "malformed numeric literal")
      else
        let '(frac, rest) := span is_digit (tail rest) in
        if glued rest then Err (SqlUnsupported "malformed numeric literal")
        else
          let value := parse_f64 neg (digits_val (whole ++ frac)) (blen frac) in
          if negb (is_finite 64 value) then Err (SqlUnsupported "non-finite numeric literal")
          else Ok (Token.Float value, rest)
  | false =>
      if glued rest then Err (SqlUnsupported "malformed numeric literal")
      else
        let value := if neg then - digits_val whole else digits_val whole in
        if in_i 64 value then Ok (Token.Int value, rest) else Err (SqlUnsupported "integer literal out of range")
  end.

(** The token at the start of a non-empty text and the text after it; white
    space gives no token. *)
Definition lex_one (b : Z) (rest : list Z) : result SqlError (option Token.t * list Z) :=
  let one t := Ok (Some t, rest) in
  if is_space b then Ok (None, rest)
  else if b =? 42 then one Token.Star
  else if b =? 40 then one Token.LParen
  else if b =? 41 then one Token.RParen
  else if b =? 44 then one Token.Comma
  else if b =? 61 then one Token.Eq
  else if b =? 39 then lex_string rest ≫= fun '(v, r) => Ok (Some (Token.Str v), r)
  else if b =? 45 then
    if head_is (Z.eqb 45) rest then Err (SqlUnsupported "SQL comments are not allowed")
    else if head_is is_digit rest then lex_number (b :: rest) ≫= fun '(t, r) => Ok (Some t, r)
    else Err (SqlUnsupported "operator - outside a numeric literal")
  else if is_digit b then lex_number (b :: rest) ≫= fun '(t, r) => Ok (Some t, r)
  else if is_word_start b then let '(w, r) := span is_word (b :: rest) in Ok (Some (Token.Word w), r)
  else if b =? 59 then Err (SqlUnsupported "statement separator")
  else if (b =? 34) || (b =? 96) then Err (SqlUnsupported "quoted identifiers")
  else if (b =? 47) || (b =? 35) then Err (SqlUnsupported "SQL comments are not allowed")
  else if b =? 60 then
    if head_is (Z.eqb 61) rest then Ok (Some Token.Le, tail rest) else one Token.Lt
  else if b =? 62 then
    if head_is (Z.eqb 61) rest then Ok (Some Token.Ge, tail rest) else one Token.Gt
  else if b =? 33 then Err (SqlUnsupported "operator !=")
  else Err (SqlUnsupported "unexpected character").

Fixpoint lex (fuel : nat) (bs : list Z) : result SqlError (list Token.t) :=
  match bs, fuel with
  | [], _ => Ok []
  | _, O => Err SqlFuel
  | b :: rest, S fuel =>
      lex_one b rest ≫= fun '(t, rest) =>
      lex fuel rest ≫= fun ts =>
      Ok (match t with Some t => t :: ts | None => ts end)
  end.

Definition tokenize (sql : list Z) : result SqlError (list Token.t) :=
  if MAX_QUERY_BYTES <? blen sql then Err (SqlUnsupported "query text too long") else lex (length sql) sql.

(** * Syntax *)

Module Lit.
Inductive t : Type := Int (n : Z) | Float (bits : Z) | Str (s : list Z) | Bool (b : bool).
End Lit.

Inductive CmpOp : Type := OpLt | OpLe | OpGt | OpGe.

Module CondAst.
Inductive t : Type :=
  | Eq (column : list Z) (lit : Lit.t)
  | In (column : list Z) (lits : list Lit.t)
  | Between (column : list Z) (low high : Lit.t)
  | Cmp (column : list Z) (op : CmpOp) (lit : Lit.t)
  | Match (column : list Z) (query : list Z).
End CondAst.

Module SpatialAst.
Inductive t : Type := Region (x y w h : Z) | Radius (r x y : Z).
End SpatialAst.

Record QueryAst : Type := {
  q_table : list Z;
  q_conditions : list CondAst.t;
  q_spatial : option SpatialAst.t;
  q_order_by : option (list Z * bool);
  q_order_tiebreak : option (list Z * bool);
  q_limit : option Z;
  q_after : option (Lit.t * Lit.t);
  q_select_score : bool;
  q_as_of : option (bool * Z);
}.

(** * Parser *)

Definition REJECTED_KEYWORDS : list string :=
  ["JOIN"; "INNER"; "OUTER"; "LEFT"; "RIGHT"; "CROSS"; "GROUP"; "HAVING"; "COUNT"; "SUM"; "AVG"; "MIN"; "MAX";
   "INSERT"; "UPDATE"; "DELETE"; "DROP"; "ALTER"; "CREATE"; "WITH"; "UNION"; "OR"; "NOT"; "NULL"; "IS"; "LIKE"]%string.

Definition reject_keyword (w : list Z) : bool := existsb (eq_ic w) REJECTED_KEYWORDS.

Notation P := (SM (list Token.t) SqlError).

Definition unsupported {A} (detail : string) : P A := sm_fail (SqlUnsupported detail).

Definition next : P (option Token.t) := fun ts => (Ok (head ts), tail ts).

Definition peek_keyword (kw : string) : P bool := fun ts =>
  (Ok (match ts with Token.Word w :: _ => eq_ic w kw | _ => false end), ts).

(** [matches!(self.tokens.get(self.pos), Some(Token::Comma))]. *)
Definition peek_comma : P bool := fun ts => (Ok (match ts with Token.Comma :: _ => true | _ => false end), ts).

Definition skip : P unit := fun ts => (Ok tt, tail ts).

Definition expect_keyword (kw : string) : P unit :=
  next ≫= fun t =>
  match t with
  | Some (Token.Word w) =>
      if eq_ic w kw then mret tt
      else if reject_keyword w then unsupported "rejected keyword"
      else unsupported "expected keyword"
  | _ => unsupported "expected keyword"
  end.

Definition expect_ident : P (list Z) :=
  next ≫= fun t =>
  match t with
  | Some (Token.Word w) => if reject_keyword w then unsupported "rejected keyword" else mret w
  | _ => unsupported "expected identifier"
  end.

Definition expect_number : P Z :=
  next ≫= fun t =>
  match t with
  | Some (Token.Int n) => mret (float_of_Z 64 n)
  | Some (Token.Float x) => mret x
  | _ => unsupported "expected a number"
  end.

Definition expect_token (good : Token.t -> bool) (detail : string) : P unit :=
  next ≫= fun t => match t with Some t => if good t then mret tt else unsupported detail | None => unsupported detail end.

Definition is_star (t : Token.t) : bool := match t with Token.Star => true | _ => false end.
Definition is_lparen (t : Token.t) : bool := match t with Token.LParen => true | _ => false end.
Definition is_rparen (t : Token.t) : bool := match t with Token.RParen => true | _ => false end.
Definition is_comma (t : Token.t) : bool := match t with Token.Comma => true | _ => false end.

Definition parse_literal : P Lit.t :=
  next ≫= fun t =>
  match t with
  | Some (Token.Int n) => mret (Lit.Int n)
  | Some (Token.Float x) => mret (Lit.Float x)
  | Some (Token.Str s) => mret (Lit.Str s)
  | Some (Token.Word w) =>
      if eq_ic w "TRUE" then mret (Lit.Bool true)
      else if eq_ic w "FALSE" then mret (Lit.Bool false)
      else unsupported "expected a literal value"
  | Some Token.LParen => unsupported "parenthesized expressions"
  | _ => unsupported "expected a literal value"
  end.

(** The rest of a coordinate list after its first number. *)
Fixpoint parse_coordinates (n : nat) : P (list Z) :=
  match n with
  | O => mret []
  | S n =>
      expect_token is_comma "expected , between coordinates" ≫= fun _ =>
      expect_number ≫= fun x =>
      parse_coordinates n ≫= fun xs => mret (x :: xs)
  end.

Definition parse_number_tuple (n : nat) : P (list Z) :=
  expect_token is_lparen "expected ( opening a coordinate list" ≫= fun _ =>
  expect_number ≫= fun x =>
  parse_coordinates (n - 1) ≫= fun xs =>
  expect_token is_rparen "expected ) closing the coordinate list" ≫= fun _ => mret (x :: xs).

Fixpoint parse_in_rest (fuel : nat) : P (list Lit.t) :=
  match fuel with
  | O => sm_fail SqlFuel
  | S fuel =>
      next ≫= fun t =>
      match t with
      | Some Token.Comma => parse_literal ≫= fun v => parse_in_rest fuel ≫= fun vs => mret (v :: vs)
      | Some Token.RParen => mret []
      | _ => unsupported "expected , or ) in the IN list"
      end
  end.

Definition remaining : P nat := fun ts => (Ok (length ts), ts).

Definition parse_condition : P CondAst.t :=
  expect_ident ≫= fun column =>
  next ≫= fun t =>
  match t with
  | Some Token.Eq => parse_literal ≫= fun v => mret (CondAst.Eq column v)
  | Some (Token.Word w) =>
      if eq_ic w "IN" then
        expect_token is_lparen "IN takes a parenthesized value list" ≫= fun _ =>
        parse_literal ≫= fun v =>
        remaining ≫= fun n =>
        parse_in_rest (S n) ≫= fun vs => mret (CondAst.In column (v :: vs))
      else if eq_ic w "BETWEEN" then
        parse_literal ≫= fun low =>
        expect_keyword "AND" ≫= fun _ =>
        parse_literal ≫= fun high => mret (CondAst.Between column low high)
      else if eq_ic w "MATCH" then
        next ≫= fun t =>
        match t with
        | Some (Token.Str q) => mret (CondAst.Match column q)
        | _ => unsupported "MATCH takes a quoted query string"
        end
      else unsupported "expected an operator"
  | Some Token.Lt => parse_literal ≫= fun v => mret (CondAst.Cmp column OpLt v)
  | Some Token.Le => parse_literal ≫= fun v => mret (CondAst.Cmp column OpLe v)
  | Some Token.Gt => parse_literal ≫= fun v => mret (CondAst.Cmp column OpGt v)
  | Some Token.Ge => parse_literal ≫= fun v => mret (CondAst.Cmp column OpGe v)
  | _ => unsupported "expected an operator"
  end.

Fixpoint parse_conditions (fuel : nat) : P (list CondAst.t) :=
  match fuel with
  | O => sm_fail SqlFuel
  | S fuel =>
      parse_condition ≫= fun c =>
      peek_keyword "AND" ≫= fun more : bool =>
      if more then skip ≫= fun _ => parse_conditions fuel ≫= fun cs => mret (c :: cs) else mret [c]
  end.

Definition parse_where : P (list CondAst.t) :=
  peek_keyword "WHERE" ≫= fun has : bool =>
  if has then skip ≫= fun _ => remaining ≫= fun n => parse_conditions (S n) else mret [].

Definition parse_spatial : P (option SpatialAst.t) :=
  peek_keyword "IN" ≫= fun region : bool =>
  if region then
    skip ≫= fun _ =>
    expect_keyword "REGION" ≫= fun _ =>
    parse_number_tuple 4 ≫= fun c =>
    match c with [x; y; w; h] => mret (Some (SpatialAst.Region x y w h)) | _ => sm_fail SqlInternal end
  else
    peek_keyword "WITHIN" ≫= fun radius : bool =>
    if radius then
      skip ≫= fun _ =>
      expect_keyword "RADIUS" ≫= fun _ =>
      expect_number ≫= fun r =>
      expect_keyword "OF" ≫= fun _ =>
      parse_number_tuple 2 ≫= fun c =>
      match c with [x; y] => mret (Some (SpatialAst.Radius r x y)) | _ => sm_fail SqlInternal end
    else mret None.

Definition parse_order_term : P (list Z * bool) :=
  expect_ident ≫= fun column =>
  peek_keyword "ASC" ≫= fun asc : bool =>
  if asc then skip ≫= fun _ => mret (column, false)
  else
    peek_keyword "DESC" ≫= fun desc : bool =>
    if desc then skip ≫= fun _ => mret (column, true) else mret (column, false).

Definition parse_order : P (option (list Z * bool) * option (list Z * bool)) :=
  peek_keyword "ORDER" ≫= fun has : bool =>
  if has then
    skip ≫= fun _ =>
    expect_keyword "BY" ≫= fun _ =>
    parse_order_term ≫= fun term =>
    peek_comma ≫= fun more : bool =>
    if more then skip ≫= fun _ => parse_order_term ≫= fun tie => mret (Some term, Some tie)
    else mret (Some term, None)
  else mret (None, None).

Definition parse_limit : P (option Z) :=
  peek_keyword "LIMIT" ≫= fun has : bool =>
  if has then
    skip ≫= fun _ =>
    next ≫= fun t =>
    match t with
    | Some (Token.Int n) =>
        if 0 <=? n then if in_u 32 n then mret (Some n) else unsupported "LIMIT exceeds the u32 range"
        else unsupported "LIMIT takes a non-negative integer"
    | _ => unsupported "LIMIT takes a non-negative integer"
    end
  else mret None.

Definition parse_after (ordered : bool) : P (option (Lit.t * Lit.t)) :=
  peek_keyword "AFTER" ≫= fun has : bool =>
  if has then
    skip ≫= fun _ =>
    if negb ordered then unsupported "AFTER requires ORDER BY on an indexed column"
    else
      expect_token is_lparen "AFTER takes (order value, pk value)" ≫= fun _ =>
      parse_literal ≫= fun order_value =>
      expect_token is_comma "AFTER takes (order value, pk value)" ≫= fun _ =>
      parse_literal ≫= fun pk_value =>
      expect_token is_rparen "expected ) closing the AFTER cursor" ≫= fun _ =>
      mret (Some (order_value, pk_value))
  else
    peek_keyword "OFFSET" ≫= fun offset : bool =>
    if offset then unsupported "OFFSET" else mret None.

Definition parse_as_of : P (option (bool * Z)) :=
  peek_keyword "AS" ≫= fun has : bool =>
  if has then
    skip ≫= fun _ =>
    expect_keyword "OF" ≫= fun _ =>
    peek_keyword "TX" ≫= fun tx : bool =>
    (if tx then skip ≫= fun _ => mret false
     else
       peek_keyword "TIMESTAMP" ≫= fun ts : bool =>
       if ts then skip ≫= fun _ => mret true else unsupported "AS OF takes TX or TIMESTAMP") ≫= fun is_timestamp =>
    next ≫= fun t =>
    match t with
    | Some (Token.Int n) => if 0 <=? n then mret (Some (is_timestamp, n)) else unsupported "AS OF takes a non-negative integer"
    | _ => unsupported "AS OF takes a non-negative integer"
    end
  else mret None.

Definition parse_end : P unit := fun ts =>
  match ts with
  | [] => (Ok tt, ts)
  | Token.Word w :: _ =>
      (Err (SqlUnsupported (if reject_keyword w then "rejected keyword" else "unexpected trailing input")), ts)
  | _ => (Err (SqlUnsupported "unexpected trailing input"), ts)
  end.

Definition parse_select_score : P bool :=
  peek_comma ≫= fun comma : bool =>
  if comma then skip ≫= fun _ => expect_keyword "SCORE" ≫= fun _ => mret true else mret false.

Definition parse_query_m : P QueryAst :=
  expect_keyword "SELECT" ≫= fun _ =>
  expect_token is_star "write SELECT *" ≫= fun _ =>
  parse_select_score ≫= fun select_score =>
  expect_keyword "FROM" ≫= fun _ =>
  expect_ident ≫= fun table =>
  parse_where ≫= fun conditions =>
  parse_spatial ≫= fun spatial =>
  parse_order ≫= fun '(order_by, order_tiebreak) =>
  parse_limit ≫= fun limit =>
  parse_after (bool_decide (is_Some order_by)) ≫= fun after =>
  parse_as_of ≫= fun as_of =>
  parse_end ≫= fun _ =>
  mret {| q_table := table; q_conditions := conditions; q_spatial := spatial; q_order_by := order_by;
          q_order_tiebreak := order_tiebreak; q_limit := limit; q_after := after;
          q_select_score := select_score; q_as_of := as_of |}.

Definition parse_query (ts : list Token.t) : result SqlError QueryAst := (parse_query_m ts).1.

Definition parse_sql (sql : list Z) : result SqlError QueryAst := tokenize sql ≫= parse_query.

(** * Canonical text *)

(** [s.replace('\'', "''")] between quotes. *)
Definition show_str (s : list Z) : list Z :=
  39 :: flat_map (fun b => if b =? 39 then [39; 39] else [b]) s ++ [39].

Definition show_lit (l : Lit.t) : list Z :=
  match l with
  | Lit.Int n => show_Z n
  | Lit.Float x => show_f64 x
  | Lit.Str s => show_str s
  | Lit.Bool b => bytes (if b then "TRUE" else "FALSE")
  end.

Definition show_op (op : CmpOp) : list Z :=
  bytes (match op with OpLt => "<" | OpLe => "<=" | OpGt => ">" | OpGe => ">=" end).

(** The rest of a list after its first element, each with a separator. *)
Definition show_more {A} (show : A -> list Z) (l : list A) : list Z := flat_map (fun x => bytes ", " ++ show x) l.

Definition show_list {A} (show : A -> list Z) (l : list A) : list Z :=
  match l with [] => [] | x :: l => show x ++ show_more show l end.

Definition show_cond (c : CondAst.t) : list Z :=
  match c with
  | CondAst.Eq column lit => column ++ bytes " = " ++ show_lit lit
  | CondAst.In column lits => column ++ bytes " IN (" ++ show_list show_lit lits ++ bytes ")"
  | CondAst.Between column low high => column ++ bytes " BETWEEN " ++ show_lit low ++ bytes " AND " ++ show_lit high
  | CondAst.Cmp column op lit => column ++ bytes " " ++ show_op op ++ bytes " " ++ show_lit lit
  | CondAst.Match column query => column ++ bytes " MATCH " ++ show_str query
  end.

Definition show_conds (cs : list CondAst.t) : list Z :=
  match cs with
  | [] => []
  | c :: cs => bytes " WHERE " ++ show_cond c ++ flat_map (fun c => bytes " AND " ++ show_cond c) cs
  end.

Definition show_dir (desc : bool) : list Z := bytes (if desc then "DESC" else "ASC").

Definition show_spatial (s : option SpatialAst.t) : list Z :=
  match s with
  | Some (SpatialAst.Region x y w h) => bytes " IN REGION (" ++ show_list show_f64 [x; y; w; h] ++ bytes ")"
  | Some (SpatialAst.Radius r x y) =>
      bytes " WITHIN RADIUS " ++ show_f64 r ++ bytes " OF (" ++ show_list show_f64 [x; y] ++ bytes ")"
  | None => []
  end.

Definition show_order (order tie : option (list Z * bool)) : list Z :=
  match order with
  | Some (column, desc) =>
      bytes " ORDER BY " ++ column ++ bytes " " ++ show_dir desc ++
      (match tie with Some (t, d) => bytes ", " ++ t ++ bytes " " ++ show_dir d | None => [] end)
  | None => []
  end.

Definition show_after (after : option (Lit.t * Lit.t)) : list Z :=
  match after with Some (o, p) => bytes " AFTER (" ++ show_lit o ++ bytes ", " ++ show_lit p ++ bytes ")" | None => [] end.

Definition show_as_of (as_of : option (bool * Z)) : list Z :=
  match as_of with
  | Some (ts, n) => bytes " AS OF " ++ bytes (if ts then "TIMESTAMP" else "TX") ++ bytes " " ++ show_Z n
  | None => []
  end.

Definition normalize (ast : QueryAst) : list Z :=
  bytes "SELECT *" ++ (if q_select_score ast then bytes ", SCORE" else []) ++ bytes " FROM " ++ q_table ast ++
  show_conds (q_conditions ast) ++ show_spatial (q_spatial ast) ++ show_order (q_order_by ast) (q_order_tiebreak ast) ++
  (match q_limit ast with Some n => bytes " LIMIT " ++ show_Z n | None => [] end) ++
  show_after (q_after ast) ++ show_as_of (q_as_of ast).
