(* ===== verification/SqlTextProps.v ===== *)
(** The canonical text of a query determines the query.

    [lex_render]: a sequence of tokens printed with its separators is read back
    token by token. [parse_tokens]: the tokens of a query parse to the query.
    Together, for queries without float literals, [normalize] is injective
    ([normalize_injective]), which is what lets the subscription manager share one
    plan between queries with equal canonical text. *)

From stdpp Require Import base list numbers strings.
From Stdlib Require Import ZArith Lia.
From S2P Require Import Prelude FluxBin Row IndexKey Ieee SqlText.

Arguments bytes : simpl never.
Arguments eq_ic : simpl never.
Arguments show_Z : simpl never.
Arguments show_f64 : simpl never.
Arguments in_i : simpl never.
Arguments in_u : simpl never.

(** * The tokenizer consumes its input *)

Lemma span_length p bs : (length (span p bs).1 + length (span p bs).2)%nat = length bs.
Proof. induction bs as [|b r IH]; [done|]. simpl. destruct (p b); [|done]. destruct (span p r). simpl in *. lia. Qed.

Lemma lex_string_length bs v r : lex_string bs = Ok (v, r) -> (length r < length bs)%nat.
Proof.
  revert v r. induction bs as [bs IH] using (induction_ltof1 _ (@length Z)). unfold ltof in IH. destruct bs as [|b bs]; [done|].
  intros v r. simpl. destruct (b =? 39).
  - destruct bs as [|c bs]; [intros [= <- <-]; simpl; lia|]. destruct (c =? 39); [|intros [= <- <-]; simpl; lia].
    intros ([v' r'] & H & [= <- <-])%result_bind_Ok. apply IH in H; simpl in *; lia.
  - intros ([v' r'] & H & [= <- <-])%result_bind_Ok. apply IH in H; simpl in *; lia.
Qed.

Lemma lex_string_fuel bs : lex_string bs <> Err SqlFuel.
Proof.
  induction bs as [bs IH] using (induction_ltof1 _ (@length Z)). unfold ltof in IH. destruct bs as [|b bs]; [done|]. simpl.
  assert (forall c bs', (length bs' < S (length bs))%nat -> (lex_string bs' ≫= fun '(v, r) => Ok (c :: v, r)) <> Err SqlFuel) as Hs.
  { intros c bs' Hl. specialize (IH bs' Hl). destruct (lex_string bs') as [[]|e]; simpl; [done|]. congruence. }
  destruct (b =? 39); [|apply Hs; lia]. destruct bs as [|c bs]; [done|]. destruct (c =? 39); [|done]. apply Hs. simpl. lia.
Qed.

Lemma tail_length {A} (l : list A) : (length (tail l) <= length l)%nat.
Proof. destruct l; simpl; lia. Qed.

Lemma lex_number_length bs t r : lex_number bs = Ok (t, r) -> (length r <= length bs)%nat /\ (head_is is_digit (if head_is (Z.eqb 45) bs then tail bs else bs) = true -> (length r < length bs)%nat).
Proof.
  unfold lex_number. set (ds := if head_is (Z.eqb 45) bs then tail bs else bs).
  assert (length ds <= length bs)%nat as Hd by (unfold ds; destruct (head_is _ bs); [apply tail_length|lia]).
  pose proof (span_length is_digit ds) as Hs. destruct (span is_digit ds) as [whole rest] eqn:Es. simpl in Hs.
  assert (head_is is_digit ds = true -> (length rest < length ds)%nat) as Hh.
  { destruct ds as [|b ds']; [done|]. simpl in *. intros Hb. rewrite Hb in Es. destruct (span is_digit ds'). injection Es as <- <-. simpl in *. lia. }
  destruct (head_is (Z.eqb 46) rest).
  - destruct (negb _); [done|]. pose proof (span_length is_digit (tail rest)) as Hf. destruct (span is_digit (tail rest)) as [frac rest']. simpl in Hf.
    pose proof (tail_length rest). destruct (head_is _ rest'); [done|]. destruct (negb _); [done|]. intros [= <- <-]. split; [lia|]. intros Hx%Hh. lia.
  - destruct (head_is _ rest); [done|]. destruct (in_i _ _); [|done]. intros [= <- <-]. split; [lia|]. intros Hx%Hh. lia.
Qed.

Lemma lex_one_length b rest t r : lex_one b rest = Ok (t, r) -> (length r <= length rest)%nat.
Proof.
  unfold lex_one. intros H. pose proof (tail_length rest).
  repeat match type of H with
    | (if ?c then _ else _) = _ => destruct c eqn:?
    | context [span is_word (?b :: ?rest)] => simpl in H
    | Ok _ = Ok _ => injection H as <- <-
    | Err _ = _ => discriminate H
    | (_ ≫= _) = Ok _ => apply result_bind_Ok in H as ([? ?] & ? & H)
    end; try lia.
  - match goal with H : lex_string _ = _ |- _ => apply lex_string_length in H; lia end.
  - match goal with H : lex_number _ = _ |- _ => apply lex_number_length in H as [_ Hl]; simpl in Hl end.
    assert (45 = b) as <- by lia. simpl in Hl. match goal with H : head_is is_digit _ = true |- _ => apply Hl in H; lia end.
  - match goal with H : lex_number _ = _ |- _ => apply lex_number_length in H as [_ Hl]; cbn [head_is tail] in Hl end.
    replace (45 =? b) with false in Hl by lia. simpl in Hl. match goal with H : is_digit _ = true |- _ => apply Hl in H; lia end.
  - match goal with H : is_word_start _ = true |- _ => rename H into Hw end. replace (is_word b) with true in H.
    { pose proof (span_length is_word rest) as Hs. destruct (span is_word rest). simpl in Hs. injection H as <- <-. lia. }
    unfold is_word_start, is_word in *. symmetry. apply orb_true_iff in Hw as [-> | ->]; [done|by rewrite orb_true_r].
Qed.

Lemma lex_one_fuel b rest : lex_one b rest <> Err SqlFuel.
Proof.
  assert (lex_number (b :: rest) <> Err SqlFuel) as Hn.
  { unfold lex_number. destruct (span _ _). destruct (head_is _ _); [destruct (negb _); [done|]; destruct (span _ _); repeat case_match; done|repeat case_match; done]. }
  unfold lex_one. repeat case_match; try done.
  all: match goal with |- (?m ≫= _) <> _ => destruct m as [[]|e] eqn:E; simpl; [done|] end.
  all: intros [= ->]; first [by apply (lex_string_fuel rest)|by apply Hn].
Qed.

Lemma lex_enough n m bs : (length bs <= n)%nat -> (length bs <= m)%nat -> lex n bs = lex m bs.
Proof.
  revert m bs. induction n as [|n IH]; intros [|m] [|b bs]; simpl; try done; try lia. intros Hn Hm.
  destruct (lex_one b bs) as [[t r]|] eqn:E; [|done]. simpl. apply lex_one_length in E. by rewrite (IH m r) by lia.
Qed.

(** A text of any length is tokenized or refused: the fuel is enough. *)
Lemma tokenize_total sql : tokenize sql <> Err SqlFuel.
Proof.
  unfold tokenize. destruct (_ <? _); [done|]. assert (forall n bs, (length bs <= n)%nat -> lex n bs <> Err SqlFuel) as H; [|by apply H].
  induction n as [|n IH]; intros [|b bs] Hl; simpl in *; try done; try lia.
  pose proof (lex_one_fuel b bs). destruct (lex_one b bs) as [[t r]|] eqn:E; simpl; [|congruence].
  apply lex_one_length in E. specialize (IH r ltac:(lia)). destruct (lex n r); simpl; [done|congruence].
Qed.

(** * Reading printed tokens *)

Definition lexed (bs : list Z) : result SqlError (list Token.t) := lex (length bs) bs.

Lemma lexed_cons b rest : lexed (b :: rest) =
  lex_one b rest ≫= fun '(t, r) => lexed r ≫= fun ts => Ok (match t with Some t => t :: ts | None => ts end).
Proof.
  unfold lexed. simpl. destruct (lex_one b rest) as [[t r]|] eqn:E; [|done]. simpl. apply lex_one_length in E. by rewrite (lex_enough _ (length r) r) by lia.
Qed.

(** [Display] of a token. *)
Definition show_token (t : Token.t) : list Z :=
  match t with
  | Token.Word w => w
  | Token.Int n => show_Z n
  | Token.Float x => show_f64 x
  | Token.Str s => show_str s
  | Token.Star => [42] | Token.LParen => [40] | Token.RParen => [41] | Token.Comma => [44] | Token.Eq => [61]
  | Token.Lt => [60] | Token.Le => [60; 61] | Token.Gt => [62] | Token.Ge => [62; 61]
  end.

Definition word_ok (w : list Z) : bool := head_is is_word_start w && forallb is_word w.

(** A token that prints to text which reads back as the token. *)
Definition token_ok (t : Token.t) : bool :=
  match t with
  | Token.Word w => word_ok w
  | Token.Int n => in_i 64 n
  | Token.Float _ => false
  | _ => true
  end.

(** Text that cannot extend a token before it. *)
Definition stops (tail : list Z) : bool := match tail with [] => true | b :: _ => (b =? 32) || (b =? 41) || (b =? 44) end.

Lemma stops_not p tail : stops tail = true -> p 32 = false -> p 41 = false -> p 44 = false -> head_is p tail = false.
Proof.
  destruct tail as [|b tail]; [done|]. simpl. intros [[->%Z.eqb_eq| ->%Z.eqb_eq]%orb_true_iff| ->%Z.eqb_eq]%orb_true_iff; done.
Qed.

Lemma span_stop p w tail : forallb p w = true -> head_is p tail = false -> span p (w ++ tail) = (w, tail).
Proof.
  intros Hw Ht. induction w as [|b w IH]; simpl in *.
  - destruct tail as [|c tail]; [done|]. simpl in *. by rewrite Ht.
  - apply andb_true_iff in Hw as [-> Hw]. by rewrite IH.
Qed.

(** ** Decimal numbers *)

Lemma digits_upto_acc fuel z acc : digits_upto fuel z acc = digits_upto fuel z [] ++ acc.
Proof.
  revert z acc. induction fuel as [|fuel IH]; intros z acc; simpl; [done|]. destruct (z <? 10); [done|].
  rewrite IH, (IH _ [_]), <- app_assoc. done.
Qed.

Lemma digits_val_snoc l d : digits_val (l ++ [d]) = 10 * digits_val l + (d - 48).
Proof. unfold digits_val. by rewrite fold_left_app. Qed.

Lemma digits_upto_val fuel z : 0 <= z < 10 ^ Z.of_nat fuel -> (0 < fuel)%nat ->
  digits_val (digits_upto fuel z []) = z /\ forallb is_digit (digits_upto fuel z []) = true /\ digits_upto fuel z [] <> [].
Proof.
  revert z. induction fuel as [|fuel IH]; intros z Hz Hf; [lia|]. simpl. pose proof (Z.mod_pos_bound z 10). pose proof (Z.div_mod z 10).
  assert (is_digit (48 + z mod 10) = true) as Hd by (unfold is_digit; lia).
  destruct (Z.ltb_spec z 10) as [Hl|Hl].
  - rewrite Z.mod_small in * by lia. simpl. rewrite Hd. split_and!; [|done|done]. unfold digits_val. simpl. lia.
  - assert (0 < fuel)%nat by (destruct fuel; [change (10 ^ Z.of_nat 1) with 10 in Hz; lia|lia]).
    rewrite digits_upto_acc. destruct (IH (z / 10)) as (Hv & Hall & Hne); [|done|].
    { replace (Z.of_nat (S fuel)) with (Z.of_nat fuel + 1) in Hz by lia. rewrite Z.pow_add_r in Hz by lia. lia. }
    rewrite digits_val_snoc, forallb_app, Hv, Hall. simpl. rewrite Hd. split_and!; [lia|done|]. intros [? ?]%app_eq_nil. done.
Qed.

Lemma log2_pow10 z : 0 <= z -> z < 10 ^ Z.of_nat (S (Z.to_nat (Z.log2 z))).
Proof.
  intros Hz. pose proof (Z.log2_nonneg z). rewrite Nat2Z.inj_succ, Z2Nat.id by lia.
  destruct (Z.eq_dec z 0) as [->|]; [done|]. destruct (Z.log2_spec z ltac:(lia)) as [_ H2].
  eapply Z.lt_le_trans; [exact H2|]. apply Z.pow_le_mono_l. lia.
Qed.

Lemma head_digits ds : forallb is_digit ds = true -> ds <> [] -> head_is is_digit ds = true.
Proof. destruct ds as [|d ds]; [done|]. simpl. by intros [-> _]%andb_true_iff. Qed.

(** The text of an integer is an optional minus sign and digits that read back. *)
Lemma show_Z_digits n : exists ds, forallb is_digit ds = true /\ ds <> [] /\
  show_Z n = (if n <? 0 then 45 :: ds else ds) /\ digits_val ds = Z.abs n.
Proof.
  assert (forall z, 0 <= z -> let ds := digits_upto (S (Z.to_nat (Z.log2 z))) z [] in
    digits_val ds = z /\ forallb is_digit ds = true /\ ds <> []) as H by (intros z Hz; apply digits_upto_val; [split; [done|by apply log2_pow10]|lia]).
  unfold show_Z. destruct (Z.ltb_spec n 0).
  - destruct (H (- n)) as (Hv & Hd & Hne); [lia|]. eexists. split_and!; [exact Hd|done|done|]. rewrite Hv. lia.
  - destruct (H n) as (Hv & Hd & Hne); [lia|]. eexists. split_and!; [exact Hd|done|done|]. rewrite Hv. lia.
Qed.

Lemma lex_number_show n tail : in_i 64 n = true -> stops tail = true -> lex_number (show_Z n ++ tail) = Ok (Token.Int n, tail).
Proof.
  intros Hn Ht. destruct (show_Z_digits n) as (ds & Hd & Hne & -> & Hv). unfold lex_number.
  assert (head_is (Z.eqb 45) ((if n <? 0 then 45 :: ds else ds) ++ tail) = (n <? 0)) as ->.
  { destruct (n <? 0); [done|]. apply (head_digits ds Hd) in Hne. destruct ds as [|d ds]; [done|]. cbn [head_is app] in *. unfold is_digit in Hne. lia. }
  replace (if n <? 0 then _ else _) with (ds ++ tail) by (by destruct (n <? 0)).
  rewrite (span_stop is_digit ds tail Hd) by (by apply stops_not). cbn zeta iota.
  rewrite (stops_not (Z.eqb 46) tail Ht), (stops_not is_word_start tail Ht) by done. rewrite Hv.
  replace (if n <? 0 then - Z.abs n else Z.abs n) with n by (destruct (Z.ltb_spec n 0); lia). by rewrite Hn.
Qed.

(** ** Strings *)

Lemma lex_string_show s tail : head_is (Z.eqb 39) tail = false ->
  lex_string (flat_map (fun b => if b =? 39 then [39; 39] else [b]) s ++ 39 :: tail) = Ok (s, tail).
Proof.
  intros Ht. induction s as [|b s IH]; simpl.
  - destruct tail as [|c tail]; [done|]. cbn [head_is] in Ht. rewrite Z.eqb_sym in Ht. by rewrite Ht.
  - destruct (Z.eqb_spec b 39) as [->|Hb]; simpl.
    + by rewrite IH.
    + replace (b =? 39) with false by (symmetry; by apply Z.eqb_neq). by rewrite IH.
Qed.

(** ** Tokens *)

Lemma word_start_first b : is_word_start b = true -> is_space b = false /\ (b =? 42) = false /\ (b =? 40) = false /\ (b =? 41) = false /\
  (b =? 44) = false /\ (b =? 61) = false /\ (b =? 39) = false /\ (b =? 45) = false /\ is_digit b = false.
Proof. unfold is_word_start, is_alpha, is_upper, is_lower, is_space, is_digit. lia. Qed.

Lemma digit_first b : is_digit b = true -> is_space b = false /\ (b =? 42) = false /\ (b =? 40) = false /\ (b =? 41) = false /\
  (b =? 44) = false /\ (b =? 61) = false /\ (b =? 39) = false /\ (b =? 45) = false.
Proof. unfold is_space, is_digit. lia. Qed.

Lemma lex_word w tail : word_ok w = true -> head_is is_word tail = false -> lexed (w ++ tail) = lexed tail ≫= fun l => Ok (Token.Word w :: l).
Proof.
  intros [Hh Hw]%andb_true_iff Ht. destruct w as [|b w]; [done|]. simpl in Hh.
  destruct (word_start_first b Hh) as (E1 & E2 & E3 & E4 & E5 & E6 & E7 & E8 & E9).
  rewrite <- app_comm_cons, lexed_cons. unfold lex_one. rewrite E1, E2, E3, E4, E5, E6, E7, E8, E9, Hh, app_comm_cons.
  by rewrite (span_stop is_word (b :: w) tail Hw Ht).
Qed.

Lemma lex_int n tail : in_i 64 n = true -> stops tail = true -> lexed (show_Z n ++ tail) = lexed tail ≫= fun l => Ok (Token.Int n :: l).
Proof.
  intros Hn Ht. pose proof (lex_number_show n tail Hn Ht) as Hl. destruct (show_Z_digits n) as (ds & Hd & Hne & E & _). rewrite E in *.
  apply (head_digits ds Hd) in Hne. destruct ds as [|d ds]; [done|]. simpl in Hne. destruct (n <? 0).
  - rewrite <- !app_comm_cons in *. rewrite lexed_cons. unfold lex_one. cbn [head_is]. rewrite Hne, Hl.
    replace (45 =? d) with false by (unfold is_digit in Hne; lia). done.
  - rewrite <- !app_comm_cons in *. rewrite lexed_cons. unfold lex_one. destruct (digit_first d Hne) as (E1 & E2 & E3 & E4 & E5 & E6 & E7 & E8).
    rewrite E1, E2, E3, E4, E5, E6, E7, E8, Hne, Hl. done.
Qed.

Lemma lex_token t tail : token_ok t = true -> is_lparen t = true \/ stops tail = true ->
  lexed (show_token t ++ tail) = lexed tail ≫= fun l => Ok (t :: l).
Proof.
  intros Hok Hs. destruct t; try discriminate Hok; simpl in Hs; try (destruct Hs as [|Hs]; [done|]).
  - apply lex_word; [done|]. by apply stops_not.
  - by apply lex_int.
  - simpl. unfold show_str. rewrite <- app_assoc. simpl. rewrite lexed_cons. unfold lex_one. cbn [is_space Z.eqb Pos.eqb orb].
    rewrite lex_string_show by (by apply stops_not). done.
  - simpl. by rewrite lexed_cons.
  - simpl. by rewrite lexed_cons.
  - simpl. by rewrite lexed_cons.
  - simpl. by rewrite lexed_cons.
  - simpl. by rewrite lexed_cons.
  - simpl. rewrite lexed_cons. unfold lex_one. simpl. by rewrite (stops_not (Z.eqb 61) tail Hs).
  - simpl. by rewrite lexed_cons.
  - simpl. rewrite lexed_cons. unfold lex_one. simpl. by rewrite (stops_not (Z.eqb 61) tail Hs).
  - simpl. by rewrite lexed_cons.
Qed.

(** ** Token sequences

    A printed query is tokens and single spaces, a space being [None]. *)

Notation atom := (option Token.t).

Definition show_atom (a : atom) : list Z := match a with Some t => show_token t | None => [32] end.
Definition render (l : list atom) : list Z := flat_map show_atom l.

Definition starts (l : list atom) : bool :=
  match l with [] | None :: _ => true | Some b :: _ => is_rparen b || is_comma b end.

Fixpoint separated (l : list atom) : bool :=
  match l with
  | [] => true
  | None :: r => separated r
  | Some a :: r => token_ok a && (is_lparen a || starts r) && separated r
  end.

Lemma starts_stops l : starts l = true -> stops (render l) = true.
Proof. destruct l as [|[[]|] l]; done. Qed.

Lemma lex_render l : separated l = true -> lexed (render l) = Ok (omap id l).
Proof.
  induction l as [|[t|] l IH]; [done| |]; simpl.
  - intros [[Ht Hs]%andb_true_iff Hl]%andb_true_iff. rewrite lex_token; [by rewrite (IH Hl)|done|].
    apply orb_true_iff in Hs as [Hs|Hs]; [by left|right; by apply starts_stops].
  - intros Hl. rewrite lexed_cons. simpl. by rewrite (IH Hl).
Qed.

Lemma separated_app l k : separated l = true -> separated k = true -> starts k = true -> separated (l ++ k) = true.
Proof.
  intros Hl Hk Hs. induction l as [|[t|] l IH]; simpl in *; [done| |by apply IH].
  apply andb_true_iff in Hl as [[Ht Ha]%andb_true_iff Hl]. rewrite Ht, (IH Hl), andb_true_r. simpl.
  apply orb_true_iff. apply orb_true_iff in Ha as [Ha|Ha]; [by left|right]. destruct l as [|[]]; done.
Qed.

(** * The tokens of a query *)

Notation W s := (Some (Token.Word (bytes s))) (only parsing).

Definition lit_token (l : Lit.t) : Token.t :=
  match l with
  | Lit.Int n => Token.Int n
  | Lit.Float x => Token.Float x
  | Lit.Str s => Token.Str s
  | Lit.Bool b => Token.Word (bytes (if b then "TRUE" else "FALSE"))
  end.

Definition op_token (op : CmpOp) : Token.t :=
  match op with OpLt => Token.Lt | OpLe => Token.Le | OpGt => Token.Gt | OpGe => Token.Ge end.

Definition lits_atoms (ls : list Lit.t) : list atom := flat_map (fun l => [Some Token.Comma; None; Some (lit_token l)]) ls.

Definition cond_atoms (c : CondAst.t) : list atom :=
  match c with
  | CondAst.Eq column lit => [Some (Token.Word column); None; Some Token.Eq; None; Some (lit_token lit)]
  | CondAst.In column lits =>
      [Some (Token.Word column); None; W "IN"; None; Some Token.LParen] ++
      (match lits with [] => [] | l :: ls => Some (lit_token l) :: lits_atoms ls end) ++ [Some Token.RParen]
  | CondAst.Between column low high =>
      [Some (Token.Word column); None; W "BETWEEN"; None; Some (lit_token low); None; W "AND"; None; Some (lit_token high)]
  | CondAst.Cmp column op lit => [Some (Token.Word column); None; Some (op_token op); None; Some (lit_token lit)]
  | CondAst.Match column query => [Some (Token.Word column); None; W "MATCH"; None; Some (Token.Str query)]
  end.

Definition and_atoms (c : CondAst.t) : list atom := [None; W "AND"; None] ++ cond_atoms c.

Definition conds_atoms (cs : list CondAst.t) : list atom :=
  match cs with
  | [] => []
  | c :: cs => [None; W "WHERE"; None] ++ cond_atoms c ++ flat_map and_atoms cs
  end.

Definition dir_atom (desc : bool) : atom := Some (Token.Word (bytes (if desc then "DESC" else "ASC"))).

Definition order_atoms (order tie : option (list Z * bool)) : list atom :=
  match order with
  | Some (column, desc) =>
      [None; W "ORDER"; None; W "BY"; None; Some (Token.Word column); None; dir_atom desc] ++
      (match tie with Some (t, d) => [Some Token.Comma; None; Some (Token.Word t); None; dir_atom d] | None => [] end)
  | None => []
  end.

Definition limit_atoms (limit : option Z) : list atom :=
  match limit with Some n => [None; W "LIMIT"; None; Some (Token.Int n)] | None => [] end.

Definition after_atoms (after : option (Lit.t * Lit.t)) : list atom :=
  match after with
  | Some (o, p) => [None; W "AFTER"; None; Some Token.LParen; Some (lit_token o); Some Token.Comma; None; Some (lit_token p); Some Token.RParen]
  | None => []
  end.

Definition as_of_atoms (as_of : option (bool * Z)) : list atom :=
  match as_of with
  | Some (ts, n) => [None; W "AS"; None; W "OF"; None; Some (Token.Word (bytes (if ts then "TIMESTAMP" else "TX"))); None; Some (Token.Int n)]
  | None => []
  end.

Definition head_atoms (score : bool) (table : list Z) : list atom :=
  [W "SELECT"; None; Some Token.Star] ++ (if score then [Some Token.Comma; None; W "SCORE"] else []) ++
  [None; W "FROM"; None; Some (Token.Word table)].

Definition query_atoms (ast : QueryAst) : list atom :=
  head_atoms (q_select_score ast) (q_table ast) ++ conds_atoms (q_conditions ast) ++
  order_atoms (q_order_by ast) (q_order_tiebreak ast) ++ limit_atoms (q_limit ast) ++ after_atoms (q_after ast) ++ as_of_atoms (q_as_of ast).

(** ** A query prints to its tokens *)

Lemma render_app l k : render (l ++ k) = render l ++ render k.
Proof. apply flat_map_app. Qed.

Lemma show_lit_token l : show_lit l = show_token (lit_token l).
Proof. by destruct l. Qed.

Ltac printed := cbv [bytes]; simpl; rewrite ?app_nil_r, <- ?app_assoc; simpl; try done.

Lemma show_lits ls : show_more show_lit ls = render (lits_atoms ls).
Proof.
  induction ls as [|l ls IH]; [done|]. unfold show_more, lits_atoms in *. cbn [flat_map]. rewrite IH, show_lit_token, render_app. printed.
Qed.

Lemma show_cond_atoms c : show_cond c = render (cond_atoms c).
Proof.
  destruct c as [column l|column ls|column l h|column op l|column q]; simpl; rewrite ?show_lit_token.
  - printed.
  - destruct ls as [|l ls]; simpl; [printed|]. rewrite ?show_lits, ?show_lit_token, render_app. printed.
  - printed.
  - destruct op; printed.
  - printed.
Qed.

Lemma show_conds_atoms cs : show_conds cs = render (conds_atoms cs).
Proof.
  destruct cs as [|c cs]; [done|]. unfold show_conds, conds_atoms. rewrite !render_app, show_cond_atoms. f_equal. f_equal.
  induction cs as [|d cs IH]; [done|]. cbn [flat_map]. rewrite !render_app, IH, show_cond_atoms. done.
Qed.

Lemma normalize_render ast : q_spatial ast = None -> normalize ast = render (query_atoms ast).
Proof.
  intros Hs. unfold normalize, query_atoms. rewrite Hs, !render_app, show_conds_atoms. cbn [show_spatial]. rewrite app_nil_l.
  assert (show_order (q_order_by ast) (q_order_tiebreak ast) = render (order_atoms (q_order_by ast) (q_order_tiebreak ast))) as ->.
  { destruct (q_order_by ast) as [[c d]|], (q_order_tiebreak ast) as [[t e]|]; try done; simpl; try destruct d; try destruct e; printed. }
  assert (match q_limit ast with Some n => bytes " LIMIT " ++ show_Z n | None => [] end = render (limit_atoms (q_limit ast))) as ->.
  { destruct (q_limit ast); [|done]. printed. }
  assert (show_after (q_after ast) = render (after_atoms (q_after ast))) as ->.
  { destruct (q_after ast) as [[o p]|]; [|done]. simpl. rewrite !show_lit_token. printed. }
  assert (show_as_of (q_as_of ast) = render (as_of_atoms (q_as_of ast))) as ->.
  { destruct (q_as_of ast) as [[[] n]|]; [| |done]; printed. }
  destruct (q_select_score ast); printed.
Qed.

(** * Well-formed queries *)

Definition ident_ok (w : list Z) : bool := word_ok w && negb (reject_keyword w).

(** Literals without floats. *)
Definition lit_ok (l : Lit.t) : bool := match l with Lit.Int n => in_i 64 n | Lit.Float _ => false | _ => true end.

Definition cond_ok (c : CondAst.t) : bool :=
  match c with
  | CondAst.Eq column lit => ident_ok column && lit_ok lit
  | CondAst.In column lits => ident_ok column && negb (bool_decide (lits = [])) && forallb lit_ok lits
  | CondAst.Between column low high => ident_ok column && lit_ok low && lit_ok high
  | CondAst.Cmp column _ lit => ident_ok column && lit_ok lit
  | CondAst.Match column _ => ident_ok column
  end.

Definition opt_ok {A} (f : A -> bool) (o : option A) : bool := match o with Some a => f a | None => true end.

(** A query the parser produces, with neither float literals nor coordinates. *)
Definition query_ok (ast : QueryAst) : bool :=
  ident_ok (q_table ast) && forallb cond_ok (q_conditions ast) && bool_decide (q_spatial ast = None) &&
  opt_ok (fun o => ident_ok o.1) (q_order_by ast) && opt_ok (fun o => ident_ok o.1) (q_order_tiebreak ast) &&
  (bool_decide (is_Some (q_order_by ast)) || bool_decide (q_order_tiebreak ast = None) && bool_decide (q_after ast = None)) &&
  opt_ok (in_u 32) (q_limit ast) && opt_ok (fun a => lit_ok a.1 && lit_ok a.2) (q_after ast) &&
  opt_ok (fun a => (0 <=? a.2) && in_i 64 a.2) (q_as_of ast).

Ltac split_ok := repeat match goal with
  | H : _ && _ = true |- _ => apply andb_true_iff in H as [? ?]
  | H : bool_decide _ = true |- _ => apply bool_decide_eq_true in H
  | H : negb _ = true |- _ => apply negb_true_iff in H
  end.

(** Facts on keywords are computed. *)
Ltac keywords := repeat match goal with
  | |- context [word_ok (bytes ?s)] => change (word_ok (bytes s)) with true
  | |- context [eq_ic (bytes ?s) ?k] => let v := eval vm_compute in (eq_ic (bytes s) k) in change (eq_ic (bytes s) k) with v
  end.

Lemma lit_token_ok l : lit_ok l = true -> token_ok (lit_token l) = true.
Proof. by destruct l as [| | |[]]. Qed.

Lemma ident_word w : ident_ok w = true -> word_ok w = true.
Proof. by intros [? _]%andb_true_iff. Qed.

Lemma lit_starts l : is_rparen (lit_token l) || is_comma (lit_token l) = false.
Proof. by destruct l. Qed.

Lemma separated_lits ls k : forallb lit_ok ls = true -> separated k = true -> starts k = true -> separated (lits_atoms ls ++ k) = true /\ starts (lits_atoms ls ++ k) = true.
Proof.
  intros Hl Hk Hs. induction ls as [|l ls IH]; [done|]. simpl in *. split_ok. destruct IH as [IH1 IH2]; [done|]. split; [|done].
  by rewrite lit_token_ok, IH1, IH2, orb_true_r.
Qed.

Lemma separated_cond c : cond_ok c = true -> separated (cond_atoms c) = true.
Proof.
  destruct c as [w l|w ls|w l h|w op l|w q]; simpl; intros; split_ok; rewrite ?(ident_word w), ?lit_token_ok by done; keywords; simpl; rewrite ?orb_true_r; simpl; try done; try (match goal with op : CmpOp |- _ => by destruct op end).
  destruct ls as [|l ls]; [done|]. simpl in *. split_ok. rewrite lit_token_ok by done. simpl.
  destruct (separated_lits ls [Some Token.RParen]) as [-> ->]; [done..|]. by rewrite orb_true_r.
Qed.

Lemma cond_atoms_first c : exists w r, cond_atoms c = Some (Token.Word w) :: None :: r.
Proof. destruct c; by eexists _, _. Qed.

Lemma separated_spaced (kw : list atom) c k : separated kw = true -> starts kw = true -> cond_ok c = true -> separated k = true -> starts k = true ->
  separated (kw ++ [None] ++ cond_atoms c ++ k) = true /\ starts (kw ++ [None] ++ cond_atoms c ++ k) = true.
Proof.
  intros Hw Hs Hc Hk Hst. split; [|by destruct kw as [|[]]]. apply separated_app; [done| |done]. simpl. by apply separated_app; [apply separated_cond| |].
Qed.

Lemma separated_conds cs k : forallb cond_ok cs = true -> separated k = true -> starts k = true ->
  separated (conds_atoms cs ++ k) = true /\ starts (conds_atoms cs ++ k) = true.
Proof.
  intros Hc Hk Hs. destruct cs as [|c cs]; [done|]. simpl in Hc. split_ok. unfold conds_atoms.
  assert (separated (flat_map and_atoms cs ++ k) = true /\
          starts (flat_map and_atoms cs ++ k) = true) as [Hm1 Hm2].
  { induction cs as [|d cs IH]; [done|]. simpl in *. split_ok. destruct IH as [IH1 IH2]; [done|]. keywords. simpl. rewrite <- app_assoc.
    split; [|done]. by apply separated_app; [apply separated_cond| |]. }
  rewrite <- !app_assoc. by apply (separated_spaced [None; W "WHERE"]).
Qed.

Lemma separated_query ast : query_ok ast = true -> separated (query_atoms ast) = true.
Proof.
  unfold query_ok. intros. split_ok. destruct ast as [table conds spatial order tie limit after score as_of]; simpl in *.
  assert (separated (as_of_atoms as_of) = true /\ starts (as_of_atoms as_of) = true) as [Ha1 Ha2].
  { destruct as_of as [[b n]|]; simpl in *; split_ok; [|done]. match goal with H : in_i _ _ = true |- _ => rename H into Hn end. destruct b; keywords; simpl; by rewrite Hn. }
  assert (separated (after_atoms after ++ as_of_atoms as_of) = true /\ starts (after_atoms after ++ as_of_atoms as_of) = true) as [Hb1 Hb2].
  { destruct after as [[o p]|]; simpl in *; split_ok; [|done]. by rewrite !lit_token_ok, Ha1, Ha2, !orb_true_r. }
  assert (separated (limit_atoms limit ++ after_atoms after ++ as_of_atoms as_of) = true /\ starts (limit_atoms limit ++ after_atoms after ++ as_of_atoms as_of) = true) as [Hc1 Hc2].
  { destruct limit as [n|]; simpl in *; [|done]. rewrite Hb1, Hb2. keywords. simpl. rewrite !andb_true_r. split; [|done].
    match goal with H : in_u 32 n = true |- _ => apply in_u_spec in H end. apply in_i_spec. unfold u_ok, i_ok in *. lia. }
  assert (separated (order_atoms order tie ++ limit_atoms limit ++ after_atoms after ++ as_of_atoms as_of) = true /\
          starts (order_atoms order tie ++ limit_atoms limit ++ after_atoms after ++ as_of_atoms as_of) = true) as [Hd1 Hd2].
  { destruct order as [[c d]|]; simpl in *; [|done]. rewrite (ident_word c) by done. split; [|done].
    destruct tie as [[t e]|]; simpl in *; [rewrite (ident_word t) by done|]; destruct d; try destruct e; keywords; simpl; by rewrite Hc1, Hc2. }
  unfold query_atoms. simpl. destruct (separated_conds conds _ ltac:(done) Hd1 Hd2) as [He1 He2].
  unfold head_atoms. destruct score; simpl; rewrite (ident_word table), He1, He2 by done; done.
Qed.

(** * Tokens parse to the query *)

Notation toks := (omap id).

Definition peeks (kw : string) (ts : list Token.t) : bool := match ts with Token.Word w :: _ => eq_ic w kw | _ => false end.

(** The tokens start with one of the keywords, or there are none. *)
Definition heads (ks : list string) (ts : list Token.t) : Prop := ts = [] \/ exists k r, k ∈ ks /\ ts = Token.Word (bytes k) :: r.

Lemma heads_peeks ks ts kw : heads ks ts -> forallb (fun k => negb (eq_ic (bytes k) kw)) ks = true -> peeks kw ts = false.
Proof.
  intros [->|(k & r & Hk & ->)]; [done|]. rewrite forallb_forall. intros Hf. apply list_elem_of_In in Hk. apply Hf in Hk. simpl. by apply negb_true_iff.
Qed.

Lemma parse_literal_ok l rest : lit_ok l = true -> parse_literal (lit_token l :: rest) = (Ok l, rest).
Proof. by destruct l as [| | |[]]. Qed.

Lemma expect_ident_ok w rest : ident_ok w = true -> expect_ident (Token.Word w :: rest) = (Ok w, rest).
Proof. intros [_ Hw%negb_true_iff]%andb_true_iff. unfold expect_ident, next, mbind, sm_bind. simpl. by rewrite Hw. Qed.

Lemma parse_in_rest_ok ls rest : forall fuel, forallb lit_ok ls = true -> (length ls < fuel)%nat ->
  parse_in_rest fuel (toks (lits_atoms ls) ++ Token.RParen :: rest) = (Ok ls, rest).
Proof.
  induction ls as [|l ls IH]; intros [|fuel] Hl Hf; cbn [length forallb] in *; try lia; [done|]. split_ok.
  change (toks (lits_atoms (l :: ls)) ++ Token.RParen :: rest) with (Token.Comma :: lit_token l :: (toks (lits_atoms ls) ++ Token.RParen :: rest)).
  cbn [parse_in_rest]. unfold mbind, sm_bind, next at 1. cbn [head tail]. rewrite parse_literal_ok by done. rewrite IH by (done || lia). done.
Qed.

Lemma toks_lits_length ls : (length ls <= length (toks (lits_atoms ls)))%nat.
Proof.
  induction ls as [|l ls IH]; [done|]. change (length (toks (lits_atoms (l :: ls)))) with (S (S (length (toks (lits_atoms ls))))).
  cbn [length]. lia.
Qed.

#[local] Arguments lits_atoms : simpl never.
#[local] Arguments parse_in_rest : simpl never.

Lemma parse_condition_ok c rest : cond_ok c = true -> parse_condition (toks (cond_atoms c) ++ rest) = (Ok c, rest).
Proof.
  destruct c as [w l|w ls|w l h|w op l|w q]; simpl; intros; split_ok; unfold parse_condition, mbind, sm_bind; rewrite expect_ident_ok by done; simpl; keywords.
  - by rewrite parse_literal_ok.
  - destruct ls as [|l ls]; [done|]. simpl in *. split_ok. unfold sm_bind. simpl. rewrite parse_literal_ok by done. simpl.
    rewrite omap_app, <- app_assoc. simpl. rewrite length_app. pose proof (toks_lits_length ls). by rewrite parse_in_rest_ok by (done || lia).
  - unfold sm_bind. rewrite parse_literal_ok by done. unfold expect_keyword, mbind, sm_bind. simpl. keywords. simpl. by rewrite parse_literal_ok.
  - destruct op; simpl; unfold sm_bind; by rewrite parse_literal_ok.
  - done.
Qed.

Lemma run_bind {S E A B} (m : SM S E A) (f : A -> SM S E B) s a s' : m s = (Ok a, s') -> (m ≫= f) s = f a s'.
Proof. intros H. unfold mbind, sm_bind. by rewrite H. Qed.

Lemma keyword_ok kw rest : expect_keyword kw (Token.Word (bytes kw) :: rest) = (Ok tt, rest).
Proof. unfold expect_keyword. erewrite (run_bind _ _ _ (Some (Token.Word (bytes kw))) rest) by done. unfold eq_ic. by rewrite bool_decide_eq_true_2. Qed.

Lemma parse_conditions_ok c cs rest : forall fuel, forallb cond_ok (c :: cs) = true -> peeks "AND" rest = false -> (length cs < fuel)%nat ->
  parse_conditions fuel (toks (cond_atoms c) ++ toks (flat_map and_atoms cs) ++ rest) = (Ok (c :: cs), rest).
Proof.
  revert c. induction cs as [|d cs IH]; intros c [|fuel] Hc Hr Hf; cbn [length forallb] in *; try lia; split_ok; cbn [parse_conditions]; unfold mbind, sm_bind.
  - rewrite parse_condition_ok by done. unfold peek_keyword. fold (peeks "AND" rest). simpl. fold (peeks "AND" rest). by rewrite Hr.
  - rewrite parse_condition_ok by done.
    change (toks (flat_map and_atoms (d :: cs)))
      with (Token.Word (bytes "AND") :: toks (cond_atoms d ++ flat_map and_atoms cs)).
    rewrite omap_app. cbn [app]. rewrite <- app_assoc. unfold peek_keyword at 1, skip at 1. keywords. cbn [tail].
    rewrite IH; [done|simpl; by split_ok; rewrite ?andb_true_iff|done|lia].
Qed.

Lemma toks_conds_length cs : (length cs <= length (toks (flat_map and_atoms cs)))%nat.
Proof.
  induction cs as [|d cs IH]; [done|].
  change (length (toks (flat_map and_atoms (d :: cs))))
    with (S (length (toks (cond_atoms d ++ flat_map and_atoms cs)))).
  rewrite omap_app, length_app. cbn [length]. lia.
Qed.

Lemma parse_where_ok cs rest : forallb cond_ok cs = true -> peeks "WHERE" rest = false -> peeks "AND" rest = false ->
  parse_where (toks (conds_atoms cs) ++ rest) = (Ok cs, rest).
Proof.
  intros Hc Hw Ha. unfold parse_where, mbind, sm_bind. destruct cs as [|c cs].
  - unfold peek_keyword. cbn [conds_atoms omap list_omap app]. fold (peeks "WHERE" rest). by rewrite Hw.
  - change (toks (conds_atoms (c :: cs))) with (Token.Word (bytes "WHERE") :: toks (cond_atoms c ++ flat_map and_atoms cs)).
    unfold peek_keyword, skip, remaining. cbn [app]. keywords. cbn [tail]. rewrite omap_app, <- app_assoc.
    apply parse_conditions_ok; [done..|]. rewrite !length_app. pose proof (toks_conds_length cs). lia.
Qed.

Lemma parse_spatial_none rest : peeks "IN" rest = false -> peeks "WITHIN" rest = false -> parse_spatial rest = (Ok None, rest).
Proof.
  intros H1 H2. unfold parse_spatial, mbind, sm_bind, peek_keyword. fold (peeks "IN" rest). rewrite H1. fold (peeks "WITHIN" rest). by rewrite H2.
Qed.

Lemma parse_order_term_ok c (d : bool) rest : ident_ok c = true -> peeks "ASC" rest = false -> peeks "DESC" rest = false ->
  parse_order_term (Token.Word c :: Token.Word (bytes (if d then "DESC" else "ASC")) :: rest) = (Ok (c, d), rest).
Proof.
  intros Hc H1 H2. unfold parse_order_term, mbind, sm_bind. rewrite expect_ident_ok by done. unfold peek_keyword, skip.
  destruct d; keywords; done.
Qed.

Lemma parse_order_ok order tie rest : opt_ok (fun o => ident_ok o.1) order = true -> opt_ok (fun o => ident_ok o.1) tie = true ->
  (is_Some order \/ tie = None) -> heads ["LIMIT"; "AFTER"; "AS"] rest ->
  parse_order (toks (order_atoms order tie) ++ rest) = (Ok (order, tie), rest).
Proof.
  intros Ho Ht Hs Hr. assert (forall kw, forallb (fun k => negb (eq_ic (bytes k) kw)) ["LIMIT"; "AFTER"; "AS"] = true -> peeks kw rest = false) as Hp by eauto using heads_peeks.
  unfold parse_order. destruct order as [[c d]|].
  - change (toks (order_atoms (Some (c, d)) tie) ++ rest) with
      (Token.Word (bytes "ORDER") :: Token.Word (bytes "BY") :: Token.Word c :: Token.Word (bytes (if d then "DESC" else "ASC")) ::
        toks (match tie with Some (t, d) => [Some Token.Comma; None; Some (Token.Word t); None; dir_atom d] | None => [] end) ++ rest).
    erewrite (run_bind _ _ _ true) by done. erewrite (run_bind _ _ _ tt) by done. erewrite (run_bind _ _ _ tt) by apply keyword_ok. destruct tie as [[t e]|].
    + erewrite (run_bind _ _ _ (c, d)) by (by apply parse_order_term_ok). erewrite (run_bind _ _ _ true) by done. erewrite (run_bind _ _ _ tt) by done.
      erewrite (run_bind _ _ _ (t, e)); [done|]. apply parse_order_term_ok; [done|apply Hp; vm_compute; done|apply Hp; vm_compute; done].
    + erewrite (run_bind _ _ _ (c, d)) by (apply parse_order_term_ok; [done|apply Hp; vm_compute; done|apply Hp; vm_compute; done]).
      erewrite (run_bind _ _ _ false); [done|]. by destruct Hr as [->|(k & r & _ & ->)].
  - destruct Hs as [[? ?]| ->]; [done|]. erewrite (run_bind _ _ _ false); [done|]. unfold peek_keyword. cbn [order_atoms omap list_omap app]. fold (peeks "ORDER" rest).
    rewrite Hp by (vm_compute; done). done.
Qed.

Lemma parse_limit_ok limit rest : opt_ok (in_u 32) limit = true -> heads ["AFTER"; "AS"] rest ->
  parse_limit (toks (limit_atoms limit) ++ rest) = (Ok limit, rest).
Proof.
  intros Hl Hr. unfold parse_limit, mbind, sm_bind. destruct limit as [n|]; simpl in *.
  - unfold peek_keyword, skip, next. keywords. simpl. pose proof Hl as Hn%in_u_spec. destruct (Z.leb_spec 0 n); [by rewrite Hl|unfold u_ok in Hn; lia].
  - unfold peek_keyword. fold (peeks "LIMIT" rest). by rewrite (heads_peeks _ _ _ Hr) by (vm_compute; done).
Qed.

Lemma token_is (good : Token.t -> bool) detail t rest : good t = true -> expect_token good detail (t :: rest) = (Ok tt, rest).
Proof. intros H. unfold expect_token. erewrite (run_bind _ _ _ (Some t)) by done. by rewrite H. Qed.

Lemma peek_ok kw rest b : peeks kw rest = b -> peek_keyword kw rest = (Ok b, rest).
Proof. intros <-. done. Qed.

Lemma parse_after_ok ordered after rest : opt_ok (fun a => lit_ok a.1 && lit_ok a.2) after = true -> (after = None \/ ordered = true) -> heads ["AS"] rest ->
  parse_after ordered (toks (after_atoms after) ++ rest) = (Ok after, rest).
Proof.
  intros Ha Ho Hr. unfold parse_after. destruct after as [[o p]|].
  - destruct Ho as [|Ho]; [done|]. subst ordered. cbn [opt_ok fst snd] in Ha. split_ok.
    change (toks (after_atoms (Some (o, p))) ++ rest) with
      (Token.Word (bytes "AFTER") :: Token.LParen :: lit_token o :: Token.Comma :: lit_token p :: Token.RParen :: rest).
    erewrite (run_bind _ _ _ true) by done. erewrite (run_bind _ _ _ tt) by done. cbn [negb tail].
    erewrite (run_bind _ _ _ tt) by (by apply token_is). erewrite (run_bind _ _ _ o) by (by apply parse_literal_ok).
    erewrite (run_bind _ _ _ tt) by (by apply token_is). erewrite (run_bind _ _ _ p) by (by apply parse_literal_ok).
    erewrite (run_bind _ _ _ tt) by (by apply token_is). done.
  - change (toks (after_atoms None) ++ rest) with rest. erewrite (run_bind _ _ _ false) by (apply peek_ok, (heads_peeks _ _ _ Hr); vm_compute; done).
    erewrite (run_bind _ _ _ false) by (apply peek_ok, (heads_peeks _ _ _ Hr); vm_compute; done). done.
Qed.

Lemma parse_as_of_ok as_of : opt_ok (fun a => (0 <=? a.2) && in_i 64 a.2) as_of = true -> parse_as_of (toks (as_of_atoms as_of)) = (Ok as_of, []).
Proof.
  intros Ha. destruct as_of as [[b n]|]; [|done]. cbn [opt_ok snd] in Ha. split_ok. unfold parse_as_of.
  change (toks (as_of_atoms (Some (b, n)))) with [Token.Word (bytes "AS"); Token.Word (bytes "OF"); Token.Word (bytes (if b then "TIMESTAMP" else "TX")); Token.Int n].
  erewrite (run_bind _ _ _ true) by done. erewrite (run_bind _ _ _ tt) by done. cbn [tail]. erewrite (run_bind _ _ _ tt) by apply keyword_ok.
  destruct b; (erewrite (run_bind _ _ _ _) by done); (erewrite (run_bind _ _ _ _) by done); erewrite (run_bind _ _ _ (Some (Token.Int n))) by done; 
    match goal with H : (0 <=? n) = true |- _ => by rewrite H end.
Qed.

Lemma heads_mono k (ks : list string) ts : heads ks ts -> heads (k :: ks) ts.
Proof. intros [->|(j & r & Hk & ->)]; [by left|right]. exists j, r. split; [by right|done]. Qed.

Lemma heads_word k (ks : list string) r : heads (k :: ks) (Token.Word (bytes k) :: r).
Proof. right. exists k, r. split; [by left|done]. Qed.

(** The tokens of a well-formed query parse to the query. *)
Lemma parse_tokens ast : query_ok ast = true -> parse_query (toks (query_atoms ast)) = Ok ast.
Proof.
  unfold query_ok. intros. split_ok. destruct ast as [table conds spatial order tie limit after score as_of]. cbn [q_table q_conditions q_spatial q_order_by q_order_tiebreak q_limit q_after q_select_score q_as_of] in *. subst spatial.
  unfold query_atoms. cbn [q_table q_conditions q_spatial q_order_by q_order_tiebreak q_limit q_after q_select_score q_as_of]. rewrite !omap_app.
  set (R3 := toks (as_of_atoms as_of)). assert (heads ["AS"] R3) as HR3 by (destruct as_of as [[]|]; [apply heads_word|by left]).
  set (R2 := toks (after_atoms after) ++ R3). assert (heads ["AFTER"; "AS"] R2) as HR2 by (destruct after as [[]|]; [apply heads_word|by apply heads_mono]).
  set (R1 := toks (limit_atoms limit) ++ R2). assert (heads ["LIMIT"; "AFTER"; "AS"] R1) as HR1 by (destruct limit; [apply heads_word|by apply heads_mono]).
  set (R0 := toks (order_atoms order tie) ++ R1). assert (heads ["ORDER"; "LIMIT"; "AFTER"; "AS"] R0) as HR0 by (destruct order as [[]|]; [apply heads_word|by apply heads_mono]).
  assert (forall kw, forallb (fun k => negb (eq_ic (bytes k) kw)) ["ORDER"; "LIMIT"; "AFTER"; "AS"] = true -> peeks kw R0 = false) as Hp by eauto using heads_peeks.
  assert (toks (head_atoms score table) = Token.Word (bytes "SELECT") :: Token.Star :: (if score then [Token.Comma; Token.Word (bytes "SCORE")] else []) ++ [Token.Word (bytes "FROM"); Token.Word table]) as -> by (by destruct score).
  unfold parse_query, parse_query_m. cbn [app]. erewrite (run_bind _ _ _ tt) by apply keyword_ok. erewrite (run_bind _ _ _ tt) by (by apply token_is).
  erewrite (run_bind _ _ _ score (Token.Word (bytes "FROM") :: Token.Word table :: toks (conds_atoms conds) ++ R0)) by (by destruct score).
  erewrite (run_bind _ _ _ tt) by apply keyword_ok. erewrite (run_bind _ _ _ table) by (by apply expect_ident_ok).
  erewrite (run_bind _ _ _ conds) by (apply parse_where_ok; [done|apply Hp; vm_compute; done|apply Hp; vm_compute; done]).
  erewrite (run_bind _ _ _ None) by (apply parse_spatial_none; apply Hp; vm_compute; done).
  match goal with H : _ || _ = true |- _ => rename H into Hsh end.
  assert (is_Some order \/ tie = None /\ after = None) as Hsh'.
  { apply orb_true_iff in Hsh as [Hsh|Hsh]; split_ok; [by left|by right]. }
  erewrite (run_bind _ _ _ (order, tie)) by (apply parse_order_ok; [done..|naive_solver|done]).
  erewrite (run_bind _ _ _ limit) by (by apply parse_limit_ok).
  erewrite (run_bind _ _ _ after) by (apply parse_after_ok; [done| |done]; destruct Hsh' as [?|[_ ->]]; [right; by apply bool_decide_eq_true|by left]).
  erewrite (run_bind _ _ _ as_of) by (by apply parse_as_of_ok). done.
Qed.

(** * Deduplication *)

(** The canonical text of a well-formed query reads back as the query. *)
Lemma normalize_reads ast : query_ok ast = true -> (lexed (normalize ast) ≫= parse_query) = Ok ast.
Proof.
  intros H. pose proof H as Hs. unfold query_ok in Hs. split_ok. rewrite normalize_render by done.
  rewrite lex_render by (by apply separated_query). cbn [mbind result_bind]. by apply parse_tokens.
Qed.

(** ** What the parser produces *)

(** Tokens as the tokenizer makes them. *)
Definition token_wf (t : Token.t) : bool := match t with Token.Word w => word_ok w | Token.Int n => in_i 64 n | _ => true end.

Lemma span_all p bs : forallb p (span p bs).1 = true.
Proof. induction bs as [|b r IH]; [done|]. simpl. destruct (p b) eqn:E; [|done]. destruct (span p r). simpl in *. by rewrite E. Qed.

Lemma lex_number_wf bs t r : lex_number bs = Ok (t, r) -> token_wf t = true.
Proof.
  unfold lex_number. destruct (span _ _) as [whole rest]. destruct (head_is _ rest).
  - destruct (negb _); [done|]. destruct (span _ _). destruct (head_is _ _); [done|]. destruct (negb _); [done|]. by intros [= <- <-].
  - destruct (head_is _ rest); [done|]. destruct (in_i _ _) eqn:E; [|done]. by intros [= <- <-].
Qed.

Lemma lex_one_wf b rest t r : lex_one b rest = Ok (Some t, r) -> token_wf t = true.
Proof.
  unfold lex_one. intros H.
  repeat match type of H with
    | (if ?c then _ else _) = _ => destruct c eqn:?
    | Ok _ = Ok _ => injection H as H; subst
    | Err _ = _ => discriminate H
    | (_ ≫= _) = Ok _ => apply result_bind_Ok in H as ([? ?] & ? & H)
    end; try done.
  - by eapply lex_number_wf.
  - by eapply lex_number_wf.
  - match goal with H : is_word_start _ = true |- _ => rename H into Hs end.
    assert (is_word b = true) as Hw by (unfold is_word, is_word_start in *; apply orb_true_iff in Hs as [-> | ->]; [done|by rewrite orb_true_r]).
    cbn [span] in H. rewrite Hw in H. pose proof (span_all is_word rest) as Ha. destruct (span is_word rest) as [w r']. injection H as <- <-. simpl in *.
    unfold word_ok. simpl. by rewrite Hs, Hw.
Qed.

Lemma lex_wf n bs ts : lex n bs = Ok ts -> Forall (fun t => token_wf t = true) ts.
Proof.
  revert bs ts. induction n as [|n IH]; intros [|b bs] ts; simpl; try done; [intros [= <-]; constructor..|].
  intros ([t r] & H1 & (l & H2 & [= <-])%result_bind_Ok)%result_bind_Ok. apply IH in H2. destruct t as [t|]; [|done]. constructor; [|done]. by eapply lex_one_wf.
Qed.

(** Whatever well-formed tokens a parser reads, its result satisfies [Q]. *)
Definition yields {A} (m : P A) (Q : A -> Prop) : Prop := forall ts a ts',
  Forall (fun t => token_wf t = true) ts -> m ts = (Ok a, ts') -> Q a /\ Forall (fun t => token_wf t = true) ts'.

Lemma yields_bind {A B} (m : P A) (f : A -> P B) Q Q' : yields m Q -> (forall a, Q a -> yields (f a) Q') -> yields (m ≫= f) Q'.
Proof.
  intros Hm Hf ts b ts' Hts. unfold mbind, sm_bind. destruct (m ts) as [[a|] ts1] eqn:E; [|done]. intros Ef.
  destruct (Hm _ _ _ Hts E) as [Ha Ht]. by apply (Hf a Ha ts1 b ts').
Qed.

Lemma yields_ret {A} (a : A) (Q : A -> Prop) : Q a -> yields (mret a) Q.
Proof. by intros H ts b ts' Hts [= <- <-]. Qed.

Lemma yields_fail {A} e (Q : A -> Prop) : yields (sm_fail e) Q.
Proof. by intros ts b ts' Hts [=]. Qed.

Lemma yields_next : yields next (fun t => opt_ok token_wf t = true).
Proof. intros [|t ts] a ts' Hts [= <- <-]; [done|]. by inversion Hts. Qed.

Lemma yields_peek kw : yields (peek_keyword kw) (fun _ => True).
Proof. by intros ts b ts' Hts [= <- <-]. Qed.

Lemma yields_comma : yields peek_comma (fun _ => True).
Proof. by intros ts b ts' Hts [= <- <-]. Qed.

Lemma yields_remaining : yields remaining (fun _ => True).
Proof. by intros ts b ts' Hts [= <- <-]. Qed.

Lemma yields_skip : yields skip (fun _ => True).
Proof. intros [|t ts] a ts' Hts [= <- <-]; [done|]. by inversion Hts. Qed.

Create HintDb yields.
#[local] Hint Resolve yields_fail yields_next yields_peek yields_comma yields_remaining yields_skip : yields.

(** One step through a parser: bind, branch, or a known parser. *)
Ltac yield :=
  repeat match goal with
  | |- yields (_ ≫= _) _ => eapply yields_bind; [solve [eauto with yields]|simpl; intros ? ?]
  | |- yields (if ?b then _ else _) _ => destruct b eqn:?
  | |- yields (match ?t with _ => _ end) _ => destruct t
  | |- yields (unsupported _) _ => apply yields_fail
  | |- yields (sm_fail _) _ => apply yields_fail
  | |- yields (mret _) _ => apply yields_ret; simpl
  end.

Definition lit_free (l : Lit.t) : bool := match l with Lit.Float _ => false | _ => true end.

Definition cond_free (c : CondAst.t) : bool :=
  match c with
  | CondAst.Eq _ l | CondAst.Cmp _ _ l => lit_free l
  | CondAst.In _ ls => forallb lit_free ls
  | CondAst.Between _ l h => lit_free l && lit_free h
  | CondAst.Match _ _ => true
  end.

(** No float literal and no coordinate. *)
Definition float_free (ast : QueryAst) : bool :=
  forallb cond_free (q_conditions ast) && bool_decide (q_spatial ast = None) && opt_ok (fun a => lit_free a.1 && lit_free a.2) (q_after ast).

Notation lit_fine l := (lit_free l = true -> lit_ok l = true) (only parsing).

Lemma yields_keyword kw : yields (expect_keyword kw) (fun _ => True).
Proof. unfold expect_keyword. by yield. Qed.

Lemma yields_token good detail : yields (expect_token good detail) (fun _ => True).
Proof. unfold expect_token. by yield. Qed.

Lemma yields_ident : yields expect_ident (fun w => ident_ok w = true).
Proof. unfold expect_ident. yield. unfold ident_ok. simpl in *. by rewrite H, Heqb. Qed.

Lemma yields_number : yields expect_number (fun _ => True).
Proof. unfold expect_number. by yield. Qed.

Lemma yields_literal : yields parse_literal (fun l => lit_fine l).
Proof. unfold parse_literal. by yield. Qed.
#[local] Hint Resolve yields_keyword yields_token yields_ident yields_number yields_literal : yields.

Lemma yields_in_rest fuel : yields (parse_in_rest fuel) (fun ls => forallb lit_free ls = true -> forallb lit_ok ls = true).
Proof.
  induction fuel as [|fuel IH]; [apply yields_fail|]. unfold parse_in_rest; fold parse_in_rest. yield; try done. rewrite !andb_true_iff. naive_solver.
Qed.
#[local] Hint Resolve yields_in_rest : yields.

Lemma yields_condition : yields parse_condition (fun c => cond_free c = true -> cond_ok c = true).
Proof. unfold parse_condition. yield; rewrite ?andb_true_iff; naive_solver. Qed.
#[local] Hint Resolve yields_condition : yields.

Lemma yields_conditions fuel : yields (parse_conditions fuel) (fun cs => forallb cond_free cs = true -> forallb cond_ok cs = true).
Proof. induction fuel as [|fuel IH]; [apply yields_fail|]. cbn [parse_conditions]. yield; rewrite ?andb_true_iff; naive_solver. Qed.
#[local] Hint Resolve yields_conditions : yields.

Lemma yields_where : yields parse_where (fun cs => forallb cond_free cs = true -> forallb cond_ok cs = true).
Proof. unfold parse_where. yield; rewrite ?andb_true_iff; naive_solver. Qed.

Lemma yields_coordinates n : yields (parse_coordinates n) (fun _ => True).
Proof. induction n as [|n IH]; [by apply yields_ret|]. cbn [parse_coordinates]. by yield. Qed.
#[local] Hint Resolve yields_coordinates : yields.

Lemma yields_tuple n : yields (parse_number_tuple n) (fun _ => True).
Proof. unfold parse_number_tuple. by yield. Qed.
#[local] Hint Resolve yields_tuple : yields.

Lemma yields_spatial : yields parse_spatial (fun _ => True).
Proof. unfold parse_spatial. by yield. Qed.

Lemma yields_order_term : yields parse_order_term (fun o => ident_ok o.1 = true).
Proof. unfold parse_order_term. by yield. Qed.
#[local] Hint Resolve yields_order_term : yields.

Lemma yields_order : yields parse_order (fun o => opt_ok (fun o => ident_ok o.1) o.1 = true /\ opt_ok (fun o => ident_ok o.1) o.2 = true /\ (is_Some o.1 \/ o.2 = None)).
Proof. unfold parse_order. yield; naive_solver. Qed.

Lemma yields_limit : yields parse_limit (fun l => opt_ok (in_u 32) l = true).
Proof. unfold parse_limit. by yield. Qed.

Lemma yields_after ordered : yields (parse_after ordered) (fun a => (opt_ok (fun a => lit_free a.1 && lit_free a.2) a = true -> opt_ok (fun a => lit_ok a.1 && lit_ok a.2) a = true) /\ (ordered = true \/ a = None)).
Proof. unfold parse_after. yield; rewrite ?andb_true_iff; try naive_solver. split; [naive_solver|left; by apply negb_false_iff]. Qed.

Lemma yields_as_of : yields parse_as_of (fun a => opt_ok (fun a => (0 <=? a.2) && in_i 64 a.2) a = true).
Proof.
  unfold parse_as_of. yield; try done. eapply (yields_bind _ _ (fun _ => True)); [by yield|]. intros b _. yield; try done. simpl in *. by rewrite Heqb0.
Qed.

Lemma yields_end : yields parse_end (fun _ => True).
Proof. intros [|[] ts] a ts' Hts [=]; by subst. Qed.

Lemma yields_score : yields parse_select_score (fun _ => True).
Proof. unfold parse_select_score. by yield. Qed.
#[local] Hint Resolve yields_where yields_spatial yields_order yields_limit yields_after yields_as_of yields_end yields_score : yields.

(** A parsed query without floats is well formed. *)
Lemma yields_query : yields parse_query_m (fun ast => float_free ast = true -> query_ok ast = true).
Proof.
  unfold parse_query_m. yield. unfold float_free, query_ok. simpl. intros. split_ok.
  destruct_and?. simpl in *. rewrite !andb_true_iff, orb_true_iff, andb_true_iff, !bool_decide_eq_true.
  split_and!; try naive_solver. match goal with H : bool_decide _ = true \/ _ |- _ => rewrite bool_decide_eq_true in H end. naive_solver.
Qed.

Lemma parsed_ok sql ast : parse_sql sql = Ok ast -> float_free ast = true -> query_ok ast = true.
Proof.
  intros (ts & Ht & Hp)%result_bind_Ok Hf. unfold tokenize in Ht. destruct (_ <? _); [done|]. apply lex_wf in Ht.
  unfold parse_query in Hp. destruct (parse_query_m ts) as [r ts'] eqn:E. simpl in Hp. subst r. by apply (yields_query ts ast ts').
Qed.

(** C26: deduplication by canonical text is sound. Two accepted query texts
    without float literals or coordinates whose canonical texts are equal are the
    same query, so sharing one compiled plan between them is correct. *)
Theorem normalize_injective sql1 sql2 a1 a2 : parse_sql sql1 = Ok a1 -> parse_sql sql2 = Ok a2 ->
  float_free a1 = true -> float_free a2 = true -> normalize a1 = normalize a2 -> a1 = a2.
Proof.
  intros H1 H2 F1 F2 E. pose proof (normalize_reads a1 (parsed_ok _ _ H1 F1)) as R1. pose proof (normalize_reads a2 (parsed_ok _ _ H2 F2)) as R2.
  rewrite E, R2 in R1. by injection R1.
Qed.

(** Two spellings of one query. *)
Definition spelled_1 : list Z := bytes "select * from Task where owner = 'o''neil' and due in (3,-4) order by due desc limit 10 after (3, 7)".
Definition spelled_2 : list Z := bytes "SELECT *  FROM Task WHERE owner = 'o''neil' AND due IN (3, -4) ORDER BY due DESC LIMIT 10 AFTER (3,7)".

Definition parsed_1 : QueryAst := Eval vm_compute in match parse_sql spelled_1 with Ok a => a | Err _ => Build_QueryAst [] [] None None None None None false None end.

Lemma normalize_injective_witness : parse_sql spelled_1 = Ok parsed_1 /\ parse_sql spelled_2 = Ok parsed_1 /\ parsed_1 = parsed_1.
Proof.
  assert (parse_sql spelled_1 = Ok parsed_1) as E1 by (vm_compute; reflexivity).
  assert (parse_sql spelled_2 = Ok parsed_1) as E2 by (vm_compute; reflexivity).
  split_and!; [exact E1|exact E2|]. apply (normalize_injective spelled_1 spelled_2 parsed_1 parsed_1 E1 E2); vm_compute; reflexivity.
Defined.

(** * Termination of the parser *)

(** On at most [n] tokens the parser leaves no more than it was given and does
    not run out of fuel. *)
Definition safe {A} (n : nat) (m : P A) : Prop := forall ts, (length ts <= n)%nat ->
  (length (m ts).2 <= length ts)%nat /\ (m ts).1 <> Err SqlFuel.

Lemma safe_bind {A B} n (m : P A) (f : A -> P B) : safe n m -> (forall a, safe n (f a)) -> safe n (m ≫= f).
Proof.
  intros Hm Hf ts Hts. unfold mbind, sm_bind. destruct (Hm ts Hts) as [Hl He]. destruct (m ts) as [[a|e] ts1]; simpl in *; [|split; [done|congruence]].
  destruct (Hf a ts1) as [? ?]; [lia|]. split; [lia|done].
Qed.

Lemma safe_next {A} n (f : option Token.t -> P A) : safe n (f None) -> (forall t, n <> 0%nat -> safe (n - 1) (f (Some t))) -> safe n (next ≫= f).
Proof.
  intros Hn Hs [|t ts] Hts; unfold mbind, sm_bind, next; simpl in *; [by apply Hn|]. destruct (Hs t ltac:(lia) ts) as [? ?]; [lia|]. split; [lia|done].
Qed.

Lemma safe_peek_skip {A} n kw (f : P A) (g : P A) : (n <> 0%nat -> safe (n - 1) f) -> safe n g ->
  safe n (peek_keyword kw ≫= fun b : bool => if b then skip ≫= fun _ => f else g).
Proof.
  intros Hf Hg [|t ts] Hts; unfold mbind, sm_bind, peek_keyword, skip; simpl in *; [by apply Hg|].
  destruct (match t with Token.Word w => eq_ic w kw | _ => false end); [|by apply Hg]. destruct (Hf ltac:(lia) ts) as [? ?]; [lia|]. simpl. split; [lia|done].
Qed.

Lemma safe_ret {A} n (a : A) : safe n (mret a).
Proof. intros ts Hts. done. Qed.
Lemma safe_fail {A} n e : e <> SqlFuel -> safe n (sm_fail e : P A).
Proof. intros He ts Hts. split; [done|]. simpl. congruence. Qed.
Lemma safe_peek n kw : safe n (peek_keyword kw).
Proof. intros ts Hts. done. Qed.
Lemma safe_comma n : safe n peek_comma.
Proof. intros ts Hts. done. Qed.
Lemma safe_skip n : safe n skip.
Proof. intros [|t ts] Hts; simpl; [done|]. split; [lia|done]. Qed.

Create HintDb safety.
#[local] Hint Resolve safe_peek safe_comma safe_skip : safety.

Ltac safely :=
  repeat match goal with
  | |- safe _ (next ≫= _) => apply safe_next; [|intros ? ?]
  | |- safe _ (peek_keyword _ ≫= fun b => if b then skip ≫= fun _ => _ else _) => apply safe_peek_skip; [intros ?|]
  | |- safe _ (_ ≫= _) => apply safe_bind; [solve [eauto with safety]|intros ?]
  | |- safe _ (if ?b then _ else _) => destruct b
  | |- safe _ (match ?t with _ => _ end) => destruct t
  | |- safe _ (unsupported _) => by apply safe_fail
  | |- safe _ (sm_fail _) => by apply safe_fail
  | |- safe _ (mret _) => apply safe_ret
  end.

Lemma safe_keyword n kw : safe n (expect_keyword kw).
Proof. unfold expect_keyword. safely. Qed.
Lemma safe_token n good detail : safe n (expect_token good detail).
Proof. unfold expect_token. safely. Qed.
Lemma safe_ident n : safe n expect_ident.
Proof. unfold expect_ident. safely. Qed.
Lemma safe_number n : safe n expect_number.
Proof. unfold expect_number. safely. Qed.
Lemma safe_literal n : safe n parse_literal.
Proof. unfold parse_literal. safely. Qed.
#[local] Hint Resolve safe_keyword safe_token safe_ident safe_number safe_literal : safety.

Lemma safe_coordinates n k : safe n (parse_coordinates k).
Proof. induction k as [|k IH]; [apply safe_ret|]. cbn [parse_coordinates]. safely. Qed.
#[local] Hint Resolve safe_coordinates : safety.

Lemma safe_tuple n k : safe n (parse_number_tuple k).
Proof. unfold parse_number_tuple. safely. Qed.
#[local] Hint Resolve safe_tuple : safety.

Lemma safe_in_rest n fuel : (n < fuel)%nat -> safe n (parse_in_rest fuel).
Proof.
  revert n. induction fuel as [|fuel IH]; intros n Hn; [lia|]. unfold parse_in_rest; fold parse_in_rest. apply safe_next; [safely|]. intros t Hne. destruct t; safely.
  apply safe_bind; [|intros; apply safe_ret]. apply IH. lia.
Qed.

Lemma safe_remaining {A} n (f : nat -> P A) : (forall k, (k <= n)%nat -> safe k (f k)) -> safe n (remaining ≫= f).
Proof. intros Hf ts Hts. unfold mbind, sm_bind, remaining. by apply Hf. Qed.

Lemma safe_condition n : safe n parse_condition.
Proof.
  unfold parse_condition. safely. apply safe_remaining. intros k Hk. apply safe_bind; [apply safe_in_rest; lia|]. intros. safely.
Qed.
#[local] Hint Resolve safe_condition : safety.

Lemma safe_conditions n fuel : (n < fuel)%nat -> safe n (parse_conditions fuel).
Proof.
  revert n. induction fuel as [|fuel IH]; intros n Hn; [lia|]. cbn [parse_conditions]. safely. apply safe_bind; [apply IH; lia|]. intros. safely.
Qed.

Lemma safe_where n : safe n parse_where.
Proof. unfold parse_where. safely. apply safe_remaining. intros k _. apply safe_conditions. lia. Qed.
Lemma safe_spatial n : safe n parse_spatial.
Proof. unfold parse_spatial. safely. Qed.
Lemma safe_order_term n : safe n parse_order_term.
Proof. unfold parse_order_term. safely. Qed.
#[local] Hint Resolve safe_order_term : safety.
Lemma safe_order n : safe n parse_order.
Proof. unfold parse_order. safely. Qed.
Lemma safe_limit n : safe n parse_limit.
Proof. unfold parse_limit. safely. Qed.
Lemma safe_after n ordered : safe n (parse_after ordered).
Proof. unfold parse_after. safely. Qed.
Lemma safe_as_of n : safe n parse_as_of.
Proof. unfold parse_as_of. safely. apply safe_bind; [safely|]. intros. safely. Qed.
Lemma safe_score n : safe n parse_select_score.
Proof. unfold parse_select_score. safely. Qed.
Lemma safe_end n : safe n parse_end.
Proof. by intros [|[] ?] ?. Qed.
#[local] Hint Resolve safe_where safe_spatial safe_order safe_limit safe_after safe_as_of safe_score safe_end : safety.

(** Parsing never runs out of fuel, whatever the tokens. *)
Lemma parse_query_total ts : parse_query ts <> Err SqlFuel.
Proof.
  assert (safe (length ts) parse_query_m) as H by (unfold parse_query_m; safely). by apply H.
Qed.
