(* ===== verification/FullText.v ===== *)
(** Full-text analysis and [MATCH] queries of [index/fulltext.rs]: the analyzer
    pipeline, the query parser, the boolean match on one document and the terms
    a query is registered under for pruning.

    Text is UTF-8 bytes; a character is the group of its bytes. The Unicode
    tables of the standard library (alphanumeric, white space, lower case) are
    the [Unicode] interface. [matches_pruned] shows that a document that
    matches contains a term the query is registered under. *)

From stdpp Require Import base list gmap numbers strings.
From Stdlib Require Import ZArith Lia.
From S2P Require Import Prelude FluxBin Row IndexKey Ieee SqlText.

(** [char::is_alphanumeric] and [char::is_whitespace] on a character's bytes,
    [str::to_lowercase]. *)
Class Unicode := {
  is_alphanumeric : list Z -> bool;
  is_whitespace : list Z -> bool;
  to_lowercase : list Z -> list Z;
}.

(** * Analysis *)

Inductive Language : Type := Simple | English.

Record Analyzer : Type := { language : Language; stop_words : bool; stemming : bool }.

Definition english (a : Analyzer) : bool := match language a with English => true | Simple => false end.

(** Characters of a UTF-8 text: a byte [10xxxxxx] continues the one before. *)
Definition chars (text : list Z) : list (list Z) :=
  (foldr (fun b '(pending, cs) => if (128 <=? b) && (b <? 192) then (b :: pending, cs) else ([], (b :: pending) :: cs)) ([], []) text).2.

Definition ENGLISH_STOP_WORDS : list string :=
  ["a"; "an"; "and"; "are"; "as"; "at"; "be"; "but"; "by"; "for"; "from"; "has"; "have"; "he"; "her"; "his"; "in"; "into";
   "is"; "it"; "its"; "of"; "on"; "or"; "she"; "that"; "the"; "their"; "then"; "there"; "these"; "they"; "this"; "to";
   "was"; "were"; "which"; "who"; "will"; "with"]%string.

Definition is_english_stop_word (term : list Z) : bool := existsb (fun w => bool_decide (term = bytes w)) ENGLISH_STOP_WORDS.

Definition strip_suffix (w suffix : list Z) : option (list Z) :=
  let n := (length w - length suffix)%nat in
  if bool_decide (firstn n w ++ suffix = w) then Some (firstn n w) else None.

(** [strip_suffix] with a minimal length of what is left. *)
Definition strip (w : list Z) (suffix : string) (min_stem : Z) : option (list Z) :=
  strip_suffix w (bytes suffix) ≫= fun stem => if min_stem <=? blen stem then Some stem else None.

Fixpoint first_stem (w : list Z) (rules : list (string * Z)) : option (list Z) :=
  match rules with
  | [] => None
  | (suffix, min_stem) :: rules => match strip w suffix min_stem with Some stem => Some stem | None => first_stem w rules end
  end.

Definition stem_english (w : list Z) : list Z :=
  match strip w "ies" 2 with
  | Some stem => stem ++ bytes "y"
  | None =>
      match strip w "sses" 2 with
      | Some stem => stem ++ bytes "ss"
      | None =>
          match first_stem w [("ing", 4); ("edly", 3); ("ed", 3); ("ly", 3); ("es", 3)]%string with
          | Some stem => stem
          | None =>
              match strip_suffix w (bytes "s"), strip_suffix w (bytes "ss") with
              | Some stem, None => if 3 <? blen w then stem else w
              | _, _ => w
              end
          end
      end
  end.

Section analysis.
Context {U : Unicode}.

(** Maximal runs of alphanumeric characters; [run] is the current one. *)
Fixpoint tokenize_from (run : list Z) (cs : list (list Z)) : list (list Z) :=
  match cs with
  | [] => match run with [] => [] | _ => [run] end
  | c :: cs =>
      if is_alphanumeric c then tokenize_from (run ++ c) cs
      else match run with [] => tokenize_from [] cs | _ => run :: tokenize_from [] cs end
  end.

Definition tokenize_text (text : list Z) : list (list Z) := tokenize_from [] (chars text).

Definition case_fold (token : list Z) : list Z := to_lowercase token.

(** The term of one token, when it is kept. *)
Definition analyze_token (a : Analyzer) (raw : list Z) : option (list Z) :=
  let folded := case_fold raw in
  if stop_words a && english a && is_english_stop_word folded then None
  else
    let term := if stemming a && english a then stem_english folded else folded in
    match term with [] => None | _ => Some term end.

(** [u32::try_from(pos).unwrap_or(u32::MAX)]. *)
Definition position (pos : nat) : Z := Z.min (Z.of_nat pos) (u_max 32).

Fixpoint analyze_from (a : Analyzer) (pos : nat) (raws : list (list Z)) : list (list Z * Z) :=
  match raws with
  | [] => []
  | raw :: raws =>
      match analyze_token a raw with
      | Some term => (term, position pos) :: analyze_from a (S pos) raws
      | None => analyze_from a (S pos) raws
      end
  end.

Definition analyze (a : Analyzer) (text : list Z) : list (list Z * Z) := analyze_from a 0 (tokenize_text text).

(** * Queries *)

Inductive FtsItem : Type :=
  | FtsTerm (term : list Z)
  | FtsPrefix (prefix : list Z)
  | FtsPhrase (terms : list (list Z * Z)).

Record FtsQuery : Type := {
  fts_column : nat;
  fts_items : list FtsItem;
  fts_analyzer : Analyzer;
  fts_raw : list Z;
}.

Definition bad_match {A} (detail : string) : result SqlError A := Err (SqlUnsupported detail).

(** The characters before the first that satisfies [p], and from there. *)
Fixpoint break_at (p : list Z -> bool) (cs : list (list Z)) : list (list Z) * list (list Z) :=
  match cs with
  | [] => ([], [])
  | c :: r => if p c then ([], cs) else let '(a, b) := break_at p r in (c :: a, b)
  end.

Definition is_char (b : Z) (c : list Z) : bool := bool_decide (c = [b]).
Definition trim_start (cs : list (list Z)) : list (list Z) := (break_at (fun c => negb (is_whitespace c)) cs).2.
Definition trim (cs : list (list Z)) : list (list Z) := reverse (trim_start (reverse (trim_start cs))).

(** A word outside quotes. *)
Definition word_items (a : Analyzer) (word : list (list Z)) : result SqlError (list FtsItem) :=
  let text := concat word in
  if eq_ic text "OR" || eq_ic text "NOT" then bad_match "boolean OR/NOT inside MATCH"
  else
    match last word with
    | Some c =>
        if is_char 42 c then
          let prefix := removelast word in
          if existsb (is_char 42) prefix then bad_match "only a single trailing * is supported"
          else
            match case_fold (concat prefix) with
            | [] => bad_match "empty prefix before *"
            | folded => Ok [FtsPrefix folded]
            end
        else if existsb (is_char 42) word then bad_match "only a trailing * wildcard is supported"
        else Ok (map (fun t => FtsTerm t.1) (analyze a text))
    | None => Ok []
    end.

(** A phrase between quotes. *)
Definition phrase_items (a : Analyzer) (phrase : list (list Z)) : result SqlError (list FtsItem) :=
  if existsb (is_char 42) phrase then bad_match "wildcards inside a phrase"
  else
    match analyze a (concat phrase) with
    | [] => bad_match "empty phrase"
    | [(term, _)] => Ok [FtsTerm term]
    | terms => Ok [FtsPhrase terms]
    end.

Fixpoint parse_items (fuel : nat) (a : Analyzer) (rest : list (list Z)) : result SqlError (list FtsItem) :=
  match rest, fuel with
  | [], _ => Ok []
  | _, O => Err SqlFuel
  | c :: after, S fuel =>
      if is_char 34 c then
        let '(phrase, tail) := break_at (is_char 34) after in
        match tail with
        | [] => bad_match "unterminated phrase quote"
        | _ :: tail =>
            phrase_items a phrase ≫= fun items =>
            parse_items fuel a (trim_start tail) ≫= fun more => Ok (items ++ more)
        end
      else
        let '(word, tail) := break_at is_whitespace rest in
        word_items a word ≫= fun items =>
        parse_items fuel a (trim_start tail) ≫= fun more => Ok (items ++ more)
  end.

Definition fts_parse (raw : list Z) (column : nat) (a : Analyzer) : result SqlError FtsQuery :=
  let cs := chars raw in
  if existsb (is_char 126) cs then bad_match "fuzzy ~"
  else if existsb (is_char 94) cs then bad_match "field boost ^"
  else if existsb (is_char 40) cs || existsb (is_char 41) cs then bad_match "grouping"
  else
    parse_items (S (length cs)) a (trim cs) ≫= fun items =>
    match items with
    | [] => bad_match "the query analyzed to no terms"
    | _ => Ok {| fts_column := column; fts_items := items; fts_analyzer := a; fts_raw := raw |}
    end.

(** * Matching one document *)

Definition starts_with (t prefix : list Z) : bool := bool_decide (firstn (length prefix) t = prefix).

(** The positions a term occurs at, in document order. *)
Definition positions_of (analyzed : list (list Z * Z)) (term : list Z) : list Z :=
  map snd (filter (fun tp => tp.1 = term) analyzed).

(** [anchor + (pos - first_pos)] on [u32]: phrase positions ascend, so only the
    sum can leave the range, and it panics there in a debug build. *)
Definition item_matches (analyzed : list (list Z * Z)) (item : FtsItem) : bool :=
  match item with
  | FtsTerm term => negb (bool_decide (positions_of analyzed term = []))
  | FtsPrefix prefix => existsb (fun tp => starts_with tp.1 prefix) analyzed
  | FtsPhrase [] => false
  | FtsPhrase ((first, first_pos) :: rest) =>
      existsb (fun anchor => forallb (fun '(term, pos) =>
        existsb (Z.eqb (cast_unsigned 32 (anchor + (pos - first_pos)))) (positions_of analyzed term)) rest)
        (positions_of analyzed first)
  end.

Definition matches_text (q : FtsQuery) (text : list Z) : bool :=
  let analyzed := analyze (fts_analyzer q) text in forallb (item_matches analyzed) (fts_items q).

(** [parts.join(" ")]. *)
Fixpoint join (parts : list (list Z)) : list Z :=
  match parts with
  | [] => []
  | [p] => p
  | p :: parts => p ++ 32 :: join parts
  end.

Definition str_of (v : RowValue.t) : option (list Z) := match v with RowValue.Str s => Some s | _ => None end.

(** The text of a document column; [None] when it does not hold text. *)
Definition matches_row (q : FtsQuery) (r : row) : bool :=
  match r !! fts_column q with
  | Some (RowValue.Str s) => matches_text q s
  | Some (RowValue.Optional (Some (RowValue.Str s))) => matches_text q s
  | Some (RowValue.List values) =>
      match mapM str_of values with Some parts => matches_text q (join parts) | None => false end
  | _ => false
  end.

(** * Pruning *)

Definition item_terms (item : FtsItem) : list (list Z) :=
  match item with FtsTerm term => [term] | FtsPhrase ((first, _) :: _) => [first] | _ => [] end.
Definition item_prefixes (item : FtsItem) : list (list Z) := match item with FtsPrefix p => [p] | _ => [] end.

Definition pruning_terms (q : FtsQuery) : list (list Z) * list (list Z) :=
  (flat_map item_terms (fts_items q), flat_map item_prefixes (fts_items q)).

(** A term hits a query's registration: it is one of its terms or extends one of
    its prefixes. *)
Definition term_hits (q : FtsQuery) (term : list Z) : bool :=
  existsb (fun t => bool_decide (term = t)) (pruning_terms q).1 || existsb (starts_with term) (pruning_terms q).2.

Lemma positions_term analyzed term : positions_of analyzed term <> [] -> exists pos, (term, pos) ∈ analyzed.
Proof.
  unfold positions_of. destruct (filter _ analyzed) as [|[t pos] l] eqn:E; [done|]. intros _.
  assert ((t, pos) ∈ filter (fun tp => tp.1 = term) analyzed) as [Ht Hin]%list_elem_of_filter by (rewrite E; left). simpl in Ht. subst t. by exists pos.
Qed.

Lemma item_hits q item analyzed : item ∈ fts_items q -> item_matches analyzed item = true ->
  exists term pos, (term, pos) ∈ analyzed /\ term_hits q term = true.
Proof.
  intros Hi Hm. unfold term_hits, pruning_terms. destruct item as [term|prefix|[|[first fp] rest]]; simpl in Hm; [| |done|].
  - apply negb_true_iff, bool_decide_eq_false, positions_term in Hm as [pos Hp]. exists term, pos. split; [done|]. apply orb_true_iff. left.
    apply existsb_exists. exists term. split; [|by apply bool_decide_eq_true]. apply in_flat_map. exists (FtsTerm term). split; [by apply list_elem_of_In|by left].
  - apply existsb_exists in Hm as ([term pos] & Hin & Hs). exists term, pos. split; [by apply list_elem_of_In|]. apply orb_true_iff. right.
    apply existsb_exists. exists prefix. split; [|done]. apply in_flat_map. exists (FtsPrefix prefix). split; [by apply list_elem_of_In|by left].
  - apply existsb_exists in Hm as (anchor & Hin & _). destruct (positions_term analyzed first) as [pos Hp]; [by destruct (positions_of analyzed first)|].
    exists first, pos. split; [done|]. apply orb_true_iff. left. apply existsb_exists. exists first. split; [|by apply bool_decide_eq_true].
    apply in_flat_map. exists (FtsPhrase ((first, fp) :: rest)). split; [by apply list_elem_of_In|by left].
Qed.

(** A text that matches holds a term the query is registered under. *)
Lemma matches_pruned q text : fts_items q <> [] -> matches_text q text = true ->
  exists term pos, (term, pos) ∈ analyze (fts_analyzer q) text /\ term_hits q term = true.
Proof.
  intros Hne Hm. destruct (fts_items q) as [|item items] eqn:E; [done|]. unfold matches_text in Hm. rewrite E in Hm. simpl in Hm.
  apply andb_true_iff in Hm as [Hi _]. apply (item_hits q item); [rewrite E; left|done].
Qed.

(** The parser never returns a query without items. *)
Lemma fts_parse_items raw column a q : fts_parse raw column a = Ok q -> fts_items q <> [] /\ fts_column q = column /\ fts_analyzer q = a.
Proof.
  unfold fts_parse. repeat (match goal with |- context [if ?b then _ else _] => destruct b; [done|] end).
  destruct (parse_items _ _ _) as [[|i items]|]; simpl; [done| |done]. by intros [= <-].
Qed.
End analysis.
