(* ===== verification/Query.v ===== *)
(** Query compilation of [sql/mod.rs]: typed conditions, the rule-based choice of
    an access path ([plan_access]) and [compile].

    A compiled predicate, a closure over conditions in the source, is the list of
    its conditions. The hash of the canonical text and the ids of tables and
    indexes (CRC-32 of names) are parameters. *)

From stdpp Require Import base list gmap sorting numbers strings.
From Stdlib Require Import ZArith Lia.
From S2P Require Import Prelude FluxBin Row IndexKey TxState LogRecord TableState MemStore StoreBuild Ieee SqlText FullText.

(** * Declarations *)

Inductive VisibilityRule : Type :=
  | PublicAll
  | OwnerOnly (owner : nat)
  | ShardLocal
  | CustomRule (name : list Z)
  | MemberOf (table key : list Z).

(** A table of the assembled schema; [qt_grants] is [has_column_grants]. *)
Record QueryTable : Type := {
  qt_decl : TableDecl;
  qt_visibility : VisibilityRule;
  qt_grants : bool;
}.

Definition qt_name (t : QueryTable) : list Z := decl_name (qt_decl t).
Definition qt_schema (t : QueryTable) : TableSchema := ti_schema (decl_info (qt_decl t)).
Definition qt_types (t : QueryTable) : list FluxType.t := columns (qt_schema t).
Definition qt_columns (t : QueryTable) : list (list Z) := decl_columns (qt_decl t).
Definition qt_indexes (t : QueryTable) : list IndexSchema := decl_indexes (qt_decl t).
Definition qt_pk (t : QueryTable) : list nat := primary_key (qt_schema t).

(** [Schema::table]. *)
Definition find_table (schema : list QueryTable) (name : list Z) : option QueryTable :=
  find (fun t => bool_decide (qt_name t = name)) schema.

(** * Comparison of values *)

Definition cmp_values (a b : RowValue.t) : option comparison :=
  match a, b with
  | RowValue.I8 x, RowValue.I8 y | RowValue.I16 x, RowValue.I16 y | RowValue.I32 x, RowValue.I32 y
  | RowValue.I64 x, RowValue.I64 y | RowValue.U8 x, RowValue.U8 y | RowValue.U16 x, RowValue.U16 y
  | RowValue.U32 x, RowValue.U32 y | RowValue.U64 x, RowValue.U64 y
  | RowValue.EntityId x, RowValue.EntityId y | RowValue.Timestamp x, RowValue.Timestamp y => Some (x ?= y)
  | RowValue.F32 x, RowValue.F32 y => partial_cmp 32 x y
  | RowValue.F64 x, RowValue.F64 y => partial_cmp 64 x y
  | RowValue.Str x, RowValue.Str y => Some (lex_compare x y)
  | _, _ => None
  end.

(** * Conditions *)

Module CompiledCond.
Inductive t : Type :=
  | Eq (ordinal : nat) (value : RowValue.t)
  | In (ordinal : nat) (values : list RowValue.t)
  | Between (ordinal : nat) (low high : RowValue.t)
  | Cmp (ordinal : nat) (op : CmpOp) (value : RowValue.t).
End CompiledCond.

Definition op_holds (op : CmpOp) (c : comparison) : bool :=
  match op, c with
  | OpLt, Lt | OpLe, Lt | OpLe, Eq | OpGt, Gt | OpGe, Gt | OpGe, Eq => true
  | _, _ => false
  end.

Definition value_holds (op : CmpOp) (v bound : RowValue.t) : bool :=
  match cmp_values v bound with Some c => op_holds op c | None => false end.

(** [CompiledCond::matches]. *)
Definition cond_matches (c : CompiledCond.t) (r : row) : bool :=
  match c with
  | CompiledCond.Eq o value => match r !! o with Some v => value_eq v value | None => false end
  | CompiledCond.In o values => match r !! o with Some v => existsb (fun x => value_eq x v) values | None => false end
  | CompiledCond.Between o low high =>
      match r !! o with Some v => value_holds OpGe v low && value_holds OpLe v high | None => false end
  | CompiledCond.Cmp o op bound => match r !! o with Some v => value_holds op v bound | None => false end
  end.

(** ** Literals *)

(** [position(|c| c.name == column)]. *)
Fixpoint column_position (names : list (list Z)) (column : list Z) : option nat :=
  match names with
  | [] => None
  | n :: names => if bool_decide (n = column) then Some O else S <$> column_position names column
  end.

Definition resolve_column (t : QueryTable) (column : list Z) : result SqlError (nat * FluxType.t) :=
  match column_position (qt_columns t) column with
  | Some o => from_option SqlInternal ((fun ty => (o, ty)) <$> qt_types t !! o)
  | None => Err (SqlUnknownColumn column)
  end.

(** An integer literal as a value of the column's type, range-checked. *)
Definition coerce_int (ty : FluxType.t) (n : Z) : option RowValue.t :=
  let signed w k := if in_i w n then Some (k n) else None in
  let unsigned w k := if in_u w n then Some (k n) else None in
  match ty with
  | FluxType.I8 => signed 8 RowValue.I8
  | FluxType.I16 => signed 16 RowValue.I16
  | FluxType.I32 => signed 32 RowValue.I32
  | FluxType.I64 => Some (RowValue.I64 n)
  | FluxType.U8 => unsigned 8 RowValue.U8
  | FluxType.U16 => unsigned 16 RowValue.U16
  | FluxType.U32 => unsigned 32 RowValue.U32
  | FluxType.U64 => unsigned 64 RowValue.U64
  | FluxType.F32 => Some (RowValue.F32 (float_of_Z 32 n))
  | FluxType.F64 => Some (RowValue.F64 (float_of_Z 64 n))
  | FluxType.EntityId => unsigned 64 RowValue.EntityId
  | FluxType.Timestamp => Some (RowValue.Timestamp n)
  | _ => None
  end.

Fixpoint coerce (column : list Z) (lit : Lit.t) (ty : FluxType.t) : result SqlError RowValue.t :=
  let mismatch := SqlTypeMismatch column in
  match ty with
  | FluxType.Option inner => coerce column lit inner ≫= fun v => Ok (RowValue.Optional (Some v))
  | ty =>
      match lit, ty with
      | Lit.Int n, _ => from_option mismatch (coerce_int ty n)
      | Lit.Float x, FluxType.F32 => Ok (RowValue.F32 (f32_of_f64 x))
      | Lit.Float x, FluxType.F64 => Ok (RowValue.F64 x)
      | Lit.Str s, FluxType.Str => Ok (RowValue.Str s)
      | Lit.Bool b, FluxType.Bool => Ok (RowValue.Bool b)
      | _, _ => Err mismatch
      end
  end.

(** Types without an order for BETWEEN and comparisons. *)
Definition unordered (ty : FluxType.t) : bool :=
  match ty with FluxType.Option _ | FluxType.List _ | FluxType.Bool => true | _ => false end.

Definition compile_condition (t : QueryTable) (c : CondAst.t) : result SqlError CompiledCond.t :=
  match c with
  | CondAst.Eq column lit =>
      resolve_column t column ≫= fun '(o, ty) =>
      coerce column lit ty ≫= fun v => Ok (CompiledCond.Eq o v)
  | CondAst.In column lits =>
      resolve_column t column ≫= fun '(o, ty) =>
      collect (fun lit => coerce column lit ty) lits ≫= fun vs => Ok (CompiledCond.In o vs)
  | CondAst.Between column low high =>
      resolve_column t column ≫= fun '(o, ty) =>
      if unordered ty then Err (SqlUnsupported "BETWEEN is not defined over the column")
      else
        coerce column low ty ≫= fun l =>
        coerce column high ty ≫= fun h => Ok (CompiledCond.Between o l h)
  | CondAst.Match _ _ => Err SqlInternal
  | CondAst.Cmp column op lit =>
      resolve_column t column ≫= fun '(o, ty) =>
      if unordered ty then Err (SqlUnsupported "comparison is not defined over the column")
      else coerce column lit ty ≫= fun v => Ok (CompiledCond.Cmp o op v)
  end.

(** * Access paths *)

Record IndexScanPlan : Type := {
  isp_index_id : IndexId;
  isp_columns : list nat;
  isp_probes : list row;
  isp_lower : Bound RowValue.t;
  isp_upper : Bound RowValue.t;
}.

Inductive AccessPath : Type := FullScan | IndexScan (scan : IndexScanPlan).

Record OrderSpec : Type := { os_column : nat; os_descending : bool }.

Definition INDEX_IN_EXPANSION_MAX : nat := 128.

(** The value of a bound. *)
Definition bound_value {A} (b : Bound A) : option A := match b with Unbounded => None | Included x | Excluded x => Some x end.
Definition is_excluded {A} (b : Bound A) : bool := match b with Excluded _ => true | _ => false end.

Definition tighter_lower (a b : Bound RowValue.t) : Bound RowValue.t :=
  match bound_value a, bound_value b with
  | None, _ => b
  | _, None => a
  | Some x, Some y =>
      match cmp_values x y with
      | Some Lt => b
      | Some Gt | None => a
      | Some Eq => if is_excluded a then a else b
      end
  end.

Definition tighter_upper (a b : Bound RowValue.t) : Bound RowValue.t :=
  match bound_value a, bound_value b with
  | None, _ => b
  | _, None => a
  | Some x, Some y =>
      match cmp_values x y with
      | Some Gt => b
      | Some Lt | None => a
      | Some Eq => if is_excluded a then a else b
      end
  end.

(** The first condition, with its position, that [pick] accepts and that is not
    consumed yet. *)
Fixpoint find_cond {A} (pick : CompiledCond.t -> option A) (consumed : list nat) (i : nat) (cs : list CompiledCond.t) : option (nat * A) :=
  match cs with
  | [] => None
  | c :: cs =>
      match (if bool_decide (i ∈ consumed) then None else pick c) with
      | Some a => Some (i, a)
      | None => find_cond pick consumed (S i) cs
      end
  end.

Definition pick_eq (col : nat) (c : CompiledCond.t) : option RowValue.t :=
  match c with CompiledCond.Eq o v => if (o =? col)%nat then Some v else None | _ => None end.
Definition pick_in (col : nat) (c : CompiledCond.t) : option (list RowValue.t) :=
  match c with CompiledCond.In o vs => if (o =? col)%nat then Some vs else None | _ => None end.

(** The equality prefix over the index columns: probes, consumed conditions and
    the number of columns bound. *)
Fixpoint equality_prefix (cs : list CompiledCond.t) (columns : list nat) (consumed : list nat) (probes : list row) (n : nat)
    : list row * list nat * nat :=
  match columns with
  | [] => (probes, consumed, n)
  | col :: columns =>
      match find_cond (pick_eq col) consumed 0 cs with
      | Some (i, v) => equality_prefix cs columns (consumed ++ [i]) (map (fun p => p ++ [v]) probes) (S n)
      | None =>
          match find_cond (pick_in col) consumed 0 cs with
          | Some (i, vs) =>
              if (INDEX_IN_EXPANSION_MAX <? length probes * Nat.max (length vs) 1)%nat || bool_decide (vs = [])
              then (probes, consumed, n)
              else equality_prefix cs columns (consumed ++ [i]) (flat_map (fun p => map (fun v => p ++ [v]) vs) probes) (S n)
          | None => (probes, consumed, n)
          end
      end
  end.

(** One condition folded into the interval on [col]; [None] when it is not a
    range on that column. *)
Definition fold_range (col : nat) (lower upper : Bound RowValue.t) (c : CompiledCond.t) : option (Bound RowValue.t * Bound RowValue.t) :=
  match c with
  | CompiledCond.Between o low high =>
      if (o =? col)%nat then Some (tighter_lower lower (Included low), tighter_upper upper (Included high)) else None
  | CompiledCond.Cmp o op v =>
      if (o =? col)%nat then
        Some (match op with
          | OpGt => (tighter_lower lower (Excluded v), upper)
          | OpGe => (tighter_lower lower (Included v), upper)
          | OpLt => (lower, tighter_upper upper (Excluded v))
          | OpLe => (lower, tighter_upper upper (Included v))
          end)
      else None
  | _ => None
  end.

(** The loop over the conditions that intersects every range on [col]. *)
Fixpoint fold_ranges (col : nat) (i : nat) (cs : list CompiledCond.t) (consumed : list nat) (lower upper : Bound RowValue.t) (has : bool)
    : Bound RowValue.t * Bound RowValue.t * list nat * bool :=
  match cs with
  | [] => (lower, upper, consumed, has)
  | c :: cs =>
      match (if bool_decide (i ∈ consumed) then None else fold_range col lower upper c) with
      | Some (l, u) => fold_ranges col (S i) cs (consumed ++ [i]) l u true
      | None => fold_ranges col (S i) cs consumed lower upper has
      end
  end.

(** [(usize, bool, bool)] compared as a tuple. *)
Definition score_gt (a b : nat * bool * bool) : bool :=
  let '(n, r, o) := a in let '(n', r', o') := b in
  (n' <? n)%nat || ((n =? n')%nat && ((negb r' && r) || (Bool.eqb r r' && (negb o' && o)))).

Definition probe_key (p : row) : list Z := flat_map encode_value p.
Definition probe_le (p q : row) : Prop := key_le (probe_key p) (probe_key q).
#[global] Instance probe_le_dec p q : Decision (probe_le p q).
Proof. unfold probe_le. apply _. Defined.

Record Candidate : Type := {
  ca_score : nat * bool * bool;
  ca_scan : IndexScanPlan;
  ca_consumed : list nat;
  ca_ordered : bool;
}.

Section compile.
Context (table_id_of : list Z -> TableId) (index_id_of : list Z -> list (list Z) -> IndexId) (hash64 : list Z -> Z -> Z).

(** What one B-tree index offers for the query; [None] when nothing. *)
Definition index_candidate (t : QueryTable) (cs : list CompiledCond.t) (order : option OrderSpec) (columns : list nat) : option Candidate :=
  let '(probes, consumed, prefix_len) := equality_prefix cs columns [] [[]] 0 in
  let '(lower, upper, consumed, has_range) :=
    match columns !! prefix_len with
    | Some col => fold_ranges col 0 cs consumed Unbounded Unbounded false
    | None => (Unbounded, Unbounded, consumed, false)
    end in
  let ordered :=
    match order with
    | Some o => (length probes =? 1)%nat &&
        (bool_decide (columns !! prefix_len = Some (os_column o)) || bool_decide (os_column o ∈ firstn prefix_len columns))
    | None => false
    end in
  if (prefix_len =? 0)%nat && negb has_range && negb ordered then None
  else Some {|
    ca_score := (prefix_len, has_range, ordered);
    ca_scan := {| isp_index_id := index_id_of (qt_name t) (map (fun o => default [] (qt_columns t !! o)) columns);
                  isp_columns := columns; isp_probes := merge_sort probe_le probes; isp_lower := lower; isp_upper := upper |};
    ca_consumed := consumed;
    ca_ordered := ordered |}.

Fixpoint best_candidate (t : QueryTable) (cs : list CompiledCond.t) (order : option OrderSpec) (ixs : list IndexSchema) (best : option Candidate) : option Candidate :=
  match ixs with
  | [] => best
  | BTree columns :: ixs =>
      best_candidate t cs order ixs
        (match index_candidate t cs order columns, best with
         | Some c, Some b => if score_gt (ca_score c) (ca_score b) then Some c else best
         | Some c, None => Some c
         | None, _ => best
         end)
  | _ :: ixs => best_candidate t cs order ixs best
  end.

Definition plan_access (t : QueryTable) (cs : list CompiledCond.t) (order : option OrderSpec) : AccessPath * list nat * bool :=
  match best_candidate t cs order (qt_indexes t) None with
  | Some c => (IndexScan (ca_scan c), ca_consumed c, ca_ordered c)
  | None => (FullScan, [], false)
  end.

(** * Plans *)

Inductive SpatialConstraint : Type := InRegion (x y w h : Z) | InRadius (x y r : Z).

Record Keyset : Type := { ks_order_value : RowValue.t; ks_pk_value : RowValue.t }.

(** [filter], [residual] and [rls] are closures in the source: the first two over
    these conditions, the third comparing the owner column with the viewer. *)
Record CompiledPlan : Type := {
  cp_table_id : TableId;
  cp_filter : list CompiledCond.t;
  cp_rls : option nat;
  cp_order_by : option OrderSpec;
  cp_limit : option Z;
  cp_equalities : list (nat * RowValue.t);
  cp_spatial : option SpatialConstraint;
  cp_query_hash : Z;
  cp_normalized : list Z;
  cp_access : AccessPath;
  cp_residual : list CompiledCond.t;
  cp_ordered_by_index : bool;
  cp_cursor : option Keyset;
  cp_fts : option FtsQuery;
  cp_order_by_score : option bool;
  cp_select_score : bool;
  cp_caller_scoped : bool;
  cp_as_of : option AsOfPoint;
}.

(** [CompiledPlan::matches]. *)
Definition plan_matches (p : CompiledPlan) (r : row) : bool := forallb (fun c => cond_matches c r) (cp_filter p).

Definition fulltext_analyzer (t : QueryTable) (o : nat) : option Analyzer :=
  match find (fun ix => match ix with FullText col _ _ _ => (col =? o)%nat | _ => false end) (qt_indexes t) with
  | Some (FullText _ e sw st) => Some {| language := if e then English else Simple; stop_words := sw; stemming := st |}
  | _ => None
  end.

(** The loop over the parsed conditions. *)
Fixpoint compile_conditions {U : Unicode} (t : QueryTable) (cs : list CondAst.t) (fts : option FtsQuery)
    : result SqlError (list CompiledCond.t * option FtsQuery) :=
  match cs with
  | [] => Ok ([], fts)
  | CondAst.Match column raw :: cs =>
      match fts with
      | Some _ => Err (SqlUnsupported "at most one MATCH predicate per query")
      | None =>
          resolve_column t column ≫= fun '(o, _) =>
          from_option (SqlUnsupported "no fulltext index on the column") (fulltext_analyzer t o) ≫= fun a =>
          fts_parse raw o a ≫= fun q =>
          compile_conditions t cs (Some q)
      end
  | c :: cs =>
      compile_condition t c ≫= fun c =>
      compile_conditions t cs fts ≫= fun '(cs, fts) => Ok (c :: cs, fts)
  end.

Definition equalities_of (cs : list CompiledCond.t) : list (nat * RowValue.t) :=
  omap (fun c => match c with CompiledCond.Eq o v => Some (o, v) | _ => None end) cs.

Definition is_spatial (ix : IndexSchema) : bool := match ix with Spatial _ _ => true | _ => false end.

Definition compile_spatial (t : QueryTable) (clause : SpatialAst.t) : result SqlError SpatialConstraint :=
  if negb (existsb is_spatial (qt_indexes t)) then Err SqlNoSpatialIndex
  else
    match clause with
    | SpatialAst.Region x y w h =>
        if forallb (is_finite 64) [x; y; w; h] then Ok (InRegion x y w h) else Err (SqlUnsupported "non-finite REGION coordinates")
    | SpatialAst.Radius r x y =>
        if negb (forallb (is_finite 64) [r; x; y]) then Err (SqlUnsupported "non-finite RADIUS parameters")
        else match partial_cmp 64 r 0 with
          | Some Lt => Err (SqlUnsupported "negative radius")
          | _ => Ok (InRadius x y r)
          end
    end.

(** [order_by] and [order_by_score]. *)
Definition compile_order (t : QueryTable) (fts : bool) (order : option (list Z * bool)) : result SqlError (option OrderSpec * option bool) :=
  match order with
  | None => Ok (None, None)
  | Some (column, desc) =>
      if negb (existsb (fun n => bool_decide (n = column)) (qt_columns t)) && eq_ic column "SCORE" then
        if fts then Ok (None, Some desc) else Err (SqlUnsupported "ORDER BY SCORE requires a MATCH")
      else resolve_column t column ≫= fun '(o, _) => Ok (Some {| os_column := o; os_descending := desc |}, None)
  end.

Definition compile_visibility (v : VisibilityRule) : option nat := match v with OwnerOnly owner => Some owner | _ => None end.

(** The explicit tiebreak must be the primary key in the same direction. *)
Definition check_tiebreak (t : QueryTable) (order : option OrderSpec) (tie : option (list Z * bool)) : result SqlError unit :=
  match tie with
  | None => Ok tt
  | Some (column, desc) =>
      match qt_pk t with
      | [pk] =>
          resolve_column t column ≫= fun '(o, _) =>
          if negb (o =? pk)%nat then Err (SqlUnsupported "the ORDER BY tiebreak must be the primary key")
          else match order with
            | Some spec => if Bool.eqb (os_descending spec) desc then Ok tt else Err (SqlUnsupported "the ORDER BY tiebreak direction must match")
            | None => Err (SqlUnsupported "the ORDER BY tiebreak direction must match")
            end
      | _ => Err (SqlUnsupported "an ORDER BY tiebreak requires a single-column primary key")
      end
  end.

(** The seek of the cursor folded into the bound on the order column. *)
Definition seek (order : OrderSpec) (value : RowValue.t) (access : AccessPath) : AccessPath :=
  match access with
  | FullScan => FullScan
  | IndexScan scan =>
      let prefix_len := match isp_probes scan with p :: _ => length p | [] => O end in
      if bool_decide (isp_columns scan !! prefix_len = Some (os_column order)) then
        IndexScan (if os_descending order
          then {| isp_index_id := isp_index_id scan; isp_columns := isp_columns scan; isp_probes := isp_probes scan;
                  isp_lower := isp_lower scan; isp_upper := tighter_upper (isp_upper scan) (Included value) |}
          else {| isp_index_id := isp_index_id scan; isp_columns := isp_columns scan; isp_probes := isp_probes scan;
                  isp_lower := tighter_lower (isp_lower scan) (Included value); isp_upper := isp_upper scan |})
      else access
  end.

Definition compile_cursor (t : QueryTable) (order : option OrderSpec) (ordered : bool) (access : AccessPath) (after : option (Lit.t * Lit.t))
    : result SqlError (AccessPath * option Keyset) :=
  match after with
  | None => Ok (access, None)
  | Some (order_lit, pk_lit) =>
      match order with
      | None => Err (SqlUnsupported "AFTER requires ORDER BY")
      | Some spec =>
          if negb ordered then Err (SqlUnsupported "AFTER requires ORDER BY on an indexed column")
          else
            match qt_pk t with
            | [pk] =>
                from_option SqlInternal (qt_types t !! os_column spec) ≫= fun oty =>
                coerce (default [] (qt_columns t !! os_column spec)) order_lit oty ≫= fun order_value =>
                from_option SqlInternal (qt_types t !! pk) ≫= fun pty =>
                coerce (default [] (qt_columns t !! pk)) pk_lit pty ≫= fun pk_value =>
                Ok (seek spec order_value access, Some {| ks_order_value := order_value; ks_pk_value := pk_value |})
            | _ => Err (SqlUnsupported "AFTER requires a single-column primary key")
            end
      end
  end.

(** Conditions whose positions are not consumed. *)
Definition residual_of (consumed : list nat) (cs : list CompiledCond.t) : list CompiledCond.t :=
  (filter (fun p => p.1 ∉ consumed) (zip (seq 0 (length cs)) cs)).*2.

Definition compile_ast {U : Unicode} (schema : list QueryTable) (ast : QueryAst) : result SqlError CompiledPlan :=
  from_option (SqlUnknownTable (q_table ast)) (find_table schema (q_table ast)) ≫= fun t =>
  compile_conditions t (q_conditions ast) None ≫= fun '(conditions, fts) =>
  (match q_spatial ast with Some c => compile_spatial t c ≫= fun s => Ok (Some s) | None => Ok None end) ≫= fun spatial =>
  if bool_decide (is_Some fts) && bool_decide (is_Some spatial) then Err (SqlUnsupported "MATCH cannot combine with a spatial clause")
  else
    compile_order t (bool_decide (is_Some fts)) (q_order_by ast) ≫= fun '(order_by, order_by_score) =>
    if q_select_score ast && negb (bool_decide (is_Some fts)) then Err (SqlUnsupported "SELECT *, SCORE requires a MATCH")
    else
      let '(access, consumed, ordered) :=
        if bool_decide (is_Some spatial) || bool_decide (is_Some fts) then (FullScan, [], false)
        else plan_access t conditions order_by in
      let rls := compile_visibility (qt_visibility t) in
      let caller_scoped := bool_decide (is_Some rls) || (match qt_visibility t with MemberOf _ _ => true | _ => false end) || qt_grants t in
      check_tiebreak t order_by (q_order_tiebreak ast) ≫= fun _ =>
      compile_cursor t order_by ordered access (q_after ast) ≫= fun '(access, cursor) =>
      Ok {| cp_table_id := table_id_of (qt_name t); cp_filter := conditions; cp_rls := rls; cp_order_by := order_by;
            cp_limit := q_limit ast; cp_equalities := equalities_of conditions; cp_spatial := spatial;
            cp_query_hash := hash64 (normalize ast) 0; cp_normalized := normalize ast; cp_access := access;
            cp_residual := residual_of consumed conditions; cp_ordered_by_index := ordered; cp_cursor := cursor; cp_fts := fts;
            cp_order_by_score := order_by_score; cp_select_score := q_select_score ast; cp_caller_scoped := caller_scoped;
            cp_as_of := (fun '(ts, n) => if (ts : bool) then AsOfTimestamp n else AsOfTx n) <$> q_as_of ast |}.

Definition compile {U : Unicode} (schema : list QueryTable) (sql : list Z) : result SqlError CompiledPlan :=
  parse_sql sql ≫= compile_ast schema.
End compile.
