(* ===== verification/QueryPlan.v ===== *)
(** The access path a query is compiled to reads the same rows as a full scan.

    For one candidate of the planner ([index_candidate]): a row satisfies every
    condition exactly when one of the probes and the interval select it and the
    residual conditions hold ([candidate_exact]). The values compared hold no NaN
    and no negative zero ([plain]): on those the order of the index differs from
    the comparisons of the filter. *)

From stdpp Require Import base list gmap sorting numbers strings.
From Stdlib Require Import ZArith Lia.
From S2P Require Import Prelude FluxBin Row IndexKey TxState LogRecord PageFormat PagedTree PagedTreeNode PagedTreeRep PagedTreeWrite PagedTreeSpec KvTree TableState TableSpec Reclaim MemStore MergeSpec IndexSpec StoreBuild Ieee SqlText FullText Query.

(** * Plain values *)

(** Types with an order in [cmp_values]. *)
Definition cmp_type (ty : FluxType.t) : bool :=
  match ty with
  | FluxType.I8 | FluxType.I16 | FluxType.I32 | FluxType.I64 | FluxType.U8 | FluxType.U16 | FluxType.U32 | FluxType.U64
  | FluxType.F32 | FluxType.F64 | FluxType.Str | FluxType.EntityId | FluxType.Timestamp => true
  | _ => false
  end.

(** A value of a type, without surprises. *)
Definition fine (ty : FluxType.t) (v : RowValue.t) : Prop := matches_type v ty = true /\ value_ok v = true /\ plain v = true.

Lemma zero_bits w x : 0 < w -> u_ok w x -> is_zero w x = true -> x = 0 \/ x = SIGN w.
Proof.
  intros Hw [H1 H2] Hz. pose proof (pow2_double w Hw). pose proof (SIGN_pos w Hw). unfold is_zero, magnitude in Hz. apply Z.eqb_eq in Hz.
  apply Z.mod_divide in Hz as [k Hk]; [|lia]. assert (k = 0 \/ k = 1) by nia. lia.
Qed.

Lemma float_eq_plain w x y : 0 < w -> u_ok w x -> u_ok w y -> plain_float w x = true -> plain_float w y = true -> float_eq w x y = true -> x = y.
Proof.
  intros Hw Hx Hy [_ Px%negb_true_iff%Z.eqb_neq]%andb_true_iff [_ Py%negb_true_iff%Z.eqb_neq]%andb_true_iff [_ E]%andb_true_iff.
  apply orb_true_iff in E as [E%Z.eqb_eq|[Ex Ey]%andb_true_iff]; [done|].
  apply (zero_bits w x Hw Hx) in Ex. apply (zero_bits w y Hw Hy) in Ey. lia.
Qed.

Definition eq_fine (a : RowValue.t) : Prop := forall b, value_ok a = true -> value_ok b = true -> plain a = true -> plain b = true -> value_eq a b = true -> a = b.

Lemma values_eq_fine l : Forall eq_fine l -> forall k, forallb value_ok l = true -> forallb value_ok k = true ->
  forallb plain l = true -> forallb plain k = true -> forallb2 value_eq l k = true -> l = k.
Proof.
  induction 1 as [|a l Ha _ IH]; intros [|b k]; simpl; try done. rewrite !andb_true_iff. intros [??] [??] [??] [??] [??].
  f_equal; [by apply Ha|by apply IH].
Qed.

Lemma value_eq_eq a : eq_fine a.
Proof.
  induction a using RowValue_ind'; intros b; destruct b as [| | | | | | | | | | | | | | | | | | |[b|]| | |]; cbn [value_eq plain value_ok]; intros Ha Hb Pa Pb E;
    try done; try (apply Z.eqb_eq in E; by subst); try (apply bool_decide_eq_true_1 in E; by subst).
  - apply eqb_prop in E. by subst.
  - f_equal. apply in_u_spec in Ha, Hb. by apply (float_eq_plain 32).
  - f_equal. apply in_u_spec in Ha, Hb. by apply (float_eq_plain 64).
  - apply andb_true_iff in E as [->%Z.eqb_eq ->%Z.eqb_eq]. done.
  - do 2 f_equal. by apply IHa.
  - f_equal. by apply values_eq_fine.
  - apply andb_true_iff in E as [->%Z.eqb_eq E]. repeat (apply andb_true_iff in Ha as [? Ha]). repeat (apply andb_true_iff in Hb as [? Hb]).
    f_equal. by apply values_eq_fine.
  - f_equal. by apply values_eq_fine.
Qed.

Lemma value_eq_plain a : plain a = true -> value_eq a a = true.
Proof.
  assert (forall l, Forall (fun a => plain a = true -> value_eq a a = true) l -> forallb plain l = true -> forallb2 value_eq l l = true) as Hl.
  { induction 1 as [|x l Hx _ IH]; simpl; [done|]. intros [??]%andb_true_iff. by rewrite Hx, IH. }
  induction a using RowValue_ind'; cbn [value_eq plain]; intros P; rewrite ?Z.eqb_refl, ?bool_decide_eq_true_2 by done; try done; auto.
  - by destruct v.
  - apply andb_true_iff in P as [P _]. unfold float_eq. by rewrite P, Z.eqb_refl.
  - apply andb_true_iff in P as [P _]. unfold float_eq. by rewrite P, Z.eqb_refl.
  - rewrite Hl; done.
Qed.

Lemma value_eq_fine ty a b : fine ty a -> fine ty b -> value_eq a b = true <-> a = b.
Proof. intros (_ & ? & ?) (_ & ? & ?). split; [by apply value_eq_eq|]. intros ->. by apply value_eq_plain. Qed.

(** The comparison of the filter is the order of the index. *)
Lemma partial_cmp_plain w x y : 0 < w -> u_ok w x -> u_ok w y -> plain_float w x = true -> plain_float w y = true ->
  partial_cmp w x y = Some (total_order_key w x ?= total_order_key w y).
Proof.
  intros Hw Hx Hy Px Py. pose proof Px as [Nx%negb_true_iff Sx%negb_true_iff%Z.eqb_neq]%andb_true_iff. pose proof Py as [Ny%negb_true_iff Sy%negb_true_iff%Z.eqb_neq]%andb_true_iff.
  unfold partial_cmp. rewrite Nx, Ny. simpl. destruct (is_zero w x && is_zero w y) eqn:E; [|done]. apply andb_true_iff in E as [Ex Ey].
  apply (zero_bits w x Hw Hx) in Ex. apply (zero_bits w y Hw Hy) in Ey. assert (x = 0) as -> by lia. assert (y = 0) as -> by lia. by rewrite Z.compare_refl.
Qed.

Lemma cmp_fine ty a b : cmp_type ty = true -> fine ty a -> fine ty b -> cmp_values a b = Some (value_compare a b).
Proof.
  intros Hty (Ta & Oa & Pa) (Tb & Ob & Pb). destruct ty; try discriminate Hty; destruct a as [| | | | | | | | | | | | | | | | | | |[a|]| | |]; try discriminate Ta; destruct b as [| | | | | | | | | | | | | | | | | | |[b|]| | |]; try discriminate Tb; try reflexivity;
    cbn [value_ok plain] in *; apply in_u_spec in Oa, Ob; cbn [cmp_values value_compare].
  - by apply partial_cmp_plain.
  - by apply partial_cmp_plain.
Qed.

Lemma cmp_ordered ty : cmp_type ty = true -> ordered_type ty = true.
Proof. by destruct ty. Qed.

(** ** Bounds *)

Section order.
Context (ty : FluxType.t) (Hty : ordered_type ty = true).
Notation ok v := (typed [ty] [v]).

Lemma compare_encoded a b : ok a -> ok b -> value_compare a b = lex_compare (encode_value a) (encode_value b).
Proof using Hty.
  intros Ha Hb. inversion Ha as [|???? [??]]; inversion Hb as [|???? [??]]; subst.
  pose proof (encode_value_cmp a b ty [] [] Hty) as E. rewrite !app_nil_r in E. rewrite E by done. by destruct (value_compare a b).
Qed.

Lemma compare_rev a b : ok a -> ok b -> value_compare b a = CompOpp (value_compare a b).
Proof using Hty.
  intros Ha Hb. rewrite !compare_encoded by done. change lex_compare with (@kcmp _ bytes_ord).
  destruct (kcmp (encode_value a) (encode_value b)) eqn:E; simpl.
  - apply kcmp_eq in E. rewrite E. exact (kcmp_refl (encode_value b)).
  - exact (proj2 (kcmp_Gt _ _) E).
  - exact (proj1 (kcmp_Gt _ _) E).
Qed.

Lemma compare_trans a b x : ok a -> ok b -> ok x -> value_compare a b <> Gt -> value_compare b x <> Gt ->
  value_compare a x <> Gt /\ (value_compare a b = Lt \/ value_compare b x = Lt -> value_compare a x = Lt).
Proof using Hty.
  intros Ha Hb Hx. rewrite !compare_encoded by done. change lex_compare with (@kcmp _ bytes_ord). fold (key_le (encode_value a) (encode_value b)) (key_le (encode_value b) (encode_value x)) (key_le (encode_value a) (encode_value x)).
  fold (key_lt (encode_value a) (encode_value b)) (key_lt (encode_value b) (encode_value x)) (key_lt (encode_value a) (encode_value x)).
  intros H1 H2. split; [by etrans|]. intros [H|H]; [by eapply key_lt_le_trans|by eapply key_le_lt_trans].
Qed.
End order.

Lemma fine_typed ty v : fine ty v -> typed [ty] [v].
Proof. intros (? & ? & _). by constructor. Qed.

Definition bound_fine (ty : FluxType.t) (b : Bound RowValue.t) : Prop := match bound_value b with Some v => fine ty v | None => True end.

Lemma tighter_fine ty a b : bound_fine ty a -> bound_fine ty b -> bound_fine ty (tighter_lower a b) /\ bound_fine ty (tighter_upper a b).
Proof.
  intros Ha Hb. unfold tighter_lower, tighter_upper. destruct (bound_value a), (bound_value b); try done. destruct (cmp_values _ _) as [[]|]; try done.
  by destruct (is_excluded a).
Qed.

Section bounds.
Context (ty : FluxType.t) (Hty : cmp_type ty = true).

Lemma tighter_lower_spec a b x : bound_fine ty a -> bound_fine ty b -> fine ty x ->
  above (tighter_lower a b) x <-> above a x /\ above b x.
Proof using Hty.
  intros Ha Hb Hx. unfold tighter_lower. pose proof (cmp_ordered ty Hty) as Ho. pose proof (fine_typed _ _ Hx) as Tx.
  destruct (bound_value a) as [va|] eqn:Ea; [|destruct a; try done; simpl; tauto].
  destruct (bound_value b) as [vb|] eqn:Eb; [|destruct b; try done; simpl; tauto].
  unfold bound_fine in Ha, Hb. rewrite Ea in Ha. rewrite Eb in Hb. pose proof (fine_typed _ _ Ha) as Ta. pose proof (fine_typed _ _ Hb) as Tb.
  rewrite (cmp_fine ty va vb Hty Ha Hb). pose proof (compare_trans ty Ho va vb x Ta Tb Tx) as T1. pose proof (compare_trans ty Ho vb va x Tb Ta Tx) as T2.
  pose proof (compare_rev ty Ho va vb Ta Tb) as Rv. destruct (value_compare va vb) eqn:C; simpl in Rv.
  - assert (va = vb) as <- by (destruct Ha as (? & ? & _), Hb as (? & ? & _); by apply (value_compare_eq va vb ty)).
    destruct a as [|a|a], b as [|b|b]; simplify_eq/=; (split; [intros; split_and?; done || congruence|intros [??]; done]).
  - split; [|by intros [_ ?]]. intros Hb'. split; [|done].
    assert (value_compare vb x <> Gt) as L by (destruct b; simplify_eq/=; congruence). destruct (T1 ltac:(done) L) as [L1 L2]. specialize (L2 (or_introl eq_refl)).
    destruct a; simplify_eq/=; congruence.
  - split; [|by intros [? _]]. intros Ha'. split; [done|].
    assert (value_compare va x <> Gt) as L by (destruct a; simplify_eq/=; congruence). rewrite Rv in T2. destruct (T2 ltac:(done) L) as [L1 L2]. specialize (L2 (or_introl eq_refl)).
    destruct b; simplify_eq/=; congruence.
Qed.

Lemma tighter_upper_spec a b x : bound_fine ty a -> bound_fine ty b -> fine ty x ->
  IndexKey.below (tighter_upper a b) x <-> IndexKey.below a x /\ IndexKey.below b x.
Proof using Hty.
  intros Ha Hb Hx. unfold tighter_upper. pose proof (cmp_ordered ty Hty) as Ho. pose proof (fine_typed _ _ Hx) as Tx.
  destruct (bound_value a) as [va|] eqn:Ea; [|destruct a; try done; simpl; tauto].
  destruct (bound_value b) as [vb|] eqn:Eb; [|destruct b; try done; simpl; tauto].
  unfold bound_fine in Ha, Hb. rewrite Ea in Ha. rewrite Eb in Hb. pose proof (fine_typed _ _ Ha) as Ta. pose proof (fine_typed _ _ Hb) as Tb.
  rewrite (cmp_fine ty va vb Hty Ha Hb). pose proof (compare_trans ty Ho x va vb Tx Ta Tb) as T1. pose proof (compare_trans ty Ho x vb va Tx Tb Ta) as T2.
  pose proof (compare_rev ty Ho va vb Ta Tb) as Rv. destruct (value_compare va vb) eqn:C; simpl in Rv.
  - assert (va = vb) as <- by (destruct Ha as (? & ? & _), Hb as (? & ? & _); by apply (value_compare_eq va vb ty)).
    destruct a as [|a|a], b as [|b|b]; simplify_eq/=; (split; [intros; split_and?; done || congruence|intros [??]; done]).
  - split; [|by intros [? _]]. intros Ha'. split; [done|].
    assert (value_compare x va <> Gt) as L by (destruct a; simplify_eq/=; congruence). destruct (T1 L ltac:(done)) as [L1 L2]. specialize (L2 (or_intror eq_refl)).
    destruct b; simplify_eq/=; congruence.
  - split; [|by intros [_ ?]]. intros Hb'. split; [|done].
    assert (value_compare x vb <> Gt) as L by (destruct b; simplify_eq/=; congruence). rewrite Rv in T2. destruct (T2 L ltac:(done)) as [L1 L2]. specialize (L2 (or_intror eq_refl)).
    destruct a; simplify_eq/=; congruence.
Qed.

(** A comparison in the filter is a bound of the scan. *)
Lemma value_holds_spec op x v : fine ty x -> fine ty v -> value_holds op x v = true <->
  match op with
  | OpLt => IndexKey.below (Excluded v) x | OpLe => IndexKey.below (Included v) x
  | OpGt => above (Excluded v) x | OpGe => above (Included v) x
  end.
Proof using Hty.
  intros Hx Hv. unfold value_holds. rewrite (cmp_fine ty x v Hty Hx Hv). pose proof (compare_rev ty (cmp_ordered ty Hty) x v (fine_typed _ _ Hx) (fine_typed _ _ Hv)) as R.
  destruct op; simpl; rewrite ?R; destruct (value_compare x v); simpl; split; congruence || done.
Qed.
End bounds.

(** * Typed conditions *)

(** The values of a condition belong to its column's type and are plain; a range
    needs a type with an order. *)
Definition cond_fine (types : list FluxType.t) (c : CompiledCond.t) : Prop :=
  match c with
  | CompiledCond.Eq o v => exists ty, types !! o = Some ty /\ fine ty v
  | CompiledCond.In o vs => exists ty, types !! o = Some ty /\ Forall (fine ty) vs
  | CompiledCond.Between o l h => exists ty, types !! o = Some ty /\ cmp_type ty = true /\ fine ty l /\ fine ty h
  | CompiledCond.Cmp o _ v => exists ty, types !! o = Some ty /\ cmp_type ty = true /\ fine ty v
  end.

(** The values an index holds for a row. *)
Definition fines (tys : list FluxType.t) (vs : row) : Prop := Forall2 (fun v ty => fine ty v) vs tys.

(** The conditions at the given positions hold. *)
Definition holds_at (cs : list CompiledCond.t) (ps : list nat) (r : row) : Prop :=
  forall i c, i ∈ ps -> cs !! i = Some c -> cond_matches c r = true.

Lemma holds_at_snoc cs l i r c : cs !! i = Some c -> holds_at cs (l ++ [i]) r <-> holds_at cs l r /\ cond_matches c r = true.
Proof.
  intros Hc. unfold holds_at. setoid_rewrite elem_of_app. setoid_rewrite list_elem_of_singleton. split.
  - intros H. split; [intros j d Hj Hd; apply (H j d); [by left|done]|apply (H i c); [by right|done]].
  - intros [H1 H2] j d [Hj| ->] Hd; [by apply (H1 j)|]. congruence.
Qed.

Lemma residual_holds cs ps r : forallb (fun c => cond_matches c r) cs = true <-> holds_at cs ps r /\ forallb (fun c => cond_matches c r) (residual_of ps cs) = true.
Proof.
  unfold residual_of, holds_at. rewrite !forallb_forall. setoid_rewrite <- list_elem_of_In.
  assert (forall c, c ∈ (filter (fun p => p.1 ∉ ps) (zip (seq 0 (length cs)) cs)).*2 <-> exists i, cs !! i = Some c /\ i ∉ ps) as E.
  { intros c. rewrite list_elem_of_fmap. setoid_rewrite list_elem_of_filter. split.
    - intros ([i d] & -> & Hn & Hin). apply list_elem_of_lookup in Hin as [k Hk]. apply lookup_zip_with_Some in Hk as (x & y & [= -> ->] & Hs & Hy).
      apply lookup_seq in Hs as [-> _]. simpl in *. eauto.
    - intros (i & Hi & Hn). exists (i, c). split_and!; [done|done|]. apply list_elem_of_lookup. exists i. apply lookup_zip_with_Some. exists i, c.
      split_and!; [done| |done]. apply lookup_seq. split; [done|]. by apply lookup_lt_Some in Hi. }
  setoid_rewrite E. split.
  - intros H. split; [intros i c _ Hc; apply H; by eapply list_elem_of_lookup_2|]. intros c (i & Hi & _). apply H. by eapply list_elem_of_lookup_2.
  - intros [H1 H2] c [i Hi]%list_elem_of_lookup. destruct (decide (i ∈ ps)); eauto.
Qed.

Lemma find_cond_spec {A} (pick : CompiledCond.t -> option A) consumed cs i0 i a : find_cond pick consumed i0 cs = Some (i, a) ->
  exists c, cs !! (i - i0)%nat = Some c /\ (i0 <= i)%nat /\ i ∉ consumed /\ pick c = Some a.
Proof.
  revert i0. induction cs as [|c cs IH]; intros i0; simpl; [done|]. case_bool_decide as Hin.
  - intros (d & Hd & Hle & ?)%IH. exists d. split_and!; [|lia|naive_solver..]. by replace (i - i0)%nat with (S (i - S i0)) by lia.
  - destruct (pick c) as [b|] eqn:Ep.
    + intros [= -> ->]. exists c. rewrite Nat.sub_diag. split_and!; [done|lia|done|done].
    + intros (d & Hd & Hle & ?)%IH. exists d. split_and!; [|lia|naive_solver..]. by replace (i - i0)%nat with (S (i - S i0)) by lia.
Qed.

(** * One candidate *)

Section candidate.
Context (types : list FluxType.t) (cs : list CompiledCond.t) (Hcs : Forall (cond_fine types) cs).

Lemma cond_at i c : cs !! i = Some c -> cond_fine types c.
Proof using Hcs. intros Hc. rewrite Forall_forall in Hcs. apply Hcs. by eapply list_elem_of_lookup_2. Qed.

Lemma eq_matches o ty v c r x : types !! o = Some ty -> cond_fine types c -> pick_eq o c = Some v -> r !! o = Some x -> fine ty x ->
  fine ty v /\ (cond_matches c r = true <-> x = v).
Proof.
  intros Ho Hc Hp Hr Hx. destruct c as [o' v'| | |]; try discriminate Hp. simpl in Hp, Hc. destruct (Nat.eqb_spec o' o) as [->|]; [|done].
  injection Hp as ->. destruct Hc as (ty' & Ho' & Hv). assert (ty' = ty) as -> by congruence. split; [done|]. simpl. rewrite Hr. by apply (value_eq_fine ty).
Qed.

Lemma in_matches o ty vs c r x : types !! o = Some ty -> cond_fine types c -> pick_in o c = Some vs -> r !! o = Some x -> fine ty x ->
  Forall (fine ty) vs /\ (cond_matches c r = true <-> x ∈ vs).
Proof.
  intros Ho Hc Hp Hr Hx. destruct c as [|o' v'| |]; try discriminate Hp. simpl in Hp, Hc. destruct (Nat.eqb_spec o' o) as [->|]; [|done].
  injection Hp as ->. destruct Hc as (ty' & Ho' & Hv). assert (ty' = ty) as -> by congruence. split; [done|]. simpl. rewrite Hr, existsb_exists.
  rewrite Forall_forall in Hv. split.
  - intros (y & Hy & E). apply list_elem_of_In in Hy. apply (value_eq_fine ty) in E; [by subst|by apply Hv|done].
  - intros Hin. exists x. split; [by apply list_elem_of_In|]. by apply (value_eq_fine ty).
Qed.

(** The fine value needed to read off a picked condition's type. *)
Lemma pick_fine o ty c : types !! o = Some ty -> cond_fine types c ->
  (forall v, pick_eq o c = Some v -> fine ty v) /\ (forall vs, pick_in o c = Some vs -> Forall (fine ty) vs).
Proof.
  intros Ho Hc. destruct c as [o' v|o' vs| |]; simpl in *; (split; intros ? Hp; try discriminate Hp); destruct (Nat.eqb_spec o' o) as [->|]; try done;
    injection Hp as <-; destruct Hc as (ty' & Ho' & Hv); by assert (ty' = ty) as -> by congruence.
Qed.

(** The probes extend the given ones by the values of [k] more columns, chosen
    by [Q]; the conditions consumed on the way hold for a row exactly when [Q]
    accepts its values. *)
Definition prefix_exact (columns : list nat) (tys : list FluxType.t) (consumed : list nat) (probes : list row) (n : nat) (res : list row * list nat * nat) : Prop :=
  let '(probes', consumed', n') := res in
  exists k (Q : row -> Prop), n' = (n + k)%nat /\ (k <= length columns)%nat /\
    (forall p', p' ∈ probes' <-> exists p q, p' = p ++ q /\ p ∈ probes /\ Q q) /\
    (forall q, Q q -> fines (firstn k tys) q) /\
    (forall r vs, cols_are (firstn k columns) r vs -> fines (firstn k tys) vs -> holds_at cs consumed' r <-> holds_at cs consumed r /\ Q vs).

Lemma prefix_stop columns tys consumed probes n : prefix_exact columns tys consumed probes n (probes, consumed, n).
Proof using Type.
  exists 0%nat, (fun q => q = []). split_and!; [lia|lia| |intros q ->; constructor|].
  - intros p'. split; [intros Hp; exists p', []; by rewrite app_nil_r|intros (p & q & -> & Hp & ->); by rewrite app_nil_r].
  - intros r vs Hc _. inversion Hc. tauto.
Qed.

(** Condition [i] accepts the values [S0] of the next column. *)
Lemma prefix_step col columns ty tys consumed probes n probes1 i c (S0 : RowValue.t -> Prop) res : cs !! i = Some c -> (forall v, S0 v -> fine ty v) ->
  (forall r x, r !! col = Some x -> fine ty x -> cond_matches c r = true <-> S0 x) ->
  (forall p', p' ∈ probes1 <-> exists p v, p' = p ++ [v] /\ p ∈ probes /\ S0 v) ->
  prefix_exact columns tys (consumed ++ [i]) probes1 (S n) res -> prefix_exact (col :: columns) (ty :: tys) consumed probes n res.
Proof using Type.
  intros Hci HS Hm Hp1. destruct res as [[probes' consumed'] n']. intros (k & Q & -> & Hk & HQ & Hf & Hh).
  exists (S k), (fun q => exists v q', q = v :: q' /\ S0 v /\ Q q'). split_and!; [lia|simpl; lia| | |].
  - intros p'. rewrite HQ. setoid_rewrite Hp1. split.
    + intros (p & q & -> & (p0 & v & -> & Hp0 & Hv) & Hq). exists p0, (v :: q). rewrite <- app_assoc. simpl. eauto 10.
    + intros (p & q & -> & Hp & v & q' & -> & Hv & Hq). exists (p ++ [v]), q'. rewrite <- app_assoc. simpl. eauto 10.
  - intros q (v & q' & -> & Hv & Hq). simpl. constructor; [by apply HS|by apply Hf].
  - intros r vs Hc Hv. simpl in Hc, Hv. inversion Hc as [|? x ? vs' Hx Hc']; subst. inversion Hv as [|???? Hfx Hv']; subst.
    rewrite (Hh r vs' Hc' Hv'), (holds_at_snoc _ _ _ _ _ Hci), (Hm r x Hx Hfx). split.
    + intros [[Hh1 Hh2] Hq]. split; [done|]. by exists x, vs'.
    + intros [Hh1 (v & q' & [= -> ->] & Hs & Hq)]. done.
Qed.

Lemma equality_prefix_spec columns : forall tys consumed probes n, Forall2 (fun o ty => types !! o = Some ty) columns tys ->
  prefix_exact columns tys consumed probes n (equality_prefix cs columns consumed probes n).
Proof using Hcs.
  induction columns as [|col columns IH]; intros tys consumed probes n Ht; cbn [equality_prefix]; [apply prefix_stop|].
  inversion Ht as [|? ty ? tys' Hty Ht']; subst. destruct (find_cond (pick_eq col) consumed 0 cs) as [[i v]|] eqn:Ee.
  - apply find_cond_spec in Ee as (c & Hci & _ & _ & Hp). rewrite Nat.sub_0_r in Hci. pose proof (cond_at _ _ Hci) as Hfc.
    eapply (prefix_step _ _ _ _ _ _ _ _ i c (fun x => x = v) _ Hci); [| | |by apply IH].
    + intros ? ->. by apply (pick_fine col ty c Hty Hfc).
    + intros r x Hr Hx. by apply (eq_matches col ty v c r x).
    + intros p'. rewrite list_elem_of_fmap. split; [intros (p & -> & Hp'); eauto|intros (p & ? & -> & Hp' & ->); eauto].
  - destruct (find_cond (pick_in col) consumed 0 cs) as [[i vs]|] eqn:Ei; [|apply prefix_stop]. destruct (_ || _); [apply prefix_stop|].
    apply find_cond_spec in Ei as (c & Hci & _ & _ & Hp). rewrite Nat.sub_0_r in Hci. pose proof (cond_at _ _ Hci) as Hfc.
    eapply (prefix_step _ _ _ _ _ _ _ _ i c (fun x => x ∈ vs) _ Hci); [| | |by apply IH].
    + intros v Hv. destruct (pick_fine col ty c Hty Hfc) as [_ Hf]. specialize (Hf vs Hp). rewrite Forall_forall in Hf. by apply Hf.
    + intros r x Hr Hx. by apply (in_matches col ty vs c r x).
    + intros p'. rewrite list_elem_of_In, in_flat_map. setoid_rewrite in_map_iff. setoid_rewrite <- list_elem_of_In. naive_solver.
Qed.

(** ** The interval *)

Lemma fold_range_spec col ty lower upper c l u : types !! col = Some ty -> cond_fine types c -> bound_fine ty lower -> bound_fine ty upper ->
  fold_range col lower upper c = Some (l, u) ->
  bound_fine ty l /\ bound_fine ty u /\
  forall r x, r !! col = Some x -> fine ty x -> above l x /\ IndexKey.below u x <-> (above lower x /\ IndexKey.below upper x) /\ cond_matches c r = true.
Proof.
  intros Hty Hc Hl Hu E. destruct c as [| |o low high|o op v]; try discriminate E; simpl in E, Hc; destruct (Nat.eqb_spec o col) as [->|]; try discriminate E;
    destruct Hc as (ty' & Ht' & Hcmp & Hv); assert (ty' = ty) as -> by congruence; injection E as E.
  - subst l u. destruct Hv as [Hlow Hhigh]. split_and!; [by apply tighter_fine|by apply tighter_fine|]. intros r x Hr Hx.
    rewrite (tighter_lower_spec ty Hcmp), (tighter_upper_spec ty Hcmp) by done.
    simpl. rewrite Hr, andb_true_iff, (value_holds_spec ty Hcmp OpGe), (value_holds_spec ty Hcmp OpLe) by done. simpl. tauto.
  - destruct op; injection E as <- <-; (split_and!; [try done; by apply tighter_fine|try done; by apply tighter_fine|]); intros r x Hr Hx;
      rewrite ?(tighter_lower_spec ty Hcmp), ?(tighter_upper_spec ty Hcmp) by done; simpl; rewrite Hr, (value_holds_spec ty Hcmp) by done; simpl; tauto.
Qed.

Lemma fold_ranges_spec col ty : types !! col = Some ty -> forall suf i consumed lower upper has lower' upper' consumed' has', drop i cs = suf ->
  bound_fine ty lower -> bound_fine ty upper -> fold_ranges col i suf consumed lower upper has = (lower', upper', consumed', has') ->
  bound_fine ty lower' /\ bound_fine ty upper' /\ exists more : row -> Prop, forall r x, r !! col = Some x -> fine ty x ->
    (holds_at cs consumed' r <-> holds_at cs consumed r /\ more r) /\
    (above lower' x /\ IndexKey.below upper' x <-> (above lower x /\ IndexKey.below upper x) /\ more r).
Proof using Hcs.
  intros Hty. induction suf as [|c suf IH]; intros i consumed lower upper has lower' upper' consumed' has' Hs Hl Hu; cbn [fold_ranges].
  - intros [= <- <- <- <-]. split_and!; [done..|]. exists (fun _ => True). tauto.
  - assert (cs !! i = Some c) as Hc by (rewrite <- (Nat.add_0_r i), <- lookup_drop, Hs; done).
    assert (drop (S i) cs = suf) as Hs' by (rewrite <- Nat.add_1_r, <- drop_drop, Hs; done).
    destruct (if bool_decide (i ∈ consumed) then None else fold_range col lower upper c) as [[l u]|] eqn:E; [|by apply IH].
    case_bool_decide; [done|]. destruct (fold_range_spec col ty lower upper c l u Hty (cond_at _ _ Hc) Hl Hu E) as (Hl' & Hu' & Hr).
    intros Ef. destruct (IH _ _ _ _ _ _ _ _ _ Hs' Hl' Hu' Ef) as (? & ? & more & H'). split_and!; [done..|].
    exists (fun r => cond_matches c r = true /\ more r). intros r x Hx Hfx.
    destruct (H' r x Hx Hfx) as [E1 E2]. specialize (Hr r x Hx Hfx). rewrite E1, E2, (holds_at_snoc _ _ _ _ _ Hc), Hr. tauto.
Qed.

(** ** The whole candidate *)

Lemma fines_typed tys vs : fines tys vs -> typed tys vs.
Proof using Type. intros H. eapply Forall2_impl; [exact H|]. by intros v ty (? & ? & _). Qed.

Lemma bound_fine_typed ty b : bound_fine ty b -> bound_typed ty b.
Proof using Type. destruct b; [done| |]; intros; by apply fine_typed. Qed.

(** What a scan over the columns of an index selects, for the probes and the
    interval of a candidate. *)
Definition scan_selects (columns : list nat) (scan : IndexScanPlan) (r : row) : Prop :=
  exists p, p ∈ isp_probes scan /\ scan_matches columns p (isp_lower scan) (isp_upper scan) r.

Section one_candidate.
Context (index_id_of : list Z -> list (list Z) -> IndexId) (t : QueryTable) (order : option OrderSpec).
Context (columns : list nat) (tys : list FluxType.t) (Htys : Forall2 (fun o ty => types !! o = Some ty) columns tys).
Context (cand : Candidate) (Hcand : index_candidate index_id_of t cs order columns = Some cand).
Notation scan := (ca_scan cand).

(** The parts of a candidate, from the computation that made it. *)
Lemma candidate_parts : exists k (Q : row -> Prop), (k <= length columns)%nat /\
  (forall p, p ∈ isp_probes scan <-> Q p) /\ (forall p, Q p -> fines (firstn k tys) p) /\
  (match columns !! k with
   | Some col => exists ty, types !! col = Some ty /\ bound_fine ty (isp_lower scan) /\ bound_fine ty (isp_upper scan)
   | None => isp_lower scan = Unbounded /\ isp_upper scan = Unbounded
   end) /\
  (forall r vs, cols_are columns r vs -> fines tys vs -> holds_at cs (ca_consumed cand) r <->
     Q (firstn k vs) /\ match vs !! k with Some x => above (isp_lower scan) x /\ IndexKey.below (isp_upper scan) x | None => True end).
Proof using Hcand Hcs Htys.
  revert Hcand. unfold index_candidate. pose proof (equality_prefix_spec columns tys [] [[]] 0 Htys) as Hp.
  destruct (equality_prefix cs columns [] [[]] 0) as [[probes consumed] n]. destruct Hp as (k & Q & -> & Hk & HQ & Hf & Hh). rewrite Nat.add_0_l.
  assert (forall p, p ∈ merge_sort probe_le probes <-> Q p) as HQ'.
  { intros p. rewrite (merge_sort_Permutation probe_le probes), HQ. split; [intros (? & q & -> & ->%list_elem_of_singleton & Hq); done|intros Hq; exists [], p; split; [done|split; [by left|done]]]. }
  assert (forall r vs, cols_are columns r vs -> fines tys vs -> holds_at cs consumed r <-> Q (firstn k vs)) as Hh'.
  { intros r vs Hc Hv. rewrite (Hh r (firstn k vs)); [|by apply Forall2_take|by apply Forall2_take]. unfold holds_at at 1. split; [by intros [_ ?]|intros Hq; split; [intros ? ? []%not_elem_of_nil|done]]. }
  destruct (columns !! k) as [col|] eqn:Ecol.
  - destruct (Forall2_lookup_l _ _ _ _ _ Htys Ecol) as (ty & Ety & Hty).
    destruct (fold_ranges col 0 cs consumed Unbounded Unbounded false) as [[[l u] consumed'] has] eqn:Er.
    destruct (fold_ranges_spec col ty Hty cs 0 consumed Unbounded Unbounded false l u consumed' has (drop_0 cs) I I Er) as (Hl & Hu & more & Hm).
    destruct (_ && _ && _); [done|]. intros [= <-]. simpl. exists k, Q. split_and!; [done|done|done| |].
    + rewrite Ecol. by exists ty.
    + intros r vs Hc Hv. destruct (Forall2_lookup_l _ _ _ _ _ Hc Ecol) as (x & Ex & Hx). rewrite Ex.
      assert (fine ty x) as Hfx. { destruct (Forall2_lookup_l _ _ _ _ _ Hv Ex) as (ty' & Ety' & ?). congruence. }
      destruct (Hm r x Hx Hfx) as [E1 E2]. simpl in E2. rewrite E1, (Hh' r vs Hc Hv). tauto.
  - destruct (_ && _ && _); [done|]. intros [= <-]. simpl. exists k, Q. split_and!; [done|done|done|by rewrite Ecol|].
    intros r vs Hc Hv. rewrite (Hh' r vs Hc Hv). assert (vs !! k = None) as -> by (apply lookup_ge_None; rewrite <- (Forall2_length _ _ _ Hc); by apply lookup_ge_None).
    tauto.
Qed.

(** A row meets every condition exactly when the scan selects it and the
    conditions left over hold. *)
Lemma candidate_exact r vs : cols_are columns r vs -> fines tys vs ->
  forallb (fun c => cond_matches c r) cs = true <->
  scan_selects columns scan r /\ forallb (fun c => cond_matches c r) (residual_of (ca_consumed cand) cs) = true.
Proof using Hcand Hcs Htys.
  intros Hc Hv. rewrite (residual_holds cs (ca_consumed cand)). destruct candidate_parts as (k & Q & Hk & HQ & Hf & _ & Hh). rewrite (Hh r vs Hc Hv).
  apply and_iff_compat_r. unfold scan_selects, scan_matches. setoid_rewrite HQ. split.
  - intros [Hq Hx]. exists (firstn k vs). assert (length (firstn k vs) = k) as ->.
    { rewrite length_take, <- (Forall2_length _ _ _ Hc). lia. } split_and!; [done|by apply Forall2_take|].
    intros o x Ho Hrx. destruct (Forall2_lookup_l _ _ _ _ _ Hc Ho) as (x' & Ex & Hx'). rewrite Ex in Hx. by assert (x' = x) as -> by congruence.
  - intros (p & Hp & Hcp & Hx). pose proof (Forall2_length _ _ _ (Hf p Hp)) as Hlp. rewrite length_take in Hlp. pose proof (Forall2_length _ _ _ Htys).
    assert (length p = k) as El by lia. rewrite El in *. assert (p = firstn k vs) as -> by (eapply cols_are_fun; [exact Hcp|by apply Forall2_take]).
    split; [done|]. destruct (vs !! k) as [x|] eqn:Ex; [|done]. destruct (Forall2_lookup_r _ _ _ _ _ Hc Ex) as (o & Ho & Hrx). by apply (Hx o x).
Qed.

(** Every probe is a well-typed scan of the index. *)
Lemma candidate_typed p : p ∈ isp_probes scan -> scan_typed tys p (isp_lower scan) (isp_upper scan).
Proof using Hcand Hcs Htys.
  intros Hp. destruct candidate_parts as (k & Q & Hk & HQ & Hf & Hb & _). apply HQ, Hf in Hp. pose proof (Forall2_length _ _ _ Htys) as Hl.
  pose proof (Forall2_length _ _ _ Hp) as Hlp. rewrite length_take in Hlp. assert (length p = k) as El by lia. unfold scan_typed. rewrite El. split_and!; [lia|by apply fines_typed|].
  destruct (columns !! k) as [col|] eqn:Ecol.
  - destruct Hb as (ty & Hty & ? & ?). destruct (Forall2_lookup_l _ _ _ _ _ Htys Ecol) as (ty' & -> & Hty'). assert (ty' = ty) as -> by congruence. by split; apply bound_fine_typed.
  - assert (tys !! k = None) as -> by (apply lookup_ge_None; rewrite <- Hl; by apply lookup_ge_None). done.
Qed.

Lemma candidate_probe_length p q : p ∈ isp_probes scan -> q ∈ isp_probes scan -> length p = length q.
Proof using Hcand Hcs Htys.
  destruct candidate_parts as (k & Q & Hk & HQ & Hf & _ & _). rewrite !HQ. intros H1%Hf%Forall2_length H2%Hf%Forall2_length. congruence.
Qed.
End one_candidate.
End candidate.
