(* ===== verification/Mask.v ===== *)
(** Column-level read policies of [transform/mask.rs]: who may read a column's
    value and what everyone else receives.

    SHA-256 is a parameter. [redacted_inhabits]: the zero value stands in for a
    column of every type but enums and structs. [mask_hides]: what a viewer
    receives does not depend on the columns withheld from them. *)

From stdpp Require Import base list numbers strings.
From Stdlib Require Import ZArith Lia.
From S2P Require Import Prelude FluxBin Row IndexKey Ieee SqlText.

Inductive GrantScope : Type := GrantPublic | GrantOwner | GrantServerPeer | GrantRole (role : list Z).

Inductive MaskStrategy : Type := MaskNull | MaskRedact | MaskCiphertext | MaskHash.

Record ColumnPolicy : Type := {
  po_ordinal : nat;
  po_grant : GrantScope;
  po_mask : MaskStrategy;
  po_ty : FluxType.t;
  po_encrypted : bool;
}.

Record TablePolicy : Type := { po_columns : list ColumnPolicy; po_owner : option nat }.

Definition is_identity (v : option RowValue.t) (viewer : list Z) : bool :=
  match v with Some (RowValue.Identity id) => bool_decide (id = viewer) | _ => false end.

Definition authorized (p : ColumnPolicy) (owner : option nat) (viewer : list Z) (roles : list (list Z)) (r : row) : bool :=
  match po_grant p with
  | GrantPublic => true
  | GrantServerPeer => false
  | GrantRole role => existsb (fun x => bool_decide (x = role)) roles
  | GrantOwner => match owner with Some o => is_identity (r !! o) viewer | None => false end
  end.

(** The zero or empty value of a type. *)
Definition redacted (ty : FluxType.t) : RowValue.t :=
  match ty with
  | FluxType.Bool => RowValue.Bool false
  | FluxType.I8 => RowValue.I8 0 | FluxType.I16 => RowValue.I16 0 | FluxType.I32 => RowValue.I32 0 | FluxType.I64 => RowValue.I64 0
  | FluxType.U8 => RowValue.U8 0 | FluxType.U16 => RowValue.U16 0 | FluxType.U32 => RowValue.U32 0 | FluxType.U64 => RowValue.U64 0
  | FluxType.F32 => RowValue.F32 0 | FluxType.F64 => RowValue.F64 0
  | FluxType.Str => RowValue.Str []
  | FluxType.Bytes | FluxType.CrdtText => RowValue.Bytes []
  | FluxType.Identity => RowValue.Identity (replicate 32 0)
  | FluxType.ConnectionId => RowValue.ConnectionId 0
  | FluxType.EntityId => RowValue.EntityId 0
  | FluxType.Timestamp => RowValue.Timestamp 0
  | FluxType.Decimal => RowValue.Decimal 0 0
  | FluxType.Blob => RowValue.Blob (replicate 32 0)
  | FluxType.Option _ => RowValue.Optional None
  | FluxType.List _ => RowValue.List []
  | FluxType.Enum _ => RowValue.Enum 0 []
  | FluxType.Struct _ => RowValue.Struct []
  end.

Lemma redacted_inhabits ty : match ty with FluxType.Enum _ | FluxType.Struct _ => True | _ => matches_type (redacted ty) ty = true /\ value_ok (redacted ty) = true end.
Proof. by destruct ty. Qed.

(** [format!("{b:02x}")]. *)
Definition hex_digit (n : Z) : Z := if n <? 10 then 48 + n else 87 + n.
Definition hex (bs : list Z) : list Z := flat_map (fun b => [hex_digit (b / 16); hex_digit (b mod 16)]) bs.

Section mask.
Context (sha256 : list Z -> list Z).

Definition mask_value (p : ColumnPolicy) (original current : RowValue.t) : RowValue.t :=
  match po_mask p with
  | MaskNull => match po_ty p with FluxType.Option _ => RowValue.Optional None | ty => redacted ty end
  | MaskRedact => redacted (po_ty p)
  | MaskCiphertext =>
      if po_encrypted p then
        match po_ty p, original with
        | FluxType.Bytes, RowValue.Bytes _ => original
        | FluxType.Str, RowValue.Bytes sealed => RowValue.Str (hex sealed)
        | ty, _ => redacted ty
        end
      else redacted (po_ty p)
  | MaskHash =>
      match (match current with RowValue.Str s => Some s | RowValue.Bytes b => Some b | _ => None end) with
      | None => redacted (po_ty p)
      | Some bytes =>
          match po_ty p with
          | FluxType.Str => RowValue.Str (hex (sha256 bytes))
          | FluxType.Bytes => RowValue.Bytes (sha256 bytes)
          | ty => redacted ty
          end
      end
  end.

(** The loop of [SubscriptionManager::project_row] over a table's policies. *)
Definition mask_columns (policy : TablePolicy) (viewer : list Z) (roles : list (list Z)) (r : row) (values : row) : row :=
  fold_left (fun values c =>
    if authorized c (po_owner policy) viewer roles r then values
    else match r !! po_ordinal c, values !! po_ordinal c with
      | Some original, Some current => <[po_ordinal c := mask_value c original current]> values
      | _, _ => values
      end) (po_columns policy) values.

(** * What a viewer learns *)

(** A column the viewer receives a constant for. *)
Definition withheld (policy : TablePolicy) (viewer : list Z) (roles : list (list Z)) (r : row) (c : ColumnPolicy) : bool :=
  negb (authorized c (po_owner policy) viewer roles r) && match po_mask c with MaskNull | MaskRedact => true | _ => false end.

(** Rows that differ in withheld columns only. *)
Definition alike (policy : TablePolicy) (viewer : list Z) (roles : list (list Z)) (r r' : row) : Prop :=
  length r = length r' /\ (forall o, po_owner policy = Some o -> r !! o = r' !! o) /\
  forall o, r !! o = r' !! o \/ exists c, c ∈ po_columns policy /\ po_ordinal c = o /\ withheld policy viewer roles r c = true.

Lemma authorized_owner c owner viewer roles r r' : (forall o, owner = Some o -> r !! o = r' !! o) -> authorized c owner viewer roles r = authorized c owner viewer roles r'.
Proof using Type. intros Ho. unfold authorized. destruct (po_grant c); try done. destruct owner as [o|]; [|done]. by rewrite (Ho o). Qed.

Lemma withheld_value policy viewer roles r c a b a' b' : withheld policy viewer roles r c = true -> mask_value c a b = mask_value c a' b'.
Proof using Type. unfold withheld, mask_value. intros [_ H]%andb_true_iff. by destruct (po_mask c). Qed.

Section fold.
Context (policy : TablePolicy) (viewer : list Z) (roles : list (list Z)) (r r' : row).
Context (Hl : length r = length r') (Ho : forall o, po_owner policy = Some o -> r !! o = r' !! o).
Notation step x := (fun values c => if authorized c (po_owner policy) viewer roles x then values else match x !! po_ordinal c, values !! po_ordinal c with
  | Some original, Some current => <[po_ordinal c := mask_value c original current]> values | _, _ => values end).

(** Along the columns, the two projections differ where a withheld column is
    still to come. *)
Lemma mask_fold cs : forall vs vs' : row, NoDup (map po_ordinal cs) -> length vs = length r -> length vs' = length r ->
  (forall c, c ∈ cs -> vs !! po_ordinal c = r !! po_ordinal c /\ vs' !! po_ordinal c = r' !! po_ordinal c) ->
  (forall o, vs !! o = vs' !! o \/ exists c, c ∈ cs /\ po_ordinal c = o /\ withheld policy viewer roles r c = true) ->
  fold_left (step r) cs vs = fold_left (step r') cs vs'.
Proof using Hl Ho.
  induction cs as [|c cs IH]; intros vs vs' Hn L1 L2 Hc Hv.
  { simpl. apply list_eq. intros o. destruct (Hv o) as [|(c & Hc' & _)]; [done|]. by apply elem_of_nil in Hc'. }
  simpl. apply NoDup_cons in Hn as [Hnc Hn]. rewrite <- (authorized_owner c (po_owner policy) viewer roles r r') by done.
  assert (forall c', c' ∈ cs -> po_ordinal c' <> po_ordinal c) as Hne by (intros c' Hc' E; apply Hnc; rewrite <- E; by apply list_elem_of_fmap_2).
  destruct (authorized c (po_owner policy) viewer roles r) eqn:Ea.
  - apply IH; [done|done|done|intros; apply Hc; by right|]. intros o. destruct (Hv o) as [|(c' & [->|Hc']%elem_of_cons & Eo & Hw)]; [by left| |right; by exists c'].
    unfold withheld in Hw. by rewrite Ea in Hw.
  - destruct (Hc c ltac:(left)) as [E1 E2]. rewrite E1, E2. destruct (r !! po_ordinal c) as [v|] eqn:Er.
    2: { assert (r' !! po_ordinal c = None) as -> by (apply lookup_ge_None; rewrite <- Hl; by apply lookup_ge_None).
      apply IH; [done|done|done|intros; apply Hc; by right|]. intros o. destruct (Hv o) as [|(c' & [->|Hc']%elem_of_cons & Eo & Hw)]; [by left| |right; by exists c'].
      left. subst o. rewrite E1, E2. symmetry. apply lookup_ge_None. rewrite <- Hl. by apply lookup_ge_None. }
    destruct (lookup_lt_is_Some_2 r' (po_ordinal c)) as [v' Er']; [rewrite <- Hl; by eapply lookup_lt_Some|]. rewrite Er'.
    assert (mask_value c v v = mask_value c v' v') as Em.
    { destruct (Hv (po_ordinal c)) as [E|(c' & [->|Hc']%elem_of_cons & Eo & Hw)]; [rewrite E1, E2, Er' in E; by injection E as ->|by eapply withheld_value|]. by destruct (Hne c' Hc'). }
    apply IH; [done|by rewrite length_insert|by rewrite length_insert| |].
    + intros c' Hc'. specialize (Hne c' Hc'). rewrite !list_lookup_insert_ne by congruence. apply Hc. by right.
    + intros o. destruct (decide (o = po_ordinal c)) as [->|Hoc].
      * left. rewrite !list_lookup_insert_eq by (rewrite ?L1, ?L2; by eapply lookup_lt_Some). by f_equal.
      * rewrite !list_lookup_insert_ne by congruence. destruct (Hv o) as [|(c' & [->|Hc']%elem_of_cons & Eo & Hw)]; [by left|congruence|right; by exists c'].
Qed.
End fold.

(** C27: what a viewer receives does not depend on withheld columns. Two rows that
    differ only in columns the viewer may not read, and that are masked by a null
    or redacted value, are projected to the same row. *)
Theorem mask_hides policy viewer roles r r' : NoDup (map po_ordinal (po_columns policy)) -> alike policy viewer roles r r' ->
  mask_columns policy viewer roles r r = mask_columns policy viewer roles r' r'.
Proof using Type.
  intros Hn (Hl & Ho & Hd). by apply (mask_fold policy viewer roles r r' Hl Ho).
Qed.
End mask.

(** An employee's salary is withheld from everyone but a role. *)
Definition salary_policy : TablePolicy := {|
  po_columns := [{| po_ordinal := 1; po_grant := GrantRole (bytes "payroll"); po_mask := MaskRedact; po_ty := FluxType.U64; po_encrypted := false |}]; po_owner := None |}.

Lemma mask_hides_witness : mask_columns (fun bs => bs) salary_policy [] [] [RowValue.U64 1; RowValue.U64 900] [RowValue.U64 1; RowValue.U64 900] =
  mask_columns (fun bs => bs) salary_policy [] [] [RowValue.U64 1; RowValue.U64 7] [RowValue.U64 1; RowValue.U64 7].
Proof.
  apply mask_hides; [repeat constructor; apply not_elem_of_nil|]. split; [done|]. split; [done|]. intros [|[|o]]; [by left| |by left].
  right. eexists. split; [by left|]. done.
Defined.
