(* ===== verification/MatView.v ===== *)
(** Materialized views of [subscription/matview.rs]: aggregates per group and
    sorted windows, maintained from the delta rows of each commit.

    Removing a row undoes adding it and the order of additions does not matter, so
    the state after any commits is the state a rebuild from the committed rows gives
    ([views_incremental], file [MatViewProps]), for views that sum no floats: the
    float accumulator of [SUM] and [AVG] depends on the order of additions. *)

From stdpp Require Import base list gmap sorting numbers strings.
From Stdlib Require Import ZArith Lia SpecFloat.
From S2P Require Import Prelude FluxBin Row IndexKey TxState LogRecord TableState MemStore StoreBuild Ieee SqlText FullText Query RowList.

(** * Declarations *)

Inductive MvAggregate : Type := MvCount | MvSum (column : list Z) | MvMin (column : list Z) | MvMax (column : list Z) | MvAvg (column : list Z).

Definition mv_column (agg : MvAggregate) : option (list Z) :=
  match agg with MvCount => None | MvSum c | MvMin c | MvMax c | MvAvg c => Some c end.

Record MvTopN : Type := { mt_column : list Z; mt_descending : bool; mt_limit : Z }.

Record MaterializedViewDef : Type := {
  mv_name : list Z;
  mv_table : list Z;
  mv_aggregate : option MvAggregate;
  mv_group_by : option (list Z);
  mv_top_n : option MvTopN;
}.

Inductive ViewKind : Type :=
  | Aggregate (agg : MvAggregate) (value group : option nat)
  | TopN (ordinal : nat) (descending : bool) (limit : nat).

Record ResolvedView : Type := {
  rv_name : list Z;
  rv_table : TableId;
  rv_schema : TableSchema;
  rv_kind : ViewKind;
}.

(** The ways a declaration does not fit its table. *)
Inductive ViewError : Type :=
  | ViewColumn (name : list Z)
  | ViewNotNumeric
  | ViewLimitZero
  | ViewBoth
  | ViewNeither
  | ViewRow (e : StorageError)
  | ViewStore (e : StoreError)
  | ViewDiverged (name : list Z).

Definition numeric_type (ty : FluxType.t) : bool :=
  match ty with
  | FluxType.I8 | FluxType.I16 | FluxType.I32 | FluxType.I64 | FluxType.U8 | FluxType.U16 | FluxType.U32 | FluxType.U64
  | FluxType.F32 | FluxType.F64 => true
  | _ => false
  end.

Definition is_sum (agg : MvAggregate) : bool := match agg with MvSum _ | MvAvg _ => true | _ => false end.

(** [opt.map(f).transpose()?]. *)
Definition transpose {A B E} (f : A -> result E B) (o : option A) : result E (option B) :=
  match o with Some a => f a ≫= fun b => Ok (Some b) | None => Ok None end.

Definition resolve (table_id_of : list Z -> TableId) (def : MaterializedViewDef) (t : QueryTable) : result ViewError ResolvedView :=
  let ordinal_of name := from_option (ViewColumn name) (column_position (qt_columns t) name) in
  (match mv_aggregate def, mv_top_n def with
   | Some agg, None =>
       transpose ordinal_of (mv_column agg) ≫= fun value =>
       if is_sum agg && match value with Some o => negb (match qt_types t !! o with Some ty => numeric_type ty | None => false end) | None => false end
       then Err ViewNotNumeric
       else transpose ordinal_of (mv_group_by def) ≫= fun group => Ok (Aggregate agg value group)
   | None, Some top =>
       if mt_limit top =? 0 then Err ViewLimitZero
       else ordinal_of (mt_column top) ≫= fun o => Ok (TopN o (mt_descending top) (Z.to_nat (mt_limit top)))
   | Some _, Some _ => Err ViewBoth
   | None, None => Err ViewNeither
   end) ≫= fun kind =>
  Ok {| rv_name := mv_name def; rv_table := table_id_of (mv_table def); rv_schema := qt_schema t; rv_kind := kind |}.

(** * State *)

Record GroupAcc : Type := {
  ga_group : option RowValue.t;
  ga_count : Z;
  ga_sum_int : Z;
  ga_sum_float : spec_float;
  ga_values : gmap (list Z) (RowValue.t * Z);
}.

Definition acc_default : GroupAcc :=
  {| ga_group := None; ga_count := 0; ga_sum_int := 0; ga_sum_float := S754_zero false; ga_values := ∅ |}.

Record ViewState : Type := {
  vs_groups : gmap (list Z) GroupAcc;
  vs_ordered : gmap (list Z) (RowValue.t * list Z);
}.

Definition state_default : ViewState := {| vs_groups := ∅; vs_ordered := ∅ |}.

Inductive Numeric : Type := NInt (n : Z) | NFloat (x : spec_float).

(** [f64::from(f32)] is exact. *)
Definition widen (bits : Z) : spec_float :=
  match float_of 32 bits with
  | S754_finite s m e => binary_normalize (prec 64) (emax 64) (cond_Zopp s (Zpos m)) e s
  | f => f
  end.

Definition numeric_of (v : RowValue.t) : option Numeric :=
  match v with
  | RowValue.I8 n | RowValue.I16 n | RowValue.I32 n | RowValue.I64 n
  | RowValue.U8 n | RowValue.U16 n | RowValue.U32 n | RowValue.U64 n => Some (NInt n)
  | RowValue.F32 x => Some (NFloat (widen x))
  | RowValue.F64 x => Some (NFloat (float_of 64 x))
  | _ => None
  end.

Definition f64_add (x y : spec_float) : spec_float := SFadd (prec 64) (emax 64) x y.
Definition f64_neg (x : spec_float) : spec_float := SFopp x.
Definition f64_div (x y : spec_float) : spec_float := SFdiv (prec 64) (emax 64) x y.
Definition f64_of_Z (n : Z) : spec_float := binary_normalize (prec 64) (emax 64) n 0 false.

(** [RowValue::Str("*")]. *)
Definition star : RowValue.t := RowValue.Str (bytes "*").

Definition group_of (group : option nat) (r : row) : RowValue.t :=
  match group with Some o => default star (r !! o) | None => star end.

(** One value added to ([sign] 1) or removed from ([sign] -1) a group's multiset. *)
Definition count_value (v : RowValue.t) (sign : Z) (values : gmap (list Z) (RowValue.t * Z)) : gmap (list Z) (RowValue.t * Z) :=
  let key := encode_value v in
  let '(x, n) := default (v, 0) (values !! key) in
  if n + sign <=? 0 then delete key values else <[key := (x, n + sign)]> values.

Definition add_value (value : option nat) (r : row) (sign : Z) (acc : GroupAcc) : GroupAcc :=
  match value ≫= fun o => r !! o with
  | None => acc
  | Some v =>
      {| ga_group := ga_group acc; ga_count := ga_count acc;
         ga_sum_int := (match numeric_of v with Some (NInt n) => ga_sum_int acc + sign * n | _ => ga_sum_int acc end);
         ga_sum_float := (match numeric_of v with
           | Some (NFloat x) => f64_add (ga_sum_float acc) (if sign =? 1 then x else f64_neg x)
           | _ => ga_sum_float acc
           end);
         ga_values := count_value v sign (ga_values acc) |}
  end.

Definition add_group (g : RowValue.t) (sign : Z) (acc : GroupAcc) : GroupAcc :=
  {| ga_group := Some (default g (ga_group acc)); ga_count := ga_count acc + sign;
     ga_sum_int := ga_sum_int acc; ga_sum_float := ga_sum_float acc; ga_values := ga_values acc |}.

(** The key of a window entry: the sort value, inverted for a descending
    window, then the primary key. *)
Definition window_key (descending : bool) (v : RowValue.t) (pk : list Z) : list Z :=
  (if descending then map (fun b => 255 - b) (encode_value v) else encode_value v) ++ pk.

Definition apply_row (view : ResolvedView) (st : ViewState) (r : row) (sign : Z) : result ViewError ViewState :=
  match rv_kind view with
  | Aggregate _ value group =>
      let g := group_of group r in
      let key := encode_value g in
      let acc := add_value value r sign (add_group g sign (default acc_default (vs_groups st !! key))) in
      Ok {| vs_groups := if ga_count acc <=? 0 then delete key (vs_groups st) else <[key := acc]> (vs_groups st);
            vs_ordered := vs_ordered st |}
  | TopN o descending _ =>
      match r !! o with
      | None => Ok st
      | Some v =>
          match encode_pk_of_row (rv_schema view) r with
          | Err e => Err (ViewRow e)
          | Ok pk =>
              let key := window_key descending v pk in
              Ok {| vs_groups := vs_groups st;
                    vs_ordered := if 0 <? sign then <[key := (v, pk)]> (vs_ordered st) else delete key (vs_ordered st) |}
          end
      end
  end.

Fixpoint apply_rows (view : ResolvedView) (st : ViewState) (rs : list row) (sign : Z) : result ViewError ViewState :=
  match rs with
  | [] => Ok st
  | r :: rs => apply_row view st r sign ≫= fun st => apply_rows view st rs sign
  end.

(** [init_from_views] for one view: the scanned rows added one by one. *)
Definition rebuild (view : ResolvedView) (rs : list row) : result ViewError ViewState := apply_rows view state_default rs 1.

(** * Rendering *)

Definition aggregate_value (agg : MvAggregate) (acc : GroupAcc) : RowValue.t :=
  let total := f64_add (ga_sum_float acc) (f64_of_Z (ga_sum_int acc)) in
  match agg with
  | MvCount => RowValue.I64 (ga_count acc)
  | MvSum _ =>
      match SFcompare (ga_sum_float acc) (S754_zero false) with
      | Some Eq => RowValue.I64 (if in_i 64 (ga_sum_int acc) then ga_sum_int acc else 2 ^ 63 - 1)
      | _ => RowValue.F64 (bits_of 64 total)
      end
  | MvAvg _ => RowValue.F64 (bits_of 64 (if ga_count acc =? 0 then S754_zero false else f64_div total (f64_of_Z (ga_count acc))))
  | MvMin _ => match btree_values (ga_values acc) with (v, _) :: _ => v | [] => RowValue.I64 0 end
  | MvMax _ => match last (btree_values (ga_values acc)) with Some (v, _) => v | None => RowValue.I64 0 end
  end.

(** [u32::try_from(rank + 1).unwrap_or(u32::MAX)]. *)
Definition rank_value (rank : nat) : RowValue.t := RowValue.U32 (Z.min (Z.of_nat rank + 1) (u_max 32)).

Definition render_all (view : ResolvedView) (st : ViewState) : list row :=
  match rv_kind view with
  | Aggregate agg _ _ => map (fun acc => [default star (ga_group acc); aggregate_value agg acc]) (btree_values (vs_groups st))
  | TopN _ _ limit =>
      imap (fun rank e => [rank_value rank; e.1; RowValue.Bytes e.2]) (firstn limit (btree_values (vs_ordered st)))
  end.

(** * Commits *)

Record TableUpdate : Type := {
  tu_table_id : TableId;
  tu_table_name : list Z;
  tu_query_id : Z;
  tu_inserts : RowList.RowList;
  tu_deletes : RowList.RowList;
}.

(** The encoded key of a rendered row: its first value. *)
Definition view_key (values : row) : result ViewError (list Z) :=
  match values with
  | v :: _ => map_err ViewRow (encode_row [v])
  | [] => Err ViewNeither
  end.

Fixpoint key_rows (rs : list row) : result ViewError (gmap (list Z) row) :=
  match rs with
  | [] => Ok ∅
  | r :: rs => view_key r ≫= fun k => key_rows rs ≫= fun m => Ok (<[k := default r (m !! k)]> m)
  end.

(** Rows of [after] that are new or changed, with their keys. *)
Definition changed_rows (before after : gmap (list Z) row) : list (list Z * row) :=
  List.filter (fun kv => match before !! kv.1 with Some old => negb (row_eq old kv.2) | None => true end) (map_to_list after).

(** Keys to delete: of changed rows that were there, and of rows that left. *)
Definition deleted_keys (before after : gmap (list Z) row) : list (list Z) :=
  filter (fun k => is_Some (before !! k)) (changed_rows before after).*1 ++
  filter (fun k => after !! k = None) (map_to_list before).*1.

Definition encode_rows (rs : list row) : result StorageError RowList.RowList :=
  collect encode_row rs ≫= fun bs => Ok (RowList.finish (fold_left RowList.push_row bs RowList.new)).

(** One view's part of [on_commit]: the new state, and the update when a
    rendered row changed. *)
Definition view_on_commit (table_id_of : list Z -> TableId) (diff : TxDiff) (view : ResolvedView) (st : ViewState)
    : result ViewError (ViewState * option TableUpdate) :=
  match find (fun td => td_table_id td =? rv_table view) (diff_tables diff) with
  | None => Ok (st, None)
  | Some td =>
      let before := render_all view st in
      apply_rows view st (td_deletes td).*2 (-1) ≫= fun st =>
      apply_rows view st (td_inserts td) 1 ≫= fun st =>
      let after := render_all view st in
      if forallb2 row_eq before after then Ok (st, None)
      else
        key_rows before ≫= fun before_map =>
        key_rows after ≫= fun after_map =>
        map_err ViewRow (encode_rows (changed_rows before_map after_map).*2) ≫= fun inserts =>
        let deletes := deleted_keys before_map after_map in
        if bool_decide (changed_rows before_map after_map = []) && bool_decide (deletes = []) then Ok (st, None)
        else Ok (st, Some {| tu_table_id := table_id_of (rv_name view); tu_table_name := rv_name view; tu_query_id := 0;
                             tu_inserts := inserts; tu_deletes := RowList.finish (fold_left RowList.push_row deletes RowList.new) |})
  end.

(** * The engine *)

(** Resolved views with their states. *)
Notation MatViewEngine := (list (ResolvedView * ViewState)).

Section engine.
Context (table_id_of : list Z -> TableId).

(** [init_from_views]. *)
Definition init_from_views (scan : TableId -> result StoreError (list row)) (views : list ResolvedView) : result ViewError (list ViewState) :=
  collect (fun view => map_err ViewStore (scan (rv_table view)) ≫= fun rs => rebuild view rs) views.

(** [MatViewEngine::init]: declarations over tables the schema does not have are
    skipped. *)
Definition engine_init (schema : list QueryTable) (defs : list MaterializedViewDef) (scan : TableId -> result StoreError (list row)) : result ViewError MatViewEngine :=
  collect (fun p => resolve table_id_of p.1 p.2)
    (omap (fun def => (fun t => (def, t)) <$> find_table schema (mv_table def)) defs) ≫= fun views =>
  init_from_views scan views ≫= fun states => Ok (zip views states).

Definition snapshot_rows (engine : MatViewEngine) (name : list Z) : result ViewError (option TableUpdate) :=
  match find (fun vs => bool_decide (rv_name vs.1 = name)) engine with
  | None => Ok None
  | Some (view, st) =>
      map_err ViewRow (encode_rows (render_all view st)) ≫= fun inserts =>
      Ok (Some {| tu_table_id := table_id_of (rv_name view); tu_table_name := rv_name view; tu_query_id := 0;
                  tu_inserts := inserts; tu_deletes := RowList.empty |})
  end.

(** [MatViewEngine::on_commit]. *)
Fixpoint engine_on_commit (diff : TxDiff) (engine : MatViewEngine) : result ViewError (MatViewEngine * list (list Z * TableUpdate)) :=
  match engine with
  | [] => Ok ([], [])
  | (view, st) :: engine =>
      view_on_commit table_id_of diff view st ≫= fun '(st, update) =>
      engine_on_commit diff engine ≫= fun '(engine, out) =>
      Ok ((view, st) :: engine, match update with Some u => (rv_name view, u) :: out | None => out end)
  end.
End engine.

(** [PartialEq] of the accumulators, and of the states as ordered maps. *)
Definition acc_eq (a b : GroupAcc) : bool :=
  (match ga_group a, ga_group b with Some x, Some y => value_eq x y | None, None => true | _, _ => false end) &&
  (ga_count a =? ga_count b) && (ga_sum_int a =? ga_sum_int b) &&
  (match SFcompare (ga_sum_float a) (ga_sum_float b) with Some Eq => true | _ => false end) &&
  forallb2 (fun x y => bool_decide (x.1 = y.1) && value_eq x.2.1 y.2.1 && (x.2.2 =? y.2.2)) (btree_entries (ga_values a)) (btree_entries (ga_values b)).

Definition eq_state (a b : ViewState) : bool :=
  forallb2 (fun x y => bool_decide (x.1 = y.1) && acc_eq x.2 y.2) (btree_entries (vs_groups a)) (btree_entries (vs_groups b)) &&
  forallb2 (fun x y => bool_decide (x.1 = y.1) && value_eq x.2.1 y.2.1 && bool_decide (x.2.2 = y.2.2)) (btree_entries (vs_ordered a)) (btree_entries (vs_ordered b)).

Definition validate_against (scan : TableId -> result StoreError (list row)) (engine : MatViewEngine) : result ViewError unit :=
  init_from_views scan engine.*1 ≫= fun fresh =>
  match find (fun p => negb (eq_state p.1.2 p.2)) (zip engine fresh) with
  | Some ((view, _), _) => Err (ViewDiverged (rv_name view))
  | None => Ok tt
  end.
