(* ===== verification/Subscription.v ===== *)
(** The subscription manager of [subscription/mod.rs] and
    [subscription/manager.rs]: registration, snapshot evaluation, the fan-out of a
    commit and resumption.

    The manager is a record; an operation that takes [&mut self], or changes it
    through an atomic or a mutex, passes it on. Maps and sets of the source's
    hash tables are [gmap] and [gset]; where the code iterates over a hash table
    the order is unspecified, and the model takes that of [map_to_list].

    Not in the model: the plugin hooks and the transform engine ([plugins] and
    [transforms] are [None], as in a manager without [set_plugins] and
    [set_transforms]), the metrics counters, the JSON forms. Spatial and
    full-text candidates come from the side indexes ([SideQuery]); the wall clock
    is [past_deadline]. *)

From stdpp Require Import base list gmap sorting numbers strings.
From Stdlib Require Import ZArith Lia.
From S2P Require Import Prelude FluxBin Row IndexKey TxState LogRecord PageFormat PagedTree KvTree TableState MemStore StoreBuild Ieee SqlText FullText Query RowList Crdt Mask MatView.

(** * Data *)

Record Subscriber : Type := { sb_identity : list Z; sb_server_peer : bool; sb_roles : list (list Z) }.

Record MembershipSpec : Type := {
  ms_protected : TableId;
  ms_member_table : TableId;
  ms_key_in_protected : nat;
  ms_key_in_member : nat;
  ms_identity_in_member : nat;
}.

(** A member's identity and the encoded join key. *)
Notation MemberSet := (gset (list Z * list Z)).

Record QueryBounds : Type := {
  qb_default_limit : Z;
  qb_max_limit : Z;
  qb_reject_over_max : bool;
  qb_row_scan_budget : Z;
  qb_deadline_ms : Z;
}.

Record SubscriptionLimits : Type := {
  max_subscriptions_per_connection : Z;
  max_compiled_plans : Z;
  resume_window_deltas : Z;
}.

Record QueryState : Type := {
  qs_plan : CompiledPlan;
  qs_subscribers : gset Z;
  qs_viewer : option (list Z);
  qs_roles : list (list Z);
}.

Inductive SubError : Type :=
  | SubSql (e : SqlError)
  | SubStore (e : StoreError)
  | SubView (e : ViewError)
  | SubTableNotPublic
  | SubUnknownTable
  | SubUnknownView
  | SubLimitExceeded (which : string)
  | SqlLimitRejected
  | ScanBudgetExceeded
  | DeadlineExceeded.

Record InitialData : Type := {
  id_schema_version : Z;
  id_tx_offset : Z;
  id_cache_reset : bool;
  id_tables : list TableUpdate;
}.

Record Subscribed : Type := { sd_query_id : Z; sd_initial : InitialData }.

Record QueryDelta : Type := {
  qd_query_hash : Z;
  qd_update : TableUpdate;
  qd_subscribers : list (Z * Z);
}.

(** ** Retained deltas *)

Record DeltaWindow : Type := { dw_entries : list (Z * TableUpdate); dw_trimmed_before : Z }.

Definition window_default : DeltaWindow := {| dw_entries := []; dw_trimmed_before := 0 |}.

(** The loop that evicts from the front while more than [cap] entries are kept. *)
Fixpoint evict (cap : Z) (entries : list (Z * TableUpdate)) (trimmed : Z) : DeltaWindow :=
  match entries with
  | [] => {| dw_entries := []; dw_trimmed_before := trimmed |}
  | e :: rest =>
      if cap <? Z.of_nat (length entries) then evict cap rest e.1
      else {| dw_entries := entries; dw_trimmed_before := trimmed |}
  end.

Definition window_push (d : DeltaWindow) (offset : Z) (update : TableUpdate) (cap : Z) : DeltaWindow :=
  evict (Z.max cap 1) (dw_entries d ++ [(offset, update)]) (dw_trimmed_before d).

Definition can_resume (d : DeltaWindow) (from_offset : Z) : bool := dw_trimmed_before d <=? from_offset.

Definition since (d : DeltaWindow) (from_offset : Z) : list (Z * TableUpdate) := filter (fun e => from_offset < e.1) (dw_entries d).

Inductive Resumed : Type := ResumeDeltas (deltas : list (Z * TableUpdate)) | ResumeReset (initial : InitialData).

(** ** The manager *)

(** What is fixed when the manager is assembled. *)
Record SubEnv : Type := {
  se_schema : list QueryTable;
  se_limits : SubscriptionLimits;
  se_schema_version : Z;
  se_fts_analyzers : gmap TableId (list (nat * Analyzer));
  se_policies : gmap TableId TablePolicy;
  se_membership : list MembershipSpec;
  se_views : list MaterializedViewDef;
  se_bounds : QueryBounds;
}.

(** The pruning indexes: the value tier with the columns it probes, the full-text
    tier and the fallback. *)
Record Tiers : Type := {
  ti_search_args : gmap (TableId * nat * list Z) (gset Z);
  ti_indexed_columns : gmap TableId (gmap nat Z);
  ti_fts_terms : gmap (TableId * list Z) (gset Z);
  ti_fts_prefixes : gmap TableId (list (list Z * Z));
  ti_table_watchers : gmap TableId (gset Z);
}.

Definition tiers_empty : Tiers :=
  {| ti_search_args := ∅; ti_indexed_columns := ∅; ti_fts_terms := ∅; ti_fts_prefixes := ∅; ti_table_watchers := ∅ |}.

Record Manager : Type := {
  sm_queries : gmap Z QueryState;
  sm_last_offset : Z;
  sm_windows : gmap Z DeltaWindow;
  sm_connections : gmap Z (gmap Z Z);
  sm_next_query_id : gmap Z Z;
  sm_tiers : Tiers;
  sm_matviews : MatViewEngine;
  sm_members : list MemberSet;
  sm_view_subs : gmap (list Z) (gset Z);
  sm_conn_views : gmap Z (gset (list Z));
}.

Section updates.
Context (m : Manager).
Definition set_queries x0 : Manager := Build_Manager x0 (sm_last_offset m) (sm_windows m) (sm_connections m) (sm_next_query_id m) (sm_tiers m) (sm_matviews m) (sm_members m) (sm_view_subs m) (sm_conn_views m).
Definition set_offset x0 : Manager := Build_Manager (sm_queries m) x0 (sm_windows m) (sm_connections m) (sm_next_query_id m) (sm_tiers m) (sm_matviews m) (sm_members m) (sm_view_subs m) (sm_conn_views m).
Definition set_windows x0 : Manager := Build_Manager (sm_queries m) (sm_last_offset m) x0 (sm_connections m) (sm_next_query_id m) (sm_tiers m) (sm_matviews m) (sm_members m) (sm_view_subs m) (sm_conn_views m).
Definition set_handles x0 x1 : Manager := Build_Manager (sm_queries m) (sm_last_offset m) (sm_windows m) x0 x1 (sm_tiers m) (sm_matviews m) (sm_members m) (sm_view_subs m) (sm_conn_views m).
Definition set_tiers x0 : Manager := Build_Manager (sm_queries m) (sm_last_offset m) (sm_windows m) (sm_connections m) (sm_next_query_id m) x0 (sm_matviews m) (sm_members m) (sm_view_subs m) (sm_conn_views m).
Definition set_derived x0 x1 : Manager := Build_Manager (sm_queries m) (sm_last_offset m) (sm_windows m) (sm_connections m) (sm_next_query_id m) (sm_tiers m) x0 x1 (sm_view_subs m) (sm_conn_views m).
Definition set_view_subs x0 x1 : Manager := Build_Manager (sm_queries m) (sm_last_offset m) (sm_windows m) (sm_connections m) (sm_next_query_id m) (sm_tiers m) (sm_matviews m) (sm_members m) x0 x1.
End updates.

(** * Assembly *)

Section assembly.
Context (table_id_of : list Z -> TableId).

(** The analyzers of the full-text columns, per table. *)
Definition fts_analyzers_of (t : QueryTable) : list (nat * Analyzer) :=
  omap (fun ix => match ix with
    | FullText col e sw st => Some (col, {| language := if e then English else Simple; stop_words := sw; stemming := st |})
    | _ => None
    end) (qt_indexes t).

Definition fts_analyzers (schema : list QueryTable) : gmap TableId (list (nat * Analyzer)) :=
  fold_left (fun acc t =>
    match fts_analyzers_of t with
    | [] => acc
    | l => <[table_id_of (qt_name t) := default [] (acc !! table_id_of (qt_name t)) ++ l]> acc
    end) schema ∅.

Fixpoint position_of {A} (p : A -> bool) (l : list A) : option nat :=
  match l with [] => None | x :: l => if p x then Some O else S <$> position_of p l end.

Definition membership_spec (schema : list QueryTable) (t : QueryTable) : option MembershipSpec :=
  match qt_visibility t with
  | MemberOf member key =>
      match find_table schema member with
      | None => None
      | Some mt =>
          match column_position (qt_columns t) key, column_position (qt_columns mt) key,
                position_of (fun ty => bool_decide (ty = FluxType.Identity)) (qt_types mt) with
          | Some kp, Some km, Some im =>
              Some {| ms_protected := table_id_of (qt_name t); ms_member_table := table_id_of member;
                      ms_key_in_protected := kp; ms_key_in_member := km; ms_identity_in_member := im |}
          | _, _, _ => None
          end
      end
  | _ => None
  end.

(** [SubscriptionManager::new]. *)
Definition env_new (schema : list QueryTable) (limits : SubscriptionLimits) (version : Z) (policies : gmap TableId TablePolicy) (bounds : QueryBounds) (views : list MaterializedViewDef) : SubEnv := {|
  se_schema := schema; se_limits := limits; se_schema_version := version; se_fts_analyzers := fts_analyzers schema;
  se_policies := policies; se_membership := omap (membership_spec schema) schema; se_views := views; se_bounds := bounds |}.

Definition manager_new (env : SubEnv) : Manager := {|
  sm_queries := ∅; sm_last_offset := 0; sm_windows := ∅; sm_connections := ∅; sm_next_query_id := ∅; sm_tiers := tiers_empty;
  sm_matviews := []; sm_members := map (fun _ => ∅) (se_membership env);
  sm_view_subs := ∅; sm_conn_views := ∅ |}.
End assembly.

(** * Visibility *)

Definition membership_entry (spec : MembershipSpec) (r : row) : option (list Z * list Z) :=
  match r !! ms_identity_in_member spec with
  | Some (RowValue.Identity id) => (fun v => (id, encode_value v)) <$> r !! ms_key_in_member spec
  | _ => None
  end.

(** [visible]: the owner rule of the plan. *)
Definition owner_visible (plan : CompiledPlan) (r : row) (viewer : option (list Z)) : bool :=
  match viewer, cp_rls plan with
  | Some id, Some owner => is_identity (r !! owner) id
  | _, _ => true
  end.

Definition row_visible (env : SubEnv) (members : list MemberSet) (plan : CompiledPlan) (r : row) (viewer : option (list Z)) : bool :=
  if negb (owner_visible plan r viewer) then false
  else
    match viewer with
    | None => true
    | Some id =>
        match position_of (fun spec => ms_protected spec =? cp_table_id plan) (se_membership env) with
        | None => true
        | Some i =>
            match se_membership env !! i, members !! i with
            | Some spec, Some set =>
                match r !! ms_key_in_protected spec with
                | Some v => bool_decide ((id, encode_value v) ∈ set)
                | None => false
                end
            | _, _ => false
            end
        end
    end.

(** The membership sets after a commit: deletes before inserts. *)
Definition members_after (specs : list MembershipSpec) (diff : TxDiff) (members : list MemberSet) : list MemberSet :=
  zip_with (fun spec set =>
    match find (fun td => td_table_id td =? ms_member_table spec) (diff_tables diff) with
    | None => set
    | Some td =>
        let set := fold_left (fun s old => match membership_entry spec old with Some e => s ∖ {[e]} | None => s end) (td_deletes td).*2 set in
        fold_left (fun s r => match membership_entry spec r with Some e => s ∪ {[e]} | None => s end) (td_inserts td) set
    end) specs members.

(** * Bounds on a read *)

Section bounds.
Context (b : QueryBounds).

Definition effective_limit (plan_limit : option Z) : result SubError (option Z) :=
  let limit := match plan_limit with Some n => Some n | None => if 0 <? qb_default_limit b then Some (qb_default_limit b) else None end in
  match limit with
  | Some n =>
      if (0 <? qb_max_limit b) && (qb_max_limit b <? n) then
        if qb_reject_over_max b && bool_decide (is_Some plan_limit) then Err SqlLimitRejected else Ok (Some (qb_max_limit b))
      else Ok (Some n)
  | None => Ok None
  end.

Inductive QueryAbortReason : Type := AbortScanBudget | AbortDeadline.

Record ScanGuard : Type := { sg_scanned : Z; sg_aborted : option QueryAbortReason }.

Definition guard_new : ScanGuard := {| sg_scanned := 0; sg_aborted := None |}.

Definition DEADLINE_POLL_ROWS : Z := 256.

(** When the clock is read: at a row, after the scan, after the sort. *)
Inductive Poll : Type := PollRow (scanned : Z) | PollScan | PollSort.

Context (past_deadline : Poll -> bool).

Definition guard_admits (g : ScanGuard) : bool * ScanGuard :=
  match sg_aborted g with
  | Some _ => (false, g)
  | None =>
      let scanned := sg_scanned g + 1 in
      if (0 <? qb_row_scan_budget b) && (qb_row_scan_budget b <? scanned)
      then (false, {| sg_scanned := scanned; sg_aborted := Some AbortScanBudget |})
      else if (scanned mod DEADLINE_POLL_ROWS =? 0) && (0 <? qb_deadline_ms b) && past_deadline (PollRow scanned)
      then (false, {| sg_scanned := scanned; sg_aborted := Some AbortDeadline |})
      else (true, {| sg_scanned := scanned; sg_aborted := None |})
  end.

Definition guard_finish (poll : Poll) (g : ScanGuard) : result SubError unit :=
  match sg_aborted g with
  | Some AbortScanBudget => Err ScanBudgetExceeded
  | Some AbortDeadline => Err DeadlineExceeded
  | None => if (0 <? qb_deadline_ms b) && past_deadline poll then Err DeadlineExceeded else Ok tt
  end.

(** The loop over candidate rows that stops once the guard refuses one. *)
Fixpoint filter_rows {A} (keep : A -> bool) (rs : list A) (g : ScanGuard) : list A * ScanGuard :=
  match rs with
  | [] => ([], g)
  | r :: rs =>
      let '(ok, g) := guard_admits g in
      if ok then let '(out, g) := filter_rows keep rs g in (if keep r then r :: out else out, g) else ([], g)
  end.

(** The loop of an index scan: kept rows are appended to [acc]; it stops at the
    early-stop count and at an abort. The flag says that it stopped. *)
Fixpoint scan_rows (keep : row -> bool) (early : option Z) (rs : list row) (acc : list row) (g : ScanGuard) : list row * ScanGuard * bool :=
  match rs with
  | [] => (acc, g, false)
  | r :: rs =>
      let '(ok, g) := guard_admits g in
      if ok && keep r then
        let acc := acc ++ [r] in
        if match early with Some n => n <=? Z.of_nat (length acc) | None => false end then (acc, g, true)
        else scan_rows keep early rs acc g
      else if bool_decide (is_Some (sg_aborted g)) then (acc, g, true)
      else scan_rows keep early rs acc g
  end.
End bounds.

(** * Snapshot evaluation *)

(** A pinned committed state with the pages it reads. *)
Record Snapshot (W T X : Type) : Type := { sn_world : W; sn_state : CommittedState T X }.
Arguments sn_world {W T X} _.
Arguments sn_state {W T X} _.
Arguments Build_Snapshot {W T X} _ _.

(** The spatial and full-text candidates of a snapshot; a [MATCH] returns each
    row with its score. *)
Class SideQuery (W T X : Type) := {
  spatial_candidates : Snapshot W T X -> TableId -> SpatialConstraint -> result StoreError (list row);
  fulltext_match : Snapshot W T X -> TableId -> FtsQuery -> result StoreError (list (row * Z));
}.

(** Encoded rows and keys of an update. *)
Definition encode_full_rows (rs : list row) : result StorageError RowList.RowList := encode_rows rs.

Definition encode_pk_rows (schema : TableSchema) (rs : list row) : result StorageError RowList.RowList :=
  collect (encode_pk_of_row schema) rs ≫= fun bs => Ok (RowList.finish (fold_left RowList.push_row bs RowList.new)).

(** [sort_by] on a column: stable, with incomparable values left equal. *)
Definition order_le (o : OrderSpec) (a b : row) : bool :=
  match a !! os_column o, b !! os_column o with
  | Some x, Some y =>
      match cmp_values x y with
      | Some Lt => negb (os_descending o)
      | Some Gt => os_descending o
      | _ => true
      end
  | _, _ => true
  end.

Definition order_rel (o : OrderSpec) (a b : row) : Prop := order_le o a b = true.
#[global] Instance order_rel_dec o : RelDecision (order_rel o).
Proof. intros a b. unfold order_rel. apply _. Defined.

Definition score_le (descending : bool) (a b : row * Z) : bool :=
  match partial_cmp 64 a.2 b.2 with
  | Some Lt => negb descending
  | Some Gt => descending
  | _ => true
  end.

Definition score_rel (descending : bool) (a b : row * Z) : Prop := score_le descending a b = true.
#[global] Instance score_rel_dec d : RelDecision (score_rel d).
Proof. intros a b. unfold score_rel. apply _. Defined.

Section manager.
Context {W T X : Type} {KT : KvTree W T} {RC : RowCodec} {U : Unicode} {SQ : SideQuery W T X}.
Context (table_id_of : list Z -> TableId) (index_id_of : list Z -> list (list Z) -> IndexId).
Context (hash64 : list Z -> Z -> Z) (sha256 : list Z -> list Z) (past_deadline : Poll -> bool).
Context (unpack_state : list Z -> option Crdt.CrdtText) (pack_ops : list Crdt.TextOp -> list Z).
Context (env : SubEnv).
Notation Snap := (Snapshot W T X).

Definition table_schema (id : TableId) : result SubError QueryTable :=
  from_option SubUnknownTable (find (fun t => table_id_of (qt_name t) =? id) (se_schema env)).

Definition is_client_visible (a : TableAccess) : bool := match a with Public | Ephemeral => true | _ => false end.
Definition qt_access (t : QueryTable) : TableAccess := ti_access (decl_info (qt_decl t)).

(** [project_row] without a transform engine. *)
Definition project_row (id : TableId) (r : row) (viewer : option (list Z)) (roles : list (list Z)) : row :=
  match se_policies env !! id, viewer with
  | Some policy, Some v => mask_columns sha256 policy v roles r r
  | _, _ => r
  end.

(** Rows at the cursor's value up to and including its key. *)
Definition cursor_skip (schema : TableSchema) (plan : CompiledPlan) (boundary : option (list Z)) (r : row) : bool :=
  match cp_cursor plan, boundary, cp_order_by plan with
  | Some cursor, Some boundary, Some order =>
      match r !! os_column order with
      | None => false
      | Some v =>
          match cmp_values v (ks_order_value cursor) with
          | Some Eq =>
              match encode_pk_of_row schema r with
              | Err _ => false
              | Ok pk => match lex_compare pk boundary with Eq => true | Lt => negb (os_descending order) | Gt => os_descending order end
              end
          | _ => false
          end
      end
  | _, _, _ => false
  end.

Definition residual_keep (members : list MemberSet) (schema : TableSchema) (plan : CompiledPlan) (boundary : option (list Z)) (viewer : option (list Z)) (r : row) : bool :=
  negb (cursor_skip schema plan boundary r) && forallb (fun c => cond_matches c r) (cp_residual plan) && row_visible env members plan r viewer.

(** The loop over the probes. *)
Fixpoint scan_probes (w : W) (ts : TableState T X) (keep : row -> bool) (early : option Z) (descending : bool) (scan : IndexScanPlan)
    (probes : list row) (acc : list row) (g : ScanGuard) : result StoreError (list row * ScanGuard) :=
  match probes with
  | [] => Ok (acc, g)
  | p :: probes =>
      index_scan w ts (isp_index_id scan) p (isp_lower scan) (isp_upper scan) ≫= fun range =>
      let '(acc, g, stopped) := scan_rows (se_bounds env) past_deadline keep early (if descending then reverse range else range) acc g in
      if stopped then Ok (acc, g) else scan_probes w ts keep early descending scan probes acc g
  end.

Definition index_scan_rows (members : list MemberSet) (plan : CompiledPlan) (scan : IndexScanPlan) (viewer : option (list Z)) (sn : Snap) (schema : TableSchema)
    (limit : option Z) (g : ScanGuard) : result SubError (list row * ScanGuard) :=
  (match cp_cursor plan with
   | Some c => map_err (fun e => SubStore (RowError e)) (encode_pk_values schema [ks_pk_value c]) ≫= fun b => Ok (Some b)
   | None => Ok None
   end) ≫= fun boundary =>
  let early := if cp_ordered_by_index plan then limit else None in
  let descending := match cp_order_by plan with Some o => os_descending o && cp_ordered_by_index plan | None => false end in
  map_err SubStore (from_option (UnknownTable (cp_table_id plan)) (cs_tables (sn_state sn) !! cp_table_id plan) ≫= fun ts =>
    scan_probes (sn_world sn) ts (residual_keep members schema plan boundary viewer) early descending scan (isp_probes scan) [] g).

(** The candidate rows of a plan that its filter and the viewer's rules keep,
    each with a score for a [MATCH]. *)
Definition candidate_rows (members : list MemberSet) (plan : CompiledPlan) (viewer : option (list Z)) (sn : Snap) (schema : TableSchema) (limit : option Z)
    : result SubError (list (row * Z) * ScanGuard) :=
  let keep r := plan_matches plan r && row_visible env members plan r viewer in
  let unscored rs := map (fun r : row => (r, 0)) rs in
  match cp_fts plan, cp_spatial plan, cp_access plan with
  | Some fts, None, _ =>
      map_err SubStore (fulltext_match sn (cp_table_id plan) fts) ≫= fun scored =>
      Ok (filter_rows (se_bounds env) past_deadline (fun p => keep p.1) scored guard_new)
  | None, Some c, _ =>
      map_err SubStore (spatial_candidates sn (cp_table_id plan) c) ≫= fun rs =>
      let '(rs, g) := filter_rows (se_bounds env) past_deadline keep rs guard_new in Ok (unscored rs, g)
  | None, None, IndexScan scan =>
      index_scan_rows members plan scan viewer sn schema limit guard_new ≫= fun '(rs, g) => Ok (unscored rs, g)
  | _, _, _ =>
      map_err SubStore (from_option (UnknownTable (cp_table_id plan)) (cs_tables (sn_state sn) !! cp_table_id plan) ≫= fun ts => all_rows (sn_world sn) ts) ≫= fun rs =>
      let '(rs, g) := filter_rows (se_bounds env) past_deadline keep rs guard_new in Ok (unscored rs, g)
  end.

(** Ordering and the row limit, which apply to a snapshot only. *)
Definition order_rows (plan : CompiledPlan) (rs : list (row * Z)) : list row :=
  match cp_order_by_score plan with
  | Some descending => (merge_sort (score_rel descending) rs).*1
  | None =>
      match cp_order_by plan with
      | Some o => if cp_ordered_by_index plan then rs.*1 else merge_sort (order_rel o) rs.*1
      | None => rs.*1
      end
  end.

Definition initial_rows (members : list MemberSet) (plan : CompiledPlan) (viewer : option (list Z)) (roles : list (list Z)) (sn : Snap) : result SubError (list row) :=
  table_schema (cp_table_id plan) ≫= fun t =>
  effective_limit (se_bounds env) (cp_limit plan) ≫= fun limit =>
  candidate_rows members plan viewer sn (qt_schema t) limit ≫= fun '(rs, g) =>
  guard_finish (se_bounds env) past_deadline PollScan g ≫= fun _ =>
  let rs := order_rows plan rs in
  let rs := match limit with Some n => firstn (Z.to_nat n) rs | None => rs end in
  guard_finish (se_bounds env) past_deadline PollSort g ≫= fun _ =>
  Ok (map (fun r => project_row (cp_table_id plan) r viewer roles) rs).

Definition initial_data (m : Manager) (plan : CompiledPlan) (viewer : option (list Z)) (roles : list (list Z)) (sn : Snap) : result SubError InitialData :=
  table_schema (cp_table_id plan) ≫= fun t =>
  initial_rows (sm_members m) plan viewer roles sn ≫= fun rs =>
  map_err (fun e => SubStore (RowError e)) (encode_full_rows rs) ≫= fun inserts =>
  Ok {| id_schema_version := se_schema_version env; id_tx_offset := sm_last_offset m; id_cache_reset := false;
        id_tables := [{| tu_table_id := cp_table_id plan; tu_table_name := qt_name t; tu_query_id := 0; tu_inserts := inserts; tu_deletes := RowList.empty |}] |}.

(** * Pruning indexes *)

Definition search_key (plan : CompiledPlan) : option (TableId * nat * list Z) :=
  match cp_equalities plan with
  | (col, v) :: _ => match encode_row [v] with Ok k => Some (cp_table_id plan, col, k) | Err _ => None end
  | [] => None
  end.

(** Insertion into and removal from a map of sets; a set never stays empty. *)
Definition set_add {K} `{Countable K} (k : K) (h : Z) (m : gmap K (gset Z)) : gmap K (gset Z) := <[k := default ∅ (m !! k) ∪ {[h]}]> m.
Definition set_drop {K} `{Countable K} (k : K) (h : Z) (m : gmap K (gset Z)) : gmap K (gset Z) :=
  match m !! k with
  | Some s => if bool_decide (s ∖ {[h]} = ∅) then delete k m else <[k := s ∖ {[h]}]> m
  | None => m
  end.

Definition index_plan (hash : Z) (plan : CompiledPlan) (t : Tiers) : Tiers :=
  let id := cp_table_id plan in
  match search_key plan with
  | Some key =>
      let col := key.1.2 in
      let cols := default ∅ (ti_indexed_columns t !! id) in
      {| ti_search_args := set_add key hash (ti_search_args t);
         ti_indexed_columns := <[id := <[col := default 0 (cols !! col) + 1]> cols]> (ti_indexed_columns t);
         ti_fts_terms := ti_fts_terms t; ti_fts_prefixes := ti_fts_prefixes t; ti_table_watchers := ti_table_watchers t |}
  | None =>
      match cp_fts plan with
      | Some q =>
          {| ti_search_args := ti_search_args t; ti_indexed_columns := ti_indexed_columns t;
             ti_fts_terms := fold_left (fun m term => set_add (id, term) hash m) (pruning_terms q).1 (ti_fts_terms t);
             ti_fts_prefixes := fold_left (fun m p => <[id := default [] (m !! id) ++ [(p, hash)]]> m) (pruning_terms q).2 (ti_fts_prefixes t);
             ti_table_watchers := ti_table_watchers t |}
      | None =>
          {| ti_search_args := ti_search_args t; ti_indexed_columns := ti_indexed_columns t; ti_fts_terms := ti_fts_terms t;
             ti_fts_prefixes := ti_fts_prefixes t; ti_table_watchers := set_add id hash (ti_table_watchers t) |}
      end
  end.

(** The reference count of a probed column goes down; empty maps go. *)
Definition drop_column (id : TableId) (col : nat) (m : gmap TableId (gmap nat Z)) : gmap TableId (gmap nat Z) :=
  match m !! id with
  | None => m
  | Some cols =>
      let cols := match cols !! col with
        | Some n => if n - 1 =? 0 then delete col cols else <[col := n - 1]> cols
        | None => cols
        end in
      if bool_decide (cols = ∅) then delete id m else <[id := cols]> m
  end.

Definition deindex_plan (hash : Z) (plan : CompiledPlan) (t : Tiers) : Tiers :=
  let id := cp_table_id plan in
  match search_key plan with
  | Some key =>
      {| ti_search_args := set_drop key hash (ti_search_args t); ti_indexed_columns := drop_column id key.1.2 (ti_indexed_columns t);
         ti_fts_terms := ti_fts_terms t; ti_fts_prefixes := ti_fts_prefixes t; ti_table_watchers := ti_table_watchers t |}
  | None =>
      match cp_fts plan with
      | Some q =>
          {| ti_search_args := ti_search_args t; ti_indexed_columns := ti_indexed_columns t;
             ti_fts_terms := fold_left (fun m term => set_drop (id, term) hash m) (pruning_terms q).1 (ti_fts_terms t);
             ti_fts_prefixes :=
               (match (pruning_terms q).2, ti_fts_prefixes t !! id with
                | _ :: _, Some l =>
                    match List.filter (fun e => negb ((e.2 =? hash) && existsb (fun p => bool_decide (p = e.1)) (pruning_terms q).2)) l with
                    | [] => delete id (ti_fts_prefixes t)
                    | l => <[id := l]> (ti_fts_prefixes t)
                    end
                | _, _ => ti_fts_prefixes t
                end);
             ti_table_watchers := ti_table_watchers t |}
      | None =>
          {| ti_search_args := ti_search_args t; ti_indexed_columns := ti_indexed_columns t; ti_fts_terms := ti_fts_terms t;
             ti_fts_prefixes := ti_fts_prefixes t; ti_table_watchers := set_drop id hash (ti_table_watchers t) |}
      end
  end.

(** ** Candidates *)

Definition select_by_value (t : Tiers) (id : TableId) (r : row) : gset Z :=
  ⋃ (map (fun col =>
    match r !! col with
    | Some v => match encode_row [v] with Ok k => default ∅ (ti_search_args t !! (id, col, k)) | Err _ => ∅ end
    | None => ∅
    end) (map_to_list (default ∅ (ti_indexed_columns t !! id))).*1).

(** The text [select_by_fts_terms] analyzes: of a list, its strings. *)
Definition fts_text (v : option RowValue.t) : option (list Z) :=
  match v with
  | Some (RowValue.Str s) => Some s
  | Some (RowValue.Optional (Some (RowValue.Str s))) => Some s
  | Some (RowValue.List values) => Some (join (omap str_of values))
  | _ => None
  end.

Definition select_by_fts_terms (t : Tiers) (id : TableId) (r : row) : gset Z :=
  ⋃ (map (fun ca =>
    match fts_text (r !! ca.1) with
    | None => ∅
    | Some text =>
        ⋃ (map (fun tp =>
          default ∅ (ti_fts_terms t !! (id, tp.1)) ∪
          list_to_set (omap (fun e => if starts_with tp.1 e.1 then Some e.2 else None) (default [] (ti_fts_prefixes t !! id))))
          (analyze ca.2 text))
    end) (default [] (se_fts_analyzers env !! id))).

Definition candidate_plans (t : Tiers) (diff : TxDiff) : gset Z :=
  ⋃ (map (fun td =>
    default ∅ (ti_table_watchers t !! td_table_id td) ∪
    ⋃ (map (fun r => select_by_value t (td_table_id td) r ∪ select_by_fts_terms t (td_table_id td) r) (td_inserts td ++ (td_deletes td).*2)))
    (diff_tables diff)).

(** * Evaluation of a commit *)

(** [crdt_ordinals]. *)
Definition crdt_ordinals (t : QueryTable) : list nat :=
  (filter (fun p => p.2 = FluxType.CrdtText) (zip (seq 0 (length (qt_types t))) (qt_types t))).*1.

(** The deleted rows by key; the last of several with one key. *)
Definition old_by_pk (td : TableDiff) (pk : list Z) : option row :=
  snd <$> find (fun p => bool_decide (p.1 = pk)) (reverse (td_deletes td)).

(** One column of [crdt_patch_rows]. *)
Definition crdt_patch_column (old : row) (values : row) (o : nat) : row :=
  match values !! o, old !! o with
  | Some (RowValue.Bytes new_bytes), Some (RowValue.Bytes old_bytes) =>
      match Crdt.from_bytes unpack_state new_bytes, Crdt.from_bytes unpack_state old_bytes with
      | Ok new_doc, Ok old_doc => <[o := RowValue.Bytes (Crdt.encode_ops pack_ops (Crdt.ops_since new_doc old_doc))]> values
      | _, _ => values
      end
  | _, _ => values
  end.

Definition crdt_patch_row (schema : TableSchema) (ordinals : list nat) (td : TableDiff) (r : row) : result StorageError row :=
  encode_pk_of_row schema r ≫= fun pk =>
  Ok (match old_by_pk td pk with
      | None => r
      | Some old => fold_left (crdt_patch_column old) ordinals r
      end).

Definition crdt_patch_rows (schema : TableSchema) (ordinals : list nat) (rs : list row) (td : TableDiff) : result StorageError (list row) :=
  collect (crdt_patch_row schema ordinals td) rs.

(** The loop over matched inserts of a table with policies: the projected rows
    and the keys of the updates it suppresses. *)
Fixpoint project_inserts (schema : TableSchema) (id : TableId) (viewer : option (list Z)) (roles : list (list Z)) (td : TableDiff) (rs : list row)
    : result StorageError (list row * list (list Z)) :=
  match rs with
  | [] => Ok ([], [])
  | r :: rs =>
      let projected := project_row id r viewer roles in
      (match viewer with
       | None => Ok None
       | Some _ =>
           encode_pk_of_row schema r ≫= fun pk =>
           Ok (match old_by_pk td pk with
               | Some old => if row_eq (project_row id old viewer roles) projected then Some pk else None
               | None => None
               end)
       end) ≫= fun same =>
      project_inserts schema id viewer roles td rs ≫= fun '(out, suppressed) =>
      Ok (match same with Some pk => (out, pk :: suppressed) | None => (projected :: out, suppressed) end)
  end.

(** The predicate of a delta row. *)
Definition delta_keep (members : list MemberSet) (plan : CompiledPlan) (viewer : option (list Z)) (r : row) : bool :=
  plan_matches plan r && match cp_fts plan with Some q => matches_row q r | None => true end && row_visible env members plan r viewer.

Definition find_diff (diff : TxDiff) (id : TableId) : option TableDiff := find (fun td => td_table_id td =? id) (diff_tables diff).

(** The rows and keys of a delta, before encoding. *)
Definition delta_rows (members : list MemberSet) (plan : CompiledPlan) (viewer : option (list Z)) (roles : list (list Z)) (td : TableDiff)
    : result SubError (option (QueryTable * list row * list row)) :=
  let inserts := List.filter (delta_keep members plan viewer) (td_inserts td) in
  let deletes := List.filter (delta_keep members plan viewer) (td_deletes td).*2 in
  if bool_decide (inserts = []) && bool_decide (deletes = []) then Ok None
  else
    table_schema (cp_table_id plan) ≫= fun t =>
    (if bool_decide (is_Some (se_policies env !! cp_table_id plan))
     then map_err (fun e => SubStore (RowError e)) (project_inserts (qt_schema t) (cp_table_id plan) viewer roles td inserts)
     else Ok (inserts, [])) ≫= fun '(projected, suppressed) =>
    let deletes := List.filter (fun old => match encode_pk_of_row (qt_schema t) old with Ok pk => negb (existsb (fun k => bool_decide (k = pk)) suppressed) | Err _ => true end) deletes in
    if bool_decide (projected = []) && bool_decide (deletes = []) then Ok None else Ok (Some (t, projected, deletes)).

Definition evaluate (members : list MemberSet) (plan : CompiledPlan) (viewer : option (list Z)) (roles : list (list Z)) (diff : TxDiff)
    : result SubError (option TableUpdate) :=
  match find_diff diff (cp_table_id plan) with
  | None => Ok None
  | Some td =>
      delta_rows members plan viewer roles td ≫= fun delta =>
      match delta with
      | None => Ok None
      | Some (t, projected, deletes) =>
          map_err (fun e => SubStore (RowError e))
            ((match crdt_ordinals t with
              | [] => Ok projected
              | ords => crdt_patch_rows (qt_schema t) ords projected td
              end) ≫= fun rs =>
             encode_full_rows rs ≫= fun ins =>
             encode_pk_rows (qt_schema t) deletes ≫= fun del =>
             Ok (Some {| tu_table_id := cp_table_id plan; tu_table_name := qt_name t; tu_query_id := 0; tu_inserts := ins; tu_deletes := del |}))
      end
  end.

(** The [query_id] a connection holds for a query; [0] when it holds none. *)
Definition query_id_of (m : Manager) (connection hash : Z) : Z :=
  default 0 (sm_connections m !! connection ≫= fun handles =>
    fst <$> find (fun p => p.2 =? hash) (map_to_list handles)).

Definition hash_le (a b : QueryDelta) : Prop := qd_query_hash a <= qd_query_hash b.
#[global] Instance hash_le_dec : RelDecision hash_le.
Proof. intros a b. unfold hash_le. apply _. Defined.

Definition subscribers_of (m : Manager) (hash : Z) (s : gset Z) : list (Z * Z) :=
  merge_sort key_le (map (fun c => (c, query_id_of m c hash)) (elements s)).

(** The loop over the candidates. *)
Fixpoint commit_queries (m : Manager) (diff : TxDiff) (hashes : list Z) (windows : gmap Z DeltaWindow)
    : result SubError (list QueryDelta * gmap Z DeltaWindow) :=
  match hashes with
  | [] => Ok ([], windows)
  | hash :: hashes =>
      match sm_queries m !! hash with
      | None => commit_queries m diff hashes windows
      | Some st =>
          if bool_decide (qs_subscribers st = ∅) then commit_queries m diff hashes windows
          else
            evaluate (sm_members m) (qs_plan st) (qs_viewer st) (qs_roles st) diff ≫= fun update =>
            match update with
            | None => commit_queries m diff hashes windows
            | Some u =>
                let window := window_push (default window_default (windows !! hash)) (diff_tx_id diff) u (resume_window_deltas (se_limits env)) in
                commit_queries m diff hashes (<[hash := window]> windows) ≫= fun '(out, windows) =>
                Ok ({| qd_query_hash := hash; qd_update := u; qd_subscribers := subscribers_of m hash (qs_subscribers st) |} :: out, windows)
            end
      end
  end.

(** 0x4D56. *)
Definition VIEW_SEED : Z := 19798.

Definition view_deltas (m : Manager) (updates : list (list Z * TableUpdate)) : list QueryDelta :=
  omap (fun p =>
    match sm_view_subs m !! p.1 with
    | Some s =>
        if bool_decide (s = ∅) then None
        else Some {| qd_query_hash := hash64 p.1 VIEW_SEED; qd_update := p.2; qd_subscribers := merge_sort key_le (map (fun c => (c, 0)) (elements s)) |}
    | None => None
    end) updates.

(** [on_commit]. What the manager holds after an error (the source keeps what was
    done before it) is not modelled. *)
Definition on_commit (m : Manager) (diff : TxDiff) : result SubError (list QueryDelta * Manager) :=
  let m := set_offset m (Z.max (sm_last_offset m) (diff_tx_id diff)) in
  commit_queries m diff (elements (candidate_plans (sm_tiers m) diff)) (sm_windows m) ≫= fun '(deltas, windows) =>
  let m := set_windows m windows in
  map_err SubView (engine_on_commit table_id_of diff (sm_matviews m)) ≫= fun '(engine, updates) =>
  let deltas := merge_sort hash_le (deltas ++ view_deltas m updates) in
  Ok (deltas, set_derived m engine (members_after (se_membership env) diff (sm_members m))).

(** * Registration *)

Definition SERVER_PEER_TAG : list Z := bytes "__fluxum_server_peer__".

(** The key a subscription is deduplicated under, its viewer and roles. *)
Definition effective_key (plan : CompiledPlan) (s : Subscriber) : Z * option (list Z) * list (list Z) :=
  if negb (cp_caller_scoped plan) then (cp_query_hash plan, None, [])
  else if sb_server_peer s then (hash64 SERVER_PEER_TAG (cp_query_hash plan), None, [])
  else (fold_left (fun h role => hash64 role h) (sb_roles s) (hash64 (sb_identity s) (cp_query_hash plan)), Some (sb_identity s), sb_roles s).

Definition subscription_count (m : Manager) (connection : Z) : Z :=
  Z.of_nat (size (default ∅ (sm_connections m !! connection))).

Definition plan_count (m : Manager) : Z := Z.of_nat (size (sm_queries m)).

Definition next_id (m : Manager) (connection : Z) : Z := default 1 (sm_next_query_id m !! connection).

(** The registration once everything was accepted. *)
Definition register (m : Manager) (connection hash : Z) (plan : CompiledPlan) (viewer : option (list Z)) (roles : list (list Z)) : Manager :=
  let m :=
    match sm_queries m !! hash with
    | Some st => set_queries m (<[hash := {| qs_plan := qs_plan st; qs_subscribers := qs_subscribers st ∪ {[connection]}; qs_viewer := qs_viewer st; qs_roles := qs_roles st |}]> (sm_queries m))
    | None =>
        set_queries (set_tiers m (index_plan hash plan (sm_tiers m)))
          (<[hash := {| qs_plan := plan; qs_subscribers := {[connection]}; qs_viewer := viewer; qs_roles := roles |}]> (sm_queries m))
    end in
  let id := next_id m connection in
  set_handles m (<[connection := <[id := hash]> (default ∅ (sm_connections m !! connection))]> (sm_connections m))
    (<[connection := cast_unsigned 32 (id + 1)]> (sm_next_query_id m)).

Definition stamp (id : Z) (d : InitialData) (reset : bool) (offset : Z) : InitialData := {|
  id_schema_version := id_schema_version d; id_tx_offset := offset; id_cache_reset := reset;
  id_tables := map (fun t => {| tu_table_id := tu_table_id t; tu_table_name := tu_table_name t; tu_query_id := id; tu_inserts := tu_inserts t; tu_deletes := tu_deletes t |}) (id_tables d) |}.

(** Compilation and the public-table check, shared with [snapshot_result]. *)
Definition compile_public (sql : list Z) : result SubError CompiledPlan :=
  map_err SubSql (compile table_id_of index_id_of hash64 (se_schema env) sql) ≫= fun plan =>
  table_schema (cp_table_id plan) ≫= fun t =>
  if is_client_visible (qt_access t) then Ok plan else Err SubTableNotPublic.

Definition subscribe (m : Manager) (connection : Z) (s : Subscriber) (sql : list Z) (sn : Snap) : result SubError (Subscribed * Manager) :=
  compile_public sql ≫= fun plan =>
  let '(hash, viewer, roles) := effective_key plan s in
  if max_subscriptions_per_connection (se_limits env) <=? subscription_count m connection
  then Err (SubLimitExceeded "max_subscriptions_per_connection")
  else if bool_decide (sm_queries m !! hash = None) && (max_compiled_plans (se_limits env) <=? plan_count m)
  then Err (SubLimitExceeded "max_compiled_plans")
  else
    initial_data m plan viewer roles sn ≫= fun initial =>
    let id := next_id m connection in
    Ok ({| sd_query_id := id; sd_initial := stamp id initial false (id_tx_offset initial) |}, register m connection hash plan viewer roles).

Definition drop_subscriber (m : Manager) (hash connection : Z) : Manager :=
  match sm_queries m !! hash with
  | None => m
  | Some st =>
      let s := qs_subscribers st ∖ {[connection]} in
      if bool_decide (s = ∅) then
        set_windows (set_tiers (set_queries m (delete hash (sm_queries m))) (deindex_plan hash (qs_plan st) (sm_tiers m))) (delete hash (sm_windows m))
      else set_queries m (<[hash := {| qs_plan := qs_plan st; qs_subscribers := s; qs_viewer := qs_viewer st; qs_roles := qs_roles st |}]> (sm_queries m))
  end.

Definition unsubscribe (m : Manager) (connection query_id : Z) : bool * Manager :=
  match sm_connections m !! connection with
  | None => (false, m)
  | Some handles =>
      match handles !! query_id with
      | None => (false, m)
      | Some hash =>
          let handles := delete query_id handles in
          let m :=
            if bool_decide (handles = ∅) then set_handles m (delete connection (sm_connections m)) (delete connection (sm_next_query_id m))
            else set_handles m (<[connection := handles]> (sm_connections m)) (sm_next_query_id m) in
          (true, drop_subscriber m hash connection)
      end
  end.

(** ** Views *)

Definition subscribe_view (m : Manager) (connection : Z) (name : list Z) : result SubError (InitialData * Manager) :=
  map_err SubView (snapshot_rows table_id_of (sm_matviews m) name) ≫= fun update =>
  match update with
  | None => Err SubUnknownView
  | Some u =>
      Ok ({| id_schema_version := se_schema_version env; id_tx_offset := sm_last_offset m; id_cache_reset := false; id_tables := [u] |},
          set_view_subs m (set_add name connection (sm_view_subs m))
            (<[connection := default ∅ (sm_conn_views m !! connection) ∪ {[name]}]> (sm_conn_views m)))
  end.

Definition unsubscribe_view (m : Manager) (connection : Z) (name : list Z) : bool * Manager :=
  (bool_decide (connection ∈ default ∅ (sm_view_subs m !! name)),
   set_view_subs m (alter (fun s => s ∖ {[connection]}) name (sm_view_subs m)) (alter (fun s => s ∖ {[name]}) connection (sm_conn_views m))).

Definition init_views (m : Manager) (sn : Snap) : result SubError Manager :=
  let scan id := from_option (UnknownTable id) (cs_tables (sn_state sn) !! id) ≫= fun ts => all_rows (sn_world sn) ts in
  map_err SubView (engine_init table_id_of (se_schema env) (se_views env) scan) ≫= fun engine =>
  map_err SubStore (collect (fun spec => scan (ms_member_table spec) ≫= fun rs => Ok (list_to_set (omap (membership_entry spec) rs))) (se_membership env)) ≫= fun sets =>
  Ok (set_derived m engine sets).

(** [disconnect]: the views of the connection, then its handles. *)
Definition disconnect (m : Manager) (connection : Z) : Manager :=
  let views := elements (default ∅ (sm_conn_views m !! connection)) in
  let m := set_view_subs m (fold_left (fun subs name => set_drop name connection subs) views (sm_view_subs m)) (delete connection (sm_conn_views m)) in
  match sm_connections m !! connection with
  | None => m
  | Some handles =>
      let m := set_handles m (delete connection (sm_connections m)) (delete connection (sm_next_query_id m)) in
      fold_left (fun m hash => drop_subscriber m hash connection) (map_to_list handles).*2 m
  end.

(** * Reads *)

Definition resume (m : Manager) (connection query_id from_offset : Z) (sn : Snap) : result SubError (option Resumed) :=
  match sm_connections m !! connection ≫= fun handles => handles !! query_id with
  | None => Ok None
  | Some hash =>
      match sm_queries m !! hash with
      | None => Ok None
      | Some st =>
          match (match sm_windows m !! hash with
                 | Some d => if can_resume d from_offset then Some (since d from_offset) else None
                 | None => Some []
                 end) with
          | Some deltas => Ok (Some (ResumeDeltas deltas))
          | None =>
              initial_data m (qs_plan st) (qs_viewer st) (qs_roles st) sn ≫= fun initial =>
              Ok (Some (ResumeReset (stamp query_id initial true (sm_last_offset m))))
          end
      end
  end.

Definition snapshot_result (m : Manager) (s : Subscriber) (sql : list Z) (sn : Snap) : result SubError InitialData :=
  compile_public sql ≫= fun plan =>
  let '(_, viewer, roles) := effective_key plan s in initial_data m plan viewer roles sn.
End manager.

(** [tx_update]: the envelope of one delta; the transport stamps the rest. *)
Record TxUpdate : Type := { tx_id : Z; tx_offset : Z; tx_tables : list TableUpdate }.

Definition tx_update (diff : TxDiff) (delta : QueryDelta) : TxUpdate :=
  {| tx_id := diff_tx_id diff; tx_offset := diff_tx_id diff; tx_tables := [qd_update delta] |}.
