(* ===== verification/QueryEval.v ===== *)
(** What a query reads from a snapshot.

    [query_reads]: a compiled query without [AFTER], [MATCH] or a spatial clause
    returns the rows of its table that meet its conditions and are visible to the
    viewer, ordered as it asks and cut at its limit, whichever access path the
    compiler chose and although an index walk stops early. The rows hold plain
    values and an [IN] list names each value once; [in_list_repeats] and
    [negative_zero_key] of [SubSample] show what the index path does otherwise. *)

From stdpp Require Import base list gmap sorting numbers strings.
From Stdlib Require Import ZArith Lia.
From S2P Require Import Prelude FluxBin Row IndexKey TxState LogRecord PageFormat PagedTree PagedTreeNode PagedTreeRep PagedTreeWrite PagedTreeSpec KvTree TableState TableSpec Reclaim MemStore MergeSpec IndexSpec StoreBuild Ieee SqlText FullText Query QueryPlan RowList Crdt Mask MatView Subscription.

(** * The guard without bounds *)

Definition unbounded (b : QueryBounds) : Prop := qb_row_scan_budget b = 0 /\ qb_deadline_ms b = 0.

Section guard.
Context (b : QueryBounds) (past : Poll -> bool) (Hb : unbounded b).
Notation live g := (sg_aborted g = None).

Lemma admits_unbounded g : live g -> exists g', guard_admits b past g = (true, g') /\ live g'.
Proof using Hb.
  destruct Hb as [E1 E2]. intros Hg. unfold guard_admits. rewrite Hg, E1, E2. simpl. rewrite andb_false_r. by eexists.
Qed.

Lemma filter_rows_unbounded {A} (keep : A -> bool) rs : forall g, live g -> exists g', filter_rows b past keep rs g = (List.filter keep rs, g') /\ live g'.
Proof using Hb.
  induction rs as [|r rs IH]; intros g Hg; cbn [filter_rows]; [by exists g|]. destruct (admits_unbounded g Hg) as (g' & -> & Hg'). destruct (IH g' Hg') as (g2 & -> & ?).
  exists g2. split; [|done]. simpl. by destruct (keep r).
Qed.

Lemma scan_rows_unbounded keep rs : forall acc g, live g -> exists g', scan_rows b past keep None rs acc g = (acc ++ List.filter keep rs, g', false) /\ live g'.
Proof using Hb.
  induction rs as [|r rs IH]; intros acc g Hg; cbn [scan_rows]; [exists g; by rewrite app_nil_r|]. destruct (admits_unbounded g Hg) as (g' & -> & Hg'). simpl.
  destruct (keep r); simpl.
  - destruct (IH (acc ++ [r]) g' Hg') as (g2 & -> & ?). exists g2. by rewrite <- app_assoc.
  - rewrite Hg'. simpl. by apply IH.
Qed.

(** With an early stop, the rows up to the limit are the same. *)
Lemma scan_rows_early keep n rs : forall acc g, live g -> (Z.of_nat (length acc) < Z.max n 1) ->
  exists out g' st, scan_rows b past keep (Some n) rs acc g = (out, g', st) /\ live g' /\ firstn (Z.to_nat n) out = firstn (Z.to_nat n) (acc ++ List.filter keep rs).
Proof using Hb.
  induction rs as [|r rs IH]; intros acc g Hg Ha; cbn [scan_rows]; [exists acc, g, false; by rewrite app_nil_r|].
  destruct (admits_unbounded g Hg) as (g' & -> & Hg'). simpl. destruct (keep r); simpl.
  - rewrite length_app. simpl. destruct (Z.leb_spec n (Z.of_nat (length acc + 1))).
    + exists (acc ++ [r]), g', true. split_and!; [done|done|]. replace (acc ++ r :: List.filter keep rs) with ((acc ++ [r]) ++ List.filter keep rs) by (by rewrite <- app_assoc). symmetry. apply take_app_le. rewrite length_app. simpl. lia.
    + destruct (IH (acc ++ [r]) g' Hg') as (out & g2 & st & -> & ? & E); [rewrite length_app; simpl; lia|]. exists out, g2, st. split_and!; [done|done|]. by rewrite E, <- app_assoc.
  - rewrite Hg'. simpl. by apply IH.
Qed.

Lemma guard_finish_unbounded p g : live g -> guard_finish b past p g = Ok tt.
Proof using Hb. destruct Hb as [_ E]. intros Hg. unfold guard_finish. by rewrite Hg, E. Qed.
End guard.

(** * The plan of a compiled query *)

Section plans.
Context (table_id_of : list Z -> TableId) (index_id_of : list Z -> list (list Z) -> IndexId) (hash64 : list Z -> Z -> Z) {U : Unicode}.

(** The access path comes from one index, or is a full scan. *)
Inductive planned (t : QueryTable) (plan : CompiledPlan) : Prop :=
  | planned_scan : cp_access plan = FullScan -> cp_ordered_by_index plan = false -> planned t plan
  | planned_index columns cand : BTree columns ∈ qt_indexes t ->
      index_candidate index_id_of t (cp_filter plan) (cp_order_by plan) columns = Some cand ->
      cp_access plan = IndexScan (ca_scan cand) -> cp_residual plan = residual_of (ca_consumed cand) (cp_filter plan) ->
      cp_ordered_by_index plan = ca_ordered cand -> planned t plan.

Lemma best_candidate_spec t cs order ixs : forall best c, best_candidate index_id_of t cs order ixs best = Some c ->
  best = Some c \/ exists columns, BTree columns ∈ ixs /\ index_candidate index_id_of t cs order columns = Some c.
Proof using Type.
  induction ixs as [|ix ixs IH]; intros best c; cbn [best_candidate]; [by left|].
  destruct ix as [columns| |]; intros H; apply IH in H as [H|(columns0 & Hin & Hc)].
  all: try (right; exists columns0; split; [by right|done]). all: try by left.
  destruct (index_candidate index_id_of t cs order columns) as [c'|] eqn:E; [|by left].
  assert (best = Some c \/ Some c' = Some c) as [?|[= ->]] by (destruct best; [destruct (score_gt _ _)|]; auto); [by left|].
  right. exists columns. split; [by left|done].
Qed.

Lemma compile_planned schema sql plan : compile table_id_of index_id_of hash64 schema sql = Ok plan ->
  cp_fts plan = None -> cp_spatial plan = None -> cp_cursor plan = None ->
  exists t, t ∈ schema /\ cp_table_id plan = table_id_of (qt_name t) /\ cp_order_by_score plan = None /\ planned t plan.
Proof using Type.
  unfold compile. destruct (parse_sql sql) as [ast|]; [|done]. cbn [mbind result_bind]. unfold compile_ast.
  destruct (find_table schema (q_table ast)) as [t|] eqn:Et; [|done]. cbn [from_option mbind result_bind].
  destruct (compile_conditions t (q_conditions ast) None) as [[cs fts]|]; [|done]. cbn [mbind result_bind].
  destruct (match q_spatial ast with Some c => _ | None => _ end) as [spatial|]; [|done]. cbn [mbind result_bind].
  destruct (_ && _) eqn:E0; [done|]. destruct (compile_order t _ (q_order_by ast)) as [[order score]|] eqn:Eo; [|done]. cbn [mbind result_bind].
  destruct (q_select_score ast && _); [done|].
  destruct (if _ || _ then _ else _) as [[access consumed] ordered] eqn:Ea.
  destruct (check_tiebreak t order (q_order_tiebreak ast)) as [[]|]; [|done]. cbn [mbind result_bind].
  destruct (compile_cursor t order ordered access (q_after ast)) as [[access' cursor]|] eqn:Ec; [|done]. cbn [mbind result_bind].
  intros [= <-]. cbn [cp_fts cp_spatial cp_cursor]. intros -> -> ->. simpl in Eo, Ea.
  assert (access' = access) as ->.
  { revert Ec. unfold compile_cursor. destruct (q_after ast) as [[ol pl]|]; [|by intros [= ->]]. destruct order; [|done]. destruct (negb ordered); [done|].
    destruct (qt_pk t) as [|pk [|]]; [done| |done]. 
    destruct (qt_types t !! os_column o); cbn [from_option mbind result_bind]; [|done]. destruct (coerce _ ol _); cbn [mbind result_bind]; [|done].
    destruct (qt_types t !! pk); cbn [from_option mbind result_bind]; [|done]. by destruct (coerce _ pl _). }
  exists t. split_and!; [by apply find_some in Et as [?%list_elem_of_In _]|done| |].
  - simpl. revert Eo. unfold compile_order. destruct (q_order_by ast) as [[col desc]|]; [|by intros [= _ <-]]. destruct (negb _ && _); [done|].
    destruct (resolve_column t col) as [[]|]; cbn [mbind result_bind]; [|done]. by intros [= _ <-].
  - unfold plan_access in Ea. destruct (best_candidate _ _ _ _ _ _) as [c|] eqn:Eb.
    + injection Ea as <- <- <-. apply best_candidate_spec in Eb as [?|(columns & Hin & Hc)]; [done|]. by eapply planned_index.
    + injection Ea as <- <- <-. by apply planned_scan.
Qed.
End plans.

(** * Probes *)

Lemma equality_prefix_nodup cs columns : (forall o vs, CompiledCond.In o vs ∈ cs -> NoDup vs) -> forall consumed probes n, NoDup probes ->
  NoDup (equality_prefix cs columns consumed probes n).1.1.
Proof.
  intros Hin. induction columns as [|col columns IH]; intros consumed probes n Hp; cbn [equality_prefix]; [done|].
  destruct (find_cond (pick_eq col) consumed 0 cs) as [[i v]|].
  { apply IH. by apply (NoDup_fmap_2 (fun p => p ++ [v])). }
  destruct (find_cond (pick_in col) consumed 0 cs) as [[i vs]|] eqn:Ef; [|done]. destruct (_ || _); [done|]. apply IH.
  assert (NoDup vs) as Hvs.
  { apply find_cond_spec in Ef as (c & Hc & _ & _ & Hpick). unfold pick_in in Hpick. destruct c as [| o vs0 | |]; try done. destruct (o =? col)%nat; [|done]. simplify_eq.
    apply (Hin o vs). by eapply list_elem_of_lookup_2. }
  clear -Hp Hvs. induction Hp as [|p probes Hn _ IH]; simpl; [constructor|]. apply NoDup_app. split_and!; [|intros x|done].
  - apply (NoDup_fmap_2_strong (fun v => p ++ [v])); [|done]. by intros v v' _ _ [_ ->]%app_inj_tail.
  - intros (v & -> & _)%list_elem_of_fmap (q & Hq & (v' & [E _]%app_inj_tail & _)%in_map_iff)%list_elem_of_In%in_flat_map. simplify_eq. by apply Hn, list_elem_of_In.
Qed.

Lemma candidate_nodup index_id_of t cs order columns cand : index_candidate index_id_of t cs order columns = Some cand ->
  (forall o vs, CompiledCond.In o vs ∈ cs -> NoDup vs) -> NoDup (isp_probes (ca_scan cand)).
Proof.
  unfold index_candidate. intros H Hin. pose proof (equality_prefix_nodup cs columns Hin [] [[]] 0 (NoDup_singleton _)) as Hn.
  destruct (equality_prefix cs columns [] [[]] 0) as [[probes consumed] n]. simpl in Hn.
  destruct (match columns !! n with Some col => _ | None => _ end) as [[[l u] consumed'] has]. destruct (_ && _ && _); [done|]. simplify_eq. simpl.
  by rewrite (merge_sort_Permutation probe_le probes).
Qed.

Lemma equality_prefix_length cs columns : forall consumed probes n, Forall (fun p => length p = n) probes ->
  Forall (fun p => length p = (equality_prefix cs columns consumed probes n).2) (equality_prefix cs columns consumed probes n).1.1.
Proof.
  induction columns as [|col columns IH]; intros consumed probes n Hp; cbn [equality_prefix]; [done|].
  destruct (find_cond (pick_eq col) consumed 0 cs) as [[i v]|].
  { apply IH, Forall_map. eapply Forall_impl; [exact Hp|]. intros p <-. simpl. rewrite length_app. simpl. lia. }
  destruct (find_cond (pick_in col) consumed 0 cs) as [[i vs]|]; [|done]. destruct (_ || _); [done|]. apply IH, Forall_forall.
  intros x (p & Hpin & (v & <- & _)%in_map_iff)%list_elem_of_In%in_flat_map. rewrite Forall_forall in Hp. rewrite length_app. simpl. rewrite (Hp p) by (by apply list_elem_of_In). lia.
Qed.

(** An order served by the index has one probe, and the order column is bound by
    it or comes right after. *)
Lemma candidate_ordered index_id_of t cs order columns cand : index_candidate index_id_of t cs order columns = Some cand -> ca_ordered cand = true ->
  exists o p, order = Some o /\ isp_probes (ca_scan cand) = [p] /\ (columns !! length p = Some (os_column o) \/ os_column o ∈ firstn (length p) columns).
Proof.
  unfold index_candidate. pose proof (equality_prefix_length cs columns [] [[]] 0 ltac:(by constructor)) as Hl.
  destruct (equality_prefix cs columns [] [[]] 0) as [[probes consumed] n]. simpl in Hl.
  destruct (match columns !! n with Some col => _ | None => _ end) as [[[l u] consumed'] has]. destruct (_ && _ && _); [done|]. intros [= <-]. simpl.
  destruct order as [o|]; [|done]. intros [Hp Hc]%andb_true_iff. apply Nat.eqb_eq in Hp. destruct probes as [|p [|]]; try done.
  exists o, p. split_and!; [done|done|]. inversion Hl; subst. apply orb_true_iff in Hc as [Hc|Hc]; [left|right]; by apply bool_decide_eq_true in Hc.
Qed.

(** * The order of the result *)

Lemma partial_cmp_opp w x y : partial_cmp w y x = CompOpp <$> partial_cmp w x y.
Proof.
  unfold partial_cmp. rewrite (orb_comm (is_nan w y)), (andb_comm (is_zero w y)). destruct (_ || _); [done|]. destruct (_ && _); [done|]. simpl. by rewrite Z.compare_antisym.
Qed.

Lemma cmp_values_opp a b : cmp_values b a = CompOpp <$> cmp_values a b.
Proof.
  destruct a; destruct b; try reflexivity; cbn [cmp_values]; first [apply partial_cmp_opp | cbn; f_equal; first [apply Z.compare_antisym | apply lex_compare_opp]].
Qed.

#[global] Instance order_rel_total o : Total (order_rel o).
Proof.
  intros a b. unfold order_rel, order_le. destruct (a !! os_column o) as [x|]; [|by left]. destruct (b !! os_column o) as [y|]; [|by left].
  rewrite (cmp_values_opp x y). destruct (cmp_values x y) as [[]|], (os_descending o); simpl; auto.
Qed.

Lemma Sorted_strong_on {A} (Q : A -> A -> Prop) (P : A -> Prop) : (forall x y z, P x -> P y -> P z -> Q x y -> Q y z -> Q x z) ->
  forall l, Forall P l -> Sorted Q l -> StronglySorted Q l.
Proof.
  intros HT. induction l as [|x l IH]; intros HP HS; [constructor|]. inversion HP as [|?? Hx Hl]; subst. inversion HS as [|?? Hs Hd]; subst.
  specialize (IH Hl Hs). constructor; [done|]. destruct Hd as [|y l Hxy]; [constructor|]. constructor; [done|]. inversion IH as [|?? _ Hf]; subst. inversion Hl as [|?? Hy Hl']; subst.
  clear -HT Hx Hy Hxy Hf Hl'. induction Hf as [|z l Hz _ IH]; [constructor|]. inversion Hl'; subst. constructor; [by apply (HT x y z)|by apply IH].
Qed.

(** Two columns compared by the filter's order, for values of one type. *)
Lemma cmp_values_fine ty a b : fine ty a -> fine ty b -> cmp_values a b = Some (value_compare a b) \/ cmp_values a b = None.
Proof.
  intros Ha Hb. destruct (cmp_type ty) eqn:E; [left; by apply (cmp_fine ty)|right]. destruct Ha as (Ha & _), Hb as (Hb & _).
  destruct ty; try discriminate E; destruct a; try discriminate Ha; reflexivity.
Qed.

Section ordered_rows.
Context (types : list FluxType.t) (o : OrderSpec).
Definition row_fine (r : row) : Prop := Forall2 (fun v ty => fine ty v) r types.

Lemma order_rel_trans a b c : row_fine a -> row_fine b -> row_fine c -> order_rel o a b -> order_rel o b c -> order_rel o a c.
Proof using Type.
  intros Ha Hb Hc. unfold order_rel, order_le. destruct (a !! os_column o) as [x|] eqn:Ea; [|done].
  destruct (Forall2_lookup_l _ _ _ _ _ Ha Ea) as (ty & Ety & Hx).
  destruct (Forall2_lookup_r _ _ _ _ _ Hb Ety) as (y & -> & Hy). destruct (Forall2_lookup_r _ _ _ _ _ Hc Ety) as (z & -> & Hz).
  destruct (cmp_type ty) eqn:Et; [|destruct (cmp_values_fine ty x z Hx Hz) as [E|E]; rewrite E; [|done]; exfalso; destruct ty; try discriminate Et; destruct Hx as (Hx & _), Hz as (Hz & _); destruct x; try discriminate Hx; discriminate E].
  rewrite !(cmp_fine ty) by done. pose proof (cmp_ordered ty Et) as Ho. apply fine_typed in Hx, Hy, Hz.
  pose proof (compare_trans ty Ho x y z Hx Hy Hz) as T1. pose proof (compare_trans ty Ho z y x Hz Hy Hx) as T2. pose proof (compare_rev ty Ho y z Hy Hz) as R1.
  pose proof (compare_rev ty Ho x y Hx Hy) as R2. pose proof (compare_rev ty Ho x z Hx Hz) as R3. rewrite R1, R2, R3 in T2.
  destruct (os_descending o), (value_compare x y), (value_compare y z), (value_compare x z); simpl in *; try done; naive_solver.
Qed.

Lemma sorted_rows rs : Forall row_fine rs -> StronglySorted (order_rel o) (merge_sort (order_rel o) rs).
Proof using Type.
  intros HF. apply (Sorted_strong_on _ row_fine).
  - intros x y z. apply order_rel_trans.
  - by rewrite (merge_sort_Permutation (order_rel o) rs).
  - apply Sorted_merge_sort. apply _.
Qed.
End ordered_rows.

(** * The index walk *)

Lemma filter_fmap_snd {A B} (keep : B -> bool) (l : list (A * B)) : List.filter keep l.*2 = (List.filter (fun p => keep p.2) l).*2.
Proof. induction l as [|[a b] l IH]; [done|]. simpl. destruct (keep b); simpl; [f_equal|]; exact IH. Qed.

Lemma list_filter_eq {A} (keep : A -> bool) l : List.filter keep l = filter (fun x => keep x = true) l.
Proof. induction l as [|x l IH]; [done|]. rewrite filter_cons. simpl. rewrite IH. destruct (keep x) eqn:E; case_decide; congruence. Qed.

Lemma NoDup_concat {A B} (P : B -> A -> Prop) (ps : list B) (ls : list (list A)) : NoDup ps -> Forall2 (fun p l => NoDup l /\ forall x, x ∈ l -> P p x) ps ls ->
  (forall p q x, p ∈ ps -> q ∈ ps -> P p x -> P q x -> p = q) -> NoDup (concat ls).
Proof.
  intros Hn HF. induction HF as [|p l ps ls [Hl HP] HF IH]; intros Hd; simpl; [constructor|]. inversion Hn as [|?? Hp Hn']; subst.
  apply NoDup_app. split_and!; [done| |apply IH; [done|]; intros p' q x ??; apply Hd; by right].
  intros x Hx (l' & Hl' & Hx')%list_elem_of_In%in_concat. apply list_elem_of_In in Hl'. apply Forall2_flip in HF. destruct (Forall2_elem_of_l _ _ _ _ HF Hl') as (q & Hq & _ & HQ).
  apply Hp. by rewrite (Hd p q x ltac:(by left) ltac:(by right) (HP _ Hx) (HQ x ltac:(by apply list_elem_of_In))).
Qed.

Section walk.
Context {W T X : Type} {KT : KvTree W T} {KL : KvTreeLaws W T} {RC : RowCodec} {RL : RowCodecLaws}.
Context (past_deadline : Poll -> bool) (env : SubEnv) (Hb : unbounded (se_bounds env)).
Context (index_id_of : list Z -> list (list Z) -> IndexId).

(** A table a query can be planned for: its indexes are there, its rows are plain
    and of the declared types. *)
Record readable (t : QueryTable) (ts : TableState T X) (R : content) : Prop := {
  re_types : columns (ti_schema (schema ts)) = qt_types t;
  re_index : forall columns, BTree columns ∈ qt_indexes t -> exists index tys,
    find_index ts (index_id_of (qt_name t) (map (fun o => default [] (qt_columns t !! o)) columns)) = Some index /\ bi_columns index = columns /\
    Forall2 (fun o ty => qt_types t !! o = Some ty) columns tys /\ forallb ordered_type tys = true;
  re_rows : map_Forall (fun pk r => bytes_ok pk /\ row_fine (qt_types t) r) R;
}.

Lemma scan_probes_spec w (ts : TableState T X) (P : row -> list (list Z * row) -> Prop) keep (descending : bool) scan probes :
  (forall p, p ∈ probes -> exists l, index_scan w ts (isp_index_id scan) p (isp_lower scan) (isp_upper scan) = Ok l.*2 /\ P p l) ->
  exists ls, Forall2 (fun p l => index_scan w ts (isp_index_id scan) p (isp_lower scan) (isp_upper scan) = Ok l.*2 /\ P p l) probes ls /\ forall acc g, sg_aborted g = None -> exists g',
    scan_probes past_deadline env w ts keep None descending scan probes acc g =
    Ok (acc ++ concat (map (fun l => List.filter keep (if descending then reverse l.*2 else l.*2)) ls), g') /\ sg_aborted g' = None.
Proof using Hb.
  induction probes as [|p probes IH]; intros Hp.
  { exists []. split; [constructor|]. intros acc g Hg. exists g. cbn [scan_probes]. simpl. by rewrite app_nil_r. }
  destruct (Hp p ltac:(by left)) as (l & El & HP). destruct IH as (ls & HF & Hs); [intros; apply Hp; by right|].
  exists (l :: ls). split; [by constructor|]. intros acc g Hg. cbn [scan_probes]. rewrite El. cbn [mbind result_bind].
  destruct (scan_rows_unbounded _ past_deadline Hb keep (if descending then reverse l.*2 else l.*2) acc g Hg) as (g1 & -> & Hg1).
  destruct (Hs (acc ++ List.filter keep (if descending then reverse l.*2 else l.*2)) g1 Hg1) as (g2 & -> & Hg2). exists g2. simpl. by rewrite <- app_assoc.
Qed.

(** What the walk over a candidate's index yields. *)
Section candidate_walk.
Context (w : W) (ts : TableState T X) (R : content) (f : list Page) (Hok : kt_ok w) (Ht : table_is w ts R f).
Context (t : QueryTable) (Hre : readable t ts R) (columns : list nat) (Hix : BTree columns ∈ qt_indexes t).
Context (cs : list CompiledCond.t) (order : option OrderSpec) (Hcs : Forall (cond_fine (qt_types t)) cs) (Hin : forall o vs, CompiledCond.In o vs ∈ cs -> NoDup vs).
Context (cand : Candidate) (Hcand : index_candidate index_id_of t cs order columns = Some cand).
Notation scan := (ca_scan cand).

Lemma candidate_id : isp_index_id scan = index_id_of (qt_name t) (map (fun o => default [] (qt_columns t !! o)) columns).
Proof using Hcand.
  revert Hcand. unfold index_candidate. destruct (equality_prefix _ _ _ _ _) as [[probes consumed] n].
  destruct (match columns !! n with Some col => _ | None => _ end) as [[[l u] consumed'] has]. destruct (_ && _ && _); [done|]. by intros [= <-].
Qed.

Definition probe_rows (p : row) (l : list (list Z * row)) : Prop :=
  StronglySorted (index_order columns) l /\ NoDup l /\
  forall pk r, (pk, r) ∈ l <-> R !! pk = Some r /\ scan_matches columns p (isp_lower scan) (isp_upper scan) r.

Lemma row_columns pk r : R !! pk = Some r -> exists tys vs, Forall2 (fun o ty => qt_types t !! o = Some ty) columns tys /\ forallb ordered_type tys = true /\ cols_are columns r vs /\ fines tys vs.
Proof using Hix Hre.
  intros Hr. destruct (re_index _ _ _ Hre _ Hix) as (index & tys & _ & _ & Htys & Ho). destruct (re_rows _ _ _ Hre _ _ Hr) as [_ Hf]. exists tys. unfold row_fine in Hf.
  cut (exists vs, cols_are columns r vs /\ fines tys vs); [naive_solver|]. clear -Htys Hf. induction Htys as [|o ty cols tys Ho _ (vs & Hc & Hv)]; [exists []; split; constructor|].
  destruct (Forall2_lookup_r _ _ _ _ _ Hf Ho) as (v & Hv' & ?). exists (v :: vs). split; by constructor.
Qed.

Lemma probe_scan p : p ∈ isp_probes scan -> exists l, index_scan w ts (isp_index_id scan) p (isp_lower scan) (isp_upper scan) = Ok l.*2 /\ probe_rows p l.
Proof using Hcand Hcs Hix Hok Hre Ht KL RL.
  intros Hp. rewrite candidate_id. destruct (re_index _ _ _ Hre _ Hix) as (index & tys & Ef & Ec & Htys & Ho). pose proof (re_types _ _ _ Hre) as Ety.
  assert (Forall2 (fun o ty => Row.columns (ti_schema (schema ts)) !! o = Some ty) (bi_columns index) tys) as Htys' by (by rewrite Ety, Ec).
  destruct (index_scan_spec w ts R f Hok Ht tys _ index Ef Htys' Ho p (isp_lower scan) (isp_upper scan)) as (l & El & Hs & Hl).
  - by apply (candidate_typed (qt_types t) cs Hcs index_id_of t order columns tys Htys cand Hcand).
  - intros pk r Hr. by destruct (re_rows _ _ _ Hre _ _ Hr).
  - rewrite Ec in *. exists l. split; [done|]. split_and!; [done| |done]. assert (forall e, e ∈ l -> R !! e.1 = Some e.2) as HR by (intros [pk r] He; by apply Hl in He as [? _]).
    clear -Hs HR Hix Hre. induction Hs as [|e l _ IH Hf]; [constructor|]. constructor; [|apply IH; intros; apply HR; by right].
    intros He. rewrite Forall_forall in Hf. destruct (row_columns e.1 e.2 (HR e ltac:(by left))) as (tys & vs & _ & Ho & Hc & Hv).
    pose proof (Hf e He vs vs Hc Hc) as E. rewrite (proj2 (list_cmp_eq tys Ho vs vs (fines_typed _ _ Hv) (fines_typed _ _ Hv)) eq_refl), kcmp_refl in E. done.
Qed.

(** The rows of all probes, once each. *)
Lemma walk_rows keep ls : Forall2 probe_rows (isp_probes scan) ls -> forall (vis : row -> bool),
  (forall r, keep r = forallb (fun c => cond_matches c r) (residual_of (ca_consumed cand) cs) && vis r) ->
  (List.filter (fun e => keep e.2) (concat ls)).*2 ≡ₚ List.filter (fun r => forallb (fun c => cond_matches c r) cs && vis r) (btree_values R).
Proof using Hcand Hcs Hin Hix Hre.
  intros HF vis Hk. unfold btree_values. rewrite filter_fmap_snd. apply Permutation_map, NoDup_Permutation.
  - rewrite list_filter_eq. apply NoDup_filter, (NoDup_concat (fun p e => scan_matches columns p (isp_lower scan) (isp_upper scan) e.2) (isp_probes scan)).
    + by eapply candidate_nodup.
    + eapply Forall2_impl; [exact HF|]. intros p l (_ & Hn & Hl). split; [done|]. intros [pk r] [_ ?]%Hl. done.
    + intros p q [pk r] Hp Hq [H1 _] [H2 _]. destruct (re_index _ _ _ Hre _ Hix) as (index & tys & _ & _ & Htys & _).
      rewrite (candidate_probe_length (qt_types t) cs Hcs index_id_of t order columns tys Htys cand Hcand p q Hp Hq) in H1. by eapply cols_are_fun.
  - rewrite list_filter_eq. apply NoDup_filter. rewrite btree_entries_perm. apply NoDup_map_to_list.
  - intros [pk r]. rewrite !list_filter_eq, !list_elem_of_filter, elem_of_btree_entries. simpl.
    assert ((pk, r) ∈ concat ls <-> R !! pk = Some r /\ scan_selects columns scan r) as Hc.
    { rewrite list_elem_of_In, in_concat. split.
      - intros (l & Hl & He). apply list_elem_of_In in Hl, He. apply Forall2_flip in HF. destruct (Forall2_elem_of_l _ _ _ _ HF Hl) as (p & Hp & _ & _ & Hq). destruct (proj1 (Hq _ _) He) as [Hr Hm]. split; [done|]. by exists p.
      - intros [Hr (p & Hp & Hm)]. destruct (Forall2_elem_of_l _ _ _ _ HF Hp) as (l & Hl & _ & _ & Hq). exists l. split; [by apply list_elem_of_In|]. apply list_elem_of_In, Hq. done. }
    rewrite Hc, Hk. cut (R !! pk = Some r -> scan_selects columns scan r /\ forallb (fun c => cond_matches c r) (residual_of (ca_consumed cand) cs) = true <-> forallb (fun c => cond_matches c r) cs = true).
    { rewrite !andb_true_iff. tauto. }
    intros Hr. destruct (row_columns _ _ Hr) as (tys & vs & Htys & _ & Hcols & Hv). symmetry. by eapply (candidate_exact (qt_types t) cs Hcs).
Qed.

(** ** Order *)

Lemma value_compare_refl ty v : ordered_type ty = true -> typed [ty] [v] -> value_compare v v = Eq.
Proof using Type. intros Hty Hv. inversion Hv as [|???? [??] _]; subst. by apply (value_compare_eq v v ty). Qed.

Lemma list_cmp_prefix (tys : list FluxType.t) p : forallb ordered_type tys = true -> typed tys p -> forall a b,
  list_cmp value_compare (p ++ a) (p ++ b) = list_cmp value_compare a b.
Proof using Type.
  intros Ho Hp a b. induction Hp as [|v ty p tys [Hm Hv] _ IH]; [done|]. simpl in *. apply andb_true_iff in Ho as [Hty Ho].
  rewrite (value_compare_refl ty v Hty) by by repeat constructor. by apply IH.
Qed.

Lemma order_of_index o p e e' : R !! e.1 = Some e.2 -> R !! e'.1 = Some e'.2 ->
  scan_matches columns p (isp_lower scan) (isp_upper scan) e.2 -> scan_matches columns p (isp_lower scan) (isp_upper scan) e'.2 ->
  index_order columns e e' -> columns !! length p = Some (os_column o) \/ os_column o ∈ firstn (length p) columns ->
  if os_descending o then order_rel o e'.2 e.2 else order_rel o e.2 e'.2.
Proof using Hix Hre.
  intros Hr Hr' [Hm _] [Hm' _] Hlt Hcol. destruct (row_columns _ _ Hr) as (tys & a & Htys & Ho & Ha & Fa).
  destruct (row_columns _ _ Hr') as (tys' & b & Htys' & _ & Hb' & Fb). assert (tys' = tys) as -> by (by eapply cols_types).
  assert (firstn (length p) a = p) as Ep by (eapply cols_are_fun; [by apply Forall2_take|done]).
  assert (firstn (length p) b = p) as Ep' by (eapply cols_are_fun; [by apply Forall2_take|done]).
  assert (forall x y, e.2 !! os_column o = Some x -> e'.2 !! os_column o = Some y -> value_compare x y <> Gt) as Hc.
  { intros x y Ex Ey. destruct Hcol as [Hcol|Hcol].
    - destruct (Forall2_lookup_l _ _ _ _ _ Ha Hcol) as (x' & Ex' & ?). destruct (Forall2_lookup_l _ _ _ _ _ Hb' Hcol) as (y' & Ey' & ?). simplify_eq.
      specialize (Hlt a b Ha Hb'). rewrite <- (take_drop_middle a _ _ Ex'), <- (take_drop_middle b _ _ Ey'), Ep, Ep' in Hlt.
      rewrite (list_cmp_prefix (firstn (length p) tys)) in Hlt; [|by apply forallb_firstn|rewrite <- Ep at 2; by apply Forall2_take, fines_typed].
      simpl in Hlt. by destruct (value_compare x y).
    - apply list_elem_of_lookup in Hcol as (j & Hj). destruct (Forall2_lookup_l _ _ _ _ _ Hm Hj) as (v & Hv & E1). destruct (Forall2_lookup_l _ _ _ _ _ Hm' Hj) as (v' & Hv' & E2).
      assert (x = v) as -> by congruence. assert (y = v) as -> by congruence. rewrite <- Ep in Hv. apply lookup_take_Some in Hv as [Hv Hlt']. destruct (Forall2_lookup_l _ _ _ _ _ Fa Hv) as (ty & Hty & Hfv).
      rewrite (value_compare_refl ty v); [done|rewrite forallb_forall in Ho; apply Ho, list_elem_of_In; by eapply list_elem_of_lookup_2|by apply fine_typed]. }
  destruct (re_rows _ _ _ Hre _ _ Hr) as [_ F1], (re_rows _ _ _ Hre _ _ Hr') as [_ F2]. unfold order_rel, order_le.
  destruct (e.2 !! os_column o) as [x|] eqn:Ex; [|destruct (os_descending o); [by destruct (e'.2 !! os_column o)|done]].
  destruct (Forall2_lookup_l _ _ _ _ _ F1 Ex) as (ty & Ety & Fx). destruct (Forall2_lookup_r _ _ _ _ _ F2 Ety) as (y & Ey & Fy). rewrite Ey.
  specialize (Hc x y eq_refl Ey). rewrite (cmp_values_opp x y). destruct (cmp_values_fine ty x y Fx Fy) as [-> | ->]; [|by destruct (os_descending o)].
  destruct (os_descending o), (value_compare x y); simpl; done.
Qed.

Lemma walk_sorted o p l : probe_rows p l -> columns !! length p = Some (os_column o) \/ os_column o ∈ firstn (length p) columns ->
  StronglySorted (order_rel o) (if os_descending o then reverse l.*2 else l.*2).
Proof using Hix Hre.
  intros (Hs & _ & Hl) Hc. assert (forall e, e ∈ l -> R !! e.1 = Some e.2 /\ scan_matches columns p (isp_lower scan) (isp_upper scan) e.2) as HR by (intros [pk r] He; by apply Hl).
  clear Hl. pose proof (fun e e' => order_of_index o p e e') as Ho. destruct (os_descending o).
  - induction Hs as [|e l _ IH Hf]; [constructor|]. rewrite fmap_cons, reverse_cons. apply StronglySorted_app_2; [|apply IH; intros; apply HR; by right|by repeat constructor].
    intros r r' (e' & -> & He')%elem_of_reverse%list_elem_of_fmap ->%list_elem_of_singleton. rewrite Forall_forall in Hf.
    destruct (HR e ltac:(by left)), (HR e' ltac:(by right)). by apply Ho; auto.
  - induction Hs as [|e l _ IH Hf]; [constructor|]. rewrite fmap_cons. constructor; [apply IH; intros; apply HR; by right|].
    apply Forall_forall. intros r (e' & -> & He')%list_elem_of_fmap. rewrite Forall_forall in Hf.
    destruct (HR e ltac:(by left)), (HR e' ltac:(by right)). by apply Ho; auto.
Qed.
End candidate_walk.

(** * The whole read *)

Definition cut {A} (limit : option Z) (l : list A) : list A := match limit with Some n => firstn (Z.to_nat n) l | None => l end.

(** The rows a query asks for. *)
Definition asked (members : list MemberSet) (plan : CompiledPlan) (viewer : option (list Z)) (R : content) : list row :=
  List.filter (fun r => plan_matches plan r && row_visible env members plan r viewer) (btree_values R).

Definition in_order (plan : CompiledPlan) (l : list row) : Prop := forall o, cp_order_by plan = Some o -> StronglySorted (order_rel o) l.

Lemma asked_fine t ts R members plan viewer : readable t ts R -> Forall (row_fine (qt_types t)) (asked members plan viewer R).
Proof using Type.
  intros Hre. apply Forall_forall. intros r. unfold asked. rewrite list_filter_eq, list_elem_of_filter. intros [_ (e & -> & He)%list_elem_of_fmap].
  destruct e as [pk r]. apply elem_of_btree_entries in He. by destruct (re_rows _ _ _ Hre _ _ He).
Qed.

(** The rows of an index path, in the order the plan says is already there. *)
Lemma index_path `{SQ : SideQuery W T X} members plan viewer (sn : Snapshot W T X) sch ts R f limit t columns cand :
  kt_ok (sn_world sn) -> table_is (sn_world sn) ts R f -> cs_tables (sn_state sn) !! cp_table_id plan = Some ts -> readable t ts R ->
  Forall (cond_fine (qt_types t)) (cp_filter plan) -> (forall o vs, CompiledCond.In o vs ∈ cp_filter plan -> NoDup vs) ->
  BTree columns ∈ qt_indexes t -> index_candidate index_id_of t (cp_filter plan) (cp_order_by plan) columns = Some cand ->
  cp_residual plan = residual_of (ca_consumed cand) (cp_filter plan) -> cp_ordered_by_index plan = ca_ordered cand -> cp_cursor plan = None ->
  exists out l g, index_scan_rows past_deadline env members plan (ca_scan cand) viewer sn sch limit guard_new = Ok (out, g) /\ sg_aborted g = None /\
    (cp_ordered_by_index plan = false -> out = l) /\ (cp_ordered_by_index plan = true -> in_order plan l) /\ cut limit out = cut limit l /\
    l ≡ₚ asked members plan viewer R.
Proof using Hb KL RL.
  intros Hok Ht Ets Hre Hcs Hin Hix Hcand Eres Eord Ecur.
  set (keep := residual_keep env members sch plan None viewer). set (desc := match cp_order_by plan with Some o => os_descending o && cp_ordered_by_index plan | None => false end).
  assert (forall r, keep r = forallb (fun c => cond_matches c r) (residual_of (ca_consumed cand) (cp_filter plan)) && row_visible env members plan r viewer) as Hk.
  { intros r. unfold keep, residual_keep, cursor_skip. by rewrite Ecur, Eres. }
  assert (cp_ordered_by_index plan = true -> forall o, cp_order_by plan = Some o -> desc = os_descending o) as Hdesc by (intros E o Eo; unfold desc; by rewrite Eo, E, andb_true_r).
  pose proof (probe_scan _ _ _ _ Hok Ht _ Hre _ Hix _ _ Hcs _ Hcand) as Hp.
  destruct (scan_probes_spec (sn_world sn) ts _ keep desc (ca_scan cand) (isp_probes (ca_scan cand)) Hp) as (ls & HF0 & Hs). assert (Forall2 (probe_rows R columns cand) (isp_probes (ca_scan cand)) ls) as HF by (eapply Forall2_impl; [exact HF0|naive_solver]).
  pose proof (walk_rows _ _ _ Hre _ Hix _ _ Hcs Hin _ Hcand keep ls HF _ Hk) as Hperm. fold (asked members plan viewer R) in Hperm.
  set (l := concat (map (fun x => List.filter keep (if desc then reverse x.*2 else x.*2)) ls)) in *.
  assert (l ≡ₚ asked members plan viewer R) as Hl.
  { rewrite <- Hperm. unfold l. clear. induction ls as [|x ls IH]; [done|]. simpl. rewrite List.filter_app, fmap_app, IH. apply Permutation_app_tail. rewrite <- filter_fmap_snd.
    destruct desc; [|done]. rewrite !list_filter_eq. apply filter_Permutation. apply reverse_Permutation. }
  unfold index_scan_rows. rewrite Ecur, Ets. cbn [mbind result_bind from_option]. fold keep desc. clearbody keep desc. destruct (cp_ordered_by_index plan) eqn:Eo.
  - destruct (candidate_ordered _ _ _ _ _ _ Hcand ltac:(congruence)) as (o & p & Eor & Epr & Hcol). assert (desc = os_descending o) as Ed by auto. subst desc. rewrite Epr in *.
    inversion HF0 as [|? x ? ? [Ex Hx] HF']; subst. inversion HF'; subst. simpl in l. unfold l in *. rewrite app_nil_r in *.
    assert (in_order plan (List.filter keep (if os_descending o then reverse x.*2 else x.*2))) as Hord.
    { intros o' Eo'. simplify_eq. rewrite list_filter_eq. apply StronglySorted_filter. by eapply walk_sorted. }
    destruct limit as [n|].
    + cbn [scan_probes]. rewrite Ex. cbn [mbind result_bind].
      destruct (scan_rows_early _ past_deadline Hb keep n (if os_descending o then reverse x.*2 else x.*2) [] guard_new eq_refl ltac:(simpl; lia)) as (out & g & st & -> & Hg & E).
      exists out, (List.filter keep (if os_descending o then reverse x.*2 else x.*2)), g. split_and!; try done. by destruct st.
    + destruct (Hs [] guard_new eq_refl) as (g & -> & Hg). eexists _, _, g. simpl. split_and!; try done.
  - destruct (Hs [] guard_new eq_refl) as (g & -> & Hg). exists l, l, g. done.
Qed.

Context {SQ : SideQuery W T X} {U : Unicode} (table_id_of : list Z -> TableId) (hash64 : list Z -> Z -> Z) (sha256 : list Z -> list Z).

(** C6: a compiled query without [AFTER], [MATCH] or a spatial clause, run without a
    row budget and a deadline, returns the rows of its table that meet its
    conditions and that the viewer may see, each
    once, ordered as the query asks and cut at the effective limit, projected for
    the viewer, whichever access path the compiler chose and although a walk over
    an index stops as soon as the limit is reached. The lists of [IN] conditions
    do not repeat a value, the rows and the values of the conditions are of the declared
    types and hold no NaN and no negative zero, and indexed columns are of types
    whose keys keep the order. *)
Theorem query_reads sql plan members viewer roles (sn : Snapshot W T X) ts R f limit :
  compile table_id_of index_id_of hash64 (se_schema env) sql = Ok plan ->
  cp_fts plan = None -> cp_spatial plan = None -> cp_cursor plan = None ->
  effective_limit (se_bounds env) (cp_limit plan) = Ok limit ->
  kt_ok (sn_world sn) -> cs_tables (sn_state sn) !! cp_table_id plan = Some ts -> table_is (sn_world sn) ts R f ->
  (forall t, t ∈ se_schema env -> table_id_of (qt_name t) = cp_table_id plan -> readable t ts R /\ Forall (cond_fine (qt_types t)) (cp_filter plan)) ->
  (forall o vs, CompiledCond.In o vs ∈ cp_filter plan -> NoDup vs) ->
  exists l, initial_rows table_id_of sha256 past_deadline env members plan viewer roles sn =
      Ok (map (fun r => project_row sha256 env (cp_table_id plan) r viewer roles) (cut limit l)) /\
    l ≡ₚ asked members plan viewer R /\ in_order plan l.
Proof using Hb KL RL.
  intros Ec Efts Esp Ecur El Hok Ets Ht Hready Hin.
  destruct (compile_planned _ _ _ _ _ _ Ec Efts Esp Ecur) as (t & Hts & Eid & Escore & Hpl). destruct (Hready t Hts (eq_sym Eid)) as [Hre Hcs].
  assert (exists t', table_schema table_id_of env (cp_table_id plan) = Ok t') as [t' Et'].
  { unfold table_schema. destruct (find _ (se_schema env)) eqn:Ef; [by eexists|]. apply list_elem_of_In in Hts. apply (find_none _ _ Ef) in Hts. rewrite Eid, Z.eqb_refl in Hts. done. }
  unfold initial_rows. rewrite Et', El. cbn [mbind result_bind].
  assert (exists out l g, candidate_rows past_deadline env members plan viewer sn (qt_schema t') limit = Ok (map (fun r => (r, 0)) out, g) /\ sg_aborted g = None /\
    (cp_ordered_by_index plan = false -> out = l) /\ (cp_ordered_by_index plan = true -> in_order plan l) /\ cut limit out = cut limit l /\ l ≡ₚ asked members plan viewer R) as (out & l & g & -> & Hg & Ho1 & Ho2 & Hcut & Hl).
  { unfold candidate_rows. rewrite Efts, Esp. destruct Hpl as [Ea Eo|columns cand Hix Hcand Ea Eres Eo]; rewrite Ea.
    - rewrite Ets. cbn [from_option mbind result_bind]. pose proof Ht as [(fr & fi & fu & _ & HR & _) _]. rewrite (all_rows_spec _ _ _ _ _ Hok HR). cbn [map_err mbind result_bind].
      destruct (filter_rows_unbounded _ past_deadline Hb (fun r => plan_matches plan r && row_visible env members plan r viewer) (btree_values R) guard_new eq_refl) as (g & -> & Hg).
      eexists _, _, g. split_and!; [done..| |done|done]. congruence.
    - destruct (index_path members plan viewer sn (qt_schema t') ts R f limit t columns cand) as (out & l & g & -> & Hrest); try done.
      exists out, l, g. split; [done|]. exact Hrest. }
  cbn [mbind result_bind]. rewrite !guard_finish_unbounded by done. cbn [mbind result_bind]. unfold order_rows. rewrite Escore.
  assert ((map (fun r : row => (r, 0)) out).*1 = out) as -> by (clear; induction out as [|r out IH]; [done|]; simpl; f_equal; exact IH).
  destruct (cp_order_by plan) as [o|] eqn:Eor.
  2: { exists l. fold (cut limit out). rewrite Hcut. split_and!; [done|done|]. intros o Eo. congruence. }
  destruct (cp_ordered_by_index plan).
  - exists l. fold (cut limit out). rewrite Hcut. split_and!; [done|done|by apply Ho2].
  - rewrite (Ho1 eq_refl). exists (merge_sort (order_rel o) l). fold (cut limit (merge_sort (order_rel o) l)). split_and!; [done|by rewrite merge_sort_Permutation|].
    intros o' Eo'. simplify_eq. apply (sorted_rows (qt_types t)). rewrite Hl. by eapply asked_fine.
Qed.
End walk.
