(* ===== verification/SubTiers.v ===== *)
(** The pruning indexes of the subscription manager hold every registered query.

    [tiers_ok] is the invariant: each query is in its tier, and a column is probed
    exactly while some query is registered under it. A row a query wants selects
    that query ([candidate_complete]), for plain values. *)

From stdpp Require Import base list gmap sorting numbers strings.
From Stdlib Require Import ZArith Lia.
From S2P Require Import Prelude FluxBin Row IndexKey TxState LogRecord PageFormat PagedTree PagedTreeNode PagedTreeRep PagedTreeWrite PagedTreeSpec KvTree TableState TableSpec Reclaim MemStore MergeSpec IndexSpec StoreBuild Ieee SqlText FullText Query QueryPlan RowList Crdt Mask MatView Subscription.

(** * Maps of sets *)

Notation in_set m k h := (h ∈ default ∅ (m !! k)).

Section sets.
Context {K : Type} `{Countable K}.
Implicit Types (m : gmap K (gset Z)).

Lemma set_add_elem k h m k' h' : in_set (set_add k h m) k' h' <-> (k' = k /\ h' = h) \/ in_set m k' h'.
Proof.
  unfold set_add. destruct (decide (k' = k)) as [->|].
  - rewrite lookup_insert_eq. simpl. set_solver.
  - rewrite lookup_insert_ne by done. naive_solver.
Qed.

Lemma set_drop_elem k h m k' h' : in_set (set_drop k h m) k' h' <-> in_set m k' h' /\ ~ (k' = k /\ h' = h).
Proof.
  unfold set_drop. destruct (m !! k) as [s|] eqn:E.
  - case_bool_decide as Hs.
    + destruct (decide (k' = k)) as [->|]; [|rewrite lookup_delete_ne by done; naive_solver]. rewrite lookup_delete_eq, E. simpl. set_solver.
    + destruct (decide (k' = k)) as [->|]; [|rewrite lookup_insert_ne by done; naive_solver]. rewrite lookup_insert_eq, E. simpl. set_solver.
  - split; [|naive_solver]. intros Hh. split; [done|]. intros [-> ->]. by rewrite E in Hh.
Qed.

Lemma fold_add_elem {A} (f : A -> K) h l : forall m k' h', in_set (fold_left (fun m a => set_add (f a) h m) l m) k' h' <-> (h' = h /\ k' ∈ map f l) \/ in_set m k' h'.
Proof.
  induction l as [|a l IH]; intros m k' h'; simpl; [|rewrite IH, set_add_elem]; set_solver.
Qed.

Lemma fold_drop_elem {A} (f : A -> K) h l : forall m k' h', in_set (fold_left (fun m a => set_drop (f a) h m) l m) k' h' <-> in_set m k' h' /\ ~ (h' = h /\ k' ∈ map f l).
Proof.
  induction l as [|a l IH]; intros m k' h'; simpl; [|rewrite IH, set_drop_elem]; set_solver.
Qed.
End sets.

(** * The invariant *)

Notation queries := (gmap Z QueryState).

(** A query is in the tier of its plan. *)
Definition placed (t : Tiers) (h : Z) (plan : CompiledPlan) : Prop :=
  match search_key plan with
  | Some key => in_set (ti_search_args t) key h
  | None =>
      match cp_fts plan with
      | Some q => (forall term, term ∈ (pruning_terms q).1 -> in_set (ti_fts_terms t) (cp_table_id plan, term) h) /\
                  (forall p, p ∈ (pruning_terms q).2 -> (p, h) ∈ default [] (ti_fts_prefixes t !! cp_table_id plan))
      | None => in_set (ti_table_watchers t) (cp_table_id plan) h
      end
  end.

(** A query registered under a value of the column. *)
Definition uses (id : TableId) (col : nat) (st : QueryState) : bool :=
  match search_key (qs_plan st) with Some key => bool_decide (key.1 = (id, col)) | None => false end.

Definition users (Q : queries) (id : TableId) (col : nat) : nat := size (filter (fun p => uses id col p.2 = true) Q).

Definition probe_count (t : Tiers) (id : TableId) (col : nat) : option Z := ti_indexed_columns t !! id ≫= fun cols => cols !! col.

Definition counted (n : nat) : option Z := match n with O => None | _ => Some (Z.of_nat n) end.

Record tiers_ok (Q : queries) (t : Tiers) : Prop := {
  tk_placed : map_Forall (fun h st => placed t h (qs_plan st)) Q;
  tk_columns : forall id col, probe_count t id col = counted (users Q id col);
}.

Lemma tiers_ok_empty : tiers_ok ∅ tiers_empty.
Proof. split; [apply map_Forall_empty|]. intros id col. unfold probe_count, users. simpl. by rewrite lookup_empty, map_filter_empty, map_size_empty. Qed.

Lemma users_insert Q h st id col : Q !! h = None -> users (<[h := st]> Q) id col = (users Q id col + if uses id col st then 1 else 0)%nat.
Proof.
  intros E. unfold users. destruct (uses id col st) eqn:Eu.
  - rewrite map_filter_insert_True by done. rewrite map_size_insert_None; [lia|]. apply map_lookup_filter_None. by left.
  - rewrite map_filter_insert_False by (simpl; congruence). rewrite delete_id by done. lia.
Qed.

Lemma users_delete Q h st id col : Q !! h = Some st -> users Q id col = (users (delete h Q) id col + if uses id col st then 1 else 0)%nat.
Proof. intros E. rewrite <- (insert_delete_id Q h st E) at 1. apply users_insert, lookup_delete_eq. Qed.

Lemma users_same Q h st st' id col : Q !! h = Some st -> qs_plan st' = qs_plan st -> users (<[h := st']> Q) id col = users Q id col.
Proof.
  intros E Ep. rewrite <- insert_delete_eq, users_insert by apply lookup_delete_eq. rewrite (users_delete Q h st id col E). unfold uses. by rewrite Ep.
Qed.

Lemma counted_some Q id col : is_Some (counted (users Q id col)) <-> exists h st key, Q !! h = Some st /\ search_key (qs_plan st) = Some (id, col, key).
Proof.
  transitivity (filter (fun p => uses id col p.2 = true) Q <> ∅).
  - unfold users. rewrite <- map_size_non_empty_iff. destruct (size _); simpl; [split; [by intros []|done]|split; [done|by eexists]].
  - split.
    + intros (h & st & [E Hu]%map_lookup_filter_Some)%map_choose. exists h, st. simpl in Hu. unfold uses in Hu. destruct (search_key (qs_plan st)) as [[ic key]|]; [|done].
      apply bool_decide_eq_true in Hu. simpl in Hu. subst ic. by exists key.
    + intros (h & st & key & E & Ek) Hn. apply (map_empty_filter_1 _ _ Hn h st E). simpl. unfold uses. rewrite Ek. by apply bool_decide_eq_true.
Qed.

(** ** Registration *)

Lemma probe_count_index h plan t id col : probe_count (index_plan h plan t) id col =
  if (match search_key plan with Some key => bool_decide (key.1 = (id, col)) | None => false end) then Some (default 0 (probe_count t id col) + 1) else probe_count t id col.
Proof.
  unfold index_plan. destruct (search_key plan) as [[[i c] k]|] eqn:Ek; [|by destruct (cp_fts plan)].
  assert (i = cp_table_id plan) as ->.
  { revert Ek. unfold search_key. destruct (cp_equalities plan) as [|[c' v] ?]; [done|]. destruct (encode_row [v]); [|done]. by intros [= <- _ _]. }
  unfold probe_count. cbn [ti_indexed_columns fst snd]. case_bool_decide as E.
  - injection E as <- <-. rewrite lookup_insert_eq. cbn [mbind option_bind]. rewrite lookup_insert_eq. by destruct (ti_indexed_columns t !! cp_table_id plan).
  - destruct (decide (id = cp_table_id plan)) as [->|]; [|by rewrite lookup_insert_ne]. rewrite lookup_insert_eq. cbn [mbind option_bind]. rewrite lookup_insert_ne by congruence.
    by destruct (ti_indexed_columns t !! cp_table_id plan); simpl; rewrite ?lookup_empty.
Qed.

Lemma fold_prefix_elem (id : TableId) (h : Z) ps : forall (m : gmap TableId (list (list Z * Z))) id' e,
  e ∈ default [] (fold_left (fun m p => <[id := default [] (m !! id) ++ [(p, h)]]> m) ps m !! id') <->
  (id' = id /\ e.2 = h /\ e.1 ∈ ps) \/ e ∈ default [] (m !! id').
Proof.
  induction ps as [|p ps IH]; intros m id' e; simpl; [set_solver|]. rewrite IH. destruct (decide (id' = id)) as [->|].
  - rewrite lookup_insert_eq. simpl. rewrite elem_of_app, list_elem_of_singleton, elem_of_cons. destruct e as [p' h']. simpl. naive_solver.
  - rewrite lookup_insert_ne by done. naive_solver.
Qed.

Lemma placed_index_self h plan t : placed (index_plan h plan t) h plan.
Proof.
  unfold placed, index_plan. destruct (search_key plan) as [key|]; simpl; [apply set_add_elem; by left|].
  destruct (cp_fts plan) as [q|]; simpl; [|apply set_add_elem; by left]. split.
  - intros term Ht. apply (fold_add_elem (fun term => (cp_table_id plan, term))). left. split; [done|]. by apply list_elem_of_fmap_2.
  - intros p Hp. apply fold_prefix_elem. by left.
Qed.

(** Registering a plan removes nothing. *)
Lemma placed_index h plan t h' plan' : placed t h' plan' -> placed (index_plan h plan t) h' plan'.
Proof.
  unfold placed, index_plan. destruct (search_key plan) as [key|], (search_key plan') as [key'|]; simpl; try done.
  - intros. apply set_add_elem. by right.
  - by destruct (cp_fts plan).
  - destruct (cp_fts plan) as [q|], (cp_fts plan') as [q'|]; simpl; try done.
    + intros [H1 H2]. split; intros x Hx; [apply (fold_add_elem (fun term => (cp_table_id plan, term)))|apply fold_prefix_elem]; right; auto.
    + intros. apply set_add_elem. by right.
Qed.

Lemma index_plan_ok Q t h st : Q !! h = None -> tiers_ok Q t -> tiers_ok (<[h := st]> Q) (index_plan h (qs_plan st) t).
Proof.
  intros E [HP HC]. split.
  - apply map_Forall_insert; [done|]. split; [apply placed_index_self|]. eapply map_Forall_impl; [exact HP|]. intros h' st'. apply placed_index.
  - intros id col. rewrite probe_count_index, users_insert by done. fold (uses id col st). rewrite HC. destruct (uses id col st); [|by rewrite Nat.add_0_r].
    destruct (users Q id col) as [|n]; simpl; f_equal; lia.
Qed.

Lemma same_plan_ok Q t h st st' : Q !! h = Some st -> qs_plan st' = qs_plan st -> tiers_ok Q t -> tiers_ok (<[h := st']> Q) t.
Proof.
  intros E Ep [HP HC]. split.
  - apply map_Forall_insert_2; [rewrite Ep; by apply (HP h)|done].
  - intros id col. by rewrite HC, (users_same Q h st).
Qed.

(** ** Removal *)

Lemma drop_column_lookup id col m id' col' : (forall cols n, m !! id = Some cols -> cols !! col = Some n -> 0 < n) ->
  (drop_column id col m !! id' ≫= fun cols => cols !! col') =
  if decide (id' = id /\ col' = col) then match m !! id ≫= fun cols => cols !! col with Some n => if n =? 1 then None else Some (n - 1) | None => None end
  else m !! id' ≫= fun cols => cols !! col'.
Proof.
  intros Hpos. unfold drop_column. destruct (m !! id) as [cols|] eqn:Em.
  2: { case_decide as Hd; [|done]. destruct Hd as [-> ->]. by rewrite Em. }
  set (cols' := match cols !! col with Some n => if n - 1 =? 0 then delete col cols else <[col := n - 1]> cols | None => cols end).
  assert (cols' !! col' = if decide (col' = col) then match cols !! col with Some n => if n =? 1 then None else Some (n - 1) | None => None end else cols !! col') as Ec.
  { unfold cols'. destruct (cols !! col) as [n|] eqn:E.
    - destruct (Z.eqb_spec (n - 1) 0), (Z.eqb_spec n 1); try lia; case_decide; subst; by rewrite ?lookup_delete_eq, ?lookup_delete_ne, ?lookup_insert_eq, ?lookup_insert_ne.
    - case_decide; by subst. }
  assert ((if bool_decide (cols' = ∅) then delete id m else <[id := cols']> m) !! id' ≫= (fun cols => cols !! col') = if decide (id' = id) then cols' !! col' else m !! id' ≫= fun cols => cols !! col') as ->.
  { case_bool_decide as Hc; (destruct (decide (id' = id)) as [->|]; [|by rewrite ?lookup_delete_ne, ?lookup_insert_ne]).
    - rewrite lookup_delete_eq. simpl. by rewrite Hc, lookup_empty.
    - by rewrite lookup_insert_eq. }
  rewrite Ec. cbn [mbind option_bind]. destruct (decide (id' = id)) as [->|].
  - rewrite Em. cbn [mbind option_bind]. destruct (decide (col' = col)) as [->|]; [by rewrite decide_True|by rewrite decide_False by naive_solver].
  - by rewrite decide_False by naive_solver.
Qed.

Lemma placed_deindex h plan t h' plan' : h' <> h -> placed t h' plan' -> placed (deindex_plan h plan t) h' plan'.
Proof.
  intros Hne. unfold placed, deindex_plan. destruct (search_key plan) as [key|], (search_key plan') as [key'|]; simpl; try done.
  - intros. apply set_drop_elem. naive_solver.
  - by destruct (cp_fts plan).
  - destruct (cp_fts plan) as [q|], (cp_fts plan') as [q'|]; simpl; try done.
    + intros [H1 H2]. split; intros x Hx; [apply (fold_drop_elem (fun term => (cp_table_id plan, term))); naive_solver|]. specialize (H2 x Hx). revert H2.
      destruct (flat_map item_prefixes (fts_items q)) as [|p0 ps]; [done|]. destruct (ti_fts_prefixes t !! cp_table_id plan) as [l|] eqn:El; [|done]. intros H2.
      destruct (decide (cp_table_id plan' = cp_table_id plan)) as [E|]; [|destruct (List.filter _ l); by rewrite ?lookup_delete_ne, ?lookup_insert_ne]. rewrite E, El in *. simpl in H2.
      assert ((x, h') ∈ List.filter (fun e => negb ((e.2 =? h) && existsb (fun p => bool_decide (p = e.1)) (p0 :: ps))) l) as Hin.
      { apply list_elem_of_In, filter_In. split; [by apply list_elem_of_In|]. cbn [fst snd]. by rewrite (proj2 (Z.eqb_neq _ _)). }
      destruct (List.filter _ l) as [|e l']; [by apply elem_of_nil in Hin|]. by rewrite lookup_insert_eq.
    + intros. apply set_drop_elem. naive_solver.
Qed.

Lemma search_key_table plan key : search_key plan = Some key -> key.1.1 = cp_table_id plan.
Proof. unfold search_key. destruct (cp_equalities plan) as [|[c' v] ?]; [done|]. destruct (encode_row [v]); [|done]. by intros [= <-]. Qed.

Lemma deindex_plan_ok Q t h st : Q !! h = Some st -> tiers_ok Q t -> tiers_ok (delete h Q) (deindex_plan h (qs_plan st) t).
Proof.
  intros E [HP HC]. split.
  - intros h' st' [Hne E']%lookup_delete_Some. by apply placed_deindex, (HP h').
  - intros id col. pose proof (HC id col) as Hc. rewrite (users_delete Q h st id col E) in Hc. unfold uses in Hc. unfold deindex_plan.
    destruct (search_key (qs_plan st)) as [key|] eqn:Ek; [|destruct (cp_fts (qs_plan st)); by rewrite Nat.add_0_r in Hc].
    unfold probe_count. cbn [ti_indexed_columns]. pose proof (search_key_table _ _ Ek) as Ei. rewrite <- Ei, drop_column_lookup.
    + destruct (decide (id = key.1.1 /\ col = key.1.2)) as [[-> ->]|Hd].
      * rewrite bool_decide_eq_true_2 in Hc by by destruct key as [[? ?] ?]. fold (probe_count t key.1.1 key.1.2). rewrite Hc.
        destruct (users (delete h Q) key.1.1 key.1.2) as [|n]; [done|]. rewrite Nat.add_1_r. cbn [counted]. rewrite (proj2 (Z.eqb_neq _ _)) by lia. f_equal. lia.
      * rewrite bool_decide_eq_false_2, Nat.add_0_r in Hc by (destruct key as [[? ?] ?]; naive_solver). exact Hc.
    + intros cols n Ec En. pose proof (HC key.1.1 key.1.2) as Hc'. unfold probe_count in Hc'. rewrite Ec in Hc'. cbn [mbind option_bind] in Hc'. rewrite En in Hc'.
      destruct (users Q key.1.1 key.1.2); simpl in Hc'; [done|]. injection Hc' as ->. lia.
Qed.

(** * Candidates *)

(** A plan as the compiler makes it: the registered equality is one of its
    conditions, its full-text column has an analyzer. *)
Record plan_ok (env : SubEnv) (plan : CompiledPlan) : Prop := {
  pk_equalities : cp_equalities plan = equalities_of (cp_filter plan);
  pk_fts : forall q, cp_fts plan = Some q -> fts_items q <> [] /\ (fts_column q, fts_analyzer q) ∈ default [] (se_fts_analyzers env !! cp_table_id plan);
}.

Definition plain_value (v : RowValue.t) : Prop := value_ok v = true /\ plain v = true.

(** No equality a plan is registered under compares with a negative zero or NaN. *)
Definition plain_plan (plan : CompiledPlan) : Prop := forall o v, CompiledCond.Eq o v ∈ cp_filter plan -> plain_value v.

Section candidates.
Context {U : Unicode} (env : SubEnv).

Lemma elem_of_union_map {A} (f : A -> gset Z) l h : h ∈ ⋃ (map f l) <-> exists x, x ∈ l /\ h ∈ f x.
Proof using Type. rewrite elem_of_union_list. setoid_rewrite list_elem_of_fmap. naive_solver. Qed.

Lemma equality_in plan o v : cp_equalities plan = equalities_of (cp_filter plan) -> (o, v) ∈ cp_equalities plan -> CompiledCond.Eq o v ∈ cp_filter plan.
Proof using Type.
  intros -> (c & Hc & E)%list_elem_of_omap. destruct c; try discriminate E. by injection E as -> ->.
Qed.

Lemma value_tier t (Q : queries) h st r key : tiers_ok Q t -> Q !! h = Some st -> plan_ok env (qs_plan st) -> plain_plan (qs_plan st) ->
  search_key (qs_plan st) = Some key -> plan_matches (qs_plan st) r = true -> Forall plain_value r -> h ∈ select_by_value t (cp_table_id (qs_plan st)) r.
Proof using Type.
  intros HT E [Heq _] Hpl Ek Hm Hr. unfold search_key in Ek. destruct (cp_equalities (qs_plan st)) as [|[col v] rest] eqn:Ee; [done|].
  destruct (encode_row [v]) as [k|] eqn:Ev; [|done]. injection Ek as <-.
  assert (CompiledCond.Eq col v ∈ cp_filter (qs_plan st)) as Hin by (apply equality_in; rewrite ?Ee; [done|by left]).
  unfold plan_matches in Hm. rewrite forallb_forall in Hm. specialize (Hm _ (proj1 (list_elem_of_In _ _) Hin)). simpl in Hm. destruct (r !! col) as [x|] eqn:Ex; [|done].
  assert (x = v) as ->.
  { destruct (Hpl _ _ Hin). rewrite Forall_forall in Hr. destruct (Hr x) as [??]; [by eapply list_elem_of_lookup_2|]. by apply value_eq_eq. }
  assert (search_key (qs_plan st) = Some (cp_table_id (qs_plan st), col, k)) as Ek by (unfold search_key; by rewrite Ee, Ev).
  pose proof (tk_placed _ _ HT h st E) as Hp. unfold placed in Hp. rewrite Ek in Hp.
  assert (is_Some (probe_count t (cp_table_id (qs_plan st)) col)) as [n Hn].
  { rewrite (tk_columns _ _ HT), (users_delete Q h st _ _ E). unfold uses. rewrite Ek. rewrite bool_decide_eq_true_2 by done. rewrite Nat.add_1_r. by eexists. }
  unfold probe_count in Hn. destruct (ti_indexed_columns t !! cp_table_id (qs_plan st)) as [cols|] eqn:Ec; [|done]. cbn [mbind option_bind] in Hn.
  unfold select_by_value. apply elem_of_union_map. exists col. split; [|by rewrite Ex, Ev]. rewrite Ec. apply list_elem_of_fmap. exists (col, n). split; [done|]. by apply elem_of_map_to_list.
Qed.

Lemma row_text q r : matches_row q r = true -> exists text, fts_text (r !! fts_column q) = Some text /\ matches_text q text = true.
Proof using Type.
  unfold matches_row, fts_text. destruct (r !! fts_column q) as [v|]; [|done]. destruct v as [| | | | | | | | | | | | | | | | | | |[v|]|l| |]; try done; [by eexists| |].
  - destruct v; try done. by eexists.
  - destruct (mapM str_of l) as [parts|] eqn:Em; [|done]. intros Hm. eexists. split; [done|]. enough (omap str_of l = parts) as -> by done.
    revert parts Em Hm. clear. intros parts Em _. apply mapM_Some in Em. induction Em as [|x p l parts E _ IH]; [done|]. cbn [omap list_omap]. rewrite E. f_equal. exact IH.
Qed.

Lemma fts_tier t (Q : queries) h st r q : tiers_ok Q t -> Q !! h = Some st -> plan_ok env (qs_plan st) -> search_key (qs_plan st) = None ->
  cp_fts (qs_plan st) = Some q -> matches_row q r = true -> h ∈ select_by_fts_terms env t (cp_table_id (qs_plan st)) r.
Proof using Type.
  intros HT E [_ Hf] Ek Eq Hm. destruct (Hf q Eq) as [Hne Ha]. destruct (row_text q r Hm) as (text & Et & Hmt). destruct (matches_pruned q text Hne Hmt) as (term & pos & Hin & Hh).
  pose proof (tk_placed _ _ HT h st E) as Hp. unfold placed in Hp. rewrite Ek, Eq in Hp. destruct Hp as [H1 H2].
  unfold select_by_fts_terms. apply elem_of_union_map. exists (fts_column q, fts_analyzer q). split; [done|]. cbn [fst snd]. rewrite Et. apply elem_of_union_map. exists (term, pos). split; [done|]. cbn [fst snd].
  apply elem_of_union. unfold term_hits in Hh. apply orb_true_iff in Hh as [Hh|Hh]; apply existsb_exists in Hh as (x & Hx & Hh); apply list_elem_of_In in Hx.
  - apply bool_decide_eq_true in Hh as ->. left. by apply H1.
  - right. apply elem_of_list_to_set, list_elem_of_omap. exists (x, h). split; [by apply H2|]. cbn [fst snd]. by rewrite Hh.
Qed.

(** A delta row a query keeps selects the query. *)
Lemma candidate_complete t (Q : queries) h st diff td r members viewer : tiers_ok Q t -> Q !! h = Some st -> plan_ok env (qs_plan st) -> plain_plan (qs_plan st) ->
  td ∈ diff_tables diff -> td_table_id td = cp_table_id (qs_plan st) -> r ∈ td_inserts td ++ (td_deletes td).*2 -> Forall plain_value r ->
  delta_keep env members (qs_plan st) viewer r = true -> h ∈ candidate_plans env t diff.
Proof using Type.
  intros HT E Hok Hpl Htd Eid Hr Hplain Hk. unfold delta_keep in Hk. apply andb_true_iff in Hk as [[Hm Hfts]%andb_true_iff _].
  unfold candidate_plans. apply elem_of_union_map. exists td. split; [done|]. rewrite Eid. apply elem_of_union.
  destruct (search_key (qs_plan st)) as [key|] eqn:Ek; [right|destruct (cp_fts (qs_plan st)) as [q|] eqn:Eq; [right|left]].
  - apply elem_of_union_map. exists r. split; [done|]. apply elem_of_union. left. by eapply value_tier.
  - apply elem_of_union_map. exists r. split; [done|]. apply elem_of_union. right. by eapply fts_tier.
  - pose proof (tk_placed _ _ HT h st E) as Hp. unfold placed in Hp. by rewrite Ek, Eq in Hp.
Qed.
End candidates.
