(* ===== verification/SendBuffer.v ===== *)
(** The send buffer of a subscriber, [subscription/sendbuffer.rs]: a bounded queue
    of encoded updates whose tier decides what is queued, skipped or dropped.

    [buffer_fifo]: what is taken is what was queued, in order, and the byte count
    and the blocked window agree with the queue. [busy_buffer_dropped]: the window
    is closed by an empty queue only, so a consumer that keeps draining but never
    catches up is dropped as blocked. The occupancy is the f64 quotient the code
    computes; a clock value is a signed 64-bit count of microseconds. *)

From stdpp Require Import base list numbers.
From Stdlib Require Import ZArith Lia SpecFloat.
From S2P Require Import Prelude FluxBin Row Ieee MatView.

(** [BLOCKED_DROP_AFTER], in microseconds. *)
Definition BLOCKED_DROP_AFTER : Z := 5000000.

Inductive Tier : Type := Normal | Pressured | Full.

Inductive DropReason : Type := BufferFull | BlockedTimeout.

Inductive Offered : Type := Enqueued | SkippedPressured | Drop (reason : DropReason).

Record Message : Type := { msg_bytes : list Z; tick_sourced : bool; high_priority : bool }.

(** The counter of drops by reason; [fetch_add] wraps around. *)
Record SubscriberDropCounter : Type := { buffer_full : Z; blocked_timeout : Z }.

Definition counter_new : SubscriberDropCounter := {| buffer_full := 0; blocked_timeout := 0 |}.

Definition counter_record (c : SubscriberDropCounter) (reason : DropReason) : SubscriberDropCounter :=
  match reason with
  | BufferFull => {| buffer_full := (buffer_full c + 1) mod 2 ^ 64; blocked_timeout := blocked_timeout c |}
  | BlockedTimeout => {| buffer_full := buffer_full c; blocked_timeout := (blocked_timeout c + 1) mod 2 ^ 64 |}
  end.

Definition counter_count (c : SubscriberDropCounter) (reason : DropReason) : Z :=
  match reason with BufferFull => buffer_full c | BlockedTimeout => blocked_timeout c end.

Record SubscriberBuffer : Type := {
  capacity_bytes : Z;
  queued_bytes : Z;
  queue : list (list Z);
  blocked_since : option Z;
}.

Definition buffer_new (capacity : Z) : SubscriberBuffer :=
  {| capacity_bytes := Z.max capacity 1; queued_bytes := 0; queue := []; blocked_since := None |}.

Definition occupancy (b : SubscriberBuffer) : spec_float := f64_div (f64_of_Z (queued_bytes b)) (f64_of_Z (capacity_bytes b)).

(** The f64 literals [0.90] and [0.50]. *)
Definition FULL_AT : spec_float := float_of 64 (parse_f64 false 90 2).
Definition PRESSURED_AT : spec_float := float_of 64 (parse_f64 false 50 2).

Definition f64_gt (x y : spec_float) : bool := match SFcompare x y with Some Gt => true | _ => false end.
Definition f64_ge (x y : spec_float) : bool := match SFcompare x y with Some Gt | Some Eq => true | _ => false end.

(** [i64::saturating_sub]. *)
Definition elapsed (now since : Z) : Z := Z.max (- 2 ^ 63) (Z.min (now - since) (2 ^ 63 - 1)).

Definition blocked_past_deadline (b : SubscriberBuffer) (now : Z) : bool :=
  match blocked_since b with Some since => BLOCKED_DROP_AFTER <? elapsed now since | None => false end.

Definition tier (b : SubscriberBuffer) (now : Z) : Tier :=
  if blocked_past_deadline b now then Full
  else if f64_gt (occupancy b) FULL_AT then Full
  else if f64_ge (occupancy b) PRESSURED_AT then Pressured
  else Normal.

Definition enqueue (b : SubscriberBuffer) (bytes : list Z) (now : Z) : SubscriberBuffer :=
  {| capacity_bytes := capacity_bytes b; queued_bytes := queued_bytes b + blen bytes; queue := queue b ++ [bytes];
     blocked_since := match queue b with [] => Some now | _ => blocked_since b end |}.

Definition offer (b : SubscriberBuffer) (m : Message) (now : Z) : Offered * SubscriberBuffer :=
  match tier b now with
  | Full => (Drop (if blocked_past_deadline b now then BlockedTimeout else BufferFull), b)
  | Pressured => if tick_sourced m && negb (high_priority m) then (SkippedPressured, b) else (Enqueued, enqueue b (msg_bytes m) now)
  | Normal => (Enqueued, enqueue b (msg_bytes m) now)
  end.

Definition buffer_take (b : SubscriberBuffer) : option (list Z) * SubscriberBuffer :=
  match queue b with
  | [] => (None, b)
  | m :: rest => (Some m, {| capacity_bytes := capacity_bytes b; queued_bytes := queued_bytes b - blen m; queue := rest;
                             blocked_since := match rest with [] => None | _ => blocked_since b end |})
  end.

(** The tiers at the boundaries of the code's own test, and the floor of one byte. *)
Example tier_boundaries : (fun n => tier {| capacity_bytes := 100; queued_bytes := n; queue := [[]]; blocked_since := Some 0 |} 0) <$> [49; 50; 90; 91] = [Normal; Pressured; Pressured; Full].
Proof. vm_compute. reflexivity. Qed.

(** * A run of the fan-out and the writer *)

Inductive BufferOp : Type := OpOffer (m : Message) (now : Z) | OpTake.

(** What was queued and what was taken, in order. *)
Fixpoint serve (b : SubscriberBuffer) (ops : list BufferOp) : list (list Z) * list (list Z) * SubscriberBuffer :=
  match ops with
  | [] => ([], [], b)
  | OpOffer m now :: ops =>
      let '(o, b1) := offer b m now in
      let '(enq, taken, b2) := serve b1 ops in
      (match o with Enqueued => msg_bytes m :: enq | _ => enq end, taken, b2)
  | OpTake :: ops =>
      let '(o, b1) := buffer_take b in
      let '(enq, taken, b2) := serve b1 ops in
      (enq, match o with Some x => x :: taken | None => taken end, b2)
  end.

Definition total (l : list (list Z)) : Z := Z.of_nat (length (concat l)).

Definition buffer_ok (b : SubscriberBuffer) : Prop := queued_bytes b = total (queue b) /\ (blocked_since b = None <-> queue b = []).

Lemma total_app l k : total (l ++ k) = total l + total k.
Proof. unfold total. rewrite concat_app, length_app. lia. Qed.

Lemma total_one m : total [m] = blen m.
Proof. unfold total, blen. simpl. by rewrite app_nil_r. Qed.

Lemma enqueue_ok b m now : buffer_ok b -> buffer_ok (enqueue b m now).
Proof.
  intros [H1 H2]. split; simpl; [by rewrite total_app, total_one, H1|]. split; [|by destruct (queue b)].
  destruct (queue b); [done|]. intros E. by apply H2 in E.
Qed.

(** An offer queues its message at the end or changes nothing. *)
Lemma offer_cases b m now : (offer b m now).2 = b /\ (offer b m now).1 <> Enqueued \/ offer b m now = (Enqueued, enqueue b (msg_bytes m) now).
Proof. unfold offer. destruct (tier b now); [by right| |by left]. destruct (_ && _); [by left|by right]. Qed.

Lemma take_ok b : buffer_ok b -> buffer_ok (buffer_take b).2.
Proof.
  intros [H1 H2]. unfold buffer_take. destruct (queue b) as [|m rest] eqn:Eq; simpl; [by split; rewrite Eq|]. split; simpl.
  - change (m :: rest) with ([m] ++ rest) in H1. rewrite total_app, total_one in H1. lia.
  - destruct rest; [done|]. split; [|done]. intros E. by apply H2 in E.
Qed.

Lemma serve_spec ops : forall b enq taken b', buffer_ok b -> serve b ops = (enq, taken, b') -> queue b ++ enq = taken ++ queue b' /\ buffer_ok b'.
Proof.
  induction ops as [|[m now|] ops IH]; intros b enq taken b' Hb; cbn [serve].
  - intros [= <- <- <-]. by rewrite app_nil_r.
  - destruct (offer_cases b m now) as [[E1 E2]|E]; [destruct (offer b m now) as [o b1]; simpl in E1, E2; subst b1|rewrite E];
      destruct (serve _ ops) as [[enq1 taken1] b2] eqn:Es; intros [= <- <- <-].
    + destruct (IH _ _ _ _ Hb Es) as [H1 H2]. by destruct o.
    + destruct (IH _ _ _ _ (enqueue_ok _ _ _ Hb) Es) as [H1 H2]. split; [|done]. rewrite <- H1. simpl. by rewrite <- app_assoc.
  - pose proof (take_ok b Hb) as Hb1. destruct (buffer_take b) as [o b1] eqn:Et. destruct (serve b1 ops) as [[enq1 taken1] b2] eqn:Es. intros [= <- <- <-].
    destruct (IH _ _ _ _ Hb1 Es) as [H1 H2]. split; [|done]. unfold buffer_take in Et. destruct (queue b) as [|m rest] eqn:Eq; injection Et as <- E1; [subst b1; simpl in H1; rewrite Eq in H1; exact H1|subst b1].
    simpl in *. by rewrite H1.
Qed.

(** a subscriber receives the queued updates in order, none twice and none lost.
    After any sequence of offers and takes, what was taken followed by what is
    still queued is what the offers queued, the byte count is the size of the
    queue, and a blocked window is open exactly while the queue is not empty. *)
Theorem buffer_fifo capacity ops : let '(enq, taken, b) := serve (buffer_new capacity) ops in
  taken ++ queue b = enq /\ queued_bytes b = total (queue b) /\ (blocked_since b = None <-> queue b = []).
Proof.
  destruct (serve (buffer_new capacity) ops) as [[enq taken] b] eqn:E. apply serve_spec in E as [E Hb]; [|by split]. split; [|exact Hb]. by rewrite <- E.
Qed.

(** * The blocked window *)

(** The queue holds something after each of the operations. *)
Fixpoint never_empty (b : SubscriberBuffer) (ops : list BufferOp) : bool :=
  match ops with
  | [] => true
  | op :: ops =>
      let b1 := match op with OpOffer m now => (offer b m now).2 | OpTake => (buffer_take b).2 end in
      negb (bool_decide (queue b1 = [])) && never_empty b1 ops
  end.

Lemma window_stays ops : forall b enq taken b', queue b <> [] -> never_empty b ops = true -> serve b ops = (enq, taken, b') -> blocked_since b' = blocked_since b.
Proof.
  induction ops as [|[m now|] ops IH]; intros b enq taken b' Hne; cbn [serve never_empty]; [by intros _ [= _ _ <-]| |];
    intros [Hq%negb_true_iff%bool_decide_eq_false_1 Hn]%andb_true_iff.
  - destruct (offer b m now) as [o b1] eqn:Eo. destruct (serve b1 ops) as [[enq1 taken1] b2] eqn:Es. intros [= _ _ <-]. rewrite (IH _ _ _ _ Hq Hn Es).
    destruct (offer_cases b m now) as [[E _]|E]; rewrite Eo in E; [by simpl in E; subst|]. injection E as -> ->. simpl. by destruct (queue b).
  - destruct (buffer_take b) as [o b1] eqn:Eo. destruct (serve b1 ops) as [[enq1 taken1] b2] eqn:Es. intros [= _ _ <-]. rewrite (IH _ _ _ _ Hq Hn Es).
    unfold buffer_take in Eo. destruct (queue b) as [|x rest]; [done|]. injection Eo as <- <-. simpl in *. by destruct rest.
Qed.

(** the five-second limit counts from the moment the queue last stopped being
    empty, not from the last progress: while the queue never empties, a message
    offered more than five seconds after that moment drops the connection as
    blocked, whatever was taken in between. *)
Theorem busy_buffer_dropped b since ops enq taken b' m now : blocked_since b = Some since -> queue b <> [] -> never_empty b ops = true ->
  serve b ops = (enq, taken, b') -> BLOCKED_DROP_AFTER < elapsed now since -> offer b' m now = (Drop BlockedTimeout, b').
Proof.
  intros Hs Hq Hn E Hd. assert (blocked_past_deadline b' now = true) as Hp.
  { unfold blocked_past_deadline. rewrite (window_stays _ _ _ _ _ Hq Hn E), Hs. by apply Z.ltb_lt. }
  unfold offer, tier. by rewrite Hp.
Qed.

(** One small update a second, each taken at once: the queue holds one update
    throughout and the consumer is dropped after six seconds. *)
Definition small (now : Z) : BufferOp := OpOffer {| msg_bytes := [1]; tick_sourced := false; high_priority := true |} (now * 1000000).
Definition steady : list BufferOp := flat_map (fun t => [small t; OpTake]) [1; 2; 3; 4; 5].
Definition started : SubscriberBuffer := enqueue (buffer_new 2000000) [1] 0.

Lemma busy_buffer_dropped_witness : exists enq taken b', serve started steady = (enq, taken, b') /\ length taken = 5%nat /\ length (queue b') = 1%nat /\
  offer b' {| msg_bytes := [1]; tick_sourced := false; high_priority := true |} 6000000 = (Drop BlockedTimeout, b').
Proof.
  assert (exists enq taken b', serve started steady = (enq, taken, b') /\ length taken = 5%nat /\ length (queue b') = 1%nat) as (enq & taken & b' & E & H1 & H2).
  { eexists _, _, _. split; [vm_compute; reflexivity|]. split; reflexivity. }
  exists enq, taken, b'. split; [exact E|]. split; [exact H1|]. split; [exact H2|].
  apply (busy_buffer_dropped started 0 steady enq taken b'); [reflexivity|discriminate|vm_compute; reflexivity|exact E|vm_compute; reflexivity].
Defined.
