(* ===== verification/SubManager.v ===== *)
(** The bookkeeping of the subscription manager.

    [manager_ok] is kept by every operation: the pruning indexes hold exactly the
    registered queries, every query has a subscriber, every subscriber of a query
    has a handle for it, retained windows belong to registered queries, the caps
    hold and handles are below the connection's counter. *)

From stdpp Require Import base list gmap sorting numbers strings relations.
From Stdlib Require Import ZArith Lia.
From S2P Require Import Prelude FluxBin Row IndexKey TxState LogRecord PageFormat PagedTree PagedTreeNode PagedTreeRep PagedTreeWrite PagedTreeSpec KvTree TableState TableSpec Reclaim MemStore MergeSpec IndexSpec StoreBuild Ieee SqlText FullText Query QueryPlan RowList Crdt Mask MatView Subscription SubTiers.

(** * Compiled plans *)

Section plans.
Context {U : Unicode} (table_id_of : list Z -> TableId) (index_id_of : list Z -> list (list Z) -> IndexId) (hash64 : list Z -> Z -> Z).

Lemma analyzers_elem schema : forall (acc : gmap TableId (list (nat * Analyzer))) (id : TableId) x,
  x ∈ default [] (fold_left (fun acc t => match fts_analyzers_of t with [] => acc | l => <[table_id_of (qt_name t) := default [] (acc !! table_id_of (qt_name t)) ++ l]> acc end) schema acc !! id) <->
  x ∈ default [] (acc !! id) \/ exists t, t ∈ schema /\ id = table_id_of (qt_name t) /\ x ∈ fts_analyzers_of t.
Proof using Type.
  induction schema as [|t schema IH]; intros acc id x; cbn [fold_left]; [set_solver|]. rewrite IH.
  assert (x ∈ default [] (match fts_analyzers_of t with [] => acc | l => <[table_id_of (qt_name t) := default [] (acc !! table_id_of (qt_name t)) ++ l]> acc end !! id) <->
    x ∈ default [] (acc !! id) \/ (id = table_id_of (qt_name t) /\ x ∈ fts_analyzers_of t)) as ->.
  { destruct (fts_analyzers_of t) as [|a l] eqn:E; [set_solver|]. destruct (decide (id = table_id_of (qt_name t))) as [->|].
    - rewrite lookup_insert_eq. simpl. rewrite elem_of_app. naive_solver.
    - rewrite lookup_insert_ne by done. naive_solver. }
  setoid_rewrite elem_of_cons. naive_solver.
Qed.

Lemma fulltext_analyzer_in t o a : fulltext_analyzer t o = Some a -> (o, a) ∈ fts_analyzers_of t.
Proof using Type.
  unfold fulltext_analyzer, fts_analyzers_of. destruct (find _ (qt_indexes t)) as [ix|] eqn:E; [|done]. apply find_some in E as [Hin%list_elem_of_In Hc].
  destruct ix as [|?|col e sw st]; try done. apply Nat.eqb_eq in Hc as ->. intros [= <-]. apply list_elem_of_omap. by eexists.
Qed.

Lemma compile_conditions_fts t cs : forall fts conds fts', compile_conditions t cs fts = Ok (conds, fts') ->
  fts' = fts \/ exists q, fts' = Some q /\ fts_items q <> [] /\ (fts_column q, fts_analyzer q) ∈ fts_analyzers_of t.
Proof using Type.
  induction cs as [|c cs IH]; intros fts conds fts'; cbn [compile_conditions]; [intros [= _ <-]; by left|].
  assert (forall c', compile_condition t c' ≫= (fun c => compile_conditions t cs fts ≫= fun '(cs, fts) => Ok (c :: cs, fts)) = Ok (conds, fts') ->
    fts' = fts \/ exists q, fts' = Some q /\ fts_items q <> [] /\ (fts_column q, fts_analyzer q) ∈ fts_analyzers_of t) as Hgen.
  { intros c'. destruct (compile_condition t c') as [c1|]; cbn [mbind result_bind]; [|done]. destruct (compile_conditions t cs fts) as [[cs1 f1]|] eqn:E1; cbn [mbind result_bind]; [|done].
    intros [= _ ->]. by eapply IH. }
  destruct c; try apply Hgen. rename column into col, query into raw. clear Hgen. destruct fts as [|]; [done|]. destruct (resolve_column t col) as [[o ty]|]; cbn [mbind result_bind]; [|done].
  destruct (fulltext_analyzer t o) as [a|] eqn:Ea; cbn [from_option mbind result_bind]; [|done]. destruct (fts_parse raw o a) as [q|] eqn:Eq; cbn [mbind result_bind]; [|done].
  intros [->|H]%IH; [|by right]. right. exists q. apply fts_parse_items in Eq as (? & <- & <-). split_and!; [done|done|]. by apply fulltext_analyzer_in.
Qed.

Lemma compile_plan_ok env sql plan : se_fts_analyzers env = fts_analyzers table_id_of (se_schema env) ->
  compile table_id_of index_id_of hash64 (se_schema env) sql = Ok plan -> plan_ok env plan.
Proof using Type.
  intros Ef. unfold compile. destruct (parse_sql sql) as [ast|]; [|done]. cbn [mbind result_bind]. unfold compile_ast.
  destruct (find_table (se_schema env) (q_table ast)) as [t|] eqn:Et; [|done]. cbn [from_option mbind result_bind].
  destruct (compile_conditions t (q_conditions ast) None) as [[cs fts]|] eqn:Ecs; [|done]. cbn [mbind result_bind].
  destruct (match q_spatial ast with Some c => _ | None => _ end) as [spatial|]; [|done]. cbn [mbind result_bind].
  destruct (_ && _); [done|]. destruct (compile_order t _ (q_order_by ast)) as [[order score]|]; [|done]. cbn [mbind result_bind].
  destruct (q_select_score ast && _); [done|]. destruct (if _ || _ then _ else _) as [[access consumed] ordered].
  destruct (check_tiebreak t order (q_order_tiebreak ast)) as [[]|]; [|done]. cbn [mbind result_bind].
  destruct (compile_cursor t order ordered access (q_after ast)) as [[access' cursor]|]; [|done]. cbn [mbind result_bind].
  intros [= <-]. split; [done|]. cbn [cp_fts cp_table_id]. intros q ->. apply compile_conditions_fts in Ecs as [|(q' & [= <-] & Hne & Hin)]; [done|].
  split; [done|]. rewrite Ef. apply analyzers_elem. right. exists t. split_and!; [by apply find_some in Et as [?%list_elem_of_In _]|done|done].
Qed.
End plans.

(** * The invariant *)

Definition live_query (env : SubEnv) (st : QueryState) : Prop := plan_ok env (qs_plan st) /\ qs_subscribers st <> ∅.

(** The parts that do not relate subscribers with handles. *)
Record core_ok (env : SubEnv) (m : Manager) : Prop := {
  mo_tiers : tiers_ok (sm_queries m) (sm_tiers m);
  mo_queries : map_Forall (fun _ => live_query env) (sm_queries m);
  mo_windows : map_Forall (fun h _ => is_Some (sm_queries m !! h)) (sm_windows m);
  mo_plan_cap : plan_count m <= max_compiled_plans (se_limits env);
  mo_sub_cap : forall c, subscription_count m c <= max_subscriptions_per_connection (se_limits env);
  mo_ids : forall c handles, sm_connections m !! c = Some handles -> map_Forall (fun id _ => 1 <= id < next_id m c) handles;
  mo_next : map_Forall (fun _ n => 1 <= n) (sm_next_query_id m);
}.

(** A connection holds a handle for a query. *)
Definition holds_handle (m : Manager) (c h : Z) : Prop := exists handles id, sm_connections m !! c = Some handles /\ handles !! id = Some h.

Definition handles_ok (m : Manager) : Prop := forall h st c, sm_queries m !! h = Some st -> c ∈ qs_subscribers st -> holds_handle m c h.

Definition manager_ok (env : SubEnv) (m : Manager) : Prop := core_ok env m /\ handles_ok m.

Definition limits_ok (env : SubEnv) : Prop := 0 <= max_compiled_plans (se_limits env) /\ 0 <= max_subscriptions_per_connection (se_limits env).

Lemma manager_new_ok env : limits_ok env -> manager_ok env (manager_new env).
Proof.
  intros [H1 H2]. split; [split|].
  - apply tiers_ok_empty.
  - apply map_Forall_empty.
  - apply map_Forall_empty.
  - unfold plan_count. simpl. rewrite map_size_empty. lia.
  - intros c. unfold subscription_count. simpl. rewrite lookup_empty. simpl. rewrite map_size_empty. lia.
  - intros c handles. simpl. by rewrite lookup_empty.
  - apply map_Forall_empty.
  - intros h st c. simpl. by rewrite lookup_empty.
Qed.

(** ** Dropping a subscriber *)

Definition less (c : Z) (st : QueryState) : option QueryState :=
  if bool_decide (qs_subscribers st ∖ {[c]} = ∅) then None
  else Some {| qs_plan := qs_plan st; qs_subscribers := qs_subscribers st ∖ {[c]}; qs_viewer := qs_viewer st; qs_roles := qs_roles st |}.

Lemma drop_subscriber_query m h c h' : sm_queries (drop_subscriber m h c) !! h' = if decide (h' = h) then sm_queries m !! h' ≫= less c else sm_queries m !! h'.
Proof.
  unfold drop_subscriber, less. destruct (decide (h' = h)) as [->|Hne].
  - destruct (sm_queries m !! h) as [st|] eqn:E; [|by rewrite E]. cbn [mbind option_bind]. case_bool_decide; simpl; by rewrite ?lookup_delete_eq, ?lookup_insert_eq.
  - destruct (sm_queries m !! h) as [st|]; [|done]. case_bool_decide; simpl; by rewrite ?lookup_delete_ne, ?lookup_insert_ne.
Qed.

Lemma drop_subscriber_frame m h c : sm_connections (drop_subscriber m h c) = sm_connections m /\ sm_next_query_id (drop_subscriber m h c) = sm_next_query_id m.
Proof. unfold drop_subscriber. destruct (sm_queries m !! h); [|done]. by case_bool_decide. Qed.

Lemma drop_subscriber_core env m h c : core_ok env m -> core_ok env (drop_subscriber m h c).
Proof.
  intros []. pose proof (drop_subscriber_frame m h c) as [E1 E2]. split.
  - unfold drop_subscriber. destruct (sm_queries m !! h) as [st|] eqn:E; [|done]. case_bool_decide; simpl; [by apply deindex_plan_ok|by eapply same_plan_ok].
  - intros h' st'. rewrite drop_subscriber_query. case_decide; [|apply mo_queries0]. destruct (sm_queries m !! h') as [st|] eqn:E; [|done]. simpl. unfold less. case_bool_decide; [done|].
    intros [= <-]. destruct (mo_queries0 h' st E) as [Hp _]. by split.
  - unfold drop_subscriber. destruct (sm_queries m !! h) as [st|] eqn:E; [|done]. case_bool_decide; simpl; intros h' d.
    + intros [Hne Hd]%lookup_delete_Some. rewrite lookup_delete_ne by done. by eapply mo_windows0.
    + intros Hd. destruct (decide (h' = h)) as [->|]; [rewrite lookup_insert_eq; by eexists|]. rewrite lookup_insert_ne by done. by eapply mo_windows0.
  - unfold drop_subscriber, plan_count in *. destruct (sm_queries m !! h) as [st|] eqn:E; [|done]. case_bool_decide; simpl.
    + rewrite map_size_delete_Some by by eexists. lia.
    + by rewrite map_size_insert_Some by by eexists.
  - intros c'. unfold subscription_count in *. by rewrite E1.
  - intros c' handles. unfold next_id in *. rewrite E1, E2. apply mo_ids0.
  - by rewrite E2.
Qed.

Lemma drop_all_core env c hs : forall m, core_ok env m -> core_ok env (fold_left (fun m h => drop_subscriber m h c) hs m).
Proof. induction hs as [|h hs IH]; intros m Hm; [done|]. simpl. by apply IH, drop_subscriber_core. Qed.

Lemma drop_all_frame c hs : forall m, sm_connections (fold_left (fun m h => drop_subscriber m h c) hs m) = sm_connections m.
Proof. induction hs as [|h hs IH]; intros m; [done|]. simpl. rewrite IH. apply drop_subscriber_frame. Qed.

(** What is left of a query after the subscriber was dropped from the queries [hs]. *)
Lemma drop_all_query c hs : forall m h st', sm_queries (fold_left (fun m h => drop_subscriber m h c) hs m) !! h = Some st' ->
  exists st, sm_queries m !! h = Some st /\ qs_subscribers st' ⊆ qs_subscribers st /\ (h ∈ hs -> c ∉ qs_subscribers st').
Proof.
  induction hs as [|h0 hs IH]; intros m h st'; simpl.
  - intros E. exists st'. split_and!; [done|done|by intros ?%elem_of_nil].
  - intros (st & E & Hsub & Hc)%IH. rewrite drop_subscriber_query in E. case_decide as Hh.
    + destruct (sm_queries m !! h) as [st0|] eqn:E0; [|done]. simpl in E. unfold less in E. case_bool_decide; [done|]. injection E as <-. exists st0. simpl in *. set_solver.
    + exists st. split_and!; [done|done|]. intros [?|?]%elem_of_cons; [done|auto].
Qed.

(** ** Handles *)

Lemma set_handles_core env m conns next : core_ok env m ->
  (forall c, Z.of_nat (size (default ∅ (conns !! c))) <= max_subscriptions_per_connection (se_limits env)) ->
  (forall c handles, conns !! c = Some handles -> map_Forall (fun id _ => 1 <= id < default 1 (next !! c)) handles) -> map_Forall (fun _ n => 1 <= n) next ->
  core_ok env (set_handles m conns next).
Proof. intros [] H1 H2 H3. by split. Qed.

Lemma unsubscribe_ok env m c id b m' : unsubscribe m c id = (b, m') -> manager_ok env m -> manager_ok env m'.
Proof.
  unfold unsubscribe. intros E [HC HH]. destruct (sm_connections m !! c) as [handles|] eqn:Ec; [|by injection E as _ <-].
  destruct (handles !! id) as [h|] eqn:Eid; [|by injection E as _ <-]. injection E as _ <-.
  set (m1 := if bool_decide (delete id handles = ∅) then _ else _).
  assert (forall c', sm_connections m1 !! c' = if decide (c' = c) then (if bool_decide (delete id handles = ∅) then None else Some (delete id handles)) else sm_connections m !! c') as Econn.
  { intros c'. unfold m1. case_bool_decide; simpl; case_decide; subst; by rewrite ?lookup_delete_eq, ?lookup_insert_eq, ?lookup_delete_ne, ?lookup_insert_ne. }
  assert (sm_queries m1 = sm_queries m) as Eq1 by (unfold m1; by case_bool_decide).
  assert (core_ok env m1) as HC1.
  { assert (size (delete id handles) <= size handles)%nat by (rewrite map_size_delete, Eid; apply Nat.le_pred_l).
    pose proof (mo_sub_cap _ _ HC c) as Hcap. unfold subscription_count in Hcap. rewrite Ec in Hcap. simpl in Hcap.
    pose proof (mo_next _ _ HC) as Hn. unfold m1. case_bool_decide; apply set_handles_core; try done.
    - intros c'. destruct (decide (c' = c)) as [->|]; [rewrite lookup_delete_eq; simpl; rewrite map_size_empty; lia|]. rewrite lookup_delete_ne by done. apply (mo_sub_cap _ _ HC c').
    - intros c' hs [Hne Hl]%lookup_delete_Some. rewrite lookup_delete_ne by done. by apply (mo_ids _ _ HC c').
    - by apply map_Forall_delete.
    - intros c'. destruct (decide (c' = c)) as [->|]; [rewrite lookup_insert_eq; simpl; lia|]. rewrite lookup_insert_ne by done. apply (mo_sub_cap _ _ HC c').
    - intros c' hs. destruct (decide (c' = c)) as [->|]; [rewrite lookup_insert_eq|rewrite lookup_insert_ne by done; by apply (mo_ids _ _ HC c')].
      intros [= <-]. apply map_Forall_delete. by apply (mo_ids _ _ HC c). }
  split; [by apply drop_subscriber_core|]. intros h' st' c' Eq Hc'. rewrite drop_subscriber_query, Eq1 in Eq. unfold holds_handle. rewrite (proj1 (drop_subscriber_frame _ _ _)).
  assert (exists st, sm_queries m !! h' = Some st /\ c' ∈ qs_subscribers st /\ ~ (h' = h /\ c' = c)) as (st & Est & Hst & Hne).
  { case_decide as Hh.
    - destruct (sm_queries m !! h') as [st|] eqn:E; [|done]. simpl in Eq. unfold less in Eq. case_bool_decide; [done|]. injection Eq as <-. simpl in Hc'. exists st. set_solver.
    - exists st'. naive_solver. }
  destruct (HH h' st c' Est Hst) as (hs & id' & Ehs & Ei). rewrite Econn. destruct (decide (c' = c)) as [->|]; [|by exists hs, id'].
  rewrite Ec in Ehs. injection Ehs as <-. assert (delete id handles !! id' = Some h') as Ed by (rewrite lookup_delete_ne by naive_solver; done).
  exists (delete id handles), id'. rewrite bool_decide_eq_false_2; [done|]. intros E. by rewrite E, lookup_empty in Ed.
Qed.

Lemma set_view_subs_ok env m a b : manager_ok env m -> manager_ok env (set_view_subs m a b).
Proof. intros [[] HH]. split; [by split|done]. Qed.

Lemma set_derived_ok env m a b : manager_ok env m -> manager_ok env (set_derived m a b).
Proof. intros [[] HH]. split; [by split|done]. Qed.

Lemma disconnect_ok env m c : manager_ok env m -> manager_ok env (disconnect m c).
Proof.
  intros Hm0. unfold disconnect.
  set (m1 := set_view_subs m _ _). assert (manager_ok env m1) as [HC HH] by by apply set_view_subs_ok. clearbody m1. clear Hm0 m.
  destruct (sm_connections m1 !! c) as [handles|] eqn:Ec; [|by split].
  set (m2 := set_handles m1 _ _). assert (core_ok env m2) as HC2.
  { apply set_handles_core; [done| | |by apply map_Forall_delete, HC].
    - intros c'. destruct (decide (c' = c)) as [->|].
      + rewrite lookup_delete_eq. simpl. rewrite map_size_empty. pose proof (mo_sub_cap _ _ HC c). unfold subscription_count in *. lia.
      + rewrite lookup_delete_ne by done. apply (mo_sub_cap _ _ HC c').
    - intros c' hs [Hne Hl]%lookup_delete_Some. rewrite lookup_delete_ne by done. by apply (mo_ids _ _ HC c'). }
  split; [by apply drop_all_core|]. intros h st' c' Eq Hc'. apply drop_all_query in Eq as (st & Est & Hsub & Hdrop). unfold holds_handle. rewrite drop_all_frame.
  destruct (HH h st c' Est ltac:(set_solver)) as (hs & id & Ehs & Eid). exists hs, id. split; [|done]. simpl. rewrite lookup_delete_ne; [done|]. intros <-.
  rewrite Ec in Ehs. injection Ehs as <-. apply Hdrop; [|done]. apply list_elem_of_fmap. exists (id, h). split; [done|]. by apply elem_of_map_to_list.
Qed.

(** ** Registration *)

Lemma register_queries m c h plan viewer roles h' : sm_queries (register m c h plan viewer roles) !! h' =
  if decide (h' = h) then Some (match sm_queries m !! h with
    | Some st => {| qs_plan := qs_plan st; qs_subscribers := qs_subscribers st ∪ {[c]}; qs_viewer := qs_viewer st; qs_roles := qs_roles st |}
    | None => {| qs_plan := plan; qs_subscribers := {[c]}; qs_viewer := viewer; qs_roles := roles |}
    end) else sm_queries m !! h'.
Proof.
  unfold register. destruct (decide (h' = h)) as [->|]; destruct (sm_queries m !! h); simpl; by rewrite ?lookup_insert_eq, ?lookup_insert_ne.
Qed.

Lemma register_ok env m c h plan viewer roles : manager_ok env m -> plan_ok env plan -> next_id m c < u_max 32 ->
  subscription_count m c < max_subscriptions_per_connection (se_limits env) ->
  (sm_queries m !! h = None -> plan_count m < max_compiled_plans (se_limits env)) -> manager_ok env (register m c h plan viewer roles).
Proof.
  intros [HC HH] Hp Hid Hs Hq. pose proof (register_queries m c h plan viewer roles) as EQ.
  unfold register. set (m1 := match sm_queries m !! h with Some _ => _ | None => _ end).
  assert (sm_connections m1 = sm_connections m /\ sm_next_query_id m1 = sm_next_query_id m /\ sm_windows m1 = sm_windows m) as (E1 & E2 & E3) by (unfold m1; by destruct (sm_queries m !! h)).
  assert (next_id m1 c = next_id m c) as En by (unfold next_id; by rewrite E2).
  assert (forall h', sm_queries m1 !! h' = sm_queries (register m c h plan viewer roles) !! h') as EQ1 by done.
  assert (core_ok env m1) as HC1.
  { split.
    - unfold m1. destruct (sm_queries m !! h) as [st|] eqn:E; simpl; [by eapply same_plan_ok, HC|].
      apply (index_plan_ok _ _ h {| qs_plan := plan; qs_subscribers := {[c]}; qs_viewer := viewer; qs_roles := roles |} E), HC.
    - intros h' st'. rewrite EQ1, EQ. case_decide; [|apply (mo_queries _ _ HC)]. intros [= <-]. subst h'. destruct (sm_queries m !! h) as [st|] eqn:E.
      + destruct (mo_queries _ _ HC h st E) as [??]. split; simpl; [done|set_solver].
      + split; simpl; [done|set_solver].
    - rewrite E3. intros h' d Hd. rewrite EQ1, EQ. case_decide; [by eexists|]. by apply (mo_windows _ _ HC h' d).
    - pose proof (mo_plan_cap _ _ HC). unfold plan_count, m1 in *. destruct (sm_queries m !! h) as [st|] eqn:E; simpl.
      + rewrite map_size_insert_Some by by eexists. done.
      + rewrite map_size_insert_None by done. specialize (Hq eq_refl). lia.
    - intros c'. unfold subscription_count. rewrite E1. apply (mo_sub_cap _ _ HC).
    - intros c' hs. unfold next_id. rewrite E1, E2. apply (mo_ids _ _ HC).
    - rewrite E2. apply HC. }
  assert (1 <= next_id m c) as Hpos.
  { unfold next_id. destruct (sm_next_query_id m !! c) as [n|] eqn:E; simpl; [|lia]. by apply (mo_next _ _ HC c). }
  assert (cast_unsigned 32 (next_id m1 c + 1) = next_id m c + 1) as Ew by (rewrite En; unfold cast_unsigned; rewrite Z.mod_small; [done|unfold u_max in Hid; lia]).
  rewrite Ew, En, E1, E2. split.
  - apply set_handles_core; [done| | |apply map_Forall_insert_2; [lia|apply HC]].
    + intros c'. destruct (decide (c' = c)) as [->|]; [|rewrite lookup_insert_ne by done; apply (mo_sub_cap _ _ HC c')]. rewrite lookup_insert_eq. simpl. unfold subscription_count in Hs.
      revert Hs. generalize (default ∅ (sm_connections m !! c)). intros hs Hs. rewrite map_size_insert. destruct (hs !! next_id m c); unfold id; lia.
    + intros c' hs. destruct (decide (c' = c)) as [->|]; [|rewrite !lookup_insert_ne by done; apply (mo_ids _ _ HC)]. rewrite !lookup_insert_eq. intros [= <-]. simpl.
      apply map_Forall_insert_2; [lia|]. destruct (sm_connections m !! c) as [hs|] eqn:E; simpl; [|apply map_Forall_empty].
      eapply map_Forall_impl; [exact (mo_ids _ _ HC c hs E)|]. simpl. intros; lia.
  - intros h' st' c' Eq Hc'. unfold holds_handle. cbn [set_handles sm_connections]. change (sm_queries m1 !! h' = Some st') in Eq. rewrite EQ1, EQ in Eq.
    assert ((h' = h /\ c' = c) \/ exists st, sm_queries m !! h' = Some st /\ c' ∈ qs_subscribers st) as [[-> ->]|(st & Est & Hst)].
    { case_decide; [|right; by exists st']. subst h'. injection Eq as <-. destruct (sm_queries m !! h) as [st|]; simpl in Hc'; [|set_solver].
      apply elem_of_union in Hc' as [?|?%elem_of_singleton]; [right; by exists st|by left]. }
    + eexists _, (next_id m c). rewrite lookup_insert_eq. split; [done|]. apply lookup_insert_eq.
    + destruct (HH h' st c' Est Hst) as (hs & id & Ehs & Eid). destruct (decide (c' = c)) as [->|]; [|exists hs, id; by rewrite lookup_insert_ne].
      eexists _, id. rewrite lookup_insert_eq, Ehs. split; [done|]. simpl. rewrite lookup_insert_ne; [done|]. pose proof (mo_ids _ _ HC c hs Ehs id h' Eid). simpl in *. lia.
Qed.

(** ** Commits *)

Section steps.
Context {W T X : Type} {KT : KvTree W T} {RC : RowCodec} {U : Unicode} {SQ : SideQuery W T X}.
Context (table_id_of : list Z -> TableId) (index_id_of : list Z -> list (list Z) -> IndexId).
Context (hash64 : list Z -> Z -> Z) (sha256 : list Z -> list Z) (past_deadline : Poll -> bool).
Context (unpack_state : list Z -> option Crdt.CrdtText) (pack_ops : list Crdt.TextOp -> list Z).
Context (env : SubEnv) (Hlim : limits_ok env) (Hfts : se_fts_analyzers env = fts_analyzers table_id_of (se_schema env)).

Lemma commit_queries_windows m diff hs : forall windows out windows', commit_queries table_id_of sha256 unpack_state pack_ops env m diff hs windows = Ok (out, windows') ->
  map_Forall (fun h _ => is_Some (sm_queries m !! h)) windows -> map_Forall (fun h _ => is_Some (sm_queries m !! h)) windows'.
Proof using Type.
  induction hs as [|h hs IH]; intros windows out windows'; cbn [commit_queries]; [by intros [= _ <-]|].
  destruct (sm_queries m !! h) as [st|] eqn:E; [|by apply IH]. case_bool_decide; [by apply IH|].
  destruct (evaluate _ _ _ _ _ _ _ _ _ _) as [[u|]|]; cbn [mbind result_bind]; [|by apply IH|done].
  destruct (commit_queries _ _ _ _ _ _ _ _ _) as [[out1 w1]|] eqn:E1; cbn [mbind result_bind]; [|done]. intros [= _ <-] Hw. eapply IH; [exact E1|].
  apply map_Forall_insert_2; [by eexists|done].
Qed.

Lemma set_offset_ok m o : manager_ok env m -> manager_ok env (set_offset m o).
Proof using Type. intros [[] HH]. split; [by split|done]. Qed.

Lemma on_commit_ok m diff deltas m' : on_commit table_id_of hash64 sha256 unpack_state pack_ops env m diff = Ok (deltas, m') -> manager_ok env m -> manager_ok env m'.
Proof using Type.
  unfold on_commit. intros E Hm. set (m1 := set_offset m _) in E. assert (manager_ok env m1) as [HC HH] by by apply set_offset_ok. clearbody m1.
  destruct (commit_queries _ _ _ _ _ _ _ _ _) as [[out w1]|] eqn:E1; cbn [mbind result_bind] in E; [|done].
  destruct (engine_on_commit _ _ _) as [[engine ups]|]; cbn [map_err mbind result_bind] in E; [|done]. injection E as _ <-.
  apply set_derived_ok. split; [|done]. destruct HC. split; try done. simpl. by eapply commit_queries_windows.
Qed.

Lemma subscribe_ok m c s sql (sn : Snapshot W T X) sd m' : subscribe table_id_of index_id_of hash64 sha256 past_deadline env m c s sql sn = Ok (sd, m') ->
  next_id m c < u_max 32 -> manager_ok env m -> manager_ok env m'.
Proof using Hfts.
  unfold subscribe, compile_public. destruct (compile _ _ _ _ _) as [plan|] eqn:Ec; cbn [map_err mbind result_bind]; [|done].
  destruct (table_schema _ _ _) as [t|]; cbn [mbind result_bind]; [|done]. destruct (is_client_visible _); cbn [mbind result_bind]; [|done].
  destruct (effective_key hash64 plan s) as [[h viewer] roles]. destruct (Z.leb_spec (max_subscriptions_per_connection (se_limits env)) (subscription_count m c)) as [|Hs]; [done|].
  destruct (bool_decide _ && _) eqn:Eb; [done|]. destruct (initial_data _ _ _ _ _ _ _ _ _) as [initial|]; cbn [mbind result_bind]; [|done].
  intros [= _ <-] Hid Hm. apply register_ok; [done|by eapply compile_plan_ok|done|done|].
  intros Eq. rewrite bool_decide_eq_true_2 in Eb by done. simpl in Eb. by apply Z.leb_gt in Eb.
Qed.

(** What a manager does; a [query_id] counter does not wrap around. *)
Inductive sub_step : Manager -> Manager -> Prop :=
  | step_subscribe m c s sql (sn : Snapshot W T X) sd m' : subscribe table_id_of index_id_of hash64 sha256 past_deadline env m c s sql sn = Ok (sd, m') ->
      next_id m c < u_max 32 -> sub_step m m'
  | step_unsubscribe m c id b m' : unsubscribe m c id = (b, m') -> sub_step m m'
  | step_disconnect m c : sub_step m (disconnect m c)
  | step_commit m diff deltas m' : on_commit table_id_of hash64 sha256 unpack_state pack_ops env m diff = Ok (deltas, m') -> sub_step m m'
  | step_subscribe_view m c name d m' : subscribe_view table_id_of env m c name = Ok (d, m') -> sub_step m m'
  | step_unsubscribe_view m c name b m' : unsubscribe_view m c name = (b, m') -> sub_step m m'
  | step_init_views m (sn : Snapshot W T X) m' : init_views table_id_of env m sn = Ok m' -> sub_step m m'.

Lemma step_ok m m' : sub_step m m' -> manager_ok env m -> manager_ok env m'.
Proof using Hfts.
  intros [m0 c s sql sn sd m1 E Hid|m0 c id b m1 E|m0 c|m0 diff deltas m1 E|m0 c name d m1 E|m0 c name b m1 E|m0 sn m1 E] Hm.
  - by eapply subscribe_ok.
  - by eapply unsubscribe_ok.
  - by apply disconnect_ok.
  - by eapply on_commit_ok.
  - revert E. unfold subscribe_view. destruct (snapshot_rows _ _ _) as [[u|]|]; cbn [map_err mbind result_bind]; [|done|done]. intros [= _ <-]. by apply set_view_subs_ok.
  - injection E as _ <-. by apply set_view_subs_ok.
  - revert E. unfold init_views. destruct (engine_init _ _ _ _) as [engine|]; cbn [map_err mbind result_bind]; [|done].
    destruct (collect _ _) as [sets|]; cbn [map_err mbind result_bind]; [|done]. intros [= <-]. by apply set_derived_ok.
Qed.

Lemma steps_from_ok m m' : rtc sub_step m m' -> manager_ok env m -> manager_ok env m'.
Proof using Hfts. induction 1 as [|m1 m2 m3 Hs _ IH]; [done|]. intros Hm. by eapply IH, step_ok. Qed.

Lemma steps_ok m : rtc sub_step (manager_new env) m -> manager_ok env m.
Proof using Hfts Hlim. intros Hr. by eapply steps_from_ok, manager_new_ok. Qed.
End steps.
