(* ===== verification/SubClient.v ===== *)
(** A subscribed client's cache.

    [ModelClient] of [subscription/proptest.rs] keeps the rows of one query by
    primary key: seeded from [InitialData], changed only by the deltas it
    receives. [delta_follows] is one commit of the property that suite tests: the
    delta of a commit takes the cache of the rows a query keeps to the cache for
    the new contents of the table. *)

From stdpp Require Import base list gmap sorting numbers strings.
From Stdlib Require Import ZArith Lia.
From S2P Require Import Prelude FluxBin Row IndexKey TxState LogRecord PageFormat PagedTree PagedTreeNode PagedTreeRep PagedTreeWrite PagedTreeSpec KvTree TableState TableSpec Reclaim MemStore MergeSpec IndexSpec StoreSpec Replica StoreBuild Ieee SqlText FullText Query QueryPlan RowList Crdt Mask MatView Subscription QueryEval.

(** * The model client *)

Definition decode_full_rows (schema : TableSchema) (l : RowList.RowList) : result StorageError (list row) := collect (decode_row schema) (RowList.iter l).

Fixpoint cache_rows (schema : TableSchema) (rs : list row) (cache : content) : result StorageError content :=
  match rs with
  | [] => Ok cache
  | r :: rs => encode_pk_of_row schema r ≫= fun key => cache_rows schema rs (<[key := r]> cache)
  end.

Definition seed (schema : TableSchema) (l : RowList.RowList) (cache : content) : result StorageError content :=
  decode_full_rows schema l ≫= fun rs => cache_rows schema rs cache.

(** Deletes first, then inserts. *)
Definition client_apply (schema : TableSchema) (deletes inserts : RowList.RowList) (cache : content) : result StorageError content :=
  seed schema inserts (fold_left (fun c k => delete k c) (RowList.iter deletes) cache).

(** * Rows on the wire *)

(** A row stored under its key, of the table's types. *)
Definition keyed (schema : TableSchema) (pk : list Z) (r : row) : Prop :=
  check_row schema r = Ok tt /\ forallb value_ok r = true /\ encode_pk_of_row schema r = Ok pk.

Lemma row_decodes schema r bs : check_row schema r = Ok tt -> forallb value_ok r = true -> encode_row r = Ok bs -> decode_row schema bs = Ok r.
Proof.
  intros Hc Hok He. destruct (row_round_trip _ _ _ Hc Hok He) as [_ Hr].
  unfold decode_row. rewrite <- (app_nil_r bs), (reads_new _ bs [] _ Hr), expect_eof_at. done.
Qed.

Lemma batch_iter bs : Z.of_nat (length bs) < 2 ^ 32 -> RowList.iter (RowList.finish (fold_left RowList.push_row bs RowList.new)) = bs.
Proof. intros Hl. apply RowList.holds_iter, RowList.finish_holds. apply (RowList.pushes_built bs RowList.new [] RowList.new_built). simpl. lia. Qed.

Lemma collected {A B E} (f : A -> result E B) l ys : collect f l = Ok ys -> Forall2 (fun x y => f x = Ok y) l ys.
Proof.
  revert ys. induction l as [|x l IH]; intros ys; simpl; [intros [= <-]; constructor|]. destruct (f x) eqn:E1; simpl; [|done]. destruct (collect f l) as [ys'|]; simpl; [|done].
  intros [= <-]. constructor; [done|by apply IH].
Qed.

Lemma length_omap_le {A B} (f : A -> option B) l : (length (omap f l) <= length l)%nat.
Proof. induction l as [|x l IH]; [done|]. cbn [omap list_omap]. destruct (f x); simpl; lia. Qed.

Lemma encoded_rows schema rs l : Forall (fun r => check_row schema r = Ok tt /\ forallb value_ok r = true) rs -> Z.of_nat (length rs) < 2 ^ 32 ->
  encode_full_rows rs = Ok l -> decode_full_rows schema l = Ok rs.
Proof.
  intros HF Hl. unfold encode_full_rows, encode_rows. destruct (collect encode_row rs) as [bs|] eqn:E; cbn [mbind result_bind]; [|done]. intros [= <-].
  apply collected in E. unfold decode_full_rows. rewrite batch_iter by (by rewrite <- (Forall2_length _ _ _ E)).
  clear Hl. induction E as [|r b rs bs Er _ IH]; [done|]. inversion HF as [|?? [??] HF']; subst. cbn [collect]. rewrite (row_decodes schema r b) by done. cbn [mbind result_bind].
  by rewrite IH.
Qed.

Lemma encoded_pks schema rs ks l : Forall2 (fun r k => encode_pk_of_row schema r = Ok k) rs ks -> Z.of_nat (length rs) < 2 ^ 32 ->
  encode_pk_rows schema rs = Ok l -> RowList.iter l = ks.
Proof.
  intros HF Hl. unfold encode_pk_rows. assert (collect (encode_pk_of_row schema) rs = Ok ks) as ->.
  { clear Hl. induction HF as [|r k rs ks E _ IH]; [done|]. cbn [collect]. rewrite E. cbn [mbind result_bind]. by rewrite IH. }
  cbn [mbind result_bind]. intros [= <-]. apply batch_iter. by rewrite <- (Forall2_length _ _ _ HF).
Qed.

(** ** Cached rows *)

Lemma cache_rows_spec schema prs : forall cache, Forall (fun p => encode_pk_of_row schema p.2 = Ok p.1) prs -> NoDup prs.*1 ->
  exists cache', cache_rows schema prs.*2 cache = Ok cache' /\ (forall k r, (k, r) ∈ prs -> cache' !! k = Some r) /\ (forall k, k ∉ prs.*1 -> cache' !! k = cache !! k).
Proof.
  induction prs as [|[pk r] prs IH]; intros cache HF Hn; [exists cache; split_and!; [done|by intros ?? ?%elem_of_nil|done]|].
  inversion HF as [|?? Hk HF']; subst. cbn [fmap list_fmap] in Hn. inversion Hn as [|?? Hni Hn']; subst.
  cbn [fmap list_fmap cache_rows snd]. simpl in Hk. rewrite Hk. cbn [mbind result_bind]. destruct (IH (<[pk := r]> cache) HF' Hn') as (cache' & -> & H1 & H2). exists cache'. split; [done|]. split.
  - intros k r' [[= -> ->]|Hin]%elem_of_cons; [|by apply H1]. rewrite H2 by done. apply lookup_insert_eq.
  - cbn [fmap list_fmap fst]. intros k [Hne Hk']%not_elem_of_cons. rewrite H2 by done. by apply lookup_insert_ne.
Qed.

Lemma deleted_lookup (ks : list (list Z)) : forall (cache : content) k, fold_left (fun c k => delete k c) ks cache !! k = if bool_decide (k ∈ ks) then None else cache !! k.
Proof.
  induction ks as [|k0 ks IH]; intros cache k; [done|]. simpl. rewrite IH. destruct (decide (k = k0)) as [->|].
  - rewrite lookup_delete_eq. rewrite (bool_decide_eq_true_2 (k0 ∈ k0 :: ks)) by left. by destruct (bool_decide _).
  - rewrite lookup_delete_ne by done. erewrite bool_decide_ext; [done|]. rewrite elem_of_cons. naive_solver.
Qed.

(** The rows of a table a predicate keeps. *)
Definition kept (keep : row -> bool) (R : content) : content := filter (fun p => keep p.2 = true) R.

Lemma kept_lookup keep R k : kept keep R !! k = R !! k ≫= fun r => if keep r then Some r else None.
Proof.
  unfold kept. destruct (R !! k) as [r|] eqn:E; simpl.
  - destruct (keep r) eqn:Ek; [by apply map_lookup_filter_Some|]. apply map_lookup_filter_None. right. intros r' ?. simpl. congruence.
  - apply map_lookup_filter_None. by left.
Qed.

Lemma kept_Some keep R k r : kept keep R !! k = Some r <-> R !! k = Some r /\ keep r = true.
Proof. rewrite kept_lookup. destruct (R !! k) as [r'|]; simpl; [|naive_solver]. destruct (keep r') eqn:E; naive_solver congruence. Qed.

(** A batch of rows with their keys, cached on top of a cache. *)
Lemma seed_pairs schema prs l cache : Forall (fun p => keyed schema p.1 p.2) prs -> NoDup prs.*1 -> Z.of_nat (length prs) < 2 ^ 32 -> encode_full_rows prs.*2 = Ok l ->
  exists cache', seed schema l cache = Ok cache' /\ (forall k r, (k, r) ∈ prs -> cache' !! k = Some r) /\ (forall k, k ∉ prs.*1 -> cache' !! k = cache !! k).
Proof.
  intros HF Hn Hl El. unfold seed. rewrite (encoded_rows schema prs.*2 l); [|apply Forall_fmap; eapply Forall_impl; [exact HF|]; by intros p (? & ? & _)|by rewrite length_fmap|done].
  cbn [mbind result_bind]. apply cache_rows_spec; [|done]. eapply Forall_impl; [exact HF|]. by intros p (_ & _ & ?).
Qed.

Lemma elem_kept keep R k r : (k, r) ∈ filter (fun p => keep p.2 = true) (btree_entries R) <-> kept keep R !! k = Some r.
Proof. rewrite list_elem_of_filter, elem_of_btree_entries, kept_Some. naive_solver. Qed.

(** The cache of a fresh subscription. *)
Lemma seed_kept schema keep R prs l : map_Forall (keyed schema) R -> prs ≡ₚ filter (fun p => keep p.2 = true) (btree_entries R) -> Z.of_nat (size R) < 2 ^ 32 ->
  encode_full_rows prs.*2 = Ok l -> seed schema l ∅ = Ok (kept keep R).
Proof.
  intros HR Hp Hs El. destruct (seed_pairs schema prs l ∅) as (c & -> & H1 & H2); [| | |done|].
  - rewrite Hp. apply Forall_forall. intros [k r] [Hk _]%elem_kept%kept_Some. by apply HR.
  - rewrite Hp. eapply sublist_NoDup; [apply (btree_keys_NoDup R)|]. apply fmap_sublist, sublist_filter.
  - rewrite Hp. eapply Z.le_lt_trans; [|exact Hs]. apply inj_le. etrans; [apply length_filter|]. by rewrite btree_entries_perm, length_map_to_list.
  - f_equal. apply map_eq. intros k. destruct (kept keep R !! k) as [r|] eqn:E.
    + apply H1. rewrite Hp. by apply elem_kept.
    + rewrite H2; [apply lookup_empty|]. intros ([k' r] & -> & Hin)%list_elem_of_fmap. rewrite Hp, elem_kept in Hin. simpl in E. congruence.
Qed.

(** * One commit *)

(** What a commit does to a table: its diff is that of the operations that take
    the old contents to the new; an insert is for a free key. *)
Definition committed (id : TableId) (diff : TxDiff) (R R' : content) : Prop :=
  (find_diff diff id = None /\ R' = R) \/
  exists ops, find_diff diff id = Some (diff_of id R ops) /\ R' = view R ops /\
    (forall pk r, ops !! pk = Some (Insert r) -> R !! pk = None) /\ Z.of_nat (size ops) < 2 ^ 32.

Section delta.
Context {U : Unicode} (table_id_of : list Z -> TableId) (sha256 : list Z -> list Z).
Context (unpack_state : list Z -> option Crdt.CrdtText) (pack_ops : list Crdt.TextOp -> list Z) (env : SubEnv).
Context (members : list MemberSet) (plan : CompiledPlan) (viewer : option (list Z)) (roles : list (list Z)) (t : QueryTable).
Context (Ht : table_schema table_id_of env (cp_table_id plan) = Ok t) (Hpol : se_policies env !! cp_table_id plan = None) (Hcrdt : crdt_ordinals t = []).
Notation keep := (delta_keep env members plan viewer).

Lemma delta_rows_plain td : delta_rows table_id_of sha256 env members plan viewer roles td =
  let ins := List.filter keep (td_inserts td) in let del := List.filter keep (td_deletes td).*2 in
  Ok (if bool_decide (ins = []) && bool_decide (del = []) then None else Some (t, ins, del)).
Proof using Hpol Ht.
  unfold delta_rows. cbv zeta. destruct (bool_decide (List.filter keep (td_inserts td) = []) && bool_decide (List.filter keep (td_deletes td).*2 = [])) eqn:E; [done|].
  rewrite Ht. cbn [mbind result_bind]. rewrite bool_decide_eq_false_2 by (rewrite Hpol; by intros []). cbn [mbind result_bind].
  assert (List.filter (fun old => match encode_pk_of_row (qt_schema t) old with Ok pk => negb (existsb (fun k => bool_decide (k = pk)) []) | Err _ => true end) (List.filter keep (td_deletes td).*2) =
    List.filter keep (td_deletes td).*2) as ->.
  { generalize (List.filter keep (td_deletes td).*2). induction l as [|r l IH]; [done|]. simpl. destruct (encode_pk_of_row (qt_schema t) r); simpl; by f_equal. }
  by rewrite E.
Qed.

(** The kept rows the operations write and remove, with their keys. *)
Definition written_kept (ops : pending_ops) : list (list Z * row) := filter (fun p => keep p.2 = true) (wrote_rows ops).
Definition removed_kept (R : content) (ops : pending_ops) : list (list Z * row) := filter (fun p => keep p.2 = true) (omap (removed R) (btree_entries ops)).

Lemma elem_removed R ops k r : (k, r) ∈ omap (removed R) (btree_entries ops) <-> exists op, ops !! k = Some op /\ (forall r', op <> Insert r') /\ R !! k = Some r.
Proof using Type.
  rewrite list_elem_of_omap. split.
  - intros ([k' op] & Hin%elem_of_btree_entries & E). unfold removed in E. simpl in E. destruct op; [done| |]; destruct (R !! k') as [r'|] eqn:Er; simpl in E; try done; injection E as -> ->; eexists; (split; [exact Hin|]); done.
  - intros (op & Hop & Hne & Hr). exists (k, op). split; [by apply elem_of_btree_entries|]. unfold removed. simpl. destruct op; [by edestruct Hne| |]; by rewrite Hr.
Qed.

Lemma kept_step R ops k : (forall pk r, ops !! pk = Some (Insert r) -> R !! pk = None) -> kept keep (view R ops) !! k =
  match ops !! k with
  | Some op => written op ≫= fun r => if keep r then Some r else None
  | None => kept keep R !! k
  end.
Proof using Type. intros Hf. rewrite !kept_lookup, view_lookup. by destruct (ops !! k) as [[]|]; simpl. Qed.

Lemma delta_follows diff R R' upd : committed (cp_table_id plan) diff R R' -> map_Forall (keyed (qt_schema t)) R -> map_Forall (keyed (qt_schema t)) R' ->
  evaluate table_id_of sha256 unpack_state pack_ops env members plan viewer roles diff = Ok upd ->
  match upd with
  | None => kept keep R' = kept keep R
  | Some u => client_apply (qt_schema t) (tu_deletes u) (tu_inserts u) (kept keep R) = Ok (kept keep R')
  end.
Proof using Hcrdt Hpol Ht.
  intros [[Ef ->]|(ops & Ef & -> & Hfresh & Hsize)] HR HR'; unfold evaluate; rewrite Ef; [by intros [= <-]|].
  rewrite delta_rows_plain. cbv zeta. rewrite diff_of_parts. cbn [td_inserts td_deletes mbind result_bind].
  rewrite !filter_fmap_snd, !list_filter_eq. fold (written_kept ops) (removed_kept R ops).
  assert (forall k r, (k, r) ∈ written_kept ops <-> (exists op, ops !! k = Some op /\ written op = Some r) /\ keep r = true) as Hw.
  { intros k r. unfold written_kept. rewrite list_elem_of_filter, elem_wrote. simpl. tauto. }
  assert (forall k r, (k, r) ∈ removed_kept R ops <-> (exists op, ops !! k = Some op /\ (forall r', op <> Insert r') /\ R !! k = Some r) /\ keep r = true) as Hr.
  { intros k r. unfold removed_kept. rewrite list_elem_of_filter, elem_removed. simpl. tauto. }
  destruct (bool_decide ((written_kept ops).*2 = []) && bool_decide ((removed_kept R ops).*2 = [])) eqn:Eb.
  - intros [= <-]. apply andb_true_iff in Eb as [Ew%bool_decide_eq_true%fmap_nil_inv Er%bool_decide_eq_true%fmap_nil_inv].
    apply map_eq. intros k. rewrite kept_step by done. destruct (ops !! k) as [op|] eqn:Eop; [|done]. rewrite kept_lookup.
    transitivity (@None row); [|symmetry].
    + destruct (written op) as [r|] eqn:Ewr; [|done]. simpl. destruct (keep r) eqn:Ek; [|done]. exfalso. rewrite Ew in Hw. apply (elem_of_nil (k, r)), Hw. split; [by exists op|done].
    + destruct (R !! k) as [r|] eqn:ER; [|done]. simpl. destruct (keep r) eqn:Ek; [|done]. exfalso. rewrite Er in Hr. apply (elem_of_nil (k, r)), Hr. split; [|done]. exists op. split_and!; [done| |done].
      intros r' ->. apply Hfresh in Eop. congruence.
  - rewrite Hcrdt. cbn [mbind result_bind]. destruct (encode_full_rows (written_kept ops).*2) as [ins|] eqn:Ei; cbn [mbind result_bind map_err]; [|done].
    destruct (encode_pk_rows (qt_schema t) (removed_kept R ops).*2) as [del|] eqn:Ed; cbn [mbind result_bind map_err]; [|done]. intros [= <-]. cbn [tu_deletes tu_inserts].
    assert (length (written_kept ops) <= size ops /\ length (removed_kept R ops) <= size ops)%nat as [L1 L2].
    { rewrite <- length_map_to_list, <- btree_entries_perm. split; (etrans; [apply length_filter|]); apply length_omap_le. }
    unfold client_apply. rewrite (encoded_pks (qt_schema t) (removed_kept R ops).*2 (removed_kept R ops).*1 del); [| |rewrite length_fmap; lia|done].
    2: { apply Forall2_fmap, Forall_Forall2_diag, Forall_forall. intros [k r] [(op & _ & _ & Hk) _]%Hr. by destruct (HR k r Hk) as (_ & _ & ?). }
    destruct (seed_pairs (qt_schema t) (written_kept ops) ins (fold_left (fun c k => delete k c) (removed_kept R ops).*1 (kept keep R))) as (c & -> & H1 & H2); [| |lia|done|].
    { apply Forall_forall. intros [k r] [(op & Eop & Ewr) _]%Hw. apply HR'. simpl. rewrite view_lookup, Eop. by destruct op; simpl in *. }
    { eapply sublist_NoDup; [apply (wrote_NoDup ops)|]. apply fmap_sublist, sublist_filter. }
    f_equal. apply map_eq. intros k. rewrite kept_step by done. destruct (ops !! k) as [op|] eqn:Eop.
    + destruct (written op ≫= fun r => if keep r then Some r else None) as [r|] eqn:Ewr.
      * destruct (written op) as [r'|] eqn:E1; [|done]. simpl in Ewr. destruct (keep r') eqn:Ek; [|done]. injection Ewr as ->. apply H1, Hw. split; [by exists op|done].
      * rewrite H2, deleted_lookup; [destruct (decide (k ∈ (removed_kept R ops).*1)) as [Hd|Hd]; [by rewrite bool_decide_eq_true_2|rewrite bool_decide_eq_false_2 by done]|].
        -- rewrite kept_lookup. destruct (R !! k) as [r|] eqn:ER; [|done]. simpl. destruct (keep r) eqn:Ek; [|done]. exfalso. apply Hd, list_elem_of_fmap. exists (k, r). split; [done|]. apply Hr.
           split; [|done]. exists op. split_and!; [done| |done]. intros r' ->. apply Hfresh in Eop. congruence.
        -- intros ([k' r] & -> & [(op' & Eop' & E1) E2]%Hw)%list_elem_of_fmap. simpl in Eop. rewrite Eop' in Eop. injection Eop as ->. rewrite E1 in Ewr. simpl in Ewr. by rewrite E2 in Ewr.
    + rewrite H2, deleted_lookup; [destruct (decide (k ∈ (removed_kept R ops).*1)) as [Hd|Hd]; [rewrite bool_decide_eq_true_2 by done|by rewrite bool_decide_eq_false_2]|].
      * apply list_elem_of_fmap in Hd as ([k' r] & -> & [(op & Eop' & _) _]%Hr). simpl in Eop. congruence.
      * intros ([k' r] & -> & [(op & Eop' & _) _]%Hw)%list_elem_of_fmap. simpl in Eop. congruence.
Qed.
End delta.
