(* ===== verification/MatViewProps.v ===== *)
(** The incremental state of materialized views.

    Removing a row undoes adding it, and the order of additions does not matter,
    so the state a view has after a commit is the state a rebuild from the rows
    then committed gives ([views_incremental]), for views that sum no floats:
    the float accumulator of [SUM] and [AVG] depends on the order of additions. *)

From stdpp Require Import base list gmap sorting numbers strings.
From Stdlib Require Import ZArith Lia SpecFloat.
From S2P Require Import Prelude FluxBin Row IndexKey TxState LogRecord TableState TableSpec MemStore MergeSpec Replica StoreBuild Ieee SqlText FullText Query RowList MatView Subscription SubClient.

(** * Accumulators *)

Section accumulators.
(** Values with distinct keys, none of them a float. *)
Context (P G : RowValue.t -> Prop) (Pinj : forall a b, P a -> P b -> encode_value a = encode_value b -> a = b).
Context (Ginj : forall a b, G a -> G b -> encode_value a = encode_value b -> a = b).
Context (Pint : forall a x, P a -> numeric_of a <> Some (NFloat x)).

Definition values_ok (values : gmap (list Z) (RowValue.t * Z)) : Prop :=
  map_Forall (fun k e => P e.1 /\ encode_value e.1 = k /\ 0 < e.2) values.

Lemma count_up v values : values_ok values -> P v ->
  count_value v 1 values = <[encode_value v := (v, default 0 (snd <$> values !! encode_value v) + 1)]> values /\ values_ok (count_value v 1 values).
Proof using Pinj.
  intros Hok Hv. assert (count_value v 1 values = <[encode_value v := (v, default 0 (snd <$> values !! encode_value v) + 1)]> values) as E.
  { unfold count_value. destruct (values !! encode_value v) as [[x n]|] eqn:E; simpl; [|done]. destruct (Hok _ _ E) as (Hx & Ex & Hn). simpl in *.
    destruct (Z.leb_spec (n + 1) 0); [lia|]. by rewrite (Pinj x v). }
  split; [done|]. rewrite E. apply map_Forall_insert_2; [|done]. simpl. split_and!; [done..|].
  destruct (values !! encode_value v) as [[x n]|] eqn:E'; simpl; [|lia]. destruct (Hok _ _ E') as (_ & _ & ?). simpl in *. lia.
Qed.

Lemma count_undo v values : values_ok values -> P v -> count_value v (-1) (count_value v 1 values) = values.
Proof using Pinj.
  intros Hok Hv. rewrite (proj1 (count_up v values Hok Hv)). unfold count_value. rewrite lookup_insert_eq. simpl.
  destruct (values !! encode_value v) as [[x n]|] eqn:E; simpl.
  - destruct (Hok _ _ E) as (Hx & Ex & Hn). simpl in *. destruct (Z.leb_spec (n + 1 + -1) 0); [lia|]. rewrite insert_insert_eq. replace (n + 1 + -1) with n by lia.
    apply insert_id. rewrite E. by rewrite (Pinj x v).
  - rewrite delete_insert_eq, delete_id; done.
Qed.

Lemma count_comm v v' values : values_ok values -> P v -> P v' -> count_value v 1 (count_value v' 1 values) = count_value v' 1 (count_value v 1 values).
Proof using Pinj.
  intros Hok Hv Hv'. destruct (count_up v values Hok Hv) as [E H1], (count_up v' values Hok Hv') as [E' H2].
  rewrite (proj1 (count_up v _ H2 Hv)), (proj1 (count_up v' _ H1 Hv')), E, E'. destruct (decide (encode_value v = encode_value v')) as [Ek|Hk].
  - by rewrite (Pinj v v') by done.
  - rewrite !lookup_insert_ne by congruence. by rewrite insert_insert_ne by congruence.
Qed.

Context (value group : option nat).

(** What one row does to the accumulator of its group. *)
Definition add_acc (r : row) (sign : Z) (acc : GroupAcc) : GroupAcc := add_value value r sign (add_group (group_of group r) sign acc).

Definition good (r : row) : Prop := G (group_of group r) /\ forall v, (value ≫= fun o => r !! o) = Some v -> P v.

Definition acc_ok (acc : GroupAcc) : Prop := values_ok (ga_values acc).

Lemma acc_add r acc : good r -> acc_ok acc -> acc_ok (add_acc r 1 acc).
Proof using Pinj.
  intros [_ Hv] Hok. unfold add_acc, acc_ok, add_value. destruct (value ≫= _) as [v|]; [|done]. simpl. apply count_up; [done|by apply Hv].
Qed.

Lemma acc_undo r acc : good r -> acc_ok acc -> is_Some (ga_group acc) -> add_acc r (-1) (add_acc r 1 acc) = acc.
Proof using Pinj Pint.
  intros [_ Hv] Hok [g Hg]. unfold add_acc, add_value. destruct (value ≫= _) as [v|]; destruct acc as [ag ac asum afl av]; cbn [ga_group ga_count ga_sum_int ga_sum_float ga_values add_group option.from_option id] in *; subst ag; cbn [ga_group ga_count ga_sum_int ga_sum_float ga_values add_group option.from_option id] in *.
  - rewrite (count_undo v av) by (done || by apply Hv). specialize (Pint v). destruct (numeric_of v) as [[n|x]|]; [f_equal; lia|by destruct (Pint x (Hv v eq_refl))|f_equal; lia].
  - unfold add_group. cbn [ga_group ga_count ga_sum_int ga_sum_float ga_values option.from_option id]. f_equal; lia.
Qed.

Lemma acc_comm r r' acc : good r -> good r' -> acc_ok acc -> encode_value (group_of group r) = encode_value (group_of group r') ->
  add_acc r 1 (add_acc r' 1 acc) = add_acc r' 1 (add_acc r 1 acc).
Proof using Ginj Pinj Pint.
  intros [Hg Hv] [Hg' Hv'] Hok Ek. unfold add_acc, add_value. rewrite <- (Ginj _ _ Hg Hg' Ek). clear Ek. revert Hv Hv'.
  generalize (value ≫= fun o => r !! o) (value ≫= fun o => r' !! o). intros [v|] [v'|] Hv Hv'; destruct acc as [ag ac asum afl av]; cbn [ga_group ga_count ga_sum_int ga_sum_float ga_values add_group option.from_option id] in *; [|done..].
  rewrite (count_comm v v' av) by first [done|by apply Hv|by apply Hv']. pose proof (Pint v) as F. pose proof (Pint v') as F'.
  destruct (numeric_of v) as [[n|x]|]; [|by destruct (F x (Hv v eq_refl))|]; (destruct (numeric_of v') as [[n'|x']|]; [|by destruct (F' x' (Hv' v' eq_refl))|]); f_equal; lia.
Qed.

(** * Groups *)

Definition groups_ok (groups : gmap (list Z) GroupAcc) : Prop := map_Forall (fun k acc => acc_ok acc /\ 0 < ga_count acc /\ is_Some (ga_group acc)) groups.

Definition add_row (r : row) (groups : gmap (list Z) GroupAcc) : gmap (list Z) GroupAcc :=
  let key := encode_value (group_of group r) in <[key := add_acc r 1 (default acc_default (groups !! key))]> groups.

Lemma default_ok groups k : groups_ok groups -> acc_ok (default acc_default (groups !! k)) /\ 0 <= ga_count (default acc_default (groups !! k)).
Proof using Type. intros Hok. destruct (groups !! k) as [acc|] eqn:E; simpl; [destruct (Hok k acc E) as (? & ? & _); split; [done|lia]|]. split; [apply map_Forall_empty|lia]. Qed.

Lemma count_acc r sign acc : ga_count (add_acc r sign acc) = ga_count acc + sign /\ ga_group (add_acc r sign acc) = Some (default (group_of group r) (ga_group acc)).
Proof using Type. unfold add_acc, add_value. by destruct (value ≫= _). Qed.

Lemma add_row_ok r groups : good r -> groups_ok groups -> groups_ok (add_row r groups).
Proof using Pinj.
  intros Hr Hok. apply map_Forall_insert_2; [|done]. destruct (default_ok groups (encode_value (group_of group r)) Hok) as [Ha Hc]. destruct (count_acc r 1 (default acc_default (groups !! encode_value (group_of group r)))) as [-> ->].
  split_and!; [by apply acc_add|lia|by eexists].
Qed.

Lemma add_row_comm r r' groups : good r -> good r' -> groups_ok groups -> add_row r (add_row r' groups) = add_row r' (add_row r groups).
Proof using Ginj Pinj Pint.
  intros Hr Hr' Hok. unfold add_row. destruct (decide (encode_value (group_of group r) = encode_value (group_of group r'))) as [Ek|Hk].
  - rewrite Ek, !lookup_insert_eq. simpl. rewrite !insert_insert_eq. by rewrite acc_comm by (done || by apply default_ok).
  - rewrite !lookup_insert_ne by congruence. by rewrite insert_insert_ne by congruence.
Qed.

Context (view : ResolvedView) (agg : MvAggregate) (Hkind : rv_kind view = Aggregate agg value group).

Lemma apply_add r st : good r -> groups_ok (vs_groups st) -> apply_row view st r 1 = Ok {| vs_groups := add_row r (vs_groups st); vs_ordered := vs_ordered st |}.
Proof using Hkind.
  intros Hr Hok. unfold apply_row, add_row. rewrite Hkind. fold (add_acc r 1 (default acc_default (vs_groups st !! encode_value (group_of group r)))).
  destruct (default_ok (vs_groups st) (encode_value (group_of group r)) Hok) as [_ Hc]. cbv zeta. destruct (count_acc r 1 (default acc_default (vs_groups st !! encode_value (group_of group r)))) as [-> _].
  destruct (Z.leb_spec (ga_count (default acc_default (vs_groups st !! encode_value (group_of group r))) + 1) 0); [lia|done].
Qed.

Lemma apply_undo r st : good r -> groups_ok (vs_groups st) -> apply_row view {| vs_groups := add_row r (vs_groups st); vs_ordered := vs_ordered st |} r (-1) = Ok st.
Proof using Hkind Pinj Pint.
  intros Hr Hok. unfold apply_row, add_row. rewrite Hkind. cbn [vs_groups vs_ordered]. rewrite lookup_insert_eq. cbn [option.from_option id]. cbv zeta.
  set (acc := default acc_default (vs_groups st !! encode_value (group_of group r))). change (add_value value r (-1) (add_group (group_of group r) (-1) ?a)) with (add_acc r (-1) a).
  destruct (count_acc r (-1) (add_acc r 1 acc)) as [E _]. cbn [id option.from_option]. rewrite E. destruct (count_acc r 1 acc) as [-> _]. unfold acc. destruct st as [gs os]. cbn [vs_groups vs_ordered] in *.
  destruct (gs !! encode_value (group_of group r)) as [a|] eqn:Ea; cbn [option.from_option id].
  - destruct (Hok _ _ Ea) as (Ha & Hc & Hg). destruct (Z.leb_spec (ga_count a + 1 + -1) 0); [lia|]. rewrite acc_undo by done. do 2 f_equal. rewrite insert_insert_eq. by apply insert_id.
  - cbn [ga_count acc_default]. change (0 + 1 + -1 <=? 0) with true. cbv iota. do 2 f_equal. by rewrite delete_insert_eq, delete_id.
Qed.
End accumulators.

(** * Views that can be maintained *)

(** A view's state as rows come and go: [add] is what a row with its primary key
    does to it, in any order, and removing the row gives back the state from
    before. *)
Class Incremental (view : ResolvedView) : Type := {
  iv_ok : ViewState -> Prop;
  iv_add : list Z -> row -> ViewState -> ViewState;
  iv_absent : list Z -> row -> ViewState -> Prop;
  iv_start : iv_ok state_default;
  iv_apply pk r st : keyed (rv_schema view) pk r -> iv_ok st -> apply_row view st r 1 = Ok (iv_add pk r st) /\ iv_ok (iv_add pk r st);
  iv_comm pk r pk' r' st : keyed (rv_schema view) pk r -> keyed (rv_schema view) pk' r' -> pk <> pk' -> iv_ok st ->
    iv_add pk r (iv_add pk' r' st) = iv_add pk' r' (iv_add pk r st);
  iv_undo pk r st : keyed (rv_schema view) pk r -> iv_ok st -> iv_absent pk r st -> apply_row view (iv_add pk r st) r (-1) = Ok st;
  iv_new pk r : iv_absent pk r state_default;
  iv_apart pk r pk' r' st : keyed (rv_schema view) pk r -> keyed (rv_schema view) pk' r' -> pk <> pk' -> iv_absent pk r st -> iv_absent pk r (iv_add pk' r' st);
}.

Section incremental.
Context (view : ResolvedView) {IV : Incremental view}.
Notation fit l := (Forall (fun p => keyed (rv_schema view) p.1 p.2) l /\ NoDup l.*1).

Definition built (st : ViewState) (l : list (list Z * row)) : ViewState := fold_left (fun st p => iv_add p.1 p.2 st) l st.

Lemma built_spec l : forall st, fit l -> iv_ok st -> apply_rows view st l.*2 1 = Ok (built st l) /\ iv_ok (built st l).
Proof using Type.
  induction l as [|[pk r] l IH]; intros st [Hf Hn] Hok; [done|]. apply Forall_cons in Hf as [H1 H2]; apply NoDup_cons in Hn as [H3 H4]. simpl in *.
  destruct (iv_apply pk r st H1 Hok) as [-> Hok']. simpl. by apply IH.
Qed.

Lemma built_perm l l' : l ≡ₚ l' -> forall st, fit l -> iv_ok st -> built st l = built st l'.
Proof using Type.
  induction 1 as [|[pk r] l l' _ IH|[pk r] [pk' r'] l|l1 l2 l3 H1 IH1 H2 IH2]; intros st [Hf Hn] Hok; [done| | |].
  - apply Forall_cons in Hf as [Hr Hf']; apply NoDup_cons in Hn as [_ Hn']. apply IH; [done|]. by apply iv_apply.
  - apply Forall_cons in Hf as [H1 [H2 _]%Forall_cons]; apply NoDup_cons in Hn as [H3 _]. simpl in *. unfold built. simpl.
    rewrite iv_comm; [done..| |done]. intros ->. apply H3. left.
  - rewrite IH1 by done. apply IH2; [|done]. by rewrite <- H1.
Qed.

Lemma built_absent pk r l : forall st, fit l -> pk ∉ l.*1 -> keyed (rv_schema view) pk r -> iv_absent pk r st -> iv_absent pk r (built st l).
Proof using Type.
  induction l as [|[pk' r'] l IH]; intros st [Hf Hn] Hpk Hr Ha; [done|]. apply Forall_cons in Hf as [H1 H2]; apply NoDup_cons in Hn as [H3 H4]. simpl in *.
  apply IH; [done|set_solver|done|]. apply iv_apart; [done..| |done]. set_solver.
Qed.

(** Taking the last rows away gives the state without them. *)
Lemma removed_built dels : forall kept, fit (kept ++ dels) -> apply_rows view (built state_default (kept ++ dels)) dels.*2 (-1) = Ok (built state_default kept).
Proof using Type.
  induction dels as [|[pk r] dels IH]; intros kept Hfit; [by rewrite app_nil_r|].
  assert (kept ++ (pk, r) :: dels ≡ₚ (kept ++ dels) ++ [(pk, r)]) as Ep by (rewrite <- app_assoc; apply Permutation_app_head, Permutation_cons_append).
  rewrite (built_perm _ _ Ep _ Hfit iv_start). rewrite Ep, Forall_app in Hfit. destruct Hfit as [[Hf Hr] Hn]. rewrite fmap_app, NoDup_app in Hn. destruct Hn as (Hn & Hd & _).
  apply Forall_cons in Hr as [Hr _]. simpl in Hr. set (st := built state_default (kept ++ dels)). replace (built state_default ((kept ++ dels) ++ [(pk, r)])) with (iv_add pk r st) by (unfold st, built; by rewrite (fold_left_app _ (kept ++ dels))).
  cbn [fmap list_fmap apply_rows snd]. rewrite iv_undo; [cbn [mbind result_bind]; by apply IH|done|apply (built_spec (kept ++ dels)); [done|apply iv_start]|].
  apply built_absent; [done| |done|apply iv_new]. intros Hin. eapply Hd; [exact Hin|]. left.
Qed.

Lemma rebuild_spec l : fit l -> rebuild view l.*2 = Ok (built state_default l).
Proof using Type. intros Hfit. by apply (built_spec l state_default Hfit iv_start). Qed.

(** Deletes, then inserts, on the state of the rows before. *)
Lemma commit_rebuilds old new dels ins kept : fit old -> fit new -> old ≡ₚ kept ++ dels -> new ≡ₚ kept ++ ins ->
  exists st st', rebuild view old.*2 = Ok st /\ rebuild view new.*2 = Ok st' /\
    apply_rows view st dels.*2 (-1) ≫= (fun st => apply_rows view st ins.*2 1) = Ok st'.
Proof using IV.
  intros Ho Hn Eo En. exists (built state_default old), (built state_default new). split_and!; [by apply rebuild_spec..|].
  rewrite (built_perm _ _ Eo _ Ho iv_start), (built_perm _ _ En _ Hn iv_start). rewrite Eo in Ho. rewrite En in Hn. rewrite removed_built by done. cbn [mbind result_bind].
  destruct Hn as [Hf Hd]. rewrite Forall_app in Hf. rewrite fmap_app, NoDup_app in Hd. destruct (built_spec kept state_default) as [_ Hok]; [tauto|apply iv_start|].
  destruct (built_spec ins (built state_default kept)) as [-> _]; [tauto|done|]. unfold built. by rewrite fold_left_app.
Qed.
End incremental.

(** * Both kinds of view *)

(** A column the keys tell values of apart. *)
Definition sortable (schema : TableSchema) (o : nat) : bool := match columns schema !! o with Some ty => ordered_type ty | None => false end.

Definition is_float_type (ty : FluxType.t) : bool := match ty with FluxType.F32 | FluxType.F64 => true | _ => false end.

Definition float_column (schema : TableSchema) (o : nat) : bool := match columns schema !! o with Some ty => is_float_type ty | None => false end.

(** The views whose state is exact: keys over columns with an order, and no float
    to sum. *)
Definition exact_view (view : ResolvedView) : bool :=
  match rv_kind view with
  | Aggregate _ value group =>
      (match group with Some o => sortable (rv_schema view) o | None => true end) &&
      (match value with Some o => sortable (rv_schema view) o && negb (float_column (rv_schema view) o) | None => true end)
  | TopN o _ _ => sortable (rv_schema view) o
  end.

(** The values a column may hold. *)
Definition column_value (schema : TableSchema) (o : nat) (v : RowValue.t) : Prop :=
  exists ty, columns schema !! o = Some ty /\ matches_type v ty = true /\ value_ok v = true.

Lemma column_value_of schema pk r o v : keyed schema pk r -> r !! o = Some v -> column_value schema o v.
Proof.
  intros (Hc%check_row_spec%forallb2_Forall2 & Hok & _) Hv. destruct (Forall2_lookup_l _ _ _ _ _ Hc Hv) as (ty & Hty & Hm). exists ty. split_and!; [done..|].
  rewrite forallb_forall in Hok. apply Hok, list_elem_of_In. by apply (list_elem_of_lookup_2 _ o).
Qed.

Lemma column_there schema pk r o : keyed schema pk r -> sortable schema o = true -> exists v, r !! o = Some v.
Proof.
  intros (Hc%check_row_spec%forallb2_Forall2 & _) Hs. unfold sortable in Hs. destruct (columns schema !! o) as [ty|] eqn:Ety; [|done].
  destruct (Forall2_lookup_r _ _ _ _ _ Hc Ety) as (v & Hv & _). by exists v.
Qed.

Lemma column_key schema o a b s t : sortable schema o = true -> column_value schema o a -> column_value schema o b -> encode_value a ++ s = encode_value b ++ t -> a = b /\ s = t.
Proof.
  unfold sortable. intros Hs (ty & Hty & Ha & Hoa) (ty' & Hty' & Hb & Hob) E. rewrite Hty in Hs, Hty'. injection Hty' as <-.
  pose proof (encode_value_cmp a b ty s t Hs Ha Hb Hoa Hob) as C. rewrite E, (proj2 (@kcmp_eq _ bytes_ord _ _) eq_refl) in C.
  destruct (value_compare a b) eqn:Ec; try done. apply (value_compare_eq a b ty) in Ec as ->; [|done..]. split; [done|]. by apply app_inv_head in E.
Qed.

Lemma column_key_inj schema o a b : sortable schema o = true -> column_value schema o a -> column_value schema o b -> encode_value a = encode_value b -> a = b.
Proof. intros Hs Ha Hb E. apply (column_key schema o a b [] [] Hs Ha Hb). by rewrite E. Qed.

Section windows.
Context (view : ResolvedView) (o : nat) (descending : bool) (limit : nat) (Hkind : rv_kind view = TopN o descending limit) (Hs : sortable (rv_schema view) o = true).
Notation sch := (rv_schema view).

Definition window_add (pk : list Z) (r : row) (st : ViewState) : ViewState :=
  match r !! o with
  | Some v => {| vs_groups := vs_groups st; vs_ordered := <[window_key descending v pk := (v, pk)]> (vs_ordered st) |}
  | None => st
  end.

Definition window_absent (pk : list Z) (r : row) (st : ViewState) : Prop := forall v, r !! o = Some v -> vs_ordered st !! window_key descending v pk = None.

Lemma invert_bytes (l : list Z) : map (fun b => 255 - b) (map (fun b => 255 - b) l) = l.
Proof using Type. rewrite map_map. transitivity (map (fun x : Z => x) l); [apply map_ext; intros; lia|apply map_id]. Qed.

Lemma window_key_inj a b pk pk' : column_value sch o a -> column_value sch o b -> window_key descending a pk = window_key descending b pk' -> pk = pk'.
Proof using Hkind Hs.
  intros Ha Hb. unfold window_key. destruct descending; intros E; [|by apply (column_key sch o a b pk pk' Hs Ha Hb)].
  apply (f_equal (map (fun b => 255 - b))) in E. rewrite !map_app, !invert_bytes in E. apply (column_key sch o a b _ _ Hs Ha Hb) in E as [_ E].
  apply (f_equal (map (fun b => 255 - b))) in E. by rewrite !invert_bytes in E.
Qed.

Lemma window_keys_apart pk r v pk' r' v' : keyed sch pk r -> keyed sch pk' r' -> pk <> pk' -> r !! o = Some v -> r' !! o = Some v' -> window_key descending v pk <> window_key descending v' pk'.
Proof using Hkind Hs. intros Hr Hr' Hne Hv Hv' E. apply Hne, (window_key_inj v v' pk pk'); [by apply (column_value_of _ pk r)|by apply (column_value_of _ pk' r')|done]. Qed.

Lemma window_incremental : Incremental view.
Proof using Hkind Hs.
  refine {| iv_ok := fun _ => True; iv_add := window_add; iv_absent := window_absent |}; unfold window_add; [done|..].
  - intros pk r st Hr _. split; [|done]. destruct (column_there _ _ _ _ Hr Hs) as [v Hv]. unfold apply_row. rewrite Hkind, Hv. destruct Hr as (_ & _ & ->). done.
  - intros pk r pk' r' st Hr Hr' Hne _. destruct (column_there _ _ _ _ Hr Hs) as [v Hv], (column_there _ _ _ _ Hr' Hs) as [v' Hv']. rewrite Hv, Hv'. simpl. f_equal.
    apply insert_insert_ne. by eapply (window_keys_apart pk r v pk' r' v').
  - intros pk r st Hr _ Ha. destruct (column_there _ _ _ _ Hr Hs) as [v Hv]. unfold apply_row. rewrite Hkind, Hv. destruct Hr as (_ & _ & ->). simpl. f_equal. destruct st as [gs os]. simpl. f_equal.
    rewrite delete_insert_eq. apply delete_id. by apply (Ha v).
  - intros pk r v _. apply lookup_empty.
  - intros pk r pk' r' st Hr Hr' Hne Ha v Hv. destruct (column_there _ _ _ _ Hr' Hs) as [v' Hv']. rewrite Hv'. simpl. rewrite lookup_insert_ne; [by apply Ha|].
    apply not_eq_sym. by eapply (window_keys_apart pk r v pk' r' v').
Qed.
End windows.

Section aggregates.
Context (view : ResolvedView) (agg : MvAggregate) (value group : option nat) (Hkind : rv_kind view = Aggregate agg value group) (He : exact_view view = true).
Notation sch := (rv_schema view).

Definition summed_value (v : RowValue.t) : Prop := exists o, value = Some o /\ column_value sch o v.
Definition group_value (v : RowValue.t) : Prop := match group with Some o => column_value sch o v | None => v = star end.

Lemma exact_parts : (forall o, group = Some o -> sortable sch o = true) /\ (forall o, value = Some o -> sortable sch o = true /\ float_column sch o = false).
Proof using He Hkind.
  unfold exact_view in He. rewrite Hkind in He. apply andb_true_iff in He as [H1 H2]. split; intros o ->; [done|].
  apply andb_true_iff in H2 as [? ?%negb_true_iff]. done.
Qed.

Lemma summed_inj a b : summed_value a -> summed_value b -> encode_value a = encode_value b -> a = b.
Proof using He Hkind. intros (o & Ho & Ha) (o' & Ho' & Hb). assert (o' = o) as -> by congruence. apply (column_key_inj sch o); [|done..]. by apply exact_parts. Qed.

Lemma group_inj a b : group_value a -> group_value b -> encode_value a = encode_value b -> a = b.
Proof using He Hkind.
  pose proof (proj1 exact_parts) as Hx. unfold group_value. destruct group as [o|]; [|by intros -> ->]. apply (column_key_inj sch o). by apply Hx.
Qed.

Lemma summed_int a x : summed_value a -> numeric_of a <> Some (NFloat x).
Proof using He Hkind.
  intros (o & Ho & ty & Hty & Hm & _). destruct (proj2 exact_parts o Ho) as [_ Hf]. unfold float_column in Hf. rewrite Hty in Hf. by destruct a, ty.
Qed.

Lemma keyed_good pk r : keyed sch pk r -> good summed_value group_value value group r.
Proof using He Hkind.
  intros Hr. split.
  - pose proof (proj1 exact_parts) as Hx. unfold group_value, group_of. destruct group as [o|]; [|done]. destruct (column_there _ _ _ _ Hr (Hx o eq_refl)) as [v Hv]. rewrite Hv. simpl. by eapply column_value_of.
  - intros v Hv. unfold summed_value. destruct value as [o|]; [|done]. simpl in Hv. exists o. split; [done|]. by eapply column_value_of.
Qed.

Lemma aggregate_incremental : Incremental view.
Proof using He Hkind.
  refine {| iv_ok := fun st => groups_ok summed_value (vs_groups st); iv_absent := fun _ _ _ => True;
    iv_add := fun _ r st => {| vs_groups := add_row value group r (vs_groups st); vs_ordered := vs_ordered st |} |}; [apply map_Forall_empty|..]; [| | |done|done].
  - intros pk r st Hr%keyed_good Hok. split; [by eapply apply_add|]. cbn [vs_groups]. apply (add_row_ok summed_value group_value); auto using summed_inj.
  - intros pk r pk' r' st Hr%keyed_good Hr'%keyed_good _ Hok. cbn [vs_groups vs_ordered]. f_equal. apply (add_row_comm summed_value group_value); auto using summed_inj, group_inj, summed_int.
  - intros pk r st Hr%keyed_good Hok _. apply (apply_undo summed_value group_value summed_inj summed_int value group view agg Hkind); auto.
Qed.
End aggregates.

Lemma exact_incremental view : exact_view view = true -> Incremental view.
Proof.
  intros He. destruct (rv_kind view) as [agg value group|o d n] eqn:Ek; [by eapply aggregate_incremental|]. eapply window_incremental; [done|].
  unfold exact_view in He. by rewrite Ek in He.
Qed.

(** * Commits *)

(** The rows a commit removes and writes, beside those it leaves. *)
Lemma committed_rows id diff R R' td : committed id diff R R' -> find_diff diff id = Some td ->
  exists kept ins, td_inserts td = ins.*2 /\ btree_entries R ≡ₚ kept ++ td_deletes td /\ btree_entries R' ≡ₚ kept ++ ins.
Proof.
  intros [[Ef _]|(ops & Ef & -> & Hfresh & _)] E; [congruence|]. rewrite Ef in E. injection E as <-. rewrite diff_of_parts. cbn [td_inserts td_deletes].
  exists (filter (fun p => ops !! p.1 = None) (map_to_list R)), (wrote_rows ops). split; [done|]. rewrite (btree_entries_perm R), (btree_entries_perm (view R ops)).
  assert (forall k r, (k, r) ∈ filter (fun p => ops !! p.1 = None) (map_to_list R) <-> ops !! k = None /\ R !! k = Some r) as Hk.
  { intros k r. by rewrite list_elem_of_filter, elem_of_map_to_list. }
  split; apply NoDup_Permutation; try apply NoDup_map_to_list.
  - apply NoDup_app. split_and!; [apply NoDup_filter, NoDup_map_to_list| |].
    + intros [k r] [Hn _]%Hk (op & Hop & _)%elem_removed. congruence.
    + apply (NoDup_fmap_1 fst). apply (gone_NoDup R ops).
  - intros [k r]. rewrite elem_of_app, Hk, elem_removed, elem_of_map_to_list. destruct (ops !! k) as [op|] eqn:Eop; [|naive_solver]. split.
    + intros Hr. right. exists op. split_and!; [done| |done]. intros r' ->. rewrite (Hfresh _ _ Eop) in Hr. done.
    + naive_solver.
  - apply NoDup_app. split_and!; [apply NoDup_filter, NoDup_map_to_list| |eapply NoDup_fmap_1, wrote_NoDup].
    intros [k r] [Hn _]%Hk (op & Hop & _)%elem_wrote. congruence.
  - intros [k r]. rewrite elem_of_app, Hk, elem_wrote, elem_of_map_to_list, view_lookup. destruct (ops !! k) as [op|] eqn:Eop; [|naive_solver]. destruct op; naive_solver.
Qed.

Lemma entries_fit (schema : TableSchema) (R : content) : map_Forall (keyed schema) R -> Forall (fun p => keyed schema p.1 p.2) (btree_entries R) /\ NoDup (btree_entries R).*1.
Proof.
  intros HR. split; [|apply btree_keys_NoDup]. apply Forall_forall. intros [pk r] Hin%elem_of_btree_entries. by apply HR.
Qed.

(** The state of a view after a commit is that of a rebuild. *)
Lemma view_follows table_id_of diff view st R R' st' update : exact_view view = true -> map_Forall (keyed (rv_schema view)) R -> map_Forall (keyed (rv_schema view)) R' ->
  committed (rv_table view) diff R R' -> rebuild view (btree_values R) = Ok st -> view_on_commit table_id_of diff view st = Ok (st', update) ->
  rebuild view (btree_values R') = Ok st'.
Proof.
  intros He HR HR' Hc Est. unfold view_on_commit. fold (find_diff diff (rv_table view)). destruct (find_diff diff (rv_table view)) as [td|] eqn:Ef.
  2: { destruct Hc as [[_ ->]|(ops & E & _)]; [|congruence]. by intros [= <- _]. }
  destruct (committed_rows _ _ _ _ _ Hc Ef) as (kept & ins & Ei & Eo & En).
  destruct (commit_rebuilds view (IV := exact_incremental view He) _ _ (td_deletes td) ins kept (entries_fit _ _ HR) (entries_fit _ _ HR') Eo En) as (st0 & st1 & H0 & H1 & H2).
  unfold btree_values in *. rewrite Est in H0. injection H0 as <-. rewrite H1, Ei. destruct (apply_rows view st _ (-1)) as [st2|]; cbn [mbind result_bind] in *; [|done]. rewrite H2. cbn [mbind result_bind].
  destruct (forallb2 _ _ _); [by intros [= <- _]|]. destruct (key_rows (render_all view st)) as [m1|]; cbn [mbind result_bind]; [|done]. destruct (key_rows _) as [m2|]; cbn [mbind result_bind]; [|done].
  destruct (map_err _ _) as [rl|]; cbn [mbind result_bind]; [|done]. destruct (_ && _); by intros [= <- _].
Qed.

(** The rows a scan of a table finds. *)
Definition rows_of (C : TableId -> content) (id : TableId) : result StoreError (list row) := Ok (btree_values (C id)).

Fixpoint engine_commits (table_id_of : list Z -> TableId) (diffs : list TxDiff) (engine : MatViewEngine) : result ViewError (MatViewEngine * list (list (list Z * TableUpdate))) :=
  match diffs with
  | [] => Ok (engine, [])
  | diff :: diffs =>
      engine_on_commit table_id_of diff engine ≫= fun '(engine, out) =>
      engine_commits table_id_of diffs engine ≫= fun '(engine, outs) => Ok (engine, out :: outs)
  end.

(** Commits that take the contents of the tables of the views from [C] to [C']. *)
Inductive tables_history (views : list ResolvedView) : (TableId -> content) -> list TxDiff -> (TableId -> content) -> Prop :=
  | tables_nil C : (forall view, view ∈ views -> map_Forall (keyed (rv_schema view)) (C (rv_table view))) -> tables_history views C [] C
  | tables_cons C diff C1 diffs C2 : (forall view, view ∈ views -> map_Forall (keyed (rv_schema view)) (C (rv_table view))) ->
      (forall view, view ∈ views -> committed (rv_table view) diff (C (rv_table view)) (C1 (rv_table view))) -> tables_history views C1 diffs C2 ->
      tables_history views C (diff :: diffs) C2.

Lemma tables_keyed views C diffs C' : tables_history views C diffs C' -> forall view, view ∈ views -> map_Forall (keyed (rv_schema view)) (C (rv_table view)).
Proof. by destruct 1. Qed.

(** Every view of an engine holds what a rebuild from the rows [C] gives. *)
Definition rebuilt (C : TableId -> content) (engine : MatViewEngine) : Prop := Forall (fun e => rebuild e.1 (btree_values (C (rv_table e.1))) = Ok e.2) engine.

Lemma engine_follows table_id_of diff C C' engine : forall engine' out, Forall (fun e => exact_view e.1 = true) engine ->
  (forall view, view ∈ engine.*1 -> map_Forall (keyed (rv_schema view)) (C (rv_table view)) /\ map_Forall (keyed (rv_schema view)) (C' (rv_table view)) /\
     committed (rv_table view) diff (C (rv_table view)) (C' (rv_table view))) ->
  rebuilt C engine -> engine_on_commit table_id_of diff engine = Ok (engine', out) -> rebuilt C' engine' /\ engine'.*1 = engine.*1.
Proof.
  induction engine as [|[view st] engine IH]; intros engine' out He Hc Hr; cbn [engine_on_commit]; [intros [= <- _]; split; [constructor|done]|].
  apply Forall_cons in He as [He1 He]. apply Forall_cons in Hr as [Hr1 Hr]. destruct (view_on_commit _ _ _ _) as [[st1 u]|] eqn:Ev; cbn [mbind result_bind]; [|done].
  destruct (engine_on_commit _ _ _) as [[engine1 out1]|] eqn:Ee; cbn [mbind result_bind]; [|done]. intros [= <- _].
  destruct (IH engine1 out1 He) as [H1 H2]; [intros v Hv; apply Hc; by right|done|done|]. destruct (Hc view ltac:(left)) as (K1 & K2 & K3).
  split; [|simpl; by f_equal]. constructor; [|done]. by apply (view_follows table_id_of diff view st (C (rv_table view)) (C' (rv_table view)) st1 u).
Qed.

Lemma init_rebuilt C views : forall states, init_from_views (rows_of C) views = Ok states <-> rebuilt C (zip views states) /\ length states = length views.
Proof.
  unfold init_from_views, rebuilt. induction views as [|view views IH]; intros states; cbn [collect].
  - split; [intros [= <-]; by split; [constructor|]|]. intros [_ E]. by destruct states.
  - change (map_err ViewStore (rows_of C (rv_table view)) ≫= (fun rs => rebuild view rs)) with (rebuild view (btree_values (C (rv_table view)))).
    destruct (rebuild view (btree_values (C (rv_table view)))) as [st|] eqn:Er; cbn [mbind result_bind].
    + destruct (collect _ views) as [sts|e] eqn:Ec; cbn [mbind result_bind].
      * destruct (proj1 (IH sts) eq_refl) as [H1 H2]. split; [intros [= <-]; cbn [zip zip_with length]; split; [constructor; done|lia]|].
        intros [Hf Hl]. destruct states as [|st' states]; [done|]. apply Forall_cons in Hf as [Hs Hf]. simpl in Hs, Hl. rewrite Er in Hs. injection Hs as <-.
        assert (Ok sts = Ok states) as [= ->] by (apply IH; split; [done|lia]). done.
      * split; [done|]. intros [Hf Hl]. destruct states as [|st' states]; [done|]. apply Forall_cons in Hf as [Hs Hf]. simpl in Hl. by assert (Err e = Ok states) by (apply IH; split; [done|lia]).
    + split; [done|]. intros [Hf Hl]. destruct states as [|st' states]; [done|]. apply Forall_cons in Hf as [Hs Hf]. simpl in Hs. congruence.
Qed.

(** C13: materialized views stay exact without scanning. After any number of commits
    the state of every view, maintained from the deleted and inserted rows alone,
    equals the state a fresh rebuild from the rows then committed gives, for
    aggregates that sum no float column and for sorted windows. *)
Theorem views_incremental table_id_of views C diffs C' states engine outs :
  forallb exact_view views = true -> tables_history views C diffs C' -> init_from_views (rows_of C) views = Ok states ->
  engine_commits table_id_of diffs (zip views states) = Ok (engine, outs) ->
  engine.*1 = views /\ init_from_views (rows_of C') views = Ok engine.*2.
Proof.
  intros He Hh [Hr Hl]%init_rebuilt E. rewrite forallb_forall in He.
  assert ((zip views states).*1 = views) as Ev by (apply fst_zip; lia).
  assert (engine.*1 = views /\ rebuilt C' engine) as [E1 E2].
  { clear Hl. revert E Hr Ev. generalize (zip views states). clear states. revert engine outs. induction Hh as [C Hk|C diff C1 diffs C2 Hk Hc Hh IH]; intros engine outs eng; cbn [engine_commits]; [by intros [= <- _]|].
    destruct (engine_on_commit _ _ _) as [[eng1 out]|] eqn:E1; cbn [mbind result_bind]; [|done]. destruct (engine_commits _ _ eng1) as [[eng2 outs']|] eqn:E2; cbn [mbind result_bind]; [|done].
    intros [= <- _] Hr Ev. destruct (engine_follows table_id_of diff C C1 eng eng1 out) as [H1 H2]; [| |done|done|].
    - apply Forall_forall. intros e Hin. apply He, list_elem_of_In. rewrite <- Ev. by apply list_elem_of_fmap_2.
    - rewrite Ev. intros view Hv. split_and!; [by apply Hk|by apply (tables_keyed _ _ _ _ Hh)|by apply Hc].
    - apply (IH eng2 outs' eng1 E2 H1). congruence. }
  split; [done|]. apply init_rebuilt. rewrite <- E1, length_fmap, length_fmap. split; [|done]. by rewrite zip_fst_snd.
Qed.
