(* ===== verification/SubProps.v ===== *)
(** What subscribers receive.

    [bookkeeping_kept]: the invariant of the manager holds in every reachable state.
    [pruning_exact]: the fan-out of a commit, which evaluates only the queries the
    pruning indexes select, delivers what evaluating every registered query would.
    [cache_follows]: a client that applies the deltas of its query holds, after any
    number of commits, exactly the rows of the table the query keeps.
    [resume_replays]: a resumed subscription receives exactly the deltas after its
    offset, or a snapshot when some of them are gone.
    [second_handle_lost]: a connection that subscribed twice to one query and drops
    one handle receives nothing for the other. *)

From stdpp Require Import base list gmap sorting numbers strings relations.
From Stdlib Require Import ZArith Lia.
From S2P Require Import Prelude FluxBin Row IndexKey TxState LogRecord PageFormat PagedTree PagedTreeNode PagedTreeRep PagedTreeWrite PagedTreeSpec KvTree TableState TableSpec Reclaim MemStore MergeSpec IndexSpec StoreSpec Replica StoreBuild Ieee SqlText FullText Query QueryPlan RowList Crdt Mask MatView Subscription QueryEval SubTiers SubManager SubClient.

(** * Evaluating every query *)

(** Only members of the set where [f] is defined matter. *)
Lemma omap_support {B} (f : Z -> option B) (C D : gset Z) : (forall h, is_Some (f h) -> h ∈ C <-> h ∈ D) -> omap f (elements C) ≡ₚ omap f (elements D).
Proof.
  intros Hf. assert (forall A B0 : gset Z, (forall h, is_Some (f h) -> h ∈ A -> h ∈ B0) -> omap f (elements A) ≡ₚ omap f (elements (A ∩ B0))) as Hhalf.
  { intros A B0 HA. assert (A = (A ∩ B0) ∪ (A ∖ B0)) as EA by (apply set_eq; intros h; destruct (decide (h ∈ B0)); set_solver).
    rewrite EA at 1. rewrite elements_disj_union by set_solver. rewrite omap_app. assert (omap f (elements (A ∖ B0)) = []) as ->; [|by rewrite app_nil_r].
    assert (forall h, h ∈ elements (A ∖ B0) -> f h = None) as Hn.
    { intros h Hh%elem_of_elements. destruct (f h) eqn:E; [|done]. exfalso. apply elem_of_difference in Hh as [H1 H2]. by apply H2, HA. }
    induction (elements (A ∖ B0)) as [|h l IH]; [done|]. cbn [omap list_omap]. rewrite (Hn h) by left. apply IH. intros; apply Hn; by right. }
  rewrite (Hhalf C D), (Hhalf D C), (intersection_comm_L C D); [done|intros; by apply Hf|intros; by apply Hf].
Qed.

Section commits.
Context {U : Unicode} (table_id_of : list Z -> TableId) (hash64 : list Z -> Z -> Z) (sha256 : list Z -> list Z).
Context (unpack_state : list Z -> option Crdt.CrdtText) (pack_ops : list Crdt.TextOp -> list Z) (env : SubEnv).
Notation evaluate := (evaluate table_id_of sha256 unpack_state pack_ops env).
Notation on_commit := (on_commit table_id_of hash64 sha256 unpack_state pack_ops env).

(** The delta of one registered query. *)
Definition delta_of (m : Manager) (diff : TxDiff) (h : Z) : option QueryDelta :=
  sm_queries m !! h ≫= fun st =>
  match evaluate (sm_members m) (qs_plan st) (qs_viewer st) (qs_roles st) diff with
  | Ok (Some u) => Some {| qd_query_hash := h; qd_update := u; qd_subscribers := subscribers_of m h (qs_subscribers st) |}
  | _ => None
  end.

Definition evaluates (m : Manager) (diff : TxDiff) (h : Z) : Prop := forall st, sm_queries m !! h = Some st ->
  exists u, evaluate (sm_members m) (qs_plan st) (qs_viewer st) (qs_roles st) diff = Ok u.

Lemma commit_queries_out m diff hs : map_Forall (fun _ st => qs_subscribers st <> ∅) (sm_queries m) -> forall windows out windows',
  commit_queries table_id_of sha256 unpack_state pack_ops env m diff hs windows = Ok (out, windows') -> out = omap (delta_of m diff) hs /\ Forall (evaluates m diff) hs.
Proof using Type.
  intros Hs. induction hs as [|h hs IH]; intros windows out windows'; cbn [commit_queries]; [by intros [= <- _]|]. cbn [omap list_omap]. unfold delta_of at 1, evaluates at 1. rewrite Forall_cons.
  destruct (sm_queries m !! h) as [st|] eqn:E; cbn [mbind option_bind]; [|intros [-> ?]%IH; split; [done|]; split; [|done]; done].
  rewrite bool_decide_eq_false_2 by by apply (Hs h).
  destruct (evaluate _ _ _ _ _) as [[u|]|] eqn:Ee; cbn [mbind result_bind]; [| |done].
  - destruct (commit_queries _ _ _ _ _ _ _ _ _) as [[out1 w1]|] eqn:E1; cbn [mbind result_bind]; [|done]. intros [= <- _]. apply IH in E1 as [-> ?]. split; [done|]. split; [|done].
    intros st0 [= <-]. rewrite Ee. by eexists.
  - intros [-> ?]%IH. split; [done|]. split; [|done]. intros st0 [= <-]. rewrite Ee. by eexists.
Qed.

(** Every row of the commit holds plain values. *)
Definition plain_diff (diff : TxDiff) : Prop := forall td r, td ∈ diff_tables diff -> r ∈ td_inserts td ++ (td_deletes td).*2 -> Forall plain_value r.

Definition plain_plans (m : Manager) : Prop := map_Forall (fun _ st => plain_plan (qs_plan st)) (sm_queries m).

(** A query the indexes do not select has nothing to deliver. *)
Lemma not_selected m diff h st : tiers_ok (sm_queries m) (sm_tiers m) -> plan_ok env (qs_plan st) -> plain_plan (qs_plan st) -> plain_diff diff ->
  sm_queries m !! h = Some st -> h ∉ candidate_plans env (sm_tiers m) diff -> evaluate (sm_members m) (qs_plan st) (qs_viewer st) (qs_roles st) diff = Ok None.
Proof using Type.
  intros HT Hp Hpl Hd E Hn. unfold Subscription.evaluate. destruct (find_diff diff (cp_table_id (qs_plan st))) as [td|] eqn:Ef; [|done].
  unfold find_diff in Ef. apply find_some in Ef as [Htd%list_elem_of_In Eid%Z.eqb_eq].
  assert (forall r, r ∈ td_inserts td ++ (td_deletes td).*2 -> delta_keep env (sm_members m) (qs_plan st) (qs_viewer st) r = false) as Hk.
  { intros r Hr. destruct (delta_keep _ _ _ _ r) eqn:Ek; [|done]. exfalso. apply Hn. by eapply (candidate_complete env _ _ h st diff td r); eauto. }
  assert (forall l, (forall r, r ∈ l -> delta_keep env (sm_members m) (qs_plan st) (qs_viewer st) r = false) -> List.filter (delta_keep env (sm_members m) (qs_plan st) (qs_viewer st)) l = []) as Hnil.
  { intros l Hl. induction l as [|r l IH]; [done|]. simpl. rewrite (Hl r) by left. apply IH. intros; apply Hl; by right. }
  unfold delta_rows. rewrite !Hnil; [done|..]; intros; apply Hk, elem_of_app; auto.
Qed.

Lemma fan_out_exact m diff deltas m' : manager_ok env m -> plain_plans m -> plain_diff diff -> on_commit m diff = Ok (deltas, m') ->
  exists engine updates, engine_on_commit table_id_of diff (sm_matviews m) = Ok (engine, updates) /\
    deltas ≡ₚ omap (delta_of m diff) (elements (dom (sm_queries m))) ++ view_deltas hash64 m updates /\ (forall h, evaluates m diff h) /\ sm_queries m' = sm_queries m.
Proof using Type.
  intros [HC _] Hpl Hd. unfold Subscription.on_commit. set (m1 := set_offset m _). destruct (commit_queries _ _ _ _ _ _ _ _ _) as [[out w1]|] eqn:E1; cbn [mbind result_bind]; [|done].
  apply commit_queries_out in E1 as [-> Hev]; [|intros h st E; by apply (mo_queries _ _ HC h st E)].
  change (sm_matviews (set_windows m1 w1)) with (sm_matviews m). destruct (engine_on_commit table_id_of diff (sm_matviews m)) as [[engine ups]|]; cbn [map_err mbind result_bind]; [|done].
  intros [= <- <-]. exists engine, ups. split; [done|].
  assert (forall h st, sm_queries m !! h = Some st -> h ∉ candidate_plans env (sm_tiers m) diff -> evaluate (sm_members m) (qs_plan st) (qs_viewer st) (qs_roles st) diff = Ok None) as Hno.
  { intros h st E Hn. apply (not_selected m diff h st); try done; [apply HC|by apply (mo_queries _ _ HC h st E)|by apply (Hpl h st E)]. }
  split_and!; [|intros h st E|done].
  - rewrite merge_sort_Permutation. apply Permutation_app; [|done]. change (delta_of m1 diff) with (delta_of m diff). apply omap_support. intros h [d Ed].
    unfold delta_of in Ed. destruct (sm_queries m !! h) as [st|] eqn:E; [|done]. cbn [mbind option_bind] in Ed. split; [intros _; by apply elem_of_dom|]. intros _.
    destruct (decide (h ∈ candidate_plans env (sm_tiers m) diff)) as [|Hn]; [done|]. by rewrite (Hno h st E Hn) in Ed.
  - destruct (decide (h ∈ candidate_plans env (sm_tiers m) diff)) as [Hin|Hn]; [|exists None; exact (Hno h st E Hn)]. rewrite Forall_forall in Hev. exact (Hev h (proj2 (elem_of_elements _ _) Hin) st E).
Qed.

(** * One subscriber *)

(** The deltas addressed to a handle of a connection. *)
Definition addressed (c qid : Z) (deltas : list QueryDelta) : list QueryDelta := filter (fun d => (c, qid) ∈ qd_subscribers d) deltas.

Lemma query_id_of_spec m c h : holds_handle m c h -> exists handles, sm_connections m !! c = Some handles /\ handles !! query_id_of m c h = Some h.
Proof using Type.
  intros (handles & id & Ec & Eid). exists handles. split; [done|]. unfold query_id_of. rewrite Ec. cbn [mbind option_bind].
  destruct (find (fun p => p.2 =? h) (map_to_list handles)) as [[id' h']|] eqn:Ef.
  - apply find_some in Ef as [Hin%list_elem_of_In Eh%Z.eqb_eq]. simpl in Eh. subst h'. simpl. by apply elem_of_map_to_list.
  - exfalso. assert (In (id, h) (map_to_list handles)) as Hin by (by apply list_elem_of_In, elem_of_map_to_list). apply (find_none _ _ Ef) in Hin. simpl in Hin. by rewrite Z.eqb_refl in Hin.
Qed.

Lemma elem_subscribers m h s x : x ∈ subscribers_of m h s <-> x.1 ∈ s /\ x.2 = query_id_of m x.1 h.
Proof using Type.
  unfold subscribers_of. rewrite merge_sort_Permutation, list_elem_of_fmap. setoid_rewrite elem_of_elements. destruct x as [c q]. simpl. naive_solver.
Qed.

Lemma filter_omap {A B} (P : B -> Prop) `{forall x, Decision (P x)} (f : A -> option B) (l : list A) : filter P (omap f l) = omap (fun x => f x ≫= fun y => if decide (P y) then Some y else None) l.
Proof using Type.
  induction l as [|x l IH]; [done|]. cbn [omap list_omap]. destruct (f x) as [y|]; cbn [mbind option_bind]; [|done]. rewrite filter_cons. case_decide; by rewrite IH.
Qed.

Lemma filter_none {A} (P : A -> Prop) `{forall x, Decision (P x)} (l : list A) : (forall x, x ∈ l -> ~ P x) -> filter P l = [].
Proof using Type. induction l as [|x l IH]; intros Hl; [done|]. rewrite filter_cons_False by (apply Hl; left). apply IH. intros; apply Hl; by right. Qed.

Lemma omap_single {B} (f : Z -> option B) (D : gset Z) (h : Z) : (forall h', h' ∈ D -> h' <> h -> f h' = None) -> (h ∉ D -> f h = None) -> omap f (elements D) ≡ₚ option_list (f h).
Proof using Type.
  intros H1 H2. rewrite (omap_support f D {[h]}).
  - rewrite elements_singleton. cbn [omap list_omap]. by destruct (f h).
  - intros h' [y Hy]. rewrite elem_of_singleton. split; [intros HD; destruct (decide (h' = h)); [done|]; by rewrite (H1 h' HD) in Hy|].
    intros ->. destruct (decide (h ∈ D)); [done|]. by rewrite H2 in Hy.
Qed.

(** A handle receives the delta of its query and nothing else. *)
Lemma addressed_exact m diff deltas m' h st c : manager_ok env m -> plain_plans m -> plain_diff diff -> on_commit m diff = Ok (deltas, m') ->
  sm_queries m !! h = Some st -> c ∈ qs_subscribers st -> addressed c (query_id_of m c h) deltas = option_list (delta_of m diff h).
Proof using Type.
  intros Hm Hpl Hd E Est Hc. destruct (fan_out_exact m diff deltas m' Hm Hpl Hd E) as (engine & ups & _ & Hp & _). destruct Hm as [HC HH].
  destruct (query_id_of_spec m c h (HH h st c Est Hc)) as (handles & Ec & Eid).
  assert (addressed c (query_id_of m c h) deltas ≡ₚ option_list (delta_of m diff h)) as HP.
  2: { destruct (delta_of m diff h) as [d|]; simpl in *; [by apply Permutation_singleton_r in HP|by apply Permutation_nil_r in HP]. }
  unfold addressed. rewrite Hp, filter_app, filter_omap.
  assert (filter (fun d => (c, query_id_of m c h) ∈ qd_subscribers d) (view_deltas hash64 m ups) = []) as ->.
  { apply filter_none. intros d (p & _ & Ed)%list_elem_of_omap Hin. destruct (sm_view_subs m !! p.1) as [s0|]; [|done]. case_bool_decide; [done|]. injection Ed as <-. cbn [qd_subscribers] in Hin.
    rewrite merge_sort_Permutation in Hin. apply list_elem_of_fmap in Hin as (c' & [= _ E0] & _). pose proof (mo_ids _ _ HC c handles Ec _ _ Eid) as Hb. simpl in Hb. lia. }
  rewrite app_nil_r, (omap_single _ _ h).
  - destruct (delta_of m diff h) as [d|] eqn:Ed; [|done]. cbn [mbind option_bind]. rewrite decide_True; [done|]. revert Ed. unfold delta_of. rewrite Est. cbn [mbind option_bind].
    destruct (evaluate _ _ _ _ _) as [[u|]|]; [|done|done]. intros [= <-]. simpl. by apply elem_subscribers.
  - intros h' Hh' Hne. unfold delta_of. destruct (sm_queries m !! h') as [st'|] eqn:Est'; [|done]. cbn [mbind option_bind]. destruct (evaluate _ _ _ _ _) as [[u|]|]; [|done|done]. cbn [mbind option_bind].
    rewrite decide_False; [done|]. simpl. rewrite elem_subscribers. simpl. intros [Hc' Eq]. destruct (query_id_of_spec m c h' (HH h' st' c Est' Hc')) as (handles' & Ec' & Eid'). congruence.
  - intros Hn. exfalso. apply Hn, elem_of_dom. by eexists.
Qed.
End commits.

(** * Sessions *)

Section sessions.
Context {U : Unicode} (table_id_of : list Z -> TableId) (hash64 : list Z -> Z -> Z) (sha256 : list Z -> list Z).
Context (unpack_state : list Z -> option Crdt.CrdtText) (pack_ops : list Crdt.TextOp -> list Z) (env : SubEnv).
Notation on_commit := (on_commit table_id_of hash64 sha256 unpack_state pack_ops env).

(** A run of commits, with the deltas of each. *)
Fixpoint on_commits (m : Manager) (diffs : list TxDiff) : result SubError (list (list QueryDelta) * Manager) :=
  match diffs with
  | [] => Ok ([], m)
  | diff :: diffs =>
      on_commit m diff ≫= fun '(deltas, m) =>
      on_commits m diffs ≫= fun '(out, m) => Ok (deltas :: out, m)
  end.

(** The client applies what is addressed to its handle. *)
Fixpoint receive (schema : TableSchema) (updates : list QueryDelta) (cache : content) : result StorageError content :=
  match updates with
  | [] => Ok cache
  | d :: updates => client_apply schema (tu_deletes (qd_update d)) (tu_inserts (qd_update d)) cache ≫= receive schema updates
  end.

Fixpoint receive_all (schema : TableSchema) (c qid : Z) (batches : list (list QueryDelta)) (cache : content) : result StorageError content :=
  match batches with
  | [] => Ok cache
  | deltas :: batches => receive schema (addressed c qid deltas) cache ≫= receive_all schema c qid batches
  end.

(** Commits that take the contents of a table from [R] to [R']. *)
Inductive history (schema : TableSchema) (id : TableId) : content -> list TxDiff -> content -> Prop :=
  | history_nil R : map_Forall (keyed schema) R -> history schema id R [] R
  | history_cons R diff R1 diffs R2 : map_Forall (keyed schema) R -> committed id diff R R1 -> plain_diff diff -> history schema id R1 diffs R2 ->
      history schema id R (diff :: diffs) R2.

Lemma history_keyed schema id R diffs R' : history schema id R diffs R' -> map_Forall (keyed schema) R.
Proof using Type. by destruct 1. Qed.

(** No membership rule protects the table, or the query sees every row. *)
Definition unshared (plan : CompiledPlan) (viewer : option (list Z)) : Prop :=
  viewer = None \/ position_of (fun spec => ms_protected spec =? cp_table_id plan) (se_membership env) = None.

Lemma keep_members plan viewer : unshared plan viewer -> forall members members' r, delta_keep env members plan viewer r = delta_keep env members' plan viewer r.
Proof using Type.
  intros Hu members members' r. unfold delta_keep, row_visible. f_equal. destruct (negb _); [done|]. destruct viewer as [id|]; [|done]. destruct Hu as [?|E]; [done|]. by rewrite E.
Qed.

(** What a commit leaves alone. *)
Lemma on_commit_frame m diff deltas m' : on_commit m diff = Ok (deltas, m') -> sm_queries m' = sm_queries m /\ sm_connections m' = sm_connections m.
Proof using Type.
  unfold Subscription.on_commit. destruct (commit_queries _ _ _ _ _ _ _ _ _) as [[out w1]|]; cbn [mbind result_bind]; [|done].
  destruct (engine_on_commit _ _ _) as [[engine ups]|]; cbn [map_err mbind result_bind]; [|done]. by intros [= _ <-].
Qed.

Lemma follows_from h st c t plan viewer : plan = qs_plan st -> viewer = qs_viewer st -> c ∈ qs_subscribers st ->
  table_schema table_id_of env (cp_table_id plan) = Ok t -> se_policies env !! cp_table_id plan = None -> crdt_ordinals t = [] -> unshared plan viewer ->
  forall diffs m R R' batches m' members, manager_ok env m -> plain_plans m -> sm_queries m !! h = Some st -> history (qt_schema t) (cp_table_id plan) R diffs R' ->
  on_commits m diffs = Ok (batches, m') ->
  receive_all (qt_schema t) c (query_id_of m c h) batches (kept (delta_keep env members plan viewer) R) = Ok (kept (delta_keep env members plan viewer) R').
Proof using Type.
  intros -> -> Hc Ht Hpol Hcrdt Hu. induction diffs as [|diff diffs IH]; intros m R R' batches m' members Hm Hpl Est Hh; inversion Hh as [|? ? R1 ? ? Hk Hcom Hpd Hrest]; subst; cbn [on_commits]; [by intros [= <- _]|].
  destruct (on_commit m diff) as [[deltas m1]|] eqn:E1; cbn [mbind result_bind]; [|done]. destruct (on_commits m1 diffs) as [[out m2]|] eqn:E2; cbn [mbind result_bind]; [|done]. intros [= <- _].
  cbn [receive_all]. rewrite (addressed_exact table_id_of hash64 sha256 unpack_state pack_ops env m diff deltas m1 h st c Hm Hpl Hpd E1 Est Hc).
  destruct (fan_out_exact table_id_of hash64 sha256 unpack_state pack_ops env m diff deltas m1 Hm Hpl Hpd E1) as (_ & _ & _ & _ & Hev & _).
  destruct (Hev h st Est) as [upd Eu]. pose proof (delta_follows table_id_of sha256 unpack_state pack_ops env (sm_members m) (qs_plan st) (qs_viewer st) (qs_roles st) t Ht Hpol Hcrdt diff R R1 upd Hcom Hk (history_keyed _ _ _ _ _ Hrest) Eu) as Hf.
  assert (forall X, kept (delta_keep env members (qs_plan st) (qs_viewer st)) X = kept (delta_keep env (sm_members m) (qs_plan st) (qs_viewer st)) X) as Ek.
  { intros X. apply map_eq. intros k. rewrite !kept_lookup. destruct (X !! k) as [r|]; [|done]. simpl. by rewrite (keep_members _ _ Hu members (sm_members m)). }
  assert (receive (qt_schema t) (option_list (delta_of table_id_of sha256 unpack_state pack_ops env m diff h)) (kept (delta_keep env members (qs_plan st) (qs_viewer st)) R) =
    Ok (kept (delta_keep env members (qs_plan st) (qs_viewer st)) R1)) as ->.
  { rewrite !Ek. unfold delta_of. rewrite Est. cbn [mbind option_bind]. rewrite Eu. destruct upd as [u|]; [|by rewrite Hf].
    change (receive (qt_schema t) (option_list (Some ?d)) ?x) with (client_apply (qt_schema t) (tu_deletes (qd_update d)) (tu_inserts (qd_update d)) x ≫= receive (qt_schema t) []). cbn [qd_update]. by rewrite Hf. }
  destruct (on_commit_frame _ _ _ _ E1) as [Eq Econ]. assert (query_id_of m c h = query_id_of m1 c h) as -> by (unfold query_id_of; by rewrite Econ).
  eapply IH; [by eapply on_commit_ok|unfold plain_plans; by rewrite Eq|by rewrite Eq|done|exact E2].
Qed.
End sessions.

(** * Retained deltas *)

(** The window after the deltas [L]: the last [max cap 1], and the offset of the
    last one dropped. *)
Definition window_drops (cap : Z) (L : list (Z * TableUpdate)) : nat := (length L - Z.to_nat (Z.max cap 1))%nat.
Definition window_of (cap : Z) (L : list (Z * TableUpdate)) : DeltaWindow :=
  {| dw_entries := skipn (window_drops cap L) L; dw_trimmed_before := default 0 (fst <$> last (firstn (window_drops cap L) L)) |}.

Lemma evict_spec cap es : 0 <= cap -> forall tr, evict cap es tr =
  let n := (length es - Z.to_nat cap)%nat in {| dw_entries := skipn n es; dw_trimmed_before := default tr (fst <$> last (firstn n es)) |}.
Proof.
  intros Hcap. induction es as [|e es IH]; intros tr; cbn [evict]; [by rewrite firstn_nil, skipn_nil|]. cbv zeta. destruct (Z.ltb_spec cap (Z.of_nat (length (e :: es)))) as [Hl|Hl].
  - rewrite IH. cbv zeta. simpl length in *. replace (S (length es) - Z.to_nat cap)%nat with (S (length es - Z.to_nat cap)) by lia. cbn [skipn firstn]. f_equal.
    rewrite last_cons. by destruct (last _).
  - replace (length (e :: es) - Z.to_nat cap)%nat with 0%nat by lia. done.
Qed.

Lemma push_window cap L off u : window_push (window_of cap L) off u cap = window_of cap (L ++ [(off, u)]).
Proof.
  unfold window_push. rewrite evict_spec by lia. unfold window_of. cbn [dw_entries dw_trimmed_before]. set (k := Z.to_nat (Z.max cap 1)).
  assert (0 < k)%nat by (unfold k; lia). unfold window_drops. rewrite !length_app, length_drop. simpl length. fold k.
  destruct (decide (length L < k)%nat) as [Hlt|Hge].
  - replace (length L - k)%nat with 0%nat by lia. replace (length L + 1 - k)%nat with 0%nat by lia. replace (length L - 0 + 1 - k)%nat with 0%nat by lia. done.
  - set (n := (length L - k)%nat). replace (length L - n + 1 - k)%nat with 1%nat by lia. replace (length L + 1 - k)%nat with (S n) by lia.
    destruct (drop n L) as [|e es] eqn:Ed; [exfalso; apply (f_equal length) in Ed; rewrite length_drop in Ed; simpl in Ed; lia|].
    assert (L = firstn n L ++ e :: es) as EL by (by rewrite <- Ed, take_drop).
    assert (length (firstn n L) = n) as En by (rewrite length_take; lia).
    assert (L ++ [(off, u)] = (firstn n L ++ [e]) ++ (es ++ [(off, u)])) as -> by (rewrite EL at 1; by rewrite <- !app_assoc).
    assert (S n = length (firstn n L ++ [e])) as -> by (rewrite length_app, En; simpl; lia).
    rewrite drop_app_length, take_app_length. f_equal. rewrite last_snoc. done.
Qed.

Lemma window_of_nil cap : window_of cap [] = window_default.
Proof. unfold window_of. by rewrite skipn_nil, firstn_nil. Qed.

Lemma last_offset_max (L : list (Z * TableUpdate)) x : StronglySorted Z.le (L ++ [x]).*1 -> Forall (fun e => e.1 <= x.1) (L ++ [x]).
Proof.
  rewrite fmap_app. intros Hs. apply Forall_app. split; [|by repeat constructor]. apply Forall_forall. intros e He.
  eapply (StronglySorted_app_1_elem_of Z.le _ _ e.1 x.1 Hs); [by apply list_elem_of_fmap_2|by left].
Qed.

(** The window answers from an offset exactly when everything it dropped is at or
    before it, and then with what came after. *)
Lemma window_answers cap L from : StronglySorted Z.le L.*1 -> 0 <= from ->
  (if can_resume (window_of cap L) from then Some (since (window_of cap L) from) else None) =
  if forallb (fun e => e.1 <=? from) (firstn (window_drops cap L) L) then Some (filter (fun e => from < e.1) L) else None.
Proof.
  intros Hs Hf. unfold can_resume, since, window_of. cbn [dw_entries dw_trimmed_before]. set (n := window_drops cap L).
  assert (StronglySorted Z.le (firstn n L).*1) as Hs1 by (rewrite <- (take_drop n L), fmap_app in Hs; by apply StronglySorted_app_1_l in Hs).
  assert ((default 0 (fst <$> last (firstn n L)) <=? from) = forallb (fun e => e.1 <=? from) (firstn n L)) as ->.
  { destruct (firstn n L) as [|x l _] eqn:E using rev_ind; [simpl; by apply Z.leb_le|]. rewrite last_snoc. cbn [fmap option_fmap option_map default from_option]. apply Bool.eq_iff_eq_true.
    rewrite Z.leb_le, forallb_forall. pose proof (last_offset_max l x Hs1) as Hm. rewrite Forall_forall in Hm. split.
    - intros Hx e He%list_elem_of_In. apply Z.leb_le. specialize (Hm e He). simpl in *. unfold id. lia.
    - intros Ha. apply Z.leb_le, Ha, list_elem_of_In, elem_of_app. right. by left. }
  destruct (forallb _ (firstn n L)) eqn:Ef; [|done]. f_equal. rewrite <- (take_drop n L) at 2. rewrite filter_app. symmetry. rewrite filter_none; [done|].
  intros e He. rewrite forallb_forall in Ef. apply list_elem_of_In in He. apply Ef, Z.leb_le in He. lia.
Qed.

Section resumption.
Context {U : Unicode} (table_id_of : list Z -> TableId) (hash64 : list Z -> Z -> Z) (sha256 : list Z -> list Z).
Context (unpack_state : list Z -> option Crdt.CrdtText) (pack_ops : list Crdt.TextOp -> list Z) (env : SubEnv).
Notation on_commit := (on_commit table_id_of hash64 sha256 unpack_state pack_ops env).
Notation on_commits := (on_commits table_id_of hash64 sha256 unpack_state pack_ops env).
Notation delta_of := (delta_of table_id_of sha256 unpack_state pack_ops env).
Notation cap := (resume_window_deltas (se_limits env)).

Definition pushed (windows : gmap Z DeltaWindow) (diff : TxDiff) (h : Z) (d : option QueryDelta) : option DeltaWindow :=
  match d with
  | Some d => Some (window_push (default window_default (windows !! h)) (diff_tx_id diff) (qd_update d) cap)
  | None => windows !! h
  end.

Lemma commit_queries_push m diff hs : map_Forall (fun _ st => qs_subscribers st <> ∅) (sm_queries m) -> NoDup hs -> forall windows out windows',
  commit_queries table_id_of sha256 unpack_state pack_ops env m diff hs windows = Ok (out, windows') ->
  forall h, windows' !! h = if decide (h ∈ hs) then pushed windows diff h (delta_of m diff h) else windows !! h.
Proof using hash64.
  intros Hs. induction 1 as [|h0 hs Hn _ IH]; intros windows out windows'; cbn [commit_queries]; [by intros [= _ <-]|].
  assert (forall windows out windows', commit_queries table_id_of sha256 unpack_state pack_ops env m diff hs windows = Ok (out, windows') -> delta_of m diff h0 = None ->
    forall h, windows' !! h = if decide (h ∈ h0 :: hs) then pushed windows diff h (delta_of m diff h) else windows !! h) as Hskip.
  { intros w1 o1 w1' E Ed h. rewrite (IH _ _ _ E h). destruct (decide (h = h0)) as [->|].
    - rewrite decide_False by done. rewrite decide_True by left. by rewrite Ed.
    - destruct (decide (h ∈ hs)); [rewrite decide_True by (by right)|rewrite decide_False by set_solver]; done. }
  destruct (sm_queries m !! h0) as [st|] eqn:E; [|intros E1; eapply Hskip; [exact E1|]; unfold SubProps.delta_of; by rewrite E].
  rewrite bool_decide_eq_false_2 by by apply (Hs h0). destruct (evaluate _ _ _ _ _ _ _ _ _ _) as [[u|]|] eqn:Ee; cbn [mbind result_bind]; [| |done].
  2: { intros E1. eapply Hskip; [exact E1|]. unfold SubProps.delta_of. rewrite E. cbn [mbind option_bind]. by rewrite Ee. }
  destruct (commit_queries _ _ _ _ _ _ _ _ _) as [[out1 w1]|] eqn:E1; cbn [mbind result_bind]; [|done]. intros [= _ <-] h. rewrite (IH _ _ _ E1 h).
  destruct (decide (h = h0)) as [->|Hne].
  - rewrite decide_False by done. rewrite decide_True by left. rewrite lookup_insert_eq. unfold SubProps.delta_of. rewrite E. cbn [mbind option_bind]. by rewrite Ee.
  - destruct (decide (h ∈ hs)); [rewrite decide_True by (by right)|rewrite decide_False by set_solver]; unfold pushed; by rewrite lookup_insert_ne.
Qed.

Lemma on_commit_window m diff deltas m' h st : manager_ok env m -> plain_plans m -> plain_diff diff -> on_commit m diff = Ok (deltas, m') -> sm_queries m !! h = Some st ->
  sm_windows m' !! h = pushed (sm_windows m) diff h (delta_of m diff h).
Proof using Type.
  intros [HC _] Hpl Hd. unfold Subscription.on_commit. set (m1 := set_offset m _). destruct (commit_queries _ _ _ _ _ _ _ _ _) as [[out w1]|] eqn:E1; cbn [mbind result_bind]; [|done].
  destruct (engine_on_commit _ _ _) as [[engine ups]|]; cbn [map_err mbind result_bind]; [|done]. intros [= _ <-] Est. cbn [set_derived sm_windows set_windows].
  rewrite (commit_queries_push m1 diff _ ltac:(intros h' st' E'; by apply (mo_queries _ _ HC h' st' E')) (NoDup_elements _) _ _ _ E1 h). case_decide as Hin; [done|].
  rewrite elem_of_elements in Hin. unfold pushed, SubProps.delta_of. rewrite Est. cbn [mbind option_bind].
  by rewrite (not_selected table_id_of sha256 unpack_state pack_ops env m diff h st (mo_tiers _ _ HC) (proj1 (mo_queries _ _ HC h st Est)) (Hpl h st Est) Hd Est Hin).
Qed.

(** The updates sent to a handle, each with the offset of its commit. *)
Definition sent (c qid : Z) (diffs : list TxDiff) (batches : list (list QueryDelta)) : list (Z * TableUpdate) :=
  concat (zip_with (fun diff deltas => map (fun d => (diff_tx_id diff, qd_update d)) (addressed c qid deltas)) diffs batches).

Lemma sent_window c h st : c ∈ qs_subscribers st -> forall diffs m batches m' L, manager_ok env m -> plain_plans m -> Forall plain_diff diffs -> sm_queries m !! h = Some st ->
  (sm_windows m !! h = None /\ L = [] \/ sm_windows m !! h = Some (window_of cap L)) -> on_commits m diffs = Ok (batches, m') ->
  let L' := L ++ sent c (query_id_of m c h) diffs batches in
  (sm_windows m' !! h = None /\ L' = [] \/ sm_windows m' !! h = Some (window_of cap L')) /\ sm_queries m' = sm_queries m /\ sm_connections m' = sm_connections m.
Proof using Type.
  intros Hc. induction diffs as [|diff diffs IH]; intros m batches m' L Hm Hpl Hd Est HL; cbn [SubProps.on_commits].
  { intros [= <- <-]. cbv zeta. unfold sent. simpl. by rewrite app_nil_r. }
  inversion Hd as [|?? Hd1 Hd2]; subst. destruct (on_commit m diff) as [[deltas m1]|] eqn:E1; cbn [mbind result_bind]; [|done].
  destruct (on_commits m1 diffs) as [[out m2]|] eqn:E2; cbn [mbind result_bind]; [|done]. intros [= <- <-]. cbv zeta.
  destruct (on_commit_frame _ _ _ _ _ _ _ _ _ _ E1) as [Eq Econ].
  pose proof (on_commit_window _ _ _ _ _ _ Hm Hpl Hd1 E1 Est) as Hw. pose proof (addressed_exact table_id_of hash64 sha256 unpack_state pack_ops env m diff deltas m1 h st c Hm Hpl Hd1 E1 Est Hc) as Ha.
  unfold sent. cbn [zip_with concat]. rewrite Ha. fold (sent c (query_id_of m c h) diffs out).
  set (L1 := L ++ map (fun d => (diff_tx_id diff, qd_update d)) (option_list (delta_of m diff h))).
  assert (sm_windows m1 !! h = None /\ L1 = [] \/ sm_windows m1 !! h = Some (window_of cap L1)) as HL1.
  { rewrite Hw. unfold L1, pushed. destruct (delta_of m diff h) as [d|]; simpl; [|by rewrite app_nil_r]. right. f_equal. rewrite <- push_window. f_equal.
    destruct HL as [[-> ->]| -> ]; [by rewrite window_of_nil|done]. }
  rewrite app_assoc. fold L1. assert (query_id_of m c h = query_id_of m1 c h) as -> by (unfold query_id_of; by rewrite Econ).
  destruct (IH m1 out m2 L1) as (H1 & H2 & H3); [by eapply on_commit_ok|unfold plain_plans; by rewrite Eq|done|by rewrite Eq|done|done|]. split_and!; [done|congruence|congruence].
Qed.
End resumption.

(** The offsets of what was sent ascend with those of the commits. *)
Lemma sent_sorted c qid diffs : forall batches, StronglySorted Z.le (map diff_tx_id diffs) -> StronglySorted Z.le (sent c qid diffs batches).*1.
Proof.
  induction diffs as [|diff diffs IH]; intros [|deltas batches] Hs; try constructor. inversion Hs as [|?? Hs' Hf]; subst. unfold sent. cbn [zip_with concat]. fold (sent c qid diffs batches).
  rewrite fmap_app. assert (forall x, x ∈ (map (fun d => (diff_tx_id diff, qd_update d)) (addressed c qid deltas)).*1 -> x = diff_tx_id diff) as Hx.
  { intros x (e & -> & (d & -> & _)%list_elem_of_fmap)%list_elem_of_fmap. done. }
  apply StronglySorted_app_2; [|clear -Hx; induction (addressed c qid deltas) as [|d l IH]; [constructor|]|by apply IH].
  - intros x y ->%Hx (e & -> & He)%list_elem_of_fmap. rewrite Forall_forall in Hf. apply Hf. unfold sent in He. apply list_elem_of_In, in_concat in He as (l & Hl & He). apply list_elem_of_In in Hl, He.
    clear -Hl He. revert batches Hl. induction diffs as [|diff diffs IH]; intros [|deltas batches] Hl; try (by apply elem_of_nil in Hl). cbn [zip_with] in Hl. cbn [map].
    apply elem_of_cons in Hl as [->|Hl]; [|right; by eapply IH]. apply list_elem_of_fmap in He as (d & -> & _). left.
  - cbn [map fmap list_fmap fst] in *. constructor; [apply IH; intros; apply Hx; by right|]. apply Forall_forall. intros y Hy. rewrite (Hx y) by (by right). lia.
Qed.

(** * Reachable managers *)

Section reachable.
Context {W T X : Type} {KT : KvTree W T} {RC : RowCodec} {U : Unicode} {SQ : SideQuery W T X}.
Context (table_id_of : list Z -> TableId) (index_id_of : list Z -> list (list Z) -> IndexId).
Context (hash64 : list Z -> Z -> Z) (sha256 : list Z -> list Z) (past_deadline : Poll -> bool).
Context (unpack_state : list Z -> option Crdt.CrdtText) (pack_ops : list Crdt.TextOp -> list Z).
Context (env : SubEnv) (Hlim : limits_ok env) (Hfts : se_fts_analyzers env = fts_analyzers table_id_of (se_schema env)).
Notation reachable := (rtc (sub_step (X := X) table_id_of index_id_of hash64 sha256 past_deadline unpack_state pack_ops env) (manager_new env)).

(** C25: in every state a manager reaches by subscribing, unsubscribing, disconnects,
    commits and view subscriptions, both admission caps hold, every registered
    query has subscribers, each of which holds a handle for it, the pruning
    indexes hold every query, a column is probed exactly while a query is
    registered under it, and deltas are retained for registered queries only. *)
Theorem bookkeeping_kept m : reachable m ->
  plan_count m <= max_compiled_plans (se_limits env) /\
  (forall c, subscription_count m c <= max_subscriptions_per_connection (se_limits env)) /\
  (forall h st, sm_queries m !! h = Some st -> placed (sm_tiers m) h (qs_plan st) /\ qs_subscribers st <> ∅ /\
    forall c, c ∈ qs_subscribers st -> exists handles id, sm_connections m !! c = Some handles /\ handles !! id = Some h) /\
  (forall id col, is_Some (probe_count (sm_tiers m) id col) <-> exists h st key, sm_queries m !! h = Some st /\ search_key (qs_plan st) = Some (id, col, key)) /\
  (forall h, is_Some (sm_windows m !! h) -> is_Some (sm_queries m !! h)).
Proof using Hfts Hlim.
  intros Hr. apply (steps_ok _ _ _ _ _ _ _ env Hlim Hfts) in Hr as [HC HH]. split_and!; [apply HC|apply HC| | |].
  - intros h st E. split_and!; [by apply (tk_placed _ _ (mo_tiers _ _ HC))|by apply (mo_queries _ _ HC h st E)|]. intros c Hc. exact (HH h st c E Hc).
  - intros id col. rewrite (tk_columns _ _ (mo_tiers _ _ HC)). apply counted_some.
  - intros h [d Hd]. by eapply (mo_windows _ _ HC).
Qed.

(** C12: where the equality conditions of the registered queries and the changed
    rows hold no NaN and no negative zero, the fan-out of a commit delivers
    exactly what evaluating every registered query would: the deltas are those of
    the queries with matching rows, each once and with all its subscribers, plus
    the deltas of the materialized views; no query the pruning indexes leave out
    has a matching row. *)
Theorem pruning_exact m diff deltas m' : reachable m -> plain_plans m -> plain_diff diff ->
  on_commit table_id_of hash64 sha256 unpack_state pack_ops env m diff = Ok (deltas, m') ->
  exists engine updates, engine_on_commit table_id_of diff (sm_matviews m) = Ok (engine, updates) /\
    deltas ≡ₚ omap (delta_of table_id_of sha256 unpack_state pack_ops env m diff) (elements (dom (sm_queries m))) ++ view_deltas hash64 m updates /\
    forall h, evaluates table_id_of sha256 unpack_state pack_ops env m diff h.
Proof using Hfts Hlim.
  intros Hr Hpl Hd E. apply (steps_ok _ _ _ _ _ _ _ env Hlim Hfts) in Hr.
  destruct (fan_out_exact _ _ _ _ _ _ _ _ _ _ Hr Hpl Hd E) as (engine & ups & H1 & H2 & H3 & _). by exists engine, ups.
Qed.

(** C5: a subscribed client's cache that starts with the rows of the table that meet
    the query's conditions and its [MATCH] and that the viewer may see, and is
    changed only by the deltas addressed to its handle, holds exactly those rows again after any number of
    commits. The spatial clause and the limit of the query play no part: deltas
    are not tested against them. The table has no column policies and no document
    columns, no membership rule protects it unless the query sees every row, and the equality
    conditions of the registered queries and the changed rows hold no NaN and no
    negative zero. *)
Theorem cache_follows m h st c t diffs R R' batches m' : reachable m -> plain_plans m -> sm_queries m !! h = Some st -> c ∈ qs_subscribers st ->
  table_schema table_id_of env (cp_table_id (qs_plan st)) = Ok t -> se_policies env !! cp_table_id (qs_plan st) = None -> crdt_ordinals t = [] ->
  unshared env (qs_plan st) (qs_viewer st) -> history (qt_schema t) (cp_table_id (qs_plan st)) R diffs R' ->
  on_commits table_id_of hash64 sha256 unpack_state pack_ops env m diffs = Ok (batches, m') ->
  let keep := delta_keep env (sm_members m) (qs_plan st) (qs_viewer st) in
  receive_all (qt_schema t) c (query_id_of m c h) batches (kept keep R) = Ok (kept keep R').
Proof using Hfts Hlim.
  intros Hr Hpl Est Hc Ht Hpol Hcrdt Hu Hh E. apply (steps_ok _ _ _ _ _ _ _ env Hlim Hfts) in Hr. cbv zeta. by eapply (follows_from _ _ _ _ _ _ h st c t).
Qed.

(** C24: a subscription resumed from an offset receives exactly the deltas that were
    sent to it after that offset, in order, while every delta that was dropped
    from the retained window is at or before the offset; otherwise it receives a
    snapshot marked as a cache reset. *)
Theorem resume_replays m h st c diffs batches m' from (sn : Snapshot W T X) : reachable m -> plain_plans m -> Forall plain_diff diffs ->
  sm_queries m !! h = Some st -> c ∈ qs_subscribers st -> sm_windows m !! h = None ->
  StronglySorted Z.le (map diff_tx_id diffs) -> 0 <= from ->
  on_commits table_id_of hash64 sha256 unpack_state pack_ops env m diffs = Ok (batches, m') ->
  let qid := query_id_of m c h in
  let L := sent c qid diffs batches in
  resume table_id_of sha256 past_deadline env m' c qid from sn =
  if forallb (fun e => e.1 <=? from) (firstn (window_drops (resume_window_deltas (se_limits env)) L) L)
  then Ok (Some (ResumeDeltas (filter (fun e => from < e.1) L)))
  else initial_data table_id_of sha256 past_deadline env m' (qs_plan st) (qs_viewer st) (qs_roles st) sn ≫= fun initial =>
       Ok (Some (ResumeReset (stamp qid initial true (sm_last_offset m')))).
Proof using Hfts Hlim.
  intros Hr Hpl Hd Est Hc Hw Hs Hf E. apply (steps_ok _ _ _ _ _ _ _ env Hlim Hfts) in Hr. cbv zeta.
  destruct (sent_window _ _ _ _ _ _ c h st Hc diffs m batches m' [] Hr Hpl Hd Est ltac:(by left) E) as (HL & Eq & Econ). simpl in HL.
  destruct (query_id_of_spec m c h (proj2 Hr h st c Est Hc)) as (handles & Ec & Eid). set (qid := query_id_of m c h) in *. set (L := sent c qid diffs batches) in *.
  unfold resume. rewrite Econ, Ec. cbn [mbind option_bind]. rewrite Eid, Eq, Est. destruct HL as [[-> HL]| -> ].
  - by rewrite HL.
  - rewrite window_answers; [by destruct (forallb _ _)| |done]. by apply sent_sorted.
Qed.
End reachable.

Section handles.
Context {U : Unicode} (table_id_of : list Z -> TableId) (sha256 : list Z -> list Z).
Context (unpack_state : list Z -> option Crdt.CrdtText) (pack_ops : list Crdt.TextOp -> list Z) (env : SubEnv).

(** C38: a connection that holds two handles of one query and drops the first keeps the
    second, and no commit sends that handle anything any more: subscribers are
    recorded per connection, not per handle. *)
Theorem second_handle_lost m c handles id1 id2 h : sm_connections m !! c = Some handles -> id1 <> id2 -> handles !! id1 = Some h -> handles !! id2 = Some h ->
  let '(existed, m') := unsubscribe m c id1 in
  existed = true /\ (sm_connections m' !! c ≫= fun handles => handles !! id2) = Some h /\
  forall diff d q, delta_of table_id_of sha256 unpack_state pack_ops env m' diff h = Some d -> (c, q) ∉ qd_subscribers d.
Proof using Type.
  intros Ec Hne E1 E2. unfold unsubscribe. rewrite Ec, E1. rewrite bool_decide_eq_false_2.
  2: { intros E. assert (delete id1 handles !! id2 = Some h) as Hd by (by rewrite lookup_delete_ne). rewrite E, lookup_empty in Hd. done. }
  set (m1 := set_handles m _ _). split; [done|]. split.
  - destruct (drop_subscriber_frame m1 h c) as [-> _]. simpl. rewrite lookup_insert_eq. simpl. by rewrite lookup_delete_ne.
  - intros diff d q. unfold delta_of. rewrite drop_subscriber_query, decide_True by done. destruct (sm_queries m1 !! h) as [st|]; [|done]. cbn [mbind option_bind]. unfold less.
    case_bool_decide; cbn [mbind option_bind]; [done|]. destruct (evaluate _ _ _ _ _ _ _ _ _ _) as [[u|]|]; [|done|done]. intros [= <-]. simpl. rewrite elem_subscribers. simpl. set_solver.
Qed.
End handles.
