(* ===== verification/SubSample.v ===== *)
(** Witnesses of the query and subscription theorems: the committed sample store
    of Sample and StoreProps behind a schema with readable names, two queries, and
    a connection that subscribes, follows two commits and resumes. *)

From stdpp Require Import base list gmap sorting numbers strings relations.
From Stdlib Require Import ZArith Lia.
From S2P Require Import Prelude FluxBin Row IndexKey TxState LogRecord PageFormat PagedTree PagedTreeNode PagedTreeRep PagedTreeWrite PagedTreeSpec KvTree TableState TableSpec Reclaim MemStore MergeSpec IndexSpec StoreSpec Replica StoreBuild Transaction Sample StoreProps Ieee SqlText FullText Query QueryPlan RowList Crdt Mask MatView Subscription QueryEval SubTiers SubManager SubClient MatViewProps SubProps.

(** * Parameters *)

#[export] Instance ascii_case : Unicode := {|
  is_alphanumeric c := match c with [b] => (48 <=? b) && (b <=? 57) || (65 <=? b) && (b <=? 90) || (97 <=? b) && (b <=? 122) | _ => false end;
  is_whitespace c := match c with [b] => (b =? 32) || (b =? 10) | _ => false end;
  to_lowercase c := map (fun b => if (65 <=? b) && (b <=? 90) then b + 32 else b) c |}.

#[export] Instance no_side_query : SideQuery PagedWorld PagedTree Empty_set := {|
  spatial_candidates _ _ _ := Ok []; fulltext_match _ _ _ := Ok [] |}.

Definition feed_table (name : list Z) : TableId := if bool_decide (name = bytes "users") then 1 else 2.
Definition feed_index (_ : list Z) (_ : list (list Z)) : IndexId := 1.
Definition feed_hash (bs : list Z) (seed : Z) : Z := fold_left (fun h b => (h * 31 + b) mod 2 ^ 64) bs seed.
Definition feed_sha (_ : list Z) : list Z := replicate 32 0.

(** The tables of the sample, with names SQL can spell. *)
Definition q_users : QueryTable := {| qt_visibility := PublicAll; qt_grants := false; qt_decl := {|
  decl_name := bytes "users"; decl_info := decl_info users_decl; decl_columns := [bytes "id"; bytes "badge"]; decl_unique := [[1%nat]]; decl_indexes := [] |} |}.
Definition q_posts : QueryTable := {| qt_visibility := PublicAll; qt_grants := false; qt_decl := {|
  decl_name := bytes "posts"; decl_info := decl_info posts_decl; decl_columns := [bytes "id"; bytes "author"]; decl_unique := []; decl_indexes := [BTree [1%nat]] |} |}.

Definition feed_env : SubEnv := env_new feed_table [q_users; q_posts] {| max_subscriptions_per_connection := 4; max_compiled_plans := 10; resume_window_deltas := 2 |} 1 ∅
  {| qb_default_limit := 0; qb_max_limit := 0; qb_reject_over_max := false; qb_row_scan_budget := 0; qb_deadline_ms := 0 |} [].


Lemma feed_limits : limits_ok feed_env.
Proof. split; vm_compute; discriminate. Qed.

Lemma feed_fts : se_fts_analyzers feed_env = fts_analyzers feed_table (se_schema feed_env).
Proof. reflexivity. Qed.

Definition feed_store : SampleStore := sample_committed Cascade.
Definition feed_snapshot : Snapshot PagedWorld PagedTree Empty_set := Build_Snapshot (ms_world feed_store) (ms_committed feed_store).

(** * One read through the index *)

Definition author_sql : list Z := bytes "SELECT * FROM posts WHERE author = 2 ORDER BY author DESC LIMIT 5".

Definition no_plan : CompiledPlan := {|
  cp_table_id := 0; cp_filter := []; cp_rls := None; cp_order_by := None; cp_limit := None; cp_equalities := []; cp_spatial := None; cp_query_hash := 0;
  cp_normalized := []; cp_access := FullScan; cp_residual := []; cp_ordered_by_index := false; cp_cursor := None; cp_fts := None; cp_order_by_score := None;
  cp_select_score := false; cp_caller_scoped := false; cp_as_of := None |}.

Definition plan_of (sql : list Z) : CompiledPlan := match compile feed_table feed_index feed_hash (se_schema feed_env) sql with Ok p => p | Err _ => no_plan end.
Definition author_plan : CompiledPlan := Eval vm_compute in plan_of author_sql.

Lemma author_compiles : compile feed_table feed_index feed_hash (se_schema feed_env) author_sql = Ok author_plan.
Proof. vm_compute. reflexivity. Qed.

Lemma feed_unbounded : unbounded (se_bounds feed_env).
Proof. by split. Qed.

Lemma query_reads_witness : exists l, initial_rows feed_table feed_sha (fun _ => false) feed_env [] author_plan None [] feed_snapshot =
    Ok (map (fun r => project_row feed_sha feed_env 2 r None []) (cut (Some 5) l)) /\ l ≡ₚ [post 2 (Some 2)] /\ in_order author_plan l.
Proof.
  destruct committed_holds as [S (I & _ & fs & HS)]. destruct (si_states _ _ _ I _ _ HS) as [HT _].
  assert (exists ts, cs_tables (ms_committed (sample_committed Cascade)) !! 2 = Some ts /\ (exists index, find_index ts 1 = Some index /\ bi_columns index = [1%nat]) /\
    columns (ti_schema (schema ts)) = [FluxType.U64; FluxType.Option FluxType.U64]) as (ts & Ets & (index & Ei & Ec) & Esch).
  { eexists. split; [vm_compute; reflexivity|]. split; [|reflexivity]. eexists. by split. }
  destruct (tables_is_get _ _ _ _ _ _ HT Ets) as (R & g & ER & _ & Ht). simpl in ER. assert (R = {[le_bytes 8 2 := post 2 (Some 2)]}) as -> by (by injection ER).
  assert (Forall (fun t => feed_table (qt_name t) = 2 -> t = q_posts) (se_schema feed_env)) as Hn by (repeat constructor; vm_compute; done).
  destruct (query_reads (fun _ => false) feed_env feed_unbounded feed_index feed_table feed_hash feed_sha author_sql author_plan [] None [] feed_snapshot ts
    {[le_bytes 8 2 := post 2 (Some 2)]} g (Some 5) author_compiles) as (l & E & Hl & Ho); [reflexivity..|exact (si_world _ _ _ I)|exact Ets|exact Ht| | |].
  - intros t Htt Hid. rewrite Forall_forall in Hn. rewrite (Hn t Htt Hid). split; [split|].
    + exact Esch.
    + intros cols Hc%list_elem_of_singleton. injection Hc as ->. exists index, [FluxType.Option FluxType.U64]. split_and!; [exact Ei|exact Ec|repeat constructor|reflexivity].
    + apply map_Forall_singleton. split; [apply le_bytes_ok|repeat constructor].
    + repeat constructor. eexists. by split; [|repeat constructor].
  - intros o vs Hin. apply elem_of_cons in Hin as [E|E]; [discriminate E|]. apply elem_of_nil in E as [].
  - exists l. split; [exact E|]. split; [|exact Ho]. rewrite Hl. assert (asked feed_env [] author_plan None {[le_bytes 8 2 := post 2 (Some 2)]} = [post 2 (Some 2)]) as -> by (vm_compute; reflexivity). done.
Defined.

(** * One subscription *)

Definition badge_sql : list Z := bytes "SELECT * FROM users WHERE badge = 20".
Definition feed_viewer : Subscriber := {| sb_identity := replicate 32 7; sb_server_peer := false; sb_roles := [] |}.

Definition subscribed := subscribe feed_table feed_index feed_hash feed_sha (fun _ => false) feed_env (manager_new feed_env) 9 feed_viewer badge_sql feed_snapshot.
Definition feed_manager : Manager := match subscribed with Ok (_, m) => m | Err _ => manager_new feed_env end.

Notation no_state := (fun _ : list Z => @None Crdt.CrdtText).
Notation no_ops := (fun _ : list Crdt.TextOp => @nil Z).
Notation feed_reachable := (rtc (sub_step (X := Empty_set) (T := PagedTree) (W := PagedWorld) feed_table feed_index feed_hash feed_sha (fun _ => false) no_state no_ops feed_env) (manager_new feed_env)).

Lemma feed_reached : feed_reachable feed_manager.
Proof.
  apply rtc_once. assert (exists sd, subscribed = Ok (sd, feed_manager)) as [sd E] by (eexists; vm_compute; reflexivity).
  eapply step_subscribe; [exact E|]. vm_compute. reflexivity.
Qed.

Definition badge_hash : Z := Eval vm_compute in cp_query_hash (plan_of badge_sql).
Definition badge_state : QueryState := {| qs_plan := plan_of badge_sql; qs_subscribers := {[9]}; qs_viewer := None; qs_roles := [] |}.

Lemma feed_queries : sm_queries feed_manager = {[badge_hash := badge_state]}.
Proof. vm_compute. reflexivity. Qed.

Lemma feed_query : sm_queries feed_manager !! badge_hash = Some badge_state.
Proof. rewrite feed_queries. apply lookup_singleton_eq. Qed.

Lemma feed_plain : plain_plans feed_manager.
Proof.
  unfold plain_plans. rewrite feed_queries. apply map_Forall_singleton. intros o v Hin.
  apply elem_of_cons in Hin as [E|E]; [injection E as -> ->; by split|]. apply elem_of_nil in E as [].
Qed.

Lemma bookkeeping_kept_witness : feed_reachable feed_manager /\ plan_count feed_manager <= max_compiled_plans (se_limits feed_env).
Proof.
  split; [exact feed_reached|].
  exact (proj1 (bookkeeping_kept feed_table feed_index feed_hash feed_sha (fun _ => false) no_state no_ops feed_env feed_limits feed_fts feed_manager feed_reached)).
Defined.

(** The badge moves to another user, who loses it again. *)
Definition rows_0 : gmap (list Z) row := {[le_bytes 8 2 := user 2 20]}.
Definition moved : gmap (list Z) PendingOp := {[le_bytes 8 2 := Update (user 2 30); le_bytes 8 3 := Insert (user 3 20)]}.
Definition rows_1 : gmap (list Z) row := view rows_0 moved.
Definition left_again : gmap (list Z) PendingOp := {[le_bytes 8 3 := Delete]}.
Definition rows_2 : gmap (list Z) row := view rows_1 left_again.

Definition diff_1 : TxDiff := {| diff_tx_id := 2; diff_tables := [diff_of 1 rows_0 moved]; diff_auto_inc := [] |}.
Definition diff_2 : TxDiff := {| diff_tx_id := 3; diff_tables := [diff_of 1 rows_1 left_again]; diff_auto_inc := [] |}.

(** Plain values, by computation. *)
Lemma plain_diff_b diff : forallb (fun td => forallb (forallb (fun v => value_ok v && plain v)) (td_inserts td ++ (td_deletes td).*2)) (diff_tables diff) = true -> plain_diff diff.
Proof.
  intros Hb td r Htd%list_elem_of_In Hr%list_elem_of_In. rewrite forallb_forall in Hb. specialize (Hb _ Htd). rewrite forallb_forall in Hb. specialize (Hb _ Hr).
  rewrite forallb_forall in Hb. apply Forall_forall. intros v Hv%list_elem_of_In. apply Hb, andb_true_iff in Hv. exact Hv.
Qed.

Lemma diffs_plain : plain_diff diff_1 /\ plain_diff diff_2.
Proof. split; apply plain_diff_b; vm_compute; reflexivity. Qed.

Notation users_schema := (qt_schema q_users).

Lemma committed_1 : committed 1 diff_1 rows_0 rows_1.
Proof.
  right. exists moved. split_and!; [vm_compute; reflexivity|reflexivity| |vm_compute; reflexivity]. unfold moved. intros pk r.
  rewrite lookup_insert_Some. intros [[_ E]|[_ [<- _]%lookup_singleton_Some]]; [discriminate E|]. vm_compute. reflexivity.
Qed.

Lemma committed_2 : committed 1 diff_2 rows_1 rows_2.
Proof.
  right. exists left_again. split_and!; [vm_compute; reflexivity|reflexivity| |vm_compute; reflexivity]. unfold left_again. intros pk r.
  intros [_ E]%lookup_singleton_Some. discriminate E.
Qed.

(** Rows under their keys, by computation. *)
Lemma keyed_b (R : gmap (list Z) row) : forallb (fun p => match check_row users_schema p.2, encode_pk_of_row users_schema p.2 with Ok _, Ok k => forallb value_ok p.2 && bool_decide (k = p.1) | _, _ => false end) (map_to_list R) = true ->
  map_Forall (keyed users_schema) R.
Proof.
  intros Hb k r Hk. rewrite forallb_forall in Hb. specialize (Hb (k, r)). cbn [fst snd] in Hb. unfold keyed. destruct (check_row users_schema r) as [[]|].
  - destruct (encode_pk_of_row users_schema r) as [k'|].
    + destruct (proj1 (andb_true_iff _ _) (Hb (proj1 (list_elem_of_In _ _) (proj2 (elem_of_map_to_list _ _ _) Hk)))) as [H1 H2%bool_decide_eq_true]. by subst.
    + by specialize (Hb (proj1 (list_elem_of_In _ _) (proj2 (elem_of_map_to_list _ _ _) Hk))).
  - by specialize (Hb (proj1 (list_elem_of_In _ _) (proj2 (elem_of_map_to_list _ _ _) Hk))).
Qed.

Lemma rows_keyed : map_Forall (keyed users_schema) rows_0 /\ map_Forall (keyed users_schema) rows_1 /\ map_Forall (keyed users_schema) rows_2.
Proof. split_and!; apply keyed_b; vm_compute; reflexivity. Qed.

Lemma feed_history : history users_schema 1 rows_0 [diff_1; diff_2] rows_2.
Proof.
  destruct rows_keyed as (K0 & K1 & K2). apply (history_cons _ _ rows_0 diff_1 rows_1); [exact K0|exact committed_1|exact (proj1 diffs_plain)|].
  apply (history_cons _ _ rows_1 diff_2 rows_2); [exact K1|exact committed_2|exact (proj2 diffs_plain)|]. by apply history_nil.
Qed.

Notation feed_commit := (on_commit feed_table feed_hash feed_sha no_state no_ops feed_env).
Notation feed_commits := (on_commits feed_table feed_hash feed_sha no_state no_ops feed_env).

Lemma pruning_exact_witness : exists deltas m', feed_commit feed_manager diff_1 = Ok (deltas, m') /\ deltas <> [] /\
  exists engine updates, engine_on_commit feed_table diff_1 (sm_matviews feed_manager) = Ok (engine, updates) /\
    deltas ≡ₚ omap (delta_of feed_table feed_sha no_state no_ops feed_env feed_manager diff_1) (elements (dom (sm_queries feed_manager))) ++ view_deltas feed_hash feed_manager updates.
Proof.
  assert (exists x, feed_commit feed_manager diff_1 = Ok x /\ x.1 <> []) as ([deltas m'] & E & Hne).
  { eexists. split; [vm_compute; reflexivity|]. discriminate. }
  exists deltas, m'. split; [exact E|]. split; [exact Hne|].
  destruct (pruning_exact feed_table feed_index feed_hash feed_sha (fun _ => false) no_state no_ops feed_env feed_limits feed_fts feed_manager diff_1 deltas m'
    feed_reached feed_plain (proj1 diffs_plain) E) as (engine & updates & H1 & H2 & _). exists engine, updates. split; [exact H1|exact H2].
Defined.

Lemma feed_runs : exists x, feed_commits feed_manager [diff_1; diff_2] = Ok x /\ length (x.1) = 2%nat.
Proof. eexists. split; [vm_compute; reflexivity|reflexivity]. Qed.

Lemma feed_subscriber : 9 ∈ qs_subscribers badge_state.
Proof. set_solver. Qed.

Lemma users_there : table_schema feed_table feed_env (cp_table_id (qs_plan badge_state)) = Ok q_users.
Proof. vm_compute. reflexivity. Qed.

Notation badge_kept := (delta_keep feed_env (sm_members feed_manager) (qs_plan badge_state) (qs_viewer badge_state)).

(** The cached badge holder changes from user 2 to user 3 and then to none. *)
Lemma cache_follows_witness : exists batches m', feed_commits feed_manager [diff_1; diff_2] = Ok (batches, m') /\
  receive_all users_schema 9 (query_id_of feed_manager 9 badge_hash) batches (kept badge_kept rows_0) = Ok (kept badge_kept rows_2).
Proof.
  destruct feed_runs as ([batches m'] & E & _). exists batches, m'. split; [exact E|].
  exact (cache_follows feed_table feed_index feed_hash feed_sha (fun _ => false) no_state no_ops feed_env feed_limits feed_fts feed_manager badge_hash badge_state 9 q_users [diff_1; diff_2]
    rows_0 rows_2 batches m' feed_reached feed_plain feed_query feed_subscriber users_there (lookup_empty _) eq_refl (or_introl eq_refl) feed_history E).
Defined.

Lemma kept_rows : kept badge_kept rows_0 = {[le_bytes 8 2 := user 2 20]} /\ kept badge_kept rows_1 = {[le_bytes 8 3 := user 3 20]} /\ kept badge_kept rows_2 = ∅.
Proof. vm_compute. done. Qed.

Lemma feed_window : sm_windows feed_manager !! badge_hash = None.
Proof. vm_compute. reflexivity. Qed.

(** Resumed from the first of the two commits: the second delta. *)
Lemma resume_replays_witness : exists batches m' u, feed_commits feed_manager [diff_1; diff_2] = Ok (batches, m') /\
  resume feed_table feed_sha (fun _ => false) feed_env m' 9 (query_id_of feed_manager 9 badge_hash) 2 feed_snapshot = Ok (Some (ResumeDeltas [(3, u)])).
Proof.
  assert (exists x u, feed_commits feed_manager [diff_1; diff_2] = Ok x /\ forallb (fun e : Z * TableUpdate => e.1 <=? 2) (firstn (window_drops (resume_window_deltas (se_limits feed_env)) (sent 9 (query_id_of feed_manager 9 badge_hash) [diff_1; diff_2] x.1))
      (sent 9 (query_id_of feed_manager 9 badge_hash) [diff_1; diff_2] x.1)) = true /\
      filter (fun e : Z * TableUpdate => 2 < e.1) (sent 9 (query_id_of feed_manager 9 badge_hash) [diff_1; diff_2] x.1) = [(3, u)]) as ([batches m'] & u & E & Hd & Hs).
  { eexists _, _. split; [vm_compute; reflexivity|]. split; vm_compute; reflexivity. }
  exists batches, m', u. split; [exact E|].
  rewrite (resume_replays feed_table feed_index feed_hash feed_sha (fun _ => false) no_state no_ops feed_env feed_limits feed_fts feed_manager badge_hash badge_state 9 [diff_1; diff_2] batches m' 2 feed_snapshot
    feed_reached feed_plain); [|by repeat constructor; apply diffs_plain|exact feed_query|exact feed_subscriber|exact feed_window|repeat constructor; done|done|exact E].
  cbn [fst] in Hd, Hs. rewrite Hd, Hs. reflexivity.
Defined.

(** * Two handles of one query *)

Definition subscribed_twice := subscribe feed_table feed_index feed_hash feed_sha (fun _ => false) feed_env feed_manager 9 feed_viewer badge_sql feed_snapshot.
Definition twice_manager : Manager := match subscribed_twice with Ok (_, m) => m | Err _ => manager_new feed_env end.

Lemma twice_handles : sm_connections twice_manager !! 9 = Some {[1 := badge_hash; 2 := badge_hash]}.
Proof. vm_compute. reflexivity. Qed.

Lemma second_handle_lost_witness : exists m', unsubscribe twice_manager 9 1 = (true, m') /\ (sm_connections m' !! 9 ≫= fun handles => handles !! 2) = Some badge_hash /\
  forall d q, delta_of feed_table feed_sha no_state no_ops feed_env m' diff_1 badge_hash = Some d -> (9, q) ∉ qd_subscribers d.
Proof.
  pose proof (second_handle_lost feed_table feed_sha no_state no_ops feed_env twice_manager 9 _ 1 2 badge_hash twice_handles ltac:(lia) eq_refl eq_refl) as H.
  destruct (unsubscribe twice_manager 9 1) as [b m']. destruct H as (-> & H1 & H2). exists m'. split; [reflexivity|]. split; [exact H1|]. intros d q. apply H2.
Defined.

(** A value repeated in an [IN] list is probed twice, so its row is returned
    twice. *)
Lemma in_list_repeats : initial_rows feed_table feed_sha (fun _ => false) feed_env [] (plan_of (bytes "SELECT * FROM posts WHERE author IN (2, 2)")) None [] feed_snapshot =
  Ok [post 2 (Some 2); post 2 (Some 2)].
Proof. vm_compute. reflexivity. Qed.

(** Zero and negative zero are equal for a filter and differ as keys, so an index
    probe and the value tier of the pruning indexes miss one for the other. *)
Lemma negative_zero_key : value_eq (RowValue.F64 0) (RowValue.F64 (2 ^ 63)) = true /\ encode_value (RowValue.F64 0) <> encode_value (RowValue.F64 (2 ^ 63)).
Proof. split; [reflexivity|]. intros E. discriminate E. Qed.

(** * Two views *)

Definition badge_sum : ResolvedView := {| rv_name := bytes "sum"; rv_table := 1; rv_schema := users_schema; rv_kind := Aggregate (MvSum (bytes "badge")) (Some 1%nat) None |}.
Definition badge_top : ResolvedView := {| rv_name := bytes "top"; rv_table := 1; rv_schema := users_schema; rv_kind := TopN 1 true 1 |}.

Definition view_states : list ViewState := match init_from_views (rows_of (fun _ => rows_0)) [badge_sum; badge_top] with Ok l => l | Err _ => [] end.
Definition view_engine := match engine_commits feed_table [diff_1; diff_2] (zip [badge_sum; badge_top] view_states) with Ok x => x | Err _ => ([], []) end.

Lemma view_commit : init_from_views (rows_of (fun _ => rows_0)) [badge_sum; badge_top] = Ok view_states /\
  engine_commits feed_table [diff_1; diff_2] (zip [badge_sum; badge_top] view_states) = Ok view_engine.
Proof. split; vm_compute; reflexivity. Qed.

Lemma views_incremental_witness : exists states engine outs, init_from_views (rows_of (fun _ => rows_0)) [badge_sum; badge_top] = Ok states /\
  engine_commits feed_table [diff_1; diff_2] (zip [badge_sum; badge_top] states) = Ok (engine, outs) /\
  init_from_views (rows_of (fun _ => rows_2)) [badge_sum; badge_top] = Ok engine.*2.
Proof.
  destruct view_commit as [H1 H2]. destruct view_engine as [engine outs]. exists view_states, engine, outs. split; [exact H1|]. split; [exact H2|]. destruct rows_keyed as (K0 & K1 & K2).
  assert (forall view, view ∈ [badge_sum; badge_top] -> rv_table view = 1 /\ rv_schema view = users_schema) as Hv.
  { intros view [->|[->|[]%elem_of_nil]%elem_of_cons]%elem_of_cons; by split. }
  refine (proj2 (views_incremental feed_table [badge_sum; badge_top] (fun _ => rows_0) [diff_1; diff_2] (fun _ => rows_2) view_states engine outs eq_refl _ H1 H2)).
  apply (tables_cons _ _ diff_1 (fun _ => rows_1)); [intros v [_ ->]%Hv; exact K0|intros v [-> _]%Hv; exact committed_1|].
  apply (tables_cons _ _ diff_2 (fun _ => rows_2)); [intros v [_ ->]%Hv; exact K1|intros v [-> _]%Hv; exact committed_2|].
  apply tables_nil. intros v [_ ->]%Hv. exact K2.
Defined.
