(* ===== verification/QuadTree.v ===== *)
(** The spatial point index of [index/quadtree.rs]: nodes of a quadtree, keyed by
    their quadrant path in one ordered tree, with an overflow bucket for points
    outside the bounds.

    Coordinates are the bit patterns of [f64] values; arithmetic is IEEE 754.
    The ordered tree is the [KvTree] interface. A loop that follows a path or
    drains a stack of nodes is a recursion with the depth as fuel: a key has 32
    levels, so 34 rounds reach every node. The last node pushed on a stack is the
    first popped, so the children of a node are visited from the fourth to the
    first. *)

From stdpp Require Import base list gmap sorting numbers.
From Stdlib Require Import ZArith Lia SpecFloat.
From S2P Require Import Prelude FluxBin Row IndexKey PageFormat PagedTree PagedTreeNode PagedTreeRep PagedTreeWrite PagedTreeSpec KvTree TxState LogRecord TableState Ieee.

(** * Arithmetic *)

Definition fadd (a b : Z) : Z := bits_of 64 (SFadd (prec 64) (emax 64) (float_of 64 a) (float_of 64 b)).
Definition fsub (a b : Z) : Z := bits_of 64 (SFsub (prec 64) (emax 64) (float_of 64 a) (float_of 64 b)).
Definition fmul (a b : Z) : Z := bits_of 64 (SFmul (prec 64) (emax 64) (float_of 64 a) (float_of 64 b)).
Definition fdiv (a b : Z) : Z := bits_of 64 (SFdiv (prec 64) (emax 64) (float_of 64 a) (float_of 64 b)).

(** IEEE 754 comparisons: no order with NaN, and one zero. *)
Definition frank (v : Z) : Z := if is_zero 64 v then 0 else total_order_key 64 v.
Definition fle (a b : Z) : bool := negb (is_nan 64 a) && negb (is_nan 64 b) && (frank a <=? frank b).
Definition flt (a b : Z) : bool := negb (is_nan 64 a) && negb (is_nan 64 b) && (frank a <? frank b).
Definition feq (a b : Z) : bool := negb (is_nan 64 a) && negb (is_nan 64 b) && (frank a =? frank b).

(** The literal [2.0]. *)
Definition TWO : Z := float_of_Z 64 2.

(** * Geometry *)

Record Rect : Type := { rc_x : Z; rc_y : Z; rc_w : Z; rc_h : Z }.

Definition contains_point (r : Rect) (px py : Z) : bool :=
  fle (rc_x r) px && fle px (fadd (rc_x r) (rc_w r)) && fle (rc_y r) py && fle py (fadd (rc_y r) (rc_h r)).

Definition intersects (r other : Rect) : bool :=
  fle (rc_x r) (fadd (rc_x other) (rc_w other)) && fle (rc_x other) (fadd (rc_x r) (rc_w r)) &&
  fle (rc_y r) (fadd (rc_y other) (rc_h other)) && fle (rc_y other) (fadd (rc_y r) (rc_h r)).

Definition contains_rect (r other : Rect) : bool :=
  fle (rc_x r) (rc_x other) && fle (fadd (rc_x other) (rc_w other)) (fadd (rc_x r) (rc_w r)) &&
  fle (rc_y r) (rc_y other) && fle (fadd (rc_y other) (rc_h other)) (fadd (rc_y r) (rc_h r)).

(** The quadrant of a point: bit 0 is east, bit 1 north of the midlines. *)
Definition quadrant_of (r : Rect) (x y : Z) : Z :=
  let mid_x := fadd (rc_x r) (fdiv (rc_w r) TWO) in
  let mid_y := fadd (rc_y r) (fdiv (rc_h r) TWO) in
  Z.lor (Z.shiftl (Z.b2z (fle mid_y y)) 1) (Z.b2z (fle mid_x x)).

Definition child_rect (r : Rect) (q : Z) : Rect :=
  let x0 := rc_x r in let x1 := fadd (rc_x r) (rc_w r) in
  let y0 := rc_y r in let y1 := fadd (rc_y r) (rc_h r) in
  let mid_x := fadd (rc_x r) (fdiv (rc_w r) TWO) in
  let mid_y := fadd (rc_y r) (fdiv (rc_h r) TWO) in
  let '(x, w) := if Z.land q 1 =? 0 then (x0, fsub mid_x x0) else (mid_x, fsub x1 mid_x) in
  let '(y, h) := if Z.land q 2 =? 0 then (y0, fsub mid_y y0) else (mid_y, fsub y1 mid_y) in
  {| rc_x := x; rc_y := y; rc_w := w; rc_h := h |}.

(** * Keys *)

Definition MAX_DEPTH : Z := 32.

Record NodeKey : Type := { nk_depth : Z; nk_path : Z }.

Definition ROOT : NodeKey := {| nk_depth := 0; nk_path := 0 |}.

Definition child (k : NodeKey) (q : Z) : NodeKey := {| nk_depth := nk_depth k + 1; nk_path := Z.lor (Z.shiftl (nk_path k) 2) q |}.

Definition aligned (k : NodeKey) : Z := if nk_depth k =? 0 then 0 else Z.shiftl (nk_path k) (2 * (MAX_DEPTH - nk_depth k)).

Definition subtree_end (k : NodeKey) : option Z :=
  if nk_depth k =? 0 then None
  else let e := aligned k + Z.shiftl 1 (2 * (MAX_DEPTH - nk_depth k)) in if e <=? u_max 64 then Some e else None.

Definition NS_NODE : Z := 0.
Definition NS_OVERFLOW : Z := 1.
Definition TAG_LEAF : Z := 0.
Definition TAG_INTERNAL : Z := 1.

Definition node_key_bytes (k : NodeKey) : list Z := NS_NODE :: be_bytes 8 (aligned k) ++ [nk_depth k].

Definition subtree_end_bytes (k : NodeKey) : list Z :=
  match subtree_end k with Some e => NS_NODE :: be_bytes 8 e | None => [NS_OVERFLOW] end.

(** [f64_bytes] is the memcomparable transform of index keys. *)
Definition f64_bytes (v : Z) : list Z := float_key 8 v.

Definition overflow_key_bytes (x y : Z) (pk : list Z) : list Z := NS_OVERFLOW :: f64_bytes x ++ f64_bytes y ++ pk.

(** * Nodes *)

Record Entry : Type := { en_x : Z; en_y : Z; en_pk : list Z }.

Inductive Node : Type := Leaf (entries : list Entry) | Internal.

Definition encode_entry (e : Entry) : list Z :=
  le_bytes 8 (en_x e) ++ le_bytes 8 (en_y e) ++ le_bytes 4 (blen (en_pk e)) ++ en_pk e.

Definition encode_node (n : Node) : list Z :=
  match n with
  | Internal => [TAG_INTERNAL]
  | Leaf entries => TAG_LEAF :: flat_map encode_entry entries
  end.

Definition be_val (bs : list Z) : Z := le_val (reverse bs).

Definition decode_node_key (raw : list Z) : result StoreError NodeKey :=
  match raw with
  | ns :: rest =>
      if negb (length raw =? 10)%nat || negb (ns =? NS_NODE) then Err SpatialMalformed
      else
        let a := be_val (firstn 8 rest) in
        match skipn 8 rest with
        | [depth] => Ok {| nk_depth := depth; nk_path := if depth =? 0 then 0 else Z.shiftr a (2 * (MAX_DEPTH - depth)) |}
        | _ => Err SpatialMalformed
        end
  | [] => Err SpatialMalformed
  end.

(** The bit pattern a transformed key came from. *)
Definition unorder (bs : list Z) : Z :=
  let ordered := be_val bs in if Z.land ordered (SIGN 64) =? 0 then 2 ^ 64 - 1 - ordered else Z.lxor ordered (SIGN 64).

Definition decode_overflow (raw : list Z) : result StoreError Entry :=
  match raw with
  | ns :: rest =>
      if (length raw <? 17)%nat || negb (ns =? NS_OVERFLOW) then Err SpatialMalformed
      else Ok {| en_x := unorder (firstn 8 rest); en_y := unorder (firstn 8 (skipn 8 rest)); en_pk := skipn 16 rest |}
  | [] => Err SpatialMalformed
  end.

Fixpoint decode_entries (fuel : nat) (rest : list Z) : result StoreError (list Entry) :=
  match rest, fuel with
  | [], _ => Ok []
  | _, O => Err OutOfFuel
  | _, S fuel =>
      if (length rest <? 20)%nat then Err SpatialMalformed
      else
        let len := le_val (firstn 4 (skipn 16 rest)) in
        if blen rest <? 20 + len then Err SpatialMalformed
        else
          decode_entries fuel (skipn (Z.to_nat (20 + len)) rest) ≫= fun es =>
          Ok ({| en_x := le_val (firstn 8 rest); en_y := le_val (firstn 8 (skipn 8 rest)); en_pk := firstn (Z.to_nat len) (skipn 20 rest) |} :: es)
  end.

Definition decode_node (bs : list Z) : result StoreError Node :=
  match bs with
  | [] => Err SpatialMalformed
  | tag :: rest =>
      if tag =? TAG_INTERNAL then Ok Internal
      else if tag =? TAG_LEAF then decode_entries (length rest) rest ≫= fun es => Ok (Leaf es)
      else Err SpatialMalformed
  end.

(** [cmp_key]: [(x, y, pk)] under totalOrder. *)
Definition cmp_key (e : Entry) (x y : Z) (pk : list Z) : comparison :=
  cmp_then (total_order_key 64 (en_x e) ?= total_order_key 64 x)
    (cmp_then (total_order_key 64 (en_y e) ?= total_order_key 64 y) (lex_compare (en_pk e) pk)).

Definition entry_cmp (a b : Entry) : comparison := cmp_key a (en_x b) (en_y b) (en_pk b).

(** [binary_search_by] on a sorted bucket: the insertion point, or a hit. *)
Fixpoint bucket_find (es : list Entry) (x y : Z) (pk : list Z) : nat * bool :=
  match es with
  | [] => (O, false)
  | e :: es =>
      match cmp_key e x y pk with
      | Lt => let '(i, hit) := bucket_find es x y pk in (S i, hit)
      | Eq => (O, true)
      | Gt => (O, false)
      end
  end.

(** * The index *)

Record QuadTree (T : Type) : Type := { qd_bounds : Rect; qd_bucket_size : nat; qd_store : T; qd_len : Z }.
Arguments qd_bounds {T} _.
Arguments qd_bucket_size {T} _.
Arguments qd_store {T} _.
Arguments qd_len {T} _.
Arguments Build_QuadTree {T} _ _ _ _.

(** Rounds enough for a path of [MAX_DEPTH] levels. *)
Definition DEPTH_FUEL : nat := 34.

Section ops.
Context {W T : Type} {KT : KvTree W T}.
Notation St := (W * list Page)%type.
Notation QM := (SM St StoreError).

Definition with_store (t : QuadTree T) (s : T) : QuadTree T := Build_QuadTree (qd_bounds t) (qd_bucket_size t) s (qd_len t).
Definition with_len (t : QuadTree T) (n : Z) : QuadTree T := Build_QuadTree (qd_bounds t) (qd_bucket_size t) (qd_store t) n.

Definition node (w : W) (t : QuadTree T) (k : NodeKey) : result StoreError (option Node) :=
  map_err TreeFailed (kt_get w (qd_store t) (node_key_bytes k)) ≫= fun found =>
  match found with Some bs => decode_node bs ≫= fun n => Ok (Some n) | None => Ok None end.

Definition put_node (t : QuadTree T) (k : NodeKey) (n : Node) : QM (QuadTree T) :=
  sm_map_err TreeFailed (kt_insert (qd_store t) (node_key_bytes k) (encode_node n)) ≫= fun s => mret (with_store t s).

Definition take_node (t : QuadTree T) (k : NodeKey) : QM (QuadTree T) := fun s =>
  (sm_lift (node s.1 t k) ≫= fun existing =>
   match existing with
   | Some _ => sm_map_err TreeFailed (kt_delete (qd_store t) (node_key_bytes k)) ≫= fun '(_, st) => mret (with_store t st)
   | None => mret t
   end) s.

(** [QuadTree::new]: the empty tree is one empty leaf. The page this supersedes
    is not reported. *)
Definition quad_new (bounds : Rect) (bucket_size : nat) (table : Z) : SM W StoreError (QuadTree T) := fun w =>
  match kt_create table true w with
  | (Ok st, w) => let '(r, s) := put_node (Build_QuadTree bounds (Nat.max bucket_size 1) st 0) ROOT (Leaf []) (w, []) in (r, s.1)
  | (Err e, w) => (Err (TreeFailed e), w)
  end.

(** The nodes of a subtree in key order: one range scan. *)
Definition subtree (w : W) (t : QuadTree T) (k : NodeKey) : result StoreError (list (NodeKey * Node)) :=
  map_err TreeFailed (kt_entries w (qd_store t) (node_key_bytes k) (Some (subtree_end_bytes k))) ≫= fun l =>
  collect (fun '(raw, v) => decode_node v ≫= fun n => decode_node_key raw ≫= fun k => Ok (k, n)) l.

Definition overflow (w : W) (t : QuadTree T) : result StoreError (list Entry) :=
  map_err TreeFailed (kt_entries w (qd_store t) [NS_OVERFLOW] None) ≫= fun l => collect (fun '(raw, _) => decode_overflow raw) l.

Definition leaf_entries (n : Node) : list Entry := match n with Leaf es => es | Internal => [] end.

Definition is_leaf (n : Node) : bool := match n with Leaf _ => true | Internal => false end.

(** The four buckets of a split, each a subsequence of the leaf. *)
Definition bucket (r : Rect) (q : Z) (es : list Entry) : list Entry := List.filter (fun e => quadrant_of r (en_x e) (en_y e) =? q) es.

Definition put_leaf (t : QuadTree T) (k : NodeKey) (es : list Entry) : QM (QuadTree T) := put_node t k (Leaf es).

Fixpoint quad_split (fuel : nat) (t : QuadTree T) (k : NodeKey) (r : Rect) : QM (QuadTree T) := fun s =>
  match fuel with
  | O => (Err OutOfFuel, s)
  | S fuel =>
      (sm_lift (node s.1 t k) ≫= fun n =>
       match n with
       | Some (Leaf es) =>
           if (length es <=? qd_bucket_size t)%nat || (MAX_DEPTH <=? nk_depth k) then mret t
           else
             put_node t k Internal ≫= fun t =>
             put_leaf t (child k 0) (bucket r 0 es) ≫= fun t =>
             put_leaf t (child k 1) (bucket r 1 es) ≫= fun t =>
             put_leaf t (child k 2) (bucket r 2 es) ≫= fun t =>
             put_leaf t (child k 3) (bucket r 3 es) ≫= fun t =>
             let again q t := if (qd_bucket_size t <? length (bucket r q es))%nat && (nk_depth k + 1 <? MAX_DEPTH) then quad_split fuel t (child k q) (child_rect r q) else mret t in
             again 3 t ≫= fun t => again 2 t ≫= fun t => again 1 t ≫= fun t => again 0 t
       | _ => mret t
       end) s
  end.

(** The descent of [insert] below the root. *)
Fixpoint insert_at (fuel : nat) (t : QuadTree T) (k : NodeKey) (r : Rect) (x y : Z) (pk : list Z) : QM (bool * QuadTree T) := fun s =>
  match fuel with
  | O => (Err OutOfFuel, s)
  | S fuel =>
      (sm_lift (node s.1 t k) ≫= fun n =>
       match default (Leaf []) n with
       | Internal => let q := quadrant_of r x y in insert_at fuel t (child k q) (child_rect r q) x y pk
       | Leaf es =>
           let '(pos, hit) := bucket_find es x y pk in
           if hit then mret (false, t)
           else
             let es := firstn pos es ++ {| en_x := x; en_y := y; en_pk := pk |} :: skipn pos es in
             put_node t k (Leaf es) ≫= fun t =>
             let t := with_len t (qd_len t + 1) in
             if (qd_bucket_size t <? length es)%nat && (nk_depth k <? MAX_DEPTH)
             then quad_split DEPTH_FUEL t k r ≫= fun t => mret (true, t)
             else mret (true, t)
       end) s
  end.

Definition quad_insert (t : QuadTree T) (x y : Z) (pk : list Z) : QM (bool * QuadTree T) := fun s =>
  if negb (contains_point (qd_bounds t) x y) then
    (let key := overflow_key_bytes x y pk in
     sm_lift (map_err TreeFailed (kt_get s.1 (qd_store t) key)) ≫= fun found =>
     match found with
     | Some _ => mret (false, t)
     | None => sm_map_err TreeFailed (kt_insert (qd_store t) key []) ≫= fun st => mret (true, with_len (with_store t st) (qd_len t + 1))
     end) s
  else insert_at DEPTH_FUEL t ROOT (qd_bounds t) x y pk s.

(** Whether a subtree holds at most [cap] entries; the scan stops at the first
    leaf past it. *)
Fixpoint within_cap (cap total : nat) (l : list kv) : result StoreError bool :=
  match l with
  | [] => Ok true
  | (raw, v) :: l =>
      decode_node v ≫= fun n => decode_node_key raw ≫= fun _ =>
      let total := (total + length (leaf_entries n))%nat in
      if is_leaf n && (cap <? total)%nat then Ok false else within_cap cap total l
  end.

Definition subtree_len_at_most (w : W) (t : QuadTree T) (k : NodeKey) (cap : nat) : result StoreError bool :=
  map_err TreeFailed (kt_entries w (qd_store t) (node_key_bytes k) (Some (subtree_end_bytes k))) ≫= within_cap cap 0.

Fixpoint take_nodes (t : QuadTree T) (keys : list NodeKey) : QM (QuadTree T) :=
  match keys with
  | [] => mret t
  | k :: keys => take_node t k ≫= fun t => take_nodes t keys
  end.

Definition point_le (a b : Entry) : Prop := entry_cmp a b <> Gt.
#[global] Instance point_le_dec : RelDecision point_le.
Proof. intros a b. unfold point_le. destruct (entry_cmp a b); [left; discriminate|left; discriminate|right; intros H; by apply H]. Defined.

Definition collapse (t : QuadTree T) (k : NodeKey) : QM (QuadTree T) := fun s =>
  (sm_lift (subtree s.1 t k) ≫= fun nodes =>
   take_nodes t nodes.*1 ≫= fun t =>
   put_node t k (Leaf (merge_sort point_le (flat_map (fun n => leaf_entries n.2) nodes)))) s.

(** The highest ancestor whose subtree fits a bucket becomes a leaf. *)
Fixpoint collapse_first (t : QuadTree T) (ancestors : list NodeKey) : QM (QuadTree T) := fun s =>
  match ancestors with
  | [] => (Ok t, s)
  | a :: rest =>
      (sm_lift (subtree_len_at_most s.1 t a (qd_bucket_size t)) ≫= fun fits : bool =>
       if fits then collapse t a else collapse_first t rest) s
  end.

Fixpoint remove_at (fuel : nat) (t : QuadTree T) (k : NodeKey) (r : Rect) (x y : Z) (pk : list Z) (ancestors : list NodeKey) : QM (bool * QuadTree T) := fun s =>
  match fuel with
  | O => (Err OutOfFuel, s)
  | S fuel =>
      (sm_lift (node s.1 t k) ≫= fun n =>
       match n with
       | None => mret (false, t)
       | Some Internal => let q := quadrant_of r x y in remove_at fuel t (child k q) (child_rect r q) x y pk (ancestors ++ [k])
       | Some (Leaf es) =>
           let '(pos, hit) := bucket_find es x y pk in
           if hit then
             put_node t k (Leaf (firstn pos es ++ skipn (S pos) es)) ≫= fun t =>
             collapse_first (with_len t (qd_len t - 1)) ancestors ≫= fun t => mret (true, t)
           else mret (false, t)
       end) s
  end.

Definition quad_remove (t : QuadTree T) (x y : Z) (pk : list Z) : QM (bool * QuadTree T) := fun s =>
  if negb (contains_point (qd_bounds t) x y) then
    (let key := overflow_key_bytes x y pk in
     sm_lift (map_err TreeFailed (kt_get s.1 (qd_store t) key)) ≫= fun found =>
     match found with
     | None => mret (false, t)
     | Some _ => sm_map_err TreeFailed (kt_delete (qd_store t) key) ≫= fun '(_, st) => mret (true, with_len (with_store t st) (qd_len t - 1))
     end) s
  else remove_at DEPTH_FUEL t ROOT (qd_bounds t) x y pk [] s.

(** ** Queries *)

Definition filter_overflow (w : W) (t : QuadTree T) (keep : Entry -> bool) : result StoreError (list (list Z)) :=
  overflow w t ≫= fun es => Ok (map en_pk (List.filter keep es)).

Definition at_point (x y : Z) (e : Entry) : bool := feq (en_x e) x && feq (en_y e) y.

Fixpoint point_at (fuel : nat) (w : W) (t : QuadTree T) (k : NodeKey) (r : Rect) (x y : Z) : result StoreError (list (list Z)) :=
  match fuel with
  | O => Err OutOfFuel
  | S fuel =>
      node w t k ≫= fun n =>
      match n with
      | None => Ok []
      | Some Internal => let q := quadrant_of r x y in point_at fuel w t (child k q) (child_rect r q) x y
      | Some (Leaf es) => Ok (map en_pk (List.filter (at_point x y) es))
      end
  end.

Definition query_point (w : W) (t : QuadTree T) (x y : Z) : result StoreError (list (list Z)) :=
  if negb (contains_point (qd_bounds t) x y) then filter_overflow w t (at_point x y)
  else point_at DEPTH_FUEL w t ROOT (qd_bounds t) x y.

Definition collect_subtree (w : W) (t : QuadTree T) (k : NodeKey) : result StoreError (list (list Z)) :=
  subtree w t k ≫= fun nodes => Ok (map en_pk (flat_map (fun n => leaf_entries n.2) nodes)).

(** The walk of a query: [visits] prunes subtrees, [covers] takes all of one,
    [keep] filters a leaf. *)
Fixpoint walk (fuel : nat) (w : W) (t : QuadTree T) (visits covers : Rect -> bool) (keep : Entry -> bool) (k : NodeKey) (r : Rect) : result StoreError (list (list Z)) :=
  match fuel with
  | O => Err OutOfFuel
  | S fuel =>
      if negb (visits r) then Ok []
      else
        node w t k ≫= fun n =>
        match n with
        | None => Ok []
        | Some (Leaf es) => Ok (map en_pk (List.filter keep es))
        | Some Internal =>
            if covers r then collect_subtree w t k
            else
              let at_child q := walk fuel w t visits covers keep (child k q) (child_rect r q) in
              at_child 3 ≫= fun a => at_child 2 ≫= fun b => at_child 1 ≫= fun c => at_child 0 ≫= fun d => Ok (a ++ b ++ c ++ d)
        end
  end.

Definition query_region (w : W) (t : QuadTree T) (region : Rect) : result StoreError (list (list Z)) :=
  let keep e := contains_point region (en_x e) (en_y e) in
  filter_overflow w t keep ≫= fun out =>
  walk DEPTH_FUEL w t (intersects region) (contains_rect region) keep ROOT (qd_bounds t) ≫= fun found => Ok (out ++ found).

Definition within_radius (x y rr : Z) (e : Entry) : bool :=
  let dx := fsub (en_x e) x in let dy := fsub (en_y e) y in fle (fadd (fmul dx dx) (fmul dy dy)) rr.

(** The box around a disc. *)
Definition search_box (x y r : Z) : Rect := {| rc_x := fsub x r; rc_y := fsub y r; rc_w := fmul TWO r; rc_h := fmul TWO r |}.

Definition query_radius (w : W) (t : QuadTree T) (x y r : Z) : result StoreError (list (list Z)) :=
  if is_nan 64 r || flt r 0 then Ok []
  else
    let rr := fmul r r in
    let bbox := search_box x y r in
    filter_overflow w t (within_radius x y rr) ≫= fun out =>
    walk DEPTH_FUEL w t (intersects bbox) (fun _ => false) (within_radius x y rr) ROOT (qd_bounds t) ≫= fun found => Ok (out ++ found).

(** [entries]: the contents in canonical order. *)
Definition quad_entries (w : W) (t : QuadTree T) : result StoreError (list Entry) :=
  subtree w t ROOT ≫= fun nodes => overflow w t ≫= fun over =>
  Ok (merge_sort point_le (flat_map (fun n => leaf_entries n.2) nodes ++ over)).
End ops.
