(* ===== verification/QuadTreeRep.v ===== *)
(** How a quadtree is laid out in its ordered tree: the key ranges of subtrees,
    the codecs of nodes and keys, and [canon], the tree that a sorted list of
    points determines. *)

From stdpp Require Import base list gmap sorting numbers.
From Stdlib Require Import ZArith Lia.
From S2P Require Import Prelude FluxBin Row IndexKey PageFormat PagedTree PagedTreeNode PagedTreeRep PagedTreeWrite PagedTreeSpec KvTree TxState LogRecord TableState TableSpec Ieee QuadTree.
From stdpp Require Import list.
#[local] Open Scope Z_scope.

(** * Key ranges *)

(** [k] is a node with [n] levels below it. *)
Definition level (n : nat) (k : NodeKey) : Prop :=
  nk_depth k + Z.of_nat n = MAX_DEPTH /\ 0 <= nk_depth k /\ 0 <= nk_path k < 4 ^ nk_depth k.

Definition quadrant (q : Z) : Prop := 0 <= q < 4.

Lemma level_root : level 32 ROOT.
Proof. unfold level. simpl. unfold MAX_DEPTH. lia. Qed.

Lemma child_path k q : 0 <= nk_path k -> quadrant q -> nk_path (child k q) = 4 * nk_path k + q.
Proof.
  intros Hp Hq. unfold quadrant in Hq. simpl. rewrite Z.shiftl_mul_pow2 by lia. change (2 ^ 2) with 4.
  pose proof (Z.add_lor_land (nk_path k * 4) q) as E. enough (Z.land (nk_path k * 4) q = 0) by lia.
  assert (q = q mod 2 ^ 2) as -> by (rewrite Z.mod_small; lia). rewrite <- Z.land_ones by lia.
  rewrite (Z.land_comm q), Z.land_assoc, Z.land_ones by lia. change (2 ^ 2) with 4. by rewrite Z.mod_mul.
Qed.

Lemma level_child n k q : level (S n) k -> quadrant q -> level n (child k q).
Proof.
  intros (Hd & H0 & Hp) Hq. unfold level. rewrite child_path by (done || lia). unfold quadrant, MAX_DEPTH in *. cbn [nk_depth child].
  split; [lia|]. split; [lia|]. rewrite Z.pow_add_r by lia. change (4 ^ 1) with 4. lia.
Qed.

Lemma aligned_eq n k : level n k -> aligned k = nk_path k * 4 ^ Z.of_nat n.
Proof.
  intros (Hd & H0 & Hp). unfold aligned, MAX_DEPTH in *. destruct (Z.eqb_spec (nk_depth k) 0) as [E|E].
  - rewrite E in Hp. change (4 ^ 0) with 1 in Hp. replace (nk_path k) with 0 by lia. lia.
  - rewrite Z.shiftl_mul_pow2 by lia. f_equal. rewrite Z.pow_mul_r by lia. f_equal. lia.
Qed.

(** The end of a subtree, also where it is the end of the namespace. *)
Definition limit (n : nat) (k : NodeKey) : Z := (nk_path k + 1) * 4 ^ Z.of_nat n.

Lemma limit_bound n k : level n k -> 0 <= aligned k < limit n k /\ limit n k <= 2 ^ 64.
Proof.
  intros Hk. rewrite (aligned_eq n k Hk). destruct Hk as (Hd & H0 & Hp). unfold limit, MAX_DEPTH in *.
  assert (0 < 4 ^ Z.of_nat n) as Hn by (apply Z.pow_pos_nonneg; lia). split; [nia|].
  change (2 ^ 64) with (4 ^ 32). replace 32 with (nk_depth k + Z.of_nat n) by lia. rewrite Z.pow_add_r by lia. nia.
Qed.

Lemma subtree_end_eq n k : level n k ->
  subtree_end_bytes k = if limit n k <? 2 ^ 64 then NS_NODE :: be_bytes 8 (limit n k) else [NS_OVERFLOW].
Proof.
  intros Hk. pose proof (limit_bound n k Hk) as [_ Hl]. unfold subtree_end_bytes, subtree_end. rewrite (aligned_eq n k Hk). pose proof Hk as (Hd & H0 & Hp).
  unfold MAX_DEPTH, u_max in *. destruct (Z.eqb_spec (nk_depth k) 0) as [E|E].
  - rewrite E in Hp. change (4 ^ 0) with 1 in Hp. unfold limit in *. replace (nk_path k) with 0 in * by lia. replace (Z.of_nat n) with 32 by lia. done.
  - rewrite Z.shiftl_mul_pow2, Z.mul_1_l by lia. replace (2 ^ (2 * (32 - nk_depth k))) with (4 ^ Z.of_nat n).
    2: { change 4 with (2 ^ 2). rewrite <- Z.pow_mul_r by lia. f_equal. lia. }
    replace (nk_path k * 4 ^ Z.of_nat n + 4 ^ Z.of_nat n) with (limit n k) by (unfold limit; lia).
    destruct (Z.leb_spec (limit n k) (2 ^ 64 - 1)), (Z.ltb_spec (limit n k) (2 ^ 64)); try lia; done.
Qed.

(** The raw keys of the subtree of [k]. *)
Definition under (k : NodeKey) (key : list Z) : Prop := key_le (node_key_bytes k) key /\ key_lt key (subtree_end_bytes k).

Section ranges.
Context (n : nat) (k : NodeKey).

Lemma node_key_cmp m k' : level n k -> level m k' ->
  lex_compare (node_key_bytes k) (node_key_bytes k') = cmp_then (aligned k ?= aligned k') (nk_depth k ?= nk_depth k').
Proof.
  intros H1%limit_bound H2%limit_bound. unfold node_key_bytes. cbn [lex_compare].
  rewrite Z.compare_refl. cbn [cmp_then]. rewrite lex_compare_be_bytes by (unfold u_ok; simpl Z.mul; lia). simpl. by destruct (nk_depth k ?= nk_depth k').
Qed.

Lemma under_self : level n k -> under k (node_key_bytes k).
Proof.
  intros Hk. pose proof (limit_bound n k Hk) as [? ?]. split; [by apply key_le_lt_eq; right|]. unfold key_lt. rewrite (subtree_end_eq n k Hk).
  destruct (Z.ltb_spec (limit n k) (2 ^ 64)); [|done]. cbn [kcmp bytes_ord node_key_bytes lex_compare]. rewrite Z.compare_refl. cbn [cmp_then].
  rewrite <- (app_nil_r (be_bytes 8 (limit n k))), lex_compare_be_bytes by (unfold u_ok; simpl Z.mul; lia).
  destruct (Z.compare_spec (aligned k) (limit n k)); [lia|done|lia].
Qed.

Lemma child_after q : level (S n) k -> quadrant q -> key_lt (node_key_bytes k) (node_key_bytes (child k q)).
Proof.
  intros Hk Hq. pose proof (level_child n k q Hk Hq) as Hc. unfold key_lt. cbn [kcmp bytes_ord].
  pose proof (limit_bound (S n) k Hk) as [? ?]. pose proof (limit_bound n _ Hc) as [? ?].
  unfold node_key_bytes. cbn [lex_compare]. rewrite Z.compare_refl. cbn [cmp_then]. rewrite lex_compare_be_bytes by (unfold u_ok; simpl Z.mul; lia).
  rewrite (aligned_eq (S n) k Hk), (aligned_eq n _ Hc), child_path by (apply Hk || done).
  rewrite Nat2Z.inj_succ, Z.pow_succ_r by lia. assert (0 < 4 ^ Z.of_nat n) as Hn by (apply Z.pow_pos_nonneg; lia). unfold quadrant in Hq.
  destruct (Z.compare_spec (nk_path k * (4 * 4 ^ Z.of_nat n)) ((4 * nk_path k + q) * 4 ^ Z.of_nat n)); [|done|exfalso; nia].
  cbn [cmp_then lex_compare child nk_depth]. destruct (Z.compare_spec (nk_depth k) (nk_depth k + 1)); [lia|done|lia].
Qed.

Lemma child_end q : level (S n) k -> quadrant q -> key_le (subtree_end_bytes (child k q)) (subtree_end_bytes k).
Proof.
  intros Hk Hq. pose proof (level_child n k q Hk Hq) as Hc. rewrite (subtree_end_eq _ _ Hk), (subtree_end_eq _ _ Hc).
  pose proof (limit_bound (S n) k Hk) as [? ?]. pose proof (limit_bound n _ Hc) as [? ?].
  assert (limit n (child k q) <= limit (S n) k) as Hle.
  { unfold limit. rewrite child_path by (apply Hk || done). rewrite Nat2Z.inj_succ, Z.pow_succ_r by lia.
    assert (0 < 4 ^ Z.of_nat n) as Hn by (apply Z.pow_pos_nonneg; lia). unfold quadrant in Hq. nia. }
  destruct (Z.ltb_spec (limit n (child k q)) (2 ^ 64)), (Z.ltb_spec (limit (S n) k) (2 ^ 64)); [|done|lia|done].
  unfold key_le. cbn [kcmp bytes_ord lex_compare]. rewrite Z.compare_refl. cbn [cmp_then].
  rewrite <- (app_nil_r (be_bytes 8 (limit n _))), <- (app_nil_r (be_bytes 8 (limit (S n) k))), lex_compare_be_bytes by (unfold u_ok; simpl Z.mul; lia).
  destruct (Z.compare_spec (limit n (child k q)) (limit (S n) k)); [done|done|lia].
Qed.

Lemma sibling_after q q' : level (S n) k -> quadrant q -> quadrant q' -> q < q' ->
  key_le (subtree_end_bytes (child k q)) (node_key_bytes (child k q')).
Proof.
  intros Hk Hq Hq' Hlt. pose proof (level_child n k q Hk Hq) as Hc. pose proof (level_child n k q' Hk Hq') as Hc'.
  rewrite (subtree_end_eq _ _ Hc). pose proof (limit_bound n _ Hc) as [? ?]. pose proof (limit_bound n _ Hc') as [? ?].
  assert (limit n (child k q) <= aligned (child k q')) as Hle.
  { rewrite (aligned_eq n _ Hc'). unfold limit. rewrite (child_path k q (proj1 (proj2 (proj2 Hk))) Hq), (child_path k q' (proj1 (proj2 (proj2 Hk))) Hq').
    assert (0 < 4 ^ Z.of_nat n) as Hn by (apply Z.pow_pos_nonneg; lia). nia. }
  destruct (Z.ltb_spec (limit n (child k q)) (2 ^ 64)); [|lia].
  unfold key_le, node_key_bytes. cbn [kcmp bytes_ord lex_compare]. rewrite Z.compare_refl. cbn [cmp_then].
  rewrite <- (app_nil_r (be_bytes 8 (limit n _))), lex_compare_be_bytes by (unfold u_ok; simpl Z.mul; lia).
  destruct (Z.compare_spec (limit n (child k q)) (aligned (child k q'))); [done|done|lia].
Qed.

Lemma under_child q key : level (S n) k -> quadrant q -> under (child k q) key -> under k key.
Proof.
  intros Hk Hq [H1 H2]. split.
  - eapply key_le_trans; [apply key_lt_le, (child_after q Hk Hq)|done].
  - eapply key_lt_le_trans; [done|by apply child_end].
Qed.

Lemma under_inj q q' key : level (S n) k -> quadrant q -> quadrant q' -> under (child k q) key -> under (child k q') key -> q = q'.
Proof.
  intros Hk Hq Hq' [H1 H2] [H3 H4]. destruct (Z.lt_trichotomy q q') as [?|[?|?]]; [|done|]; exfalso; apply (key_lt_irrefl key).
  - eapply key_lt_le_trans; [exact H2|]. eapply key_le_trans; [|exact H3]. by apply sibling_after.
  - eapply key_lt_le_trans; [exact H4|]. eapply key_le_trans; [|exact H1]. by apply sibling_after.
Qed.

Lemma parent_not_under q : level (S n) k -> quadrant q -> ~ under (child k q) (node_key_bytes k).
Proof. intros Hk Hq [H1 _]. apply (key_lt_irrefl (node_key_bytes k)). eapply key_lt_le_trans; [by apply child_after|done]. Qed.

(** Keys of the overflow bucket are in no subtree. *)
Lemma overflow_not_under key : level n k -> ~ under k (NS_OVERFLOW :: key).
Proof.
  intros Hk [_ H2]. unfold key_lt in H2. rewrite (subtree_end_eq n k Hk) in H2. destruct (limit n k <? 2 ^ 64); [done|].
  by destruct key.
Qed.
End ranges.

(** * Codecs *)

Definition entry_ok (e : Entry) : Prop :=
  u_ok 64 (en_x e) /\ u_ok 64 (en_y e) /\ blen (en_pk e) < 2 ^ 32 - 17.

Definition node_ok (nd : Node) : Prop := Forall entry_ok (leaf_entries nd).

Lemma length_encode_entry e : length (encode_entry e) = (20 + length (en_pk e))%nat.
Proof. unfold encode_entry. rewrite !length_app, !length_le_bytes. lia. Qed.

Lemma decode_entries_step fuel rest : rest <> [] -> decode_entries (S fuel) rest =
  if (length rest <? 20)%nat then Err SpatialMalformed
  else
    let len := le_val (firstn 4 (skipn 16 rest)) in
    if blen rest <? 20 + len then Err SpatialMalformed
    else
      decode_entries fuel (skipn (Z.to_nat (20 + len)) rest) ≫= fun es =>
      Ok ({| en_x := le_val (firstn 8 rest); en_y := le_val (firstn 8 (skipn 8 rest)); en_pk := firstn (Z.to_nat len) (skipn 20 rest) |} :: es).
Proof. by destruct rest. Qed.

Lemma decode_entries_encoded es : Forall entry_ok es -> forall fuel, (length (flat_map encode_entry es) <= fuel)%nat ->
  decode_entries fuel (flat_map encode_entry es) = Ok es.
Proof.
  induction 1 as [|e es (Hx & Hy & Hpk) _ IH]; intros fuel Hf; [by destruct fuel|].
  cbn [flat_map] in *. rewrite length_app, length_encode_entry in Hf. destruct fuel as [|fuel]; [lia|].
  set (tl := flat_map encode_entry es) in *.
  assert (encode_entry e ++ tl = le_bytes 8 (en_x e) ++ le_bytes 8 (en_y e) ++ le_bytes 4 (blen (en_pk e)) ++ en_pk e ++ tl) as E.
  { unfold encode_entry. by rewrite <- !app_assoc. }
  rewrite decode_entries_step by (intros Eb; apply (f_equal length) in Eb; rewrite length_app, length_encode_entry in Eb; simpl in Eb; lia). rewrite E.
  assert (firstn 8 (le_bytes 8 (en_x e) ++ le_bytes 8 (en_y e) ++ le_bytes 4 (blen (en_pk e)) ++ en_pk e ++ tl) = le_bytes 8 (en_x e)) as E1 by (apply take_app_length'; by rewrite length_le_bytes).
  assert (skipn 8 (le_bytes 8 (en_x e) ++ le_bytes 8 (en_y e) ++ le_bytes 4 (blen (en_pk e)) ++ en_pk e ++ tl) = le_bytes 8 (en_y e) ++ le_bytes 4 (blen (en_pk e)) ++ en_pk e ++ tl) as E2 by (apply drop_app_length'; by rewrite length_le_bytes).
  assert (skipn 16 (le_bytes 8 (en_x e) ++ le_bytes 8 (en_y e) ++ le_bytes 4 (blen (en_pk e)) ++ en_pk e ++ tl) = le_bytes 4 (blen (en_pk e)) ++ en_pk e ++ tl) as E3.
  { rewrite (app_assoc (le_bytes 8 (en_x e))). apply drop_app_length'. by rewrite length_app, !length_le_bytes. }
  assert (skipn 20 (le_bytes 8 (en_x e) ++ le_bytes 8 (en_y e) ++ le_bytes 4 (blen (en_pk e)) ++ en_pk e ++ tl) = en_pk e ++ tl) as E4.
  { rewrite (app_assoc (le_bytes 8 (en_x e))), (app_assoc (_ ++ _) (le_bytes 4 _)). apply drop_app_length'. by rewrite !length_app, !length_le_bytes. }
  rewrite E1, E2, E3, E4, (take_app_length' (le_bytes 8 (en_y e))), (take_app_length' (le_bytes 4 _)) by (by rewrite length_le_bytes).
  rewrite !le_val_unsigned by (done || (unfold u_ok, blen in *; simpl Z.mul; lia)).
  rewrite <- E. assert (blen (encode_entry e ++ tl) = 20 + blen (en_pk e) + blen tl) as EL by (unfold blen; rewrite length_app, length_encode_entry; lia).
  rewrite EL, length_app, length_encode_entry.
  destruct (Nat.ltb_spec (20 + length (en_pk e) + length tl) 20); [lia|]. cbv zeta.
  destruct (Z.ltb_spec (20 + blen (en_pk e) + blen tl) (20 + blen (en_pk e))); [unfold blen in *; lia|].
  rewrite (drop_app_length' (encode_entry e)) by (rewrite length_encode_entry; unfold blen; lia).
  rewrite IH by lia. cbn [mbind result_bind]. rewrite take_app_length' by (unfold blen; lia). by destruct e.
Qed.

Lemma decode_encode_node nd : node_ok nd -> decode_node (encode_node nd) = Ok nd.
Proof.
  destruct nd as [es|]; [|done]. intros Hes. cbn [encode_node decode_node]. change (TAG_LEAF =? TAG_INTERNAL) with false. change (TAG_LEAF =? TAG_LEAF) with true. cbv iota.
  by rewrite decode_entries_encoded.
Qed.

Lemma be_val_be_bytes m z : u_ok (8 * Z.of_nat m) z -> be_val (be_bytes m z) = z.
Proof. intros Hz. unfold be_val, be_bytes. rewrite reverse_involutive. by apply le_val_unsigned. Qed.

Lemma decode_node_key_encoded n k : level n k -> decode_node_key (node_key_bytes k) = Ok k.
Proof.
  intros Hk. pose proof (limit_bound n k Hk) as [? ?]. unfold decode_node_key, node_key_bytes. cbn [length]. rewrite length_app, length_be_bytes. cbn [length].
  change (NS_NODE =? NS_NODE) with true. cbn [negb orb Nat.eqb Nat.add].
  rewrite (drop_app_length' (be_bytes 8 _)), (take_app_length' (be_bytes 8 _)) by (by rewrite length_be_bytes).
  rewrite be_val_be_bytes by (unfold u_ok; simpl Z.mul; lia). rewrite (aligned_eq n k Hk). destruct Hk as (Hd & Hd0 & Hp). destruct k as [d p]. cbn [nk_depth nk_path] in *.
  do 2 f_equal. unfold MAX_DEPTH in *. destruct (Z.eqb_spec d 0) as [->|]; [change (4 ^ 0) with 1 in Hp; lia|].
  rewrite Z.shiftr_div_pow2 by lia. rewrite Z.pow_mul_r by lia. replace (32 - d) with (Z.of_nat n) by lia. apply Z.div_mul. apply Z.pow_nonzero; lia.
Qed.

Lemma unorder_ordered v : u_ok 64 v -> unorder (f64_bytes v) = v.
Proof.
  intros Hv. unfold unorder, f64_bytes, float_key. cbv zeta. change (8 * Z.of_nat 8) with 64. pose proof (SIGN_pos 64 ltac:(lia)). pose proof (pow2_double 64 ltac:(lia)).
  rewrite (land_sign 64 v), (lxor_sign 64 v) by (done || lia). pose proof Hv as [? ?].
  destruct (Z.ltb_spec v (SIGN 64)).
  - rewrite be_val_be_bytes by (unfold u_ok; simpl Z.mul; lia). rewrite land_sign, lxor_sign by (unfold u_ok; lia). destruct (Z.ltb_spec (v + SIGN 64) (SIGN 64)); lia.
  - rewrite be_val_be_bytes by (unfold u_ok; simpl Z.mul; lia). rewrite land_sign by (unfold u_ok; lia). destruct (Z.ltb_spec (2 ^ 64 - 1 - v) (SIGN 64)); lia.
Qed.

Lemma length_f64_bytes v : length (f64_bytes v) = 8%nat.
Proof. apply length_be_bytes. Qed.

Definition overflow_key (e : Entry) : list Z := overflow_key_bytes (en_x e) (en_y e) (en_pk e).

Lemma decode_overflow_encoded e : entry_ok e -> decode_overflow (overflow_key e) = Ok e.
Proof.
  intros (Hx & Hy & _). unfold overflow_key, overflow_key_bytes, decode_overflow. cbn [length]. rewrite !length_app, !length_f64_bytes.
  change (NS_OVERFLOW =? NS_OVERFLOW) with true. destruct (Nat.ltb_spec (S (8 + (8 + length (en_pk e)))) 17); [lia|]. cbn [negb orb].
  assert (skipn 16 (f64_bytes (en_x e) ++ f64_bytes (en_y e) ++ en_pk e) = en_pk e) as ->.
  { rewrite app_assoc. apply drop_app_length'. by rewrite length_app, !length_f64_bytes. }
  rewrite (drop_app_length' (f64_bytes (en_x e))), !(take_app_length' (f64_bytes _)) by (by rewrite length_f64_bytes). rewrite !unorder_ordered by done. by destruct e.
Qed.

(** * Trees as maps *)

Definition kids (f : Z -> kmap) : kmap := f 0 ∪ (f 1 ∪ (f 2 ∪ f 3)).

(** The maps of different quadrants share no key. *)
Definition apart (f : Z -> kmap) : Prop := forall q q' key, quadrant q -> quadrant q' ->
  is_Some (f q !! key) -> is_Some (f q' !! key) -> q = q'.

Lemma quadrant_cases q : quadrant q -> q = 0 \/ q = 1 \/ q = 2 \/ q = 3.
Proof. unfold quadrant. lia. Qed.

Lemma kids_lookup f key v : apart f -> kids f !! key = Some v <-> exists q, quadrant q /\ f q !! key = Some v.
Proof.
  intros Ha. unfold kids. assert (forall q q' v v', quadrant q -> quadrant q' -> f q !! key = Some v -> f q' !! key = Some v' -> q = q') as Hf.
  { intros q q' v1 v2 H1 H2 H3 H4. apply (Ha q q' key); rewrite ?H3, ?H4; eauto. }
  rewrite !lookup_union_Some_raw. split.
  - intros [?|[_ [?|[_ [?|[_ ?]]]]]]; eexists; (split; [|done]); unfold quadrant; lia.
  - intros (q & Hq & Hv). assert (forall q', quadrant q' -> q' <> q -> f q' !! key = None) as Hn.
    { intros q' Hq' Hne. destruct (f q' !! key) eqn:E; [|done]. by destruct Hne; eapply Hf. }
    unfold quadrant in *. destruct (quadrant_cases q Hq) as [->|[->|[->| ->]]]; rewrite ?(Hn 0), ?(Hn 1), ?(Hn 2), ?(Hn 3) by lia; naive_solver.
Qed.

Lemma kids_ext f g : (forall q, quadrant q -> f q = g q) -> kids f = kids g.
Proof. intros E. unfold kids, quadrant in *. by rewrite !E by lia. Qed.

Definition without (q : Z) (f : Z -> kmap) (j : Z) : kmap := if j =? q then ∅ else f j.

Lemma apart_without q f : apart f -> apart (without q f).
Proof.
  intros Ha i j key Hi Hj. unfold without. destruct (i =? q), (j =? q); rewrite ?lookup_empty; try (by intros [? [=]]); try (by intros _ [? [=]]). by apply Ha.
Qed.

(** The part of a node's map outside the subtree of one quadrant. *)
Definition beside (k : NodeKey) (q : Z) (f : Z -> kmap) : kmap := <[node_key_bytes k := encode_node Internal]> (kids (without q f)).

Lemma beside_ext k q f g : (forall j, quadrant j -> j <> q -> f j = g j) -> beside k q f = beside k q g.
Proof. intros E. unfold beside. f_equal. apply kids_ext. intros j Hj. unfold without. destruct (Z.eqb_spec j q); [done|by apply E]. Qed.

Section node.
Context (n : nat) (k : NodeKey) (f : Z -> kmap).
Context (Hk : level (S n) k) (Hf : forall q key, quadrant q -> is_Some (f q !! key) -> under (child k q) key).

Lemma apart_kids : apart f.
Proof using Hk Hf. intros q q' key Hq Hq' H1 H2. by eapply (under_inj n k); eauto. Qed.

Lemma node_lookup key v : <[node_key_bytes k := encode_node Internal]> (kids f) !! key = Some v <->
  key = node_key_bytes k /\ v = encode_node Internal \/ exists q, quadrant q /\ f q !! key = Some v.
Proof using Hk Hf.
  destruct (decide (key = node_key_bytes k)) as [->|Hne].
  - rewrite lookup_insert_eq. split; [intros [= <-]; by left|]. intros [[_ ->]|(q & Hq & Hv)]; [done|].
    exfalso. apply (parent_not_under n k q Hk Hq), Hf; [done|by eexists].
  - rewrite lookup_insert_ne, kids_lookup by (done || apply apart_kids). naive_solver.
Qed.

Lemma beside_lookup q key v : quadrant q -> beside k q f !! key = Some v <->
  key = node_key_bytes k /\ v = encode_node Internal \/ exists j, quadrant j /\ j <> q /\ f j !! key = Some v.
Proof using Hk Hf.
  intros Hq. unfold beside. destruct (decide (key = node_key_bytes k)) as [->|Hne].
  - rewrite lookup_insert_eq. split; [intros [= <-]; by left|]. intros [[_ ->]|(j & Hj & _ & Hv)]; [done|].
    exfalso. apply (parent_not_under n k j Hk Hj), Hf; [done|by eexists].
  - rewrite lookup_insert_ne, kids_lookup by (done || apply apart_without, apart_kids). split.
    + intros (j & Hj & Hv). unfold without in Hv. destruct (Z.eqb_spec j q); [done|]. right. eauto.
    + intros [[? _]|(j & Hj & Hjq & Hv)]; [done|]. exists j. split; [done|]. unfold without. by destruct (Z.eqb_spec j q).
Qed.

Lemma beside_not_under q key : quadrant q -> under (child k q) key -> beside k q f !! key = None.
Proof using Hk Hf.
  intros Hq Hu. apply eq_None_not_Some. intros [v Hv]. apply (beside_lookup q) in Hv as [[-> _]|(j & Hj & Hjq & Hv)]; [by apply (parent_not_under n k q Hk Hq)| |done].
  apply Hjq. eapply (under_inj n k); eauto.
Qed.

Lemma focus q : quadrant q -> <[node_key_bytes k := encode_node Internal]> (kids f) = f q ∪ beside k q f.
Proof using Hk Hf.
  intros Hq. apply map_eq. intros key. apply option_eq. intros v. rewrite node_lookup, lookup_union_Some_raw, (beside_lookup q) by done.
  split.
  - intros [[-> ->]|(j & Hj & Hv)].
    + right. split; [|by left]. apply eq_None_not_Some. intros Hs. apply (parent_not_under n k q Hk Hq). by apply Hf.
    + destruct (decide (j = q)) as [->|Hne]; [by left|]. right. split; [|right; eauto].
      apply eq_None_not_Some. intros Hs. apply Hne. eapply apart_kids; eauto.
  - intros [?|[_ [?|(j & ? & _ & ?)]]]; eauto.
Qed.
End node.

(** [tree_of n k r L M]: [M] holds a tree rooted at [k] whose leaves hold [L], each
    point in the quadrant it routes to. *)
Inductive tree_of : nat -> NodeKey -> Rect -> list Entry -> kmap -> Prop :=
  | to_leaf n k r L : tree_of n k r L {[node_key_bytes k := encode_node (Leaf L)]}
  | to_node n k r L f :
      (forall q, quadrant q -> tree_of n (child k q) (child_rect r q) (bucket r q L) (f q)) ->
      tree_of (S n) k r L (<[node_key_bytes k := encode_node Internal]> (kids f)).

Lemma tree_of_under n k r L M : tree_of n k r L M -> level n k -> forall key, is_Some (M !! key) -> under k key.
Proof.
  induction 1 as [n k r L|n k r L f _ IH]; intros Hk key.
  - rewrite lookup_singleton_is_Some. intros <-. by apply (under_self n).
  - intros [v Hv]. apply (node_lookup n k f Hk) in Hv as [[-> _]|(q & Hq & Hv)].
    + by apply (under_self (S n)).
    + eapply (under_child n); [done..|]. by apply IH; [|apply level_child|].
    + intros q key' Hq Hs. by apply IH; [|apply level_child|].
Qed.

(** The nodes of a subtree are apart from each other. *)
Lemma tree_kids_under n k r L f : level (S n) k ->
  (forall q, quadrant q -> tree_of n (child k q) (child_rect r q) (bucket r q L) (f q)) ->
  forall q key, quadrant q -> is_Some (f q !! key) -> under (child k q) key.
Proof. intros Hk Hf q key Hq. eapply tree_of_under; [by apply Hf|by apply level_child]. Qed.

(** ** The entries of a tree *)

Definition value_entries (v : list Z) : list Entry := match decode_node v with Ok nd => leaf_entries nd | Err _ => [] end.

Definition leaves (M : kmap) : list Entry := flat_map (fun p => value_entries p.2) (map_to_list M).

Lemma flat_map_perm {A B} (g : A -> list B) l1 l2 : l1 ≡ₚ l2 -> flat_map g l1 ≡ₚ flat_map g l2.
Proof. apply Permutation_flat_map. Qed.

Lemma map_to_list_apart (m1 m2 : kmap) : m1 ##ₘ m2 -> map_to_list (m1 ∪ m2) ≡ₚ map_to_list m1 ++ map_to_list m2.
Proof.
  intros Hd. apply NoDup_Permutation; [apply NoDup_map_to_list| |].
  - apply NoDup_app. split; [apply NoDup_map_to_list|]. split; [|apply NoDup_map_to_list].
    intros [i x] H1%elem_of_map_to_list H2%elem_of_map_to_list. by eapply map_disjoint_spec.
  - intros [i x]. by rewrite elem_of_app, !elem_of_map_to_list, lookup_union_Some.
Qed.

Lemma leaves_union m1 m2 : m1 ##ₘ m2 -> leaves (m1 ∪ m2) ≡ₚ leaves m1 ++ leaves m2.
Proof. intros Hd. unfold leaves. by rewrite (flat_map_perm _ _ _ (map_to_list_apart _ _ Hd)), flat_map_app. Qed.

Lemma apart_disjoint f q q' : apart f -> quadrant q -> quadrant q' -> q <> q' -> f q ##ₘ f q'.
Proof. intros Ha Hq Hq' Hne. apply map_disjoint_spec. intros key x y H1 H2. apply Hne. eapply Ha; eauto. Qed.

Lemma leaves_kids f : apart f -> leaves (kids f) ≡ₚ leaves (f 0) ++ leaves (f 1) ++ leaves (f 2) ++ leaves (f 3).
Proof.
  intros Ha. unfold kids. rewrite !leaves_union; [done|..];
    rewrite ?map_disjoint_union_r; repeat split; apply apart_disjoint; done.
Qed.

Lemma leaves_insert key v M : M !! key = None -> leaves (<[key := v]> M) ≡ₚ value_entries v ++ leaves M.
Proof. intros E. unfold leaves. by rewrite (flat_map_perm _ _ _ (map_to_list_insert _ _ _ E)). Qed.

Lemma quadrant_of_ok r x y : quadrant (quadrant_of r x y).
Proof. unfold quadrant_of, quadrant. cbv zeta. by destruct (fle _ y), (fle _ x). Qed.

Lemma bucket_perm r L : L ≡ₚ bucket r 0 L ++ bucket r 1 L ++ bucket r 2 L ++ bucket r 3 L.
Proof.
  induction L as [|e L IH]; [done|]. unfold bucket in *. cbn [List.filter].
  destruct (quadrant_cases _ (quadrant_of_ok r (en_x e) (en_y e))) as [->|[->|[->| ->]]]; cbn [Z.eqb Pos.eqb app];
    (etrans; [apply (perm_skip e IH)|]); [done|..]; repeat (etrans; [apply Permutation_middle|]; apply Permutation_app_head); done.
Qed.

Lemma bucket_ok (P : Entry -> Prop) r q L : Forall P L -> Forall P (bucket r q L).
Proof. rewrite !Forall_forall. intros HL e He. apply HL. unfold bucket in He. rewrite list_elem_of_In, filter_In, <- list_elem_of_In in He. apply He. Qed.

Lemma value_entries_encoded nd : node_ok nd -> value_entries (encode_node nd) = leaf_entries nd.
Proof. intros Hnd. unfold value_entries. by rewrite decode_encode_node. Qed.

Lemma tree_leaves n k r L M : tree_of n k r L M -> level n k -> Forall entry_ok L -> leaves M ≡ₚ L.
Proof.
  induction 1 as [n k r L|n k r L f Hf IH]; intros Hk HL.
  - unfold leaves. rewrite map_to_list_singleton. cbn [flat_map snd]. by rewrite app_nil_r, value_entries_encoded.
  - pose proof (tree_kids_under n k r L f Hk Hf) as Hu. pose proof (apart_kids n k f Hk Hu) as Ha. rewrite leaves_insert.
    + rewrite value_entries_encoded by constructor. cbn [leaf_entries app]. rewrite (leaves_kids f Ha), !IH by (done || by apply level_child || by apply bucket_ok). symmetry. apply bucket_perm.
    + apply eq_None_not_Some. intros [v Hv]. apply (kids_lookup f _ _ Ha) in Hv as (q & Hq & Hv). apply (parent_not_under n k q Hk Hq), Hu; [done|by eexists].
Qed.

(** Every key and value of a tree decodes. *)
Definition node_at (key v : list Z) : Prop := exists n k nd, level n k /\ node_ok nd /\ key = node_key_bytes k /\ v = encode_node nd.

Lemma tree_nodes n k r L M : tree_of n k r L M -> level n k -> Forall entry_ok L -> map_Forall node_at M.
Proof.
  induction 1 as [n k r L|n k r L f Hf IH]; intros Hk HL key v.
  - rewrite lookup_singleton_Some. intros [<- <-]. by exists n, k, (Leaf L).
  - intros [[-> ->]|(q & Hq & Hv)]%(node_lookup n k f Hk (tree_kids_under n k r L f Hk Hf)); [exists (S n), k, Internal; split; [done|]; split; [apply Forall_nil_2|done]|].
    by apply (IH q Hq (level_child n k q Hk Hq) (bucket_ok _ r q L HL)).
Qed.

(** ** The canonical tree of a list of points *)

Section canonical.
Context (cap : nat).

Fixpoint sub (n : nat) (k : NodeKey) (r : Rect) (L : list Entry) : kmap :=
  match n with
  | O => {[node_key_bytes k := encode_node (Leaf L)]}
  | S n =>
      if (length L <=? cap)%nat then {[node_key_bytes k := encode_node (Leaf L)]}
      else <[node_key_bytes k := encode_node Internal]> (kids (fun q => sub n (child k q) (child_rect r q) (bucket r q L)))
  end.

Definition small (n : nat) (L : list Entry) : Prop := n = O \/ (length L <= cap)%nat.

#[global] Instance small_dec n L : Decision (small n L).
Proof. unfold small. apply _. Defined.

Lemma sub_leaf n k r L : small n L -> sub n k r L = {[node_key_bytes k := encode_node (Leaf L)]}.
Proof. intros [->|HL]; [done|]. destruct n; [done|]. simpl. by rewrite (proj2 (Nat.leb_le _ _) HL). Qed.

Lemma sub_node n k r L : (cap < length L)%nat -> sub (S n) k r L =
  <[node_key_bytes k := encode_node Internal]> (kids (fun q => sub n (child k q) (child_rect r q) (bucket r q L))).
Proof. intros HL. simpl. by rewrite (proj2 (Nat.leb_gt _ _) HL). Qed.

Lemma small_cases n L : small n L \/ exists m, n = S m /\ (cap < length L)%nat.
Proof. destruct n as [|m]; [by left; left|]. destruct (Nat.le_gt_cases (length L) cap); [by left; right|]. right. eauto. Qed.

Lemma sub_tree n : forall k r L, tree_of n k r L (sub n k r L).
Proof.
  induction n as [|n IH]; intros k r L; simpl; [constructor|]. destruct (length L <=? cap)%nat; [constructor|]. constructor. intros q _. apply IH.
Qed.

Lemma sub_under n k r L : level n k -> forall key, is_Some (sub n k r L !! key) -> under k key.
Proof. intros Hk. eapply tree_of_under; [apply sub_tree|done]. Qed.

Lemma sub_kids n k r L : level (S n) k -> forall q key, quadrant q -> is_Some (sub n (child k q) (child_rect r q) (bucket r q L) !! key) -> under (child k q) key.
Proof. intros Hk q key Hq. apply sub_under. by apply level_child. Qed.
End canonical.
