(* ===== verification/QuadTreeSpec.v ===== *)
(** What the operations of the quadtree do.

    The contents of an index are a list of points in the order of [entry_cmp];
    [canon] is the tree it determines. Inserts, splits, removals and collapses
    keep the stored map canonical, whatever the order of the operations
    ([quad_refines]). A point query is exact, and so are region and radius queries
    when rounding keeps every point inside the rectangles it is routed to
    ([spatial_follows] in [SpatialProps]). *)

From stdpp Require Import base list gmap sorting numbers.
From Stdlib Require Import ZArith Lia.
From S2P Require Import Prelude FluxBin Row IndexKey PageFormat PagedTree PagedTreeNode PagedTreeRep PagedTreeWrite PagedTreeSpec KvTree TxState LogRecord TableState TableSpec Ieee QuadTree QuadTreeRep.
From stdpp Require Import list.
#[local] Open Scope Z_scope.

(** * The order of points *)

#[global] Instance Entry_eq_dec : EqDecision Entry.
Proof. solve_decision. Defined.

(** [entry_cmp] compares these keys. *)
Definition rank (e : Entry) : Z * (Z * list Z) := (total_order_key 64 (en_x e), (total_order_key 64 (en_y e), en_pk e)).

Lemma entry_cmp_rank a b : entry_cmp a b = kcmp (rank a) (rank b).
Proof. done. Qed.

Lemma rank_inj a b : entry_ok a -> entry_ok b -> rank a = rank b -> a = b.
Proof.
  intros (Hx & Hy & _) (Hx' & Hy' & _) [= E1 E2 E3]. apply total_order_key_inj in E1, E2; try done. destruct a, b. simpl in *. by subst.
Qed.

Lemma entry_cmp_eq a b : entry_ok a -> entry_ok b -> entry_cmp a b = Eq <-> a = b.
Proof. intros Ha Hb. rewrite entry_cmp_rank, kcmp_eq. split; [by apply rank_inj|by intros ->]. Qed.

Definition point_lt (a b : Entry) : Prop := entry_cmp a b = Lt.
#[global] Instance point_lt_trans : Transitive point_lt.
Proof. intros a b c. unfold point_lt. rewrite !entry_cmp_rank. apply kcmp_trans. Qed.
#[global] Instance point_le_trans : Transitive point_le.
Proof. intros a b c. unfold point_le. rewrite !entry_cmp_rank. apply key_le_trans. Qed.
#[global] Instance point_le_total : Total point_le.
Proof. intros a b. unfold point_le. rewrite !entry_cmp_rank. apply (total key_le). Qed.

(** Contents: well-formed points in strict order. *)
Definition points (L : list Entry) : Prop := StronglySorted point_lt L /\ Forall entry_ok L.

Lemma points_cons e L : points (e :: L) <-> entry_ok e /\ Forall (point_lt e) L /\ points L.
Proof.
  unfold points. split.
  - intros [Hs Ho]. apply StronglySorted_inv in Hs as [Hs Hf]. apply Forall_cons in Ho as [? ?]. done.
  - intros (He & Hf & Hs & Ho). split; constructor; done.
Qed.

Lemma elem_of_kept {A} (P : A -> bool) L a : a ∈ List.filter P L <-> a ∈ L /\ P a = true.
Proof. by rewrite list_elem_of_In, filter_In, <- list_elem_of_In. Qed.

Lemma points_filter (P : Entry -> bool) L : points L -> points (List.filter P L).
Proof.
  induction L as [|e L IH]; [done|]. rewrite points_cons. intros (He & Hf & HL). simpl. destruct (P e); [|by apply IH]. apply points_cons. split; [done|].
  split; [|by apply IH]. rewrite Forall_forall in *. intros a Ha. apply Hf. apply elem_of_kept in Ha. apply Ha.
Qed.

Lemma sort_points L L' : points L -> L' ≡ₚ L -> merge_sort point_le L' = L.
Proof.
  intros [Hs Ho] HP. assert (merge_sort point_le L' ≡ₚ L) as HP' by (by rewrite merge_sort_Permutation).
  apply (StronglySorted_unique_strong point_le); [|apply StronglySorted_merge_sort; apply _| |done].
  - intros a b Ha Hb. rewrite HP' in Ha. rewrite Forall_forall in Ho. unfold point_le. rewrite !entry_cmp_rank. intros H1 H2.
    apply rank_inj; [by apply Ho..|]. by apply (anti_symm key_le).
  - clear -Hs. induction Hs as [|a L _ IH Hf]; constructor; [done|]. eapply Forall_impl; [exact Hf|]. intros b Hb. unfold point_le. by rewrite Hb.
Qed.

(** ** Insertion and deletion *)

Fixpoint ins (e : Entry) (L : list Entry) : list Entry :=
  match L with
  | [] => [e]
  | a :: L => match entry_cmp a e with Lt => a :: ins e L | Eq => a :: L | Gt => e :: a :: L end
  end.

Definition del (e : Entry) (L : list Entry) : list Entry := List.filter (fun a => negb (bool_decide (a = e))) L.

Definition probe (e : Entry) (L : list Entry) : nat * bool := bucket_find L (en_x e) (en_y e) (en_pk e).

Lemma probe_cons e a L : probe e (a :: L) =
  match entry_cmp a e with Lt => let '(i, hit) := probe e L in (S i, hit) | Eq => (O, true) | Gt => (O, false) end.
Proof. done. Qed.

Lemma probe_ins e L i : probe e L = (i, false) -> firstn i L ++ e :: skipn i L = ins e L.
Proof.
  revert i. induction L as [|a L IH]; intros i; [by intros [= <-]|]. rewrite probe_cons. cbn [ins].
  destruct (entry_cmp a e); [done| |by intros [= <-]]. destruct (probe e L) as [j hit]. intros [= <- ->]. simpl. by rewrite IH.
Qed.

Lemma point_lt_ne a b : point_lt a b -> a <> b.
Proof. intros Hlt ->. unfold point_lt in Hlt. rewrite entry_cmp_rank, kcmp_refl in Hlt. done. Qed.

Lemma point_gt a b : entry_cmp a b = Gt <-> point_lt b a.
Proof. unfold point_lt. rewrite !entry_cmp_rank. apply kcmp_Gt. Qed.

Lemma after_not_in e L : Forall (point_lt e) L -> e ∉ L.
Proof. rewrite Forall_forall. intros Hf He. by apply (point_lt_ne e e (Hf e He)). Qed.

Lemma del_absent e L : e ∉ L -> del e L = L.
Proof.
  induction L as [|a L IH]; [done|]. intros Hn%not_elem_of_cons. unfold del in *. simpl. rewrite bool_decide_false by naive_solver. simpl. f_equal. apply IH, Hn.
Qed.

(** A probe of sorted points hits exactly when the point is there. *)
Lemma probe_spec e L : entry_ok e -> points L -> let '(i, hit) := probe e L in
  (hit = true <-> e ∈ L) /\ (hit = true -> firstn i L ++ skipn (S i) L = del e L).
Proof.
  intros He. induction L as [|a L IH]; [intros _; cbn; split; [split; [done|intros H; by inversion H]|done]|].
  rewrite points_cons. intros (Ha & Hf & HL). specialize (IH HL). rewrite probe_cons. destruct (entry_cmp a e) eqn:E.
  - apply entry_cmp_eq in E as ->; try done. split; [split; [left|done]|]. intros _. unfold del. simpl. rewrite bool_decide_true by done. simpl. symmetry. by apply del_absent, after_not_in.
  - destruct (probe e L) as [i hit]. destruct IH as [IH1 IH2]. split.
    + rewrite IH1, elem_of_cons. split; [by right|]. intros [->|?]; [|done]. by apply point_lt_ne in E.
    + intros Hh. cbn [firstn skipn app]. rewrite IH2 by done. unfold del. simpl. rewrite bool_decide_false; [done|]. intros ->. by apply point_lt_ne in E.
  - split; [|done]. split; [done|]. apply point_gt in E. rewrite elem_of_cons. intros [->|Hin]; [by apply point_lt_ne in E|].
    rewrite Forall_forall in Hf. apply Hf in Hin. exfalso. apply (point_lt_ne e e); [|done]. by etrans.
Qed.

Lemma ins_first e L : Forall (point_lt e) L -> ins e L = e :: L.
Proof. destruct L as [|a L]; [done|]. intros Hf%Forall_cons. simpl. by rewrite (proj2 (point_gt a e) (proj1 Hf)). Qed.

Lemma elem_of_ins e L x : e ∉ L -> entry_ok e -> Forall entry_ok L -> x ∈ ins e L <-> x = e \/ x ∈ L.
Proof.
  intros Hn He. induction L as [|a L IH]; intros Ho; simpl; [rewrite list_elem_of_singleton; split; [by left|intros [?|H]; [done|by inversion H]]|].
  apply not_elem_of_cons in Hn as [Hn1 Hn2]. apply Forall_cons in Ho as [Ha Ho]. destruct (entry_cmp a e) eqn:E.
  - apply entry_cmp_eq in E; [congruence|done..].
  - rewrite !elem_of_cons, IH by done. naive_solver.
  - rewrite !elem_of_cons. naive_solver.
Qed.

Lemma points_ins e L : entry_ok e -> e ∉ L -> points L -> points (ins e L).
Proof.
  intros He. induction L as [|a L IH]; [intros _ HL; apply points_cons; split; [done|]; split; [constructor|done]|]. intros Hn HL. pose proof HL as (Ha & Hf & HL')%points_cons. apply not_elem_of_cons in Hn as [Hn1 Hn2]. cbn [ins]. destruct (entry_cmp a e) eqn:E.
  - done.
  - apply points_cons. split; [done|]. split; [|by apply IH]. apply Forall_forall. intros x Hx. apply elem_of_ins in Hx as [->|Hx]; [done| |done..|apply HL']. rewrite Forall_forall in Hf. by apply Hf.
  - apply point_gt in E. apply points_cons. split; [done|]. split; [|done]. constructor; [done|]. eapply Forall_impl; [exact Hf|]. intros b Hb. by etrans.
Qed.

Lemma ins_present e L : points L -> entry_ok e -> e ∈ L -> ins e L = L.
Proof.
  intros HL He. induction L as [|a L IH]; [intros H; by inversion H|]. apply points_cons in HL as (Ha & Hf & HL). intros [->|Hin]%elem_of_cons; cbn [ins].
  - by rewrite (proj2 (entry_cmp_eq a a Ha Ha) eq_refl).
  - rewrite Forall_forall in Hf. pose proof (Hf e Hin) as Hlt. unfold point_lt in Hlt. by rewrite Hlt, IH.
Qed.

Lemma filter_ins (P : Entry -> bool) e L : points L -> entry_ok e ->
  List.filter P (ins e L) = if P e then ins e (List.filter P L) else List.filter P L.
Proof.
  intros HL He. induction L as [|a L IH]; [simpl; by destruct (P e)|]. apply points_cons in HL as (Ha & Hf & HL). cbn [ins List.filter]. destruct (entry_cmp a e) eqn:E.
  - apply entry_cmp_eq in E as ->; [|done..]. cbn [List.filter]. destruct (P e) eqn:Ee; [|done]. cbn [ins]. by rewrite (proj2 (entry_cmp_eq e e Ha Ha) eq_refl).
  - cbn [List.filter]. rewrite IH by done. destruct (P a), (P e); try done. cbn [ins]. by rewrite E.
  - cbn [List.filter]. destruct (P e); [|done]. apply point_gt in E.
    rewrite ins_first; [done|]. destruct (P a); [constructor; [done|]|]; apply Forall_forall; intros x Hx; apply elem_of_kept in Hx; (etrans; [exact E|]); rewrite Forall_forall in Hf; apply Hf, Hx.
Qed.

Lemma length_ins e L : points L -> entry_ok e -> length (ins e L) = if bool_decide (e ∈ L) then length L else S (length L).
Proof.
  intros HL He. destruct (bool_decide_reflect (e ∈ L)) as [Hin|Hn]; [by rewrite ins_present|].
  induction L as [|a L IH]; [done|]. apply points_cons in HL as (Ha & Hf & HL). apply not_elem_of_cons in Hn as [Hn1 Hn2]. cbn [ins]. destruct (entry_cmp a e) eqn:E; simpl; [|by rewrite IH|done].
  apply entry_cmp_eq in E; [congruence|done..].
Qed.

Lemma points_insert e L : entry_ok e -> points L -> points (ins e L).
Proof. intros He HL. destruct (decide (e ∈ L)); [by rewrite ins_present|by apply points_ins]. Qed.

Lemma filter_filter_comm {A} (P Q : A -> bool) L : List.filter P (List.filter Q L) = List.filter Q (List.filter P L).
Proof. induction L as [|a L IH]; [done|]. simpl. destruct (Q a) eqn:EQ, (P a) eqn:EP; simpl; rewrite ?EP, ?EQ, ?IH; done. Qed.

Lemma length_del e L : points L -> e ∈ L -> length L = S (length (del e L)).
Proof.
  induction L as [|a L IH]; [intros _ H; by inversion H|]. intros (Ha & Hf & HL)%points_cons Hin. unfold del. cbn [List.filter]. destruct (decide (a = e)) as [->|Hne].
  - rewrite bool_decide_true by done. cbn [negb]. fold (del e L). by rewrite del_absent by by apply after_not_in.
  - rewrite bool_decide_false by done. cbn [negb length]. fold (del e L). rewrite <- IH; [done..|]. apply elem_of_cons in Hin as [?|?]; [by subst|done].
Qed.

(** * Frames

    [framed k g F] is the map of an inner node with the subtrees [g] beside [F],
    the rest of the tree. *)

Definition framed (k : NodeKey) (g : Z -> kmap) (F : kmap) : kmap := <[node_key_bytes k := encode_node Internal]> (kids g) ∪ F.

Definition fset (q : Z) (m : kmap) (g : Z -> kmap) (j : Z) : kmap := if j =? q then m else g j.

(** [F] has no key in the subtree of [k]. *)
Definition outside (k : NodeKey) (F : kmap) : Prop := forall key, under k key -> F !! key = None.

Section frames.
Context (n : nat) (k : NodeKey) (g : Z -> kmap) (F : kmap).
Context (Hk : level (S n) k) (Hg : forall q key, quadrant q -> is_Some (g q !! key) -> under (child k q) key) (HF : outside k F).

Lemma framed_focus q : quadrant q -> framed k g F = g q ∪ (beside k q g ∪ F).
Proof using Hk Hg. intros Hq. unfold framed. rewrite (focus n k g Hk Hg q Hq). by rewrite (assoc_L (∪)). Qed.

Lemma outside_beside q : quadrant q -> outside (child k q) (beside k q g ∪ F).
Proof using Hk Hg HF.
  intros Hq key Hu. apply lookup_union_None. split; [by apply (beside_not_under n k g Hk Hg)|]. apply HF. by eapply (under_child n).
Qed.

Lemma fset_under q m : (forall key, is_Some (m !! key) -> under (child k q) key) ->
  forall j key, quadrant j -> is_Some (fset q m g j !! key) -> under (child k j) key.
Proof using Hg. intros Hm j key Hj. unfold fset. destruct (Z.eqb_spec j q) as [->|]; [apply Hm|by apply Hg]. Qed.

Lemma framed_set q m : quadrant q -> (forall key, is_Some (m !! key) -> under (child k q) key) ->
  m ∪ (beside k q g ∪ F) = framed k (fset q m g) F.
Proof using Hk Hg.
  intros Hq Hm. unfold framed. rewrite (focus n k (fset q m g) Hk (fset_under q m Hm) q Hq), (assoc_L (∪)). unfold fset at 1. rewrite Z.eqb_refl. do 2 f_equal.
  apply beside_ext. intros j _ Hj. unfold fset. by destruct (Z.eqb_spec j q).
Qed.
End frames.

Lemma framed_ext k g g' F : (forall q, quadrant q -> g q = g' q) -> framed k g F = framed k g' F.
Proof. intros E. unfold framed. by rewrite (kids_ext g g' E). Qed.

Lemma framed_empty k v F : <[node_key_bytes k := encode_node Internal]> ({[node_key_bytes k := v]} ∪ F) = framed k (fun _ => ∅) F.
Proof.
  unfold framed, kids. rewrite !(left_id_L ∅ (∪)). rewrite insert_union_l. by rewrite insert_singleton_eq.
Qed.

Lemma leaf_under n k v : level n k -> forall key, is_Some (({[node_key_bytes k := v]} : kmap) !! key) -> under k key.
Proof. intros Hk key. rewrite lookup_singleton_is_Some. intros <-. by apply (under_self n). Qed.

(** * Updates *)

Definition fits (L : list Entry) : Prop := Z.of_nat (length L) < 2 ^ 31.

Lemma encoded_size L : Forall entry_ok L -> blen (flat_map encode_entry L) <= Z.of_nat (length L) * (2 ^ 32 + 3).
Proof.
  induction 1 as [|e L (_ & _ & Hpk) _ IH]; [done|]. cbn [flat_map length]. unfold blen in *. rewrite length_app, length_encode_entry. lia.
Qed.

Lemma leaf_size L : Forall entry_ok L -> fits L -> blen (encode_node (Leaf L)) < 2 ^ 64.
Proof. intros Ho Hf. pose proof (encoded_size L Ho). unfold fits, blen in *. cbn [encode_node length]. nia. Qed.

Lemma length_filter_le {A} (P : A -> bool) L : (length (List.filter P L) <= length L)%nat.
Proof. induction L as [|a L IH]; [done|]. simpl. destruct (P a); simpl; lia. Qed.

Lemma fits_filter P L : fits L -> fits (List.filter P L).
Proof. unfold fits. pose proof (length_filter_le P L). lia. Qed.

Lemma node_key_fits k : key_fits (node_key_bytes k).
Proof. split; [done|]. unfold blen, node_key_bytes. cbn [length]. rewrite length_app, length_be_bytes. done. Qed.

Section updates.
Context {W T : Type} {KT : KvTree W T} {KL : KvTreeLaws W T}.
Notation St := (W * list Page)%type.
Notation QM := (SM St StoreError).
Implicit Types (t : QuadTree T) (w : W) (f : list Page).

Lemma room_put t k nd : keeps_room (put_node t k nd).
Proof. apply room_bind; auto with room. Qed.
Lemma room_take t k : keeps_room (take_node t k).
Proof. read_room @take_node. apply room_bind; [auto with room|]. intros [|]; [|auto with room]. apply room_bind; [auto with room|]. intros []. auto with room. Qed.
Lemma room_takes ks : forall t, keeps_room (take_nodes t ks).
Proof. induction ks as [|k ks IH]; intros t; [apply room_ret|]. apply room_bind; [apply room_take|done]. Qed.
#[local] Hint Resolve room_put room_take room_takes : room.
Lemma room_split fuel : forall t k r, keeps_room (quad_split fuel t k r).
Proof.
  induction fuel as [|fuel IH]; intros t k r; [by intros s|]. apply room_at. intros s. eexists. split; [cbn [quad_split]; reflexivity|].
  apply room_bind; [auto with room|]. intros [[es|]|]; [|auto with room..]. destruct (_ || _); [auto with room|].
  apply room_bind; [auto with room|]. intros t1. repeat (apply room_bind; [apply room_put|]; intros ?). assert (forall q t', keeps_room (if (qd_bucket_size t' <? length (bucket r q es))%nat && (nk_depth k + 1 <? MAX_DEPTH) then quad_split fuel t' (child k q) (child_rect r q) else mret t')) as Ha.
  { intros q t'. destruct (_ && _); auto with room. }
  repeat (apply room_bind; [apply Ha|]; intros ?). apply Ha.
Qed.
#[local] Hint Resolve room_split : room.

(** An index with these parameters whose tree holds [M]. *)
Definition stored (b : Rect) (c : nat) (l : Z) (M : kmap) t w f : Prop :=
  qd_bounds t = b /\ qd_bucket_size t = c /\ qd_len t = l /\ kt_is w (qd_store t) M f.

Context (b : Rect) (c : nat).

Lemma node_spec l M t w f k nd : kt_ok w -> stored b c l M t w f -> M !! node_key_bytes k = Some (encode_node nd) -> node_ok nd ->
  node w t k = Ok (Some nd).
Proof.
  intros Hok (_ & _ & _ & Ht) HM Hnd. unfold node. rewrite (kt_get_spec _ _ _ _ _ Hok Ht), HM. cbn [map_err mbind result_bind]. by rewrite decode_encode_node.
Qed.

Lemma upd_put l M t w f k nd : stored b c l M t w f -> blen (encode_node nd) < 2 ^ 64 ->
  upd (put_node t k nd) w f (stored b c l (<[node_key_bytes k := encode_node nd]> M)).
Proof.
  intros (Hb & Hc & Hl & Ht) Hsz. unfold put_node. eapply upd_bind; [by apply upd_tree_insert; [|apply node_key_fits|]|auto with room|].
  intros s w' f' Hle Hs. by apply upd_ret.
Qed.

Lemma upd_put_leaf l M t w f k L : stored b c l M t w f -> Forall entry_ok L -> fits L ->
  upd (put_node t k (Leaf L)) w f (stored b c l (<[node_key_bytes k := encode_node (Leaf L)]> M)).
Proof. intros Ht Ho HL. apply upd_put; [done|]. by apply leaf_size. Qed.

(** The branch a child of a split takes: it splits again unless it is small. *)
Lemma upd_again fuel n k r L F l q t w f :
  (forall L' k' r' F' t' w' f', level n k' -> points L' -> fits L' -> outside k' F' ->
    stored b c l ({[node_key_bytes k' := encode_node (Leaf L')]} ∪ F') t' w' f' ->
    upd (quad_split fuel t' k' r') w' f' (stored b c l (sub c n k' r' L' ∪ F'))) ->
  level (S n) k -> quadrant q -> points L -> fits L -> outside (child k q) F ->
  stored b c l ({[node_key_bytes (child k q) := encode_node (Leaf (bucket r q L))]} ∪ F) t w f ->
  upd (if (qd_bucket_size t <? length (bucket r q L))%nat && (nk_depth k + 1 <? MAX_DEPTH) then quad_split fuel t (child k q) (child_rect r q) else mret t) w f
    (stored b c l (sub c n (child k q) (child_rect r q) (bucket r q L) ∪ F)).
Proof.
  intros IH Hk Hq HL Hf HF Ht. destruct (_ && _) eqn:E.
  - apply IH; [by apply level_child|by apply points_filter|by apply fits_filter|done..].
  - apply upd_ret. rewrite sub_leaf; [done|]. rewrite (proj1 (proj2 Ht)) in E. apply andb_false_iff in E as [E|E].
    + right. by apply Nat.ltb_ge in E.
    + left. apply Z.ltb_ge in E. destruct Hk as (Hd & _). lia.
Qed.

Definition good (k : NodeKey) (g : Z -> kmap) : Prop := forall q key, quadrant q -> is_Some (g q !! key) -> under (child k q) key.

Definition leaf_map (k : NodeKey) (L : list Entry) : kmap := {[node_key_bytes k := encode_node (Leaf L)]}.

Lemma good_leaf n k q L g : level (S n) k -> quadrant q -> good k g -> good k (fset q (leaf_map (child k q) L) g).
Proof. intros Hk Hq Hg. exact (fset_under k g Hg q _ (leaf_under n _ _ (level_child n k q Hk Hq))). Qed.

Lemma good_sub n k r q L g : level (S n) k -> quadrant q -> good k g -> good k (fset q (sub c n (child k q) (child_rect r q) L) g).
Proof. intros Hk Hq Hg. exact (fset_under k g Hg q _ (sub_under c n _ _ _ (level_child n k q Hk Hq))). Qed.

Lemma upd_put_child n l k g F q L t w f : level (S n) k -> good k g -> quadrant q -> g q = ∅ -> Forall entry_ok L -> fits L ->
  stored b c l (framed k g F) t w f -> upd (put_leaf t (child k q) L) w f (stored b c l (framed k (fset q (leaf_map (child k q) L) g) F)).
Proof.
  intros Hk Hg Hq E Ho Hf Ht. eapply upd_weaken; [|by apply upd_put_leaf]. intros t' w' f' _ H. cbv beta in H.
  rewrite (framed_focus n k g F Hk Hg q Hq), E, (left_id_L ∅ (∪)), insert_union_singleton_l in H.
  rewrite <- (framed_set n k g F Hk Hg q); [done..|]. by apply (leaf_under n), level_child.
Qed.

Lemma upd_again_child fuel n k r L F l q g t w f :
  (forall L' k' r' F' t' w' f', level n k' -> points L' -> fits L' -> outside k' F' ->
    stored b c l (leaf_map k' L' ∪ F') t' w' f' ->
    upd (quad_split fuel t' k' r') w' f' (stored b c l (sub c n k' r' L' ∪ F'))) ->
  level (S n) k -> good k g -> outside k F -> quadrant q -> points L -> fits L -> g q = leaf_map (child k q) (bucket r q L) ->
  stored b c l (framed k g F) t w f ->
  upd (if (qd_bucket_size t <? length (bucket r q L))%nat && (nk_depth k + 1 <? MAX_DEPTH) then quad_split fuel t (child k q) (child_rect r q) else mret t) w f
    (stored b c l (framed k (fset q (sub c n (child k q) (child_rect r q) (bucket r q L)) g) F)).
Proof.
  intros IH Hk Hg HF Hq HL Hf E Ht. rewrite (framed_focus n k g F Hk Hg q Hq), E in Ht.
  eapply upd_weaken; [|eapply upd_again; [exact IH|done..| |exact Ht]; by apply (outside_beside n)].
  intros t' w' f' _ H. rewrite <- (framed_set n k g F Hk Hg q); [done..|]. by apply sub_under, level_child.
Qed.

Lemma fset_eq q m g : fset q m g q = m.
Proof. unfold fset. by rewrite Z.eqb_refl. Qed.
Lemma fset_ne q m g j : j <> q -> fset q m g j = g j.
Proof. intros Hne. unfold fset. by destruct (Z.eqb_spec j q). Qed.

Ltac rooms Ha := repeat (first [apply Ha | apply room_put | apply room_bind; [first [apply Ha | apply room_put]|]] || intros ?).

Lemma upd_split l fuel : forall n k r L F t w f, (n < fuel)%nat -> level n k -> points L -> fits L -> outside k F ->
  stored b c l (leaf_map k L ∪ F) t w f -> upd (quad_split fuel t k r) w f (stored b c l (sub c n k r L ∪ F)).
Proof.
  induction fuel as [|fuel IH]; intros n k r L F t w f Hfuel Hk HL Hf HF Ht; [lia|].
  apply upd_ok. intros Hok. eapply upd_at; [intros sup; cbn [quad_split fst]; reflexivity|].
  eapply upd_lift. { eapply (node_spec l _ t w f k (Leaf L) Hok Ht); [|apply HL]. unfold leaf_map. by rewrite lookup_union_l', lookup_singleton_eq by by eexists; apply lookup_singleton_eq. }
  cbv beta iota. rewrite (proj1 (proj2 Ht)). destruct (_ || _) eqn:E.
  { apply upd_ret. rewrite sub_leaf; [done|]. apply orb_true_iff in E as [E|E]; [right; by apply Nat.leb_le|left]. apply Z.leb_le in E. destruct Hk as (Hd & _). lia. }
  apply orb_false_iff in E as [E1 E2]. apply Nat.leb_gt in E1. apply Z.leb_gt in E2. destruct n as [|n]; [destruct Hk as (Hd & _); lia|].
  assert (forall q, Forall entry_ok (bucket r q L) /\ fits (bucket r q L)) as Hq by (intros q; split; [apply bucket_ok, HL|by apply fits_filter]).
  assert (forall q t', keeps_room (if (qd_bucket_size t' <? length (bucket r q L))%nat && (nk_depth k + 1 <? MAX_DEPTH) then quad_split fuel t' (child k q) (child_rect r q) else mret t')) as Ha by (intros q t'; destruct (_ && _); auto with room).
  pose proof (fun q => good_leaf n k q (bucket r q L)) as Gl. pose proof (fun q => good_sub n k r q (bucket r q L)) as Gs.
  pose proof (fun L' k' r' F' t' w' f' => IH n k' r' L' F' t' w' f' ltac:(lia)) as IHn.
  assert (good k (fun _ => ∅)) as G0 by (intros q key _ [? [=]]).
  pose (lf q := leaf_map (child k q) (bucket r q L)). pose (sb q := sub c n (child k q) (child_rect r q) (bucket r q L)).
  pose (g1 := fset 0 (lf 0) (fun _ => ∅)). pose (g2 := fset 1 (lf 1) g1). pose (g3 := fset 2 (lf 2) g2). pose (g4 := fset 3 (lf 3) g3).
  pose (g5 := fset 3 (sb 3) g4). pose (g6 := fset 2 (sb 2) g5). pose (g7 := fset 1 (sb 1) g6). pose (g8 := fset 0 (sb 0) g7).
  assert (good k g1) as G1 by (by apply Gl). assert (good k g2) as G2 by (by apply Gl). assert (good k g3) as G3 by (by apply Gl). assert (good k g4) as G4 by (by apply Gl).
  assert (good k g5) as G5 by (by apply Gs). assert (good k g6) as G6 by (by apply Gs). assert (good k g7) as G7 by (by apply Gs).
  eapply upd_bind; [by eapply upd_put|rooms Ha|]. intros t1 w1 f1 _ H1. cbv beta in H1. unfold leaf_map in H1. rewrite framed_empty in H1.
  eapply upd_bind; [eapply (upd_put_child n l k _ F 0 _ t1 w1 f1 Hk G0); [done|done|apply Hq|apply Hq|exact H1]|rooms Ha|]. intros t2 w2 f2 _ H2.
  eapply upd_bind; [eapply (upd_put_child n l k g1 F 1 _ t2 w2 f2 Hk G1); [done|done|apply Hq|apply Hq|exact H2]|rooms Ha|]. intros t3 w3 f3 _ H3.
  eapply upd_bind; [eapply (upd_put_child n l k g2 F 2 _ t3 w3 f3 Hk G2); [done|done|apply Hq|apply Hq|exact H3]|rooms Ha|]. intros t4 w4 f4 _ H4.
  eapply upd_bind; [eapply (upd_put_child n l k g3 F 3 _ t4 w4 f4 Hk G3); [done|done|apply Hq|apply Hq|exact H4]|rooms Ha|]. intros t5 w5 f5 _ H5.
  cbv zeta. eapply upd_bind; [eapply (upd_again_child fuel n k r L F l 3 g4 t5 w5 f5 IHn Hk G4 HF); done|rooms Ha|]. intros t6 w6 f6 _ H6.
  eapply upd_bind; [eapply (upd_again_child fuel n k r L F l 2 g5 t6 w6 f6 IHn Hk G5 HF); done|rooms Ha|]. intros t7 w7 f7 _ H7.
  eapply upd_bind; [eapply (upd_again_child fuel n k r L F l 1 g6 t7 w7 f7 IHn Hk G6 HF); done|rooms Ha|]. intros t8 w8 f8 _ H8.
  eapply upd_weaken; [|eapply (upd_again_child fuel n k r L F l 0 g7 t8 w8 f8 IHn Hk G7 HF); done].
  intros t9 w9 f9 _ H9. cbv beta in H9. rewrite sub_node by done. fold (framed k (fun q => sub c n (child k q) (child_rect r q) (bucket r q L)) F).
  rewrite (framed_ext k (fun q => sub c n (child k q) (child_rect r q) (bucket r q L)) g8); [exact H9|]. intros q Hqq. by destruct (quadrant_cases q Hqq) as [->|[->|[->| ->]]].
Qed.

(** ** Scans of a subtree *)

Definition dec_key (raw : list Z) : NodeKey := match decode_node_key raw with Ok k => k | Err _ => ROOT end.
Definition dec_node (v : list Z) : Node := match decode_node v with Ok nd => nd | Err _ => Internal end.

Lemma value_entries_dec v : value_entries v = leaf_entries (dec_node v).
Proof. unfold value_entries, dec_node. by destruct (decode_node v). Qed.

Lemma node_at_decodes key v : node_at key v -> decode_node_key key = Ok (dec_key key) /\ decode_node v = Ok (dec_node v) /\ node_key_bytes (dec_key key) = key /\ node_ok (dec_node v) /\ encode_node (dec_node v) = v.
Proof. intros (n & k & nd & Hk & Hnd & -> & ->). unfold dec_key, dec_node. by rewrite (decode_node_key_encoded n k Hk), decode_encode_node. Qed.

Section scans.
Context (n : nat) (k : NodeKey) (r : Rect) (L : list Entry) (S F : kmap).
Context (HS : tree_of n k r L S) (Hk : level n k) (HL : Forall entry_ok L) (HF : outside k F).

Lemma scan_subtree : filter (scan_keeps (node_key_bytes k) (Some (subtree_end_bytes k))) (btree_entries (S ∪ F)) = btree_entries S.
Proof using HS Hk HF.
  apply btree_entries_unique.
  - assert (forall l : list kv, StronglySorted entry_lt l -> StronglySorted entry_lt (filter (scan_keeps (node_key_bytes k) (Some (subtree_end_bytes k))) l)) as Hs; [|apply Hs, btree_entries_sorted].
    induction 1 as [|p l _ IH Hp]; [constructor|]. rewrite filter_cons. destruct (decide _); [|done]. constructor; [done|]. rewrite Forall_forall in *. intros p' [_ Hp']%list_elem_of_filter. by apply Hp.
  - intros key v. rewrite list_elem_of_filter, elem_of_btree_entries. split.
    + intros [Hu Hv]. apply lookup_union_Some_raw in Hv as [?|[_ Hv]]; [done|]. by rewrite (HF key Hu) in Hv.
    + intros Hv. split; [|by apply lookup_union_Some_raw; left]. eapply tree_of_under; eauto.
Qed.

Lemma entries_node_at : Forall (fun p => node_at p.1 p.2) (btree_entries S).
Proof using HS Hk HL. apply Forall_forall. intros [key v] Hin%elem_of_btree_entries. by eapply (tree_nodes n k r L S HS Hk HL). Qed.

Lemma entries_leaves : flat_map (fun p => leaf_entries (dec_node p.2)) (btree_entries S) ≡ₚ L.
Proof using HS Hk HL.
  rewrite <- (tree_leaves n k r L S HS Hk HL) at 1. unfold leaves. rewrite (flat_map_perm _ _ _ (btree_entries_perm S)).
  erewrite flat_map_ext; [done|]. intros p. symmetry. apply value_entries_dec.
Qed.
End scans.

Lemma subtree_spec l n k r L S F t w f : tree_of n k r L S -> level n k -> Forall entry_ok L -> outside k F -> kt_ok w ->
  stored b c l (S ∪ F) t w f -> subtree w t k = Ok (map (fun p => (dec_key p.1, dec_node p.2)) (btree_entries S)).
Proof.
  intros HS Hk HL HF Hok (_ & _ & _ & Ht). unfold subtree. rewrite (kt_entries_spec _ _ _ _ _ _ Hok Ht), (scan_subtree n k r L S F HS Hk HF). cbn [map_err mbind result_bind].
  rewrite <- (map_id (btree_entries S)) at 1. apply collect_map. eapply Forall_impl; [exact (entries_node_at n k r L S HS Hk HL)|]. intros [key v] (E1 & E2 & _)%node_at_decodes. cbn [fst snd id] in *. by rewrite E2; cbn [mbind result_bind]; rewrite E1.
Qed.

Lemma within_cap_spec cap es : Forall (fun p => node_at p.1 p.2) es -> forall total, (total <= cap)%nat ->
  within_cap cap total es = Ok (total + length (flat_map (fun p => leaf_entries (dec_node p.2)) es) <=? cap)%nat.
Proof.
  induction 1 as [|[key v] es (E1 & E2 & _)%node_at_decodes _ IH]; intros total Ht; cbn [within_cap flat_map fst snd length] in *.
  - by rewrite Nat.add_0_r, (proj2 (Nat.leb_le _ _) Ht).
  - rewrite E2. cbn [mbind result_bind]. rewrite E1. cbn [mbind result_bind]. rewrite length_app. destruct (dec_node v) as [ls|]; cbn [is_leaf leaf_entries andb length].
    + destruct (Nat.ltb_spec cap (total + length ls)) as [Hlt|Hge].
      * f_equal. symmetry. apply Nat.leb_gt. lia.
      * rewrite IH by done. do 2 f_equal. lia.
    + rewrite IH by lia. do 2 f_equal. lia.
Qed.

Lemma subtree_len_spec l n k r L S F t w f : tree_of n k r L S -> level n k -> Forall entry_ok L -> outside k F -> kt_ok w ->
  stored b c l (S ∪ F) t w f -> subtree_len_at_most w t k c = Ok (length L <=? c)%nat.
Proof.
  intros HS Hk HL HF Hok (_ & _ & _ & Ht). unfold subtree_len_at_most. rewrite (kt_entries_spec _ _ _ _ _ _ Hok Ht), (scan_subtree n k r L S F HS Hk HF). cbn [map_err mbind result_bind].
  rewrite within_cap_spec; [|exact (entries_node_at n k r L S HS Hk HL)|lia]. by rewrite (Permutation_length (entries_leaves n k r L S HS Hk HL)).
Qed.

(** ** Collapse *)

Lemma upd_take l M t w f k nd : stored b c l M t w f -> M !! node_key_bytes k = Some (encode_node nd) -> node_ok nd ->
  upd (take_node t k) w f (stored b c l (delete (node_key_bytes k) M)).
Proof.
  intros Ht HM Hnd. apply upd_ok. intros Hok. read_pages @take_node. eapply upd_lift; [by eapply node_spec|]. destruct Ht as (Hb & Hc & Hl & Ht).
  eapply upd_bind; [by apply upd_tree_delete|intros []; auto with room|]. intros [found s'] w' f' _ Hs. by apply upd_ret.
Qed.

Definition drop_keys (l : list kv) (M : kmap) : kmap := fold_left (fun M p => delete p.1 M) l M.

Lemma drop_keys_lookup l : forall M key, drop_keys l M !! key = if decide (key ∈ l.*1) then None else M !! key.
Proof.
  induction l as [|[k v] l IH]; intros M key; [by rewrite decide_False by (intros H; by inversion H)|]. cbn [drop_keys fold_left fst]. fold (drop_keys l (delete k M)). rewrite IH.
  destruct (decide (key ∈ l.*1)); [by rewrite decide_True by by right|]. destruct (decide (key = k)) as [->|Hne].
  - by rewrite decide_True, lookup_delete_eq by left.
  - rewrite lookup_delete_ne by congruence. rewrite decide_False; [done|]. cbn [fmap list_fmap fst]. by intros [?|?]%elem_of_cons.
Qed.

Lemma upd_takes l es : forall M t w f, stored b c l M t w f -> NoDup es.*1 -> Forall (fun p => node_at p.1 p.2 /\ M !! p.1 = Some p.2) es ->
  upd (take_nodes t (map (fun p => dec_key p.1) es)) w f (stored b c l (drop_keys es M)).
Proof.
  induction es as [|[key v] es IH]; intros M t w f Ht Hnd Hes; [by apply upd_ret|]. apply NoDup_cons in Hnd as [Hn Hnd]. apply Forall_cons in Hes as [[Hat HM] Hes].
  cbn [fst snd] in *. pose proof (node_at_decodes key v Hat) as (_ & _ & Ek & Hok & Ev). cbn [map take_nodes fst].
  eapply upd_bind; [eapply (upd_take l M t w f (dec_key key) (dec_node v)); [done|by rewrite Ek, Ev|done]|auto with room|].
  intros t' w' f' _ H. cbv beta in H. rewrite Ek in H. apply (IH _ _ _ _ H Hnd). rewrite Forall_forall in *. intros p Hp. destruct (Hes p Hp) as [? ?]. split; [done|].
  rewrite lookup_delete_ne; [done|]. intros ->. apply Hn. by apply list_elem_of_fmap_2.
Qed.

Lemma room_collapse t k : keeps_room (collapse t k).
Proof. read_room @collapse. apply room_bind; [auto with room|]. intros nodes. apply room_bind; auto with room. Qed.

Lemma upd_collapse l n k r L S F t w f : tree_of n k r L S -> level n k -> points L -> fits L -> outside k F ->
  stored b c l (S ∪ F) t w f -> upd (collapse t k) w f (stored b c l (leaf_map k L ∪ F)).
Proof.
  intros HS Hk HL Hf HF Ht. apply upd_ok. intros Hok. read_pages @collapse. eapply upd_lift; [exact (subtree_spec l n k r L S F t w f HS Hk (proj2 HL) HF Hok Ht)|].
  rewrite flat_map_concat_map, map_map, <- flat_map_concat_map. rewrite (sort_points L) by (done || apply (entries_leaves n k r L S HS Hk (proj2 HL))).
  rewrite <- list_fmap_compose. change ((fst ∘ (fun p : kv => (dec_key p.1, dec_node p.2))) <$> btree_entries S) with (map (fun p : kv => dec_key p.1) (btree_entries S)).
  eapply upd_bind; [eapply upd_takes; [exact Ht|apply btree_keys_NoDup|]|auto with room|].
  { rewrite Forall_forall. intros p Hp. pose proof (entries_node_at n k r L S HS Hk (proj2 HL)) as Hat. rewrite Forall_forall in Hat. split; [by apply Hat|]. destruct p as [key v]. apply elem_of_btree_entries in Hp. by apply lookup_union_Some_raw; left. }
  intros t' w' f' _ H. cbv beta in H. assert (drop_keys (btree_entries S) (S ∪ F) = F) as E.
  { apply map_eq. intros key. rewrite drop_keys_lookup. destruct (decide (key ∈ (btree_entries S).*1)) as [Hin|Hn].
    - apply elem_of_btree_keys in Hin. symmetry. apply HF. by eapply tree_of_under.
    - apply lookup_union_r. destruct (S !! key) eqn:Es; [|done]. exfalso. apply Hn, elem_of_btree_keys. by eexists. }
  rewrite E in H. eapply upd_weaken; [|eapply upd_put_leaf; [exact H|apply HL|done]]. intros t2 w2 f2 _ H2. cbv beta in H2. unfold leaf_map. by rewrite <- insert_union_singleton_l.
Qed.

(** ** Collapsing the path of a removal *)

(** A tree whose nodes off the path [ks] are canonical. *)
Inductive spine : list NodeKey -> nat -> NodeKey -> Rect -> list Entry -> kmap -> Prop :=
  | spine_leaf n k r L : small c n L -> spine [] n k r L (leaf_map k L)
  | spine_node ks n k r L q g : quadrant q ->
      spine ks n (child k q) (child_rect r q) (bucket r q L) (g q) ->
      (forall j, quadrant j -> j <> q -> g j = sub c n (child k j) (child_rect r j) (bucket r j L)) ->
      spine (k :: ks) (S n) k r L (<[node_key_bytes k := encode_node Internal]> (kids g)).

Lemma spine_tree ks n k r L S : spine ks n k r L S -> tree_of n k r L S.
Proof.
  induction 1 as [n k r L Hs|ks n k r L q g Hq _ IH Hj]; constructor. intros j Hjq. destruct (decide (j = q)) as [->|Hne]; [done|]. rewrite Hj by done. apply sub_tree.
Qed.

Lemma room_collapse_first ks : forall t, keeps_room (collapse_first t ks).
Proof.
  induction ks as [|k ks IH]; intros t; [by intros s|]. apply room_at. intros s. eexists. split; [cbn [collapse_first]; reflexivity|].
  apply room_bind; [auto with room|]. intros [|]; [apply room_collapse|apply IH].
Qed.

Lemma upd_collapse_first l ks n k r L S : spine ks n k r L S -> forall F t w f, level n k -> points L -> fits L -> outside k F ->
  stored b c l (S ∪ F) t w f -> upd (collapse_first t ks) w f (stored b c l (sub c n k r L ∪ F)).
Proof.
  induction 1 as [n k r L Hs|ks n k r L q g Hq Hsp IH Hj]; intros F t w f Hk HL Hf HF Ht.
  { rewrite sub_leaf by done. by apply (upd_ret t). }
  pose proof (spine_tree _ _ _ _ _ _ (spine_node ks n k r L q g Hq Hsp Hj)) as Htree.
  apply upd_ok. intros Hok. eapply upd_at; [intros sup; cbn [collapse_first fst]; reflexivity|]. rewrite (proj1 (proj2 Ht)).
  eapply upd_lift; [exact (subtree_len_spec l (S n) k r L _ F t w f Htree Hk (proj2 HL) HF Hok Ht)|]. destruct (Nat.leb_spec (length L) c) as [Hle|Hgt].
  - rewrite (sub_leaf c (S n) k r L) by by right. by eapply upd_collapse.
  - assert (good k g) as Hg.
    { intros j key Hjq. eapply tree_of_under; [|by apply level_child]. destruct (decide (j = q)) as [->|Hne]; [by eapply spine_tree|]. rewrite Hj by done. apply sub_tree. }
    change (stored b c l (framed k g F) t w f) in Ht. rewrite (framed_focus n k g F Hk Hg q Hq) in Ht.
    eapply upd_weaken; [|eapply (IH (beside k q g ∪ F)); [by apply level_child|by apply points_filter|by apply fits_filter|by apply (outside_beside n)|exact Ht]].
    intros t' w' f' _ H. cbv beta in H. rewrite (framed_set n k g F Hk Hg q) in H; [|done|by apply sub_under, level_child]. rewrite sub_node by done.
    rewrite (framed_ext k _ (fun j => sub c n (child k j) (child_rect r j) (bucket r j L))) in H; [exact H|]. intros j Hjq. destruct (decide (j = q)) as [->|Hne]; [by rewrite fset_eq|]. by rewrite fset_ne, Hj.
Qed.

Context (e : Entry) (He : entry_ok e).

Lemma bucket_in r L : e ∈ bucket r (quadrant_of r (en_x e) (en_y e)) L <-> e ∈ L.
Proof. unfold bucket. rewrite elem_of_kept, Z.eqb_refl. naive_solver. Qed.

Lemma bucket_ins r L q : points L -> bucket r q (ins e L) = if quadrant_of r (en_x e) (en_y e) =? q then ins e (bucket r q L) else bucket r q L.
Proof using He. intros HL. unfold bucket. by rewrite filter_ins. Qed.

Lemma sub_bucket n k r L F : level (S n) k -> (c < length L)%nat -> forall q, quadrant q ->
  let g j := sub c n (child k j) (child_rect r j) (bucket r j L) in
  sub c (S n) k r L ∪ F = sub c n (child k q) (child_rect r q) (bucket r q L) ∪ (beside k q g ∪ F).
Proof. intros Hk HL q Hq g. rewrite sub_node by done. exact (framed_focus n k g F Hk (sub_kids c n k r L Hk) q Hq). Qed.

(** Replacing one subtree by the tree of a changed bucket. *)
Lemma sub_rebuild n k r L L' q F : level (S n) k -> quadrant q -> (c < length L')%nat -> (forall j, quadrant j -> j <> q -> bucket r j L' = bucket r j L) ->
  let g j := sub c n (child k j) (child_rect r j) (bucket r j L) in
  sub c n (child k q) (child_rect r q) (bucket r q L') ∪ (beside k q g ∪ F) = sub c (S n) k r L' ∪ F.
Proof.
  intros Hk Hq HL Hj g. rewrite (framed_set n k g F Hk (sub_kids c n k r L Hk) q _ Hq); [|by apply sub_under, level_child].
  rewrite sub_node by done. apply framed_ext. intros j Hjq. destruct (decide (j = q)) as [->|Hne]; [by rewrite fset_eq|].
  rewrite fset_ne by done. unfold g. by rewrite Hj.
Qed.

Lemma sub_lookup n k r L F : outside k F -> level n k -> (sub c n k r L ∪ F) !! node_key_bytes k =
  Some (encode_node (if decide (small c n L) then Leaf L else Internal)).
Proof.
  intros HF Hk. rewrite lookup_union_l by (apply HF; by apply (under_self n)). destruct (decide (small c n L)) as [Hs|Hs].
  - by rewrite sub_leaf, lookup_singleton_eq.
  - destruct (small_cases c n L) as [|(m & -> & HL)]; [done|]. by rewrite sub_node, lookup_insert_eq.
Qed.

Lemma room_insert_at fuel : forall t k r x y pk, keeps_room (insert_at fuel t k r x y pk).
Proof.
  induction fuel as [|fuel IH]; intros t k r x y pk; [by intros s|]. apply room_at. intros s. eexists. split; [cbn [insert_at]; reflexivity|].
  apply room_bind; [auto with room|]. intros nd. destruct (default (Leaf []) nd) as [es|]; [|apply IH]. destruct (bucket_find es x y pk) as [pos [|]]; [auto with room|].
  apply room_bind; [auto with room|]. intros t'. destruct (_ && _); [apply room_bind|]; auto with room.
Qed.

Lemma stored_len l l' M t w f : stored b c l M t w f -> l' = l -> forall d, stored b c (l' + d) M (with_len t (qd_len t + d)) w f.
Proof. intros (? & ? & ? & ?) -> d. repeat split; try done. simpl. congruence. Qed.

(** What an insertion leaves: the flag, the count and the canonical tree. *)
Definition inserted (l : Z) (L : list Entry) (M : kmap) (res : bool * QuadTree T) w f : Prop :=
  res.1 = bool_decide (e ∉ L) /\ stored b c (if bool_decide (e ∈ L) then l else l + 1) M res.2 w f.

Lemma upd_insert_at l : forall n fuel k r L F t w f, (n < fuel)%nat -> level n k -> points L -> fits (e :: L) -> outside k F ->
  stored b c l (sub c n k r L ∪ F) t w f ->
  upd (insert_at fuel t k r (en_x e) (en_y e) (en_pk e)) w f (inserted l L (sub c n k r (ins e L) ∪ F)).
Proof using He KL.
  induction n as [n IH] using lt_wf_ind. intros fuel k r L F t w f Hfuel Hk HL Hf HF Ht. destruct fuel as [|fuel]; [lia|].
  apply upd_ok. intros Hok. eapply upd_at; [intros sup; cbn [insert_at fst]; reflexivity|].
  eapply upd_lift. { eapply (node_spec l _ t w f k _ Hok Ht); [by apply sub_lookup|]. destruct (decide _); [apply HL|apply Forall_nil_2]. }
  cbn [default option.from_option id]. destruct (decide (small c n L)) as [Hs|Hs]; cbv beta iota zeta.
  - clear IH. pose proof (probe_spec e L He HL) as Hp. change (bucket_find L (en_x e) (en_y e) (en_pk e)) with (probe e L). destruct (probe e L) as [pos hit] eqn:Ep. destruct Hp as [Hp _]. destruct hit.
    { assert (e ∈ L) as Hin by (by apply Hp). apply upd_ret. unfold inserted. rewrite ins_present by done. by rewrite (bool_decide_true (e ∈ L)), (bool_decide_false (e ∉ L)) by (try done; intros Hn; by apply Hn). }
    assert (e ∉ L) as Hn by (intros ?%Hp; done). unfold inserted. rewrite (bool_decide_false (e ∈ L)), (bool_decide_true (e ∉ L)) by done.
    assert ({| en_x := en_x e; en_y := en_y e; en_pk := en_pk e |} = e) as -> by (by destruct e). rewrite (probe_ins e L pos Ep).
    assert (length (ins e L) = S (length L)) as El by (by rewrite length_ins, bool_decide_false). assert (fits (ins e L)) as Hf' by (unfold fits in *; rewrite El; exact Hf).
    pose proof (points_insert e L He HL) as HL'. rewrite (sub_leaf c n k r L Hs) in Ht.
    eapply upd_bind; [by eapply upd_put_leaf; [exact Ht|apply HL'|]|intros t'; destruct (_ && _); [apply room_bind|]; auto with room|].
    intros t' w' f' _ H. cbv beta in H. rewrite insert_union_l, insert_singleton_eq in H. cbv zeta. pose proof (stored_len _ _ _ _ _ _ H eq_refl 1) as H'.
    rewrite (proj1 (proj2 H')). destruct (_ && _) eqn:E.
    + eapply upd_bind; [eapply (upd_split (l + 1) DEPTH_FUEL n); [|exact Hk|exact HL'|exact Hf'|exact HF|exact H']; destruct Hk as (Hd & Hd0 & _); unfold DEPTH_FUEL, MAX_DEPTH in *; lia|auto with room|].
      intros t2 w2 f2 _ H2. by apply upd_ret.
    + apply upd_ret. split; [done|]. rewrite sub_leaf; [exact H'|]. apply andb_false_iff in E as [E|E]; [right; by apply Nat.ltb_ge in E|left]. apply Z.ltb_ge in E. destruct Hk as (Hd & _). unfold MAX_DEPTH in *. lia.
  - destruct (small_cases c n L) as [|(m & -> & Hlen)]; [done|]. set (q := quadrant_of r (en_x e) (en_y e)). pose proof (quadrant_of_ok r (en_x e) (en_y e)) as Hq. fold q in Hq.
    rewrite (sub_bucket m k r L F Hk Hlen q Hq) in Ht. assert (length L <= length (ins e L))%nat as Hle by (rewrite length_ins by done; case_bool_decide; lia).
    eapply upd_weaken; [|eapply (IH m ltac:(lia) fuel (child k q) (child_rect r q) (bucket r q L)); [lia|by apply level_child|by apply points_filter| | |exact Ht]].
    + intros res w' f' _ [E1 E2]. unfold inserted. rewrite (bool_decide_ext _ _ (not_iff_compat (bucket_in r L))) in E1. split; [done|].
      rewrite (bool_decide_ext _ _ (bucket_in r L)) in E2. rewrite <- (sub_rebuild m k r L (ins e L) q F Hk Hq); [|lia|].
      * rewrite bucket_ins by done. fold q. by rewrite Z.eqb_refl.
      * intros j Hj Hjq. rewrite bucket_ins by done. fold q. by destruct (Z.eqb_spec q j).
    + unfold fits in *. cbn [length] in *. pose proof (length_filter_le (fun e => quadrant_of r (en_x e) (en_y e) =? q) L). unfold bucket. lia.
    + apply (outside_beside m); [done| |done..]. by apply sub_kids.
Qed.

Lemma bucket_del r L q : bucket r q (del e L) = del e (bucket r q L).
Proof. apply filter_filter_comm. Qed.

Lemma bucket_not_in r L j : j <> quadrant_of r (en_x e) (en_y e) -> e ∉ bucket r j L.
Proof. intros Hne. unfold bucket. rewrite elem_of_kept, Z.eqb_eq. intros [_ ?]. congruence. Qed.

Definition remove_tail (kl : NodeKey) (Lf : list Entry) (ks : list NodeKey) t : QM (bool * QuadTree T) :=
  put_node t kl (Leaf Lf) ≫= fun t => collapse_first (with_len t (qd_len t - 1)) ks ≫= fun t => mret (true, t).

Lemma remove_at_step fuel t k r x y pk anc w sup nd : node w t k = Ok (Some nd) -> remove_at (S fuel) t k r x y pk anc (w, sup) =
  match nd with
  | Internal => let q := quadrant_of r x y in remove_at fuel t (child k q) (child_rect r q) x y pk (anc ++ [k]) (w, sup)
  | Leaf es =>
      let '(pos, hit) := bucket_find es x y pk in
      if hit then remove_tail k (firstn pos es ++ skipn (S pos) es) anc t (w, sup) else (Ok (false, t), (w, sup))
  end.
Proof.
  intros En. cbn [remove_at fst]. rewrite En. unfold mbind at 1, sm_bind at 1, sm_lift. destruct nd as [es|]; [|done]. by destruct (bucket_find es x y pk) as [pos [|]].
Qed.

(** The descent of a removal reads only; what is left is one write and the collapse. *)
Lemma remove_descent l : forall n fuel k r L F t w f, (n < fuel)%nat -> level n k -> points L -> fits L -> outside k F -> kt_ok w ->
  stored b c l (sub c n k r L ∪ F) t w f ->
  if decide (e ∈ L) then exists kl Lf ks S, Forall entry_ok Lf /\ fits Lf /\ spine ks n k r (del e L) S /\
    <[node_key_bytes kl := encode_node (Leaf Lf)]> (sub c n k r L ∪ F) = S ∪ F /\
    forall sup anc, remove_at fuel t k r (en_x e) (en_y e) (en_pk e) anc (w, sup) = remove_tail kl Lf (anc ++ ks) t (w, sup)
  else forall sup anc, remove_at fuel t k r (en_x e) (en_y e) (en_pk e) anc (w, sup) = (Ok (false, t), (w, sup)).
Proof using He KL.
  induction n as [n IH] using lt_wf_ind. intros fuel k r L F t w f Hfuel Hk HL Hf HF Hok Ht. destruct fuel as [|fuel]; [lia|].
  assert (node w t k = Ok (Some (if decide (small c n L) then Leaf L else Internal))) as En.
  { eapply (node_spec l _ t w f k _ Hok Ht); [by apply sub_lookup|]. destruct (decide _); [apply HL|apply Forall_nil_2]. }
  pose proof (fun sup anc => remove_at_step fuel t k r (en_x e) (en_y e) (en_pk e) anc w sup _ En) as Est. clear En. destruct (decide (small c n L)) as [Hs|Hs]; cbv beta iota zeta in Est.
  - clear IH. pose proof (probe_spec e L He HL) as Hp. change (bucket_find L (en_x e) (en_y e) (en_pk e)) with (probe e L) in Est. destruct (probe e L) as [pos hit]. destruct Hp as [Hp1 Hp2]. destruct hit.
    + rewrite decide_True by (by apply Hp1). exists k, (del e L), [], (leaf_map k (del e L)). rewrite Hp2 in Est by done. pose proof (points_filter (fun a => negb (bool_decide (a = e))) L HL) as HL'.
      split; [apply HL'|]. split; [by apply fits_filter|]. split.
      { constructor. destruct Hs as [?|Hs]; [by left|right]. pose proof (length_filter_le (fun a => negb (bool_decide (a = e))) L). unfold del. lia. }
      split; [by rewrite sub_leaf, insert_union_l, insert_singleton_eq|]. intros sup anc. by rewrite app_nil_r.
    + by rewrite decide_False by (by intros ?%Hp1).
  - destruct (small_cases c n L) as [|(m & -> & Hlen)]; [done|]. set (q := quadrant_of r (en_x e) (en_y e)). pose proof (quadrant_of_ok r (en_x e) (en_y e)) as Hq. fold q in Hq.
    pose proof (sub_bucket m k r L F Hk Hlen q Hq) as Eb. cbv zeta in Eb. set (g j := sub c m (child k j) (child_rect r j) (bucket r j L)) in Eb. rewrite Eb in Ht.
    assert (good k g) as Hg by exact (sub_kids c m k r L Hk).
    specialize (IH m ltac:(lia) fuel (child k q) (child_rect r q) (bucket r q L) (beside k q g ∪ F) t w f ltac:(lia) (level_child m k q Hk Hq) (points_filter _ L HL) (fits_filter _ L Hf) (outside_beside m k g F Hk Hg HF q Hq) Hok Ht).
    destruct (decide (e ∈ bucket r q L)) as [Hin|Hn].
    + rewrite decide_True by (by apply (bucket_in r L)). destruct IH as (kl & Lf & ks & S & HLf & Hfl & Hsp & EM & Er). rewrite <- bucket_del in Hsp.
      exists kl, Lf, (k :: ks), (<[node_key_bytes k := encode_node Internal]> (kids (fset q S g))). split; [done|]. split; [done|]. split.
      { constructor 2 with q; [done|by rewrite fset_eq|]. intros j Hj Hne. rewrite fset_ne by done. unfold g. by rewrite bucket_del, del_absent by (apply bucket_not_in; fold q; congruence). }
      split.
      { rewrite Eb, EM. rewrite (framed_set m k g F Hk Hg q); [done..|]. eapply tree_of_under; [by eapply spine_tree|by apply level_child]. }
      intros sup anc. rewrite Est. fold q. rewrite (Er sup (anc ++ [k])). by rewrite <- app_assoc.
    + rewrite decide_False by (intros ?%(bucket_in r L); done). intros sup anc. rewrite Est. apply IH.
Qed.

Definition removed (l : Z) (L : list Entry) (M : kmap) (res : bool * QuadTree T) w f : Prop :=
  res.1 = bool_decide (e ∈ L) /\ stored b c (if bool_decide (e ∈ L) then l - 1 else l) M res.2 w f.

Lemma upd_remove_at l n fuel k r L F t w f : (n < fuel)%nat -> level n k -> points L -> fits L -> outside k F ->
  stored b c l (sub c n k r L ∪ F) t w f ->
  upd (remove_at fuel t k r (en_x e) (en_y e) (en_pk e) []) w f (removed l L (sub c n k r (del e L) ∪ F)).
Proof using He KL.
  intros Hfuel Hk HL Hf HF Ht. apply upd_ok. intros Hok. pose proof (remove_descent l n fuel k r L F t w f Hfuel Hk HL Hf HF Hok Ht) as Hd. unfold removed.
  destruct (decide (e ∈ L)) as [Hin|Hn].
  - destruct Hd as (kl & Lf & ks & S & HLf & Hfl & Hsp & EM & Er). eapply upd_at; [intros sup; apply Er|]. unfold remove_tail.
    eapply upd_bind; [by eapply upd_put_leaf| |].
    { intros t'. apply room_bind; [apply room_collapse_first|auto with room]. }
    intros t' w' f' _ H. cbv beta in H. rewrite EM in H. eapply upd_bind; [eapply (upd_collapse_first (l - 1) ks n k r (del e L) S Hsp F); [done|by apply points_filter|by apply fits_filter|done|]| |].
    { exact (stored_len _ _ _ _ _ _ H eq_refl (- 1)). }
    { auto with room. }
    intros t2 w2 f2 _ H2. apply upd_ret. by rewrite bool_decide_true.
  - eapply (upd_at _ (mret (false, t))); [intros sup; apply Hd|]. apply upd_ret. by rewrite bool_decide_false, del_absent.
Qed.
End updates.

(** * The whole index *)

Definition inside (r : Rect) (e : Entry) : bool := contains_point r (en_x e) (en_y e).

(** The overflow bucket: keys without values. *)
Definition over (L : list Entry) : kmap := list_to_map (map (fun e => (overflow_key e, [])) L).

(** The tree and the overflow bucket of a list of points. *)
Definition canon (b : Rect) (c : nat) (E : list Entry) : kmap :=
  sub c 32 ROOT b (List.filter (inside b) E) ∪ over (List.filter (fun e => negb (inside b e)) E).

Lemma over_cons e L : over (e :: L) = <[overflow_key e := []]> (over L).
Proof. done. Qed.

Lemma over_lookup L key v : over L !! key = Some v <-> v = [] /\ exists e, e ∈ L /\ key = overflow_key e.
Proof.
  induction L as [|a L IH]; [split; [done|intros (_ & e & H & _); by inversion H]|]. rewrite over_cons. destruct (decide (key = overflow_key a)) as [->|Hne].
  - rewrite lookup_insert_eq. split; [intros [= <-]; split; [done|]; exists a; split; [left|done]|]. by intros [-> _].
  - rewrite lookup_insert_ne, IH by done. split; intros (-> & e & He & ->); (split; [done|]); exists e; (split; [|done]); [by right|]. apply elem_of_cons in He as [->|?]; done.
Qed.

Lemma over_outside L : outside ROOT (over L).
Proof.
  intros key Hu. apply eq_None_not_Some. intros [v (_ & e & _ & ->)%over_lookup]. by apply (overflow_not_under 32 ROOT _ level_root) in Hu.
Qed.

Lemma overflow_key_cmp a b : entry_ok a -> entry_ok b -> lex_compare (overflow_key a) (overflow_key b) = entry_cmp a b.
Proof.
  intros (Hx & Hy & _) (Hx' & Hy' & _). unfold overflow_key, overflow_key_bytes, f64_bytes. cbn [lex_compare]. rewrite Z.compare_refl. cbn [cmp_then].
  rewrite !(float_key_cmp 8) by (done || lia). done.
Qed.

Lemma overflow_key_inj a b : entry_ok a -> entry_ok b -> overflow_key a = overflow_key b -> a = b.
Proof. intros Ha Hb E. apply entry_cmp_eq; [done..|]. rewrite <- overflow_key_cmp, E by done. apply lex_compare_eq. done. Qed.

Lemma over_ins e L : entry_ok e -> points L -> <[overflow_key e := []]> (over L) = over (ins e L).
Proof.
  intros He HL. induction L as [|a L IH]; [done|]. apply points_cons in HL as (Ha & Hf & HL). cbn [ins]. destruct (entry_cmp a e) eqn:E.
  - apply entry_cmp_eq in E as ->; [|done..]. rewrite over_cons. by rewrite insert_insert_eq.
  - rewrite !over_cons, <- IH by done. apply insert_insert_ne. intros ?%overflow_key_inj; [|done..]. subst. by apply point_lt_ne in E.
  - done.
Qed.

Lemma over_del e L : entry_ok e -> Forall entry_ok L -> delete (overflow_key e) (over L) = over (del e L).
Proof.
  intros He HL. apply map_eq. intros key. apply option_eq. intros v. rewrite lookup_delete_Some, !over_lookup. unfold del. setoid_rewrite elem_of_kept. split.
  - intros (Hne & -> & a & Ha & ->). split; [done|]. exists a. split; [|done]. split; [done|]. rewrite bool_decide_false; [done|]. by intros ->.
  - intros (-> & a & [Ha Hae] & ->). split; [|split; [done|eauto]]. intros E%overflow_key_inj; [|done|by rewrite Forall_forall in HL; apply HL]. subst. by rewrite bool_decide_true in Hae.
Qed.

Lemma sub_not_over n k r L c key : level n k -> sub c n k r L !! (NS_OVERFLOW :: key) = None.
Proof. intros Hk. apply eq_None_not_Some. intros Hs. apply (sub_under c n k r L Hk) in Hs. by apply (overflow_not_under n k _ Hk) in Hs. Qed.

Section index.
Context {W T : Type} {KT : KvTree W T} {KL : KvTreeLaws W T}.
Notation QM := (SM (W * list Page) StoreError).
Implicit Types (t : QuadTree T) (w : W) (f : list Page).
Context (b : Rect) (c : nat).

(** The index holds the points [E], in the tree they determine. *)
Definition quad_is (E : list Entry) t w f : Prop := stored b c (Z.of_nat (length E)) (canon b c E) t w f.

Lemma overflow_fits e : entry_ok e -> key_fits (overflow_key e).
Proof. intros (_ & _ & Hpk). split; [done|]. unfold overflow_key, overflow_key_bytes, blen in *. cbn [length]. rewrite !length_app, !length_f64_bytes. lia. Qed.

Lemma canon_over E e : canon b c E !! overflow_key e = over (List.filter (fun a => negb (inside b a)) E) !! overflow_key e.
Proof. apply lookup_union_r. apply sub_not_over, level_root. Qed.

Lemma over_in e E : entry_ok e -> Forall entry_ok E -> inside b e = false -> over (List.filter (fun a => negb (inside b a)) E) !! overflow_key e = if bool_decide (e ∈ E) then Some [] else None.
Proof.
  intros He HE Hout. apply option_eq. intros v. rewrite over_lookup. case_bool_decide as Hin; split.
  - by intros (-> & _).
  - intros [= <-]. split; [done|]. exists e. by rewrite elem_of_kept, Hout.
  - intros (_ & a & [Ha _]%elem_of_kept & E2%overflow_key_inj); [by subst|done|by rewrite Forall_forall in HE; apply HE].
  - done.
Qed.

Lemma filter_skip (P : Entry -> bool) e E : points E -> entry_ok e -> P e = false -> List.filter P (ins e E) = List.filter P E /\ List.filter P (del e E) = List.filter P E.
Proof.
  intros HE He Hp. split; [by rewrite filter_ins, Hp|]. unfold del. rewrite filter_filter_comm. apply del_absent. rewrite elem_of_kept. intros [_ ?]. congruence.
Qed.

Lemma filter_in (P : Entry -> bool) e E : P e = true -> e ∈ List.filter P E <-> e ∈ E.
Proof. intros Hp. rewrite elem_of_kept. naive_solver. Qed.

Lemma room_insert t x y pk : keeps_room (quad_insert t x y pk).
Proof.
  apply room_at. intros s. unfold quad_insert. destruct (negb _); eexists; (split; [reflexivity|]).
  - apply room_bind; [auto with room|]. intros [|]; [auto with room|]. apply room_bind; auto with room.
  - apply room_insert_at.
Qed.

Lemma upd_insert e E t w f : entry_ok e -> points E -> fits (e :: E) -> quad_is E t w f ->
  upd (quad_insert t (en_x e) (en_y e) (en_pk e)) w f (fun res w' f' => res.1 = bool_decide (e ∉ E) /\ quad_is (ins e E) res.2 w' f').
Proof.
  intros He HE Hf Ht. apply upd_ok. intros Hok. pose proof (length_ins e E HE He) as Hlen. pose proof Ht as (Hb & Hc & Hl & Ht').
  destruct (inside b e) eqn:Hin; (eapply upd_at; [intros sup; unfold quad_insert; rewrite Hb; fold (inside b e); rewrite Hin; cbn [negb fst]; reflexivity|]).
  - eapply upd_weaken; [|eapply (upd_insert_at b c e He (Z.of_nat (length E)) 32 DEPTH_FUEL ROOT b (List.filter (inside b) E) _ t w f); [unfold DEPTH_FUEL; lia|apply level_root|by apply points_filter| |apply over_outside|exact Ht]].
    + intros res w' f' _ [E1 E2]. rewrite (bool_decide_ext _ _ (not_iff_compat (filter_in _ e E Hin))) in E1. split; [done|]. rewrite (bool_decide_ext _ _ (filter_in _ e E Hin)) in E2.
      unfold quad_is, canon. rewrite (proj1 (filter_skip (fun a => negb (inside b a)) e E HE He ltac:(cbv beta; by rewrite Hin))). rewrite filter_ins, Hin by done. rewrite Hlen. case_bool_decide; [done|]. rewrite Nat2Z.inj_succ. exact E2.
    + unfold fits in *. cbn [length] in *. pose proof (length_filter_le (inside b) E). lia.
  - eapply upd_lift. { rewrite (kt_get_spec _ _ _ _ _ Hok Ht'). fold (overflow_key e). by rewrite canon_over, (over_in e E He (proj2 HE) Hin). }
    case_bool_decide as Hn.
    + apply upd_ret. rewrite ins_present, bool_decide_false by (done || (intros Hx; by apply Hx)). done.
    + fold (overflow_key e). eapply upd_bind; [by apply upd_tree_insert; [|apply overflow_fits|]|auto with room|]. intros s w' f' _ Hs. apply upd_ret.
      split; [by rewrite bool_decide_true|]. repeat split; [done|done| |].
      * simpl. rewrite Hl, Hlen. lia.
      * unfold canon. rewrite (proj1 (filter_skip (inside b) e E HE He Hin)), filter_ins by done. cbv beta. rewrite Hin. cbn [negb]. rewrite <- over_ins by (done || by apply points_filter).
        rewrite <- insert_union_r; [exact Hs|]. apply sub_not_over, level_root.
Qed.

Lemma room_remove_at fuel : forall t k r x y pk anc, keeps_room (remove_at fuel t k r x y pk anc).
Proof.
  induction fuel as [|fuel IH]; intros t k r x y pk anc; [by intros s|]. apply room_at. intros s. eexists. split; [cbn [remove_at]; reflexivity|].
  apply room_bind; [auto with room|]. intros [[es|]|]; [|apply IH|auto with room]. destruct (bucket_find es x y pk) as [pos [|]]; [|auto with room].
  apply room_bind; [apply room_put|]. intros t'. apply room_bind; [apply room_collapse_first|auto with room].
Qed.

Lemma room_remove t x y pk : keeps_room (quad_remove t x y pk).
Proof.
  apply room_at. intros s. unfold quad_remove. destruct (negb _); eexists; (split; [reflexivity|]).
  - apply room_bind; [auto with room|]. intros [|]; [|auto with room]. apply room_bind; [auto with room|]. intros []. auto with room.
  - apply room_remove_at.
Qed.

Lemma upd_remove e E t w f : entry_ok e -> points E -> fits E -> quad_is E t w f ->
  upd (quad_remove t (en_x e) (en_y e) (en_pk e)) w f (fun res w' f' => res.1 = bool_decide (e ∈ E) /\ quad_is (del e E) res.2 w' f').
Proof.
  intros He HE Hf Ht. apply upd_ok. intros Hok. pose proof Ht as (Hb & Hc & Hl & Ht').
  assert (Z.of_nat (length (del e E)) = if bool_decide (e ∈ E) then Z.of_nat (length E) - 1 else Z.of_nat (length E)) as Hlen.
  { case_bool_decide; [rewrite (length_del e E) by done; lia|by rewrite del_absent]. }
  destruct (inside b e) eqn:Hin; (eapply upd_at; [intros sup; unfold quad_remove; rewrite Hb; fold (inside b e); rewrite Hin; cbn [negb fst]; reflexivity|]).
  - eapply upd_weaken; [|eapply (upd_remove_at b c e He (Z.of_nat (length E)) 32 DEPTH_FUEL ROOT b (List.filter (inside b) E) _ t w f); [unfold DEPTH_FUEL; lia|apply level_root|by apply points_filter|by apply fits_filter|apply over_outside|exact Ht]].
    intros res w' f' _ [E1 E2]. rewrite (bool_decide_ext _ _ (filter_in _ e E Hin)) in E1, E2. split; [done|].
    unfold quad_is, canon. rewrite Hlen, (proj2 (filter_skip (fun a => negb (inside b a)) e E HE He ltac:(cbv beta; by rewrite Hin))). unfold del at 1. by rewrite filter_filter_comm.
  - eapply upd_lift. { rewrite (kt_get_spec _ _ _ _ _ Hok Ht'). fold (overflow_key e). by rewrite canon_over, (over_in e E He (proj2 HE) Hin). }
    case_bool_decide as Hn.
    + fold (overflow_key e). eapply upd_bind; [by apply upd_tree_delete|intros []; auto with room|]. intros [found s] w' f' _ Hs. apply upd_ret.
      split; [done|]. repeat split; [done|done| |].
      * simpl. rewrite Hl, Hlen. done.
      * unfold canon. rewrite (proj2 (filter_skip (inside b) e E HE He Hin)). unfold del. rewrite filter_filter_comm. change (List.filter (fun a => negb (bool_decide (a = e)))) with (del e).
        rewrite <- over_del by (done || apply points_filter, HE). cbn [snd] in Hs. unfold canon in Hs. rewrite delete_union, (delete_id (sub _ _ _ _ _)) in Hs; [exact Hs|]. apply sub_not_over, level_root.
    + apply upd_ret. by rewrite del_absent.
Qed.
End index.
