(* ===== verification/QuadTreeProps.v ===== *)
(** The quadtree under any sequence of inserts and removals, and its queries. *)

From stdpp Require Import base list gmap sorting numbers.
From Stdlib Require Import ZArith Lia.
From S2P Require Import Prelude FluxBin Row IndexKey PageFormat PagedTree PagedTreeNode PagedTreeRep PagedTreeWrite PagedTreeSpec KvTree TxState LogRecord TableState TableSpec Ieee QuadTree QuadTreeRep QuadTreeSpec.
From stdpp Require Import list.
#[local] Open Scope Z_scope.

(** * Reading the whole index *)

Section reads.
Context {W T : Type} {KT : KvTree W T} {KL : KvTreeLaws W T}.
Context (b : Rect) (c : nat) (E : list Entry) (HE : points E).
Context (t : QuadTree T) (w : W) (f : list Page) (Hok : kt_ok w) (Ht : quad_is b c E t w f).

Definition outer : list Entry := List.filter (fun e => negb (inside b e)) E.
Definition inner : list Entry := List.filter (inside b) E.

Lemma outer_points : points outer.
Proof using HE. by apply points_filter. Qed.

Lemma sorted_kept (P : kv -> Prop) `{!forall p, Decision (P p)} (l : list kv) : StronglySorted entry_lt l -> StronglySorted entry_lt (filter P l).
Proof.
  induction 1 as [|p l _ IH Hp]; [constructor|]. rewrite filter_cons. destruct (decide _); [|done]. constructor; [done|]. rewrite Forall_forall in *. intros p' [_ Hp']%list_elem_of_filter. by apply Hp.
Qed.

Lemma sorted_over L : points L -> StronglySorted entry_lt (map (fun e => (overflow_key e, [] : list Z)) L).
Proof.
  induction L as [|a L IH]; [constructor|]. intros (Ha & Hf & HL)%points_cons. simpl. constructor; [by apply IH|].
  apply Forall_forall. intros p (x & <- & Hx%list_elem_of_In)%list_elem_of_In%in_map_iff. unfold entry_lt, key_lt. cbn [fst kcmp bytes_ord].
  rewrite Forall_forall in Hf. destruct HL as [_ Ho]. rewrite Forall_forall in Ho. rewrite overflow_key_cmp; [by apply Hf|done|by apply Ho].
Qed.

Lemma scan_over : filter (scan_keeps [NS_OVERFLOW] None) (btree_entries (canon b c E)) = map (fun e => (overflow_key e, [])) outer.
Proof using HE.
  apply strictly_sorted_unique; [apply sorted_kept, btree_entries_sorted|apply sorted_over, outer_points|]. intros [key v].
  rewrite list_elem_of_filter, elem_of_btree_entries. rewrite list_elem_of_In, in_map_iff. setoid_rewrite <- list_elem_of_In. unfold canon. rewrite lookup_union_Some_raw. fold outer. rewrite over_lookup. split.
  - intros [[Hle _] [Hs|[_ (-> & e & He & ->)]]]; [|by exists e]. exfalso. assert (under ROOT key) as [_ Hu] by (eapply (sub_under c 32 ROOT b); [apply level_root|by eexists]).
    eapply key_lt_irrefl, key_le_lt_trans; [exact Hle|]. exact Hu.
  - intros (e & [= <- <-] & He). split; [split; [|done]|right; split; [apply sub_not_over, level_root|eauto]]. apply (lex_compare_prefix [NS_OVERFLOW]). by eexists.
Qed.

Lemma overflow_spec : overflow w t = Ok outer.
Proof using HE Hok Ht KL.
  destruct Ht as (_ & _ & _ & Ht'). unfold overflow. rewrite (kt_entries_spec _ _ _ _ _ _ Hok Ht'), scan_over. cbn [map_err mbind result_bind].
  rewrite <- (map_id outer) at 2. apply collect_map. destruct outer_points as [_ Ho]. eapply Forall_impl; [exact Ho|]. intros e He. by apply decode_overflow_encoded.
Qed.

Lemma inner_outer : inner ++ outer ≡ₚ E.
Proof. unfold inner, outer. clear. induction E as [|e L IH]; [done|]. simpl. destruct (inside b e); simpl; [by rewrite IH|]. rewrite <- IH at 3. symmetry. apply Permutation_middle. Qed.

Lemma quad_entries_spec : quad_entries w t = Ok E.
Proof using HE Hok Ht KL.
  unfold quad_entries. destruct (points_filter (inside b) E HE) as [_ Ho].
  rewrite (subtree_spec b c _ 32 ROOT b inner _ _ t w f (sub_tree c 32 ROOT b inner) level_root Ho (over_outside _) Hok Ht). cbn [mbind result_bind]. rewrite overflow_spec. cbn [mbind result_bind].
  f_equal. apply sort_points; [done|]. rewrite flat_map_concat_map, map_map, <- flat_map_concat_map. cbn [snd].
  rewrite (entries_leaves 32 ROOT b inner _ (sub_tree c 32 ROOT b inner) level_root Ho). apply inner_outer.
Qed.
End reads.

(** * Histories *)

Inductive QuadOp : Type := QuadInsert (e : Entry) | QuadRemove (e : Entry).

Definition op_point (op : QuadOp) : Entry := match op with QuadInsert e | QuadRemove e => e end.

(** The contents after an operation, and whether it reports a change. *)
Definition op_points (E : list Entry) (op : QuadOp) : list Entry := match op with QuadInsert e => ins e E | QuadRemove e => del e E end.
Definition op_flag (E : list Entry) (op : QuadOp) : bool := match op with QuadInsert e => bool_decide (e ∉ E) | QuadRemove e => bool_decide (e ∈ E) end.

Definition contents (E : list Entry) (ops : list QuadOp) : list Entry := fold_left op_points ops E.

Fixpoint flags (E : list Entry) (ops : list QuadOp) : list bool :=
  match ops with [] => [] | op :: ops => op_flag E op :: flags (op_points E op) ops end.

Lemma op_points_ok E op : points E -> entry_ok (op_point op) -> points (op_points E op).
Proof. intros HE Ho. destruct op as [e|e]; [by apply points_insert|by apply points_filter]. Qed.

Lemma contents_ok ops : forall E, points E -> Forall (fun op => entry_ok (op_point op)) ops -> points (contents E ops).
Proof. induction ops as [|op ops IH]; intros E HE Ho; [done|]. apply Forall_cons in Ho as [H1 H2]. by apply IH; [apply op_points_ok|]. Qed.

Lemma points_nil : points [].
Proof. split; constructor. Qed.

(** The order of points leaves no choice. *)
Lemma points_unique E E' : points E -> points E' -> (forall e, e ∈ E <-> e ∈ E') -> E = E'.
Proof.
  intros HE HE' Hiff. assert (forall L, points L -> NoDup L) as Hnd.
  { induction L as [|a L IH]; [constructor|]. intros (_ & Hf & HL)%points_cons. constructor; [by apply after_not_in|by apply IH]. }
  etrans; [symmetry; apply (sort_points E E' HE)|by apply sort_points]. apply NoDup_Permutation; auto. intros e. symmetry. apply Hiff.
Qed.

Section history.
Context {W T : Type} {KT : KvTree W T}.
Notation QM := (SM (W * list Page) StoreError).

Definition quad_op (t : QuadTree T) (op : QuadOp) : QM (bool * QuadTree T) :=
  match op with
  | QuadInsert e => quad_insert t (en_x e) (en_y e) (en_pk e)
  | QuadRemove e => quad_remove t (en_x e) (en_y e) (en_pk e)
  end.

Fixpoint quad_ops (t : QuadTree T) (ops : list QuadOp) : QM (list bool * QuadTree T) :=
  match ops with
  | [] => mret ([], t)
  | op :: ops => quad_op t op ≫= fun '(changed, t) => quad_ops t ops ≫= fun '(l, t) => mret (changed :: l, t)
  end.

(** A new index and operations on it. *)
Definition quad_run (b : Rect) (c : nat) (table : Z) (ops : list QuadOp) (w : W) : result StoreError (list bool * QuadTree T) * (W * list Page) :=
  match quad_new b c table w with
  | (Ok t, w) => quad_ops t ops (w, [])
  | (Err e, w) => (Err e, (w, []))
  end.

Context {KL : KvTreeLaws W T}.

Lemma room_op t op : keeps_room (quad_op t op).
Proof. destruct op; [apply room_insert|apply room_remove]. Qed.

Lemma room_ops ops : forall t, keeps_room (quad_ops t ops).
Proof.
  induction ops as [|op ops IH]; intros t; [apply room_ret|]. apply room_bind; [apply room_op|]. intros [ch t']. apply room_bind; [apply IH|]. intros []. apply room_ret.
Qed.

Lemma length_op_points E op : points E -> entry_ok (op_point op) -> (length (op_points E op) <= S (length E))%nat.
Proof. intros HE Ho. destruct op as [e|e]; simpl in *; [rewrite length_ins by done; case_bool_decide; lia|]. pose proof (length_filter_le (fun a => negb (bool_decide (a = e))) E). unfold del. lia. Qed.

Lemma upd_ops b c ops : forall E (t : QuadTree T) w f, points E -> Forall (fun op => entry_ok (op_point op)) ops -> Z.of_nat (length E + length ops) < 2 ^ 31 ->
  quad_is b c E t w f -> upd (quad_ops t ops) w f (fun res w' f' => res.1 = flags E ops /\ quad_is b c (contents E ops) res.2 w' f').
Proof.
  induction ops as [|op ops IH]; intros E t w f HE Ho Hlen Ht; [by apply upd_ret|]. apply Forall_cons in Ho as [H1 H2]. cbn [length quad_ops] in *.
  assert (upd (quad_op t op) w f (fun res w' f' => res.1 = op_flag E op /\ quad_is b c (op_points E op) res.2 w' f')) as Hop.
  { destruct op as [e|e]; [apply upd_insert; [done..| |done]|apply upd_remove; [done..| |done]]; unfold fits; cbn [length]; lia. }
  eapply upd_bind; [exact Hop|intros []; apply room_bind; [apply room_ops|intros []; apply room_ret]|]. intros [ch t1] w1 f1 _ [E1 H]. cbn [fst snd] in *. subst ch.
  pose proof (length_op_points E op HE H1). eapply upd_bind; [eapply (IH (op_points E op)); [by apply op_points_ok|done|lia|exact H]|intros []; apply room_ret|].
  intros [l t2] w2 f2 _ [E2 H']. cbn [fst snd] in *. apply upd_ret. by subst l.
Qed.

Lemma quad_new_spec b c table w : kt_ok w -> kt_room (quad_new b c table w).2 ->
  exists t w' f, quad_new b c table w = (Ok t, w') /\ kt_le w w' /\ quad_is b (Nat.max c 1) [] t w' f.
Proof.
  intros Hok Hroom. unfold quad_new in *. destruct (kt_create table true w) as [r w1] eqn:Ec.
  assert (kt_room w1) as Hr1.
  { destruct r as [st|e]; [|exact Hroom]. destruct (put_node _ ROOT (Leaf []) (w1, [])) as [r s] eqn:Ep. pose proof (room_put (Build_QuadTree b (Nat.max c 1) st 0) ROOT (Leaf []) (w1, [])) as Hp. rewrite Ep in Hp. by apply Hp. }
  destruct (kt_create_spec w table true Hok) as (st & w2 & fp & E2 & Hle & His & _ & _); [by rewrite Ec|]. rewrite Ec in E2. injection E2 as -> ->.
  destruct (put_node _ ROOT (Leaf []) (w2, [])) as [r s] eqn:Ep. pose proof (kt_le_ok _ _ Hle) as Hok2.
  destruct (upd_put_leaf b (Nat.max c 1) 0 ∅ (Build_QuadTree b (Nat.max c 1) st 0) w2 fp ROOT [] (conj eq_refl (conj eq_refl (conj eq_refl His))) (Forall_nil_2 _) ltac:(done) Hok2 []) as (t & w' & f' & ret & E & S & H); [by rewrite Ep|].
  rewrite Ep in E. injection E as -> ->. exists t, w', f'. split; [done|]. split; [exact (kt_le_trans _ _ _ Hle (step_le _ _ _ _ _ S))|].
  unfold quad_is, canon. simpl List.filter. rewrite sub_leaf by (right; simpl; lia). unfold over. simpl. by rewrite (right_id_L ∅ (∪)).
Qed.

Lemma quad_run_spec b c table ops w : kt_ok w -> Forall (fun op => entry_ok (op_point op)) ops -> Z.of_nat (length ops) < 2 ^ 31 ->
  kt_room (quad_run b c table ops w).2.1 ->
  exists t w' ret f, quad_run b c table ops w = (Ok (flags [] ops, t), (w', ret)) /\ kt_ok w' /\ quad_is b (Nat.max c 1) (contents [] ops) t w' f.
Proof.
  intros Hok Ho Hlen Hroom. unfold quad_run in *. destruct (quad_new b c table w) as [r w1] eqn:En.
  assert (kt_room w1) as Hr1. { destruct r as [t|]; [|done]. exact (room_ops ops t (w1, []) Hroom). }
  destruct (quad_new_spec b c table w Hok) as (t & w2 & f & E & Hle2 & Ht); [by rewrite En|]. pose proof (kt_le_ok _ _ Hle2) as Hok2. rewrite En in E. injection E as -> ->.
  destruct (upd_ops b (Nat.max c 1) ops [] t w2 f points_nil Ho Hlen Ht Hok2 [] Hroom) as ([l t'] & w' & f' & ret & E & S & E2 & H). cbn [fst snd] in *. subst l.
  exists t', w', ret, f'. split; [done|]. split; [exact (kt_le_ok _ _ (step_le _ _ _ _ _ S))|done].
Qed.
End history.

(** * Queries *)

Lemma fle_spec a b : fle a b = true <-> is_nan 64 a = false /\ is_nan 64 b = false /\ frank a <= frank b.
Proof. unfold fle. rewrite !andb_true_iff, !negb_true_iff, Z.leb_le. tauto. Qed.

Lemma fle_trans a b c : fle a b = true -> fle b c = true -> fle a c = true.
Proof. rewrite !fle_spec. intros (? & ? & ?) (? & ? & ?). split; [done|]. split; [done|lia]. Qed.

Lemma feq_fle a b : feq a b = true -> (forall m, fle m a = fle m b) /\ forall m, fle a m = fle b m.
Proof.
  unfold feq, fle. rewrite !andb_true_iff, !negb_true_iff, Z.eqb_eq. intros [[-> ->] ->]. done.
Qed.

(** Equal points are in the same rectangles and quadrants. *)
Lemma at_point_inside x y e r : at_point x y e = true -> inside r e = contains_point r x y.
Proof.
  unfold at_point, inside, contains_point. rewrite andb_true_iff. intros [[E1 E2]%feq_fle [E3 E4]%feq_fle]. by rewrite E1, E2, E3, E4.
Qed.

Lemma at_point_quadrant x y e r : at_point x y e = true -> quadrant_of r (en_x e) (en_y e) = quadrant_of r x y.
Proof. unfold at_point, quadrant_of. rewrite andb_true_iff. intros [[E1 _]%feq_fle [E3 _]%feq_fle]. by rewrite E1, E3. Qed.

Lemma filter_within {A} (P Q : A -> bool) L : (forall a, P a = true -> Q a = true) -> List.filter P (List.filter Q L) = List.filter P L.
Proof.
  intros HPQ. induction L as [|a L IH]; [done|]. simpl. destruct (Q a) eqn:EQ; simpl; rewrite IH; [done|]. destruct (P a) eqn:EP; [|done]. by rewrite (HPQ a EP) in EQ.
Qed.

Lemma filter_nothing {A} (P : A -> bool) L : (forall a, a ∈ L -> P a = false) -> List.filter P L = [].
Proof. induction L as [|a L IH]; intros HP; [done|]. simpl. rewrite (HP a) by left. apply IH. intros x Hx. apply HP. by right. Qed.

Lemma filter_every {A} (P : A -> bool) L : (forall a, a ∈ L -> P a = true) -> List.filter P L = L.
Proof. induction L as [|a L IH]; intros HP; [done|]. simpl. rewrite (HP a) by left. f_equal. apply IH. intros x Hx. apply HP. by right. Qed.

Lemma filter_perm {A} (P : A -> bool) L L' : L ≡ₚ L' -> List.filter P L ≡ₚ List.filter P L'.
Proof. induction 1 as [|x ? ? _ IH|x y ?|? ? ? _ IH1 _ IH2]; simpl; [done|by destruct (P x); rewrite IH|destruct (P x), (P y); [apply perm_swap|done..]|by etrans]. Qed.

Lemma perm_reverse {A} (l1 l2 l3 l4 : list A) : l1 ++ l2 ++ l3 ++ l4 ≡ₚ l4 ++ l3 ++ l2 ++ l1.
Proof. rewrite (Permutation_app_comm l3 l4), (Permutation_app_comm l2 (l4 ++ l3)), (Permutation_app_comm l1 _), <- !app_assoc. done. Qed.

Lemma Forall_kept {A} (P : A -> Prop) (keep : A -> bool) L : Forall P L -> Forall P (List.filter keep L).
Proof. rewrite !Forall_forall. intros HL a [Ha _]%elem_of_kept. by apply HL. Qed.

(** The rectangles on the way of a point contain it. *)
Fixpoint stays (n : nat) (r : Rect) (e : Entry) : bool :=
  inside r e && match n with O => true | S n => stays n (child_rect r (quadrant_of r (en_x e) (en_y e))) e end.

Section queries.
Context {W T : Type} {KT : KvTree W T} {KL : KvTreeLaws W T}.
Context (b : Rect) (c : nat) (t : QuadTree T) (w : W) (f : list Page) (Hok : kt_ok w).

Lemma canon_node l n k r L F : level n k -> outside k F -> Forall entry_ok L -> stored b c l (sub c n k r L ∪ F) t w f ->
  node w t k = Ok (Some (if decide (small c n L) then Leaf L else Internal)).
Proof using Hok KL. intros Hk HF HL Ht. eapply (node_spec b c l _ t w f k _ Hok Ht); [by apply sub_lookup|]. destruct (decide _); [done|apply Forall_nil_2]. Qed.

(** A subtree of a canonical tree, and what surrounds it. *)
Lemma canon_child l n k r L F q : level (S n) k -> outside k F -> (c < length L)%nat -> quadrant q -> stored b c l (sub c (S n) k r L ∪ F) t w f ->
  exists F', outside (child k q) F' /\ stored b c l (sub c n (child k q) (child_rect r q) (bucket r q L) ∪ F') t w f.
Proof.
  intros Hk HF HL Hq Ht. rewrite (sub_bucket c n k r L F Hk HL q Hq) in Ht. eexists. split; [|exact Ht]. apply (outside_beside n); [done| |done..]. by apply sub_kids.
Qed.

Lemma point_at_spec l x y : forall n fuel k r L F, (n < fuel)%nat -> level n k -> outside k F -> Forall entry_ok L -> stored b c l (sub c n k r L ∪ F) t w f ->
  point_at fuel w t k r x y = Ok (map en_pk (List.filter (at_point x y) L)).
Proof using Hok KL.
  induction n as [n IH] using lt_wf_ind. intros fuel k r L F Hfuel Hk HF HL Ht. destruct fuel as [|fuel]; [lia|]. cbn [point_at].
  rewrite (canon_node l n k r L F Hk HF HL Ht). cbn [mbind result_bind]. destruct (decide (small c n L)) as [|Hs]; [done|]. destruct (small_cases c n L) as [|(m & -> & Hlen)]; [done|]. cbv zeta.
  destruct (canon_child l m k r L F _ Hk HF Hlen (quadrant_of_ok r x y) Ht) as (F' & HF' & Ht').
  rewrite (IH m ltac:(lia) fuel _ _ _ F' ltac:(lia) (level_child m k _ Hk (quadrant_of_ok r x y)) HF' (bucket_ok _ r _ L HL) Ht').
  do 2 f_equal. apply filter_within. intros e He. by rewrite (at_point_quadrant x y e r He), Z.eqb_refl.
Qed.

Context (visits covers : Rect -> bool) (keep : Entry -> bool) (Q : Entry -> Prop).
Context (Hvisits : forall r e, Q e -> inside r e = true -> keep e = true -> visits r = true).
Context (Hcovers : forall r e, Q e -> inside r e = true -> covers r = true -> keep e = true).

Lemma stays_inside n r e : stays n r e = true -> inside r e = true.
Proof. destruct n; simpl; rewrite andb_true_iff; tauto. Qed.

Lemma stays_bucket n r q L : Forall (fun e => stays (S n) r e = true) L -> Forall (fun e => stays n (child_rect r q) e = true) (bucket r q L).
Proof.
  rewrite !Forall_forall. intros HL e [He Eq]%elem_of_kept. apply HL in He. apply Z.eqb_eq in Eq. cbn [stays] in He. rewrite andb_true_iff, Eq in He. apply He.
Qed.

Lemma walk_spec l : forall n fuel k r L F, (n < fuel)%nat -> level n k -> outside k F -> Forall entry_ok L -> Forall Q L -> Forall (fun e => stays n r e = true) L ->
  stored b c l (sub c n k r L ∪ F) t w f -> exists out, walk fuel w t visits covers keep k r = Ok out /\ out ≡ₚ map en_pk (List.filter keep L).
Proof using Hok KL Hvisits Hcovers.
  induction n as [n IH] using lt_wf_ind. intros fuel k r L F Hfuel Hk HF HL HQ Hst Ht. destruct fuel as [|fuel]; [lia|]. cbn [walk].
  assert (forall e, e ∈ L -> inside r e = true) as Hin by (intros e He; rewrite Forall_forall in Hst; by eapply stays_inside, Hst).
  assert (forall e, e ∈ L -> Q e) as HQe by (by apply Forall_forall).
  destruct (visits r) eqn:Ev; cbn [negb].
  2: { exists []. split; [done|]. rewrite filter_nothing; [done|]. intros e He. destruct (keep e) eqn:Ek; [|done]. by rewrite (Hvisits r e (HQe e He) (Hin e He) Ek) in Ev. }
  rewrite (canon_node l n k r L F Hk HF HL Ht). cbn [mbind result_bind]. destruct (decide (small c n L)) as [|Hs]; [by eexists|]. destruct (small_cases c n L) as [|(m & -> & Hlen)]; [done|].
  destruct (covers r) eqn:Ec.
  - unfold collect_subtree. rewrite (subtree_spec b c l (S m) k r L _ F t w f (sub_tree c (S m) k r L) Hk HL HF Hok Ht). cbn [mbind result_bind]. eexists. split; [done|].
    rewrite filter_every by (intros e He; by apply (Hcovers r); [apply HQe|apply Hin|]). rewrite flat_map_concat_map, map_map, <- flat_map_concat_map. apply Permutation_map. exact (entries_leaves (S m) k r L _ (sub_tree c (S m) k r L) Hk HL).
  - assert (forall q, quadrant q -> exists out, walk fuel w t visits covers keep (child k q) (child_rect r q) = Ok out /\ out ≡ₚ map en_pk (List.filter keep (bucket r q L))) as Hq.
    { intros q Hq. destruct (canon_child l m k r L F q Hk HF Hlen Hq Ht) as (F' & HF' & Ht').
      exact (IH m ltac:(lia) fuel _ _ _ F' ltac:(lia) (level_child m k q Hk Hq) HF' (bucket_ok _ r q L HL) (bucket_ok _ r q L HQ) (stays_bucket m r q L Hst) Ht'). }
    destruct (Hq 3 ltac:(done)) as (o3 & -> & P3), (Hq 2 ltac:(done)) as (o2 & -> & P2), (Hq 1 ltac:(done)) as (o1 & -> & P1), (Hq 0 ltac:(done)) as (o0 & -> & P0). cbn [mbind result_bind].
    eexists. split; [done|]. rewrite P3, P2, P1, P0, (filter_perm keep L _ (bucket_perm r L)), !List.filter_app, !map_app.
    apply perm_reverse.
Qed.
End queries.

(** ** The geometry of pruning *)

Lemma contains_spec r x y : contains_point r x y = true <->
  fle (rc_x r) x = true /\ fle x (fadd (rc_x r) (rc_w r)) = true /\ fle (rc_y r) y = true /\ fle y (fadd (rc_y r) (rc_h r)) = true.
Proof. unfold contains_point. rewrite !andb_true_iff. tauto. Qed.

Lemma region_visits region r e : inside r e = true -> inside region e = true -> intersects region r = true.
Proof.
  unfold inside, intersects. rewrite !contains_spec, !andb_true_iff. intros (? & ? & ? & ?) (? & ? & ? & ?).
  split_and!; eapply fle_trans; eassumption.
Qed.

Lemma region_covers region r e : inside r e = true -> contains_rect region r = true -> inside region e = true.
Proof.
  unfold inside, contains_rect. rewrite !contains_spec, !andb_true_iff. intros (? & ? & ? & ?) [[[? ?] ?] ?]. split_and!; eapply fle_trans; eassumption.
Qed.

(** A child rectangle ends where its parent says, in both directions. *)
Definition edges_exact (r : Rect) : bool :=
  let mid_x := fadd (rc_x r) (fdiv (rc_w r) TWO) in let mid_y := fadd (rc_y r) (fdiv (rc_h r) TWO) in
  feq (fadd (rc_x r) (fsub mid_x (rc_x r))) mid_x && feq (fadd mid_x (fsub (fadd (rc_x r) (rc_w r)) mid_x)) (fadd (rc_x r) (rc_w r)) &&
  feq (fadd (rc_y r) (fsub mid_y (rc_y r))) mid_y && feq (fadd mid_y (fsub (fadd (rc_y r) (rc_h r)) mid_y)) (fadd (rc_y r) (rc_h r)).

Lemma fle_flip a m : is_nan 64 a = false -> is_nan 64 m = false -> fle m a = false -> fle a m = true.
Proof. intros Ha Hm. rewrite fle_spec. unfold fle. rewrite Ha, Hm. simpl. rewrite Z.leb_gt. intros. split; [done|]. split; [done|lia]. Qed.

(** Points leave the rectangles of their path only through rounding. *)
Lemma routed_inside r e : edges_exact r = true -> inside r e = true -> inside (child_rect r (quadrant_of r (en_x e) (en_y e))) e = true.
Proof.
  unfold edges_exact, inside, quadrant_of, child_rect. cbv zeta. set (mx := fadd (rc_x r) (fdiv (rc_w r) TWO)). set (my := fadd (rc_y r) (fdiv (rc_h r) TWO)).
  rewrite !andb_true_iff, !contains_spec. intros [[[E1 E2] E3] E4] (H1 & H2 & H3 & H4).
  assert (is_nan 64 mx = false /\ is_nan 64 my = false) as [Hmx Hmy].
  { unfold feq in E1, E3. rewrite !andb_true_iff, !negb_true_iff in E1, E3. tauto. }
  assert (is_nan 64 (en_x e) = false /\ is_nan 64 (en_y e) = false) as [Hx Hy] by (rewrite fle_spec in H1, H3; tauto).
  apply feq_fle in E1 as [E1 _], E2 as [E2 _], E3 as [E3 _], E4 as [E4 _].
  destruct (fle my (en_y e)) eqn:Ey, (fle mx (en_x e)) eqn:Ex; cbn -[fle fadd fsub fdiv]; rewrite ?E1, ?E2, ?E3, ?E4; split_and!; try done; by apply fle_flip.
Qed.

(** ** Queries of an index *)

Section answers.
Context {W T : Type} {KT : KvTree W T} {KL : KvTreeLaws W T}.
Context (b : Rect) (c : nat) (P : list Entry) (HP : points P).
Context (t : QuadTree T) (w : W) (f : list Page) (Hok : kt_ok w) (Ht : quad_is b c P t w f).

Lemma inner_ok : Forall entry_ok (inner b P).
Proof using HP. apply (points_filter (inside b) P HP). Qed.

Lemma canon_stored : stored b c (Z.of_nat (length P)) (sub c 32 ROOT b (inner b P) ∪ over (outer b P)) t w f.
Proof using Ht. exact Ht. Qed.

Lemma depth_enough : (32 < DEPTH_FUEL)%nat.
Proof. unfold DEPTH_FUEL. lia. Qed.

Lemma query_point_spec x y : query_point w t x y = Ok (map en_pk (List.filter (at_point x y) P)).
Proof using HP Hok Ht KL.
  unfold query_point. rewrite (proj1 Ht). destruct (contains_point b x y) eqn:Hin; cbn [negb].
  - rewrite (point_at_spec b c t w f Hok _ x y 32 DEPTH_FUEL ROOT b (inner b P) _ depth_enough level_root (over_outside _) inner_ok canon_stored).
    do 2 f_equal. apply filter_within. intros e He. by rewrite (at_point_inside x y e b He).
  - unfold filter_overflow. rewrite (overflow_spec b c P HP t w f Hok Ht). cbn [mbind result_bind]. do 2 f_equal. apply filter_within. intros e He. by rewrite (at_point_inside x y e b He), Hin.
Qed.

Lemma found_all keep found : found ≡ₚ map en_pk (List.filter keep (inner b P)) -> map en_pk (List.filter keep (outer b P)) ++ found ≡ₚ map en_pk (List.filter keep P).
Proof. intros ->. rewrite <- map_app, <- List.filter_app. apply Permutation_map, filter_perm. rewrite Permutation_app_comm. apply inner_outer. Qed.

Context (Hst : Forall (fun e => inside b e = true -> stays 32 b e = true) P).

Lemma inner_stays : Forall (fun e => stays 32 b e = true) (inner b P).
Proof using Hst. rewrite Forall_forall in *. intros e [He Hi]%elem_of_kept. by apply Hst. Qed.

Lemma walk_all visits covers keep (Q : Entry -> Prop) :
  (forall r e, Q e -> inside r e = true -> keep e = true -> visits r = true) -> (forall r e, Q e -> inside r e = true -> covers r = true -> keep e = true) -> Forall Q P ->
  exists found, walk DEPTH_FUEL w t visits covers keep ROOT b = Ok found /\ map en_pk (List.filter keep (outer b P)) ++ found ≡ₚ map en_pk (List.filter keep P).
Proof using HP Hok Ht Hst KL.
  intros Hv Hc HQ. destruct (walk_spec b c t w f Hok visits covers keep Q Hv Hc _ 32 DEPTH_FUEL ROOT b _ _ depth_enough level_root (over_outside _) inner_ok (Forall_kept Q (inside b) P HQ) inner_stays canon_stored) as (found & Ew & Hp).
  exists found. split; [done|by apply found_all].
Qed.

Lemma query_region_eq region : query_region w t region =
  filter_overflow w t (inside region) ≫= fun out => walk DEPTH_FUEL w t (intersects region) (contains_rect region) (inside region) ROOT (qd_bounds t) ≫= fun found => Ok (out ++ found).
Proof. reflexivity. Qed.

Lemma query_radius_eq x y r : is_nan 64 r = false -> flt r 0 = false -> query_radius w t x y r =
  filter_overflow w t (within_radius x y (fmul r r)) ≫= fun out => walk DEPTH_FUEL w t (intersects (search_box x y r)) (fun _ => false) (within_radius x y (fmul r r)) ROOT (qd_bounds t) ≫= fun found => Ok (out ++ found).
Proof. unfold query_radius. by intros -> ->. Qed.

Lemma query_region_spec region : exists out, query_region w t region = Ok out /\ out ≡ₚ map en_pk (List.filter (inside region) P).
Proof using HP Hok Ht Hst KL.
  destruct (walk_all (intersects region) (contains_rect region) (inside region) (fun _ => True) (fun r e _ => region_visits region r e) (fun r e _ => region_covers region r e)) as (found & Ew & Hp); [by apply Forall_true|].
  rewrite query_region_eq. unfold filter_overflow. rewrite (overflow_spec b c P HP t w f Hok Ht), (proj1 Ht), Ew. by eexists.
Qed.

Lemma query_radius_spec x y r : is_nan 64 r = false -> flt r 0 = false ->
  Forall (fun e => within_radius x y (fmul r r) e = true -> inside (search_box x y r) e = true) P ->
  exists out, query_radius w t x y r = Ok out /\ out ≡ₚ map en_pk (List.filter (within_radius x y (fmul r r)) P).
Proof using HP Hok Ht Hst KL.
  intros Hnan Hneg Hbox. destruct (walk_all (intersects (search_box x y r)) (fun _ => false) (within_radius x y (fmul r r)) _
    (fun r' e HQ Hi Hk => region_visits (search_box x y r) r' e Hi (HQ Hk)) ltac:(done) Hbox) as (found & Ew & Hp).
  rewrite (query_radius_eq x y r Hnan Hneg). unfold filter_overflow. rewrite (overflow_spec b c P HP t w f Hok Ht), (proj1 Ht), Ew. by eexists.
Qed.
End answers.

Section theorems.
Context {W T : Type} {KT : KvTree W T} {KL : KvTreeLaws W T}.
Notation QM := (SM (W * list Page) StoreError).
Context (b : Rect) (c : nat) (table : Z) (ops : list QuadOp) (w : W).
Context (Hok : kt_ok w) (Hops : Forall (fun op => entry_ok (op_point op)) ops) (Hlen : Z.of_nat (length ops) < 2 ^ 31).
Context (Hroom : kt_room (quad_run b c table ops w).2.1).

(** C21: Insertions and removals in any order succeed and report what changed; the
    entries and the count are those of the contents, and the stored tree is the
    canonical one of the contents: another history with the same points has the
    same tree, node for node. *)
Theorem quad_refines : exists t w' ret f, quad_run b c table ops w = (Ok (flags [] ops, t), (w', ret)) /\
  qd_len t = Z.of_nat (length (contents [] ops)) /\ quad_entries w' t = Ok (contents [] ops) /\
  kt_is w' (qd_store t) (canon b (Nat.max c 1) (contents [] ops)) f /\
  forall ops', Forall (fun op => entry_ok (op_point op)) ops' -> (forall e, e ∈ contents [] ops' <-> e ∈ contents [] ops) ->
    canon b (Nat.max c 1) (contents [] ops') = canon b (Nat.max c 1) (contents [] ops).
Proof using Hok Hops Hlen Hroom KL.
  destruct (quad_run_spec b c table ops w Hok Hops Hlen Hroom) as (t & w' & ret & f & E & Hok' & Ht). pose proof (contents_ok ops [] points_nil Hops) as HE.
  exists t, w', ret, f. split; [done|]. split; [apply Ht|]. split; [by eapply quad_entries_spec|]. split; [apply Ht|].
  intros ops' Hops' Hiff. by rewrite (points_unique _ _ (contents_ok ops' [] points_nil Hops') HE Hiff).
Qed.
End theorems.
