(* ===== verification/Spatial.v ===== *)
(** The spatial slot of a table: [SpatialIndexState] of [index/mod.rs], the reads
    of [store/committed.rs] that go through it, and the rebuild of one slot
    ([store/memstore.rs]).

    The quadtree is [QuadTree]; the R-tree is an interface. The slot implements
    the interface [SideIndex] of the store, and [SpatialProps] says what the
    store gets from it: after any commits the index answers for the rows the
    table holds, and equals a rebuild. A widened [f32] NaN loses its payload. *)

From stdpp Require Import base list gmap sorting numbers.
From Stdlib Require Import ZArith Lia.
From S2P Require Import Prelude FluxBin Row IndexKey PageFormat PagedTree PagedTreeNode PagedTreeRep PagedTreeWrite PagedTreeSpec KvTree TxState LogRecord TableState TableSpec Reclaim MemStore MergeSpec Ieee MatView QuadTree QuadTreeRep QuadTreeSpec QuadTreeProps.
From stdpp Require Import list.
#[local] Open Scope Z_scope.

Record Aabb : Type := { ab_min_x : Z; ab_min_y : Z; ab_max_x : Z; ab_max_y : Z }.

(** The R-tree as the slot uses it. *)
Class RTreeOps (W R : Type) := {
  rt_new : nat -> TableId -> SM W StoreError R;
  rt_max_entries : R -> nat;
  rt_insert : R -> Aabb -> list Z -> SM (W * list Page) StoreError R;
  rt_remove : R -> Aabb -> list Z -> SM (W * list Page) StoreError R;
  rt_entries : W -> R -> result StoreError (list (Aabb * list Z));
  rt_query_region : W -> R -> Aabb -> result StoreError (list (list Z));
  rt_query_radius : W -> R -> Z -> Z -> Z -> result StoreError (list (list Z));
  rt_query_point : W -> R -> Z -> Z -> result StoreError (list (list Z));
}.

Inductive SpatialIndex (T R : Type) : Type := SQuad (qt : QuadTree T) | SRTree (rt : R).
Arguments SQuad {T R} _.
Arguments SRTree {T R} _.

Record SpatialIndexState (T R : Type) : Type := { ss_columns : list nat; ss_index : SpatialIndex T R; ss_table : TableId; ss_ready : bool }.
Arguments ss_columns {T R} _.
Arguments ss_index {T R} _.
Arguments ss_table {T R} _.
Arguments ss_ready {T R} _.
Arguments Build_SpatialIndexState {T R} _ _ _ _.

Inductive SpatialPredicate : Type := PInRegion (x y w h : Z) | PWithinRadius (x y r : Z).

Definition negative_or_nan (v : Z) : bool := is_nan 64 v || flt v 0.

Definition validate (p : SpatialPredicate) : result StoreError unit :=
  match p with
  | PInRegion _ _ w h => if negative_or_nan w || negative_or_nan h then Err SpatialPredicateInvalid else Ok tt
  | PWithinRadius _ _ r => if negative_or_nan r then Err SpatialPredicateInvalid else Ok tt
  end.

(** One coordinate, [f32] widened. *)
Definition coord (values : row) (ordinal : nat) : result StoreError Z :=
  match values !! ordinal with
  | Some (RowValue.F32 v) => Ok (bits_of 64 (widen v))
  | Some (RowValue.F64 v) => Ok v
  | _ => Err (SpatialCoordinate ordinal)
  end.

Definition point_of (cols : list nat) (values : row) : result StoreError (Z * Z) :=
  match cols with
  | [x; y] => coord values x ≫= fun px => coord values y ≫= fun py => Ok (px, py)
  | _ => Err (SpatialArity 2 (length cols))
  end.

Definition box_of (cols : list nat) (values : row) : result StoreError Aabb :=
  match cols with
  | [a; b; c; d] =>
      coord values a ≫= fun min_x => coord values b ≫= fun min_y => coord values c ≫= fun max_x => coord values d ≫= fun max_y =>
      Ok {| ab_min_x := min_x; ab_min_y := min_y; ab_max_x := max_x; ab_max_y := max_y |}
  | _ => Err (SpatialArity 4 (length cols))
  end.

Section slot.
Context {W T R : Type} {KT : KvTree W T} {RT : RTreeOps W R}.
Notation State := (SpatialIndexState T R).
Notation SPM := (SM (W * list Page) StoreError).

Definition state_quadtree (columns : list nat) (bounds : Rect) (bucket_size : nat) (table : TableId) : SM W StoreError State :=
  quad_new bounds bucket_size table ≫= fun qt => mret (Build_SpatialIndexState columns (SQuad qt) table true).

Definition state_rtree (columns : list nat) (max_entries : nat) (table : TableId) : SM W StoreError State :=
  rt_new max_entries table ≫= fun rt => mret (Build_SpatialIndexState columns (SRTree rt) table true).

Definition fresh_like (s : State) : SM W StoreError State :=
  match ss_index s with
  | SQuad qt => state_quadtree (ss_columns s) (qd_bounds qt) (qd_bucket_size qt) (ss_table s)
  | SRTree rt => state_rtree (ss_columns s) (rt_max_entries rt) (ss_table s)
  end.

Definition rebuilding_like (s : State) : SM W StoreError State :=
  fresh_like s ≫= fun s => mret (Build_SpatialIndexState (ss_columns s) (ss_index s) (ss_table s) false).

Definition check_ready (s : State) : result StoreError unit := if ss_ready s then Ok tt else Err SpatialRebuilding.

Definition with_index (s : State) (i : SpatialIndex T R) : State := Build_SpatialIndexState (ss_columns s) i (ss_table s) (ss_ready s).

Definition check_insert (s : State) (values : row) : result StoreError unit :=
  match ss_index s with
  | SQuad _ => Ok tt
  | SRTree _ =>
      box_of (ss_columns s) values ≫= fun b =>
      if fle (ab_min_x b) (ab_max_x b) && fle (ab_min_y b) (ab_max_y b) then Ok tt else Err SpatialBoxInverted
  end.

Definition insert_row (s : State) (r : row) (pk : list Z) : SPM State :=
  if negb (ss_ready s) then mret s
  else
    match ss_index s with
    | SQuad qt => sm_lift (point_of (ss_columns s) r) ≫= fun '(x, y) => quad_insert qt x y pk ≫= fun '(_, qt) => mret (with_index s (SQuad qt))
    | SRTree rt => sm_lift (box_of (ss_columns s) r) ≫= fun b => rt_insert rt b pk ≫= fun rt => mret (with_index s (SRTree rt))
    end.

Definition remove_row (s : State) (r : row) (pk : list Z) : SPM State :=
  if negb (ss_ready s) then mret s
  else
    match ss_index s with
    | SQuad qt => sm_lift (point_of (ss_columns s) r) ≫= fun '(x, y) => quad_remove qt x y pk ≫= fun '(_, qt) => mret (with_index s (SQuad qt))
    | SRTree rt => sm_lift (box_of (ss_columns s) r) ≫= fun b => rt_remove rt b pk ≫= fun rt => mret (with_index s (SRTree rt))
    end.

(** A point is its own box. *)
Definition point_box (e : Entry) : Aabb * list Z := ({| ab_min_x := en_x e; ab_min_y := en_y e; ab_max_x := en_x e; ab_max_y := en_y e |}, en_pk e).

Definition spatial_entries (w : W) (s : State) : result StoreError (list (Aabb * list Z)) :=
  match ss_index s with
  | SQuad qt => quad_entries w qt ≫= fun es => Ok (map point_box es)
  | SRTree rt => rt_entries w rt
  end.

Definition region (w : W) (s : State) (r : Rect) : result StoreError (list (list Z)) :=
  check_ready s ≫= fun _ =>
  match ss_index s with
  | SQuad qt => query_region w qt r
  | SRTree rt => rt_query_region w rt {| ab_min_x := rc_x r; ab_min_y := rc_y r; ab_max_x := fadd (rc_x r) (rc_w r); ab_max_y := fadd (rc_y r) (rc_h r) |}
  end.

Definition radius (w : W) (s : State) (x y r : Z) : result StoreError (list (list Z)) :=
  check_ready s ≫= fun _ => match ss_index s with SQuad qt => query_radius w qt x y r | SRTree rt => rt_query_radius w rt x y r end.

Definition point (w : W) (s : State) (x y : Z) : result StoreError (list (list Z)) :=
  check_ready s ≫= fun _ => match ss_index s with SQuad qt => query_point w qt x y | SRTree rt => rt_query_point w rt x y end.

(** ** Rebuilds *)

Fixpoint insert_all (s : State) (rs : list (list Z * row)) : SPM State :=
  match rs with
  | [] => mret s
  | (pk, r) :: rs => insert_row s r pk ≫= fun s => insert_all s rs
  end.

(** One slot of [rebuild_spatial_indexes]: the superseded pages are the list. *)
Definition rebuild (s : State) (rs : list (list Z * row)) : SPM State := fun '(w, sup) =>
  match fresh_like s w with
  | (Ok fresh, w) => insert_all fresh rs (w, sup)
  | (Err e, w) => (Err e, (w, sup))
  end.

(** Equality of [f64] boxes and keys. *)
Definition box_eq (a b : Aabb * list Z) : bool :=
  feq (ab_min_x a.1) (ab_min_x b.1) && feq (ab_min_y a.1) (ab_min_y b.1) && feq (ab_max_x a.1) (ab_max_x b.1) && feq (ab_max_y a.1) (ab_max_y b.1) && bool_decide (a.2 = b.2).

(** The spatial part of [verify_index_integrity]. *)
Definition spatial_verify (w : W) (rs : list (list Z * row)) (s : State) : result StoreError unit :=
  if negb (ss_ready s) then Ok tt
  else
    match rebuild s rs (w, []) with
    | (Ok rebuilt, (w, _)) =>
        spatial_entries w rebuilt ≫= fun expected => spatial_entries w s ≫= fun found =>
        if forallb2 box_eq expected found then Ok tt else Err SpatialDiverged
    | (Err e, _) => Err e
    end.

#[export] Instance spatial_side : SideIndex W State := {| si_check := check_insert; si_insert := insert_row; si_remove := remove_row |}.
#[export] Instance spatial_check : SideVerify W State := spatial_verify.

(** ** Reads of a table *)

Context {RC : RowCodec}.

Definition spatial_of (ts : TableState T State) : result StoreError State := match spatial ts with Some s => Ok s | None => Err SpatialMissing end.

Definition eval_spatial (w : W) (ts : TableState T State) (p : SpatialPredicate) : result StoreError (list row) :=
  validate p ≫= fun _ =>
  spatial_of ts ≫= fun s =>
  match p with
  | PInRegion x y rw rh => region w s {| rc_x := x; rc_y := y; rc_w := rw; rc_h := rh |}
  | PWithinRadius x y r => radius w s x y r
  end ≫= fun pks => rows_of w ts pks.
End slot.
