(* ===== verification/SpatialProps.v ===== *)
(** The spatial slot of a table follows its rows: [spatial_follows] for every
    sequence of row changes a commit can make, [spatial_integrity] for the check
    against a rebuild. *)

From stdpp Require Import base list gmap sorting numbers.
From Stdlib Require Import ZArith Lia.
From S2P Require Import Prelude FluxBin Row IndexKey PageFormat PagedTree PagedTreeNode PagedTreeRep PagedTreeWrite PagedTreeSpec KvTree TxState LogRecord TableState TableSpec Reclaim MemStore MergeSpec IndexSpec Ieee QuadTree QuadTreeRep QuadTreeSpec QuadTreeProps Spatial.
From stdpp Require Import list.
#[local] Open Scope Z_scope.

Notation content := (gmap (list Z) row).

(** * Points of rows *)

Definition entry_of (cols : list nat) (pk : list Z) (r : row) : option Entry :=
  match point_of cols r with Ok (x, y) => Some {| en_x := x; en_y := y; en_pk := pk |} | Err _ => None end.

Definition placed (cols : list nat) (pk : list Z) (r : row) : Prop := exists e, entry_of cols pk r = Some e /\ entry_ok e.

Lemma entry_of_pk cols pk r e : entry_of cols pk r = Some e -> en_pk e = pk.
Proof. unfold entry_of. destruct (point_of cols r) as [[x y]|]; [|done]. by intros [= <-]. Qed.

(** The sorted points of the rows of a table. *)
Definition tracks (cols : list nat) (M : content) (E : list Entry) : Prop :=
  points E /\ forall e, e ∈ E <-> exists r, M !! en_pk e = Some r /\ entry_of cols (en_pk e) r = Some e.

Lemma tracks_empty cols : tracks cols ∅ [].
Proof. split; [apply points_nil|]. intros e. split; [intros H; by inversion H|]. by intros (r & [=] & _). Qed.

Lemma tracks_add cols M E pk r e : tracks cols M E -> M !! pk = None -> entry_of cols pk r = Some e -> entry_ok e -> tracks cols (<[pk := r]> M) (ins e E) /\ e ∉ E.
Proof.
  intros [HE HM] Hpk He Hok. pose proof (entry_of_pk _ _ _ _ He) as Ep. assert (e ∉ E) as Hn by (rewrite HM, Ep, Hpk; by intros (? & [=] & _)).
  split; [|done]. split; [by apply points_insert|]. intros a. rewrite elem_of_ins by (try done; apply HE). rewrite HM. destruct (decide (en_pk a = pk)) as [Ea|Ea].
  - rewrite Ea, Hpk, lookup_insert_eq. split; [intros [->|(? & [=] & _)]; by exists r|]. intros (? & [= <-] & Ha). left. congruence.
  - rewrite lookup_insert_ne by congruence. split; [intros [->|H]; [congruence|done]|by right].
Qed.

Lemma tracks_remove cols M E pk r e : tracks cols M E -> M !! pk = Some r -> entry_of cols pk r = Some e -> tracks cols (delete pk M) (del e E) /\ e ∈ E.
Proof.
  intros [HE HM] Hpk He. pose proof (entry_of_pk _ _ _ _ He) as Ep. assert (e ∈ E) as Hin by (rewrite HM, Ep; by exists r).
  split; [|done]. split; [by apply points_filter|]. intros a. unfold del. rewrite elem_of_kept, HM, negb_true_iff, bool_decide_eq_false. destruct (decide (en_pk a = pk)) as [Ea|Ea].
  - rewrite Ea, Hpk, lookup_delete_eq. split; [|by intros (? & [=] & _)]. intros [(? & [= <-] & Ha) Hne]. congruence.
  - rewrite lookup_delete_ne by congruence. split; [by intros [? _]|]. intros H. split; [done|]. by intros ->.
Qed.

Lemma tracks_placed cols M E pk r : tracks cols M E -> map_Forall (placed cols) M -> M !! pk = Some r -> exists e, entry_of cols pk r = Some e /\ e ∈ E.
Proof. intros [_ HM] HP Hr. destruct (HP pk r Hr) as (e & He & _). exists e. split; [done|]. apply HM. rewrite (entry_of_pk _ _ _ _ He). by exists r. Qed.

Lemma tracks_unique cols M E E' : tracks cols M E -> tracks cols M E' -> E = E'.
Proof. intros [HE H] [HE' H']. apply points_unique; [done..|]. intros e. by rewrite H, H'. Qed.

Lemma tracks_keys_nodup cols M E : tracks cols M E -> NoDup (map en_pk E).
Proof.
  intros [HE HM]. assert (NoDup E) as Hnd.
  { clear HM. induction E as [|a E IH]; [constructor|]. apply points_cons in HE as (_ & Hf & HE). constructor; [by apply after_not_in|by apply IH]. }
  apply NoDup_fmap_2_strong; [|done]. intros a b (ra & Ha & Ea)%HM (rb & Hb & Eb)%HM E1. rewrite E1 in Ha, Ea. congruence.
Qed.

Lemma tracks_length cols M E : tracks cols M E -> (length E <= size M)%nat.
Proof.
  intros HT. rewrite <- (length_map en_pk), <- size_dom. rewrite <- (size_list_to_set (C := gset (list Z)) _ (tracks_keys_nodup _ _ _ HT)). apply subseteq_size.
  intros pk. rewrite elem_of_list_to_set, list_elem_of_In, in_map_iff. intros (e & <- & He%list_elem_of_In). apply HT in He as (r & Hr & _). by eapply elem_of_dom_2.
Qed.

(** The keys of the rows whose point passes a test. *)
Definition row_in (P : Entry -> bool) (cols : list nat) (p : list Z * row) : bool := match entry_of cols p.1 p.2 with Some e => P e | None => false end.
Definition keys_in (P : Entry -> bool) (cols : list nat) (M : content) : list (list Z) := map fst (List.filter (row_in P cols) (map_to_list M)).

Lemma kept_nodup {A} (g : A -> list Z) (P : A -> bool) l : NoDup (map g l) -> NoDup (map g (List.filter P l)).
Proof.
  induction l as [|a l IH]; [done|]. cbn [map List.filter]. intros [Hn Hnd]%NoDup_cons. destruct (P a); [|by apply IH]. cbn [map]. constructor; [|by apply IH]. intros Ha. apply Hn. rewrite list_elem_of_In, in_map_iff in Ha. rewrite list_elem_of_In, in_map_iff.
  destruct Ha as (x & E & [Hx _]%filter_In). by exists x.
Qed.

Lemma tracks_keys cols M E P : tracks cols M E -> map en_pk (List.filter P E) ≡ₚ keys_in P cols M.
Proof.
  intros HT. apply NoDup_Permutation.
  - apply kept_nodup. by eapply tracks_keys_nodup.
  - apply kept_nodup, NoDup_fst_map_to_list.
  - intros pk. unfold keys_in. rewrite !list_elem_of_In, !in_map_iff. setoid_rewrite <- list_elem_of_In. setoid_rewrite elem_of_kept. destruct HT as [_ HM]. split.
    + intros (e & <- & (r & Hr & He)%HM & HP). exists (en_pk e, r). split; [done|]. split; [by apply elem_of_map_to_list|]. unfold row_in. cbn [fst snd]. by rewrite He.
    + intros ([k r] & <- & Hr%elem_of_map_to_list & HP). unfold row_in in HP. cbn [fst snd] in *. destruct (entry_of cols k r) as [e|] eqn:He; [|done]. exists e. pose proof (entry_of_pk _ _ _ _ He) as Ep. split; [done|]. split; [|done]. apply HM. rewrite Ep. by exists r.
Qed.

(** * Maintenance *)

Section slot.
Context {W T R : Type} {KT : KvTree W T} {KL : KvTreeLaws W T} {RT : RTreeOps W R}.
Context (cols : list nat) (b : Rect) (table : TableId).
Notation State := (SpatialIndexState T R).

(** A quadtree slot that tracks the rows [M]. *)
Definition slot_is (c : nat) (s : State) (M : content) (w : W) (f : list Page) : Prop := exists t E,
  s = Build_SpatialIndexState cols (SQuad t) table true /\ tracks cols M E /\ quad_is b c E t w f.

Lemma slot_le c s M w w' f : kt_le w w' -> slot_is c s M w f -> slot_is c s M w' f.
Proof using KL. intros L (t & E & -> & HT & H1 & H2 & H3 & H4). exists t, E. split; [done|]. split; [done|]. split; [done|]. split; [done|]. split; [done|]. by eapply kt_is_le. Qed.

Lemma placed_point pk r : placed cols pk r -> exists e, entry_of cols pk r = Some e /\ entry_ok e /\ point_of cols r = Ok (en_x e, en_y e) /\ en_pk e = pk.
Proof. intros (e & He & Hok). exists e. split; [done|]. split; [done|]. unfold entry_of in He. destruct (point_of cols r) as [[x y]|]; [|done]. injection He as <-. done. Qed.

Lemma upd_insert_row c s M w f pk r : slot_is c s M w f -> M !! pk = None -> placed cols pk r -> Z.of_nat (size M) + 1 < 2 ^ 31 ->
  upd (insert_row s r pk) w f (fun s' => slot_is c s' (<[pk := r]> M)).
Proof using KL.
  intros (t & E & -> & HT & Ht) Hpk (e & He & Hok & Ep & <-)%placed_point Hsz. unfold insert_row. cbn [ss_ready ss_index ss_columns negb].
  apply (upd_lift _ _ _ _ _ _ Ep). pose proof (tracks_length _ _ _ HT). destruct (tracks_add cols M E _ r e HT Hpk He Hok) as [HT' _].
  eapply upd_bind; [apply (upd_insert b c e E t w f Hok (proj1 HT)); [unfold fits; cbn [length]; lia|done]|intros []; apply room_ret|].
  intros [ch t'] w' f' _ [_ Ht']. apply upd_ret. by exists t', (ins e E).
Qed.

Lemma upd_remove_row c s M w f pk r : slot_is c s M w f -> M !! pk = Some r -> placed cols pk r -> Z.of_nat (size M) < 2 ^ 31 ->
  upd (remove_row s r pk) w f (fun s' => slot_is c s' (delete pk M)).
Proof using KL.
  intros (t & E & -> & HT & Ht) Hpk (e & He & Hok & Ep & <-)%placed_point Hsz. unfold remove_row. cbn [ss_ready ss_index ss_columns negb].
  apply (upd_lift _ _ _ _ _ _ Ep). pose proof (tracks_length _ _ _ HT). destruct (tracks_remove cols M E _ r e HT Hpk He) as [HT' _].
  eapply upd_bind; [apply (upd_remove b c e E t w f Hok (proj1 HT)); [unfold fits; lia|done]|intros []; apply room_ret|].
  intros [ch t'] w' f' _ [_ Ht']. apply upd_ret. by exists t', (del e E).
Qed.
End slot.

(** An R-tree never gives page ids back. *)
Class RTreeLaws (W T R : Type) {KT : KvTree W T} {KL : KvTreeLaws W T} {RT : RTreeOps W R} := {
  rt_insert_room (rt : R) bx pk : keeps_room (rt_insert rt bx pk);
  rt_remove_room (rt : R) bx pk : keeps_room (rt_remove rt bx pk);
}.

Section rooms.
Context {W T R : Type} {KT : KvTree W T} {KL : KvTreeLaws W T} {RT : RTreeOps W R} {RL : RTreeLaws W T R}.
Implicit Types s : SpatialIndexState T R.

Lemma room_insert_row s r pk : keeps_room (insert_row s r pk).
Proof using KL RL.
  unfold insert_row. destruct (ss_ready s); [|apply room_ret]. destruct (ss_index s); cbn [negb].
  - apply room_bind; [auto with room|]. intros []. apply room_bind; [apply room_insert|]. intros []. apply room_ret.
  - apply room_bind; [auto with room|]. intros bx. apply room_bind; [apply rt_insert_room|]. intros. apply room_ret.
Qed.

Lemma room_remove_row s r pk : keeps_room (remove_row s r pk).
Proof using KL RL.
  unfold remove_row. destruct (ss_ready s); [|apply room_ret]. destruct (ss_index s); cbn [negb].
  - apply room_bind; [auto with room|]. intros []. apply room_bind; [apply room_remove|]. intros []. apply room_ret.
  - apply room_bind; [auto with room|]. intros bx. apply room_bind; [apply rt_remove_room|]. intros. apply room_ret.
Qed.

Lemma room_insert_all rs : forall s, keeps_room (insert_all s rs).
Proof using KL RL. induction rs as [|[pk r] rs IH]; intros s; [apply room_ret|]. cbn [insert_all]. apply room_bind; [apply room_insert_row|]. intros. apply IH. Qed.

(** The slot keeps the promise the store asks of its side indexes. *)
#[export] Instance spatial_side_laws : SideIndexLaws W T (SpatialIndexState T R).
Proof using KL RL. split; [apply room_insert_row|apply room_remove_row]. Qed.
End rooms.

(** * Histories and rebuilds *)

Section history.
Context {W T R : Type} {KT : KvTree W T} {RT : RTreeOps W R}.
Notation State := (SpatialIndexState T R).
Notation SPM := (SM (W * list Page) StoreError).

(** A row change as a commit makes it: the old row, if any, is removed and the
    new one, if any, inserted. *)
Definition row_op (s : State) (M : content) (op : list Z * option row) : SPM State :=
  match M !! op.1 with Some old => si_remove s old op.1 | None => mret s end ≫= fun s =>
  match op.2 with Some new => si_insert s new op.1 | None => mret s end.

Definition after_op (M : content) (op : list Z * option row) : content := partial_alter (fun _ => op.2) op.1 M.

Fixpoint row_ops (s : State) (M : content) (ops : list (list Z * option row)) : SPM State :=
  match ops with
  | [] => mret s
  | op :: ops => row_op s M op ≫= fun s => row_ops s (after_op M op) ops
  end.

(** A new slot and row changes. *)
Definition slot_run (cols : list nat) (b : Rect) (c : nat) (table : TableId) (ops : list (list Z * option row)) (w : W) : result StoreError State * (W * list Page) :=
  match state_quadtree cols b c table w with
  | (Ok s, w) => row_ops s ∅ ops (w, [])
  | (Err e, w) => (Err e, (w, []))
  end.

Definition rows_after (ops : list (list Z * option row)) : content := fold_left after_op ops ∅.

Context {KL : KvTreeLaws W T} {RL : RTreeLaws W T R}.
Context (cols : list nat) (b : Rect) (table : TableId).
Notation slot := (slot_is cols b table).

Lemma upd_row_op c s M w f op : slot c s M w f -> map_Forall (placed cols) M -> (forall r, op.2 = Some r -> placed cols op.1 r) -> Z.of_nat (size M) + 1 < 2 ^ 31 ->
  upd (row_op s M op) w f (fun s' => slot c s' (after_op M op)).
Proof using KL RL.
  intros Hs HM Hop Hsz. destruct op as [pk new]. unfold row_op, after_op. cbn [fst snd] in *.
  assert (forall s w f, slot c s (delete pk M) w f -> upd (match new with Some r => insert_row s r pk | None => mret s end) w f (fun s' => slot c s' (partial_alter (fun _ => new) pk M))) as Hnew.
  { intros s1 w1 f1 H1. assert (size (delete pk M) <= size M)%nat as Hd by (rewrite map_size_delete; destruct (M !! pk); unfold id; lia). destruct new as [r|].
    - eapply upd_weaken; [|apply (upd_insert_row cols b table c s1 _ w1 f1 pk r H1); [apply lookup_delete_eq|by apply Hop|lia]]. intros s2 w2 f2 _. by rewrite insert_delete_eq.
    - by apply upd_ret. }
  destruct (M !! pk) as [old|] eqn:E.
  - eapply upd_bind; [apply (upd_remove_row cols b table c s M w f pk old Hs E (HM pk old E)); lia|intros; destruct new; [apply room_insert_row|apply room_ret]|]. intros s1 w1 f1 _. apply Hnew.
  - apply (Hnew s w f). by rewrite delete_id.
Qed.

Lemma room_row_ops ops : forall s M, keeps_room (row_ops s M ops).
Proof using KL RL.
  induction ops as [|op ops IH]; intros s M; [apply room_ret|]. cbn [row_ops]. apply room_bind; [|intros; apply IH]. unfold row_op.
  apply room_bind; [destruct (M !! op.1); [apply room_remove_row|apply room_ret]|]. intros. destruct op.2; [apply room_insert_row|apply room_ret].
Qed.

Lemma after_op_placed M op : map_Forall (placed cols) M -> (forall r, op.2 = Some r -> placed cols op.1 r) -> map_Forall (placed cols) (after_op M op).
Proof.
  intros HM Hop pk r. unfold after_op. destruct (decide (op.1 = pk)) as [<-|Hne]; [rewrite lookup_partial_alter_eq; apply Hop|rewrite lookup_partial_alter_ne by done; apply HM].
Qed.

Lemma size_after_op M op : (size (after_op M op) <= S (size M))%nat.
Proof.
  destruct op as [pk [r|]]; unfold after_op; cbn [fst snd].
  - change (partial_alter (fun _ => Some r) pk M) with (<[pk := r]> M). rewrite map_size_insert. destruct (M !! pk); unfold id; lia.
  - change (partial_alter (fun _ => None) pk M) with (delete pk M). rewrite map_size_delete. destruct (M !! pk); unfold id; lia.
Qed.

Lemma upd_row_ops c ops : forall s M w f, slot c s M w f -> map_Forall (placed cols) M -> Forall (fun op => forall r, op.2 = Some r -> placed cols op.1 r) ops ->
  Z.of_nat (size M + length ops) < 2 ^ 31 -> upd (row_ops s M ops) w f (fun s' => slot c s' (fold_left after_op ops M)).
Proof using KL RL.
  induction ops as [|op ops IH]; intros s M w f Hs HM Hops Hsz; [by apply upd_ret|]. apply Forall_cons in Hops as [Hop Hops]. cbn [length row_ops fold_left] in *. pose proof (size_after_op M op).
  eapply upd_bind; [apply (upd_row_op c s M w f op Hs HM Hop); lia|intros; apply room_row_ops|]. intros s1 w1 f1 _ H1. apply IH; [done|by apply after_op_placed|done|lia].
Qed.

Lemma rows_after_placed ops : Forall (fun op => forall r, op.2 = Some r -> placed cols op.1 r) ops -> map_Forall (placed cols) (rows_after ops).
Proof.
  unfold rows_after. assert (map_Forall (placed cols) ∅) as H0 by apply map_Forall_empty. revert H0. generalize (∅ : content) as M. induction ops as [|op ops IH]; intros M HM Hops; [done|].
  apply Forall_cons in Hops as [Hop Hops]. cbn [fold_left]. apply IH; [by apply after_op_placed|done].
Qed.

Lemma size_rows_after ops : (size (rows_after ops) <= length ops)%nat.
Proof.
  unfold rows_after. change (length ops) with (0 + length ops)%nat. assert (size (∅ : content) <= 0)%nat as H0 by (by rewrite map_size_empty). revert H0. generalize 0%nat as n. generalize (∅ : content) as M.
  induction ops as [|op ops IH]; intros M n Hn; cbn [fold_left length]; [lia|]. replace (n + S (length ops))%nat with (S n + length ops)%nat by lia. apply IH. pose proof (size_after_op M op). lia.
Qed.

Lemma state_quadtree_spec c w : kt_ok w -> kt_room (state_quadtree (R := R) cols b c table w).2 ->
  exists (s : State) w' f, state_quadtree cols b c table w = (Ok s, w') /\ kt_le w w' /\ slot (Nat.max c 1) s ∅ w' f.
Proof using KL.
  intros Hok Hroom. unfold state_quadtree, mbind, sm_bind in *. destruct (quad_new b c table w) as [r w1] eqn:En.
  destruct (quad_new_spec b c table w Hok) as (t & w2 & f & E & Hle & Ht); [rewrite En; by destruct r|]. rewrite En in E. injection E as -> ->.
  eexists _, w2, f. split; [done|]. split; [done|]. exists t, []. split; [done|]. split; [apply tracks_empty|done].
Qed.

Lemma slot_run_spec c ops w : kt_ok w -> Forall (fun op => forall r, op.2 = Some r -> placed cols op.1 r) ops -> Z.of_nat (length ops) < 2 ^ 31 ->
  kt_room (slot_run cols b c table ops w).2.1 ->
  exists (s : State) w' sup f, slot_run cols b c table ops w = (Ok s, (w', sup)) /\ kt_ok w' /\ slot (Nat.max c 1) s (rows_after ops) w' f.
Proof using KL RL.
  intros Hok Hops Hlen Hroom. unfold slot_run in *. destruct (state_quadtree cols b c table w) as [r w1] eqn:En.
  destruct (state_quadtree_spec c w Hok) as (s & w2 & f & E & Hle & Hs). { rewrite En. destruct r as [s|]; [|exact Hroom]. exact (room_row_ops ops s ∅ (w1, []) Hroom). }
  rewrite En in E. injection E as -> ->.
  destruct (upd_row_ops (Nat.max c 1) ops s ∅ w2 f Hs (map_Forall_empty _) Hops Hlen (kt_le_ok _ _ Hle) [] Hroom) as (s' & w' & f' & ret & E & S & H).
  exists s', w', ret, f'. split; [done|]. split; [exact (kt_le_ok _ _ (step_le _ _ _ _ _ S))|done].
Qed.

(** ** Rebuilds *)

Lemma upd_insert_all c rs : forall s M w f, slot c s M w f -> NoDup rs.*1 -> Forall (fun p => M !! p.1 = None /\ placed cols p.1 p.2) rs -> Z.of_nat (size M + length rs) < 2 ^ 31 ->
  upd (insert_all s rs) w f (fun s' => slot c s' (list_to_map rs ∪ M)).
Proof using KL RL.
  induction rs as [|[pk r] rs IH]; intros s M w f Hs Hnd Hrs Hsz; [cbn [list_to_map foldr]; rewrite (left_id_L ∅ (∪)); by apply upd_ret|].
  apply NoDup_cons in Hnd as [Hn Hnd]. apply Forall_cons in Hrs as [[Hpk Hp] Hrs]. cbn [length insert_all fst snd] in *.
  eapply upd_bind; [apply (upd_insert_row cols b table c s M w f pk r Hs Hpk Hp); lia|intros; apply room_insert_all|]. intros s1 w1 f1 _ H1.
  eapply upd_weaken; [|apply (IH s1 _ w1 f1 H1 Hnd)].
  - intros s2 w2 f2 _ H2. cbn [list_to_map foldr fst snd]. change (foldr (fun p => <[p.1 := p.2]>) ∅ rs) with (list_to_map (M := content) rs). rewrite <- insert_union_l, insert_union_r; [done|]. by apply not_elem_of_list_to_map_1.
  - rewrite Forall_forall in *. intros p Hin. destruct (Hrs p Hin) as [Hnone Hpl]. split; [|done]. rewrite lookup_insert_ne; [done|]. intros E. apply Hn. rewrite E. exact (list_elem_of_fmap_2 fst rs p Hin).
  - rewrite map_size_insert_None by done. lia.
Qed.

(** A rebuild over the rows tracks them too. *)
Lemma slot_rebuild c s M w f rs sup : kt_ok w -> slot c s M w f -> map_Forall (placed cols) M -> rs ≡ₚ map_to_list M -> Z.of_nat (size M) < 2 ^ 31 -> kt_room (rebuild s rs (w, sup)).2.1 ->
  exists s' w' sup' f', rebuild s rs (w, sup) = (Ok s', (w', sup')) /\ kt_le w w' /\ slot (Nat.max c 1) s' M w' f'.
Proof using KL RL.
  intros Hok (t & E & -> & HT & Ht) HM Hrs Hsz Hroom. unfold rebuild in *. unfold fresh_like in *. cbn [ss_index ss_columns ss_table] in *. destruct Ht as (Hb & Hc & _). rewrite Hb, Hc in *.
  destruct (state_quadtree cols b c table w) as [r w1] eqn:En.
  destruct (state_quadtree_spec c w Hok) as (s & w2 & f2 & E2 & Hle & Hs). { rewrite En. destruct r as [s|]; [|exact Hroom]. exact (room_insert_all rs s (w1, sup) Hroom). }
  rewrite En in E2. injection E2 as -> ->.
  assert (upd (insert_all s rs) w2 f2 (fun s' => slot (Nat.max c 1) s' (list_to_map rs ∪ ∅))) as Hupd.
  { apply upd_insert_all; [done|rewrite Hrs; apply NoDup_fst_map_to_list| |rewrite map_size_empty, Hrs, length_map_to_list; lia].
    apply Forall_forall. intros [pk r] Hin. rewrite Hrs in Hin. apply elem_of_map_to_list in Hin. split; [apply lookup_empty|by apply HM]. }
  destruct (Hupd (kt_le_ok _ _ Hle) sup Hroom) as (s' & w' & f' & ret & E3 & S & H).
  exists s', w', (sup ++ ret), f'. split; [done|]. split; [exact (kt_le_trans _ _ _ Hle (step_le _ _ _ _ _ S))|]. rewrite (right_id_L ∅ (∪)) in H.
  replace (list_to_map rs) with M in H; [done|]. symmetry. rewrite <- (list_to_map_to_list M). apply list_to_map_proper; [|done]. rewrite Hrs. apply NoDup_fst_map_to_list.
Qed.
End history.

(** * Reads *)

Section reads.
Context {W T R : Type} {KT : KvTree W T} {KL : KvTreeLaws W T} {RT : RTreeOps W R}.
Context (cols : list nat) (b : Rect) (table : TableId) (c : nat) (s : SpatialIndexState T R) (M : content) (w : W) (f : list Page).
Context (Hok : kt_ok w) (Hs : slot_is cols b table c s M w f).

Lemma slot_entries : exists E, tracks cols M E /\ spatial_entries w s = Ok (map point_box E).
Proof using Hok Hs KL.
  destruct Hs as (t & E & -> & HT & Ht). exists E. split; [done|]. unfold spatial_entries. cbn [ss_index]. by rewrite (quad_entries_spec b c E (proj1 HT) t w f Hok Ht).
Qed.

Lemma slot_point x y : exists out, point w s x y = Ok out /\ out ≡ₚ keys_in (at_point x y) cols M.
Proof using Hok Hs KL.
  destruct Hs as (t & E & -> & HT & Ht). exists (map en_pk (List.filter (at_point x y) E)). split; [|by apply tracks_keys]. exact (query_point_spec b c E (proj1 HT) t w f Hok Ht x y).
Qed.

(** A property of the points of all rows. *)
Definition all_points (P : Entry -> Prop) : Prop := forall pk r e, M !! pk = Some r -> entry_of cols pk r = Some e -> P e.

Lemma all_points_tracked E P : tracks cols M E -> all_points P -> Forall P E.
Proof. intros [_ HM] HP. apply Forall_forall. intros e (r & Hr & He)%HM. by eapply HP. Qed.

Context (Hst : all_points (fun e => inside b e = true -> stays 32 b e = true)).

Lemma slot_region rect : exists out, region w s rect = Ok out /\ out ≡ₚ keys_in (inside rect) cols M.
Proof using Hok Hs KL Hst.
  destruct Hs as (t & E & -> & HT & Ht). destruct (query_region_spec b c E (proj1 HT) t w f Hok Ht (all_points_tracked E _ HT Hst) rect) as (out & Eo & HP). exists out. split; [exact Eo|]. etrans; [exact HP|by apply tracks_keys].
Qed.

Lemma slot_radius x y r : negative_or_nan r = false -> all_points (fun e => within_radius x y (fmul r r) e = true -> inside (search_box x y r) e = true) ->
  exists out, radius w s x y r = Ok out /\ out ≡ₚ keys_in (within_radius x y (fmul r r)) cols M.
Proof using Hok Hs KL Hst.
  intros [Hn Hneg]%orb_false_iff Hbox. destruct Hs as (t & E & -> & HT & Ht).
  destruct (query_radius_spec b c E (proj1 HT) t w f Hok Ht (all_points_tracked E _ HT Hst) x y r Hn Hneg (all_points_tracked E _ HT Hbox)) as (out & Eo & HP). exists out. split; [exact Eo|]. etrans; [exact HP|by apply tracks_keys].
Qed.

Context {RC : RowCodec} {RL : RowCodecLaws}.

Lemma omap_keys (P : Entry -> bool) : omap (fun pk => M !! pk) (keys_in P cols M) = map snd (List.filter (row_in P cols) (map_to_list M)).
Proof.
  unfold keys_in. assert (forall p, p ∈ List.filter (row_in P cols) (map_to_list M) -> M !! p.1 = Some p.2) as Hin. { intros [pk r] [Hp _]%elem_of_kept. by apply elem_of_map_to_list in Hp. }
  revert Hin. generalize (List.filter (row_in P cols) (map_to_list M)) as l. induction l as [|p l IH]; intros Hin; [done|]. cbn [map omap list_omap]. rewrite (Hin p) by left. f_equal. apply IH. intros q Hq. apply Hin. by right.
Qed.

(** [IN REGION] returns the rows whose point is in the region. *)
Lemma eval_region_rows (ts : TableState T (SpatialIndexState T R)) n fr x y rw rh : rows_is w (rows ts) n M fr -> spatial ts = Some s -> negative_or_nan rw = false -> negative_or_nan rh = false ->
  exists out, eval_spatial w ts (PInRegion x y rw rh) = Ok out /\ out ≡ₚ map snd (List.filter (row_in (inside {| rc_x := x; rc_y := y; rc_w := rw; rc_h := rh |}) cols) (map_to_list M)).
Proof using Hok Hs KL Hst RL.
  intros Hr Hsp Hw Hh. destruct (slot_region {| rc_x := x; rc_y := y; rc_w := rw; rc_h := rh |}) as (pks & Ep & HP).
  assert (rows_of w ts pks = Ok (omap (fun pk => M !! pk) pks)) as Er.
  { assert (forall pk, pk ∈ pks -> is_Some (M !! pk)) as Hin.
    { intros pk Hpk. rewrite HP in Hpk. unfold keys_in in Hpk. rewrite list_elem_of_In, in_map_iff in Hpk. destruct Hpk as ([k r] & <- & [Hkr%list_elem_of_In _]%filter_In). apply elem_of_map_to_list in Hkr. by eexists. }
    clear -Hok Hr Hin RL KL. induction pks as [|pk pks IH]; [done|]. cbn [rows_of]. rewrite (row_at_spec _ _ _ _ _ pk Hok Hr). cbn [mbind result_bind]. rewrite IH by (intros; apply Hin; by right). cbn [mbind result_bind]. simpl. by destruct (M !! pk). }
  exists (omap (fun pk => M !! pk) pks). split; [|rewrite <- omap_keys; by rewrite HP]. unfold eval_spatial, validate. rewrite Hw, Hh. cbn [orb mbind result_bind]. unfold spatial_of. rewrite Hsp. cbn [mbind result_bind]. rewrite Ep. exact Er.
Qed.
End reads.

(** * Theorems *)

Definition no_nan (e : Entry) : bool := negb (is_nan 64 (en_x e)) && negb (is_nan 64 (en_y e)).

Lemma feq_refl a : feq a a = negb (is_nan 64 a).
Proof. unfold feq. rewrite Z.eqb_refl. by destruct (is_nan 64 a). Qed.

Lemma boxes_eq E : forallb2 box_eq (map point_box E) (map point_box E) = forallb no_nan E.
Proof.
  induction E as [|e E IH]; [done|]. cbn [map forallb2 forallb]. rewrite IH. f_equal. unfold box_eq, point_box, no_nan. cbn [fst snd ab_min_x ab_min_y ab_max_x ab_max_y]. rewrite !feq_refl, bool_decide_true, andb_true_r by done.
  by destruct (is_nan 64 (en_x e)), (is_nan 64 (en_y e)).
Qed.

Section theorems.
Context {W T R : Type} {KT : KvTree W T} {KL : KvTreeLaws W T} {RT : RTreeOps W R} {RL : RTreeLaws W T R}.
Context (cols : list nat) (b : Rect) (c : nat) (table : TableId) (ops : list (list Z * option row)) (w : W).
Context (Hok : kt_ok w) (Hops : Forall (fun op => forall r, op.2 = Some r -> placed cols op.1 r) ops) (Hlen : Z.of_nat (length ops) < 2 ^ 31).
Context (Hroom : kt_room (slot_run (R := R) cols b c table ops w).2.1).
Notation M := (rows_after ops).

(** C22: Whatever rows a table gains, changes and loses, its quadtree slot accepts every
    change and answers for the rows it has now. A point query returns the keys of
    the rows at that point. Where rounding keeps every point inside the
    rectangles of its path, a region query returns the keys of exactly the rows
    inside the region; and where moreover every point within the radius by the
    computed distance lies in the rounded search box, a radius query (the radius neither negative nor a NaN) returns the keys of
    exactly the rows within it. A rebuild from the rows holds the same entries. *)
Theorem spatial_follows : exists (s : SpatialIndexState T R) w' sup, slot_run cols b c table ops w = (Ok s, (w', sup)) /\
  (forall x y, exists out, point w' s x y = Ok out /\ out ≡ₚ keys_in (at_point x y) cols M) /\
  (all_points cols M (fun e => inside b e = true -> stays 32 b e = true) ->
   (forall rect, exists out, region w' s rect = Ok out /\ out ≡ₚ keys_in (inside rect) cols M) /\
   (forall x y r, negative_or_nan r = false -> all_points cols M (fun e => within_radius x y (fmul r r) e = true -> inside (search_box x y r) e = true) ->
     exists out, radius w' s x y r = Ok out /\ out ≡ₚ keys_in (within_radius x y (fmul r r)) cols M)) /\
  forall rs, rs ≡ₚ map_to_list M -> kt_room (rebuild s rs (w', [])).2.1 ->
    exists s' w2 sup2, rebuild s rs (w', []) = (Ok s', (w2, sup2)) /\ spatial_entries w2 s' = spatial_entries w2 s.
Proof using Hok Hops Hlen Hroom KL RL.
  destruct (slot_run_spec cols b table c ops w Hok Hops Hlen Hroom) as (s & w' & sup & f & E & Hok' & Hs). exists s, w', sup. split; [done|]. split; [intros x y; by eapply slot_point|]. split.
  - intros Hst. split; [intros rect; by eapply slot_region|intros x y r; by eapply slot_radius].
  - intros rs Hrs Hr. pose proof (size_rows_after ops). destruct (slot_rebuild cols b table _ s M w' f rs [] Hok' Hs (rows_after_placed cols ops Hops) Hrs ltac:(lia) Hr) as (s' & w2 & sup2 & f2 & E2 & Hle & Hs').
    exists s', w2, sup2. split; [done|]. pose proof (kt_le_ok _ _ Hle) as Hok2.
    destruct (slot_entries cols b table _ s' M w2 f2 Hok2 Hs') as (E1 & HT1 & ->), (slot_entries cols b table _ s M w2 f Hok2 (slot_le _ _ _ _ _ _ _ _ _ Hle Hs)) as (E3 & HT3 & ->).
    by rewrite (tracks_unique cols M E1 E3 HT1 HT3).
Qed.

(** The integrity check of such a slot passes unless a row has a NaN coordinate;
    then it reports a divergence, although the slot equals a rebuild. *)
Theorem spatial_integrity : exists (s : SpatialIndexState T R) w' sup, slot_run cols b c table ops w = (Ok s, (w', sup)) /\
  forall rs, rs ≡ₚ map_to_list M -> kt_room (rebuild s rs (w', [])).2.1 ->
    (spatial_verify w' rs s = Ok tt <-> all_points cols M (fun e => no_nan e = true)) /\ (spatial_verify w' rs s = Ok tt \/ spatial_verify w' rs s = Err SpatialDiverged).
Proof using Hok Hops Hlen Hroom KL RL.
  destruct (slot_run_spec cols b table c ops w Hok Hops Hlen Hroom) as (s & w' & sup & f & E & Hok' & Hs). exists s, w', sup. split; [done|]. intros rs Hrs Hr. pose proof (size_rows_after ops).
  destruct (slot_rebuild cols b table _ s M w' f rs [] Hok' Hs (rows_after_placed cols ops Hops) Hrs ltac:(lia) Hr) as (s' & w2 & sup2 & f2 & E2 & Hle & Hs'). pose proof (kt_le_ok _ _ Hle) as Hok2.
  destruct (slot_entries cols b table _ s' M w2 f2 Hok2 Hs') as (E1 & HT1 & Ee1), (slot_entries cols b table _ s M w2 f Hok2 (slot_le _ _ _ _ _ _ _ _ _ Hle Hs)) as (E3 & HT3 & Ee3).
  rewrite (tracks_unique cols M E1 E3 HT1 HT3) in Ee1. assert (spatial_verify w' rs s = if forallb no_nan E3 then Ok tt else Err SpatialDiverged) as ->.
  { unfold spatial_verify. destruct Hs as (t & E0 & -> & _). cbn [ss_ready negb]. rewrite E2, Ee1. cbn [mbind result_bind]. rewrite Ee3. cbn [mbind result_bind]. by rewrite boxes_eq. }
  split; [|destruct (forallb no_nan E3); auto]. transitivity (forallb no_nan E3 = true); [by destruct (forallb no_nan E3)|]. rewrite forallb_forall. split.
  - intros Hall pk r e Hpk He. apply Hall, list_elem_of_In, HT3. pose proof (entry_of_pk _ _ _ _ He) as <-. by exists r.
  - intros Hall e (r & Hpk & He)%list_elem_of_In%HT3. by eapply Hall.
Qed.
End theorems.
