(* ===== verification/QuadSample.v ===== *)
(** Concrete quadtrees and a spatial slot: the hypotheses of the results about them
    hold for an ordinary history, and the boundary behaviour that rounding causes. *)

From stdpp Require Import base list gmap sorting numbers.
From Stdlib Require Import ZArith Lia.
From S2P Require Import Prelude FluxBin Row IndexKey PageFormat PagedTree PagedTreeNode PagedTreeRep PagedTreeWrite PagedTreeSpec KvTree TxState LogRecord TableState TableSpec Reclaim MemStore MergeSpec StoreBuild Sample Ieee QuadTree QuadTreeRep QuadTreeSpec QuadTreeProps Spatial SpatialProps.
From stdpp Require Import list.
#[local] Open Scope Z_scope.

Notation f64 n := (float_of_Z 64 n).
Notation cents n := (parse_f64 false n 2).

Definition at_xy (x y : Z) (pk : Z) : Entry := {| en_x := x; en_y := y; en_pk := [pk] |}.

Definition field : Rect := {| rc_x := 0; rc_y := 0; rc_w := f64 100; rc_h := f64 100 |}.

(** Six points in buckets of two, one of them outside the bounds, and a removal. *)
Definition field_ops : list QuadOp :=
  [QuadInsert (at_xy (f64 10) (f64 10) 1); QuadInsert (at_xy (f64 90) (f64 10) 2); QuadInsert (at_xy (f64 10) (f64 90) 3);
   QuadInsert (at_xy (f64 12) (f64 11) 4); QuadInsert (at_xy (f64 200) (f64 10) 5); QuadInsert (at_xy (f64 10) (f64 10) 1);
   QuadRemove (at_xy (f64 90) (f64 10) 2)].

Lemma field_ok : Forall (fun op => entry_ok (op_point op)) field_ops.
Proof. repeat (constructor; [vm_compute; repeat split; congruence|]). constructor. Qed.

Lemma field_room : kt_room (T := PagedTree) (quad_run (KT := paged_tree) field 2 7 field_ops sample_world).2.1.
Proof. apply room_b_ok. vm_compute. reflexivity. Qed.

Definition field_flags : list bool := flags [] field_ops.
Definition field_points : list Entry := contents [] field_ops.

Lemma field_values : field_flags = [true; true; true; true; true; false; true] /\ map en_pk field_points = [[1]; [3]; [4]; [5]].
Proof. vm_compute. done. Qed.

Lemma quad_refines_witness : exists t w' ret f, quad_run field 2 7 field_ops sample_world = (Ok (field_flags, t), (w', ret)) /\
  qd_len t = 4 /\ quad_entries w' t = Ok field_points /\ kt_is w' (qd_store t) (canon field 2 field_points) f.
Proof.
  destruct (quad_refines field 2 7 field_ops sample_world sample_world_ok field_ok ltac:(reflexivity) field_room) as (t & w' & ret & f & E & El & Ee & Ht & _).
  exists t, w', ret, f. split; [exact E|]. split; [rewrite El; vm_compute; reflexivity|]. split; [exact Ee|exact Ht].
Defined.

(** ** A slot over rows *)

#[local] Instance no_rtree : RTreeOps PagedWorld Empty_set := {|
  rt_new _ _ := sm_fail SpatialMissing;
  rt_max_entries x := Empty_set_rect (fun _ => _) x;
  rt_insert x := Empty_set_rect (fun _ => _) x;
  rt_remove x := Empty_set_rect (fun _ => _) x;
  rt_entries _ x := Empty_set_rect (fun _ => _) x;
  rt_query_region _ x := Empty_set_rect (fun _ => _) x;
  rt_query_radius _ x := Empty_set_rect (fun _ => _) x;
  rt_query_point _ x := Empty_set_rect (fun _ => _) x |}.

#[local] Instance no_rtree_laws : RTreeLaws PagedWorld PagedTree Empty_set.
Proof. split; by intros []. Qed.

Definition pin (id x y : Z) : row := [RowValue.U64 id; RowValue.F64 (f64 x); RowValue.F64 (f64 y)].

(** Four rows, one of them moved and one deleted. *)
Definition pin_ops : list (list Z * option row) :=
  [([1], Some (pin 1 10 10)); ([2], Some (pin 2 90 10)); ([3], Some (pin 3 12 80)); ([4], Some (pin 4 200 11)); ([1], Some (pin 1 11 81)); ([2], None)].

Lemma pins_placed : Forall (fun op : list Z * option row => forall r, op.2 = Some r -> placed [1%nat; 2%nat] op.1 r) pin_ops.
Proof. repeat (constructor; [intros r Hr; first [discriminate Hr|injection Hr as <-; eexists; split; [vm_compute; reflexivity|vm_compute; repeat split; congruence]]|]). constructor. Qed.

Lemma pins_room : kt_room (T := PagedTree) (slot_run (KT := paged_tree) (R := Empty_set) [1%nat; 2%nat] field 1 7 pin_ops sample_world).2.1.
Proof. apply room_b_ok. vm_compute. reflexivity. Qed.

Definition pin_rows : gmap (list Z) row := rows_after pin_ops.

(** The test of every row, by computation. *)
Definition every_pin (P : Entry -> bool) : bool := forallb (fun p => match entry_of [1%nat; 2%nat] p.1 p.2 with Some e => P e | None => true end) (map_to_list pin_rows).

Lemma every_pin_ok (P : Entry -> bool) : every_pin P = true -> all_points [1%nat; 2%nat] pin_rows (fun e => P e = true).
Proof.
  unfold every_pin. rewrite forallb_forall. intros H pk r e Hpk He. specialize (H (pk, r)). cbn [fst snd] in H. rewrite He in H. apply H, list_elem_of_In. by apply elem_of_map_to_list.
Qed.

Lemma pins_stay : all_points [1%nat; 2%nat] pin_rows (fun e => inside field e = true -> stays 32 field e = true).
Proof.
  intros pk r e Hpk He Hi. assert (every_pin (fun e => negb (inside field e) || stays 32 field e) = true) as Hb by (vm_compute; reflexivity).
  pose proof (every_pin_ok _ Hb pk r e Hpk He) as Hp. cbv beta in Hp. rewrite Hi in Hp. apply orb_true_iff in Hp as [Hp|Hp]; [discriminate Hp|exact Hp].
Qed.

Lemma spatial_follows_witness : exists (s : SpatialIndexState PagedTree Empty_set) w' sup, slot_run [1%nat; 2%nat] field 1 7 pin_ops sample_world = (Ok s, (w', sup)) /\
  exists out, region w' s {| rc_x := f64 10; rc_y := f64 70; rc_w := f64 5; rc_h := f64 20 |} = Ok out /\ out ≡ₚ [[1]; [3]].
Proof.
  destruct (spatial_follows (R := Empty_set) [1%nat; 2%nat] field 1 7 pin_ops sample_world sample_world_ok pins_placed ltac:(reflexivity) pins_room) as (s & w' & sup & E & _ & Hq & _).
  exists s, w', sup. split; [exact E|]. destruct (proj1 (Hq pins_stay) {| rc_x := f64 10; rc_y := f64 70; rc_w := f64 5; rc_h := f64 20 |}) as (out & Eo & HP). exists out. split; [exact Eo|].
  etrans; [exact HP|]. match goal with |- ?l ≡ₚ _ => let v := eval vm_compute in l in replace l with v by (vm_compute; reflexivity) end. apply NoDup_Permutation; [apply (bool_decide_unpack _); vm_compute; exact I..|]. intros pk. rewrite !elem_of_cons, elem_of_nil. tauto.
Defined.

(** A slot with a NaN coordinate does not pass the integrity check. *)
Definition lost_pin : row := [RowValue.U64 1; RowValue.F64 (f64 1); RowValue.F64 (bits_of 64 SpecFloat.S754_nan)].

Lemma nan_row_diverges :
  match slot_run (R := Empty_set) [1%nat; 2%nat] field 1 7 [([1], Some lost_pin)] sample_world with
  | (Ok s, (w, _)) => spatial_verify w [([1], lost_pin)] s
  | (Err e, _) => Err e
  end = Err SpatialDiverged.
Proof. vm_compute. reflexivity. Qed.

(** ** Rounding at the edges *)

Definition strip : Rect := {| rc_x := parse_f64 true 16 2; rc_y := 0; rc_w := f64 2; rc_h := f64 1 |}.
Definition strip_ops : list QuadOp := [QuadInsert (at_xy (cents 184) 0 1); QuadInsert (at_xy (cents 10) 0 2)].
Definition corner : Rect := {| rc_x := cents 184; rc_y := 0; rc_w := cents 10; rc_h := cents 10 |}.

Definition disc : Rect := {| rc_x := f64 (-5); rc_y := 0; rc_w := cents 612; rc_h := f64 1 |}.
Definition disc_ops : list QuadOp := [QuadInsert (at_xy (parse_f64 true 194 2) 0 1); QuadInsert (at_xy (f64 (-3)) 0 2)].

(** The outcome of a run and of a query of its index. *)
Definition answer {A} (run : result StoreError (list bool * QuadTree PagedTree) * (PagedWorld * list Page)) (q : PagedWorld -> QuadTree PagedTree -> result StoreError A) : result StoreError (list bool * A) :=
  match run with
  | (Ok (l, t), (w, _)) => q w t ≫= fun a => Ok (l, a)
  | (Err e, _) => Err e
  end.

(** A region query and a radius query leave out points on their boundary that the
    filters accept: the extents of child rectangles and the search box are rounded.
    With one bucket for all points the same queries return them. *)
Theorem boundary_points_missed :
  inside strip (at_xy (cents 184) 0 1) = true /\ inside corner (at_xy (cents 184) 0 1) = true /\
  answer (quad_run strip 1 7 strip_ops sample_world) (fun w t => query_region w t corner) = Ok ([true; true], []) /\
  answer (quad_run strip 2 7 strip_ops sample_world) (fun w t => query_region w t corner) = Ok ([true; true], [[1]]) /\
  within_radius (f64 (-3)) 0 (fmul (cents 106) (cents 106)) (at_xy (parse_f64 true 194 2) 0 1) = true /\
  answer (quad_run disc 1 7 disc_ops sample_world) (fun w t => query_radius w t (f64 (-3)) 0 (cents 106)) = Ok ([true; true], [[2]]) /\
  answer (quad_run disc 2 7 disc_ops sample_world) (fun w t => query_radius w t (f64 (-3)) 0 (cents 106)) = Ok ([true; true], [[2]; [1]]).
Proof. vm_compute. repeat split. Qed.
