(* ===== verification/Migration.v ===== *)
(** Schema evolution at startup: the stored catalog of [migration/catalog.rs], its
    diff against the compiled schema ([migration/diff.rs]), the verdicts and the
    automatic changes of [migration/runner.rs] and [migration/context.rs].

    Types keep the names of enums and structs, as [StoredType] does; [plain] drops
    them for the row codec. A compiled table is its layout. Names are UTF-8 bytes;
    the constructor of a default is its value. The MessagePack codec of the
    metadata rows and the hash of a table name are parameters. Error texts are
    constructors; the report and the log lines are not modelled. *)

From stdpp Require Import base list gmap sorting numbers.
From Stdlib Require Import ZArith Lia.
From S2P Require Import Prelude FluxBin Row IndexKey TxState LogRecord PageFormat PagedTree PagedTreeNode PagedTreeRep PagedTreeSpec KvTree TableState TableSpec Reclaim MemStore.
From stdpp Require Import list.
#[local] Open Scope Z_scope.

(** * The stored catalog *)

Module StoredType.
Inductive t : Type :=
  | Bool | I8 | I16 | I32 | I64 | U8 | U16 | U32 | U64 | F32 | F64
  | Str | Bytes | Identity | ConnectionId | EntityId | Timestamp | Decimal | Blob
  | Option (inner : t)
  | List (inner : t)
  | Enum (name : list Z) (variants : list (list Z * list t))
  | Struct (name : list Z) (fields : list (list Z * t))
  | CrdtText.
End StoredType.

#[global] Instance StoredType_eq_dec : EqDecision StoredType.t.
Proof.
  unfold RelDecision. fix go 1. intros a b.
  destruct a as [| | | | | | | | | | | | | | | | | | |a|a|na va|na fa|], b as [| | | | | | | | | | | | | | | | | | |b|b|nb vb|nb fb|];
    first [left; reflexivity | right; discriminate | idtac].
  - destruct (go a b) as [->|Hne]; [left; reflexivity|right; congruence].
  - destruct (go a b) as [->|Hne]; [left; reflexivity|right; congruence].
  - destruct (decide (na = nb)) as [->|Hne]; [|right; congruence].
    destruct (@list_eq_dec _ (@prod_eq_dec _ _ _ (@list_eq_dec _ go)) va vb) as [->|Hne]; [left; reflexivity|right; congruence].
  - destruct (decide (na = nb)) as [->|Hne]; [|right; congruence].
    destruct (@list_eq_dec _ (@prod_eq_dec _ _ _ go) fa fb) as [->|Hne]; [left; reflexivity|right; congruence].
Defined.

(** The type a row codec sees. *)
Fixpoint plain (ty : StoredType.t) : FluxType.t :=
  match ty with
  | StoredType.Bool => FluxType.Bool
  | StoredType.I8 => FluxType.I8 | StoredType.I16 => FluxType.I16 | StoredType.I32 => FluxType.I32 | StoredType.I64 => FluxType.I64
  | StoredType.U8 => FluxType.U8 | StoredType.U16 => FluxType.U16 | StoredType.U32 => FluxType.U32 | StoredType.U64 => FluxType.U64
  | StoredType.F32 => FluxType.F32 | StoredType.F64 => FluxType.F64
  | StoredType.Str => FluxType.Str | StoredType.Bytes => FluxType.Bytes
  | StoredType.Identity => FluxType.Identity | StoredType.ConnectionId => FluxType.ConnectionId
  | StoredType.EntityId => FluxType.EntityId | StoredType.Timestamp => FluxType.Timestamp
  | StoredType.Decimal => FluxType.Decimal | StoredType.Blob => FluxType.Blob
  | StoredType.Option inner => FluxType.Option (plain inner)
  | StoredType.List inner => FluxType.List (plain inner)
  | StoredType.Enum _ variants => FluxType.Enum (map (fun v => map plain v.2) variants)
  | StoredType.Struct _ fields => FluxType.Struct (map (fun f => plain f.2) fields)
  | StoredType.CrdtText => FluxType.CrdtText
  end.

Record StoredColumn : Type := { sc_name : list Z; sc_ty : StoredType.t }.
Record StoredTable : Type := { st_columns : list StoredColumn; st_primary_key : list Z }.
Record StoredCatalog : Type := { ca_tables : gmap (list Z) StoredTable; ca_transforms : gmap (list Z) (list Z) }.

#[global] Instance StoredColumn_eq_dec : EqDecision StoredColumn.
Proof. solve_decision. Defined.
#[global] Instance StoredTable_eq_dec : EqDecision StoredTable.
Proof. solve_decision. Defined.
#[global] Instance StoredCatalog_eq_dec : EqDecision StoredCatalog.
Proof. solve_decision. Defined.

Definition has_name (name : list Z) (cols : list StoredColumn) : bool := existsb (fun c => bool_decide (sc_name c = name)) cols.
Definition has_column (t : StoredTable) (name : list Z) : bool := has_name name (st_columns t).

Definition UNDERSCORES : list Z := [95; 95].
Definition is_system_table (name : list Z) : bool :=
  bool_decide (firstn 2 name = UNDERSCORES) && bool_decide (skipn (length name - 2) name = UNDERSCORES).

(** The assembled schema: layouts by name, and the transforms that shape stored
    bytes by [table.column]. *)
Record Schema : Type := { sh_tables : gmap (list Z) StoredTable; sh_transforms : list (list Z * list Z * list Z) }.

Definition DOT : Z := 46.

Definition from_schema (s : Schema) : StoredCatalog :=
  {| ca_tables := filter (fun p => is_system_table p.1 = false) (sh_tables s);
     ca_transforms := fold_left (fun m '(table, column, fp) =>
       if negb (bool_decide (is_Some (sh_tables s !! table))) || is_system_table table || bool_decide (fp = []) then m
       else <[table ++ DOT :: column := fp]> m) (sh_transforms s) ∅ |}.

(** * The diff *)

Module SchemaChange.
Inductive t : Type :=
  | AddTable (table : list Z)
  | AddColumnWithDefault (table column : list Z)
  | RenameColumn (table from to : list Z)
  | AddColumnNoDefault (table column : list Z)
  | RemoveColumn (table column : list Z)
  | RemoveTable (table : list Z)
  | ChangeColumnType (table column : list Z) (stored compiled : StoredType.t)
  | ChangePrimaryKey (table : list Z)
  | ReorderColumns (table column : list Z).
End SchemaChange.

Definition is_safe (c : SchemaChange.t) : bool :=
  match c with SchemaChange.AddTable _ | SchemaChange.AddColumnWithDefault _ _ | SchemaChange.RenameColumn _ _ _ => true | _ => false end.

Definition change_table (c : SchemaChange.t) : list Z :=
  match c with
  | SchemaChange.AddTable t | SchemaChange.AddColumnWithDefault t _ | SchemaChange.RenameColumn t _ _ | SchemaChange.AddColumnNoDefault t _
  | SchemaChange.RemoveColumn t _ | SchemaChange.RemoveTable t | SchemaChange.ChangeColumnType t _ _ _ | SchemaChange.ChangePrimaryKey t
  | SchemaChange.ReorderColumns t _ => t
  end.

(** [defaults] are columns with their values, [renames] new names with old ones. *)
Record TableColumnMeta : Type := { tm_table : list Z; tm_defaults : list (list Z * RowValue.t); tm_renames : list (list Z * list Z) }.

Definition find_named {A} (column : list Z) (l : list (list Z * A)) : option A := snd <$> find (fun p => bool_decide (p.1 = column)) l.

Definition metas_of (metas : list TableColumnMeta) (table : list Z) : list TableColumnMeta := List.filter (fun m => bool_decide (tm_table m = table)) metas.

Definition default_of (metas : list TableColumnMeta) (table column : list Z) : option RowValue.t :=
  find_named column (flat_map tm_defaults (metas_of metas table)).

Definition rename_from (metas : list TableColumnMeta) (table column : list Z) : option (list Z) :=
  find_named column (flat_map tm_renames (metas_of metas table)).

(** Renaming every column called [from]. *)
Definition rename_in (from to : list Z) (cols : list StoredColumn) : list StoredColumn :=
  map (fun c => if bool_decide (sc_name c = from) then {| sc_name := to; sc_ty := sc_ty c |} else c) cols.

Section diff_table.
Context (metas : list TableColumnMeta) (table : list Z) (stored compiled : StoredTable).

(** The stored column a compiled column is renamed from. *)
Definition rename_source (column : list Z) : option (list Z) :=
  if has_column stored column then None
  else
    match rename_from metas table column with
    | Some from => if negb (has_column stored from) || has_column compiled from then None else Some from
    | None => None
    end.

Fixpoint resolve_renames (cols mapped : list StoredColumn) : list StoredColumn * list SchemaChange.t :=
  match cols with
  | [] => (mapped, [])
  | c :: cols =>
      match rename_source (sc_name c) with
      | None => resolve_renames cols mapped
      | Some from =>
          let '(m, ch) := resolve_renames cols (rename_in from (sc_name c) mapped) in
          (m, map (fun _ => SchemaChange.RenameColumn table from (sc_name c)) (List.filter (fun x => bool_decide (sc_name x = from)) mapped) ++ ch)
      end
  end.

(** Removals and type changes. *)
Definition kept_changes (mapped : list StoredColumn) : list SchemaChange.t :=
  flat_map (fun c =>
    match find (fun k => bool_decide (sc_name k = sc_name c)) (st_columns compiled) with
    | None => [SchemaChange.RemoveColumn table (sc_name c)]
    | Some k => if decide (sc_ty k = sc_ty c) then [] else [SchemaChange.ChangeColumnType table (sc_name c) (sc_ty c) (sc_ty k)]
    end) mapped.

Fixpoint added_changes (mapped cols : list StoredColumn) : list SchemaChange.t :=
  match cols with
  | [] => []
  | c :: later =>
      (if has_name (sc_name c) mapped then []
       else if negb (forallb (fun k => negb (has_name (sc_name k) mapped)) later) then [SchemaChange.ReorderColumns table (sc_name c)]
       else match default_of metas table (sc_name c) with
            | Some _ => [SchemaChange.AddColumnWithDefault table (sc_name c)]
            | None => [SchemaChange.AddColumnNoDefault table (sc_name c)]
            end)
      ++ added_changes mapped later
  end.

Definition order_changes (mapped : list StoredColumn) : list SchemaChange.t :=
  let order_stored := List.filter (fun n => has_name n (st_columns compiled)) (map sc_name mapped) in
  let order_compiled := List.filter (fun n => has_name n mapped) (map sc_name (st_columns compiled)) in
  match find (fun p => negb (bool_decide (p.1 = p.2))) (combine order_stored order_compiled) with
  | Some p => [SchemaChange.ReorderColumns table p.1]
  | None => []
  end.

Definition key_changes : list SchemaChange.t :=
  if decide (st_primary_key stored = st_primary_key compiled) then [] else [SchemaChange.ChangePrimaryKey table].

Definition diff_table : list SchemaChange.t :=
  let '(mapped, renames) := resolve_renames (st_columns compiled) (st_columns stored) in
  renames ++ kept_changes mapped ++ added_changes mapped (st_columns compiled) ++ order_changes mapped ++ key_changes.
End diff_table.

Definition diff_catalogs_with (metas : list TableColumnMeta) (stored compiled : StoredCatalog) : list SchemaChange.t :=
  flat_map (fun name =>
    match ca_tables stored !! name, ca_tables compiled !! name with
    | None, Some _ => [SchemaChange.AddTable name]
    | Some _, None => [SchemaChange.RemoveTable name]
    | Some s, Some k => diff_table metas name s k
    | None, None => []
    end) (btree_keys (ca_tables stored ∪ ca_tables compiled)).

(** * Versions *)

Record MigrationDef : Type := { md_version : Z; md_name : list Z }.

Module MigrationError.
Inductive t : Type :=
  | Store (e : StoreError)
  | VersionZero
  | DuplicateVersion (version : Z)
  | VersionTooLow (version : Z)
  | VersionAboveCode (version : Z)
  | Downgrade
  | TransformsDiffer
  | VersionNotBumped
  | Incompatible
  | NotConverged
  | AddedTableMissing
  | TableMissing
  | DefaultVanished
  | ColumnMissing
  | DefaultType
  | RowArity
  | UnsafeChange
  | Encode
  | ColumnExists
  | SameName
  | RenameType.
End MigrationError.

Definition version_le (a b : MigrationDef) : Prop := md_version a <= md_version b.
#[global] Instance version_le_dec : RelDecision version_le.
Proof. intros a b. unfold version_le. apply _. Defined.

Fixpoint check_duplicates (l : list MigrationDef) : result MigrationError.t unit :=
  match l with
  | a :: (b :: _) as rest => if md_version a =? md_version b then Err (MigrationError.DuplicateVersion (md_version a)) else check_duplicates rest
  | _ => Ok tt
  end.

Fixpoint check_versions (code_version : Z) (l : list MigrationDef) : result MigrationError.t unit :=
  match l with
  | [] => Ok tt
  | d :: l =>
      if md_version d <? 2 then Err (MigrationError.VersionTooLow (md_version d))
      else if code_version <? md_version d then Err (MigrationError.VersionAboveCode (md_version d))
      else check_versions code_version l
  end.

Definition validate_migrations (migrations : list MigrationDef) (code_version : Z) : result MigrationError.t (list MigrationDef) :=
  let sorted := merge_sort version_le migrations in
  check_duplicates sorted ≫= fun _ => check_versions code_version sorted ≫= fun _ => Ok sorted.

Inductive PlanVerdict : Type := FirstBoot | UpToDate | AutoApplies | NeedsVersionBump | RequiresMigration | RunsMigrations.

Record MigrationPlan : Type := { mp_stored_version : Z; mp_code_version : Z; mp_pending : list MigrationDef; mp_changes : list SchemaChange.t; mp_verdict : PlanVerdict }.

Definition pending_steps (sorted : list MigrationDef) (stored_version code_version : Z) : list MigrationDef :=
  List.filter (fun d => (stored_version <? md_version d) && (md_version d <=? code_version)) sorted.

(** [plan_inner]; [stored] is the version and catalog read from the metadata. *)
Definition plan_inner (schema : Schema) (code_version : Z) (migrations : list MigrationDef) (metas : list TableColumnMeta)
    (stored : option (Z * StoredCatalog)) : result MigrationError.t MigrationPlan :=
  if code_version =? 0 then Err MigrationError.VersionZero
  else
    validate_migrations migrations code_version ≫= fun sorted =>
    match stored with
    | None => Ok {| mp_stored_version := code_version; mp_code_version := code_version; mp_pending := []; mp_changes := []; mp_verdict := FirstBoot |}
    | Some (stored_version, catalog) =>
        if code_version <? stored_version then Err MigrationError.Downgrade
        else
          let pending := pending_steps sorted stored_version code_version in
          let changes := diff_catalogs_with metas catalog (from_schema schema) in
          let verdict :=
            match pending, changes with
            | _ :: _, _ => RunsMigrations
            | [], [] => UpToDate
            | [], _ => if code_version =? stored_version then NeedsVersionBump else if forallb is_safe changes then AutoApplies else RequiresMigration
            end in
          Ok {| mp_stored_version := stored_version; mp_code_version := code_version; mp_pending := pending; mp_changes := changes; mp_verdict := verdict |}
    end.

Definition refuses (p : MigrationPlan) : bool := match mp_verdict p with NeedsVersionBump | RequiresMigration => true | _ => false end.

(** * Applying changes *)

(** [rmp_serde] on the version and the catalog. *)
Class MetaCodec := {
  encode_version : Z -> option (list Z);
  encode_catalog : StoredCatalog -> option (list Z);
}.

Section apply.
Context {W T X B : Type} `{KvTree W T} `{RowCodec} `{SideIndex W X} `{BlobStore B} `{MetaCodec}.
Context (table_id : list Z -> Z) (env : StoreEnv) (blobs : option B) (w : W).
Notation TxM := (SM (Tx T X) MigrationError.t).

Definition mig {A} (m : SM (Tx T X) StoreError A) : TxM A := sm_map_err MigrationError.Store m.

Fixpoint replace_rows (id : TableId) (l : list (list Z * row)) : TxM unit :=
  match l with
  | [] => mret tt
  | (pk, values) :: l => mig (migrate_replace env w id pk values) ≫= fun _ => replace_rows id l
  end.

(** [append_column]: every row gains [dv]; a row of another arity fails first. *)
Definition append_column (table : list Z) (old_arity : nat) (dv : RowValue.t) : TxM unit :=
  mig (migrate_rows w (table_id table)) ≫= fun rs =>
  if forallb (fun p => (length p.2 =? old_arity)%nat) rs
  then replace_rows (table_id table) (map (fun p => (p.1, p.2 ++ [dv])) rs)
  else sm_fail MigrationError.RowArity.

Definition with_tables (c : StoredCatalog) (m : gmap (list Z) StoredTable) : StoredCatalog := {| ca_tables := m; ca_transforms := ca_transforms c |}.
Definition with_columns (t : StoredTable) (cols : list StoredColumn) : StoredTable := {| st_columns := cols; st_primary_key := st_primary_key t |}.

Definition find_column (name : list Z) (cols : list StoredColumn) : option StoredColumn := find (fun c => bool_decide (sc_name c = name)) cols.

Definition apply_change (schema : Schema) (compiled : StoredCatalog) (metas : list TableColumnMeta) (working : StoredCatalog) (c : SchemaChange.t) : TxM StoredCatalog :=
  match c with
  | SchemaChange.AddTable table =>
      match ca_tables compiled !! table with
      | None => sm_fail MigrationError.AddedTableMissing
      | Some layout => mret (with_tables working (<[table := layout]> (ca_tables working)))
      end
  | SchemaChange.RenameColumn table from to =>
      match ca_tables working !! table with
      | None => sm_fail MigrationError.TableMissing
      | Some layout => mret (with_tables working (<[table := with_columns layout (rename_in from to (st_columns layout))]> (ca_tables working)))
      end
  | SchemaChange.AddColumnWithDefault table column =>
      match default_of metas table column with
      | None => sm_fail MigrationError.DefaultVanished
      | Some dv =>
          match sh_tables schema !! table ≫= fun t => find_column column (st_columns t) with
          | None => sm_fail MigrationError.ColumnMissing
          | Some k =>
              if negb (matches_type dv (plain (sc_ty k))) then sm_fail MigrationError.DefaultType
              else
                match ca_tables working !! table with
                | None => sm_fail MigrationError.TableMissing
                | Some layout =>
                    append_column table (length (st_columns layout)) dv ≫= fun _ =>
                    mret (with_tables working (<[table := with_columns layout (st_columns layout ++ [{| sc_name := column; sc_ty := sc_ty k |}])]> (ca_tables working)))
                end
          end
      end
  | _ => sm_fail MigrationError.UnsafeChange
  end.

Definition auto_apply (schema : Schema) (compiled : StoredCatalog) (metas : list TableColumnMeta) : list SchemaChange.t -> StoredCatalog -> TxM StoredCatalog :=
  fix go changes working :=
    match changes with
    | [] => mret working
    | c :: changes => apply_change schema compiled metas working c ≫= fun working => go changes working
    end.

(** [MigrationContext::add_column]. *)
Definition add_column (schema : Schema) (table column : list Z) (dv : RowValue.t) (working : StoredCatalog) : TxM StoredCatalog :=
  match sh_tables schema !! table with
  | None => sm_fail MigrationError.TableMissing
  | Some t =>
      match find_column column (st_columns t) with
      | None => sm_fail MigrationError.ColumnMissing
      | Some k =>
          if negb (matches_type dv (plain (sc_ty k))) then sm_fail MigrationError.DefaultType
          else
            match ca_tables working !! table with
            | None => sm_fail MigrationError.TableMissing
            | Some layout =>
                if has_column layout column then sm_fail MigrationError.ColumnExists
                else
                  append_column table (length (st_columns layout)) dv ≫= fun _ =>
                  mret (with_tables working (<[table := with_columns layout (st_columns layout ++ [{| sc_name := column; sc_ty := sc_ty k |}])]> (ca_tables working)))
            end
      end
  end.

(** The first column called [from] takes the name [to]. *)
Fixpoint rename_first (from to : list Z) (cols : list StoredColumn) : list StoredColumn :=
  match cols with
  | [] => []
  | c :: cols => if bool_decide (sc_name c = from) then {| sc_name := to; sc_ty := sc_ty c |} :: cols else c :: rename_first from to cols
  end.

(** [MigrationContext::rename_column]. *)
Definition rename_column (schema : Schema) (table from to : list Z) (working : StoredCatalog) : result MigrationError.t StoredCatalog :=
  if bool_decide (from = to) then Err MigrationError.SameName
  else
    match sh_tables schema !! table with
    | None => Err MigrationError.TableMissing
    | Some t =>
        match find_column to (st_columns t) with
        | None => Err MigrationError.ColumnMissing
        | Some k =>
            match ca_tables working !! table with
            | None => Err MigrationError.TableMissing
            | Some layout =>
                if has_column layout to then Err MigrationError.ColumnExists
                else
                  match find_column from (st_columns layout) with
                  | None => Err MigrationError.ColumnMissing
                  | Some c =>
                      if decide (sc_ty c = sc_ty k) then Ok (with_tables working (<[table := with_columns layout (rename_first from to (st_columns layout))]> (ca_tables working)))
                      else Err MigrationError.RenameType
                  end
            end
        end
    end.

(** Keys and layout of the metadata table. *)
Definition META_KEY_VERSION : list Z := [115; 99; 104; 101; 109; 97; 95; 118; 101; 114; 115; 105; 111; 110].
Definition META_KEY_CATALOG : list Z := [115; 99; 104; 101; 109; 97; 95; 99; 97; 116; 97; 108; 111; 103].

Definition write_meta (meta_id : TableId) (key : list Z) (value : option (list Z)) : TxM unit :=
  match value with
  | None => sm_fail MigrationError.Encode
  | Some bytes => mig (upsert env blobs w meta_id [RowValue.Str key; RowValue.Bytes bytes]) ≫= fun _ => mret tt
  end.

(** The part of [run_inner] after the pending steps: the checks, and what the
    startup transaction does up to its commit. *)
Definition run_tail (meta_id : TableId) (schema : Schema) (code_version stored_version current_version : Z) (metas : list TableColumnMeta) (working : StoredCatalog) : TxM (list SchemaChange.t) :=
  let compiled := from_schema schema in
  if negb (bool_decide (ca_transforms working = ∅)) && negb (bool_decide (ca_transforms working = ca_transforms compiled)) then sm_fail MigrationError.TransformsDiffer
  else
    let changes := diff_catalogs_with metas working compiled in
    if negb (bool_decide (length changes = O)) && (code_version =? stored_version) then sm_fail MigrationError.VersionNotBumped
    else if negb (forallb is_safe changes) then sm_fail MigrationError.Incompatible
    else if bool_decide (length changes = O) && (current_version =? code_version) then mret changes
    else
      auto_apply schema compiled metas changes working ≫= fun working =>
      if negb (bool_decide (working = compiled)) then sm_fail MigrationError.NotConverged
      else
        write_meta meta_id META_KEY_VERSION (encode_version code_version) ≫= fun _ =>
        write_meta meta_id META_KEY_CATALOG (encode_catalog compiled) ≫= fun _ => mret changes.
End apply.
