(* ===== verification/MigrationProps.v ===== *)
(** What the startup migration does: which layouts the diff accepts
    ([safe_diff_extends]), that applying the accepted changes reaches the compiled
    catalog and extends every row by the defaults ([auto_migration]), and a
    catalog that can never be brought up to date ([unfingerprinted_catalog_stuck]). *)

From stdpp Require Import base list gmap sorting numbers.
From Stdlib Require Import ZArith Lia.
From S2P Require Import Prelude FluxBin Row IndexKey TxState LogRecord PageFormat PagedTree PagedTreeNode PagedTreeRep PagedTreeSpec KvTree TableState TableSpec Reclaim MemStore Migration.
From stdpp Require Import list.
#[local] Open Scope Z_scope.

Notation names cols := (map sc_name cols).

Lemma name_in c cols : c ∈ cols -> sc_name c ∈ names cols.
Proof. rewrite !list_elem_of_In. apply in_map. Qed.

Lemma in_names n cols : n ∈ names cols -> exists c, c ∈ cols /\ sc_name c = n.
Proof. rewrite list_elem_of_In, in_map_iff. intros (c & <- & Hc). exists c. by rewrite list_elem_of_In. Qed.

Lemma has_name_spec n cols : has_name n cols = true <-> n ∈ names cols.
Proof.
  unfold has_name. rewrite existsb_exists. split.
  - intros (c & Hc & <-%bool_decide_eq_true). rewrite list_elem_of_In. by apply in_map.
  - rewrite list_elem_of_In, in_map_iff. intros (c & <- & Hc). exists c. split; [done|by apply bool_decide_eq_true].
Qed.

Lemma has_name_false n cols : has_name n cols = false <-> n ∉ names cols.
Proof. rewrite <- has_name_spec. by destruct (has_name n cols). Qed.

(** Finding a column by a name that occurs once. *)
Lemma find_column_spec c cols : NoDup (names cols) -> c ∈ cols -> find_column (sc_name c) cols = Some c.
Proof.
  induction cols as [|a cols IH]; [intros _ H; by inversion H|]. intros [Hn Hnd]%NoDup_cons Hin. unfold find_column in *. cbn [find]. case_bool_decide as E.
  - apply elem_of_cons in Hin as [->|Hin]; [done|]. exfalso. apply Hn. rewrite E. by apply name_in.
  - apply elem_of_cons in Hin as [->|Hin]; [done|by apply IH].
Qed.

Lemma find_column_in n cols c : find_column n cols = Some c -> c ∈ cols /\ sc_name c = n.
Proof. intros [Hin E]%find_some. rewrite list_elem_of_In. split; [done|by apply bool_decide_eq_true in E]. Qed.

Section table.
Context (metas : list TableColumnMeta) (table : list Z) (stored compiled : StoredTable).
Notation source c := (rename_source metas table stored compiled (sc_name c)).
Notation resolve := (resolve_renames metas table stored compiled).

(** What a stored column is called in the compiled table. *)
Definition renamed_in (cols : list StoredColumn) (s : StoredColumn) : StoredColumn :=
  match find (fun c => bool_decide (source c = Some (sc_name s))) cols with Some c => {| sc_name := sc_name c; sc_ty := sc_ty s |} | None => s end.
Definition renamed : StoredColumn -> StoredColumn := renamed_in (st_columns compiled).

Lemma source_spec n from : rename_source metas table stored compiled n = Some from -> n ∉ names (st_columns stored) /\ from ∈ names (st_columns stored) /\ from ∉ names (st_columns compiled).
Proof.
  unfold rename_source, has_column. destruct (has_name n (st_columns stored)) eqn:E1; [done|]. destruct (rename_from metas table n) as [f|]; [|done].
  destruct (has_name f (st_columns stored)) eqn:E2, (has_name f (st_columns compiled)) eqn:E3; try done. cbn [negb orb]. intros [= ->].
  by rewrite <- !has_name_false, <- has_name_spec.
Qed.

(** Names given to columns are compiled names, so a column is renamed once. *)
Lemma resolve_closed cols : Forall (fun c => sc_name c ∈ names (st_columns compiled)) cols -> forall mapped, (resolve cols mapped).1 = map (renamed_in cols) mapped.
Proof.
  induction 1 as [|c cols Hc _ IH]; intros mapped; cbn [resolve_renames fst]; [by rewrite map_id|].
  destruct (source c) as [from|] eqn:Es.
  - specialize (IH (rename_in from (sc_name c) mapped)). destruct (resolve cols (rename_in from (sc_name c) mapped)) as [m ch]. cbn [fst] in *. rewrite IH. unfold rename_in. rewrite map_map.
    apply map_ext. intros s. unfold renamed_in. cbn [find]. rewrite Es. destruct (bool_decide_reflect (sc_name s = from)) as [->|Hne].
    + rewrite bool_decide_true by done. destruct (find _ cols) as [c'|] eqn:Ef; [|done]. exfalso. apply find_some in Ef as [_ E%bool_decide_eq_true]. cbn [sc_name] in E.
      by apply source_spec in E as (_ & _ & E).
    + rewrite bool_decide_false by congruence. done.
  - rewrite IH. apply map_ext. intros s. unfold renamed_in. cbn [find]. by rewrite Es, bool_decide_false.
Qed.

Lemma resolve_safe cols : forall mapped, forallb is_safe (resolve cols mapped).2 = true.
Proof.
  induction cols as [|c cols IH]; intros mapped; cbn [resolve_renames]; [done|]. destruct (source c) as [from|]; [|apply IH].
  specialize (IH (rename_in from (sc_name c) mapped)). destruct (resolve cols _) as [m ch]. cbn [snd] in *. rewrite forallb_app, IH, andb_true_r.
  apply forallb_forall. intros x. rewrite in_map_iff. by intros (y & <- & _).
Qed.

Notation mapped := (map renamed (st_columns stored)).

Lemma resolve_eq : (resolve (st_columns compiled) (st_columns stored)).1 = mapped.
Proof. apply resolve_closed. apply Forall_forall. intros c. apply name_in. Qed.

Lemma renamed_ty s : sc_ty (renamed s) = sc_ty s.
Proof. unfold renamed, renamed_in. by destruct (find _ _). Qed.

(** A column keeps its name or takes the name of a column that names it as its source. *)
Lemma renamed_name s : sc_name (renamed s) = sc_name s \/ rename_source metas table stored compiled (sc_name (renamed s)) = Some (sc_name s).
Proof.
  unfold renamed, renamed_in. destruct (find _ _) as [c|] eqn:E; [|by left]. right. apply find_some in E as [_ E%bool_decide_eq_true]. done.
Qed.

Context (Hs : NoDup (names (st_columns stored))) (Hc : NoDup (names (st_columns compiled))).

Lemma mapped_nodup : NoDup (names mapped).
Proof using Hs.
  assert (forall s1 s2, s1 ∈ st_columns stored -> s2 ∈ st_columns stored -> sc_name (renamed s1) = sc_name (renamed s2) -> sc_name s1 = sc_name s2) as Hinj.
  { assert (forall s, s ∈ st_columns stored -> sc_name s ∈ names (st_columns stored)) as Hin by (intros s; apply name_in).
    intros s1 s2 H1%Hin H2%Hin E. destruct (renamed_name s1) as [E1|E1], (renamed_name s2) as [E2|E2]; [congruence|..].
    - exfalso. apply source_spec in E2 as [E2 _]. apply E2. by rewrite <- E, E1.
    - exfalso. apply source_spec in E1 as [E1 _]. apply E1. by rewrite E, E2.
    - congruence. }
  rewrite map_map. clear Hc. induction (st_columns stored) as [|s l IH]; [constructor|]. apply NoDup_cons in Hs as [Hn Hnd]. cbn [map]. constructor.
  - rewrite list_elem_of_In, in_map_iff. intros (s2 & E & H2%list_elem_of_In). apply Hn. rewrite <- (Hinj s2 s); [by apply name_in|by right|left|done].
  - apply IH; [done|]. intros s1 s2 H1 H2. apply Hinj; by right.
Qed.

Lemma kept_safe : forallb is_safe (kept_changes table compiled mapped) = true -> forall c, c ∈ mapped -> exists k, k ∈ st_columns compiled /\ k = c.
Proof.
  unfold kept_changes. intros Hsafe c Hin. rewrite forallb_forall in Hsafe. specialize (fun x Hx => Hsafe x (proj2 (in_flat_map _ _ _) (ex_intro _ c (conj (proj1 (list_elem_of_In _ _) Hin) Hx)))).
  cbv beta in Hsafe. change (find (fun k => bool_decide (sc_name k = sc_name c)) (st_columns compiled)) with (find_column (sc_name c) (st_columns compiled)) in Hsafe. destruct (find_column (sc_name c) (st_columns compiled)) as [k|] eqn:Ef.
  - destruct (decide (sc_ty k = sc_ty c)) as [Et|]; [|by specialize (Hsafe _ (or_introl eq_refl))]. apply find_column_in in Ef as [Hk En]. exists k. split; [done|]. destruct k, c. simpl in *. by subst.
  - by specialize (Hsafe _ (or_introl eq_refl)).
Qed.

Lemma kept_none added : st_columns compiled = mapped ++ added -> kept_changes table compiled mapped = [].
Proof using Hc.
  intros E. unfold kept_changes. assert (forall c, c ∈ mapped -> find (fun k => bool_decide (sc_name k = sc_name c)) (st_columns compiled) = Some c) as Hf.
  { intros c Hin. apply (find_column_spec c); [done|]. rewrite E. by apply elem_of_app; left. }
  revert Hf. generalize mapped as l. induction l as [|c l IH]; intros Hf; [done|]. cbn [flat_map]. rewrite (Hf c) by left. rewrite decide_True by done. apply IH. intros x Hx. apply Hf. by right.
Qed.

(** Additions are accepted when they follow every known column and have defaults. *)
Lemma added_safe m cols : forallb is_safe (added_changes metas table m cols) = true ->
  exists pre post, cols = pre ++ post /\ Forall (fun c => sc_name c ∈ names m) pre /\ Forall (fun c => sc_name c ∉ names m /\ is_Some (default_of metas table (sc_name c))) post.
Proof.
  induction cols as [|c cols IH]; cbn [added_changes]; [intros _; by exists [], []|]. rewrite forallb_app, andb_true_iff. intros [Hc0 (pre & post & -> & Hpre & Hpost)%IH].
  destruct (has_name (sc_name c) m) eqn:En.
  - exists (c :: pre), post. split; [done|]. split; [constructor; [by apply has_name_spec|done]|done].
  - destruct (forallb _ (pre ++ post)) eqn:El; cbn [negb] in Hc0; [|done]. destruct (default_of metas table (sc_name c)) as [dv|] eqn:Ed; [|done].
    assert (pre = []) as ->.
    { destruct pre as [|x pre]; [done|]. exfalso. apply Forall_cons in Hpre as [Hx _]. apply has_name_spec in Hx. cbn [app forallb] in El. by rewrite Hx in El. }
    exists [], (c :: post). split; [done|]. split; [done|]. constructor; [|done]. rewrite Ed. split; [by apply has_name_false|by eexists].
Qed.

Lemma added_changes_split pre post m : Forall (fun c => sc_name c ∈ names m) pre -> Forall (fun c => sc_name c ∉ names m /\ is_Some (default_of metas table (sc_name c))) post ->
  added_changes metas table m (pre ++ post) = map (fun c => SchemaChange.AddColumnWithDefault table (sc_name c)) post.
Proof.
  intros Hpre Hpost. induction Hpre as [|c pre Hin _ IH]; cbn [app added_changes]; [|by rewrite (proj2 (has_name_spec _ _) Hin), IH].
  induction Hpost as [|c post [Hn [dv Ed]] Hp IH]; cbn [added_changes map]; [done|]. rewrite (proj2 (has_name_false _ _) Hn), Ed, IH.
  replace (forallb (fun k => negb (has_name (sc_name k) m)) post) with true; [done|]. symmetry. apply forallb_forall. intros x Hx. rewrite Forall_forall in Hp. apply list_elem_of_In in Hx.
  by rewrite (proj2 (has_name_false _ _) (proj1 (Hp x Hx))).
Qed.

Lemma zip_equal (l1 l2 : list (list Z)) : length l1 = length l2 -> find (fun p => negb (bool_decide (p.1 = p.2))) (combine l1 l2) = None -> l1 = l2.
Proof.
  revert l2. induction l1 as [|a l1 IH]; intros [|x l2]; try done. intros [= Hl]. cbn [combine find fst snd]. case_bool_decide as E; [|done]. cbn [negb]. intros Hf. by rewrite E, (IH l2 Hl Hf).
Qed.

Lemma zip_same (l : list (list Z)) : find (fun p => negb (bool_decide (p.1 = p.2))) (combine l l) = None.
Proof. induction l as [|a l IH]; [done|]. cbn [combine find fst snd]. by rewrite bool_decide_true. Qed.

Lemma filter_all_true {A} (P : A -> bool) l : Forall (fun a => P a = true) l -> List.filter P l = l.
Proof. induction 1 as [|a l Ha _ IH]; [done|]. simpl. by rewrite Ha, IH. Qed.
Lemma filter_all_false {A} (P : A -> bool) l : Forall (fun a => P a = false) l -> List.filter P l = [].
Proof. induction 1 as [|a l Ha _ IH]; [done|]. simpl. by rewrite Ha. Qed.

(** The names of the two orders when the known columns come first. *)
Lemma orders_split pre post : st_columns compiled = pre ++ post -> Forall (fun c => sc_name c ∈ names mapped) pre -> Forall (fun c => sc_name c ∉ names mapped) post ->
  (forall c, c ∈ mapped -> c ∈ st_columns compiled) ->
  order_changes table compiled mapped = match find (fun p => negb (bool_decide (p.1 = p.2))) (combine (names mapped) (names pre)) with Some p => [SchemaChange.ReorderColumns table p.1] | None => [] end.
Proof.
  intros E Hpre Hpost Hin. unfold order_changes. rewrite (filter_all_true _ (names mapped)).
  2: { apply Forall_forall. intros n (c & Hcm & <-)%in_names. apply has_name_spec, name_in. by apply Hin. }
  rewrite E at 1. rewrite map_app, List.filter_app, (filter_all_true _ (names pre)), (filter_all_false _ (names post)), app_nil_r; [done|..].
  - apply Forall_forall. intros n (c & Hcm & <-)%in_names. apply has_name_false. rewrite Forall_forall in Hpost. by apply Hpost.
  - apply Forall_forall. intros n (c & Hcm & <-)%in_names. apply has_name_spec. rewrite Forall_forall in Hpre. by apply Hpre.
Qed.

(** The compiled layout is the stored one with renamed columns and new columns
    that have defaults after them, over the same key. *)
Definition extends : Prop := exists added, st_columns compiled = mapped ++ added /\
  Forall (fun c => is_Some (default_of metas table (sc_name c))) added /\ st_primary_key stored = st_primary_key compiled.

Lemma diff_table_eq : diff_table metas table stored compiled =
  (resolve (st_columns compiled) (st_columns stored)).2 ++ kept_changes table compiled mapped ++ added_changes metas table mapped (st_columns compiled) ++ order_changes table compiled mapped ++ key_changes table stored compiled.
Proof. unfold diff_table. rewrite <- resolve_eq. by destruct (resolve (st_columns compiled) (st_columns stored)). Qed.

Lemma safe_extends : forallb is_safe (diff_table metas table stored compiled) = true -> extends.
Proof using Hs Hc.
  rewrite diff_table_eq, !forallb_app, !andb_true_iff. intros (_ & Hk & Ha & Ho & Hkey).
  pose proof (kept_safe Hk) as Hin'. assert (forall c, c ∈ mapped -> c ∈ st_columns compiled) as Hin by (intros c Hcm; destruct (Hin' c Hcm) as (k & ? & ->); done).
  destruct (added_safe _ _ Ha) as (pre & post & E & Hpre & Hpost). assert (Forall (fun c => sc_name c ∉ names mapped) post) as Hpn by (eapply Forall_impl; [exact Hpost|]; by intros c [? _]).
  rewrite (orders_split pre post E Hpre Hpn Hin) in Ho. assert (NoDup (names pre)) as Hnp by (rewrite E, map_app, NoDup_app in Hc; apply Hc).
  assert (names mapped ≡ₚ names pre) as HP.
  { apply NoDup_Permutation; [by apply mapped_nodup|done|]. intros n. split; intros (c & Hcm & <-)%in_names.
    - specialize (Hin c Hcm). rewrite E, elem_of_app in Hin. destruct Hin as [Hin|Hin]; [by apply name_in|]. exfalso. rewrite Forall_forall in Hpn. apply (Hpn c Hin). by apply name_in.
    - rewrite Forall_forall in Hpre. by apply Hpre. }
  destruct (find _ _) as [p|] eqn:Ef; [done|]. apply zip_equal in Ef; [|exact (Permutation_length HP)].
  assert (pre = mapped) as ->.
  { assert (forall c, c ∈ mapped -> find_column (sc_name c) (pre ++ post) = Some c) as Hf by (intros c Hcm; apply find_column_spec; [by rewrite <- E|rewrite <- E; by apply Hin]).
    assert (forall c, c ∈ pre -> find_column (sc_name c) (pre ++ post) = Some c) as Hg by (intros c Hcp; apply find_column_spec; [by rewrite <- E|by apply elem_of_app; left]).
    clear -Ef Hf Hg. revert Ef Hf Hg. generalize (pre ++ post) as all. generalize mapped as l. intros l all. revert pre. induction l as [|c l IH]; intros [|d pre]; try done. intros [= E1 E2] Hf Hg.
    f_equal; [|apply IH; [done|intros x Hx; apply Hf; by right|intros x Hx; apply Hg; by right]]. specialize (Hf c ltac:(left)). specialize (Hg d ltac:(left)). rewrite <- E1 in Hg. congruence. }
  exists post. split; [done|]. split; [eapply Forall_impl; [exact Hpost|]; by intros c [_ ?]|]. unfold key_changes in Hkey. by destruct (decide _).
Qed.

(** What an extension's diff is. *)
Lemma extends_diff added : st_columns compiled = mapped ++ added -> Forall (fun c => is_Some (default_of metas table (sc_name c))) added -> st_primary_key stored = st_primary_key compiled ->
  diff_table metas table stored compiled = (resolve (st_columns compiled) (st_columns stored)).2 ++ map (fun c => SchemaChange.AddColumnWithDefault table (sc_name c)) added.
Proof using Hc.
  intros E Hd Hkey. assert (Forall (fun c => sc_name c ∈ names mapped) mapped) as Hm by (apply Forall_forall; intros c; apply name_in).
  assert (Forall (fun c => sc_name c ∉ names mapped) added) as Hn.
  { apply Forall_forall. intros c Hca Hcm. rewrite E, map_app, NoDup_app in Hc. destruct Hc as (_ & Hx & _). by eapply Hx; [exact Hcm|apply name_in]. }
  rewrite diff_table_eq, (kept_none added E), (orders_split mapped added E Hm Hn), zip_same; [|intros c Hcm; rewrite E; by apply elem_of_app; left].
  rewrite E at 2. rewrite added_changes_split; [|done|]. 
  - unfold key_changes. by rewrite decide_True, !app_nil_r.
  - rewrite Forall_forall in *. intros c Hca. split; [by apply Hn|by apply Hd].
Qed.

(** the diff of two layouts of a table raises only changes that apply by themselves
    exactly when the compiled layout is the stored one with columns renamed as
    declared, followed by new columns that have defaults, over the same primary key:
    a removed, retyped or moved column, an addition without a default or before a
    known column, or another key is always reported as unsafe. *)
Theorem safe_diff_extends : forallb is_safe (diff_table metas table stored compiled) = true <-> extends.
Proof using Hs Hc.
  split; [apply safe_extends|]. intros (added & E & Hd & Hkey). rewrite (extends_diff added E Hd Hkey), forallb_app, resolve_safe.
  apply forallb_forall. intros x Hx. rewrite in_map_iff in Hx. by destruct Hx as (c & <- & _).
Qed.
End table.

(** * Rows in a migration *)

Section rows.
Context {W T X B : Type} {KT : KvTree W T} {RC : RowCodec} {SI : SideIndex W X} {BS : BlobStore B}.
Context (table_id : list Z -> Z) (env : StoreEnv) (w : W).
Implicit Types (tx : Tx T X).

(** The committed row at a key as a migration sees it. *)
Definition effective (ops : gmap (list Z) PendingOp) (p : list Z * row) : option (list Z * row) :=
  match ops !! p.1 with
  | Some (TxState.Update replacement) => Some (p.1, replacement)
  | Some (TxState.Delete | TxState.Insert _) => None
  | None => Some p
  end.

(** The rows a migration sees in a table that it can rewrite. *)
Definition rows_are tx (id : TableId) (rs : list (list Z * row)) : Prop := exists info bt base,
  schema_of env id = Ok info /\ cs_table (tx_base tx) id = Ok bt /\ for_each_row w bt = Ok base /\ NoDup base.*1 /\
  Forall (fun p => contains_pk w bt p.1 = Ok true) base /\ rs = omap (effective (ops_of (tx_state tx) id)) base.

Lemma migrate_rows_spec tx id rs : rows_are tx id rs -> migrate_rows w id tx = (Ok rs, tx).
Proof.
  intros (info & bt & base & _ & Hb & Hr & _ & _ & ->). unfold migrate_rows, base_table, get_ops, mbind, sm_bind, sm_lift, mret, sm_ret. rewrite Hb. cbv beta iota. rewrite Hr. do 2 f_equal.
  clear Hr. induction base as [|[pk r] base IH]; [done|]. cbn. unfold effective at 1. cbn [fst]. destruct (ops_of (tx_state tx) id !! pk) as [[| |]|]; first [exact IH|f_equal; exact IH].
Qed.

Definition put_update (ops : gmap (list Z) PendingOp) (p : list Z * row) : gmap (list Z) PendingOp := <[p.1 := Update p.2]> ops.

Lemma ops_of_set tx id ops id' : ops_of (tx_state (set_ops id ops tx).2) id' = if decide (id' = id) then ops else ops_of (tx_state tx) id'.
Proof. unfold ops_of, set_ops. cbn. destruct (decide (id' = id)) as [->|Hne]; [by rewrite lookup_insert_eq|by rewrite lookup_insert_ne]. Qed.

(** Replacements of committed rows are buffered; nothing else changes. *)
Lemma replace_rows_spec id bt info : schema_of env id = Ok info -> forall l tx, cs_table (tx_base tx) id = Ok bt -> Forall (fun p => contains_pk w bt p.1 = Ok true) l ->
  exists tx', replace_rows env w id l tx = (Ok tt, tx') /\ tx_base tx' = tx_base tx /\
    ops_of (tx_state tx') id = fold_left put_update l (ops_of (tx_state tx) id) /\ forall id', id' <> id -> ops_of (tx_state tx') id' = ops_of (tx_state tx) id'.
Proof.
  intros Hi. induction l as [|[pk v] l IH]; intros tx Hb Hl; [by exists tx|]. apply Forall_cons in Hl as [Hp Hl]. cbn [fst] in Hp.
  set (tx1 := (set_ops id (<[pk := Update v]> (ops_of (tx_state tx) id)) tx).2).
  destruct (IH tx1 Hb Hl) as (tx' & E & Eb & Eo & Ef). exists tx'.
  assert (migrate_replace env w id pk v tx = (Ok tt, tx1)) as Em.
  { unfold migrate_replace, base_table, get_ops, guard, mbind, sm_bind, sm_lift, mret, sm_ret. rewrite Hi, Hb. cbv beta iota. by rewrite Hp. }
  split. { cbn [replace_rows]. unfold mig, sm_map_err, mbind, sm_bind. rewrite Em. exact E. }
  split; [done|]. unfold tx1 in Eo, Ef. split.
  - rewrite Eo, ops_of_set, decide_True by done. done.
  - intros id' Hne. by rewrite Ef, ops_of_set, decide_False.
Qed.

Lemma fold_updates l : forall ops pk, NoDup l.*1 -> fold_left put_update l ops !! pk = match find (fun p => bool_decide (p.1 = pk)) l with Some p => Some (Update p.2) | None => ops !! pk end.
Proof.
  induction l as [|[k v] l IH]; intros ops pk; [done|]. intros [Hn Hnd]%NoDup_cons. cbn [fold_left find fst snd]. rewrite IH by done. unfold put_update. cbn [fst snd]. case_bool_decide as E.
  - subst k. destruct (find _ l) as [p|] eqn:Ef; [|by rewrite lookup_insert_eq]. exfalso. apply find_some in Ef as [Hin E%bool_decide_eq_true]. apply Hn. rewrite <- E. apply list_elem_of_In in Hin. exact (list_elem_of_fmap_2 fst l p Hin).
  - by rewrite lookup_insert_ne.
Qed.

(** Appending a column extends every row a migration sees, and no other table. *)
Lemma append_column_spec tx table rs arity dv : rows_are tx (table_id table) rs -> Forall (fun p => length p.2 = arity) rs ->
  exists tx', append_column table_id env w table arity dv tx = (Ok tt, tx') /\ rows_are tx' (table_id table) (map (fun p => (p.1, p.2 ++ [dv])) rs) /\
    forall id rs', id <> table_id table -> rows_are tx id rs' -> rows_are tx' id rs'.
Proof.
  intros Hr Hl. pose proof (migrate_rows_spec _ _ _ Hr) as Em. destruct Hr as (info & bt & base & Hi & Hb & Hbase & Hnd & Hc & E).
  set (l := map (fun p : list Z * row => (p.1, p.2 ++ [dv])) rs).
  assert (forall p, p ∈ rs -> exists q, q ∈ base /\ q.1 = p.1 /\ effective (ops_of (tx_state tx) (table_id table)) q = Some p) as Hrs.
  { intros p Hp. rewrite E, list_elem_of_omap in Hp. destruct Hp as (q & Hq & Ep). exists q. split; [done|]. split; [|done]. unfold effective in Ep. destruct (ops_of _ _ !! q.1) as [[| |]|]; inversion Ep; done. }
  assert (rs.*1 `sublist_of` base.*1) as Hsub.
  { rewrite E. clear. induction base as [|p base IH]; [done|]. cbn [omap list_omap]. destruct (effective _ p) as [q|] eqn:Ep; cbn [fmap list_fmap]; [|by constructor].
    replace (q.1) with (p.1); [by constructor|]. unfold effective in Ep. destruct (ops_of _ _ !! p.1) as [[| |]|]; inversion Ep; done. }
  assert (l.*1 = rs.*1) as El by (unfold l; clear; induction rs as [|p rs IH]; simpl; [done|by f_equal]).
  destruct (replace_rows_spec (table_id table) bt info Hi l tx Hb) as (tx' & Er & Eb & Eo & Ef).
  { rewrite Forall_forall in *. intros p Hp. unfold l in Hp. rewrite list_elem_of_In, in_map_iff in Hp. destruct Hp as (p0 & <- & Hp0%list_elem_of_In). cbn [fst]. destruct (Hrs p0 Hp0) as (q & Hq & <- & _). by apply Hc. }
  exists tx'. split; [|split].
  - unfold append_column, mig, sm_map_err, mbind, sm_bind. rewrite Em. rewrite (proj2 (forallb_forall _ _)); [exact Er|]. intros p Hp. rewrite Forall_forall in Hl. apply list_elem_of_In in Hp. rewrite (Hl p Hp). apply Nat.eqb_refl.
  - exists info, bt, base. rewrite Eb. do 5 (split; [done|]). fold l. rewrite Eo.
    assert (NoDup l.*1) as Hndl by (rewrite El; by eapply sublist_NoDup).
    assert (forall q p, q ∈ base -> effective (ops_of (tx_state tx) (table_id table)) q = Some p -> effective (fold_left put_update l (ops_of (tx_state tx) (table_id table))) q = Some (p.1, p.2 ++ [dv])) as H1.
    { intros q p Hq Eq. assert (p.1 = q.1) as Ep by (unfold effective in Eq; destruct (ops_of _ _ !! q.1) as [[| |]|]; inversion Eq; done).
      assert ((p.1, p.2 ++ [dv]) ∈ l) as Hpl. { unfold l. rewrite list_elem_of_In. apply (in_map (fun p : list Z * row => (p.1, p.2 ++ [dv]))). apply list_elem_of_In. rewrite E. apply list_elem_of_omap. by exists q. }
      unfold effective. rewrite (fold_updates l _ _ Hndl). destruct (find _ l) as [p'|] eqn:Efi.
      - apply find_some in Efi as [Hin Ek%bool_decide_eq_true]. apply list_elem_of_In in Hin. assert (p' = (p.1, p.2 ++ [dv])) as ->; [|cbn [fst snd]; by rewrite Ep].
        apply list_elem_of_lookup in Hin as [i Hi'], Hpl as [j Hj]. assert (i = j) as ->; [|congruence].
        eapply (NoDup_lookup l.*1); [done| |]; rewrite list_lookup_fmap; [by rewrite Hi'|rewrite Hj]. cbn. by rewrite Ek, Ep.
      - exfalso. eapply find_none in Efi; [|by apply list_elem_of_In]. cbn [fst] in Efi. by rewrite Ep, bool_decide_true in Efi. }
    assert (forall q, q ∈ base -> effective (ops_of (tx_state tx) (table_id table)) q = None -> effective (fold_left put_update l (ops_of (tx_state tx) (table_id table))) q = None) as H2.
    { intros q Hq Eq. unfold effective in *. rewrite (fold_updates l _ _ Hndl). destruct (find _ l) as [p'|] eqn:Efi; [|done]. exfalso. apply find_some in Efi as [Hin Ek%bool_decide_eq_true].
      unfold l in Hin. rewrite in_map_iff in Hin. destruct Hin as (p0 & <- & Hp0%list_elem_of_In). destruct (Hrs p0 Hp0) as (q' & Hq' & Ek' & Eq'). cbn [fst] in Ek.
      unfold effective in Eq'. rewrite Ek', Ek in Eq'. destruct (ops_of _ _ !! q.1) as [[| |]|]; done. }
    unfold l at 1. rewrite E. clear -H1 H2. set (ops := ops_of _ _) in *. set (ops' := fold_left _ _ _) in *. clearbody ops ops'. induction base as [|q base IH]; [done|]. cbn [omap list_omap].
    assert (omap (effective ops') base = map (fun p => (p.1, p.2 ++ [dv])) (omap (effective ops) base)) as IH' by (symmetry; apply IH; intros; [apply H1|apply H2]; try done; by right).
    rewrite IH'. destruct (effective ops q) as [p|] eqn:Eq; [by rewrite (H1 q p ltac:(left) Eq)|by rewrite (H2 q ltac:(left) Eq)].
  - intros id rs' Hne (info' & bt' & base' & ? & ? & ? & ? & ? & ->). exists info', bt', base'. rewrite Eb, (Ef id Hne). done.
Qed.
End rows.

(** * Applying the accepted changes *)

Section apply.
Context {W T X B : Type} {KT : KvTree W T} {RC : RowCodec} {SI : SideIndex W X} {BS : BlobStore B}.
Context (table_id : list Z -> Z) (env : StoreEnv) (w : W).
Context (schema : Schema) (metas : list TableColumnMeta).
Notation compiled := (from_schema schema).
Notation apply_all := (auto_apply table_id env w schema compiled metas).
Implicit Types (tx : Tx T X) (working : StoredCatalog).

Lemma auto_apply_app l1 l2 working tx : apply_all (l1 ++ l2) working tx =
  match apply_all l1 working tx with (Ok wk, tx') => apply_all l2 wk tx' | (Err e, tx') => (Err e, tx') end.
Proof.
  revert working tx. induction l1 as [|c l1 IH]; intros working tx; [done|]. cbn [app auto_apply]. unfold mbind, sm_bind. destruct (apply_change _ _ _ _ _ _ _ c tx) as [[wk|e] tx']; [|done]. apply IH.
Qed.

Lemma with_tables_twice working m m' : with_tables (with_tables working m) m' = with_tables working m'.
Proof. done. Qed.

(** Renames change the names of one table, and nothing else. *)
Lemma apply_renames table stored k cols : forall mapped working tx layout, ca_tables working !! table = Some layout -> st_columns layout = mapped ->
  NoDup (names mapped) -> NoDup (names cols) -> (forall c from, c ∈ cols -> rename_source metas table stored k (sc_name c) = Some from -> sc_name c ∉ names mapped) ->
  let '(m, ch) := resolve_renames metas table stored k cols mapped in
  apply_all ch working tx = (Ok (with_tables working (<[table := with_columns layout m]> (ca_tables working))), tx).
Proof.
  induction cols as [|c cols IH]; intros mapped working tx layout Hw El Hm Hc Hsrc; cbn [resolve_renames].
  - cbn. unfold mret, sm_ret. do 2 f_equal. destruct working as [tabs tr], layout as [cs pk]. unfold with_tables. simpl in *. subst cs. f_equal. symmetry. by apply insert_id.
  - apply NoDup_cons in Hc as [Hcn Hc]. destruct (rename_source metas table stored k (sc_name c)) as [from|] eqn:Es; [|apply IH; try done; intros c' from' Hc'; apply Hsrc; by right].
    pose proof (Hsrc c from ltac:(left) Es) as Hfresh. set (mapped' := rename_in from (sc_name c) mapped).
    assert (forall n, n ∈ names mapped' -> n = sc_name c \/ n ∈ names mapped) as Hsub.
    { intros n (x & Hx & <-)%in_names. unfold mapped', rename_in in Hx. rewrite list_elem_of_In, in_map_iff in Hx. destruct Hx as (y & <- & Hy%list_elem_of_In). case_bool_decide; [by left|right; by apply name_in]. }
    assert (NoDup (names mapped')) as Hm'.
    { unfold mapped', rename_in. clear -Hm Hfresh. induction mapped as [|s l IH]; [constructor|]. apply NoDup_cons in Hm as [Hn Hm]. apply not_elem_of_cons in Hfresh as [Hf1 Hf2]. cbn [map]. constructor; [|by apply IH].
      rewrite list_elem_of_In, in_map_iff. intros (x & E & Hx). rewrite in_map_iff in Hx. destruct Hx as (y & <- & Hy%list_elem_of_In). pose proof (name_in y l Hy) as Hyn.
      case_bool_decide as E1; case_bool_decide as E2; simpl in E; first [congruence | apply Hn; replace (sc_name s) with (sc_name y) by congruence; exact Hyn | apply Hf2; replace (sc_name c) with (sc_name y) by congruence; exact Hyn]. }
    specialize (IH mapped' (with_tables working (<[table := with_columns layout mapped']> (ca_tables working))) tx (with_columns layout mapped')).
    fold mapped'. destruct (resolve_renames metas table stored k cols mapped') as [m ch].
    assert (apply_all ch (with_tables working (<[table := with_columns layout mapped']> (ca_tables working))) tx = (Ok (with_tables working (<[table := with_columns layout m]> (ca_tables working))), tx)) as E.
    { rewrite IH; [|cbn; by rewrite lookup_insert_eq|done|done|done|].
      - cbn. by rewrite insert_insert_eq.
      - intros c' from' Hc' Es' [E2|Hin]%Hsub; [apply Hcn; rewrite <- E2; by apply name_in|]. by eapply (Hsrc c'); [right|..]. }
    rewrite auto_apply_app. destruct (decide (from ∈ names mapped)) as [Hin|Hout].
    + assert (length (List.filter (fun x => bool_decide (sc_name x = from)) mapped) = 1%nat) as Hone.
      { clear -Hm Hin. induction mapped as [|s l IH]; [by inversion Hin|]. apply NoDup_cons in Hm as [Hn Hm]. cbn [List.filter]. case_bool_decide as E.
        - simpl. f_equal. rewrite (filter_all_false _ l); [done|]. apply Forall_forall. intros x Hx. apply bool_decide_false. intros E2. apply Hn. rewrite E, <- E2. by apply name_in.
        - apply IH; [done|]. by apply elem_of_cons in Hin as [?|?]; [congruence|]. }
      destruct (List.filter _ mapped) as [|x [|y l]]; [done| |done]. cbn [map auto_apply apply_change]. rewrite Hw. unfold mbind, sm_bind, mret, sm_ret. rewrite El. exact E.
    + rewrite filter_all_false. 2: { apply Forall_forall. intros x Hx. apply bool_decide_false. intros E2. apply Hout. rewrite <- E2. by apply name_in. }
      cbn [map auto_apply]. unfold mret, sm_ret. rewrite <- E. f_equal. assert (mapped' = mapped) as ->.
      { unfold mapped', rename_in. clear -Hout. induction mapped as [|s l IH]; [done|]. apply not_elem_of_cons in Hout as [H1 H2]. cbn [map]. rewrite bool_decide_false by congruence. f_equal. by apply IH. }
      destruct working as [tabs tr], layout as [cs pk]. unfold with_tables, with_columns. simpl in *. subst cs. f_equal. symmetry. by apply insert_id.
Qed.

(** The values appended for new columns. *)
Definition defaults_of (table : list Z) (added : list StoredColumn) : row := omap (fun c => default_of metas table (sc_name c)) added.

Definition well_typed (table : list Z) (added : list StoredColumn) : Prop :=
  Forall (fun c => forall dv, default_of metas table (sc_name c) = Some dv -> matches_type dv (plain (sc_ty c)) = true) added.

(** Additions append columns to one layout and defaults to its rows. *)
Lemma apply_additions table k added : sh_tables schema !! table = Some k -> NoDup (names (st_columns k)) -> Forall (fun c => c ∈ st_columns k) added ->
  Forall (fun c => is_Some (default_of metas table (sc_name c))) added -> well_typed table added ->
  forall working tx layout rs, ca_tables working !! table = Some layout -> rows_are env w tx (table_id table) rs -> Forall (fun p => length p.2 = length (st_columns layout)) rs ->
  exists tx', apply_all (map (fun c => SchemaChange.AddColumnWithDefault table (sc_name c)) added) working tx =
      (Ok (with_tables working (<[table := with_columns layout (st_columns layout ++ added)]> (ca_tables working))), tx') /\
    rows_are env w tx' (table_id table) (map (fun p => (p.1, p.2 ++ defaults_of table added)) rs) /\
    forall id rs', id <> table_id table -> rows_are env w tx id rs' -> rows_are env w tx' id rs'.
Proof.
  intros Hk Hnd Hin Hd Ht. induction added as [|c added IH]; intros working tx layout rs Hw Hr Hl.
  - exists tx. split; [|split; [|done]].
    + cbn. unfold mret, sm_ret. do 2 f_equal. destruct working as [tabs tr], layout as [cs pk]. unfold with_tables, with_columns. simpl in *. f_equal. rewrite app_nil_r. symmetry. by apply insert_id.
    + unfold defaults_of. cbn. by rewrite (map_ext _ id), map_id by (intros [? ?]; cbn; by rewrite app_nil_r).
  - apply Forall_cons in Hin as [Hc Hin], Hd as [[dv Ed] Hd], Ht as [Hty Ht]. destruct (append_column_spec table_id env w tx table rs _ dv Hr Hl) as (tx1 & Ea & Hr1 & Hf1).
    set (layout1 := with_columns layout (st_columns layout ++ [c])). set (working1 := with_tables working (<[table := layout1]> (ca_tables working))).
    destruct (IH Hin Hd Ht working1 tx1 layout1 (map (fun p => (p.1, p.2 ++ [dv])) rs)) as (tx' & E & Hr' & Hf'); [cbn; by rewrite lookup_insert_eq|done| |].
    { rewrite Forall_forall in *. intros p Hp. rewrite list_elem_of_In, in_map_iff in Hp. destruct Hp as (q & <- & Hq%list_elem_of_In). cbn. rewrite !length_app, (Hl q Hq). done. }
    exists tx'. split; [|split].
    + cbn [map auto_apply apply_change]. rewrite Ed, Hk. cbn [mbind option_bind]. rewrite (find_column_spec c _ Hnd Hc), (Hty dv Ed). cbn [negb]. rewrite Hw. unfold mbind at 1, sm_bind at 1. unfold mbind at 1, sm_bind at 1. rewrite Ea. unfold mret at 1, sm_ret at 1.
      replace {| sc_name := sc_name c; sc_ty := sc_ty c |} with c by (by destruct c). fold layout1. fold working1. rewrite E. cbn. rewrite insert_insert_eq. unfold with_tables, with_columns. cbn. by rewrite <- app_assoc.
    + rewrite map_map in Hr'. unfold defaults_of in *. cbn [omap list_omap]. rewrite Ed. erewrite map_ext; [exact Hr'|]. intros p. cbn. by rewrite <- app_assoc.
    + intros id rs' Hne Hrs. by apply Hf', Hf1.
Qed.

(** The columns a table gains, and its rows with their defaults. *)
Definition gained (s k : StoredTable) : list StoredColumn := skipn (length (st_columns s)) (st_columns k).
Definition extended (table : list Z) (s k : StoredTable) (rs : list (list Z * row)) : list (list Z * row) := map (fun p => (p.1, p.2 ++ defaults_of table (gained s k))) rs.

(** Unique column names, typed defaults, and rows of the stored arity. *)
Definition migratable tx (table : list Z) (s k : StoredTable) : Prop :=
  NoDup (names (st_columns s)) /\ NoDup (names (st_columns k)) /\ well_typed table (gained s k) /\
  exists rs, rows_are env w tx (table_id table) rs /\ Forall (fun p => length p.2 = length (st_columns s)) rs.

Lemma compiled_table table k : ca_tables compiled !! table = Some k -> sh_tables schema !! table = Some k.
Proof. cbn. intros [H _]%map_lookup_filter_Some. done. Qed.

Lemma apply_table table s k working tx : ca_tables working !! table = Some s -> ca_tables compiled !! table = Some k -> migratable tx table s k ->
  forallb is_safe (diff_table metas table s k) = true ->
  exists tx', apply_all (diff_table metas table s k) working tx = (Ok (with_tables working (<[table := k]> (ca_tables working))), tx') /\
    (forall rs, rows_are env w tx (table_id table) rs -> rows_are env w tx' (table_id table) (extended table s k rs)) /\
    forall id rs', id <> table_id table -> rows_are env w tx id rs' -> rows_are env w tx' id rs'.
Proof.
  intros Hw Hk%compiled_table (Hs & Hkn & Hty & rs & Hr & Hl) Hsafe.
  destruct (safe_extends metas table s k Hs Hkn Hsafe) as (added & E & Hd & Hkey). rewrite (extends_diff metas table s k Hkn added E Hd Hkey).
  assert (gained s k = added) as Eg by (unfold gained; rewrite E; apply drop_app_length'; by rewrite length_map). rewrite Eg in Hty.
  pose proof (resolve_eq metas table s k) as Er. pose proof (apply_renames table s k (st_columns k) (st_columns s) working tx s Hw eq_refl Hs Hkn) as Hren.
  destruct (resolve_renames metas table s k (st_columns k) (st_columns s)) as [m ch]. cbn [fst snd] in *. subst m. set (m := map (renamed metas table s k) (st_columns s)) in *.
  rewrite auto_apply_app, Hren by (intros c from _ (Hn & _)%source_spec; done).
  destruct (apply_additions table k added Hk Hkn) with (working := with_tables working (<[table := with_columns s m]> (ca_tables working))) (tx := tx) (layout := with_columns s m) (rs := rs) as (tx' & Ea & Hr' & Hf).
  - apply Forall_forall. intros c Hc. rewrite E. by apply elem_of_app; right.
  - done.
  - done.
  - cbn. by rewrite lookup_insert_eq.
  - done.
  - unfold m. cbn. by rewrite length_map.
  - exists tx'. split; [|split; [|done]].
    + rewrite Ea. cbn. rewrite insert_insert_eq. unfold with_tables, with_columns. cbn. rewrite <- E. do 4 f_equal. destruct k as [kc kp]. cbn in *. by f_equal.
    + intros rs2 Hr2. assert (rs2 = rs) as ->; [|unfold extended; by rewrite Eg]. pose proof (migrate_rows_spec _ _ _ _ _ Hr) as E1. pose proof (migrate_rows_spec _ _ _ _ _ Hr2) as E2. congruence.
Qed.

Context (stored : StoredCatalog).

Definition changes_of (table : list Z) : list SchemaChange.t :=
  match ca_tables stored !! table, ca_tables compiled !! table with
  | None, Some _ => [SchemaChange.AddTable table]
  | Some _, None => [SchemaChange.RemoveTable table]
  | Some s, Some k => diff_table metas table s k
  | None, None => []
  end.

Lemma diff_catalogs_eq : diff_catalogs_with metas stored compiled = flat_map changes_of (btree_keys (ca_tables stored ∪ ca_tables compiled)).
Proof. done. Qed.

Lemma apply_names ns : NoDup ns -> forall working tx, (forall n n', n ∈ ns -> n' ∈ ns -> table_id n = table_id n' -> n = n') ->
  (forall n, n ∈ ns -> ca_tables working !! n = ca_tables stored !! n) -> (forall n, n ∈ ns -> is_Some (ca_tables stored !! n) \/ is_Some (ca_tables compiled !! n)) ->
  (forall n s k, n ∈ ns -> ca_tables stored !! n = Some s -> ca_tables compiled !! n = Some k -> migratable tx n s k) -> forallb is_safe (flat_map changes_of ns) = true ->
  exists tx' m, apply_all (flat_map changes_of ns) working tx = (Ok (with_tables working m), tx') /\
    (forall n, m !! n = if decide (n ∈ ns) then ca_tables compiled !! n else ca_tables working !! n) /\
    (forall n s k rs, n ∈ ns -> ca_tables stored !! n = Some s -> ca_tables compiled !! n = Some k -> rows_are env w tx (table_id n) rs -> rows_are env w tx' (table_id n) (extended n s k rs)) /\
    forall id rs, (forall n, n ∈ ns -> id <> table_id n) -> rows_are env w tx id rs -> rows_are env w tx' id rs.
Proof.
  induction ns as [|n ns IH]; intros Hnd working tx Hinj Hw Hin Hmig Hsafe.
  { exists tx, (ca_tables working). split; [by destruct working|]. split; [intros n; by rewrite decide_False by (intros H; inversion H)|]. split; [intros n s k rs H; inversion H|done]. }
  apply NoDup_cons in Hnd as [Hn Hnd]. cbn [flat_map] in *. rewrite forallb_app, andb_true_iff in Hsafe. destruct Hsafe as [Hsafe1 Hsafe2].
  assert (exists tx1 v, apply_all (changes_of n) working tx = (Ok (with_tables working (<[n := v]> (ca_tables working))), tx1) /\ ca_tables compiled !! n = Some v /\
    (forall s rs, ca_tables stored !! n = Some s -> rows_are env w tx (table_id n) rs -> rows_are env w tx1 (table_id n) (extended n s v rs)) /\
    forall id rs, id <> table_id n -> rows_are env w tx id rs -> rows_are env w tx1 id rs) as (tx1 & v & E1 & Ev & Hr1 & Hf1).
  { unfold changes_of in *. specialize (Hin n ltac:(left)). pose proof (Hw n ltac:(left)) as Hwn. destruct (ca_tables stored !! n) as [s|] eqn:Es, (ca_tables compiled !! n) as [k|] eqn:Ek.
    - destruct (apply_table n s k working tx Hwn Ek (Hmig n s k ltac:(left) Es Ek) Hsafe1) as (tx1 & E & Hr & Hf). exists tx1, k. split; [done|]. split; [done|]. split; [intros s' rs [= <-]; apply Hr|done].
    - done.
    - exists tx, k. split; [cbn [auto_apply apply_change]; by rewrite Ek|]. split; [done|]. split; [done|done].
    - by destruct Hin as [[? [=]]|[? [=]]]. }
  destruct (IH Hnd (with_tables working (<[n := v]> (ca_tables working))) tx1) as (tx' & m & E & Hm & Hr & Hf); [..|exact Hsafe2|].
  - intros n1 n2 H1 H2. apply Hinj; by right.
  - intros n1 H1. cbn. rewrite lookup_insert_ne by (intros ->; done). apply Hw. by right.
  - intros n1 H1. apply Hin. by right.
  - intros n1 s k H1 Es Ek. destruct (Hmig n1 s k ltac:(by right) Es Ek) as (? & ? & ? & rs & Hrs & Hl). do 3 (split; [done|]). exists rs. split; [|done]. apply Hf1; [|done]. intros E. apply Hn. replace n with n1; [done|]. apply Hinj; [by right|left|done].
  - exists tx', m. split; [rewrite auto_apply_app, E1, E; done|]. split; [|split].
    + intros n1. rewrite Hm. cbn. destruct (decide (n1 ∈ ns)) as [H1|H1]; [by rewrite decide_True by by right|]. destruct (decide (n1 = n)) as [->|Hne].
      * by rewrite lookup_insert_eq, decide_True by left.
      * rewrite lookup_insert_ne, decide_False by (try congruence; intros [?|?]%elem_of_cons; done). done.
    + intros n1 s k rs [->|H1]%elem_of_cons Es Ek Hrs.
      * rewrite Ev in Ek. injection Ek as ->. apply Hf; [|by apply Hr1]. intros n2 H2 E2. apply Hn. replace n with n2; [done|]. apply Hinj; [by right|left|done].
      * apply Hr; [done..|]. apply Hf1; [|done]. intros E2. apply Hn. replace n with n1; [done|]. apply Hinj; [by right|left|done].
    + intros id rs Hid Hrs. apply Hf; [intros n1 H1; apply Hid; by right|]. apply Hf1; [apply Hid; left|done].
Qed.

(** Rows of the stored layout, with the defaults, have the compiled layout. *)
Definition fits_layout (t : StoredTable) (r : row) : Prop := Forall2 (fun v c => matches_type v (plain (sc_ty c)) = true) r (st_columns t).

Lemma extended_fits table s k r : NoDup (names (st_columns s)) -> NoDup (names (st_columns k)) -> well_typed table (gained s k) -> forallb is_safe (diff_table metas table s k) = true ->
  fits_layout s r -> fits_layout k (r ++ defaults_of table (gained s k)).
Proof.
  intros Hs Hk Hty Hsafe Hr. destruct (safe_extends metas table s k Hs Hk Hsafe) as (added & E & Hd & _).
  assert (gained s k = added) as Eg by (unfold gained; rewrite E; apply drop_app_length'; by rewrite length_map). rewrite Eg in *. unfold fits_layout. rewrite E. apply Forall2_app.
  - unfold fits_layout in Hr. clear -Hr. induction Hr as [|v c r l Hv _ IH]; cbn [map]; constructor; [by rewrite renamed_ty|done].
  - clear -Hd Hty. induction Hd as [|c added [dv Ed] _ IH]; [constructor|]. apply Forall_cons in Hty as [Hc Hty]. unfold defaults_of. cbn [omap list_omap]. rewrite Ed. constructor; [by apply Hc|by apply IH].
Qed.

Lemma auto_apply_reaches tx : forallb is_safe (diff_catalogs_with metas stored compiled) = true ->
  (forall n n', is_Some ((ca_tables stored ∪ ca_tables compiled) !! n) -> is_Some ((ca_tables stored ∪ ca_tables compiled) !! n') -> table_id n = table_id n' -> n = n') ->
  (forall n s k, ca_tables stored !! n = Some s -> ca_tables compiled !! n = Some k -> migratable tx n s k) ->
  exists tx', apply_all (diff_catalogs_with metas stored compiled) stored tx = (Ok (with_tables stored (ca_tables compiled)), tx') /\
    forall n s k rs, ca_tables stored !! n = Some s -> ca_tables compiled !! n = Some k -> rows_are env w tx (table_id n) rs -> rows_are env w tx' (table_id n) (extended n s k rs).
Proof.
  rewrite diff_catalogs_eq. intros Hsafe Hinj Hmig. set (ns := btree_keys (ca_tables stored ∪ ca_tables compiled)) in *.
  assert (forall n, n ∈ ns <-> is_Some (ca_tables stored !! n) \/ is_Some (ca_tables compiled !! n)) as Hns.
  { intros n. unfold ns. rewrite elem_of_btree_keys, lookup_union_is_Some. done. }
  destruct (apply_names ns (btree_keys_NoDup _) stored tx) as (tx' & m & E & Hm & Hr & _).
  - intros n n' H1 H2. apply Hinj; by apply elem_of_btree_keys.
  - done.
  - intros n. apply Hns.
  - intros n s k _. apply Hmig.
  - done.
  - exists tx'. split.
    + rewrite E. do 3 f_equal. apply map_eq. intros n. rewrite Hm. destruct (decide (n ∈ ns)) as [Hn|Hn]; [done|]. rewrite Hns in Hn.
      destruct (ca_tables stored !! n) eqn:E1; [exfalso; apply Hn; left; by eexists|]. destruct (ca_tables compiled !! n) eqn:E2; [exfalso; apply Hn; right; by eexists|done].
    + intros n s k rs Es Ek. apply (Hr n s k rs); [apply Hns; left; by eexists|done..].
Qed.

Lemma apply_change_transforms c working tx wk tx' : apply_change table_id env w schema compiled metas working c tx = (Ok wk, tx') -> ca_transforms wk = ca_transforms working.
Proof.
  destruct c; cbn [apply_change]; unfold sm_fail, mret, sm_ret, mbind, sm_bind; intros E; repeat (case_match; try discriminate E); by inversion E.
Qed.

Lemma auto_apply_transforms l : forall working tx wk tx', apply_all l working tx = (Ok wk, tx') -> ca_transforms wk = ca_transforms working.
Proof.
  induction l as [|c l IH]; intros working tx wk tx'; cbn [auto_apply]; unfold mbind, sm_bind, mret, sm_ret; [by intros [= <- _]|].
  destruct (apply_change _ _ _ _ _ _ _ c tx) as [[w1|e] tx1] eqn:E1; [|done]. intros E. rewrite (IH _ _ _ _ E). by eapply apply_change_transforms.
Qed.

Context {MC : MetaCodec} (blobs : option B) (meta_id : TableId).
Notation tail := (run_tail table_id env blobs w meta_id schema).

(** C23: when the code's version is above the stored one, every difference is a safe change
    and the transforms agree, the startup transaction passes all its checks and only
    the two metadata rows remain to be written: every stored table's rows are the rows
    it had with the defaults of the new columns appended, and a row that had the stored
    layout's types has the compiled layout's. *)
Theorem auto_migration code stored_version current tx : code <> stored_version -> code <> current -> ca_transforms stored = ca_transforms compiled ->
  forallb is_safe (diff_catalogs_with metas stored compiled) = true ->
  (forall n n', is_Some ((ca_tables stored ∪ ca_tables compiled) !! n) -> is_Some ((ca_tables stored ∪ ca_tables compiled) !! n') -> table_id n = table_id n' -> n = n') ->
  (forall n s k, ca_tables stored !! n = Some s -> ca_tables compiled !! n = Some k -> migratable tx n s k) ->
  exists tx', tail code stored_version current metas stored tx =
      (write_meta env blobs w meta_id META_KEY_VERSION (encode_version code) ≫= fun _ =>
       write_meta env blobs w meta_id META_KEY_CATALOG (encode_catalog compiled) ≫= fun _ => mret (diff_catalogs_with metas stored compiled)) tx' /\
    forall n s k rs, ca_tables stored !! n = Some s -> ca_tables compiled !! n = Some k -> rows_are env w tx (table_id n) rs ->
      migrate_rows w (table_id n) tx' = (Ok (extended n s k rs), tx') /\
      forall p, p ∈ rs -> fits_layout s p.2 -> exists r, (p.1, r) ∈ extended n s k rs /\ fits_layout k r /\ firstn (length p.2) r = p.2.
Proof.
  intros Hv Hcur Htr Hsafe Hinj Hmig. destruct (auto_apply_reaches tx Hsafe Hinj Hmig) as (tx' & E & Hr). exists tx'. split.
  - unfold run_tail. rewrite Htr, (bool_decide_true (ca_transforms compiled = ca_transforms compiled)), andb_false_r by done. rewrite (proj2 (Z.eqb_neq code stored_version) Hv), andb_false_r, Hsafe. cbn [negb].
    rewrite (proj2 (Z.eqb_neq current code)), andb_false_r by done. unfold mbind at 1, sm_bind at 1. rewrite E.
    rewrite bool_decide_true by (unfold with_tables; rewrite Htr; by destruct compiled). done.
  - intros n s k rs Es Ek Hrs. split; [eapply migrate_rows_spec; by apply Hr|]. intros p Hp Hfit. destruct (Hmig n s k Es Ek) as (Hs & Hk & Hty & _).
    exists (p.2 ++ defaults_of n (gained s k)). split; [|split].
    + unfold extended. rewrite list_elem_of_In. apply (in_map (fun p : list Z * row => (p.1, p.2 ++ defaults_of n (gained s k)))). by apply list_elem_of_In.
    + apply extended_fits; try done. rewrite diff_catalogs_eq in Hsafe. rewrite forallb_forall in Hsafe |- *. intros c Hc. apply Hsafe, in_flat_map. exists n. split.
      * apply list_elem_of_In, elem_of_btree_keys, lookup_union_is_Some. left. by eexists.
      * unfold changes_of. by rewrite Es, Ek.
    + by rewrite firstn_app, firstn_all, Nat.sub_diag, app_nil_r.
Qed.

(** C39: a catalog stored without transform fingerprints, under a binary that declares one,
    boots as long as nothing else changes, and can never be upgraded: once there is a
    schema change to apply or a version to stamp, startup fails on every store, because
    the fingerprints are compared before the commit and nothing before it adds them. *)
Theorem unfingerprinted_catalog_stuck code stored_version current tx : ca_transforms stored = ∅ -> ca_transforms compiled <> ∅ ->
  (diff_catalogs_with metas stored compiled = [] -> tail code code code metas stored tx = (Ok [], tx)) /\
  (diff_catalogs_with metas stored compiled <> [] \/ current <> code -> exists e tx', tail code stored_version current metas stored tx = (Err e, tx')).
Proof.
  intros Hs Hc. split.
  - intros E. unfold run_tail. rewrite Hs, bool_decide_true, E by done. cbn. by rewrite Z.eqb_refl.
  - intros Hd. unfold run_tail. rewrite Hs, (bool_decide_true (∅ = ∅)) by done. cbn [negb andb]. destruct (_ && (code =? stored_version)); [by eexists _, _|].
    destruct (negb (forallb is_safe _)); [by eexists _, _|]. replace (bool_decide _ && (current =? code)) with false.
    2: { symmetry. apply andb_false_iff. destruct Hd as [Hd|Hd]; [left; apply bool_decide_false; by intros ?%nil_length_inv|right; by apply Z.eqb_neq]. }
    unfold mbind at 1, sm_bind at 1. destruct (apply_all _ stored tx) as [[wk|e] tx'] eqn:E; [|by eexists _, _]. rewrite bool_decide_false; [by eexists _, _|].
    intros ->. apply auto_apply_transforms in E. congruence.
Qed.
End apply.
