(* ===== verification/MigrationSample.v ===== *)
(** A stored catalog and a store to migrate: users (id, badge) become
    users (id, tag, score), the badge renamed and the score defaulting to zero,
    and a table is added. *)

From stdpp Require Import base list gmap sorting numbers.
From Stdlib Require Import ZArith Lia.
From S2P Require Import Prelude FluxBin Row IndexKey TxState LogRecord PageFormat PagedTree PagedTreeNode PagedTreeRep PagedTreeSpec KvTree TableState TableSpec Reclaim MemStore MergeSpec StoreSpec StoreBuild TxSpec RefSpec Transaction Sample StoreProps Migration MigrationProps.
From stdpp Require Import list.
#[local] Open Scope Z_scope.

Notation col n ty := {| sc_name := n; sc_ty := ty |}.

Definition ID : list Z := [105].
Definition BADGE : list Z := [98].
Definition TAG : list Z := [116].
Definition SCORE : list Z := [115].

Definition old_users : StoredTable := {| st_columns := [col ID StoredType.U64; col BADGE StoredType.U64]; st_primary_key := [0] |}.
Definition new_users : StoredTable := {| st_columns := [col ID StoredType.U64; col TAG StoredType.U64; col SCORE StoredType.U64]; st_primary_key := [0] |}.
Definition new_posts : StoredTable := {| st_columns := [col ID StoredType.U64]; st_primary_key := [0] |}.

Definition new_schema (fps : list (list Z * list Z * list Z)) : Schema := {| sh_tables := {[ [1] := new_users; [2] := new_posts ]}; sh_transforms := fps |}.
Definition old_catalog : StoredCatalog := {| ca_tables := {[ [1] := old_users ]}; ca_transforms := ∅ |}.

Definition user_meta : TableColumnMeta := {| tm_table := [1]; tm_defaults := [(SCORE, RowValue.U64 0)]; tm_renames := [(TAG, BADGE)] |}.

#[local] Instance sample_meta : MetaCodec := {| encode_version v := Some [v]; encode_catalog _ := Some [] |}.

Definition upgrade : list SchemaChange.t :=
  [SchemaChange.RenameColumn [1] BADGE TAG; SchemaChange.AddColumnWithDefault [1] SCORE; SchemaChange.AddTable [2]].

Lemma upgrade_diff fps : diff_catalogs_with [user_meta] old_catalog (from_schema (new_schema fps)) = upgrade.
Proof. vm_compute. reflexivity. Qed.

(** The store holds users under the old layout. *)
Definition old_world : PagedWorld := ms_world (sample_committed Cascade).
Definition old_tx : SampleTx := (begin (sample_committed Cascade)).1.
Definition new_info : TableInfo := {| ti_schema := {| columns := [FluxType.U64; FluxType.U64; FluxType.U64]; primary_key := [0%nat] |}; ti_auto_inc := None; ti_access := Public |}.
Definition new_env : StoreEnv := {|
  catalog := {[ 1 := new_info ]}; options := sample_options; transforms := None; computed := ∅; checks := ∅; not_null := ∅;
  fks_out := ∅; fks_in := ∅; has_triggers := fun _ => false; global_writes_allowed := true |}.
Definition old_rows : list (list Z * row) := [(le_bytes 8 2, user 2 20)].

Lemma old_rows_are : rows_are new_env old_world old_tx 1 old_rows.
Proof.
  assert (match cs_table (tx_base old_tx) 1 with Ok bt => for_each_row old_world bt = Ok old_rows /\ contains_pk old_world bt (le_bytes 8 2) = Ok true | Err _ => False end) as H by (vm_compute; split; reflexivity).
  destruct (cs_table (tx_base old_tx) 1) as [bt|] eqn:E; [|destruct H]. destruct H as [H1 H2]. exists new_info, bt, old_rows.
  split; [reflexivity|]. split; [exact E|]. split; [exact H1|]. split; [apply NoDup_singleton|]. split; [by constructor|]. vm_compute. reflexivity.
Qed.

Lemma old_migratable n s k : ca_tables old_catalog !! n = Some s -> ca_tables (from_schema (new_schema [])) !! n = Some k ->
  migratable sample_table_id new_env old_world [user_meta] old_tx n s k.
Proof.
  intros Hs Hk. unfold old_catalog in Hs. cbn [ca_tables] in Hs. apply lookup_singleton_Some in Hs as [<- <-]. assert (k = new_users) as -> by (vm_compute in Hk; by inversion Hk).
  split; [|split; [|split]].
  - apply (bool_decide_unpack _). vm_compute. exact I.
  - apply (bool_decide_unpack _). vm_compute. exact I.
  - constructor; [|constructor]. intros dv [= <-]. reflexivity.
  - exists old_rows. split; [exact old_rows_are|by constructor].
Qed.

Lemma sample_names n n' : is_Some ((ca_tables old_catalog ∪ ca_tables (from_schema (new_schema []))) !! n) ->
  is_Some ((ca_tables old_catalog ∪ ca_tables (from_schema (new_schema []))) !! n') -> sample_table_id n = sample_table_id n' -> n = n'.
Proof.
  rewrite <- !elem_of_btree_keys. replace (btree_keys _) with [[1]; [2]] by (vm_compute; reflexivity). rewrite !elem_of_cons, !elem_of_nil.
  intros [->|[->|[]]] [->|[->|[]]]; done.
Qed.

(** The user keeps its values and gains the score; the table is added. *)
Lemma auto_migration_witness : exists tx', run_tail sample_table_id new_env (None (A := unit)) old_world 9 (new_schema []) 2 1 1 [user_meta] old_catalog old_tx =
      (write_meta new_env (None (A := unit)) old_world 9 META_KEY_VERSION (encode_version 2) ≫= fun _ =>
       write_meta new_env None old_world 9 META_KEY_CATALOG (encode_catalog (from_schema (new_schema []))) ≫= fun _ => mret upgrade) tx' /\
    migrate_rows old_world 1 tx' = (Ok [(le_bytes 8 2, [RowValue.U64 2; RowValue.U64 20; RowValue.U64 0])], tx').
Proof.
  destruct (auto_migration sample_table_id new_env old_world (new_schema []) [user_meta] old_catalog (None (A := unit)) 9 2 1 1 old_tx) as (tx' & E & Hr).
  - done.
  - done.
  - reflexivity.
  - rewrite upgrade_diff. reflexivity.
  - exact sample_names.
  - exact old_migratable.
  - exists tx'. rewrite upgrade_diff in E. split; [exact E|]. exact (proj1 (Hr [1] old_users new_users old_rows eq_refl eq_refl old_rows_are)).
Defined.

(** The same upgrade with the tag encrypted. *)
Lemma unfingerprinted_catalog_stuck_witness : exists e tx',
  run_tail sample_table_id new_env (None (A := unit)) old_world 9 (new_schema [([1], TAG, [69])]) 2 1 1 [user_meta] old_catalog old_tx = (Err e, tx') /\ e = MigrationError.NotConverged.
Proof.
  destruct (unfingerprinted_catalog_stuck sample_table_id new_env old_world (new_schema [([1], TAG, [69])]) [user_meta] old_catalog (None (A := unit)) 9 2 1 1 old_tx) as [_ Hstuck];
    [reflexivity|vm_compute; discriminate|].
  destruct Hstuck as (e & tx' & E); [by right|]. exists e, tx'. split; [exact E|]. assert (match (run_tail sample_table_id new_env (None (A := unit)) old_world 9 (new_schema [([1], TAG, [69])]) 2 1 1 [user_meta] old_catalog old_tx).1 with Err e => e | Ok _ => MigrationError.Encode end = MigrationError.NotConverged) as H by (vm_compute; reflexivity).
  by rewrite E in H.
Defined.

(** The diff of the two layouts of users. *)
Lemma safe_diff_extends_witness : forallb is_safe (diff_table [user_meta] [1] old_users new_users) = true /\ extends [user_meta] [1] old_users new_users.
Proof.
  assert (forallb is_safe (diff_table [user_meta] [1] old_users new_users) = true) as H by (vm_compute; reflexivity). split; [exact H|].
  apply (safe_diff_extends [user_meta] [1] old_users new_users); [apply (bool_decide_unpack _); vm_compute; exact I..|exact H].
Defined.
